(* ===== verification/_CoqProject ===== *)
-Q . S2P
Prelude.v
Double.v
CppString.v
Types.v
FixedPoint.v
StateMachine.v
RateLimiter.v
Risk.v
Book.v
Aggregator.v
FillManager.v
ExecutionHandler.v
Strategy.v
Sweep.v
SmartIOC.v
Vwap.v
Engine.v
QueueSpec.v
SpscQueue.v
MpscQueue.v
MemoryPool.v
Gateway.v
GatewayFills.v
SimulatedExchange.v
Codec.v
NetworkService.v
Fix.v
FixGateway.v
Feed.v
Replay.v
MpmcQueue.v
Executor.v
Scheduler.v
EventLoop.v
AsyncTask.v
Backpressure.v
Metrics.v
Lexer.v
Task.v
StringUtils.v
LuftConfig.v
FlightMath.v
Flight.v
Simulation.v
Config.v
Numeric.v
LinearAlgebra.v
Game.v
SupportEnumeration.v
LemkeHowson.v
PathFollower.v
Homotopy.v
Json.v
ApiGateway.v
Alpaca.v
SorController.v
SorMetrics.v
Tracing.v
ZmqTransport.v
MetricsRegistry.v
TimeUtils.v
