(* ===== verification/Prelude.v ===== *)
(** * Verification of the klett repository

    The repository holds five C++ projects; this development models the smart
    order router under [src/sor/], the largest one, the concurrency library
    under [src/cunk/], the core of the flight simulation under [src/luft/],
    the equilibrium solvers under [src/nash/] and the lexer under
    [src/kaleidoscope/].  In the router, an
    order enters through the gateway (from its owner, a FIX session or a JSON
    request),
    is checked by the risk manager, sliced
    by a routing strategy against the aggregated market data, dispatched to
    venue adapters as child orders, and followed through the execution reports
    the venues send back; fills end up in the fill manager and in the
    positions of the risk manager.  Quotes reach the aggregator from a feed
    handler, the Alpaca provider or the replay of recorded ticks.  The
    controller behind the user interface closes the loop: it owns the gateway,
    its exchanges and its feeds, and displays what they report.  In the concurrency library,
    the bounded queue carries the tasks of the executor and the events of the
    event loop.  The simulation steps its aircraft under the commands its
    network service and its input manager deliver.  The solvers share the
    linear algebra and the residual by which a profile is judged.

    ** Files

    - [Prelude]: machine integers, sums, sorting and the list and map lemmas
      the components share; the classes [UnorderedMap] (the iteration order of
      [std::unordered_map]: any permutation) and [StdSort] (what [std::sort]
      promises).
    - [Double]: the C++ [double], on the executable IEEE 754 specification of
      the Standard Library.
    - [CppString]: the library calls the parsers make: printing integers,
      [strtoll], [strtoul], [strtod], [stod], splitting at a delimiter, with
      the errors they report.
    - [Types], [FixedPoint], [StateMachine]: core/types.h, order.h,
      fixed_point.h, state/order_state_machine.h: identifiers, [FixedString],
      orders and reports; 64-bit fixed-point arithmetic; the transition table
      built as the code builds it, against the relation [transition].
    - [RateLimiter], [Risk]: risk/: the lock-free fixed-window limiter, a step
      per atomic operation, in any interleaving; the kill switch; limits,
      check, positions and pending quantities of the risk manager.
    - [Book], [Aggregator]: market_data/book.h, aggregator.h: the array sides
      with their index loops, the venue books, the cached NBBO, the aggregated
      book.
    - [FillManager], [ExecutionHandler]: execution/: the fill indexes and
      averages; the processing of execution reports with the parent's
      aggregation, the reroute and the completion.
    - [Strategy], [Sweep], [SmartIOC], [Vwap], [Engine]: routing/: the class
      [RoutingStrategy] is the abstract strategy with the laws its clients
      use; BestPrice, LiquiditySweep, SmartIOC and VWAP are its instances; the
      engine is written and proved against the class.
    - [QueueSpec], [SpscQueue], [MpscQueue], [MemoryPool]: core/: the
      lock-free structures as transition systems, a step per atomic operation
      of each thread, against sequential specifications.
    - [Gateway], [GatewayFills]: gateway/gateway.cpp: the composition, as
      operations interleaved in any order; what its observer and its venues
      see of it.
    - [SimulatedExchange]: connectors/simulated_exchange.cpp: the venue with
      its matching engine, for arbitrary draws and clock readings.
    - [Fix], [FixGateway]: connectors/fix_adapter.cpp, gateway/fix_gateway.cpp:
      the tag-value messages with their printer and parser, the session of
      the outgoing adapter, the messages the gateway accepts and the reports
      it answers with.
    - [Feed], [Replay]: market_data/: the simulated feed handler with its
      generator, the quality monitor of a feed, the replay of ticks from CSV
      files or generated.
    - [Config], [StringUtils]: infra/config.cpp, utils/string_utils.cpp: the
      YAML document behind the interface [Yaml] with its laws, its flattening
      and its reading into a configuration, the validation, the manager with
      its polls; splitting, trimming and formatting.
    - [LuftConfig], [FlightMath], [Flight], [Simulation]: luft/src/core/: the
      key = value configuration; vectors, quaternions and angles; atmosphere,
      wind, engine, aerodynamics and the Runge-Kutta step in binary64, the
      transcendental functions being the operations of [Libm]; the life cycle
      of the simulation, its validity checks and the controls.
    - [Codec], [NetworkService]: luft/src/core/net/: the framing and the
      payloads of the wire protocol; the server's and client's connections,
      over the results of the socket calls.
    - [MpmcQueue], [Executor], [EventLoop]: cunk/: the queue as a transition
      system, a step per atomic operation, against a history of places; what
      its clients see of it ([history_step_view]); the pool of stealing
      workers and the event loop on top of that view.
    - [Scheduler], [AsyncTask], [Backpressure], [Metrics]: cunk/: timed tasks
      over the class [StdPriorityQueue] (the heap may choose among equal
      deadlines); promises and continuations over a store of shared states;
      the retrying push; the latency tracker.
    - [Task]: cunk/: the small-buffer task over a store of objects with their
      lifetimes.
    - [Numeric], [LinearAlgebra], [Game], [SupportEnumeration],
      [LemkeHowson]: nash/: the class [Num] of arithmetics, with [double] and
      the exact rationals as instances; LU decomposition, solver, null space;
      bimatrix games and the residual; the search over pairs of supports; the
      tableaux and the complementary pivoting.
    - [PathFollower], [Homotopy]: nash/: Newton's method, the
      predictor-corrector path follower and the homotopy solver on top of it.
    - [Json], [ApiGateway]: gateway/api_gateway.cpp: what the code uses of the
      JSON library as a class with laws; the handlers of the requests.
    - [ZmqTransport]: gateway/zmq_transport.cpp, app/main.cpp: the server in
      front of these handlers, a step per call of its request thread; the
      dispatch of the requests and the events the main program publishes.
    - [Alpaca]: market_data/alpaca/: the normalizer of the quotes and the
      session of the provider, over the calls of the web socket, as whole
      calls and as the steps of its threads.
    - [SorController]: ui/sor_controller.cpp: the controller, a closed system
      of gateway, exchanges, feeds and provider, with the turns of its threads
      in any order.
    - [MetricsRegistry]: cunk/: the metrics by name, their report and dump.
    - [TimeUtils]: utils/time_utils.cpp: readings of the clocks as text, over
      the calendar.
    - [SorMetrics], [Tracing]: infra/metrics.cpp, tracing.cpp: the values of
      the metrics, a step per access of each thread; the traces of the orders
      and the collection of old ones.
    - [Lexer]: kaleidoscope/src/Lexer.cpp: the tokens, against a grammar.

    Each file has one module per class, named after it, with the class's data
    members as a record [t], its constructor as [create] and its methods under
    their own names; a loop body or a branch that a proof speaks about has a
    name of its own next to the method it belongs to.  Methods that report to
    a callback return the calls they make.

    ** What the theorems show

    - The pipeline: an order is refused with no trace or becomes exactly one
      tracked child per slice of the router's decision; an order stands where
      the events it took say and takes no others; positions are the signed sums of the recorded
      fills in every history; with the kill switch active nothing is sent;
      child identifiers increase.
    - The closed system: in every history of the controller the position
      displayed is the signed sum of the fills displayed; an exchange is
      called with exactly the orders the gateway sends it, every fill
      displayed is of such an order and within its limit, and no order is
      overfilled.
    - Risk: the check reports the first violated limit; while no more is
      accepted than the last check granted, filled plus pending quantity stays
      within the position limit, but for what is filled beyond what was
      pending; the limiter admits no more than its limit per window.
    - Market data: array sides refine price maps, the cached NBBO is the best
      of the venues' books, the aggregated book merges them.
    - Routing: no strategy but VWAP allocates more than the leaves quantity;
      a sweep fills all that is shown, an immediate-or-cancel sweep all that
      is within its band, fill-or-kill is all or nothing, BestPrice is
      optimal; the engine's decisions respect every check.
    - Messages: a FIX message reads back as it was written, and so does the
      order the adapter sends and the report the gateway answers with; a
      decoder fed the bytes of a sequence of wire messages in any chunks
      returns exactly these messages; telemetry is streamed whole but
      for hard send errors, and commands are delivered in order; the FIX
      adapter logs what its calls answer, in numbered sessions when they do
      not overlap.  A JSON request submits exactly the order its sender
      means, and a text without one changes nothing; the service
      answers every request once, in order, as one sequence of requests and
      other operations of the gateway, and its stop completes.
    - Feeds: every generated book is the ladder around its mid, uncrossed and
      sorted; the replay of any
      set of ticks terminates, calls back in the order of the timestamps and
      loads what a CSV file says; the provider publishes the
      books of the quotes it reads, numbered without gaps, and at rest has
      subscribed to what was requested.
    - Execution: fills of a parent are the sums of its children's; reroute and
      completion are requested exactly under their conditions; the exchange
      closes every order with exactly one final report.
    - Lock-free code: linearizability of the three queues, exclusive ownership
      in the memory pool, exact latency statistics, no lost update of a
      metric, under every interleaving.  A collection of traces keeps every
      open one and removes the oldest closed ones first.
    - Concurrency library: the executor runs what it accepts exactly once and
      its shutdown drains; timed tasks fire at their deadlines without drift,
      cancelled ones included, which the code does not cancel; events reach the handlers registered for them; a chain of continuations
      means the composition whichever side comes first.
    - Configuration: what is loaded is typed and is what the document says;
      the validations accept exactly the configurations they describe (and
      some that hold NaN or, for the router, a negative order quantity).
    - Simulation: in every history a simulation that runs is within its
      envelope; tasks never use an object after its end; the lexer reads the
      grammar.
    - Solvers: in exact arithmetic the linear solver is right and complete,
      the support enumeration reports equilibria and misses none with regular
      supports of the same size, and Lemke-Howson returns equilibria when it
      converges, unless it is back at the origin; the homotopy connects its start to the equilibria, and its
      solver returns for every game, with a profile whose residual is the one
      it reports and the best of those it keeps; in any
      arithmetic every pair of supports is tried once; with [double] a
      degenerate game makes the pivots cycle.
    - Deviations: theorems without a specification reading, such as
      [sweep_remainder_unbounded] or [open_orders_never_released], exhibit
      where the code does not do what it means to.

    ** Conventions and bounds

    - Integers are [Z], wrapped to their width by each operation; signed
      overflow wraps, division truncates, and a conversion of an out-of-range
      [double] gives the smallest 64-bit integer, as the x86-64 instruction
      does (C++ leaves it undefined).  Theorems that need the absence of
      overflow bound their inputs by the widths of the types.
    - The definitions of the solvers are written over [Num]: at [double] they
      are the code, at [Qc] they are the algorithm without rounding.  A theorem
      about exact arithmetic says so; it bounds nothing about rounding errors.
    - Clock readings and random draws are arguments, by call site, so the
      theorems hold for every clock and every generator.
    - A method that holds a mutex is one step; the FIX adapter and the Alpaca
      provider, which use flags outside their mutex or take it twice, are cut
      into their steps.  Lock-free code is a step per
      atomic access, sequentially consistent; the schedules of the MPSC and MPMC queues
      and of the pool are shorter than what the 64-bit positions and the
      32-bit tag can count, and that is the only bound on them.  Loops over
      containers are structural, retry loops are steps of a schedule.  Fuel
      is used to print an integer (the number of binary digits below the
      first, plus one for the last decimal digit: never fewer than the decimal
      digits), to follow a chain of continuations (the number of shared
      states, and a chain visits each once), in the retrying push, where
      a theorem says when it is enough, to flatten a document (its depth), in
      the loops over supports (as many rounds as there are subsets), and in
      the path follower, which retries a step by decrementing its counter: a
      theorem gives rounds that are enough in exact arithmetic.  The replay loop is a step of a
      program counter with a proved bound on the steps.
    - A moved-from [std::function] is empty, as both common libraries leave
      it; what a move leaves of other values is an argument.
    - The results of system calls (sockets, reads, writes) and of failed
      library calls are arguments or values of a sum: an exception the code
      throws is a constructor, and so is its handler's outcome.
    - The gateway's queues are bounded FIFOs (the MPSC theorem says what they
      are made of), its handlers single steps: the unsynchronised accesses of
      its two threads to the statistics and to the routing engine are not
      modelled as races.
    - Assertions are compiled out and logging is left out.

    ** Not modelled

    Of the router: the binary replay files (a memory dump of a struct),
    logging, the windows of the user interface, and the main program but for
    its service: it wires the other parts as the controller does.  Of the
    other projects: the window, the log and the main program of [luft], and
    the printing of the results of [nash]. *)

From Stdlib Require Export ZArith Lia Bool.
From stdpp Require Export base list gmap strings sorting relations.
From coqutil Require Export Datatypes.RecordSetters.
Export OCamlLikeNotations.
#[global] Arguments constant {E} _ _ /.

Open Scope Z_scope.
Declare Scope cpp_scope.
Delimit Scope cpp_scope with cpp.

(** ** Machine integers *)

(** The value of [z] in an unsigned [w]-bit integer. *)
Definition wrapu (w z : Z) : Z := z mod 2 ^ w.

(** The value of [z] in a two's complement [w]-bit integer. *)
Definition wraps (w z : Z) : Z :=
  (z + 2 ^ (w - 1)) mod 2 ^ w - 2 ^ (w - 1).

Definition i64 (z : Z) : Z := wraps 64 z.
Definition i32 (z : Z) : Z := wraps 32 z.
Definition u64 (z : Z) : Z := wrapu 64 z.
Definition u32 (z : Z) : Z := wrapu 32 z.
Definition u16 (z : Z) : Z := wrapu 16 z.
Definition u8 (z : Z) : Z := wrapu 8 z.

Definition INT64_MAX : Z := 9223372036854775807.
Definition INT64_MIN : Z := -9223372036854775808.

Definition in_i64 (z : Z) : Prop := INT64_MIN <= z <= INT64_MAX.
Definition in_i32 (z : Z) : Prop := -2147483648 <= z <= 2147483647.
Definition in_u64 (z : Z) : Prop := 0 <= z <= 18446744073709551615.
Definition in_u32 (z : Z) : Prop := 0 <= z <= 4294967295.

#[export] Instance in_i64_dec z : Decision (in_i64 z).
Proof. unfold in_i64; apply _. Defined.
#[export] Instance in_i32_dec z : Decision (in_i32 z).
Proof. unfold in_i32; apply _. Defined.
#[export] Instance in_u64_dec z : Decision (in_u64 z).
Proof. unfold in_u64; apply _. Defined.

(** 64-bit signed arithmetic, each operation wrapped to its width;
    division truncates towards zero, as in C++. *)
Notation "a +! b" := (i64 (a + b)) (at level 50, left associativity) : cpp_scope.
Notation "a -! b" := (i64 (a - b)) (at level 50, left associativity) : cpp_scope.
Notation "a *! b" := (i64 (a * b)) (at level 40, left associativity) : cpp_scope.
Notation "a /! b" := (i64 (Z.quot a b)) (at level 40, left associativity) : cpp_scope.
Open Scope cpp_scope.

(** [std::abs] and unary minus on [int64_t]. *)
Definition i64_abs (z : Z) : Z := i64 (Z.abs z).
Definition i64_opp (z : Z) : Z := i64 (- z).

(** [lia] with the width predicates and bounds unfolded. *)
Ltac mlia :=
  unfold in_i64, in_i32, in_u64, in_u32, INT64_MAX, INT64_MIN in *; lia.
Ltac mnia :=
  unfold in_i64, in_i32, in_u64, in_u32, INT64_MAX, INT64_MIN in *; nia.

Lemma wraps_range w z : 0 < w -> - 2 ^ (w - 1) <= wraps w z < 2 ^ (w - 1).
Proof.
  intros Hw. unfold wraps.
  assert (2 ^ w = 2 * 2 ^ (w - 1)) as H2.
  { rewrite <- Z.pow_succ_r by lia. f_equal; lia. }
  pose proof (Z.mod_pos_bound (z + 2 ^ (w - 1)) (2 ^ w)). lia.
Qed.

Lemma wraps_id w z :
  0 < w -> - 2 ^ (w - 1) <= z < 2 ^ (w - 1) -> wraps w z = z.
Proof.
  intros Hw Hz. unfold wraps.
  assert (2 ^ w = 2 * 2 ^ (w - 1)) as H2.
  { rewrite <- Z.pow_succ_r by lia. f_equal; lia. }
  rewrite Z.mod_small; lia.
Qed.

(** Wrapping adds a multiple of the modulus. *)
Lemma wraps_congr w z : exists k, wraps w z = z + k * 2 ^ w.
Proof.
  exists (- ((z + 2 ^ (w - 1)) / 2 ^ w)). unfold wraps.
  pose proof (Z.mod_eq (z + 2 ^ (w - 1)) (2 ^ w)) as H.
  destruct (Z.eq_dec (2 ^ w) 0) as [E|E].
  - rewrite E, Z.mod_0_r. lia.
  - rewrite H by done. lia.
Qed.

Lemma i64_range z : in_i64 (i64 z).
Proof. pose proof (wraps_range 64 z). unfold in_i64, i64. mlia. Qed.

Lemma i64_id z : in_i64 z -> i64 z = z.
Proof. intros. apply wraps_id; mlia. Qed.

Lemma i64_abs_id z : in_i64 (Z.abs z) -> i64_abs z = Z.abs z.
Proof. apply i64_id. Qed.

Lemma i64_opp_id z : in_i64 (- z) -> i64_opp z = - z.
Proof. apply i64_id. Qed.

Lemma i32_range z : in_i32 (i32 z).
Proof. pose proof (wraps_range 32 z). unfold in_i32, i32. mlia. Qed.

Lemma i32_id z : in_i32 z -> i32 z = z.
Proof. intros. apply wraps_id; mlia. Qed.

Lemma u64_id z : in_u64 z -> u64 z = z.
Proof. intros. apply Z.mod_small. mlia. Qed.

Lemma u64_range z : in_u64 (u64 z).
Proof.
  pose proof (Z.mod_pos_bound z (2 ^ 64)). unfold in_u64, u64, wrapu. mlia.
Qed.

Lemma u32_id z : in_u32 z -> u32 z = z.
Proof. intros. apply Z.mod_small. mlia. Qed.

Lemma i64_i64 z : i64 (i64 z) = i64 z.
Proof. apply i64_id, i64_range. Qed.

(** Wrapping commutes with ring operations: an intermediate wrap does not
    change the wrapped result. *)
Lemma wraps_mod w z : 0 < w -> wraps w z mod 2 ^ w = z mod 2 ^ w.
Proof.
  intros. destruct (wraps_congr w z) as [k ->].
  apply Z.mod_add. apply Z.pow_nonzero; lia.
Qed.

Lemma wraps_eq_mod w a b :
  0 < w -> a mod 2 ^ w = b mod 2 ^ w -> wraps w a = wraps w b.
Proof.
  intros Hw H. unfold wraps.
  rewrite (Z.add_mod a), (Z.add_mod b), H by (apply Z.pow_nonzero; lia). done.
Qed.

Lemma u64_add_l a b : u64 (u64 a + b) = u64 (a + b).
Proof. unfold u64, wrapu. by rewrite Z.add_mod_idemp_l. Qed.

Lemma i64_add_l a b : i64 (i64 a + b) = i64 (a + b).
Proof.
  apply wraps_eq_mod; [lia|]. unfold i64.
  rewrite Z.add_mod, wraps_mod, <- Z.add_mod by lia. done.
Qed.

Lemma i64_add_r a b : i64 (a + i64 b) = i64 (a + b).
Proof. rewrite Z.add_comm, i64_add_l. f_equal; lia. Qed.

Lemma i64_mul_l a b : i64 (i64 a * b) = i64 (a * b).
Proof.
  apply wraps_eq_mod; [lia|]. unfold i64.
  rewrite Z.mul_mod, wraps_mod, <- Z.mul_mod by lia. done.
Qed.

(** The database that removes wraps whose argument is in range. *)
Create Rewrite HintDb machine.
Create Rewrite HintDb wrap_norm.
Create HintDb ranges.
#[export] Hint Rewrite i64_id using mlia : machine.
#[export] Hint Rewrite i32_id using mlia : machine.
#[export] Hint Rewrite u64_id using mlia : machine.
#[export] Hint Rewrite u32_id using mlia : machine.
#[export] Hint Rewrite i64_i64 i64_add_l i64_add_r i64_mul_l : wrap_norm.
#[export] Hint Resolve i64_range i32_range u64_range : ranges.

(** Remove every wrap that range hypotheses discharge. *)
Ltac unwrap := unfold i64_abs, i64_opp in *; autorewrite with machine in *.

(** Compute the field updates [{ r with f := v }] and the projections. *)
Ltac fields := cbv [apply_update constant] in *; cbn in *.

(** The narrowing of a 128-bit intermediate. *)
Definition i128 (z : Z) : Z := wraps 128 z.

(** A product of two 64-bit values fits the 128-bit intermediate. *)
Lemma i128_product a b : in_i64 a -> in_i64 b -> i128 (a * b) = a * b.
Proof. intros. apply wraps_id; [lia|]. cbn. mnia. Qed.

(** Truncating division leaves an error smaller than the divisor, on the side
    of zero. *)
Lemma quot_error a b :
  b <> 0 -> Z.abs (a - b * Z.quot a b) < Z.abs b /\ Z.abs (b * Z.quot a b) <= Z.abs a.
Proof.
  intros Hb. pose proof (Z.quot_rem' a b) as E.
  pose proof (Z.rem_bound_abs a b Hb) as Hr.
  assert (0 <= Z.rem a b * a) as Hs by (apply Z.rem_sign_mul; done).
  split; [lia|]. destruct (Z.le_gt_cases 0 a).
  - assert (0 <= Z.rem a b) by (apply Z.rem_nonneg; lia).
    assert (Z.rem a b <= a).
    { destruct (Z.eq_dec a 0) as [->|]; [rewrite Z.rem_0_l; lia|].
      pose proof (Z.rem_le a (Z.abs b)). rewrite Z.rem_abs_r in *; lia. }
    lia.
  - assert (Z.rem a b <= 0) by (apply Z.rem_nonpos; lia).
    assert (a <= Z.rem a b).
    { pose proof (Z.rem_le (- a) (Z.abs b)).
      rewrite Z.rem_abs_r, Z.rem_opp_l in *; lia. }
    lia.
Qed.

(** ** Booleans and options *)

Lemma bool_decide_Zltb a b : bool_decide (a < b) = (a <? b).
Proof. case_bool_decide; symmetry; [apply Z.ltb_lt | apply Z.ltb_ge]; lia. Qed.

(** Case split on every boolean integer test in the goal or context. *)
Ltac case_tests :=
  repeat match goal with
  | H : (_ && _) = true |- _ => apply andb_true_iff in H as [? ?]
  | H : (_ || _) = false |- _ => apply orb_false_iff in H as [? ?]
  | H : negb _ = true |- _ => apply negb_true_iff in H
  | H : negb _ = false |- _ => apply negb_false_iff in H
  | H : (_ <? _) = true |- _ => apply Z.ltb_lt in H
  | H : (_ <? _) = false |- _ => apply Z.ltb_ge in H
  | H : (_ <=? _) = true |- _ => apply Z.leb_le in H
  | H : (_ <=? _) = false |- _ => apply Z.leb_gt in H
  | H : (_ =? _) = true |- _ => apply Z.eqb_eq in H
  | H : (_ =? _) = false |- _ => apply Z.eqb_neq in H
  end.

Ltac split_ifs :=
  repeat match goal with
  | |- context [if ?b then _ else _] =>
      let E := fresh "E" in destruct b eqn:E
  | H : context [if ?b then _ else _] |- _ =>
      let E := fresh "E" in destruct b eqn:E
  end; case_tests.

(** A test that reports an error. *)
Lemma passes {A} (b : bool) (e : A) (k : option A) :
  (if b then Some e else k) = None <-> b = false /\ k = None.
Proof. destruct b; intuition congruence. Qed.

(** ** Sums over lists *)

Fixpoint Zsum (l : list Z) : Z :=
  match l with [] => 0 | x :: l => x + Zsum l end.

Definition sum_by {A} (f : A -> Z) (l : list A) : Z := Zsum (f <$> l).

#[global] Arguments sum_by : simpl never.

Lemma sum_by_nil {A} (f : A -> Z) : sum_by f [] = 0.
Proof. done. Qed.

Lemma sum_by_cons {A} (f : A -> Z) x l : sum_by f (x :: l) = f x + sum_by f l.
Proof. done. Qed.

Lemma Zsum_app l k : Zsum (l ++ k) = Zsum l + Zsum k.
Proof. induction l; simpl; lia. Qed.

Lemma sum_by_app {A} (f : A -> Z) l k :
  sum_by f (l ++ k) = sum_by f l + sum_by f k.
Proof. unfold sum_by. by rewrite fmap_app, Zsum_app. Qed.

#[export] Instance Zsum_perm : Proper ((≡ₚ) ==> eq) Zsum.
Proof. induction 1; simpl; lia. Qed.

#[export] Instance sum_by_perm {A} (f : A -> Z) : Proper ((≡ₚ) ==> eq) (sum_by f).
Proof. intros l k Hp. unfold sum_by. by rewrite Hp. Qed.

Lemma insert_lookup_cases {A} (l : list A) i (y z : A) j :
  <[i := y]> l !! j = Some z -> (j = i /\ z = y) \/ (j <> i /\ l !! j = Some z).
Proof.
  intros [(-> & -> & _)|[Hne H]]%list_lookup_insert_Some; [by left|right].
  split; [congruence|done].
Qed.

Lemma alter_lookup_cases {A} (f : A -> A) (l : list A) i j y :
  alter f i l !! j = Some y ->
  (j = i /\ exists x, l !! i = Some x /\ y = f x) \/ (j <> i /\ l !! j = Some y).
Proof.
  destruct (Nat.eq_dec j i) as [->|Hne].
  - rewrite list_lookup_alter_eq. intros (x & -> & ?)%fmap_Some. left. eauto.
  - rewrite list_lookup_alter_ne by done. by right.
Qed.

Lemma sum_by_insert {A} (f : A -> Z) l i x y :
  l !! i = Some x -> sum_by f (<[i := y]> l) = sum_by f l - f x + f y.
Proof.
  revert i; induction l as [|z l IH]; intros [|i] H; cbn in H; try done.
  - injection H as ->. cbn [insert list_insert]. rewrite !sum_by_cons. lia.
  - change (<[S i := y]> (z :: l)) with (z :: <[i := y]> l). rewrite !sum_by_cons, (IH i) by done. lia.
Qed.

Lemma sum_by_alter {A} (f : A -> Z) g l i x :
  l !! i = Some x -> sum_by f (alter g i l) = sum_by f l - f x + f (g x).
Proof.
  intros H. rewrite <- (sum_by_insert f l i x (g x)) by done. f_equal. apply list_eq. intros j.
  pose proof (lookup_lt_Some _ _ _ H). destruct (Nat.eq_dec j i) as [->|Hne].
  - by rewrite list_lookup_alter_eq, H, list_lookup_insert_eq.
  - by rewrite list_lookup_alter_ne, list_lookup_insert_ne by done.
Qed.

Lemma sum_by_nonneg {A} (f : A -> Z) l :
  Forall (fun x => 0 <= f x) l -> 0 <= sum_by f l.
Proof. induction 1; rewrite ?sum_by_nil, ?sum_by_cons; lia. Qed.

Lemma sum_by_le {A} (f g : A -> Z) l :
  Forall (fun x => f x <= g x) l -> sum_by f l <= sum_by g l.
Proof. induction 1; rewrite ?sum_by_nil, ?sum_by_cons; lia. Qed.

Lemma sum_by_sublist_le {A} (f : A -> Z) l k :
  l `sublist_of` k -> Forall (fun x => 0 <= f x) k -> sum_by f l <= sum_by f k.
Proof.
  induction 1 as [|x l k Hs IH|x l k Hs IH]; [done| |];
    intros [? Hk]%Forall_cons; rewrite ?sum_by_cons; specialize (IH Hk); lia.
Qed.

Create Rewrite HintDb sums.
#[export] Hint Rewrite @sum_by_nil @sum_by_cons @sum_by_app : sums.

(** ** std::sort

    [std::sort] promises a permutation ordered by the comparator, for any
    strict weak ordering; the order of equivalent elements is left open. The
    clients are proved against this interface; the insertion sort below shows
    that it can be met. *)

Class StrictWeak {A} (lt : A -> A -> bool) : Prop := {
  sw_asym : forall a b, lt a b = true -> lt b a = false;
  sw_negtrans : forall a b c, lt b a = false -> lt c b = false -> lt c a = false
}.

Class StdSort := {
  std_sort : forall {A}, (A -> A -> bool) -> list A -> list A;
  std_sort_perm : forall A (lt : A -> A -> bool) l, std_sort lt l ≡ₚ l;
  std_sort_sorted : forall A (lt : A -> A -> bool) l, StrictWeak lt ->
    StronglySorted (fun a b => lt b a = false) (std_sort lt l)
}.

(** The comparators of the code order by an integer key. *)
#[export] Instance key_ltb_strict {A} (key : A -> Z) :
  StrictWeak (fun a b => key a <? key b).
Proof. split; intros *; rewrite ?Z.ltb_lt, ?Z.ltb_ge; lia. Qed.

#[export] Instance key_gtb_strict {A} (key : A -> Z) :
  StrictWeak (fun a b => key a >? key b).
Proof. split; intros *; rewrite ?Z.gtb_ltb, ?Z.ltb_lt, ?Z.ltb_ge; lia. Qed.

Section insertion_sort.
Context {A : Type} (lt : A -> A -> bool).

Fixpoint insert_by (x : A) (l : list A) : list A :=
  match l with
  | [] => [x]
  | y :: l => if lt y x then y :: insert_by x l else x :: y :: l
  end.

Definition sort_by (l : list A) : list A := foldr insert_by [] l.

Lemma insert_by_perm x l : insert_by x l ≡ₚ x :: l.
Proof.
  induction l as [|y l IH]; cbn; [done|]. destruct (lt y x); [|done].
  rewrite IH. constructor.
Qed.

Lemma sort_by_perm l : sort_by l ≡ₚ l.
Proof. induction l as [|x l IH]; cbn; [done|]. by rewrite insert_by_perm, IH. Qed.

Lemma sort_by_sorted l :
  StrictWeak lt -> StronglySorted (fun a b => lt b a = false) (sort_by l).
Proof.
  intros Hsw. induction l as [|x l IH]; [constructor|].
  change (sort_by (x :: l)) with (insert_by x (sort_by l)).
  revert IH; generalize (sort_by l); intros k0 IH.
  induction IH as [|y k Hk IHk Hy]; cbn; [repeat constructor|].
  destruct (lt y x) eqn:E.
  - constructor; [done|]. rewrite insert_by_perm. constructor; [by apply sw_asym|done].
  - constructor; [by constructor|]. constructor; [done|].
    eapply Forall_impl; [exact Hy|]. intros z Hz. by eapply sw_negtrans.
Qed.

End insertion_sort.

#[export] Instance insertion_std_sort : StdSort := {
  std_sort := @sort_by;
  std_sort_perm := @sort_by_perm;
  std_sort_sorted := @sort_by_sorted
}.

(** ** Iteration over an unordered_map

    The order of iteration is unspecified: it is some enumeration of the
    entries.  Clients are proved for every enumeration. *)

Class UnorderedMap := {
  map_entries : forall {V}, gmap Z V -> list (Z * V);
  map_entries_perm : forall V (m : gmap Z V), map_entries m ≡ₚ map_to_list m
}.

#[export] Instance sorted_unordered_map : UnorderedMap :=
  {| map_entries V m := map_to_list m; map_entries_perm V m := reflexivity _ |}.

(** ** Folds *)

Lemma fold_left_bind {A B C} (f : C -> B -> C) (g : A -> list B) l c :
  fold_left (fun c x => fold_left f (g x) c) l c = fold_left f (l ≫= g) c.
Proof.
  revert c; induction l as [|x l IH]; intros c; cbn; [done|]. by rewrite IH, fold_left_app.
Qed.

(** An invariant between the accumulator and the elements seen so far. *)
Lemma fold_left_inv {A B} (f : A -> B -> A) (P : A -> list B -> Prop) l a :
  P a [] -> (forall a seen x, x ∈ l -> P a seen -> P (f a x) (seen ++ [x])) ->
  P (fold_left f l a) l.
Proof.
  intros H0 Hs. assert (forall k seen a, P a seen -> (forall x, x ∈ k -> x ∈ l) ->
    P (fold_left f k a) (seen ++ k)) as H; [|by apply (H l [])].
  induction k as [|x k IH]; intros seen a' Ha Hk; cbn; [by rewrite app_nil_r|].
  replace (seen ++ x :: k) with ((seen ++ [x]) ++ k) by (by rewrite <- app_assoc).
  apply IH; [apply Hs; [apply Hk; by left|done]|]. intros y Hy. apply Hk. by right.
Qed.

(** ** Sums over maps *)

Definition msum {V} (f : V -> Z) (m : gmap Z V) : Z := sum_by (fun kv => f kv.2) (map_to_list m).

Lemma msum_empty {V} (f : V -> Z) : msum f ∅ = 0.
Proof. unfold msum. by rewrite map_to_list_empty. Qed.

Lemma msum_delete {V} (f : V -> Z) m k v : m !! k = Some v -> msum f m = f v + msum f (delete k m).
Proof.
  intros H. unfold msum.
  rewrite <- (map_to_list_delete m k v H). by rewrite sum_by_cons.
Qed.

Lemma msum_insert {V} (f : V -> Z) m k v :
  msum f (<[k := v]> m) = msum f m - default 0 (f <$> m !! k) + f v.
Proof.
  unfold msum. destruct (m !! k) as [w|] eqn:E; cbn.
  - rewrite <- (map_to_list_delete m k w E), sum_by_cons; cbn.
    rewrite <- insert_delete_eq, map_to_list_insert by apply lookup_delete_eq.
    rewrite sum_by_cons; cbn. lia.
  - rewrite map_to_list_insert, sum_by_cons by done; cbn. lia.
Qed.

Lemma msum_lookup_le {V} (f : V -> Z) m k v :
  (forall k v, m !! k = Some v -> 0 <= f v) -> m !! k = Some v -> f v <= msum f m.
Proof.
  intros Hf H. rewrite (msum_delete f m k v H). cut (0 <= msum f (delete k m)); [lia|].
  apply sum_by_nonneg, Forall_forall. intros [k' v'] Hin%elem_of_map_to_list.
  apply lookup_delete_Some in Hin as [_ Hin]. by eapply Hf.
Qed.

(** Adding [q] to one entry of a map of positive quantities. *)
Lemma msum_add {V} (qty : V -> Z) m k v q :
  (forall k w, m !! k = Some w -> 0 < qty w) ->
  qty v = i64 (default 0 (qty <$> m !! k) + q) -> 0 < q -> msum qty m + q <= INT64_MAX ->
  qty v = default 0 (qty <$> m !! k) + q /\ 0 < qty v /\
  msum qty (<[k := v]> m) = msum qty m + q.
Proof.
  intros Hp Hv Hq Hmax.
  assert (0 <= default 0 (qty <$> m !! k) <= msum qty m) as Hold.
  { assert (forall k w, m !! k = Some w -> 0 <= qty w) as Hp' by (intros ? ? H; apply Hp in H; lia).
    destruct (m !! k) as [w|] eqn:E; cbn.
    - split; [by eapply Hp'|by eapply msum_lookup_le].
    - split; [done|]. apply sum_by_nonneg, Forall_forall. intros [k' w] H%elem_of_map_to_list.
      by eapply Hp'. }
  rewrite i64_id in Hv by mlia. split_and!; [done|lia|]. rewrite msum_insert. lia.
Qed.
