(* ===== verification/Double.v ===== *)
(** * IEEE 754 binary64

    The C++ [double] of the sources: binary64 numbers of the Standard
    Library's executable IEEE specification ([SpecFloat], precision 53,
    exponent bound 1024), with the arithmetic, comparisons and conversions the
    code uses.  The out-of-range cases of the conversion to [int64_t], which
    C++ leaves undefined, give the "integer indefinite" value of the x86-64
    conversion instruction. *)

From S2P Require Import Prelude.
From Stdlib Require Export SpecFloat.

Abbreviation double := spec_float.

Definition dprec : Z := 53.
Definition demax : Z := 1024.

Definition dadd : double -> double -> double := SFadd dprec demax.
Definition dsub : double -> double -> double := SFsub dprec demax.
Definition dmul : double -> double -> double := SFmul dprec demax.
Definition ddiv : double -> double -> double := SFdiv dprec demax.
Definition dltb : double -> double -> bool := SFltb.
Definition dleb : double -> double -> bool := SFleb.
Definition deqb : double -> double -> bool := SFeqb.

(** [a > b] and [a >= b]. *)
Definition dgtb (a b : double) : bool := SFltb b a.
Definition dgeb (a b : double) : bool := SFleb b a.

(** [static_cast<double>] of an integer: round to nearest even. *)
Definition d_of_Z (z : Z) : double := binary_normalize dprec demax z 0 false.

(** The literal [n / 10^k], correctly rounded: division rounds the exact
    quotient, and every numerator and power of ten used is exact. *)
Definition d_lit (n : Z) (k : Z) : double := ddiv (d_of_Z n) (d_of_Z (10 ^ k)).

(** The integer part of a finite double, rounding towards zero. *)
Definition d_trunc (d : double) : option Z :=
  match d with
  | S754_zero _ => Some 0
  | S754_finite s m e =>
      let a := Z.shiftl (Zpos m) e in
      Some (if s then - a else a)
  | _ => None
  end.

(** [static_cast<int64_t>] of a double. *)
Definition i64_of_d (d : double) : Z :=
  match d_trunc d with
  | Some z => if bool_decide (in_i64 z) then z else INT64_MIN
  | None => INT64_MIN
  end.

Definition std_max_d (a b : double) : double := if dltb a b then b else a.
Definition std_min_d (a b : double) : double := if dltb b a then b else a.

Lemma i64_of_d_range d : in_i64 (i64_of_d d).
Proof.
  unfold i64_of_d. destruct (d_trunc d); [case_bool_decide|]; try done; mlia.
Qed.

(** ** Signs: a quotient, a product or a conversion of non-negative numbers
    has no sign bit set, so it truncates to a non-negative integer. *)

Definition d_pos_sign (d : double) : Prop :=
  match d with
  | S754_zero s | S754_infinity s | S754_finite s _ _ => s = false
  | S754_nan => True
  end.

Lemma binary_round_aux_sign s m e l :
  s = false -> d_pos_sign (binary_round_aux dprec demax s m e l).
Proof.
  intros ->. unfold binary_round_aux.
  destruct (shr_fexp _ _ _ _ _) as [r e'].
  destruct (shr_fexp _ _ _ _ _) as [r' e''].
  destruct (shr_m r'); simpl; try done. by destruct (_ <=? _).
Qed.

Lemma d_of_Z_sign z : 0 <= z -> d_pos_sign (d_of_Z z).
Proof.
  intros Hz. unfold d_of_Z, binary_normalize. destruct z; [done| |lia].
  unfold binary_round. destruct (shl_align _ _ _).
  by apply binary_round_aux_sign.
Qed.

Lemma dmul_sign a b : d_pos_sign a -> d_pos_sign b -> d_pos_sign (dmul a b).
Proof.
  unfold dmul, SFmul.
  destruct a as [s|s| |s m e], b as [s'|s'| |s' m' e'];
    intros Ha Hb; cbn [d_pos_sign] in Ha, Hb; subst; try done.
  by apply binary_round_aux_sign.
Qed.

Lemma ddiv_sign a b : d_pos_sign a -> d_pos_sign b -> d_pos_sign (ddiv a b).
Proof.
  unfold ddiv, SFdiv.
  destruct a as [s|s| |s m e], b as [s'|s'| |s' m' e'];
    intros Ha Hb; cbn [d_pos_sign] in Ha, Hb; subst; try done.
  destruct (SFdiv_core_binary _ _ _ _ _ _) as [[q r] l].
  by apply binary_round_aux_sign.
Qed.

Lemma d_trunc_nonneg d z : d_pos_sign d -> d_trunc d = Some z -> 0 <= z.
Proof.
  destruct d as [s|s| |s m e]; cbn; intros ? [= <-]; subst; [lia|].
  apply Z.shiftl_nonneg. lia.
Qed.

(** ** Comparisons: total but for NaN *)

Definition is_nan (d : double) : bool := match d with S754_nan => true | _ => false end.

Lemma SFcompare_swap a b :
  SFcompare b a = match SFcompare a b with Some c => Some (CompOpp c) | None => None end.
Proof.
  destruct a as [sa|sa| |sa ma ea], b as [sb|sb| |sb mb eb]; cbn; try done;
    try (by destruct sa); try (by destruct sb); try (by destruct sa, sb).
  rewrite (Z.compare_antisym ea eb).
  destruct sa, sb; try done; destruct (ea ?= eb); cbn; try done.
  - do 2 f_equal. apply Pos.compare_antisym.
  - f_equal. apply Pos.compare_antisym.
Qed.

Lemma SFcompare_nan a b : SFcompare a b = None -> is_nan a = true \/ is_nan b = true.
Proof.
  destruct a as [sa|sa| |sa ma ea], b as [sb|sb| |sb mb eb]; cbn; auto;
    try (by destruct sa); try (by destruct sb); try (by destruct sa, sb).
Qed.

(** What is not less is at least. *)
Lemma dleb_negb a b : is_nan a = false -> is_nan b = false -> dleb a b = negb (dltb b a).
Proof.
  intros Ha Hb. unfold dleb, dltb, SFleb, SFltb. rewrite (SFcompare_swap a b).
  destruct (SFcompare a b) as [[]|] eqn:E; try done.
  apply SFcompare_nan in E as [E|E]; congruence.
Qed.

Lemma dcompare_nan_l b : dltb S754_nan b = false /\ dleb S754_nan b = false.
Proof. done. Qed.

Lemma dcompare_nan_r a : dltb a S754_nan = false /\ dleb a S754_nan = false.
Proof. by destruct a. Qed.

Lemma dleb_refl a : is_nan a = false -> dleb a a = true.
Proof.
  destruct a as [s|s| |s m e]; [done|by destruct s|done|]. intros _. unfold dleb, SFleb. cbn.
  rewrite Z.compare_refl, Pos.compare_refl. by destruct s.
Qed.

(** [(val < lo) ? lo : (val > hi) ? hi : val] *)
Definition d_clamp (val lo hi : double) : double :=
  if dltb val lo then lo else if dgtb val hi then hi else val.

(** In the closed range, or not a number. *)
Definition d_within (lo hi d : double) : Prop := is_nan d = true \/ (dleb lo d = true /\ dleb d hi = true).

Lemma d_clamp_within val lo hi : dleb lo hi = true -> d_within lo hi (d_clamp val lo hi).
Proof.
  intros Hle. assert (is_nan lo = false /\ is_nan hi = false) as [Hlo Hhi].
  { destruct lo as [?|?| |? ? ?], hi as [?|?| |? ? ?]; try done; try (by destruct (dcompare_nan_r (S754_finite false 1 0))).
    all: by cbn in Hle. }
  unfold d_clamp, d_within, dgtb. fold dltb.
  destruct (dltb val lo) eqn:H1; [right; split; [by apply dleb_refl|done]|].
  change (SFltb hi val) with (dltb hi val). destruct (dltb hi val) eqn:H2.
  - right. split; [done|by apply dleb_refl].
  - destruct (is_nan val) eqn:Hv; [by left|right]. rewrite !dleb_negb, H1, H2 by done. done.
Qed.

(** Of a number; a NaN has every property. *)
Definition number_in (x : double) (P : Prop) : Prop := is_nan x = true \/ P.

(** The four tests that reject a value; none rejects NaN. *)
Section tests.
Context (x lo hi : double) (Hlo : is_nan lo = false) (Hhi : is_nan hi = false).

Lemma nan_passes a : is_nan x = true ->
  dltb x a = false /\ dleb x a = false /\ dgtb x a = false /\ dgeb x a = false.
Proof. destruct x; try done. intros _. split_and!; try done; unfold dgtb, dgeb; apply (dcompare_nan_r a). Qed.

Lemma not_below : dltb x lo = false <-> number_in x (dleb lo x = true).
Proof.
  unfold number_in. destruct (is_nan x) eqn:Hx; [destruct (nan_passes lo Hx); tauto|].
  rewrite (dleb_negb lo x) by done. destruct (dltb x lo); cbn; intuition congruence.
Qed.

Lemma not_at_most : dleb x lo = false <-> number_in x (dltb lo x = true).
Proof.
  unfold number_in. destruct (is_nan x) eqn:Hx; [destruct (nan_passes lo Hx); tauto|].
  rewrite (dleb_negb x lo) by done. destruct (dltb lo x); cbn; intuition congruence.
Qed.

Lemma not_above : dgtb x hi = false <-> number_in x (dleb x hi = true).
Proof.
  unfold number_in. destruct (is_nan x) eqn:Hx; [destruct (nan_passes hi Hx); tauto|].
  rewrite (dleb_negb x hi) by done. unfold dgtb, dltb. destruct (SFltb hi x); cbn; intuition congruence.
Qed.

Lemma not_at_least : dgeb x hi = false <-> number_in x (dltb x hi = true).
Proof.
  unfold number_in. destruct (is_nan x) eqn:Hx; [destruct (nan_passes hi Hx); tauto|].
  change (dgeb x hi) with (dleb hi x). rewrite (dleb_negb hi x) by done.
  destruct (dltb x hi); cbn; intuition congruence.
Qed.
End tests.

Lemma number_in_and x P Q : number_in x P /\ number_in x Q <-> number_in x (P /\ Q).
Proof. unfold number_in. tauto. Qed.

Lemma test_oc x lo hi : is_nan lo = false -> is_nan hi = false ->
  dleb x lo || dgtb x hi = false <-> number_in x (dltb lo x = true /\ dleb x hi = true).
Proof. intros. by rewrite orb_false_iff, not_at_most, not_above, number_in_and by done. Qed.

Lemma test_cc x lo hi : is_nan lo = false -> is_nan hi = false ->
  dltb x lo || dgtb x hi = false <-> d_within lo hi x.
Proof. intros. by rewrite orb_false_iff, not_below, not_above, number_in_and by done. Qed.

Lemma test_co x lo hi : is_nan lo = false -> is_nan hi = false ->
  dltb x lo || dgeb x hi = false <-> number_in x (dleb lo x = true /\ dltb x hi = true).
Proof. intros. by rewrite orb_false_iff, not_below, not_at_least, number_in_and by done. Qed.
