(* ===== verification/CppString.v ===== *)
(** * Strings of the C++ standard library

    [std::string] as a list of characters, with the conversions the sources
    use: [std::to_string] and the integer inserters of streams, the
    [std::stoi] family, [std::stod], [std::getline], [find], and the default
    format of a [double] in a stream.  The exceptions of the conversions are
    values of a sum type. *)

From S2P Require Import Prelude Double.
From Stdlib Require Export Ascii.

Abbreviation str := (list ascii).

Definition lit (s : string) : str := String.list_ascii_of_string s.

Inductive exn := invalid_argument | out_of_range.

#[export] Instance exn_eq_dec : EqDecision exn.
Proof. solve_decision. Defined.

(** A computation that may throw. *)
Definition throws (A : Type) : Type := exn + A.

Notation "'try' x <- a ; b" := (match a with inl e => inl e | inr x => b end)
  (at level 10, x pattern, a at level 100, b at level 200) : cpp_scope.

Definition code (c : ascii) : Z := Z.of_N (N_of_ascii c).
Definition chr (z : Z) : ascii := ascii_of_N (Z.to_N z).

(** ** Integers to strings *)

Definition digit_char (d : Z) : ascii := chr (48 + d).

(** The decimal digits of a natural number; the fuel exceeds their number. *)
Fixpoint digits (fuel : nat) (z : Z) : str :=
  match fuel with
  | O => [digit_char z]
  | S fuel => if z <? 10 then [digit_char z] else digits fuel (z / 10) ++ [digit_char (z mod 10)]
  end.

Definition print_nat (z : Z) : str := digits (Z.to_nat (Z.log2 z)) z.

(** [std::to_string], and [<<] of an integer. *)
Definition to_string (z : Z) : str :=
  if z <? 0 then "-"%char :: print_nat (- z) else print_nat z.

(** [%0<width>lld] of [printf]. *)
Definition print_padded (width : nat) (z : Z) : str :=
  let s := print_nat (Z.abs z) in
  if z <? 0 then "-"%char :: replicate (width - 1 - length s) "0"%char ++ s
  else replicate (width - length s) "0"%char ++ s.

Lemma print_padded_digits width z :
  0 <= z -> exists k, print_padded width z = replicate k "0"%char ++ print_nat z
    /\ (length (print_nat z) <= width -> length (print_padded width z) = width)%nat.
Proof.
  intros Hz. unfold print_padded. rewrite Z.abs_eq, (proj2 (Z.ltb_ge z 0)) by lia.
  eexists; split; [done|]. intros Hl. rewrite length_app, length_replicate. lia.
Qed.

Lemma digits_length fuel z n :
  0 <= z < 10 ^ (Z.of_nat n + 1) -> (length (digits fuel z) <= S n)%nat.
Proof.
  revert z n; induction fuel as [|fuel IH]; intros z n Hz; cbn [digits]; [cbn; lia|].
  destruct (Z.ltb_spec z 10); [cbn; lia|]. rewrite length_app. cbn [length].
  destruct n as [|n]; [cbn in Hz; lia|].
  enough (length (digits fuel (z / 10)) <= S n)%nat by lia. apply IH.
  rewrite Nat2Z.inj_succ in Hz. unfold Z.succ in Hz. rewrite Z.pow_add_r in Hz by lia.
  split; [apply Z.div_pos; lia|apply Z.div_lt_upper_bound; lia].
Qed.

Lemma print_padded_length width z :
  0 <= z < 10 ^ Z.of_nat (S width) -> length (print_padded (S width) z) = S width.
Proof.
  intros Hz. destruct (print_padded_digits (S width) z) as (_ & _ & Hl); [lia|]. apply Hl, digits_length.
  by rewrite Nat2Z.inj_succ in Hz.
Qed.

(** ** Strings to integers *)

Definition isspace (c : ascii) : bool :=
  (code c =? 32) || ((9 <=? code c) && (code c <=? 13)).

Fixpoint skip_spaces (s : str) : str :=
  match s with
  | c :: s' => if isspace c then skip_spaces s' else s
  | [] => []
  end.

(** The value of a digit in a base up to 16. *)
Definition digit_value (base : Z) (c : ascii) : option Z :=
  let v := if (48 <=? code c) && (code c <=? 57) then code c - 48
           else if (97 <=? code c) && (code c <=? 102) then code c - 87
           else if (65 <=? code c) && (code c <=? 70) then code c - 55
           else base in
  if v <? base then Some v else None.

(** The longest run of digits in front, appended to a value: the new value,
    the number of digits, the rest. *)
Fixpoint scan_digits (base : Z) (s : str) (acc : Z) : Z * nat * str :=
  match s with
  | [] => (acc, O, [])
  | c :: s' =>
      match digit_value base c with
      | Some v => let '(acc, n, rest) := scan_digits base s' (acc * base + v) in (acc, S n, rest)
      | None => (acc, O, s)
      end
  end.

Definition scan_sign (s : str) : bool * str :=
  match s with
  | "-"%char :: s => (true, s)
  | "+"%char :: s => (false, s)
  | _ => (false, s)
  end.

(** The sign and the magnitude [strtoll] and its kin read. *)
Definition scan_int (s : str) : throws (bool * Z) :=
  let '(neg, s) := scan_sign (skip_spaces s) in
  let '(v, n, _) := scan_digits 10 s 0 in
  if (n =? 0)%nat then inl invalid_argument else inr (neg, v).

Definition sto_signed (lo hi : Z) (s : str) : throws Z :=
  try (neg, v) <- scan_int s;
  let z := if neg : bool then - v else v in
  if (lo <=? z) && (z <=? hi) then inr z else inl out_of_range.

Definition stoi (s : str) : throws Z := sto_signed (-2147483648) 2147483647 s.
Definition stoll (s : str) : throws Z := sto_signed INT64_MIN INT64_MAX s.

(** [strtoull] negates in the unsigned type. *)
Definition stoull (s : str) : throws Z :=
  try (neg, v) <- scan_int s;
  if v >? 18446744073709551615 then inl out_of_range
  else inr (if neg : bool then u64 (- v) else v).

(** ** Floating point *)

(** [mant * base^k], correctly rounded. *)
Definition scaled_double (base mant k : Z) : double :=
  match mant with
  | Zpos m =>
      if k <? 0 then
        match base ^ (- k) with
        | Zpos p => ddiv (S754_finite false m 0) (S754_finite false p 0)
        | _ => S754_nan
        end
      else d_of_Z (mant * base ^ k)
  | _ => S754_zero false
  end.

(** Overflow, and underflow below the normal range. *)
Definition range_error (mant : Z) (d : double) : bool :=
  match d with
  | S754_infinity _ => true
  | S754_zero _ => negb (mant =? 0)
  | S754_finite _ m _ => Zpos m <? 2 ^ 52
  | S754_nan => false
  end.

Definition d_opp (d : double) : double := SFopp d.

Definition lower (c : ascii) : ascii :=
  if (65 <=? code c) && (code c <=? 90) then chr (code c + 32) else c.

Definition has_prefix (p s : str) : bool := bool_decide (take (length p) (lower <$> s) = p).

(** An exponent part after one of the given letters, when it has digits. *)
Definition scan_exponent (letter : ascii) (s : str) : Z :=
  match s with
  | c :: s' =>
      if bool_decide (lower c = letter) then
        let '(neg, s') := scan_sign s' in
        let '(v, n, _) := scan_digits 10 s' 0 in
        if (n =? 0)%nat then 0 else if neg then - v else v
      else 0
  | [] => 0
  end.

(** Digits with an optional point: the value without the point, the digits
    before and after it, the rest. *)
Definition scan_mantissa (base : Z) (s : str) : Z * nat * nat * str :=
  let '(v, n, rest) := scan_digits base s 0 in
  match rest with
  | "."%char :: rest' =>
      let '(v', n', rest') := scan_digits base rest' v in
      if (n + n' =? 0)%nat then (v, n, O, rest) else (v', n, n', rest')
  | _ => (v, n, O, rest)
  end.

Definition signed (neg : bool) (d : double) : double := if neg then d_opp d else d.

Definition checked (neg : bool) (mant : Z) (d : double) : throws double :=
  if range_error mant d then inl out_of_range else inr (signed neg d).

(** What [strtod] finds: nothing, a special value, or a number. *)
Inductive number := NoNumber | Special (d : double) | Number (neg : bool) (mant : Z) (d : double).

Definition scan_decimal (neg : bool) (s : str) : number :=
  let '(mant, n, frac, rest) := scan_mantissa 10 s in
  if (n + frac =? 0)%nat then NoNumber
  else Number neg mant (scaled_double 10 mant (scan_exponent "e"%char rest - Z.of_nat frac)).

(** A prefix [0x] counts only when hexadecimal digits follow it. *)
Definition scan_number (s : str) : number :=
  let '(neg, s) := scan_sign (skip_spaces s) in
  if has_prefix (lit "inf") s then Special (S754_infinity neg)
  else if has_prefix (lit "nan") s then Special S754_nan
  else if has_prefix (lit "0x") s then
    let '(mant, n, frac, rest) := scan_mantissa 16 (drop 2 s) in
    if (n + frac =? 0)%nat then scan_decimal neg s
    else Number neg mant (scaled_double 2 mant (scan_exponent "p"%char rest - 4 * Z.of_nat frac))
  else scan_decimal neg s.

Definition stod (s : str) : throws double :=
  match scan_number s with
  | NoNumber => inl invalid_argument
  | Special d => inr d
  | Number neg mant d => checked neg mant d
  end.

(** The C functions: no number reads as zero, and the nearest value of the
    type when it is out of range. *)
Definition strtod (s : str) : double :=
  match scan_number s with
  | NoNumber => S754_zero false
  | Special d => d
  | Number neg _ d => signed neg d
  end.

Definition strtoll (s : str) : Z :=
  match scan_int s with
  | inl _ => 0
  | inr (neg, v) => Z.max INT64_MIN (Z.min INT64_MAX (if neg : bool then - v else v))
  end.

Definition strtoul (s : str) : Z :=
  match scan_int s with
  | inl _ => 0
  | inr (neg, v) =>
      if v >? 18446744073709551615 then 18446744073709551615
      else if neg : bool then u64 (- v) else v
  end.

(** [n / q] rounded to the nearest integer, ties to even. *)
Definition round_half_even (n q : Z) : Z :=
  let f := n / q in
  let r := 2 * (n mod q) in
  if r <? q then f else if q <? r then f + 1 else if Z.even f then f else f + 1.

Fixpoint trim_zeros_rev (s : str) : str :=
  match s with
  | "0"%char :: s => trim_zeros_rev s
  | _ => s
  end.

(** A fraction without its trailing zeros, with the point unless it is empty. *)
Definition fraction (s : str) : str :=
  match rev (trim_zeros_rev (rev s)) with [] => [] | f => "."%char :: f end.

(** The six significant digits and the decimal exponent of [n / q]. *)
Definition six_digits (n q : Z) : str * Z :=
  let e := Z.of_nat (length (print_nat n)) - Z.of_nat (length (print_nat q)) in
  let x := if (if e <? 0 then q <=? n * 10 ^ (- e) else q * 10 ^ e <=? n) then e else e - 1 in
  let r := if 5 <? x then round_half_even n (q * 10 ^ (x - 5))
           else round_half_even (n * 10 ^ (5 - x)) q in
  if r =? 1000000 then (print_nat 100000, x + 1) else (print_nat r, x).

Definition print_positive (n q : Z) : str :=
  let '(ds, x) := six_digits n q in
  if (x <? -4) || (6 <=? x)
  then take 1 ds ++ fraction (drop 1 ds) ++ lit "e" ++ (if x <? 0 then lit "-" else lit "+")
         ++ print_padded 2 (Z.abs x)
  else if 0 <=? x then take (Z.to_nat (x + 1)) ds ++ fraction (drop (Z.to_nat (x + 1)) ds)
  else lit "0" ++ fraction (replicate (Z.to_nat (- x - 1)) "0"%char ++ ds).

(** [<<] of a [double] in the default format: six significant digits. *)
Definition print_double (d : double) : str :=
  let with_sign (neg : bool) (s : str) := if neg then "-"%char :: s else s in
  match d with
  | S754_zero neg => with_sign neg (lit "0")
  | S754_infinity neg => with_sign neg (lit "inf")
  | S754_nan => lit "nan"
  | S754_finite neg m e =>
      with_sign neg (if e <? 0 then print_positive (Zpos m) (2 ^ (- e))
                  else print_positive (Zpos m * 2 ^ e) 1)
  end.

(** ** Searching and splitting *)

(** [find(c)] *)
Fixpoint find_char (c : ascii) (s : str) : option nat :=
  match s with
  | [] => None
  | c' :: s => if bool_decide (c' = c) then Some O else S <$> find_char c s
  end.

(** [find(sub)]: the first position where [sub] starts. *)
Fixpoint find_str (sub s : str) : option nat :=
  if bool_decide (take (length sub) s = sub) then Some O
  else match s with [] => None | _ :: s => S <$> find_str sub s end.

(** All the pieces between the delimiters. *)
Fixpoint pieces (d : ascii) (s : str) : list str :=
  match s with
  | [] => [[]]
  | c :: s =>
      if bool_decide (c = d) then [] :: pieces d s
      else match pieces d s with t :: ts => (c :: t) :: ts | [] => [[c]] end
  end.

(** The tokens [std::getline] returns until it fails: no token after the last
    delimiter. *)
Definition getline_all (d : ascii) (s : str) : list str :=
  let ts := pieces d s in
  match last ts with Some [] => removelast ts | _ => ts end.

Fixpoint join (d : ascii) (ts : list str) : str :=
  match ts with
  | [] => []
  | [t] => t
  | t :: ts => t ++ d :: join d ts
  end.

(** ** Laws *)

Lemma code_chr z : 0 <= z < 256 -> code (chr z) = z.
Proof. intros Hz. unfold code, chr. rewrite N_ascii_embedding by lia. lia. Qed.

Lemma digit_value_char d : 0 <= d < 10 -> digit_value 10 (digit_char d) = Some d.
Proof.
  intros Hd. unfold digit_value, digit_char. rewrite code_chr by lia.
  rewrite (proj2 (Z.leb_le 48 _)), (proj2 (Z.leb_le _ 57)) by lia. cbn [andb].
  rewrite (proj2 (Z.ltb_lt _ _)) by lia. f_equal. lia.
Qed.

Definition is_digit (c : ascii) : Prop := is_Some (digit_value 10 c).

Lemma digits_digits fuel z : 0 <= z < 10 ^ (Z.of_nat fuel + 1) -> Forall is_digit (digits fuel z).
Proof.
  revert z; induction fuel as [|fuel IH]; intros z Hz; cbn [digits].
  - apply Forall_singleton. eexists. apply digit_value_char. cbn in Hz. lia.
  - destruct (Z.ltb_spec z 10) as [|Hge].
    + apply Forall_singleton. eexists. apply digit_value_char. lia.
    + apply Forall_app. split.
      * apply IH. rewrite Nat2Z.inj_succ in Hz. unfold Z.succ in Hz. rewrite Z.pow_add_r in Hz by lia.
        split; [apply Z.div_pos; lia|apply Z.div_lt_upper_bound; lia].
      * apply Forall_singleton. eexists. apply digit_value_char. apply Z.mod_pos_bound. lia.
Qed.

(** The fuel of [print_nat] is enough. *)
Lemma print_nat_fuel z : 0 <= z -> z < 10 ^ (Z.of_nat (Z.to_nat (Z.log2 z)) + 1).
Proof.
  intros Hz. destruct (decide (z = 0)) as [->|]; [done|].
  rewrite Z2Nat.id by apply Z.log2_nonneg.
  pose proof (Z.log2_spec z ltac:(lia)) as [_ Hlt]. pose proof (Z.log2_nonneg z).
  unfold Z.succ in Hlt. eapply Z.lt_le_trans; [exact Hlt|].
  apply Z.pow_le_mono_l. lia.
Qed.

Lemma print_nat_digits z : 0 <= z -> Forall is_digit (print_nat z).
Proof. intros Hz. apply digits_digits. split; [done|by apply print_nat_fuel]. Qed.

Lemma digits_nonempty fuel z : digits fuel z <> [].
Proof.
  destruct fuel; cbn; [done|]. destruct (z <? 10); [done|]. by destruct (digits fuel (z / 10)).
Qed.

(** What follows the digits. *)
Definition no_digit_first (s : str) : Prop :=
  match s with [] => True | c :: _ => digit_value 10 c = None end.

Lemma scan_digits_app l rest acc :
  Forall is_digit l -> no_digit_first rest ->
  scan_digits 10 (l ++ rest) acc = ((scan_digits 10 l acc).1.1, length l, rest).
Proof.
  intros Hl Hr. revert acc; induction Hl as [|c l [v Hv] _ IH]; intros acc; cbn.
  - destruct rest as [|c rest]; [done|]. cbn in *. by rewrite Hr.
  - rewrite Hv, IH. by destruct (scan_digits 10 l _) as [[? ?] ?].
Qed.

Lemma scan_digits_snoc l d acc :
  Forall is_digit l -> 0 <= d < 10 ->
  (scan_digits 10 (l ++ [digit_char d]) acc).1.1 = (scan_digits 10 l acc).1.1 * 10 + d.
Proof.
  intros Hl Hd. revert acc; induction Hl as [|c l [v Hv] _ IH]; intros acc; cbn.
  - by rewrite digit_value_char.
  - rewrite Hv. specialize (IH (acc * 10 + v)).
    destruct (scan_digits 10 (l ++ _) _) as [[? ?] ?], (scan_digits 10 l _) as [[? ?] ?]. done.
Qed.

Lemma scan_digits_digits fuel z :
  0 <= z < 10 ^ (Z.of_nat fuel + 1) -> (scan_digits 10 (digits fuel z) 0).1.1 = z.
Proof.
  revert z; induction fuel as [|fuel IH]; intros z Hz; cbn [digits].
  - cbn [scan_digits]. rewrite digit_value_char by (cbn in Hz; lia). cbn. lia.
  - destruct (Z.ltb_spec z 10) as [|Hge].
    + cbn [scan_digits]. rewrite digit_value_char by lia. cbn. lia.
    + assert (0 <= z / 10 < 10 ^ (Z.of_nat fuel + 1)) as Hd.
      { rewrite Nat2Z.inj_succ in Hz. unfold Z.succ in Hz. rewrite Z.pow_add_r in Hz by lia.
        split; [apply Z.div_pos; lia|apply Z.div_lt_upper_bound; lia]. }
      rewrite scan_digits_snoc, IH; [|done|by apply digits_digits|apply Z.mod_pos_bound; lia].
      pose proof (Z.div_mod z 10). lia.
Qed.

(** What the conversions return is in their range. *)
Lemma sto_signed_range lo hi s z : sto_signed lo hi s = inr z -> lo <= z <= hi.
Proof.
  unfold sto_signed. destruct (scan_int s) as [|[neg v]]; [done|].
  destruct (_ && _) eqn:E; [|done]. intros [= <-]. apply andb_true_iff in E. lia.
Qed.

(** Reading the printed digits gives the number back. *)
Lemma scan_print_nat z rest :
  0 <= z -> no_digit_first rest ->
  scan_digits 10 (print_nat z ++ rest) 0 = (z, length (print_nat z), rest).
Proof.
  intros Hz Hr. rewrite scan_digits_app by (by try apply print_nat_digits).
  unfold print_nat. rewrite scan_digits_digits by (split; [done|by apply print_nat_fuel]). done.
Qed.

Lemma digit_not_space c : is_digit c -> isspace c = false /\ c <> "-"%char /\ c <> "+"%char.
Proof.
  intros [v Hv]. unfold digit_value in Hv. unfold isspace.
  destruct (Z.leb_spec 48 (code c)), (Z.leb_spec (code c) 57); cbn [andb] in Hv.
  - split_and!; [|by intros ->|by intros ->].
    rewrite (proj2 (Z.eqb_neq _ _)), (proj2 (Z.leb_gt (code c) 13)) by lia. apply andb_false_r.
  - repeat case_match; simplify_eq; try discriminate;
      match goal with H : (_ <? 10) = true |- _ => apply Z.ltb_lt in H end;
      rewrite ?andb_true_iff, ?Z.leb_le in *; lia.
  - repeat case_match; simplify_eq; try discriminate;
      match goal with H : (_ <? 10) = true |- _ => apply Z.ltb_lt in H end;
      rewrite ?andb_true_iff, ?Z.leb_le in *; lia.
  - lia.
Qed.

Lemma scan_int_to_string z rest :
  no_digit_first rest -> scan_int (to_string z ++ rest) = inr (z <? 0, Z.abs z).
Proof.
  intros Hr. unfold to_string, scan_int. destruct (Z.ltb_spec z 0) as [Hz|Hz].
  - cbn [app skip_spaces scan_sign]. change (isspace "-"%char) with false. cbn [scan_sign].
    rewrite scan_print_nat by (done || lia).
    destruct (print_nat (- z)) eqn:E; [by apply digits_nonempty in E|]. cbn. f_equal. f_equal. lia.
  - pose proof (print_nat_digits z ltac:(lia)) as Hd.
    pose proof (scan_print_nat z rest Hz Hr) as Hs.
    destruct (print_nat z) as [|c l] eqn:E; [by apply digits_nonempty in E|].
    apply Forall_cons in Hd as [(Hsp & Hm & Hp)%digit_not_space _].
    cbn [app] in *. cbn [skip_spaces]. rewrite Hsp.
    assert (scan_sign (c :: l ++ rest) = (false, c :: l ++ rest)) as ->
      by (unfold scan_sign; repeat case_match; congruence).
    rewrite Hs. cbn. f_equal. f_equal. lia.
Qed.

Lemma sto_signed_to_string lo hi z :
  lo <= z <= hi -> sto_signed lo hi (to_string z) = inr z.
Proof.
  intros Hz. unfold sto_signed. rewrite <- (app_nil_r (to_string z)), scan_int_to_string by done.
  replace (if z <? 0 then - Z.abs z else Z.abs z) with z by (destruct (Z.ltb_spec z 0); lia).
  by rewrite !(proj2 (Z.leb_le _ _)) by lia.
Qed.

(** The conversions invert [std::to_string] on the range of their type. *)
Lemma stoi_to_string z : in_i32 z -> stoi (to_string z) = inr z.
Proof. apply sto_signed_to_string. Qed.

Lemma stoll_to_string z : in_i64 z -> stoll (to_string z) = inr z.
Proof. apply sto_signed_to_string. Qed.

Lemma stoull_to_string z : in_u64 z -> stoull (to_string z) = inr z.
Proof.
  intros Hz. unfold stoull. rewrite <- (app_nil_r (to_string z)), scan_int_to_string by done.
  unfold in_u64 in Hz. rewrite (proj2 (Z.ltb_ge z 0)) by lia. rewrite Z.gtb_ltb.
  rewrite (proj2 (Z.ltb_ge _ _)) by lia. f_equal. lia.
Qed.

Lemma find_char_app c a b : c ∉ a -> find_char c (a ++ c :: b) = Some (length a).
Proof.
  induction a as [|x a IH]; cbn; intros Hc; [by rewrite bool_decide_eq_true_2|].
  apply not_elem_of_cons in Hc as [Hx Hc].
  rewrite bool_decide_eq_false_2 by congruence. by rewrite IH.
Qed.

Lemma find_char_none c s : c ∉ s -> find_char c s = None.
Proof.
  induction s as [|x s IH]; cbn; intros Hc; [done|]. apply not_elem_of_cons in Hc as [Hx Hc].
  rewrite bool_decide_eq_false_2 by congruence. by rewrite IH.
Qed.

Lemma pieces_plain d t : d ∉ t -> pieces d t = [t].
Proof.
  induction t as [|x t IH]; cbn; intros Hd; [done|]. apply not_elem_of_cons in Hd as [Hx Hd].
  rewrite bool_decide_eq_false_2 by congruence. by rewrite IH.
Qed.

Lemma pieces_app d t s : d ∉ t -> pieces d (t ++ d :: s) = t :: pieces d s.
Proof.
  induction t as [|x t IH]; cbn; intros Hd; [by rewrite bool_decide_eq_true_2|].
  apply not_elem_of_cons in Hd as [Hx Hd].
  rewrite bool_decide_eq_false_2 by congruence. by rewrite IH.
Qed.

Lemma pieces_join d ts : ts <> [] -> Forall (fun t => d ∉ t) ts -> pieces d (join d ts) = ts.
Proof.
  intros Hne Hts. induction Hts as [|t ts Ht Hts IH]; [done|]. destruct ts as [|t' ts].
  - by apply pieces_plain.
  - change (join d (t :: t' :: ts)) with (t ++ d :: join d (t' :: ts)).
    rewrite pieces_app by done. f_equal. by apply IH.
Qed.

(** Reading the lines of joined non-empty tokens gives the tokens. *)
Lemma getline_all_join d ts :
  Forall (fun t => (d ∉ t) /\ t <> []) ts -> getline_all d (join d ts) = ts.
Proof.
  intros Hts. destruct (decide (ts = [])) as [->|Hne]; [done|]. unfold getline_all.
  rewrite pieces_join by (done || (eapply Forall_impl; [exact Hts|]; by intros t [])).
  destruct (last ts) as [[|c t]|] eqn:El; try done. exfalso.
  apply last_Some_elem_of in El. rewrite Forall_forall in Hts. by destruct (Hts _ El).
Qed.

Lemma to_string_no_char z c : ~ is_digit c -> c <> "-"%char -> c ∉ to_string z.
Proof.
  intros Hc Hm Hin. unfold to_string in Hin.
  destruct (Z.ltb_spec z 0); [apply elem_of_cons in Hin as [Hin|Hin]; [done|]|];
    (pose proof (print_nat_digits (Z.abs z) ltac:(lia)) as Hd;
     rewrite Forall_forall in Hd; apply Hc, Hd;
     by rewrite ?Z.abs_neq, ?Z.abs_eq by lia).
Qed.

Lemma to_string_nonempty z : to_string z <> [].
Proof. unfold to_string. destruct (z <? 0); [done|]. apply digits_nonempty. Qed.
