(* ===== verification/Types.v ===== *)
(** * Core types (sor/core/types.h, sor/core/order.h, sor/core/order.cpp)

    Integer aliases and constants, the price conversions, the enumerations with
    their [uint8_t] encodings, [FixedString], and the [Order],
    [ExecutionReport] and [CancelRequest] structures with their accessors. *)

From S2P Require Import Prelude Double.
From Stdlib Require Export Ascii.

(** ** Numeric types *)

Abbreviation Price := Z (only parsing).
Abbreviation Quantity := Z (only parsing).
Abbreviation OrderId := Z (only parsing).
Abbreviation VenueId := Z (only parsing).
(** A [steady_clock] reading, in nanoseconds since the clock's epoch. *)
Abbreviation Timestamp := Z (only parsing).

Definition PRICE_SCALE : Z := 100000000.
Definition INVALID_PRICE : Price := INT64_MAX.
Definition INVALID_ORDER_ID : OrderId := 0.

Definition to_price (d : double) : Price :=
  i64_of_d (dadd (dmul d (d_of_Z PRICE_SCALE))
                 (if dgeb d (d_of_Z 0) then d_lit 5 1 else dsub (d_of_Z 0) (d_lit 5 1))).

Definition to_double (p : Price) : double :=
  ddiv (d_of_Z p) (d_of_Z PRICE_SCALE).

(** ** Enumerations *)

Inductive Side := Buy | Sell.

(** [side == Side::Buy] *)
Definition is_buy (s : Side) : bool := match s with Buy => true | Sell => false end.

Inductive OrderType := OT_Limit | OT_Market | OT_IOC | OT_FOK.

Inductive TimeInForce := TIF_GTC | TIF_IOC | TIF_FOK | TIF_GTD | TIF_DAY.

Inductive OrderState :=
  New | PendingNew | Accepted | PartiallyFilled | Filled
| PendingCancel | Canceled | Rejected | Expired | PendingReplace.

Inductive RoutingStrategyTag := RS_BestPrice | RS_LiquiditySweep | RS_SmartIOC | RS_VWAP.

Inductive VenueStatus := Connected | Disconnected | Degraded.

#[export] Instance Side_eq_dec : EqDecision Side.
Proof. solve_decision. Defined.
#[export] Instance OrderType_eq_dec : EqDecision OrderType.
Proof. solve_decision. Defined.
#[export] Instance TimeInForce_eq_dec : EqDecision TimeInForce.
Proof. solve_decision. Defined.
#[export] Instance OrderState_eq_dec : EqDecision OrderState.
Proof. solve_decision. Defined.
#[export] Instance RoutingStrategyTag_eq_dec : EqDecision RoutingStrategyTag.
Proof. solve_decision. Defined.

(** [static_cast<uint8_t>] of an order state, and back for a code in range. *)
Definition OrderState_code (s : OrderState) : Z :=
  match s with
  | New => 0 | PendingNew => 1 | Accepted => 2 | PartiallyFilled => 3
  | Filled => 4 | PendingCancel => 5 | Canceled => 6 | Rejected => 7
  | Expired => 8 | PendingReplace => 9
  end.

Definition all_states : list OrderState :=
  [New; PendingNew; Accepted; PartiallyFilled; Filled;
   PendingCancel; Canceled; Rejected; Expired; PendingReplace].

Definition OrderState_of_code (c : Z) : option OrderState :=
  if c <? 0 then None else all_states !! Z.to_nat c.

Lemma OrderState_of_code_code s : OrderState_of_code (OrderState_code s) = Some s.
Proof. by destruct s. Qed.

Definition RoutingStrategyTag_code (t : RoutingStrategyTag) : Z :=
  match t with
  | RS_BestPrice => 0 | RS_LiquiditySweep => 1 | RS_SmartIOC => 2 | RS_VWAP => 3
  end.

(** ** FixedString<N> *)

Module FixedString.

Definition NUL : ascii := Ascii.zero.

(** [char data_[N + 1]] and [uint8_t len_]. *)
Record t := mk { data_ : list ascii; len_ : Z }.

Definition empty_string (N : nat) : t := mk (replicate (S N) NUL) 0.

(** [clear()] *)
Definition clear (fs : t) : t := mk (<[0%nat := NUL]> (data_ fs)) 0.

(** [assign(std::string_view)]: the [memcpy] of [copy_len] bytes keeps the
    bytes beyond it; then the terminator is written. *)
Definition assign (N : nat) (fs : t) (sv : list ascii) : t :=
  let copy_len := if decide (length sv < N)%nat then length sv else N in
  let copied := take copy_len sv ++ drop copy_len (data_ fs) in
  mk (<[copy_len := NUL]> copied) (u8 (Z.of_nat copy_len)).

(** [assign] of a C string: a null pointer clears; otherwise the view ends at
    the first NUL. *)
Fixpoint c_view (s : list ascii) : list ascii :=
  match s with
  | [] => []
  | c :: s => if decide (c = NUL) then [] else c :: c_view s
  end.

Definition assign_cstr (N : nat) (fs : t) (s : option (list ascii)) : t :=
  match s with
  | None => clear fs
  | Some s => assign N fs (c_view s)
  end.

(** [FixedString(std::string_view)] *)
Definition of_view (N : nat) (sv : list ascii) : t := assign N (empty_string N) sv.

(** [to_string_view()] *)
Definition view (fs : t) : list ascii := take (Z.to_nat (len_ fs)) (data_ fs).

Definition size (fs : t) : Z := len_ fs.
Definition empty (fs : t) : bool := len_ fs =? 0.

(** [std::memcmp] of [n] bytes: the sign of the first difference, bytes
    compared as unsigned. *)
Fixpoint memcmp (n : nat) (a b : list ascii) : comparison :=
  match n, a, b with
  | S n, x :: a, y :: b =>
      match N.compare (N_of_ascii x) (N_of_ascii y) with
      | Eq => memcmp n a b
      | c => c
      end
  | _, _, _ => Eq
  end.

(** [operator==] *)
Definition eqb (a b : t) : bool :=
  (len_ a =? len_ b) &&
  match memcmp (Z.to_nat (len_ a)) (data_ a) (data_ b) with Eq => true | _ => false end.

(** [operator<] *)
Definition ltb (a b : t) : bool :=
  match memcmp (Z.to_nat (Z.min (len_ a) (len_ b))) (data_ a) (data_ b) with
  | Lt => true
  | Eq => len_ a <? len_ b
  | Gt => false
  end.

(** The representation invariant of a [FixedString<N>]. *)
Definition wf (N : nat) (fs : t) : Prop :=
  length (data_ fs) = S N /\ 0 <= len_ fs <= Z.of_nat N /\
  data_ fs !! Z.to_nat (len_ fs) = Some NUL.

Lemma empty_string_wf N : wf N (empty_string N).
Proof. split_and!; cbn; [by rewrite length_replicate | lia | lia | done]. Qed.

Lemma clear_wf N fs : wf N fs -> wf N (clear fs).
Proof.
  intros (Hlen & _ & _). split_and!; cbn; [by rewrite length_insert | lia | lia |].
  apply list_lookup_insert_eq. lia.
Qed.

Lemma assign_copy_len N (sv : list ascii) :
  (if decide (length sv < N)%nat then length sv else N) = (length sv `min` N)%nat.
Proof. case_decide; lia. Qed.

(** The first [copy_len] bytes after an assignment are the source's prefix. *)
Lemma assign_data_prefix N fs sv (k := (length sv `min` N)%nat) :
  length (data_ fs) = S N ->
  take k (<[k := NUL]> (take k sv ++ drop k (data_ fs))) = take k sv.
Proof.
  intros Hlen. rewrite take_insert_ge by lia.
  rewrite take_app_le by (rewrite length_take; lia).
  rewrite take_take. f_equal; lia.
Qed.

(** Every byte is the source's byte, the terminator, or what was there. *)
Lemma assign_wf_view N fs sv :
  Z.of_nat N <= 255 -> wf N fs ->
  wf N (assign N fs sv) /\ view (assign N fs sv) = take N sv.
Proof.
  intros HN (Hlen & _ & _).
  assert (Hk : Z.of_nat (length sv `min` N) <= 255) by lia.
  unfold assign, wf, view. rewrite assign_copy_len. cbn [data_ len_].
  unfold u8, wrapu. rewrite Z.mod_small by lia. rewrite Nat2Z.id.
  split_and!; try lia.
  - rewrite length_insert, length_app, length_take, length_drop. lia.
  - apply list_lookup_insert_eq. rewrite length_app, length_take, length_drop. lia.
  - rewrite assign_data_prefix by done.
    destruct (decide (length sv <= N)%nat).
    + by rewrite !take_ge by lia.
    + by rewrite Nat.min_r by lia.
Qed.

(** *** Comparison of the views *)

Lemma memcmp_refl n a : memcmp n a a = Eq.
Proof.
  revert a; induction n as [|n IH]; intros [|x a]; cbn; try done.
  by rewrite N.compare_refl.
Qed.

Lemma memcmp_eq n a b :
  (n <= length a)%nat -> (n <= length b)%nat ->
  memcmp n a b = Eq <-> take n a = take n b.
Proof.
  revert a b; induction n as [|n IH]; intros [|x a] [|y b] Ha Hb; cbn in *;
    try done; try lia.
  destruct (N.compare_spec (N_of_ascii x) (N_of_ascii y)) as [E|E|E].
  - assert (x = y) as -> by
      (rewrite <- (ascii_N_embedding x), E; apply ascii_N_embedding).
    rewrite IH by lia. split; congruence.
  - split; [done|]. intros [= -> _]. lia.
  - split; [done|]. intros [= -> _]. lia.
Qed.

Lemma view_length N fs : wf N fs -> length (view fs) = Z.to_nat (len_ fs).
Proof. intros (Hlen & Hl & _). unfold view. rewrite length_take. lia. Qed.

Lemma eqb_view N a b :
  wf N a -> wf N b -> eqb a b = true <-> view a = view b.
Proof.
  intros Ha Hb. pose proof (view_length _ _ Ha) as La.
  pose proof (view_length _ _ Hb) as Lb.
  destruct Ha as (Da & Ra & _), Hb as (Db & Rb & _).
  unfold eqb. rewrite andb_true_iff, Z.eqb_eq. split.
  - intros [E M]. destruct memcmp eqn:C; try done.
    apply memcmp_eq in C; [|lia..]. unfold view. by rewrite <- E.
  - intros E. assert (len_ a = len_ b) as El by (rewrite E in La; lia).
    split; [done|]. unfold view in E. rewrite <- El in E.
    apply memcmp_eq in E; [by rewrite E | lia..].
Qed.

(** Lexicographic order on byte strings, a proper prefix first. *)
Fixpoint lex_ltb (a b : list ascii) : bool :=
  match a, b with
  | _, [] => false
  | [], _ :: _ => true
  | x :: a, y :: b =>
      match N.compare (N_of_ascii x) (N_of_ascii y) with
      | Lt => true | Gt => false | Eq => lex_ltb a b
      end
  end.

Lemma memcmp_lex n m a b :
  length a = n -> length b = m ->
  match memcmp (n `min` m) a b with
  | Lt => true | Gt => false | Eq => (n <? m)%nat
  end = lex_ltb a b.
Proof.
  revert n m b; induction a as [|x a IH]; intros n m [|y b] <- <-; cbn; try done.
  destruct (N.compare _ _); try done. by apply IH.
Qed.

Lemma memcmp_take n a b k l :
  (n <= k)%nat -> (n <= l)%nat -> memcmp n (take k a) (take l b) = memcmp n a b.
Proof.
  revert a b k l; induction n as [|n IH]; intros a b [|k] [|l] Hk Hl; try done; try lia.
  destruct a as [|x a], b as [|y b]; try done.
  cbn. destruct (N.compare _ _); try done. apply IH; lia.
Qed.

Lemma ltb_view N a b :
  wf N a -> wf N b -> ltb a b = lex_ltb (view a) (view b).
Proof.
  intros Ha Hb. pose proof (view_length _ _ Ha) as La.
  pose proof (view_length _ _ Hb) as Lb.
  destruct Ha as (Da & Ra & _), Hb as (Db & Rb & _).
  rewrite <- (memcmp_lex _ _ _ _ La Lb). unfold view, ltb.
  rewrite memcmp_take by lia.
  replace (Z.to_nat (Z.min (len_ a) (len_ b)))
    with (Z.to_nat (len_ a) `min` Z.to_nat (len_ b))%nat by lia.
  destruct memcmp; try done.
  destruct (Z.ltb_spec (len_ a) (len_ b)), (Nat.ltb_spec (Z.to_nat (len_ a)) (Z.to_nat (len_ b)));
    try done; lia.
Qed.

End FixedString.

(** [FixedString<16>], [<32>] and [<64>]; a value is used as a map key through
    its view ([FixedString.eqb_view] is what makes the two agree). *)
Abbreviation Symbol := FixedString.t (only parsing).
Abbreviation ClientId := FixedString.t (only parsing).

Definition Symbol_of (s : string) : FixedString.t :=
  FixedString.of_view 16 (String.list_ascii_of_string s).
Definition ClientId_of (s : string) : FixedString.t :=
  FixedString.of_view 32 (String.list_ascii_of_string s).
Definition Text_of (s : string) : FixedString.t :=
  FixedString.of_view 64 (String.list_ascii_of_string s).

(** The key of a symbol in the maps keyed by [Symbol]: hashing and equality
    read the view only. *)
Definition skey (s : FixedString.t) : list ascii := FixedString.view s.

(** ** Order, ExecutionReport, CancelRequest *)

Record Order := mkOrder {
  o_id : OrderId;
  o_client_order_id : OrderId;
  o_parent_order_id : OrderId;
  o_symbol : FixedString.t;
  o_side : Side;
  o_type : OrderType;
  o_tif : TimeInForce;
  o_price : Price;
  o_quantity : Quantity;
  o_filled_quantity : Quantity;
  o_remaining_quantity : Quantity;
  o_avg_fill_price : Price;
  o_target_venue : VenueId;
  o_strategy : RoutingStrategyTag;
  o_state : OrderState;
  o_client_id : FixedString.t;
  o_create_time : Timestamp;
  o_last_update_time : Timestamp;
  o_version : Z
}.

(** The default member initialisers of [Order]. *)
Definition default_Order : Order :=
  mkOrder INVALID_ORDER_ID INVALID_ORDER_ID INVALID_ORDER_ID
          (FixedString.empty_string 16) Buy OT_Limit TIF_GTC
          INVALID_PRICE 0 0 0 0 0 RS_BestPrice New
          (FixedString.empty_string 32) 0 0 0.

(** Field assignment. *)
Definition set_o_id x o := let 'mkOrder _ b c d e f g h i j k l m n p q r s t := o in
  mkOrder x b c d e f g h i j k l m n p q r s t.
Definition set_o_quantity x o := let 'mkOrder a b c d e f g h _ j k l m n p q r s t := o in
  mkOrder a b c d e f g h x j k l m n p q r s t.
Definition set_o_filled_quantity x o := let 'mkOrder a b c d e f g h i _ k l m n p q r s t := o in
  mkOrder a b c d e f g h i x k l m n p q r s t.
Definition set_o_remaining_quantity x o := let 'mkOrder a b c d e f g h i j _ l m n p q r s t := o in
  mkOrder a b c d e f g h i j x l m n p q r s t.
Definition set_o_avg_fill_price x o := let 'mkOrder a b c d e f g h i j k _ m n p q r s t := o in
  mkOrder a b c d e f g h i j k x m n p q r s t.
Definition set_o_state x o := let 'mkOrder a b c d e f g h i j k l m n _ q r s t := o in
  mkOrder a b c d e f g h i j k l m n x q r s t.
Definition set_o_create_time x o := let 'mkOrder a b c d e f g h i j k l m n p q _ s t := o in
  mkOrder a b c d e f g h i j k l m n p q x s t.
Definition set_o_last_update_time x o := let 'mkOrder a b c d e f g h i j k l m n p q r _ t := o in
  mkOrder a b c d e f g h i j k l m n p q r x t.
Definition set_o_version x o := let 'mkOrder a b c d e f g h i j k l m n p q r s _ := o in
  mkOrder a b c d e f g h i j k l m n p q r s x.

(** [leaves_qty()] *)
Definition leaves_qty (o : Order) : Quantity :=
  o_quantity o -! o_filled_quantity o.

Definition is_terminal_state (s : OrderState) : bool :=
  match s with
  | Filled | Canceled | Rejected | Expired => true
  | _ => false
  end.

Definition is_active_state (s : OrderState) : bool :=
  match s with
  | New | PendingNew | Accepted | PartiallyFilled | PendingCancel | PendingReplace => true
  | _ => false
  end.

(** [is_terminal()] and [is_active()] *)
Definition is_terminal (o : Order) : bool := is_terminal_state (o_state o).
Definition is_active (o : Order) : bool := is_active_state (o_state o).

Lemma is_active_terminal o : is_active o = negb (is_terminal o).
Proof. unfold is_active, is_terminal. by destruct (o_state o). Qed.

Record ExecutionReport := mkReport {
  r_order_id : OrderId;
  r_exec_id : OrderId;
  r_state : OrderState;
  r_last_price : Price;
  r_last_quantity : Quantity;
  r_avg_price : Price;
  r_cum_quantity : Quantity;
  r_leaves_quantity : Quantity;
  r_venue_id : VenueId;
  r_timestamp : Timestamp;
  r_text : FixedString.t
}.

Definition default_ExecutionReport : ExecutionReport :=
  mkReport INVALID_ORDER_ID INVALID_ORDER_ID New 0 0 0 0 0 0 0
           (FixedString.empty_string 64).

Record CancelRequest := mkCancel {
  c_order_id : OrderId;
  c_client_order_id : OrderId;
  c_symbol : FixedString.t;
  c_side : Side;
  c_timestamp : Timestamp
}.

(** ** Properties *)

(** Assigning a string to a [FixedString<N>] keeps the representation
    invariant (fixed storage, a length of at most [N], a terminating NUL at
    the length) and the string read back is the first [N] characters of the
    one assigned: short strings round trip, long ones are truncated, and the
    previous content never shows. *)
Theorem FixedString_assign_truncates N fs sv :
  Z.of_nat N <= 255 -> FixedString.wf N fs ->
  FixedString.wf N (FixedString.assign N fs sv) /\
  FixedString.view (FixedString.assign N fs sv) = take N sv.
Proof. apply FixedString.assign_wf_view. Qed.

Lemma FixedString_assign_truncates_witness :
  FixedString.view
    (FixedString.assign 4 (FixedString.of_view 4 ["x"; "y"]%char)
       ["A"; "A"; "P"; "L"; "X"]%char) = ["A"; "A"; "P"; "L"]%char.
Proof.
  refine (proj2 (FixedString_assign_truncates 4 _ _ _ _)); [lia|].
  split_and!; vm_compute; done.
Defined.

(** Comparison of two well-formed [FixedString<N>] values looks at their
    contents only: [==] holds exactly when the views are equal, whatever bytes
    lie beyond the length, and [<] is the lexicographic order of the views. *)
Theorem FixedString_compare_views N a b :
  FixedString.wf N a -> FixedString.wf N b ->
  (FixedString.eqb a b = true <-> FixedString.view a = FixedString.view b) /\
  FixedString.ltb a b = FixedString.lex_ltb (FixedString.view a) (FixedString.view b).
Proof.
  intros Ha Hb. split; [by eapply FixedString.eqb_view | by eapply FixedString.ltb_view].
Qed.

Lemma FixedString_compare_views_witness :
  FixedString.ltb (Symbol_of "AAPL") (Symbol_of "AAPLX") =
  FixedString.lex_ltb (FixedString.view (Symbol_of "AAPL"))
                      (FixedString.view (Symbol_of "AAPLX")).
Proof.
  refine (proj2 (FixedString_compare_views 16 _ _ _ _)); split_and!; vm_compute; done.
Defined.
