(* ===== verification/FixedPoint.v ===== *)
(** * FixedPoint<Scale> (sor/core/fixed_point.h)

    A value is its raw integer, the real value times [Scale].  Addition,
    subtraction and negation wrap at 64 bits; multiplication and division go
    through a 128-bit intermediate and are narrowed at the end.  Division by a
    zero value is the one undefined operation, given as [None]. *)

From S2P Require Import Prelude Double.

Module FixedPoint.

Record t := from_raw { raw : Z }.

Section scaled.
Variable Scale : Z.

Definition from_double (d : double) : t :=
  from_raw (i64_of_d (dadd (dmul d (d_of_Z Scale))
                           (if dgeb d (d_of_Z 0) then d_lit 5 1
                            else dsub (d_of_Z 0) (d_lit 5 1)))).

Definition to_double (a : t) : double := ddiv (d_of_Z (raw a)) (d_of_Z Scale).

Definition add (a b : t) : t := from_raw (raw a +! raw b).
Definition sub (a b : t) : t := from_raw (raw a -! raw b).

Definition mul (a b : t) : t :=
  let prod := i128 (raw a * raw b) in
  from_raw (i64 (Z.quot prod Scale)).

Definition div (a b : t) : option t :=
  let num := i128 (raw a * Scale) in
  if raw b =? 0 then None else Some (from_raw (i64 (Z.quot num (raw b)))).

Definition opp (a : t) : t := from_raw (i64_opp (raw a)).

Definition compare (a b : t) : comparison := Z.compare (raw a) (raw b).
Definition eqb (a b : t) : bool := raw a =? raw b.

Definition scale : Z := Scale.
End scaled.

(** [PriceFixed] and [FeeRate] *)
Definition PRICE_FIXED_SCALE : Z := 100000000.
Definition FEE_RATE_SCALE : Z := 1000000.

End FixedPoint.

Import FixedPoint.

(** Fixed-point multiplication and division keep full precision through
    the 128-bit intermediate: whenever the mathematical result fits 64 bits,
    the raw result is the exact quotient truncated towards zero, so it is off
    by less than one unit of [Scale] (for division, by less than one unit of
    the divisor) and never further from zero than the exact value. *)
Theorem FixedPoint_mul_div_precision Scale (a b : FixedPoint.t) :
  0 < Scale -> in_i64 Scale -> in_i64 (raw a) -> in_i64 (raw b) -> raw b <> 0 ->
  in_i64 (Z.quot (raw a * raw b) Scale) ->
  in_i64 (Z.quot (raw a * Scale) (raw b)) ->
  (let p := raw (FixedPoint.mul Scale a b) in
   Z.abs (raw a * raw b - Scale * p) < Scale /\
   Z.abs (Scale * p) <= Z.abs (raw a * raw b)) /\
  (exists q, FixedPoint.div Scale a b = Some q /\
   Z.abs (raw a * Scale - raw b * raw q) < Z.abs (raw b) /\
   Z.abs (raw b * raw q) <= Z.abs (raw a * Scale)).
Proof.
  intros HS HS' Ha Hb Hb0 Hm Hd. split.
  - unfold FixedPoint.mul; cbn [raw]. rewrite i128_product, i64_id by done.
    pose proof (quot_error (raw a * raw b) Scale). lia.
  - unfold FixedPoint.div. rewrite i128_product by done.
    apply Z.eqb_neq in Hb0 as Hb0'. rewrite Hb0'. eexists; split; [done|].
    cbn [raw]. rewrite i64_id by done. apply quot_error, Hb0.
Qed.

Lemma FixedPoint_mul_div_precision_witness :
  Z.abs (150000000 * 33333333 - 100000000 * 49999999) < 100000000.
Proof.
  refine (proj1 (proj1 (FixedPoint_mul_div_precision 100000000
            (from_raw 150000000) (from_raw 33333333) _ _ _ _ _ _ _)));
    vm_compute; intuition discriminate.
Defined.

(** One is the unit of both operations, exactly: multiplying or dividing
    any 64-bit fixed-point value by [Scale] (the encoding of 1.0) returns it
    unchanged, and dividing by zero is the only division without a result. *)
Theorem FixedPoint_unit_and_zero Scale (a : FixedPoint.t) :
  0 < Scale -> in_i64 Scale -> in_i64 (raw a) ->
  FixedPoint.mul Scale a (from_raw Scale) = a /\
  FixedPoint.div Scale a (from_raw Scale) = Some a /\
  (forall b, FixedPoint.div Scale a b = None <-> raw b = 0).
Proof.
  intros HS HS' Ha. destruct a as [a]; cbn [raw] in *.
  unfold FixedPoint.mul, FixedPoint.div; cbn [raw].
  rewrite i128_product, Z.quot_mul, i64_id by (done || lia). split_and!; [done| |].
  - by destruct (Z.eqb_spec Scale 0); [lia|].
  - intros b. by destruct (Z.eqb_spec (raw b) 0).
Qed.

Lemma FixedPoint_unit_and_zero_witness :
  FixedPoint.mul 1000000 (from_raw (-1234567)) (from_raw 1000000) = from_raw (-1234567).
Proof.
  refine (proj1 (FixedPoint_unit_and_zero 1000000 (from_raw (-1234567)) _ _ _));
    vm_compute; intuition discriminate.
Defined.
