(* ===== verification/StateMachine.v ===== *)
(** * Order state machine (sor/state/order_state_machine.h, .cpp)

    The transition table is built the way [build_transition_table] builds it:
    a 10 x 10 table of [uint8_t] codes filled with [INVALID_STATE] (255) and
    then written cell by cell, and the public functions index it behind the
    same range guards.  The specification speaks of the history of an order:
    where it stands after the events it took, and what can happen next. *)

From S2P Require Import Prelude Types.

Inductive OrderEvent :=
  Submit | Acknowledge | PartialFill | Fill | RequestCancel
| CancelAck | Reject | Expire | RequestReplace | ReplaceAck.

#[export] Instance OrderEvent_eq_dec : EqDecision OrderEvent.
Proof. solve_decision. Defined.

Definition OrderEvent_code (e : OrderEvent) : Z :=
  match e with
  | Submit => 0 | Acknowledge => 1 | PartialFill => 2 | Fill => 3
  | RequestCancel => 4 | CancelAck => 5 | Reject => 6 | Expire => 7
  | RequestReplace => 8 | ReplaceAck => 9
  end.

Definition all_events : list OrderEvent :=
  [Submit; Acknowledge; PartialFill; Fill; RequestCancel;
   CancelAck; Reject; Expire; RequestReplace; ReplaceAck].

Module OrderStateMachine.

Definition INVALID_STATE : Z := 255.
Definition NUM_ORDER_STATES : Z := 10.
Definition NUM_ORDER_EVENTS : Z := 10.

Definition TransitionTable := list (list Z).

(** [t[from][event] = to] *)
Definition set (from : OrderState) (event : OrderEvent) (to : OrderState)
    (t : TransitionTable) : TransitionTable :=
  alter (fun row => <[Z.to_nat (OrderEvent_code event) := OrderState_code to]> row)
        (Z.to_nat (OrderState_code from)) t.

(** The [set] calls of [build_transition_table], in order. *)
Definition table_rows : list (OrderState * OrderEvent * OrderState) := [
  (New,             Submit,         PendingNew);
  (PendingNew,      Acknowledge,    Accepted);
  (PendingNew,      Reject,         Rejected);
  (Accepted,        PartialFill,    PartiallyFilled);
  (Accepted,        Fill,           Filled);
  (Accepted,        RequestCancel,  PendingCancel);
  (Accepted,        Expire,         Expired);
  (Accepted,        RequestReplace, PendingReplace);
  (Accepted,        Reject,         Rejected);
  (PartiallyFilled, PartialFill,    PartiallyFilled);
  (PartiallyFilled, Fill,           Filled);
  (PartiallyFilled, RequestCancel,  PendingCancel);
  (PartiallyFilled, Expire,         Expired);
  (PendingCancel,   CancelAck,      Canceled);
  (PendingCancel,   Fill,           Filled);
  (PendingCancel,   PartialFill,    PendingCancel);
  (PendingCancel,   Reject,         Accepted);
  (PendingReplace,  ReplaceAck,     Accepted);
  (PendingReplace,  Reject,         Accepted);
  (PendingReplace,  Fill,           Filled)
].

Definition build_transition_table : TransitionTable :=
  fold_left (fun t '(from, event, to) => set from event to t) table_rows
    (replicate (Z.to_nat NUM_ORDER_STATES)
       (replicate (Z.to_nat NUM_ORDER_EVENTS) INVALID_STATE)).

Definition TRANSITION_TABLE : TransitionTable := Eval vm_compute in build_transition_table.

(** [TRANSITION_TABLE[fi][ei]] for indices in range. *)
Definition table_cell (fi ei : Z) : Z :=
  nth (Z.to_nat ei) (nth (Z.to_nat fi) TRANSITION_TABLE []) INVALID_STATE.

(** The enumerations are scoped over [uint8_t], so a value may hold any code
    up to 255: the functions take codes and guard against foreign ones. *)
Definition is_valid_transition_code (fi ei : Z) : bool :=
  if (fi >=? NUM_ORDER_STATES) || (ei >=? NUM_ORDER_EVENTS) then false
  else negb (table_cell fi ei =? INVALID_STATE).

Definition apply_code (fi ei : Z) : option Z :=
  if (fi >=? NUM_ORDER_STATES) || (ei >=? NUM_ORDER_EVENTS) then None
  else let next := table_cell fi ei in
       if next =? INVALID_STATE then None else Some next.

Definition is_valid_transition (from : OrderState) (event : OrderEvent) : bool :=
  is_valid_transition_code (OrderState_code from) (OrderEvent_code event).

(** [apply(OrderState, OrderEvent)] *)
Definition apply_state (current : OrderState) (event : OrderEvent) : option OrderState :=
  apply_code (OrderState_code current) (OrderEvent_code event) ≫= OrderState_of_code.

(** [apply(Order &, OrderEvent)]: the returned flag and the order; [now] is
    the clock reading taken on success. *)
Definition apply (order : Order) (event : OrderEvent) (now : Timestamp) : bool * Order :=
  match apply_state (o_state order) event with
  | None => (false, order)
  | Some s =>
      (true, set_o_last_update_time now
               (set_o_version (u32 (o_version order + 1)) (set_o_state s order)))
  end.

Definition valid_events_code (si : Z) : list Z :=
  if si >=? NUM_ORDER_STATES then []
  else List.filter (fun e => negb (table_cell si e =? INVALID_STATE))
                   (seqZ 0 NUM_ORDER_EVENTS).

Definition state_names : list string :=
  ["New"; "PendingNew"; "Accepted"; "PartiallyFilled"; "Filled";
   "PendingCancel"; "Canceled"; "Rejected"; "Expired"; "PendingReplace"]%string.

Definition event_names : list string :=
  ["Submit"; "Acknowledge"; "PartialFill"; "Fill"; "RequestCancel";
   "CancelAck"; "Reject"; "Expire"; "RequestReplace"; "ReplaceAck"]%string.

Definition state_to_string (idx : Z) : string :=
  if idx <? NUM_ORDER_STATES then nth (Z.to_nat idx) state_names "Unknown"%string
  else "Unknown"%string.

Definition event_to_string (idx : Z) : string :=
  if idx <? NUM_ORDER_EVENTS then nth (Z.to_nat idx) event_names "Unknown"%string
  else "Unknown"%string.

(** ** Steps *)

Lemma is_valid_transition_apply s e :
  is_valid_transition s e = true <-> is_Some (apply_state s e).
Proof. destruct s, e; vm_compute; split; try done; try (by eexists); by intros []. Qed.

(** Every code below 10 encodes a state, and an event. *)
Lemma small_code (n : Z) (P : Z -> Prop) :
  0 <= n < 10 -> Forall P (seqZ 0 10) -> P n.
Proof. intros Hn HP. rewrite Forall_forall in HP. apply HP, elem_of_seqZ. lia. Qed.

Lemma state_of_small_code c : 0 <= c < 10 -> exists s, OrderState_code s = c.
Proof.
  intros Hc. apply (small_code c (fun c => exists s, OrderState_code s = c) Hc).
  change (seqZ 0 10) with (OrderState_code <$> all_states).
  rewrite Forall_fmap. apply Forall_true. intros s; by exists s.
Qed.

Lemma event_of_small_code c : 0 <= c < 10 -> exists e, OrderEvent_code e = c.
Proof.
  intros Hc. apply (small_code c (fun c => exists e, OrderEvent_code e = c) Hc).
  change (seqZ 0 10) with (OrderEvent_code <$> all_events).
  rewrite Forall_fmap. apply Forall_true. intros e; by exists e.
Qed.

(** One accepted event. *)
Definition step (s s' : OrderState) : Prop := exists e, apply_state s e = Some s'.

Lemma terminal_no_step s s' : is_terminal_state s = true -> ~ step s s'.
Proof. intros Ht [e He]. by destruct s, e. Qed.

Lemma terminal_rtc s s' : is_terminal_state s = true -> rtc step s s' -> s' = s.
Proof.
  intros Ht Hr. destruct Hr as [|? ? ? Hs]; [done|].
  by destruct (terminal_no_step _ _ Ht Hs).
Qed.

(** A sequence of events that completes an order from each live state. *)
Definition final_event (s : OrderState) : list OrderEvent :=
  match s with
  | New => [Submit; Acknowledge; Fill]
  | PendingNew => [Acknowledge; Fill]
  | Accepted | PartiallyFilled | PendingCancel | PendingReplace => [Fill]
  | _ => []
  end.

Fixpoint run (s : OrderState) (es : list OrderEvent) : option OrderState :=
  match es with
  | [] => Some s
  | e :: es => match apply_state s e with Some s' => run s' es | None => None end
  end.

Lemma run_rtc s es s' : run s es = Some s' -> rtc step s s'.
Proof.
  revert s; induction es as [|e es IH]; cbn; intros s H; [by injection H as <-|].
  destruct (apply_state s e) as [s1|] eqn:E; [|done].
  eapply rtc_l; [by exists e|auto].
Qed.

End OrderStateMachine.

Import OrderStateMachine.

(** ** The lifecycle of an order, from its history *)

(** The events an order took, the latest first.  The request to the venue
    that is still without an answer: *)
Fixpoint open_request (h : list OrderEvent) : option OrderEvent :=
  match h with
  | [] => None
  | RequestCancel :: _ => Some RequestCancel
  | RequestReplace :: _ => Some RequestReplace
  | (CancelAck | ReplaceAck | Reject) :: _ => None
  | _ :: h => open_request h
  end.

(** A partial fill since the order was last accepted or a request of it
    refused. *)
Fixpoint partly_filled (h : list OrderEvent) : bool :=
  match h with
  | [] | (Acknowledge | ReplaceAck | Reject) :: _ => false
  | PartialFill :: _ => true
  | _ :: h => partly_filled h
  end.

(** The order itself was rejected, and not a request of it. *)
Definition rejected (h : list OrderEvent) : bool :=
  match h with Reject :: h => bool_decide (open_request h = None) | _ => false end.

Definition ended (h : list OrderEvent) : bool :=
  bool_decide (Fill ∈ h) || bool_decide (CancelAck ∈ h) || bool_decide (Expire ∈ h) || rejected h.

(** Where an order with this history stands. *)
Definition standing (h : list OrderEvent) : OrderState :=
  if bool_decide (Fill ∈ h) then Filled
  else if bool_decide (CancelAck ∈ h) then Canceled
  else if bool_decide (Expire ∈ h) then Expired
  else if rejected h then Rejected
  else match open_request h with
       | Some RequestCancel => PendingCancel
       | Some _ => PendingReplace
       | None =>
           if partly_filled h then PartiallyFilled
           else if bool_decide (Acknowledge ∈ h) then Accepted
           else if bool_decide (Submit ∈ h) then PendingNew else New
       end.

(** What can happen to it next: it is submitted first and acknowledged or
    rejected next; while it lives at the venue it can be filled, in part not
    while a replacement is asked for; one request at a time is made, a
    replacement only of an order without fills, and only a request that was
    made is answered; it expires while no request is open; and it is rejected
    late only without fills. *)
Definition permitted (h : list OrderEvent) (e : OrderEvent) : Prop :=
  let live := Acknowledge ∈ h in
  ended h = false /\
  match e with
  | Submit => h = []
  | Acknowledge => h = [Submit]
  | PartialFill => live /\ open_request h <> Some RequestReplace
  | Fill => live
  | RequestCancel | Expire => live /\ open_request h = None
  | RequestReplace => live /\ open_request h = None /\ partly_filled h = false
  | CancelAck => open_request h = Some RequestCancel
  | ReplaceAck => open_request h = Some RequestReplace
  | Reject => h = [Submit] \/ open_request h <> None \/ live /\ partly_filled h = false
  end.

(** The history of an order, the events applied to it one after the other
    at the times given: those it took. *)
Definition live_through (events : list (OrderEvent * Timestamp)) (o : Order) : list OrderEvent * Order :=
  fold_left (fun '(h, o) '(e, now) =>
    let '(taken, o) := OrderStateMachine.apply o e now in (if taken then e :: h else h, o)) events ([], o).

(** The facts of the history at each state. *)
Definition looks (s : OrderState) (h : list OrderEvent) : Prop :=
  let alive := Fill ∉ h /\ CancelAck ∉ h /\ Expire ∉ h /\ rejected h = false in
  match s with
  | New => h = []
  | PendingNew => h = [Submit]
  | Accepted => alive /\ Acknowledge ∈ h /\ open_request h = None /\ partly_filled h = false
  | PartiallyFilled => alive /\ Acknowledge ∈ h /\ open_request h = None /\ partly_filled h = true
  | PendingCancel => alive /\ Acknowledge ∈ h /\ open_request h = Some RequestCancel
  | PendingReplace => alive /\ Acknowledge ∈ h /\ open_request h = Some RequestReplace
  | Filled => Fill ∈ h
  | Canceled => Fill ∉ h /\ CancelAck ∈ h
  | Expired => Fill ∉ h /\ CancelAck ∉ h /\ Expire ∈ h
  | Rejected => Fill ∉ h /\ CancelAck ∉ h /\ Expire ∉ h /\ rejected h = true
  end.

Lemma looks_standing s h : looks s h -> standing h = s.
Proof.
  unfold standing. destruct s; cbn [looks]; intros; destruct_and?; subst; try reflexivity;
    rewrite ?bool_decide_eq_false_2 by done; rewrite ?bool_decide_eq_true_2 by done;
    repeat match goal with H : ?x = _ |- context [?x] => rewrite H end; by rewrite ?bool_decide_eq_true_2 by done.
Qed.

Lemma looks_step s h e s' : looks s h -> apply_state s e = Some s' -> looks s' (e :: h).
Proof.
  destruct s, e; vm_compute (apply_state _ _); intros Hl [= <-]; cbn [looks] in *; destruct_and?; subst;
    cbn [open_request partly_filled rejected];
    repeat match goal with H : open_request _ = _ |- _ => rewrite H end; split_and?; try done; try set_solver.
Qed.

(** What the machine takes is what the history permits. *)
Ltac no_member :=
  match goal with
  | H : _ ∈ [] |- _ => by apply not_elem_of_nil in H
  | H : _ ∈ [_] |- _ => by apply list_elem_of_singleton in H
  end.

Lemma looks_permitted s h e : looks s h -> is_Some (apply_state s e) <-> permitted h e.
Proof.
  intros Hl. split.
  - intros [s' Hs]. unfold permitted, ended. destruct s, e; vm_compute in Hs; try discriminate Hs; clear Hs; cbn [looks] in Hl; destruct_and?; subst;
      (split; [by rewrite ?bool_decide_eq_false_2 by (done || (intros ?; no_member))|]); auto;
      repeat match goal with H : ?x = _ |- context [?x] => rewrite H end; auto; right; left; congruence.
  - intros [He Hp].
    destruct (apply_state s e) as [s'|] eqn:Hs; [by eexists|exfalso].
    unfold ended in He. rewrite !orb_false_iff, !bool_decide_eq_false in He. destruct He as (((He1 & He2) & He3) & He4).
    destruct s, e; vm_compute in Hs; try discriminate Hs; clear Hs; cbn [looks] in Hl; destruct_and?; subst;
      try done; try no_member; destruct_or?; destruct_and?; subst; try done; try no_member; try congruence.
Qed.

(** [apply] on an order changes its state, version and update time, all or
    nothing. *)
Lemma apply_spec o e now :
  OrderStateMachine.apply o e now =
    match apply_state (o_state o) e with
    | Some s => (true, set_o_last_update_time now (set_o_version (u32 (o_version o + 1)) (set_o_state s o)))
    | None => (false, o)
    end.
Proof. done. Qed.

(** The fields [apply] leaves alone. *)
Definition same_order (o o' : Order) : Prop :=
  set_o_state (o_state o) (set_o_version (o_version o) (set_o_last_update_time (o_last_update_time o) o')) = o.

Lemma live_through_looks events o : o_state o = New -> in_u32 (o_version o) ->
  let '(h, o') := live_through events o in
  looks (o_state o') h /\ o_version o' = u32 (o_version o + Z.of_nat (length h)) /\ same_order o o'.
Proof.
  intros Hn Hv. unfold live_through.
  apply (fold_left_inv _ (fun ho _ => let '(h, o') := ho in
    looks (o_state o') h /\ o_version o' = u32 (o_version o + Z.of_nat (length h)) /\ same_order o o')).
  - rewrite Hn, Z.add_0_r. split; [done|]. split; [by rewrite u32_id|]. by destruct o.
  - intros [h o'] seen [e now] _ (Hl & Hver & Hs). rewrite apply_spec.
    destruct (apply_state (o_state o') e) as [s'|] eqn:E; [|done]. pose proof (looks_step _ _ _ _ Hl E) as Hl'.
    unfold same_order in *. destruct o, o'; cbn in *. split; [done|]. split; [|done].
    rewrite Hver. unfold u32, wrapu. rewrite Zplus_mod_idemp_l. f_equal. lia.
Qed.


(** A new order that is filled in part, cannot be canceled any more, and is
    rejected late: the machine takes that, since the refused cancel left it
    accepted. *)
Definition sample_events : list (OrderEvent * Timestamp) :=
  [(Submit, 1); (Fill, 2); (Acknowledge, 3); (PartialFill, 4); (RequestCancel, 5); (PartialFill, 6); (Reject, 7)].


(** Codes outside the enumerations never index the table: a state or event
    code of 10 or more gives no transition, and every code the table yields is
    the code of an order state, so the sentinel 255 never escapes. *)
Theorem apply_code_guarded fi ei :
  0 <= fi -> 0 <= ei ->
  (10 <= fi \/ 10 <= ei ->
   apply_code fi ei = None /\ is_valid_transition_code fi ei = false) /\
  (forall c, apply_code fi ei = Some c -> is_Some (OrderState_of_code c)).
Proof.
  intros Hf He. unfold apply_code, is_valid_transition_code, NUM_ORDER_STATES, NUM_ORDER_EVENTS.
  destruct (Z.geb_spec fi 10), (Z.geb_spec ei 10); cbn [orb]; split; try done; try lia.
  intros c. destruct (state_of_small_code fi) as [s <-]; [lia|].
  destruct (event_of_small_code ei) as [e <-]; [lia|].
  destruct s, e; vm_compute; intros [= <-]; by eexists.
Qed.

Lemma apply_code_guarded_witness :
  apply_code 10 3 = None /\ is_valid_transition_code 10 3 = false.
Proof. refine (proj1 (apply_code_guarded 10 3 _ _) _); lia. Defined.

(** Terminal states are final and every live order can still finish: no
    sequence of events leaves [Filled], [Canceled], [Rejected] or [Expired],
    and from every other state some sequence of accepted events reaches
    [Filled]. *)
Theorem terminal_states_absorbing s :
  (is_terminal_state s = true -> forall s', rtc step s s' -> s' = s) /\
  (is_terminal_state s = false -> rtc step s Filled).
Proof.
  split; [intros Ht s'; by apply terminal_rtc|].
  intros Hl. apply (run_rtc s (final_event s)). by destruct s.
Qed.

Lemma terminal_states_absorbing_witness : rtc step New Filled.
Proof. exact (proj2 (terminal_states_absorbing New) eq_refl). Defined.

(** [apply] on an order is all or nothing: an accepted event sets the new
    state, increments the version modulo 2^32 and stamps the update time,
    leaving every other field; a refused event returns [false] and the very
    same order. *)
Theorem apply_order_atomic o e now :
  match apply_state (o_state o) e with
  | Some s =>
      apply o e now = (true, snd (apply o e now)) /\
      let o' := snd (apply o e now) in
      o_state o' = s /\ o_version o' = u32 (o_version o + 1) /\
      o_last_update_time o' = now /\
      set_o_state (o_state o) (set_o_version (o_version o)
        (set_o_last_update_time (o_last_update_time o) o')) = o
  | None => apply o e now = (false, o)
  end.
Proof.
  unfold apply. destruct (apply_state (o_state o) e); [|done].
  by destruct o.
Qed.
