(* ===== verification/RateLimiter.v ===== *)
(** * Rate limiter and kill switch (sor/risk: rate_limiter, kill_switch)

    [try_acquire] is a sequence of atomic operations on three shared words.
    [thread_step] gives them one at a time, so that the same definition serves
    two purposes: run to completion it is the sequential function
    [try_acquire]; interleaved over a list of threads it is the concurrent
    behaviour, for which the admission bound of a window is proved. *)

From S2P Require Import Prelude Types.

Definition NANOS_PER_SEC : Z := 1000000000.

Module RateLimiter.

Record t := mk { max_per_second_ : Z; count_ : Z; window_start_ : Z }.

(** [duration_cast<seconds>] of a [steady_clock] reading in nanoseconds. *)
Definition to_seconds (now : Timestamp) : Z := Z.quot now NANOS_PER_SEC.

(** The constructor. *)
Definition create (max_per_second : Z) (now : Timestamp) : t :=
  mk max_per_second 0 (to_seconds now).

(** Program counter of a thread inside [try_acquire]: one constructor per
    atomic operation still to be executed. *)
Inductive pc :=
| Load (now_sec : Z)              (** [window_start_.load] *)
| Cas (now_sec expected : Z)      (** [compare_exchange_strong] *)
| StoreOne                        (** [count_.store(1)] *)
| FetchAdd                        (** [count_.fetch_add(1)] *)
| FetchSub                        (** [count_.fetch_sub(1)] *)
| Done (allowed : bool).

#[export] Instance pc_eq_dec : EqDecision pc.
Proof. solve_decision. Defined.

Definition thread_step (l : t) (p : pc) : option (t * pc) :=
  match p with
  | Load now_sec =>
      let expected := window_start_ l in
      Some (l, if now_sec >? expected then Cas now_sec expected else FetchAdd)
  | Cas now_sec expected =>
      if window_start_ l =? expected
      then Some ({ l with window_start_ := now_sec }, StoreOne)
      else Some (l, FetchAdd)
  | StoreOne => Some ({ l with count_ := 1 }, Done true)
  | FetchAdd =>
      let prev := count_ l in
      Some ({ l with count_ := i32 (prev + 1) },
            if prev >=? max_per_second_ l then FetchSub else Done true)
  | FetchSub => Some ({ l with count_ := i32 (count_ l - 1) }, Done false)
  | Done _ => None
  end.

(** A thread running alone: at most four atomic operations. *)
Fixpoint run_alone (fuel : nat) (l : t) (p : pc) : t * pc :=
  match fuel, thread_step l p with
  | S fuel, Some (l', p') => run_alone fuel l' p'
  | _, _ => (l, p)
  end.

Definition try_acquire (l : t) (now : Timestamp) : bool * t :=
  let '(l', p) := run_alone 4 l (Load (to_seconds now)) in
  (match p with Done b => b | _ => false end, l').

Definition reset (l : t) (now : Timestamp) : t :=
  { l with count_ := 0; window_start_ := to_seconds now }.

Definition set_max_rate (l : t) (max_per_second : Z) (now : Timestamp) : t :=
  reset { l with max_per_second_ := max_per_second } now.

Definition max_rate (l : t) : Z := max_per_second_ l.

(** ** Interleaving *)

(** A configuration: the shared words and the threads inside the call. *)
Definition config : Type := t * list pc.

(** Thread [i] executes its next atomic operation. *)
Definition sched (c : config) (i : nat) : option config :=
  p ← c.2 !! i; '(l', p') ← thread_step c.1 p; Some (l', <[i := p']> c.2).

(** Some thread executes its next atomic operation. *)
Definition cstep (c c' : config) : Prop := exists i, sched c i = Some c'.

(** A schedule: the thread that moves at each step. *)
Fixpoint schedule (c : config) (sch : list nat) : option config :=
  match sch with
  | [] => Some c
  | i :: sch => match sched c i with Some c' => schedule c' sch | None => None end
  end.

Lemma schedule_rtc sch c c' : schedule c sch = Some c' -> rtc cstep c c'.
Proof.
  revert c; induction sch as [|i sch IH]; cbn; intros c H; [by injection H as <-|].
  destruct (sched c i) as [c1|] eqn:E; [|done].
  eapply rtc_l; [by exists i | by apply IH].
Qed.

(** How many threads are in a given class of program counters. *)
Definition is_granted (p : pc) : bool := match p with Done true => true | _ => false end.
Definition is_refused (p : pc) : bool := match p with Done false => true | _ => false end.
Definition is_undoing (p : pc) : bool := match p with FetchSub => true | _ => false end.
Definition is_done (p : pc) : bool := is_granted p || is_refused p.

Definition b2z (b : bool) : Z := if b then 1 else 0.
Definition count_by (f : pc -> bool) (ps : list pc) : Z := sum_by (fun p => b2z (f p)) ps.

#[local] Arguments count_by : simpl never.

(** A thread whose clock reading does not move the window. *)
Definition within (w : Z) (p : pc) : Prop :=
  match p with Load s => s <= w | Cas _ _ | StoreOne => False | _ => True end.

(** Inside a window: the counter is the permits given plus the refusals not
    undone yet, and a refusal means that the permits are exhausted. *)
Record window_inv (w c0 : Z) (c : config) : Prop := {
  wi_window : window_start_ c.1 = w;
  wi_within : Forall (within w) c.2;
  wi_count : count_ c.1 = c0 + count_by is_granted c.2 + count_by is_undoing c.2;
  wi_limit : c0 + count_by is_granted c.2 <= max_per_second_ c.1;
  wi_refused : 0 < count_by is_undoing c.2 + count_by is_refused c.2 ->
               c0 + count_by is_granted c.2 = max_per_second_ c.1
}.

Lemma count_by_bounds f ps : 0 <= count_by f ps <= Z.of_nat (length ps).
Proof.
  unfold count_by. induction ps as [|p ps IH]; [done|].
  rewrite sum_by_cons. cbn [length]. destruct (f p); cbn [b2z]; lia.
Qed.

(** Two disjoint classes count at most every thread. *)
Lemma count_by_disjoint f g ps :
  (forall p, f p && g p = false) ->
  count_by f ps + count_by g ps <= Z.of_nat (length ps).
Proof.
  intros Hd. unfold count_by. induction ps as [|p ps IH]; [done|].
  rewrite !sum_by_cons. cbn [length]. specialize (Hd p).
  destruct (f p), (g p); cbn [b2z andb] in *; try done; lia.
Qed.

Lemma count_by_all ps :
  Forall (fun p => is_done p = true) ps ->
  count_by is_granted ps + count_by is_refused ps = Z.of_nat (length ps).
Proof.
  unfold count_by. induction 1 as [|p ps Hp _ IH]; [done|].
  rewrite !sum_by_cons. cbn [length].
  assert (b2z (is_granted p) + b2z (is_refused p) = 1) by (by destruct p as [| | | | |[]]).
  lia.
Qed.

Lemma window_inv_step w c0 c c' :
  0 <= c0 -> c0 + Z.of_nat (length c.2) <= 2147483647 ->
  window_inv w c0 c -> cstep c c' ->
  window_inv w c0 c' /\ length c'.2 = length c.2 /\
  max_per_second_ c'.1 = max_per_second_ c.1.
Proof.
  intros Hc0 Hbig [Hw Hin Hc Hl Hr] [i Hi]. destruct c as [[m cnt wd] ps]; cbn [fst snd] in *.
  unfold sched in Hi; cbn in Hi.
  destruct (ps !! i) as [p|] eqn:Ep; cbn in Hi; [|done].
  pose proof (Forall_lookup_1 _ _ _ _ Hin Ep) as Hp.
  pose proof (count_by_bounds is_granted ps). pose proof (count_by_bounds is_undoing ps).
  pose proof (count_by_bounds is_refused ps).
  pose proof (count_by_disjoint is_granted is_undoing ps
                ltac:(by intros [| | | | |[]])) as Hd.
  assert (forall f q, count_by f (<[i:=q]> ps) =
                      count_by f ps - b2z (f p) + b2z (f q)) as Hs.
  { intros f q. unfold count_by. by rewrite (sum_by_insert _ _ _ _ _ Ep). }
  destruct p as [s|s e| | | |b]; cbn in *; try done.
  - (* Load *)
    destruct (Z.gtb_spec s wd); [lia|]. injection Hi as <-.
    cbn [fst snd]. rewrite length_insert. split; [|done]. split; cbn; rewrite ?Hs; cbn; try done; try lia;
      by apply Forall_insert.
  - (* FetchAdd *)
    assert (count_by is_granted ps + count_by is_undoing ps < Z.of_nat (length ps)).
    { assert (is_undoing FetchAdd = false) as E1 by done.
      assert (is_granted FetchAdd = false) as E2 by done.
      pose proof (count_by_disjoint is_granted is_undoing (<[i := FetchSub]> ps)
                    ltac:(by intros [| | | | |[]])) as Hd'.
      rewrite !Hs, length_insert in Hd'. cbn in Hd'. lia. }
    rewrite i32_id in Hi by mlia.
    destruct (Z.geb_spec cnt m); injection Hi as <-;
      (cbn [fst snd]; rewrite length_insert; split; [|done]);
      split; cbn; rewrite ?Hs; cbn; try done; try lia; by apply Forall_insert.
  - (* FetchSub *)
    rewrite i32_id in Hi by mlia. injection Hi as <-.
    cbn [fst snd]. rewrite length_insert. split; [|done].
    split; cbn; rewrite ?Hs; cbn; try done; try lia; by apply Forall_insert.
Qed.

Lemma window_inv_rtc w c0 c c' :
  0 <= c0 -> c0 + Z.of_nat (length c.2) <= 2147483647 ->
  rtc cstep c c' -> window_inv w c0 c ->
  window_inv w c0 c' /\ length c'.2 = length c.2 /\
  max_per_second_ c'.1 = max_per_second_ c.1.
Proof.
  intros Hc0 Hbig Hr. induction Hr as [|c c1 c' Hs _ IH]; [done|].
  intros Hi. destruct (window_inv_step w c0 c c1 Hc0 Hbig Hi Hs) as (Hi1 & L1 & M1).
  destruct IH as (? & ? & ?); [by rewrite L1|done|]. split_and!; try done; congruence.
Qed.

(** The threads as they enter the call. *)
Lemma window_inv_start l secs :
  Forall (fun s => s <= window_start_ l) secs -> count_ l <= max_per_second_ l ->
  window_inv (window_start_ l) (count_ l) (l, Load <$> secs).
Proof.
  intros Hs Hl.
  assert (forall f, (forall s, f (Load s) = false) -> count_by f (Load <$> secs) = 0) as Hz.
  { intros f Hf. unfold count_by. clear Hs. induction secs as [|s secs IH]; [done|].
    cbn [fmap list_fmap]. rewrite sum_by_cons, Hf. cbn [b2z]. lia. }
  split; cbn; rewrite ?(Hz is_granted), ?(Hz is_undoing), ?(Hz is_refused) by done;
    try done; try lia.
  by apply Forall_fmap.
Qed.

(** *** Sequential behaviour *)

(** One call in isolation: a later second opens a new window with this permit
    as its first; in the current window it is granted iff the count is below
    the maximum, and a refusal leaves the limiter unchanged. *)
Lemma try_acquire_spec l now :
  in_i32 (count_ l) -> count_ l < 2147483647 ->
  try_acquire l now =
  if to_seconds now >? window_start_ l
  then (true, mk (max_per_second_ l) 1 (to_seconds now))
  else if count_ l <? max_per_second_ l
       then (true, mk (max_per_second_ l) (count_ l + 1) (window_start_ l))
       else (false, l).
Proof.
  intros Hr Hm. destruct l as [m c w]. unfold try_acquire. cbn in *.
  destruct (to_seconds now >? w); cbn; rewrite ?Z.eqb_refl; cbn; [done|].
  rewrite Z.geb_leb, Z.leb_antisym.
  destruct (c <? m); cbn; rewrite !i32_id by (rewrite ?i32_id; mlia); [done|].
  do 3 f_equal; lia.
Qed.

(** Successive calls; the number of permits. *)
Fixpoint acquire_all (l : t) (nows : list Timestamp) : Z * t :=
  match nows with
  | [] => (0, l)
  | now :: nows =>
      let '(b, l1) := try_acquire l now in
      let '(n, l2) := acquire_all l1 nows in
      (b2z b + n, l2)
  end.

End RateLimiter.

Module KillSwitch.

(** A registered [std::function], [None] when it is empty. *)
Definition Callback := option positive.

Record t := mk { active_ : bool; reason_ : string; callbacks_ : list Callback }.

Definition create : t := mk false "" [].

(** The callbacks invoked, each with the reason. *)
Definition activate (k : t) (reason : string) : t * list (positive * string) :=
  ({ k with reason_ := reason; active_ := true },
   (fun cb => (cb, reason)) <$> omap id (callbacks_ k)).

Definition deactivate (k : t) : t := { k with active_ := false }.

Definition is_active (k : t) : bool := active_ k.

Definition reason (k : t) : string := reason_ k.

Definition on_activate (k : t) (cb : Callback) : t :=
  { k with callbacks_ := callbacks_ k ++ [cb] }.

End KillSwitch.

Import RateLimiter.

(** C40. However the threads inside [try_acquire] interleave their atomic
    operations, within one window the permits given never exceed what the
    limit leaves, refusals never take a permit away, and once every thread has
    returned exactly min(threads, limit - count) were admitted and the counter
    is the old count plus the permits. *)
Theorem rate_limiter_window_exact l secs l' ps :
  Forall (fun s => s <= window_start_ l) secs ->
  0 <= count_ l <= max_per_second_ l ->
  count_ l + Z.of_nat (length secs) <= 2147483647 ->
  rtc cstep (l, Load <$> secs) (l', ps) ->
  count_ l + count_by is_granted ps <= max_per_second_ l /\
  (Forall (fun p => is_done p = true) ps ->
   count_by is_granted ps =
     Z.min (Z.of_nat (length secs)) (max_per_second_ l - count_ l) /\
   count_ l' = count_ l + count_by is_granted ps).
Proof.
  intros Hs Hc Hbig Hr.
  destruct (window_inv_rtc (window_start_ l) (count_ l) (l, Load <$> secs) _ ltac:(lia)
              ltac:(cbn [fst snd]; rewrite length_fmap; lia) Hr
              (window_inv_start l secs Hs ltac:(lia))) as ([Hw Hin Hn Hl Hf] & Hlen & Hm).
  cbn [fst snd] in *. rewrite length_fmap in Hlen. rewrite Hm in *.
  split; [lia|]. intros Hd. pose proof (count_by_all ps Hd).
  pose proof (count_by_bounds is_refused ps).
  assert (count_by is_undoing ps = 0).
  { clear -Hd. unfold count_by. induction Hd as [|p ps Hp _ IH]; [done|].
    rewrite sum_by_cons, IH. by destruct p. }
  lia.
Qed.

Lemma rate_limiter_window_exact_witness :
  count_by is_granted [Done true; Done false] = 1.
Proof.
  refine (proj1 (proj2 (rate_limiter_window_exact (mk 3 2 10) [10; 10]
    (mk 3 3 10) [Done true; Done false] _ _ _ _) _)).
  - rewrite !Forall_cons, Forall_nil. cbn. lia.
  - cbn; lia.
  - cbn; lia.
  - apply (schedule_rtc [0; 1; 0; 1; 1]%nat). reflexivity.
  - repeat constructor.
Defined.

(** The bound does not survive a change of window: with a limit of one
    permit per second, two threads that arrive as the second rolls over can
    both be admitted, because the winner's [store(1)] overwrites the increment
    of a thread that has already been counted in the new window. *)
Theorem rate_limiter_rollover_race :
  exists l', rtc cstep (mk 1 0 10, [Load 11; Load 11]) (l', [Done true; Done true]) /\
             window_start_ l' = 11 /\ count_ l' = 1 /\ max_per_second_ l' = 1.
Proof.
  exists (mk 1 1 11). split; [|done].
  apply (schedule_rtc [0; 0; 1; 1; 0]%nat). reflexivity.
Qed.
