(* ===== verification/Risk.v ===== *)
(** * Pre-trade risk (sor/risk/risk_manager.h, risk_manager.cpp)

    [check_order] is the kill switch, the rate limiter and then the limits, in
    the order of the code; the position of a symbol is created by the lookup
    ([positions_[symbol]]), so a check can change the state even when it
    fails.  The lifecycle handlers update one [PositionInfo]. *)

From S2P Require Import Prelude Types RateLimiter.

(** [wide_mul_div]: the product in 128 bits, the quotient narrowed. *)
Definition wide_mul_div (a b divisor : Z) : Price :=
  i64 (Z.quot (i128 (a * b)) divisor).

Record RiskLimits := mkLimits {
  max_order_quantity : Quantity;
  max_order_notional : Price;
  max_position_notional : Price;
  max_position_quantity : Quantity;
  max_orders_per_second : Z;
  max_open_orders : Z;
  max_loss : Price;
  enabled : bool
}.

Definition default_RiskLimits : RiskLimits := mkLimits 0 0 0 0 0 0 0 true.

Record PositionInfo := mkPosition {
  net_quantity : Quantity;
  avg_entry_price : Price;
  realized_pnl : Price;
  unrealized_pnl : Price;
  open_order_count : Z;
  pending_buy_quantity : Quantity;
  pending_sell_quantity : Quantity
}.

Definition default_PositionInfo : PositionInfo := mkPosition 0 0 0 0 0 0 0.

Inductive RiskCheckResult :=
| Passed | FailedMaxOrderQuantity | FailedMaxOrderNotional
| FailedMaxPositionNotional | FailedMaxPositionQuantity
| FailedMaxOrdersPerSecond | FailedMaxOpenOrders | FailedMaxLoss
| FailedKillSwitch | FailedRateLimit | FailedSymbolNotAllowed.

#[export] Instance RiskCheckResult_eq_dec : EqDecision RiskCheckResult.
Proof. solve_decision. Defined.

Module RiskManager.

Record t := mk {
  global_limits_ : RiskLimits;
  symbol_limits_ : gmap (list ascii) RiskLimits;
  positions_ : gmap (list ascii) PositionInfo;
  kill_switch_ : KillSwitch.t;
  rate_limiter_ : RateLimiter.t
}.

(** The constructor; [now] is the rate limiter's first clock reading. *)
Definition create (now : Timestamp) : t :=
  mk default_RiskLimits ∅ ∅ KillSwitch.create (RateLimiter.create 10000 now).

Definition check_limits (order : Order) (limits : RiskLimits) (pos : PositionInfo)
    : RiskCheckResult :=
  let buy := is_buy (o_side order) in
  let order_delta := if buy then o_quantity order else i64_opp (o_quantity order) in
  if negb (enabled limits) then Passed
  else if (max_order_quantity limits >? 0) &&
          (o_quantity order >? max_order_quantity limits) then FailedMaxOrderQuantity
  else if (max_order_notional limits >? 0) && negb (o_price order =? INVALID_PRICE) &&
          (wide_mul_div (o_price order) (o_quantity order) PRICE_SCALE
             >? max_order_notional limits) then FailedMaxOrderNotional
  else if (max_position_quantity limits >? 0) &&
          (let pending := if buy then pending_buy_quantity pos
                          else pending_sell_quantity pos in
           let projected := net_quantity pos +! order_delta
                            +! (if buy then pending else i64_opp pending) in
           i64_abs projected >? max_position_quantity limits)
       then FailedMaxPositionQuantity
  else if (max_position_notional limits >? 0) && negb (o_price order =? INVALID_PRICE) &&
          (let projected_qty := net_quantity pos +! order_delta in
           wide_mul_div (i64_abs projected_qty) (o_price order) PRICE_SCALE
             >? max_position_notional limits) then FailedMaxPositionNotional
  else if (max_open_orders limits >? 0) &&
          (open_order_count pos >=? max_open_orders limits) then FailedMaxOpenOrders
  else if (max_loss limits >? 0) &&
          (let total_pnl := realized_pnl pos +! unrealized_pnl pos in
           (total_pnl <? 0) && (i64_opp total_pnl >? max_loss limits)) then FailedMaxLoss
  else Passed.

(** [positions_[symbol]], creating the entry. *)
Definition position (m : t) (symbol : FixedString.t) : PositionInfo :=
  default default_PositionInfo (positions_ m !! skey symbol).

Definition touch (m : t) (symbol : FixedString.t) : t :=
  { m with positions_ ::= fun ps => <[skey symbol := position m symbol]> ps }.

Definition update_position (m : t) (symbol : FixedString.t)
    (f : PositionInfo -> PositionInfo) : t :=
  { m with positions_ ::= fun ps => <[skey symbol := f (position m symbol)]> ps }.

(** The limit checks of [check_order], after the kill switch and the rate. *)
Definition check_position (m : t) (order : Order) : RiskCheckResult :=
  let pos := position m (o_symbol order) in
  match check_limits order (global_limits_ m) pos with
  | Passed =>
      match symbol_limits_ m !! skey (o_symbol order) with
      | Some limits => check_limits order limits pos
      | None => Passed
      end
  | failure => failure
  end.

Definition check_order (m : t) (order : Order) (now : Timestamp) : RiskCheckResult * t :=
  if KillSwitch.is_active (kill_switch_ m) then (FailedKillSwitch, m)
  else
    let '(allowed, m) :=
      if max_orders_per_second (global_limits_ m) >? 0
      then let '(ok, rl) := RateLimiter.try_acquire (rate_limiter_ m) now in
           (ok, { m with rate_limiter_ := rl })
      else (true, m) in
    if negb allowed then (FailedRateLimit, m)
    else (check_position m order, touch m (o_symbol order)).

(** *** Position updates *)

Definition reducing (pos : PositionInfo) (side : Side) : bool :=
  ((net_quantity pos >? 0) && negb (is_buy side)) ||
  ((net_quantity pos <? 0) && is_buy side).

Definition signed_quantity (side : Side) (qty : Quantity) : Quantity :=
  match side with Buy => qty | Sell => i64_opp qty end.

Definition fill_realized (pos : PositionInfo) (side : Side) (qty : Quantity) (price : Price)
    : PositionInfo :=
  if reducing pos side && negb (avg_entry_price pos =? 0) then
    let close_qty := Z.min (i64_abs (signed_quantity side qty)) (i64_abs (net_quantity pos)) in
    let pnl_per_unit := if net_quantity pos >? 0 then price -! avg_entry_price pos
                        else avg_entry_price pos -! price in
    { pos with realized_pnl ::=
        fun r => r +! wide_mul_div pnl_per_unit close_qty PRICE_SCALE }
  else pos.

Definition fill_average (pos : PositionInfo) (side : Side) (qty : Quantity) (price : Price)
    : PositionInfo :=
  let signed_qty := signed_quantity side qty in
  if negb (reducing pos side) || (i64_abs signed_qty >? i64_abs (net_quantity pos)) then
    let new_open_qty := i64_abs (net_quantity pos +! signed_qty) in
    if new_open_qty >? 0 then
      if (i64_abs (net_quantity pos) >? 0) && negb (reducing pos side) then
        let existing_abs := i64_abs (net_quantity pos) in
        { pos with avg_entry_price ::= fun avg =>
            wide_mul_div avg existing_abs (existing_abs +! qty) +!
            wide_mul_div price qty (existing_abs +! qty) }
      else { pos with avg_entry_price := price }
    else { pos with avg_entry_price := 0 }
  else pos.

Definition release_pending (pos : PositionInfo) (side : Side) (qty : Quantity) : PositionInfo :=
  match side with
  | Buy => { pos with pending_buy_quantity ::= fun p => Z.max 0 (p -! qty) }
  | Sell => { pos with pending_sell_quantity ::= fun p => Z.max 0 (p -! qty) }
  end.

Definition fill_position (side : Side) (qty : Quantity) (price : Price) (pos : PositionInfo)
    : PositionInfo :=
  let pos := fill_realized pos side qty price in
  let pos := fill_average pos side qty price in
  let pos := { pos with net_quantity ::= fun n => n +! signed_quantity side qty } in
  release_pending pos side qty.

Definition on_fill (m : t) (symbol : FixedString.t) (side : Side)
    (qty : Quantity) (price : Price) : t :=
  update_position m symbol (fill_position side qty price).

Definition accept_position (order : Order) (pos : PositionInfo) : PositionInfo :=
  let pos := { pos with open_order_count ::= fun n => i32 (n + 1) } in
  match o_side order with
  | Buy => { pos with pending_buy_quantity ::= fun p => p +! o_quantity order }
  | Sell => { pos with pending_sell_quantity ::= fun p => p +! o_quantity order }
  end.

Definition on_order_accepted (m : t) (order : Order) : t :=
  update_position m (o_symbol order) (accept_position order).

Definition close_position (order : Order) (qty : Quantity) (pos : PositionInfo) : PositionInfo :=
  release_pending { pos with open_order_count ::= fun n => Z.max 0 (i32 (n - 1)) }
                  (o_side order) qty.

Definition on_order_canceled (m : t) (order : Order) : t :=
  update_position m (o_symbol order)
    (close_position order (o_quantity order -! o_filled_quantity order)).

Definition on_order_rejected (m : t) (order : Order) : t :=
  update_position m (o_symbol order) (close_position order (o_quantity order)).

(** *** Configuration and queries *)

Definition set_global_limits (m : t) (limits : RiskLimits) (now : Timestamp) : t :=
  let m := { m with global_limits_ := limits } in
  if max_orders_per_second limits >? 0
  then { m with rate_limiter_ ::= fun rl =>
           RateLimiter.set_max_rate rl (max_orders_per_second limits) now }
  else m.

Definition set_symbol_limits (m : t) (symbol : FixedString.t) (limits : RiskLimits) : t :=
  { m with symbol_limits_ ::= fun ls => <[skey symbol := limits]> ls }.

Definition get_position (m : t) (symbol : FixedString.t) : PositionInfo :=
  match positions_ m !! skey symbol with
  | Some pos => pos
  | None => default_PositionInfo
  end.

Definition activate_kill_switch (m : t) : t * list (positive * string) :=
  let '(k, calls) := KillSwitch.activate (kill_switch_ m) "Manual kill switch activation" in
  ({ m with kill_switch_ := k }, calls).

Definition deactivate_kill_switch (m : t) : t :=
  { m with kill_switch_ ::= KillSwitch.deactivate }.

Definition is_kill_switch_active (m : t) : bool := KillSwitch.is_active (kill_switch_ m).

Definition check_rate_limit (m : t) (now : Timestamp) : bool * t :=
  let '(ok, rl) := RateLimiter.try_acquire (rate_limiter_ m) now in
  (ok, { m with rate_limiter_ := rl }).

Definition to_string (result : RiskCheckResult) : string :=
  match result with
  | Passed => "Passed"
  | FailedMaxOrderQuantity => "FailedMaxOrderQuantity"
  | FailedMaxOrderNotional => "FailedMaxOrderNotional"
  | FailedMaxPositionNotional => "FailedMaxPositionNotional"
  | FailedMaxPositionQuantity => "FailedMaxPositionQuantity"
  | FailedMaxOrdersPerSecond => "FailedMaxOrdersPerSecond"
  | FailedMaxOpenOrders => "FailedMaxOpenOrders"
  | FailedMaxLoss => "FailedMaxLoss"
  | FailedKillSwitch => "FailedKillSwitch"
  | FailedRateLimit => "FailedRateLimit"
  | FailedSymbolNotAllowed => "FailedSymbolNotAllowed"
  end.

End RiskManager.

Import RiskManager.

(** ** Specification: the limits in exact arithmetic

    Each rule of a [RiskLimits] with the reason it reports, in the order they
    are evaluated; a zero limit never fires. *)

Definition side_sign (s : Side) : Z := match s with Buy => 1 | Sell => -1 end.

Definition pending_quantity (s : Side) (pos : PositionInfo) : Quantity :=
  match s with Buy => pending_buy_quantity pos | Sell => pending_sell_quantity pos end.

Definition limit_rules (o : Order) (l : RiskLimits) (pos : PositionInfo)
    : list (bool * RiskCheckResult) :=
  let q := o_quantity o in
  let s := side_sign (o_side o) in
  let priced := negb (o_price o =? INVALID_PRICE) in
  let over limit x := (0 <? limit) && (limit <? x) in
  [ (over (max_order_quantity l) q, FailedMaxOrderQuantity);
    (priced && over (max_order_notional l) (Z.quot (o_price o * q) PRICE_SCALE),
     FailedMaxOrderNotional);
    (over (max_position_quantity l)
       (Z.abs (net_quantity pos + s * (q + pending_quantity (o_side o) pos))),
     FailedMaxPositionQuantity);
    (priced && over (max_position_notional l)
       (Z.quot (Z.abs (net_quantity pos + s * q) * o_price o) PRICE_SCALE),
     FailedMaxPositionNotional);
    (over (max_open_orders l) (open_order_count pos + 1), FailedMaxOpenOrders);
    (over (max_loss l) (- (realized_pnl pos + unrealized_pnl pos)), FailedMaxLoss) ].

Definition first_failure (rules : list (bool * RiskCheckResult)) : RiskCheckResult :=
  match List.find fst rules with Some (_, r) => r | None => Passed end.

(** The magnitudes for which no intermediate of [check_limits] overflows. *)
Definition no_overflow (o : Order) (pos : PositionInfo) : Prop :=
  0 <= pending_quantity (o_side o) pos /\
  Z.abs (net_quantity pos) + Z.abs (o_quantity o) + pending_quantity (o_side o) pos
    <= INT64_MAX /\
  in_i64 (o_price o) /\
  in_i64 (Z.quot (o_price o * o_quantity o) PRICE_SCALE) /\
  in_i64 (Z.quot (Z.abs (net_quantity pos + side_sign (o_side o) * o_quantity o) * o_price o)
                 PRICE_SCALE) /\
  - INT64_MAX <= realized_pnl pos + unrealized_pnl pos <= INT64_MAX.

Lemma wide_mul_div_exact a b d :
  in_i64 a -> in_i64 b -> in_i64 (Z.quot (a * b) d) ->
  wide_mul_div a b d = Z.quot (a * b) d.
Proof. intros. unfold wide_mul_div. by rewrite i128_product, i64_id. Qed.

Lemma check_limits_rules o l pos :
  no_overflow o pos ->
  check_limits o l pos = if enabled l then first_failure (limit_rules o l pos) else Passed.
Proof.
  intros (Hp & Hq & Hpr & Hn1 & Hn2 & Hpl). unfold check_limits, limit_rules, first_failure.
  destruct (enabled l); [|done]. cbn [negb List.find fst].
  set (s := o_side o) in *. clearbody s.
  set (delta := if is_buy s then o_quantity o else i64_opp (o_quantity o)).
  assert (delta = side_sign s * o_quantity o) as Ed.
  { subst delta. unfold i64_opp. destruct s; cbn in *; rewrite ?i64_id by mlia; lia. }
  set (pend := if is_buy s then pending_buy_quantity pos
               else pending_sell_quantity pos).
  set (pd := if is_buy s then pend else i64_opp pend).
  assert (pd = side_sign s * pending_quantity s pos) as Ep.
  { subst pd pend. unfold i64_opp. destruct s; cbn in *; rewrite ?i64_id by mlia; lia. }
  assert (side_sign s = 1 \/ side_sign s = -1) as Hs by (destruct s; cbn; lia).
  assert (Z.abs (side_sign s * o_quantity o) = Z.abs (o_quantity o)) as Eq
    by (destruct Hs as [-> | ->]; lia).
  assert (in_i64 (net_quantity pos + delta)) by mlia.
  rewrite (i64_id (net_quantity pos + delta)) by done.
  assert (net_quantity pos + delta + pd =
          net_quantity pos + side_sign s * (o_quantity o + pending_quantity s pos)) as -> by lia.
  assert (Z.abs (net_quantity pos + side_sign s * (o_quantity o + pending_quantity s pos))
          <= INT64_MAX) by (destruct Hs as [E|E]; rewrite E; mlia).
  unfold i64_abs. rewrite Ed, !(i64_id (net_quantity pos + _)) by mlia.
  rewrite !(i64_id (Z.abs _)) by mlia.
  rewrite !wide_mul_div_exact by (done || mlia).
  rewrite (i64_id (realized_pnl pos + unrealized_pnl pos)) by mlia.
  unfold i64_opp. rewrite (i64_id (- _)) by mlia.
  rewrite !Z.gtb_ltb.
  assert (forall b c d, b && c && d = c && (b && d)) as Hc by (by intros [] [] []).
  rewrite !Hc. clear Hc.
  assert ((open_order_count pos >=? max_open_orders l) =
          (max_open_orders l <? open_order_count pos + 1)) as ->.
  { rewrite Z.geb_leb. apply eq_iff_eq_true. rewrite Z.leb_le, Z.ltb_lt. lia. }
  assert ((realized_pnl pos + unrealized_pnl pos <? 0) &&
          (max_loss l <? - (realized_pnl pos + unrealized_pnl pos)) =
          (max_loss l <? - (realized_pnl pos + unrealized_pnl pos)) &&
          (realized_pnl pos + unrealized_pnl pos <? 0)) as -> by apply andb_comm.
  assert ((0 <? max_loss l) &&
            ((max_loss l <? - (realized_pnl pos + unrealized_pnl pos)) &&
             (realized_pnl pos + unrealized_pnl pos <? 0)) =
          (0 <? max_loss l) && (max_loss l <? - (realized_pnl pos + unrealized_pnl pos))) as ->.
  { apply eq_iff_eq_true. rewrite !andb_true_iff, !Z.ltb_lt. lia. }
  repeat (case_match; try done).
Qed.

(** ** Lemmas on the position map *)

Lemma position_update m sym f sym' :
  position (update_position m sym f) sym' =
  if decide (skey sym = skey sym') then f (position m sym) else position m sym'.
Proof.
  unfold position, update_position. destruct m; cbn.
  case_decide as E; [rewrite <- E; by rewrite lookup_insert_eq | by rewrite lookup_insert_ne].
Qed.

Lemma position_touch m sym sym' : position (touch m sym) sym' = position m sym'.
Proof.
  change (touch m sym) with (update_position m sym (fun p => p)).
  rewrite position_update. case_decide as E; [|done].
  unfold position. by rewrite E.
Qed.

Lemma get_position_position m sym : get_position m sym = position m sym.
Proof. unfold get_position, position. by destruct (_ !! _). Qed.

(** A check leaves every position and limit as it was. *)
Lemma check_order_frame m o now r m' :
  check_order m o now = (r, m') ->
  (forall sym, position m' sym = position m sym) /\
  global_limits_ m' = global_limits_ m /\ symbol_limits_ m' = symbol_limits_ m /\
  kill_switch_ m' = kill_switch_ m.
Proof.
  unfold check_order. intros H.
  destruct (KillSwitch.is_active _); [by injection H as <- <-|].
  destruct (_ >? 0).
  - destruct (RateLimiter.try_acquire _ _) as [[] rl]; cbn [negb] in H; injection H as <- <-;
      (split; [intros sym;  rewrite ?position_touch; by destruct m | by destruct m]).
  - cbn [negb] in H. injection H as <- <-.
    split; [intros sym; by rewrite position_touch | by destruct m].
Qed.

Lemma check_order_passed m o now m' :
  check_order m o now = (Passed, m') ->
  KillSwitch.is_active (kill_switch_ m) = false /\
  check_limits o (global_limits_ m) (position m (o_symbol o)) = Passed /\
  (forall l, symbol_limits_ m !! skey (o_symbol o) = Some l ->
   check_limits o l (position m (o_symbol o)) = Passed).
Proof.
  unfold check_order. intros H.
  destruct (KillSwitch.is_active _); [done|]. split; [done|].
  assert (check_position m o = Passed) as Hp.
  { destruct (_ >? 0); [|by injection H].
    destruct (RateLimiter.try_acquire _ _) as [[] rl]; [|done].
    cbn [negb] in H. injection H as H _. by destruct m. }
  unfold check_position in Hp.
  destruct (check_limits o (global_limits_ m) _); try done. split; [done|].
  intros l Hl. by rewrite Hl in Hp.
Qed.

(** ** Exposure: the worst position the open orders can lead to *)

(** The operations of the manager, in any order. *)
Inductive op :=
| CheckOrder (o : Order) (now : Timestamp)
| OrderAccepted (o : Order)
| Fill (sym : FixedString.t) (side : Side) (qty : Quantity) (price : Price)
| OrderCanceled (o : Order)
| OrderRejected (o : Order)
| SetGlobalLimits (l : RiskLimits) (now : Timestamp)
| SetSymbolLimits (sym : FixedString.t) (l : RiskLimits)
| ActivateKillSwitch
| DeactivateKillSwitch.

Definition do_op (m : t) (x : op) : t :=
  match x with
  | CheckOrder o now => (check_order m o now).2
  | OrderAccepted o => on_order_accepted m o
  | Fill sym side qty price => on_fill m sym side qty price
  | OrderCanceled o => on_order_canceled m o
  | OrderRejected o => on_order_rejected m o
  | SetGlobalLimits l now => set_global_limits m l now
  | SetSymbolLimits sym l => set_symbol_limits m sym l
  | ActivateKillSwitch => (activate_kill_switch m).1
  | DeactivateKillSwitch => deactivate_kill_switch m
  end.

Definition run (m : t) (xs : list op) : t := fold_left do_op xs m.

(** What a check granted last and has not been accepted since, and how much
    was filled that was not pending. *)
Record ledger := mkLedger { granted : option (FixedString.t * Side * Z); overfilled : Z }.

(** The ledger along a sequence.  [None] when the sequence is not one of
    - acceptances of no more than the last check that passed has granted;
    - fills, cancels and rejects of quantities that are not negative;
    - global limits with a position limit in force, of at most [L];
    or when quantities leave 64 bits. *)
Definition note (L : Z) (m : t) (lg : ledger) (x : op) : option ledger :=
  match x with
  | CheckOrder o now =>
      if bool_decide ((check_order m o now).1 = Passed) then
        if (0 <=? o_quantity o) && (o_quantity o + L + overfilled lg <=? INT64_MAX)
        then Some { lg with granted := Some (o_symbol o, o_side o, o_quantity o) } else None
      else Some lg
  | OrderAccepted o =>
      match granted lg with
      | Some (sym, side, r) =>
          if bool_decide (skey (o_symbol o) = skey sym) && bool_decide (o_side o = side) &&
             (0 <=? o_quantity o) && (o_quantity o <=? r)
          then Some { lg with granted := Some (sym, side, r - o_quantity o) } else None
      | None => None
      end
  | Fill sym side qty _ =>
      let pending := match side with Buy => pending_buy_quantity | Sell => pending_sell_quantity end in
      let over := overfilled lg + Z.max 0 (qty - pending (position m sym)) in
      if (0 <=? qty) && (2 * (L + over) <=? INT64_MAX) then Some { lg with overfilled := over } else None
  | OrderCanceled o =>
      if (0 <=? o_filled_quantity o) && (o_filled_quantity o <=? o_quantity o) && (o_quantity o <=? INT64_MAX)
      then Some lg else None
  | OrderRejected o => if (0 <=? o_quantity o) && (o_quantity o <=? INT64_MAX) then Some lg else None
  | SetGlobalLimits l _ =>
      if enabled l && (0 <? max_position_quantity l) && (max_position_quantity l <=? L) then Some lg else None
  | SetSymbolLimits _ _ | ActivateKillSwitch | DeactivateKillSwitch => Some lg
  end.

Fixpoint notes (L : Z) (m : t) (lg : ledger) (xs : list op) : option ledger :=
  match xs with
  | [] => Some lg
  | x :: xs => match note L m lg x with Some lg => notes L (do_op m x) lg xs | None => None end
  end.

(** [B] bounds the position whatever subset of the pending orders fills, and
    the quantities [rb] and [rs] on top of them. *)
Definition room (B rb rs : Z) (pos : PositionInfo) : Prop :=
  0 <= pending_buy_quantity pos /\ 0 <= pending_sell_quantity pos /\
  - B <= net_quantity pos - pending_sell_quantity pos - rs /\
  net_quantity pos + pending_buy_quantity pos + rb <= B.

Definition exposure_ok (B : Z) (pos : PositionInfo) : Prop := room B 0 0 pos.

(** A position limit of at most [L] is in force in the global limits. *)
Definition limit_set (L : Z) (m : t) : Prop :=
  enabled (global_limits_ m) = true /\ 0 < max_position_quantity (global_limits_ m) <= L.

(** What is granted on a side of a symbol. *)
Definition reserved (lg : ledger) (side : Side) (sym : FixedString.t) : Z :=
  match granted lg with
  | Some (sym', side', r) => if decide (skey sym' = skey sym /\ side' = side) then r else 0
  | None => 0
  end.

Record exposure_inv (L : Z) (m : t) (lg : ledger) : Prop := {
  ei_limit : limit_set L m;
  ei_over : 0 <= overfilled lg /\ 2 * (L + overfilled lg) <= INT64_MAX;
  ei_granted : forall sym side r, granted lg = Some (sym, side, r) -> 0 <= r;
  ei_room : forall sym, room (L + overfilled lg) (reserved lg Buy sym) (reserved lg Sell sym) (position m sym)
}.

(** The fill updates the position's quantities exactly. *)
Lemma fill_position_quantities side qty price pos :
  let pos' := fill_position side qty price pos in
  net_quantity pos' = net_quantity pos +! signed_quantity side qty /\
  pending_quantity side pos' = Z.max 0 (pending_quantity side pos -! qty) /\
  (forall s, s <> side -> pending_quantity s pos' = pending_quantity s pos) /\
  open_order_count pos' = open_order_count pos.
Proof.
  destruct pos. unfold fill_position, fill_realized, fill_average, release_pending.
  cbn [net_quantity avg_entry_price].
  destruct side; (destruct (_ && negb _); destruct (negb _ || _));
    cbn [apply_update]; split_ifs; cbn;
    (split_and!; [done..| |done]); by intros [].
Qed.

Lemma close_position_quantities o qty pos :
  let pos' := close_position o qty pos in
  net_quantity pos' = net_quantity pos /\
  pending_quantity (o_side o) pos' = Z.max 0 (pending_quantity (o_side o) pos -! qty) /\
  (forall s, s <> o_side o -> pending_quantity s pos' = pending_quantity s pos).
Proof.
  destruct pos. unfold close_position, release_pending.
  destruct (o_side o); cbn; (split_and!; [done..|]); by intros [].
Qed.

Lemma room_fill B rb rs side qty price pos :
  let B' := B + Z.max 0 (qty - pending_quantity side pos) in
  0 < B -> 2 * B' <= INT64_MAX -> 0 <= rb -> 0 <= rs -> room B rb rs pos -> 0 <= qty ->
  room B' rb rs (fill_position side qty price pos).
Proof.
  intros B' HB HB' Hrb Hrs (Hb & Hs & Hlo & Hhi) Hq. subst B'.
  destruct (fill_position_quantities side qty price pos) as (En & Ep & Eo & _).
  destruct side; cbn [pending_quantity signed_quantity] in *; unfold i64_opp in En;
    [specialize (Eo Sell ltac:(done)) | specialize (Eo Buy ltac:(done))];
    cbn [pending_quantity] in Eo.
  - rewrite i64_id in En, Ep by mlia. unfold room. lia.
  - rewrite (i64_id (- qty)) in En by mlia. rewrite i64_id in En, Ep by mlia. unfold room. lia.
Qed.

Lemma room_close B rb rs o qty pos :
  0 < B -> 2 * B <= INT64_MAX -> 0 <= rb -> 0 <= rs -> room B rb rs pos -> 0 <= qty <= INT64_MAX ->
  room B rb rs (close_position o qty pos).
Proof.
  intros HB HB2 Hrb Hrs (Hb & Hs & Hlo & Hhi) Hq.
  destruct (close_position_quantities o qty pos) as (En & Ep & Eo).
  destruct (o_side o); cbn [pending_quantity] in *;
    [specialize (Eo Sell ltac:(done)) | specialize (Eo Buy ltac:(done))];
    cbn [pending_quantity] in Eo;
    rewrite i64_id in Ep by mlia; unfold room; lia.
Qed.

(** The position-quantity rule, alone. *)
Lemma check_limits_position_quantity o l pos :
  check_limits o l pos = Passed -> enabled l = true -> 0 < max_position_quantity l ->
  i64_abs (net_quantity pos
           +! (if is_buy (o_side o) then o_quantity o else i64_opp (o_quantity o))
           +! (if is_buy (o_side o) then pending_buy_quantity pos
               else i64_opp (pending_sell_quantity pos)))
    <= max_position_quantity l.
Proof.
  unfold check_limits. intros H He HL. rewrite He in H. cbn [negb] in H.
  rewrite (proj2 (Z.gtb_lt (max_position_quantity l) 0)) in H by lia. cbn [andb] in H.
  repeat match type of H with
  | (if ?b then _ else _) = _ => destruct b eqn:?; try discriminate H
  end.
  match goal with E : (_ >? max_position_quantity l) = false |- _ =>
    rewrite Z.gtb_ltb, Z.ltb_ge in E; etransitivity; [|exact E] end.
  by destruct (o_side o).
Qed.

(** The quantity check leaves room for the order on its side. *)
Lemma quantity_check_room B K net pending q :
  0 < B -> 2 * B <= INT64_MAX -> K <= B -> 0 <= q <= INT64_MAX - B -> 0 <= pending ->
  - B <= net -> net + pending <= B ->
  i64_abs (net +! q +! pending) <= K -> net + q + pending <= K.
Proof.
  intros HB HB2 HK Hq Hp Hlo Hhi.
  rewrite (i64_id (net + q)), (i64_id (_ + pending)), i64_abs_id by mlia. lia.
Qed.

Lemma quantity_check_room_sell B K net pending q :
  0 < B -> 2 * B <= INT64_MAX -> K <= B -> 0 <= q <= INT64_MAX - B -> 0 <= pending ->
  net <= B -> - B <= net - pending ->
  i64_abs (net +! i64_opp q +! i64_opp pending) <= K -> - K <= net - q - pending.
Proof.
  intros HB HB2 HK Hq Hp Hhi Hlo.
  rewrite (i64_opp_id q), (i64_opp_id pending) by mlia.
  rewrite (i64_id (net + _)), (i64_id (_ + - pending)), i64_abs_id by mlia. lia.
Qed.

Lemma accept_position_fields o pos :
  net_quantity (accept_position o pos) = net_quantity pos /\
  pending_buy_quantity (accept_position o pos) =
    (if is_buy (o_side o) then pending_buy_quantity pos +! o_quantity o else pending_buy_quantity pos) /\
  pending_sell_quantity (accept_position o pos) =
    (if is_buy (o_side o) then pending_sell_quantity pos else pending_sell_quantity pos +! o_quantity o).
Proof. unfold accept_position. by destruct pos, (o_side o). Qed.

(** A check that passed leaves room for its order. *)
Lemma room_check B o l pos :
  0 < B -> 2 * B <= INT64_MAX -> exposure_ok B pos -> enabled l = true -> 0 < max_position_quantity l <= B ->
  0 <= o_quantity o <= INT64_MAX - B -> check_limits o l pos = Passed ->
  room B (if is_buy (o_side o) then o_quantity o else 0) (if is_buy (o_side o) then 0 else o_quantity o) pos.
Proof.
  intros HB HB2 (Hb & Hs & Hlo & Hhi) He Hm Hq Hc.
  apply check_limits_position_quantity in Hc; [|done|lia]. unfold room.
  destruct (is_buy (o_side o)).
  - eapply quantity_check_room in Hc; [lia|exact HB|lia..].
  - eapply quantity_check_room_sell in Hc; [lia|exact HB|lia..].
Qed.

Lemma room_accept B rb rs o pos :
  0 < B -> 2 * B <= INT64_MAX -> room B rb rs pos -> 0 <= o_quantity o -> 0 <= rb -> 0 <= rs ->
  o_quantity o <= (if is_buy (o_side o) then rb else rs) ->
  room B (if is_buy (o_side o) then rb - o_quantity o else rb) (if is_buy (o_side o) then rs else rs - o_quantity o)
    (accept_position o pos).
Proof.
  intros HB HB2 (Hb & Hs & Hlo & Hhi) Hq Hrb Hrs Hle. unfold room.
  destruct (accept_position_fields o pos) as (-> & -> & ->).
  destruct (is_buy (o_side o)); rewrite i64_id by mlia; lia.
Qed.

Lemma room_mono B B' rb rb' rs rs' pos : B <= B' -> rb' <= rb -> rs' <= rs -> room B rb rs pos -> room B' rb' rs' pos.
Proof. unfold room. lia. Qed.

Lemma limit_set_update L m sym f : limit_set L m -> limit_set L (update_position m sym f).
Proof. by destruct m. Qed.

Lemma is_buy_eq s : is_buy s = bool_decide (s = Buy).
Proof. by destruct s. Qed.

Lemma reserved_bounds L m lg side sym : exposure_inv L m lg -> 0 <= reserved lg side sym.
Proof.
  intros [_ Ho Hg _]. unfold reserved. destruct (granted lg) as [[[s sd] r]|]; [|lia].
  specialize (Hg s sd r eq_refl). case_decide; lia.
Qed.

(** A symbol is the same to the manager when its view is. *)
Lemma reserved_key lg side s s' : skey s = skey s' -> reserved lg side s = reserved lg side s'.
Proof. unfold reserved. by intros ->. Qed.

Lemma position_key m s s' : skey s = skey s' -> position m s = position m s'.
Proof. unfold position. by intros ->. Qed.

Lemma note_check L m lg o now lg' :
  0 < L -> exposure_inv L m lg -> note L m lg (CheckOrder o now) = Some lg' ->
  exposure_inv L (check_order m o now).2 lg'.
Proof.
  intros HL Hi. pose proof Hi as [Hl Ho Hg Hr]. cbn.
  destruct (check_order m o now) as [res m'] eqn:Ec. cbn [fst snd].
  destruct (check_order_frame _ _ _ _ _ Ec) as (Hpos & Hgl & _).
  assert (limit_set L m') as Hl' by (by unfold limit_set; rewrite Hgl).
  destruct (bool_decide_reflect (res = Passed)) as [->|_].
  - destruct ((0 <=? o_quantity o) && _) eqn:Eq; [|done]. apply andb_true_iff in Eq as [Hq%Z.leb_le Hq'%Z.leb_le].
    intros [= <-]. apply check_order_passed in Ec as (_ & Hc & _). destruct Hl as [Hen Hm].
    split; cbn [granted overfilled]; [done|done|by intros ? ? ? [= <- <- <-]; lia|].
    intros sym. rewrite Hpos. unfold reserved. cbn [granted].
    assert (forall s, exposure_ok (L + overfilled lg) (position m s)) as Hx.
    { intros s. pose proof (reserved_bounds L m lg Buy s Hi). pose proof (reserved_bounds L m lg Sell s Hi).
      eapply room_mono; [| | |exact (Hr s)]; lia. }
    destruct (decide (skey (o_symbol o) = skey sym)) as [Ek|Ek].
    + rewrite <- (position_key m _ _ Ek). pose proof (room_check (L + overfilled lg) o (global_limits_ m) (position m (o_symbol o))) as H.
      specialize (H ltac:(lia) ltac:(lia) (Hx _) Hen ltac:(lia) ltac:(lia) Hc).
      destruct (o_side o); repeat case_decide; first [exact H|exfalso; intuition congruence].
    + rewrite !decide_False by naive_solver. apply Hx.
  - intros [= <-]. split; [done|done|done|]. intros sym. by rewrite Hpos.
Qed.

Lemma note_inv L m lg x lg' :
  0 < L -> exposure_inv L m lg -> note L m lg x = Some lg' -> exposure_inv L (do_op m x) lg'.
Proof.
  intros HL Hi Hn. pose proof Hi as [Hl Ho Hg Hr].
  pose proof (fun side sym => reserved_bounds L m lg side sym Hi) as Hb.
  destruct x as [o now|o|sym side qty price|o|o|l now|sym l| |]; cbn [do_op]; [by eapply note_check|..]; cbn in Hn.
  - destruct (granted lg) as [[[sym side] r]|] eqn:Eg; [|done]. destruct (_ && _) eqn:Eb; [|done]. injection Hn as <-.
    rewrite !andb_true_iff, !bool_decide_eq_true, !Z.leb_le in Eb. destruct Eb as [[[Ek Es] Hq] Hle].
    specialize (Hg _ _ _ eq_refl). split; cbn [granted overfilled]; [by apply limit_set_update|done|by intros ? ? ? [= <- <- <-]; lia|].
    intros s. unfold on_order_accepted. rewrite position_update. specialize (Hr s) as Hrs.
    unfold reserved in Hrs, Hb |- *. cbn [granted] in *. rewrite Eg in Hrs, Hb.
    destruct (decide (skey (o_symbol o) = skey s)) as [Ek'|Ek'].
    + assert (position m s = position m (o_symbol o)) as Ep by (apply position_key; congruence). rewrite Ep in Hrs.
      assert (skey sym = skey s) as Eks by congruence. subst side.
      pose proof (Hb Buy s) as Hb1. pose proof (Hb Sell s) as Hb2.
      pose proof (room_accept (L + overfilled lg) _ _ o _ ltac:(lia) ltac:(lia) Hrs Hq Hb1 Hb2) as H.
      destruct (o_side o); cbn [is_buy] in H; repeat case_decide;
        first [by apply H|exfalso; intuition congruence].
    + rewrite !(decide_False (P := _ /\ _)) by (intros [? _]; congruence).
      by rewrite !(decide_False (P := _ /\ _)) in Hrs by (intros [? _]; congruence).
  - destruct (_ && _) eqn:Eb; [|done]. injection Hn as <-. apply andb_true_iff in Eb as [Hq%Z.leb_le Hw%Z.leb_le].
    change (match side with Buy => _ | Sell => _ end (position m sym)) with
      ((match side with Buy => pending_buy_quantity | Sell => pending_sell_quantity end) (position m sym)) in *.
    assert ((match side with Buy => pending_buy_quantity | Sell => pending_sell_quantity end) (position m sym)
      = pending_quantity side (position m sym)) as Ep by (by destruct side).
    rewrite Ep in *. set (d := Z.max 0 (qty - pending_quantity side (position m sym))) in *.
    assert (0 <= d) by (unfold d; lia). split; cbn [granted overfilled]; [by apply limit_set_update|lia|done|].
    intros s. unfold on_fill. rewrite position_update. rewrite Z.add_assoc. case_decide as Ek.
    + rewrite !(reserved_key _ _ _ _ (eq_sym Ek)). apply room_fill; [lia|unfold d in Hw; lia|apply Hb|apply Hb|apply Hr|done].
    + eapply room_mono; [|apply Z.le_refl..|exact (Hr s)]. lia.
  - destruct (_ && _) eqn:Eb; [|done]. injection Hn as <-. rewrite !andb_true_iff, !Z.leb_le in Eb.
    split; [by apply limit_set_update|done|done|]. intros s. unfold on_order_canceled. rewrite position_update.
    case_decide as Ek; [|apply Hr]. rewrite !(reserved_key _ _ _ _ (eq_sym Ek)).
    apply room_close; [lia|lia|apply Hb|apply Hb|apply Hr|]. rewrite i64_id by mlia. lia.
  - destruct (_ && _) eqn:Eb; [|done]. injection Hn as <-. rewrite !andb_true_iff, !Z.leb_le in Eb.
    split; [by apply limit_set_update|done|done|]. intros s. unfold on_order_rejected. rewrite position_update.
    case_decide as Ek; [|apply Hr]. rewrite !(reserved_key _ _ _ _ (eq_sym Ek)).
    apply room_close; [lia|lia|apply Hb|apply Hb|apply Hr|lia].
  - destruct (_ && _) eqn:Eb; [|done]. injection Hn as <-. rewrite !andb_true_iff, Z.ltb_lt, Z.leb_le in Eb.
    unfold set_global_limits. destruct (_ >? 0); (split; [|done|done|]; [split; destruct m; cbn; tauto|intros s; specialize (Hr s); by destruct m]).
  - injection Hn as <-. split; [|done|done|]; [by destruct m|]. intros s. specialize (Hr s). by destruct m.
  - injection Hn as <-. unfold activate_kill_switch. destruct (KillSwitch.activate _ _).
    split; [|done|done|]; [by destruct m|]. intros s. specialize (Hr s). by destruct m.
  - injection Hn as <-. split; [|done|done|]; [by destruct m|]. intros s. specialize (Hr s). by destruct m.
Qed.

Lemma notes_inv L m lg xs lg' :
  0 < L -> exposure_inv L m lg -> notes L m lg xs = Some lg' -> exposure_inv L (run m xs) lg'.
Proof.
  intros HL. unfold run. revert m lg. induction xs as [|x xs IH]; cbn; intros m lg Hi; [by intros [= <-]|].
  destruct (note L m lg x) as [lg1|] eqn:En; [|done]. apply IH. by eapply note_inv.
Qed.

(** ** Sequences of fills *)

Definition fill := (Side * Quantity * Price)%type.

Fixpoint on_fills (m : t) (sym : FixedString.t) (fs : list fill) : t :=
  match fs with
  | [] => m
  | (side, qty, price) :: fs => on_fills (on_fill m sym side qty price) sym fs
  end.

Definition fills_net (fs : list fill) : Z :=
  sum_by (fun '(side, qty, _) => side_sign side * qty) fs.

#[local] Arguments fills_net : simpl never.

Lemma i64_signed side qty n : n +! signed_quantity side qty = n +! side_sign side * qty.
Proof. destruct side; cbn; unfold i64_opp; rewrite ?i64_add_r; f_equal; lia. Qed.

Lemma on_fills_net m sym fs n :
  net_quantity (position m sym) = i64 n ->
  net_quantity (position (on_fills m sym fs) sym) = i64 (n + fills_net fs).
Proof.
  revert m n; induction fs as [|[[side qty] price] fs IH]; cbn [on_fills]; intros m n Hn.
  - rewrite Hn. unfold fills_net. rewrite sum_by_nil. f_equal; lia.
  - rewrite (IH _ (n + side_sign side * qty)).
    + unfold fills_net. rewrite sum_by_cons. f_equal; lia.
    + unfold on_fill. rewrite position_update, decide_True by done.
      rewrite (proj1 (fill_position_quantities _ _ _ _)), Hn, i64_signed, i64_add_l. done.
Qed.

Lemma on_fills_other m sym fs sym' :
  skey sym <> skey sym' -> position (on_fills m sym fs) sym' = position m sym'.
Proof.
  intros Hne. revert m; induction fs as [|[[side qty] price] fs IH]; cbn [on_fills]; intros m; [done|].
  rewrite IH. unfold on_fill. by rewrite position_update, decide_False.
Qed.

(** Two truncated shares of a weighted average: short of the exact value by
    less than two units. *)
Lemma split_average_error x y d :
  0 <= x -> 0 <= y -> 0 < d ->
  0 <= x + y - d * (Z.quot x d + Z.quot y d) <= 2 * d - 2.
Proof.
  intros. rewrite !Z.quot_div_nonneg by lia.
  pose proof (Z.div_mod x d). pose proof (Z.div_mod y d).
  pose proof (Z.mod_pos_bound x d). pose proof (Z.mod_pos_bound y d). lia.
Qed.

Lemma quot_share a q d : 0 <= a -> 0 <= q <= d -> 0 < d -> 0 <= Z.quot (a * q) d <= a.
Proof.
  intros. rewrite Z.quot_div_nonneg by nia. split; [apply Z.div_pos; nia|].
  apply Z.div_le_upper_bound; nia.
Qed.

(** ** Properties *)

(** C27. The limits hold in exact arithmetic: as long as no quantity leaves 64
    bits, [check_limits] returns the reason of the first violated rule of the
    limit table (order quantity, order notional, position quantity including
    pending orders, position notional, open orders, loss), [Passed] when none
    is violated, and [Passed] when the limits are disabled; in particular
    limits left at zero never fire. *)
Theorem check_limits_first_violation o l pos :
  no_overflow o pos ->
  check_limits o l pos =
    (if enabled l then first_failure (limit_rules o l pos) else Passed) /\
  check_limits o default_RiskLimits pos = Passed.
Proof.
  intros H. split; [by apply check_limits_rules|].
  rewrite check_limits_rules by done. unfold limit_rules, first_failure; cbn.
  by rewrite !andb_false_r.
Qed.

Definition sample_order : Order :=
  { default_Order with o_symbol := Symbol_of "AAPL"; o_side := Sell;
    o_price := 15000000000; o_quantity := 100 }.

Lemma check_limits_first_violation_witness :
  check_limits sample_order
    { default_RiskLimits with max_order_quantity := 100; max_position_quantity := 140 }
    { default_PositionInfo with pending_sell_quantity := 41 } = FailedMaxPositionQuantity.
Proof.
  refine (eq_trans (proj1 (check_limits_first_violation sample_order
    { default_RiskLimits with max_order_quantity := 100; max_position_quantity := 140 }
    { default_PositionInfo with pending_sell_quantity := 41 } _)) _).
  - unfold no_overflow; vm_compute; intuition discriminate.
  - vm_compute; reflexivity.
Defined.


Definition limited_manager (L : Z) : t :=
  set_global_limits (RiskManager.create 0)
    { default_RiskLimits with max_position_quantity := L } 0.

(** A check, a fill of an earlier order, the acceptance, an overfill. *)
Definition sample_trading : list op :=
  [CheckOrder sample_order 5; OrderAccepted sample_order;
   CheckOrder { sample_order with o_quantity := 50 } 6;
   Fill (Symbol_of "AAPL") Sell 60 15000000000;
   OrderAccepted { sample_order with o_quantity := 20 }; OrderAccepted { sample_order with o_quantity := 30 };
   Fill (Symbol_of "AAPL") Sell 95 15000000000].


(** Two orders checked before either is accepted both pass, and together they
    exceed the limit: the checks and acceptances of two threads - of the order
    thread and of the execution thread that reroutes - may fall so. *)
Theorem interleaved_checks_exceed :
  let m := limited_manager 150 in
  let m1 := (check_order m sample_order 5).2 in
  let m2 := run m [CheckOrder sample_order 5; CheckOrder sample_order 5; OrderAccepted sample_order; OrderAccepted sample_order] in
  (check_order m sample_order 5).1 = Passed /\ (check_order m1 sample_order 5).1 = Passed /\
  notes 150 m (mkLedger None 0) [CheckOrder sample_order 5; CheckOrder sample_order 5; OrderAccepted sample_order; OrderAccepted sample_order] = None /\
  pending_sell_quantity (position m2 (Symbol_of "AAPL")) = 200.
Proof. vm_compute. split_and!; reflexivity. Qed.

(** An active kill switch blocks everything and consumes nothing: from its
    activation until its deactivation every check returns [FailedKillSwitch]
    and leaves the state (positions, rate-limit window and count) exactly as
    it was, every registered callback has been invoked once, in order, with
    the reason, and deactivation restores the state before it but for the
    recorded reason. *)
Theorem kill_switch_blocks m o now :
  let '(m1, calls) := activate_kill_switch m in
  check_order m1 o now = (FailedKillSwitch, m1) /\
  calls = (fun cb => (cb, "Manual kill switch activation"%string))
            <$> omap id (KillSwitch.callbacks_ (kill_switch_ m)) /\
  (KillSwitch.is_active (kill_switch_ m) = false ->
   let m2 := deactivate_kill_switch m1 in
   { m2 with kill_switch_ -> KillSwitch.reason_ := KillSwitch.reason_ (kill_switch_ m) } = m /\
   KillSwitch.reason (kill_switch_ m2) = "Manual kill switch activation"%string).
Proof.
  destruct m as [g s p [a r c] rl]. unfold activate_kill_switch, check_order. cbn.
  split_and!; [done..|]. by intros ->.
Qed.

(** Fills net exactly: after any sequence of fills on a symbol its net
    position is the old one plus the signed quantities (modulo 2^64, so exactly
    while the position fits 64 bits), independently of prices and limits, and
    no other symbol's position changes. *)
Theorem on_fill_nets m sym fs :
  in_i64 (net_quantity (get_position m sym)) ->
  net_quantity (get_position (on_fills m sym fs) sym) =
    i64 (net_quantity (get_position m sym) + fills_net fs) /\
  forall sym', skey sym <> skey sym' ->
    get_position (on_fills m sym fs) sym' = get_position m sym'.
Proof.
  rewrite !get_position_position. intros Hi. split.
  - apply on_fills_net. by rewrite i64_id.
  - intros sym' Hne. rewrite !get_position_position. by apply on_fills_other.
Qed.

Lemma on_fill_nets_witness :
  net_quantity (get_position
    (on_fills (RiskManager.create 0) (Symbol_of "AAPL")
       [(Buy, 100, 5); (Sell, 30, 6); (Sell, 100, 7)]) (Symbol_of "AAPL")) = i64 (0 + -30).
Proof.
  refine (proj1 (on_fill_nets (RiskManager.create 0) (Symbol_of "AAPL")
                   [(Buy, 100, 5); (Sell, 30, 6); (Sell, 100, 7)] _)).
  vm_compute; intuition discriminate.
Defined.

(** Average price and profit of a fill: adding to a long position moves
    the average entry price to the quantity-weighted average, short of it by
    less than two price units (the two shares are truncated separately) and
    never above the dearer of the two prices; closing the whole position
    realises (price - average) * quantity / PRICE_SCALE, truncated. *)
Theorem on_fill_average_and_profit pos qty price :
  let n := net_quantity pos in let avg := avg_entry_price pos in
  0 < n -> 0 < qty -> n + qty <= INT64_MAX ->
  0 < avg -> 2 * avg <= INT64_MAX -> 0 <= price -> 2 * price <= INT64_MAX ->
  (let avg' := avg_entry_price (fill_position Buy qty price pos) in
   0 <= avg * n + price * qty - (n + qty) * avg' <= 2 * (n + qty) - 2 /\
   avg' <= Z.max avg price) /\
  (in_i64 (Z.quot ((price - avg) * n) PRICE_SCALE) ->
   in_i64 (realized_pnl pos + Z.quot ((price - avg) * n) PRICE_SCALE) ->
   realized_pnl (fill_position Sell n price pos) =
     realized_pnl pos + Z.quot ((price - avg) * n) PRICE_SCALE /\
   net_quantity (fill_position Sell n price pos) = 0).
Proof.
  destruct pos as [n avg rp up oc pb ps]; cbn [net_quantity avg_entry_price realized_pnl].
  intros Hn Hq Hsum Ha Ha2 Hp Hp2. split.
  - assert ((n >? 0) = true) as N1 by (apply Z.gtb_lt; lia).
    assert ((n <? 0) = false) as N2 by (apply Z.ltb_ge; lia).
    assert ((n + qty >? 0) = true) as N3 by (apply Z.gtb_lt; lia).
    unfold fill_position, fill_realized, reducing, i64_abs. cbn. rewrite N2, andb_false_r. cbn.
    unfold fill_average, reducing, i64_abs. cbn. rewrite N2, andb_false_r. cbn.
    rewrite (i64_id (n + qty)), (Z.abs_eq (n + qty)), (Z.abs_eq n), (i64_id n),
      (i64_id (n + qty)), N3, N1 by mlia. cbn.
    pose proof (quot_share avg n (n + qty) ltac:(lia) ltac:(lia) ltac:(lia)) as S1.
    pose proof (quot_share price qty (n + qty) ltac:(lia) ltac:(lia) ltac:(lia)) as S2.
    rewrite !wide_mul_div_exact, i64_id by mlia.
    pose proof (split_average_error (avg * n) (price * qty) (n + qty)). nia.
  - intros Hq1 Hq2.
    assert ((n >? 0) = true) as N1 by (apply Z.gtb_lt; lia).
    assert ((avg =? 0) = false) as N2 by (apply Z.eqb_neq; lia).
    assert (i64_opp n = - n) as N4 by (apply i64_id; mlia).
    unfold fill_position, fill_realized, reducing, i64_abs. cbn.
    rewrite N1, N2. cbn. unfold fill_average, reducing, i64_abs. cbn. rewrite N1, N4. cbn.
    assert ((n >? n) = false) as N3 by (rewrite Z.gtb_ltb; apply Z.ltb_irrefl).
    rewrite Z.abs_opp, (Z.abs_eq n), !(i64_id n), Z.min_id, N3 by mlia. cbn.
    rewrite (i64_id (price - avg)) by mlia.
    rewrite wide_mul_div_exact, i64_id by (done || mlia). split; [done|].
    rewrite Z.add_opp_diag_r. done.
Qed.

Lemma on_fill_average_and_profit_witness :
  avg_entry_price (fill_position Buy 2 100
    { default_PositionInfo with net_quantity := 1; avg_entry_price := 100 }) <= 100.
Proof.
  refine (proj2 (proj1 (on_fill_average_and_profit
    { default_PositionInfo with net_quantity := 1; avg_entry_price := 100 } 2 100
    _ _ _ _ _ _ _))); vm_compute; intuition discriminate.
Defined.

(** The narrowing after the wide multiplication wraps: a buy of 10^9
    shares at a price of 1.5 * 10^10 has a notional of 1.5 * 10^19, far above a
    limit of 10^6, yet it passes the order notional check. *)
Theorem notional_check_wraps :
  let o := { default_Order with o_price := 1500000000000000000; o_quantity := 1000000000 } in
  Z.quot (o_price o * o_quantity o) PRICE_SCALE > 1000000 /\
  check_limits o { default_RiskLimits with max_order_notional := 1000000 }
    default_PositionInfo = Passed.
Proof. by vm_compute. Qed.
