(* ===== verification/Book.v ===== *)
(** * Order book (sor/market_data/book.h, book.cpp)

    A [BookSide] is the fixed array of [MAX_DEPTH] levels and its depth, and
    every operation is the index loop of the code on that array.  [live] is the
    list of valid levels; [place] and [level_at] are the specification, a side
    seen as a price-sorted map from price to level. *)

From S2P Require Import Prelude Types.

Definition MAX_DEPTH : nat := 20.

Record PriceLevel := mkLevel {
  price : Price;
  quantity : Quantity;
  order_count : Z
}.

Definition default_PriceLevel : PriceLevel := mkLevel INVALID_PRICE 0 0.

(** [valid()] *)
Definition level_valid (v : PriceLevel) : bool :=
  negb (price v =? INVALID_PRICE) && (quantity v >? 0).

Module BookSide.

Record t := mk { levels : list PriceLevel; depth : nat }.

Definition create : t := mk (replicate MAX_DEPTH default_PriceLevel) 0.

(** [levels[i]] *)
Definition level (s : t) (i : nat) : PriceLevel := nth i (levels s) default_PriceLevel.

(** The valid levels. *)
Definition live (s : t) : list PriceLevel := take (depth s) (levels s).

Definition best (s : t) : PriceLevel := level s 0.
Definition empty (s : t) : bool := (depth s =? 0)%nat.

(** The first index below the depth with the given price. *)
Fixpoint find_price (p : Price) (l : list PriceLevel) : option nat :=
  match l with
  | [] => None
  | v :: l => if price v =? p then Some 0%nat else S <$> find_price p l
  end.

(** Price priority: [a] comes before [b]. *)
Definition before (is_bid : bool) (a b : Price) : bool :=
  if is_bid then a >? b else a <? b.

(** The [while] loops that look for the insertion point. *)
Fixpoint insertion_point (is_bid : bool) (p : Price) (l : list PriceLevel) : nat :=
  match l with
  | [] => 0
  | v :: l => if before is_bid (price v) p then S (insertion_point is_bid p l) else 0
  end.

(** [for (i = pos + n; i > pos; --i) levels[i] = levels[i - 1]] *)
Fixpoint shift_up (ls : list PriceLevel) (pos n : nat) : list PriceLevel :=
  match n with
  | O => ls
  | S n => shift_up (<[(pos + S n)%nat := nth (pos + n) ls default_PriceLevel]> ls) pos n
  end.

(** [for (j = i; n times; ++j) levels[j] = levels[j + 1]] *)
Fixpoint shift_down (ls : list PriceLevel) (j n : nat) : list PriceLevel :=
  match n with
  | O => ls
  | S n => shift_down (<[j := nth (S j) ls default_PriceLevel]> ls) (S j) n
  end.

Definition insert_sorted (s : t) (v : PriceLevel) (is_bid : bool) : t :=
  let full := (MAX_DEPTH <=? depth s)%nat in
  let better := before is_bid (price v) (price (level s (depth s - 1))) in
  if full && negb better then s
  else
    let depth := if full then (depth s - 1)%nat else depth s in
    let pos := insertion_point is_bid (price v) (take depth (levels s)) in
    if (pos <? depth)%nat && (price (level s pos) =? price v)
    then mk (<[pos := v]> (levels s)) depth
    else if (depth <? MAX_DEPTH)%nat
    then mk (<[pos := v]> (shift_up (levels s) pos (depth - pos))) (S depth)
    else mk (levels s) depth.

Definition remove (s : t) (p : Price) : t :=
  match find_price p (live s) with
  | Some i =>
      mk (<[(depth s - 1)%nat := default_PriceLevel]>
            (shift_down (levels s) i (depth s - 1 - i))) (depth s - 1)
  | None => s
  end.

Definition update (s : t) (p : Price) (qty : Quantity) (count : Z) : t :=
  match find_price p (live s) with
  | Some i =>
      if qty >? 0
      then mk (<[i := mkLevel (price (level s i)) qty count]> (levels s)) (depth s)
      else remove s p
  | None =>
      if qty >? 0 then
        let v := mkLevel p qty count in
        if (2 <=? depth s)%nat
        then insert_sorted s v (price (level s 0) >? price (level s 1))
        else if (depth s =? 1)%nat
        then insert_sorted s v ((p >? price (level s 0)) || (price (level s 0) >? p))
        else mk (<[0%nat := v]> (levels s)) 1
      else s
  end.

(** [for (i = 0; i < depth; ++i) levels[i] = PriceLevel{}] *)
Definition clear (s : t) : t :=
  mk (fold_left (fun ls i => <[i := default_PriceLevel]> ls) (seq 0 (depth s)) (levels s)) 0.

(** ** Specification: a sorted list of levels, at most one per price *)

Definition lvl_before (is_bid : bool) (a b : PriceLevel) : Prop :=
  before is_bid (price a) (price b) = true.

Definition sorted (is_bid : bool) (l : list PriceLevel) : Prop :=
  StronglySorted (lvl_before is_bid) l.

Record wf (s : t) : Prop := {
  wf_len : length (levels s) = MAX_DEPTH;
  wf_depth : (depth s <= MAX_DEPTH)%nat
}.

Definition level_at (p : Price) (l : list PriceLevel) : option PriceLevel :=
  List.find (fun v => price v =? p) l.

Fixpoint place (is_bid : bool) (v : PriceLevel) (l : list PriceLevel) : list PriceLevel :=
  match l with
  | [] => [v]
  | w :: l =>
      if before is_bid (price w) (price v) then w :: place is_bid v l
      else if price w =? price v then v :: l else v :: w :: l
  end.

(** *** Order *)

Lemma before_irrefl b x : before b x x = false.
Proof. destruct b; cbn; rewrite ?Z.gtb_ltb; apply Z.ltb_irrefl. Qed.

Lemma before_trans b x y z :
  before b x y = true -> before b y z = true -> before b x z = true.
Proof. destruct b; cbn; rewrite ?Z.gtb_ltb, ?Z.ltb_lt; lia. Qed.

Lemma before_total b x y : before b x y = false -> x <> y -> before b y x = true.
Proof.
  destruct b; cbn; rewrite ?Z.gtb_ltb, ?Z.ltb_lt, ?Z.ltb_ge; lia.
Qed.

Lemma before_ne b x y : before b x y = true -> x <> y.
Proof. intros H ->. by rewrite before_irrefl in H. Qed.

(** *** The sorted map *)

Lemma place_Forall b v l (P : PriceLevel -> Prop) : P v -> Forall P l -> Forall P (place b v l).
Proof.
  intros Hv. induction 1 as [|w l Hw Hl IH]; cbn; [by constructor|].
  split_ifs; repeat constructor; auto.
Qed.

Lemma place_sorted b v l : sorted b l -> sorted b (place b v l).
Proof.
  unfold sorted. induction 1 as [|w l Hl IH Hw]; cbn; [repeat constructor|].
  destruct (before b (price w) (price v)) eqn:E.
  - constructor; [done|]. by apply place_Forall.
  - destruct (Z.eqb_spec (price w) (price v)) as [E'|E'].
    + constructor; [done|]. eapply Forall_impl; [exact Hw|].
      intros x Hx. unfold lvl_before in *. by rewrite <- E'.
    + pose proof (before_total _ _ _ E E') as Hvw.
      constructor; [by constructor|]. constructor; [done|].
      eapply Forall_impl; [exact Hw|]. intros x Hx. by eapply before_trans.
Qed.

Lemma level_at_sorted_head b w l :
  Forall (lvl_before b w) l -> level_at (price w) l = None.
Proof.
  induction 1 as [|x l Hx Hl IH]; [done|]. unfold level_at in *. cbn.
  destruct (Z.eqb_spec (price x) (price w)) as [E|E]; [|done].
  by apply before_ne in Hx.
Qed.

Lemma level_at_place b v l p :
  sorted b l -> level_at p (place b v l) = if p =? price v then Some v else level_at p l.
Proof.
  unfold sorted, level_at. induction 1 as [|w l Hl IH Hw]; cbn.
  - rewrite (Z.eqb_sym (price v)). by destruct (_ =? _).
  - destruct (before b (price w) (price v)) eqn:E; cbn.
    + rewrite IH. apply before_ne in E.
      destruct (Z.eqb_spec (price w) p), (Z.eqb_spec p (price v)); subst; try done.
    + destruct (Z.eqb_spec (price w) (price v)) as [E'|E']; cbn;
        rewrite (Z.eqb_sym (price v) p); destruct (Z.eqb_spec p (price v)); try done.
      destruct (Z.eqb_spec (price w) p); [congruence|done].
Qed.

(** [place] in terms of the insertion point. *)
Lemma place_insertion_point b v l :
  let pos := insertion_point b (price v) l in
  (pos <= length l)%nat /\
  place b v l =
    (if (pos <? length l)%nat && (price (nth pos l default_PriceLevel) =? price v)
     then <[pos := v]> l else take pos l ++ v :: drop pos l).
Proof.
  induction l as [|w l [IHl IH]]; cbn; [split; [lia|done]|].
  destruct (before b (price w) (price v)) eqn:E; cbn.
  - split; [lia|]. rewrite IH.
    change (S (insertion_point b (price v) l) <? S (length l))%nat
      with (insertion_point b (price v) l <? length l)%nat.
    by destruct (_ && _).
  - split; [lia|]. destruct (price w =? price v); done.
Qed.

(** *** The loops *)

Lemma shift_up_lookup ls pos n k :
  (pos + n < length ls)%nat ->
  shift_up ls pos n !! k =
    if decide (pos < k <= pos + n)%nat then ls !! (k - 1)%nat else ls !! k.
Proof.
  revert ls; induction n as [|n IH]; intros ls Hn; cbn.
  - by rewrite decide_False by lia.
  - rewrite IH by (rewrite length_insert; lia).
    destruct (lookup_lt_is_Some_2 ls (pos + n)%nat) as [x Hx]; [lia|].
    rewrite (nth_lookup_Some _ _ _ _ Hx).
    destruct (decide (k = pos + S n)%nat) as [->|Hk].
    + rewrite decide_False, decide_True by lia.
      rewrite list_lookup_insert_eq by lia.
      by replace (pos + S n - 1)%nat with (pos + n)%nat by lia.
    + repeat case_decide; try lia; by rewrite list_lookup_insert_ne by lia.
Qed.

Lemma shift_down_lookup ls j n k :
  (j + n < length ls)%nat ->
  shift_down ls j n !! k =
    if decide (j <= k < j + n)%nat then ls !! S k else ls !! k.
Proof.
  revert ls j; induction n as [|n IH]; intros ls j Hn; cbn.
  - by rewrite decide_False by lia.
  - rewrite IH by (rewrite length_insert; lia).
    destruct (lookup_lt_is_Some_2 ls (S j)) as [x Hx]; [lia|].
    rewrite (nth_lookup_Some _ _ _ _ Hx).
    destruct (decide (k = j)) as [->|Hk].
    + rewrite decide_False, decide_True by lia. by rewrite list_lookup_insert_eq by lia.
    + repeat case_decide; try lia; by rewrite list_lookup_insert_ne by lia.
Qed.

Lemma shift_up_length ls pos n : length (shift_up ls pos n) = length ls.
Proof. revert ls; induction n; intros ls; cbn; [done|]. by rewrite IHn, length_insert. Qed.

Lemma shift_down_length ls j n : length (shift_down ls j n) = length ls.
Proof. revert ls j; induction n; intros ls j; cbn; [done|]. by rewrite IHn, length_insert. Qed.

(** Writing [v] at [pos] after the shift is the list insertion. *)
Lemma shift_up_take ls pos d v :
  (pos <= d)%nat -> (d < length ls)%nat ->
  take (S d) (<[pos := v]> (shift_up ls pos (d - pos))) =
  take pos (take d ls) ++ v :: drop pos (take d ls).
Proof.
  intros Hp Hd. apply list_eq. intros k.
  assert (length (take pos (take d ls)) = pos) as Lp by (rewrite !length_take; lia).
  destruct (decide (k < S d)%nat) as [Hk|Hk].
  - rewrite lookup_take_lt by lia. destruct (decide (k = pos)) as [->|Hne].
    + rewrite list_lookup_insert_eq by (rewrite shift_up_length; lia).
      rewrite lookup_app_r by lia. by rewrite Lp, Nat.sub_diag.
    + rewrite list_lookup_insert_ne, shift_up_lookup by lia.
      destruct (decide (k < pos)%nat).
      * rewrite decide_False by lia. rewrite lookup_app_l by lia.
        by rewrite !lookup_take_lt by lia.
      * rewrite decide_True by lia. rewrite lookup_app_r by lia. rewrite Lp.
        rewrite lookup_cons_ne_0 by lia. rewrite lookup_drop, lookup_take_lt by lia. f_equal; lia.
  - rewrite !lookup_ge_None_2; [done| |]; rewrite ?length_app; cbn;
      rewrite ?length_drop, ?length_take, ?length_insert, ?shift_up_length, ?length_take; lia.
Qed.

Lemma shift_down_take ls i d x :
  (i < d)%nat -> (d <= length ls)%nat ->
  take (d - 1) (<[(d - 1)%nat := x]> (shift_down ls i (d - 1 - i))) = delete i (take d ls).
Proof.
  intros Hi Hd. apply list_eq. intros k. rewrite take_insert_ge by lia.
  destruct (decide (k < d - 1)%nat) as [Hk|Hk].
  - rewrite lookup_take_lt, shift_down_lookup by lia. destruct (decide (k < i)%nat).
    + rewrite decide_False, list_lookup_delete_lt, lookup_take_lt by lia. done.
    + rewrite decide_True, list_lookup_delete_ge, lookup_take_lt by lia. done.
  - rewrite !lookup_ge_None_2; [done| |rewrite length_take, shift_down_length; lia].
    rewrite length_delete, length_take; [lia|].
    rewrite lookup_take_lt by lia. apply lookup_lt_is_Some. lia.
Qed.

(** *** The operations on the live levels *)

Lemma live_length s : wf s -> length (live s) = depth s.
Proof. intros [Hl Hd]. unfold live. rewrite length_take. lia. Qed.

Lemma level_live s i : (i < depth s)%nat -> nth i (live s) default_PriceLevel = level s i.
Proof.
  intros Hi. unfold live, level. rewrite !nth_lookup, lookup_take_lt by lia. done.
Qed.

Lemma find_price_Some p l i :
  find_price p l = Some i ->
  exists v, l !! i = Some v /\ price v = p /\ level_at p l = Some v.
Proof.
  revert i; induction l as [|w l IH]; intros i; cbn; [done|].
  unfold level_at; cbn. destruct (Z.eqb_spec (price w) p) as [E|E].
  - intros [= <-]. by exists w.
  - destruct (find_price p l) as [j|]; [|done]. intros [= <-].
    destruct (IH j eq_refl) as (v & ? & ? & ?). by exists v.
Qed.

Lemma find_price_None p l : find_price p l = None -> level_at p l = None.
Proof.
  induction l as [|w l IH]; cbn; [done|]. unfold level_at; cbn.
  destruct (price w =? p); [done|]. destruct (find_price p l); [done|]. intros _. by apply IH.
Qed.

(** The levels an insertion starts from: a full side gives up its worst. *)
Definition base (s : t) : list PriceLevel :=
  take (if (MAX_DEPTH <=? depth s)%nat then depth s - 1 else depth s)%nat (levels s).

(** A full side refuses a level that is no better than its worst. *)
Definition refuses (s : t) (v : PriceLevel) (b : bool) : bool :=
  (MAX_DEPTH <=? depth s)%nat &&
  negb (before b (price v) (price (level s (depth s - 1)))).

Lemma insert_sorted_live s v b :
  wf s ->
  wf (insert_sorted s v b) /\
  live (insert_sorted s v b) = if refuses s v b then live s else place b v (base s).
Proof.
  intros [Hlen Hd]. unfold insert_sorted, refuses.
  destruct (_ && _); [done|]. unfold base.
  set (d := if (MAX_DEPTH <=? depth s)%nat then (depth s - 1)%nat else depth s).
  assert (d < MAX_DEPTH)%nat as Hd'.
  { subst d. destruct (Nat.leb_spec MAX_DEPTH (depth s)); unfold MAX_DEPTH in *; lia. }
  clearbody d. destruct (place_insertion_point b v (take d (levels s))) as [Hp ->].
  set (pos := insertion_point b (price v) (take d (levels s))) in *. clearbody pos.
  rewrite length_take, Hlen, Nat.min_l in * by lia.
  assert ((pos < d)%nat -> nth pos (take d (levels s)) default_PriceLevel = level s pos) as Hn.
  { intros. unfold level. by rewrite !nth_lookup, lookup_take_lt by lia. }
  destruct (Nat.ltb_spec pos d) as [Hlt|Hge]; cbn [andb]; [rewrite Hn by done|].
  - destruct (price (level s pos) =? price v).
    + split; [split; cbn; [by rewrite length_insert|lia]|]. unfold live; cbn.
      by rewrite take_insert_lt by lia.
    + rewrite (proj2 (Nat.ltb_lt _ _) Hd'). split.
      * split; cbn; [by rewrite length_insert, shift_up_length|lia].
      * unfold live; cbn. by rewrite shift_up_take by lia.
  - rewrite (proj2 (Nat.ltb_lt _ _) Hd'). split.
    * split; cbn; [by rewrite length_insert, shift_up_length|lia].
    * unfold live; cbn. by rewrite shift_up_take by lia.
Qed.

Lemma remove_live s p :
  wf s ->
  wf (remove s p) /\
  live (remove s p) =
    match find_price p (live s) with Some i => delete i (live s) | None => live s end.
Proof.
  intros [Hlen Hd]. unfold remove. destruct (find_price p (live s)) as [i|] eqn:E; [|done].
  apply find_price_Some in E as (v & Hi & _). apply lookup_lt_Some in Hi.
  rewrite live_length in Hi by done.
  split; [split; cbn; [by rewrite length_insert, shift_down_length|lia]|].
  unfold live; cbn. apply shift_down_take; lia.
Qed.

Lemma sorted_Forall_delete b w l i :
  Forall (lvl_before b w) l -> Forall (lvl_before b w) (delete i l).
Proof. apply Forall_delete. Qed.

Lemma sorted_delete b l i : sorted b l -> sorted b (delete i l).
Proof.
  unfold sorted. intros Hs. revert i. induction Hs as [|w l Hl IH Hw]; intros [|i]; cbn;
    [constructor..|done|]. constructor; [apply IH|by apply Forall_delete].
Qed.

Lemma level_at_delete b l i v p :
  sorted b l -> l !! i = Some v ->
  level_at p (delete i l) = if p =? price v then None else level_at p l.
Proof.
  unfold sorted. intros Hs. revert i. induction Hs as [|w l Hl IH Hw]; intros i Hi; [done|].
  destruct i as [|i]; cbn in Hi.
  - injection Hi as ->. unfold level_at; cbn. rewrite (Z.eqb_sym (price v) p).
    destruct (Z.eqb_spec p (price v)) as [->|]; [|done]. by apply (level_at_sorted_head b).
  - change (delete (S i) (w :: l)) with (w :: delete i l).
    unfold level_at in *; cbn [List.find]. rewrite (IH i Hi).
    assert (price w <> price v).
    { rewrite Forall_forall in Hw. eapply before_ne, (Hw v), list_elem_of_lookup_2, Hi. }
    destruct (Z.eqb_spec (price w) p), (Z.eqb_spec p (price v)); congruence.
Qed.

Lemma sorted_insert b l i w v :
  sorted b l -> l !! i = Some w -> price v = price w -> sorted b (<[i := v]> l).
Proof.
  unfold sorted. intros Hs. revert i. induction Hs as [|x l Hl IH Hx]; intros [|i] Hi Hp;
    cbn in *; [done..| |].
  - injection Hi as ->. constructor; [done|]. unfold lvl_before in *. by rewrite Hp.
  - constructor; [by apply IH|]. apply Forall_insert; [done|].
    unfold lvl_before. rewrite Hp. by eapply (Forall_lookup_1 _ _ _ _ Hx).
Qed.

Lemma level_at_insert b l i w v p :
  sorted b l -> l !! i = Some w -> price v = price w ->
  level_at p (<[i := v]> l) = if p =? price v then Some v else level_at p l.
Proof.
  unfold sorted. intros Hs. revert i. induction Hs as [|x l Hl IH Hx]; intros [|i] Hi Hp;
    cbn in Hi; [done..| |].
  - injection Hi as ->. unfold level_at; cbn. rewrite Hp, (Z.eqb_sym p).
    by destruct (price w =? p).
  - change (<[S i := v]> (x :: l)) with (x :: <[i := v]> l).
    unfold level_at in *; cbn [List.find]. rewrite (IH i Hi Hp).
    assert (price x <> price w).
    { rewrite Forall_forall in Hx. eapply before_ne, (Hx w), list_elem_of_lookup_2, Hi. }
    destruct (Z.eqb_spec (price x) p), (Z.eqb_spec p (price v)); congruence.
Qed.

(** With two levels the direction is read off the first two prices. *)
Lemma inferred_direction s b :
  wf s -> sorted b (live s) -> (2 <= depth s)%nat ->
  (price (level s 0) >? price (level s 1)) = b.
Proof.
  intros Hw Hs Hd. pose proof (live_length s Hw) as Hl.
  rewrite <- (level_live s 0), <- (level_live s 1) by lia.
  destruct (live s) as [|x [|y l]]; cbn in *; try lia.
  inversion Hs as [|? ? _ Hx]; subst. inversion Hx as [|? ? Hxy]; subst.
  unfold lvl_before, before in Hxy. destruct b; [done|].
  rewrite Z.ltb_lt in Hxy. rewrite Z.gtb_ltb, Z.ltb_ge. lia.
Qed.

Lemma base_not_full s : (depth s < MAX_DEPTH)%nat -> base s = live s.
Proof. intros H. unfold base. by rewrite (proj2 (Nat.leb_gt _ _)). Qed.

Lemma refuses_not_full s v b : (depth s < MAX_DEPTH)%nat -> refuses s v b = false.
Proof. intros H. unfold refuses. by rewrite (proj2 (Nat.leb_gt _ _)). Qed.

Lemma base_full s : wf s -> (MAX_DEPTH <= depth s)%nat ->
  live s = base s ++ [level s (depth s - 1)].
Proof.
  intros [Hl Hd] Hf. unfold base, live. rewrite (proj2 (Nat.leb_le _ _)) by done.
  replace (depth s) with (S (depth s - 1)) at 1 by (unfold MAX_DEPTH in *; lia).
  apply take_S_r. unfold level. rewrite nth_lookup.
  destruct (lookup_lt_is_Some_2 (levels s) (depth s - 1)) as [x ->]; [|done].
  unfold MAX_DEPTH in *; lia.
Qed.

Lemma sorted_app_l b l k : sorted b (l ++ k) -> sorted b l.
Proof.
  unfold sorted. induction l as [|x l IH]; cbn; [constructor|].
  intros H. inversion H as [|? ? Hl Hx]; subst. constructor; [auto|].
  by apply Forall_app in Hx as [? _].
Qed.

Lemma base_sorted s b : wf s -> sorted b (live s) -> sorted b (base s).
Proof.
  intros Hw Hs. destruct (decide (depth s < MAX_DEPTH)%nat).
  - by rewrite base_not_full.
  - rewrite base_full in Hs by (done || lia). by eapply sorted_app_l.
Qed.

End BookSide.

Module OrderBook.

Record t := mk {
  symbol : FixedString.t;
  venue_id : VenueId;
  bids : BookSide.t;
  asks : BookSide.t;
  last_update : Timestamp;
  sequence : Z
}.

Definition default_book : t :=
  mk (FixedString.empty_string 16) 0 BookSide.create BookSide.create 0 0.

Definition best_bid (b : t) : Price :=
  if BookSide.empty (bids b) then INVALID_PRICE else price (BookSide.best (bids b)).

Definition best_ask (b : t) : Price :=
  if BookSide.empty (asks b) then INVALID_PRICE else price (BookSide.best (asks b)).

Definition mid_price (b : t) : Price :=
  let bb := best_bid b in let ba := best_ask b in
  if (bb =? INVALID_PRICE) || (ba =? INVALID_PRICE) then INVALID_PRICE
  else (bb +! ba) /! 2.

Definition spread (b : t) : Price :=
  let bb := best_bid b in let ba := best_ask b in
  if (bb =? INVALID_PRICE) || (ba =? INVALID_PRICE) then INVALID_PRICE
  else ba -! bb.

(** The loop over one side: stop at the first level that is not good enough. *)
Fixpoint sum_while (good : Price -> bool) (l : list PriceLevel) (total : Quantity) : Quantity :=
  match l with
  | [] => total
  | v :: l => if good (price v) then sum_while good l (total +! quantity v) else total
  end.

Definition quantity_at_or_better (b : t) (side : Side) (p : Price) : Quantity :=
  match side with
  | Buy => sum_while (fun x => x >=? p) (BookSide.live (bids b)) 0
  | Sell => sum_while (fun x => x <=? p) (BookSide.live (asks b)) 0
  end.

Definition is_crossed (b : t) : bool :=
  let bb := best_bid b in let ba := best_ask b in
  if (bb =? INVALID_PRICE) || (ba =? INVALID_PRICE) then false else bb >=? ba.

Definition clear (b : t) : t :=
  { b with bids ::= BookSide.clear; asks ::= BookSide.clear; last_update := 0; sequence := 0 }.

End OrderBook.

Import BookSide.

(** ** Lemmas behind the properties *)

Lemma level_at_base s b p :
  wf s -> sorted b (live s) -> (MAX_DEPTH <= depth s)%nat ->
  level_at p (base s) =
    if p =? price (level s (depth s - 1)) then None else level_at p (live s).
Proof.
  intros Hw Hs Hf. rewrite base_full in Hs |- * by done.
  rewrite <- (app_nil_r (base s)) at 1. rewrite <- (delete_middle (base s) [] (level s (depth s - 1))).
  apply (level_at_delete b); [done|]. rewrite lookup_app_r by lia. by rewrite Nat.sub_diag.
Qed.

Lemma place_length_present b v l :
  sorted b l -> is_Some (level_at (price v) l) -> length (place b v l) = length l.
Proof.
  unfold sorted. induction 1 as [|w l Hl IH Hw]; cbn; [by intros []|].
  unfold level_at in *; cbn. intros Hp.
  destruct (before b (price w) (price v)) eqn:E; cbn.
  - apply before_ne in E as Hne. rewrite (proj2 (Z.eqb_neq _ _) Hne) in Hp. by rewrite IH.
  - destruct (Z.eqb_spec (price w) (price v)) as [E'|E']; [done|].
    destruct Hp as [x Hx]. apply List.find_some in Hx as [Hx%list_elem_of_In Hp%Z.eqb_eq].
    rewrite Forall_forall in Hw. specialize (Hw x Hx). unfold lvl_before in Hw.
    rewrite Hp in Hw. congruence.
Qed.

Lemma base_length s : wf s -> (MAX_DEPTH <= depth s)%nat -> length (base s) = (depth s - 1)%nat.
Proof.
  intros [Hl Hd] Hf. unfold base. rewrite (proj2 (Nat.leb_le _ _)), length_take by done. lia.
Qed.

Lemma filter_none {A} (f : A -> bool) l :
  Forall (fun x => f x = false) l -> List.filter f l = [].
Proof. induction 1 as [|x l Hx _ IH]; cbn; [done|]. by rewrite Hx. Qed.

(** A fold that stops at the first failure of an antitone test is the sum over
    all levels that pass it. *)
Lemma sum_while_filter b good l total :
  sorted b l ->
  (forall x y, before b x y = true -> good y = true -> good x = true) ->
  in_i64 total ->
  OrderBook.sum_while good l total =
    i64 (total + sum_by quantity (List.filter (fun v => good (price v)) l)).
Proof.
  intros Hs Hgood. revert total. unfold sorted in Hs.
  induction Hs as [|w l Hl IH Hw]; intros total Ht; cbn [OrderBook.sum_while List.filter].
  - rewrite sum_by_nil, Z.add_0_r. by rewrite i64_id.
  - destruct (good (price w)) eqn:E.
    + rewrite IH by apply i64_range. rewrite sum_by_cons, i64_add_l. f_equal; lia.
    + assert (List.filter (fun v => good (price v)) l = []) as ->.
      { apply filter_none. eapply Forall_impl; [exact Hw|]. intros x Hx.
        destruct (good (price x)) eqn:Ex; [|done]. by rewrite (Hgood _ _ Hx Ex) in E. }
      rewrite sum_by_nil, Z.add_0_r. by rewrite i64_id.
Qed.

(** The head of a sorted side has the best price. *)
Lemma sorted_head b v l x : sorted b (v :: l) -> x ∈ v :: l -> price v = price x \/ lvl_before b v x.
Proof.
  intros Hs Hx. inversion Hs as [|? ? _ Hv]; subst. rewrite Forall_forall in Hv.
  apply elem_of_cons in Hx as [->|Hx]; auto.
Qed.

Lemma live_head s : wf s -> (0 < depth s)%nat -> exists l, live s = best s :: l.
Proof.
  intros Hw Hd. pose proof (live_length s Hw). unfold best. rewrite <- level_live by done.
  destruct (live s) as [|v l]; cbn in *; [lia|]. by exists l.
Qed.

(** ** Properties *)

(** [insert_sorted] keeps a side a price-sorted map: from a well-formed
    side in strict price priority it gives one again; while there is room it
    adds or replaces exactly the level of that price; on a full side it
    refuses a level no better than the worst, and otherwise the worst level
    gives way.  When the new price is already present among the better levels
    of a full side, the worst level is given up all the same, so the side
    shrinks by one. *)
Theorem insert_sorted_refines_map s v b :
  wf s -> sorted b (live s) ->
  let s' := insert_sorted s v b in
  let worst := level s (depth s - 1) in
  wf s' /\ sorted b (live s') /\
  ((depth s < MAX_DEPTH)%nat -> forall p,
     level_at p (live s') = if p =? price v then Some v else level_at p (live s)) /\
  (depth s = MAX_DEPTH ->
   if before b (price v) (price worst) then
     (forall p, level_at p (live s') =
        if p =? price v then Some v
        else if p =? price worst then None else level_at p (live s)) /\
     (is_Some (level_at (price v) (base s)) -> depth s' = (MAX_DEPTH - 1)%nat)
   else s' = s).
Proof.
  intros Hw Hs s' worst. destruct (insert_sorted_live s v b Hw) as [Hw' Hl]. fold s' in Hw', Hl.
  pose proof (base_sorted s b Hw Hs) as Hb. split; [done|].
  assert (sorted b (live s')) as Hs'.
  { rewrite Hl. destruct (refuses s v b); [done|by apply place_sorted]. }
  split_and!; [done| |].
  - intros Hd p. rewrite Hl, refuses_not_full, level_at_place by done.
    by rewrite base_not_full.
  - intros Hd. destruct (before b (price v) (price worst)) eqn:E.
    + unfold refuses in Hl. fold worst in Hl. rewrite E, andb_false_r in Hl. split.
      * intros p. rewrite Hl, level_at_place by done.
        by rewrite (level_at_base s b) by (done || lia).
      * intros Hin. rewrite <- live_length, Hl by done.
        rewrite (place_length_present b), base_length by (done || lia). by rewrite Hd.
    + subst s'. unfold insert_sorted. fold worst. rewrite E, Hd. done.
Qed.

Definition sample_side : t :=
  insert_sorted (insert_sorted BookSide.create (mkLevel 100 5 1) true) (mkLevel 99 7 1) true.

Lemma insert_sorted_refines_map_witness :
  level_at 99 (live (insert_sorted sample_side (mkLevel 101 3 1) true)) = Some (mkLevel 99 7 1).
Proof.
  refine (eq_trans (proj1 (proj2 (proj2
    (insert_sorted_refines_map sample_side (mkLevel 101 3 1) true _ _))) _ 99) _).
  - split; vm_compute; lia.
  - repeat constructor.
  - vm_compute; lia.
  - reflexivity.
Defined.

(** [update] implements the update of a sorted map, inferring the side
    from the first two prices: on a side in priority order whose depth is not
    one, a positive quantity sets the level of that price and any other
    quantity deletes it, leaving every other level and the order; with exactly
    one level the result is always in bid (descending) order, whichever side
    the book is. *)
Theorem update_refines_map s b p qty count :
  wf s -> sorted b (live s) -> (depth s < MAX_DEPTH)%nat ->
  let s' := update s p qty count in
  wf s' /\
  (forall p', level_at p' (live s') =
     if p' =? p then (if qty >? 0 then Some (mkLevel p qty count) else None)
     else level_at p' (live s)) /\
  sorted (if (depth s =? 1)%nat then true else b) (live s').
Proof.
  intros Hw Hs Hd. unfold update.
  pose proof (live_length s Hw) as Hlen.
  assert (depth s = 1%nat -> sorted true (live s)) as H1.
  { intros E. rewrite E in Hlen. destruct (live s) as [|x []]; cbn in Hlen; try lia.
    repeat constructor. }
  set (b' := if (depth s =? 1)%nat then true else b).
  assert (sorted b' (live s)) as Hs'.
  { subst b'. destruct (Nat.eqb_spec (depth s) 1); auto. }
  destruct (find_price p (live s)) as [i|] eqn:E.
  - pose proof E as E0. apply find_price_Some in E as (v & Hi & Hv & _).
    pose proof (lookup_lt_Some _ _ _ Hi) as Hlt.
    destruct (qty >? 0).
    + assert (level s i = v) as Hli.
      { rewrite <- level_live, nth_lookup, Hi by lia. done. }
      assert (live (mk (<[i:=mkLevel (price (level s i)) qty count]> (levels s)) (depth s)) =
              <[i:=mkLevel p qty count]> (live s)) as Hlv.
      { unfold live; cbn. rewrite take_insert_lt, Hli, Hv by lia. done. }
      split; [split; cbn; [rewrite length_insert|]; apply Hw|].
      rewrite Hlv. split; [|by eapply sorted_insert].
      intros p'. by erewrite level_at_insert by done.
    + destruct (remove_live s p Hw) as [Hw' ->]. rewrite E0. split; [done|].
      split; [|by apply sorted_delete]. intros p'.
      rewrite (level_at_delete b _ _ _ _ Hs Hi). by rewrite Hv.
  - pose proof (find_price_None _ _ E) as Hn.
    destruct (qty >? 0).
    + assert (forall b0, sorted b0 (live s) ->
        let s1 := insert_sorted s (mkLevel p qty count) b0 in
        wf s1 /\ (forall p', level_at p' (live s1) =
          if p' =? p then Some (mkLevel p qty count) else level_at p' (live s)) /\
        sorted b0 (live s1)) as Hins.
      { intros b0 Hb0 s1. destruct (insert_sorted_live s (mkLevel p qty count) b0 Hw) as [Hw' Hl].
        fold s1 in Hw', Hl. rewrite Hl, refuses_not_full, base_not_full by done.
        split_and!; [done|intros; by rewrite (level_at_place b0)|by apply place_sorted]. }
      destruct (Nat.leb_spec 2 (depth s)).
      * assert (b' = b) as -> by (subst b'; by destruct (Nat.eqb_spec (depth s) 1); [lia|]).
        rewrite (inferred_direction s b) by done. by apply Hins.
      * destruct (Nat.eqb_spec (depth s) 1) as [Ed|Ed]; subst b'.
        -- assert ((p >? price (level s 0)) || (price (level s 0) >? p) = true) as ->.
           { rewrite <- level_live by lia.
             destruct (live s) as [|x []]; cbn in Hlen; try lia. cbn.
             unfold level_at in Hn; cbn in Hn.
             destruct (Z.eqb_spec (price x) p); [done|].
             apply orb_true_iff. rewrite !Z.gtb_lt. lia. }
           by apply Hins.
        -- assert (live s = []) as -> by (apply length_zero_iff_nil; lia).
           destruct Hw as [Hl _]. destruct (levels s) as [|x ls] eqn:El; [done|].
           split; [split; cbn; [done|unfold MAX_DEPTH; lia]|].
           split; [|repeat constructor]. intros p'. unfold level_at; cbn.
           by rewrite (Z.eqb_sym p p').
    + split_and!; [done| |done]. intros p'. destruct (Z.eqb_spec p' p) as [->|]; done.
Qed.

Lemma update_refines_map_witness :
  level_at 100 (live (update sample_side 100 0 0)) = None.
Proof.
  refine (proj1 (proj2 (update_refines_map sample_side true 100 0 0 _ _ _)) 100).
  - split; vm_compute; lia.
  - repeat constructor.
  - vm_compute; lia.
Defined.

(** Book queries on sides in priority order: the quantity at or better
    than a price is the sum of all levels that good (the early exit of the
    loop loses nothing), and the book is crossed exactly when some bid is at
    or above some ask. *)
Theorem book_queries_complete (k : OrderBook.t) p :
  let bs := OrderBook.bids k in let as_ := OrderBook.asks k in
  wf bs -> wf as_ -> sorted true (live bs) -> sorted false (live as_) ->
  (forall v, v ∈ live bs ++ live as_ -> price v <> INVALID_PRICE) ->
  OrderBook.quantity_at_or_better k Buy p =
    i64 (sum_by quantity (List.filter (fun v => p <=? price v) (live bs))) /\
  OrderBook.quantity_at_or_better k Sell p =
    i64 (sum_by quantity (List.filter (fun v => price v <=? p) (live as_))) /\
  (OrderBook.is_crossed k = true <->
   exists x y, x ∈ live bs /\ y ∈ live as_ /\ price y <= price x).
Proof.
  intros bs as_ Wb Wa Sb Sa Hinv. split_and!.
  - unfold OrderBook.quantity_at_or_better. fold bs. rewrite (sum_while_filter true) by
      (done || mlia || (intros x y; cbn; rewrite Z.gtb_ltb, Z.ltb_lt, !Z.geb_leb, !Z.leb_le; lia)).
    rewrite Z.add_0_l. do 2 f_equal. apply List.filter_ext. intros v. by rewrite Z.geb_leb.
  - unfold OrderBook.quantity_at_or_better. fold as_. rewrite (sum_while_filter false) by
      (done || mlia || (intros x y; cbn; rewrite Z.ltb_lt, !Z.leb_le; lia)). done.
  - unfold OrderBook.is_crossed, OrderBook.best_bid, OrderBook.best_ask. fold bs as_.
    unfold empty. destruct (Nat.eqb_spec (depth bs) 0) as [Eb|Eb]; cbn.
    { split; [done|]. intros (x & y & Hx & _). unfold live in Hx. rewrite Eb in Hx. by inversion Hx. }
    destruct (Nat.eqb_spec (depth as_) 0) as [Ea|Ea]; cbn.
    { rewrite orb_true_r. split; [done|]. intros (x & y & _ & Hx & _).
      unfold live in Hx. rewrite Ea in Hx. by inversion Hx. }
    destruct (live_head bs Wb) as [lb Hlb]; [lia|]. destruct (live_head as_ Wa) as [la Hla]; [lia|].
    rewrite Hlb, Hla in *.
    rewrite (proj2 (Z.eqb_neq (price (best bs)) _)), (proj2 (Z.eqb_neq (price (best as_)) _))
      by (apply Hinv; set_solver).
    cbn. rewrite Z.geb_leb, Z.leb_le. split.
    + intros H. exists (best bs), (best as_). set_solver.
    + intros (x & y & Hx & Hy & Hxy). apply (sorted_head _ _ _ _ Sb) in Hx.
      apply (sorted_head _ _ _ _ Sa) in Hy. unfold lvl_before in *; cbn in *.
      rewrite Z.gtb_lt in Hx. rewrite Z.ltb_lt in Hy. lia.
Qed.

Definition sample_book : OrderBook.t :=
  OrderBook.mk (Symbol_of "AAPL") 1 sample_side
    (insert_sorted BookSide.create (mkLevel 100 4 1) false) 1 1.

Lemma book_queries_complete_witness : OrderBook.is_crossed sample_book = true.
Proof.
  refine (proj2 (proj2 (proj2 (book_queries_complete sample_book 100 _ _ _ _ _))) _).
  - split; vm_compute; lia.
  - split; vm_compute; lia.
  - repeat constructor.
  - repeat constructor.
  - apply Forall_forall. repeat constructor; vm_compute; discriminate.
  - exists (mkLevel 100 5 1), (mkLevel 100 4 1).
    split_and!; [repeat constructor..|vm_compute; discriminate].
Defined.
