(* ===== verification/Aggregator.v ===== *)
(** * Market data aggregator (sor/market_data/aggregator.h, aggregator.cpp)

    Per-venue books, the NBBO cache and the merged depth.  Both maps are keyed
    by the view of the symbol.  The NBBO callback is an emitted effect. *)

From S2P Require Import Prelude Types Book.

Module NBBO.

Record t := mk {
  best_bid : Price;
  best_bid_qty : Quantity;
  best_bid_venue : VenueId;
  best_ask : Price;
  best_ask_qty : Quantity;
  best_ask_venue : VenueId;
  timestamp : Timestamp
}.

Definition default_NBBO : t := mk INVALID_PRICE 0 0 INVALID_PRICE 0 0 0.

Definition spread (n : t) : Price :=
  if (best_bid n =? INVALID_PRICE) || (best_ask n =? INVALID_PRICE) then INVALID_PRICE
  else best_ask n -! best_bid n.

Definition mid_price (n : t) : Price :=
  if (best_bid n =? INVALID_PRICE) || (best_ask n =? INVALID_PRICE) then INVALID_PRICE
  else (best_bid n +! best_ask n) /! 2.

Definition valid (n : t) : bool :=
  negb (best_bid n =? INVALID_PRICE) && negb (best_ask n =? INVALID_PRICE) &&
  (best_bid n <? best_ask n) && (best_bid_qty n >? 0) && (best_ask_qty n >? 0).

End NBBO.

Definition MAX_VENUES_PER_LEVEL : nat := 16.

Record VenueQuantity := mkVQ { vq_venue : VenueId; vq_quantity : Quantity }.

Record AggregatedLevel := mkAgg {
  al_price : Price;
  total_quantity : Quantity;
  venue_breakdown : list VenueQuantity;
  venue_count : nat
}.

Definition default_AggregatedLevel : AggregatedLevel :=
  mkAgg INVALID_PRICE 0 (replicate MAX_VENUES_PER_LEVEL (mkVQ 0 0)) 0.

Definition add_venue (lvl : AggregatedLevel) (venue : VenueId) (qty : Quantity)
    : AggregatedLevel :=
  if (venue_count lvl <? length (venue_breakdown lvl))%nat
  then mkAgg (al_price lvl) (total_quantity lvl +! qty)
             (<[venue_count lvl := mkVQ venue qty]> (venue_breakdown lvl))
             (S (venue_count lvl))
  else lvl.

Record AggregatedBook := mkAggBook {
  ab_symbol : FixedString.t;
  ab_nbbo : NBBO.t;
  ab_bids : list AggregatedLevel;
  ab_asks : list AggregatedLevel;
  bid_depth : nat;
  ask_depth : nat
}.

(** [TaggedLevel] *)
Record TaggedLevel := mkTag { tl_price : Price; tl_quantity : Quantity; tl_venue : VenueId }.

(** The [merge] lambda: an array of levels and its depth; the loop stops when
    a new price arrives on a full array. *)
Fixpoint merge_loop (l : list TaggedLevel) (out : list AggregatedLevel) (depth : nat)
    : list AggregatedLevel * nat :=
  match l with
  | [] => (out, depth)
  | tl :: l =>
      if (0 <? depth)%nat &&
         (al_price (nth (depth - 1) out default_AggregatedLevel) =? tl_price tl)
      then merge_loop l
             (alter (fun lvl => add_venue lvl (tl_venue tl) (tl_quantity tl)) (depth - 1)%nat out)
             depth
      else if (MAX_DEPTH <=? depth)%nat then (out, depth)
      else merge_loop l
             (alter (fun lvl =>
                add_venue { lvl with al_price := tl_price tl; total_quantity := 0;
                                     venue_count := 0%nat }
                          (tl_venue tl) (tl_quantity tl)) depth out)
             (S depth)
  end.

Definition merge (l : list TaggedLevel) : list AggregatedLevel * nat :=
  merge_loop l (replicate MAX_DEPTH default_AggregatedLevel) 0.

Module MarketDataAggregator.

Record t := mk {
  venue_books_ : gmap VenueId (gmap (list ascii) OrderBook.t);
  nbbo_cache_ : gmap (list ascii) NBBO.t;
  venues_ : list VenueId;
  nbbo_callback_ : bool
}.

Definition create : t := mk ∅ ∅ [] false.

Definition register_venue (m : t) (venue : VenueId) : t :=
  if existsb (fun v => v =? venue) (venues_ m) then m
  else { m with venues_ := venues_ m ++ [venue];
                venue_books_ := <[venue := default ∅ (venue_books_ m !! venue)]> (venue_books_ m) }.

Definition get_venue_book (m : t) (venue : VenueId) (symbol : FixedString.t)
    : option OrderBook.t :=
  books ← venue_books_ m !! venue; books !! skey symbol.

(** The loop body of [recalculate_nbbo]: bid side, then ask side. *)
Definition nbbo_bid (venue : VenueId) (book : OrderBook.t) (n : NBBO.t) : NBBO.t :=
  let bb := OrderBook.best_bid book in
  let qty := quantity (BookSide.best (OrderBook.bids book)) in
  if bb =? INVALID_PRICE then n
  else if (NBBO.best_bid n =? INVALID_PRICE) || (bb >? NBBO.best_bid n)
  then { n with NBBO.best_bid := bb; NBBO.best_bid_qty := qty; NBBO.best_bid_venue := venue }
  else if bb =? NBBO.best_bid n then { n with NBBO.best_bid_qty ::= fun q => q +! qty }
  else n.

Definition nbbo_ask (venue : VenueId) (book : OrderBook.t) (n : NBBO.t) : NBBO.t :=
  let ba := OrderBook.best_ask book in
  let qty := quantity (BookSide.best (OrderBook.asks book)) in
  if ba =? INVALID_PRICE then n
  else if (NBBO.best_ask n =? INVALID_PRICE) || (ba <? NBBO.best_ask n)
  then { n with NBBO.best_ask := ba; NBBO.best_ask_qty := qty; NBBO.best_ask_venue := venue }
  else if ba =? NBBO.best_ask n then { n with NBBO.best_ask_qty ::= fun q => q +! qty }
  else n.

Definition nbbo_step (m : t) (symbol : FixedString.t) (n : NBBO.t) (venue : VenueId) : NBBO.t :=
  match get_venue_book m venue symbol with
  | None => n
  | Some book => nbbo_ask venue book (nbbo_bid venue book n)
  end.

Definition compute_nbbo (m : t) (symbol : FixedString.t) (now : Timestamp) : NBBO.t :=
  fold_left (nbbo_step m symbol) (venues_ m) { NBBO.default_NBBO with NBBO.timestamp := now }.

Definition nbbo_changed (o n : NBBO.t) : bool :=
  negb (NBBO.best_bid o =? NBBO.best_bid n) || negb (NBBO.best_ask o =? NBBO.best_ask n) ||
  negb (NBBO.best_bid_qty o =? NBBO.best_bid_qty n) ||
  negb (NBBO.best_ask_qty o =? NBBO.best_ask_qty n).

(** The new state and the callback invocation, if any. *)
Definition recalculate_nbbo (m : t) (symbol : FixedString.t) (now : Timestamp)
    : t * option (FixedString.t * NBBO.t) :=
  let nbbo := compute_nbbo m symbol now in
  let old_nbbo := default NBBO.default_NBBO (nbbo_cache_ m !! skey symbol) in
  ({ m with nbbo_cache_ ::= fun c => <[skey symbol := nbbo]> c },
   if nbbo_callback_ m && nbbo_changed old_nbbo nbbo then Some (symbol, nbbo) else None).

Definition store_book (m : t) (venue : VenueId) (symbol : FixedString.t) (book : OrderBook.t) : t :=
  { m with venue_books_ ::= fun vb =>
      <[venue := <[skey symbol := book]> (default ∅ (vb !! venue))]> vb }.

Definition on_book_update (m : t) (venue : VenueId) (symbol : FixedString.t)
    (book : OrderBook.t) (now : Timestamp) : t * option (FixedString.t * NBBO.t) :=
  recalculate_nbbo (store_book m venue symbol book) symbol now.

Definition get_nbbo (m : t) (symbol : FixedString.t) : NBBO.t :=
  match nbbo_cache_ m !! skey symbol with Some n => n | None => NBBO.default_NBBO end.

Definition set_nbbo_callback (m : t) : t := { m with nbbo_callback_ := true }.

(** [is_stale]: ages in microseconds, truncated. *)
Definition is_stale (m : t) (symbol : FixedString.t) (max_age : Z) (now : Timestamp) : bool :=
  negb (existsb (fun venue =>
    match get_venue_book m venue symbol with
    | Some book =>
        negb (OrderBook.last_update book =? 0) &&
        (Z.quot (now - OrderBook.last_update book) 1000 <=? max_age)
    | None => false
    end) (venues_ m)).

(** The valid levels of one side of the registered venues' books, tagged. *)
Definition collect (m : t) (symbol : FixedString.t) (side : OrderBook.t -> BookSide.t)
    : list TaggedLevel :=
  venue ← venues_ m;
  match get_venue_book m venue symbol with
  | None => []
  | Some book =>
      (fun lvl => mkTag (price lvl) (quantity lvl) venue)
        <$> List.filter level_valid (BookSide.live (side book))
  end.

Section with_sort.
Context `{!StdSort}.

Definition build_side (m : t) (symbol : FixedString.t) (is_bid : bool)
    : list AggregatedLevel * nat :=
  if is_bid
  then merge (std_sort (fun a b => tl_price a >? tl_price b)
                (collect m symbol OrderBook.bids))
  else merge (std_sort (fun a b => tl_price a <? tl_price b)
                (collect m symbol OrderBook.asks)).

Definition get_aggregated_book (m : t) (symbol : FixedString.t) : AggregatedBook :=
  let '(bids, bid_depth) := build_side m symbol true in
  let '(asks, ask_depth) := build_side m symbol false in
  mkAggBook symbol (get_nbbo m symbol) bids asks bid_depth ask_depth.

End with_sort.

End MarketDataAggregator.

Import MarketDataAggregator.

(** ** Specification of the NBBO: the best of the venues' quotes *)

Definition quote : Type := (Price * Quantity * VenueId)%type.
Definition q_price (q : quote) : Price := q.1.1.
Definition q_quantity (q : quote) : Quantity := q.1.2.
Definition q_venue (q : quote) : VenueId := q.2.

Definition no_quote : quote := (INVALID_PRICE, 0, 0).

(** What each registered venue shows for one side, in registration order. *)
Definition quotes (m : t) (symbol : FixedString.t) (is_bid : bool) : list quote :=
  omap (fun venue =>
    book ← get_venue_book m venue symbol;
    let p := if is_bid then OrderBook.best_bid book else OrderBook.best_ask book in
    let s := if is_bid then OrderBook.bids book else OrderBook.asks book in
    if p =? INVALID_PRICE then None
    else Some (p, quantity (BookSide.best s), venue)) (venues_ m).

(** The best price, the total quantity shown at it, and the venue that showed
    it first; the defaults when nobody quotes. *)
Definition best_of (is_bid : bool) (qs : list quote) (r : quote) : Prop :=
  match qs with
  | [] => r = no_quote
  | _ =>
      (forall q, q ∈ qs -> BookSide.before is_bid (q_price q) (q_price r) = false) /\
      q_quantity r = i64 (sum_by q_quantity (List.filter (fun q => q_price q =? q_price r) qs)) /\
      (exists q, List.find (fun q => q_price q =? q_price r) qs = Some q /\
                 q_venue q = q_venue r)
  end.

Definition nbbo_quote (is_bid : bool) (n : NBBO.t) : quote :=
  if is_bid then (NBBO.best_bid n, NBBO.best_bid_qty n, NBBO.best_bid_venue n)
  else (NBBO.best_ask n, NBBO.best_ask_qty n, NBBO.best_ask_venue n).

(** One side of the loop, as an accumulation of quotes. *)
Definition take_quote (is_bid : bool) (r q : quote) : quote :=
  if (q_price r =? INVALID_PRICE) || BookSide.before is_bid (q_price q) (q_price r) then q
  else if q_price q =? q_price r then (q_price r, q_quantity r +! q_quantity q, q_venue r)
  else r.

Lemma nbbo_bid_quotes venue book n :
  nbbo_quote false (nbbo_bid venue book n) = nbbo_quote false n /\
  nbbo_quote true (nbbo_bid venue book n) =
    if OrderBook.best_bid book =? INVALID_PRICE then nbbo_quote true n
    else take_quote true (nbbo_quote true n)
           (OrderBook.best_bid book, quantity (BookSide.best (OrderBook.bids book)), venue).
Proof.
  destruct n. unfold nbbo_bid, take_quote. cbn.
  destruct (_ =? INVALID_PRICE); [done|]. destruct (_ || _); [done|]. by destruct (_ =? _).
Qed.

Lemma nbbo_ask_quotes venue book n :
  nbbo_quote true (nbbo_ask venue book n) = nbbo_quote true n /\
  nbbo_quote false (nbbo_ask venue book n) =
    if OrderBook.best_ask book =? INVALID_PRICE then nbbo_quote false n
    else take_quote false (nbbo_quote false n)
           (OrderBook.best_ask book, quantity (BookSide.best (OrderBook.asks book)), venue).
Proof.
  destruct n. unfold nbbo_ask, take_quote. cbn.
  destruct (_ =? INVALID_PRICE); [done|]. destruct (_ || _); [done|]. by destruct (_ =? _).
Qed.

Lemma nbbo_step_quote m symbol b n venue :
  nbbo_quote b (nbbo_step m symbol n venue) =
  match quotes { m with venues_ := [venue] } symbol b with
  | [q] => take_quote b (nbbo_quote b n) q
  | _ => nbbo_quote b n
  end.
Proof.
  unfold quotes, nbbo_step. destruct m as [vb c vs cb]. cbn.
  change (get_venue_book {| venue_books_ := vb; nbbo_cache_ := c; venues_ := [venue];
                            nbbo_callback_ := cb |}) with
         (get_venue_book {| venue_books_ := vb; nbbo_cache_ := c; venues_ := vs;
                            nbbo_callback_ := cb |}).
  destruct (get_venue_book _ venue symbol) as [book|]; cbn; [|done].
  destruct b.
  - rewrite (proj1 (nbbo_ask_quotes _ _ _)), (proj2 (nbbo_bid_quotes _ _ _)).
    by destruct (_ =? INVALID_PRICE).
  - rewrite (proj2 (nbbo_ask_quotes _ _ _)), (proj1 (nbbo_bid_quotes _ _ _)).
    by destruct (_ =? INVALID_PRICE).
Qed.

Lemma quotes_cons m symbol b venue vs :
  quotes { m with venues_ := venue :: vs } symbol b =
  quotes { m with venues_ := [venue] } symbol b ++ quotes { m with venues_ := vs } symbol b.
Proof. unfold quotes. destruct m; cbn. by destruct (_ ≫= _). Qed.

Lemma quotes_one m symbol b venue :
  quotes { m with venues_ := [venue] } symbol b = [] \/
  exists q, quotes { m with venues_ := [venue] } symbol b = [q].
Proof. unfold quotes. destruct m; cbn. destruct (_ ≫= _); eauto. Qed.

Lemma compute_nbbo_quote m symbol b now :
  nbbo_quote b (compute_nbbo m symbol now) =
  fold_left (take_quote b) (quotes m symbol b) no_quote.
Proof.
  unfold compute_nbbo.
  assert (forall vs n,
    nbbo_quote b (fold_left (nbbo_step m symbol) vs n) =
    fold_left (take_quote b) (quotes { m with venues_ := vs } symbol b) (nbbo_quote b n)) as H.
  { induction vs as [|venue vs IH]; intros n; [by destruct m|].
    cbn [fold_left]. rewrite IH, quotes_cons, fold_left_app. f_equal.
    rewrite nbbo_step_quote.
    destruct (quotes_one m symbol b venue) as [->|[q ->]]; done. }
  rewrite H. destruct m; cbn. by destruct b.
Qed.

Lemma quotes_priced m symbol b : Forall (fun q => q_price q <> INVALID_PRICE) (quotes m symbol b).
Proof.
  unfold quotes. induction (venues_ m) as [|venue vs IH]; cbn; [constructor|].
  destruct (get_venue_book m venue symbol) as [book|]; cbn; [|done].
  destruct (Z.eqb_spec (if b then OrderBook.best_bid book else OrderBook.best_ask book)
              INVALID_PRICE); [done|]. by constructor.
Qed.

Lemma find_app {A} (f : A -> bool) l k :
  List.find f (l ++ k) = match List.find f l with Some x => Some x | None => List.find f k end.
Proof. induction l as [|x l IH]; cbn; [done|]. by destruct (f x). Qed.

Lemma find_none_intro {A} (f : A -> bool) l :
  Forall (fun x => f x = false) l -> List.find f l = None.
Proof. induction 1 as [|x l Hx _ IH]; cbn; [done|]. by rewrite Hx. Qed.

Lemma fold_take_quote b qs :
  Forall (fun q => q_price q <> INVALID_PRICE /\ in_i64 (q_quantity q)) qs ->
  let r := fold_left (take_quote b) qs no_quote in
  best_of b qs r /\ (qs <> [] -> q_price r <> INVALID_PRICE).
Proof.
  induction qs as [|q qs IH] using rev_ind; intros Hq; [done|].
  apply Forall_app in Hq as [Hqs [Hq _]%Forall_cons]. specialize (IH Hqs).
  rewrite fold_left_app. cbn [fold_left].
  set (r := fold_left (take_quote b) qs no_quote) in *. clearbody r. cbn zeta in IH.
  destruct IH as [IH Hr]. destruct Hq as [Hqp Hqq].
  split; [|intros _; unfold take_quote].
  2: { destruct qs as [|q0 qs]; [cbn in IH; by rewrite IH|].
       specialize (Hr ltac:(done)). rewrite (proj2 (Z.eqb_neq _ _) Hr). cbn.
       by destruct (BookSide.before b _ _), (q_price q =? q_price r). }
  destruct qs as [|q0 qs].
  { cbn in IH. rewrite IH. unfold take_quote; cbn. split_and!.
    - intros x ->%list_elem_of_singleton. apply BookSide.before_irrefl.
    - rewrite Z.eqb_refl, sum_by_cons, sum_by_nil, Z.add_0_r. by rewrite i64_id.
    - exists q. by rewrite Z.eqb_refl. }
  destruct IH as (Hbest & Hsum & q1 & Hf & Hv). specialize (Hr ltac:(done)).
  assert (best_of b ((q0 :: qs) ++ [q]) (take_quote b r q)); [|done].
  unfold take_quote. rewrite (proj2 (Z.eqb_neq _ _) Hr). cbn [orb].
  destruct (BookSide.before b (q_price q) (q_price r)) eqn:E.
  - assert (forall x, x ∈ q0 :: qs -> (q_price x =? q_price q) = false) as Hne.
    { intros x Hx. apply Z.eqb_neq. intros Ex. specialize (Hbest x Hx). congruence. }
    assert (List.filter (fun x => q_price x =? q_price q) (q0 :: qs) = []) as Ef.
    { apply filter_none, Forall_forall. done. }
    assert (List.find (fun x => q_price x =? q_price q) (q0 :: qs) = None) as En.
    { by apply find_none_intro, Forall_forall. }
    unfold best_of. cbn [app]. change (q0 :: qs ++ [q]) with ((q0 :: qs) ++ [q]).
    split_and!.
    + intros x [Hx|Hx%list_elem_of_singleton]%elem_of_app; [|subst; apply BookSide.before_irrefl].
      destruct (BookSide.before b (q_price x) (q_price q)) eqn:Ex; [|done].
      rewrite <- (Hbest x Hx). symmetry. by eapply BookSide.before_trans.
    + rewrite List.filter_app, Ef. cbn. rewrite Z.eqb_refl, sum_by_cons, sum_by_nil, Z.add_0_r.
      by rewrite i64_id.
    + exists q. rewrite find_app, En. cbn. by rewrite Z.eqb_refl.
  - destruct (Z.eqb_spec (q_price q) (q_price r)) as [Ep|Ep];
      unfold best_of; cbn [app]; change (q0 :: qs ++ [q]) with ((q0 :: qs) ++ [q]).
    + split_and!.
      * intros x [Hx|Hx%list_elem_of_singleton]%elem_of_app; [by apply Hbest|by subst].
      * change (q_price (_, _, _)) with (q_price r). change (q_quantity (_, ?x, _)) with x.
        rewrite List.filter_app, sum_by_app, Hsum. cbn [List.filter].
        rewrite (proj2 (Z.eqb_eq _ _) Ep), sum_by_cons, sum_by_nil, Z.add_0_r.
        by rewrite i64_add_l.
      * exists q1. change (q_price (_, _, _)) with (q_price r). by rewrite find_app, Hf.
    + split_and!.
      * intros x [Hx|Hx%list_elem_of_singleton]%elem_of_app; [by apply Hbest|by subst].
      * rewrite List.filter_app, sum_by_app, Hsum. cbn [List.filter].
        rewrite (proj2 (Z.eqb_neq _ _) Ep), sum_by_nil. by rewrite Z.add_0_r.
      * exists q1. by rewrite find_app, Hf.
Qed.

(** ** Histories of the aggregator *)

(** Quantities shown by a book are 64-bit integers. *)
Definition book_i64 (k : OrderBook.t) : Prop :=
  in_i64 (quantity (BookSide.best (OrderBook.bids k))) /\
  in_i64 (quantity (BookSide.best (OrderBook.asks k))).

(** Updates come from registered venues. *)
Inductive agg_step : t -> t -> Prop :=
| as_register m venue : agg_step m (register_venue m venue)
| as_update m venue symbol book now :
    venue ∈ venues_ m -> book_i64 book ->
    agg_step m (on_book_update m venue symbol book now).1
| as_callback m : agg_step m (set_nbbo_callback m).

(** The cache is the computation from the current books, and every stored book
    belongs to a registered venue. *)
Record coherent (m : t) : Prop := {
  co_cache : forall symbol,
    get_nbbo m symbol = compute_nbbo m symbol (NBBO.timestamp (get_nbbo m symbol));
  co_venues : forall venue symbol k,
    get_venue_book m venue symbol = Some k -> venue ∈ venues_ m /\ book_i64 k
}.

Lemma fold_nbbo_ext m m' symbol vs n :
  (forall venue, venue ∈ vs -> get_venue_book m' venue symbol = get_venue_book m venue symbol) ->
  fold_left (nbbo_step m' symbol) vs n = fold_left (nbbo_step m symbol) vs n.
Proof.
  revert n; induction vs as [|v vs IH]; intros n H; cbn; [done|].
  unfold nbbo_step at 2 4. rewrite (H v) by set_solver. apply IH. set_solver.
Qed.

Lemma get_venue_book_store m venue symbol book venue' symbol' :
  get_venue_book (store_book m venue symbol book) venue' symbol' =
  if decide (venue = venue' /\ skey symbol = skey symbol') then Some book
  else get_venue_book m venue' symbol'.
Proof.
  unfold get_venue_book, store_book. destruct m as [vb c vs cb]; cbn.
  destruct (decide (venue = venue')) as [<-|Hv].
  - rewrite lookup_insert_eq; cbn. destruct (decide (skey symbol = skey symbol')) as [E|E].
    + rewrite decide_True by done. rewrite <- E. by rewrite lookup_insert_eq.
    + rewrite decide_False by tauto. rewrite lookup_insert_ne by done.
      by destruct (vb !! venue); cbn.
  - rewrite decide_False by tauto. by rewrite lookup_insert_ne.
Qed.

Lemma timestamp_fold m symbol vs n :
  NBBO.timestamp (fold_left (nbbo_step m symbol) vs n) = NBBO.timestamp n.
Proof.
  revert n; induction vs as [|v vs IH]; intros n; cbn; [done|]. rewrite IH.
  unfold nbbo_step. destruct (get_venue_book m v symbol); [|done].
  unfold nbbo_ask, nbbo_bid. destruct n; cbn.
  repeat (match goal with |- context [if ?b then _ else _] => destruct b end; cbn); done.
Qed.

Lemma coherent_create : coherent create.
Proof.
  split; [done|]. intros venue symbol k. unfold get_venue_book, create; cbn.
  by rewrite lookup_empty.
Qed.

Lemma coherent_step m m' : coherent m -> agg_step m m' -> coherent m'.
Proof.
  intros Hm Hs. destruct Hs as [m0 venue|m0 venue symbol book now Hin Hb|m0];
    destruct Hm as [Hc Hv].
  - unfold register_venue. destruct (existsb _ _) eqn:E; [by split|].
    match goal with |- coherent ?x => set (m' := x) end.
    assert (forall v s, get_venue_book m' v s = get_venue_book m0 v s) as Hg.
    { intros v s. unfold get_venue_book, m'. destruct m0 as [vb c vs cb]; cbn.
      destruct (decide (venue = v)) as [<-|]; [|by rewrite lookup_insert_ne].
      rewrite lookup_insert_eq. by destruct (vb !! venue); cbn; rewrite ?lookup_empty. }
    split.
    + intros symbol. change (get_nbbo m' symbol) with (get_nbbo m0 symbol).
      rewrite Hc at 1. unfold compute_nbbo.
      change (venues_ m') with (venues_ m0 ++ [venue]). rewrite fold_left_app.
      rewrite (fold_nbbo_ext m0 m' symbol (venues_ m0)) by (intros; apply Hg).
      cbn [fold_left].
      generalize (fold_left (nbbo_step m0 symbol) (venues_ m0)
        {NBBO.default_NBBO with NBBO.timestamp := NBBO.timestamp (get_nbbo m0 symbol)}).
      intros n. unfold nbbo_step. rewrite Hg.
      destruct (get_venue_book m0 venue symbol) as [k|] eqn:Ek; [|done].
      apply Hv in Ek as [Hin _]. exfalso. rewrite <- not_true_iff_false in E. apply E.
      apply existsb_exists. exists venue. rewrite Z.eqb_refl. by rewrite <- list_elem_of_In.
    + intros v s k Hk. rewrite Hg in Hk. apply Hv in Hk as [? ?]. split; [|done].
      apply elem_of_app. by left.
  - unfold on_book_update, recalculate_nbbo. cbn [fst].
    set (ms := store_book m0 venue symbol book).
    match goal with |- coherent ?x => set (m' := x) end.
    assert (forall v s, get_venue_book m' v s = get_venue_book ms v s) as Hg by done.
    split.
    + intros symbol'. unfold get_nbbo.
      change (nbbo_cache_ m') with
        (<[skey symbol := compute_nbbo ms symbol now]> (nbbo_cache_ m0)).
      destruct (decide (skey symbol = skey symbol')) as [E|E].
      * rewrite <- E, lookup_insert_eq.
        assert (NBBO.timestamp (compute_nbbo ms symbol now) = now) as Et
          by (unfold compute_nbbo; rewrite timestamp_fold; done).
        rewrite Et. unfold compute_nbbo. change (venues_ m') with (venues_ ms).
        unfold nbbo_step, get_venue_book. rewrite <- E. done.
      * rewrite lookup_insert_ne by done.
        change (match nbbo_cache_ m0 !! skey symbol' with Some n => n
                | None => NBBO.default_NBBO end) with (get_nbbo m0 symbol').
        rewrite Hc at 1. unfold compute_nbbo. change (venues_ m') with (venues_ m0).
        symmetry. apply fold_nbbo_ext. intros v _. rewrite Hg. unfold ms.
        rewrite get_venue_book_store, decide_False by tauto. done.
    + intros v s k Hk. rewrite Hg in Hk. unfold ms in Hk. rewrite get_venue_book_store in Hk.
      change (venues_ m') with (venues_ m0).
      case_decide as E; [destruct E as [<- _]; by injection Hk as <-|by eapply Hv].
  - destruct m0. by split.
Qed.

Lemma quotes_i64 m symbol b : coherent m ->
  Forall (fun q => q_price q <> INVALID_PRICE /\ in_i64 (q_quantity q)) (quotes m symbol b).
Proof.
  intros [_ Hv]. pose proof (quotes_priced m symbol b) as Hp.
  assert (forall v k, get_venue_book m v symbol = Some k -> book_i64 k) as Hk
    by (intros v k H; eapply Hv, H).
  clear Hv.
  assert (Forall (fun q => in_i64 (q_quantity q)) (quotes m symbol b)) as Hq.
  { unfold quotes. induction (venues_ m) as [|venue vs IH]; cbn; [constructor|].
    destruct (get_venue_book m venue symbol) as [k|] eqn:Ek; cbn; [|done].
    apply Hk in Ek as [? ?].
    destruct (_ =? INVALID_PRICE); [done|]. constructor; [by destruct b|done]. }
  by apply Forall_and.
Qed.

(** C36. After any history of registrations and book updates from registered
    venues, the cached NBBO of every symbol is, on each side, exactly the best
    price shown by any registered venue, with the total quantity shown at that
    price and the earliest-registered venue showing it, and the defaults when
    no venue quotes that side. *)
Theorem nbbo_is_best m symbol b :
  rtc agg_step create m -> best_of b (quotes m symbol b) (nbbo_quote b (get_nbbo m symbol)).
Proof.
  intros Hr. assert (coherent m) as Hm.
  { pose proof coherent_create as Hi. revert Hi. induction Hr; eauto using coherent_step. }
  rewrite (co_cache _ Hm), compute_nbbo_quote. apply fold_take_quote. by apply quotes_i64.
Qed.

Definition two_venue_history : t :=
  (on_book_update
     (on_book_update (register_venue (register_venue create 1) 2) 1 (Symbol_of "AAPL") sample_book 5).1
     2 (Symbol_of "AAPL") sample_book 6).1.

Lemma nbbo_is_best_witness :
  best_of true [(100, 5, 1); (100, 5, 2)]
    (nbbo_quote true (get_nbbo two_venue_history (Symbol_of "AAPL"))) /\
  nbbo_quote true (get_nbbo two_venue_history (Symbol_of "AAPL")) = (100, 10, 1).
Proof.
  split; [|vm_compute; reflexivity].
  refine (nbbo_is_best two_venue_history (Symbol_of "AAPL") true _).
  eapply rtc_l; [apply (as_register create 1)|].
  eapply rtc_l; [apply (as_register _ 2)|].
  eapply rtc_l; [apply (as_update _ 1 (Symbol_of "AAPL") sample_book 5)|
                 eapply rtc_l; [apply (as_update _ 2 (Symbol_of "AAPL") sample_book 6)|apply rtc_refl]].
  - repeat constructor.
  - split; vm_compute; intuition discriminate.
  - repeat constructor.
  - split; vm_compute; intuition discriminate.
Defined.

(** ** The merge: one level per price, in order *)

Definition tl_sorted (b : bool) (l : list TaggedLevel) : Prop :=
  StronglySorted (fun x y => BookSide.before b (tl_price y) (tl_price x) = false) l.

(** The distinct prices of a sorted list, in order. *)
Definition add_price (ps : list Price) (tl : TaggedLevel) : list Price :=
  if decide (last ps = Some (tl_price tl)) then ps else ps ++ [tl_price tl].

Definition distinct (l : list TaggedLevel) : list Price := fold_left add_price l [].

Definition fresh_level (p : Price) : AggregatedLevel :=
  { default_AggregatedLevel with al_price := p }.

Definition add_tagged (lvl : AggregatedLevel) (tl : TaggedLevel) : AggregatedLevel :=
  add_venue lvl (tl_venue tl) (tl_quantity tl).

Definition at_price (p : Price) (l : list TaggedLevel) : list TaggedLevel :=
  List.filter (fun tl => tl_price tl =? p) l.

(** The aggregated level of a price. *)
Definition level_for (l : list TaggedLevel) (p : Price) : AggregatedLevel :=
  fold_left add_tagged (at_price p l) (fresh_level p).

(** The array that holds the levels of the given prices. *)
Definition layout (l : list TaggedLevel) (ps : list Price) : list AggregatedLevel :=
  (level_for l <$> ps) ++ replicate (MAX_DEPTH - length ps) default_AggregatedLevel.

Lemma add_venue_price lvl v q : al_price (add_venue lvl v q) = al_price lvl.
Proof. unfold add_venue. by destruct (_ <? _)%nat. Qed.

Lemma level_for_price l p : al_price (level_for l p) = p.
Proof.
  unfold level_for. change p with (al_price (fresh_level p)) at 3.
  generalize (fresh_level p). induction (at_price p l) as [|x k IH]; intros lvl; cbn; [done|].
  rewrite IH. apply add_venue_price.
Qed.

Lemma level_for_app l k p :
  level_for (l ++ k) p = fold_left add_tagged (at_price p k) (level_for l p).
Proof. unfold level_for, at_price. by rewrite List.filter_app, fold_left_app. Qed.

Lemma level_for_other l k p :
  Forall (fun tl => tl_price tl <> p) k -> level_for (l ++ k) p = level_for l p.
Proof.
  intros H. rewrite level_for_app. unfold at_price. rewrite filter_none; [done|].
  eapply Forall_impl; [exact H|]. intros x Hx. by apply Z.eqb_neq.
Qed.

Lemma distinct_snoc l x : distinct (l ++ [x]) = add_price (distinct l) x.
Proof. unfold distinct. by rewrite fold_left_app. Qed.

Lemma distinct_prefix l k : exists qs, distinct (l ++ k) = distinct l ++ qs.
Proof.
  induction k as [|x k IH] using rev_ind; [exists []; by rewrite !app_nil_r|].
  destruct IH as [qs IH]. rewrite app_assoc, distinct_snoc, IH. unfold add_price.
  case_decide; [by exists qs|]. exists (qs ++ [tl_price x]). by rewrite app_assoc.
Qed.

Lemma distinct_elem l p : p ∈ distinct l <-> exists x, x ∈ l /\ tl_price x = p.
Proof.
  induction l as [|x l IH] using rev_ind.
  - split; [intros H; by inversion H|]. intros (x & H & _). by inversion H.
  - rewrite distinct_snoc. unfold add_price. split.
    + case_decide.
      * rewrite IH. intros (y & Hy & <-). exists y. split; [|done]. apply elem_of_app. by left.
      * intros [Hp|Hp%list_elem_of_singleton]%elem_of_app.
        -- apply IH in Hp as (y & Hy & <-). exists y. split; [|done]. apply elem_of_app. by left.
        -- exists x. split; [|done]. apply elem_of_app. right. by apply list_elem_of_singleton.
    + intros (y & [Hy|Hy%list_elem_of_singleton]%elem_of_app & <-).
      * assert (tl_price y ∈ distinct l) by (apply IH; by exists y).
        case_decide; [done|]. apply elem_of_app. by left.
      * subst y. case_decide as E; [by eapply last_Some_elem_of|].
        apply elem_of_app. right. by apply list_elem_of_singleton.
Qed.

Lemma tl_sorted_app b l k :
  tl_sorted b (l ++ k) -> tl_sorted b l /\ tl_sorted b k /\
  forall x y, x ∈ l -> y ∈ k -> BookSide.before b (tl_price y) (tl_price x) = false.
Proof.
  unfold tl_sorted. intros H. apply StronglySorted_app in H as (? & ? & ?). split_and!; auto.
Qed.

(** A new price comes strictly after all the distinct prices so far. *)
Lemma distinct_before b l x p :
  tl_sorted b (l ++ [x]) ->
  StronglySorted (fun p q => BookSide.before b p q = true) (distinct l) ->
  last (distinct l) <> Some (tl_price x) -> p ∈ distinct l ->
  BookSide.before b p (tl_price x) = true.
Proof.
  intros (_ & _ & Hx)%tl_sorted_app Hd Hl Hp.
  destruct (last (distinct l)) as [z|] eqn:Ez; [|apply last_None in Ez; rewrite Ez in Hp; by inversion Hp].
  assert (BookSide.before b z (tl_price x) = true) as Hz.
  { apply last_Some_elem_of, distinct_elem in Ez as (y & Hy & <-).
    apply BookSide.before_total; [|congruence].
    apply Hx; [done|]. by apply list_elem_of_singleton. }
  apply last_Some in Ez as [k Ek]. rewrite Ek in Hp, Hd.
  apply elem_of_app in Hp as [Hp| ->%list_elem_of_singleton]; [|done].
  eapply BookSide.before_trans; [|exact Hz].
  apply StronglySorted_app in Hd as (Hd & _). apply Hd; [done|]. by apply list_elem_of_singleton.
Qed.

(** The distinct prices are strictly ordered. *)
Lemma distinct_sorted b l :
  tl_sorted b l -> StronglySorted (fun p q => BookSide.before b p q = true) (distinct l).
Proof.
  induction l as [|x l IH] using rev_ind; intros Hs; [constructor|].
  rewrite distinct_snoc. pose proof Hs as (Hl & _ & _)%tl_sorted_app. specialize (IH Hl).
  unfold add_price. case_decide as E; [done|].
  apply StronglySorted_app_2; [|done|repeat constructor].
  intros p q Hp ->%list_elem_of_singleton. by eapply distinct_before.
Qed.

Lemma distinct_NoDup b l : tl_sorted b l -> NoDup (distinct l).
Proof.
  intros Hs%distinct_sorted. induction Hs as [|p ps Hps IH Hp]; constructor; [|done].
  intros Hin. rewrite Forall_forall in Hp. specialize (Hp p Hin).
  by rewrite BookSide.before_irrefl in Hp.
Qed.

Lemma alter_middle {A} (f : A -> A) l k x :
  alter f (length l) (l ++ x :: k) = l ++ f x :: k.
Proof. induction l as [|y l IH]; cbn; [done|]. by f_equal. Qed.

Lemma replicate_room {A} (n m : nat) (x : A) :
  (n < m)%nat -> replicate (m - n) x = x :: replicate (m - S n) x.
Proof. intros H. by replace (m - n)%nat with (S (m - S n)) by lia. Qed.

(** Nothing later has a price already passed. *)
Lemma passed_prices b pre x l p :
  tl_sorted b (pre ++ x :: l) -> p ∈ distinct pre -> last (distinct pre) <> Some (tl_price x) ->
  Forall (fun tl => tl_price tl <> p) (x :: l).
Proof.
  intros Hs Hp Hl.
  assert (tl_sorted b (pre ++ [x])) as Hpx.
  { change (x :: l) with ([x] ++ l) in Hs. rewrite app_assoc in Hs.
    by apply tl_sorted_app in Hs as (? & _). }
  pose proof Hpx as (Hpre & _ & _)%tl_sorted_app.
  pose proof (distinct_before b pre x p Hpx (distinct_sorted b pre Hpre) Hl Hp) as Hb.
  apply tl_sorted_app in Hs as (_ & Hxl & _). inversion Hxl as [|? ? _ Hx]; subst.
  constructor; [apply BookSide.before_ne in Hb; congruence|].
  eapply Forall_impl; [exact Hx|]. intros y Hy E. cbn in Hy. rewrite E in Hy. congruence.
Qed.

Lemma merge_loop_spec b l pre :
  tl_sorted b (pre ++ l) -> (length (distinct pre) <= MAX_DEPTH)%nat ->
  let ps := take MAX_DEPTH (distinct (pre ++ l)) in
  merge_loop l (layout pre (distinct pre)) (length (distinct pre)) =
  (layout (pre ++ l) ps, length ps).
Proof.
  revert pre; induction l as [|x l IH]; intros pre Hs Hd ps; subst ps.
  { rewrite app_nil_r, take_ge by done. done. }
  cbn [merge_loop].
  assert (tl_sorted b ((pre ++ [x]) ++ l)) as Hs' by (by rewrite <- app_assoc).
  assert (tl_sorted b pre) as Hpre by (by apply tl_sorted_app in Hs as [? _]).
  destruct (decide (last (distinct pre) = Some (tl_price x))) as [E|E].
  - (* the price of the last level *)
    pose proof (distinct_snoc pre x) as Hsn. unfold add_price in Hsn.
    rewrite decide_True in Hsn by done.
    specialize (IH (pre ++ [x]) Hs'). rewrite Hsn in IH. specialize (IH Hd).
    rewrite <- app_assoc in IH. cbn [app] in IH. rewrite <- IH. clear IH Hsn.
    pose proof (distinct_NoDup b pre Hpre) as Hnd.
    apply last_Some in E as [k Ek]. rewrite Ek in *.
    unfold layout. rewrite length_app; cbn [length]. rewrite !fmap_app; cbn [fmap list_fmap].
    rewrite <- !app_assoc; cbn [app].
    replace (length k + 1 - 1)%nat with (length (level_for pre <$> k)) by (rewrite length_fmap; lia).
    rewrite nth_middle, level_for_price, Z.eqb_refl.
    rewrite (proj2 (Nat.ltb_lt 0 _)) by lia. cbn [andb].
    rewrite alter_middle. f_equal. f_equal; [|f_equal].
    + apply list_fmap_ext. intros i p Hi. symmetry. apply level_for_other.
      constructor; [|done]. intros Ep. apply NoDup_app in Hnd as (_ & Hnd & _).
      apply (Hnd p); [by eapply list_elem_of_lookup_2|]. rewrite Ep.
      by apply list_elem_of_singleton.
    + rewrite level_for_app. unfold at_price; cbn. by rewrite Z.eqb_refl.
  - assert ((0 <? length (distinct pre))%nat &&
      (al_price (nth (length (distinct pre) - 1) (layout pre (distinct pre))
                   default_AggregatedLevel) =? tl_price x) = false) as ->.
    { destruct (distinct pre) as [|p0 ps0] using rev_ind; [done|]. clear IHps0.
      unfold layout. rewrite length_app, fmap_app, <- app_assoc; cbn.
      replace (length ps0 + 1 - 1)%nat with (length (level_for pre <$> ps0))
        by (rewrite length_fmap; lia).
      rewrite nth_middle, level_for_price, andb_comm.
      destruct (Z.eqb_spec p0 (tl_price x)) as [->|]; [|done].
      by rewrite last_snoc in E. }
    destruct (Nat.leb_spec MAX_DEPTH (length (distinct pre))).
    + destruct (distinct_prefix pre (x :: l)) as [qs ->].
      rewrite take_app_le, take_ge by lia. f_equal. unfold layout. f_equal.
      apply list_fmap_ext. intros i p Hi. symmetry. apply level_for_other.
      eapply passed_prices; [done| |done]. by eapply list_elem_of_lookup_2.
    + pose proof (distinct_snoc pre x) as Hsn. unfold add_price in Hsn.
      rewrite decide_False in Hsn by done.
      specialize (IH (pre ++ [x]) Hs'). rewrite Hsn, length_app in IH. cbn [length] in IH.
      specialize (IH ltac:(lia)). rewrite <- app_assoc in IH. cbn [app] in IH.
      rewrite Nat.add_1_r in IH. rewrite <- IH. clear IH. f_equal.
      unfold layout. rewrite replicate_room by done.
      rewrite <- (length_fmap (level_for pre)) at 1. rewrite alter_middle, fmap_app, <- app_assoc.
      rewrite length_app. cbn [fmap list_fmap length app]. f_equal; [|f_equal].
      * apply list_fmap_ext. intros i p Hi. symmetry. apply level_for_other.
        constructor; [|done]. apply not_eq_sym, (BookSide.before_ne b).
        eapply distinct_before; [by apply tl_sorted_app in Hs' as (? & _)| |done|
          by eapply list_elem_of_lookup_2]. by apply distinct_sorted.
      * rewrite level_for_app. unfold level_for.
        assert (at_price (tl_price x) pre = []) as ->.
        { apply filter_none, Forall_forall. intros y Hy. apply Z.eqb_neq. intros Ey.
          eapply (BookSide.before_ne b); [|exact Ey].
          eapply distinct_before; [by apply tl_sorted_app in Hs' as (? & _)| |done|].
          - by apply distinct_sorted.
          - apply distinct_elem. by exists y. }
        unfold at_price; cbn. rewrite Z.eqb_refl. done.
      * by rewrite Nat.add_1_r.
Qed.

Lemma merge_spec b l :
  tl_sorted b l ->
  let ps := take MAX_DEPTH (distinct l) in merge l = (layout l ps, length ps).
Proof. intros Hs. apply (merge_loop_spec b l []); [done|cbn; lia]. Qed.

Lemma add_tagged_fold k lvl :
  length (venue_breakdown lvl) = MAX_VENUES_PER_LEVEL ->
  (venue_count lvl + length k <= MAX_VENUES_PER_LEVEL)%nat -> in_i64 (total_quantity lvl) ->
  let r := fold_left add_tagged k lvl in
  total_quantity r = i64 (total_quantity lvl + sum_by tl_quantity k) /\
  venue_count r = (venue_count lvl + length k)%nat.
Proof.
  revert lvl; induction k as [|x k IH]; intros lvl Hl Hc Ht; cbn.
  - rewrite sum_by_nil, Z.add_0_r, i64_id by done. split; [done|lia].
  - cbn in Hc. assert (add_tagged lvl x =
      mkAgg (al_price lvl) (total_quantity lvl +! tl_quantity x)
        (<[venue_count lvl := mkVQ (tl_venue x) (tl_quantity x)]> (venue_breakdown lvl))
        (S (venue_count lvl))) as ->.
    { unfold add_tagged, add_venue. rewrite (proj2 (Nat.ltb_lt _ _)) by lia. done. }
    destruct (IH (mkAgg (al_price lvl) (total_quantity lvl +! tl_quantity x)
        (<[venue_count lvl := mkVQ (tl_venue x) (tl_quantity x)]> (venue_breakdown lvl))
        (S (venue_count lvl)))) as [-> ->]; cbn; [by rewrite length_insert|lia|apply i64_range|].
    rewrite sum_by_cons, i64_add_l. split; [f_equal; lia|lia].
Qed.

Lemma filter_Permutation {A} (f : A -> bool) l k : l ≡ₚ k -> List.filter f l ≡ₚ List.filter f k.
Proof.
  induction 1 as [|x l k _ IH|x y l|l k j _ IH1 _ IH2]; cbn; [done| | |by rewrite IH1].
  - destruct (f x); [by constructor|done].
  - destruct (f x), (f y); done || apply perm_swap.
Qed.

(** What an aggregated side must show of the tagged levels it was built from:
    prices strictly in priority order; each level the total of every venue's
    quantity at its price while at most 16 venues show it; and a price that is
    missing is behind [MAX_DEPTH] better ones. *)
Definition aggregates (b : bool) (tagged : list TaggedLevel) (out : list AggregatedLevel) : Prop :=
  StronglySorted (fun x y => BookSide.before b (al_price x) (al_price y) = true) out /\
  (forall lvl, lvl ∈ out ->
     (length (at_price (al_price lvl) tagged) <= MAX_VENUES_PER_LEVEL)%nat ->
     total_quantity lvl = i64 (sum_by tl_quantity (at_price (al_price lvl) tagged)) /\
     venue_count lvl = length (at_price (al_price lvl) tagged)) /\
  (forall x, x ∈ tagged ->
     (exists lvl, lvl ∈ out /\ al_price lvl = tl_price x) \/
     (length out = MAX_DEPTH /\
      forall lvl, lvl ∈ out -> BookSide.before b (al_price lvl) (tl_price x) = true)).

Lemma merge_aggregates b l tagged :
  tl_sorted b l -> l ≡ₚ tagged ->
  aggregates b tagged (take (merge l).2 (merge l).1).
Proof.
  intros Hs Hp. rewrite (merge_spec b l Hs). cbn [fst snd].
  set (ps := take MAX_DEPTH (distinct l)).
  assert (take (length ps) (layout l ps) = level_for l <$> ps) as ->.
  { unfold layout. rewrite take_app_le by (rewrite length_fmap; lia).
    apply take_ge. rewrite length_fmap. lia. }
  pose proof (distinct_sorted b l Hs) as Hd.
  assert (distinct l = ps ++ drop MAX_DEPTH (distinct l)) as Esplit
    by (symmetry; apply take_drop).
  rewrite Esplit in Hd. apply StronglySorted_app in Hd as (Hlt & Hps & _).
  split_and!.
  - clear Hlt Esplit. induction Hps as [|p qs Hqs IH Hq]; cbn; [constructor|].
    constructor; [done|]. rewrite Forall_fmap. eapply Forall_impl; [exact Hq|].
    intros q Hpq. cbn. by rewrite !level_for_price.
  - intros lvl (p & -> & _)%list_elem_of_fmap. rewrite level_for_price.
    assert (at_price p l ≡ₚ at_price p tagged) as Ef by (by apply filter_Permutation).
    intros Hlen. rewrite <- Ef in Hlen |- *.
    destruct (add_tagged_fold (at_price p l) (fresh_level p)) as [Ht Hc]; [done|done|by cbn|].
    split; [exact Ht|exact Hc].
  - intros x Hx. rewrite <- Hp in Hx.
    assert (tl_price x ∈ distinct l) as Hin by (apply distinct_elem; by exists x).
    rewrite Esplit in Hin. apply elem_of_app in Hin as [Hin|Hin].
    + left. exists (level_for l (tl_price x)). rewrite level_for_price. split; [|done].
      apply list_elem_of_fmap. by exists (tl_price x).
    + right. split.
      * rewrite length_fmap. unfold ps. rewrite length_take.
        destruct (decide (MAX_DEPTH <= length (distinct l))%nat); [lia|].
        rewrite drop_ge in Hin by lia. by inversion Hin.
      * intros lvl (p & -> & Hpp)%list_elem_of_fmap. rewrite level_for_price. by apply Hlt.
Qed.

(** The aggregated book is the merged depth of the registered venues,
    whatever order the sort gives to equal prices: on each side the levels are
    in strict price priority, each shows the whole quantity (and the number)
    of the valid venue levels at its price while at most 16 venues share it,
    and no price is left out unless [MAX_DEPTH] better ones fill the side. *)
Theorem aggregated_book_merges `{!StdSort} m symbol :
  let k := get_aggregated_book m symbol in
  aggregates true (collect m symbol OrderBook.bids) (take (bid_depth k) (ab_bids k)) /\
  aggregates false (collect m symbol OrderBook.asks) (take (ask_depth k) (ab_asks k)).
Proof.
  unfold get_aggregated_book, build_side. cbn.
  set (bids := std_sort _ (collect m symbol OrderBook.bids)).
  set (asks := std_sort _ (collect m symbol OrderBook.asks)).
  assert (tl_sorted true bids) as H1 by (apply std_sort_sorted, _).
  assert (tl_sorted false asks) as H2 by (apply std_sort_sorted, _).
  pose proof (merge_aggregates true _ _ H1 (std_sort_perm _ _ _)) as A1.
  pose proof (merge_aggregates false _ _ H2 (std_sort_perm _ _ _)) as A2.
  subst bids asks. destruct (merge _) as [bids bd], (merge _) as [asks ad]. done.
Qed.
