(* ===== verification/FillManager.v ===== *)
(** * Fill manager (sor/execution/fill_manager.h, fill_manager.cpp)

    The vector of all fills with two indexes of positions into it, by order
    and by symbol.  The theorems show that the indexes are exact: a query
    through an index is the filter of the whole record. *)

From S2P Require Import Prelude Double Types.

Record FillRecord := mkFill {
  f_order_id : OrderId;
  f_exec_id : OrderId;
  f_symbol : FixedString.t;
  f_side : Side;
  f_price : Price;
  f_quantity : Quantity;
  f_venue_id : VenueId;
  f_fee : double;
  f_timestamp : Timestamp
}.

Definition default_FillRecord : FillRecord :=
  mkFill INVALID_ORDER_ID INVALID_ORDER_ID (FixedString.empty_string 16) Buy 0 0 0 (d_of_Z 0) 0.

Module FillManager.

Record t := mk {
  all_fills_ : list FillRecord;
  order_fills_ : gmap OrderId (list nat);
  symbol_fills_ : gmap (list ascii) (list nat)
}.

Definition create : t := mk [] ∅ ∅.

(** [index[key].push_back(idx)] *)
Definition push_index {K} `{Countable K} (index : gmap K (list nat)) (key : K) (idx : nat)
    : gmap K (list nat) :=
  <[key := default [] (index !! key) ++ [idx]]> index.

Definition record_fill (m : t) (fill : FillRecord) : t :=
  let idx := length (all_fills_ m) in
  { m with all_fills_ := all_fills_ m ++ [fill];
           order_fills_ ::= fun i => push_index i (f_order_id fill) idx;
           symbol_fills_ ::= fun i => push_index i (skey (f_symbol fill)) idx }.

(** [all_fills_[idx]] *)
Definition fill_at (m : t) (idx : nat) : FillRecord :=
  nth idx (all_fills_ m) default_FillRecord.

Definition fills_of (m : t) (idxs : option (list nat)) : list FillRecord :=
  match idxs with Some idxs => fill_at m <$> idxs | None => [] end.

Definition get_fills_for_order (m : t) (order_id : OrderId) : list FillRecord :=
  fills_of m (order_fills_ m !! order_id).

Definition get_fills_for_symbol (m : t) (symbol : FixedString.t) : list FillRecord :=
  fills_of m (symbol_fills_ m !! skey symbol).

Definition get_all_fills (m : t) : list FillRecord := all_fills_ m.

Definition total_filled_quantity (m : t) (order_id : OrderId) : Quantity :=
  match order_fills_ m !! order_id with
  | Some idxs => fold_left (fun total idx => total +! f_quantity (fill_at m idx)) idxs 0
  | None => 0
  end.

(** The averaging loop shared by [average_fill_price] and [vwap]. *)
Definition average (m : t) (idxs : list nat) : Price :=
  let '(total_cost, total_qty) :=
    fold_left (fun '(cost, qty) idx =>
      let f := fill_at m idx in (cost +! (f_price f *! f_quantity f), qty +! f_quantity f))
      idxs (0, 0) in
  if total_qty >? 0 then total_cost /! total_qty else 0.

Definition average_fill_price (m : t) (order_id : OrderId) : Price :=
  match order_fills_ m !! order_id with
  | None | Some [] => 0
  | Some idxs => average m idxs
  end.

Definition total_fees (m : t) (order_id : OrderId) : double :=
  match order_fills_ m !! order_id with
  | Some idxs => fold_left (fun total idx => dadd total (f_fee (fill_at m idx))) idxs (d_of_Z 0)
  | None => d_of_Z 0
  end.

Definition vwap (m : t) (symbol : FixedString.t) : Price :=
  match symbol_fills_ m !! skey symbol with
  | None | Some [] => 0
  | Some idxs => average m idxs
  end.

Definition clear (m : t) : t := { m with all_fills_ := []; order_fills_ := ∅; symbol_fills_ := ∅ }.

(** ** The indexes are exact *)

(** The positions of [l] (numbered from [n]) whose key is [k]. *)
Fixpoint positions {K} `{EqDecision K} (key : FillRecord -> K) (k : K) (n : nat)
    (l : list FillRecord) : list nat :=
  match l with
  | [] => []
  | f :: l => if decide (key f = k) then n :: positions key k (S n) l
              else positions key k (S n) l
  end.

Definition fkey (f : FillRecord) : list ascii := skey (f_symbol f).

Record indexed (m : t) : Prop := {
  ix_order : forall k, default [] (order_fills_ m !! k) = positions f_order_id k 0 (all_fills_ m);
  ix_symbol : forall k, default [] (symbol_fills_ m !! k) = positions fkey k 0 (all_fills_ m)
}.

Lemma positions_snoc {K} `{EqDecision K} (key : FillRecord -> K) k n l f :
  positions key k n (l ++ [f]) =
  positions key k n l ++ if decide (key f = k) then [(n + length l)%nat] else [].
Proof.
  revert n; induction l as [|g l IH]; intros n; cbn.
  - rewrite Nat.add_0_r. by case_decide.
  - rewrite IH, Nat.add_succ_r. by repeat case_decide.
Qed.

Lemma positions_fills {K} `{EqDecision K} (key : FillRecord -> K) k pre l :
  (fun idx => nth idx (pre ++ l) default_FillRecord) <$> positions key k (length pre) l =
  filter (fun f => key f = k) l.
Proof.
  revert pre; induction l as [|f l IH]; intros pre; [done|]. cbn [positions].
  specialize (IH (pre ++ [f])). rewrite <- app_assoc, length_app, Nat.add_1_r in IH. cbn [app] in IH.
  rewrite filter_cons. case_decide; [|done]. by rewrite fmap_cons, nth_middle, IH.
Qed.

Lemma push_index_lookup {K} `{Countable K} (index : gmap K (list nat)) key idx k :
  default [] (push_index index key idx !! k) =
  default [] (index !! k) ++ if decide (key = k) then [idx] else [].
Proof.
  unfold push_index. case_decide as E; [subst; by rewrite lookup_insert_eq|].
  by rewrite lookup_insert_ne, app_nil_r.
Qed.

Lemma indexed_create : indexed create.
Proof. by split. Qed.

Lemma indexed_record m f : indexed m -> indexed (record_fill m f).
Proof.
  intros [Ho Hs]. destruct m as [fs oi si]. cbn in *. split; intros k;
    cbn [record_fill all_fills_ order_fills_ symbol_fills_ apply_update constant].
  - rewrite push_index_lookup, Ho, positions_snoc. done.
  - rewrite push_index_lookup, Hs, positions_snoc. done.
Qed.

Lemma fills_of_positions {K} `{EqDecision K} (key : FillRecord -> K) k m o :
  default [] o = positions key k 0 (all_fills_ m) ->
  fills_of m o = filter (fun f => key f = k) (all_fills_ m).
Proof.
  intros E. transitivity (fill_at m <$> default [] o); [by destruct o|].
  rewrite E. apply (positions_fills key k []).
Qed.

(** *** Averages *)

Lemma average_fold m idxs cost qty :
  let fs := fill_at m <$> idxs in
  fold_left (fun '(cost, qty) idx =>
      let f := fill_at m idx in (cost +! (f_price f *! f_quantity f), qty +! f_quantity f))
      idxs (i64 cost, i64 qty) =
  (i64 (cost + sum_by (fun f => f_price f * f_quantity f) fs),
   i64 (qty + sum_by f_quantity fs)).
Proof.
  revert cost qty; induction idxs as [|i idxs IH]; intros cost qty; cbn [fold_left fmap list_fmap].
  - by rewrite !sum_by_nil, !Z.add_0_r.
  - rewrite i64_add_r, !i64_add_l, IH, !sum_by_cons. by rewrite !Z.add_assoc.
Qed.

Lemma fold_left_fmap {A B C} (f : A -> C -> A) (g : B -> C) l a :
  fold_left (fun a x => f a (g x)) l a = fold_left f (g <$> l) a.
Proof. revert a; induction l as [|x l IH]; intros a; cbn; [done|]. apply IH. Qed.

Lemma average_spec m idxs :
  let fs := fill_at m <$> idxs in
  let cost := i64 (sum_by (fun f => f_price f * f_quantity f) fs) in
  let qty := i64 (sum_by f_quantity fs) in
  average m idxs = if qty >? 0 then cost /! qty else 0.
Proof.
  intros fs cost qty. unfold average.
  pose proof (average_fold m idxs 0 0) as H. cbv zeta in H.
  rewrite !(i64_id 0), !Z.add_0_l in H by mlia. by rewrite H.
Qed.

(** A weighted average lies between the bounds of its terms. *)
Lemma weighted_bounds (fs : list FillRecord) lo hi :
  Forall (fun f => lo <= f_price f <= hi /\ 0 < f_quantity f) fs ->
  lo * sum_by f_quantity fs <= sum_by (fun f => f_price f * f_quantity f) fs
    <= hi * sum_by f_quantity fs /\ 0 <= sum_by f_quantity fs.
Proof.
  induction 1 as [|f fs [Hp Hq] _ IH]; [rewrite !sum_by_nil; lia|].
  rewrite !sum_by_cons. nia.
Qed.

End FillManager.

Import FillManager.

(** One recorded fill, or a reset. *)
Inductive fm_step : FillManager.t -> FillManager.t -> Prop :=
| fm_record m f : fm_step m (record_fill m f)
| fm_clear m : fm_step m (FillManager.clear m).

Lemma fm_indexed m : rtc fm_step create m -> indexed m.
Proof.
  intros Hr. pose proof indexed_create as Hi. revert Hi.
  induction Hr as [|x y z Hs _ IH]; [done|]. intros Hx. apply IH.
  destruct Hs; [by apply indexed_record|by destruct m].
Qed.

(** The indexes of the fill manager are exact at all times: after any
    sequence of recorded fills and resets, the fills returned for an order
    (and for a symbol) are precisely those recorded for it, in recording
    order, and the filled quantity of an order is their sum. *)
Theorem fill_queries_exact m :
  rtc fm_step create m ->
  (forall id, get_fills_for_order m id = filter (fun f => f_order_id f = id) (get_all_fills m)) /\
  (forall s, get_fills_for_symbol m s =
             filter (fun f => skey (f_symbol f) = skey s) (get_all_fills m)) /\
  (forall id, total_filled_quantity m id =
     i64 (sum_by f_quantity (filter (fun f => f_order_id f = id) (get_all_fills m)))).
Proof.
  intros [Ho Hs]%fm_indexed. split_and!.
  - intros id. apply fills_of_positions, Ho.
  - intros s. apply (fills_of_positions fkey), Hs.
  - intros id. unfold total_filled_quantity, get_all_fills.
    rewrite <- (fills_of_positions f_order_id id m (order_fills_ m !! id)) by apply Ho.
    unfold fills_of. destruct (order_fills_ m !! id) as [idxs|]; [|done].
    rewrite (fold_left_fmap (fun total f => total +! f_quantity f)).
    generalize (fill_at m <$> idxs). intros fs.
    assert (forall n, fold_left (fun total f => total +! f_quantity f) fs (i64 n) =
                      i64 (n + sum_by f_quantity fs)) as H; [|by apply (H 0)].
    induction fs as [|f fs IH]; intros n; cbn; [by rewrite sum_by_nil, Z.add_0_r|].
    rewrite i64_add_l, IH, sum_by_cons. by rewrite Z.add_assoc.
Qed.

Definition sample_fill (id qty price : Z) : FillRecord :=
  { default_FillRecord with f_order_id := id; f_symbol := Symbol_of "AAPL";
    f_quantity := qty; f_price := price }.

Definition sample_fills : FillManager.t :=
  record_fill (record_fill (record_fill create (sample_fill 1 10 100)) (sample_fill 2 5 101))
    (sample_fill 1 20 103).

Lemma sample_fills_reached : rtc fm_step create sample_fills.
Proof.
  eapply rtc_l; [apply (fm_record create (sample_fill 1 10 100))|].
  eapply rtc_l; [apply (fm_record _ (sample_fill 2 5 101))|].
  eapply rtc_l; [apply (fm_record _ (sample_fill 1 20 103))|apply rtc_refl].
Defined.

Lemma fill_queries_exact_witness : total_filled_quantity sample_fills 1 = 30.
Proof.
  refine (eq_trans (proj2 (proj2 (fill_queries_exact sample_fills sample_fills_reached)) 1) _).
  reflexivity.
Defined.

(** The volume-weighted prices are averages: as long as the total cost and
    quantity of an order's fills fit 64 bits, its average fill price lies
    between the lowest and the highest price filled, off the exact quotient by
    less than one unit, and the VWAP of a symbol does the same for its fills. *)
Theorem average_price_between m lo hi :
  rtc fm_step create m -> 0 <= lo ->
  (forall id, let fs := filter (fun f => f_order_id f = id) (get_all_fills m) in
   fs <> [] -> Forall (fun f => lo <= f_price f <= hi /\ 0 < f_quantity f) fs ->
   sum_by f_quantity fs <= INT64_MAX -> hi * sum_by f_quantity fs <= INT64_MAX ->
   lo <= average_fill_price m id <= hi /\
   0 <= sum_by (fun f => f_price f * f_quantity f) fs
        - average_fill_price m id * sum_by f_quantity fs < sum_by f_quantity fs) /\
  (forall s, let fs := filter (fun f => skey (f_symbol f) = skey s) (get_all_fills m) in
   fs <> [] -> Forall (fun f => lo <= f_price f <= hi /\ 0 < f_quantity f) fs ->
   sum_by f_quantity fs <= INT64_MAX -> hi * sum_by f_quantity fs <= INT64_MAX ->
   lo <= vwap m s <= hi).
Proof.
  intros Hr Hlo. pose proof (fm_indexed m Hr) as [Ho Hs].
  assert (forall idxs fs, fs = fill_at m <$> idxs ->
    fs <> [] -> Forall (fun f => lo <= f_price f <= hi /\ 0 < f_quantity f) fs ->
    sum_by f_quantity fs <= INT64_MAX -> hi * sum_by f_quantity fs <= INT64_MAX ->
    lo <= average m idxs <= hi /\
    0 <= sum_by (fun f => f_price f * f_quantity f) fs
         - average m idxs * sum_by f_quantity fs < sum_by f_quantity fs) as Havg.
  { intros idxs fs -> Hne Hf Hq Hc. rewrite average_spec. cbv zeta.
    set (fs := fill_at m <$> idxs) in *.
    destruct (weighted_bounds fs lo hi Hf) as [Hw Hpos].
    assert (0 < sum_by f_quantity fs).
    { destruct fs as [|f fs]; [done|]. inversion Hf as [|? ? [_ Hfq] Hfs]; subst.
      rewrite sum_by_cons. destruct (weighted_bounds fs lo hi Hfs). lia. }
    set (Q := sum_by f_quantity fs) in *. set (C := sum_by (fun f => f_price f * f_quantity f) fs) in *. clearbody Q C.
    rewrite !(i64_id Q), (i64_id C) by (mnia || mlia).
    rewrite (proj2 (Z.gtb_lt Q 0)) by lia.
    rewrite Z.quot_div_nonneg by nia.
    assert (lo <= C / Q <= hi) as Hb.
    { split; [apply Z.div_le_lower_bound; lia|].
      apply Z.div_le_upper_bound; lia. }
    assert (hi <= INT64_MAX) by nia.
    rewrite i64_id by mlia. split; [done|].
    pose proof (Z.div_mod C Q). pose proof (Z.mod_pos_bound C Q). lia. }
  split.
  - intros id fs Hne Hf Hq Hc. unfold average_fill_price.
    assert (fills_of m (order_fills_ m !! id) = fs) as E
      by apply (fills_of_positions f_order_id id m _ (Ho id)).
    clearbody fs. destruct (order_fills_ m !! id) as [[|i idxs]|]; cbn in E;
      [by subst|by apply Havg|by subst].
  - intros s fs Hne Hf Hq Hc. unfold vwap.
    assert (fills_of m (symbol_fills_ m !! skey s) = fs) as E
      by apply (fills_of_positions fkey (skey s) m _ (Hs (skey s))).
    clearbody fs. destruct (symbol_fills_ m !! skey s) as [[|i idxs]|]; cbn in E;
      [by subst|by apply (Havg (i :: idxs) fs)|by subst].
Qed.

Lemma average_price_between_witness :
  100 <= average_fill_price sample_fills 1 <= 103 /\ average_fill_price sample_fills 1 = 102.
Proof.
  split; [|reflexivity].
  refine (proj1 (proj1 (average_price_between sample_fills 100 103 sample_fills_reached _)
                  1 _ _ _ _)).
  - lia.
  - vm_compute; discriminate.
  - repeat constructor; vm_compute; done.
  - vm_compute; discriminate.
  - vm_compute; discriminate.
Defined.
