(* ===== verification/ExecutionHandler.v ===== *)
(** * Execution handler (sor/execution/execution_handler.h, .cpp)

    Parent and child orders in one map of orders, with the links in both
    directions.  [on_execution_report] works on references into that map; the
    model stores and re-reads the orders in the same sequence, so that a parent
    and a child that were the same order would alias as they do in the code.
    The callbacks deferred until the lock is released are the list of effects
    returned, in the order they are invoked. *)

From S2P Require Import Prelude Types StateMachine.

Module ExecutionHandler.

Record Stats := mkStats {
  total_fills : Z;
  total_partial_fills : Z;
  total_rejects : Z;
  total_cancels : Z;
  reroutes : Z
}.

Record t := mk {
  orders_ : gmap OrderId Order;
  parent_to_children_ : gmap OrderId (list OrderId);
  child_to_parent_ : gmap OrderId OrderId;
  fill_callback_ : bool;
  completion_callback_ : bool;
  reroute_callback_ : bool;
  stats_ : Stats
}.

Definition create : t := mk ∅ ∅ ∅ false false false (mkStats 0 0 0 0 0).

(** A deferred callback.  The reroute callback gets a reference to the parent
    as it is when the callback runs, so the effect carries its identifier. *)
Inductive Effect :=
| FillCb (order : Order) (report : ExecutionReport)
| RerouteCb (parent_id : OrderId)
| CompletionCb (order : Order).

Definition set_fill_callback (m : t) : t := { m with fill_callback_ := true }.
Definition set_completion_callback (m : t) : t := { m with completion_callback_ := true }.
Definition set_reroute_callback (m : t) : t := { m with reroute_callback_ := true }.

Definition track_order (m : t) (parent : Order) : t :=
  { m with orders_ ::= fun os => <[o_id parent := parent]> os;
           parent_to_children_ ::= fun pc =>
             match pc !! o_id parent with Some _ => pc | None => <[o_id parent := []]> pc end }.

Definition track_child_order (m : t) (parent_id : OrderId) (child : Order) : t :=
  { m with orders_ ::= fun os => <[o_id child := child]> os;
           parent_to_children_ ::= fun pc =>
             <[parent_id := default [] (pc !! parent_id) ++ [o_id child]]> pc;
           child_to_parent_ ::= fun cp => <[o_id child := parent_id]> cp }.

(** The [switch] on the state of the report. *)
Definition report_event (s : OrderState) : option OrderEvent :=
  match s with
  | Accepted => Some Acknowledge
  | PartiallyFilled => Some PartialFill
  | Filled => Some Fill
  | Canceled => Some CancelAck
  | Rejected => Some Reject
  | Expired => Some Expire
  | PendingCancel => Some RequestCancel
  | PendingReplace => Some RequestReplace
  | New | PendingNew => None
  end.

(** An unsolicited cancel of a working order first requests the cancel. *)
Definition pre_cancel (s : OrderState) (order : Order) (now : Timestamp) : Order :=
  match s, o_state order with
  | Canceled, Accepted | Canceled, PartiallyFilled =>
      (OrderStateMachine.apply order RequestCancel now).2
  | _, _ => order
  end.

(** The cumulative quantity and average price of the order itself. *)
Definition record_report (order : Order) (report : ExecutionReport) : Order :=
  if r_last_quantity report >? 0 then
    let prev_filled := o_filled_quantity order in
    let order := { order with o_filled_quantity := r_cum_quantity report;
                     o_remaining_quantity := o_quantity order -! r_cum_quantity report } in
    if o_filled_quantity order >? 0 then
      let prev_cost := o_avg_fill_price order *! prev_filled in
      let new_cost := r_last_price report *! r_last_quantity report in
      { order with o_avg_fill_price := (prev_cost +! new_cost) /! o_filled_quantity order }
    else order
  else order.

Definition update_parent_from_child (parent : Order) (report : ExecutionReport)
    (now : Timestamp) : Order :=
  let prev_parent_filled := o_filled_quantity parent in
  let filled := prev_parent_filled +! r_last_quantity report in
  let parent := { parent with o_filled_quantity := filled;
                    o_remaining_quantity := o_quantity parent -! filled } in
  let parent :=
    if filled >? 0 then
      let prev_cost := o_avg_fill_price parent *! prev_parent_filled in
      let fill_cost := r_last_price report *! r_last_quantity report in
      { parent with o_avg_fill_price := (prev_cost +! fill_cost) /! filled }
    else parent in
  let parent :=
    match o_state parent with
    | Accepted | PendingNew | New => { parent with o_state := PartiallyFilled }
    | _ => parent
    end in
  { parent with o_last_update_time := now; o_version := u32 (o_version parent + 1) }.

Definition order_at (os : gmap OrderId Order) (id : OrderId) : Order :=
  default default_Order (os !! id).

(** Every known child of the parent is in a terminal state. *)
Definition all_terminal (m : t) (os : gmap OrderId Order) (parent_id : OrderId) : bool :=
  match parent_to_children_ m !! parent_id with
  | None => true
  | Some cs =>
      forallb (fun cid => match os !! cid with Some c => is_terminal c | None => true end) cs
  end.

(** The test that triggers a reroute, on the orders as they stand. *)
Definition wants_reroute (m : t) (os : gmap OrderId Order) (order parent : Order) : bool :=
  is_terminal order && negb (bool_decide (o_state order = Filled)) &&
  negb (is_terminal parent) && (o_quantity parent -! o_filled_quantity parent >? 0) &&
  all_terminal m os (o_id parent).

Definition with_remaining (parent : Order) : Order :=
  { parent with o_remaining_quantity := o_quantity parent -! o_filled_quantity parent }.

Definition mark_filled (parent : Order) (now : Timestamp) : Order :=
  { parent with o_state := Filled; o_remaining_quantity := 0;
                o_last_update_time := now; o_version := u32 (o_version parent + 1) }.

(** The parent's side of a report on child [id]. *)
Definition child_branch (m : t) (id pid : OrderId) (report : ExecutionReport)
    (clk : nat -> Timestamp) : t * list Effect * list Effect :=
  let os := orders_ m in
  let os :=
    if r_last_quantity report >? 0
    then <[pid := update_parent_from_child (order_at os pid) report (clk 2%nat)]> os
    else os in
  let parent := order_at os pid in
  let reroute := wants_reroute m os (order_at os id) parent in
  let os :=
    if reroute
    then <[pid := with_remaining parent]> os
    else os in
  let parent := order_at os pid in
  let complete := o_filled_quantity parent >=? o_quantity parent in
  let parent := mark_filled parent (clk 3%nat) in
  let os := if complete then <[pid := parent]> os else os in
  ({ m with orders_ := os;
            stats_ ::= fun st => if reroute
              then { st with reroutes := u64 (reroutes st + 1) } else st },
   if reroute && reroute_callback_ m then [RerouteCb (o_id (order_at (orders_ m) pid))] else [],
   if complete && completion_callback_ m then [CompletionCb parent] else []).

Definition count_report (s : OrderState) (st : Stats) : Stats :=
  match s with
  | Filled => { st with total_fills := u64 (total_fills st + 1) }
  | PartiallyFilled => { st with total_partial_fills := u64 (total_partial_fills st + 1) }
  | Rejected => { st with total_rejects := u64 (total_rejects st + 1) }
  | Canceled => { st with total_cancels := u64 (total_cancels st + 1) }
  | _ => st
  end.

(** The order after its own part of the report. *)
Definition report_order (order : Order) (event : OrderEvent) (report : ExecutionReport)
    (clk : nat -> Timestamp) : Order :=
  let order := pre_cancel (r_state report) order (clk 0%nat) in
  let order := (OrderStateMachine.apply order event (clk 1%nat)).2 in
  record_report order report.

(** [clk] gives the clock readings, by call site. *)
Definition on_execution_report (m : t) (report : ExecutionReport) (clk : nat -> Timestamp)
    : t * list Effect :=
  let id := r_order_id report in
  match orders_ m !! id, report_event (r_state report) with
  | Some order, Some event =>
      let order := report_order order event report clk in
      let m := { m with orders_ ::= fun os => <[id := order]> os } in
      let '(m, reroute, completion) :=
        match child_to_parent_ m !! o_id order with
        | Some pid =>
            match orders_ m !! pid with
            | Some _ => child_branch m id pid report clk
            | None => (m, [], [])
            end
        | None =>
            (m, [], if bool_decide (o_state order = Filled) && completion_callback_ m
                    then [CompletionCb order] else [])
        end in
      let fill := if (r_last_quantity report >? 0) && fill_callback_ m
                  then [FillCb (order_at (orders_ m) id) report] else [] in
      ({ m with stats_ ::= count_report (r_state report) }, fill ++ reroute ++ completion)
  | _, _ => (m, [])
  end.

Definition get_order (m : t) (id : OrderId) : option Order := orders_ m !! id.

(** Writing through the pointer of [get_mutable_order]. *)
Definition update_order (m : t) (id : OrderId) (f : Order -> Order) : t :=
  { m with orders_ ::= alter f id }.

Definition get_children (m : t) (parent_id : OrderId) : list OrderId :=
  match parent_to_children_ m !! parent_id with Some cs => cs | None => [] end.

Definition get_parent (m : t) (child_id : OrderId) : OrderId :=
  match child_to_parent_ m !! child_id with Some p => p | None => INVALID_ORDER_ID end.

Definition is_complete (m : t) (parent_id : OrderId) : bool :=
  match orders_ m !! parent_id with
  | None => false
  | Some o => o_filled_quantity o >=? o_quantity o
  end.

Definition get_stats (m : t) : Stats := stats_ m.

(** ** The order's own part of a report *)

Lemma apply_fields o e now :
  let o' := (OrderStateMachine.apply o e now).2 in
  o_id o' = o_id o /\ o_filled_quantity o' = o_filled_quantity o /\
  o_quantity o' = o_quantity o.
Proof.
  unfold OrderStateMachine.apply. destruct (OrderStateMachine.apply_state _ _); [|done].
  by destruct o.
Qed.

Lemma report_order_fields o e report clk :
  let o' := report_order o e report clk in
  o_id o' = o_id o /\ o_quantity o' = o_quantity o /\
  o_filled_quantity o' =
    if r_last_quantity report >? 0 then r_cum_quantity report else o_filled_quantity o.
Proof.
  unfold report_order.
  assert (forall o, let o' := record_report o report in
    o_id o' = o_id o /\ o_quantity o' = o_quantity o /\
    o_filled_quantity o' =
      if r_last_quantity report >? 0 then r_cum_quantity report else o_filled_quantity o) as Hr.
  { intros [] o'; subst o'. unfold record_report. destruct (_ >? 0); [|done].
    cbn. by destruct (_ >? 0). }
  destruct (Hr (OrderStateMachine.apply
    (pre_cancel (r_state report) o (clk 0%nat)) e (clk 1%nat)).2) as (-> & -> & ->).
  destruct (apply_fields (pre_cancel (r_state report) o (clk 0%nat)) e (clk 1%nat))
    as (-> & -> & ->).
  unfold pre_cancel.
  destruct (apply_fields o RequestCancel (clk 0%nat)) as (E1 & E2 & E3).
  destruct (r_state report), (o_state o); rewrite ?E1, ?E2, ?E3; done.
Qed.

Lemma update_parent_fields p report now :
  let p' := update_parent_from_child p report now in
  o_id p' = o_id p /\ o_quantity p' = o_quantity p /\
  o_filled_quantity p' = o_filled_quantity p +! r_last_quantity report.
Proof.
  destruct p. unfold update_parent_from_child. cbn.
  destruct (_ >? 0), o_state; done.
Qed.

(** The parent's filled quantity after a report on one of its children. *)
Definition parent_filled (p : Order) (report : ExecutionReport) : Quantity :=
  if r_last_quantity report >? 0 then o_filled_quantity p +! r_last_quantity report
  else o_filled_quantity p.

(** The successive values of the parent in [child_branch]. *)
Definition parent1 (P : Order) (report : ExecutionReport) (clk : nat -> Timestamp) : Order :=
  if r_last_quantity report >? 0 then update_parent_from_child P report (clk 2%nat) else P.

Definition parent2 (rr : bool) (P1 : Order) : Order := if rr then with_remaining P1 else P1.

Definition parent3 (P2 : Order) (clk : nat -> Timestamp) : Order :=
  if o_filled_quantity P2 >=? o_quantity P2 then mark_filled P2 (clk 3%nat) else P2.

Lemma order_at_insert os id o : order_at (<[id := o]> os) id = o.
Proof. unfold order_at. by rewrite lookup_insert_eq. Qed.

Lemma order_at_insert_ne os id id' o :
  id <> id' -> order_at (<[id := o]> os) id' = order_at os id'.
Proof. intros. unfold order_at. by rewrite lookup_insert_ne. Qed.

Lemma child_branch_eq m id pid report clk P :
  orders_ m !! pid = Some P ->
  let P1 := parent1 P report clk in
  let os1 := <[pid := P1]> (orders_ m) in
  let rr := wants_reroute m os1 (order_at os1 id) P1 in
  let P2 := parent2 rr P1 in
  let P3 := parent3 P2 clk in
  let complete := o_filled_quantity P2 >=? o_quantity P2 in
  child_branch m id pid report clk =
  ({ m with orders_ := <[pid := P3]> (orders_ m);
            stats_ ::= fun st => if rr
              then { st with reroutes := u64 (reroutes st + 1) } else st },
   if rr && reroute_callback_ m then [RerouteCb (o_id P)] else [],
   if complete && completion_callback_ m then [CompletionCb P3] else []).
Proof.
  intros HP P1 os1 rr P2 P3 complete. unfold child_branch.
  assert (order_at (orders_ m) pid = P) as EP by (unfold order_at; by rewrite HP).
  rewrite EP.
  assert ((if r_last_quantity report >? 0
           then <[pid:=update_parent_from_child P report (clk 2%nat)]> (orders_ m)
           else orders_ m) = os1) as ->.
  { subst os1 P1. unfold parent1. destruct (_ >? 0); [done|]. by rewrite insert_id. }
  assert (order_at os1 pid = P1) as -> by apply order_at_insert. fold rr.
  assert ((if rr then <[pid := with_remaining P1]> os1 else os1) =
          <[pid := P2]> (orders_ m)) as ->.
  { subst P2 os1. unfold parent2. destruct rr; [by rewrite insert_insert_eq|done]. }
  rewrite order_at_insert. fold complete.
  assert ((if complete then <[pid := mark_filled P2 (clk 3%nat)]> (<[pid := P2]> (orders_ m))
           else <[pid := P2]> (orders_ m)) = <[pid := P3]> (orders_ m)) as ->.
  { subst P3. unfold parent3. fold complete.
    destruct complete; [by rewrite insert_insert_eq|done]. }
  f_equal. subst P3. unfold parent3. fold complete. by destruct complete.
Qed.

Lemma parent1_fields P report clk :
  o_id (parent1 P report clk) = o_id P /\ o_quantity (parent1 P report clk) = o_quantity P /\
  o_filled_quantity (parent1 P report clk) = parent_filled P report.
Proof.
  unfold parent1, parent_filled. destruct (_ >? 0); [apply update_parent_fields|done].
Qed.

Lemma parent2_fields rr P :
  o_id (parent2 rr P) = o_id P /\ o_quantity (parent2 rr P) = o_quantity P /\
  o_filled_quantity (parent2 rr P) = o_filled_quantity P /\
  o_state (parent2 rr P) = o_state P.
Proof. unfold parent2, with_remaining. destruct rr; [by destruct P|done]. Qed.

Lemma parent3_fields P clk :
  o_id (parent3 P clk) = o_id P /\ o_quantity (parent3 P clk) = o_quantity P /\
  o_filled_quantity (parent3 P clk) = o_filled_quantity P /\
  o_state (parent3 P clk) =
    if o_filled_quantity P >=? o_quantity P then Filled else o_state P.
Proof. unfold parent3, mark_filled. destruct (_ >=? _); [by destruct P|done]. Qed.

(** The parent's side only rewrites the parent. *)
Lemma child_branch_orders m id pid report clk P :
  orders_ m !! pid = Some P ->
  exists P', orders_ (child_branch m id pid report clk).1.1 = <[pid := P']> (orders_ m) /\
    o_id P' = o_id P /\ o_quantity P' = o_quantity P /\
    o_filled_quantity P' = parent_filled P report.
Proof.
  intros HP. rewrite (child_branch_eq _ _ _ _ _ _ HP). destruct m. cbn in *.
  eexists. split; [reflexivity|].
  match goal with |- context [parent2 ?rr ?P1] =>
    destruct (parent3_fields (parent2 rr P1) clk) as (-> & -> & -> & _);
    destruct (parent2_fields rr P1) as (-> & -> & -> & _) end.
  apply parent1_fields.
Qed.

End ExecutionHandler.

Import ExecutionHandler.

(** ** Families: a parent and its children *)

Record wf (m : t) : Prop := {
  wf_ids : forall id o, orders_ m !! id = Some o -> o_id o = id;
  wf_levels : forall c p, child_to_parent_ m !! c = Some p -> child_to_parent_ m !! p = None;
  wf_leaf : forall c p, child_to_parent_ m !! c = Some p -> parent_to_children_ m !! c = None;
  wf_links : forall c p, child_to_parent_ m !! c = Some p <->
    exists cs, parent_to_children_ m !! p = Some cs /\ c ∈ cs;
  wf_nodup : forall p cs, parent_to_children_ m !! p = Some cs -> NoDup cs;
  wf_known : forall c p, child_to_parent_ m !! c = Some p ->
    is_Some (orders_ m !! c) /\ is_Some (orders_ m !! p)
}.

Definition filled_of (m : t) (id : OrderId) : Quantity :=
  o_filled_quantity (order_at (orders_ m) id).

(** The parent's filled quantity is the sum over its children. *)
Definition balanced (m : t) : Prop :=
  forall p cs, parent_to_children_ m !! p = Some cs ->
    filled_of m p = i64 (sum_by (filled_of m) cs).

(** A report of a child whose cumulative quantity counts its last fill. *)
Definition consistent (m : t) (report : ExecutionReport) : Prop :=
  is_Some (child_to_parent_ m !! r_order_id report) /\
  0 <= r_last_quantity report /\
  (0 < r_last_quantity report ->
   r_cum_quantity report = filled_of m (r_order_id report) +! r_last_quantity report).

(** The operations, with fresh identifiers and untouched orders. *)
Inductive eh_step : t -> t -> Prop :=
| es_parent m o :
    orders_ m !! o_id o = None -> parent_to_children_ m !! o_id o = None ->
    o_filled_quantity o = 0 -> eh_step m (track_order m o)
| es_child m pid o :
    is_Some (orders_ m !! pid) -> child_to_parent_ m !! pid = None ->
    is_Some (parent_to_children_ m !! pid) ->
    orders_ m !! o_id o = None -> parent_to_children_ m !! o_id o = None ->
    o_filled_quantity o = 0 -> eh_step m (track_child_order m pid o)
| es_report m report clk :
    consistent m report -> eh_step m (on_execution_report m report clk).1
| es_callbacks m :
    eh_step m (set_reroute_callback (set_completion_callback (set_fill_callback m))).

(** What a report on a child does to the orders and the links. *)
Lemma report_child_orders m report clk pid :
  wf m -> child_to_parent_ m !! r_order_id report = Some pid ->
  let m' := (on_execution_report m report clk).1 in
  parent_to_children_ m' = parent_to_children_ m /\ child_to_parent_ m' = child_to_parent_ m /\
  ((report_event (r_state report) = None /\ orders_ m' = orders_ m) \/
   exists C P C' P', orders_ m !! r_order_id report = Some C /\ orders_ m !! pid = Some P /\
     orders_ m' = <[pid := P']> (<[r_order_id report := C']> (orders_ m)) /\
     o_id C' = r_order_id report /\ o_id P' = pid /\
     o_filled_quantity C' = (if r_last_quantity report >? 0 then r_cum_quantity report
                             else o_filled_quantity C) /\
     o_filled_quantity P' = parent_filled P report).
Proof.
  intros Hw Hc m'. subst m'. unfold on_execution_report.
  destruct (wf_known m Hw _ _ Hc) as [[C HC] [P HP]].
  assert (r_order_id report <> pid) as Hne.
  { intros E. pose proof (wf_levels m Hw _ _ Hc). congruence. }
  rewrite HC. destruct (report_event (r_state report)) as [event|]; [|by auto 6].
  destruct (report_order_fields C event report clk) as (Ei & _ & Ef).
  set (C' := report_order C event report clk) in *. clearbody C'.
  rewrite (wf_ids m Hw _ _ HC) in Ei.
  set (m1 := {m with orders_ ::= fun os => <[r_order_id report := C']> os}).
  change (child_to_parent_ m1) with (child_to_parent_ m). rewrite Ei, Hc.
  change (orders_ m1) with (<[r_order_id report := C']> (orders_ m)).
  rewrite lookup_insert_ne, HP by done.
  destruct (child_branch_orders m1 (r_order_id report) pid report clk P) as (P' & Eo & Pi & _ & Pf).
  { change (orders_ m1) with (<[r_order_id report := C']> (orders_ m)).
    by rewrite lookup_insert_ne. }
  assert (parent_to_children_ (child_branch m1 (r_order_id report) pid report clk).1.1 =
          parent_to_children_ m /\
          child_to_parent_ (child_branch m1 (r_order_id report) pid report clk).1.1 =
          child_to_parent_ m) as [El1 El2] by (unfold child_branch; done).
  destruct (child_branch m1 (r_order_id report) pid report clk) as [[m2 rr] cc].
  cbn [fst snd] in *. destruct m2 as [os2 pc2 cp2 fc2 cc2 rc2 st2]. cbn in *.
  split_and!; [done|done|]. right. exists C, P, C', P'. split_and!; try done.
  rewrite Pi. by apply (wf_ids m Hw).
Qed.

Lemma filled_of_insert m os id o x :
  orders_ m = <[id := o]> os ->
  filled_of m x = if decide (id = x) then o_filled_quantity o
                  else o_filled_quantity (order_at os x).
Proof.
  intros E. unfold filled_of, order_at. rewrite E. case_decide as D.
  - subst. by rewrite lookup_insert_eq.
  - by rewrite lookup_insert_ne.
Qed.

(** Changing one member of a duplicate-free list changes the sum by its change. *)
Lemma sum_by_update (f g : OrderId -> Z) c cs :
  NoDup cs -> c ∈ cs -> (forall x, x ∈ cs -> x <> c -> g x = f x) ->
  sum_by g cs = sum_by f cs - f c + g c.
Proof.
  induction 1 as [|x cs Hx Hcs IH]; intros Hc Hg; [by inversion Hc|].
  rewrite !sum_by_cons. apply elem_of_cons in Hc as [->|Hc].
  - assert (sum_by g cs = sum_by f cs) as ->; [|lia].
    unfold sum_by. f_equal. apply list_fmap_ext. intros i y Hy.
    apply list_elem_of_lookup_2 in Hy. apply Hg; [by right|]. by intros ->.
  - rewrite IH; [|done|intros y Hy Hne; apply Hg; [by right|done]].
    rewrite (Hg x); [lia|by left|]. by intros ->.
Qed.

Lemma sum_by_same (f g : OrderId -> Z) cs :
  (forall x, x ∈ cs -> g x = f x) -> sum_by g cs = sum_by f cs.
Proof.
  intros H. unfold sum_by. f_equal. apply list_fmap_ext. intros i x Hx.
  by apply H, (list_elem_of_lookup_2 _ i).
Qed.

Lemma wf_report m report clk :
  wf m -> is_Some (child_to_parent_ m !! r_order_id report) ->
  wf (on_execution_report m report clk).1.
Proof.
  intros Hw [pid Hc].
  destruct (report_child_orders m report clk pid Hw Hc) as (E1 & E2 & [[_ Eo]|Ho]).
  - destruct Hw. split; rewrite ?E1, ?E2, ?Eo; done.
  - destruct Ho as (C & P & C' & P' & HC & HP & Eo & Ei & Ep & _).
    destruct Hw as [Hids Hlev Hleaf Hlink Hnd Hk].
    split; rewrite ?E1, ?E2; try done.
    + intros id o. rewrite Eo, !lookup_insert_Some. intros [[<- <-]|[_ [[<- <-]|[_ H]]]]; auto.
    + intros c p Hcp. rewrite Eo. destruct (Hk c p Hcp) as [H1 H2].
      split; rewrite lookup_insert_is_Some'; right; rewrite lookup_insert_is_Some'; by right.
Qed.

Lemma balanced_report m report clk :
  wf m -> balanced m -> consistent m report ->
  balanced (on_execution_report m report clk).1.
Proof.
  intros Hw Hb ([pid Hc] & Hq & Hcum).
  destruct (report_child_orders m report clk pid Hw Hc) as (E1 & _ & Ho).
  intros p cs Hcs. rewrite E1 in Hcs.
  assert (pid <> r_order_id report) as Hne.
  { intros E. pose proof (wf_levels m Hw _ _ Hc). congruence. }
  set (m' := (on_execution_report m report clk).1) in *. clearbody m'.
  destruct Ho as [[_ Eo]|(C & P & C' & P' & HC & HP & Eo & _ & _ & Ec & Ep)].
  { unfold filled_of. rewrite Eo. by apply Hb. }
  assert (forall x, filled_of m' x =
    if decide (pid = x) then o_filled_quantity P'
    else if decide (r_order_id report = x) then o_filled_quantity C' else filled_of m x) as Hf.
  { intros x. rewrite (filled_of_insert _ _ _ _ x Eo). case_decide; [done|].
    unfold order_at. case_decide; [subst; by rewrite lookup_insert_eq|].
    by rewrite lookup_insert_ne. }
  assert (o_filled_quantity P = filled_of m pid) as EP by (unfold filled_of, order_at; by rewrite HP).
  assert (o_filled_quantity C = filled_of m (r_order_id report)) as EC
    by (unfold filled_of, order_at; by rewrite HC).
  assert (forall x, x ∈ cs -> x <> pid) as Hpar.
  { intros x Hx ->. assert (child_to_parent_ m !! pid = Some p) as H
      by (apply (wf_links m Hw); by exists cs).
    by rewrite (wf_levels m Hw _ _ Hc) in H. }
  destruct (decide (p = pid)) as [->|Hp].
  - rewrite Hf, decide_True by done. rewrite Ep. unfold parent_filled.
    assert (r_order_id report ∈ cs) as Hin.
    { apply (wf_links m Hw) in Hc as (cs' & Hcs' & Hin). congruence. }
    rewrite (sum_by_update (filled_of m) _ (r_order_id report));
      [|by eapply (wf_nodup m Hw)|done|].
    2: { intros x Hx Hxc. specialize (Hpar x Hx).
         rewrite Hf, decide_False, decide_False by congruence. done. }
    rewrite Hf, decide_False, decide_True by done. rewrite Ec, EP.
    destruct (Z.gtb_spec (r_last_quantity report) 0).
    + rewrite Hcum by lia. rewrite i64_add_r, (Hb _ _ Hcs), i64_add_l. f_equal; lia.
    + rewrite EC, (Hb _ _ Hcs). f_equal; lia.
  - assert (p <> r_order_id report) as Hpr.
    { intros ->. rewrite (wf_leaf m Hw _ _ Hc) in Hcs. done. }
    rewrite Hf, decide_False, decide_False by congruence. rewrite (Hb _ _ Hcs). f_equal.
    symmetry. apply sum_by_same. intros x Hx.
    assert (child_to_parent_ m !! x = Some p) as Hxp by (apply (wf_links m Hw); by exists cs).
    rewrite Hf, decide_False, decide_False; [done| |by apply not_eq_sym, Hpar].
    intros <-. congruence.
Qed.

Lemma wf_create : wf create.
Proof.
  split; cbn; try (intros *; rewrite lookup_empty; done).
  intros c p. rewrite lookup_empty. split; [done|]. by intros (cs & Hcs & _).
Qed.

Lemma wf_track_order m o :
  wf m -> orders_ m !! o_id o = None -> parent_to_children_ m !! o_id o = None ->
  wf (track_order m o).
Proof.
  intros [Hids Hlev Hleaf Hlink Hnd Hk] Ho Hp. unfold track_order.
  destruct m as [os pc cp f1 f2 f3 st]; cbn in *. rewrite Hp.
  split; cbn.
  - intros id x. rewrite lookup_insert_Some. intros [[<- <-]|[_ H]]; auto.
  - done.
  - intros c p H. destruct (Hk _ _ H) as [[x Hx] _].
    rewrite lookup_insert_ne; [by eapply Hleaf|congruence].
  - intros c p. rewrite Hlink. setoid_rewrite lookup_insert_Some. split.
    + intros (l & Hl & Hin). exists l. split; [|done]. right. split; [congruence|done].
    + intros (l & [[<- <-]|[_ Hl]] & Hin); [by inversion Hin|by exists l].
  - intros p l. rewrite lookup_insert_Some. intros [[_ <-]|[_ H]]; [constructor|eauto].
  - intros c p H. rewrite !lookup_insert_is_Some'. destruct (Hk _ _ H). by auto.
Qed.

Lemma balanced_track_order m o :
  wf m -> balanced m -> orders_ m !! o_id o = None ->
  parent_to_children_ m !! o_id o = None -> o_filled_quantity o = 0 ->
  balanced (track_order m o).
Proof.
  intros [_ _ _ Hlink _ Hk] Hb Ho Hp Hf. unfold track_order.
  destruct m as [os pc cp f1 f2 f3 st]; cbn in *. rewrite Hp.
  intros p l. cbn. unfold filled_of, order_at; cbn. rewrite lookup_insert_Some.
  intros [[<- <-]|[Hne H]]; [by rewrite lookup_insert_eq|].
  rewrite lookup_insert_ne by done. specialize (Hb _ _ H). unfold filled_of, order_at in Hb.
  cbn in Hb. rewrite Hb. f_equal. symmetry. apply sum_by_same. intros x Hx.
  rewrite lookup_insert_ne; [done|]. intros <-.
  destruct (Hk (o_id o) p) as [[? ?] _]; [apply Hlink; by exists l|congruence].
Qed.

(** A fresh identifier is nobody's child. *)
Lemma fresh_child m id :
  wf m -> orders_ m !! id = None ->
  child_to_parent_ m !! id = None /\
  forall p l, parent_to_children_ m !! p = Some l -> id ∉ l.
Proof.
  intros [_ _ _ Hlink _ Hk] Ho.
  assert (child_to_parent_ m !! id = None) as Hcp.
  { destruct (child_to_parent_ m !! id) as [p|] eqn:E; [|done].
    destruct (Hk _ _ E) as [[? ?] _]. congruence. }
  split; [done|]. intros p l Hl Hin.
  assert (child_to_parent_ m !! id = Some p) by (apply Hlink; by exists l). congruence.
Qed.

Lemma wf_track_child m pid o cs P :
  wf m -> orders_ m !! pid = Some P -> child_to_parent_ m !! pid = None ->
  parent_to_children_ m !! pid = Some cs ->
  orders_ m !! o_id o = None -> parent_to_children_ m !! o_id o = None ->
  wf (track_child_order m pid o).
Proof.
  intros Hw HP Hpid Hcs Ho Hc. destruct (fresh_child m (o_id o) Hw Ho) as [Hcp Hnew].
  destruct Hw as [Hids Hlev Hleaf Hlink Hnd Hk]. unfold track_child_order.
  destruct m as [os pc cp f1 f2 f3 st]; cbn in *. rewrite Hcs. cbn [default].
  assert (o_id o <> pid) as Hne by congruence.
  split; cbn.
  - intros id x. rewrite lookup_insert_Some. intros [[<- <-]|[_ H]]; auto.
  - intros c p. rewrite lookup_insert_Some. intros [[<- <-]|[_ H]].
    + by rewrite lookup_insert_ne.
    + rewrite lookup_insert_ne; [by eapply Hlev|]. intros <-.
       apply Hlink in H as (l & Hl & _). congruence.
  - intros c p. rewrite lookup_insert_Some. intros [[<- <-]|[_ H]].
    + by rewrite lookup_insert_ne.
    + rewrite lookup_insert_ne; [by eapply Hleaf|]. intros <-. congruence.
  - intros c p. rewrite lookup_insert_Some, Hlink. setoid_rewrite lookup_insert_Some. split.
    + intros [[<- <-]|[Hc' (l & Hl & Hin)]].
       -- exists (cs ++ [o_id o]). split; [by left|]. apply elem_of_app. right.
          by apply list_elem_of_singleton.
       -- destruct (decide (pid = p)) as [<-|Hp].
          ** exists (cs ++ [o_id o]). split; [by left|]. apply elem_of_app. left. congruence.
          ** exists l. auto.
    + intros (l & [[<- <-]|[Hp Hl]] & Hin).
       -- apply elem_of_app in Hin as [Hin|Hin%list_elem_of_singleton]; [|by left].
          right. split; [|by exists cs]. intros <-. by eapply Hnew.
       -- right. split; [|by exists l]. intros <-. by eapply Hnew.
  - intros p l. rewrite lookup_insert_Some. intros [[_ <-]|[_ H]]; [|eauto].
    apply NoDup_app. split_and!; [by eapply Hnd| |apply NoDup_singleton].
    intros x Hx ->%list_elem_of_singleton. by eapply Hnew.
  - intros c p. rewrite lookup_insert_Some, !lookup_insert_is_Some'.
    intros [[<- <-]|[_ H]]; [by eauto|]. destruct (Hk _ _ H). by auto.
Qed.

Lemma balanced_track_child m pid o cs :
  wf m -> balanced m -> parent_to_children_ m !! pid = Some cs ->
  orders_ m !! o_id o = None -> parent_to_children_ m !! o_id o = None ->
  o_filled_quantity o = 0 -> balanced (track_child_order m pid o).
Proof.
  intros Hw Hb Hcs Ho Hc Hf. destruct (fresh_child m (o_id o) Hw Ho) as [Hcp Hnew].
  unfold track_child_order.
  destruct m as [os pc cp f1 f2 f3 st]; cbn in *. rewrite Hcs. cbn [default].
  assert (forall x, filled_of (mk (<[o_id o:=o]> os) (<[pid:=cs ++ [o_id o]]> pc)
    (<[o_id o:=pid]> cp) f1 f2 f3 st) x =
    if decide (o_id o = x) then 0 else filled_of (mk os pc cp f1 f2 f3 st) x) as Hx.
  { intros x. rewrite (filled_of_insert _ os (o_id o) o) by done. by rewrite Hf. }
  assert (forall p l, pc !! p = Some l -> p <> o_id o ->
    filled_of (mk (<[o_id o:=o]> os) (<[pid:=cs ++ [o_id o]]> pc)
      (<[o_id o:=pid]> cp) f1 f2 f3 st) p =
    i64 (sum_by (filled_of (mk (<[o_id o:=o]> os) (<[pid:=cs ++ [o_id o]]> pc)
      (<[o_id o:=pid]> cp) f1 f2 f3 st)) l)) as Hold.
  { intros p l Hl Hp. rewrite Hx, decide_False by congruence. rewrite (Hb _ _ Hl). f_equal.
    symmetry. apply sum_by_same. intros x Hin. rewrite Hx, decide_False; [done|].
    intros <-. by eapply Hnew. }
  intros p l. cbn. rewrite lookup_insert_Some. intros [[<- <-]|[Hp H]].
  - rewrite sum_by_app, sum_by_cons, sum_by_nil, (Hold pid cs) by (done || congruence).
    rewrite (Hx (o_id o)), decide_True by done. f_equal; lia.
  - apply Hold; [done|congruence].
Qed.

Lemma wf_balanced_step m m' : wf m -> balanced m -> eh_step m m' -> wf m' /\ balanced m'.
Proof.
  intros Hw Hb Hs. destruct Hs as [m o Ho Hp Hf|m pid o [P HP] Hpid [cs Hcs] Ho Hc Hf
                                  |m report clk Hr|m].
  - split; [by apply wf_track_order|by apply balanced_track_order].
  - split; [by eapply wf_track_child|by eapply balanced_track_child].
  - split; [apply wf_report; [done|apply Hr]|by apply balanced_report].
  - by destruct m, Hw.
Qed.

(** The state and the effects of a report on a child. *)
Lemma report_child_eq m report clk pid event :
  wf m -> child_to_parent_ m !! r_order_id report = Some pid ->
  report_event (r_state report) = Some event ->
  exists C' P1 rr,
    let id := r_order_id report in
    let os1 := <[pid := P1]> (<[id := C']> (orders_ m)) in
    let P2 := parent2 rr P1 in
    let P3 := parent3 P2 clk in
    let complete := o_filled_quantity P2 >=? o_quantity P2 in
    rr = wants_reroute m os1 C' P1 /\ o_id P1 = pid /\ id <> pid /\
    orders_ (on_execution_report m report clk).1 = <[pid := P3]> (<[id := C']> (orders_ m)) /\
    exists fill, (fill = [] \/ fill = [FillCb C' report]) /\
    (on_execution_report m report clk).2 =
      fill ++ (if rr && reroute_callback_ m then [RerouteCb pid] else []) ++
      (if complete && completion_callback_ m then [CompletionCb P3] else []).
Proof.
  intros Hw Hc He. destruct (wf_known m Hw _ _ Hc) as [[C HC] [P HP]].
  assert (r_order_id report <> pid) as Hne.
  { intros E. pose proof (wf_levels m Hw _ _ Hc). congruence. }
  destruct (report_order_fields C event report clk) as (Ei & _ & _).
  rewrite (wf_ids m Hw _ _ HC) in Ei.
  unfold on_execution_report. rewrite HC, He.
  set (C' := report_order C event report clk) in *. clearbody C'.
  set (m1 := {m with orders_ ::= fun os => <[r_order_id report := C']> os}).
  change (child_to_parent_ m1) with (child_to_parent_ m). rewrite Ei, Hc.
  assert (orders_ m1 !! pid = Some P) as HP1.
  { change (orders_ m1) with (<[r_order_id report := C']> (orders_ m)).
    by rewrite lookup_insert_ne. }
  rewrite HP1, (child_branch_eq _ _ _ _ _ _ HP1).
  change (orders_ m1) with (<[r_order_id report := C']> (orders_ m)).
  set (P1 := parent1 P report clk).
  rewrite (order_at_insert_ne _ _ _ P1), order_at_insert by congruence.
  change (wants_reroute m1) with (wants_reroute m).
  set (rr := wants_reroute m _ C' P1).
  assert (o_id P = pid) as Hpid by (by apply (wf_ids m Hw)).
  assert (o_id P1 = pid) as Hp1 by (subst P1; by rewrite (proj1 (parent1_fields _ _ _))).
  exists C', P1, rr. cbv zeta.
  split_and!; [done|done|done|by destruct m|].
  change (reroute_callback_ m1) with (reroute_callback_ m).
  change (completion_callback_ m1) with (completion_callback_ m). rewrite Hpid.
  eexists. split; [|reflexivity].
  match goal with |- context [if ?b then _ else _] => destruct b end; [right|by left].
  destruct m; cbn. by rewrite order_at_insert_ne, order_at_insert by congruence.
Qed.

(** ** Properties *)

(** No fill is lost or counted twice between the levels: in any history of
    tracked parents and children and of reports whose cumulative quantity adds
    their last fill, in any order and interleaving over the families, the
    filled quantity of every parent is the sum of its children's (modulo 2^64,
    so exactly while quantities fit). *)
Theorem parent_fill_conservation m p cs :
  rtc eh_step create m -> parent_to_children_ m !! p = Some cs ->
  filled_of m p = i64 (sum_by (filled_of m) cs).
Proof.
  intros Hr Hcs. assert (wf m /\ balanced m) as [_ Hb]; [|by apply Hb].
  assert (wf create /\ balanced create) as Hi by (split; [apply wf_create|done]).
  revert Hi. induction Hr as [|x y z Hs _ IH]; [done|].
  intros [Hw Hb]. apply IH; [done|]. by eapply wf_balanced_step.
Qed.

Definition sample_parent : Order :=
  { default_Order with o_id := 1; o_quantity := 100; o_state := Accepted }.
Definition sample_child (id : OrderId) : Order :=
  { default_Order with o_id := id; o_parent_order_id := 1; o_quantity := 60;
    o_state := Accepted }.
Definition sample_report (id qty cum : Z) (s : OrderState) : ExecutionReport :=
  { default_ExecutionReport with r_order_id := id; r_state := s; r_last_price := 500;
    r_last_quantity := qty; r_cum_quantity := cum }.
Definition sample_clock : nat -> Timestamp := fun n => Z.of_nat n.

Definition two_children : t :=
  track_child_order (track_child_order (track_order create sample_parent) 1 (sample_child 2))
    1 (sample_child 3).

Lemma two_children_reached : rtc eh_step create two_children.
Proof.
  eapply rtc_l; [by apply (es_parent create sample_parent)|].
  eapply rtc_l; [by apply (es_child _ 1 (sample_child 2))|].
  eapply rtc_l; [by apply (es_child _ 1 (sample_child 3))|apply rtc_refl].
Defined.

Lemma parent_fill_conservation_witness :
  filled_of (on_execution_report two_children (sample_report 3 40 40 PartiallyFilled)
               sample_clock).1 1 = 40.
Proof.
  refine (eq_trans (parent_fill_conservation _ 1 [2; 3] _ _) _).
  - eapply rtc_r; [exact two_children_reached|].
    apply (es_report two_children (sample_report 3 40 40 PartiallyFilled) sample_clock).
    split_and!; [by eexists|vm_compute; discriminate|intros _; vm_compute; reflexivity].
  - vm_compute; reflexivity.
  - vm_compute; reflexivity.
Defined.

Lemma all_terminal_children m os pid P :
  wf m -> (forall c, c <> pid -> is_Some (orders_ m !! c) -> is_Some (os !! c)) ->
  all_terminal m (<[pid := P]> os) pid = true <->
  forall c, child_to_parent_ m !! c = Some pid -> is_terminal (order_at os c) = true.
Proof.
  intros Hw Hk. unfold all_terminal.
  assert (forall c, child_to_parent_ m !! c = Some pid -> c <> pid /\ is_Some (os !! c)) as Hc.
  { intros c Hc. pose proof (wf_known m Hw _ _ Hc) as [? _].
    assert (c <> pid) by (intros ->; pose proof (wf_levels m Hw _ _ Hc); congruence).
    split; [done|by apply Hk]. }
  destruct (parent_to_children_ m !! pid) as [cs|] eqn:E.
  - rewrite forallb_forall. setoid_rewrite <- list_elem_of_In. split.
    + intros H c Hcp. destruct (Hc c Hcp) as [Hne [o Ho]].
      apply (wf_links m Hw) in Hcp as (cs' & E' & Hin). assert (cs' = cs) as -> by congruence.
      specialize (H c Hin). rewrite lookup_insert_ne, Ho in H by done.
      unfold order_at. by rewrite Ho.
    + intros H c Hin. assert (child_to_parent_ m !! c = Some pid) as Hcp
        by (apply (wf_links m Hw); by exists cs).
      destruct (Hc c Hcp) as [Hne [o Ho]]. specialize (H c Hcp). unfold order_at in H.
      rewrite lookup_insert_ne by done. rewrite Ho in *. done.
  - split; [|done]. intros _ c Hcp. apply (wf_links m Hw) in Hcp as (cs & ? & _). congruence.
Qed.

Lemma effects_members fill C r (a b : bool) pid P :
  fill = [] \/ fill = [FillCb C r] ->
  let effects := fill ++ (if a then [RerouteCb pid] else []) ++
                 (if b then [CompletionCb P] else []) in
  (RerouteCb pid ∈ effects <-> a = true) /\
  (forall o, CompletionCb o ∈ effects <-> b = true /\ o = P).
Proof.
  intros Hf effects. unfold effects.
  destruct Hf as [-> | ->], a, b; cbn; (split; [|intros o]);
    rewrite ?elem_of_cons, ?elem_of_nil; intuition congruence.
Qed.

(** Rerouting and completion are decided exactly: after a report on a
    child of parent [pid], the reroute callback is requested iff it is set,
    the report ended that child without filling it, the parent is live with
    quantity still to fill, and no child of the parent is still working; the
    completion callback is requested (with the parent's final value, marked
    Filled) iff it is set and the parent's filled quantity reaches its
    quantity. *)
Theorem reroute_and_completion_exact m report clk pid event :
  wf m -> child_to_parent_ m !! r_order_id report = Some pid ->
  report_event (r_state report) = Some event ->
  let m' := (on_execution_report m report clk).1 in
  let effects := (on_execution_report m report clk).2 in
  let C := order_at (orders_ m') (r_order_id report) in
  let P := order_at (orders_ m') pid in
  0 <= o_quantity P <= INT64_MAX -> 0 <= o_filled_quantity P <= INT64_MAX ->
  (RerouteCb pid ∈ effects <->
     reroute_callback_ m = true /\ is_terminal C = true /\ o_state C <> Filled /\
     is_terminal P = false /\ o_filled_quantity P < o_quantity P /\
     forall c, child_to_parent_ m !! c = Some pid ->
       is_terminal (order_at (orders_ m') c) = true) /\
  (forall o, CompletionCb o ∈ effects <->
     completion_callback_ m = true /\ o = P /\ o_quantity P <= o_filled_quantity P /\
     o_state P = Filled).
Proof.
  intros Hw Hc He m' effects C P Hq Hf.
  destruct (report_child_eq m report clk pid event Hw Hc He)
    as (C' & P1 & rr & Err & Hp1 & Hne & Eo & fill & Hfill & Ee).
  fold m' effects in Eo, Ee.
  assert (C = C') as -> by (unfold C; rewrite Eo, order_at_insert_ne, order_at_insert by done; done).
  set (P2 := parent2 rr P1) in *.
  assert (P = parent3 P2 clk) as EP by (unfold P; by rewrite Eo, order_at_insert).
  destruct (parent3_fields P2 clk) as (_ & Q3 & F3 & S3). rewrite <- EP in Q3, F3, S3.
  destruct (parent2_fields rr P1) as (_ & Q2 & F2 & S2). fold P2 in Q2, F2, S2.
  rewrite Q3, F3 in *. rewrite Q2, F2 in *.
  assert (all_terminal m (<[pid := P1]> (<[r_order_id report := C']> (orders_ m))) pid = true <->
    forall c, child_to_parent_ m !! c = Some pid -> is_terminal (order_at (orders_ m') c) = true)
    as Hall.
  { rewrite all_terminal_children; [|done|].
    - split; intros H c Hcp; specialize (H c Hcp); revert H; rewrite Eo;
        (rewrite (order_at_insert_ne _ pid c) by
           (intros ->; pose proof (wf_levels m Hw _ _ Hcp); congruence)); done.
    - intros c _ Hk. apply lookup_insert_is_Some'. by right. }
  assert (is_terminal P = (o_quantity P1 <=? o_filled_quantity P1) || is_terminal P1) as HtP.
  { unfold is_terminal. rewrite S3, S2, Z.geb_leb. by destruct (_ <=? _). }
  destruct (effects_members fill C' report (rr && reroute_callback_ m)
    ((o_filled_quantity P1 >=? o_quantity P1) && completion_callback_ m) pid P Hfill) as [Hr Hcp].
  rewrite Ee, <- EP. split.
  - rewrite Hr, Err. unfold wants_reroute. rewrite Hp1, !andb_true_iff, Hall, !negb_true_iff.
    rewrite i64_id, Z.gtb_lt, bool_decide_eq_false, HtP, orb_false_iff, Z.leb_gt by mlia.
    intuition lia.
  - intros o. rewrite Hcp, andb_true_iff, S3, Z.geb_leb, Z.leb_le.
    destruct (Z.leb_spec (o_quantity P1) (o_filled_quantity P1)); intuition (done || lia).
Qed.

Definition working : t :=
  set_reroute_callback (set_completion_callback (set_fill_callback
    (on_execution_report two_children (sample_report 2 0 0 Canceled) sample_clock).1)).

Lemma reached_wf m : rtc eh_step create m -> wf m.
Proof.
  intros Hr. assert (wf create /\ balanced create) as Hi by (split; [apply wf_create|done]).
  revert Hi. induction Hr as [|x y z Hs _ IH]; [by intros []|].
  intros [Hw Hb]. apply IH. by eapply wf_balanced_step.
Qed.

Lemma working_wf : wf working.
Proof.
  apply reached_wf. eapply rtc_r; [eapply rtc_r; [exact two_children_reached|]|apply es_callbacks].
  apply (es_report two_children (sample_report 2 0 0 Canceled) sample_clock).
  split_and!; [by eexists|done|done].
Qed.

Lemma reroute_and_completion_exact_witness :
  RerouteCb 1 ∈ (on_execution_report working (sample_report 3 0 0 Canceled) sample_clock).2.
Proof.
  refine (proj2 (proj1 (reroute_and_completion_exact working (sample_report 3 0 0 Canceled)
    sample_clock 1 CancelAck working_wf _ _ _ _)) _).
  - reflexivity.
  - reflexivity.
  - vm_compute; intuition discriminate.
  - vm_compute; intuition discriminate.
  - split_and!; try (vm_compute; (done || discriminate)).
    intros c Hc. apply (wf_links working working_wf) in Hc as (cs & Hcs & Hin).
    vm_compute in Hcs. injection Hcs as <-.
    rewrite !elem_of_cons, elem_of_nil in Hin.
    destruct Hin as [-> |[-> |[]]]; vm_compute; done.
Defined.

(** A fill counts in the parent whether or not the state machine accepts
    it: a report with a positive last quantity on a child of [pid] adds that
    quantity to the parent even when the state of the child refuses the event
    of the report (a duplicate or late fill), so such a report is counted
    again. *)
Theorem refused_fill_still_counts m report clk pid C event :
  wf m -> child_to_parent_ m !! r_order_id report = Some pid ->
  orders_ m !! r_order_id report = Some C ->
  report_event (r_state report) = Some event ->
  OrderStateMachine.apply_state (o_state C) event = None ->
  0 < r_last_quantity report ->
  filled_of (on_execution_report m report clk).1 pid =
    filled_of m pid +! r_last_quantity report.
Proof.
  intros Hw Hc HC He _ Hq.
  destruct (report_child_orders m report clk pid Hw Hc)
    as (_ & _ & [[En _]|(C1 & P & C' & P' & _ & HP & Eo & _ & _ & _ & Ef)]); [congruence|].
  rewrite (filled_of_insert _ _ _ _ pid Eo), decide_True, Ef by done.
  unfold parent_filled, filled_of, order_at. rewrite HP.
  by rewrite (proj2 (Z.gtb_lt _ _)).
Qed.

(** A child that is already completely filled. *)
Definition filled_once : t :=
  (on_execution_report two_children (sample_report 3 60 60 Filled) sample_clock).1.

Lemma refused_fill_still_counts_witness :
  filled_of (on_execution_report filled_once (sample_report 3 60 120 Filled) sample_clock).1 1
    = 120.
Proof.
  refine (refused_fill_still_counts filled_once (sample_report 3 60 120 Filled) sample_clock 1
    (order_at (orders_ filled_once) 3) Fill _ _ _ _ _ _).
  - apply reached_wf. eapply rtc_r; [exact two_children_reached|].
    apply (es_report two_children (sample_report 3 60 60 Filled) sample_clock).
    split_and!; [by eexists|vm_compute; discriminate|done].
  - vm_compute; reflexivity.
  - vm_compute; reflexivity.
  - reflexivity.
  - vm_compute; reflexivity.
  - reflexivity.
Defined.
