(* ===== verification/Strategy.v ===== *)
(** * Routing strategies: common types and BestPrice
    (sor/routing/strategy.h, best_price.h, best_price.cpp)

    [RoutingStrategy] is the abstract class of the code: an operation that
    turns an order, the market and the venue scores into a decision and the
    strategy's next state.  Its law, that slices go to available venues with
    positive quantities, is what the routing engine relies on; every strategy
    is an instance. *)

From S2P Require Import Prelude Double Types Book Aggregator.

(** ** Common types *)

Record Slice := mkSlice {
  sl_venue_id : VenueId;
  sl_price : Price;
  sl_quantity : Quantity;
  sl_type : OrderType;
  sl_tif : TimeInForce
}.

Definition RoutingDecision := list Slice.

(** [valid()] and [total_quantity()] *)
Definition decision_valid (d : RoutingDecision) : bool := negb (bool_decide (d = [])).

Definition decision_total_quantity (d : RoutingDecision) : Quantity :=
  fold_left (fun total s => total +! sl_quantity s) d 0.

#[export] Instance Slice_eq_dec : EqDecision Slice.
Proof. solve_decision. Defined.

Record VenueScore := mkScore {
  vs_venue_id : VenueId;
  latency_us : double;
  fill_rate : double;
  fee_rate : double;
  fee_adjusted_price : Price;
  is_available : bool
}.

(** The lookup loop of the strategies: the first available score of a venue. *)
Definition find_score (venues : list VenueScore) (venue : VenueId) : option VenueScore :=
  List.find (fun vs => (vs_venue_id vs =? venue) && is_available vs) venues.

(** The side of the book an order takes from, down to its depth. *)
Definition side_levels (side : Side) (book : AggregatedBook) : list AggregatedLevel :=
  match side with
  | Buy => take (ask_depth book) (ab_asks book)
  | Sell => take (bid_depth book) (ab_bids book)
  end.

(** [level.venue_breakdown[0 .. venue_count)] *)
Definition level_venues (level : AggregatedLevel) : list VenueQuantity :=
  take (venue_count level) (venue_breakdown level).

(** The guard [price == INVALID_PRICE || total_quantity <= 0] of the loops. *)
Definition skip_level (level : AggregatedLevel) : bool :=
  (al_price level =? INVALID_PRICE) || (total_quantity level <=? 0).

(** What a decision must satisfy for the engine. *)
Definition slice_ok (venues : list VenueScore) (s : Slice) : Prop :=
  is_Some (find_score venues (sl_venue_id s)) /\ 0 < sl_quantity s.

(** The readings of [steady_clock::now()] in one call, by call site. *)
Definition Clock : Type := nat -> Timestamp.

Class RoutingStrategy (S : Type) := {
  rs_name : string;
  rs_tag : RoutingStrategyTag;
  rs_route : S -> Order -> NBBO.t -> AggregatedBook -> list VenueScore -> Clock ->
             RoutingDecision * S;
  rs_ok : S -> Prop;
  rs_route_ok : forall s o n b vs now, rs_ok s -> Forall (slice_ok vs) (rs_route s o n b vs now).1;
  rs_route_next : forall s o n b vs now, rs_ok s -> rs_ok (rs_route s o n b vs now).2
}.

(** ** Slices from accumulated allocations

    LiquiditySweep and SmartIOC end with the same two loops: the entries of an
    [unordered_map] of allocations become at most [MAX_SLICES] slices, which
    are then sorted by price, best first. *)

Definition MAX_SLICES : nat := 10.

Definition collect_slices {A} (drop : A -> bool) (make : VenueId -> A -> Slice)
    (entries : list (VenueId * A)) : list Slice :=
  fold_left (fun slices '(vid, a) =>
    if drop a then slices
    else if (MAX_SLICES <=? length slices)%nat then slices
    else slices ++ [make vid a]) entries [].

Definition sort_slices `{!StdSort} (side : Side) (slices : list Slice) : list Slice :=
  match side with
  | Buy => std_sort (fun a b => sl_price a <? sl_price b) slices
  | Sell => std_sort (fun a b => sl_price a >? sl_price b) slices
  end.

(** [venue_index.count(id)]: the map holds the available venues. *)
Definition indexed (venues : list VenueScore) (venue : VenueId) : bool :=
  existsb (fun vs => is_available vs && (vs_venue_id vs =? venue)) venues.

Lemma indexed_find venues venue : indexed venues venue = true <-> is_Some (find_score venues venue).
Proof.
  unfold indexed, find_score. induction venues as [|vs venues IH]; cbn.
  - split; [done|]. by intros [].
  - destruct (is_available vs), (vs_venue_id vs =? venue); cbn; [|done..].
    split; [by eexists|done].
Qed.

Lemma collect_slices_take {A} (drop : A -> bool) make (entries : list (VenueId * A)) :
  collect_slices drop make entries =
  take MAX_SLICES ((fun e => make e.1 e.2) <$> List.filter (fun e => negb (drop e.2)) entries).
Proof.
  unfold collect_slices.
  assert (forall acc, (length acc <= MAX_SLICES)%nat ->
    fold_left (fun slices '(vid, a) =>
      if drop a then slices
      else if (MAX_SLICES <=? length slices)%nat then slices
      else slices ++ [make vid a]) entries acc =
    take MAX_SLICES (acc ++ ((fun e => make e.1 e.2) <$>
      List.filter (fun e => negb (drop e.2)) entries))) as H; [|apply H; cbn; lia].
  induction entries as [|[vid a] entries IH]; intros acc Hacc; cbn [fold_left List.filter snd].
  - cbn [fmap list_fmap]. by rewrite app_nil_r, take_ge.
  - destruct (drop a); cbn [negb]; [by apply IH|].
    destruct (Nat.leb_spec MAX_SLICES (length acc)) as [Hf|Hf].
    + rewrite IH by done. by rewrite !take_app_le, !take_ge by lia.
    + rewrite IH by (rewrite length_app; cbn [length]; lia).
      by rewrite <- app_assoc.
Qed.

Lemma collect_length {A} (drop : A -> bool) make es :
  (length (collect_slices drop make es) <= MAX_SLICES)%nat.
Proof. rewrite collect_slices_take, length_take. lia. Qed.

Section collect_map.
Context `{!UnorderedMap} {A : Type}.
Variables (drop : A -> bool) (make : VenueId -> A -> Slice) (m : gmap VenueId A).

Lemma map_entries_elem k a : (k, a) ∈ map_entries m <-> m !! k = Some a.
Proof. rewrite map_entries_perm. apply elem_of_map_to_list. Qed.

Lemma map_entries_NoDup : NoDup ((map_entries m).*1).
Proof. rewrite map_entries_perm. apply NoDup_fst_map_to_list. Qed.

Lemma collect_members s :
  s ∈ collect_slices drop make (map_entries m) ->
  exists k a, m !! k = Some a /\ drop a = false /\ s = make k a.
Proof.
  rewrite collect_slices_take. intros Hs.
  eapply elem_of_sublist in Hs; [|apply sublist_take].
  apply list_elem_of_fmap in Hs as ([k a] & -> & Hin).
  apply list_elem_of_In, filter_In in Hin as [Hin Hd%negb_true_iff].
  apply list_elem_of_In, map_entries_elem in Hin. by exists k, a.
Qed.

(** The slices hold at most the mapped quantities, all of them when nothing is
    dropped and the entries are few. *)
Lemma sum_collect_le (qty : A -> Z) :
  (forall k a, sl_quantity (make k a) = qty a) ->
  (forall k a, m !! k = Some a -> 0 <= qty a) ->
  sum_by sl_quantity (collect_slices drop make (map_entries m)) <= msum qty m.
Proof.
  intros Hmk Hp. rewrite collect_slices_take. unfold msum.
  rewrite <- (map_entries_perm _ m).
  assert (Forall (fun e : Z * A => 0 <= qty e.2) (map_entries m)) as He.
  { apply Forall_forall. intros [k a] Hin%map_entries_elem. by eapply Hp. }
  revert He. generalize (map_entries m). intros es He.
  etransitivity; [apply (sum_by_sublist_le sl_quantity _ _ (sublist_take _ _))|].
  - rewrite Forall_fmap. apply Forall_forall. intros e Hin%list_elem_of_In%filter_In.
    rewrite Forall_forall in He. cbn. rewrite Hmk. apply He, list_elem_of_In, Hin.
  - induction He as [|e es He0 _ IH]; cbn [List.filter]; [done|].
    destruct (negb (drop e.2)); rewrite ?fmap_cons, !sum_by_cons, ?Hmk; lia.
Qed.

Lemma sum_collect_eq (qty : A -> Z) :
  (forall k a, sl_quantity (make k a) = qty a) ->
  (forall k a, m !! k = Some a -> drop a = false) ->
  (length (map_entries m) <= MAX_SLICES)%nat ->
  sum_by sl_quantity (collect_slices drop make (map_entries m)) = msum qty m.
Proof.
  intros Hmk Hd Hl. rewrite collect_slices_take. unfold msum.
  rewrite <- (map_entries_perm _ m).
  assert (Forall (fun e : Z * A => drop e.2 = false) (map_entries m)) as He.
  { apply Forall_forall. intros [k a] Hin%map_entries_elem. by eapply Hd. }
  assert (List.filter (fun e : Z * A => negb (drop e.2)) (map_entries m) = map_entries m) as ->.
  { clear Hl. induction He as [|e es He0 _ IH]; cbn [List.filter]; [done|]. by rewrite He0, IH. }
  rewrite take_ge by (rewrite length_fmap; exact Hl).
  generalize (map_entries m). intros es. induction es as [|e es IH]; [done|].
  by rewrite fmap_cons, !sum_by_cons, Hmk, IH.
Qed.

Lemma collect_NoDup :
  (forall k a, m !! k = Some a -> sl_venue_id (make k a) = k) ->
  NoDup (sl_venue_id <$> collect_slices drop make (map_entries m)).
Proof.
  intros Hid. rewrite collect_slices_take, fmap_take.
  eapply sublist_NoDup; [|apply sublist_take].
  pose proof map_entries_NoDup as Hn.
  assert (forall e, e ∈ map_entries m -> sl_venue_id (make e.1 e.2) = e.1) as Hid'.
  { intros [k a] Hin%map_entries_elem. by apply Hid. }
  clear Hid. revert Hn Hid'. generalize (map_entries m). intros es Hn Hid.
  rewrite <- list_fmap_compose.
  eapply sublist_NoDup; [exact Hn|]. clear Hn.
  induction es as [|e es IH]; cbn [List.filter]; [constructor|].
  assert (forall e0, e0 ∈ es -> sl_venue_id (make e0.1 e0.2) = e0.1) as Hid'
    by (intros; apply Hid; by right).
  destruct (negb (drop e.2)); rewrite ?fmap_cons.
  - cbn. rewrite Hid by left. by apply sublist_skip, IH.
  - by apply sublist_cons, IH.
Qed.

(** A map keyed by venues of the list has at most as many entries. *)
Lemma map_entries_length (vs : list VenueScore) :
  (forall k a, m !! k = Some a -> is_Some (find_score vs k)) ->
  (length (map_entries m) <= length vs)%nat.
Proof.
  intros Hk. rewrite <- (length_fmap fst (map_entries m)), <- (length_fmap vs_venue_id vs).
  apply submseteq_length, NoDup_submseteq; [apply map_entries_NoDup|].
  intros k ([k' a] & -> & Hin%map_entries_elem)%list_elem_of_fmap.
  apply Hk in Hin as [s Hs]. apply find_some in Hs as [Hin [Hv%Z.eqb_eq _]%andb_true_iff].
  apply list_elem_of_fmap. exists s. cbn. split; [done|]. by apply list_elem_of_In.
Qed.

End collect_map.

Lemma leaves_range o : in_i64 (leaves_qty o).
Proof. apply i64_range. Qed.

Lemma sort_slices_perm `{!StdSort} side slices : sort_slices side slices ≡ₚ slices.
Proof. destruct side; apply std_sort_perm. Qed.

(** [a] is at least as good a price as [b] to take from. *)
Definition price_ok (side : Side) (a b : Price) : Prop :=
  match side with Buy => a <= b | Sell => b <= a end.

Lemma sort_slices_sorted `{!StdSort} side slices :
  StronglySorted (fun a b => price_ok side (sl_price a) (sl_price b)) (sort_slices side slices).
Proof.
  assert (forall (R R' : Slice -> Slice -> Prop) l,
    (forall a b, R a b -> R' a b) -> StronglySorted R l -> StronglySorted R' l) as Himp.
  { intros R R' l Hi. induction 1; constructor; [done|].
    eapply Forall_impl; [done|]. intros b. apply Hi. }
  destruct side; cbn; (eapply Himp; [|apply std_sort_sorted, _]); cbn;
    intros a b Hab; rewrite ?Z.gtb_ltb, ?Z.ltb_ge in Hab; lia.
Qed.

Lemma decision_total_sum d :
  decision_total_quantity d = i64 (sum_by sl_quantity d).
Proof.
  unfold decision_total_quantity.
  assert (forall n, fold_left (fun total s => total +! sl_quantity s) d (i64 n) =
                    i64 (n + sum_by sl_quantity d)) as H; [|by apply (H 0)].
  induction d as [|s d IH]; intros n; cbn; [by rewrite sum_by_nil, Z.add_0_r|].
  rewrite i64_add_l, IH, sum_by_cons. by rewrite Z.add_assoc.
Qed.

(** ** BestPrice *)

Module BestPriceStrategy.

Definition d_one : double := d_of_Z 1.

Definition fee_adjusted (raw_price : Price) (fee : double) (side : Side) : Price :=
  if raw_price =? INVALID_PRICE then INVALID_PRICE
  else
    let raw := to_double raw_price in
    match side with
    | Buy => to_price (dmul raw (dadd d_one fee))
    | Sell => to_price (dmul raw (dsub d_one fee))
    end.

Definition compute_venue_quality (vs : VenueScore) : double :=
  let kLatencyBaseline := d_of_Z 1000 in
  let latency_score :=
    ddiv kLatencyBaseline
         (if dgtb (latency_us vs) (d_of_Z 0) then latency_us vs else kLatencyBaseline) in
  dadd (dmul (d_lit 7 1) (fill_rate vs)) (dmul (d_lit 3 1) latency_score).

Record Candidate := mkCandidate {
  cd_venue_id : VenueId;
  fee_adj_price : Price;
  raw_price : Price;
  quality : double;
  available : Quantity;
  found : bool
}.

Definition no_candidate : Candidate :=
  mkCandidate 0 INVALID_PRICE INVALID_PRICE (d_of_Z (-1)) 0 false.

(** [a] is a strictly better fee-adjusted price than [b] for the side. *)
Definition better_price (side : Side) (a b : Price) : bool :=
  match side with Buy => a <? b | Sell => a >? b end.

Definition is_better (side : Side) (adj : Price) (q : double) (best : Candidate) : bool :=
  if negb (found best) then true
  else if better_price side adj (fee_adj_price best) then true
  else (adj =? fee_adj_price best) && dgtb q (quality best).

(** The body of the inner loop, for one venue at one level. *)
Definition consider (side : Side) (venues : list VenueScore) (level : AggregatedLevel)
    (best : Candidate) (vq : VenueQuantity) : Candidate :=
  if vq_quantity vq <=? 0 then best
  else match find_score venues (vq_venue vq) with
  | None => best
  | Some score =>
      let adj := fee_adjusted (al_price level) (fee_rate score) side in
      let q := compute_venue_quality score in
      if is_better side adj q best
      then mkCandidate (vq_venue vq) adj (al_price level) q (vq_quantity vq) true
      else best
  end.

Definition scan_level (side : Side) (venues : list VenueScore) (best : Candidate)
    (level : AggregatedLevel) : Candidate :=
  if skip_level level then best
  else fold_left (consider side venues level) (level_venues level) best.

Definition route (order : Order) (nbbo : NBBO.t) (book : AggregatedBook)
    (venues : list VenueScore) : RoutingDecision :=
  if bool_decide (venues = []) || negb (NBBO.valid nbbo) then []
  else
    let qty := leaves_qty order in
    if qty <=? 0 then []
    else
      let best := fold_left (scan_level (o_side order) venues)
                    (side_levels (o_side order) book) no_candidate in
      if found best
      then [mkSlice (cd_venue_id best) (raw_price best) qty (o_type order) (o_tif order)]
      else [].

(** ** The offers the scan looks at *)

(** A quote of an available venue: its level, its quantity and its score. *)
Definition offer : Type := (AggregatedLevel * VenueQuantity * VenueScore)%type.

Definition offers (side : Side) (book : AggregatedBook) (venues : list VenueScore) : list offer :=
  level ← side_levels side book;
  if skip_level level then []
  else vq ← level_venues level;
       if vq_quantity vq <=? 0 then []
       else match find_score venues (vq_venue vq) with
            | None => [] | Some score => [(level, vq, score)]
            end.

Definition offer_adj (side : Side) (o : offer) : Price :=
  fee_adjusted (al_price o.1.1) (fee_rate o.2) side.

Definition take_offer (side : Side) (best : Candidate) (o : offer) : Candidate :=
  let q := compute_venue_quality o.2 in
  if is_better side (offer_adj side o) q best
  then mkCandidate (vq_venue o.1.2) (offer_adj side o) (al_price o.1.1) q
                   (vq_quantity o.1.2) true
  else best.

Lemma scan_offers side book venues best :
  fold_left (scan_level side venues) (side_levels side book) best =
  fold_left (take_offer side) (offers side book venues) best.
Proof.
  unfold offers. rewrite <- fold_left_bind. revert best.
  induction (side_levels side book) as [|level ls IH]; intros best; cbn [fold_left]; [done|].
  rewrite IH. f_equal. unfold scan_level. destruct (skip_level level); [done|].
  rewrite <- fold_left_bind. clear IH. revert best.
  induction (level_venues level) as [|vq vqs IH]; intros best; cbn [fold_left]; [done|].
  rewrite IH. f_equal. unfold consider. destruct (vq_quantity vq <=? 0); [done|].
  by destruct (find_score venues (vq_venue vq)).
Qed.

(** The candidate is one of the offers seen and none of them beats its price. *)
Definition best_of_offers (side : Side) (best : Candidate) (seen : list offer) : Prop :=
  (found best = false /\ seen = []) \/
  (found best = true /\
   (exists o, o ∈ seen /\ cd_venue_id best = vq_venue o.1.2 /\
      raw_price best = al_price o.1.1 /\ fee_adj_price best = offer_adj side o /\
      available best = vq_quantity o.1.2) /\
   forall o, o ∈ seen -> better_price side (offer_adj side o) (fee_adj_price best) = false).

Lemma take_offer_best side best seen o :
  best_of_offers side best seen -> best_of_offers side (take_offer side best o) (seen ++ [o]).
Proof.
  intros H. right. unfold take_offer, is_better.
  assert (forall a, better_price side a a = false) as Hirr
    by (intros a; destruct side; cbn; rewrite ?Z.gtb_ltb; apply Z.ltb_irrefl).
  destruct H as [[Hf ->]|(Hf & (o1 & Ho1 & Hb) & Hmax)]; rewrite Hf; cbn [negb].
  - cbn. split_and!; [done| |].
    + exists o. split; [by apply list_elem_of_singleton|done].
    + intros o' ->%list_elem_of_singleton. apply Hirr.
  - assert (forall b : bool, b = true ->
      better_price side (fee_adj_price best) (offer_adj side o) = false ->
      let c := mkCandidate (vq_venue o.1.2) (offer_adj side o) (al_price o.1.1)
                 (compute_venue_quality o.2) (vq_quantity o.1.2) true in
      found c = true /\
      (exists o0, o0 ∈ seen ++ [o] /\ cd_venue_id c = vq_venue o0.1.2 /\
         raw_price c = al_price o0.1.1 /\ fee_adj_price c = offer_adj side o0 /\
         available c = vq_quantity o0.1.2) /\
      forall o0, o0 ∈ seen ++ [o] ->
        better_price side (offer_adj side o0) (fee_adj_price c) = false) as Hnew.
    { intros _ _ Hge c. cbn. split_and!; [done| |].
      - exists o. split; [|done]. apply elem_of_app. right. by apply list_elem_of_singleton.
      - intros o0 [Ho| ->%list_elem_of_singleton]%elem_of_app; [|apply Hirr].
        specialize (Hmax o0 Ho). revert Hmax Hge.
        destruct side; cbn; rewrite ?Z.gtb_ltb, !Z.ltb_ge; lia. }
    assert (forall x y, better_price side x y = true -> better_price side y x = false) as Hasym
      by (intros x y; destruct side; cbn; rewrite ?Z.gtb_ltb, Z.ltb_lt, Z.ltb_ge; lia).
    destruct (better_price side (offer_adj side o) (fee_adj_price best)) eqn:E.
    + by apply (Hnew true), Hasym.
    + destruct (_ && _) eqn:E2.
      * apply andb_true_iff in E2 as [E2%Z.eqb_eq _]. apply (Hnew true); [done|].
        rewrite E2. apply Hirr.
      * split_and!; [done| |].
        -- exists o1. split; [|done]. apply elem_of_app. by left.
        -- intros o0 [Ho| ->%list_elem_of_singleton]%elem_of_app; [by apply Hmax|done].
Qed.

Lemma scan_best side book venues :
  best_of_offers side
    (fold_left (scan_level side venues) (side_levels side book) no_candidate)
    (offers side book venues).
Proof.
  rewrite scan_offers. apply (fold_left_inv (take_offer side) (best_of_offers side)).
  - by left.
  - intros best seen o _. apply take_offer_best.
Qed.

Lemma offers_available side book venues o :
  o ∈ offers side book venues ->
  find_score venues (vq_venue o.1.2) = Some o.2 /\ 0 < vq_quantity o.1.2 /\
  o.1.1 ∈ side_levels side book /\ o.1.2 ∈ level_venues o.1.1.
Proof.
  unfold offers. intros (level & H & Hl)%list_elem_of_bind.
  destruct (skip_level level); [by inversion H|].
  apply list_elem_of_bind in H as (vq & H & Hv).
  destruct (Z.leb_spec (vq_quantity vq) 0); [by inversion H|].
  destruct (find_score venues (vq_venue vq)) eqn:E; [|by inversion H].
  apply list_elem_of_singleton in H as ->. cbn. auto.
Qed.

Lemma best_price_slices_ok o n b vs : Forall (slice_ok vs) (route o n b vs).
Proof.
  unfold route. destruct (_ || _); [constructor|].
  destruct (Z.leb_spec (leaves_qty o) 0) as [|Hq]; [constructor|].
  pose proof (scan_best (o_side o) b vs) as H.
  destruct (found _) eqn:E; [|constructor].
  destruct H as [[H _]|(_ & (x & Hx & Hv & _) & _)]; [congruence|].
  constructor; [|constructor]. split; cbn; [|lia].
  rewrite Hv. apply offers_available in Hx as (-> & _). by eexists.
Qed.

End BestPriceStrategy.

#[export] Instance best_price_strategy : RoutingStrategy unit := {
  rs_name := "BestPrice";
  rs_tag := RS_BestPrice;
  rs_route s o n b vs now := (BestPriceStrategy.route o n b vs, s);
  rs_ok _ := True;
  rs_route_ok s o n b vs now _ := BestPriceStrategy.best_price_slices_ok o n b vs;
  rs_route_next s o n b vs now H := H
}.

Import BestPriceStrategy.

(** C39. BestPrice is optimal and total: with a valid NBBO, scores and a
    quantity left, it sends the whole leaves quantity in one slice to an
    available venue that quotes that price, and no quote of an available venue
    anywhere in the book has a strictly better fee-adjusted price for the
    order's side; it returns nothing exactly when no available venue quotes
    that side. *)
Theorem best_price_optimal o n b vs :
  vs <> [] -> NBBO.valid n = true -> 0 < leaves_qty o ->
  let quotes := offers (o_side o) b vs in
  (route o n b vs = [] <-> quotes = []) /\
  (quotes <> [] ->
   exists q, q ∈ quotes /\
     route o n b vs = [mkSlice (vq_venue q.1.2) (al_price q.1.1) (leaves_qty o)
                               (o_type o) (o_tif o)] /\
     forall q', q' ∈ quotes ->
       better_price (o_side o) (offer_adj (o_side o) q') (offer_adj (o_side o) q) = false).
Proof.
  intros Hvs Hn Hq quotes. unfold route.
  rewrite bool_decide_eq_false_2, Hn by done. cbn [orb negb].
  rewrite (proj2 (Z.leb_gt _ _)) by done.
  pose proof (scan_best (o_side o) b vs) as Hs. fold quotes in Hs. clearbody quotes.
  destruct Hs as [[Hf ->]|(Hf & (q & Hin & Ev & Ep & Ea & _) & Hmax)]; rewrite Hf.
  - by split.
  - split; [split; [done|intros E; rewrite E in Hin; by inversion Hin]|].
    intros _. exists q. rewrite <- Ev, <- Ep, <- Ea. done.
Qed.

Definition sample_score (venue : VenueId) (fee : double) : VenueScore :=
  mkScore venue (d_of_Z 500) (d_lit 9 1) fee 0 true.

Definition sample_level (p : Price) (vqs : list VenueQuantity) : AggregatedLevel :=
  mkAgg p (sum_by vq_quantity vqs)
    (vqs ++ replicate (MAX_VENUES_PER_LEVEL - length vqs) (mkVQ 0 0)) (length vqs).

Definition sample_agg_book : AggregatedBook :=
  mkAggBook (Symbol_of "AAPL") NBBO.default_NBBO
    [sample_level 9900000000 [mkVQ 1 50]]
    [sample_level 10000000000 [mkVQ 1 30; mkVQ 2 40]; sample_level 10100000000 [mkVQ 2 100]]
    1 2.

Definition sample_nbbo : NBBO.t := NBBO.mk 9900000000 50 1 10000000000 70 1 5.

Definition sample_scores : list VenueScore :=
  [sample_score 1 (d_lit 3 3); sample_score 2 (d_lit 1 3)].

Definition sample_buy (p q : Z) : Order :=
  { default_Order with o_id := 7; o_symbol := Symbol_of "AAPL"; o_side := Buy;
    o_price := p; o_quantity := q }.

Lemma best_price_optimal_witness :
  route (sample_buy 9950000000 80) sample_nbbo sample_agg_book sample_scores =
    [mkSlice 2 10000000000 80 OT_Limit TIF_GTC] /\
  route (sample_buy 9950000000 80) sample_nbbo sample_agg_book sample_scores <> [].
Proof.
  split; [vm_compute; reflexivity|].
  intros H. apply (proj1 (best_price_optimal (sample_buy 9950000000 80) sample_nbbo
    sample_agg_book sample_scores ltac:(discriminate) eq_refl eq_refl)) in H.
  vm_compute in H. discriminate.
Defined.
