(* ===== verification/Sweep.v ===== *)
(** * LiquiditySweep (sor/routing/liquidity_sweep.h, liquidity_sweep.cpp)

    Walk the levels in price order, give each venue of a level its pro-rata
    share (computed in floating point), assign the rounding remainder of the
    level, and merge the allocations into one slice per venue.  None of the
    theorems needs the floating-point share to be accurate: the clamps around
    it are what make the allocation conserve quantity. *)

From S2P Require Import Prelude Double Types Book Aggregator Strategy.

Module LiquiditySweepStrategy.

Definition DEFAULT_MIN_SLICE_QTY : Quantity := 1.

Record t := mk { min_slice_quantity_ : Quantity }.

Definition create : t := mk DEFAULT_MIN_SLICE_QTY.
Definition set_min_slice_quantity (s : t) (qty : Quantity) : t :=
  { s with min_slice_quantity_ := qty }.

Record VenueAlloc := mkAlloc {
  va_venue_id : VenueId;
  worst_price : Price;
  total_qty : Quantity
}.

Abbreviation Allocs := (gmap VenueId VenueAlloc) (only parsing).

(** [auto &alloc = allocations[venue]] and the three assignments. *)
Definition allocate (allocs : Allocs) (venue : VenueId) (p : Price) (qty : Quantity) : Allocs :=
  <[venue := mkAlloc venue p
      (default 0 (total_qty <$> allocs !! venue) +! qty)]> allocs.

Section sweep.
Context (min_slice : Quantity) (venues : list VenueScore).

Definition usable (vq : VenueQuantity) : bool :=
  (vq_quantity vq >? 0) && indexed venues (vq_venue vq).

Definition level_available (level : AggregatedLevel) : Quantity :=
  fold_left (fun total vq => if usable vq then total +! vq_quantity vq else total)
    (level_venues level) 0.

(** The pro-rata share with its two clamps. *)
Definition venue_share (avail fill allocated : Quantity) (vq : VenueQuantity) : Quantity :=
  let share :=
    if avail >? 0
    then i64_of_d (dmul (ddiv (d_of_Z (vq_quantity vq)) (d_of_Z avail)) (d_of_Z fill))
    else 0 in
  Z.min (Z.min share (vq_quantity vq)) (fill -! allocated).

(** One venue of a level: the allocations and [level_allocated]. *)
Definition share_step (level : AggregatedLevel) (avail fill : Quantity)
    (st : Allocs * Quantity) (vq : VenueQuantity) : Allocs * Quantity :=
  let '(allocs, allocated) := st in
  if negb (allocated <? fill) then st
  else if negb (usable vq) then st
  else
    let share := venue_share avail fill allocated vq in
    if (share <? min_slice) && (share <? fill -! allocated) then st
    else (allocate allocs (vq_venue vq) (al_price level) share, allocated +! share).

(** The venue with the most liquidity, and its quantity; 0 when none. *)
Definition best_venue (level : AggregatedLevel) : VenueId * Quantity :=
  fold_left (fun '(best, qty) vq =>
    if (vq_quantity vq >? qty) && indexed venues (vq_venue vq)
    then (vq_venue vq, vq_quantity vq) else (best, qty))
    (level_venues level) (0, 0).

Definition remainder_step (level : AggregatedLevel) (fill : Quantity)
    (st : Allocs * Quantity) : Allocs * Quantity :=
  let '(allocs, allocated) := st in
  if allocated <? fill then
    let remainder := fill -! allocated in
    let best := (best_venue level).1 in
    if negb (best =? 0)
    then (allocate allocs best (al_price level) remainder, allocated +! remainder)
    else st
  else st.

(** One level: the allocations and the quantity still to place. *)
Definition level_step (st : Allocs * Quantity) (level : AggregatedLevel) : Allocs * Quantity :=
  let '(allocs, remaining) := st in
  if negb (remaining >? 0) then st
  else if skip_level level then st
  else
    let avail := level_available level in
    if avail <=? 0 then st
    else
      let fill := Z.min remaining avail in
      let '(allocs, allocated) :=
        remainder_step level fill
          (fold_left (share_step level avail fill) (level_venues level) (allocs, 0)) in
      (allocs, remaining -! allocated).

Definition sweep (levels : list AggregatedLevel) (qty : Quantity) : Allocs * Quantity :=
  fold_left level_step levels (∅, qty).

(** ** Allocation invariants *)

(** Every entry is positive, sits under its own key and at an available venue. *)
Definition allocs_ok (allocs : Allocs) : Prop :=
  forall k a, allocs !! k = Some a ->
    va_venue_id a = k /\ 0 < total_qty a /\ indexed venues k = true.

Lemma allocate_ok allocs venue p qty :
  allocs_ok allocs -> indexed venues venue = true -> 0 < qty ->
  msum total_qty allocs + qty <= INT64_MAX ->
  allocs_ok (allocate allocs venue p qty) /\
  msum total_qty (allocate allocs venue p qty) = msum total_qty allocs + qty.
Proof.
  intros Hok Hv Hq Hmax.
  destruct (msum_add total_qty allocs venue (mkAlloc venue p
    (default 0 (total_qty <$> allocs !! venue) +! qty)) qty) as (_ & Hpos & Hsum);
    [by intros k a Ha; apply Hok in Ha as (_ & ? & _)|done..|].
  split; [|exact Hsum]. intros k a. unfold allocate. rewrite lookup_insert_Some.
  intros [[<- <-]|[_ Ha]]; [done|by apply Hok].
Qed.

(** The state inside a level that has [fill] to place, [base] already placed. *)
Definition level_inv (base fill : Quantity) (st : Allocs * Quantity) : Prop :=
  allocs_ok st.1 /\ 0 <= st.2 <= fill /\ msum total_qty st.1 = base + st.2.

Lemma usable_indexed vq : usable vq = true -> indexed venues (vq_venue vq) = true.
Proof. by intros [_ ?]%andb_true_iff. Qed.

Lemma share_step_inv base level avail fill st vq :
  0 < min_slice -> 0 <= base -> base + fill <= INT64_MAX ->
  level_inv base fill st -> level_inv base fill (share_step level avail fill st vq).
Proof.
  intros Hm Hb Hbf (Hok & Ha & Hs). destruct st as [allocs a]. cbn in *.
  unfold share_step. destruct (Z.ltb_spec a fill); cbn [negb]; [|done].
  destruct (usable vq) eqn:Eu; cbn [negb]; [|done].
  set (share := venue_share avail fill a vq).
  assert (share <= fill - a) as Hle.
  { subst share. unfold venue_share. rewrite (i64_id (fill - a)) by mlia. lia. }
  rewrite (i64_id (fill - a)) by mlia.
  destruct ((share <? min_slice) && (share <? fill - a)) eqn:E; [done|].
  assert (0 < share) as Hpos.
  { apply andb_false_iff in E as [E|E]; apply Z.ltb_ge in E; lia. }
  destruct (allocate_ok allocs (vq_venue vq) (al_price level) share) as [Hok' Hs'];
    [done|by apply usable_indexed|done|lia|].
  split_and!; cbn; [done| | |]; rewrite ?i64_id by mlia; lia.
Qed.

Lemma shares_inv base level avail fill allocs :
  0 < min_slice -> 0 <= base -> base + fill <= INT64_MAX ->
  0 <= fill -> allocs_ok allocs -> msum total_qty allocs = base ->
  level_inv base fill
    (fold_left (share_step level avail fill) (level_venues level) (allocs, 0)).
Proof.
  intros Hm Hb Hbf Hf Hok Hs.
  apply (fold_left_inv (share_step level avail fill) (fun st _ => level_inv base fill st)).
  - split_and!; cbn; (done || lia).
  - intros st _ vq _. by apply share_step_inv.
Qed.

(** The best venue, when there is one, is an available venue of the level. *)
Lemma best_venue_indexed level :
  (best_venue level).1 <> 0 -> indexed venues (best_venue level).1 = true.
Proof.
  unfold best_venue.
  apply (fold_left_inv _ (fun st _ => st.1 <> 0 -> indexed venues st.1 = true)); [done|].
  intros [b q] _ vq _ IH. destruct (_ && _) eqn:E; [|done].
  intros _. by apply andb_true_iff in E as [_ ?].
Qed.

Lemma remainder_inv base level fill st :
  0 <= base -> base + fill <= INT64_MAX ->
  level_inv base fill st -> level_inv base fill (remainder_step level fill st).
Proof.
  intros Hb Hbf (Hok & Ha & Hs). destruct st as [allocs a]. cbn in *.
  unfold remainder_step. destruct (Z.ltb_spec a fill); [|done].
  destruct (Z.eqb_spec (best_venue level).1 0); cbn [negb]; [done|].
  rewrite (i64_id (fill - a)) by mlia.
  destruct (allocate_ok allocs (best_venue level).1 (al_price level) (fill - a)) as [Hok' Hs'];
    [done|by apply best_venue_indexed|lia|lia|].
  split_and!; cbn; [done| | |]; rewrite ?i64_id by mlia; lia.
Qed.

Definition sweep_inv (qty : Quantity) (st : Allocs * Quantity) : Prop :=
  allocs_ok st.1 /\ 0 <= st.2 <= qty /\ msum total_qty st.1 = qty - st.2.

Lemma level_step_inv qty st level :
  0 < min_slice -> qty <= INT64_MAX -> sweep_inv qty st -> sweep_inv qty (level_step st level).
Proof.
  intros Hm Hq (Hok & Hr & Hs). destruct st as [allocs r]. cbn in *. unfold level_step.
  destruct (Z.gtb_spec r 0); cbn [negb]; [|done]. destruct (skip_level level); [done|].
  destruct (Z.leb_spec (level_available level) 0) as [|Hav]; [done|].
  set (fill := Z.min r (level_available level)).
  pose proof (shares_inv (qty - r) level (level_available level) fill allocs
    Hm ltac:(lia) ltac:(lia) ltac:(lia) Hok Hs) as H1.
  apply (remainder_inv (qty - r) level fill _ ltac:(lia) ltac:(lia)) in H1.
  destruct (remainder_step level fill _) as [allocs' a]. destruct H1 as (Hok' & Ha & Hs').
  cbn in *. split_and!; cbn; [done| | |]; rewrite ?i64_id by mlia; lia.
Qed.

Lemma sweep_ok levels qty :
  0 < min_slice -> 0 <= qty <= INT64_MAX -> sweep_inv qty (sweep levels qty).
Proof.
  intros Hm Hq. apply (fold_left_inv level_step (fun st _ => sweep_inv qty st)).
  - split_and!; cbn; [by intros k a; rewrite lookup_empty|lia|lia|].
    rewrite msum_empty. lia.
  - intros st _ level _. apply level_step_inv; [done|lia].
Qed.

(** *** Completeness: a level that can be placed is placed whole *)

Lemma best_venue_none level :
  (best_venue level).1 = 0 ->
  Forall (fun vq => usable vq = true -> vq_venue vq <> 0) (level_venues level) ->
  Forall (fun vq => usable vq = false) (level_venues level).
Proof.
  intros Hb Hnz.
  assert (let st := best_venue level in 0 <= st.2 /\ (st.1 = 0 -> st.2 = 0 /\
    Forall (fun vq => usable vq = false) (level_venues level))) as [_ H]; [|by apply H].
  unfold best_venue. revert Hnz. clear Hb.
  apply (fold_left_inv _ (fun st seen =>
    Forall (fun vq => usable vq = true -> vq_venue vq <> 0) seen ->
    0 <= st.2 /\ (st.1 = 0 -> st.2 = 0 /\ Forall (fun vq => usable vq = false) seen)));
    [done|].
  intros [b q] seen vq _ IH [Hs [Hv _]%Forall_cons]%Forall_app. specialize (IH Hs).
  cbn in *. destruct (Z.gtb_spec (vq_quantity vq) q) as [Hq|Hq]; cbn [andb].
  - destruct (indexed venues (vq_venue vq)) eqn:Ei.
    + split; cbn; [lia|]. intros E0. exfalso. apply Hv; [|done].
      unfold usable. rewrite Ei, andb_true_r. apply Z.gtb_lt. lia.
    + split; cbn; [lia|]. intros Eb. destruct IH as [_ IH]. destruct (IH Eb) as [-> ?].
      split; [done|]. apply Forall_app. split; [done|]. constructor; [|done].
      unfold usable. by rewrite Ei, andb_false_r.
  - split; cbn; [lia|]. intros Eb. destruct IH as [_ IH]. destruct (IH Eb) as [-> ?].
    split; [done|]. apply Forall_app. split; [done|]. constructor; [|done].
    unfold usable. rewrite Z.gtb_ltb, (proj2 (Z.ltb_ge _ _)) by lia. done.
Qed.

Lemma level_available_none level :
  Forall (fun vq => usable vq = false) (level_venues level) -> level_available level = 0.
Proof.
  unfold level_available. generalize 0. induction 1 as [|vq vqs Hv _ IH]; cbn; [done|].
  by rewrite Hv.
Qed.

(** The quantity a level contributes: nothing when the loop skips it. *)
Definition level_capacity (level : AggregatedLevel) : Z :=
  if skip_level level then 0 else Z.max 0 (level_available level).

Definition nonzero_venues (level : AggregatedLevel) : Prop :=
  Forall (fun vq => usable vq = true -> vq_venue vq <> 0) (level_venues level).

Lemma level_step_remaining qty st level :
  0 < min_slice -> qty <= INT64_MAX -> nonzero_venues level -> sweep_inv qty st ->
  (level_step st level).2 = Z.max 0 (st.2 - level_capacity level).
Proof.
  intros Hm Hq Hnz (Hok & Hr & Hs). destruct st as [allocs r]. cbn in *.
  unfold level_step, level_capacity.
  destruct (Z.gtb_spec r 0); cbn [negb snd].
  2: { assert (r = 0) as -> by lia. destruct (skip_level level); lia. }
  destruct (skip_level level); cbn [snd]; [lia|].
  destruct (Z.leb_spec (level_available level) 0) as [|Hav]; cbn [snd]; [lia|].
  set (fill := Z.min r (level_available level)).
  pose proof (shares_inv (qty - r) level (level_available level) fill allocs
    Hm ltac:(lia) ltac:(lia) ltac:(lia) Hok Hs) as H1.
  destruct (fold_left (share_step level (level_available level) fill) (level_venues level)
    (allocs, 0)) as [allocs1 a1].
  pose proof (remainder_inv (qty - r) level fill _ ltac:(lia) ltac:(lia) H1) as H2.
  destruct H1 as (_ & Ha1 & _). cbn in Ha1.
  assert ((remainder_step level fill (allocs1, a1)).2 = fill) as Hfill.
  { unfold remainder_step. destruct (Z.ltb_spec a1 fill); cbn; [|lia].
    destruct (Z.eqb_spec (best_venue level).1 0) as [E|E]; cbn.
    - apply best_venue_none in E; [|done]. apply level_available_none in E. lia.
    - rewrite (i64_id (fill - a1)), i64_id by mlia. lia. }
  destruct (remainder_step level fill (allocs1, a1)) as [allocs' a]. cbn in Hfill. subst a.
  cbn. rewrite i64_id by mlia. subst fill. lia.
Qed.

Lemma sweep_remaining levels qty :
  0 < min_slice -> 0 <= qty <= INT64_MAX -> Forall nonzero_venues levels ->
  (sweep levels qty).2 = Z.max 0 (qty - sum_by level_capacity levels).
Proof.
  intros Hm Hq Hnz.
  assert (sweep_inv qty (sweep levels qty) /\
    (sweep levels qty).2 = Z.max 0 (qty - sum_by level_capacity levels)) as [_ H]; [|done].
  revert Hnz. unfold sweep.
  apply (fold_left_inv level_step (fun st seen => Forall nonzero_venues seen ->
    sweep_inv qty st /\ st.2 = Z.max 0 (qty - sum_by level_capacity seen))).
  - intros _. split; [|rewrite sum_by_nil; cbn; lia].
    split_and!; cbn; [by intros k a; rewrite lookup_empty|lia|lia|].
    rewrite msum_empty. lia.
  - intros st seen level _ IH [Hs [Hl _]%Forall_cons]%Forall_app.
    destruct (IH Hs) as [Hi Hrem]. split; [by apply level_step_inv; [|lia|]|].
    rewrite (level_step_remaining qty) by (done || lia).
    rewrite sum_by_app, sum_by_cons, sum_by_nil, Hrem.
    assert (0 <= level_capacity level) by (unfold level_capacity; destruct skip_level; lia).
    lia.
Qed.

End sweep.

Section route.
Context `{!StdSort, !UnorderedMap}.

Definition alloc_slice (_ : VenueId) (a : VenueAlloc) : Slice :=
  mkSlice (va_venue_id a) (worst_price a) (total_qty a) OT_Limit TIF_IOC.

Definition route (s : t) (order : Order) (nbbo : NBBO.t) (book : AggregatedBook)
    (venues : list VenueScore) : RoutingDecision :=
  if bool_decide (venues = []) || negb (NBBO.valid nbbo) then []
  else
    let remaining := leaves_qty order in
    if remaining <=? 0 then []
    else
      let '(allocs, _) := sweep (min_slice_quantity_ s) venues
                            (side_levels (o_side order) book) remaining in
      sort_slices (o_side order)
        (collect_slices (fun a => total_qty a <? min_slice_quantity_ s) alloc_slice
           (map_entries allocs)).

Lemma sweep_slices_ok s o n b vs : 0 < min_slice_quantity_ s -> Forall (slice_ok vs) (route s o n b vs).
Proof.
  intros Hm. unfold route. destruct (_ || _); [constructor|].
  destruct (Z.leb_spec (leaves_qty o) 0); [constructor|].
  pose proof (leaves_range o).
  destruct (sweep_ok (min_slice_quantity_ s) vs (side_levels (o_side o) b) (leaves_qty o)
    Hm ltac:(mlia)) as (Hok & _ & _).
  destruct (sweep _ _ _ _) as [allocs r]. cbn in Hok.
  rewrite sort_slices_perm. apply Forall_forall.
  intros sl (k & a & Ha & _ & ->)%collect_members. apply Hok in Ha as (Hv & Hp & Hi).
  split; cbn; [|done]. apply indexed_find. by rewrite Hv.
Qed.

End route.

End LiquiditySweepStrategy.

#[export] Instance liquidity_sweep_strategy `{!StdSort, !UnorderedMap} :
    RoutingStrategy LiquiditySweepStrategy.t := {
  rs_name := "LiquiditySweep";
  rs_tag := RS_LiquiditySweep;
  rs_route s o n b vs now := (LiquiditySweepStrategy.route s o n b vs, s);
  rs_ok s := 0 < LiquiditySweepStrategy.min_slice_quantity_ s;
  rs_route_ok s o n b vs now := LiquiditySweepStrategy.sweep_slices_ok s o n b vs;
  rs_route_next s o n b vs now H := H
}.

Import LiquiditySweepStrategy.

(** A sweep never over-allocates: for any minimum slice of at least one,
    whatever the floating-point shares are, its slices add up to at most the
    leaves quantity; there are at most ten, one per venue, each to an
    available venue, at least the minimum, limit IOC, best price first. *)
Theorem sweep_never_overallocates `{!StdSort, !UnorderedMap} s o n b vs :
  0 < min_slice_quantity_ s ->
  let d := route s o n b vs in
  sum_by sl_quantity d <= Z.max 0 (leaves_qty o) /\
  (length d <= MAX_SLICES)%nat /\ NoDup (sl_venue_id <$> d) /\
  Forall (fun sl => slice_ok vs sl /\ min_slice_quantity_ s <= sl_quantity sl /\
            sl_type sl = OT_Limit /\ sl_tif sl = TIF_IOC) d /\
  StronglySorted (fun x y => price_ok (o_side o) (sl_price x) (sl_price y)) d.
Proof.
  intros Hm d. pose proof (sweep_slices_ok s o n b vs Hm) as Hslices. fold d in Hslices.
  revert Hslices. subst d. unfold route.
  destruct (_ || _); [intros _; split_and!; [rewrite sum_by_nil; lia|cbn; lia|constructor..]|].
  destruct (Z.leb_spec (leaves_qty o) 0) as [|Hq];
    [intros _; split_and!; [rewrite sum_by_nil; lia|cbn; lia|constructor..]|].
  pose proof (leaves_range o).
  destruct (sweep_ok (min_slice_quantity_ s) vs (side_levels (o_side o) b) (leaves_qty o)
    Hm ltac:(mlia)) as (Hok & Hr & Hs).
  destruct (sweep _ _ _ _) as [allocs r]. cbn in Hok, Hr, Hs. intros Hslices.
  split_and!; [| | | |apply sort_slices_sorted].
  - rewrite sort_slices_perm. etransitivity; [apply (sum_collect_le _ _ _ total_qty); [done|]|lia].
    intros k a Ha. apply Hok in Ha. lia.
  - rewrite sort_slices_perm. apply collect_length.
  - rewrite sort_slices_perm. apply collect_NoDup. intros k a Ha. by apply Hok in Ha as (? & _).
  - apply Forall_forall. intros sl Hsl. split; [by eapply Forall_forall in Hslices|].
    rewrite sort_slices_perm in Hsl. apply collect_members in Hsl as (k & a & _ & Hd & ->).
    apply Z.ltb_ge in Hd. done.
Qed.

Lemma sweep_never_overallocates_witness :
  sum_by sl_quantity (route create (sample_buy 10100000000 120) sample_nbbo sample_agg_book
                        sample_scores) <= 120.
Proof.
  exact (proj1 (sweep_never_overallocates create (sample_buy 10100000000 120) sample_nbbo
    sample_agg_book sample_scores eq_refl)).
Defined.

(** A sweep fills whatever can be filled: with the default minimum slice,
    at most ten venues and no venue numbered 0, the slices add up to exactly
    the leaves quantity or the whole quantity the available venues show on
    that side, whichever is less; no rounding of the pro-rata shares loses a
    unit. *)
Theorem sweep_fills_available `{!StdSort, !UnorderedMap} o n b vs :
  vs <> [] -> NBBO.valid n = true -> 0 < leaves_qty o ->
  (length vs <= MAX_SLICES)%nat ->
  Forall (nonzero_venues vs) (side_levels (o_side o) b) ->
  sum_by sl_quantity (route create o n b vs) =
    Z.min (leaves_qty o) (sum_by (level_capacity vs) (side_levels (o_side o) b)).
Proof.
  intros Hvs Hn Hq Hlen Hnz. unfold route. rewrite bool_decide_eq_false_2, Hn by done.
  cbn [orb negb]. rewrite (proj2 (Z.leb_gt _ _)) by done.
  change (min_slice_quantity_ create) with 1. pose proof (leaves_range o).
  destruct (sweep_ok 1 vs (side_levels (o_side o) b) (leaves_qty o)
    ltac:(lia) ltac:(mlia)) as (Hok & Hr & Hs).
  pose proof (sweep_remaining 1 vs (side_levels (o_side o) b) (leaves_qty o)
    ltac:(lia) ltac:(mlia) Hnz) as Hrem.
  destruct (sweep _ _ _ _) as [allocs r]. cbn in Hok, Hr, Hs, Hrem.
  rewrite sort_slices_perm, (sum_collect_eq _ _ _ total_qty).
  - lia.
  - done.
  - intros k a Ha. apply Hok in Ha as (_ & Hp & _). apply Z.ltb_ge. lia.
  - etransitivity; [|exact Hlen]. apply map_entries_length.
    intros k a (_ & _ & Hi)%Hok. by apply indexed_find.
Qed.

Lemma sweep_fills_available_witness :
  sum_by sl_quantity (route create (sample_buy 10100000000 120) sample_nbbo sample_agg_book
                        sample_scores) = 120.
Proof.
  refine (eq_trans (sweep_fills_available (sample_buy 10100000000 120) sample_nbbo
    sample_agg_book sample_scores _ _ _ _ _) _).
  - discriminate.
  - reflexivity.
  - reflexivity.
  - vm_compute; lia.
  - repeat constructor; vm_compute; intros; discriminate.
  - vm_compute; reflexivity.
Defined.

(** The remainder of a level is not bounded by what its venue shows: when
    the shares are skipped as dust the whole level goes to the venue with the
    most liquidity, here 120 to a venue showing 60; and when that venue is
    numbered 0, the value that stands for "none", the remainder is dropped and
    an order of 1 against 3 shown gets no slice at all. *)
Theorem sweep_remainder_unbounded :
  let book vqs := mkAggBook (Symbol_of "AAPL") sample_nbbo [] [sample_level 10000000000 vqs] 0 1 in
  (fun s => (sl_venue_id s, sl_quantity s)) <$>
    route (mk 100) (sample_buy 10000000000 120) sample_nbbo (book [mkVQ 1 60; mkVQ 2 60])
      sample_scores = [(1, 120)] /\
  route create (sample_buy 10000000000 1) sample_nbbo (book [mkVQ 0 2; mkVQ 1 1])
      [sample_score 0 (d_lit 1 3); sample_score 1 (d_lit 1 3)] = [].
Proof. vm_compute. done. Qed.
