(* ===== verification/SmartIOC.v ===== *)
(** * SmartIOC (sor/routing/smart_ioc.h, smart_ioc.cpp)

    Fill-or-kill orders go whole to one venue; immediate-or-cancel orders
    sweep the levels within the slippage tolerance, faster venues first. *)

From S2P Require Import Prelude Double Types Book Aggregator Strategy.

Module SmartIOCStrategy.

Definition DEFAULT_SLIPPAGE_TICKS : Z := 5.

Record t := mk { slippage_ticks_ : Z }.

Definition create : t := mk DEFAULT_SLIPPAGE_TICKS.
Definition set_slippage_ticks (s : t) (ticks : Z) : t := { s with slippage_ticks_ := ticks }.

Definition worst_acceptable_price (nbbo : NBBO.t) (side : Side) (ticks : Z) : Price :=
  match side with
  | Buy => if NBBO.best_ask nbbo =? INVALID_PRICE then INVALID_PRICE
           else NBBO.best_ask nbbo +! ticks
  | Sell => if NBBO.best_bid nbbo =? INVALID_PRICE then INVALID_PRICE
            else let worst := NBBO.best_bid nbbo -! ticks in
                 if worst >? 0 then worst else 1
  end.

Definition latency_quality (vs : VenueScore) : double :=
  let kBaseline := d_of_Z 1000 in
  let lat := if dgtb (latency_us vs) (d_of_Z 0) then latency_us vs else kBaseline in
  dadd (dmul (d_lit 4 1) (fill_rate vs)) (dmul (d_lit 6 1) (ddiv kBaseline lat)).

(** The level is beyond the tolerance, which ends the walk. *)
Definition beyond (side : Side) (worst p : Price) : bool :=
  match side with Buy => p >? worst | Sell => p <? worst end.

(** The levels the walks visit: unusable ones are skipped, the first one beyond
    the tolerance stops them. *)
Fixpoint band (side : Side) (worst : Price) (levels : list AggregatedLevel)
    : list AggregatedLevel :=
  match levels with
  | [] => []
  | level :: levels =>
      if skip_level level then band side worst levels
      else if beyond side worst (al_price level) then []
      else level :: band side worst levels
  end.

(** ** Fill or kill *)

Record VenueCandidate := mkVC {
  vc_venue_id : VenueId;
  total_available : Quantity;
  vc_worst_price : Price;
  vc_quality : double
}.

Abbreviation Candidates := (gmap VenueId VenueCandidate) (only parsing).

Definition fok_venue (venues : list VenueScore) (level : AggregatedLevel)
    (cands : Candidates) (vq : VenueQuantity) : Candidates :=
  if vq_quantity vq <=? 0 then cands
  else match find_score venues (vq_venue vq) with
  | None => cands
  | Some score =>
      <[vq_venue vq := mkVC (vq_venue vq)
          (default 0 (total_available <$> cands !! vq_venue vq) +! vq_quantity vq)
          (al_price level) (latency_quality score)]> cands
  end.

Definition fok_level (venues : list VenueScore) (cands : Candidates) (level : AggregatedLevel)
    : Candidates :=
  fold_left (fok_venue venues level) (level_venues level) cands.

(** The loop over the levels with its [continue] and [break]. *)
Fixpoint fok_scan (side : Side) (venues : list VenueScore) (worst : Price)
    (levels : list AggregatedLevel) (cands : Candidates) : Candidates :=
  match levels with
  | [] => cands
  | level :: levels =>
      if skip_level level then fok_scan side venues worst levels cands
      else if beyond side worst (al_price level) then cands
      else fok_scan side venues worst levels (fok_level venues cands level)
  end.

Definition fok_pick (qty : Quantity) (best : option VenueCandidate)
    (entry : VenueId * VenueCandidate) : option VenueCandidate :=
  let cand := entry.2 in
  if total_available cand <? qty then best
  else match best with
  | None => Some cand
  | Some b => if dgtb (vc_quality cand) (vc_quality b) then Some cand else best
  end.

Section with_map.
Context `{!UnorderedMap}.

Definition try_fok (order : Order) (book : AggregatedBook) (venues : list VenueScore)
    (worst : Price) : RoutingDecision :=
  let qty := leaves_qty order in
  let cands := fok_scan (o_side order) venues worst (side_levels (o_side order) book) ∅ in
  match fold_left (fok_pick qty) (map_entries cands) None with
  | None => []
  | Some best => [mkSlice (vc_venue_id best) (vc_worst_price best) qty OT_Limit TIF_FOK]
  end.

End with_map.

(** ** Immediate or cancel *)

Record LevelVenue := mkLV { lv_venue_id : VenueId; lv_available : Quantity; lv_quality : double }.

Record Alloc := mkAlloc { worst_price : Price; total_qty : Quantity }.

Abbreviation Allocs := (gmap VenueId Alloc) (only parsing).

(** [venue_map]: the last available score of a venue. *)
Definition mapped_score (venues : list VenueScore) (venue : VenueId) : option VenueScore :=
  find_score (rev venues) venue.

(** The contributions of a level, at most 16. *)
Definition level_contributions (venues : list VenueScore) (level : AggregatedLevel)
    : list LevelVenue :=
  take 16 (omap (fun vq =>
    if vq_quantity vq <=? 0 then None
    else score ← mapped_score venues (vq_venue vq);
         Some (mkLV (vq_venue vq) (vq_quantity vq) (latency_quality score)))
    (level_venues level)).

Definition greedy_step (level : AggregatedLevel) (st : Allocs * Quantity) (lv : LevelVenue)
    : Allocs * Quantity :=
  let '(allocs, remaining) := st in
  if negb (remaining >? 0) then st
  else
    let fill := Z.min remaining (lv_available lv) in
    (<[lv_venue_id lv := mkAlloc (al_price level)
         (default 0 (total_qty <$> allocs !! lv_venue_id lv) +! fill)]> allocs,
     remaining -! fill).

Section with_sort.
Context `{!StdSort}.

Definition ioc_level (venues : list VenueScore) (st : Allocs * Quantity)
    (level : AggregatedLevel) : Allocs * Quantity :=
  fold_left (greedy_step level)
    (std_sort (fun a b => dgtb (lv_quality a) (lv_quality b)) (level_contributions venues level))
    st.

(** The loop over the levels, which also ends when nothing remains. *)
Fixpoint ioc_scan (side : Side) (venues : list VenueScore) (worst : Price)
    (levels : list AggregatedLevel) (st : Allocs * Quantity) : Allocs * Quantity :=
  match levels with
  | [] => st
  | level :: levels =>
      if negb (st.2 >? 0) then st
      else if skip_level level then ioc_scan side venues worst levels st
      else if beyond side worst (al_price level) then st
      else ioc_scan side venues worst levels (ioc_level venues st level)
  end.

End with_sort.

Section route.
Context `{!StdSort, !UnorderedMap}.

Definition alloc_slice (vid : VenueId) (a : Alloc) : Slice :=
  mkSlice vid (worst_price a) (total_qty a) OT_Limit TIF_IOC.

Definition sweep_ioc (order : Order) (book : AggregatedBook) (venues : list VenueScore)
    (worst : Price) : RoutingDecision :=
  let '(allocs, _) := ioc_scan (o_side order) venues worst
                        (side_levels (o_side order) book) (∅, leaves_qty order) in
  sort_slices (o_side order)
    (collect_slices (fun a => total_qty a <=? 0) alloc_slice (map_entries allocs)).

Definition route (s : t) (order : Order) (nbbo : NBBO.t) (book : AggregatedBook)
    (venues : list VenueScore) : RoutingDecision :=
  if bool_decide (venues = []) || negb (NBBO.valid nbbo) then []
  else if leaves_qty order <=? 0 then []
  else
    let worst := worst_acceptable_price nbbo (o_side order) (slippage_ticks_ s) in
    if worst =? INVALID_PRICE then []
    else if bool_decide (o_tif order = TIF_FOK) || bool_decide (o_type order = OT_FOK)
    then try_fok order book venues worst
    else sweep_ioc order book venues worst.

End route.

(** ** The walk stays in the band *)

(** What a venue shows on the given levels. *)
Definition venue_shows (venue : VenueId) (level : AggregatedLevel) : Z :=
  sum_by vq_quantity (List.filter (fun vq => (vq_quantity vq >? 0) && (vq_venue vq =? venue))
                       (level_venues level)).

Definition band_quantity (levels : list AggregatedLevel) (venue : VenueId) : Z :=
  sum_by (venue_shows venue) levels.

Lemma fok_scan_band side venues worst levels cands :
  fok_scan side venues worst levels cands =
  fold_left (fok_level venues) (band side worst levels) cands.
Proof.
  revert cands; induction levels as [|level levels IH]; intros cands; cbn; [done|].
  destruct (skip_level level); [done|]. by destruct (beyond _ _ _); cbn.
Qed.

Lemma greedy_done level lvs st :
  (st.2 >? 0) = false -> fold_left (greedy_step level) lvs st = st.
Proof.
  intros H. destruct st as [allocs r]. cbn in H.
  induction lvs as [|lv lvs IH]; cbn; [done|]. by rewrite H.
Qed.

Lemma ioc_scan_band `{!StdSort} side venues worst levels st :
  ioc_scan side venues worst levels st =
  fold_left (ioc_level venues) (band side worst levels) st.
Proof.
  revert st; induction levels as [|level levels IH]; intros st; cbn; [done|].
  destruct (st.2 >? 0) eqn:E; cbn [negb].
  - destruct (skip_level level); [done|]. by destruct (beyond _ _ _); cbn.
  - symmetry. generalize (if skip_level level then band side worst levels else
      if beyond side worst (al_price level) then [] else level :: band side worst levels).
    assert (forall l, ioc_level venues st l = st) as Hid by (intros l; by apply greedy_done).
    intros ls. induction ls as [|l ls IHl]; cbn [fold_left]; [done|]. by rewrite Hid.
Qed.

Lemma band_within side worst levels level :
  level ∈ band side worst levels ->
  level ∈ levels /\ skip_level level = false /\ beyond side worst (al_price level) = false.
Proof.
  induction levels as [|l ls IH]; cbn; [by intros ?%not_elem_of_nil|].
  destruct (skip_level l) eqn:Es; [intros (? & ?)%IH; split; [by right|done]|].
  destruct (beyond side worst (al_price l)) eqn:Eb; [by intros ?%not_elem_of_nil|].
  intros [->|(? & ?)%IH]%elem_of_cons; split; try done; [by left|by right].
Qed.

Lemma beyond_price_ok side worst p : beyond side worst p = false <-> price_ok side p worst.
Proof. destruct side; cbn; rewrite ?Z.gtb_ltb, Z.ltb_ge; done. Qed.

(** ** Fill or kill: what the candidates hold *)

(** The quotes of a level that count for a venue. *)
Definition counted (venue : VenueId) (seen : list (AggregatedLevel * VenueQuantity)) : Z :=
  sum_by (fun p => vq_quantity p.2)
    (List.filter (fun p => (vq_quantity p.2 >? 0) && (vq_venue p.2 =? venue)) seen).

Definition band_quotes (levels : list AggregatedLevel) : list (AggregatedLevel * VenueQuantity) :=
  level ← levels; (fun vq => (level, vq)) <$> level_venues level.

Lemma counted_band levels venue : counted venue (band_quotes levels) = band_quantity levels venue.
Proof.
  unfold counted, band_quotes, band_quantity.
  induction levels as [|level levels IH]; cbn [mbind list_bind]; [done|].
  rewrite List.filter_app, sum_by_app, sum_by_cons, IH. f_equal. unfold venue_shows.
  induction (level_venues level) as [|vq vqs IH']; cbn; [done|].
  destruct (_ && _); rewrite ?sum_by_cons, IH'; done.
Qed.

Lemma fok_fold_quotes venues levels cands :
  fold_left (fok_level venues) levels cands =
  fold_left (fun c p => fok_venue venues p.1 c p.2) (band_quotes levels) cands.
Proof.
  unfold band_quotes. rewrite <- fold_left_bind. revert cands.
  induction levels as [|level levels IH]; intros cands; cbn [fold_left]; [done|].
  rewrite IH. f_equal. unfold fok_level. clear IH. revert cands.
  induction (level_venues level) as [|vq vqs IH]; intros cands; cbn; [done|]. apply IH.
Qed.

(** A candidate is an available venue of the quotes seen, with their sum in 64
    bits and the price of one of its quotes; every such venue is a candidate. *)
Definition cands_ok (venues : list VenueScore) (cands : Candidates)
    (seen : list (AggregatedLevel * VenueQuantity)) : Prop :=
  forall venue,
    match cands !! venue with
    | None => is_Some (find_score venues venue) -> counted venue seen = 0
    | Some c => vc_venue_id c = venue /\ is_Some (find_score venues venue) /\
        total_available c = i64 (counted venue seen) /\
        exists p, p ∈ seen /\ vc_worst_price c = al_price p.1 /\ vq_venue p.2 = venue /\
                  0 < vq_quantity p.2
    end.

Lemma counted_snoc venue seen p :
  counted venue (seen ++ [p]) =
  counted venue seen + (if (vq_quantity p.2 >? 0) && (vq_venue p.2 =? venue)
                        then vq_quantity p.2 else 0).
Proof.
  unfold counted. rewrite List.filter_app, sum_by_app. cbn [List.filter].
  destruct (_ && _); rewrite ?sum_by_cons, sum_by_nil; lia.
Qed.

Lemma fok_venue_ok venues cands seen p :
  cands_ok venues cands seen ->
  cands_ok venues (fok_venue venues p.1 cands p.2) (seen ++ [p]).
Proof.
  intros H venue. specialize (H venue). rewrite counted_snoc. unfold fok_venue.
  assert (forall x, x ∈ seen -> x ∈ seen ++ [p]) as Hin by (intros; apply elem_of_app; by left).
  assert (forall x, (match cands !! venue with
    | None => is_Some (find_score venues venue) -> counted venue seen = 0
    | Some c => vc_venue_id c = venue /\ is_Some (find_score venues venue) /\
        total_available c = i64 (counted venue seen) /\
        exists q, q ∈ seen /\ vc_worst_price c = al_price q.1 /\ vq_venue q.2 = venue /\
                  0 < vq_quantity q.2 end) -> (is_Some (find_score venues venue) -> x = 0) ->
    match cands !! venue with
    | None => is_Some (find_score venues venue) -> counted venue seen + x = 0
    | Some c => vc_venue_id c = venue /\ is_Some (find_score venues venue) /\
        total_available c = i64 (counted venue seen + x) /\
        exists q, q ∈ seen ++ [p] /\ vc_worst_price c = al_price q.1 /\
                  vq_venue q.2 = venue /\ 0 < vq_quantity q.2 end) as Hsame.
  { intros x H' Hx. destruct (cands !! venue) as [c|]; [|intros Hs; rewrite (Hx Hs), H' by done; lia].
    destruct H' as (? & Hs & Et & q & Hq & ?). rewrite (Hx Hs), Z.add_0_r. eauto 8. }
  destruct (Z.leb_spec (vq_quantity p.2) 0) as [Hq|Hq].
  { apply Hsame; [done|]. intros _. rewrite Z.gtb_ltb, (proj2 (Z.ltb_ge _ _)) by lia. done. }
  destruct (find_score venues (vq_venue p.2)) as [score|] eqn:Es.
  2: { apply Hsame; [done|]. intros [? Hs]. destruct (Z.eqb_spec (vq_venue p.2) venue); subst;
         [congruence|by rewrite andb_false_r]. }
  rewrite Z.gtb_ltb, (proj2 (Z.ltb_lt _ _)) by lia. cbn [andb].
  destruct (Z.eqb_spec (vq_venue p.2) venue) as [<-|Hne].
  - rewrite lookup_insert_eq. cbn. split_and!; [done|by rewrite Es| |].
    + destruct (cands !! vq_venue p.2) as [c|]; cbn.
      * destruct H as (_ & _ & -> & _). by rewrite i64_add_l.
      * by rewrite H.
    + exists p. split_and!; try done. apply elem_of_app. right. by apply list_elem_of_singleton.
  - rewrite lookup_insert_ne by done. by apply Hsame.
Qed.

Lemma fok_scan_ok venues levels :
  cands_ok venues (fold_left (fok_level venues) levels ∅) (band_quotes levels).
Proof.
  rewrite fok_fold_quotes. apply (fold_left_inv _ (cands_ok venues)).
  - intros venue. by rewrite lookup_empty.
  - intros c seen p _. apply fok_venue_ok.
Qed.

(** The selection: some sufficient candidate, if there is one. *)
Lemma fok_pick_spec qty (es : list (VenueId * VenueCandidate)) :
  match fold_left (fok_pick qty) es None with
  | None => Forall (fun e => total_available e.2 < qty) es
  | Some c => c ∈ es.*2 /\ qty <= total_available c
  end.
Proof.
  apply (fold_left_inv (fok_pick qty) (fun best seen =>
    match best with
    | None => Forall (fun e => total_available e.2 < qty) seen
    | Some c => c ∈ seen.*2 /\ qty <= total_available c
    end)); [constructor|].
  intros best seen e _ IH. unfold fok_pick. rewrite fmap_app.
  destruct (Z.ltb_spec (total_available e.2) qty) as [Hlt|Hge].
  - destruct best as [c|].
    + destruct IH as [Hin ?]. split; [|done]. apply elem_of_app. by left.
    + apply Forall_app. split; [done|]. by constructor.
  - assert (e.2 ∈ seen.*2 ++ [e].*2) as He
      by (apply elem_of_app; right; by apply list_elem_of_singleton).
    destruct best as [c|]; [|done]. destruct IH as [Hin ?].
    destruct (dgtb _ _); [done|]. split; [|done]. apply elem_of_app. by left.
Qed.

Lemma band_quotes_elem levels p :
  p ∈ band_quotes levels -> p.1 ∈ levels /\ p.2 ∈ level_venues p.1.
Proof.
  intros (level & Hp & Hl)%list_elem_of_bind. by apply list_elem_of_fmap in Hp as (vq & -> & ?).
Qed.

Lemma try_fok_spec `{!UnorderedMap} order book venues worst :
  let qty := leaves_qty order in
  let levels := band (o_side order) worst (side_levels (o_side order) book) in
  let d := try_fok order book venues worst in
  0 < qty ->
  (d = [] /\ forall v, is_Some (find_score venues v) -> i64 (band_quantity levels v) < qty) \/
  (exists v p, d = [mkSlice v p qty OT_Limit TIF_FOK] /\ is_Some (find_score venues v) /\
     qty <= i64 (band_quantity levels v) /\
     exists level vq, level ∈ levels /\ al_price level = p /\
       vq ∈ level_venues level /\ vq_venue vq = v /\ 0 < vq_quantity vq).
Proof.
  intros qty levels d Hq. subst d. unfold try_fok. rewrite fok_scan_band.
  fold qty levels. pose proof (fok_scan_ok venues levels) as Hok.
  set (cands := fold_left _ _ _) in *. pose proof (fok_pick_spec qty (map_entries cands)) as Hp.
  destruct (fold_left (fok_pick qty) (map_entries cands) None) as [c|].
  - right. destruct Hp as [Hin Hge].
    apply list_elem_of_fmap in Hin as ([v c'] & -> & Hin%map_entries_elem).
    specialize (Hok v). rewrite Hin in Hok.
    destruct Hok as (<- & Hs & Et & p & Hp & Ep & Ev & Hpos). cbn in *.
    eexists _, _. split_and!; [done..| |].
    + by rewrite <- counted_band, <- Et.
    + apply band_quotes_elem in Hp as [? ?]. by exists p.1, p.2.
  - left. split; [done|]. intros v Hs. specialize (Hok v). rewrite <- counted_band.
    destruct (cands !! v) as [c|] eqn:E.
    + destruct Hok as (_ & _ & <- & _). rewrite Forall_forall in Hp.
      by apply (Hp (v, c)), map_entries_elem.
    + by rewrite Hok.
Qed.

(** ** Immediate or cancel: the greedy allocation *)

(** The offers the sweep takes from, in its order. *)
Definition takes `{!StdSort} (venues : list VenueScore) (levels : list AggregatedLevel)
    : list (AggregatedLevel * LevelVenue) :=
  level ← levels;
  (fun lv => (level, lv)) <$>
    std_sort (fun a b => dgtb (lv_quality a) (lv_quality b)) (level_contributions venues level).

Lemma ioc_fold_takes `{!StdSort} venues levels st :
  fold_left (ioc_level venues) levels st =
  fold_left (fun st p => greedy_step p.1 st p.2) (takes venues levels) st.
Proof.
  unfold takes. rewrite <- fold_left_bind. revert st.
  induction levels as [|level levels IH]; intros st; cbn [fold_left]; [done|].
  rewrite IH. f_equal. unfold ioc_level. clear IH. revert st.
  generalize (std_sort (fun a b => dgtb (lv_quality a) (lv_quality b))
                (level_contributions venues level)).
  intros lvs; induction lvs as [|lv lvs IH]; intros st; cbn [fold_left fmap list_fmap]; [done|].
  apply IH.
Qed.

Definition taken_at (venue : VenueId) (seen : list (AggregatedLevel * LevelVenue)) : Z :=
  sum_by (fun p => if lv_venue_id p.2 =? venue then lv_available p.2 else 0) seen.

(** Nothing is lost or created: what is allocated is what no longer remains,
    and what remains is what the offers could not cover. *)
Definition greedy_inv (qty : Quantity) (st : Allocs * Quantity)
    (seen : list (AggregatedLevel * LevelVenue)) : Prop :=
  Forall (fun p => 0 < lv_available p.2) seen /\
  st.2 = Z.max 0 (qty - sum_by (fun p => lv_available p.2) seen) /\ st.2 <= qty /\
  msum total_qty st.1 = qty - st.2 /\
  forall k a, st.1 !! k = Some a ->
    0 < total_qty a <= taken_at k seen /\
    exists p, p ∈ seen /\ lv_venue_id p.2 = k /\ worst_price a = al_price p.1.

Lemma greedy_step_inv qty st seen p :
  0 < qty <= INT64_MAX -> 0 < lv_available p.2 ->
  greedy_inv qty st seen -> greedy_inv qty (greedy_step p.1 st p.2) (seen ++ [p]).
Proof.
  intros Hq Hav (Hf & Hr & Hle & Hs & Hk). destruct st as [allocs r]. cbn in *.
  unfold greedy_inv, greedy_step, taken_at.
  assert (forall k a, allocs !! k = Some a ->
    0 < total_qty a <= taken_at k (seen ++ [p]) /\
    exists p0, p0 ∈ seen ++ [p] /\ lv_venue_id p0.2 = k /\ worst_price a = al_price p0.1) as Hk'.
  { intros k a (Ht & p0 & Hin & ?)%Hk. split.
    - unfold taken_at in *. rewrite sum_by_app, sum_by_cons, sum_by_nil. destruct (_ =? _); lia.
    - exists p0. split; [apply elem_of_app; by left|done]. }
  rewrite (sum_by_app (fun p => lv_available p.2)), sum_by_cons, sum_by_nil.
  assert (Forall (fun p => 0 < lv_available p.2) (seen ++ [p])) as Hf'
    by (apply Forall_app; split; [done|by constructor]).
  destruct (Z.gtb_spec r 0); cbn [negb fst snd]; [|split_and!; try lia; done].
  set (fill := Z.min r (lv_available p.2)).
  rewrite (i64_id (r - fill)) by mlia.
  destruct (msum_add total_qty allocs (lv_venue_id p.2) (mkAlloc (al_price p.1)
    (default 0 (total_qty <$> allocs !! lv_venue_id p.2) +! fill)) fill) as (Ht & Hpos & Hsum);
    [by intros k w (Hw & _)%Hk; lia|done|lia|mlia|].
  split_and!; [done|lia|lia|lia|]. intros k a [[<- <-]|[_ Ha]]%lookup_insert_Some; [|by apply Hk'].
  split.
  - split; [exact Hpos|]. rewrite Ht.
    rewrite sum_by_app, sum_by_cons, sum_by_nil, Z.eqb_refl.
    cut (default 0 (total_qty <$> allocs !! lv_venue_id p.2) <= taken_at (lv_venue_id p.2) seen);
      [unfold taken_at; lia|].
    destruct (allocs !! lv_venue_id p.2) as [a|] eqn:E; cbn; [apply Hk in E; lia|].
    apply sum_by_nonneg. eapply Forall_impl; [exact Hf|]. intros x Hx. cbn in *.
    destruct (_ =? _); lia.
  - exists p. split; [|done]. apply elem_of_app. right. by apply list_elem_of_singleton.
Qed.

Lemma mapped_score_available venues venue :
  is_Some (mapped_score venues venue) <-> is_Some (find_score venues venue).
Proof.
  rewrite <- indexed_find. unfold mapped_score. rewrite <- indexed_find. unfold indexed.
  rewrite !existsb_exists. split; intros (x & Hin & H); exists x; (split; [|done]);
    by apply in_rev; rewrite ?rev_involutive.
Qed.

(** The quote of a venue as a contribution. *)
Definition contribution (venues : list VenueScore) (vq : VenueQuantity) : option LevelVenue :=
  if vq_quantity vq <=? 0 then None
  else score ← mapped_score venues (vq_venue vq);
       Some (mkLV (vq_venue vq) (vq_quantity vq) (latency_quality score)).

Lemma contribution_Some venues vq lv :
  contribution venues vq = Some lv ->
  lv_venue_id lv = vq_venue vq /\ lv_available lv = vq_quantity vq /\ 0 < lv_available lv /\
  is_Some (find_score venues (vq_venue vq)).
Proof.
  unfold contribution. destruct (Z.leb_spec (vq_quantity vq) 0); [done|].
  destruct (mapped_score venues (vq_venue vq)) eqn:E; cbn; [|done].
  intros [= <-]. split_and!; [done..|]. apply mapped_score_available. by eexists.
Qed.

Lemma contribution_None venues vq :
  contribution venues vq = None -> 0 < vq_quantity vq -> indexed venues (vq_venue vq) = false.
Proof.
  unfold contribution. destruct (Z.leb_spec (vq_quantity vq) 0); [lia|]. intros Hc _.
  apply not_true_iff_false. rewrite indexed_find, <- mapped_score_available.
  intros [x Hx]. by rewrite Hx in Hc.
Qed.

(** What the available venues show at a level. *)
Definition level_supply (venues : list VenueScore) (level : AggregatedLevel) : Z :=
  sum_by vq_quantity (List.filter (fun vq => (vq_quantity vq >? 0) && indexed venues (vq_venue vq))
                       (level_venues level)).

Lemma contributions_supply venues level :
  length (venue_breakdown level) = MAX_VENUES_PER_LEVEL ->
  sum_by lv_available (level_contributions venues level) = level_supply venues level.
Proof.
  intros Hl. unfold level_contributions, level_supply. change 16%nat with MAX_VENUES_PER_LEVEL.
  fold (contribution venues). rewrite take_ge.
  - induction (level_venues level) as [|vq vqs IH]; cbn [omap list_omap List.filter]; [done|].
    destruct (contribution venues vq) as [lv|] eqn:E.
    + apply contribution_Some in E as (_ & Ea & Hp & Hs%indexed_find).
      rewrite Z.gtb_ltb, (proj2 (Z.ltb_lt _ _)), Hs by lia. cbn [andb].
      by rewrite !sum_by_cons, Ea, IH.
    + destruct (Z.gtb_spec (vq_quantity vq) 0); cbn [andb]; [|done].
      by rewrite (contribution_None _ _ E) by lia.
  - transitivity (length (level_venues level)).
    + induction (level_venues level) as [|vq vqs IH]; cbn; [lia|].
      destruct (contribution venues vq); cbn; lia.
    + unfold level_venues. rewrite length_take. lia.
Qed.

Lemma contributions_shown venues level venue :
  sum_by (fun lv => if lv_venue_id lv =? venue then lv_available lv else 0)
    (level_contributions venues level) <= venue_shows venue level.
Proof.
  unfold level_contributions, venue_shows. fold (contribution venues).
  etransitivity; [apply (sum_by_sublist_le _ _ _ (sublist_take _ _))|].
  - apply Forall_forall. intros lv (vq & _ & Hc%contribution_Some)%list_elem_of_omap.
    destruct (_ =? _); lia.
  - induction (level_venues level) as [|vq vqs IH]; cbn [omap list_omap List.filter]; [done|].
    destruct (contribution venues vq) as [lv|] eqn:E.
    + apply contribution_Some in E as (Ev & Ea & Hp & _).
      rewrite Z.gtb_ltb, (proj2 (Z.ltb_lt _ _)) by lia. cbn [andb]. rewrite sum_by_cons, Ev.
      destruct (_ =? _); rewrite ?sum_by_cons; lia.
    + destruct ((vq_quantity vq >? 0) && _) eqn:Eg; rewrite ?sum_by_cons; [|done].
      apply andb_true_iff in Eg as [Eg%Z.gtb_lt _]. lia.
Qed.

Section takes.
Context `{!StdSort} (venues : list VenueScore).

Lemma takes_elem levels p :
  p ∈ takes venues levels ->
  p.1 ∈ levels /\ 0 < lv_available p.2 /\ is_Some (find_score venues (lv_venue_id p.2)).
Proof.
  intros (level & Hp & Hl)%list_elem_of_bind.
  apply list_elem_of_fmap in Hp as (lv & -> & Hin). rewrite std_sort_perm in Hin.
  eapply elem_of_sublist in Hin; [|apply sublist_take].
  apply list_elem_of_omap in Hin as (vq & _ & Hc).
  change (contribution venues vq = Some lv) in Hc.
  apply contribution_Some in Hc as (Ev & ? & ? & ?). cbn. by rewrite Ev.
Qed.

Lemma sum_takes (f : LevelVenue -> Z) levels :
  sum_by (fun p => f p.2) (takes venues levels) =
  sum_by (fun level => sum_by f (level_contributions venues level)) levels.
Proof.
  unfold takes. induction levels as [|level levels IH]; cbn [mbind list_bind]; [done|].
  rewrite sum_by_app, IH, sum_by_cons. f_equal.
  rewrite <- (std_sort_perm _ (fun a b => dgtb (lv_quality a) (lv_quality b))
                (level_contributions venues level)) at 2.
  unfold sum_by. by rewrite <- list_fmap_compose.
Qed.

Lemma taken_at_shown levels venue : taken_at venue (takes venues levels) <= band_quantity levels venue.
Proof.
  unfold taken_at. rewrite (sum_takes (fun lv => if lv_venue_id lv =? venue
                                               then lv_available lv else 0)).
  apply sum_by_le, Forall_forall. intros level _. apply contributions_shown.
Qed.

Lemma ioc_allocs levels qty :
  0 < qty <= INT64_MAX ->
  greedy_inv qty (fold_left (ioc_level venues) levels (∅, qty)) (takes venues levels).
Proof.
  intros Hq. rewrite ioc_fold_takes.
  apply (fold_left_inv _ (greedy_inv qty)).
  - split_and!; cbn; [constructor|rewrite sum_by_nil; lia|lia|rewrite msum_empty; lia|].
    intros k a. by rewrite lookup_empty.
  - intros st seen p Hp. apply greedy_step_inv; [done|]. by apply takes_elem in Hp as (_ & ? & _).
Qed.

End takes.

Section facts.
Context `{!StdSort, !UnorderedMap}.

(** The sweep's slices, given what the walk allocated. *)
Lemma sweep_ioc_slices order book venues worst :
  0 < leaves_qty order ->
  let levels := band (o_side order) worst (side_levels (o_side order) book) in
  Forall (fun sl => is_Some (find_score venues (sl_venue_id sl)) /\
            0 < sl_quantity sl <= band_quantity levels (sl_venue_id sl) /\
            (exists level, level ∈ levels /\ sl_price sl = al_price level) /\
            sl_type sl = OT_Limit /\ sl_tif sl = TIF_IOC)
    (sweep_ioc order book venues worst).
Proof.
  intros Hq levels. unfold sweep_ioc. rewrite ioc_scan_band. fold levels.
  pose proof (leaves_range order).
  pose proof (ioc_allocs venues levels (leaves_qty order) ltac:(mlia)) as (_ & _ & _ & _ & Hk).
  destruct (fold_left _ _ _) as [allocs r]. cbn in Hk. rewrite sort_slices_perm.
  apply Forall_forall. intros sl (k & a & Ha & _ & ->)%collect_members.
  apply Hk in Ha as (Ht & p & (Hl & _ & Hs)%takes_elem & Ev & Ep).
  pose proof (taken_at_shown venues levels k). cbn. rewrite <- Ev at 1.
  split_and!; try done; [lia|lia|]. by exists p.1.
Qed.

Lemma ioc_slices_ok s o n b vs : Forall (slice_ok vs) (route s o n b vs).
Proof.
  unfold route. destruct (_ || _); [constructor|].
  destruct (Z.leb_spec (leaves_qty o) 0) as [|Hq]; [constructor|].
  destruct (_ =? INVALID_PRICE); [constructor|]. destruct (_ || _).
  - destruct (try_fok_spec o b vs
      (worst_acceptable_price n (o_side o) (slippage_ticks_ s)) Hq) as [[-> _]|Hd]; [constructor|].
    destruct Hd as (v & p & -> & Hs & _). constructor; [|constructor]. by split.
  - eapply Forall_impl; [apply sweep_ioc_slices, Hq|]. intros sl (? & ? & _). split; [done|lia].
Qed.

End facts.

End SmartIOCStrategy.

#[export] Instance smart_ioc_strategy `{!StdSort, !UnorderedMap} :
    RoutingStrategy SmartIOCStrategy.t := {
  rs_name := "SmartIOC";
  rs_tag := RS_SmartIOC;
  rs_route s o n b vs now := (SmartIOCStrategy.route s o n b vs, s);
  rs_ok _ := True;
  rs_route_ok s o n b vs now _ := SmartIOCStrategy.ioc_slices_ok s o n b vs;
  rs_route_next s o n b vs now H := H
}.

Import SmartIOCStrategy.

(** Fill-or-kill is all or nothing: the decision is either empty, and then
    no available venue shows (in 64 bits) the whole leaves quantity within the
    slippage band, or it is one fill-or-kill slice for exactly the leaves
    quantity to an available venue that shows at least that much in the band,
    priced at a level of the band where that venue quotes. *)
Theorem fok_all_or_nothing `{!StdSort, !UnorderedMap} s o n b vs :
  let worst := worst_acceptable_price n (o_side o) (slippage_ticks_ s) in
  let levels := band (o_side o) worst (side_levels (o_side o) b) in
  let d := route s o n b vs in
  vs <> [] -> NBBO.valid n = true -> 0 < leaves_qty o -> worst <> INVALID_PRICE ->
  o_tif o = TIF_FOK \/ o_type o = OT_FOK ->
  (d = [] /\ forall v, is_Some (find_score vs v) -> i64 (band_quantity levels v) < leaves_qty o) \/
  (exists v p, d = [mkSlice v p (leaves_qty o) OT_Limit TIF_FOK] /\ is_Some (find_score vs v) /\
     leaves_qty o <= i64 (band_quantity levels v) /\ price_ok (o_side o) p worst /\
     exists level vq, level ∈ levels /\ al_price level = p /\
       vq ∈ level_venues level /\ vq_venue vq = v /\ 0 < vq_quantity vq).
Proof.
  intros worst levels d Hvs Hn Hq Hw Hf. subst d. unfold route.
  rewrite bool_decide_eq_false_2, Hn, (proj2 (Z.leb_gt _ _)) by done. cbn [orb negb].
  fold worst. rewrite (proj2 (Z.eqb_neq _ _)) by done.
  replace (_ || _) with true
    by (symmetry; apply orb_true_iff; rewrite !bool_decide_eq_true; done).
  destruct (try_fok_spec o b vs worst Hq) as [?|(v & p & Hd & Hs & Hqq & l & vq & Hl & Hp & Hr)];
    [by left|right]. exists v, p. split_and!; [done..| |by exists l, vq].
  apply band_within in Hl as (_ & _ & Hl). rewrite <- Hp. by apply beyond_price_ok.
Qed.

(** The sample order as fill-or-kill. *)
Definition sample_fok (q : Z) : Order := { sample_buy 9950000000 q with o_tif := TIF_FOK }.

Lemma fok_all_or_nothing_witness :
  route (mk 100000000) (sample_fok 200) sample_nbbo sample_agg_book sample_scores = [] \/
  exists v p, route (mk 100000000) (sample_fok 200) sample_nbbo sample_agg_book sample_scores =
              [mkSlice v p 200 OT_Limit TIF_FOK].
Proof.
  destruct (fok_all_or_nothing (mk 100000000) (sample_fok 200) sample_nbbo sample_agg_book
    sample_scores) as [[H _]|(v & p & H & _)];
    [discriminate|reflexivity|reflexivity|discriminate|by left|by left|].
  right. exists v, p. exact H.
Defined.

(** The immediate-or-cancel sweep conserves quantity and respects the
    slippage band: with at most ten venues its slices add up to exactly the
    leaves quantity or all that the available venues show within the band,
    whichever is less; there is one slice per venue, each limit IOC, priced at
    a level no worse than the worst acceptable price and for no more than the
    venue shows in the band. *)
Theorem ioc_sweep_exact `{!StdSort, !UnorderedMap} s o n b vs :
  let worst := worst_acceptable_price n (o_side o) (slippage_ticks_ s) in
  let levels := band (o_side o) worst (side_levels (o_side o) b) in
  let d := route s o n b vs in
  vs <> [] -> NBBO.valid n = true -> 0 < leaves_qty o -> worst <> INVALID_PRICE ->
  o_tif o <> TIF_FOK -> o_type o <> OT_FOK -> (length vs <= MAX_SLICES)%nat ->
  Forall (fun l => length (venue_breakdown l) = MAX_VENUES_PER_LEVEL) levels ->
  sum_by sl_quantity d = Z.min (leaves_qty o) (sum_by (level_supply vs) levels) /\
  NoDup (sl_venue_id <$> d) /\
  Forall (fun sl => slice_ok vs sl /\ price_ok (o_side o) (sl_price sl) worst /\
            sl_quantity sl <= band_quantity levels (sl_venue_id sl) /\
            sl_type sl = OT_Limit /\ sl_tif sl = TIF_IOC) d.
Proof.
  intros worst levels d Hvs Hn Hq Hw Hf1 Hf2 Hlen Hlv.
  assert (d = sweep_ioc o b vs worst) as ->.
  { subst d. unfold route.
    rewrite bool_decide_eq_false_2, Hn, (proj2 (Z.leb_gt _ _)) by done. cbn [orb negb].
    fold worst. rewrite (proj2 (Z.eqb_neq _ _)) by done.
    by rewrite !bool_decide_eq_false_2 by done. }
  pose proof (sweep_ioc_slices o b vs worst Hq) as Hsl. fold levels in Hsl.
  pose proof (leaves_range o).
  pose proof (ioc_allocs vs levels (leaves_qty o) ltac:(mlia)) as (_ & Hr & _ & Hs & Hk).
  split_and!.
  - unfold sweep_ioc. rewrite ioc_scan_band. fold levels.
    destruct (fold_left _ _ _) as [allocs r]. cbn in Hr, Hs, Hk.
    rewrite sort_slices_perm, (sum_collect_eq _ _ _ total_qty); [|done| |].
    + rewrite Hs, Hr, (sum_takes vs lv_available).
      assert (sum_by (fun l => sum_by lv_available (level_contributions vs l)) levels =
              sum_by (level_supply vs) levels) as ->; [|lia].
      clear -Hlv. induction Hlv as [|l ls Hl _ IH]; [done|].
      by rewrite !sum_by_cons, IH, contributions_supply.
    + intros k a (? & _)%Hk. apply Z.leb_gt. lia.
    + etransitivity; [|exact Hlen]. apply map_entries_length.
      intros k a (_ & p & (_ & _ & Hv)%takes_elem & <- & _)%Hk. done.
  - unfold sweep_ioc. destruct (ioc_scan _ _ _ _ _) as [allocs r].
    rewrite sort_slices_perm. by apply collect_NoDup.
  - eapply Forall_impl; [exact Hsl|]. intros sl (Hv & [? ?] & (l & Hl & ->) & Ht & Hi).
    apply band_within in Hl as (_ & _ & Hl%beyond_price_ok). by repeat split.
Qed.

Lemma ioc_sweep_exact_witness :
  sum_by sl_quantity (route (mk 100000000) (sample_buy 9950000000 150) sample_nbbo
                        sample_agg_book sample_scores) = 150.
Proof.
  refine (eq_trans (proj1 (ioc_sweep_exact (mk 100000000) (sample_buy 9950000000 150) sample_nbbo
    sample_agg_book sample_scores _ _ _ _ _ _ _ _)) _).
  - discriminate.
  - reflexivity.
  - reflexivity.
  - vm_compute; discriminate.
  - discriminate.
  - discriminate.
  - vm_compute; lia.
  - repeat constructor.
  - vm_compute; reflexivity.
Defined.
