(* ===== verification/Vwap.v ===== *)
(** * VWAP (sor/routing/vwap.h, vwap.cpp)

    The strategy keeps the schedule of one parent order and answers each
    [route] with one child slice.  The sizes go through floating point; the
    theorems rest on the integer clamps around it. *)

From S2P Require Import Prelude Double Types Book Aggregator Strategy.

Module VWAPStrategy.

Record Config := mkConfig {
  duration : Z;                       (* microseconds *)
  num_slices : Z;                     (* uint32_t *)
  urgency : double;
  max_participation_rate : double
}.

Definition default_Config : Config :=
  mkConfig (30 * 60 * 1000000) 30 (d_lit 5 1) (d_lit 25 2).

Record t := mk {
  config_ : Config;
  total_quantity_ : Quantity;
  filled_so_far_ : Quantity;
  start_time_ : Timestamp;
  end_time_ : Timestamp;
  slices_sent_ : Z
}.

Definition create (cfg : Config) : t := mk cfg 0 0 0 0 0.

Definition begin (s : t) (total : Quantity) (start : Timestamp) : t :=
  { s with total_quantity_ := total; filled_so_far_ := 0; slices_sent_ := 0;
           start_time_ := start; end_time_ := start +! (duration (config_ s) * 1000) }.

Definition on_fill (s : t) (filled_qty : Quantity) : t :=
  let filled := filled_so_far_ s +! filled_qty in
  { s with filled_so_far_ := if filled >? total_quantity_ s then total_quantity_ s else filled }.

Definition set_config (s : t) (cfg : Config) : t := { s with config_ := cfg }.

Definition fill_progress (s : t) : double :=
  if total_quantity_ s <=? 0 then d_of_Z 1
  else ddiv (d_of_Z (filled_so_far_ s)) (d_of_Z (total_quantity_ s)).

Definition time_progress (s : t) (now : Timestamp) : double :=
  if now >=? end_time_ s then d_of_Z 1
  else if now <=? start_time_ s then d_of_Z 0
  else
    let elapsed := (now -! start_time_ s) /! 1000 in
    let total := (end_time_ s -! start_time_ s) /! 1000 in
    if total <=? 0 then d_of_Z 1 else ddiv (d_of_Z elapsed) (d_of_Z total).

Definition participation_rate (s : t) (now : Timestamp) : double :=
  let tp := time_progress s now in
  if dleb tp (d_of_Z 0) then d_of_Z 0 else ddiv (fill_progress s) tp.

Definition is_complete (s : t) : bool := filled_so_far_ s >=? total_quantity_ s.

Definition accel (s : t) (now : Timestamp) : double :=
  let one := d_of_Z 1 in
  let drift := dsub (time_progress s now) (fill_progress s) in
  let u := urgency (config_ s) in
  if dgtb drift (d_of_Z 0)
  then std_min_d (dadd one (dmul (dmul u drift) (d_of_Z 2))) (d_of_Z 3)
  else std_max_d (dadd one (dmul (dsub one u) drift)) (d_lit 25 2).

Definition participation_cap (s : t) (slice_qty : Quantity) : Quantity :=
  let rate := max_participation_rate (config_ s) in
  if dgtb rate (d_of_Z 0) && dltb rate (d_of_Z 1)
  then Z.min slice_qty
         (Z.max 1 (i64_of_d (dmul (d_of_Z (total_quantity_ s)) rate)))
  else slice_qty.

Definition compute_slice_quantity (s : t) (now : Timestamp) : Quantity :=
  if (total_quantity_ s <=? 0) || (num_slices (config_ s) =? 0) then 0
  else
    let remaining := total_quantity_ s -! filled_so_far_ s in
    if remaining <=? 0 then 0
    else
      let base_slice := Z.max 1 (total_quantity_ s /! num_slices (config_ s)) in
      let slice_qty := i64_of_d (dmul (d_of_Z base_slice) (accel s now)) in
      let slice_qty := participation_cap s slice_qty in
      Z.max 1 (Z.min slice_qty remaining).

(** ** Venue selection *)

Record Candidate := mkCandidate {
  cd_venue_id : VenueId;
  cd_price : Price;
  cd_quality : double;
  cd_found : bool
}.

Definition no_candidate : Candidate := mkCandidate 0 INVALID_PRICE (d_of_Z (-1)) false.

Definition adjusted (side : Side) (p : Price) (fee : double) : Price :=
  let raw := to_double p in
  match side with
  | Buy => to_price (dmul raw (dadd (d_of_Z 1) fee))
  | Sell => to_price (dmul raw (dsub (d_of_Z 1) fee))
  end.

Definition quality (score : VenueScore) : double :=
  let kBaseline := d_of_Z 1000 in
  let lat := if dgtb (latency_us score) (d_of_Z 0) then latency_us score else kBaseline in
  dadd (dmul (d_lit 7 1) (fill_rate score)) (dmul (d_lit 3 1) (ddiv kBaseline lat)).

(** The incumbent's price is adjusted with the newcomer's fee. *)
Definition is_better (side : Side) (adj : Price) (score : VenueScore) (best : Candidate) : bool :=
  if negb (cd_found best) then true
  else
    let incumbent := adjusted side (cd_price best) (fee_rate score) in
    match side with
    | Buy => (adj <? incumbent) || ((adj =? incumbent) && dgtb (quality score) (cd_quality best))
    | Sell => (adj >? incumbent) || ((adj =? incumbent) && dgtb (quality score) (cd_quality best))
    end.

Definition consider (side : Side) (venues : list VenueScore) (level : AggregatedLevel)
    (best : Candidate) (vq : VenueQuantity) : Candidate :=
  if vq_quantity vq <=? 0 then best
  else match find_score venues (vq_venue vq) with
  | None => best
  | Some score =>
      if is_better side (adjusted side (al_price level) (fee_rate score)) score best
      then mkCandidate (vq_venue vq) (al_price level) (quality score) true
      else best
  end.

(** The loop over the levels, which ends at the first level with a candidate
    unless the urgency is high. *)
Fixpoint scan (s : t) (side : Side) (venues : list VenueScore) (levels : list AggregatedLevel)
    (best : Candidate) : Candidate :=
  match levels with
  | [] => best
  | level :: levels =>
      if skip_level level then scan s side venues levels best
      else
        let best := fold_left (consider side venues level) (level_venues level) best in
        if cd_found best && dltb (urgency (config_ s)) (d_lit 8 1) then best
        else scan s side venues levels best
  end.

Definition get_next_slice (s : t) (order : Order) (nbbo : NBBO.t) (book : AggregatedBook)
    (venues : list VenueScore) (now : Timestamp) : RoutingDecision * t :=
  if is_complete s || bool_decide (venues = []) || negb (NBBO.valid nbbo) then ([], s)
  else
    let slice_qty := compute_slice_quantity s now in
    if slice_qty <=? 0 then ([], s)
    else
      let best := scan s (o_side order) venues (side_levels (o_side order) book) no_candidate in
      if negb (cd_found best) then ([], s)
      else ([mkSlice (cd_venue_id best) (cd_price best) slice_qty OT_Limit TIF_IOC],
            { s with slices_sent_ ::= (fun n => u32 (n + 1)) }).

(** [clk 0] is the reading of the automatic [begin], [clk 1] the one of
    [time_progress]. *)
Definition route (s : t) (order : Order) (nbbo : NBBO.t) (book : AggregatedBook)
    (venues : list VenueScore) (clk : Clock) : RoutingDecision * t :=
  let s := if (total_quantity_ s =? 0) && (leaves_qty order >? 0)
           then begin s (o_quantity order) (clk 0%nat) else s in
  get_next_slice s order nbbo book venues (clk 1%nat).

(** ** Facts *)

(** The schedule: something to do, nothing overdone. *)
Definition schedule_ok (s : t) : Prop :=
  0 <= filled_so_far_ s <= total_quantity_ s /\ total_quantity_ s <= INT64_MAX.

Lemma begin_ok s total now : 0 <= total <= INT64_MAX -> schedule_ok (begin s total now).
Proof. intros. unfold schedule_ok; cbn. lia. Qed.

Lemma on_fill_ok s q :
  schedule_ok s -> 0 <= q -> filled_so_far_ s + q <= INT64_MAX ->
  schedule_ok (on_fill s q) /\
  filled_so_far_ (on_fill s q) = Z.min (total_quantity_ s) (filled_so_far_ s + q).
Proof.
  destruct s. unfold on_fill, schedule_ok. fields. intros [? ?] ? ?. rewrite i64_id by mlia.
  destruct (Z.gtb_spec (filled_so_far_0 + q) total_quantity_0); lia.
Qed.

Lemma compute_slice_bounds s now :
  schedule_ok s -> is_complete s = false -> 0 < num_slices (config_ s) ->
  1 <= compute_slice_quantity s now <= total_quantity_ s - filled_so_far_ s.
Proof.
  intros [? ?] Hc%not_true_iff_false Hn. unfold is_complete in Hc.
  rewrite Z.geb_le in Hc. unfold compute_slice_quantity.
  rewrite (proj2 (Z.leb_gt _ _)), (proj2 (Z.eqb_neq _ _)) by lia. cbn [orb].
  cbv zeta. rewrite (i64_id (_ - _)) by mlia. rewrite (proj2 (Z.leb_gt _ _)) by lia. lia.
Qed.

Lemma compute_slice_pos s now : 0 <= compute_slice_quantity s now.
Proof. unfold compute_slice_quantity. destruct (_ || _); [done|]. destruct (_ <=? 0); lia. Qed.

(** The candidate is a quote of an available venue at one of the levels. *)
Definition candidate_ok (venues : list VenueScore) (levels : list AggregatedLevel)
    (c : Candidate) : Prop :=
  cd_found c = true ->
  is_Some (find_score venues (cd_venue_id c)) /\
  exists level vq, level ∈ levels /\ vq ∈ level_venues level /\ al_price level = cd_price c /\
    vq_venue vq = cd_venue_id c /\ 0 < vq_quantity vq.

Lemma level_candidate side venues levels level best :
  level ∈ levels -> candidate_ok venues levels best ->
  candidate_ok venues levels
    (fold_left (consider side venues level) (level_venues level) best).
Proof.
  intros Hl H0. apply (fold_left_inv _ (fun c _ => candidate_ok venues levels c)); [done|].
  intros c _ vq Hin Hc. unfold consider. destruct (Z.leb_spec (vq_quantity vq) 0); [done|].
  destruct (find_score venues (vq_venue vq)) as [score|] eqn:E; [|done].
  destruct (is_better _ _ _ _); [|done]. intros _. cbn. split; [by eexists|].
  by exists level, vq.
Qed.

Lemma scan_candidate s side venues levels : 
  candidate_ok venues levels (scan s side venues levels no_candidate).
Proof.
  assert (forall ls best, (forall l, l ∈ ls -> l ∈ levels) -> candidate_ok venues levels best ->
    candidate_ok venues levels (scan s side venues ls best)) as H.
  { induction ls as [|l ls IH]; intros best Hls Hb; cbn; [done|].
    assert (forall l, l ∈ ls -> l ∈ levels) by (intros; apply Hls; by right).
    destruct (skip_level l); [by apply IH|].
    pose proof (level_candidate side venues levels l best (Hls l ltac:(by left)) Hb).
    destruct (_ && _); [done|by apply IH]. }
  by apply H.
Qed.

Lemma vwap_slices_ok s o n b vs clk : Forall (slice_ok vs) (route s o n b vs clk).1.
Proof.
  unfold route. generalize (if (total_quantity_ s =? 0) && (leaves_qty o >? 0)
    then begin s (o_quantity o) (clk 0%nat) else s). clear s. intros s.
  unfold get_next_slice. destruct (_ || _); [constructor|].
  destruct (Z.leb_spec (compute_slice_quantity s (clk 1%nat)) 0); [constructor|].
  pose proof (scan_candidate s (o_side o) vs (side_levels (o_side o) b)) as Hc.
  unfold candidate_ok in Hc. destruct (cd_found _); cbn [negb]; [|constructor].
  constructor; [|constructor]. split; [by apply Hc|done].
Qed.

(** What happens to the strategy during one parent order. *)
Inductive event :=
| EvRoute (o : Order) (n : NBBO.t) (b : AggregatedBook) (vs : list VenueScore) (clk : Clock)
| EvFill (q : Quantity).

Definition step (s : t) (e : event) : t :=
  match e with
  | EvRoute o n b vs clk => (route s o n b vs clk).2
  | EvFill q => on_fill s q
  end.

Definition run (s : t) (events : list event) : t := fold_left step events s.

Definition filled_by (e : event) : Z := match e with EvRoute _ _ _ _ _ => 0 | EvFill q => q end.

Lemma get_next_slice_state s o n b vs now :
  let s' := (get_next_slice s o n b vs now).2 in
  config_ s' = config_ s /\ total_quantity_ s' = total_quantity_ s /\
  filled_so_far_ s' = filled_so_far_ s.
Proof.
  unfold get_next_slice. destruct (_ || _); [done|]. destruct (_ <=? 0); [done|].
  destruct (negb _); [done|]. by destruct s.
Qed.

Lemma route_begun s o n b vs clk :
  0 < total_quantity_ s -> route s o n b vs clk = get_next_slice s o n b vs (clk 1%nat).
Proof. intros H. unfold route. by rewrite (proj2 (Z.eqb_neq _ _)) by lia. Qed.

Lemma run_progress cfg total start events :
  0 < total <= INT64_MAX -> Forall (fun e => 0 <= filled_by e) events ->
  sum_by filled_by events <= INT64_MAX ->
  let s := run (begin (create cfg) total start) events in
  config_ s = cfg /\ total_quantity_ s = total /\
  filled_so_far_ s = Z.min total (sum_by filled_by events).
Proof.
  intros Ht. unfold run. apply (fold_left_inv step (fun s seen =>
    Forall (fun e => 0 <= filled_by e) seen -> sum_by filled_by seen <= INT64_MAX ->
    config_ s = cfg /\ total_quantity_ s = total /\
    filled_so_far_ s = Z.min total (sum_by filled_by seen))).
  - intros _ _. cbn. rewrite sum_by_nil. split_and!; [done..|lia].
  - intros s seen e _ IH [Hs [He _]%Forall_cons]%Forall_app.
    rewrite sum_by_app, sum_by_cons, sum_by_nil. intros Hmax.
    assert (0 <= sum_by filled_by seen) by by apply sum_by_nonneg.
    destruct (IH Hs ltac:(lia)) as (Hc & Hq & Hf). destruct e as [o n b vs clk|q]; cbn [step filled_by] in *.
    + rewrite route_begun by lia.
      destruct (get_next_slice_state s o n b vs (clk 1%nat)) as (-> & -> & ->).
      split_and!; [done..|lia].
    + assert (schedule_ok s) as Hok by (unfold schedule_ok; lia).
      assert (config_ (on_fill s q) = config_ s /\
              total_quantity_ (on_fill s q) = total_quantity_ s) as [-> ->] by by destruct s.
      split_and!; [done..|].
      assert (filled_so_far_ s + q <= INT64_MAX) as Hle by mlia.
      destruct (on_fill_ok s q Hok He Hle) as [_ ->]. lia.
Qed.

(** *** The level the passive scan stops at *)

Definition quoted (venues : list VenueScore) (level : AggregatedLevel) : bool :=
  negb (skip_level level) &&
  existsb (fun vq => (vq_quantity vq >? 0) && indexed venues (vq_venue vq)) (level_venues level).

Lemma level_scan side venues level best :
  let c := fold_left (consider side venues level) (level_venues level) best in
  cd_found best = false ->
  if existsb (fun vq => (vq_quantity vq >? 0) && indexed venues (vq_venue vq)) (level_venues level)
  then cd_found c = true /\ cd_price c = al_price level else c = best.
Proof.
  cbv zeta. intros Hb. generalize (level_venues level) as vqs. intros vqs.
  apply (fold_left_inv (consider side venues level) (fun c seen =>
    if existsb (fun vq => (vq_quantity vq >? 0) && indexed venues (vq_venue vq)) seen
    then cd_found c = true /\ cd_price c = al_price level else c = best)); [done|].
  intros c seen vq _ IH. rewrite existsb_app. cbn [existsb]. rewrite orb_false_r.
  unfold consider. destruct (Z.leb_spec (vq_quantity vq) 0) as [Hq|Hq].
  { rewrite Z.gtb_ltb, (proj2 (Z.ltb_ge _ _)) by lia. by rewrite orb_false_r. }
  rewrite Z.gtb_ltb, (proj2 (Z.ltb_lt _ _)) by lia. cbn [andb].
  pose proof (indexed_find venues (vq_venue vq)) as Hi.
  destruct (find_score venues (vq_venue vq)) as [score|].
  - rewrite (proj2 Hi) by (by eexists). rewrite orb_true_r.
    destruct (existsb _ seen).
    + by destruct (is_better _ _ _ _).
    + subst c. unfold is_better. by rewrite Hb.
  - destruct (indexed venues (vq_venue vq)); [|by rewrite orb_false_r].
    by destruct (proj1 Hi eq_refl).
Qed.

Lemma scan_passive s side venues levels best :
  dltb (urgency (config_ s)) (d_lit 8 1) = true -> cd_found best = false ->
  let c := scan s side venues levels best in
  match List.find (quoted venues) levels with
  | Some level => cd_found c = true /\ cd_price c = al_price level
  | None => c = best
  end.
Proof.
  intros Hu Hb. induction levels as [|level levels IH]; cbn [scan List.find]; [done|].
  unfold quoted at 1. destruct (skip_level level); cbn [negb andb]; [done|].
  pose proof (level_scan side venues level best Hb) as Hl. cbv zeta in Hl.
  destruct (existsb _ _).
  - destruct Hl as [Hf Hp]. rewrite Hf, Hu. done.
  - rewrite Hl, Hb. done.
Qed.

End VWAPStrategy.

#[export] Instance vwap_strategy : RoutingStrategy VWAPStrategy.t := {
  rs_name := "VWAP";
  rs_tag := RS_VWAP;
  rs_route := VWAPStrategy.route;
  rs_ok _ := True;
  rs_route_ok s o n b vs clk _ := VWAPStrategy.vwap_slices_ok s o n b vs clk;
  rs_route_next s o n b vs clk H := H
}.

Import VWAPStrategy.

(** During one parent order the VWAP schedule is never exceeded: after
    any sequence of slices and fills the recorded progress is the sum of the
    fills capped at the parent's quantity, every further decision is empty or
    one limit IOC slice for at least one unit and at most what is left, quoted
    by an available venue at that price, and once complete there is none. *)
Theorem vwap_schedule cfg total start events o n b vs clk :
  0 < total <= INT64_MAX -> 0 < num_slices cfg ->
  Forall (fun e => 0 <= filled_by e) events -> sum_by filled_by events <= INT64_MAX ->
  let s := run (begin (create cfg) total start) events in
  let d := (route s o n b vs clk).1 in
  filled_so_far_ s = Z.min total (sum_by filled_by events) /\
  (total <= sum_by filled_by events -> d = []) /\
  (d <> [] -> exists venue p q, d = [mkSlice venue p q OT_Limit TIF_IOC] /\
     1 <= q <= total - sum_by filled_by events /\ is_Some (find_score vs venue) /\
     exists level vq, level ∈ side_levels (o_side o) b /\ vq ∈ level_venues level /\
       al_price level = p /\ vq_venue vq = venue /\ 0 < vq_quantity vq).
Proof.
  intros Ht Hn He Hmax s d.
  destruct (run_progress cfg total start events Ht He Hmax) as (Hc & Hq & Hf). fold s in Hc, Hq, Hf.
  split; [done|]. subst d. rewrite route_begun by lia. unfold get_next_slice.
  destruct (is_complete s) eqn:Ec; cbn [orb].
  { split; [done|]. by intros []. }
  assert (0 <= sum_by filled_by events) by by apply sum_by_nonneg.
  assert (schedule_ok s) as Hok by (unfold schedule_ok; lia).
  pose proof (compute_slice_bounds s (clk 1%nat) Hok Ec ltac:(by rewrite Hc)) as Hb.
  unfold is_complete in Ec. rewrite Z.geb_leb in Ec. apply Z.leb_gt in Ec.
  destruct (_ || _).
  { split; [done|]. by intros []. }
  rewrite (proj2 (Z.leb_gt _ _)) by lia.
  pose proof (scan_candidate s (o_side o) vs (side_levels (o_side o) b)) as Hs.
  unfold candidate_ok in Hs. destruct (cd_found _); cbn [negb]; split; try done; try lia.
  intros _. destruct (Hs eq_refl) as [? (l & vq & ?)].
  eexists _, _, _. split; [done|]. split; [lia|]. split; [done|]. exists l, vq. tauto.
Qed.

Lemma vwap_schedule_witness :
  filled_so_far_ (run (begin (create default_Config) 3000 0)
    [EvFill 40; EvRoute (sample_buy 9950000000 3000) sample_nbbo sample_agg_book sample_scores
                  (fun _ => 5); EvFill 60]) = 100.
Proof.
  refine (eq_trans (proj1 (vwap_schedule default_Config 3000 0 _ default_Order sample_nbbo
    sample_agg_book sample_scores (fun _ => 0) _ _ _ _)) _).
  - split; reflexivity || discriminate.
  - reflexivity.
  - repeat constructor; discriminate.
  - vm_compute; discriminate.
  - reflexivity.
Defined.

(** A passive VWAP (urgency below 0.8) takes the top of the book: the
    slice's price is that of the first level of the side at which an available
    venue shows a quantity, and there is no slice when there is no such
    level. *)
Theorem vwap_passive_takes_top s o n b vs clk :
  dltb (urgency (config_ s)) (d_lit 8 1) = true -> schedule_ok s -> is_complete s = false ->
  0 < num_slices (config_ s) -> vs <> [] -> NBBO.valid n = true ->
  sl_price <$> (route s o n b vs clk).1 =
  match List.find (quoted vs) (side_levels (o_side o) b) with
  | Some level => [al_price level]
  | None => []
  end.
Proof.
  intros Hu Hok Hc Hn Hvs Hv.
  assert (0 < total_quantity_ s).
  { destruct Hok. unfold is_complete in Hc. rewrite Z.geb_leb in Hc. apply Z.leb_gt in Hc. lia. }
  rewrite route_begun by lia. unfold get_next_slice. rewrite Hc, Hv, bool_decide_eq_false_2 by done.
  cbn [orb negb]. pose proof (compute_slice_bounds s (clk 1%nat) Hok Hc Hn).
  rewrite (proj2 (Z.leb_gt _ _)) by lia.
  pose proof (scan_passive s (o_side o) vs (side_levels (o_side o) b) no_candidate Hu eq_refl) as Hs.
  cbv zeta in Hs. destruct (List.find _ _).
  - destruct Hs as [-> <-]. done.
  - by rewrite Hs.
Qed.

Lemma vwap_passive_takes_top_witness :
  sl_price <$> (route (begin (create default_Config) 3000 0) (sample_buy 9950000000 3000)
    sample_nbbo sample_agg_book sample_scores (fun _ => 5)).1 = [10000000000].
Proof.
  refine (eq_trans (vwap_passive_takes_top _ _ _ _ _ _ _ _ _ _ _ _) _).
  - vm_compute; reflexivity.
  - split; [split|]; vm_compute; discriminate.
  - reflexivity.
  - reflexivity.
  - discriminate.
  - reflexivity.
  - vm_compute; reflexivity.
Defined.

(** The schedule of the first order sizes the later ones: the strategy
    begins itself only while it has no total, so an order of 5 routed after
    one of 3000 gets a slice of 100, twenty times what it has left. *)
Theorem vwap_later_order_overrouted :
  let s0 := create default_Config in
  let s1 := (route s0 (sample_buy 9950000000 3000) sample_nbbo sample_agg_book sample_scores
              (fun _ => 5)).2 in
  let later := sample_buy 9950000000 5 in
  leaves_qty later = 5 /\
  sl_quantity <$> (route s1 later sample_nbbo sample_agg_book sample_scores (fun _ => 6)).1 = [100].
Proof. vm_compute. done. Qed.
