(* ===== verification/Engine.v ===== *)
(** * RoutingEngine (sor/routing/engine.h, engine.cpp)

    The engine holds strategies behind their interface, so its theorems are
    proved for every strategy that meets the law of [RoutingStrategy]; the
    four strategies of the repository are registered in the witnesses. *)

From S2P Require Import Prelude Double Types RateLimiter Risk Book Aggregator Strategy.
From S2P Require Import Sweep SmartIOC Vwap.

Module RoutingEngine.

(** A strategy object: its class and its current state. *)
Record SomeStrategy := mkSome {
  ss_type : Type;
  ss_class : RoutingStrategy ss_type;
  ss_state : ss_type
}.

Definition ss_tag (s : SomeStrategy) : RoutingStrategyTag := @rs_tag _ (ss_class s).
Definition ss_ok (s : SomeStrategy) : Prop := @rs_ok _ (ss_class s) (ss_state s).

(** [strategy->route(...)], which may change the object. *)
Definition ss_route (s : SomeStrategy) (o : Order) (n : NBBO.t) (b : AggregatedBook)
    (vs : list VenueScore) (clk : Clock) : RoutingDecision * SomeStrategy :=
  let '(d, st) := @rs_route _ (ss_class s) (ss_state s) o n b vs clk in
  (d, mkSome (ss_type s) (ss_class s) st).

Record Stats := mkStats { orders_routed : Z; orders_rejected : Z; total_slices : Z }.

Record t := mk {
  strategies_ : RoutingStrategyTag -> option SomeStrategy;
  venue_scores_ : gmap VenueId VenueScore;
  order_callback_ : bool;
  reject_callback_ : bool;
  stats_ : Stats
}.

(** The calls of the two callbacks. *)
Inductive event :=
| OrderCallback (o : Order)
| RejectCallback (o : Order) (reason : string).

Definition create : t := mk (fun _ => None) ∅ false false (mkStats 0 0 0).

Definition put_strategy (e : t) (s : SomeStrategy) : t :=
  { e with strategies_ ::= fun ss tag => if decide (tag = ss_tag s) then Some s else ss tag }.

(** The argument is a [unique_ptr], possibly null. *)
Definition register_strategy (e : t) (strategy : option SomeStrategy) : t :=
  match strategy with Some s => put_strategy e s | None => e end.

Definition update_venue_score (e : t) (venue : VenueId) (score : VenueScore) : t :=
  { e with venue_scores_ ::= fun vs => <[venue := { score with vs_venue_id := venue }]> vs }.

Definition remove_venue (e : t) (venue : VenueId) : t :=
  { e with venue_scores_ ::= fun vs => delete venue vs }.

Definition set_order_callback (e : t) : t := { e with order_callback_ := true }.
Definition set_reject_callback (e : t) : t := { e with reject_callback_ := true }.
Definition get_stats (e : t) : Stats := stats_ e.

Definition get_strategy (e : t) (tag : RoutingStrategyTag) : option SomeStrategy :=
  strategies_ e tag.

Definition reject (e : t) (o : Order) (reason : string) : t * list event :=
  ({ e with stats_ ::= fun st => { st with orders_rejected ::= fun n => u64 (n + 1) } },
   if reject_callback_ e then [RejectCallback o reason] else []).

Definition accept (e : t) (o : Order) (d : RoutingDecision) : t * list event :=
  ({ e with stats_ ::= fun st => { st with orders_routed ::= fun n => u64 (n + 1);
                                           total_slices ::= fun n => u64 (n + Z.of_nat (length d)) } },
   if order_callback_ e then [OrderCallback o] else []).

Section route.
Context {SS : StdSort} {UM : UnorderedMap}.

Definition get_available_venues (e : t) : list VenueScore :=
  List.filter is_available (snd <$> map_entries (venue_scores_ e)).

(** The steps of [route_order].  [risk_now] is the reading the rate limiter
    makes inside [check_order]; [clk] are those of the strategy. *)
Definition route_order (e : t) (risk : RiskManager.t) (md : MarketDataAggregator.t)
    (order : Order) (risk_now : Timestamp) (clk : Clock)
    : RoutingDecision * t * RiskManager.t * list event :=
  let refuse e risk reason := let '(e, evs) := reject e order reason in ([], e, risk, evs) in
  if FixedString.empty (o_symbol order) then refuse e risk "empty symbol"%string
  else if o_quantity order <=? 0 then refuse e risk "invalid quantity"%string
  else if bool_decide (o_type order = OT_Limit) && (o_price order <=? 0)
  then refuse e risk "limit order with non-positive price"%string
  else
    let '(result, risk) := RiskManager.check_order risk order risk_now in
    if negb (bool_decide (result = Passed)) then refuse e risk (RiskManager.to_string result)
    else
      let nbbo := MarketDataAggregator.get_nbbo md (o_symbol order) in
      if negb (NBBO.valid nbbo) then refuse e risk "no valid NBBO for symbol"%string
      else
        let book := MarketDataAggregator.get_aggregated_book md (o_symbol order) in
        match get_strategy e (o_strategy order) with
        | None => refuse e risk "no strategy registered for requested type"%string
        | Some strategy =>
            let venues := get_available_venues e in
            if bool_decide (venues = []) then refuse e risk "no available venues"%string
            else
              let '(decision, strategy) := ss_route strategy order nbbo book venues clk in
              let e := put_strategy e strategy in
              if decision_valid decision
              then let '(e, evs) := accept e order decision in (decision, e, risk, evs)
              else let '(e, evs) := reject e order "strategy returned empty decision" in
                   (decision, e, risk, evs)
        end.

(** ** Invariant: strategies sit under their own tag and meet their law, scores
    under their own venue. *)

Definition engine_ok (e : t) : Prop :=
  (forall tag s, strategies_ e tag = Some s -> ss_tag s = tag /\ ss_ok s) /\
  (forall v s, venue_scores_ e !! v = Some s -> vs_venue_id s = v).

Lemma create_ok : engine_ok create.
Proof. split; [done|]. intros v s. cbn. by rewrite lookup_empty. Qed.

Lemma put_strategy_ok e s : engine_ok e -> ss_ok s -> engine_ok (put_strategy e s).
Proof.
  intros [Hs Hv] Hok. destruct e. split; [|done]. intros tag s'. fields.
  case_decide; [intros [= <-]; done|apply Hs].
Qed.

Lemma update_venue_score_ok e v s : engine_ok e -> engine_ok (update_venue_score e v s).
Proof.
  intros [Hs Hv]. destruct e. split; [done|]. fields. intros v' s' [[<- <-]|[_ H]]%lookup_insert_Some.
  - by destruct s.
  - by apply Hv.
Qed.

Lemma remove_venue_ok e v : engine_ok e -> engine_ok (remove_venue e v).
Proof. intros [Hs Hv]. destruct e. split; [done|]. fields. intros v' s' [_ H]%lookup_delete_Some. by apply Hv. Qed.

Lemma available_venues_elem e s :
  s ∈ get_available_venues e <->
  exists v, venue_scores_ e !! v = Some s /\ is_available s = true.
Proof.
  unfold get_available_venues. rewrite list_elem_of_In, filter_In, <- list_elem_of_In.
  rewrite list_elem_of_fmap. split.
  - intros [([v s'] & -> & H%map_entries_elem) ?]. by exists v.
  - intros (v & H%map_entries_elem & ?). split; [|done]. by exists (v, s).
Qed.

(** The venues the strategies see are the registered available ones. *)
Lemma available_score e v :
  engine_ok e -> is_Some (find_score (get_available_venues e) v) ->
  exists s, venue_scores_ e !! v = Some s /\ is_available s = true.
Proof.
  intros [_ Hv] [s Hs]. apply find_some in Hs as [Hin [Eq%Z.eqb_eq Ha]%andb_true_iff].
  apply list_elem_of_In, available_venues_elem in Hin as (v' & Hl & _).
  exists s. split; [|done]. pose proof (Hv _ _ Hl). congruence.
Qed.

Lemma ss_route_ok s o n b vs clk :
  ss_ok s -> Forall (slice_ok vs) (ss_route s o n b vs clk).1 /\
             ss_ok (ss_route s o n b vs clk).2 /\ ss_tag (ss_route s o n b vs clk).2 = ss_tag s.
Proof.
  intros H. unfold ss_route, ss_ok in *.
  pose proof (@rs_route_ok _ (ss_class s) _ o n b vs clk H) as H1.
  pose proof (@rs_route_next _ (ss_class s) _ o n b vs clk H) as H2.
  by destruct (@rs_route _ (ss_class s) (ss_state s) o n b vs clk).
Qed.

(** ** The outcome of a call *)

(** The conditions a decision implies, in the order they are checked. *)
Definition admitted (e : t) (risk : RiskManager.t) (md : MarketDataAggregator.t)
    (o : Order) (now : Timestamp) : Prop :=
  FixedString.empty (o_symbol o) = false /\ 0 < o_quantity o /\
  (o_type o = OT_Limit -> 0 < o_price o) /\
  (RiskManager.check_order risk o now).1 = Passed /\
  NBBO.valid (MarketDataAggregator.get_nbbo md (o_symbol o)) = true /\
  get_strategy e (o_strategy o) <> None /\ get_available_venues e <> [].

(** What one call does to the statistics, given its decision. *)
Definition counted_call (e e' : t) (d : RoutingDecision) : Prop :=
  orders_routed (stats_ e') =
    (if decision_valid d then u64 (orders_routed (stats_ e) + 1) else orders_routed (stats_ e)) /\
  orders_rejected (stats_ e') =
    (if decision_valid d then orders_rejected (stats_ e) else u64 (orders_rejected (stats_ e) + 1)) /\
  total_slices (stats_ e') =
    (if decision_valid d then u64 (total_slices (stats_ e) + Z.of_nat (length d))
     else total_slices (stats_ e)).

Definition told (e : t) (o : Order) (d : RoutingDecision) (evs : list event) : Prop :=
  if decision_valid d then evs = if order_callback_ e then [OrderCallback o] else []
  else exists reason, evs = if reject_callback_ e then [RejectCallback o reason] else [].

(** The outcome of a call that sees [e] and may leave a strategy changed. *)
Definition outcome (e : t) (risk : RiskManager.t) (md : MarketDataAggregator.t) (o : Order)
    (now : Timestamp) (r : RoutingDecision * t * RiskManager.t * list event) : Prop :=
  let '(d, e', risk', evs) := r in
  engine_ok e' /\ counted_call e e' d /\ told e o d evs /\
  venue_scores_ e' = venue_scores_ e /\
  (d <> [] -> admitted e risk md o now) /\
  Forall (fun sl => 0 < sl_quantity sl /\
    exists s, venue_scores_ e !! sl_venue_id sl = Some s /\ is_available s = true) d.

Lemma reject_outcome e e0 risk risk' md o now reason :
  engine_ok e0 -> stats_ e0 = stats_ e -> venue_scores_ e0 = venue_scores_ e ->
  reject_callback_ e0 = reject_callback_ e ->
  outcome e risk md o now
    (let '(e', evs) := reject e0 o reason in ([], e', risk', evs)).
Proof.
  intros Hok Est Ev Er. unfold reject, outcome. split_and!.
  - by destruct e0.
  - unfold counted_call. cbn [decision_valid negb bool_decide]. destruct e0, stats_0. cbn in *.
    subst. fields. rewrite <- Est. done.
  - unfold told. cbn. exists reason. by rewrite Er.
  - by destruct e0.
  - done.
  - constructor.
Qed.

Lemma route_order_outcome e risk md o now clk :
  engine_ok e -> outcome e risk md o now (route_order e risk md o now clk).
Proof.
  intros Hok. unfold route_order. cbv zeta.
  destruct (FixedString.empty (o_symbol o)) eqn:E1; [by apply reject_outcome|].
  destruct (Z.leb_spec (o_quantity o) 0) as [|Hq]; [by apply reject_outcome|].
  destruct (bool_decide (o_type o = OT_Limit) && _) eqn:E2; [by apply reject_outcome|].
  destruct (RiskManager.check_order risk o now) as [res risk'] eqn:E3.
  destruct (bool_decide_reflect (res = Passed)) as [->|Hres]; cbn [negb]; [|by apply reject_outcome].
  destruct (NBBO.valid _) eqn:E4; cbn [negb]; [|by apply reject_outcome].
  destruct (get_strategy e (o_strategy o)) as [s|] eqn:E5; [|by apply reject_outcome].
  destruct (bool_decide_reflect (get_available_venues e = [])) as [|Hvs]; [by apply reject_outcome|].
  pose proof (proj1 Hok _ _ E5) as [Htag Hs].
  destruct (ss_route_ok s o (MarketDataAggregator.get_nbbo md (o_symbol o))
    (MarketDataAggregator.get_aggregated_book md (o_symbol o)) (get_available_venues e) clk Hs)
    as (Hsl & Hs' & Htag').
  destruct (ss_route _ _ _ _ _ _) as [d s']. cbn in Hsl, Hs', Htag'.
  pose proof (put_strategy_ok e s' Hok Hs') as Hok'.
  destruct (decision_valid d) eqn:Ed.
  2: { unfold decision_valid in Ed. apply negb_false_iff, bool_decide_eq_true in Ed as ->.
       by apply reject_outcome; [|destruct e..]. }
  unfold accept, outcome. split_and!.
  - by destruct e.
  - unfold counted_call. rewrite Ed. destruct e as [? ? ? ? []]. fields. done.
  - unfold told. rewrite Ed. by destruct e.
  - by destruct e.
  - intros _. unfold admitted. rewrite E3, E4, E5. split_and!; try done.
    intros Ht. rewrite bool_decide_eq_true_2 in E2 by done. cbn in E2. by apply Z.leb_gt.
  - eapply Forall_impl; [exact Hsl|]. intros sl [Hf Hp]. split; [done|]. by apply available_score.
Qed.

(** ** Histories: any use of the engine; the risk manager and the market data
    may be in any state at each call, since other threads change them. *)

Inductive op :=
| ORegister (s : SomeStrategy)
| OScore (v : VenueId) (s : VenueScore)
| ORemove (v : VenueId)
| OOrderCb | ORejectCb
| ORoute (risk : RiskManager.t) (md : MarketDataAggregator.t) (o : Order) (now : Timestamp)
         (clk : Clock).

Definition op_ok (x : op) : Prop := match x with ORegister s => ss_ok s | _ => True end.

(** The engine after an operation, with the decision of a [route_order]. *)
Definition do_op (e : t) (x : op) : t * list RoutingDecision :=
  match x with
  | ORegister s => (register_strategy e (Some s), [])
  | OScore v s => (update_venue_score e v s, [])
  | ORemove v => (remove_venue e v, [])
  | OOrderCb => (set_order_callback e, [])
  | ORejectCb => (set_reject_callback e, [])
  | ORoute risk md o now clk =>
      let '(d, e, _, _) := route_order e risk md o now clk in (e, [d])
  end.

Definition history (ops : list op) : t * list RoutingDecision :=
  fold_left (fun '(e, ds) x => let '(e, new) := do_op e x in (e, ds ++ new)) ops (create, []).

(** The statistics are those of the decisions. *)
Definition accounted (e : t) (ds : list RoutingDecision) : Prop :=
  stats_ e =
    mkStats (u64 (Z.of_nat (length (List.filter decision_valid ds))))
            (u64 (Z.of_nat (length (List.filter (fun d => negb (decision_valid d)) ds))))
            (u64 (sum_by (fun d => Z.of_nat (length d)) ds)).

Lemma accounted_call e e' ds d :
  accounted e ds -> counted_call e e' d -> accounted e' (ds ++ [d]).
Proof.
  unfold accounted, counted_call. intros ->. cbn [orders_routed orders_rejected total_slices].
  rewrite !List.filter_app, !length_app, sum_by_app, sum_by_cons, sum_by_nil. cbn [List.filter].
  destruct (stats_ e') as [a b c]. cbn. intros (-> & -> & ->).
  destruct (decision_valid d) eqn:Ed; cbn [negb length]; rewrite ?u64_add_l;
    f_equal; f_equal; try lia.
  unfold decision_valid in Ed. apply negb_false_iff, bool_decide_eq_true in Ed as ->. cbn. lia.
Qed.

Lemma history_ok ops :
  Forall op_ok ops ->
  let '(e, ds) := history ops in engine_ok e /\ accounted e ds.
Proof.
  unfold history. apply (fold_left_inv _ (fun st seen => Forall op_ok seen ->
    let '(e, ds) := st in engine_ok e /\ accounted e ds)).
  - intros _. split; [apply create_ok|done].
  - intros [e ds] seen x _ IH [Hs [Hx _]%Forall_cons]%Forall_app. destruct (IH Hs) as [Hok Hacc].
    destruct x as [s|v s|v| | |risk md o now clk]; cbn [do_op];
      try (rewrite app_nil_r; split; [|destruct e; exact Hacc]).
    + by apply put_strategy_ok.
    + by apply update_venue_score_ok.
    + by apply remove_venue_ok.
    + by destruct e.
    + by destruct e.
    + pose proof (route_order_outcome e risk md o now clk Hok) as Ho.
      destruct (route_order e risk md o now clk) as [[[d e'] risk'] evs].
      destruct Ho as (Hok' & Hc & _). split; [done|by apply (accounted_call e)].
Qed.

Lemma history_call ops risk md o now clk :
  Forall op_ok ops ->
  outcome (history ops).1 risk md o now (route_order (history ops).1 risk md o now clk).
Proof.
  intros H. apply history_ok in H. destruct (history ops) as [e ds].
  apply route_order_outcome, H.
Qed.

End route.

End RoutingEngine.

Import RoutingEngine.

(** C37. Nothing unsafe leaves the engine: after any history of registrations
    and calls, with any strategies that meet the interface's law, a non-empty
    decision implies that the order has a symbol, a positive quantity, a
    positive price if it is a limit order, has passed the risk check of this
    very call and has a valid NBBO, and every slice is for a positive quantity
    at a venue registered and available at that moment; an order that fails a
    check gets an empty decision. *)
Theorem engine_decisions_safe `{!StdSort, !UnorderedMap} ops risk md o now clk :
  Forall op_ok ops ->
  let e := (history ops).1 in
  let d := (route_order e risk md o now clk).1.1.1 in
  (d <> [] -> admitted e risk md o now) /\
  Forall (fun sl => 0 < sl_quantity sl /\
    exists s, venue_scores_ e !! sl_venue_id sl = Some s /\ is_available s = true) d.
Proof.
  intros Hops e d. pose proof (history_call ops risk md o now clk Hops) as Ho.
  subst d. fold e in Ho. destruct (route_order e risk md o now clk) as [[[d e'] risk'] evs].
  by destruct Ho as (_ & _ & _ & _ & ? & ?).
Qed.

(** Every call is accounted for exactly once: after any history the
    engine's statistics are the numbers of non-empty and of empty decisions it
    returned and the number of slices in them, and each call makes exactly one
    callback of the matching kind when that callback is set. *)
Theorem engine_accounts_every_call `{!StdSort, !UnorderedMap} ops risk md o now clk :
  Forall op_ok ops ->
  accounted (history ops).1 (history ops).2 /\
  let '(d, _, _, evs) := route_order (history ops).1 risk md o now clk in
  told (history ops).1 o d evs.
Proof.
  intros Hops. pose proof (history_call ops risk md o now clk Hops) as Ho.
  apply history_ok in Hops. destruct (history ops) as [e ds]. cbn in *.
  split; [apply Hops|]. destruct (route_order e risk md o now clk) as [[[d e'] risk'] evs].
  by destruct Ho as (_ & _ & ? & _).
Qed.

(** *** A concrete engine *)

Definition all_strategies : list op :=
  [ORegister (mkSome unit best_price_strategy tt);
   ORegister (mkSome _ liquidity_sweep_strategy LiquiditySweepStrategy.create);
   ORegister (mkSome _ smart_ioc_strategy SmartIOCStrategy.create);
   ORegister (mkSome _ vwap_strategy (VWAPStrategy.create VWAPStrategy.default_Config))].

Definition venue_book (bid ask : Price) : OrderBook.t :=
  OrderBook.mk (Symbol_of "AAPL") 1
    (BookSide.insert_sorted BookSide.create (mkLevel bid 50 1) true)
    (BookSide.insert_sorted BookSide.create (mkLevel ask 60 1) false) 1 1.

Definition sample_market : MarketDataAggregator.t :=
  let m := MarketDataAggregator.register_venue MarketDataAggregator.create 1 in
  let m := MarketDataAggregator.register_venue m 2 in
  let m := (MarketDataAggregator.on_book_update m 1 (Symbol_of "AAPL")
              (venue_book 9900000000 10000000000) 5).1 in
  (MarketDataAggregator.on_book_update m 2 (Symbol_of "AAPL")
     (venue_book 9800000000 10100000000) 6).1.

Definition sample_history : list op :=
  all_strategies ++
  [OScore 1 (sample_score 1 (d_lit 1 3)); OScore 2 (sample_score 2 (d_lit 1 3)); ORejectCb].

Definition sample_risk : RiskManager.t := RiskManager.create 0.

Definition sample_route (o : Order) : RoutingDecision :=
  (route_order (history sample_history).1 sample_risk sample_market o 1 (fun _ => 2)).1.1.1.

Lemma engine_decisions_safe_witness :
  sample_route (sample_buy 10000000000 60) = [mkSlice 1 10000000000 60 OT_Limit TIF_GTC] /\
  admitted (history sample_history).1 sample_risk sample_market (sample_buy 10000000000 60) 1.
Proof.
  split; [vm_compute; reflexivity|].
  refine (proj1 (engine_decisions_safe sample_history sample_risk sample_market
    (sample_buy 10000000000 60) 1 (fun _ => 2) _) _).
  - repeat constructor; vm_compute; reflexivity.
  - vm_compute; discriminate.
Defined.

Lemma engine_accounts_every_call_witness :
  let ops := sample_history ++
    [ORoute sample_risk sample_market (sample_buy 10000000000 60) 1 (fun _ => 2);
     ORoute sample_risk sample_market (sample_buy 0 60) 1 (fun _ => 2)] in
  stats_ (history ops).1 = mkStats 1 1 1.
Proof.
  cbv zeta. refine (eq_trans (proj1 (engine_accounts_every_call _ sample_risk sample_market
    default_Order 1 (fun _ => 2) _)) _).
  - repeat constructor; vm_compute; reflexivity.
  - vm_compute; reflexivity.
Defined.

(** The limit price is not enforced by routing: no strategy's decision
    depends on the order's price, and a buy limited to 99.50 is routed by each
    of the four strategies in slices priced 100, beyond its limit. *)
Theorem limit_price_not_enforced :
  (forall o p n b vs, BestPriceStrategy.route { o with o_price := p } n b vs =
                      BestPriceStrategy.route o n b vs) /\
  (forall s o p n b vs, LiquiditySweepStrategy.route s { o with o_price := p } n b vs =
                        LiquiditySweepStrategy.route s o n b vs) /\
  (forall s o p n b vs, SmartIOCStrategy.route s { o with o_price := p } n b vs =
                        SmartIOCStrategy.route s o n b vs) /\
  (forall s o p n b vs clk, VWAPStrategy.route s { o with o_price := p } n b vs clk =
                            VWAPStrategy.route s o n b vs clk) /\
  Forall (fun tag => sl_price <$> sample_route { sample_buy 9950000000 30 with o_strategy := tag } =
                     [10000000000])
    [RS_BestPrice; RS_LiquiditySweep; RS_SmartIOC; RS_VWAP].
Proof.
  split_and!; try (intros; destruct o; reflexivity).
  repeat constructor; vm_compute; reflexivity.
Qed.
