(* ===== verification/QueueSpec.v ===== *)
(** * Bounded queues: specification and ring arithmetic

    What a bounded queue promises, as executions of a sequential FIFO, and the
    power-of-two index arithmetic shared by the queues of sor/core. *)

From S2P Require Import Prelude.

(** ** The specification: a bounded FIFO *)

Inductive queue_event (T : Type) :=
| Pushed (x : T) | PushFull (x : T) | Popped (x : T) | PopEmpty.
#[global] Arguments Pushed {T} x.
#[global] Arguments PushFull {T} x.
#[global] Arguments Popped {T} x.
#[global] Arguments PopEmpty {T}.

(** The contents after an event, when the event is allowed. *)
Inductive fifo_step {T} (cap : nat) : list T -> queue_event T -> list T -> Prop :=
| fifo_push q x : (length q < cap)%nat -> fifo_step cap q (Pushed x) (q ++ [x])
| fifo_full q x : length q = cap -> fifo_step cap q (PushFull x) q
| fifo_pop q x : fifo_step cap (x :: q) (Popped x) q
| fifo_empty : fifo_step cap [] PopEmpty [].

Inductive fifo_run {T} (cap : nat) : list (queue_event T) -> list T -> Prop :=
| fifo_nil : fifo_run cap [] []
| fifo_snoc tr q e q' : fifo_run cap tr q -> fifo_step cap q e q' -> fifo_run cap (tr ++ [e]) q'.

Definition pushed {T} (tr : list (queue_event T)) : list T :=
  omap (fun e => match e with Pushed x => Some x | _ => None end) tr.

Definition popped {T} (tr : list (queue_event T)) : list T :=
  omap (fun e => match e with Popped x => Some x | _ => None end) tr.

(** What went in is what came out followed by what is still inside. *)
Lemma fifo_run_conserves {T} cap (tr : list (queue_event T)) q :
  fifo_run cap tr q -> pushed tr = popped tr ++ q /\ (length q <= cap)%nat.
Proof.
  unfold pushed, popped.
  induction 1 as [|tr q e q' Hr [IH Hl] Hs]; [cbn; split; [done|lia]|].
  rewrite !omap_app, IH. destruct Hs; cbn; rewrite ?app_nil_r.
  - rewrite <- app_assoc. rewrite length_app; cbn. split; [done|lia].
  - split; [done|lia].
  - rewrite <- app_assoc. cbn in Hl. split; [done|lia].
  - split; [done|lia].
Qed.

(** ** Rings of [2^k] slots *)

(** The ring fits the index type. *)
Class SmallRing (k : Z) : Prop := small_ring : 0 <= k < 63.

Section ring.
Context (k : Z).

Definition Capacity : Z := 2 ^ k.
Definition MASK : Z := Capacity - 1.

Context {Hk : SmallRing k}.

Lemma Capacity_pos : 0 < Capacity.
Proof. unfold Capacity. pose proof small_ring. lia. Qed.

Lemma Capacity_small : Capacity <= 4611686018427387904.
Proof. change 4611686018427387904 with (2 ^ 62). pose proof small_ring.
  apply Z.pow_le_mono_r; lia. Qed.

Lemma land_mask z : Z.land z MASK = z mod Capacity.
Proof.
  unfold MASK, Capacity. pose proof small_ring. rewrite <- Z.land_ones by lia. f_equal. rewrite Z.ones_equiv. lia.
Qed.

(** The position [i] places after [h] around the ring. *)
Definition ring (h i : Z) : Z := (h + i) mod Capacity.

Lemma ring_range h i : 0 <= ring h i < Capacity.
Proof. apply Z.mod_pos_bound, Capacity_pos. Qed.

Lemma ring_inj h i j :
  0 <= i < Capacity -> 0 <= j < Capacity -> ring h i = ring h j -> i = j.
Proof.
  unfold ring. intros Hi Hj E. pose proof Capacity_pos.
  assert ((i - j) mod Capacity = 0) as Hm.
  { replace (i - j) with ((h + i) - (h + j)) by lia.
    rewrite Zminus_mod, E, Z.sub_diag. apply Z.mod_0_l. lia. }
  apply Z.mod_divide in Hm as [z Hz]; [|lia].
  assert (z < 1) by nia. assert (-1 < z) by nia. assert (z = 0) as -> by lia. lia.
Qed.

Lemma ring_0 h : 0 <= h < Capacity -> ring h 0 = h.
Proof. intros. unfold ring. rewrite Z.add_0_r. by apply Z.mod_small. Qed.

(** Every position shares its slot with exactly one position of a window of
    [Capacity] positions. *)
Lemma window_position (r pos : Z) :
  exists p, r <= p < r + Capacity /\ p mod Capacity = pos mod Capacity /\
    exists z, p = pos + z * Capacity.
Proof.
  pose proof Capacity_pos. exists (r + (pos - r) mod Capacity).
  pose proof (Z.mod_pos_bound (pos - r) Capacity). split; [lia|]. split.
  - rewrite Z.add_mod_idemp_r by lia. f_equal. lia.
  - exists (- ((pos - r) / Capacity)). pose proof (Z.div_mod (pos - r) Capacity). lia.
Qed.

Lemma window_distinct (r p p' : Z) :
  r <= p < r + Capacity -> r <= p' < r + Capacity -> p mod Capacity = p' mod Capacity -> p = p'.
Proof.
  intros Hp Hp' E. pose proof (ring_inj r (p - r) (p' - r)) as Hinj. unfold ring in Hinj.
  replace (r + (p - r)) with p in Hinj by lia. replace (r + (p' - r)) with p' in Hinj by lia.
  specialize (Hinj ltac:(lia) ltac:(lia) E). lia.
Qed.

End ring.

#[global] Arguments Capacity_pos {k Hk}.
#[global] Arguments Capacity_small {k Hk}.
#[global] Arguments land_mask {k Hk}.
#[global] Arguments ring_range {k Hk}.
#[global] Arguments ring_inj {k Hk}.
#[global] Arguments ring_0 {k}.
#[global] Arguments window_position {k Hk}.
#[global] Arguments window_distinct {k Hk}.

(** ** Threads by their program counters *)

Section threads.
Context {P : Type}.

Definition set_thread (ps : nat -> P) (i : nat) (p : P) : nat -> P :=
  fun j => if (j =? i)%nat then p else ps j.

Lemma set_thread_eq ps i p : set_thread ps i p i = p.
Proof. unfold set_thread. by rewrite Nat.eqb_refl. Qed.

Lemma set_thread_ne ps i p j : j <> i -> set_thread ps i p j = ps j.
Proof. intros H. unfold set_thread. by rewrite (proj2 (Nat.eqb_neq _ _)). Qed.

Lemma set_thread_all (Q : P -> Prop) ps i p :
  Q p -> (forall j, j <> i -> Q (ps j)) -> forall j, Q (set_thread ps i p j).
Proof.
  intros Hp Hj j. destruct (Nat.eq_dec j i) as [->|Hne];
    [by rewrite set_thread_eq|by rewrite set_thread_ne; auto].
Qed.

(** What each thread owns stays owned by one thread. *)
Definition exclusive {O} (owns : P -> option O) (ps : nat -> P) : Prop :=
  forall i j o, owns (ps i) = Some o -> owns (ps j) = Some o -> i = j.

Lemma exclusive_upd {O} (owns : P -> option O) ps i p :
  exclusive owns ps ->
  (forall o j, owns p = Some o -> j <> i -> owns (ps j) <> Some o) ->
  exclusive owns (set_thread ps i p).
Proof.
  intros H Hp j j' o. unfold set_thread.
  destruct (Nat.eqb_spec j i), (Nat.eqb_spec j' i); subst; intros E E'; try done.
  - by destruct (Hp o j').
  - by destruct (Hp o j).
  - by eapply H.
Qed.

End threads.
