(* ===== verification/SpscQueue.v ===== *)
(** * SPSCQueue<T, Capacity> (sor/core/spsc_queue.h)

    One producer and one consumer, each executing its atomic operations one at
    a time, interleaved by an arbitrary schedule.  Every operation logs an
    event at the step where it takes effect, and the theorem is that the log is
    an execution of a bounded sequential FIFO: the queue is linearizable.  The
    acquire/release pairs of the code order the buffer accesses as in the
    sequentially consistent interleaving used here. *)

From S2P Require Import Prelude QueueSpec.

Module SPSCQueue.
Section queue.
Context {T : Type} (d : T) (k : Z).

#[local] Abbreviation Capacity := (Capacity k).
#[local] Abbreviation MASK := (MASK k).
#[local] Abbreviation ring := (ring k).

(** The shared words; [d] is the value-initialised element. *)
Record t := mk { head_ : Z; tail_ : Z; buffer_ : list T }.

Definition create : t := mk 0 0 (replicate (Z.to_nat Capacity) d).

Definition slot (q : t) (i : Z) : T := nth (Z.to_nat i) (buffer_ q) d.

Definition next (i : Z) : Z := Z.land (u64 (i + 1)) MASK.

(** The producer inside [try_push], by the operation it executes next. *)
Inductive producer :=
| PIdle
| PLoadTail (item : T)
| PLoadHead (item : T) (tl : Z)
| PWrite (item : T) (tl next_t : Z)
| PStoreTail (item : T) (next_t : Z).

(** The consumer inside [try_pop]. *)
Inductive consumer :=
| CIdle
| CLoadTail (h : Z)
| CRead (h : Z)
| CStoreHead (item : T) (h : Z).

Definition push_step (q : t) (p : producer) : t * producer * list (queue_event T) :=
  match p with
  | PIdle => (q, p, [])
  | PLoadTail item => (q, PLoadHead item (tail_ q), [])
  | PLoadHead item tl =>
      if next tl =? head_ q then (q, PIdle, [PushFull item])
      else (q, PWrite item tl (next tl), [])
  | PWrite item tl next_t =>
      ({ q with buffer_ ::= fun b => <[Z.to_nat tl := item]> b }, PStoreTail item next_t, [])
  | PStoreTail item next_t => ({ q with tail_ := next_t }, PIdle, [Pushed item])
  end.

Definition pop_step (q : t) (c : consumer) : t * consumer * list (queue_event T) :=
  match c with
  | CIdle => (q, CLoadTail (head_ q), [])
  | CLoadTail h => if h =? tail_ q then (q, CIdle, [PopEmpty]) else (q, CRead h, [])
  | CRead h => (q, CStoreHead (slot q h) h, [])
  | CStoreHead item h => ({ q with head_ := next h }, CIdle, [Popped item])
  end.

Definition empty (q : t) : bool := head_ q =? tail_ q.
Definition size (q : t) : Z := Z.land (u64 (u64 (tail_ q - head_ q) + Capacity)) MASK.
Definition capacity : Z := Capacity - 1.

(** ** Interleaving *)

Record system := mkSys {
  sys_queue : t; sys_producer : producer; sys_consumer : consumer;
  sys_trace : list (queue_event T)
}.

Definition start : system := mkSys create PIdle CIdle [].

(** Who moves: the producer (an idle one starts a [try_push] of the item) or
    the consumer (an idle one starts a [try_pop]). *)
Inductive move := Producer (item : T) | Consumer.

Definition step (s : system) (m : move) : system :=
  match m with
  | Producer item =>
      match sys_producer s with
      | PIdle => mkSys (sys_queue s) (PLoadTail item) (sys_consumer s) (sys_trace s)
      | p => let '(q, p, ev) := push_step (sys_queue s) p in
             mkSys q p (sys_consumer s) (sys_trace s ++ ev)
      end
  | Consumer =>
      let '(q, c, ev) := pop_step (sys_queue s) (sys_consumer s) in
      mkSys q (sys_producer s) c (sys_trace s ++ ev)
  end.

Definition run (ms : list move) : system := fold_left step ms start.

(** ** The representation invariant *)

Context {Hk : SmallRing k}.

Lemma next_ring h i : next (ring h i) = ring h (i + 1).
Proof.
  unfold next. rewrite land_mask. pose proof (ring_range h i). pose proof Capacity_small.
  rewrite u64_id by (unfold in_u64; lia). unfold ring.
  rewrite Z.add_mod_idemp_l by (pose proof Capacity_pos; lia). f_equal; lia.
Qed.

(** The queue holds [l], from the head up. *)
Record holds (q : t) (l : list T) : Prop := {
  ho_head : 0 <= head_ q < Capacity;
  ho_tail : tail_ q = ring (head_ q) (Z.of_nat (length l));
  ho_room : Z.of_nat (length l) < Capacity;
  ho_buffer : length (buffer_ q) = Z.to_nat Capacity;
  ho_items : forall i x, l !! i = Some x -> slot q (ring (head_ q) (Z.of_nat i)) = x
}.

Definition producer_ok (q : t) (l : list T) (p : producer) : Prop :=
  match p with
  | PIdle | PLoadTail _ => True
  | PLoadHead _ tl => tl = tail_ q
  | PWrite _ tl next_t =>
      tl = tail_ q /\ next_t = next tl /\ Z.of_nat (length l) + 1 < Capacity
  | PStoreTail x next_t =>
      next_t = next (tail_ q) /\ Z.of_nat (length l) + 1 < Capacity /\ slot q (tail_ q) = x
  end.

Definition consumer_ok (q : t) (l : list T) (c : consumer) : Prop :=
  match c with
  | CIdle => True
  | CLoadTail h => h = head_ q
  | CRead h => h = head_ q /\ l <> []
  | CStoreHead x h => h = head_ q /\ head l = Some x
  end.

Definition sys_inv (s : system) : Prop :=
  exists l, fifo_run (Z.to_nat capacity) (sys_trace s) l /\ holds (sys_queue s) l /\
    producer_ok (sys_queue s) l (sys_producer s) /\ consumer_ok (sys_queue s) l (sys_consumer s).

Lemma spsc_start_inv : sys_inv start.
Proof.
  pose proof Capacity_pos. exists []. split_and!; [constructor| |done..].
  split; cbn; [lia| |lia|apply length_replicate|done]. by rewrite ring_0 by lia.
Qed.

Lemma slot_write q l x i :
  holds q l -> 0 <= i < Capacity ->
  let q' := { q with buffer_ ::= fun b => <[Z.to_nat i := x]> b } in
  slot q' i = x /\ forall j, 0 <= j < Capacity -> j <> i -> slot q' j = slot q j.
Proof.
  intros H Hi. destruct q as [h tl b]. destruct H as [_ _ _ Hb _]. fields. unfold slot. cbn.
  split.
  - rewrite nth_lookup, list_lookup_insert_eq by lia. done.
  - intros j Hj Hne. rewrite !nth_lookup, list_lookup_insert_ne by lia. done.
Qed.

Lemma holds_write q l x :
  holds q l -> Z.of_nat (length l) + 1 < Capacity ->
  let q' := { q with buffer_ ::= fun b => <[Z.to_nat (tail_ q) := x]> b } in
  holds q' l /\ slot q' (tail_ q) = x.
Proof.
  intros H Hroom q'. assert (0 <= tail_ q < Capacity) as Ht
    by (rewrite (ho_tail _ _ H); apply ring_range).
  destruct (slot_write q l x (tail_ q) H Ht) as [Hx Hother]. split; [|exact Hx].
  destruct H as [Hh Htl Hr Hb Hi].
  assert (head_ q' = head_ q /\ tail_ q' = tail_ q /\
          length (buffer_ q') = length (buffer_ q)) as (E1 & E2 & E3).
  { subst q'. destruct q. fields. rewrite length_insert. done. }
  split; rewrite ?E1, ?E2, ?E3; try done.
  intros i y Hy. rewrite <- (Hi i y Hy). apply Hother; [apply ring_range|].
  rewrite Htl. intros E. apply ring_inj in E; apply lookup_lt_Some in Hy; lia.
Qed.

Lemma holds_push q l x :
  holds q l -> Z.of_nat (length l) + 1 < Capacity -> slot q (tail_ q) = x ->
  holds { q with tail_ := next (tail_ q) } (l ++ [x]).
Proof.
  intros [Hh Ht Hr Hb Hi] Hroom Hx. rewrite Ht in *.
  destruct q as [h tl b]. fields. rewrite next_ring in *.
  split; cbn; try done; rewrite ?length_app; cbn [length].
  - f_equal. lia.
  - lia.
  - intros i y [Hy|[Hi' Hy]]%lookup_app_Some; [by apply (Hi i)|].
    destruct (i - length l)%nat eqn:E; [|by rewrite lookup_nil in Hy || done].
    cbn in Hy. injection Hy as <-. assert (i = length l) as -> by lia. exact Hx.
Qed.

Lemma holds_pop q x l : holds q (x :: l) -> holds { q with head_ := next (head_ q) } l.
Proof.
  intros [Hh Ht Hr Hb Hi]. destruct q as [h tl b]. cbn in *.
  assert (next h = ring h 1) as En by (rewrite <- (ring_0 h) at 1 by done; apply next_ring).
  assert (forall i, ring (ring h 1) i = ring h (1 + i)) as Hring.
  { intros i. unfold ring. rewrite Z.add_mod_idemp_l by lia. f_equal; lia. }
  fields. rewrite En. split; cbn; try done.
  - apply ring_range.
  - rewrite Hring, Ht. f_equal. lia.
  - lia.
  - intros i y Hy. rewrite Hring. rewrite <- (Hi (S i) y Hy). unfold slot; cbn. do 3 f_equal. lia.
Qed.

Lemma full_iff q l :
  holds q l -> next (tail_ q) = head_ q <-> Z.of_nat (length l) = capacity.
Proof.
  intros [Hh Ht Hr _ _]. rewrite Ht, next_ring. unfold capacity.
  rewrite <- (ring_0 (head_ q) Hh) at 2. pose proof Capacity_pos. split; intros E.
  - destruct (Z.eq_dec (Z.of_nat (length l) + 1) Capacity); [lia|].
    apply ring_inj in E; lia.
  - unfold ring. replace (head_ q + (Z.of_nat (length l) + 1)) with (head_ q + 0 + 1 * Capacity) by lia.
    by rewrite Z.mod_add by lia.
Qed.

Lemma empty_iff q l : holds q l -> head_ q = tail_ q <-> l = [].
Proof.
  intros [Hh Ht Hr _ _]. rewrite Ht. rewrite <- (ring_0 (head_ q) Hh) at 1. split.
  - intros E. apply ring_inj in E; [|lia..]. destruct l; [done|cbn in E; lia].
  - by intros ->.
Qed.

Lemma read_head q l :
  holds q l -> l <> [] -> head l = Some (slot q (head_ q)).
Proof.
  intros [Hh _ _ _ Hi] Hl. destruct l as [|x l]; [done|]. cbn. f_equal.
  rewrite <- (Hi 0%nat x eq_refl). cbn. by rewrite ring_0.
Qed.

(** What the other thread's step leaves alone. *)
Lemma spsc_producer_step_inv s x : sys_inv s -> sys_inv (step s (Producer x)).
Proof.
  destruct s as [q p c tr]. intros (l & Hr & Hq & Hp & Hc). cbn in *.
  destruct p as [|item|item tl|item tl nx|item nx]; cbn in Hp |- *; rewrite ?app_nil_r.
  - by exists l.
  - by exists l.
  - subst tl. destruct (Z.eqb_spec (next (tail_ q)) (head_ q)) as [E|E]; exists l; cbn.
    + apply (full_iff q l Hq) in E.
      split_and!; try done. eapply fifo_snoc; [exact Hr|]. constructor. lia.
    + rewrite app_nil_r. split_and!; try done.
      pose proof (ho_room _ _ Hq). rewrite (full_iff q l Hq) in E. unfold capacity in E. lia.
  - destruct Hp as (-> & -> & Hroom). destruct (holds_write q l item Hq Hroom) as [Hq' Hs].
    exists l. destruct q. fields. split_and!; try done.
  - destruct Hp as (-> & Hroom & Hs). exists (l ++ [item]). split_and!.
    + eapply fifo_snoc; [exact Hr|]. constructor. unfold capacity. lia.
    + by apply holds_push.
    + done.
    + destruct q, c; cbn in *; try done.
      * destruct Hc as [-> Hl]. split; [done|]. by destruct l.
      * destruct Hc as [-> Hl]. split; [done|]. by destruct l.
Qed.

Lemma spsc_consumer_step_inv s : sys_inv s -> sys_inv (step s Consumer).
Proof.
  destruct s as [q p c tr]. intros (l & Hr & Hq & Hp & Hc). cbn in *.
  destruct c as [|h|h|item h]; cbn in Hc |- *; rewrite ?app_nil_r.
  - by exists l.
  - subst h. destruct (Z.eqb_spec (head_ q) (tail_ q)) as [E|E]; exists l; cbn.
    + apply (empty_iff q l Hq) in E as ->. split_and!; try done.
      eapply fifo_snoc; [exact Hr|]. constructor.
    + rewrite app_nil_r. split_and!; try done. by rewrite <- (empty_iff q l Hq).
  - destruct Hc as [-> Hl]. exists l. split_and!; try done. split; [done|]. by apply read_head.
  - destruct Hc as [-> Hl]. destruct l as [|y l]; [done|]. injection Hl as ->.
    exists l. split_and!; [|by eapply holds_pop| |done].
    + eapply fifo_snoc; [exact Hr|]. constructor.
    + destruct q, p; cbn in *; try done.
      * destruct Hp as (? & ? & ?). split_and!; try done. lia.
      * destruct Hp as (? & ? & ?). split_and!; try done. lia.
Qed.

Lemma spsc_run_inv ms : sys_inv (run ms).
Proof.
  unfold run. apply (fold_left_inv step (fun s _ => sys_inv s)); [apply spsc_start_inv|].
  intros s _ [x|] _; [apply spsc_producer_step_inv|apply spsc_consumer_step_inv].
Qed.

Lemma size_holds q l : holds q l -> size q = Z.of_nat (length l).
Proof.
  intros [Hh Ht Hr _ _]. unfold size. rewrite land_mask. pose proof Capacity_small.
  unfold u64, wrapu. rewrite Ht. unfold ring.
  assert (exists z, 2 ^ 64 = z * Capacity) as [z Hz].
  { exists (2 ^ (64 - k)). unfold Capacity. pose proof (small_ring (k := k)).
    rewrite <- Z.pow_add_r by lia. f_equal. lia. }
  assert (forall a, (a mod 2 ^ 64) mod Capacity = a mod Capacity) as Hmod.
  { intros a. apply Z.mod_mod_divide. by exists z. }
  rewrite Hmod, <- Z.add_mod_idemp_l, Hmod by lia.
  rewrite Z.add_mod_idemp_l by lia.
  replace ((head_ q + Z.of_nat (length l)) mod Capacity - head_ q + Capacity)
    with ((head_ q + Z.of_nat (length l)) mod Capacity + (Capacity - head_ q)) by lia.
  rewrite Z.add_mod_idemp_l by lia.
  replace (head_ q + Z.of_nat (length l) + (Capacity - head_ q))
    with (Z.of_nat (length l) + 1 * Capacity) by lia.
  rewrite Z.mod_add by lia. apply Z.mod_small. lia.
Qed.

End queue.
End SPSCQueue.

Import SPSCQueue.

(** C20. The SPSC queue is a linearizable bounded FIFO: under every
    interleaving of the atomic operations of its producer and its consumer,
    the events in the order they take effect are an execution of a sequential
    FIFO of capacity [2^k - 1]: nothing is lost, duplicated, reordered or
    invented, a push is refused only when the queue is full and a pop only
    when it is empty, and [size] counts what is inside. *)
Theorem spsc_linearizable {T} (d : T) k ms :
  0 <= k < 63 ->
  let s := run d k ms in
  exists l, fifo_run (Z.to_nat (capacity k)) (sys_trace s) l /\
    pushed (sys_trace s) = popped (sys_trace s) ++ l /\
    size k (sys_queue s) = Z.of_nat (length l).
Proof.
  intros Hk s. destruct (spsc_run_inv d k (Hk:=Hk) ms) as (l & Hr & Hq & _). fold s in Hr, Hq.
  exists l. split_and!; [done| |by eapply size_holds].
  by apply fifo_run_conserves in Hr as [? _].
Qed.

Definition sample_moves : list (@move Z) :=
  concat (repeat [Producer 10; Consumer; Producer 20; Producer 30; Consumer] 12).

Lemma spsc_linearizable_witness :
  length (popped (sys_trace (run 0 2 sample_moves))) = 5%nat /\
  exists l, pushed (sys_trace (run 0 2 sample_moves)) =
            popped (sys_trace (run 0 2 sample_moves)) ++ l.
Proof.
  split; [vm_compute; reflexivity|].
  destruct (spsc_linearizable 0 2 sample_moves) as (l & _ & H & _); [lia|].
  exists l. exact H.
Defined.
