(* ===== verification/MpscQueue.v ===== *)
(** * MPSCQueue<T, Capacity> (sor/core/mpsc_queue.h)

    Any number of producers and one consumer over a ring of cells with
    sequence numbers.  Each thread executes one atomic operation at a time
    under an arbitrary schedule; the weak compare-exchange may fail for no
    reason.  A producer reserves its place when the compare-exchange succeeds
    and publishes it later, so the specification is a FIFO with reservations. *)

From S2P Require Import Prelude QueueSpec.

(** ** The specification: a FIFO with reservations

    The ledger has every element ever reserved, in order, with a mark for the
    published ones, and the number of elements taken. *)

Definition ledger (T : Type) : Type := (list (T * bool) * nat)%type.

Inductive mpsc_event (T : Type) :=
| Reserved (x : T) | Published (place : nat) | Taken (x : T) | Full (x : T) | NotReady.
#[global] Arguments Reserved {T} x.
#[global] Arguments Published {T} place.
#[global] Arguments Taken {T} x.
#[global] Arguments Full {T} x.
#[global] Arguments NotReady {T}.

Inductive ledger_step {T} (cap : Z) : ledger T -> mpsc_event T -> ledger T -> Prop :=
| ls_reserve cl r x : Z.of_nat (length cl) < Z.of_nat r + cap ->
    ledger_step cap (cl, r) (Reserved x) (cl ++ [(x, false)], r)
| ls_publish cl r i x : cl !! i = Some (x, false) ->
    ledger_step cap (cl, r) (Published i) (<[i := (x, true)]> cl, r)
| ls_take cl r x : cl !! r = Some (x, true) -> ledger_step cap (cl, r) (Taken x) (cl, S r)
| ls_full cl r x : Z.of_nat (length cl) = Z.of_nat r + cap -> ledger_step cap (cl, r) (Full x) (cl, r)
| ls_not_ready cl r : (forall x, cl !! r <> Some (x, true)) -> ledger_step cap (cl, r) NotReady (cl, r).

Inductive ledger_run {T} (cap : Z) : list (mpsc_event T) -> ledger T -> Prop :=
| lr_nil : ledger_run cap [] ([], 0%nat)
| lr_snoc tr L e L' : ledger_run cap tr L -> ledger_step cap L e L' -> ledger_run cap (tr ++ [e]) L'.

Definition reserved {T} (tr : list (mpsc_event T)) : list T :=
  omap (fun e => match e with Reserved x => Some x | _ => None end) tr.

Definition taken {T} (tr : list (mpsc_event T)) : list T :=
  omap (fun e => match e with Taken x => Some x | _ => None end) tr.

(** The elements taken are the first ones reserved, in that order. *)
Lemma ledger_run_fifo {T} cap (tr : list (mpsc_event T)) L :
  0 <= cap -> ledger_run cap tr L ->
  reserved tr = L.1.*1 /\ taken tr = take L.2 (reserved tr) /\
  (L.2 <= length L.1)%nat /\ Z.of_nat (length L.1) <= Z.of_nat L.2 + cap.
Proof.
  unfold reserved, taken. intros Hc.
  induction 1 as [|tr L e L' _ (IH1 & IH2 & IH3 & IH4) Hs]; [by split_and!; cbn; try lia|].
  rewrite !omap_app. destruct Hs as [cl r x|cl r i x H|cl r x H|cl r x|cl r]; cbn in *;
    rewrite ?app_nil_r.
  - rewrite IH1, fmap_app, length_app, IH2, IH1. cbn.
    rewrite take_app_le by (by rewrite length_fmap). split_and!; [done..|lia|lia].
  - rewrite IH1, IH2, length_insert. split_and!; [|by rewrite IH1|lia|lia].
    rewrite list_fmap_insert. symmetry. apply list_insert_id. by rewrite list_lookup_fmap, H.
  - rewrite IH2, IH1. pose proof (lookup_lt_Some _ _ _ H). split_and!; [done| |lia|lia].
    erewrite take_S_r; [done|]. by rewrite list_lookup_fmap, H.
  - done.
  - done.
Qed.

Module MPSCQueue.
Section queue.
Context {T : Type} (d : T) (k : Z).

#[local] Abbreviation Capacity := (Capacity k).
#[local] Abbreviation MASK := (MASK k).

Record Cell := mkCell { sequence : Z; data : T }.

Record t := mk { write_pos_ : Z; read_pos_ : Z; cells_ : list Cell }.

Definition create : t :=
  mk 0 0 ((fun i => mkCell (Z.of_nat i) d) <$> seq 0 (Z.to_nat Capacity)).

Definition index (pos : Z) : nat := Z.to_nat (Z.land pos MASK).

Definition cell (q : t) (pos : Z) : Cell := nth (index pos) (cells_ q) (mkCell 0 d).

Definition set_cell (q : t) (pos : Z) (f : Cell -> Cell) : t :=
  { q with cells_ ::= alter f (index pos) }.

(** A producer inside [try_push_impl], by the operation it executes next. *)
Inductive producer :=
| PIdle
| PLoadPos (item : T)                  (** [write_pos_.load] *)
| PLoadSeq (item : T) (pos : Z)        (** [cell.sequence.load] *)
| PCas (item : T) (pos : Z)            (** [compare_exchange_weak] *)
| PWrite (item : T) (pos : Z)          (** [cell.data = item] *)
| PPublish (item : T) (pos : Z).       (** [cell.sequence.store] *)

(** [static_cast<intptr_t>(seq) - static_cast<intptr_t>(pos)] *)
Definition diff (seq pos : Z) : Z := i64 (i64 seq - i64 pos).

Definition push_step (q : t) (p : producer) (weak_fails : bool)
    : t * producer * list (mpsc_event T) :=
  match p with
  | PIdle => (q, p, [])
  | PLoadPos item => (q, PLoadSeq item (write_pos_ q), [])
  | PLoadSeq item pos =>
      let dif := diff (sequence (cell q pos)) pos in
      if dif =? 0 then (q, PCas item pos, [])
      else if dif <? 0 then (q, PIdle, [Full item])
      else (q, PLoadPos item, [])
  | PCas item pos =>
      if negb weak_fails && (write_pos_ q =? pos)
      then ({ q with write_pos_ := u64 (pos + 1) }, PWrite item pos, [Reserved item])
      else (q, PLoadSeq item (write_pos_ q), [])
  | PWrite item pos =>
      (set_cell q pos (fun c => { c with data := item }), PPublish item pos, [])
  | PPublish item pos =>
      (set_cell q pos (fun c => { c with sequence := u64 (pos + 1) }), PIdle,
       [Published (Z.to_nat pos)])
  end.

(** The consumer inside [try_pop].  Only the consumer writes [read_pos_], so
    its two loads of it are one with the load of the sequence. *)
Inductive consumer :=
| CIdle
| CRead (pos : Z)
| CStoreSeq (item : T) (pos : Z)
| CStorePos (pos : Z).

Definition pop_step (q : t) (c : consumer) : t * consumer * list (mpsc_event T) :=
  match c with
  | CIdle =>
      let pos := read_pos_ q in
      if negb (sequence (cell q pos) =? u64 (pos + 1)) then (q, CIdle, [NotReady])
      else (q, CRead pos, [])
  | CRead pos => (q, CStoreSeq (data (cell q pos)) pos, [])
  | CStoreSeq item pos =>
      (set_cell q pos (fun c => { c with sequence := u64 (pos + Capacity) }), CStorePos pos,
       [Taken item])
  | CStorePos pos => ({ q with read_pos_ := u64 (pos + 1) }, CIdle, [])
  end.

Definition empty (q : t) : bool :=
  negb (sequence (cell q (read_pos_ q)) =? u64 (read_pos_ q + 1)).

Definition size (q : t) : Z :=
  if write_pos_ q >=? read_pos_ q then u64 (write_pos_ q - read_pos_ q) else 0.

(** ** Interleaving *)

Record system := mkSys {
  sys_queue : t;
  sys_producers : nat -> producer;
  sys_consumer : consumer;
  sys_trace : list (mpsc_event T)
}.

Definition start : system := mkSys create (fun _ => PIdle) CIdle [].

(** Who moves: a producer thread (an idle one starts a [try_push] of the item)
    or the consumer. *)
Inductive move := Producer (thread : nat) (item : T) (weak_fails : bool) | Consumer.

Definition step (s : system) (m : move) : system :=
  match m with
  | Producer i item weak_fails =>
      match sys_producers s i with
      | PIdle => mkSys (sys_queue s) (set_thread (sys_producers s) i (PLoadPos item))
                       (sys_consumer s) (sys_trace s)
      | p => let '(q, p, ev) := push_step (sys_queue s) p weak_fails in
             mkSys q (set_thread (sys_producers s) i p) (sys_consumer s) (sys_trace s ++ ev)
      end
  | Consumer =>
      let '(q, c, ev) := pop_step (sys_queue s) (sys_consumer s) in
      mkSys q (sys_producers s) c (sys_trace s ++ ev)
  end.

Definition run (ms : list move) : system := fold_left step ms start.

(** ** The invariant *)

#[local] Arguments cell : simpl never.
#[local] Arguments set_cell : simpl never.
#[local] Arguments index : simpl never.

Context {Hk : SmallRing k} (Hk1 : 1 <= k).

Lemma Capacity_two : 2 <= Capacity.
Proof. unfold QueueSpec.Capacity. change 2 with (2 ^ 1) at 1. apply Z.pow_le_mono_r; lia. Qed.

Lemma index_mod pos : index pos = Z.to_nat (pos mod Capacity).
Proof. unfold index. by rewrite land_mask. Qed.

(** A cell at position [p] of the window, against the ledger. *)
Definition cell_ok (cl : list (T * bool)) (c : Cell) (p : Z) : Prop :=
  match cl !! Z.to_nat p with
  | Some (x, true) => sequence c = p + 1 /\ data c = x
  | _ => sequence c = p
  end.

(** A producer that owns the place [pos]: reserved and not published. *)
Definition owns (p : producer) : option Z :=
  match p with PWrite _ pos | PPublish _ pos => Some pos | _ => None end.

Definition producer_ok (q : t) (cl : list (T * bool)) (r : nat) (p : producer) : Prop :=
  match p with
  | PIdle | PLoadPos _ => True
  | PLoadSeq _ pos => 0 <= pos <= Z.of_nat (length cl)
  | PCas _ pos => 0 <= pos <= Z.of_nat (length cl) /\
      (pos = Z.of_nat (length cl) -> pos < Z.of_nat r + Capacity)
  | PWrite x pos => 0 <= pos /\ cl !! Z.to_nat pos = Some (x, false)
  | PPublish x pos => 0 <= pos /\ cl !! Z.to_nat pos = Some (x, false) /\ data (cell q pos) = x
  end.

Definition consumer_ok (q : t) (cl : list (T * bool)) (r : nat) (c : consumer) : Prop :=
  match c with
  | CIdle => read_pos_ q = Z.of_nat r
  | CRead pos => read_pos_ q = Z.of_nat r /\ pos = Z.of_nat r /\ exists x, cl !! r = Some (x, true)
  | CStoreSeq x pos => read_pos_ q = Z.of_nat r /\ pos = Z.of_nat r /\ cl !! r = Some (x, true)
  | CStorePos pos => pos + 1 = Z.of_nat r
  end.

Record inv (q : t) (ps : nat -> producer) (c : consumer) (cl : list (T * bool)) (r : nat)
    : Prop := {
  iv_write : write_pos_ q = Z.of_nat (length cl);
  iv_cells : length (cells_ q) = Z.to_nat Capacity;
  iv_room : Z.of_nat (length cl) <= Z.of_nat r + Capacity;
  iv_window : forall p, Z.of_nat r <= p < Z.of_nat r + Capacity -> cell_ok cl (cell q p) p;
  iv_taken : forall i, (i < r)%nat -> exists x, cl !! i = Some (x, true);
  iv_producers : forall i, producer_ok q cl r (ps i);
  iv_owners : exclusive owns ps;
  iv_consumer : consumer_ok q cl r c
}.

Lemma index_window r p p' :
  r <= p < r + Capacity -> r <= p' < r + Capacity -> index p = index p' -> p = p'.
Proof.
  rewrite !index_mod. intros Hp Hp' E. apply (window_distinct r); [done..|].
  pose proof (Z.mod_pos_bound p Capacity). pose proof (Z.mod_pos_bound p' Capacity). lia.
Qed.

Lemma cell_index q p p' : index p = index p' -> cell q p = cell q p'.
Proof. unfold cell. by intros ->. Qed.

Lemma index_range q p : length (cells_ q) = Z.to_nat Capacity -> (index p < length (cells_ q))%nat.
Proof.
  intros ->. rewrite index_mod. pose proof Capacity_two.
  pose proof (Z.mod_pos_bound p Capacity). lia.
Qed.

(** The fields of a queue after a write to a cell. *)
Lemma set_cell_fields q pos f :
  length (cells_ q) = Z.to_nat Capacity ->
  write_pos_ (set_cell q pos f) = write_pos_ q /\ read_pos_ (set_cell q pos f) = read_pos_ q /\
  length (cells_ (set_cell q pos f)) = length (cells_ q) /\
  cell (set_cell q pos f) pos = f (cell q pos) /\
  forall p, index p <> index pos -> cell (set_cell q pos f) p = cell q p.
Proof.
  intros Hl. pose proof (index_range q pos Hl) as Hi. unfold set_cell, cell.
  destruct q as [w r cs]. fields. rewrite length_alter. split_and!; [done..| |].
  - rewrite nth_lookup, list_lookup_alter_eq, nth_lookup. cbn in Hi.
    destruct (lookup_lt_is_Some_2 cs (index pos) Hi) as [c ->]. done.
  - intros p Hne. rewrite !nth_lookup, list_lookup_alter_ne by done. done.
Qed.

(** The sequence of the cell a position designates. *)
Lemma cell_sequence q ps c cl r pos :
  inv q ps c cl r ->
  exists p z, Z.of_nat r <= p < Z.of_nat r + Capacity /\ p = pos + z * Capacity /\
    p <= sequence (cell q pos) <= p + 1 /\
    (Z.of_nat (length cl) <= p -> sequence (cell q pos) = p).
Proof.
  intros H. destruct (window_position (k := k) (Z.of_nat r) pos) as (p & Hp & Hi & z & Hz).
  assert (index p = index pos) as Hi' by (rewrite !index_mod; congruence). clear Hi; rename Hi' into Hi.
  exists p, z. split_and!; try lia.
  all: pose proof (iv_window _ _ _ _ _ H p Hp) as Hc; rewrite (cell_index q p pos Hi) in Hc;
    unfold cell_ok in Hc; destruct (cl !! Z.to_nat p) as [[x []]|] eqn:E; try lia.
  apply lookup_lt_Some in E. lia.
Qed.

(** What the sequence tells a producer: the reserved place is free, or the
    queue is full. *)
Lemma sequence_free q ps c cl r pos :
  inv q ps c cl r -> 0 <= pos <= Z.of_nat (length cl) -> sequence (cell q pos) = pos ->
  pos = Z.of_nat (length cl) -> pos < Z.of_nat r + Capacity.
Proof.
  intros H Hpos Hs E. pose proof Capacity_two.
  destruct (cell_sequence q ps c cl r pos H) as (p & z & Hp & Hz & Hseq & _).
  assert (z <= 0) by nia. assert (-1 <= z * Capacity) by lia. assert (z > -1) by nia.
  assert (z = 0) as -> by lia. lia.
Qed.

Lemma sequence_full q ps c cl r pos :
  inv q ps c cl r -> 0 <= pos <= Z.of_nat (length cl) -> sequence (cell q pos) < pos ->
  Z.of_nat (length cl) = Z.of_nat r + Capacity.
Proof.
  intros H Hpos Hs. pose proof Capacity_two. pose proof (iv_room _ _ _ _ _ H).
  destruct (cell_sequence q ps c cl r pos H) as (p & z & Hp & Hz & Hseq & _).
  assert (z < 0) by nia. assert (z * Capacity <= - Capacity) by nia. lia.
Qed.

(** ** Preservation *)

(** An owned place is in the window and unpublished. *)
Lemma owner_window q ps c cl r i pos :
  inv q ps c cl r -> owns (ps i) = Some pos ->
  Z.of_nat r <= pos < Z.of_nat r + Capacity /\ pos < Z.of_nat (length cl) /\
  exists x, cl !! Z.to_nat pos = Some (x, false).
Proof.
  intros H Ho. pose proof (iv_producers _ _ _ _ _ H i) as Hp. pose proof (iv_room _ _ _ _ _ H).
  assert (0 <= pos /\ exists x, cl !! Z.to_nat pos = Some (x, false)) as [Hpos [x Hx]].
  { destruct (ps i); cbn in Ho, Hp; try done; injection Ho as <-;
      [destruct Hp as [? ?]|destruct Hp as (? & ? & _)]; eauto. }
  pose proof (lookup_lt_Some _ _ _ Hx).
  assert (Z.of_nat r <= pos).
  { destruct (Z.le_gt_cases (Z.of_nat r) pos) as [|Hlt]; [done|].
    destruct (iv_taken _ _ _ _ _ H (Z.to_nat pos) ltac:(lia)) as [y Hy]. congruence. }
  split_and!; [lia..|]. by exists x.
Qed.

(** A step of a producer that changes nothing shared. *)
Lemma producer_local q ps c cl r i p :
  inv q ps c cl r -> producer_ok q cl r p -> owns p = None ->
  inv q (set_thread ps i p) c cl r.
Proof.
  intros H Hp Ho. destruct H as [? ? ? ? ? Hps Hown ?]. split; try done.
  - by apply (set_thread_all (producer_ok q cl r)).
  - apply exclusive_upd; [done|]. intros pos j. by rewrite Ho.
Qed.

Lemma producer_reserve q ps c cl r i x :
  inv q ps c cl r -> Z.of_nat (length cl) < Z.of_nat r + Capacity ->
  Z.of_nat (length cl) + 1 <= INT64_MAX ->
  inv { q with write_pos_ := u64 (Z.of_nat (length cl) + 1) }
      (set_thread ps i (PWrite x (Z.of_nat (length cl)))) c (cl ++ [(x, false)]) r.
Proof.
  intros H Hroom Hmax.
  pose proof (fun j pos => owner_window q ps c cl r j pos H) as Hwin.
  destruct H as [Hw Hcs Hr Hwindow Htk Hps Hown Hc]. destruct q as [w rp cs]. fields.
  rewrite u64_id by mlia.
  assert (forall j y, cl !! j = Some y -> (cl ++ [(x, false)]) !! j = Some y) as Hmono
    by (intros; by apply lookup_app_l_Some).
  split; cbn; rewrite ?length_app; cbn [length]; try done; try lia.
  - intros p Hp. specialize (Hwindow p Hp). unfold cell_ok in *.
    destruct (cl !! Z.to_nat p) as [y|] eqn:E; [by rewrite (Hmono _ _ E)|].
    apply lookup_ge_None in E. destruct (Nat.eq_dec (Z.to_nat p) (length cl)) as [Ep|Ep].
    + by rewrite Ep, lookup_app_r, Nat.sub_diag.
    + by rewrite lookup_ge_None_2 by (rewrite length_app; cbn; lia).
  - intros j Hj. destruct (Htk j Hj) as [y Hy]. exists y. by apply Hmono.
  - apply (set_thread_all (producer_ok _ _ _)).
    + cbn. split; [lia|]. rewrite Nat2Z.id. by rewrite lookup_app_r, Nat.sub_diag.
    + intros j _. specialize (Hps j). destruct (ps j); cbn in *; rewrite ?length_app; cbn [length];
        try done; try lia; intuition auto; lia.
  - apply exclusive_upd; [done|]. intros pos j [= <-] _ Ho. apply Hwin in Ho as (_ & ? & _). lia.
  - destruct c as [|p0|y p0|p0]; cbn in *; [done| | |done].
    + destruct Hc as (? & ? & y & Hy). split_and!; [done..|]. exists y. by apply Hmono.
    + destruct Hc as (? & ? & Hy). split_and!; [done..|]. by apply Hmono.
Qed.

Lemma producer_write q ps c cl r i x pos :
  inv q ps c cl r -> ps i = PWrite x pos ->
  inv (set_cell q pos (fun c => { c with data := x })) (set_thread ps i (PPublish x pos)) c cl r.
Proof.
  intros H Ei. pose proof (fun j pos => owner_window q ps c cl r j pos H) as Hwin.
  destruct (Hwin i pos) as (Hpos & _ & y & Hy); [by rewrite Ei|].
  pose proof (iv_producers _ _ _ _ _ H i) as Hpi. rewrite Ei in Hpi. destruct Hpi as [Hp0 Hx].
  destruct H as [Hw Hcs Hr Hwindow Htk Hps Hown Hc].
  destruct (set_cell_fields q pos (fun c => { c with data := x }) Hcs) as (E1 & E2 & E3 & E4 & E5).
  set (q' := set_cell _ _ _) in *.
  split; rewrite ?E1, ?E3; try done.
  - intros p Hp. specialize (Hwindow p Hp). destruct (Z.eq_dec p pos) as [->|Hne].
    + unfold cell_ok in *. rewrite Hx in *. rewrite E4. by destruct (cell q pos).
    + rewrite E5; [done|]. intros E. by apply (index_window (Z.of_nat r)) in E.
  - apply (set_thread_all (producer_ok _ _ _)).
    + cbn. rewrite E4. split_and!; [done..|]. by destruct (cell q pos).
    + intros j Hj. specialize (Hps j). destruct (ps j) as [| | | | |y' pos'] eqn:Ej; cbn in *; try done.
      destruct Hps as (? & Hl & Hd). split_and!; [done..|]. rewrite E5; [done|].
      intros E. destruct (Hwin j pos') as (Hpos' & _); [by rewrite Ej|].
      apply (index_window (Z.of_nat r)) in E as ->; [|done..].
      apply Hj, (Hown j i pos); [by rewrite Ej|by rewrite Ei].
  - apply exclusive_upd; [done|]. intros pos' j [= <-] Hj Ho. apply Hj, (Hown j i pos); [done|by rewrite Ei].
Qed.

Lemma producer_publish q ps c cl r i x pos :
  inv q ps c cl r -> ps i = PPublish x pos -> Z.of_nat (length cl) + Capacity < INT64_MAX ->
  inv (set_cell q pos (fun c => { c with sequence := u64 (pos + 1) })) (set_thread ps i PIdle) c
      (<[Z.to_nat pos := (x, true)]> cl) r.
Proof.
  intros H Ei Hmax. pose proof (fun j pos => owner_window q ps c cl r j pos H) as Hwin.
  destruct (Hwin i pos) as (Hpos & Hlt & _); [by rewrite Ei|].
  pose proof (iv_producers _ _ _ _ _ H i) as Hpi. rewrite Ei in Hpi.
  destruct Hpi as (Hp0 & Hx & Hd). pose proof Capacity_two. rewrite u64_id by mlia.
  destruct H as [Hw Hcs Hr Hwindow Htk Hps Hown Hc].
  destruct (set_cell_fields q pos (fun c => { c with sequence := pos + 1 }) Hcs)
    as (E1 & E2 & E3 & E4 & E5).
  set (q' := set_cell _ _ _) in *.
  assert (forall p y, p <> Z.to_nat pos -> cl !! p = Some y -> <[Z.to_nat pos := (x, true)]> cl !! p = Some y)
    as Hmono by (intros; by rewrite list_lookup_insert_ne).
  split; rewrite ?E1, ?E3, ?length_insert; try done.
  - intros p Hp. specialize (Hwindow p Hp). unfold cell_ok in *.
    destruct (Z.eq_dec p pos) as [->|Hne].
    + rewrite list_lookup_insert_eq by lia. rewrite E4. by destruct (cell q pos).
    + rewrite list_lookup_insert_ne by lia. rewrite E5; [done|].
      intros E. by apply (index_window (Z.of_nat r)) in E.
  - intros j Hj. destruct (Htk j Hj) as [y Hy]. exists y. apply Hmono; [lia|done].
  - apply (set_thread_all (producer_ok _ _ _)); [done|].
    intros j Hj. specialize (Hps j).
    assert (forall y' pos', owns (ps j) = Some pos' -> cl !! Z.to_nat pos' = Some (y', false) ->
      pos' <> pos /\ index pos' <> index pos) as Hdis.
    { intros y' pos' Ho _. destruct (Hwin j pos' Ho) as (Hpos' & _).
      assert (pos' <> pos) by (intros ->; apply Hj, (Hown j i pos); [done|by rewrite Ei]).
      split; [done|]. intros E. by apply (index_window (Z.of_nat r)) in E. }
    destruct (ps j) as [| |y' pos'|y' pos'|y' pos'|y' pos'] eqn:Ej; cbn in *;
      rewrite ?length_insert; try done.
    + destruct Hps as [? Hl]. destruct (Hdis y' pos' eq_refl Hl). split; [done|].
      apply Hmono; [lia|done].
    + destruct Hps as (? & Hl & Hd'). destruct (Hdis y' pos' eq_refl Hl).
      split_and!; [done|apply Hmono; [lia|done]|by rewrite E5].
  - apply exclusive_upd; [done|]. done.
  - destruct c as [|p|y p|p]; cbn in *; rewrite ?E2; try done.
    + destruct Hc as (? & ? & y & Hy). split_and!; [done..|]. exists y. apply Hmono; [|done].
      intros ->. congruence.
    + destruct Hc as (? & ? & Hy). split_and!; [done..|]. apply Hmono; [|done].
      intros ->. congruence.
Qed.

Lemma consumer_local q ps c cl r c' :
  inv q ps c cl r -> consumer_ok q cl r c' -> inv q ps c' cl r.
Proof. intros [] H. by split. Qed.

Lemma consumer_take q ps cl r x :
  inv q ps (CStoreSeq x (Z.of_nat r)) cl r -> Z.of_nat (length cl) + Capacity < INT64_MAX ->
  inv (set_cell q (Z.of_nat r) (fun c => { c with sequence := u64 (Z.of_nat r + Capacity) })) ps
      (CStorePos (Z.of_nat r)) cl (S r).
Proof.
  intros H Hmax. pose proof (fun j pos => owner_window q ps _ cl r j pos H) as Hwin.
  pose proof Capacity_two.
  destruct H as [Hw Hcs Hr Hwindow Htk Hps Hown (Hrp & _ & Hx)].
  pose proof (lookup_lt_Some _ _ _ Hx). rewrite u64_id by mlia.
  destruct (set_cell_fields q (Z.of_nat r)
    (fun c => { c with sequence := Z.of_nat r + Capacity }) Hcs) as (E1 & E2 & E3 & E4 & E5).
  set (q' := set_cell _ _ _) in *.
  assert (index (Z.of_nat r + Capacity) = index (Z.of_nat r)) as Ei.
  { rewrite !index_mod. f_equal. rewrite <- (Z.mod_add (Z.of_nat r) 1) by lia. f_equal. lia. }
  split; rewrite ?E1, ?E3; try done; try lia.
  - intros p Hp. unfold cell_ok. destruct (Z.eq_dec p (Z.of_nat r + Capacity)) as [->|Hne].
    + rewrite lookup_ge_None_2 by lia. rewrite (cell_index _ _ _ Ei), E4. by destruct (cell q _).
    + rewrite E5; [apply (Hwindow p); lia|].
      intros E. apply (index_window (Z.of_nat r)) in E; lia.
  - intros j Hj. destruct (Nat.eq_dec j r) as [->|]; [by exists x|apply Htk; lia].
  - intros j. specialize (Hps j). destruct (ps j) as [| | |y pos| |y pos] eqn:Ej; cbn in *; try done.
    + destruct Hps as [? Hp]. split; [done|]. intros E. specialize (Hp E). lia.
    + destruct Hps as (? & Hl & Hd). split_and!; [done..|]. rewrite E5; [done|].
      intros E. destruct (Hwin j pos) as (Hpos & _); [by rewrite Ej|].
      apply (index_window (Z.of_nat r)) in E; [|lia..]. subst pos. rewrite Nat2Z.id in Hl. congruence.
  - cbn. lia.
Qed.

Lemma consumer_advance q ps cl r pos :
  inv q ps (CStorePos pos) cl r -> Z.of_nat r <= INT64_MAX ->
  inv { q with read_pos_ := u64 (pos + 1) } ps CIdle cl r.
Proof.
  intros [Hw Hcs Hr Hwindow Htk Hps Hown Hc] Hmax. cbn in Hc. destruct q. fields.
  rewrite Hc, u64_id by mlia. split; cbn in *; try done.
Qed.

(** ** Steps and runs *)

Definition sys_inv (n : nat) (s : system) : Prop :=
  exists cl r, ledger_run Capacity (sys_trace s) (cl, r) /\ (length cl <= n)%nat /\
    inv (sys_queue s) (sys_producers s) (sys_consumer s) cl r.

Lemma mpsc_start_inv : sys_inv 0 start.
Proof.
  pose proof Capacity_two. exists [], 0%nat. split_and!; [constructor|done|].
  split; cbn; try done; try lia.
  - by rewrite length_fmap, length_seq.
  - intros p Hp. unfold cell_ok, cell. rewrite lookup_nil, nth_lookup. cbn [cells_ create].
    rewrite list_lookup_fmap, lookup_seq_lt; cbn; rewrite index_mod, Z.mod_small by lia; lia.
Qed.

Lemma diff_exact q ps c cl r pos :
  inv q ps c cl r -> 0 <= pos <= Z.of_nat (length cl) ->
  Z.of_nat (length cl) + Capacity < INT64_MAX ->
  diff (sequence (cell q pos)) pos = sequence (cell q pos) - pos.
Proof.
  intros H Hpos Hmax. pose proof (iv_room _ _ _ _ _ H).
  destruct (cell_sequence q ps c cl r pos H) as (p & z & Hp & _ & Hs & Hge).
  assert (0 <= sequence (cell q pos) <= INT64_MAX).
  { destruct (Z.le_gt_cases (Z.of_nat (length cl)) p) as [Hl|]; [|mlia].
    specialize (Hge Hl).
    assert (Z.of_nat r <= Z.of_nat (length cl)); [|mlia].
    destruct (Z.le_gt_cases (Z.of_nat r) (Z.of_nat (length cl))) as [|Hgt]; [done|].
    destruct (iv_taken _ _ _ _ _ H (length cl) ltac:(lia)) as [y Hy].
    apply lookup_lt_Some in Hy. lia. }
  unfold diff. rewrite !(i64_id (_ (_ _ _))), (i64_id pos), i64_id by mlia. done.
Qed.

(** Appending the event of a step, or none. *)
Lemma ledger_snoc (tr : list (mpsc_event T)) L ev L' :
  ledger_run Capacity tr L ->
  match ev with [] => L' = L | [e] => ledger_step Capacity L e L' | _ => False end ->
  ledger_run Capacity (tr ++ ev) L'.
Proof.
  intros Hr. destruct ev as [|e [|]]; [|eapply lr_snoc; eassumption|done].
  intros ->. by rewrite app_nil_r.
Qed.

Lemma mpsc_producer_step_inv n s i x weak :
  Z.of_nat n + 1 + Capacity < INT64_MAX -> sys_inv n s -> sys_inv (S n) (step s (Producer i x weak)).
Proof.
  intros Hmax (cl & r & Hr & Hn & H). destruct s as [q ps c tr]. cbn in *.
  pose proof (iv_producers _ _ _ _ _ H i) as Hp. pose proof (iv_write _ _ _ _ _ H) as Hw.
  destruct (ps i) as [|y|y pos|y pos|y pos|y pos] eqn:Ei; cbn in Hp |- *.
  - exists cl, r. split_and!; [done|lia|]. by apply producer_local.
  - exists cl, r. split_and!; [by eapply ledger_snoc|lia|]. apply producer_local; cbn; [done|lia|done].
  - rewrite (diff_exact q ps c cl r pos) by (done || lia).
    destruct (Z.eqb_spec (sequence (cell q pos) - pos) 0) as [E|E]; [|
      destruct (Z.ltb_spec (sequence (cell q pos) - pos) 0) as [E'|E']]; exists cl, r; cbn.
    + split_and!; [by eapply ledger_snoc|lia|]. apply producer_local; cbn; [done| |done].
      split; [done|]. intros Ep. eapply (sequence_free q ps c cl r); (done || lia).
    + split_and!; [|lia|by apply producer_local].
      eapply ledger_snoc; [done|]. constructor. eapply (sequence_full q ps c cl r); (done || lia).
    + split_and!; [by eapply ledger_snoc|lia|by apply producer_local].
  - destruct (negb weak && _) eqn:E; cbn.
    + apply andb_true_iff in E as [_ E%Z.eqb_eq]. rewrite Hw in E. subst pos.
      destruct Hp as [_ Hroom]. specialize (Hroom eq_refl).
      exists (cl ++ [(y, false)]), r. split_and!.
      * eapply ledger_snoc; [done|]. by constructor.
      * rewrite length_app; cbn; lia.
      * pose proof Capacity_two. apply producer_reserve; [done|done|mlia].
    + exists cl, r. split_and!; [by eapply ledger_snoc|lia|].
      apply producer_local; cbn; [done|lia|done].
  - exists cl, r. split_and!; [by eapply ledger_snoc|lia|]. by apply producer_write.
  - exists (<[Z.to_nat pos := (y, true)]> cl), r. split_and!.
    + eapply ledger_snoc; [done|]. constructor. tauto.
    + rewrite length_insert. lia.
    + eapply producer_publish; (done || lia).
Qed.

Lemma mpsc_consumer_step_inv n s :
  Z.of_nat n + 1 + Capacity < INT64_MAX -> sys_inv n s -> sys_inv (S n) (step s Consumer).
Proof.
  intros Hmax (cl & r & Hr & Hn & H). destruct s as [q ps c tr]. cbn in *.
  pose proof (iv_consumer _ _ _ _ _ H) as Hc. pose proof (iv_room _ _ _ _ _ H) as Hroom.
  assert (Z.of_nat r <= Z.of_nat (length cl)) as Hle.
  { destruct (Z.le_gt_cases (Z.of_nat r) (Z.of_nat (length cl))) as [|Hgt]; [done|].
    destruct (iv_taken _ _ _ _ _ H (length cl) ltac:(lia)) as [y Hy].
    apply lookup_lt_Some in Hy. lia. }
  destruct c as [|pos|x pos|pos]; cbn in Hc |- *.
  - rewrite Hc, u64_id by mlia. pose proof Capacity_two.
    pose proof (iv_window _ _ _ _ _ H (Z.of_nat r) ltac:(lia)) as Hcell. unfold cell_ok in Hcell.
    rewrite Nat2Z.id in Hcell.
    destruct (Z.eqb_spec (sequence (cell q (Z.of_nat r))) (Z.of_nat r + 1)) as [E|E]; cbn;
      exists cl, r.
    + split_and!; [by eapply ledger_snoc|lia|]. eapply consumer_local; [done|]. cbn.
      split_and!; [done..|]. destruct (cl !! r) as [[y []]|]; [by exists y|lia..].
    + split_and!; [|lia|done]. eapply ledger_snoc; [done|]. constructor.
      intros y Hy. rewrite Hy in Hcell. tauto.
  - destruct Hc as (Hrp & -> & y & Hy). pose proof Capacity_two.
    pose proof (iv_window _ _ _ _ _ H (Z.of_nat r) ltac:(lia)) as Hcell. unfold cell_ok in Hcell.
    rewrite Nat2Z.id, Hy in Hcell. destruct Hcell as [_ ->].
    exists cl, r. split_and!; [by eapply ledger_snoc|lia|]. by eapply consumer_local.
  - destruct Hc as (Hrp & -> & Hy). exists cl, (S r). split_and!.
    + eapply ledger_snoc; [done|]. by constructor.
    + lia.
    + apply (consumer_take q ps cl r x); (done || lia).
  - exists cl, r. split_and!; [by eapply ledger_snoc|lia|]. apply consumer_advance; [done|mlia].
Qed.

Lemma mpsc_run_inv ms :
  Z.of_nat (length ms) + Capacity < INT64_MAX -> sys_inv (length ms) (run ms).
Proof.
  unfold run. apply (fold_left_inv step (fun s seen =>
    Z.of_nat (length seen) + Capacity < INT64_MAX -> sys_inv (length seen) s)).
  - intros _. apply mpsc_start_inv.
  - intros s seen m _ IH. rewrite length_app. cbn [length]. intros Hmax.
    rewrite Nat.add_comm; cbn [Nat.add].
    destruct m; [apply mpsc_producer_step_inv|apply mpsc_consumer_step_inv]; (apply IH || idtac); lia.
Qed.

End queue.
End MPSCQueue.

Import MPSCQueue.

(** C7. The MPSC queue is correct under every interleaving of any number of
    producers and its consumer, spurious failures of the weak exchange
    included: its events are an execution of a FIFO with reservations of
    capacity [2^k] (at least 2), so the elements taken are exactly the first
    ones reserved, in reservation order, each once, after its publication; a
    push is refused only when all the places are reserved and a pop only when
    the next place is unreserved or not published yet.  The bound on the
    schedule keeps the 64-bit positions from wrapping. *)
Theorem mpsc_linearizable {T} (d : T) k ms :
  1 <= k < 63 -> Z.of_nat (length ms) + Capacity k < INT64_MAX ->
  let s := run d k ms in
  exists cl r, ledger_run (Capacity k) (sys_trace s) (cl, r) /\
    taken (sys_trace s) = take r (reserved (sys_trace s)) /\
    reserved (sys_trace s) = cl.*1 /\
    Z.of_nat (length cl) <= Z.of_nat r + Capacity k.
Proof.
  intros [Hk1 Hk2] Hmax s. assert (SmallRing k) as Hk by (unfold SmallRing; lia).
  destruct (mpsc_run_inv d k Hk1 ms Hmax) as (cl & r & Hr & _ & _). fold s in Hr.
  exists cl, r. split; [done|].
  apply ledger_run_fifo in Hr as (? & ? & _ & ?); [done|unfold Capacity; lia].
Qed.

(** Three producers that race for the places of a ring of two, and the
    consumer. *)
Definition racing_moves : list (@move Z) :=
  concat (repeat [Producer 0 10 false; Producer 1 20 false; Producer 2 30 true; Consumer] 30).

Lemma mpsc_linearizable_witness :
  length (taken (sys_trace (run 0 1 racing_moves))) = 6%nat /\
  exists r, taken (sys_trace (run 0 1 racing_moves)) =
            take r (reserved (sys_trace (run 0 1 racing_moves))).
Proof.
  split; [vm_compute; reflexivity|].
  destruct (mpsc_linearizable 0 1 racing_moves) as (cl & r & _ & H & _).
  - lia.
  - vm_compute; reflexivity.
  - exists r. exact H.
Defined.

(** With the capacity of 1 that the static assertion admits, the queue loses
    elements: a second push succeeds before the first element is read. *)
Theorem mpsc_capacity_one_overwrites :
  let push i x := replicate 6 (Producer i x false) in
  let s := run 0 0 (push 0%nat 10 ++ push 1%nat 20 ++ replicate 4 Consumer) in
  reserved (sys_trace s) = [10; 20] /\ taken (sys_trace s) = [] /\
  read_pos_ (sys_queue s) = 0.
Proof. vm_compute. done. Qed.
