(* ===== verification/MemoryPool.v ===== *)
(** * MemoryPool<T, PoolSize> (sor/core/memory_pool.h)

    A Treiber stack of free slots with a tagged head word.  Threads execute
    one atomic operation at a time under an arbitrary schedule; the client may
    overwrite the link of a slot it holds, since the link lives in the slot.
    The objects themselves are not modelled, only the link word of a slot. *)

From S2P Require Import Prelude.

Module MemoryPool.

(** ** The tagged head word *)

Definition pack (index tag : Z) : Z := Z.lor (Z.shiftl tag 32) index.
Definition index_of (packed : Z) : Z := Z.land packed 4294967295.
Definition tag_of (packed : Z) : Z := u32 (Z.shiftr packed 32).

Lemma index_of_pack i g : in_u32 i -> index_of (pack i g) = i.
Proof.
  intros Hi. unfold index_of, pack. change 4294967295 with (Z.ones 32).
  rewrite Z.land_lor_distr_l, !Z.land_ones, Z.shiftl_mul_pow2 by lia.
  rewrite Z.mod_mul by lia. rewrite Z.lor_0_l. apply Z.mod_small. mlia.
Qed.

Lemma tag_of_pack i g : in_u32 i -> in_u32 g -> tag_of (pack i g) = g.
Proof.
  intros Hi Hg. unfold tag_of, pack.
  rewrite Z.shiftr_lor, Z.shiftr_shiftl_l, Z.sub_diag, Z.shiftl_0_r by lia.
  rewrite (Z.shiftr_div_pow2 i), Z.div_small, Z.lor_0_r by mlia. by apply u32_id.
Qed.

Section pool.
Context (PoolSize : nat).

(** The shared words: the head and the link of each slot. *)
Record t := mk { free_head_ : Z; next_ : list Z; available_ : Z }.

Definition create : t :=
  mk (pack 0 0) ((fun i => Z.of_nat i + 1) <$> seq 0 PoolSize) (Z.of_nat PoolSize).

Definition link (q : t) (idx : Z) : Z := nth (Z.to_nat idx) (next_ q) 0.

(** A thread inside [allocate] or [deallocate], by its next operation. *)
Inductive pc :=
| Idle
| ALoad                        (** [free_head_.load] of [allocate] *)
| ANext (old_head : Z)         (** [node_at(idx)->next.load] *)
| ACas (old_head nxt : Z)      (** [compare_exchange_weak] *)
| ASub                         (** [available_.fetch_sub] *)
| DLoad (idx : Z)              (** [free_head_.load] of [deallocate] *)
| DStore (idx old_head : Z)    (** [node_at(idx)->next.store] *)
| DCas (idx old_head : Z)      (** [compare_exchange_weak] *)
| DAdd.                        (** [available_.fetch_add] *)

Inductive event := Allocated (idx : Z) | Exhausted | Freed (idx : Z).

(** The test of the loop on a head just read. *)
Definition decide_alloc (old_head : Z) : pc * list event :=
  if index_of old_head >=? Z.of_nat PoolSize then (Idle, [Exhausted]) else (ANext old_head, []).

Definition pc_step (q : t) (p : pc) (weak_fails : bool) : t * pc * list event :=
  match p with
  | Idle => (q, Idle, [])
  | ALoad => let '(p, ev) := decide_alloc (free_head_ q) in (q, p, ev)
  | ANext old_head => (q, ACas old_head (link q (index_of old_head)), [])
  | ACas old_head nxt =>
      let idx := index_of old_head in
      let new_head := pack nxt (u32 (tag_of old_head + 1)) in
      if negb weak_fails && (free_head_ q =? old_head)
      then ({ q with free_head_ := new_head }, ASub, [Allocated idx])
      else let '(p, ev) := decide_alloc (free_head_ q) in (q, p, ev)
  | ASub => ({ q with available_ ::= fun n => u64 (n - 1) }, Idle, [])
  | DLoad idx => (q, DStore idx (free_head_ q), [])
  | DStore idx old_head =>
      ({ q with next_ ::= fun l => <[Z.to_nat idx := index_of old_head]> l }, DCas idx old_head, [])
  | DCas idx old_head =>
      let new_head := pack idx (u32 (tag_of old_head + 1)) in
      if negb weak_fails && (free_head_ q =? old_head)
      then ({ q with free_head_ := new_head }, DAdd, [Freed idx])
      else (q, DStore idx (free_head_ q), [])
  | DAdd => ({ q with available_ ::= fun n => u64 (n + 1) }, Idle, [])
  end.

(** ** Clients and schedules *)

Record system := mkSys {
  sys_pool : t;
  sys_threads : list pc;
  sys_held : list nat;          (* the slots the clients have *)
  sys_trace : list event
}.

Definition start (threads : nat) : system := mkSys create (replicate threads Idle) [] [].

Inductive move :=
| CallAllocate (i : nat)                 (* thread [i] calls [allocate] *)
| CallDeallocate (i : nat) (slot : nat)  (* ... [deallocate] on a slot held *)
| Run (i : nat) (weak_fails : bool)      (* ... executes its next operation *)
| Write (slot : nat) (v : Z).            (* a client writes into a slot held *)

(** The slots a thread's event gives to the clients. *)
Definition granted (ev : list event) : list nat :=
  ev ≫= fun e => match e with Allocated idx => [Z.to_nat idx] | _ => [] end.

#[local] Arguments granted : simpl never.

Definition remove_one (x : nat) (l : list nat) : list nat :=
  match list_find (x =.) l with Some (i, _) => delete i l | None => l end.

Definition step (s : system) (m : move) : system :=
  match m with
  | CallAllocate i =>
      match sys_threads s !! i with
      | Some Idle => { s with sys_threads := <[i := ALoad]> (sys_threads s) }
      | _ => s
      end
  | CallDeallocate i slot =>
      match sys_threads s !! i with
      | Some Idle =>
          if decide (slot ∈ sys_held s)
          then { s with sys_threads := <[i := DLoad (Z.of_nat slot)]> (sys_threads s);
                        sys_held := remove_one slot (sys_held s) }
          else s
      | _ => s
      end
  | Run i weak_fails =>
      match sys_threads s !! i with
      | Some p =>
          let '(q, p, ev) := pc_step (sys_pool s) p weak_fails in
          mkSys q (<[i := p]> (sys_threads s)) (granted ev ++ sys_held s) (sys_trace s ++ ev)
      | None => s
      end
  | Write slot v =>
      if decide (slot ∈ sys_held s)
      then { s with sys_pool := { sys_pool s with next_ ::= fun l => <[slot := v]> l } }
      else s
  end.

Definition run (threads : nat) (ms : list move) : system := fold_left step ms (start threads).

(** ** The invariant *)

Context (HN : Z.of_nat PoolSize < 4294967295).

(** The index of the first free slot, [PoolSize] when there is none. *)
Definition first (F : list nat) : Z :=
  match F with [] => Z.of_nat PoolSize | i :: _ => Z.of_nat i end.

(** The free slots are chained in order by their links. *)
Fixpoint linked (links : list Z) (F : list nat) : Prop :=
  match F with
  | [] => True
  | i :: F => links !! i = Some (first F) /\ linked links F
  end.

(** The slot a thread is giving back. *)
Definition returning (p : pc) : list nat :=
  match p with
  | DLoad idx | DStore idx _ | DCas idx _ => [Z.to_nat idx]
  | _ => []
  end.

(** A head word read earlier: if its tag is current, so is the word. *)
Definition seen (q : t) (n old_head : Z) : Prop :=
  0 <= tag_of old_head <= n /\ (tag_of old_head = n -> old_head = free_head_ q).

Definition pc_ok (q : t) (n : Z) (p : pc) : Prop :=
  match p with
  | ANext old_head => seen q n old_head /\ index_of old_head < Z.of_nat PoolSize
  | ACas old_head nxt => seen q n old_head /\ index_of old_head < Z.of_nat PoolSize /\
      (tag_of old_head = n -> nxt = link q (index_of old_head))
  | DLoad idx => 0 <= idx
  | DStore idx old_head => 0 <= idx /\ seen q n old_head
  | DCas idx old_head => 0 <= idx /\ seen q n old_head /\ link q idx = index_of old_head
  | _ => True
  end.

(** The operations that still have to adjust the counter. *)
Definition weight (p : pc) : Z := match p with ASub => 1 | DAdd => -1 | _ => 0 end.

(** [F]: the free slots in order; [n]: the successful exchanges so far. *)
Record inv (s : system) (F : list nat) (n : Z) : Prop := {
  iv_head : free_head_ (sys_pool s) = pack (first F) n;
  iv_length : length (next_ (sys_pool s)) = PoolSize;
  iv_linked : linked (next_ (sys_pool s)) F;
  iv_partition : F ++ sys_held s ++ (sys_threads s ≫= returning) ≡ₚ seq 0 PoolSize;
  iv_threads : Forall (pc_ok (sys_pool s) n) (sys_threads s);
  iv_available : available_ (sys_pool s) =
    u64 (Z.of_nat (length F) + sum_by weight (sys_threads s))
}.

Lemma linked_write links F i v : i ∉ F -> linked links F -> linked (<[i := v]> links) F.
Proof.
  induction F as [|j F IH]; cbn; [done|]. intros [Hne Hi]%not_elem_of_cons [Hl H].
  split; [by rewrite list_lookup_insert_ne|by apply IH].
Qed.

Lemma first_range F : (forall i, i ∈ F -> (i < PoolSize)%nat) -> in_u32 (first F).
Proof. intros H. unfold in_u32. destruct F as [|i F]; cbn; [lia|]. specialize (H i ltac:(left)). lia. Qed.

(** The slots in their three places are distinct and in range. *)
Lemma partition_elem s F n i :
  inv s F n -> i ∈ F ++ sys_held s ++ (sys_threads s ≫= returning) -> (i < PoolSize)%nat.
Proof. intros H Hi. rewrite (iv_partition _ _ _ H) in Hi. apply elem_of_seq in Hi. lia. Qed.

Lemma partition_NoDup s F n : inv s F n -> NoDup (F ++ sys_held s ++ (sys_threads s ≫= returning)).
Proof. intros H. rewrite (iv_partition _ _ _ H). apply NoDup_seq. Qed.

Lemma seen_now q n F : free_head_ q = pack (first F) n -> in_u32 (first F) -> in_u32 n ->
  seen q n (free_head_ q).
Proof. intros E Hf Hn. split; [|done]. rewrite E, tag_of_pack by done. mlia. Qed.

(** One entry of the thread list changes. *)
Lemma delete_insert_same {A} (l : list A) i x : delete i (<[i := x]> l) = delete i l.
Proof. revert i; induction l as [|y l IH]; intros [|i]; cbn; [done..|]. by rewrite IH. Qed.

Lemma threads_perm (ps : list pc) i p p' :
  ps !! i = Some p -> ps ≡ₚ p :: delete i ps /\ <[i := p']> ps ≡ₚ p' :: delete i ps.
Proof.
  intros H. split; [by apply delete_Permutation|].
  rewrite <- (delete_insert_same ps i p'). apply delete_Permutation, list_lookup_insert_eq.
  by eapply lookup_lt_Some.
Qed.

Lemma available_same q ts held tr F n :
  inv (mkSys q ts held tr) F n -> available_ q = u64 (available_ q + 0).
Proof.
  intros H. pose proof (iv_available _ _ _ H) as Ha. cbn in Ha.
  rewrite Z.add_0_r, Ha. symmetry. apply u64_id, u64_range.
Qed.

(** A step of thread [i]: what is to be shown about its effect. *)
Lemma thread_update q ts held tr tr' F n i p q' p' held' F' n' delta :
  inv (mkSys q ts held tr) F n -> ts !! i = Some p ->
  free_head_ q' = pack (first F') n' -> length (next_ q') = PoolSize ->
  linked (next_ q') F' -> F' ++ held' ++ returning p' ≡ₚ F ++ held ++ returning p ->
  (forall x, x ∈ delete i ts -> pc_ok q n x -> pc_ok q' n' x) -> pc_ok q' n' p' ->
  available_ q' = u64 (available_ q + delta) ->
  delta = Z.of_nat (length F') - Z.of_nat (length F) + weight p' - weight p ->
  inv (mkSys q' (<[i := p']> ts) held' tr') F' n'.
Proof.
  intros [_ _ _ Hpart Hok Hav] Hi Hh Hl Hlk Hp Hothers Hp' Ha ->. cbn in *.
  destruct (threads_perm ts i p p' Hi) as [E1 E2].
  split; cbn; try done.
  - rewrite E2. rewrite E1 in Hpart. cbn in *.
    rewrite <- Hpart. rewrite !app_assoc in *. by rewrite Hp.
  - rewrite E2. rewrite E1 in Hok. apply Forall_cons in Hok as [_ Hok]. constructor; [done|].
    apply Forall_forall. intros x Hx. apply Hothers; [done|]. by eapply Forall_forall in Hok.
  - pose proof (sum_by_perm weight _ _ E1) as W1. pose proof (sum_by_perm weight _ _ E2) as W2.
    rewrite sum_by_cons in W1, W2. rewrite Ha, Hav, W2, W1, u64_add_l. f_equal. lia.
Qed.

(** A step that only moves the thread along. *)
Lemma thread_local q ts held tr tr' F n i p p' :
  inv (mkSys q ts held tr) F n -> ts !! i = Some p -> returning p' = returning p ->
  weight p' = weight p -> pc_ok q n p' -> inv (mkSys q (<[i := p']> ts) held tr') F n.
Proof.
  intros H Hi Hr Hw Hp. pose proof H as [Hh Hl Hlk _ _ Hav]. cbn in *.
  eapply (thread_update q _ _ _ _ _ _ _ _ _ _ _ _ _ 0); try done; [by rewrite Hr| |lia].
  by eapply available_same.
Qed.

(** A successful exchange bumps the tag: words read before are out of date. *)
Lemma pc_ok_bump q q' n x : next_ q' = next_ q -> pc_ok q n x -> pc_ok q' (n + 1) x.
Proof.
  intros En. assert (forall w, seen q n w -> seen q' (n + 1) w) as Hs.
  { intros w [? _]. split; [lia|lia]. }
  destruct x; cbn; unfold link; rewrite ?En; try tauto.
  - intros [? ?]. auto.
  - intros ([? ?] & ? & _). split_and!; [by apply Hs|done|lia].
  - intros [? ?]. auto.
  - intros (? & ? & ?). auto.
Qed.

(** A write to the link of a slot that is not free and not being returned by
    the thread in question. *)
Lemma pc_ok_write q F n x j v :
  free_head_ q = pack (first F) n -> in_u32 (first F) -> j ∉ F -> j ∉ returning x ->
  pc_ok q n x -> pc_ok { q with next_ ::= fun l => <[j := v]> l } n x.
Proof.
  intros Eh Hf Hj Hr. destruct q as [h l a]. cbn in Eh. fields.
  assert (forall idx, Z.to_nat idx <> j -> nth (Z.to_nat idx) (<[j:=v]> l) 0 = nth (Z.to_nat idx) l 0)
    as Hlink by (intros; rewrite !nth_lookup, list_lookup_insert_ne; congruence).
  destruct x as [| |w|w x| |idx|idx w|idx w|]; cbn; try done.
  - intros (Hs & Hlt & Hn). split_and!; [done..|]. intros Et. rewrite (Hn Et). symmetry.
    unfold link; cbn. apply Hlink. destruct Hs as [_ Hs]. cbn in Hs. rewrite (Hs Et), Eh in *.
    rewrite index_of_pack in * by done. destruct F as [|i F]; cbn in *; [lia|].
    rewrite Nat2Z.id. intros <-. apply Hj. left.
  - intros (? & ? & ?). split_and!; [done..|]. unfold link; cbn. rewrite Hlink; [done|].
    intros <-. apply Hr. left.
Qed.

Lemma decide_alloc_ok q F n :
  free_head_ q = pack (first F) n -> in_u32 (first F) -> in_u32 n ->
  let p := (decide_alloc (free_head_ q)).1 in
  pc_ok q n p /\ returning p = [] /\ weight p = 0 /\ granted (decide_alloc (free_head_ q)).2 = [].
Proof.
  intros Eh Hf Hn. unfold decide_alloc.
  destruct (Z.geb_spec (index_of (free_head_ q)) (Z.of_nat PoolSize)); cbn; [done|].
  split_and!; [|done..|]; [|done]. by apply (seen_now q n F).
Qed.

Lemma alloc_exchange q ts held tr tr' F n i nxt :
  inv (mkSys q ts held tr) F n -> n + 1 < 4294967296 -> in_u32 (first F) ->
  ts !! i = Some (ACas (free_head_ q) nxt) ->
  exists F', inv (mkSys { q with free_head_ := pack nxt (u32 (tag_of (free_head_ q) + 1)) }
                   (<[i := ASub]> ts) (Z.to_nat (index_of (free_head_ q)) :: held) tr') F' (n + 1).
Proof.
  intros H Hn Hf Hi. pose proof H as [Hh Hl Hlk _ Hok Hav]. cbn in *.
  pose proof (proj1 (Forall_lookup _ _) Hok i _ Hi) as (Hs & Hlt & Hnxt).
  destruct Hs as [Ht _]. rewrite Hh in *.
  destruct (Z.le_gt_cases 0 n) as [H0|H0]; [|lia].
  rewrite tag_of_pack in * by (done || mlia). rewrite index_of_pack in * by done.
  rewrite u32_id by mlia. specialize (Hnxt eq_refl).
  destruct F as [|f F]; cbn in *; [lia|]. rewrite Nat2Z.id.
  destruct Hlk as [Hf0 Hlk]. unfold link in Hnxt. rewrite Nat2Z.id, nth_lookup, Hf0 in Hnxt.
  cbn in Hnxt. subst nxt. exists F.
  eapply (thread_update q _ _ _ _ _ _ _ _ _ _ _ _ _ 0);
    [exact H|exact Hi|destruct q; done|destruct q; done|destruct q; done| | |done| |].
  - cbn. rewrite !app_nil_r. by rewrite Permutation_middle.
  - intros x _. apply pc_ok_bump. by destruct q.
  - rewrite <- (available_same _ _ _ _ _ _ H). by destruct q.
  - cbn. lia.
Qed.

Lemma dealloc_exchange q ts held tr tr' F n i idx :
  inv (mkSys q ts held tr) F n -> n + 1 < 4294967296 -> in_u32 (first F) ->
  ts !! i = Some (DCas idx (free_head_ q)) ->
  exists F', inv (mkSys { q with free_head_ := pack idx (u32 (tag_of (free_head_ q) + 1)) }
                   (<[i := DAdd]> ts) held tr') F' (n + 1).
Proof.
  intros H Hn Hf Hi. pose proof H as [Hh Hl Hlk _ Hok Hav]. cbn in *.
  pose proof (proj1 (Forall_lookup _ _) Hok i _ Hi) as (H0 & [Ht _] & Hlink). cbn in *.
  rewrite Hh in *. rewrite index_of_pack in Hlink by done.
  destruct (Z.le_gt_cases 0 n) as [Hn0|Hn0]; [|lia].
  rewrite tag_of_pack in * by (done || mlia). rewrite u32_id by mlia.
  assert (Z.to_nat idx < PoolSize)%nat as Hlt.
  { eapply partition_elem; [exact H|]. cbn. apply elem_of_app. right. apply elem_of_app. right.
    apply list_elem_of_bind. eexists. split; [|by eapply list_elem_of_lookup_2]. left. }
  exists (Z.to_nat idx :: F).
  eapply (thread_update q _ _ _ _ _ _ _ _ _ _ _ _ _ 0);
    [exact H|exact Hi|destruct q; cbn in *; fields; f_equal; lia|by destruct q| | | |done| |].
  - cbn. split; [|by destruct q]. destruct q; cbn in *.
    destruct (lookup_lt_is_Some_2 next_0 (Z.to_nat idx)) as [v Hv]; [lia|].
    unfold link in Hlink. cbn in Hlink. rewrite nth_lookup, Hv in Hlink. cbn in Hlink. by subst.
  - cbn. rewrite app_nil_r, (Permutation_app_comm held). cbn. by rewrite Permutation_middle.
  - intros x _. apply pc_ok_bump. by destruct q.
  - rewrite <- (available_same _ _ _ _ _ _ H). by destruct q.
  - cbn. lia.
Qed.

Lemma remove_one_perm x l : x ∈ l -> l ≡ₚ x :: remove_one x l.
Proof.
  intros Hx. unfold remove_one. destruct (list_find (x =.) l) as [[i y]|] eqn:E.
  - apply list_find_Some in E as (Hi & -> & _). by apply delete_Permutation.
  - apply list_find_None in E. rewrite Forall_forall in E. by destruct (E x Hx).
Qed.

(** Writing the link of a slot that only the writer can touch. *)
Lemma write_others q ts held tr F n i p j v x :
  inv (mkSys q ts held tr) F n -> in_u32 (first F) -> ts !! i = Some p -> j ∈ returning p ->
  x ∈ delete i ts -> pc_ok q n x -> pc_ok { q with next_ ::= fun l => <[j := v]> l } n x.
Proof.
  intros H Hf Hi Hj Hx. pose proof (partition_NoDup _ _ _ H) as Hn. cbn in Hn.
  destruct (threads_perm ts i p p Hi) as [E _]. rewrite E in Hn. cbn in Hn.
  apply NoDup_app in Hn as (_ & Hd & Hn). apply NoDup_app in Hn as (_ & _ & Hn).
  apply NoDup_app in Hn as (_ & Hd' & _).
  apply (pc_ok_write q F); [apply (iv_head _ _ _ H)|done| |].
  - intros Hin. apply (Hd j Hin). apply elem_of_app. right. apply elem_of_app. by left.
  - intros Hin. apply (Hd' j Hj). apply list_elem_of_bind. by exists x.
Qed.

Lemma run_step_inv q ts held tr F n i weak :
  inv (mkSys q ts held tr) F n -> 0 <= n -> n + 1 < 4294967296 ->
  exists F' n', inv (step (mkSys q ts held tr) (Run i weak)) F' n' /\ n <= n' <= n + 1.
Proof.
  intros H Hn0 Hn. pose proof H as [Hh Hl Hlk _ Hok _]. cbn in *.
  destruct (ts !! i) as [p|] eqn:Ei; [|exists F, n; split; [done|lia]].
  pose proof (proj1 (Forall_lookup _ _) Hok i _ Ei) as Hp.
  assert (in_u32 (first F)) as Hf.
  { apply first_range. intros j Hj. eapply partition_elem; [exact H|]. apply elem_of_app. by left. }
  assert (in_u32 n) as Hnr by (unfold in_u32; lia).
  pose proof (seen_now q n F Hh Hf Hnr) as Hseen.
  pose proof (decide_alloc_ok q F n Hh Hf Hnr) as Hdec. cbv zeta in Hdec.
  destruct (decide_alloc (free_head_ q)) as [pd evd] eqn:Ed. destruct Hdec as (Hd1 & Hd2 & Hd3 & Hd4).
  cbn in Hd1, Hd2, Hd3, Hd4.
  destruct p as [| |w|w x| |idx|idx w|idx w|]; cbn in Hp |- *.
  - exists F, n. split; [|lia]. by eapply thread_local.
  - rewrite Ed, Hd4. exists F, n. split; [|lia]. by eapply thread_local.
  - exists F, n. split; [|lia]. eapply thread_local; try done. cbn. tauto.
  - destruct (negb weak && _) eqn:E.
    + apply andb_true_iff in E as [_ <-%Z.eqb_eq].
      destruct (alloc_exchange q ts held tr (tr ++ [Allocated (index_of (free_head_ q))]) F n i x
        H Hn Hf Ei) as [F' H']. exists F', (n + 1). split; [exact H'|lia].
    + rewrite Ed, Hd4. exists F, n. split; [|lia]. by eapply thread_local.
  - exists F, n. split; [|lia].
    eapply (thread_update q _ _ _ _ _ _ _ _ _ _ _ _ _ (-1)); try done; destruct q; try done; cbn; lia.
  - exists F, n. split; [|lia]. by eapply thread_local.
  - exists F, n. split; [|lia]. destruct Hp as [H0 Hs].
    assert (Z.to_nat idx ∉ F) as HF.
    { intros Hin. pose proof (partition_NoDup _ _ _ H) as Hnd. cbn in Hnd.
      apply NoDup_app in Hnd as (_ & Hd & _). apply (Hd _ Hin). apply elem_of_app. right.
      apply list_elem_of_bind. eexists. split; [|by eapply list_elem_of_lookup_2]. left. }
    eapply (thread_update q _ _ _ _ _ _ _ _ _ _ _ _ _ 0); [exact H|exact Ei|..].
    + by destruct q.
    + destruct q. cbn. by rewrite length_insert.
    + destruct q. by apply linked_write.
    + done.
    + intros x Hx. eapply write_others; try done. left.
    + cbn. split_and!; [done|by destruct q|]. destruct q. unfold link. cbn in *.
      rewrite nth_lookup, list_lookup_insert_eq; [done|]. rewrite Hl.
      eapply (partition_elem _ _ _ (Z.to_nat idx) H). cbn. apply elem_of_app. right.
      apply elem_of_app. right. apply list_elem_of_bind. eexists.
      split; [|by eapply list_elem_of_lookup_2]. left.
    + rewrite <- (available_same _ _ _ _ _ _ H). by destruct q.
    + cbn. lia.
  - destruct (negb weak && _) eqn:E.
    + apply andb_true_iff in E as [_ <-%Z.eqb_eq].
      destruct (dealloc_exchange q ts held tr (tr ++ [Freed idx]) F n i idx H Hn Hf Ei) as [F' H'].
      exists F', (n + 1). split; [exact H'|lia].
    + exists F, n. split; [|lia]. eapply thread_local; try done. cbn. tauto.
  - exists F, n. split; [|lia].
    eapply (thread_update q _ _ _ _ _ _ _ _ _ _ _ _ _ 1); try done; destruct q; try done; cbn; lia.
Qed.

Lemma step_inv s F n m :
  inv s F n -> 0 <= n -> n + 1 < 4294967296 ->
  exists F' n', inv (step s m) F' n' /\ n <= n' <= n + 1.
Proof.
  intros H Hn0 Hn. destruct s as [q ts held tr]. destruct m as [i|i slot|i weak|slot v].
  - exists F, n. split; [|lia]. cbn. destruct (ts !! i) as [[]|] eqn:E; try done.
    by eapply thread_local.
  - exists F, n. split; [|lia]. cbn. destruct (ts !! i) as [[]|] eqn:E; try done.
    destruct (decide (slot ∈ held)) as [Hin|]; [|done]. fields.
    pose proof H as [Hh Hl Hlk _ _ _]. cbn in *.
    eapply (thread_update q _ _ _ _ _ _ _ _ _ _ _ _ _ 0); try done.
    + cbn. rewrite Nat2Z.id, app_nil_r. pose proof (remove_one_perm slot held Hin) as Hr.
      revert Hr. generalize (remove_one slot held). intros l ->.
      by rewrite <- Permutation_cons_append.
    + cbn. lia.
    + exact (available_same _ _ _ _ _ _ H).
    + cbn. lia.
  - by eapply run_step_inv.
  - exists F, n. split; [|lia]. cbn. destruct (decide (slot ∈ held)) as [Hin|]; [|done]. fields.
    pose proof H as [Hh Hl Hlk Hpart Hok Hav]. cbn in *.
    pose proof (partition_NoDup _ _ _ H) as Hnd. cbn in Hnd.
    apply NoDup_app in Hnd as (_ & Hd & Hnd). apply NoDup_app in Hnd as (_ & Hd' & _).
    assert (slot ∉ F) as HF.
    { intros HinF. apply (Hd _ HinF). apply elem_of_app. by left. }
    split; cbn; try (by destruct q).
    + destruct q; cbn in *. by rewrite length_insert.
    + destruct q; cbn in *. by apply linked_write.
    + apply Forall_forall. intros x Hx.
      apply (pc_ok_write q F); [done| |done| |by eapply Forall_forall in Hok].
      * apply first_range. intros j Hj. eapply partition_elem; [exact H|]. apply elem_of_app. by left.
      * intros Hr. apply (Hd' _ Hin). apply list_elem_of_bind. by exists x.
Qed.

Lemma pool_start_inv threads : inv (start threads) (seq 0 PoolSize) 0.
Proof.
  unfold start, create. split; cbn.
  - unfold first. by destruct PoolSize.
  - by rewrite length_fmap, length_seq.
  - assert (forall a k, (a + k = PoolSize)%nat ->
      linked ((fun i => Z.of_nat i + 1) <$> seq 0 PoolSize) (seq a k)) as Hlk; [|by apply Hlk].
    intros a k; revert a; induction k as [|k IH]; intros a Ha; cbn; [done|].
    split; [|apply IH; lia].
    rewrite list_lookup_fmap, lookup_seq_lt by lia. cbn. f_equal. destruct k; cbn; lia.
  - assert ((replicate threads Idle ≫= returning) = []) as ->
      by (induction threads; cbn; [done|by rewrite IHthreads]).
    by rewrite app_nil_r.
  - apply Forall_replicate. done.
  - rewrite length_seq.
    assert (sum_by weight (replicate threads Idle) = 0) as ->
      by (induction threads; cbn [replicate]; rewrite ?sum_by_cons, ?IHthreads; done).
    rewrite Z.add_0_r, u64_id by mlia. done.
Qed.

Lemma pool_run_inv threads ms :
  Z.of_nat (length ms) < 4294967296 ->
  exists F n, inv (run threads ms) F n /\ 0 <= n <= Z.of_nat (length ms).
Proof.
  unfold run. apply (fold_left_inv step (fun s seen =>
    Z.of_nat (length seen) < 4294967296 ->
    exists F n, inv s F n /\ 0 <= n <= Z.of_nat (length seen))).
  - intros _. exists (seq 0 PoolSize), 0. split; [apply pool_start_inv|done].
  - intros s seen m _ IH. rewrite length_app. cbn [length]. intros Hmax.
    destruct IH as (F & n & H & Hn); [lia|].
    destruct (step_inv s F n m H) as (F' & n' & H' & Hn'); [lia..|].
    exists F', n'. split; [done|lia].
Qed.

(** What one operation of a thread does: nothing yet for its caller; the end
    of an [allocate] without a slot, which is only when none is free, or with
    the first free one; the end of the exchange of a [deallocate]. *)
Definition answers (s s' : system) (free : list nat) : Prop :=
  exists ev, sys_trace s' = sys_trace s ++ ev /\
    ((ev = [] /\ sys_held s' = sys_held s) \/
     (ev = [Exhausted] /\ free = [] /\ sys_held s' = sys_held s) \/
     (exists x rest, free = x :: rest /\ ev = [Allocated (Z.of_nat x)] /\ sys_held s' = x :: sys_held s) \/
     (exists x, x ∈ (sys_threads s ≫= returning) /\ ev = [Freed (Z.of_nat x)] /\ sys_held s' = sys_held s)).

Lemma decide_alloc_answers q F n : free_head_ q = pack (first F) n -> (forall i, i ∈ F -> (i < PoolSize)%nat) ->
  (decide_alloc (free_head_ q)).2 = match F with [] => [Exhausted] | _ => [] end.
Proof.
  intros Hh Hlt. unfold decide_alloc. rewrite Hh, index_of_pack by by apply first_range.
  destruct F as [|i F]; cbn [first]; [by rewrite Z.geb_leb, Z.leb_refl|].
  specialize (Hlt i ltac:(left)). by rewrite Z.geb_leb, (proj2 (Z.leb_gt _ _)) by lia.
Qed.

Lemma run_answers s F n i weak : inv s F n -> answers s (step s (Run i weak)) F.
Proof.
  intros H. destruct s as [q ts held tr]. pose proof H as [Hh _ _ _ Hok _]. cbn in *.
  assert (forall j, j ∈ F -> (j < PoolSize)%nat) as Hlt.
  { intros j Hj. eapply partition_elem; [exact H|]. apply elem_of_app. by left. }
  pose proof (decide_alloc_answers q F n Hh Hlt) as Hdec. unfold answers; cbn.
  destruct (ts !! i) as [p|] eqn:Ei; [|exists []; rewrite app_nil_r; auto].
  pose proof (proj1 (Forall_lookup _ _) Hok i _ Ei) as Hp.
  assert (forall q' p', exists ev, sys_trace (mkSys q' p' held (tr ++ [])) = tr ++ ev /\
    ((ev = [] /\ held = held) \/ (ev = [Exhausted] /\ F = [] /\ held = held) \/
     (exists x rest, F = x :: rest /\ ev = [Allocated (Z.of_nat x)] /\ held = x :: held) \/
     (exists x, x ∈ (ts ≫= returning) /\ ev = [Freed (Z.of_nat x)] /\ held = held))) as Hquiet by (intros; exists []; auto).
  assert (forall pd evd, decide_alloc (free_head_ q) = (pd, evd) -> granted evd = [] /\
    (evd = [] \/ evd = [Exhausted] /\ F = [])) as Hd.
  { intros pd evd E. rewrite E in Hdec. cbn in Hdec. subst evd. destruct F; auto. }
  destruct p as [| |w|w x| |idx|idx w|idx w|]; cbn in Hp |- *; try exact (Hquiet q ts).
  - destruct (decide_alloc (free_head_ q)) as [pd evd] eqn:E. destruct (Hd _ _ eq_refl) as [Hg Ho]. cbn. exists evd. rewrite Hg.
    split; [done|]. destruct Ho as [->|[-> ->]]; auto.
  - destruct (negb weak && (free_head_ q =? w)) eqn:E.
    + apply andb_true_iff in E as [_ <-%Z.eqb_eq]. destruct Hp as (_ & Hlt' & _). cbn in *.
      rewrite Hh, index_of_pack in Hlt' |- * by by apply first_range.
      destruct F as [|f F]; cbn in Hlt' |- *; [lia|]. exists [Allocated (Z.of_nat f)]. split; [done|].
      right. right. left. exists f, F. unfold granted. cbn. by rewrite Nat2Z.id.
    + destruct (decide_alloc (free_head_ q)) as [pd evd] eqn:E'. destruct (Hd _ _ eq_refl) as [Hg Ho]. cbn. rewrite Hg.
      exists evd. split; [done|]. destruct Ho as [->|[-> ->]]; auto.
  - destruct (negb weak && (free_head_ q =? w)); cbn; [|exact (Hquiet q ts)].
    exists [Freed idx]. split; [done|]. do 3 right. exists (Z.to_nat idx). split; [|rewrite Z2Nat.id by apply Hp; done].
    apply list_elem_of_bind. eexists. split; [|by eapply list_elem_of_lookup_2]. left.
Qed.

(** An [allocate] that reads the head when no slot is free ends there. *)
Lemma load_exhausted s n i : inv s [] n -> sys_threads s !! i = Some ALoad ->
  sys_trace (step s (Run i false)) = sys_trace s ++ [Exhausted].
Proof.
  intros H Ei. destruct s as [q ts held tr]. pose proof H as [Hh _ _ _ _ _]. cbn in *. rewrite Ei. cbn.
  pose proof (decide_alloc_answers q [] n Hh) as Hd. destruct (decide_alloc (free_head_ q)) as [pd evd]. cbn in *.
  rewrite Hd; [done|]. intros j Hj. by apply not_elem_of_nil in Hj.
Qed.

End pool.
End MemoryPool.

Import MemoryPool.

(** C26. The pool never hands out a slot twice: under every interleaving of
    allocations, deallocations of held slots and writes into held slots (fewer
    than 2^32 operations, so that the tag does not repeat), each slot of the
    pool is in exactly one place, free, held by one client or on its way back.
    The next operation of any thread answers its caller in one of three ways:
    an [allocate] ends with the first free slot, or without one, which it does
    only when no slot is free at that operation, and does whenever it first
    reads the head when none is; or a [deallocate] puts its slot back.  And
    when no thread is inside a call, [available] is the number of free
    slots. *)
Theorem memory_pool_exclusive PoolSize threads ms :
  0 < Z.of_nat PoolSize < 4294967295 -> Z.of_nat (length ms) < 4294967296 ->
  let s := run PoolSize threads ms in
  exists free, free ++ sys_held s ++ (sys_threads s ≫= returning) ≡ₚ seq 0 PoolSize /\
    (forall i weak_fails, answers s (step PoolSize s (Run i weak_fails)) free) /\
    (forall i, free = [] -> sys_threads s !! i = Some ALoad ->
     sys_trace (step PoolSize s (Run i false)) = sys_trace s ++ [Exhausted]) /\
    (Forall (fun p => p = Idle) (sys_threads s) ->
     available_ (sys_pool s) = Z.of_nat (length free)).
Proof.
  intros [Hpos HN] Hms s. destruct (pool_run_inv PoolSize HN threads ms Hms) as (F & n & H & Hn).
  fold s in H. exists F. split; [apply (iv_partition _ _ _ _ H)|].
  split; [intros; by eapply run_answers|]. split; [intros i -> ?; by eapply load_exhausted|].
  intros Hidle. rewrite (iv_available _ _ _ _ H).
  assert (sum_by weight (sys_threads s) = 0) as ->
    by (induction Hidle as [|p ps -> _ IH]; [done|by rewrite sum_by_cons, IH]).
  rewrite Z.add_0_r. apply u64_id.
  pose proof (Permutation_length (iv_partition _ _ _ _ H)) as Hlen.
  rewrite length_app, length_seq in Hlen. mlia.
Qed.

(** Two threads that race for the slots of a pool of two, with frees and
    client writes in between. *)
Definition racing_moves : list move :=
  [CallAllocate 0; CallAllocate 1; Run 0 false; Run 1 false; Run 0 false; Run 1 false;
   Run 0 false; Run 1 false; Run 0 false; Run 1 false; Run 1 false; Run 1 false;
   Write 0 77; CallDeallocate 0 0; Run 0 false; Run 0 false; Run 0 false; Run 0 false].

Lemma memory_pool_exclusive_witness :
  sys_held (run 2 2 racing_moves) = [1%nat] /\
  available_ (sys_pool (run 2 2 racing_moves)) = 1.
Proof.
  split; [vm_compute; reflexivity|].
  destruct (memory_pool_exclusive 2 2 racing_moves) as (free & Hp & _ & _ & Ha).
  - split; reflexivity.
  - vm_compute; reflexivity.
  - rewrite Ha; [|vm_compute; repeat constructor].
    apply Permutation_length in Hp. rewrite length_app, length_seq in Hp.
    assert (length (sys_held (run 2 2 racing_moves) ++
      (sys_threads (run 2 2 racing_moves) ≫= returning)) = 1%nat) as E by (vm_compute; reflexivity).
    rewrite E in Hp. lia.
Defined.
