(* ===== verification/Gateway.v ===== *)
(** * Gateway (sor/gateway/gateway.h, gateway.cpp)

    The composition of the router: order intake, risk, routing, dispatch of
    child orders, execution reports, fills.  The queues are their
    specification, a bounded FIFO; the two processing threads are the
    operations [PumpOrder], [PumpCancel] and [PumpReport], interleaved in any
    order with the calls of the other threads, each handler taken as one
    step.  Venue adapters are an interface the gateway only calls: the calls
    are effects, and reports come back as the [ReportIn] operation. *)

From S2P Require Import Prelude Double Types StateMachine RateLimiter Risk Book Aggregator.
From S2P Require Import FillManager ExecutionHandler Strategy Engine.

Module Gateway.

Record Stats := mkStats {
  orders_submitted : Z;
  orders_routed : Z;
  orders_completed : Z;
  orders_rejected : Z
}.

Record t := mk {
  running_ : bool;
  order_queue_ : list Order;
  cancel_queue_ : list CancelRequest;
  report_queue_ : list ExecutionReport;
  md_aggregator_ : MarketDataAggregator.t;
  risk_manager_ : RiskManager.t;
  routing_engine_ : RoutingEngine.t;
  exec_handler_ : ExecutionHandler.t;
  fill_manager_ : FillManager.t;
  venues_ : gset VenueId;
  next_order_id_ : Z;
  stats_ : Stats;
  fill_observer_ : bool;
  completion_observer_ : bool
}.

Definition ORDER_QUEUE : nat := Z.to_nat 8192.
Definition CANCEL_QUEUE : nat := Z.to_nat 4096.
Definition REPORT_QUEUE : nat := Z.to_nat 8192.

Definition create (now : Timestamp) : t :=
  mk false [] [] [] MarketDataAggregator.create (RiskManager.create now) RoutingEngine.create
     ExecutionHandler.create FillManager.create ∅ 1 (mkStats 0 0 0 0) false false.

(** What leaves the gateway; [ChildTracked] marks the creation of a child. *)
Inductive effect :=
| ChildTracked (parent : OrderId) (child : Order)
| SendOrder (venue : VenueId) (child : Order)
| SendCancel (venue : VenueId) (request : CancelRequest)
| FillObserved (order : Order) (report : ExecutionReport)
| CompletionObserved (order : Order)
| Connect (venue : VenueId)
| Disconnect (venue : VenueId).

Definition count_routed (g : t) : t :=
  { g with stats_ ::= fun st => { st with orders_routed ::= fun n => u64 (n + 1) } }.
Definition count_rejected (g : t) : t :=
  { g with stats_ ::= fun st => { st with orders_rejected ::= fun n => u64 (n + 1) } }.

(** [next_order_id_.fetch_add(1)] *)
Definition generate_order_id (g : t) : OrderId * t :=
  (next_order_id_ g, { g with next_order_id_ ::= fun n => u64 (n + 1) }).

(** ** Order intake *)

Definition submit_order (g : t) (order : Order) (now : Timestamp) : bool * t :=
  if negb (running_ g) then (false, g)
  else
    let '(order, g) :=
      if o_id order =? INVALID_ORDER_ID
      then let '(id, g) := generate_order_id g in ({ order with o_id := id }, g)
      else (order, g) in
    let order := { order with o_create_time := now } in
    if (ORDER_QUEUE <=? length (order_queue_ g))%nat then (false, g)
    else (true, { g with order_queue_ := order_queue_ g ++ [order];
                         stats_ ::= fun st => { st with orders_submitted ::= fun n => u64 (n + 1) } }).

Definition cancel_order (g : t) (request : CancelRequest) (now : Timestamp) : bool * t :=
  if negb (running_ g) then (false, g)
  else if (CANCEL_QUEUE <=? length (cancel_queue_ g))%nat then (false, g)
  else (true, { g with cancel_queue_ ::= fun q => q ++ [{ request with c_timestamp := now }] }).

(** [on_execution_report]: a report that finds the queue full is lost. *)
Definition report_in (g : t) (report : ExecutionReport) : t :=
  if (REPORT_QUEUE <=? length (report_queue_ g))%nat then g
  else { g with report_queue_ ::= fun q => q ++ [report] }.

Definition add_venue (g : t) (venue : VenueId) : t :=
  { g with md_aggregator_ ::= fun m => MarketDataAggregator.register_venue m venue;
           venues_ ::= fun vs => {[venue]} ∪ vs }.

Definition get_order (g : t) (id : OrderId) : option Order :=
  ExecutionHandler.get_order (exec_handler_ g) id.

(** ** The order pipeline *)

Definition make_child (order : Order) (slice : Slice) (id : OrderId) (now : Timestamp) : Order :=
  { default_Order with
      o_id := id;
      o_client_order_id := o_client_order_id order;
      o_parent_order_id := o_id order;
      o_symbol := o_symbol order;
      o_side := o_side order;
      o_type := sl_type slice;
      o_tif := sl_tif slice;
      o_price := sl_price slice;
      o_quantity := sl_quantity slice;
      o_remaining_quantity := sl_quantity slice;
      o_target_venue := sl_venue_id slice;
      o_strategy := o_strategy order;
      o_client_id := o_client_id order;
      o_state := New;
      o_create_time := now }.

(** One slice: create the child, track it, tell the risk manager, send it. *)
Definition dispatch_slice (order : Order) (now : Timestamp) (st : t * list effect) (slice : Slice)
    : t * list effect :=
  let '(g, evs) := st in
  let '(id, g) := generate_order_id g in
  let child := make_child order slice id now in
  let child := (OrderStateMachine.apply child Submit now).2 in
  let g := { g with exec_handler_ ::= fun h => ExecutionHandler.track_child_order h (o_id order) child;
                    risk_manager_ ::= fun m => RiskManager.on_order_accepted m child } in
  (g, evs ++ [ChildTracked (o_id order) child] ++
      (if decide (sl_venue_id slice ∈ venues_ g) then [SendOrder (sl_venue_id slice) child] else [])).

Section pipeline.
Context {SS : StdSort} {UM : UnorderedMap}.

(** [process_single_order]: the order as it is left, the state, the effects.
    [clk] gives the clock readings by call site. *)
Definition process_single_order (g : t) (order : Order) (clk : nat -> Timestamp)
    : Order * t * list effect :=
  let order := (OrderStateMachine.apply order Submit (clk 0%nat)).2 in
  let '(result, risk) := RiskManager.check_order (risk_manager_ g) order (clk 1%nat) in
  let g := { g with risk_manager_ := risk } in
  if negb (bool_decide (result = Passed))
  then ({ order with o_state := Rejected }, count_rejected g, [])
  else
    let g := { g with exec_handler_ ::= fun h => ExecutionHandler.track_order h order } in
    let '(decision, engine, risk, _) :=
      RoutingEngine.route_order (routing_engine_ g) (risk_manager_ g) (md_aggregator_ g) order
        (clk 2%nat) (fun i => clk (4 + i)%nat) in
    let g := { g with routing_engine_ := engine; risk_manager_ := risk } in
    if negb (decision_valid decision)
    then ({ order with o_state := Rejected }, count_rejected g, [])
    else
      let '(g, evs) := fold_left (dispatch_slice order (clk 3%nat)) decision (count_routed g, []) in
      (order, g, evs).

(** ** Cancels *)

Definition child_cancel (request : CancelRequest) (child : OrderId) : CancelRequest :=
  mkCancel child (c_client_order_id request) (c_symbol request) (c_side request)
           (c_timestamp request).

Definition process_cancel (g : t) (request : CancelRequest) : list effect :=
  match ExecutionHandler.get_order (exec_handler_ g) (c_order_id request) with
  | None => []
  | Some _ =>
      child_id ← ExecutionHandler.get_children (exec_handler_ g) (c_order_id request);
      match ExecutionHandler.get_order (exec_handler_ g) child_id with
      | Some child =>
          if is_active child && bool_decide (o_target_venue child ∈ venues_ g)
          then [SendCancel (o_target_venue child) (child_cancel request child_id)] else []
      | None => []
      end
  end.

(** ** Execution reports *)

Definition fill_record (order : Order) (report : ExecutionReport) : FillRecord :=
  { default_FillRecord with
      f_order_id := r_order_id report; f_exec_id := r_exec_id report;
      f_symbol := o_symbol order; f_side := o_side order;
      f_price := r_last_price report; f_quantity := r_last_quantity report;
      f_venue_id := r_venue_id report; f_timestamp := r_timestamp report }.

(** The order re-submitted for the remaining quantity of a parent. *)
Definition reroute_order (parent : Order) : Order :=
  { parent with o_quantity := o_remaining_quantity parent; o_filled_quantity := 0;
                o_remaining_quantity := o_remaining_quantity parent; o_state := New }.

(** The callbacks installed by [initialize]. *)
Definition on_effect (clk : nat -> Timestamp) (st : t * list effect) (e : ExecutionHandler.Effect)
    : t * list effect :=
  let '(g, evs) := st in
  match e with
  | ExecutionHandler.FillCb order report =>
      let g := { g with
        fill_manager_ ::= fun f => FillManager.record_fill f (fill_record order report);
        risk_manager_ ::= fun m => RiskManager.on_fill m (o_symbol order) (o_side order)
                                     (r_last_quantity report) (r_last_price report) } in
      (g, evs ++ (if fill_observer_ g then [FillObserved order report] else []))
  | ExecutionHandler.CompletionCb order =>
      let g := { g with stats_ ::= fun st => { st with orders_completed ::= fun n => u64 (n + 1) } } in
      (g, evs ++ (if completion_observer_ g then [CompletionObserved order] else []))
  | ExecutionHandler.RerouteCb parent_id =>
      let parent := ExecutionHandler.order_at (ExecutionHandler.orders_ (exec_handler_ g)) parent_id in
      let '(_, g, evs') := process_single_order g (reroute_order parent) clk in
      (g, evs ++ evs')
  end.

(** A report taken from the queue; the pipeline's clock readings come after
    the handler's own. *)
Definition process_report (g : t) (report : ExecutionReport) (clk : nat -> Timestamp)
    : t * list effect :=
  let '(handler, effects) :=
    ExecutionHandler.on_execution_report (exec_handler_ g) report clk in
  fold_left (on_effect (fun i => clk (4 + i)%nat)) effects ({ g with exec_handler_ := handler }, []).

(** ** Lifecycle *)

(** Whether all the adapters connect, in the order of the map, and the calls
    made up to the first that does not. *)
Fixpoint connect_all (connects : VenueId -> bool) (vs : list VenueId) : bool * list effect :=
  match vs with
  | [] => (true, [])
  | v :: vs =>
      if connects v then let '(ok, evs) := connect_all connects vs in (ok, Connect v :: evs)
      else (false, [Connect v])
  end.

Definition venue_list (g : t) : list VenueId :=
  (map_entries (gset_to_gmap tt (venues_ g))).*1.

Definition initialize (g : t) (connects : VenueId -> bool) : bool * t * list effect :=
  let g := { g with exec_handler_ ::= fun h =>
    ExecutionHandler.set_reroute_callback
      (ExecutionHandler.set_completion_callback (ExecutionHandler.set_fill_callback h)) } in
  let '(ok, evs) := connect_all connects (venue_list g) in
  (ok, g, evs).

Definition start (g : t) : t := { g with running_ := true }.

Definition stop (g : t) : t * list effect :=
  if negb (running_ g) then (g, [])
  else ({ g with running_ := false }, Disconnect <$> venue_list g).

(** ** Operations

    The three [Pump] operations are one iteration of the inner loops of the
    processing threads; the loops run while [running_] is set. *)

Inductive op :=
| Submit_ (order : Order) (now : Timestamp)
| Cancel_ (request : CancelRequest) (now : Timestamp)
| ReportIn (report : ExecutionReport)
| PumpOrder (clk : nat -> Timestamp)
| PumpCancel
| PumpReport (clk : nat -> Timestamp)
| Initialize (connects : VenueId -> bool)
| Start | Stop
| AddVenue (venue : VenueId)
| SetFillObserver | SetCompletionObserver
| OnMarketData (f : MarketDataAggregator.t -> MarketDataAggregator.t)
| OnRouting (f : RoutingEngine.t -> RoutingEngine.t)
| SetGlobalLimits (limits : RiskLimits) (now : Timestamp)
| SetSymbolLimits (symbol : FixedString.t) (limits : RiskLimits)
| KillSwitchOn | KillSwitchOff
| AllocateId.

Definition do_op (g : t) (o : op) : t * list effect :=
  match o with
  | Submit_ order now => ((submit_order g order now).2, [])
  | Cancel_ request now => ((cancel_order g request now).2, [])
  | ReportIn report => (report_in g report, [])
  | PumpOrder clk =>
      match order_queue_ g with
      | order :: q =>
          let '(_, g, evs) := process_single_order { g with order_queue_ := q } order clk in (g, evs)
      | [] => (g, [])
      end
  | PumpCancel =>
      match cancel_queue_ g with
      | request :: q => let g := { g with cancel_queue_ := q } in (g, process_cancel g request)
      | [] => (g, [])
      end
  | PumpReport clk =>
      match report_queue_ g with
      | report :: q => process_report { g with report_queue_ := q } report clk
      | [] => (g, [])
      end
  | Initialize connects => let '(_, g, evs) := initialize g connects in (g, evs)
  | Start => (start g, [])
  | Stop => stop g
  | AddVenue venue => (add_venue g venue, [])
  | SetFillObserver => ({ g with fill_observer_ := true }, [])
  | SetCompletionObserver => ({ g with completion_observer_ := true }, [])
  | OnMarketData f => ({ g with md_aggregator_ ::= f }, [])
  | OnRouting f => ({ g with routing_engine_ ::= f }, [])
  | SetGlobalLimits limits now =>
      ({ g with risk_manager_ ::= fun m => RiskManager.set_global_limits m limits now }, [])
  | SetSymbolLimits symbol limits =>
      ({ g with risk_manager_ ::= fun m => RiskManager.set_symbol_limits m symbol limits }, [])
  | KillSwitchOn =>
      ({ g with risk_manager_ ::= fun m => (RiskManager.activate_kill_switch m).1 }, [])
  | KillSwitchOff => ({ g with risk_manager_ ::= RiskManager.deactivate_kill_switch }, [])
  | AllocateId => ((generate_order_id g).2, [])
  end.

Definition run_from (g : t) (ops : list op) : t * list effect :=
  fold_left (fun '(g, evs) o => let '(g, new) := do_op g o in (g, evs ++ new)) ops (g, []).

Definition history (now : Timestamp) (ops : list op) : t * list effect :=
  run_from (create now) ops.

(** ** What the pipeline leaves alone *)

(** The risk state the engine returns is the one it was given or the one its
    own check leaves. *)
Lemma route_order_risk e risk md o now clk :
  let '(_, _, risk', _) := RoutingEngine.route_order e risk md o now clk in
  risk' = risk \/ risk' = (RiskManager.check_order risk o now).2.
Proof.
  unfold RoutingEngine.route_order, RoutingEngine.reject, RoutingEngine.accept.
  destruct (FixedString.empty _); [by left|]. destruct (_ <=? 0); [by left|].
  destruct (_ && _); [by left|]. destruct (RiskManager.check_order risk o now) as [res m] eqn:E.
  destruct (negb (bool_decide (res = Passed))); [by right|].
  destruct (negb (NBBO.valid _)); [by right|].
  destruct (RoutingEngine.get_strategy _ _); [|by right].
  destruct (bool_decide (RoutingEngine.get_available_venues e = [])); [by right|].
  destruct (RoutingEngine.ss_route _ _ _ _ _ _) as [d st].
  by destruct (decision_valid d); right.
Qed.

(** A predicate of the risk state that checks and acceptances preserve holds
    after the pipeline. *)
Lemma process_risk (P : RiskManager.t -> Prop) g o clk :
  (forall m o now, P m -> P (RiskManager.check_order m o now).2) ->
  (forall m o, P m -> P (RiskManager.on_order_accepted m o)) ->
  P (risk_manager_ g) -> P (risk_manager_ (process_single_order g o clk).1.2).
Proof.
  intros Hc Ha Hg. unfold process_single_order.
  set (o' := (OrderStateMachine.apply o Submit (clk 0%nat)).2).
  pose proof (Hc _ o' (clk 1%nat) Hg) as H1.
  destruct (RiskManager.check_order (risk_manager_ g) o' (clk 1%nat)) as [res m]. cbn in H1.
  destruct (negb (bool_decide (res = Passed))); [by destruct g|].
  set (g1 := { _ with exec_handler_ ::= _ }).
  assert (risk_manager_ g1 = m) as Eg1 by (by destruct g).
  pose proof (route_order_risk (routing_engine_ g1) (risk_manager_ g1) (md_aggregator_ g1) o'
    (clk 2%nat) (fun i => clk (4 + i)%nat)) as Hr.
  destruct (RoutingEngine.route_order _ _ _ _ _ _) as [[[d e] m'] revs]. rewrite Eg1 in Hr.
  assert (P m') as Hm' by (destruct Hr as [->| ->]; auto).
  clearbody g1. destruct (negb (decision_valid d)); [by destruct g1|].
  assert (forall l st, P (risk_manager_ st.1) ->
    P (risk_manager_ (fold_left (dispatch_slice o' (clk 3%nat)) l st).1)) as Hfold.
  { induction l as [|sl l IH]; intros [g2 evs] H2; cbn [fold_left]; [done|].
    apply IH. destruct g2. by apply Ha. }
  destruct (fold_left _ _ _) as [g' evs] eqn:Ef. cbn.
  change g' with (g', evs).1. rewrite <- Ef. apply Hfold. by destruct g1.
Qed.

(** What only the callbacks of [process_report] change. *)
Lemma process_fills g o clk :
  fill_manager_ (process_single_order g o clk).1.2 = fill_manager_ g.
Proof.
  unfold process_single_order.
  set (o' := (OrderStateMachine.apply o Submit (clk 0%nat)).2).
  destruct (RiskManager.check_order (risk_manager_ g) o' (clk 1%nat)) as [res m].
  destruct (negb (bool_decide (res = Passed))); [by destruct g|].
  destruct (RoutingEngine.route_order _ _ _ _ _ _) as [[[d e] m'] revs].
  destruct (negb (decision_valid d)); [by destruct g|].
  assert (forall l st, fill_manager_ (fold_left (dispatch_slice o' (clk 3%nat)) l st).1 =
    fill_manager_ st.1) as Hfold.
  { induction l as [|sl l IH]; intros [g2 evs]; cbn [fold_left]; [done|].
    rewrite IH. by destruct g2. }
  pose proof (Hfold d (count_routed { { { g with risk_manager_ := m } with
    exec_handler_ ::= (fun h => ExecutionHandler.track_order h o') } with
    routing_engine_ := e; risk_manager_ := m' }, [])) as Hd.
  destruct (fold_left _ _ _) as [g' evs]. cbn in *. rewrite Hd. by destruct g.
Qed.

(** ** Positions and fills *)

(** The net quantity of the recorded fills of a symbol. *)
Definition net_of_fills (f : FillManager.t) (sym : FixedString.t) : Z :=
  sum_by (fun r => if decide (skey (f_symbol r) = skey sym)
                   then side_sign (f_side r) * f_quantity r else 0) (FillManager.all_fills_ f).

Definition positions_match (g : t) : Prop :=
  forall sym, net_quantity (RiskManager.position (risk_manager_ g) sym) =
              i64 (net_of_fills (fill_manager_ g) sym).

Definition same_net (m m' : RiskManager.t) : Prop :=
  forall sym, net_quantity (RiskManager.position m' sym) = net_quantity (RiskManager.position m sym).

Lemma check_same_net m o now : same_net m (RiskManager.check_order m o now).2.
Proof.
  intros sym. destruct (RiskManager.check_order m o now) as [r m'] eqn:E. cbn.
  by rewrite (proj1 (check_order_frame _ _ _ _ _ E)).
Qed.

Lemma accepted_same_net m o : same_net m (RiskManager.on_order_accepted m o).
Proof.
  intros sym. unfold RiskManager.on_order_accepted. rewrite position_update. case_decide as E; [|done].
  assert (RiskManager.position m (o_symbol o) = RiskManager.position m sym) as <-
    by (unfold RiskManager.position; by rewrite E).
  destruct (RiskManager.position m (o_symbol o)). unfold RiskManager.accept_position.
  by destruct (o_side o).
Qed.

Lemma process_positions g o clk :
  positions_match g -> positions_match (process_single_order g o clk).1.2.
Proof.
  intros H sym. rewrite process_fills, <- (H sym).
  apply (process_risk (fun m => net_quantity (RiskManager.position m sym) =
    net_quantity (RiskManager.position (risk_manager_ g) sym))).
  - intros m o' now <-. apply check_same_net.
  - intros m o' <-. apply accepted_same_net.
  - done.
Qed.

Lemma on_effect_positions clk st e :
  positions_match st.1 -> positions_match (on_effect clk st e).1.
Proof.
  destruct st as [g evs], e as [o r|pid|o]; cbn [on_effect fst]; intros H; [| |by destruct g].
  2: { set (o := reroute_order _). pose proof (process_positions g o clk H) as Hp.
       by destruct (process_single_order g o clk) as [[o' g'] evs']. }
  intros sym. specialize (H sym).
  set (g' := { g with fill_manager_ ::= _; risk_manager_ ::= _ }).
  assert (risk_manager_ g' = RiskManager.on_fill (risk_manager_ g) (o_symbol o) (o_side o)
            (r_last_quantity r) (r_last_price r) /\
          fill_manager_ g' = FillManager.record_fill (fill_manager_ g) (fill_record o r))
    as [-> ->] by (by destruct g).
  unfold RiskManager.on_fill. rewrite position_update.
  assert (net_of_fills (FillManager.record_fill (fill_manager_ g) (fill_record o r)) sym =
    net_of_fills (fill_manager_ g) sym +
    (if decide (skey (o_symbol o) = skey sym) then side_sign (o_side o) * r_last_quantity r else 0))
    as ->.
  { unfold net_of_fills. destruct (fill_manager_ g). cbn [FillManager.record_fill]. fields.
    by rewrite sum_by_app, sum_by_cons, sum_by_nil, Z.add_0_r. }
  case_decide as E.
  - rewrite (proj1 (fill_position_quantities _ _ _ _)).
    assert (RiskManager.position (risk_manager_ g) (o_symbol o) =
            RiskManager.position (risk_manager_ g) sym) as ->
      by (unfold RiskManager.position; by rewrite E).
    rewrite H, i64_signed, i64_add_l. done.
  - by rewrite H, Z.add_0_r.
Qed.

Lemma process_report_positions g r clk :
  positions_match g -> positions_match (process_report g r clk).1.
Proof.
  intros H. unfold process_report. destruct (ExecutionHandler.on_execution_report _ _ _) as [h effs].
  assert (forall l st, positions_match st.1 ->
    positions_match (fold_left (on_effect (fun i => clk (4 + i)%nat)) l st).1) as Hf.
  { induction l as [|e l IH]; intros st Hst; cbn; [done|]. by apply IH, on_effect_positions. }
  apply Hf. by destruct g.
Qed.

Lemma do_op_positions g o : positions_match g -> positions_match (do_op g o).1.
Proof.
  intros H. destruct o as [o now|r now|r|clk| |clk|cn| | |v| | |f|f|l now|sym l| | |]; cbn [do_op fst].
  - unfold submit_order, generate_order_id. destruct g as [[] ?]; [|done]. cbn [running_ negb].
    destruct (o_id o =? INVALID_ORDER_ID); cbn; destruct (_ <=? _)%nat; done.
  - unfold cancel_order. destruct g as [[] ?]; [|done]. cbn. by destruct (_ <=? _)%nat.
  - unfold report_in. destruct (_ <=? _)%nat; [done|by destruct g].
  - destruct (order_queue_ g) as [|o q]; [done|].
    pose proof (process_positions { g with order_queue_ := q } o clk) as Hp.
    destruct (process_single_order _ _ _) as [[? g'] evs]. apply Hp. by destruct g.
  - destruct (cancel_queue_ g); [done|by destruct g].
  - destruct (report_queue_ g) as [|r q]; [done|]. apply process_report_positions. by destruct g.
  - unfold initialize. destruct (connect_all _ _). by destruct g.
  - by destruct g.
  - unfold stop. destruct (negb _); [done|by destruct g].
  - by destruct g.
  - by destruct g.
  - by destruct g.
  - by destruct g.
  - by destruct g.
  - intros s. specialize (H s). destruct g, risk_manager_0. cbn. unfold RiskManager.set_global_limits.
    destruct (_ >? 0); exact H.
  - intros s. specialize (H s). by destruct g, risk_manager_0.
  - intros s. specialize (H s). by destruct g, risk_manager_0.
  - intros s. specialize (H s). by destruct g, risk_manager_0.
  - by destruct g.
Qed.

Lemma history_positions now ops : positions_match (history now ops).1.
Proof.
  unfold history, run_from. apply (fold_left_inv _ (fun st _ => positions_match st.1)).
  - intros sym. cbn. done.
  - intros [g evs] _ o _ H. pose proof (do_op_positions g o H). by destruct (do_op g o).
Qed.

(** ** The kill switch *)

Definition killed (g : t) : Prop := RiskManager.is_kill_switch_active (risk_manager_ g) = true.

(** An order leaves for a venue. *)
Definition is_dispatch (e : effect) : bool :=
  match e with ChildTracked _ _ | SendOrder _ _ => true | _ => false end.

Lemma killed_process g o clk :
  killed g -> killed (process_single_order g o clk).1.2 /\ (process_single_order g o clk).2 = [].
Proof.
  unfold killed, RiskManager.is_kill_switch_active. intros H. unfold process_single_order.
  set (o' := (OrderStateMachine.apply o Submit (clk 0%nat)).2).
  unfold RiskManager.check_order. rewrite H. cbn. by destruct g.
Qed.

Lemma killed_report g r clk :
  killed g -> killed (process_report g r clk).1 /\
  Forall (fun e => is_dispatch e = false) (process_report g r clk).2.
Proof.
  intros H. unfold process_report. destruct (ExecutionHandler.on_execution_report _ _ _) as [h effs].
  assert (forall l st, killed st.1 -> Forall (fun e => is_dispatch e = false) st.2 ->
    killed (fold_left (on_effect (fun i => clk (4 + i)%nat)) l st).1 /\
    Forall (fun e => is_dispatch e = false)
      (fold_left (on_effect (fun i => clk (4 + i)%nat)) l st).2) as Hf.
  { induction l as [|e l IH]; intros [g' evs] Hk He; cbn [fold_left]; [done|].
    destruct e as [o x|pid|o]; cbn [on_effect].
    - apply IH; [by destruct g', risk_manager_0|]. apply Forall_app. split; [done|].
      destruct (fill_observer_ _); by repeat constructor.
    - set (o := reroute_order _). clearbody o.
      destruct (killed_process g' o (fun i => clk (4 + i)%nat) Hk) as [Hk' Hev].
      destruct (process_single_order _ _ _) as [[o' g''] evs']. cbn in Hk', Hev. subst evs'.
      rewrite app_nil_r. by apply IH.
    - apply IH; [by destruct g'|]. apply Forall_app. split; [done|].
      destruct (completion_observer_ _); by repeat constructor. }
  apply Hf; [by destruct g|constructor].
Qed.

(** ** The children of an order *)

Definition child_at (order : Order) (now : Timestamp) (sl : Slice) (id : OrderId) : Order :=
  (OrderStateMachine.apply (make_child order sl id now) Submit now).2.

(** What is emitted for a child. *)
Definition child_effects (venues : gset VenueId) (parent : OrderId) (child : Order) : list effect :=
  [ChildTracked parent child] ++
  (if decide (o_target_venue child ∈ venues) then [SendOrder (o_target_venue child) child] else []).

(** The children of a decision, numbered from [n]. *)
Definition children_from (order : Order) (now : Timestamp) (n : Z) (d : RoutingDecision) : list Order :=
  imap (fun i sl => child_at order now sl (u64 (n + Z.of_nat i))) d.

Lemma child_at_fields order now sl id :
  let c := child_at order now sl id in
  o_id c = id /\ o_symbol c = o_symbol order /\ o_side c = o_side order /\
  o_quantity c = sl_quantity sl /\ o_target_venue c = sl_venue_id sl /\
  o_parent_order_id c = o_id order /\ o_price c = sl_price sl /\ o_state c = PendingNew.
Proof. done. Qed.

(** The effect of the dispatch loop. *)
Lemma dispatch_fold order now d g evs :
  in_u64 (next_order_id_ g) ->
  let children := children_from order now (next_order_id_ g) d in
  let '(g', evs') := fold_left (dispatch_slice order now) d (g, evs) in
  evs' = evs ++ (children ≫= child_effects (venues_ g) (o_id order)) /\
  next_order_id_ g' = u64 (next_order_id_ g + Z.of_nat (length d)) /\
  risk_manager_ g' = fold_left RiskManager.on_order_accepted children (risk_manager_ g) /\
  exec_handler_ g' = fold_left (fun h c => ExecutionHandler.track_child_order h (o_id order) c)
                       children (exec_handler_ g) /\
  stats_ g' = stats_ g /\ venues_ g' = venues_ g.
Proof.
  unfold children_from. revert g evs; induction d as [|sl d IH]; intros g evs Hn; cbn [fold_left].
  { cbn. rewrite app_nil_r, Z.add_0_r, u64_id by done. done. }
  cbn [dispatch_slice generate_order_id imap].
  set (g1 := { _ with exec_handler_ ::= _; risk_manager_ ::= _ }).
  assert (next_order_id_ g1 = u64 (next_order_id_ g + 1) /\ venues_ g1 = venues_ g /\
    stats_ g1 = stats_ g /\
    risk_manager_ g1 = RiskManager.on_order_accepted (risk_manager_ g)
      (child_at order now sl (next_order_id_ g)) /\
    exec_handler_ g1 = ExecutionHandler.track_child_order (exec_handler_ g) (o_id order)
      (child_at order now sl (next_order_id_ g))) as (E1 & E2 & E3 & E4 & E5) by (by destruct g).
  clearbody g1. specialize (IH g1). rewrite E1, E2, E3, E4, E5 in IH.
  set (evs1 := evs ++ _). specialize (IH evs1 (u64_range _)). subst evs1.
  destruct (fold_left _ _ _) as [g' evs'].
  replace (next_order_id_ g + Z.of_nat 0) with (next_order_id_ g) by lia. rewrite (u64_id _ Hn).
  assert (imap (fun i sl => child_at order now sl (u64 (u64 (next_order_id_ g + 1) + Z.of_nat i))) d =
    imap ((fun i sl => child_at order now sl (u64 (next_order_id_ g + Z.of_nat i))) ∘ S) d) as Echildren.
  { apply imap_ext. intros i sl' _. cbn. f_equal. unfold u64, wrapu.
    rewrite Z.add_mod_idemp_l by lia. f_equal. lia. }
  rewrite Echildren in IH. destruct IH as (-> & -> & -> & -> & -> & ->).
  cbn [fold_left]. split_and!; try done.
  - rewrite E2, <- !app_assoc. cbn [mbind list_bind]. unfold child_effects at 2.
    by rewrite <- app_assoc.
  - unfold u64, wrapu. rewrite Z.add_mod_idemp_l by lia. f_equal. cbn [length]. lia.
Qed.

(** Acceptances of orders of one symbol and side, on its position. *)
Lemma accepted_fold (cs : list Order) m sym side :
  Forall (fun c => o_symbol c = sym /\ o_side c = side) cs -> cs <> [] ->
  let pos := RiskManager.position m sym in
  let pos' := RiskManager.position (fold_left RiskManager.on_order_accepted cs m) sym in
  pending_quantity side pos' = i64 (pending_quantity side pos + sum_by o_quantity cs) /\
  open_order_count pos' = i32 (open_order_count pos + Z.of_nat (length cs)).
Proof.
  assert (forall m c, o_symbol c = sym -> o_side c = side ->
    let pos := RiskManager.position m sym in
    let pos' := RiskManager.position (RiskManager.on_order_accepted m c) sym in
    pending_quantity side pos' = i64 (pending_quantity side pos + o_quantity c) /\
    open_order_count pos' = i32 (open_order_count pos + 1)) as Hone.
  { intros m' c <- <-. unfold RiskManager.on_order_accepted. rewrite position_update, decide_True by done.
    destruct (RiskManager.position m' (o_symbol c)). unfold RiskManager.accept_position.
    by destruct (o_side c). }
  intros H Hne. destruct cs as [|c cs]; [done|]. clear Hne. revert m.
  apply Forall_cons in H as [[Hs1 Hs2] H]. cbn [fold_left]. revert c Hs1 Hs2.
  induction cs as [|c' cs IH]; intros c Hs1 Hs2 m; cbn [fold_left].
  - destruct (Hone m c Hs1 Hs2) as [-> ->]. rewrite sum_by_cons, sum_by_nil, Z.add_0_r. done.
  - apply Forall_cons in H as [[? ?] Hcs]. destruct (Hone m c Hs1 Hs2) as [E1 E2].
    destruct (IH Hcs c' ltac:(done) ltac:(done) (RiskManager.on_order_accepted m c)) as [-> ->].
    rewrite E1, E2, (sum_by_cons _ c). split.
    + rewrite i64_add_l. f_equal. lia.
    + unfold i32. apply wraps_eq_mod; [lia|].
      rewrite Z.add_mod, wraps_mod, <- Z.add_mod by lia. f_equal. cbn [length]. lia.
Qed.

Lemma tracked_children (cs : list Order) h pid :
  ExecutionHandler.get_children
    (fold_left (fun h c => ExecutionHandler.track_child_order h pid c) cs h) pid =
  ExecutionHandler.get_children h pid ++ (o_id <$> cs).
Proof.
  revert h; induction cs as [|c cs IH]; intros h; cbn [fold_left]; [by rewrite app_nil_r|].
  rewrite IH. unfold ExecutionHandler.get_children, ExecutionHandler.track_child_order.
  destruct h. fields. rewrite lookup_insert_eq.
  destruct (_ !! pid); cbn; by rewrite <- ?app_assoc.
Qed.

Lemma track_order_children h o pid :
  ExecutionHandler.get_children (ExecutionHandler.track_order h o) pid =
  ExecutionHandler.get_children h pid.
Proof.
  unfold ExecutionHandler.get_children, ExecutionHandler.track_order. destruct h. fields.
  destruct (_ !! o_id o) eqn:E; [done|].
  destruct (decide (o_id o = pid)) as [<-|];
    [by rewrite lookup_insert_eq, E|by rewrite lookup_insert_ne].
Qed.

(** ** The outcome of the pipeline *)

(** The order as the pipeline goes on with it. *)
Definition submitted (o : Order) (now : Timestamp) : Order := (OrderStateMachine.apply o Submit now).2.

(** What the risk check and then the router decide about an order: nothing
    when the check does not pass or the router makes no decision. *)
Definition pipeline_decision (g : t) (o : Order) (clk : nat -> Timestamp) : option (list Slice) :=
  let o := submitted o (clk 0%nat) in
  let '(result, risk) := RiskManager.check_order (risk_manager_ g) o (clk 1%nat) in
  if decide (result = Passed) then
    let '(decision, _, _, _) :=
      RoutingEngine.route_order (routing_engine_ g) risk (md_aggregator_ g) o (clk 2%nat) (fun i => clk (4 + i)%nat) in
    if decision_valid decision then Some decision else None
  else None.

(** Refused: nothing dispatched, the rejection counted. *)
Definition refused (g : t) (o : Order) (r : Order * t * list effect) : Prop :=
  let '(o', g', evs) := r in
  o' = { o with o_state := Rejected } /\ evs = [] /\ next_order_id_ g' = next_order_id_ g /\
  orders_rejected (stats_ g') = u64 (orders_rejected (stats_ g) + 1) /\
  orders_routed (stats_ g') = orders_routed (stats_ g).

(** Dispatched: one child per slice of the decision [d], in order, with
    consecutive identifiers; each is tracked under the order, told to the risk
    manager and sent when its venue is connected. *)
Definition dispatched (g : t) (o : Order) (d : list Slice) (now : Timestamp) (r : Order * t * list effect) : Prop :=
  let '(o', g', evs) := r in
  o' = o /\ d <> [] /\
    let children := children_from o now (next_order_id_ g) d in
    evs = children ≫= child_effects (venues_ g) (o_id o) /\
    next_order_id_ g' = u64 (next_order_id_ g + Z.of_nat (length d)) /\
    ExecutionHandler.get_children (exec_handler_ g') (o_id o) =
      ExecutionHandler.get_children (exec_handler_ g) (o_id o) ++ (o_id <$> children) /\
    (let pos := RiskManager.position (risk_manager_ g) (o_symbol o) in
     let pos' := RiskManager.position (risk_manager_ g') (o_symbol o) in
     pending_quantity (o_side o) pos' =
       i64 (pending_quantity (o_side o) pos + sum_by sl_quantity d) /\
     open_order_count pos' = i32 (open_order_count pos + Z.of_nat (length d))) /\
    orders_rejected (stats_ g') = orders_rejected (stats_ g) /\
    orders_routed (stats_ g') = u64 (orders_routed (stats_ g) + 1).

Lemma children_from_facts o now n d :
  let cs := children_from o now n d in
  Forall (fun c => o_symbol c = o_symbol o /\ o_side c = o_side o) cs /\
  sum_by o_quantity cs = sum_by sl_quantity d /\ length cs = length d /\ (d <> [] -> cs <> []).
Proof.
  unfold children_from. split_and!.
  - apply Forall_forall. intros c Hc. apply elem_of_lookup_imap in Hc as (i & sl & -> & _). done.
  - unfold sum_by. rewrite fmap_imap. f_equal. transitivity (imap (const sl_quantity) d).
    + by apply imap_ext.
    + apply imap_const.
  - apply length_imap.
  - by destruct d.
Qed.

Lemma process_outcome g o clk :
  in_u64 (next_order_id_ g) ->
  match pipeline_decision g o clk with
  | None => refused g (submitted o (clk 0%nat)) (process_single_order g o clk)
  | Some d => dispatched g (submitted o (clk 0%nat)) d (clk 3%nat) (process_single_order g o clk)
  end.
Proof.
  intros Hn. unfold process_single_order, pipeline_decision.
  change (OrderStateMachine.apply o Submit (clk 0%nat)).2 with (submitted o (clk 0%nat)).
  generalize (submitted o (clk 0%nat)). clear o. intros o. cbv zeta.
  destruct (RiskManager.check_order (risk_manager_ g) o (clk 1%nat)) as [res m] eqn:Ec.
  destruct (decide (res = Passed)) as [Hr|Hr];
    [rewrite bool_decide_eq_true_2 by done|rewrite bool_decide_eq_false_2 by done]; cbn [negb];
    [|by destruct g as [? ? ? ? ? ? ? ? ? ? ? []]].
  apply check_order_frame in Ec as (Hpos & _).
  set (g1 := { _ with exec_handler_ ::= _ }).
  assert (routing_engine_ g1 = routing_engine_ g /\ risk_manager_ g1 = m /\ md_aggregator_ g1 = md_aggregator_ g)
    as (-> & -> & ->) by (by destruct g).
  pose proof (route_order_risk (routing_engine_ g) m (md_aggregator_ g) o
    (clk 2%nat) (fun i => clk (4 + i)%nat)) as Hrisk0.
  destruct (RoutingEngine.route_order _ _ _ _ _ _) as [[[d e] m'] revs].
  assert (forall sym, RiskManager.position m' sym = RiskManager.position (risk_manager_ g) sym) as Hpos'.
  { intros sym. rewrite <- Hpos. destruct Hrisk0 as [->| ->]; [done|].
    destruct (RiskManager.check_order m o (clk 2%nat)) as [r m2] eqn:E2. cbn.
    by rewrite (proj1 (check_order_frame _ _ _ _ _ E2)). }
  destruct (decision_valid d) eqn:Ed; cbn [negb]; [|by destruct g as [? ? ? ? ? ? ? ? ? ? ? []]].
  set (g2 := count_routed _).
  assert (next_order_id_ g2 = next_order_id_ g /\ venues_ g2 = venues_ g /\
    risk_manager_ g2 = m' /\
    exec_handler_ g2 = ExecutionHandler.track_order (exec_handler_ g) o /\
    orders_rejected (stats_ g2) = orders_rejected (stats_ g) /\
    orders_routed (stats_ g2) = u64 (orders_routed (stats_ g) + 1)) as (E1 & E2 & E3 & E4 & E5 & E6)
    by (by destruct g as [? ? ? ? ? ? ? ? ? ? ? []]).
  clearbody g2. pose proof (dispatch_fold o (clk 3%nat) d g2 []) as Hd.
  rewrite E1, E2, E3, E4 in Hd. specialize (Hd Hn). cbv zeta in Hd.
  destruct (fold_left _ _ _) as [g' evs]. destruct Hd as (-> & Hnext & Hrisk & Hexec & Hst & _).
  destruct (children_from_facts o (clk 3%nat) (next_order_id_ g) d) as (Hf & Hsum & Hlen & Hne).
  assert (d <> []) as Hd by (intros ->; done).
  unfold dispatched. cbv zeta. split_and!; [done|done|done|done|..].
  - rewrite Hexec, tracked_children, track_order_children. done.
  - destruct (accepted_fold _ m' _ _ Hf (Hne Hd)) as [Hp _]. rewrite Hrisk, Hp, Hsum, Hpos'. done.
  - destruct (accepted_fold _ m' _ _ Hf (Hne Hd)) as [_ Ho]. rewrite Hrisk, Ho, Hlen, Hpos'. done.
  - by rewrite Hst.
  - by rewrite Hst.
Qed.

(** ** Identifiers *)

Definition child_ids (evs : list effect) : list OrderId :=
  omap (fun e => match e with ChildTracked _ c => Some (o_id c) | _ => None end) evs.

(** The children numbered while the counter went from [a] to [b]; [k] numbers
    at most were given to orders submitted. *)
Definition numbered (k a b : Z) (evs : list effect) : Prop :=
  StronglySorted Z.lt (child_ids evs) /\ Forall (fun i => a <= i < b) (child_ids evs) /\
  a <= b <= a + k + Z.of_nat (length evs).

Lemma StronglySorted_app_lt l k :
  StronglySorted Z.lt l -> StronglySorted Z.lt k -> Forall (fun x => Forall (Z.lt x) k) l ->
  StronglySorted Z.lt (l ++ k).
Proof.
  induction 1 as [|x l Hs IH Hx]; intros Hk Hlk; cbn; [done|].
  apply Forall_cons in Hlk as [Hxk Hlk]. constructor; [by apply IH|]. by apply Forall_app.
Qed.

Lemma child_ids_between a b c e1 e2 :
  StronglySorted Z.lt (child_ids e1) -> Forall (fun i => a <= i < b) (child_ids e1) ->
  StronglySorted Z.lt (child_ids e2) -> Forall (fun i => b <= i < c) (child_ids e2) ->
  a <= b <= c ->
  StronglySorted Z.lt (child_ids (e1 ++ e2)) /\ Forall (fun i => a <= i < c) (child_ids (e1 ++ e2)).
Proof.
  intros S1 F1 S2 F2 Habc. unfold child_ids in *. rewrite omap_app. split.
  - apply StronglySorted_app_lt; [done..|]. eapply Forall_impl; [exact F1|]. intros x Hx.
    eapply Forall_impl; [exact F2|]. intros y Hy. cbn in *. lia.
  - apply Forall_app. split; (eapply Forall_impl; [eassumption|]); cbn; lia.
Qed.

Lemma child_ids_children venues pid (cs : list Order) :
  child_ids (cs ≫= child_effects venues pid) = o_id <$> cs /\
  (length cs <= length (cs ≫= child_effects venues pid))%nat.
Proof.
  induction cs as [|c cs [IH1 IH2]]; cbn [mbind list_bind]; [done|].
  unfold child_ids in *. rewrite omap_app, IH1, length_app. split.
  - unfold child_effects. by destruct (decide _).
  - assert (1 <= length (child_effects venues pid c))%nat
      by (unfold child_effects; rewrite length_app; cbn [length]; lia).
    cbn [length]. lia.
Qed.

Lemma children_from_sorted o now n d :
  0 <= n -> n + Z.of_nat (length d) <= 18446744073709551615 ->
  StronglySorted Z.lt (o_id <$> children_from o now n d) /\
  Forall (fun i => n <= i < n + Z.of_nat (length d)) (o_id <$> children_from o now n d).
Proof.
  intros Hn Hmax. unfold children_from. rewrite fmap_imap.
  assert (imap (fun i => o_id ∘ (fun sl => child_at o now sl (u64 (n + Z.of_nat i)))) d =
          (fun i => n + i) <$> seqZ 0 (Z.of_nat (length d))) as ->.
  { apply list_eq. intros i. rewrite list_lookup_imap, list_lookup_fmap.
    destruct (d !! i) as [sl|] eqn:E; cbn.
    - apply lookup_lt_Some in E. rewrite lookup_seqZ_lt by lia. cbn. f_equal.
      change (u64 (n + Z.of_nat i) = n + Z.of_nat i). apply u64_id. unfold in_u64. lia.
    - apply lookup_ge_None in E. by rewrite lookup_seqZ_ge by lia. }
  split.
  - generalize 0 as a. induction (length d) as [|m IH]; intros a; [constructor|].
    rewrite seqZ_cons by lia. replace (Z.pred (Z.of_nat (S m))) with (Z.of_nat m) by lia. cbn.
    constructor; [apply IH; lia|]. apply Forall_fmap, Forall_seqZ. cbn. lia.
  - apply Forall_fmap, Forall_seqZ. cbn. lia.
Qed.

Lemma process_numbered g o clk :
  let r := process_single_order g o clk in
  0 <= next_order_id_ g -> next_order_id_ g + Z.of_nat (length r.2) <= 18446744073709551615 ->
  numbered 0 (next_order_id_ g) (next_order_id_ r.1.2) r.2.
Proof.
  intros r Hn Hmax. subst r. pose proof (process_outcome g o clk ltac:(unfold in_u64; lia)) as H.
  destruct (process_single_order g o clk) as [[o' g'] evs]; cbn [fst snd] in Hmax |- *.
  generalize dependent (submitted o (clk 0%nat)). intros os H.
  destruct (pipeline_decision g o clk) as [d|].
  - destruct H as (_ & _ & -> & -> & _).
    destruct (child_ids_children (venues_ g) (o_id os)
      (children_from os (clk 3%nat) (next_order_id_ g) d)) as [Eids Hlen].
    destruct (children_from_facts os (clk 3%nat) (next_order_id_ g) d) as (_ & _ & El & _).
    rewrite El in Hlen. rewrite u64_id by (unfold in_u64; lia).
    destruct (children_from_sorted os (clk 3%nat) (next_order_id_ g) d) as [Hs Hf]; [lia..|].
    unfold numbered. rewrite Eids. split_and!; [done|done|lia..].
  - destruct H as (_ & -> & -> & _). split_and!; [constructor|constructor|cbn; lia..].
Qed.

Lemma numbered_none k a evs : child_ids evs = [] -> 0 <= k -> numbered k a a evs.
Proof. intros E Hk. unfold numbered. rewrite E. split_and!; [constructor|constructor|lia..]. Qed.

Lemma numbered_app k k' a b c e1 e2 :
  numbered k a b e1 -> numbered k' b c e2 -> numbered (k + k') a c (e1 ++ e2).
Proof.
  intros (S1 & F1 & ?) (S2 & F2 & ?). unfold numbered. rewrite length_app.
  destruct (child_ids_between a b c e1 e2) as [? ?]; try done; [lia|].
  split_and!; [done|done|lia..].
Qed.

(** The callbacks of a report, and the report as a whole. *)
Lemma effects_numbered clk l g evs a :
  let r := fold_left (on_effect clk) l (g, evs) in
  0 <= a -> a + Z.of_nat (length r.2) <= 18446744073709551615 ->
  numbered 0 a (next_order_id_ g) evs -> numbered 0 a (next_order_id_ r.1) r.2.
Proof.
  cbv zeta. revert g evs; induction l as [|e l IH]; intros g evs Ha Hmax Hn; cbn [fold_left]; [done|].
  assert (forall st, (length st.2 <= length (fold_left (on_effect clk) l st).2)%nat) as Hmono.
  { clear. induction l as [|e l IH]; intros [g evs]; cbn [fold_left]; [done|].
    etransitivity; [|apply IH]. destruct e; cbn [on_effect snd];
      [| |]; try (rewrite length_app; lia).
    destruct (process_single_order _ _ _) as [[? ?] ?]. cbn. rewrite length_app. lia. }
  specialize (Hmono (on_effect clk (g, evs) e)). cbn [fold_left] in Hmax.
  destruct (on_effect clk (g, evs) e) as [g1 evs1] eqn:E1.
  apply IH; [done|done|]. cbn [snd] in Hmono.
  destruct e as [o x|pid|o]; cbn [on_effect] in E1.
  - injection E1 as <- <-. replace 0 with (0 + 0) by done. eapply numbered_app; [exact Hn|].
    destruct g. cbn. apply numbered_none; [|done]. by destruct fill_observer_0.
  - set (o := reroute_order _) in E1. clearbody o.
    pose proof (process_numbered g o clk) as Hp. cbv zeta in Hp.
    destruct (process_single_order g o clk) as [[o' g'] evs']. cbn [fst snd] in Hp.
    injection E1 as <- <-. replace 0 with (0 + 0) by done. eapply numbered_app; [exact Hn|].
    rewrite length_app in Hmono. destruct Hn as (_ & _ & ?). apply Hp; lia.
  - injection E1 as <- <-. replace 0 with (0 + 0) by done. eapply numbered_app; [exact Hn|].
    destruct g. cbn. apply numbered_none; [|done]. by destruct completion_observer_0.
Qed.

Lemma child_ids_bind {A} (f : A -> list effect) l :
  (forall x, child_ids (f x) = []) -> child_ids (l ≫= f) = [].
Proof.
  intros Hf. induction l as [|x l IH]; cbn [mbind list_bind]; [done|].
  unfold child_ids in *. by rewrite omap_app, Hf, IH.
Qed.

Lemma submit_order_id g o now :
  next_order_id_ (submit_order g o now).2 = next_order_id_ g \/
  next_order_id_ (submit_order g o now).2 = u64 (next_order_id_ g + 1).
Proof.
  unfold submit_order, generate_order_id. destruct (negb (running_ g)); [by left|].
  destruct (o_id o =? INVALID_ORDER_ID); [right|left]; destruct (_ <=? _)%nat; by destruct g.
Qed.

Lemma do_op_numbered g o :
  let r := do_op g o in
  0 <= next_order_id_ g -> next_order_id_ g + 1 + Z.of_nat (length r.2) <= 18446744073709551615 ->
  numbered 1 (next_order_id_ g) (next_order_id_ r.1) r.2.
Proof.
  assert (forall a b evs, numbered 0 a b evs -> numbered 1 a b evs) as Hweak.
  { intros a b evs (? & ? & ?). split_and!; [done|done|lia..]. }
  assert (forall (g' : t) evs, next_order_id_ g' = next_order_id_ g -> child_ids evs = [] ->
    numbered 1 (next_order_id_ g) (next_order_id_ g') evs) as Hsame
    by (intros g' evs -> ?; by apply numbered_none).
  destruct o as [o now|r now|r|clk| |clk|cn| | |v| | |f|f|l now|sym l| | |]; cbn [do_op]; cbv zeta;
    intros Hn Hmax; try (by apply Hsame; [destruct g|]).
  - destruct (submit_order_id g o now) as [E|E]; [by apply Hsame|].
    unfold numbered. cbn [fst snd]. rewrite E, u64_id by (unfold in_u64; lia).
    split_and!; [constructor|constructor|cbn; lia..].
  - unfold cancel_order. destruct g as [[] ?]; cbn [running_ negb]; [|by apply Hsame].
    cbn in *. destruct (_ <=? _)%nat; by apply Hsame.
  - unfold report_in. destruct (_ <=? _)%nat; apply Hsame; by destruct g.
  - destruct (order_queue_ g) as [|o q]; [by apply Hsame|].
    pose proof (process_numbered { g with order_queue_ := q } o clk) as Hp. cbv zeta in Hp.
    destruct (process_single_order _ _ _) as [[? g'] evs]. cbn [fst snd] in *.
    assert (next_order_id_ { g with order_queue_ := q } = next_order_id_ g) as E by (by destruct g).
    rewrite E in Hp. apply Hweak, Hp; lia.
  - destruct (cancel_queue_ g) as [|r q]; [by apply Hsame|]. apply Hsame; [by destruct g|].
    generalize { g with cancel_queue_ := q }. intros g1. unfold process_cancel.
    destruct (ExecutionHandler.get_order _ _); [|done].
    apply child_ids_bind. intros c.
    destruct (ExecutionHandler.get_order _ _); [|done]. by destruct (_ && _).
  - destruct (report_queue_ g) as [|r q]; [by apply Hsame|]. unfold process_report in *.
    destruct (ExecutionHandler.on_execution_report _ _ _) as [h effs].
    set (g1 := { _ with exec_handler_ := h }) in *.
    assert (next_order_id_ g1 = next_order_id_ g) as E by (by destruct g).
    apply Hweak. apply effects_numbered; [done|lia|]. rewrite E. by apply numbered_none.
  - unfold initialize. set (g1 := { g with exec_handler_ ::= _ }).
    assert (next_order_id_ g1 = next_order_id_ g) as E by (by destruct g).
    assert (forall vs, child_ids (connect_all cn vs).2 = []) as Hc.
    { induction vs as [|v vs IH]; cbn; [done|]. destruct (cn v); [|done].
      destruct (connect_all cn vs). exact IH. }
    specialize (Hc (venue_list g1)). destruct (connect_all _ _). by apply Hsame.
  - unfold stop. destruct (negb _); [by apply Hsame|]. apply Hsame; [by destruct g|].
    unfold child_ids. cbn [snd]. generalize (venue_list g). intros vs.
    induction vs as [|v vs IH]; [done|exact IH].
  - unfold numbered. destruct g. cbn in *. rewrite u64_id by (unfold in_u64; lia).
    split_and!; [constructor|constructor|lia..].
Qed.

Lemma history_numbered now ops :
  let r := history now ops in
  1 + Z.of_nat (length ops) + Z.of_nat (length r.2) <= 18446744073709551615 ->
  numbered (Z.of_nat (length ops)) 1 (next_order_id_ r.1) r.2.
Proof.
  cbv zeta. unfold history, run_from. apply (fold_left_inv _ (fun st seen =>
    1 + Z.of_nat (length seen) + Z.of_nat (length st.2) <= 18446744073709551615 ->
    numbered (Z.of_nat (length seen)) 1 (next_order_id_ st.1) st.2)).
  - intros _. by apply numbered_none.
  - intros [g evs] seen o _ IH. pose proof (do_op_numbered g o) as Hs. cbv zeta in Hs.
    destruct (do_op g o) as [g' new]. cbn [fst snd] in *. rewrite !length_app. cbn [length].
    intros Hmax. destruct IH as (S1 & F1 & Hb); [lia|].
    replace (Z.of_nat (length seen + 1)) with (Z.of_nat (length seen) + 1) by lia.
    eapply numbered_app; [done|apply Hs; lia].
Qed.

Lemma killed_op g o :
  killed g -> o <> KillSwitchOff ->
  killed (do_op g o).1 /\ Forall (fun e => is_dispatch e = false) (do_op g o).2.
Proof.
  intros H Ho. assert (forall (g' : t) evs, risk_manager_ g' = risk_manager_ g ->
    Forall (fun e => is_dispatch e = false) evs ->
    killed g' /\ Forall (fun e => is_dispatch e = false) evs) as Hsame
    by (intros g' evs E ?; unfold killed; by rewrite E).
  destruct o as [o now|r now|r|clk| |clk|cn| | |v| | |f|f|l now|sym l| | |]; cbn [do_op];
    try (by apply Hsame; [destruct g|]); try done.
  - apply Hsame; [|done]. unfold submit_order, generate_order_id.
    destruct (negb (running_ g)); [done|].
    destruct (o_id o =? INVALID_ORDER_ID); destruct (_ <=? _)%nat; by destruct g.
  - apply Hsame; [|done]. unfold cancel_order. destruct (negb (running_ g)); [done|].
    destruct (_ <=? _)%nat; by destruct g.
  - apply Hsame; [|done]. unfold report_in. destruct (_ <=? _)%nat; by destruct g.
  - destruct (order_queue_ g) as [|o q]; [by apply Hsame|].
    destruct (killed_process { g with order_queue_ := q } o clk) as [Hk Hev]; [by destruct g|].
    destruct (process_single_order _ _ _) as [[? g'] evs]. cbn [fst snd] in *. by rewrite Hev.
  - destruct (cancel_queue_ g) as [|r q]; [by apply Hsame|]. apply Hsame; [by destruct g|].
    generalize { g with cancel_queue_ := q }. intros g1. unfold process_cancel.
    destruct (ExecutionHandler.get_order _ _); [|done]. apply Forall_bind, Forall_true. intros c. unfold compose.
    case_match; [|constructor]. case_match; by repeat constructor.
  - destruct (report_queue_ g) as [|r q]; [by apply Hsame|]. apply killed_report. by destruct g.
  - unfold initialize. set (g1 := { g with exec_handler_ ::= _ }).
    assert (forall vs, Forall (fun e => is_dispatch e = false) (connect_all cn vs).2) as Hc.
    { induction vs as [|v vs IH]; cbn; [done|]. destruct (cn v); [|by repeat constructor].
      destruct (connect_all cn vs). by constructor. }
    specialize (Hc (venue_list g1)). destruct (connect_all _ _). apply Hsame; [by destruct g|done].
  - unfold stop. destruct (negb _); [by apply Hsame|]. apply Hsame; [by destruct g|].
    cbn [snd]. apply Forall_fmap, Forall_true. done.
  - split; [|constructor]. unfold killed in *. destruct g, risk_manager_0. cbn in *.
    unfold RiskManager.set_global_limits. destruct (_ >? 0); exact H.
Qed.

End pipeline.

End Gateway.





Import Gateway.

(** C4. The risk manager's position is the record of fills: whatever orders,
    reports, cancels, reroutes, venue, market-data and limit changes the
    gateway has seen, in whatever order, the net position of every symbol is
    the signed sum of the fills recorded for it (modulo 64 bits); no path
    updates one without the other. *)
Theorem positions_match_fills `{!StdSort, !UnorderedMap} now ops sym :
  net_quantity (RiskManager.position (risk_manager_ (history now ops).1) sym) =
  i64 (net_of_fills (fill_manager_ (history now ops).1) sym).
Proof. apply history_positions. Qed.

(** C5. Once the kill switch is active nothing is dispatched: from any state
    with the switch active, no sequence of operations that does not deactivate
    it creates a child order or sends an order to a venue, queued orders and
    reroutes included; cancels and reports are still processed. *)
Theorem kill_switch_halts_dispatch `{!StdSort, !UnorderedMap} g ops :
  killed g -> KillSwitchOff ∉ ops ->
  Forall (fun e => is_dispatch e = false) (run_from g ops).2.
Proof.
  intros Hk Hno.
  assert (killed (run_from g ops).1 /\ Forall (fun e => is_dispatch e = false) (run_from g ops).2)
    as [_ Hd]; [|exact Hd].
  unfold run_from. apply (fold_left_inv _ (fun st _ => killed st.1 /\
    Forall (fun e => is_dispatch e = false) st.2)); [done|].
  intros [g' evs] _ o Hin [Hk' Hev]. cbn [fst snd] in *.
  destruct (killed_op g' o Hk') as [Hk2 Hev2]; [by intros ->|].
  destruct (do_op g' o). split; [done|]. by apply Forall_app.
Qed.

(** Child orders get distinct identifiers, increasing in the order of
    their creation and below the counter, over any history (shorter than the
    64-bit counter). *)
Theorem child_ids_increasing `{!StdSort, !UnorderedMap} now ops :
  let r := history now ops in
  1 + Z.of_nat (length ops) + Z.of_nat (length r.2) <= 18446744073709551615 ->
  StronglySorted Z.lt (child_ids r.2) /\
  Forall (fun i => 1 <= i < next_order_id_ r.1) (child_ids r.2).
Proof. intros r Hm. by apply history_numbered in Hm as (? & ? & _). Qed.


(** ** A concrete gateway *)

Definition opening : list op :=
  [OnRouting (fun _ => (RoutingEngine.history sample_history).1);
   OnMarketData (fun _ => sample_market); AddVenue 1; AddVenue 2;
   SetGlobalLimits { default_RiskLimits with max_open_orders := 1 } 1;
   Initialize (fun _ => true); SetFillObserver; Start].

(** An order of 60 at 100, as a client submits it. *)
Definition client_order : Order :=
  { sample_buy 10000000000 60 with o_id := INVALID_ORDER_ID; o_remaining_quantity := 60 }.

Definition full_fill (child : OrderId) : ExecutionReport :=
  mkReport child 900 Filled 10000000000 60 10000000000 60 0 1 9 (Text_of "").

Definition first_trade : list op :=
  opening ++ [Submit_ client_order 2; PumpOrder (fun _ => 3);
              ReportIn (mkReport 2 899 Accepted 0 0 0 0 60 1 8 (Text_of ""));
              PumpReport (fun _ => 8); ReportIn (full_fill 2); PumpReport (fun _ => 9)].

Lemma kill_switch_halts_dispatch_witness :
  (run_from (history 0 (opening ++ [KillSwitchOn])).1
     [Submit_ client_order 2; PumpOrder (fun _ => 3)]).2 = [] /\
  Forall (fun e => is_dispatch e = false)
    (run_from (history 0 (opening ++ [KillSwitchOn])).1
       [Submit_ client_order 2; PumpOrder (fun _ => 3)]).2.
Proof.
  split; [vm_compute; reflexivity|]. apply kill_switch_halts_dispatch.
  - vm_compute; reflexivity.
  - intros H. by repeat (apply elem_of_cons in H as [H|H]; [discriminate H|]); inversion H.
Defined.

Lemma child_ids_increasing_witness :
  child_ids (history 0 first_trade).2 = [2] /\
  StronglySorted Z.lt (child_ids (history 0 first_trade).2).
Proof.
  split; [vm_compute; reflexivity|]. apply (child_ids_increasing 0 first_trade).
  vm_compute; discriminate.
Defined.

Abbreviation opened := (history 0 opening).1 (only parsing).
Abbreviation halted := (history 0 (opening ++ [KillSwitchOn])).1 (only parsing).
Abbreviation first_order := ({ client_order with o_id := 1 }) (only parsing).


(** The open-order count is never given back: the gateway does not tell the
    risk manager that an order ended.  With a limit of one open order, an
    order that is filled completely leaves the count at one and the next order
    of the symbol is rejected. *)
Theorem open_orders_never_released :
  let g := (history 0 first_trade).1 in
  (exists o, get_order g 1 = Some o /\ o_state o = Filled) /\
  open_order_count (RiskManager.position (risk_manager_ g) (Symbol_of "AAPL")) = 1 /\
  orders_completed (stats_ g) = 1 /\
  let next := run_from g [Submit_ client_order 10; PumpOrder (fun _ => 11)] in
  next.2 = [] /\ orders_rejected (stats_ next.1) = 1.
Proof.
  split; [eexists; split; vm_compute; reflexivity|]. vm_compute. done.
Qed.
