(* ===== verification/GatewayFills.v ===== *)
(** * What an observer of the gateway sees

    The fills recorded by the gateway, the ones handed to its observer and the
    reports it was given, along any history of its operations; and the orders
    it sends to its venues.  These are the facts about the gateway that its
    owner relies on ([SorController]). *)

From S2P Require Import Prelude Double Types StateMachine RateLimiter Risk Book Aggregator.
From S2P Require Import FillManager ExecutionHandler Strategy Engine Gateway.
Import Gateway.

(** The fills handed to the observer. *)
Definition observed (evs : list effect) : list (Order * ExecutionReport) :=
  omap (fun e => match e with FillObserved o r => Some (o, r) | _ => None end) evs.

(** The reports an operation hands in. *)
Definition reported (ops : list op) : list ExecutionReport :=
  omap (fun o => match o with ReportIn r => Some r | _ => None end) ops.

(** The orders sent to the venues. *)
Definition sends (evs : list effect) : list (VenueId * Order) :=
  omap (fun e => match e with SendOrder v o => Some (v, o) | _ => None end) evs.

Lemma observed_app a b : observed (a ++ b) = observed a ++ observed b.
Proof. apply omap_app. Qed.
Lemma reported_app a b : reported (a ++ b) = reported a ++ reported b.
Proof. apply omap_app. Qed.
Lemma sends_app a b : sends (a ++ b) = sends a ++ sends b.
Proof. apply omap_app. Qed.

Section fills.
Context {SS : StdSort} {UM : UnorderedMap}.

(** ** The orders of the reports *)

(** Every order is tracked under its identifier. *)
Definition keyed (os : gmap OrderId Order) : Prop := forall id o, os !! id = Some o -> o_id o = id.

Lemma keyed_insert os id o : keyed os -> o_id o = id -> keyed (<[id := o]> os).
Proof. intros Hk Ho id' o' [[<- <-]|[_ H]]%lookup_insert_Some; [done|by apply Hk]. Qed.

(** The parent's side of a report. *)
Lemma child_branch_keyed m id pid r clk P :
  keyed (ExecutionHandler.orders_ m) -> ExecutionHandler.orders_ m !! pid = Some P ->
  keyed (ExecutionHandler.orders_ (ExecutionHandler.child_branch m id pid r clk).1.1) /\
  (is_Some (ExecutionHandler.orders_ m !! id) ->
   is_Some (ExecutionHandler.orders_ (ExecutionHandler.child_branch m id pid r clk).1.1 !! id)).
Proof.
  intros Hk HP. unfold ExecutionHandler.child_branch. cbn [fst].
  set (os1 := if r_last_quantity r >? 0 then _ else _).
  assert (exists P1, os1 !! pid = Some P1 /\ keyed os1 /\
    (is_Some (ExecutionHandler.orders_ m !! id) -> is_Some (os1 !! id))) as (P1 & HP1 & Hk1 & Hi1).
  { subst os1. destruct (_ >? 0); [|by eauto]. eexists. split; [apply lookup_insert_eq|].
    split; [|intros; apply lookup_insert_is_Some'; by right].
    apply keyed_insert; [done|]. rewrite (proj1 (ExecutionHandler.update_parent_fields _ _ _)). unfold ExecutionHandler.order_at. rewrite HP. by apply Hk. }
  clearbody os1. set (b := ExecutionHandler.wants_reroute _ _ _ _). set (os2 := if b then _ else _).
  assert (exists P2, os2 !! pid = Some P2 /\ keyed os2 /\ (is_Some (os1 !! id) -> is_Some (os2 !! id)))
    as (P2 & HP2 & Hk2 & Hi2).
  { subst os2. destruct b; [|by eauto]. eexists. split; [apply lookup_insert_eq|].
    split; [|intros; apply lookup_insert_is_Some'; by right].
    apply keyed_insert; [done|]. unfold ExecutionHandler.order_at. rewrite HP1. exact (Hk1 _ _ HP1). }
  clearbody os2. destruct m. cbn. destruct (_ >=? _); [|by auto]. split.
  - apply keyed_insert; [done|]. unfold ExecutionHandler.order_at. rewrite HP2. exact (Hk2 _ _ HP2).
  - intros. apply lookup_insert_is_Some'. right. auto.
Qed.

Definition keyed_orders (g : t) : Prop := keyed (ExecutionHandler.orders_ (exec_handler_ g)).

Lemma process_keyed g o clk : keyed_orders g -> keyed_orders (process_single_order g o clk).1.2.
Proof.
  unfold keyed_orders. intros Hk. unfold process_single_order.
  set (o' := (OrderStateMachine.apply o Submit (clk 0%nat)).2).
  destruct (RiskManager.check_order (risk_manager_ g) o' (clk 1%nat)) as [res m].
  destruct (negb (bool_decide (res = Passed))); [by destruct g|].
  destruct (RoutingEngine.route_order _ _ _ _ _ _) as [[[d e] m'] revs].
  set (g2 := { _ with routing_engine_ := e; risk_manager_ := m' }).
  assert (keyed (ExecutionHandler.orders_ (exec_handler_ g2))) as H2.
  { assert (ExecutionHandler.orders_ (exec_handler_ g2) =
      <[o_id o' := o']> (ExecutionHandler.orders_ (exec_handler_ g))) as -> by (by destruct g as [? ? ? ? ? ? ? []]).
    by apply keyed_insert. }
  clearbody g2. destruct (negb (decision_valid d)); [by destruct g2|].
  assert (keyed (ExecutionHandler.orders_ (exec_handler_ (count_routed g2)))) as H3 by (by destruct g2).
  revert H3. generalize (count_routed g2), (@nil effect). clear.
  induction d as [|sl d IH]; intros g evs Hk; cbn [fold_left]; [done|]. cbn [dispatch_slice generate_order_id].
  apply IH. destruct g as [? ? ? ? ? ? ? []]. cbn. by apply keyed_insert.
Qed.

Definition callback_set (g : t) : bool := ExecutionHandler.fill_callback_ (exec_handler_ g).

(** An operation that neither records nor observes. *)
Record quiet (g g' : t) (evs : list effect) : Prop := {
  quiet_manager : fill_manager_ g' = fill_manager_ g;
  quiet_queue : report_queue_ g' = report_queue_ g;
  quiet_observer : fill_observer_ g = true -> fill_observer_ g' = true;
  quiet_callback : callback_set g' = callback_set g;
  quiet_keyed : keyed_orders g -> keyed_orders g';
  quiet_effects : observed evs = []
}.

Lemma observed_children venues pid (cs : list Order) : observed (cs ≫= child_effects venues pid) = [].
Proof.
  induction cs as [|c cs IH]; [done|]. cbn [mbind list_bind]. rewrite observed_app, IH.
  unfold child_effects. by destruct (decide _).
Qed.

Lemma fold_quiet order now d g evs :
  let st := fold_left (dispatch_slice order now) d (g, evs) in
  observed evs = [] ->
  fill_manager_ st.1 = fill_manager_ g /\ report_queue_ st.1 = report_queue_ g /\
  fill_observer_ st.1 = fill_observer_ g /\ callback_set st.1 = callback_set g /\ observed st.2 = [].
Proof.
  cbv zeta. revert g evs; induction d as [|sl d IH]; intros g evs He; cbn [fold_left]; [done|].
  cbn [dispatch_slice generate_order_id].
  set (g1 := { _ with exec_handler_ ::= _; risk_manager_ ::= _ }). set (evs1 := evs ++ _).
  assert (fill_manager_ g1 = fill_manager_ g /\ report_queue_ g1 = report_queue_ g /\
    fill_observer_ g1 = fill_observer_ g /\ callback_set g1 = callback_set g) as (<- & <- & <- & <-) by (by destruct g).
  apply IH. subst evs1. rewrite !observed_app, He. by destruct (decide _).
Qed.

Lemma process_quiet g o clk : quiet g (process_single_order g o clk).1.2 (process_single_order g o clk).2.
Proof.
  assert (forall g' evs, fill_manager_ g' = fill_manager_ g /\ report_queue_ g' = report_queue_ g /\
    fill_observer_ g' = fill_observer_ g /\ callback_set g' = callback_set g /\ observed evs = [] ->
    (keyed_orders g -> keyed_orders g') -> quiet g g' evs) as Hq
    by (intros g' evs (? & ? & ? & ? & ?) ?; split; try done; congruence).
  apply Hq; [|apply process_keyed]. clear Hq.
  unfold process_single_order. set (o' := (OrderStateMachine.apply o Submit (clk 0%nat)).2).
  destruct (RiskManager.check_order (risk_manager_ g) o' (clk 1%nat)) as [res m].
  destruct (negb (bool_decide (res = Passed))); [by destruct g|].
  destruct (RoutingEngine.route_order _ _ _ _ _ _) as [[[d e] m'] revs].
  destruct (negb (decision_valid d)); [by destruct g|].
  set (g2 := count_routed _). pose proof (fold_quiet o' (clk 3%nat) d g2 [] eq_refl) as Hf. cbv zeta in Hf.
  destruct (fold_left _ _ _) as [g' evs]. cbn [fst snd] in *.
  assert (fill_manager_ g2 = fill_manager_ g /\ report_queue_ g2 = report_queue_ g /\
    fill_observer_ g2 = fill_observer_ g /\ callback_set g2 = callback_set g) as (<- & <- & <- & <-) by (by destruct g).
  exact Hf.
Qed.

Definition fill_callbacks (effs : list ExecutionHandler.Effect) : list (Order * ExecutionReport) :=
  omap (fun e => match e with ExecutionHandler.FillCb o r => Some (o, r) | _ => None end) effs.

(** At most one fill a report, of the order of the report. *)
Lemma report_callbacks h r clk :
  let '(h', effs) := ExecutionHandler.on_execution_report h r clk in
  ExecutionHandler.fill_callback_ h' = ExecutionHandler.fill_callback_ h /\
  (fill_callbacks effs = [] \/
   ExecutionHandler.fill_callback_ h = true /\ 0 < r_last_quantity r /\ exists o, fill_callbacks effs = [(o, r)]).
Proof.
  unfold ExecutionHandler.on_execution_report.
  destruct (ExecutionHandler.orders_ h !! _) as [order|]; [|by auto].
  destruct (ExecutionHandler.report_event _); [|by auto].
  set (h1 := { h with ExecutionHandler.orders_ ::= _ }).
  set (rest := match ExecutionHandler.child_to_parent_ h1 !! _ with Some _ => _ | None => _ end).
  assert (ExecutionHandler.fill_callback_ rest.1.1 = ExecutionHandler.fill_callback_ h /\
          fill_callbacks rest.1.2 = [] /\ fill_callbacks rest.2 = []) as (R1 & R2 & R3).
  { subst rest. destruct (ExecutionHandler.child_to_parent_ h1 !! _) as [pid|].
    - destruct (ExecutionHandler.orders_ h1 !! pid); [|done]. unfold ExecutionHandler.child_branch. cbn [fst snd].
      destruct (_ && _); destruct (_ && _); done.
    - cbn [fst snd]. by destruct (_ && _). }
  destruct rest as [[h2 reroute] completion]. cbn [fst snd] in R1, R2, R3.
  split; [done|]. unfold fill_callbacks in *. rewrite !omap_app, R2, R3, !app_nil_r, R1.
  rewrite Z.gtb_ltb. destruct (Z.ltb_spec 0 (r_last_quantity r)); [|by left]. cbn [andb].
  destruct (ExecutionHandler.fill_callback_ h); [|by left]. right. split_and!; [done|done|]. by eexists.
Qed.

(** A report keeps the keys, and the fill it leads to is of its order. *)
Lemma report_keyed h r clk :
  keyed (ExecutionHandler.orders_ h) ->
  let '(h', effs) := ExecutionHandler.on_execution_report h r clk in
  keyed (ExecutionHandler.orders_ h') /\ Forall (fun f => o_id f.1 = r_order_id f.2) (fill_callbacks effs).
Proof.
  intros Hk. unfold ExecutionHandler.on_execution_report.
  destruct (ExecutionHandler.orders_ h !! _) as [order|] eqn:Eo; [|by split].
  destruct (ExecutionHandler.report_event _) as [event|]; [|by split].
  set (order' := ExecutionHandler.report_order _ _ _ _).
  assert (o_id order' = r_order_id r) as Eid.
  { destruct (ExecutionHandler.report_order_fields order event r clk) as [E _]. unfold order'. rewrite E. by apply Hk. }
  set (h1 := { h with ExecutionHandler.orders_ ::= _ }).
  assert (ExecutionHandler.orders_ h1 = <[r_order_id r := order']> (ExecutionHandler.orders_ h)) as E1 by (by destruct h).
  assert (keyed (ExecutionHandler.orders_ h1)) as Hk1 by (rewrite E1; by apply keyed_insert).
  assert (is_Some (ExecutionHandler.orders_ h1 !! r_order_id r)) as Hs by (rewrite E1, lookup_insert_eq; by eexists).
  clearbody h1. set (rest := match ExecutionHandler.child_to_parent_ h1 !! _ with Some _ => _ | None => _ end).
  assert (keyed (ExecutionHandler.orders_ rest.1.1) /\ is_Some (ExecutionHandler.orders_ rest.1.1 !! r_order_id r) /\
          fill_callbacks rest.1.2 = [] /\ fill_callbacks rest.2 = []) as (R1 & R2 & R3 & R4).
  { subst rest. destruct (ExecutionHandler.child_to_parent_ h1 !! _) as [pid|].
    - destruct (ExecutionHandler.orders_ h1 !! pid) as [P|] eqn:EP; [|done].
      destruct (child_branch_keyed h1 (r_order_id r) pid r clk P Hk1 EP) as [H1 H2].
      split; [done|]. split; [auto|]. unfold ExecutionHandler.child_branch. cbn [fst snd].
      destruct (_ && _); destruct (_ && _); done.
    - split; [done|]. split; [done|]. cbn [fst snd]. by destruct (_ && _). }
  destruct rest as [[h2 reroute] completion]. cbn [fst snd] in *. split; [by destruct h2|].
  unfold fill_callbacks in *. rewrite !omap_app, R3, R4, !app_nil_r.
  destruct (_ && _); [|constructor]. cbn. constructor; [|constructor]. cbn.
  unfold ExecutionHandler.order_at. destruct R2 as [o Ro]. rewrite Ro. by apply R1.
Qed.

Lemma callbacks_keyed clk effs g evs :
  keyed_orders g -> keyed_orders (fold_left (on_effect clk) effs (g, evs)).1.
Proof.
  revert g evs. induction effs as [|e effs IH]; intros g evs Hk; cbn [fold_left]; [done|].
  destruct e as [o r|pid|o]; cbn [on_effect].
  - apply IH. by destruct g.
  - set (o := reroute_order _). clearbody o. pose proof (process_keyed g o clk Hk) as Hp.
    destruct (process_single_order g o clk) as [[o' g'] evs']. by apply IH.
  - apply IH. by destruct g.
Qed.

(** What the callbacks of a report record and observe. *)
Lemma callbacks_fills clk effs g evs :
  let st := fold_left (on_effect clk) effs (g, evs) in
  FillManager.all_fills_ (fill_manager_ st.1) =
    FillManager.all_fills_ (fill_manager_ g) ++ (uncurry fill_record <$> fill_callbacks effs) /\
  (fill_observer_ g = true ->
   fill_observer_ st.1 = true /\ observed st.2 = observed evs ++ fill_callbacks effs) /\
  (exists seen, observed st.2 = observed evs ++ seen /\ seen `sublist_of` fill_callbacks effs) /\
  report_queue_ st.1 = report_queue_ g /\ callback_set st.1 = callback_set g.
Proof.
  revert g evs. induction effs as [|e effs IH]; intros g evs; cbn [fold_left].
  { cbn. rewrite !app_nil_r. split_and!; try done. exists []. by rewrite app_nil_r. }
  assert (exists g1 evs1, on_effect clk (g, evs) e = (g1, evs1) /\
    FillManager.all_fills_ (fill_manager_ g1) =
      FillManager.all_fills_ (fill_manager_ g) ++ (uncurry fill_record <$> fill_callbacks [e]) /\
    (fill_observer_ g = true -> fill_observer_ g1 = true /\ observed evs1 = observed evs ++ fill_callbacks [e]) /\
    (exists seen, observed evs1 = observed evs ++ seen /\ seen `sublist_of` fill_callbacks [e]) /\
    report_queue_ g1 = report_queue_ g /\ callback_set g1 = callback_set g)
    as (g1 & evs1 & -> & H1 & H2 & (seen1 & H3 & H3') & H4 & H5).
  { destruct e as [o r|pid|o]; cbn [on_effect].
    - eexists _, _. split; [done|]. rewrite observed_app. split_and!; try (by destruct g).

      + intros Ho. destruct g. cbn in *. by rewrite Ho.
      + eexists. split; [done|]. destruct (fill_observer_ _); cbn; [done|apply sublist_nil_l].
    - set (o := reroute_order _). clearbody o. destruct (process_quiet g o clk) as [Q1 Q2 Q3 Q4 _ Q5].
      destruct (process_single_order g o clk) as [[o' g'] evs']. cbn [fst snd] in *.
      eexists _, _. split; [done|]. rewrite observed_app, Q1, Q5. cbn. rewrite !app_nil_r.
      split_and!; try done; [auto|]. exists []. by rewrite app_nil_r.
    - eexists _, _. split; [done|]. rewrite observed_app.
      assert (observed (if completion_observer_ g then [CompletionObserved o] else []) = []) as E
        by (by destruct (completion_observer_ g)).
      assert (completion_observer_ { g with stats_ ::= fun st => { st with orders_completed ::= fun n => u64 (n + 1) } }
              = completion_observer_ g) as -> by (by destruct g).
      rewrite E. cbn. rewrite !app_nil_r. split_and!; try (by destruct g). exists []. by rewrite app_nil_r. }
  destruct (IH g1 evs1) as (I1 & I2 & (seen2 & I3 & I3') & I4 & I5).
  assert (fill_callbacks (e :: effs) = fill_callbacks [e] ++ fill_callbacks effs) as -> by (unfold fill_callbacks; by rewrite <- omap_app).
  split_and!; [|intros Ho| |congruence|congruence].
  - by rewrite I1, H1, fmap_app, app_assoc.
  - destruct (H2 Ho) as [H6 H7]. destruct (I2 H6) as [I6 I7]. split; [done|]. by rewrite I7, H7, app_assoc.
  - exists (seen1 ++ seen2). split; [by rewrite I3, H3, app_assoc|by apply sublist_app].
Qed.

(** ** One operation *)

(** Fills and reports along an operation: what is recorded, what is observed,
    and where the reports of the fills come from. *)
Definition op_fills (g : t) (o : op) (g' : t) (evs : list effect) : Prop :=
  exists fs,
    FillManager.all_fills_ (fill_manager_ g') =
      FillManager.all_fills_ (fill_manager_ g) ++ (uncurry fill_record <$> fs) /\
    (exists seen, observed evs = seen /\ seen `sublist_of` fs) /\
    (fill_observer_ g = true -> fill_observer_ g' = true /\ observed evs = fs) /\
    (callback_set g = false -> fs = []) /\
    fs.*2 ++ report_queue_ g' `sublist_of` report_queue_ g ++ reported [o] /\
    Forall (fun f => 0 < r_last_quantity f.2) fs /\
    (callback_set g' = callback_set g \/ exists connects, o = Initialize connects) /\
    (keyed_orders g -> keyed_orders g' /\ Forall (fun f => o_id f.1 = r_order_id f.2) fs).

Lemma quiet_op g o g' evs : quiet g g' evs -> op_fills g o g' evs.
Proof.
  intros [Q1 Q2 Q3 Q4 Qk Q5]. exists []. rewrite Q1, Q2, Q5. cbn. rewrite app_nil_r.
  split_and!; [done|by exists []|by auto|done|by apply sublist_inserts_r|constructor|by left|by auto].
Qed.

Lemma report_op_fills g r q clk :
  report_queue_ g = r :: q ->
  let '(g', evs) := process_report { g with report_queue_ := q } r clk in
  op_fills g (PumpReport clk) g' evs.
Proof.
  intros Eq. unfold process_report. set (g1 := { g with report_queue_ := q }).
  pose proof (report_callbacks (exec_handler_ g1) r clk) as Hr.
  pose proof (report_keyed (exec_handler_ g1) r clk) as Hk.
  destruct (ExecutionHandler.on_execution_report _ _ _) as [h effs]. destruct Hr as [Eh Hr].
  set (g2 := { g1 with exec_handler_ := h }). pose proof (callbacks_keyed (fun i => clk (4 + i)%nat) effs g2 []) as Hk2.
  pose proof (callbacks_fills (fun i => clk (4 + i)%nat) effs g2 []) as Hc. cbv zeta in Hc.
  destruct (fold_left _ effs _) as [g' evs]. cbn [fst snd] in Hc, Hk2.
  destruct Hc as (H1 & H2 & (seen & H3 & H3') & H4 & H5).
  assert (fill_manager_ g2 = fill_manager_ g /\ fill_observer_ g2 = fill_observer_ g /\
    report_queue_ g2 = q /\ callback_set g2 = ExecutionHandler.fill_callback_ h /\
    ExecutionHandler.fill_callback_ (exec_handler_ g1) = callback_set g) as (G1 & G2 & G3 & G4 & G5)
    by (by destruct g).
  rewrite G1 in H1. rewrite G2 in H2. rewrite G3 in H4. rewrite G4, Eh, G5 in H5. rewrite G5 in Hr.
  exists (fill_callbacks effs). rewrite Eq, H4.
  split_and!; [done|by exists seen|done| | | |by left|].
  - intros Hf. destruct Hr as [|(? & _)]; [done|congruence].
  - rewrite app_nil_r. destruct Hr as [->|(_ & _ & o & ->)]; cbn; [by constructor|done].
  - destruct Hr as [->|(_ & Hq & o & ->)]; [constructor|by apply Forall_singleton].
  - intros Hg. destruct Hk as [Hk3 Hk4]; [by destruct g|]. split; [|done]. apply Hk2. by destruct g.
Qed.

Lemma do_op_fills g o : op_fills g o (do_op g o).1 (do_op g o).2.
Proof.
  assert (forall (g' : t), fill_manager_ g' = fill_manager_ g -> report_queue_ g' = report_queue_ g ->
    (fill_observer_ g = true -> fill_observer_ g' = true) -> callback_set g' = callback_set g ->
    exec_handler_ g' = exec_handler_ g -> forall evs, observed evs = [] -> op_fills g o g' evs) as Hsame.
  { intros g1 ? ? ? ? E evs ?. apply quiet_op. split; try done. unfold keyed_orders. by rewrite E. }
  destruct o as [o now|r now|r|clk| |clk|cn| | |v| | |f|f|l now|sym l| | |]; cbn [do_op];
    try (by apply Hsame; destruct g).
  - unfold submit_order, generate_order_id.
    destruct (negb (running_ g)); [by apply Hsame|].
    destruct (o_id o =? INVALID_ORDER_ID); destruct (_ <=? _)%nat; apply Hsame; by destruct g.
  - unfold cancel_order. destruct (negb (running_ g)); [by apply Hsame|].
    destruct (_ <=? _)%nat; apply Hsame; by destruct g.
  - cbn [fst snd]. unfold report_in. destruct (_ <=? _)%nat; [by apply Hsame|].
    exists []. destruct g. cbn. rewrite app_nil_r. split_and!; try done; [by exists []|by left].
  - destruct (order_queue_ g) as [|o q]; [by apply Hsame|].
    pose proof (process_quiet { g with order_queue_ := q } o clk) as [Q1 Q2 Q3 Q4 Qk Q5].
    destruct (process_single_order _ _ _) as [[? g'] evs]. cbn [fst snd] in *.
    apply quiet_op. split; destruct g; cbn in *; done.
  - destruct (cancel_queue_ g) as [|r q]; [by apply Hsame|]. apply Hsame; try (by destruct g).
    generalize { g with cancel_queue_ := q }. intros g1. unfold process_cancel. cbn [snd].
    destruct (ExecutionHandler.get_order _ _); [|done].
    induction (ExecutionHandler.get_children _ _) as [|c cs IH]; [done|]. cbn [mbind list_bind].
    rewrite observed_app, IH. destruct (ExecutionHandler.get_order _ c); [|done]. by destruct (_ && _).
  - destruct (report_queue_ g) as [|r q] eqn:Eq; [by apply Hsame|].
    pose proof (report_op_fills g r q clk Eq). by destruct (process_report _ _ _).
  - unfold initialize. set (g1 := { g with exec_handler_ ::= _ }).
    assert (forall vs, observed (connect_all cn vs).2 = []) as Hc.
    { induction vs as [|v vs IH]; cbn; [done|]. destruct (cn v); [|done].
      by destruct (connect_all cn vs). }
    specialize (Hc (venue_list g1)). destruct (connect_all _ _) as [ok evs]. cbn [fst snd] in *.
    exists []. rewrite Hc. assert (fill_manager_ g1 = fill_manager_ g /\ report_queue_ g1 = report_queue_ g /\
      fill_observer_ g1 = fill_observer_ g) as (-> & -> & ->) by (by destruct g).
    cbn. rewrite !app_nil_r. split_and!; try done; [by exists []|right; by eexists].
  - unfold stop. destruct (negb _); [by apply Hsame|]. apply Hsame; try (by destruct g). cbn [snd].
    induction (venue_list g) as [|v vs IH]; [done|exact IH].
Qed.

(** ** Histories *)

(** Every fill recorded was observed, its report handed in, and the fills keep
    the order of the reports. *)
Record faithful (ops : list op) (g : t) (evs : list effect) : Prop := {
  faithful_recorded : FillManager.all_fills_ (fill_manager_ g) = uncurry fill_record <$> observed evs;
  faithful_reports : (observed evs).*2 ++ report_queue_ g `sublist_of` reported ops;
  faithful_positive : Forall (fun f => 0 < r_last_quantity f.2) (observed evs);
  faithful_observer : fill_observer_ g = true \/ callback_set g = false;
  faithful_keyed : keyed_orders g;
  faithful_orders : Forall (fun f => o_id f.1 = r_order_id f.2) (observed evs)
}.

Lemma faithful_create now : faithful [] (create now) [].
Proof. split; [done|constructor|constructor|by right|by intros ? ?|constructor]. Qed.

(** The observer is there before the callbacks are installed. *)
Lemma faithful_op ops g evs o :
  faithful ops g evs -> (forall connects, o = Initialize connects -> fill_observer_ g = true) ->
  faithful (ops ++ [o]) (do_op g o).1 (evs ++ (do_op g o).2).
Proof.
  intros [F1 F2 F3 F4 F5 F6] Hi.
  destruct (do_op_fills g o) as (fs & H1 & (seen & H2 & H2') & H3 & H4 & H5 & H6 & H7 & H8).
  destruct (H8 F5) as [H9 H10].
  destruct (do_op g o) as [g' new]. cbn [fst snd] in *.
  assert (observed new = fs) as E.
  { destruct F4 as [F4|F4]; [by apply H3|]. rewrite H4 in * by done. subst seen.
    by apply sublist_nil_r in H2'. }
  split.
  - by rewrite H1, F1, observed_app, fmap_app, E.
  - rewrite observed_app, reported_app, fmap_app, E, <- app_assoc.
    etransitivity; [apply sublist_app; [reflexivity|exact H5]|]. rewrite app_assoc.
    by apply sublist_app.
  - rewrite observed_app, E. by apply Forall_app.
  - destruct F4 as [F4|F4]; [left; by apply H3|]. destruct H7 as [->|[cn H7]]; [by right|].
    left. apply H3. by eapply Hi.
  - done.
  - rewrite observed_app, E. by apply Forall_app.
Qed.

(** ** What is sent *)

(** An order as it is sent: new, to a venue of the gateway. *)
Definition sent_ok (venues : gset VenueId) (vo : VenueId * Order) : Prop :=
  vo.1 ∈ venues /\ o_target_venue vo.2 = vo.1 /\ o_filled_quantity vo.2 = 0 /\ 0 < o_quantity vo.2.

(** The orders sent are children, in the order of their creation. *)
Definition sound_sends (venues : gset VenueId) (evs : list effect) : Prop :=
  o_id <$> (sends evs).*2 `sublist_of` child_ids evs /\ Forall (sent_ok venues) (sends evs).

Lemma sound_sends_none venues evs : sends evs = [] -> sound_sends venues evs.
Proof. intros E. unfold sound_sends. rewrite E. split; [apply sublist_nil_l|constructor]. Qed.

Lemma sound_sends_app venues e1 e2 :
  sound_sends venues e1 -> sound_sends venues e2 -> sound_sends venues (e1 ++ e2).
Proof.
  intros [S1 F1] [S2 F2]. unfold sound_sends, child_ids in *. rewrite sends_app, omap_app, !fmap_app.
  split; [by apply sublist_app|by apply Forall_app].
Qed.

Lemma sound_sends_mono venues venues' evs :
  venues ⊆ venues' -> sound_sends venues evs -> sound_sends venues' evs.
Proof.
  intros Hv [S F]. split; [done|]. eapply Forall_impl; [exact F|]. intros vo (? & ?). split; [by apply Hv|done].
Qed.

Lemma child_effects_sound venues pid c :
  o_filled_quantity c = 0 -> 0 < o_quantity c -> sound_sends venues (child_effects venues pid c).
Proof.
  intros Hf Hq. unfold child_effects, sound_sends, child_ids. destruct (decide _) as [Hv|Hv]; cbn.
  - split; [done|]. by apply Forall_singleton.
  - split; [apply sublist_nil_l|constructor].
Qed.

Lemma fold_sends order now d g evs :
  let st := fold_left (dispatch_slice order now) d (g, evs) in
  Forall (fun sl => 0 < sl_quantity sl) d -> sound_sends (venues_ g) evs ->
  sound_sends (venues_ g) st.2 /\ venues_ st.1 = venues_ g /\ routing_engine_ st.1 = routing_engine_ g.
Proof.
  cbv zeta. revert g evs; induction d as [|sl d IH]; intros g evs Hd He; cbn [fold_left]; [done|].
  apply Forall_cons in Hd as [Hsl Hd]. cbn [dispatch_slice generate_order_id].
  set (g1 := { _ with exec_handler_ ::= _; risk_manager_ ::= _ }). set (evs1 := evs ++ _).
  assert (venues_ g1 = venues_ g /\ routing_engine_ g1 = routing_engine_ g) as [E1 E2] by (by destruct g).
  assert (sound_sends (venues_ g) evs1) as He1.
  { subst evs1. apply sound_sends_app; [done|]. rewrite E1. by apply child_effects_sound. }
  specialize (IH g1 evs1 Hd). rewrite E1, E2 in IH. by apply IH.
Qed.

Lemma process_sends g o clk :
  RoutingEngine.engine_ok (routing_engine_ g) ->
  let '(_, g', evs) := process_single_order g o clk in
  RoutingEngine.engine_ok (routing_engine_ g') /\ venues_ g' = venues_ g /\ sound_sends (venues_ g) evs.
Proof.
  intros Hok. unfold process_single_order. set (o' := (OrderStateMachine.apply o Submit (clk 0%nat)).2).
  destruct (RiskManager.check_order (risk_manager_ g) o' (clk 1%nat)) as [res m].
  destruct (negb (bool_decide (res = Passed))); [split_and!; [by destruct g|by destruct g|by apply sound_sends_none]|].
  set (g1 := { _ with exec_handler_ ::= _ }).
  assert (routing_engine_ g1 = routing_engine_ g /\ venues_ g1 = venues_ g) as [E1 E2] by (by destruct g).
  rewrite E1. pose proof (RoutingEngine.route_order_outcome _ (risk_manager_ g1) (md_aggregator_ g1) o'
    (clk 2%nat) (fun i => clk (4 + i)%nat) Hok) as Hout.
  destruct (RoutingEngine.route_order _ _ _ _ _ _) as [[[d e] m'] revs].
  destruct Hout as (Hok' & _ & _ & _ & _ & Hd).
  set (g2 := { g1 with routing_engine_ := e; risk_manager_ := m' }).
  assert (routing_engine_ g2 = e /\ venues_ g2 = venues_ g) as [E3 E4] by (by destruct g).
  destruct (negb (decision_valid d)); [split_and!; [by destruct g|by destruct g|by apply sound_sends_none]|].
  pose proof (fold_sends o' (clk 3%nat) d (count_routed g2) []) as Hf. cbv zeta in Hf.
  destruct (fold_left _ _ _) as [g' evs]. cbn [fst snd] in Hf.
  assert (venues_ (count_routed g2) = venues_ g /\ routing_engine_ (count_routed g2) = e) as [E5 E6] by (by destruct g).
  rewrite E5, E6 in Hf. destruct Hf as (H1 & H2 & H3).
  - eapply Forall_impl; [exact Hd|]. by intros sl [? _].
  - by apply sound_sends_none.
  - rewrite H3. done.
Qed.

Lemma callbacks_sends clk effs g evs :
  let st := fold_left (on_effect clk) effs (g, evs) in
  RoutingEngine.engine_ok (routing_engine_ g) -> sound_sends (venues_ g) evs ->
  RoutingEngine.engine_ok (routing_engine_ st.1) /\ venues_ st.1 = venues_ g /\ sound_sends (venues_ g) st.2.
Proof.
  cbv zeta. revert g evs. induction effs as [|e effs IH]; intros g evs Hok He; cbn [fold_left]; [done|].
  assert (exists g1 evs1, on_effect clk (g, evs) e = (g1, evs1) /\
    RoutingEngine.engine_ok (routing_engine_ g1) /\ venues_ g1 = venues_ g /\ sound_sends (venues_ g) evs1)
    as (g1 & evs1 & -> & H1 & H2 & H3).
  { destruct e as [o r|pid|o]; cbn [on_effect].
    - eexists _, _. split; [done|]. split_and!; [by destruct g|by destruct g|].
      apply sound_sends_app; [done|]. apply sound_sends_none. by destruct (fill_observer_ _).
    - set (o := reroute_order _). clearbody o. pose proof (process_sends g o clk Hok) as Hp.
      destruct (process_single_order g o clk) as [[o' g'] evs']. destruct Hp as (H1 & H2 & H3).
      eexists _, _. split; [done|]. split_and!; [done|done|]. by apply sound_sends_app.
    - eexists _, _. split; [done|]. split_and!; [by destruct g|by destruct g|].
      apply sound_sends_app; [done|]. apply sound_sends_none. by destruct (completion_observer_ _). }
  specialize (IH g1 evs1 H1). rewrite H2 in IH. by apply IH.
Qed.

Definition keeps_engine (o : op) : Prop :=
  forall f e, o = OnRouting f -> RoutingEngine.engine_ok e -> RoutingEngine.engine_ok (f e).

Lemma do_op_sends g o :
  RoutingEngine.engine_ok (routing_engine_ g) -> keeps_engine o ->
  RoutingEngine.engine_ok (routing_engine_ (do_op g o).1) /\
  venues_ (do_op g o).1 = (match o with AddVenue v => {[v]} | _ => ∅ end) ∪ venues_ g /\
  sound_sends (venues_ g) (do_op g o).2.
Proof.
  intros Hok Hk.
  assert (forall (g' : t) evs, routing_engine_ g' = routing_engine_ g -> venues_ g' = venues_ g -> sends evs = [] ->
    RoutingEngine.engine_ok (routing_engine_ g') /\ venues_ g' = ∅ ∪ venues_ g /\ sound_sends (venues_ g) evs) as Hsame.
  { intros g' evs -> -> ?. split_and!; [done|by rewrite (left_id_L ∅ _)|by apply sound_sends_none]. }
  destruct o as [o now|r now|r|clk| |clk|cn| | |v| | |f|f|l now|sym l| | |]; cbn [do_op];
    try (by apply Hsame; destruct g).
  - unfold submit_order, generate_order_id.
    destruct (negb (running_ g)); [by apply Hsame|].
    destruct (o_id o =? INVALID_ORDER_ID); destruct (_ <=? _)%nat; apply Hsame; by destruct g.
  - unfold cancel_order. destruct (negb (running_ g)); [by apply Hsame|].
    destruct (_ <=? _)%nat; apply Hsame; by destruct g.
  - unfold report_in. destruct (_ <=? _)%nat; apply Hsame; by destruct g.
  - destruct (order_queue_ g) as [|o q]; [by apply Hsame|]. set (g1 := { g with order_queue_ := q }).
    assert (routing_engine_ g1 = routing_engine_ g /\ venues_ g1 = venues_ g) as [E1 E2] by (by destruct g).
    pose proof (process_sends g1 o clk) as Hp. rewrite E1, E2 in Hp.
    destruct (process_single_order _ _ _) as [[? g'] evs]. rewrite (left_id_L ∅ _). by apply Hp.
  - destruct (cancel_queue_ g) as [|r q]; [by apply Hsame|]. apply Hsame; try (by destruct g).
    generalize { g with cancel_queue_ := q }. intros g1. unfold process_cancel. cbn [snd].
    destruct (ExecutionHandler.get_order _ _); [|done].
    induction (ExecutionHandler.get_children _ _) as [|c cs IH]; [done|]. cbn [mbind list_bind].
    rewrite sends_app, IH. destruct (ExecutionHandler.get_order _ c); [|done]. by destruct (_ && _).
  - destruct (report_queue_ g) as [|r q] eqn:Eq; [by apply Hsame|]. unfold process_report.
    destruct (ExecutionHandler.on_execution_report _ _ _) as [h effs].
    set (g2 := { _ with exec_handler_ := h }).
    assert (routing_engine_ g2 = routing_engine_ g /\ venues_ g2 = venues_ g) as [E1 E2] by (by destruct g).
    pose proof (callbacks_sends (fun i => clk (4 + i)%nat) effs g2 []) as Hp. cbv zeta in Hp.
    rewrite E1, E2 in Hp. rewrite (left_id_L ∅ _). apply Hp; [done|by apply sound_sends_none].
  - unfold initialize. set (g1 := { g with exec_handler_ ::= _ }).
    assert (forall vs, sends (connect_all cn vs).2 = []) as Hc.
    { induction vs as [|v vs IH]; cbn; [done|]. destruct (cn v); [|done]. by destruct (connect_all cn vs). }
    specialize (Hc (venue_list g1)). destruct (connect_all _ _) as [ok evs].
    apply Hsame; [by destruct g..|done].
  - unfold stop. destruct (negb _); [by apply Hsame|]. apply Hsame; try (by destruct g). cbn [snd].
    induction (venue_list g) as [|v vs IH]; [done|exact IH].
  - split_and!; [by destruct g|by destruct g|by apply sound_sends_none].
  - split_and!; [|destruct g; cbn; by rewrite (left_id_L ∅ _)|by apply sound_sends_none].
    destruct g. cbn in *. by eapply Hk.
Qed.

End fills.
