(* ===== verification/SimulatedExchange.v ===== *)
(** * Simulated exchange (sor/connectors/simulated_exchange.h, .cpp)

    The venue adapter with its matching engine.  The random draws are an
    arbitrary source, by order matched and by call site, and so are the clock
    readings; nothing proved depends on them.  [assert(remaining > 0)] is
    compiled out, as in a release build; the invariant [waiting] shows that
    it holds.  The reports handed to the execution callback are returned. *)

From S2P Require Import Prelude Double Types StateMachine ExecutionHandler.

Module SimulatedExchange.

(** The name, the jitter and the fee rate are left out: no operation reads them
    (the name only for logging). *)
Record Config := mkConfig {
  venue_id : VenueId;
  latency : Z;                          (* microseconds *)
  fill_probability : double;
  partial_fill_probability : double;
  reject_probability : double
}.

Record Stats := mkStats {
  orders_received : Z;
  orders_filled : Z;
  orders_partially_filled : Z;
  orders_rejected : Z;
  orders_canceled : Z
}.

Record InternalOrder := mkInternal {
  order : Order;
  received_time : Timestamp;
  pending_cancel : bool
}.

Record t := mk {
  config_ : Config;
  connected_ : bool;
  active_orders_ : gmap OrderId InternalOrder;
  pending_queue_ : list OrderId;
  market_bid_ : Price;
  market_ask_ : Price;
  stats_ : Stats;
  next_exec_id_ : Z;
  total_latency_ : Z;
  latency_samples_ : Z
}.

Definition create (config : Config) : t :=
  mk config false ∅ [] INVALID_PRICE INVALID_PRICE (mkStats 0 0 0 0 0) 1 0 0.

Definition connect (x : t) : bool * t :=
  if connected_ x then (false, x) else (true, { x with connected_ := true }).

Definition disconnect (x : t) : t := { x with connected_ := false }.

Definition avg_latency (x : t) : Z :=
  if latency_samples_ x =? 0 then latency (config_ x)
  else total_latency_ x /! latency_samples_ x.

Definition set_market_price (x : t) (bid ask : Price) : t :=
  { x with market_bid_ := bid; market_ask_ := ask }.

(** [next_exec_id_++] *)
Definition take_exec_id (x : t) : t := { x with next_exec_id_ ::= fun n => u64 (n + 1) }.

Definition send_order (x : t) (o : Order) (clk : nat -> Timestamp)
    : bool * t * list ExecutionReport :=
  if negb (connected_ x) then (false, x, [])
  else match active_orders_ x !! o_id o with
  | Some _ => (false, x, [])
  | None =>
      let ack := mkReport (o_id o) (next_exec_id_ x) Accepted 0 0 0 0 (o_quantity o)
                   (venue_id (config_ x)) (clk 1%nat) (FixedString.empty_string 64) in
      let x := { x with active_orders_ ::= fun a => <[o_id o := mkInternal o (clk 0%nat) false]> a;
                        pending_queue_ ::= fun q => q ++ [o_id o];
                        stats_ ::= fun s => { s with orders_received ::= fun n => u64 (n + 1) } } in
      (true, take_exec_id x, [ack])
  end.

Definition cancel_order (x : t) (request : CancelRequest) : bool * t :=
  if negb (connected_ x) then (false, x)
  else match active_orders_ x !! c_order_id request with
  | None => (false, x)
  | Some it =>
      (true, { x with active_orders_ ::= fun a =>
                 <[c_order_id request := { it with pending_cancel := true }]> a })
  end.

(** ** Report generators *)

Definition fill_average (o : Order) (prev_filled fill_price fill_qty : Z) : Order :=
  if o_filled_quantity o >? 0 then
    let old_component := dmul (d_of_Z (o_avg_fill_price o)) (d_of_Z prev_filled) in
    let new_component := dmul (d_of_Z fill_price) (d_of_Z fill_qty) in
    { o with o_avg_fill_price :=
        i64_of_d (ddiv (dadd old_component new_component) (d_of_Z (o_filled_quantity o))) }
  else o.

Definition generate_fill (x : t) (it : InternalOrder) (fill_price : Price) (fill_qty : Quantity)
    (clk : nat -> Timestamp) : t * InternalOrder * list ExecutionReport :=
  let o := order it in
  let prev_filled := o_filled_quantity o in
  let o := { o with o_filled_quantity := prev_filled +! fill_qty } in
  let new_remaining := o_quantity o -! o_filled_quantity o in
  let o := fill_average o prev_filled fill_price fill_qty in
  let is_full := new_remaining =? 0 in
  let report := mkReport (o_id o) (next_exec_id_ x) (if is_full then Filled else PartiallyFilled)
                  fill_price fill_qty (o_avg_fill_price o) (o_filled_quantity o) new_remaining
                  (venue_id (config_ x)) (clk 0%nat) (FixedString.empty_string 64) in
  let x := { take_exec_id x with
      stats_ ::= fun s => if is_full then { s with orders_filled ::= fun n => u64 (n + 1) }
                          else { s with orders_partially_filled ::= fun n => u64 (n + 1) };
      total_latency_ ::= fun l => l +! ((clk 1%nat -! received_time it) /! 1000);
      latency_samples_ ::= fun n => u64 (n + 1) } in
  (x, { it with order := o }, [report]).

(** A terminal report without a fill. *)
Definition closing_report (x : t) (o : Order) (s : OrderState) (text : FixedString.t)
    (clk : nat -> Timestamp) : ExecutionReport :=
  mkReport (o_id o) (next_exec_id_ x) s 0 0 (o_avg_fill_price o) (o_filled_quantity o) 0
           (venue_id (config_ x)) (clk 0%nat) text.

Definition generate_reject (x : t) (o : Order) (reason : string) (clk : nat -> Timestamp)
    : t * list ExecutionReport :=
  let report := closing_report x o Rejected (Text_of reason) clk in
  ({ take_exec_id x with stats_ ::= fun s => { s with orders_rejected ::= fun n => u64 (n + 1) } },
   [report]).

Definition generate_cancel_ack (x : t) (o : Order) (clk : nat -> Timestamp)
    : t * list ExecutionReport :=
  let report := closing_report x o Canceled (FixedString.empty_string 64) clk in
  ({ take_exec_id x with stats_ ::= fun s => { s with orders_canceled ::= fun n => u64 (n + 1) } },
   [report]).

(** ** Matching *)

(** The price an order executes at, when it is executable. *)
Definition executable_price (x : t) (o : Order) : option Price :=
  match o_type o, o_side o with
  | OT_Market, Buy =>
      if negb (market_ask_ x =? INVALID_PRICE) then Some (market_ask_ x) else None
  | OT_Market, Sell =>
      if negb (market_bid_ x =? INVALID_PRICE) then Some (market_bid_ x) else None
  | _, Buy =>
      if negb (market_ask_ x =? INVALID_PRICE) && (o_price o >=? market_ask_ x)
      then Some (market_ask_ x) else None
  | _, Sell =>
      if negb (market_bid_ x =? INVALID_PRICE) && (o_price o <=? market_bid_ x)
      then Some (market_bid_ x) else None
  end.

Definition is_ioc (o : Order) : bool :=
  bool_decide (o_type o = OT_IOC) || bool_decide (o_tif o = TIF_IOC).
Definition is_fok (o : Order) : bool :=
  bool_decide (o_type o = OT_FOK) || bool_decide (o_tif o = TIF_FOK).

(** An order that cannot trade now: rejected, canceled or kept. *)
Definition unmatched (x : t) (it : InternalOrder) (reason : string) (clk : nat -> Timestamp)
    : option InternalOrder * t * list ExecutionReport :=
  let o := order it in
  if is_fok o then let '(x, rs) := generate_reject x o reason clk in (None, x, rs)
  else if is_ioc o then let '(x, rs) := generate_cancel_ack x o clk in (None, x, rs)
  else (Some it, { x with pending_queue_ ::= fun q => q ++ [o_id o] }, []).

Definition clamp (v lo hi : Z) : Z := if v <? lo then lo else if hi <? v then hi else v.

(** [try_match]: the order as kept in the book, or [None] when it leaves it.
    [rnd] gives the draws and [clk] the clock readings by call site. *)
Definition try_match (x : t) (it : InternalOrder) (rnd : nat -> double) (clk : nat -> Timestamp)
    : option InternalOrder * t * list ExecutionReport :=
  let o := order it in
  if dltb (rnd 0%nat) (reject_probability (config_ x))
  then let '(x, rs) := generate_reject x o "Exchange rejected order" clk in (None, x, rs)
  else match executable_price x o with
  | None => unmatched x it "FOK order not fully executable" clk
  | Some fill_price =>
      if dgtb (rnd 1%nat) (fill_probability (config_ x))
      then unmatched x it "FOK fill probability miss" clk
      else
        let remaining := o_quantity o -! o_filled_quantity o in
        if is_fok o
        then let '(x, _, rs) := generate_fill x it fill_price remaining clk in (None, x, rs)
        else if dltb (rnd 2%nat) (partial_fill_probability (config_ x)) && (remaining >? 1)
        then
          let fill_qty := i64_of_d (dmul (d_of_Z remaining) (rnd 3%nat)) in
          let fill_qty := clamp fill_qty 1 (remaining -! 1) in
          let '(x, it, rs) := generate_fill x it fill_price fill_qty clk in
          if is_ioc o
          then let '(x, rs') := generate_cancel_ack x (order it) (fun i => clk (2 + i)%nat) in
               (None, x, rs ++ rs')
          else (Some it, { x with pending_queue_ ::= fun q => q ++ [o_id o] }, rs)
        else let '(x, _, rs) := generate_fill x it fill_price remaining clk in (None, x, rs)
  end.

(** One turn of the loop of [process_matching]. *)
Definition match_front (x : t) (rnd : nat -> double) (clk : nat -> Timestamp)
    : t * list ExecutionReport :=
  match pending_queue_ x with
  | [] => (x, [])
  | id :: q =>
      let x := { x with pending_queue_ := q } in
      match active_orders_ x !! id with
      | None => (x, [])
      | Some it =>
          if pending_cancel it
          then let '(x, rs) := generate_cancel_ack x (order it) clk in
               ({ x with active_orders_ ::= delete id }, rs)
          else
            let '(kept, x, rs) := try_match x it rnd clk in
            ({ x with active_orders_ ::= fun a =>
                 match kept with Some it => <[id := it]> a | None => delete id a end }, rs)
      end
  end.

Definition process_matching (x : t) (rnd : nat -> nat -> double) (clk : nat -> nat -> Timestamp)
    : t * list ExecutionReport :=
  fold_left (fun '(x, log) i => let '(x, rs) := match_front x (rnd i) (clk i) in (x, log ++ rs))
    (seq 0 (length (pending_queue_ x))) (x, []).

(** ** Histories *)

Inductive op :=
| Connect | Disconnect
| Send (o : Order) (clk : nat -> Timestamp)
| Cancel (request : CancelRequest)
| SetMarket (bid ask : Price)
| Match (rnd : nat -> nat -> double) (clk : nat -> nat -> Timestamp).

Definition do_op (x : t) (o : op) : t * list ExecutionReport :=
  match o with
  | Connect => ((connect x).2, [])
  | Disconnect => (disconnect x, [])
  | Send o clk => let '(_, x, rs) := send_order x o clk in (x, rs)
  | Cancel request => ((cancel_order x request).2, [])
  | SetMarket bid ask => (set_market_price x bid ask, [])
  | Match rnd clk => process_matching x rnd clk
  end.

Definition history (config : Config) (ops : list op) : t * list ExecutionReport :=
  fold_left (fun '(x, log) o => let '(x, rs) := do_op x o in (x, log ++ rs)) ops
    (create config, []).

(** The orders sent, in order. *)
Definition sent (ops : list op) : list Order :=
  omap (fun o => match o with Send o _ => Some o | _ => None end) ops.

(** The reports on one order. *)
Definition reports_on (id : OrderId) (log : list ExecutionReport) : list ExecutionReport :=
  List.filter (fun r => r_order_id r =? id) log.

(** ** The reports of an order *)

Definition within_limit (o : Order) (p : Price) : Prop :=
  o_type o = OT_Market \/
  match o_side o with Buy => p <= o_price o | Sell => o_price o <= p end.

(** Partial fills that take the cumulative quantity from [f] to [f']. *)
Fixpoint partials (o : Order) (f : Z) (rs : list ExecutionReport) (f' : Z) : Prop :=
  match rs with
  | [] => f' = f
  | r :: rs =>
      r_state r = PartiallyFilled /\ 0 < r_last_quantity r /\ within_limit o (r_last_price r) /\
      r_cum_quantity r = f + r_last_quantity r /\
      r_leaves_quantity r = o_quantity o - r_cum_quantity r /\
      r_cum_quantity r < o_quantity o /\ partials o (r_cum_quantity r) rs f'
  end.

(** The report that ends an order filled up to [f]. *)
Definition closing (o : Order) (f : Z) (r : ExecutionReport) : Prop :=
  (r_state r = Filled /\ 0 < r_last_quantity r /\ within_limit o (r_last_price r) /\
   f + r_last_quantity r = o_quantity o /\ r_cum_quantity r = o_quantity o /\
   r_leaves_quantity r = 0) \/
  ((r_state r = Canceled \/ r_state r = Rejected) /\ r_last_quantity r = 0 /\
   r_cum_quantity r = f /\ f < o_quantity o).

Definition acknowledged (o : Order) (r : ExecutionReport) : Prop :=
  r_state r = Accepted /\ r_last_quantity r = 0 /\ r_leaves_quantity r = o_quantity o.

(** An order in the book, filled up to [f]. *)
Definition live_log (o : Order) (rs : list ExecutionReport) (f : Z) : Prop :=
  exists ack ps, rs = ack :: ps /\ acknowledged o ack /\ partials o 0 ps f /\
    (is_fok o = true -> ps = []).

Definition closed_log (o : Order) (rs : list ExecutionReport) : Prop :=
  exists ack ps f fin, rs = ack :: ps ++ [fin] /\ acknowledged o ack /\ partials o 0 ps f /\
    closing o f fin /\ (is_fok o = true -> ps = []).

Lemma partials_app o f ps f1 qs f2 :
  partials o f ps f1 -> partials o f1 qs f2 -> partials o f (ps ++ qs) f2.
Proof.
  revert f; induction ps as [|r ps IH]; intros f; cbn; [by intros ->|].
  intros (? & ? & ? & ? & ? & ? & ?) ?. split_and!; try done. by apply IH.
Qed.

(** Fills add up: the quantities of the reports are the progress. *)
Lemma partials_sum o f ps f' : partials o f ps f' -> f' = f + sum_by r_last_quantity ps.
Proof.
  revert f; induction ps as [|r ps IH]; intros f; cbn; [intros ->; rewrite sum_by_nil; lia|].
  intros (_ & _ & _ & E & _ & _ & H). apply IH in H. rewrite sum_by_cons. lia.
Qed.

(** What the book keeps of an order: all but its fills. *)
Definition same_order (o o' : Order) : Prop :=
  o_id o' = o_id o /\ o_quantity o' = o_quantity o /\ o_price o' = o_price o /\
  o_side o' = o_side o /\ o_type o' = o_type o /\ o_tif o' = o_tif o.

Lemma same_limit o o' p : same_order o o' -> within_limit o' p -> within_limit o p.
Proof. unfold within_limit. intros (_ & _ & -> & -> & -> & _). done. Qed.

Lemma same_fok o o' : same_order o o' -> is_fok o' = is_fok o.
Proof. unfold is_fok. by intros (_ & _ & _ & _ & -> & ->). Qed.

Lemma closing_same o o' f r : same_order o o' -> closing o' f r -> closing o f r.
Proof.
  intros Hs. pose proof (same_limit o o' (r_last_price r) Hs) as Hl.
  destruct Hs as (_ & Eq & _). unfold closing. rewrite Eq. tauto.
Qed.

(** ** One order through the matching *)

Lemma executable_within x o p : executable_price x o = Some p -> within_limit o p.
Proof.
  unfold executable_price, within_limit.
  destruct (o_type o), (o_side o); try (by left); split_ifs; intros [= <-]; right;
    try discriminate; rewrite ?Z.geb_leb, ?Z.leb_le in *; lia.
Qed.

(** What a fill does, for a quantity that is left. *)
Lemma generate_fill_spec x it p q clk :
  0 <= o_filled_quantity (order it) -> 0 < q ->
  o_filled_quantity (order it) + q <= o_quantity (order it) <= INT64_MAX ->
  let '(x', it', rs) := generate_fill x it p q clk in
  active_orders_ x' = active_orders_ x /\ pending_queue_ x' = pending_queue_ x /\
  config_ x' = config_ x /\ same_order (order it) (order it') /\
  pending_cancel it' = pending_cancel it /\
  o_filled_quantity (order it') = o_filled_quantity (order it) + q /\
  exists r, rs = [r] /\ r_order_id r = o_id (order it) /\ r_last_quantity r = q /\
    r_last_price r = p /\ r_cum_quantity r = o_filled_quantity (order it) + q /\
    r_leaves_quantity r = o_quantity (order it) - r_cum_quantity r /\
    r_state r = (if o_filled_quantity (order it) + q =? o_quantity (order it)
                 then Filled else PartiallyFilled).
Proof.
  intros Hf Hq Hmax. unfold generate_fill.
  destruct x, it as [o tm pc]. cbn [order received_time pending_cancel] in *.
  set (o1 := { o with o_filled_quantity := _ }).
  assert (same_order o o1 /\ o_filled_quantity o1 = o_filled_quantity o + q) as [Hs Hf1].
  { subst o1. destruct o. cbn in *. split; [done|]. apply i64_id. mlia. }
  clearbody o1.
  assert (same_order o1 (fill_average o1 (o_filled_quantity o) p q) /\
    o_filled_quantity (fill_average o1 (o_filled_quantity o) p q) = o_filled_quantity o1) as [Hs2 Hf2]
    by (unfold fill_average; destruct (_ >? 0); by destruct o1).
  set (o2 := fill_average _ _ _ _) in *. clearbody o2.
  assert (same_order o o2) as Hso.
  { destruct Hs as (? & ? & ? & ? & ? & ?), Hs2 as (? & ? & ? & ? & ? & ?).
    unfold same_order. split_and!; congruence. }
  rewrite Hf1. pose proof (proj1 (proj2 Hs)) as Eq. rewrite Eq.
  rewrite (i64_id (o_quantity o - _)) by mlia.
  cbn. split_and!; try done; [congruence|].
  eexists. split; [done|]. cbn. split_and!; try done; try (apply Hso); try congruence.
  destruct (Z.eqb_spec (o_quantity o - (o_filled_quantity o + q)) 0),
      (Z.eqb_spec (o_filled_quantity o + q) (o_quantity o)); (done || lia).
Qed.

(** The outcome of matching one order filled up to [f]: kept with further
    partial fills, or out of the book with a closing report. *)
Definition match_outcome (it : InternalOrder) (f : Z) (kept : option InternalOrder)
    (x x' : t) (rs : list ExecutionReport) : Prop :=
  let o := order it in
  active_orders_ x' = active_orders_ x /\
  Forall (fun r => r_order_id r = o_id o) rs /\
  match kept with
  | Some it' =>
      pending_queue_ x' = pending_queue_ x ++ [o_id o] /\ same_order o (order it') /\
      pending_cancel it' = pending_cancel it /\ is_fok o = false /\ is_ioc o = false /\
      o_filled_quantity (order it') < o_quantity o /\
      partials o f rs (o_filled_quantity (order it'))
  | None =>
      pending_queue_ x' = pending_queue_ x /\
      exists ps f' fin, rs = ps ++ [fin] /\ partials o f ps f' /\ closing o f' fin /\
        (is_fok o = true -> ps = [])
  end.

(** An order as it waits in the book. *)
Definition waiting (it : InternalOrder) : Prop :=
  0 <= o_filled_quantity (order it) < o_quantity (order it) /\ o_quantity (order it) <= INT64_MAX.

Lemma closing_void (x : t) it s text clk :
  waiting it -> s = Canceled \/ s = Rejected ->
  closing (order it) (o_filled_quantity (order it)) (closing_report x (order it) s text clk).
Proof. intros [Hw _] Hs. right. cbn. split_and!; try done. lia. Qed.

Lemma generate_cancel_ack_spec x it clk :
  waiting it ->
  let '(x', rs) := generate_cancel_ack x (order it) clk in
  active_orders_ x' = active_orders_ x /\ pending_queue_ x' = pending_queue_ x /\
  exists fin, rs = [fin] /\ r_order_id fin = o_id (order it) /\
    closing (order it) (o_filled_quantity (order it)) fin.
Proof.
  intros Hw. unfold generate_cancel_ack. destruct x. cbn. split_and!; [done|done|].
  eexists. split_and!; [done|done|]. apply closing_void; [done|by left].
Qed.

Lemma exchange_cancel_outcome x it clk :
  waiting it ->
  let '(x', rs) := generate_cancel_ack x (order it) clk in
  match_outcome it (o_filled_quantity (order it)) None x x' rs.
Proof.
  intros Hw. pose proof (generate_cancel_ack_spec x it clk Hw) as Hc.
  destruct (generate_cancel_ack _ _ _) as [x' rs].
  destruct Hc as (? & ? & fin & -> & ? & ?). unfold match_outcome.
  split_and!; [done|by repeat constructor|done|]. by eexists [], _, fin.
Qed.

Lemma exchange_reject_outcome x it reason clk :
  waiting it ->
  let '(x', rs) := generate_reject x (order it) reason clk in
  match_outcome it (o_filled_quantity (order it)) None x x' rs.
Proof.
  intros Hw. unfold generate_reject, match_outcome. destruct x. cbn [fst].
  split_and!; [done|by repeat constructor|done|].
  eexists [], _, _. split_and!; [done|done| |done]. apply closing_void; [done|by right].
Qed.

Lemma unmatched_outcome x it reason clk :
  waiting it ->
  let '(kept, x', rs) := unmatched x it reason clk in
  match_outcome it (o_filled_quantity (order it)) kept x x' rs.
Proof.
  intros Hw. unfold unmatched. destruct (is_fok (order it)) eqn:Ef.
  - pose proof (exchange_reject_outcome x it reason clk Hw). by destruct (generate_reject _ _ _ _).
  - destruct (is_ioc (order it)) eqn:Ei.
    + pose proof (exchange_cancel_outcome x it clk Hw). by destruct (generate_cancel_ack _ _ _).
    + unfold match_outcome. destruct x. cbn. destruct Hw as [Hw _]. by split_and!; try done; try lia.
Qed.

Lemma clamp_range v lo hi : lo <= hi -> lo <= clamp v lo hi <= hi.
Proof. unfold clamp. destruct (Z.ltb_spec v lo), (Z.ltb_spec hi v); lia. Qed.

Lemma try_match_outcome x it rnd clk :
  waiting it ->
  let '(kept, x', rs) := try_match x it rnd clk in
  match_outcome it (o_filled_quantity (order it)) kept x x' rs.
Proof.
  intros Hw. unfold try_match. set (f := o_filled_quantity (order it)).
  destruct (dltb (rnd 0%nat) _).
  { pose proof (exchange_reject_outcome x it "Exchange rejected order" clk Hw).
    by destruct (generate_reject _ _ _ _). }
  destruct (executable_price x (order it)) as [p|] eqn:Ep; [|by apply unmatched_outcome].
  destruct (dgtb _ _); [by apply unmatched_outcome|].
  apply executable_within in Ep. pose proof Hw as [Hf Hmax]. fold f in Hf.
  rewrite (i64_id (o_quantity (order it) - _)) by (fold f; mlia). fold f.
  assert (let '(x', _, rs) := generate_fill x it p (o_quantity (order it) - f) clk in
    match_outcome it f None x x' rs) as Hfull.
  { pose proof (generate_fill_spec x it p (o_quantity (order it) - f) clk) as Hg. fold f in Hg.
    specialize (Hg ltac:(lia) ltac:(lia) ltac:(lia)).
    destruct (generate_fill _ _ _ _ _) as [[x' it'] rs].
    destruct Hg as (Ha & Hp & _ & _ & _ & _ & r & -> & Hid & Hl & Hpr & Hc & Hlv & Hst).
    unfold match_outcome. split_and!; [done|by repeat constructor|done|].
    exists [], f, r. split_and!; [done|done| |done]. left.
    replace (f + (o_quantity (order it) - f)) with (o_quantity (order it)) in * by lia.
    rewrite Z.eqb_refl in Hst. rewrite Hpr. split_and!; try done; lia. }
  destruct (is_fok (order it)) eqn:Efok.
  { by destruct (generate_fill x it p (o_quantity (order it) - f) clk) as [[? ?] ?]. }
  destruct (dltb (rnd 2%nat) _ && (o_quantity (order it) - f >? 1)) eqn:Epart.
  2: { by destruct (generate_fill x it p (o_quantity (order it) - f) clk) as [[? ?] ?]. }
  apply andb_true_iff in Epart as [_ Hgt%Z.gtb_lt].
  rewrite (i64_id (_ - 1)) by mlia.
  set (q := clamp _ 1 _). assert (1 <= q <= o_quantity (order it) - f - 1) as Hq
    by (apply clamp_range; lia). clearbody q.
  pose proof (generate_fill_spec x it p q clk) as Hg. fold f in Hg.
  specialize (Hg ltac:(lia) ltac:(lia) ltac:(lia)).
  destruct (generate_fill x it p q clk) as [[x1 it1] rs1].
  destruct Hg as (Ha & Hp & _ & Hs & Hpc & Hf1 & r & -> & Hid & Hl & Hpr & Hc & Hlv & Hst).
  rewrite (proj2 (Z.eqb_neq _ _)) in Hst by lia.
  assert (partials (order it) f [r] (f + q)) as Hpart.
  { cbn. rewrite Hl, Hpr, Hc. split_and!; try done; lia. }
  destruct (is_ioc (order it)) eqn:Eioc.
  - assert (waiting it1) as Hw1.
    { destruct Hs as (_ & Eq & _). unfold waiting. rewrite Eq, Hf1. lia. }
    pose proof (generate_cancel_ack_spec x1 it1 (fun i => clk (2 + i)%nat) Hw1) as Hcan.
    destruct (generate_cancel_ack x1 (order it1) _) as [x2 rs2].
    destruct Hcan as (Ha2 & Hp2 & fin & -> & Hid2 & Hcl). rewrite Hf1 in Hcl.
    unfold match_outcome. split_and!; [congruence| |congruence|].
    + destruct Hs as (Eid & _). repeat constructor; congruence.
    + exists [r], (f + q), fin. split; [done|]. split; [done|].
      split; [by eapply closing_same|by rewrite Efok].
  - clear Hfull Hst. unfold match_outcome. destruct x1. cbn in Ha, Hp. subst active_orders_0.
    split; [done|]. split; [by constructor|]. split; [cbn; congruence|].
    rewrite Hf1. split_and!; (done || lia).
Qed.

(** ** The book and the log along a history *)

(** What is known of a sent order: in the book with an open log, or out of it
    with a closed one, or refused. *)
Definition tracked (x : t) (log : list ExecutionReport) (o : Order) : Prop :=
  let rs := reports_on (o_id o) log in
  match active_orders_ x !! o_id o with
  | Some it => same_order o (order it) /\ waiting it /\
               live_log o rs (o_filled_quantity (order it))
  | None => rs = [] \/ closed_log o rs
  end.

Record Inv (S : list Order) (x : t) (log : list ExecutionReport) : Prop := {
  inv_tracked : Forall (tracked x log) S;
  inv_sent id it : active_orders_ x !! id = Some it -> exists o, o ∈ S /\ o_id o = id;
  inv_log r : r ∈ log -> exists o, o ∈ S /\ o_id o = r_order_id r;
  inv_nodup : NoDup (pending_queue_ x);
  inv_queue id : id ∈ pending_queue_ x <-> is_Some (active_orders_ x !! id)
}.

Lemma reports_on_app id l k : reports_on id (l ++ k) = reports_on id l ++ reports_on id k.
Proof. apply List.filter_app. Qed.

Lemma reports_on_all id rs :
  Forall (fun r => r_order_id r = id) rs -> reports_on id rs = rs.
Proof.
  induction 1 as [|r rs Hr _ IH]; [done|]. unfold reports_on in *. cbn.
  by rewrite Hr, Z.eqb_refl, IH.
Qed.

Lemma reports_on_none id rs :
  Forall (fun r => r_order_id r <> id) rs -> reports_on id rs = [].
Proof.
  induction 1 as [|r rs Hr _ IH]; [done|]. unfold reports_on in *. cbn.
  by rewrite (proj2 (Z.eqb_neq _ _) Hr), IH.
Qed.

Lemma partials_mono o f rs f' : partials o f rs f' -> f <= f'.
Proof.
  revert f; induction rs as [|r rs IH]; intros f; cbn; [lia|].
  intros (_ & ? & _ & ? & _ & _ & H). apply IH in H. lia.
Qed.

Lemma partials_same o o' f rs f' :
  same_order o o' -> partials o' f rs f' -> partials o f rs f'.
Proof.
  intros Hs. revert f; induction rs as [|r rs IH]; intros f; cbn; [done|].
  pose proof (same_limit o o' (r_last_price r) Hs). pose proof Hs as (_ & Eq & _).
  rewrite Eq. intros (? & ? & ? & ? & ? & ? & ?). split_and!; auto.
Qed.

Lemma same_order_trans o1 o2 o3 : same_order o1 o2 -> same_order o2 o3 -> same_order o1 o3.
Proof.
  intros (? & ? & ? & ? & ? & ?) (? & ? & ? & ? & ? & ?).
  unfold same_order. split_and!; congruence.
Qed.

(** Further partial fills of an order that is not fill-or-kill. *)
Lemma live_log_more o rs f ps f' :
  is_fok o = false -> live_log o rs f -> partials o f ps f' -> live_log o (rs ++ ps) f'.
Proof.
  intros Hf (ack & qs & -> & Ha & Hq & _) Hp. exists ack, (qs ++ ps).
  split_and!; [done|done|by eapply partials_app|by rewrite Hf].
Qed.

Lemma live_log_close o rs f ps f' fin :
  live_log o rs f -> partials o f ps f' -> closing o f' fin -> (is_fok o = true -> ps = []) ->
  closed_log o (rs ++ ps ++ [fin]).
Proof.
  intros (ack & qs & -> & Ha & Hq & Hk) Hp Hc Hk'. exists ack, (qs ++ ps), f', fin.
  split_and!; [by rewrite <- app_assoc|done|by eapply partials_app|done|].
  intros E. by rewrite (Hk E), (Hk' E).
Qed.

(** An order of the book, replaced or removed after its reports. *)
Definition settle (id : OrderId) (kept : option InternalOrder) (a : gmap OrderId InternalOrder) :=
  match kept with Some it => <[id := it]> a | None => delete id a end.

Lemma settle_ne id id' kept a : id <> id' -> settle id kept a !! id' = a !! id'.
Proof. intros. destruct kept; cbn; [by apply lookup_insert_ne|by apply lookup_delete_ne]. Qed.

Lemma settle_eq id kept a : settle id kept a !! id = kept.
Proof. destruct kept; cbn; [apply lookup_insert_eq|apply lookup_delete_eq]. Qed.

(** The order at hand after the outcome of its matching. *)
Lemma tracked_settled o it f kept x x' rs log :
  f = o_filled_quantity (order it) -> same_order o (order it) -> waiting it ->
  live_log o (reports_on (o_id o) log) f -> match_outcome it f kept x x' rs ->
  match kept with
  | Some it' => same_order o (order it') /\ waiting it' /\
      live_log o (reports_on (o_id o) log ++ rs) (o_filled_quantity (order it'))
  | None => closed_log o (reports_on (o_id o) log ++ rs)
  end.
Proof.
  intros Ef Hs Hw Hl (_ & _ & Hk). rewrite (same_fok _ _ Hs) in Hk.
  destruct kept as [it'|].
  - destruct Hk as (_ & Hs' & _ & Hfok & _ & Hlt & Hp).
    pose proof (partials_mono _ _ _ _ Hp). pose proof Hs' as (_ & Eq & _).
    split_and!; [by eapply same_order_trans| |].
    + unfold waiting in *. rewrite Eq. lia.
    + eapply live_log_more; [done|done|by eapply partials_same].
  - destruct Hk as (_ & ps & f' & fin & -> & Hp & Hc & Hfok).
    eapply live_log_close; [done|by eapply partials_same|by eapply closing_same|done].
Qed.

(** A book entry and the sent order it stands for. *)
Lemma inv_entry S x log id it :
  Inv S x log -> active_orders_ x !! id = Some it -> o_id (order it) = id /\ waiting it.
Proof.
  intros [Ht Hs _ _ _] E. destruct (Hs id it E) as (o & Ho & <-).
  rewrite Forall_forall in Ht. specialize (Ht o Ho). unfold tracked in Ht. rewrite E in Ht.
  destruct Ht as ((? & _) & ? & _). done.
Qed.

(** The front of the queue leaves the book or goes to the back. *)
Lemma settle_inv S x log id q it kept x1 x2 rs :
  Inv S x log -> pending_queue_ x = id :: q -> active_orders_ x !! id = Some it ->
  match_outcome it (o_filled_quantity (order it)) kept { x with pending_queue_ := q } x1 rs ->
  active_orders_ x2 = settle id kept (active_orders_ x1) ->
  pending_queue_ x2 = pending_queue_ x1 ->
  Inv S x2 (log ++ rs).
Proof.
  intros HI Eq E Hm Ea2 Eq2. destruct (inv_entry _ _ _ _ _ HI E) as [Eid Hw].
  destruct HI as [Ht Hs Hl Hn Hq]. pose proof Hm as (Ea & Hrs & Hk).
  assert (active_orders_ x1 = active_orders_ x) as Ea1 by (by rewrite Ea; destruct x).
  rewrite Ea1 in Ea2. rewrite Eid in Hrs. clear Ea Ea1.
  assert (pending_queue_ { x with pending_queue_ := q } = q) as Eq0 by (by destruct x).
  rewrite Eq0 in Hk. rewrite Eq in Hn, Hq. apply NoDup_cons in Hn as [Hnq Hnd].
  split.
  - rewrite Forall_forall in Ht |- *. intros o Ho. specialize (Ht o Ho). unfold tracked in *.
    rewrite reports_on_app, Ea2. destruct (decide (o_id o = id)) as [Eo|Hne].
    + clear Eid. subst id. rewrite settle_eq. rewrite E in Ht. destruct Ht as (Hso & _ & Hlive).
      rewrite (reports_on_all _ rs) by done.
      pose proof (tracked_settled o it _ kept _ x1 rs log eq_refl Hso Hw Hlive Hm).
      destruct kept; [done|by right].
    + rewrite settle_ne by congruence. rewrite (reports_on_none _ rs), app_nil_r; [done|].
      eapply Forall_impl; [exact Hrs|]. cbn. congruence.
  - intros id' it'. rewrite Ea2. destruct (decide (id = id')) as [<-|Hne]; [by eauto|].
    rewrite settle_ne by done. apply Hs.
  - intros r [Hr|Hr]%elem_of_app; [by apply Hl|].
    rewrite Forall_forall in Hrs. rewrite (Hrs r Hr). by eapply Hs.
  - rewrite Eq2. destruct kept; destruct Hk as [-> _]; [|done].
    rewrite Eid. apply NoDup_app. split_and!; [done| |apply NoDup_singleton].
    intros j Hj ->%list_elem_of_singleton. done.
  - intros id'. rewrite Eq2, Ea2. specialize (Hq id'). rewrite elem_of_cons in Hq.
    destruct (decide (id = id')) as [<-|Hne].
    + rewrite settle_eq. destruct kept; destruct Hk as [-> _].
      * rewrite elem_of_app, list_elem_of_singleton. split; [by eauto|by right].
      * split; [done|by intros []].
    + rewrite settle_ne by done. rewrite <- Hq. destruct kept; destruct Hk as [-> _].
      * rewrite elem_of_app, list_elem_of_singleton, Eid. split; [intros [?| ->]|intros [->|?]]; auto.
      * split; [by right|intros [->|?]; done].
Qed.

(** An order that a turn leaves in the book is not to be canceled and is
    neither immediate-or-cancel nor fill-or-kill. *)
Definition resting (it : InternalOrder) : Prop :=
  is_fok (order it) = false /\ is_ioc (order it) = false /\ pending_cancel it = false.

(** A turn serves the front of the queue; what it keeps goes to the back. *)
Lemma match_front_inv S x log id q rnd clk :
  Inv S x log -> pending_queue_ x = id :: q ->
  let '(x', rs) := match_front x rnd clk in
  Inv S x' (log ++ rs) /\
  (forall id', id' <> id -> active_orders_ x' !! id' = active_orders_ x !! id') /\
  (pending_queue_ x' = q \/
   pending_queue_ x' = q ++ [id] /\ exists it, active_orders_ x' !! id = Some it /\ resting it).
Proof.
  intros HI Eq. assert (is_Some (active_orders_ x !! id)) as [it E]
    by (apply (inv_queue _ _ _ HI); rewrite Eq; by left).
  destruct (inv_entry _ _ _ _ _ HI E) as [Eid Hw].
  set (x0 := { x with pending_queue_ := q }).
  assert (forall kept x1 x2 rs, match_outcome it (o_filled_quantity (order it)) kept x0 x1 rs ->
    pending_cancel it = false \/ kept = None ->
    active_orders_ x2 = settle id kept (active_orders_ x1) -> pending_queue_ x2 = pending_queue_ x1 ->
    Inv S x2 (log ++ rs) /\
    (forall id', id' <> id -> active_orders_ x2 !! id' = active_orders_ x !! id') /\
    (pending_queue_ x2 = q \/
     pending_queue_ x2 = q ++ [id] /\ exists it, active_orders_ x2 !! id = Some it /\ resting it))
    as Hmain.
  { intros kept x1 x2 rs Hm Hpc Ea Ep. split; [by eapply settle_inv|].
    assert (active_orders_ x0 = active_orders_ x /\ pending_queue_ x0 = q) as [Ea0 Eq0]
      by (subst x0; by destruct x).
    destruct Hm as (Ea1 & _ & Hk). rewrite Ea0 in Ea1. rewrite Eq0, Eid in Hk. rewrite Ea, Ea1, Ep.
    split; [intros; by apply settle_ne|]. rewrite settle_eq.
    destruct kept as [it'|]; [right|by left; apply Hk].
    destruct Hk as (Hq & (_ & _ & _ & _ & Ety & Etif) & Epc & Hf & Hi & _). split; [done|].
    exists it'. split; [done|]. unfold resting, is_fok, is_ioc in *. rewrite Ety, Etif, Epc.
    by destruct Hpc. }
  unfold match_front. rewrite Eq. fold x0.
  assert (active_orders_ x0 !! id = Some it) as -> by (subst x0; by destruct x).
  destruct (pending_cancel it) eqn:Epc.
  - pose proof (exchange_cancel_outcome x0 it clk Hw) as Hm. destruct (generate_cancel_ack _ _ _) as [x1 rs].
    apply (Hmain None x1); [done|by right|by destruct x1..].
  - pose proof (try_match_outcome x0 it rnd clk Hw) as Hm.
    destruct (try_match _ _ _ _) as [[kept x1] rs].
    apply (Hmain kept x1); [done|by left|by destruct x1..].
Qed.

(** The loop of [process_matching]: the orders not served yet are in front,
    those behind rest. *)
Lemma matching_loop S rnd clk todo done k x log :
  Inv S x log -> pending_queue_ x = todo ++ done ->
  (forall id it, id ∈ done -> active_orders_ x !! id = Some it -> resting it) ->
  let '(x', log') := fold_left (fun '(x, log) i =>
      let '(x, rs) := match_front x (rnd i) (clk i) in (x, log ++ rs))
    (seq k (length todo)) (x, log) in
  Inv S x' log' /\ forall id it, active_orders_ x' !! id = Some it -> resting it.
Proof.
  revert done k x log. induction todo as [|id todo IH]; intros don k x log HI Eq Hr.
  - cbn. split; [done|]. intros id it E. apply (Hr id it); [|done].
    change don with ([] ++ don). rewrite <- Eq. apply (inv_queue _ _ _ HI). by eauto.
  - cbn [length seq fold_left].
    pose proof (match_front_inv S x log id (todo ++ don) (rnd k) (clk k) HI Eq) as Hm.
    destruct (match_front _ _ _) as [x1 rs]. destruct Hm as (HI1 & Ho & Hq1).
    pose proof (inv_nodup _ _ _ HI) as Hnd. rewrite Eq in Hnd.
    apply NoDup_cons in Hnd as [Hni _]. rewrite elem_of_app in Hni.
    destruct Hq1 as [Hq1|(Hq1 & it & E1 & Hrest)].
    + apply (IH don); [done|done|]. intros id' it' Hin. rewrite Ho; [by apply Hr|].
      intros ->. tauto.
    + apply (IH (don ++ [id])); [done|by rewrite Hq1, app_assoc|].
      intros id' it' [Hin| ->%list_elem_of_singleton]%elem_of_app.
      * rewrite Ho; [by apply Hr|]. intros ->. tauto.
      * intros ?. by simplify_eq.
Qed.

Lemma process_matching_inv S x log rnd clk :
  Inv S x log ->
  let '(x', rs) := process_matching x rnd clk in
  Inv S x' (log ++ rs) /\ forall id it, active_orders_ x' !! id = Some it -> resting it.
Proof.
  intros HI.
  assert (forall l k0 x rs, fold_left (fun '(x, log) i =>
      let '(x, rs) := match_front x (rnd i) (clk i) in (x, log ++ rs)) l (x, k0 ++ rs) =
    let '(x', rs') := fold_left (fun '(x, log) i =>
      let '(x, rs) := match_front x (rnd i) (clk i) in (x, log ++ rs)) l (x, rs) in
    (x', k0 ++ rs')) as Hshift.
  { induction l as [|i l IH]; intros k0 y rs; [done|]. cbn.
    destruct (match_front y (rnd i) (clk i)) as [y' rs']. by rewrite <- app_assoc, IH. }
  pose proof (matching_loop S rnd clk (pending_queue_ x) [] 0 x log HI) as Hl.
  rewrite app_nil_r in Hl. specialize (Hl eq_refl ltac:(by intros id it Hin%not_elem_of_nil)).
  unfold process_matching. rewrite <- (app_nil_r log), Hshift in Hl.
  by destruct (fold_left _ _ _) as [x' rs].
Qed.

(** ** The other operations *)

(** An order as a client sends it. *)
Definition fresh (o : Order) : Prop :=
  o_filled_quantity o = 0 /\ 0 < o_quantity o <= INT64_MAX.

Lemma inv_create config : Inv [] (create config) [].
Proof.
  split; cbn.
  - constructor.
  - intros id it [=].
  - by intros r Hr%not_elem_of_nil.
  - constructor.
  - intros id. split; [by intros Hr%not_elem_of_nil|by intros []].
Qed.

(** The invariant looks at the book and the queue only, and at the orders of
    the book up to the cancel flag. *)
Lemma inv_same S x x' log :
  Inv S x log -> pending_queue_ x' = pending_queue_ x ->
  (forall id, order <$> (active_orders_ x' !! id) = order <$> (active_orders_ x !! id)) ->
  Inv S x' log.
Proof.
  intros [Ht Hs Hl Hn Hq] Eq Ea. split; [|intros id it E|done|by rewrite Eq|intros id; rewrite Eq, Hq].
  - eapply Forall_impl; [exact Ht|]. intros o. unfold tracked, waiting. specialize (Ea (o_id o)).
    destruct (active_orders_ x' !! o_id o), (active_orders_ x !! o_id o); cbn in Ea;
      [injection Ea as ->|..]; done.
  - specialize (Ea id). rewrite E in Ea. destruct (active_orders_ x !! id) eqn:E'; [|done].
    by eapply Hs.
  - specialize (Ea id). destruct (active_orders_ x' !! id), (active_orders_ x !! id); cbn in Ea;
      try done; split; by intros [].
Qed.

(** An order not sent before has no report and no entry in the book. *)
Lemma inv_unsent S x log id :
  Inv S x log -> (forall o, o ∈ S -> o_id o <> id) ->
  active_orders_ x !! id = None /\ reports_on id log = [].
Proof.
  intros [_ Hs Hl _ _] Hid. split.
  - destruct (_ !! _) as [it|] eqn:E; [|done]. destruct (Hs id it E) as (o & Ho & Eo).
    by destruct (Hid o Ho).
  - apply reports_on_none, Forall_forall. intros r Hr Er. destruct (Hl r Hr) as (o & Ho & Eo).
    apply (Hid o Ho). congruence.
Qed.

Lemma send_order_inv S x log o clk :
  Inv S x log -> fresh o -> (forall o', o' ∈ S -> o_id o' <> o_id o) ->
  let '(_, x', rs) := send_order x o clk in Inv (S ++ [o]) x' (log ++ rs).
Proof.
  intros HI [Hf Hq] Hid. destruct (inv_unsent S x log _ HI Hid) as [Hna Hnr].
  pose proof HI as [Ht Hs Hl Hn Hqu]. unfold send_order. rewrite Hna.
  destruct (connected_ x) eqn:Ec; cbn [negb].
  2: { rewrite app_nil_r. split; try done.
    - apply Forall_app. split; [done|]. constructor; [|done]. unfold tracked. rewrite Hna. by left.
    - intros id it E. destruct (Hs id it E) as (o' & ? & ?). exists o'. rewrite elem_of_app. eauto.
    - intros r Hr. destruct (Hl r Hr) as (o' & ? & ?). exists o'. rewrite elem_of_app. eauto. }
  set (ack := mkReport _ _ _ _ _ _ _ _ _ _ _). set (x' := take_exec_id _).
  assert (active_orders_ x' = <[o_id o := mkInternal o (clk 0%nat) false]> (active_orders_ x) /\
    pending_queue_ x' = pending_queue_ x ++ [o_id o]) as [Ea Eq] by (subst x'; by destruct x).
  clearbody x'. split.
  - apply Forall_app. split.
    + rewrite Forall_forall in *. intros o' Ho'. specialize (Ht o' Ho'). specialize (Hid o' Ho').
      unfold tracked in *. rewrite Ea, lookup_insert_ne by done.
      rewrite reports_on_app, (reports_on_none _ [ack]), app_nil_r; [done|].
      repeat constructor. cbn. congruence.
    + constructor; [|done]. unfold tracked. rewrite Ea, lookup_insert_eq, reports_on_app, Hnr.
      rewrite (reports_on_all _ [ack]) by (by repeat constructor). cbn [order].
      split_and!; [done|unfold waiting; cbn [order]; lia|]. exists ack, []. rewrite Hf. by cbn.
  - intros id it. rewrite Ea, lookup_insert_Some. intros [[<- _]|[_ E]].
    + exists o. rewrite elem_of_app, list_elem_of_singleton. eauto.
    + destruct (Hs id it E) as (o' & ? & ?). exists o'. rewrite elem_of_app. eauto.
  - intros r [Hr| ->%list_elem_of_singleton]%elem_of_app.
    + destruct (Hl r Hr) as (o' & ? & ?). exists o'. rewrite elem_of_app. eauto.
    + exists o. rewrite elem_of_app, list_elem_of_singleton. eauto.
  - rewrite Eq. apply NoDup_app. split_and!; [done| |apply NoDup_singleton].
    intros id Hin ->%list_elem_of_singleton. apply Hqu in Hin. rewrite Hna in Hin. by destruct Hin.
  - intros id. rewrite Eq, Ea, elem_of_app, list_elem_of_singleton, Hqu, lookup_insert_is_Some'.
    split; (intros [?|?]; [by right|by left]) || (intros [?|?]; [by right|by left]).
Qed.

Lemma cancel_order_inv S x log request :
  Inv S x log -> Inv S (cancel_order x request).2 log.
Proof.
  intros HI. unfold cancel_order. destruct (negb _); [done|].
  destruct (active_orders_ x !! c_order_id request) as [it|] eqn:E; [|done].
  eapply inv_same; [exact HI|by destruct x|]. intros id. destruct x. cbn in *.
  destruct (decide (c_order_id request = id)) as [<-|].
  - rewrite lookup_insert_eq, E. by destruct it.
  - by rewrite lookup_insert_ne.
Qed.

Lemma exchange_op_inv S x log o :
  Inv S x log ->
  Forall (fun o' => fresh o' /\ forall o'', o'' ∈ S -> o_id o'' <> o_id o') (sent [o]) ->
  Inv (S ++ sent [o]) (do_op x o).1 (log ++ (do_op x o).2).
Proof.
  intros HI Hs. destruct o; cbn in *; rewrite ?app_nil_r.
  - eapply inv_same; [exact HI|..]; unfold connect; destruct x; by destruct connected_0.
  - eapply inv_same; [exact HI|..]; by destruct x.
  - apply Forall_cons in Hs as [[Hf Hid] _]. pose proof (send_order_inv S x log o clk HI Hf Hid).
    by destruct (send_order _ _ _) as [[? ?] ?].
  - by apply cancel_order_inv.
  - eapply inv_same; [exact HI|..]; by destruct x.
  - pose proof (process_matching_inv S x log rnd clk HI) as Hm.
    destruct (process_matching x rnd clk). cbn. tauto.
Qed.

Lemma history_inv config ops :
  NoDup (o_id <$> sent ops) -> Forall fresh (sent ops) ->
  Inv (sent ops) (history config ops).1 (history config ops).2.
Proof.
  unfold history.
  apply (fold_left_inv _ (fun st done => NoDup (o_id <$> sent done) -> Forall fresh (sent done) ->
    Inv (sent done) st.1 st.2)); [intros _ _; apply inv_create|].
  intros [x log] done o _ IH. unfold sent in *. rewrite omap_app, fmap_app.
  rewrite NoDup_app, Forall_app. intros (Hn & Hd & _) [Hf Hfo].
  pose proof (exchange_op_inv (sent done) x log o (IH Hn Hf)) as Hstep.
  destruct (do_op x o) as [x' rs]. apply Hstep. unfold sent.
  rewrite Forall_forall in *. intros o' Ho'. split; [by apply Hfo|]. intros o'' Ho'' E.
  apply (Hd (o_id o'')); [by apply list_elem_of_fmap_2|]. rewrite E. by apply list_elem_of_fmap_2.
Qed.

(** The fills of an order: within its limit, and no more than its quantity. *)
Lemma partials_fills o f rs f' : partials o f rs f' ->
  Forall (fun r => 0 < r_last_quantity r /\ within_limit o (r_last_price r)) rs.
Proof.
  revert f; induction rs as [|r rs IH]; intros f; cbn; [by constructor|].
  intros (_ & ? & ? & _ & _ & _ & H). constructor; [done|]. by eapply IH.
Qed.

Lemma tracked_fills x log o : fresh o -> tracked x log o ->
  Forall (fun r => 0 <= r_last_quantity r /\ (0 < r_last_quantity r -> within_limit o (r_last_price r)))
    (reports_on (o_id o) log) /\
  sum_by r_last_quantity (reports_on (o_id o) log) <= o_quantity o.
Proof.
  intros [_ Hq] Ht. assert (forall r, acknowledged o r -> r_last_quantity r = 0) as Hack by (by intros r (_ & ? & _)).
  assert (forall ps f, partials o 0 ps f -> Forall (fun r => 0 <= r_last_quantity r /\
    (0 < r_last_quantity r -> within_limit o (r_last_price r))) ps) as Hps.
  { intros ps f Hp. eapply Forall_impl; [by eapply partials_fills|]. cbn. intros r [? ?]. split; [lia|done]. }
  assert ((exists f, live_log o (reports_on (o_id o) log) f /\ f < o_quantity o) \/
    reports_on (o_id o) log = [] \/ closed_log o (reports_on (o_id o) log)) as H.
  { unfold tracked in Ht. destruct (active_orders_ x !! o_id o) as [it|]; [|by right].
    destruct Ht as ((_ & Eq & _) & [Hw _] & Hl). rewrite Eq in Hw. left. eexists. split; [exact Hl|lia]. }
  destruct H as [(f & (ack & ps & -> & Ha & Hp & _) & Hf)|[->|(ack & ps & f & fin & -> & Ha & Hp & Hc & _)]].
  - rewrite sum_by_cons, (Hack _ Ha). pose proof (partials_sum _ _ _ _ Hp). split; [|lia].
    constructor; [rewrite (Hack _ Ha); lia|]. by eapply Hps.
  - split; [constructor|]. rewrite sum_by_nil. lia.
  - rewrite sum_by_cons, sum_by_app, sum_by_cons, sum_by_nil, (Hack _ Ha).
    pose proof (partials_sum _ _ _ _ Hp). split.
    + constructor; [rewrite (Hack _ Ha); lia|]. apply Forall_app. split; [by eapply Hps|]. constructor; [|done].
      destruct Hc as [(_ & ? & ? & _)|(_ & -> & _)]; [split; [lia|done]|lia].
    + destruct Hc as [(_ & ? & ? & ? & _)|(_ & -> & _ & ?)]; lia.
Qed.

(** ** Correctness *)

Definition active (x : t) (o : Order) : bool := bool_decide (is_Some (active_orders_ x !! o_id o)).

(** C28. The exchange keeps its protocol with every client that sends fresh
    orders under distinct identifiers, whatever the draws, the clock, the
    market and the order of the calls.  Each order is refused with no report;
    or it is in the book, acknowledged first and then partially filled in
    steps that add up; or it has left the book with exactly one final report,
    a fill of the rest or a cancel or reject at the quantity filled so far.
    Fills respect the limit price, a fill-or-kill order has no partial fill,
    and the orders of the book are exactly the ones waiting in the queue. *)
Theorem exchange_protocol config ops o :
  NoDup (o_id <$> sent ops) -> Forall fresh (sent ops) -> o ∈ sent ops ->
  let '(x, log) := history config ops in
  let rs := reports_on (o_id o) log in
  (rs = [] /\ active x o = false \/
   (exists f, live_log o rs f /\ 0 <= f < o_quantity o /\ active x o = true) \/
   closed_log o rs /\ active x o = false) /\
  NoDup (pending_queue_ x) /\ (active x o = true <-> o_id o ∈ pending_queue_ x).
Proof.
  intros Hn Hf Ho. pose proof (history_inv config ops Hn Hf) as [Ht _ _ Hnd Hq].
  destruct (history config ops) as [x log]. cbn [fst snd] in *.
  rewrite Forall_forall in Ht. specialize (Ht o Ho). unfold tracked in Ht. unfold active.
  rewrite Hq, bool_decide_eq_true, bool_decide_eq_false. split; [|done].
  destruct (active_orders_ x !! o_id o) as [it|] eqn:E.
  - right; left. destruct Ht as ((_ & Eq & _) & [Hw _] & Hl). rewrite Eq in Hw. by eauto 6.
  - destruct Ht; [left|right; right]; (split; [done|by intros []]).
Qed.

(** Matching settles the orders that may not wait: after
    [process_matching] every order left in the book is neither
    immediate-or-cancel nor fill-or-kill and has no cancel pending. *)
Theorem process_matching_settles config ops rnd clk id it :
  NoDup (o_id <$> sent ops) -> Forall fresh (sent ops) ->
  active_orders_ (history config (ops ++ [Match rnd clk])).1 !! id = Some it ->
  is_fok (order it) = false /\ is_ioc (order it) = false /\ pending_cancel it = false.
Proof.
  intros Hn Hf. pose proof (history_inv config ops Hn Hf) as Hi. unfold history in *.
  rewrite fold_left_app. destruct (fold_left _ ops _) as [x log]. cbn.
  pose proof (process_matching_inv _ x log rnd clk Hi) as Hm.
  destruct (process_matching x rnd clk). apply Hm.
Qed.

(** *** Examples *)

Definition half : double := d_lit 5 1.
Definition sample_config : Config := mkConfig 1 1000 (d_of_Z 1) (d_of_Z 1) half.

Definition sample_order (id : OrderId) (ty : OrderType) : Order :=
  mkOrder id 0 0 (FixedString.empty_string 16) Buy ty TIF_GTC 100 10 0 10 0 1 RS_SmartIOC PendingNew
    (FixedString.empty_string 32) 0 0 0.

(** A limit order and an immediate-or-cancel order, partially filled by the
    first matching; the second one rejects the limit order. *)
Definition sample_ops : list op :=
  [Connect; SetMarket 90 95; Send (sample_order 7 OT_Limit) (fun _ => 0);
   Send (sample_order 8 OT_IOC) (fun _ => 0); Match (fun _ _ => half) (fun _ _ => 0)].
Definition sample_reject : op := Match (fun _ _ => d_of_Z 0) (fun _ _ => 0).

Lemma exchange_protocol_witness :
  let '(x, log) := history sample_config (sample_ops ++ [sample_reject]) in
  map r_state (reports_on 7 log) = [Accepted; PartiallyFilled; Rejected] /\
  map r_state (reports_on 8 log) = [Accepted; PartiallyFilled; Canceled] /\
  (reports_on 7 log = [] /\ active x (sample_order 7 OT_Limit) = false \/
   (exists f, live_log (sample_order 7 OT_Limit) (reports_on 7 log) f /\ 0 <= f < 10 /\
      active x (sample_order 7 OT_Limit) = true) \/
   closed_log (sample_order 7 OT_Limit) (reports_on 7 log) /\
      active x (sample_order 7 OT_Limit) = false).
Proof.
  pose proof (exchange_protocol sample_config (sample_ops ++ [sample_reject]) (sample_order 7 OT_Limit)
    ltac:(vm_compute; repeat constructor; set_solver) ltac:(repeat constructor; done)
    ltac:(by left)) as Hp.
  assert (let '(_, log) := history sample_config (sample_ops ++ [sample_reject]) in
    map r_state (reports_on 7 log) = [Accepted; PartiallyFilled; Rejected] /\
    map r_state (reports_on 8 log) = [Accepted; PartiallyFilled; Canceled])
    as H by (vm_compute; split; reflexivity).
  destruct (history _ _) as [x log]. split; [apply H|]. split; [apply H|]. apply Hp.
Defined.

Lemma process_matching_settles_witness :
  exists it, active_orders_ (history sample_config sample_ops).1 !! 7 = Some it /\
  is_fok (order it) = false /\ is_ioc (order it) = false /\ pending_cancel it = false.
Proof.
  assert (exists it, active_orders_ (history sample_config sample_ops).1 !! 7 = Some it) as [it E]
    by (eexists; vm_compute; reflexivity).
  exists it. split; [exact E|].
  apply (process_matching_settles sample_config (take 4 sample_ops) (fun _ _ => half) (fun _ _ => 0) 7);
    [vm_compute; repeat constructor; set_solver|repeat constructor; done|exact E].
Defined.

(** A reject after a partial fill is no transition of the order state machine:
    the exchange may reject an order it has partially filled, the handler then
    refuses the report, and the order stays partially filled there although
    the exchange has dropped it. *)
Theorem reject_after_partial_fill_lost :
  let '(x, log) := history sample_config (sample_ops ++ [sample_reject]) in
  let handler := ExecutionHandler.track_order ExecutionHandler.create (sample_order 7 OT_Limit) in
  let handler := fold_left (fun h r => (ExecutionHandler.on_execution_report h r (fun _ => 0)).1)
    (reports_on 7 log) handler in
  map r_state (reports_on 7 log) = [Accepted; PartiallyFilled; Rejected] /\
  active x (sample_order 7 OT_Limit) = false /\
  o_state <$> ExecutionHandler.get_order handler 7 = Some PartiallyFilled /\
  o_filled_quantity <$> ExecutionHandler.get_order handler 7 = Some 5.
Proof. vm_compute. split_and!; reflexivity. Qed.

End SimulatedExchange.
