(* ===== verification/Codec.v ===== *)
(** * Message framing and payloads (luft/src/core/net/protocol.h,
    message_codec.h, message_codec.cpp)

    The length-prefixed frames of the simulation's network protocol and the
    payloads inside them.  A byte is a [Z] between 0 and 255, a [double] its
    64-bit pattern.  [htonl] and [htons] give network byte order; the doubles
    travel in the byte order of the host, little-endian on x86-64.  A copy
    that would leave its buffer has no result. *)

From S2P Require Import Prelude.
From Equations Require Import Equations.

(** ** Bytes *)

Definition is_byte (b : Z) : Prop := 0 <= b < 256.
Abbreviation bytes := (Forall is_byte).

#[export] Instance is_byte_dec b : Decision (is_byte b).
Proof. unfold is_byte; apply _. Defined.

(** The [n] low bytes of a number, most significant first. *)
Fixpoint big_endian (n : nat) (z : Z) : list Z :=
  match n with
  | O => []
  | S n => big_endian n (z / 256) ++ [z mod 256]
  end.

Definition of_big_endian (l : list Z) : Z := fold_left (fun acc b => acc * 256 + b) l 0.

Definition little_endian (n : nat) (z : Z) : list Z := rev (big_endian n z).
Definition of_little_endian (l : list Z) : Z := of_big_endian (rev l).

(** [memcpy] into a buffer at an offset. *)
Definition memcpy (dst : list Z) (off : nat) (src : list Z) : option (list Z) :=
  if (off + length src <=? length dst)%nat
  then Some (take off dst ++ src ++ drop (off + length src) dst) else None.

Lemma big_endian_length n z : length (big_endian n z) = n.
Proof. revert z; induction n as [|n IH]; intros z; cbn; [done|]. rewrite length_app, IH. cbn. lia. Qed.

Lemma big_endian_bytes n z : bytes (big_endian n z).
Proof.
  revert z; induction n as [|n IH]; intros z; cbn; [by constructor|].
  apply Forall_app. split; [done|]. apply Forall_singleton. apply Z.mod_pos_bound. lia.
Qed.

Lemma of_big_endian_app l b : of_big_endian (l ++ [b]) = of_big_endian l * 256 + b.
Proof. unfold of_big_endian. by rewrite fold_left_app. Qed.

Lemma of_big_endian_range l : bytes l -> 0 <= of_big_endian l < 256 ^ Z.of_nat (length l).
Proof.
  induction l as [|b l IH] using rev_ind; [done|]. intros [Hl Hb]%Forall_app.
  apply Forall_cons in Hb as [Hb _]. specialize (IH Hl). unfold is_byte in Hb.
  rewrite of_big_endian_app, length_app, Nat2Z.inj_add, Z.pow_add_r by lia. cbn. lia.
Qed.

(** Encoding and decoding a number are inverse to each other. *)
Lemma of_big_endian_big_endian n z :
  0 <= z < 256 ^ Z.of_nat n -> of_big_endian (big_endian n z) = z.
Proof.
  revert z; induction n as [|n IH]; intros z Hz; cbn [big_endian]; [cbn in Hz |- *; lia|].
  rewrite of_big_endian_app, IH; [pose proof (Z.div_mod z 256); lia|].
  rewrite Nat2Z.inj_succ, Z.pow_succ_r in Hz by lia.
  split; [apply Z.div_pos; lia|apply Z.div_lt_upper_bound; lia].
Qed.

Lemma big_endian_of_big_endian l : bytes l -> big_endian (length l) (of_big_endian l) = l.
Proof.
  induction l as [|b l IH] using rev_ind; [done|]. intros [Hl Hb]%Forall_app.
  apply Forall_cons in Hb as [Hb _]. unfold is_byte in Hb.
  rewrite of_big_endian_app, length_app, Nat.add_1_r. cbn [big_endian].
  rewrite Z.div_add_l, (Z.div_small b), Z.add_0_r, IH by (done || lia).
  by rewrite (Z.add_comm _ b), Z_mod_plus_full, Z.mod_small by lia.
Qed.

Lemma of_little_endian_little_endian n z :
  0 <= z < 256 ^ Z.of_nat n -> of_little_endian (little_endian n z) = z.
Proof.
  intros Hz. unfold of_little_endian, little_endian. rewrite rev_involutive.
  by apply of_big_endian_big_endian.
Qed.

Lemma little_endian_length n z : length (little_endian n z) = n.
Proof. unfold little_endian. by rewrite length_rev, big_endian_length. Qed.

(** ** Protocol *)

Definition Telemetry : Z := 1.
Definition ControlInputType : Z := 2.
Definition SimCommand : Z := 3.
Definition ConfigUpdate : Z := 4.
Definition Ack : Z := 16.
Definition Nack : Z := 17.

Inductive SimCommandType := CmdStart | CmdPause | CmdResume | CmdReset | CmdStop.

#[export] Instance SimCommandType_eq_dec : EqDecision SimCommandType.
Proof. solve_decision. Defined.

Definition SimCommandType_code (c : SimCommandType) : Z :=
  match c with CmdStart => 1 | CmdPause => 2 | CmdResume => 3 | CmdReset => 4 | CmdStop => 5 end.

Record MessageHeader := mkHeader {
  hdr_length : Z;
  hdr_type : Z;
  hdr_sequence : Z
}.

Definition kHeaderSize : Z := 8.
Definition kMaxMessageSize : Z := 65536.

(** The bytes [pack_header] writes. *)
Definition pack_header (hdr : MessageHeader) : list Z :=
  big_endian 4 (hdr_length hdr) ++ big_endian 2 (hdr_type hdr) ++ big_endian 2 (hdr_sequence hdr).

Definition unpack_header (src : list Z) : MessageHeader :=
  mkHeader (of_big_endian (take 4 src)) (of_big_endian (take 2 (drop 4 src)))
           (of_big_endian (take 2 (drop 6 src))).

(** ** Frames *)

Module MessageCodec.

Record FramedMessage := mkMessage {
  type : Z;
  sequence : Z;
  payload : list Z
}.

Record t := mk {
  recv_buf_ : list Z;
  messages_ : list FramedMessage
}.

Definition create : t := mk [] [].

Definition encode (type sequence : Z) (payload : list Z) : option (list Z) :=
  let total := u32 (kHeaderSize + Z.of_nat (length payload)) in
  let buf := replicate (Z.to_nat total) 0 in
  match memcpy buf 0 (pack_header (mkHeader total type sequence)) with
  | None => None
  | Some buf =>
      if (0 <? length payload)%nat then memcpy buf (Z.to_nat kHeaderSize) payload else Some buf
  end.

(** One turn of the loop of [try_parse]: the state it returns with, or the
    state it goes on with. *)
Definition parse_step (c : t) : t + t :=
  if Z.of_nat (length (recv_buf_ c)) <? kHeaderSize then inl c
  else
    let hdr := unpack_header (recv_buf_ c) in
    if (hdr_length hdr <? kHeaderSize) || (hdr_length hdr >? kMaxMessageSize)
    then inl { c with recv_buf_ := [] }
    else if Z.of_nat (length (recv_buf_ c)) <? hdr_length hdr then inl c
    else
      let payload_len := hdr_length hdr - kHeaderSize in
      let msg := mkMessage (hdr_type hdr) (hdr_sequence hdr)
        (take (Z.to_nat payload_len) (drop (Z.to_nat kHeaderSize) (recv_buf_ c))) in
      inr (mk (drop (Z.to_nat (hdr_length hdr)) (recv_buf_ c)) (messages_ c ++ [msg])).

(** A turn that goes on has shortened the buffer. *)
Lemma parse_step_shrinks c c' :
  parse_step c = inr c' -> (length (recv_buf_ c') < length (recv_buf_ c))%nat.
Proof.
  unfold parse_step. set (n := hdr_length _).
  destruct (Z.ltb_spec (Z.of_nat (length (recv_buf_ c))) kHeaderSize); [done|].
  destruct (Z.ltb_spec n kHeaderSize); [done|]. cbn [orb].
  destruct (n >? _); [done|]. destruct (Z.ltb_spec (Z.of_nat (length (recv_buf_ c))) n); [done|].
  intros [= <-]. cbn [recv_buf_]. rewrite length_drop. unfold kHeaderSize in *. lia.
Qed.

Definition inspect {A} (x : A) : { y : A | x = y } := exist _ x eq_refl.

(** The loop; it ends since every turn takes a whole message off the buffer. *)
Equations? try_parse (c : t) : t by wf (length (recv_buf_ c)) lt :=
  try_parse c with inspect (parse_step c) => {
    | exist _ (inl c') _ => c'
    | exist _ (inr c') _ => try_parse c' }.
Proof. by apply parse_step_shrinks. Qed.

Definition feed (c : t) (data : list Z) : t :=
  try_parse { c with recv_buf_ ::= fun b => b ++ data }.

Definition has_message (c : t) : bool := negb (bool_decide (messages_ c = [])).

(** The front of the queue; undefined when there is none. *)
Definition pop_message (c : t) : option (FramedMessage * t) :=
  match messages_ c with
  | [] => None
  | msg :: rest => Some (msg, { c with messages_ := rest })
  end.

(** ** What a byte stream says *)

(** A message whose frame the protocol admits. *)
Definition valid_message (m : FramedMessage) : Prop :=
  0 <= type m < 65536 /\ 0 <= sequence m < 65536 /\ bytes (payload m) /\
  Z.of_nat (length (payload m)) <= kMaxMessageSize - kHeaderSize.

#[export] Instance valid_message_dec m : Decision (valid_message m).
Proof. unfold valid_message; apply _. Defined.

(** The frame of a message: the header in network byte order, the payload. *)
Definition frame (m : FramedMessage) : list Z :=
  pack_header (mkHeader (kHeaderSize + Z.of_nat (length (payload m))) (type m) (sequence m))
    ++ payload m.

Definition frames (ms : list FramedMessage) : list Z := ms ≫= frame.

Definition length_ok (buf : list Z) : bool :=
  let n := hdr_length (unpack_header buf) in (kHeaderSize <=? n) && (n <=? kMaxMessageSize).

(** The buffer holds less than a whole message. *)
Definition incomplete (buf : list Z) : Prop :=
  Z.of_nat (length buf) < kHeaderSize \/
  length_ok buf = true /\ Z.of_nat (length buf) < hdr_length (unpack_header buf).

(** The buffer starts with a header no message has. *)
Definition malformed (buf : list Z) : Prop :=
  kHeaderSize <= Z.of_nat (length buf) /\ length_ok buf = false.

Lemma pack_header_length h : length (pack_header h) = 8%nat.
Proof. unfold pack_header. by rewrite !length_app, !big_endian_length. Qed.

(** Packing and unpacking a header are inverse to each other. *)
Lemma unpack_pack_header h r :
  0 <= hdr_length h < 2 ^ 32 -> 0 <= hdr_type h < 65536 -> 0 <= hdr_sequence h < 65536 ->
  unpack_header (pack_header h ++ r) = h.
Proof.
  intros Hl Ht Hs. unfold unpack_header, pack_header. rewrite <- !app_assoc.
  rewrite take_app_length' by (by rewrite big_endian_length).
  rewrite (drop_app_length' _ _ 4) by (by rewrite big_endian_length).
  rewrite take_app_length' by (by rewrite big_endian_length).
  change 6%nat with (4 + 2)%nat. rewrite <- drop_drop.
  rewrite drop_app_length' by (by rewrite big_endian_length).
  rewrite drop_app_length' by (by rewrite big_endian_length).
  rewrite take_app_length' by (by rewrite big_endian_length).
  rewrite !of_big_endian_big_endian by (cbn; lia). by destruct h.
Qed.

Lemma pack_unpack_header b :
  bytes b -> length b = 8%nat -> pack_header (unpack_header b) = b.
Proof.
  intros Hb Hl. unfold pack_header, unpack_header. cbn [hdr_length hdr_type hdr_sequence].
  pose proof (big_endian_of_big_endian (take 4 b)) as E1.
  pose proof (big_endian_of_big_endian (take 2 (drop 4 b))) as E2.
  pose proof (big_endian_of_big_endian (take 2 (drop 6 b))) as E3.
  rewrite length_take, Hl in E1. rewrite length_take, length_drop, Hl in E2, E3.
  cbn [Nat.min Nat.sub] in E1, E2, E3.
  rewrite E1, E2, E3 by (by repeat first [apply Forall_take | apply Forall_drop]).
  rewrite (take_ge (drop 6 b)) by (rewrite length_drop; lia).
  change 6%nat with (4 + 2)%nat. rewrite <- drop_drop, take_drop, take_drop. done.
Qed.

Lemma frame_length m : Z.of_nat (length (frame m)) = kHeaderSize + Z.of_nat (length (payload m)).
Proof. unfold frame. rewrite length_app, pack_header_length. unfold kHeaderSize. lia. Qed.

Lemma unpack_frame m r :
  valid_message m ->
  unpack_header (frame m ++ r) =
    mkHeader (kHeaderSize + Z.of_nat (length (payload m))) (type m) (sequence m).
Proof.
  intros (Ht & Hs & _ & Hl). unfold frame. rewrite <- app_assoc.
  apply unpack_pack_header; cbn; unfold kHeaderSize, kMaxMessageSize in *; lia.
Qed.

Lemma frames_bytes ms : Forall valid_message ms -> bytes (frames ms).
Proof.
  induction 1 as [|m ms Hm _ IH]; [constructor|]. change (frames (m :: ms)) with (frame m ++ frames ms).
  apply Forall_app. split; [|done]. unfold frame, pack_header. rewrite !Forall_app.
  split_and!; try apply big_endian_bytes. apply Hm.
Qed.

(** [encode] builds the frame of a valid message. *)
Lemma encode_frame m :
  valid_message m -> encode (type m) (sequence m) (payload m) = Some (frame m).
Proof.
  intros (Ht & Hs & Hb & Hl). unfold encode, memcpy, frame.
  unfold kMaxMessageSize in Hl.
  rewrite (u32_id (kHeaderSize + _)) by (unfold in_u32, kHeaderSize in *; lia).
  set (n := kHeaderSize + _). set (h := pack_header _).
  assert (length h = 8%nat) as Eh by apply pack_header_length.
  assert (Z.to_nat n = 8 + length (payload m))%nat as En by (unfold n, kHeaderSize; lia).
  rewrite length_replicate, En, Eh, (proj2 (Nat.leb_le (0 + 8) _)) by lia.
  rewrite take_0, drop_replicate. cbn [app]. replace (8 + _ - (0 + 8))%nat with (length (payload m)) by lia.
  destruct (payload m) as [|b l] eqn:El; [done|].
  rewrite <- El. rewrite (proj2 (Nat.ltb_lt 0 _)) by (rewrite El; cbn; lia).
  change (Z.to_nat kHeaderSize) with 8%nat.
  rewrite (proj2 (Nat.leb_le _ _)) by (rewrite length_app, length_replicate; lia).
  rewrite take_app_length' by done. rewrite drop_ge, app_nil_r by (rewrite length_app, length_replicate; lia).
  done.
Qed.

(** ** One turn of the parser *)

(** A buffer with less than a message, with a malformed header, or that
    starts with a frame. *)
Inductive parse_case (c : t) : t + t -> Prop :=
| case_wait : incomplete (recv_buf_ c) -> parse_case c (inl c)
| case_bad : malformed (recv_buf_ c) -> parse_case c (inl (mk [] (messages_ c)))
| case_frame m rest : recv_buf_ c = frame m ++ rest -> valid_message m ->
    parse_case c (inr (mk rest (messages_ c ++ [m]))).

Lemma parse_step_case c : bytes (recv_buf_ c) -> parse_case c (parse_step c).
Proof.
  intros Hb. unfold parse_step. set (h := unpack_header (recv_buf_ c)).
  destruct (Z.ltb_spec (Z.of_nat (length (recv_buf_ c))) kHeaderSize) as [Hs|Hs].
  { apply case_wait. by left. }
  destruct ((hdr_length h <? kHeaderSize) || (hdr_length h >? kMaxMessageSize)) eqn:Eok.
  { destruct c as [b ms]. apply (case_bad (mk b ms)). split; [done|]. unfold length_ok. fold h.
    rewrite Z.gtb_ltb in Eok. apply orb_true_iff in Eok as [E%Z.ltb_lt|E%Z.ltb_lt];
      rewrite ?(proj2 (Z.leb_gt _ _) E), ?andb_false_r; done. }
  apply orb_false_iff in Eok as [E1%Z.ltb_ge E2]. rewrite Z.gtb_ltb in E2. apply Z.ltb_ge in E2.
  destruct (Z.ltb_spec (Z.of_nat (length (recv_buf_ c))) (hdr_length h)) as [Hl|Hl].
  { apply case_wait. right. unfold length_ok. fold h. by rewrite !(proj2 (Z.leb_le _ _)). }
  set (b := recv_buf_ c) in *. set (k := Z.to_nat (hdr_length h - kHeaderSize)).
  set (m := mkMessage _ _ _).
  assert (length (payload m) = k) as Ek
    by (cbn; rewrite length_take, length_drop; unfold kHeaderSize in *; lia).
  assert (hdr_length h = kHeaderSize + Z.of_nat (length (payload m))) as Eh
    by (unfold kHeaderSize in *; lia).
  assert (bytes (take 8 b)) as Hb8 by (by apply Forall_take).
  assert (valid_message m) as Hv.
  { pose proof (of_big_endian_range (take 2 (drop 4 b)) ltac:(by repeat first [apply Forall_take|apply Forall_drop])) as H1.
    pose proof (of_big_endian_range (take 2 (drop 6 b)) ltac:(by repeat first [apply Forall_take|apply Forall_drop])) as H2.
    rewrite length_take, length_drop in H1, H2. unfold kHeaderSize in Hs.
    replace (2 `min` (length b - 4))%nat with 2%nat in H1 by lia.
    replace (2 `min` (length b - 6))%nat with 2%nat in H2 by lia.
    split; [exact H1|]. split; [exact H2|]. split; [by apply Forall_take, Forall_drop|lia]. }
  assert (b = frame m ++ drop (Z.to_nat (hdr_length h)) b) as Efr.
  { unfold frame. rewrite <- Eh. replace (mkHeader _ _ _) with (unpack_header (take 8 b)).
    - rewrite pack_unpack_header by (rewrite ?length_take; unfold kHeaderSize in *; (done || lia)).
      rewrite <- (take_drop 8 b) at 1. rewrite <- app_assoc. f_equal.
      rewrite <- (take_drop k (drop 8 b)) at 1. f_equal.
      rewrite drop_drop. f_equal. unfold k, kHeaderSize in *. lia.
    - unfold m, h, unpack_header. cbn [hdr_length hdr_type hdr_sequence type sequence].
      rewrite !take_drop_commute, !take_take. done. }
  apply case_frame; [exact Efr|exact Hv].
Qed.

(** ** The whole loop *)

Lemma bytes_app l k : bytes (l ++ k) <-> bytes l /\ bytes k.
Proof. apply Forall_app. Qed.

(** The loop takes off the frames in front and stops at what is no frame:
    it keeps an incomplete rest and throws a malformed one away. *)
Lemma try_parse_spec c :
  bytes (recv_buf_ c) ->
  exists new tail, recv_buf_ c = frames new ++ tail /\ Forall valid_message new /\
    messages_ (try_parse c) = messages_ c ++ new /\
    (incomplete tail /\ recv_buf_ (try_parse c) = tail \/
     malformed tail /\ recv_buf_ (try_parse c) = []).
Proof.
  funelim (try_parse c); intros Hb;
    match goal with E : parse_step c = _ |- _ =>
      pose proof (parse_step_case c Hb) as Hc; rewrite E in Hc end.
  - exists [], (recv_buf_ c). cbn [frames app]. rewrite app_nil_r.
    inversion Hc; subst; split_and!; auto.
  - inversion Hc as [| |m rest Em Hm]; subst.
    match goal with IH : bytes _ -> ex _ |- _ =>
      destruct IH as (new & tail & Eb & Hv & Ems & Ht) end.
    { cbn. rewrite Em in Hb. by apply bytes_app in Hb as [_ ?]. }
    cbn [recv_buf_ messages_] in Eb, Ems. exists (m :: new), tail. split_and!.
    + rewrite Em, Eb. cbn. by rewrite app_assoc.
    + by constructor.
    + by rewrite Ems, <- app_assoc.
    + exact Ht.
Qed.

(** ** A stream has one reading *)

Definition stopped (buf : list Z) : Prop := incomplete buf \/ malformed buf.

Lemma frame_not_stopped m r : valid_message m -> ~ stopped (frame m ++ r).
Proof.
  intros Hm Hs. pose proof (frame_length m) as Hl. pose proof (unpack_frame m r Hm) as Eu.
  destruct Hm as (_ & _ & _ & Hp).
  assert (length_ok (frame m ++ r) = true) as Hok.
  { unfold length_ok. rewrite Eu. cbn [hdr_length]. unfold kHeaderSize, kMaxMessageSize in *.
    apply andb_true_iff. split; apply Z.leb_le; lia. }
  destruct Hs as [[Hs|[_ Hs]]|[_ Hs]]; [..|congruence]; rewrite length_app in Hs.
  - lia.
  - rewrite Eu in Hs. cbn [hdr_length] in Hs. lia.
Qed.

Lemma frame_app_inj m m' r r' :
  valid_message m -> valid_message m' -> frame m ++ r = frame m' ++ r' -> m = m' /\ r = r'.
Proof.
  intros Hm Hm' E. pose proof (unpack_frame m r Hm) as Eu. rewrite E, unpack_frame in Eu by done.
  injection Eu as El Et Es.
  assert (length (frame m) = length (frame m')) as Elen
    by (pose proof (frame_length m); pose proof (frame_length m'); lia).
  apply app_inj_1 in E as [Ef Er]; [|done]. split; [|done].
  unfold frame in Ef. apply app_inj_1 in Ef as [_ Ep]; [|by rewrite !pack_header_length].
  destruct m, m'. cbn in *. by subst.
Qed.

(** The frames at the start of a stream and what follows them are determined
    by its bytes. *)
Lemma frames_unique ms ms' r r' :
  Forall valid_message ms -> Forall valid_message ms' -> stopped r -> stopped r' ->
  frames ms ++ r = frames ms' ++ r' -> ms = ms' /\ r = r'.
Proof.
  intros Hv. revert ms'; induction Hv as [|m ms Hm _ IH]; intros ms' Hv' Hr Hr';
    destruct Hv' as [|m' ms' Hm' Hv']; cbn; rewrite <- ?app_assoc; intros E.
  - done.
  - subst r. by destruct (frame_not_stopped m' (frames ms' ++ r') Hm').
  - subst r'. by destruct (frame_not_stopped m (frames ms ++ r) Hm).
  - apply frame_app_inj in E as [-> E]; [|done..]. destruct (IH ms' Hv' Hr Hr' E) as [-> ->]. done.
Qed.

Lemma unpack_header_app b r :
  kHeaderSize <= Z.of_nat (length b) -> unpack_header (b ++ r) = unpack_header b.
Proof.
  intros Hl. unfold kHeaderSize in Hl. unfold unpack_header. rewrite !take_drop_commute.
  by rewrite !take_app_le by (cbn; lia).
Qed.

Lemma malformed_app b r : malformed b -> malformed (b ++ r).
Proof.
  intros [Hl Hok]. split; [rewrite length_app; lia|].
  unfold length_ok. by rewrite unpack_header_app.
Qed.

Lemma incomplete_malformed b : incomplete b -> ~ malformed b.
Proof. intros [Hl|[Hok _]] [Hl' Hok']; [lia|congruence]. Qed.

(** An incomplete rest fits in the largest message. *)
Lemma incomplete_bound b : incomplete b -> Z.of_nat (length b) < kMaxMessageSize.
Proof.
  unfold incomplete, length_ok, kHeaderSize, kMaxMessageSize. intros [Hl|[Hok Hl]]; [lia|].
  apply andb_true_iff in Hok as [_ Hok%Z.leb_le]. lia.
Qed.

(** ** Streams fed in pieces *)

Definition feed_all (c : t) (chunks : list (list Z)) : t := fold_left feed chunks c.

(** While the stream fed so far and its continuation read as frames and an
    incomplete rest, the codec holds exactly the messages read so far. *)
Lemma feed_prefix c chunk rest old ms p :
  bytes (frames old ++ recv_buf_ c ++ chunk) -> Forall valid_message old -> Forall valid_message ms ->
  incomplete p -> frames old ++ recv_buf_ c ++ chunk ++ rest = frames ms ++ p ->
  exists new, frames old ++ recv_buf_ c ++ chunk = frames (old ++ new) ++ recv_buf_ (feed c chunk) /\
    Forall valid_message new /\ messages_ (feed c chunk) = messages_ c ++ new /\
    incomplete (recv_buf_ (feed c chunk)).
Proof.
  intros Hb Hold Hms Hp E. set (c0 := { c with recv_buf_ ::= fun b => b ++ chunk }).
  assert (recv_buf_ c0 = recv_buf_ c ++ chunk /\ messages_ c0 = messages_ c) as [Eb Em]
    by (subst c0; by destruct c).
  apply bytes_app in Hb as [_ Hb]. rewrite <- Eb in Hb.
  destruct (try_parse_spec c0 Hb) as (new & tail & Et & Hnew & Emsg & Htail).
  rewrite Eb in Et. unfold feed. fold c0. exists new. rewrite Emsg, Em.
  destruct Htail as [[Hi ->]|[Hm _]].
  - rewrite Et. unfold frames. rewrite bind_app, <- app_assoc. done.
  - exfalso. rewrite !app_assoc, <- (app_assoc (frames old)), Et, <- app_assoc in E.
    rewrite !app_assoc in E. unfold frames in E. rewrite <- bind_app, <- app_assoc in E.
    destruct (frames_unique (old ++ new) ms (tail ++ rest) p) as [_ E2]; try done.
    + by apply Forall_app.
    + right. by apply malformed_app.
    + by left.
    + apply (incomplete_malformed p Hp). rewrite <- E2. by apply malformed_app.
Qed.

Lemma feed_all_prefix c chunks rest old ms p :
  bytes (frames ms ++ p) -> Forall valid_message old -> Forall valid_message ms ->
  incomplete p -> incomplete (recv_buf_ c) ->
  frames old ++ recv_buf_ c ++ concat chunks ++ rest = frames ms ++ p ->
  exists new, frames old ++ recv_buf_ c ++ concat chunks = frames (old ++ new) ++ recv_buf_ (feed_all c chunks) /\
    Forall valid_message new /\ messages_ (feed_all c chunks) = messages_ c ++ new /\
    incomplete (recv_buf_ (feed_all c chunks)).
Proof.
  revert c old; induction chunks as [|chunk chunks IH]; intros c old Hb Hold Hms Hp Hc E; cbn in E.
  - exists []. cbn. by rewrite !app_nil_r.
  - rewrite <- app_assoc in E.
    destruct (feed_prefix c chunk (concat chunks ++ rest) old ms p) as (new & E1 & Hn & Em & Hi); try done.
    { rewrite <- E, !app_assoc in Hb. do 2 apply bytes_app in Hb as [Hb _]. by rewrite app_assoc. }
    destruct (IH (feed c chunk) (old ++ new)) as (new' & E' & Hn' & Em' & Hi'); try done.
    { by apply Forall_app. }
    { rewrite <- E, app_assoc, <- E1, <- !app_assoc. done. }
    exists (new ++ new'). change (feed_all c (chunk :: chunks)) with (feed_all (feed c chunk) chunks).
    rewrite Em', Em, !app_assoc. split_and!; [|by apply Forall_app|done|done].
    rewrite <- E', app_assoc, <- E1. cbn. by rewrite <- !app_assoc.
Qed.

(** The whole stream. *)
Lemma feed_all_stream c chunks old ms p :
  bytes (frames ms ++ p) -> Forall valid_message old -> Forall valid_message ms ->
  incomplete p -> incomplete (recv_buf_ c) -> frames old ++ recv_buf_ c ++ concat chunks = frames ms ++ p ->
  exists new, ms = old ++ new /\ messages_ (feed_all c chunks) = messages_ c ++ new /\
    recv_buf_ (feed_all c chunks) = p.
Proof.
  intros Hb Hold Hms Hp Hc E.
  destruct (feed_all_prefix c chunks [] old ms p) as (new & E1 & Hn & Em & Hi); try done.
  { by rewrite app_nil_r. }
  rewrite E in E1.
  destruct (frames_unique ms (old ++ new) p (recv_buf_ (feed_all c chunks))) as [-> ->]; try done;
    [by apply Forall_app|by left..|]. by exists new.
Qed.

(** A prefix of whole frames reads as some of them and an incomplete rest. *)
Lemma prefix_reading d r ms :
  Forall valid_message ms -> d ++ r = frames ms ->
  exists k tail, d = frames (take k ms) ++ tail /\ incomplete tail.
Proof.
  intros Hms E. pose proof (frames_bytes ms Hms) as Hb. rewrite <- E in Hb.
  apply bytes_app in Hb as [Hd Hr]. assert (incomplete []) as H0 by (by left).
  destruct (try_parse_spec (mk d []) Hd) as (new & tail & Ed & Hv & _ & Ht). cbn in Ed. subst d.
  apply bytes_app in Hd as [_ Hd].
  destruct (try_parse_spec (mk (tail ++ r) [])) as (new' & tail' & Et & Hv' & _ & Ht');
    [by apply bytes_app|]. cbn [recv_buf_] in Et.
  rewrite <- app_assoc, Et, app_assoc in E. unfold frames in E. rewrite <- bind_app in E.
  destruct (frames_unique (new ++ new') ms tail' []) as [<- Etail].
  - by apply Forall_app.
  - done.
  - destruct Ht' as [[? _]|[? _]]; [by left|by right].
  - by left.
  - unfold frames. by rewrite app_nil_r.
  - exists (length new), tail. rewrite take_app_length. split; [done|].
    destruct Ht as [[? _]|[Hbad _]]; [done|]. exfalso.
    apply (malformed_app tail r) in Hbad. rewrite Et, Etail in Hbad. destruct new' as [|m new'].
    + destruct Hbad as [Hbad _]. cbn in Hbad. unfold kHeaderSize in Hbad. lia.
    + apply Forall_cons in Hv' as [Hm _].
      change (frames (m :: new')) with (frame m ++ frames new') in Hbad. rewrite <- app_assoc in Hbad.
      eapply (frame_not_stopped m); [done|by right].
Qed.

#[global] Arguments frame : simpl never.

(** ** Payloads *)

Record Vec3 := mkVec3 { v_x : Z; v_y : Z; v_z : Z }.
Record Quaternion := mkQuaternion { q_w : Z; q_x : Z; q_y : Z; q_z : Z }.

Record AircraftState := mkAircraft {
  position : Vec3;
  velocity_body : Vec3;
  orientation : Quaternion;
  angular_velocity : Vec3;
  thrust_current : Z;
  fuel_mass : Z;
  airspeed : Z;
  alpha : Z;
  beta : Z;
  altitude_msl : Z;
  dynamic_pressure : Z
}.

Record ControlInput := mkControl {
  elevator : Z;
  aileron : Z;
  rudder : Z;
  throttle : Z;
  flaps : Z;
  trim : Z
}.

Definition write_double (buf : list Z) (v : Z) : list Z := buf ++ little_endian 8 v.

(** The value read and the rest of the buffer, for the pointer moved on. *)
Definition read_double (ptr : list Z) : Z * list Z := (of_little_endian (take 8 ptr), drop 8 ptr).

Definition write_vec3 (buf : list Z) (v : Vec3) : list Z :=
  write_double (write_double (write_double buf (v_x v)) (v_y v)) (v_z v).

Definition serialize_telemetry (state : AircraftState) (sim_state : Z) : list Z :=
  let buf := write_vec3 [] (position state) in
  let buf := write_vec3 buf (velocity_body state) in
  let buf := write_double buf (q_w (orientation state)) in
  let buf := write_double buf (q_x (orientation state)) in
  let buf := write_double buf (q_y (orientation state)) in
  let buf := write_double buf (q_z (orientation state)) in
  let buf := write_vec3 buf (angular_velocity state) in
  let buf := write_double buf (airspeed state) in
  let buf := write_double buf (alpha state) in
  let buf := write_double buf (beta state) in
  let buf := write_double buf (altitude_msl state) in
  let buf := write_double buf (thrust_current state) in
  let buf := write_double buf (fuel_mass state) in
  buf ++ [u8 sim_state].

Definition kControlInputPayloadSize : nat := 6 * 8.

Definition deserialize_control_input (data : list Z) : option ControlInput :=
  if (length data <? kControlInputPayloadSize)%nat then None
  else
    let '(elevator, ptr) := read_double data in
    let '(aileron, ptr) := read_double ptr in
    let '(rudder, ptr) := read_double ptr in
    let '(throttle, ptr) := read_double ptr in
    let '(flaps, ptr) := read_double ptr in
    let '(trim, ptr) := read_double ptr in
    Some (mkControl elevator aileron rudder throttle flaps trim).

(** [static_cast<SimCommandType>], for a code in range. *)
Definition SimCommandType_of (raw : Z) : SimCommandType :=
  if raw =? 1 then CmdStart else if raw =? 2 then CmdPause else if raw =? 3 then CmdResume
  else if raw =? 4 then CmdReset else CmdStop.

Definition deserialize_sim_command (data : list Z) : option SimCommandType :=
  match data with
  | [] => None
  | raw :: _ =>
      if (raw <? SimCommandType_code CmdStart) || (raw >? SimCommandType_code CmdStop)
      then None else Some (SimCommandType_of raw)
  end.

(** The payload a client sends for a control input. *)
Definition control_payload (i : ControlInput) : list Z :=
  fold_left write_double [elevator i; aileron i; rudder i; throttle i; flaps i; trim i] [].

Definition in_control (i : ControlInput) : Prop :=
  Forall in_u64 [elevator i; aileron i; rudder i; throttle i; flaps i; trim i].

Lemma read_write_double v rest :
  in_u64 v -> read_double (little_endian 8 v ++ rest) = (v, rest).
Proof.
  intros Hv. unfold read_double.
  rewrite take_app_length', drop_app_length' by (by rewrite little_endian_length).
  by rewrite of_little_endian_little_endian by (unfold in_u64 in Hv; cbn; lia).
Qed.

Lemma write_double_length buf v : length (write_double buf v) = (length buf + 8)%nat.
Proof. unfold write_double. by rewrite length_app, little_endian_length. Qed.

Lemma little_endian_of_little_endian l :
  bytes l -> little_endian (length l) (of_little_endian l) = l.
Proof.
  intros Hl. unfold little_endian, of_little_endian. rewrite <- (length_rev l).
  rewrite big_endian_of_big_endian by (by apply List.Forall_rev). apply rev_involutive.
Qed.

(** A buffer of at least eight bytes is a double and the rest. *)
Lemma read_double_inv data v rest :
  bytes data -> (8 <= length data)%nat -> read_double data = (v, rest) ->
  data = little_endian 8 v ++ rest /\ in_u64 v /\ bytes rest.
Proof.
  intros Hb Hl [= <- <-]. assert (length (take 8 data) = 8%nat) as E by (rewrite length_take; lia).
  assert (bytes (take 8 data)) as Ht by (by apply Forall_take).
  pose proof (little_endian_of_little_endian _ Ht) as Ee. rewrite E in Ee. rewrite Ee.
  rewrite take_drop. split; [done|]. split; [|by apply Forall_drop].
  unfold of_little_endian. pose proof (of_big_endian_range (rev (take 8 data))) as Hr.
  rewrite length_rev, E in Hr. specialize (Hr ltac:(by apply List.Forall_rev)).
  unfold in_u64. cbn in Hr. lia.
Qed.

(** Decoding a control input inverts the layout the clients write. *)
Lemma deserialize_control_payload i rest :
  in_control i -> deserialize_control_input (control_payload i ++ rest) = Some i.
Proof.
  intros Hi. unfold in_control in Hi. repeat (apply Forall_cons in Hi as [? Hi]).
  unfold deserialize_control_input. rewrite (proj2 (Nat.ltb_ge _ _)).
  2: { rewrite length_app. unfold control_payload. cbn [fold_left]. rewrite !write_double_length.
       unfold kControlInputPayloadSize. cbn. lia. }
  unfold control_payload. cbn [fold_left]. unfold write_double. rewrite <- !app_assoc. cbn [app].
  rewrite !read_write_double by done. by destruct i.
Qed.

Lemma deserialize_control_inv data i :
  bytes data -> deserialize_control_input data = Some i ->
  in_control i /\ exists rest, data = control_payload i ++ rest.
Proof.
  intros Hb. unfold deserialize_control_input, kControlInputPayloadSize.
  destruct (Nat.ltb_spec (length data) (6 * 8)) as [|Hl]; [done|].
  destruct (read_double data) as [v1 p1] eqn:E1.
  apply read_double_inv in E1 as (-> & ? & Hb1); [|done|lia]. rewrite length_app, little_endian_length in Hl.
  destruct (read_double p1) as [v2 p2] eqn:E2.
  apply read_double_inv in E2 as (-> & ? & Hb2); [|done|lia]. rewrite length_app, little_endian_length in Hl.
  destruct (read_double p2) as [v3 p3] eqn:E3.
  apply read_double_inv in E3 as (-> & ? & Hb3); [|done|lia]. rewrite length_app, little_endian_length in Hl.
  destruct (read_double p3) as [v4 p4] eqn:E4.
  apply read_double_inv in E4 as (-> & ? & Hb4); [|done|lia]. rewrite length_app, little_endian_length in Hl.
  destruct (read_double p4) as [v5 p5] eqn:E5.
  apply read_double_inv in E5 as (-> & ? & Hb5); [|done|lia]. rewrite length_app, little_endian_length in Hl.
  destruct (read_double p5) as [v6 p6] eqn:E6.
  apply read_double_inv in E6 as (-> & ? & Hb6); [|done|lia].
  intros [= <-]. split; [by repeat (apply Forall_cons; split; [done|])|]. exists p6.
  unfold control_payload, write_double. cbn [fold_left app elevator aileron rudder throttle flaps trim].
  by rewrite <- !app_assoc.
Qed.

Lemma serialize_telemetry_length state sim : length (serialize_telemetry state sim) = 153%nat.
Proof.
  unfold serialize_telemetry, write_vec3. rewrite length_app, !write_double_length. done.
Qed.

Lemma serialize_telemetry_bytes state sim : bytes (serialize_telemetry state sim).
Proof.
  assert (forall buf v, bytes buf -> bytes (write_double buf v)) as Hw.
  { intros buf v Hb. apply bytes_app. split; [done|]. apply List.Forall_rev, big_endian_bytes. }
  apply bytes_app. split; [by repeat apply Hw|]. apply Forall_singleton. apply Z.mod_pos_bound. lia.
Qed.

End MessageCodec.

(** ** Correctness *)

Import MessageCodec.

(** C6. Messages survive the wire, however the stream is cut: whatever
    messages are encoded one after the other (payloads up to the protocol's
    limit), and however their frames and an incomplete frame after them
    arrive in pieces, the receiver ends with exactly those messages in order,
    and with the incomplete rest in its buffer. *)
Theorem codec_roundtrip ms fs p chunks :
  Forall valid_message ms ->
  Forall2 (fun m f => encode (type m) (sequence m) (payload m) = Some f) ms fs ->
  bytes p -> incomplete p -> concat chunks = concat fs ++ p ->
  feed_all create chunks = mk p ms.
Proof.
  intros Hv Hfs Hbp Hp E.
  assert (concat fs = frames ms) as Ef.
  { clear -Hv Hfs. induction Hfs as [|m f ms fs Hm _ IH]; [done|].
    apply Forall_cons in Hv as [Hv Hvs]. rewrite encode_frame in Hm by done.
    injection Hm as <-. cbn. by rewrite IH. }
  rewrite Ef in E.
  assert (bytes (frames ms ++ p)) as Hb.
  { apply bytes_app. split; [by apply frames_bytes|done]. }
  destruct (feed_all_stream create chunks [] ms p) as (new & -> & Em & Er); try done; [by left|].
  destruct (feed_all create chunks). cbn in *. by subst.
Qed.

(** The receiver makes the only possible reading of any bytes, and stays
    small: feeding an arbitrary piece delivers, in order, the messages whose
    frames the buffered bytes start with and no other; what follows them is
    kept when it is less than a message and thrown away when its header is
    impossible; the buffer then holds less than the largest message, and each
    message delivered took at least a header off it. *)
Theorem codec_any_stream c data :
  bytes (recv_buf_ c ++ data) ->
  exists new tail, recv_buf_ c ++ data = frames new ++ tail /\ Forall valid_message new /\
    messages_ (feed c data) = messages_ c ++ new /\
    (incomplete tail /\ recv_buf_ (feed c data) = tail \/
     malformed tail /\ recv_buf_ (feed c data) = []) /\
    Z.of_nat (length (recv_buf_ (feed c data))) < kMaxMessageSize /\
    kHeaderSize * Z.of_nat (length new) <= Z.of_nat (length (recv_buf_ c ++ data)).
Proof.
  intros Hb. unfold feed. set (c0 := { c with recv_buf_ ::= fun b => b ++ data }).
  assert (recv_buf_ c0 = recv_buf_ c ++ data /\ messages_ c0 = messages_ c) as [Eb Em]
    by (subst c0; by destruct c).
  rewrite <- Eb, <- Em in *. destruct (try_parse_spec c0 Hb) as (new & tail & E & Hv & Ems & Ht).
  exists new, tail. split_and!; try done.
  - destruct Ht as [[Hi ->]|[_ ->]]; [by apply incomplete_bound|cbn; unfold kMaxMessageSize; lia].
  - rewrite E. clear. induction new as [|m new IH]; [cbn; lia|].
    change (frames (m :: new)) with (frame m ++ frames new). rewrite <- app_assoc, length_app.
    cbn [length]. pose proof (frame_length m). unfold kHeaderSize in *. lia.
Qed.

(** The command payloads are decoded exactly: a control input is read
    from every payload that starts with its six little-endian doubles, and
    from no other; a simulation command from every payload that starts with
    one of the five codes, and from no other. *)
Theorem payload_decoders_exact data :
  bytes data ->
  (forall i, deserialize_control_input data = Some i <->
     in_control i /\ exists rest, data = control_payload i ++ rest) /\
  (forall c, deserialize_sim_command data = Some c <->
     exists rest, data = SimCommandType_code c :: rest).
Proof.
  intros Hb. split.
  - intros i. split; [by apply deserialize_control_inv|].
    intros (Hi & rest & ->). by apply deserialize_control_payload.
  - intros c. destruct data as [|raw rest]; [split; [done|by intros [? ?]]|]. cbn. unfold SimCommandType_of.
    split.
    + destruct (Z.ltb_spec raw 1); [done|]. rewrite Z.gtb_ltb. destruct (Z.ltb_spec 5 raw); [done|].
      cbn. intros [= <-]. exists rest. f_equal. repeat case_match; cbn; lia.
    + intros [rest' [= -> ->]]. by destruct c.
Qed.

(** *** Examples *)

Definition sample_messages : list FramedMessage := [mkMessage 3 7 [1]; mkMessage 2 8 []].

Lemma codec_roundtrip_witness :
  feed_all create [[0; 0; 0]; [9; 0; 3; 0; 7; 1; 0; 0; 0; 8; 0; 2]; [0; 8; 0]] =
  mk [0] sample_messages.
Proof.
  apply (codec_roundtrip sample_messages [[0; 0; 0; 9; 0; 3; 0; 7; 1]; [0; 0; 0; 8; 0; 2; 0; 8]] [0]).
  - by apply (bool_decide_unpack _).
  - repeat constructor.
  - by apply (bool_decide_unpack _).
  - left. done.
  - done.
Defined.

Lemma codec_any_stream_witness :
  exists new tail, [0; 0; 0; 8; 0; 2; 0; 8; 0; 0; 0; 7; 1; 1; 1; 1; 9] = frames new ++ tail /\
    Forall valid_message new /\
    messages_ (feed create [0; 0; 0; 8; 0; 2; 0; 8; 0; 0; 0; 7; 1; 1; 1; 1; 9]) = [] ++ new.
Proof.
  destruct (codec_any_stream create [0; 0; 0; 8; 0; 2; 0; 8; 0; 0; 0; 7; 1; 1; 1; 1; 9])
    as (new & tail & E & Hv & Em & _); [by apply (bool_decide_unpack _)|].
  exists new, tail. split_and!; [exact E|exact Hv|exact Em].
Defined.

Lemma payload_decoders_exact_witness :
  deserialize_sim_command [3; 200] = Some CmdResume /\
  exists rest, [3; 200] = SimCommandType_code CmdResume :: rest.
Proof.
  split; [reflexivity|].
  apply (payload_decoders_exact [3; 200]); [by apply (bool_decide_unpack _)|reflexivity].
Defined.
