(* ===== verification/NetworkService.v ===== *)
(** * Network service (luft/src/core/net/network_service.h, .cpp)

    The telemetry publisher and command receiver on top of the codec.  The
    kernel is a parameter: the results of its calls come with each operation,
    a list of results for a loop of calls (the end of the list stands for
    "would block"), and what the service hands to it is returned as effects.
    [poll] is one step of the network thread; [publish_telemetry] of the
    simulation thread falls between two of them, which is where the lock on
    the outbound frame orders it. *)

From S2P Require Import Prelude Codec.

Module NetworkService.
Import MessageCodec.

Definition kMaxClients : nat := 8.

Record ClientInfo := mkClient {
  codec : MessageCodec.t;
  send_buf : list Z;
  send_offset : nat
}.

Definition new_client : ClientInfo := mkClient MessageCodec.create [] 0.

Record t := mk {
  epoll_open : bool;                       (* epoll_fd_ >= 0 *)
  telemetry_clients_ : list (Z * ClientInfo);
  command_clients_ : list (Z * ClientInfo);
  outbound_frame_ : list Z;
  outbound_pending_ : bool;
  telemetry_seq_ : Z;
  command_cb_ : bool;
  control_cb_ : bool;
  running_ : bool
}.

Definition create : t := mk false [] [] [] false 0 false false false.

Inductive ListenerKind := TelemetryListener | CommandListener.

Inductive recv_result := Received (data : list Z) | PeerClosed | WouldBlock | RecvError.

(** What leaves the service. *)
Inductive effect :=
| Accepted (kind : ListenerKind) (fd : Z)
| Refused (fd : Z)
| Sent (fd : Z) (data : list Z)
| SendFailed (fd : Z)
| Closed (fd : Z)
| CommandCb (c : SimCommandType)
| ControlCb (i : ControlInput).

(** ** Lifecycle *)

Definition stop (s : t) : t * list effect :=
  ({ s with running_ := false; telemetry_clients_ := []; command_clients_ := [];
            epoll_open := false },
   Closed <$> (telemetry_clients_ s ++ command_clients_ s).*1).

(** The kernel's answers: [epoll_create1], and per listener the binding and
    the registration. *)
Definition start (s : t) (epoll bind1 add1 bind2 add2 : bool) : bool * t * list effect :=
  if negb epoll then (false, s, [])
  else
    let s := { s with epoll_open := true } in
    if negb (bind1 && add1 && bind2 && add2)
    then let '(s, evs) := stop s in (false, s, evs)
    else (true, { s with running_ := true }, []).

(** ** Publishing *)

(** The frame of the latest state replaces one that is not sent yet. *)
Definition publish_telemetry (s : t) (state : AircraftState) (sim_state : Z) : t :=
  let seq := telemetry_seq_ s in
  let s := { s with telemetry_seq_ ::= fun n => u16 (n + 1) } in
  match encode Telemetry seq (serialize_telemetry state sim_state) with
  | Some frame => { s with outbound_frame_ := frame; outbound_pending_ := true }
  | None => s
  end.

Definition enqueue (frame : list Z) (ci : ClientInfo) : ClientInfo :=
  { ci with send_buf ::= fun b => b ++ frame }.

Definition enqueue_to_telemetry_clients (s : t) (frame : list Z) : t :=
  { s with telemetry_clients_ ::= map (fun '(fd, ci) => (fd, enqueue frame ci)) }.

(** The first part of [poll]: the outbound frame goes to every client. *)
Definition drain_outbound (s : t) : t :=
  if outbound_pending_ s
  then
    let frame := outbound_frame_ s in
    let s := { s with outbound_frame_ := []; outbound_pending_ := false } in
    if negb (bool_decide (frame = [])) then enqueue_to_telemetry_clients s frame else s
  else s.

(** The buffer is reclaimed when everything was sent. *)
Definition reclaim (ci : ClientInfo) : ClientInfo :=
  if (length (send_buf ci) <=? send_offset ci)%nat
  then { ci with send_buf := []; send_offset := 0%nat } else ci.

(** [results] are those of [send]: the bytes the kernel is ready for, of which
    it takes at most what it is offered, 0 when it would block, negative on a
    hard error. *)
Fixpoint flush_send_queue (fd : Z) (ci : ClientInfo) (results : list Z)
    : ClientInfo * list effect :=
  if (send_offset ci <? length (send_buf ci))%nat
  then
    match results with
    | [] => (reclaim ci, [])
    | n :: results =>
        let n := Z.min n (Z.of_nat (length (send_buf ci) - send_offset ci)) in
        if n >? 0 then
          let data := take (Z.to_nat n) (drop (send_offset ci) (send_buf ci)) in
          let '(ci, evs) := flush_send_queue fd
            { ci with send_offset ::= fun o => (o + Z.to_nat n)%nat } results in
          (ci, Sent fd data :: evs)
        else if n =? 0 then (reclaim ci, [])
        else ({ ci with send_buf := []; send_offset := 0%nat }, [SendFailed fd])
    end
  else (reclaim ci, []).

Fixpoint flush_all (results : Z -> list Z) (l : list (Z * ClientInfo))
    : list (Z * ClientInfo) * list effect :=
  match l with
  | [] => ([], [])
  | (fd, ci) :: l =>
      let '(ci, evs) := flush_send_queue fd ci (results fd) in
      let '(l, evs') := flush_all results l in
      ((fd, ci) :: l, evs ++ evs')
  end.

Definition flush_clients (s : t) (results : Z -> list Z) : t * list effect :=
  let '(l, evs) := flush_all results (telemetry_clients_ s) in
  ({ s with telemetry_clients_ := l }, evs).

(** ** Receiving *)

Definition clients (kind : ListenerKind) (s : t) : list (Z * ClientInfo) :=
  match kind with TelemetryListener => telemetry_clients_ s | CommandListener => command_clients_ s end.

Definition set_clients (kind : ListenerKind) (l : list (Z * ClientInfo)) (s : t) : t :=
  match kind with
  | TelemetryListener => { s with telemetry_clients_ := l }
  | CommandListener => { s with command_clients_ := l }
  end.

(** The connections the kernel has, each with the answer of [epoll_add]. *)
Fixpoint accept_clients (s : t) (kind : ListenerKind) (conns : list (Z * bool))
    : t * list effect :=
  match conns with
  | [] => (s, [])
  | (fd, added) :: conns =>
      if negb added then (s, [Refused fd])
      else if (kMaxClients <=? length (clients kind s))%nat then (s, [Refused fd])
      else
        let '(s, evs) :=
          accept_clients (set_clients kind (clients kind s ++ [(fd, new_client)]) s) kind conns in
        (s, Accepted kind fd :: evs)
  end.

Definition find_client (l : list (Z * ClientInfo)) (fd : Z) : option ClientInfo :=
  snd <$> List.find (fun p => p.1 =? fd) l.

(** Erases the first entry of the descriptor. *)
Fixpoint erase (fd : Z) (l : list (Z * ClientInfo)) : option (list (Z * ClientInfo)) :=
  match l with
  | [] => None
  | p :: l => if p.1 =? fd then Some l else cons p <$> erase fd l
  end.

Definition remove_client (s : t) (fd : Z) : t * list effect :=
  match erase fd (telemetry_clients_ s) with
  | Some l => ({ s with telemetry_clients_ := l }, [Closed fd])
  | None =>
      match erase fd (command_clients_ s) with
      | Some l => ({ s with command_clients_ := l }, [Closed fd])
      | None => (s, [])
      end
  end.

(** The loop of reads: the codec fed, and whether the client stays. *)
Fixpoint read_all (c : MessageCodec.t) (results : list recv_result) : MessageCodec.t * bool :=
  match results with
  | Received data :: results => read_all (feed c data) results
  | PeerClosed :: _ | RecvError :: _ => (c, false)
  | WouldBlock :: _ | [] => (c, true)
  end.

(** The callbacks for one message. *)
Definition dispatch (command_cb control_cb : bool) (msg : FramedMessage) : list effect :=
  if type msg =? SimCommand then
    match deserialize_sim_command (payload msg) with
    | Some cmd => if command_cb then [CommandCb cmd] else []
    | None => []
    end
  else if type msg =? ControlInputType then
    match deserialize_control_input (payload msg) with
    | Some input => if control_cb then [ControlCb input] else []
    | None => []
    end
  else [].

(** [while (has_message()) pop_message()]: the queue is emptied in order. *)
Definition dispatch_messages (s : t) (c : MessageCodec.t) : MessageCodec.t * list effect :=
  ({ c with messages_ := [] }, messages_ c ≫= dispatch (command_cb_ s) (control_cb_ s)).

(** A change to the first entry of the descriptor. *)
Fixpoint update_client (fd : Z) (ci : ClientInfo) (l : list (Z * ClientInfo))
    : list (Z * ClientInfo) :=
  match l with
  | [] => []
  | p :: l => if p.1 =? fd then (fd, ci) :: l else p :: update_client fd ci l
  end.

Definition handle_readable (s : t) (fd : Z) (results : list recv_result) : t * list effect :=
  match find_client (command_clients_ s) fd, find_client (telemetry_clients_ s) fd with
  | Some ci, _ =>
      let '(c, stays) := read_all (codec ci) results in
      let store c := { s with command_clients_ ::= update_client fd { ci with codec := c } } in
      if negb stays then remove_client (store c) fd
      else let '(c, evs) := dispatch_messages s c in (store c, evs)
  | None, Some ci =>
      let '(c, stays) := read_all (codec ci) results in
      let s := { s with telemetry_clients_ ::= update_client fd { ci with codec := c } } in
      if negb stays then remove_client s fd else (s, [])
  | None, None => (s, [])
  end.

(** ** The event loop *)

Inductive event :=
| Incoming (kind : ListenerKind) (conns : list (Z * bool))
| ClientEvent (fd : Z) (hangup readable : bool) (results : list recv_result).

Definition handle_event (s : t) (e : event) : t * list effect :=
  match e with
  | Incoming kind conns => accept_clients s kind conns
  | ClientEvent fd hangup readable results =>
      if hangup then remove_client s fd
      else if readable then handle_readable s fd results
      else (s, [])
  end.

Definition then_event (st : t * list effect) (e : event) : t * list effect :=
  let '(s, evs) := st in let '(s, new) := handle_event s e in (s, evs ++ new).

(** [events] is what [epoll_wait] reports, nothing when it fails. *)
Definition poll (s : t) (sends : Z -> list Z) (events : list event) : t * list effect :=
  if negb (epoll_open s) then (s, [])
  else
    let '(s, evs) := flush_clients (drain_outbound s) sends in
    fold_left then_event events (s, evs).

Inductive op :=
| Start (epoll bind1 add1 bind2 add2 : bool)
| Stop
| SetCommandCallback | SetControlCallback
| Publish (state : AircraftState) (sim_state : Z)
| Poll (sends : Z -> list Z) (events : list event).

Definition do_op (s : t) (o : op) : t * list effect :=
  match o with
  | Start epoll b1 a1 b2 a2 => let '(_, s, evs) := start s epoll b1 a1 b2 a2 in (s, evs)
  | Stop => stop s
  | SetCommandCallback => ({ s with command_cb_ := true }, [])
  | SetControlCallback => ({ s with control_cb_ := true }, [])
  | Publish state sim => (publish_telemetry s state sim, [])
  | Poll sends events => poll s sends events
  end.

Definition run (ops : list op) : t * list effect :=
  fold_left (fun '(s, evs) o => let '(s, new) := do_op s o in (s, evs ++ new)) ops (create, []).

(** ** Connections in a trace *)

(** The bytes sent over a connection: those before each hard send error, and
    those since the last. *)
Inductive conn := Unopened | Open (kind : ListenerKind) (cut : list (list Z)) (sent : list Z).

Definition conn_step (fd : Z) (c : conn) (e : effect) : conn :=
  match e with
  | Accepted kind fd' => if fd' =? fd then Open kind [] [] else c
  | Closed fd' => if fd' =? fd then Unopened else c
  | Sent fd' data =>
      if fd' =? fd
      then match c with Open k cut sent => Open k cut (sent ++ data) | Unopened => c end else c
  | SendFailed fd' =>
      if fd' =? fd then match c with Open k cut sent => Open k (cut ++ [sent]) [] | Unopened => c end else c
  | Refused _ | CommandCb _ | ControlCb _ => c
  end.

(** The connection a descriptor stands for, and the bytes sent over it. *)
Definition conn_of (fd : Z) (evs : list effect) : conn := fold_left (conn_step fd) evs Unopened.

(** The kernel gives a new connection a descriptor that is not open. *)
Definition fresh_descriptors (evs : list effect) : Prop :=
  forall pre kind fd post, evs = pre ++ Accepted kind fd :: post -> conn_of fd pre = Unopened.

Definition telemetry_message (m : FramedMessage) : Prop :=
  valid_message m /\ type m = Telemetry /\ length (payload m) = 153%nat.

(** What was sent and what waits are whole telemetry frames. *)
Definition stream_ok (sent : list Z) (ci : ClientInfo) : Prop :=
  (send_offset ci <= length (send_buf ci))%nat /\
  exists ms, Forall telemetry_message ms /\ sent ++ drop (send_offset ci) (send_buf ci) = frames ms.

(** The beginning of a run of whole telemetry frames. *)
Definition broken_off (bytes : list Z) : Prop :=
  exists ms rest, Forall telemetry_message ms /\ bytes ++ rest = frames ms.

Definition client_ok (evs : list effect) (kind : ListenerKind) (p : Z * ClientInfo) : Prop :=
  exists cut sent, conn_of p.1 evs = Open kind cut sent /\
    (kind = TelemetryListener -> Forall broken_off cut /\ stream_ok sent p.2).

Definition all_clients (s : t) : list (Z * ClientInfo) := telemetry_clients_ s ++ command_clients_ s.

Record inv (s : t) (evs : list effect) : Prop := {
  inv_nodup : NoDup (all_clients s).*1;
  inv_telemetry : Forall (client_ok evs TelemetryListener) (telemetry_clients_ s);
  inv_command : Forall (client_ok evs CommandListener) (command_clients_ s);
  inv_outbound : outbound_pending_ s = true ->
    exists m, telemetry_message m /\ outbound_frame_ s = frame m;
  inv_seq : 0 <= telemetry_seq_ s < 65536
}.

Lemma conn_of_app fd evs new : conn_of fd (evs ++ new) = fold_left (conn_step fd) new (conn_of fd evs).
Proof. apply fold_left_app. Qed.

(** The descriptor an effect is about. *)
Definition about (e : effect) : option Z :=
  match e with
  | Accepted _ fd | Sent fd _ | SendFailed fd | Closed fd => Some fd
  | Refused _ | CommandCb _ | ControlCb _ => None
  end.

Lemma conn_step_other fd c e : about e <> Some fd -> conn_step fd c e = c.
Proof.
  intros H. destruct e; cbn in *; try done; by rewrite (proj2 (Z.eqb_neq _ _)) by congruence.
Qed.

Lemma conn_of_other fd evs new :
  Forall (fun e => about e <> Some fd) new -> conn_of fd (evs ++ new) = conn_of fd evs.
Proof.
  intros Hn. rewrite conn_of_app. generalize (conn_of fd evs).
  induction Hn as [|e new He _ IH]; intros c; [done|]. cbn. by rewrite conn_step_other.
Qed.

Lemma client_ok_other evs new kind p :
  client_ok evs kind p -> Forall (fun e => about e <> Some p.1) new -> client_ok (evs ++ new) kind p.
Proof. intros Hc Hn. unfold client_ok in *. by rewrite conn_of_other. Qed.

Lemma clients_other evs new kind l :
  Forall (client_ok evs kind) l -> (forall p, p ∈ l -> Forall (fun e => about e <> Some p.1) new) ->
  Forall (client_ok (evs ++ new) kind) l.
Proof.
  intros Hl Hn. rewrite Forall_forall in *. intros p Hp. apply client_ok_other; [by apply Hl|].
  by apply Hn.
Qed.

Lemma fresh_app evs new : fresh_descriptors (evs ++ new) -> fresh_descriptors evs.
Proof. intros Hf pre k fd post ->. apply (Hf pre k fd (post ++ new)). by rewrite <- app_assoc. Qed.

(** ** Flushing *)

Lemma stream_reclaim sent ci : stream_ok sent ci -> stream_ok sent (reclaim ci).
Proof.
  intros (Ho & ms & Hm & E). unfold reclaim. destruct (Nat.leb_spec (length (send_buf ci)) (send_offset ci)) as [Hl|Hl].
  - destruct ci as [c b o]. split; [cbn; lia|]. exists ms. split; [done|].
    cbn in *. by rewrite drop_ge in E by lia.
  - by split; eauto.
Qed.

Lemma flush_send_queue_about fd ci results :
  Forall (fun e => about e = Some fd) (flush_send_queue fd ci results).2.
Proof.
  revert ci; induction results as [|n results IH]; intros ci; cbn [flush_send_queue];
    (destruct (send_offset ci <? length (send_buf ci))%nat; [|constructor]); [constructor|].
  destruct (Z.min _ _ >? 0).
  - match goal with |- context[flush_send_queue fd ?c results] => specialize (IH c) end.
    destruct (flush_send_queue _ _ _). by constructor.
  - destruct (Z.min _ _ =? 0); by repeat constructor.
Qed.

(** Flushing sends the waiting bytes in order, none twice and none left out. *)
Lemma flush_send_queue_ok evs fd ci results :
  client_ok evs TelemetryListener (fd, ci) ->
  client_ok (evs ++ (flush_send_queue fd ci results).2) TelemetryListener
            (fd, (flush_send_queue fd ci results).1).
Proof.
  revert evs ci; induction results as [|n results IH]; intros evs ci (cut & sent & Hc & Hs); cbn [flush_send_queue];
    (destruct (Nat.ltb_spec (send_offset ci) (length (send_buf ci))) as [Hl|Hl];
      [|rewrite app_nil_r; exists cut, sent; split; [done|]; intros Hk0; split; [by apply Hs|by apply stream_reclaim, Hs]]).
  { rewrite app_nil_r. exists cut, sent. split; [done|]. intros Hk0. split; [by apply Hs|by apply stream_reclaim, Hs]. }
  set (k := Z.min n _). destruct (Z.gtb_spec k 0) as [Hk|Hk].
  - match goal with |- context[flush_send_queue fd ?c results] => set (ci' := c) end.
    set (data := take _ _).
    assert (send_buf ci' = send_buf ci /\ send_offset ci' = send_offset ci + Z.to_nat k)%nat as [Eb Eo]
      by (subst ci'; by destruct ci).
    clearbody ci'.
    destruct (IH (evs ++ [Sent fd data]) ci') as (cut' & sent' & Hc' & Hs').
    { exists cut, (sent ++ data). rewrite conn_of_app. cbn in Hc |- *. rewrite Hc, Z.eqb_refl.
      split; [done|]. intros Hk1. destruct (Hs Hk1) as (Hcut & _ & ms & Hms & E). split; [done|]. split.
      - cbn [snd]. rewrite Eb, Eo. lia.
      - exists ms. split; [done|]. cbn [snd]. rewrite Eb, Eo. rewrite <- E. rewrite <- app_assoc. f_equal.
        unfold data. rewrite <- drop_drop. apply take_drop. }
    destruct (flush_send_queue fd ci' results) as [ci2 new]. cbn [fst snd] in *.
    rewrite <- app_assoc in Hc'. by exists cut', sent'.
  - destruct (k =? 0).
    + rewrite app_nil_r. exists cut, sent. split; [done|]. intros Hk0. split; [by apply Hs|by apply stream_reclaim, Hs].
    + exists (cut ++ [sent]), []. rewrite conn_of_app. cbn in Hc |- *. rewrite Hc, Z.eqb_refl. split; [done|].
      intros Hk0. destruct (Hs Hk0) as (Hcut & _ & ms & Hms & E). split.
      * apply Forall_app. split; [done|]. apply Forall_singleton. by eexists _, _.
      * destruct ci. split; [done|]. by exists [].
Qed.

Lemma flush_all_fds results l : (flush_all results l).1.*1 = l.*1.
Proof.
  induction l as [|[fd ci] l IH]; cbn; [done|]. destruct (flush_send_queue _ _ _).
  destruct (flush_all _ _). cbn in *. by rewrite IH.
Qed.

Lemma flush_all_about results l :
  Forall (fun e => exists fd, about e = Some fd /\ fd ∈ l.*1) (flush_all results l).2.
Proof.
  induction l as [|[fd ci] l IH]; cbn; [constructor|].
  pose proof (flush_send_queue_about fd ci (results fd)) as Ha.
  destruct (flush_send_queue _ _ _). destruct (flush_all _ _). cbn in *. apply Forall_app. split.
  - eapply Forall_impl; [exact Ha|]. cbn. intros e ->. exists fd. split; [done|by left].
  - eapply Forall_impl; [exact IH|]. cbn. intros e (fd' & E & Hin). exists fd'. split; [done|by right].
Qed.

Lemma flush_all_ok results l evs :
  NoDup l.*1 -> Forall (client_ok evs TelemetryListener) l ->
  Forall (client_ok (evs ++ (flush_all results l).2) TelemetryListener) (flush_all results l).1.
Proof.
  revert evs; induction l as [|[fd ci] l IH]; intros evs Hn Hl; cbn [flush_all]; [constructor|].
  cbn in Hn. apply NoDup_cons in Hn as [Hni Hn]. apply Forall_cons in Hl as [Hc Hl].
  pose proof (flush_send_queue_ok evs fd ci (results fd) Hc) as Hc'.
  pose proof (flush_send_queue_about fd ci (results fd)) as Ha.
  destruct (flush_send_queue fd ci (results fd)) as [ci' new]. cbn [fst snd] in *.
  specialize (IH (evs ++ new) Hn). pose proof (flush_all_about results l) as Ha'.
  destruct (flush_all results l) as [l' new']. cbn [fst snd] in *. rewrite app_assoc. constructor.
  - apply client_ok_other; [done|]. cbn [fst]. eapply Forall_impl; [exact Ha'|].
    cbn. intros e (fd' & -> & Hin) [= ->]. done.
  - apply IH. apply clients_other; [done|]. intros p Hp. eapply Forall_impl; [exact Ha|].
    cbn. intros e -> [= E]. apply Hni. rewrite E. by apply list_elem_of_fmap_2.
Qed.

(** ** The operations keep the streams whole *)

Lemma erase_spec fd l l' :
  erase fd l = Some l' -> exists ci, l ≡ₚ (fd, ci) :: l'.
Proof.
  revert l'; induction l as [|[fd' ci'] l IH]; intros l'; cbn; [done|].
  destruct (Z.eqb_spec fd' fd) as [->|].
  - intros [= <-]. by exists ci'.
  - intros (l2 & E & ->)%fmap_Some. destruct (IH l2 E) as (ci & Hp). exists ci.
    rewrite Hp. apply Permutation_swap.
Qed.

Lemma update_client_fds fd ci l : (update_client fd ci l).*1 = l.*1.
Proof.
  induction l as [|[fd' ci'] l IH]; cbn; [done|]. destruct (Z.eqb_spec fd' fd) as [->|]; cbn; [done|].
  by rewrite IH.
Qed.

Lemma update_client_in fd ci l p : p ∈ update_client fd ci l -> p ∈ l \/ p = (fd, ci).
Proof.
  induction l as [|q l IH]; cbn; [auto|]. destruct (q.1 =? fd); rewrite !elem_of_cons; [|tauto].
  intros [->|]; auto.
Qed.

Lemma find_client_in l fd ci : find_client l fd = Some ci -> (fd, ci) ∈ l.
Proof.
  unfold find_client. intros ([fd' ci'] & E & ->)%fmap_Some. apply List.find_some in E as [Hin E].
  cbn in E. apply Z.eqb_eq in E. subst. by apply list_elem_of_In.
Qed.

(** Effects that concern no open connection change nothing. *)
Lemma inv_silent s evs new :
  inv s evs -> Forall (fun e => forall p, p ∈ all_clients s -> about e <> Some p.1) new ->
  inv s (evs ++ new).
Proof.
  intros [Hn Ht Hc Ho Hs] Hnew. rewrite Forall_forall in Hnew.
  split; try done; (apply clients_other; [done|]); intros p Hp; apply Forall_forall; intros e He;
    apply (Hnew e He); unfold all_clients; rewrite elem_of_app; auto.
Qed.

(** A list of clients without one of them, after its descriptor is closed. *)
Lemma clients_erased evs kind fd l :
  fd ∉ l.*1 -> Forall (client_ok evs kind) l -> Forall (client_ok (evs ++ [Closed fd]) kind) l.
Proof.
  intros Hni Hl. apply clients_other; [done|]. intros p Hp. apply Forall_singleton. cbn.
  intros [= ->]. apply Hni. by apply list_elem_of_fmap_2.
Qed.

Lemma remove_client_inv s evs fd :
  inv s evs -> inv (remove_client s fd).1 (evs ++ (remove_client s fd).2).
Proof.
  intros HI. pose proof HI as [Hn Ht Hc Ho Hs]. unfold all_clients in Hn. rewrite fmap_app in Hn.
  unfold remove_client.
  destruct (erase fd (telemetry_clients_ s)) as [l|] eqn:E1.
  - destruct (erase_spec _ _ _ E1) as (ci & Hp). rewrite Hp in Hn, Ht. cbn in Hn.
    apply NoDup_cons in Hn as [Hni Hn]. rewrite elem_of_app in Hni. apply Forall_cons in Ht as [_ Ht].
    destruct s. cbn in *. split; cbn; try done.
    + unfold all_clients. cbn. by rewrite fmap_app.
    + apply clients_erased; [tauto|done].
    + apply clients_erased; [tauto|done].
  - destruct (erase fd (command_clients_ s)) as [l|] eqn:E2; [|cbn; by rewrite app_nil_r].
    destruct (erase_spec _ _ _ E2) as (ci & Hp). rewrite Hp in Hn, Hc. cbn in Hn.
    rewrite <- Permutation_middle in Hn.
    apply NoDup_cons in Hn as [Hni Hn]. rewrite elem_of_app in Hni. apply Forall_cons in Hc as [_ Hc].
    destruct s. cbn in *. split; cbn; try done.
    + unfold all_clients. cbn. by rewrite fmap_app.
    + apply clients_erased; [tauto|done].
    + apply clients_erased; [tauto|done].
Qed.

(** Only the codec of a client changes. *)
Lemma client_ok_codec evs kind fd ci c :
  client_ok evs kind (fd, ci) -> client_ok evs kind (fd, { ci with codec := c }).
Proof. intros (cut & sent & Hc & Hs). exists cut, sent. split; [done|]. by destruct ci. Qed.

Lemma update_codec_ok evs kind fd ci c l :
  Forall (client_ok evs kind) l -> (fd, ci) ∈ l ->
  Forall (client_ok evs kind) (update_client fd { ci with codec := c } l).
Proof.
  rewrite !Forall_forall. intros Hl Hin p [Hp| ->]%update_client_in; [by apply Hl|].
  apply client_ok_codec. by apply Hl.
Qed.

Lemma dispatch_about cb1 cb2 ms : Forall (fun e => about e = None) (ms ≫= dispatch cb1 cb2).
Proof.
  apply Forall_bind, Forall_forall. intros m _. unfold compose, dispatch.
  repeat case_match; by repeat constructor.
Qed.

Lemma handle_readable_inv s evs fd results :
  inv s evs -> inv (handle_readable s fd results).1 (evs ++ (handle_readable s fd results).2).
Proof.
  intros HI. unfold handle_readable.
  assert (forall ci c, find_client (command_clients_ s) fd = Some ci ->
    inv { s with command_clients_ ::= update_client fd { ci with codec := c } } evs) as Hcmd.
  { intros ci c E. apply find_client_in in E. destruct HI as [Hn Ht Hc Ho Hs], s. cbn in *.
    split; cbn; try done; [|by apply update_codec_ok].
    unfold all_clients in *. cbn in *. by rewrite fmap_app, update_client_fds, <- fmap_app. }
  assert (forall ci c, find_client (telemetry_clients_ s) fd = Some ci ->
    inv { s with telemetry_clients_ ::= update_client fd { ci with codec := c } } evs) as Htel.
  { intros ci c E. apply find_client_in in E. destruct HI as [Hn Ht Hc Ho Hs], s. cbn in *.
    split; cbn; try done; [|by apply update_codec_ok].
    unfold all_clients in *. cbn in *. by rewrite fmap_app, update_client_fds, <- fmap_app. }
  destruct (find_client (command_clients_ s) fd) as [ci|].
  - destruct (read_all (codec ci) results) as [c stays]. destruct stays; cbn [negb].
    + cbn [dispatch_messages fst snd]. apply inv_silent; [by apply Hcmd|].
      eapply Forall_impl; [apply dispatch_about|]. cbn. by intros e ->.
    + apply remove_client_inv. by apply Hcmd.
  - destruct (find_client (telemetry_clients_ s) fd) as [ci|]; [|cbn; by rewrite app_nil_r].
    destruct (read_all (codec ci) results) as [c stays]. destruct stays; cbn [negb].
    + cbn. rewrite app_nil_r. by apply Htel.
    + apply remove_client_inv. by apply Htel.
Qed.

Lemma fresh_here evs kind fd post :
  fresh_descriptors (evs ++ Accepted kind fd :: post) -> conn_of fd evs = Unopened.
Proof. intros Hf. by apply (Hf evs kind fd post). Qed.

(** A fresh descriptor belongs to no client. *)
Lemma unopened_not_client s evs fd :
  inv s evs -> conn_of fd evs = Unopened -> fd ∉ (all_clients s).*1.
Proof.
  intros [_ Ht Hc _ _] Hu Hin. unfold all_clients in Hin. rewrite fmap_app, elem_of_app in Hin.
  rewrite Forall_forall in Ht, Hc.
  destruct Hin as [([fd' ci] & -> & Hin)%list_elem_of_fmap|([fd' ci] & -> & Hin)%list_elem_of_fmap];
    [destruct (Ht _ Hin) as (? & ? & E & _)|destruct (Hc _ Hin) as (? & ? & E & _)]; cbn in *; congruence.
Qed.

Lemma client_ok_new evs kind fd :
  client_ok (evs ++ [Accepted kind fd]) kind (fd, new_client).
Proof.
  exists [], []. rewrite conn_of_app. cbn. rewrite Z.eqb_refl. split; [done|]. intros _.
  split; [done|]. split; [cbn; lia|]. by exists [].
Qed.

Lemma accept_one_inv s evs kind fd :
  inv s evs -> conn_of fd evs = Unopened ->
  inv (set_clients kind (clients kind s ++ [(fd, new_client)]) s) (evs ++ [Accepted kind fd]).
Proof.
  intros HI Hu. pose proof (unopened_not_client s evs fd HI Hu) as Hni.
  destruct HI as [Hn Ht Hc Ho Hs]. unfold all_clients in *. rewrite fmap_app in *.
  rewrite elem_of_app in Hni. pose proof (client_ok_new evs kind fd) as Hnew.
  assert (forall k l, Forall (client_ok evs k) l -> fd ∉ l.*1 ->
    Forall (client_ok (evs ++ [Accepted kind fd]) k) l) as Hold.
  { intros k l Hl Hni'. apply clients_other; [done|]. intros p Hp. apply Forall_singleton. cbn.
    intros [= ->]. apply Hni'. by apply list_elem_of_fmap_2. }
  destruct s, kind; cbn in *; (split; cbn; unfold all_clients; cbn; rewrite ?fmap_app, ?Forall_app; try done).
  - cbn. rewrite <- app_assoc. cbn. rewrite <- Permutation_middle. apply NoDup_cons.
    rewrite elem_of_app. done.
  - split; [apply Hold; tauto|by apply Forall_singleton].
  - apply Hold; tauto.
  - cbn. rewrite app_assoc. apply NoDup_app. split_and!; [done| |apply NoDup_singleton].
    intros x Hx ->%list_elem_of_singleton. rewrite elem_of_app in Hx. tauto.
  - apply Hold; tauto.
  - split; [apply Hold; tauto|by apply Forall_singleton].
Qed.

Lemma accept_clients_inv s evs kind conns :
  inv s evs -> fresh_descriptors (evs ++ (accept_clients s kind conns).2) ->
  inv (accept_clients s kind conns).1 (evs ++ (accept_clients s kind conns).2).
Proof.
  revert s evs; induction conns as [|[fd added] conns IH]; intros s evs HI Hf; cbn [accept_clients] in *.
  { cbn. by rewrite app_nil_r. }
  assert (inv s (evs ++ [Refused fd])) as Hr by (apply inv_silent; [done|by apply Forall_singleton]).
  destruct added; cbn [negb] in *; [|done]. destruct (kMaxClients <=? length (clients kind s))%nat; [done|].
  specialize (IH (set_clients kind (clients kind s ++ [(fd, new_client)]) s) (evs ++ [Accepted kind fd])).
  destruct (accept_clients _ kind conns) as [s' new]. cbn [fst snd] in *.
  rewrite <- app_assoc in IH. apply IH; [|done]. apply accept_one_inv; [done|].
  by eapply fresh_here.
Qed.

Lemma handle_event_inv s evs e :
  inv s evs -> fresh_descriptors (evs ++ (handle_event s e).2) ->
  inv (handle_event s e).1 (evs ++ (handle_event s e).2).
Proof.
  intros HI Hf. destruct e as [kind conns|fd hangup readable results]; cbn in *.
  - by apply accept_clients_inv.
  - destruct hangup; [by apply remove_client_inv|]. destruct readable; [by apply handle_readable_inv|].
    cbn. by rewrite app_nil_r.
Qed.

Lemma events_grow events st : exists new, (fold_left then_event events st).2 = st.2 ++ new.
Proof.
  revert st; induction events as [|e events IH]; intros [s evs]; [by exists []; rewrite app_nil_r|]. cbn.
  destruct (handle_event s e) as [s' new]. destruct (IH (s', evs ++ new)) as [k E].
  rewrite E. cbn. rewrite <- app_assoc. by eexists.
Qed.

Lemma events_inv s evs new0 events :
  inv s (evs ++ new0) -> fresh_descriptors (evs ++ (fold_left then_event events (s, new0)).2) ->
  inv (fold_left then_event events (s, new0)).1 (evs ++ (fold_left then_event events (s, new0)).2).
Proof.
  revert s new0; induction events as [|e events IH]; intros s new0 HI Hf; [done|]. cbn in *.
  pose proof (handle_event_inv s (evs ++ new0) e HI) as Hs.
  destruct (handle_event s e) as [s' new]. cbn [fst snd] in *. apply IH; [|done].
  rewrite app_assoc. apply Hs. destruct (events_grow events (s', new0 ++ new)) as [k E]. rewrite E in Hf.
  cbn in Hf. rewrite !app_assoc in Hf. by apply fresh_app in Hf.
Qed.

(** A whole telemetry frame more for every client. *)
Lemma enqueue_inv s evs m :
  inv s evs -> telemetry_message m -> inv (enqueue_to_telemetry_clients s (frame m)) evs.
Proof.
  intros [Hn Ht Hc Ho Hs] Hm. destruct s. cbn in *. split; cbn; try done.
  - unfold all_clients in *. cbn in *. rewrite fmap_app in *.
    replace ((map _ telemetry_clients_0).*1) with telemetry_clients_0.*1; [done|].
    clear. induction telemetry_clients_0 as [|[fd ci] l IH]; cbn; [done|]. by rewrite IH.
  - clear -Ht Hm. induction Ht as [|[fd ci] l (cut & sent & Hc & Hs) _ IH]; cbn; [constructor|].
    constructor; [|done]. exists cut, sent. split; [done|]. intros Hk.
    destruct (Hs Hk) as (Hcut & Ho & ms & Hms & E). destruct ci as [c b o]. cbn in *. split; [done|]. split; cbn.
    + rewrite length_app. lia.
    + exists (ms ++ [m]). split; [apply Forall_app; by split; [|apply Forall_singleton]|].
      rewrite drop_app_le by lia. unfold frames in *. rewrite bind_app. cbn.
      by rewrite app_nil_r, app_assoc, E.
Qed.

Lemma drain_outbound_inv s evs : inv s evs -> inv (drain_outbound s) evs.
Proof.
  intros HI. unfold drain_outbound. destruct (outbound_pending_ s) eqn:Ep; [|done].
  destruct (inv_outbound _ _ HI Ep) as (m & Hm & Ef). rewrite Ef.
  assert (inv { s with outbound_frame_ := []; outbound_pending_ := false } evs) as HI'
    by (destruct HI, s; by split).
  case_bool_decide as E; [done|]. cbn [negb]. by apply enqueue_inv.
Qed.

Lemma flush_clients_inv s evs sends :
  inv s evs -> inv (flush_clients s sends).1 (evs ++ (flush_clients s sends).2).
Proof.
  intros [Hn Ht Hc Ho Hs]. unfold flush_clients, all_clients in *. rewrite fmap_app in Hn.
  pose proof (flush_all_fds sends (telemetry_clients_ s)) as Ef.
  pose proof (flush_all_about sends (telemetry_clients_ s)) as Ea.
  pose proof (flush_all_ok sends (telemetry_clients_ s) evs) as Eo.
  apply NoDup_app in Hn as Hn'. destruct Hn' as (Hnt & Hd & _). specialize (Eo Hnt Ht).
  destruct (flush_all sends (telemetry_clients_ s)) as [l new]. destruct s. cbn in *.
  split; cbn; try done.
  - unfold all_clients. cbn. by rewrite fmap_app, Ef.
  - apply clients_other; [done|]. intros p Hp. eapply Forall_impl; [exact Ea|]. cbn.
    intros e (fd & -> & Hin) [= ->]. apply (Hd _ Hin). by apply list_elem_of_fmap_2.
Qed.

Lemma stop_inv s evs : inv s evs -> inv (stop s).1 (evs ++ (stop s).2).
Proof.
  intros HI. cbn. destruct HI as [Hn Ht Hc Ho Hs], s. cbn in *. split; cbn; try done. constructor.
Qed.

Lemma publish_inv s evs state sim : inv s evs -> inv (publish_telemetry s state sim) evs.
Proof.
  intros HI. pose proof (inv_seq _ _ HI) as Hs. unfold publish_telemetry.
  set (m := mkMessage Telemetry (telemetry_seq_ s) (serialize_telemetry state sim)).
  assert (valid_message m) as Hm.
  { split; [vm_compute; by split|]. split; [done|]. split; [apply serialize_telemetry_bytes|].
    cbn [payload m]. rewrite serialize_telemetry_length. vm_compute. by intros. }
  pose proof (encode_frame m Hm) as E. cbn [type sequence payload m] in E. rewrite E.
  destruct HI as [Hn Ht Hc Ho _], s. cbn in *. split; cbn; try done.
  - intros _. exists m. split; [|done]. split; [done|]. split; [done|]. apply serialize_telemetry_length.
  - apply Z.mod_pos_bound. lia.
Qed.

Lemma service_op_inv s evs o :
  inv s evs -> fresh_descriptors (evs ++ (do_op s o).2) -> inv (do_op s o).1 (evs ++ (do_op s o).2).
Proof.
  intros HI Hf. destruct o; cbn [do_op] in *.
  - assert (inv { s with epoll_open := true } evs) as HI' by (destruct HI, s; by split).
    unfold start. destruct epoll; cbn [negb]; [|cbn; by rewrite app_nil_r].
    destruct (bind1 && add1 && bind2 && add2); cbn [negb].
    + cbn. rewrite app_nil_r. destruct HI', s. by split.
    + pose proof (stop_inv _ _ HI') as Hst. by destruct (stop _).
  - by apply stop_inv.
  - cbn. rewrite app_nil_r. destruct HI, s. by split.
  - cbn. rewrite app_nil_r. destruct HI, s. by split.
  - cbn. rewrite app_nil_r. by apply publish_inv.
  - unfold poll in *. destruct (epoll_open s); cbn [negb] in *; [|cbn; by rewrite app_nil_r].
    pose proof (flush_clients_inv _ evs sends (drain_outbound_inv s evs HI)) as Hfl.
    destruct (flush_clients _ _) as [s' new]. by apply events_inv.
Qed.

Lemma service_run_inv ops : fresh_descriptors (run ops).2 -> inv (run ops).1 (run ops).2.
Proof.
  unfold run. induction ops as [|o ops IH] using rev_ind.
  - intros _. split; cbn; try done; constructor.
  - rewrite fold_left_app. destruct (fold_left _ ops _) as [s evs]. cbn in *.
    pose proof (service_op_inv s evs o) as Ho. destruct (do_op s o) as [s' new]. cbn in *.
    intros Hf. apply Ho; [|done]. apply IH. by apply fresh_app in Hf.
Qed.

(** ** Reading commands *)

Definition all_received (bursts : list (list Z)) : list recv_result := Received <$> bursts.

Lemma read_all_received c chunks : read_all c (all_received chunks) = (feed_all c chunks, true).
Proof. revert c; induction chunks as [|d chunks IH]; intros c; cbn; [done|]. apply IH. Qed.

(** The readable events of one client, one after the other. *)
Definition read_bursts (s : t) (fd : Z) (bursts : list (list (list Z))) : t * list effect :=
  fold_left then_event
    ((fun chunks => ClientEvent fd false true (all_received chunks)) <$> bursts) (s, []).

Lemma find_update fd ci l ci0 :
  find_client l fd = Some ci0 -> find_client (update_client fd ci l) fd = Some ci.
Proof.
  unfold find_client. induction l as [|[fd' ci'] l IH]; cbn; [done|].
  destruct (Z.eqb_spec fd' fd) as [->|]; cbn.
  - intros _. by rewrite Z.eqb_refl.
  - by rewrite (proj2 (Z.eqb_neq _ _)).
Qed.

Lemma read_burst_command s fd ci chunks :
  find_client (command_clients_ s) fd = Some ci ->
  exists s' ci', handle_readable s fd (all_received chunks) =
      (s', messages_ (feed_all (codec ci) chunks) ≫= dispatch (command_cb_ s) (control_cb_ s)) /\
    find_client (command_clients_ s') fd = Some ci' /\
    recv_buf_ (codec ci') = recv_buf_ (feed_all (codec ci) chunks) /\ messages_ (codec ci') = [] /\
    command_cb_ s' = command_cb_ s /\ control_cb_ s' = control_cb_ s.
Proof.
  intros E. unfold handle_readable. rewrite E, read_all_received. cbn [negb].
  set (c := feed_all _ _). cbn [dispatch_messages]. do 2 eexists. split; [done|].
  split; [destruct s; cbn in *; by eapply find_update|]. destruct s, ci, c. by cbn.
Qed.

Lemma read_bursts_commands s fd ci bursts old ms p evs :
  find_client (command_clients_ s) fd = Some ci -> messages_ (codec ci) = [] ->
  Forall valid_message old -> Forall valid_message ms -> incomplete p -> bytes p ->
  incomplete (recv_buf_ (codec ci)) ->
  frames old ++ recv_buf_ (codec ci) ++ concat (concat bursts) = frames ms ++ p ->
  exists new s' ci', ms = old ++ new /\
    fold_left then_event ((fun chunks => ClientEvent fd false true (all_received chunks)) <$> bursts)
      (s, evs) = (s', evs ++ (new ≫= dispatch (command_cb_ s) (control_cb_ s))) /\
    find_client (command_clients_ s') fd = Some ci' /\ recv_buf_ (codec ci') = p.
Proof.
  revert s ci old evs; induction bursts as [|chunks bursts IH]; intros s ci old evs E Em Hold Hms Hp Hbp Hi Es.
  - cbn in Es. rewrite app_nil_r in Es.
    destruct (frames_unique old ms (recv_buf_ (codec ci)) p) as [-> Er]; try done; [by left..|].
    exists [], s, ci. cbn. by rewrite !app_nil_r.
  - cbn in Es. rewrite concat_app in Es.
    assert (bytes (frames ms ++ p)) as Hb by (apply bytes_app; by split; [apply frames_bytes|]).
    destruct (feed_all_prefix (codec ci) chunks (concat (concat bursts)) old ms p)
      as (new & E1 & Hn & Emsg & Hinc); try done.
    destruct (read_burst_command s fd ci chunks E) as (s1 & ci1 & Eh & E' & Er & Em' & Ec1 & Ec2).
    rewrite Emsg, Em in Eh. cbn [app] in Eh.
    destruct (IH s1 ci1 (old ++ new) (evs ++ (new ≫= dispatch (command_cb_ s) (control_cb_ s))))
      as (new' & s2 & ci2 & -> & Ef & E2 & Er2); try done.
    + by apply Forall_app.
    + by rewrite Er.
    + rewrite Er. rewrite <- Es, !app_assoc. f_equal. rewrite <- app_assoc. done.
    + exists (new ++ new'), s2, ci2. split; [by rewrite app_assoc|]. split; [|done].
      cbn. cbn in Eh. rewrite Eh, Ef, Ec1, Ec2, bind_app, <- app_assoc. done.
Qed.

End NetworkService.

(** ** Correctness *)

Import MessageCodec NetworkService.

(** C31. Telemetry between two hard send errors is never torn: whatever is
    published, however often the loop polls, whatever the kernel takes of each
    send and whichever clients come and go, the bytes sent to a connected
    client since its last hard send error, followed by those still waiting,
    are whole telemetry frames; however they arrive, the client's codec reads
    from them exactly the first of these messages, with an incomplete rest.
    What was sent before such an error is the beginning of a run of whole
    frames too, but may end within one: the code drops the rest of it and goes
    on with a whole frame over the same connection. *)
Theorem telemetry_streams_whole ops fd ci cut sent :
  let '(s, evs) := run ops in
  fresh_descriptors evs -> (fd, ci) ∈ telemetry_clients_ s ->
  conn_of fd evs = Open TelemetryListener cut sent ->
  Forall broken_off cut /\
  exists ms, Forall telemetry_message ms /\
    sent ++ drop (send_offset ci) (send_buf ci) = frames ms /\
    forall chunks, concat chunks = sent ->
      exists k rest, feed_all MessageCodec.create chunks = MessageCodec.mk rest (take k ms) /\
        incomplete rest.
Proof.
  pose proof (service_run_inv ops) as Hinv. destruct (run ops) as [s evs]. cbn [fst snd] in Hinv.
  intros Hf Hin Hc. destruct (Hinv Hf) as [_ Ht _ _ _]. rewrite Forall_forall in Ht.
  destruct (Ht _ Hin) as (cut' & sent' & Hc' & Hs). cbn in Hc'. rewrite Hc in Hc'.
  injection Hc' as <- <-. destruct (Hs eq_refl) as (Hcut & _ & ms & Hms & E). cbn in E. split; [done|].
  exists ms. split; [done|]. split; [done|]. intros chunks Echunks.
  assert (Forall valid_message ms) as Hv by (eapply Forall_impl; [exact Hms|]; by intros m []).
  destruct (prefix_reading sent _ ms Hv E) as (k & rest & Ek & Hrest).
  pose proof (frames_bytes ms Hv) as Hb. rewrite <- E in Hb. apply bytes_app in Hb as [Hb _].
  destruct (feed_all_stream MessageCodec.create chunks [] (take k ms) rest)
    as (new & Enew & Em & Er); try done.
  - by rewrite <- Ek.
  - by apply Forall_take.
  - by left.
  - by rewrite Echunks.
  - exists k, rest. split; [|done]. rewrite Enew. destruct (feed_all _ _). cbn in *. by subst.
Qed.

(** Commands arrive once, in order, however they are cut: the events in
    which a command client's bytes are read, in any number of bursts of any
    number of pieces that do not end the connection, call back for exactly
    the messages sent, each decoded as its type says, and the rest of the
    bytes waits. *)
Theorem commands_delivered s fd ci bursts ms p :
  find_client (command_clients_ s) fd = Some ci -> codec ci = MessageCodec.create ->
  Forall valid_message ms -> incomplete p -> bytes p ->
  concat (concat bursts) = frames ms ++ p ->
  exists s' ci', read_bursts s fd bursts =
      (s', ms ≫= dispatch (command_cb_ s) (control_cb_ s)) /\
    find_client (command_clients_ s') fd = Some ci' /\ recv_buf_ (codec ci') = p.
Proof.
  intros E Ec Hms Hp Hbp Es.
  destruct (read_bursts_commands s fd ci bursts [] ms p []) as (new & s' & ci' & -> & Ef & Hr);
    try done; try (rewrite Ec; done || by left).
  by exists s', ci'.
Qed.

(** *** Examples *)

Definition no_sends (_ : Z) : list Z := [].

(** A command client on descriptor 5, both callbacks set. *)
Definition commanded : t :=
  (run [NetworkService.Start true true true true true; SetCommandCallback; SetControlCallback;
        Poll no_sends [Incoming CommandListener [(5, true)]]]).1.

(** The frame of a Start command. *)
Definition start_command : FramedMessage := mkMessage SimCommand 1 [1].

Lemma commands_delivered_witness :
  exists s' ci', read_bursts commanded 5 [[[0; 0; 0]; [9; 0; 3]]; [[0; 1; 1; 0]]] =
      (s', [CommandCb CmdStart]) /\
    find_client (command_clients_ s') 5 = Some ci' /\ recv_buf_ (codec ci') = [0].
Proof.
  apply (commands_delivered commanded 5 new_client [[[0; 0; 0]; [9; 0; 3]]; [[0; 1; 1; 0]]]
    [start_command] [0]); try reflexivity.
  - by apply (bool_decide_unpack _).
  - left. done.
  - by apply (bool_decide_unpack _).
Defined.

Definition zero_state : AircraftState :=
  mkAircraft (mkVec3 0 0 0) (mkVec3 0 0 0) (mkQuaternion 0 0 0 0) (mkVec3 0 0 0) 0 0 0 0 0 0 0.

(** A client on descriptor 4 that takes 100 bytes of the first frame. *)
Definition publishing : list op :=
  [NetworkService.Start true true true true true; Poll no_sends [Incoming TelemetryListener [(4, true)]];
   Publish zero_state 2; Publish zero_state 3; Poll (fun _ => [100]) []].

Lemma publishing_fresh : fresh_descriptors (run publishing).2.
Proof.
  intros pre kind fd post E. assert (length (run publishing).2 = 2%nat) as Hl by (vm_compute; reflexivity).
  destruct pre as [|e pre]; [done|]. destruct pre as [|e' pre].
  - vm_compute in E. discriminate E.
  - rewrite E in Hl. cbn in Hl. rewrite length_app in Hl. cbn in Hl. lia.
Qed.

Lemma telemetry_streams_whole_witness :
  exists ci sent ms, (4, ci) ∈ telemetry_clients_ (run publishing).1 /\ length sent = 100%nat /\
    Forall telemetry_message ms /\ sent ++ drop (send_offset ci) (send_buf ci) = frames ms.
Proof.
  pose proof publishing_fresh as Hf.
  assert (exists ci, telemetry_clients_ (run publishing).1 = [(4, ci)]) as [ci Eci]
    by (eexists; vm_compute; reflexivity).
  assert (exists sent, conn_of 4 (run publishing).2 = Open TelemetryListener [] sent /\
    length sent = 100%nat) as (sent & Ec & Hl) by (eexists; vm_compute; split; reflexivity).
  pose proof (telemetry_streams_whole publishing 4 ci [] sent) as Ht.
  destruct (run publishing) as [s evs]. cbn [fst snd] in *.
  destruct Ht as (_ & ms & Hms & E & _); [exact Hf|rewrite Eci; by left|exact Ec|].
  exists ci, sent, ms. rewrite Eci. split_and!; [by left|exact Hl|exact Hms|exact E].
Defined.

(** Commands that arrive in the burst that also ends the connection are
    dropped: the client is removed before its messages are dispatched. *)
Theorem commands_before_close_lost :
  handle_readable commanded 5 [Received (frame start_command)] =
    ((handle_readable commanded 5 [Received (frame start_command)]).1, [CommandCb CmdStart]) /\
  (handle_readable commanded 5 [Received (frame start_command); PeerClosed]).2 = [Closed 5].
Proof. vm_compute. split; reflexivity. Qed.

(** The codec of a telemetry client is fed but never emptied: every message
    such a client sends stays in memory. *)
Theorem telemetry_input_accumulates s fd ci chunks :
  find_client (command_clients_ s) fd = None -> find_client (telemetry_clients_ s) fd = Some ci ->
  let '(s', evs) := handle_readable s fd (all_received chunks) in
  evs = [] /\ find_client (telemetry_clients_ s') fd =
    Some { ci with codec := feed_all (codec ci) chunks }.
Proof.
  intros E1 E2. unfold handle_readable. rewrite E1, E2, read_all_received. cbn [negb].
  split; [done|]. destruct s. cbn in *. by eapply find_update.
Qed.

(** A hard error within a frame: the client stays connected, and after the
    first 100 bytes of one frame it is sent another whole one. *)
Definition torn : list op :=
  [NetworkService.Start true true true true true; Poll no_sends [Incoming TelemetryListener [(4, true)]];
   Publish zero_state 2; Poll (fun _ => [100; -1]) []; Publish zero_state 3; Poll (fun _ => [1000]) []].

Example frames_torn :
  map fst (telemetry_clients_ (run torn).1) = [4] /\
  match conn_of 4 (run torn).2 with
  | Open _ cut sent => map (@length Z) cut = [100%nat] /\ length sent = 161%nat
  | Unopened => False
  end.
Proof. vm_compute. done. Qed.
