(* ===== verification/Fix.v ===== *)
(** * FIX messages and the FIX venue adapter (sor/connectors/fix_adapter.h, .cpp)

    Tag-value messages with their text form, the translation of orders,
    cancels and execution reports, and the mock adapter that queues messages
    in process.  [fields] is a hash map, so [serialize] writes them in any
    order.  The conversions throw; an exception leaves the operation that was
    running, with the state as it was then.  The calls of the adapter that
    test or write the connected flag outside its mutex are cut into the steps
    between which another thread can come. *)

From S2P Require Import Prelude Double CppString Types QueueSpec.

(** ** Tags and translation tables *)

Definition TAG_MSG_TYPE : Z := 35.
Definition TAG_CL_ORD_ID : Z := 11.
Definition TAG_ORDER_ID : Z := 37.
Definition TAG_EXEC_ID : Z := 17.
Definition TAG_EXEC_TYPE : Z := 150.
Definition TAG_ORD_STATUS : Z := 39.
Definition TAG_SYMBOL : Z := 55.
Definition TAG_SIDE : Z := 54.
Definition TAG_ORDER_QTY : Z := 38.
Definition TAG_PRICE : Z := 44.
Definition TAG_LAST_PX : Z := 31.
Definition TAG_LAST_QTY : Z := 32.
Definition TAG_LEAVES_QTY : Z := 151.
Definition TAG_CUM_QTY : Z := 14.
Definition TAG_AVG_PX : Z := 6.
Definition TAG_TEXT : Z := 58.
Definition TAG_ORD_TYPE : Z := 40.
Definition TAG_TIME_IN_FORCE : Z := 59.
Definition TAG_SENDER_COMP_ID : Z := 49.
Definition TAG_TARGET_COMP_ID : Z := 56.
Definition TAG_MSG_SEQ_NUM : Z := 34.
Definition TAG_ORIG_CL_ORD_ID : Z := 41.

Definition is_lit (v : str) (s : string) : bool := bool_decide (v = lit s).

Definition side_to_fix (side : Side) : ascii := if is_buy side then "1"%char else "2"%char.
Definition side_from_fix (val : str) : Side := if is_lit val "1" then Buy else Sell.

Definition ord_type_to_fix (type : OrderType) : ascii :=
  match type with OT_Market => "1"%char | OT_Limit | OT_IOC | OT_FOK => "2"%char end.

Definition ord_type_from_fix (val tif_val : str) : OrderType :=
  if is_lit val "1" then OT_Market
  else if is_lit tif_val "3" then OT_IOC
  else if is_lit tif_val "4" then OT_FOK
  else OT_Limit.

Definition tif_to_fix (tif : TimeInForce) (type : OrderType) : ascii :=
  match type, tif with
  | OT_IOC, _ => "3"%char
  | OT_FOK, _ => "4"%char
  | _, TIF_DAY => "0"%char
  | _, TIF_GTC => "1"%char
  | _, TIF_IOC => "3"%char
  | _, TIF_FOK => "4"%char
  | _, TIF_GTD => "6"%char
  end.

Definition tif_from_fix (val : str) : TimeInForce :=
  if is_lit val "0" then TIF_DAY
  else if is_lit val "1" then TIF_GTC
  else if is_lit val "3" then TIF_IOC
  else if is_lit val "4" then TIF_FOK
  else if is_lit val "6" then TIF_GTD
  else TIF_GTC.

Definition ord_status_to_fix (state : OrderState) : str :=
  lit match state with
      | New => "0" | PendingNew => "A" | Accepted => "0" | PartiallyFilled => "1"
      | Filled => "2" | PendingCancel => "6" | Canceled => "4" | Rejected => "8"
      | Expired => "C" | PendingReplace => "E"
      end.

Definition ord_status_from_fix (val : str) : OrderState :=
  if is_lit val "0" then Accepted
  else if is_lit val "A" then PendingNew
  else if is_lit val "1" then PartiallyFilled
  else if is_lit val "2" then Filled
  else if is_lit val "4" then Canceled
  else if is_lit val "6" then PendingCancel
  else if is_lit val "8" then Rejected
  else if is_lit val "C" then Expired
  else if is_lit val "E" then PendingReplace
  else New.

Definition exec_type_for_state (state : OrderState) : str :=
  lit match state with
      | Accepted => "0" | PartiallyFilled => "F" | Filled => "F" | Canceled => "4"
      | Rejected => "8" | Expired => "C" | _ => "0"
      end.

(** ** Numbers *)

(** The zeros at the end are cut while the character before is no point. *)
Fixpoint trim_price_rev (s : str) : str :=
  match s with
  | c :: ((c' :: _) as s') =>
      if bool_decide (c = "0"%char) && negb (bool_decide (c' = "."%char))
      then trim_price_rev s' else s
  | _ => s
  end.

Definition price_to_str (p : Price) : str :=
  let negative := p <? 0 in
  let abs_p := if negative then i64_opp p else p in
  let whole := abs_p /! PRICE_SCALE in
  let frac := i64 (Z.rem abs_p PRICE_SCALE) in
  let buf := (if negative then lit "-" else []) ++ to_string whole ++ lit "." ++ print_padded 8 frac in
  rev (trim_price_rev (rev buf)).

Definition price_from_str (s : str) : throws Price :=
  match s with [] => inr 0 | _ => try d <- stod s; inr (to_price d) end.

Definition qty_to_str (q : Quantity) : str := to_string q.
Definition qty_from_str (s : str) : throws Quantity :=
  match s with [] => inr 0 | _ => stoll s end.

Definition id_to_str (id : OrderId) : str := to_string id.
Definition id_from_str (s : str) : throws OrderId :=
  match s with [] => inr INVALID_ORDER_ID | _ => stoull s end.

(** ** Messages *)

Module FixMessage.

Inductive Type_ := NewOrderSingle | OrderCancelRequest | ExecutionReportMsg | Heartbeat | Logon | Logout.

#[global] Instance Type_eq_dec : EqDecision Type_.
Proof. solve_decision. Defined.

Record t := mk { type : Type_; fields : gmap Z str }.

(** The type tag 35 stands for, over a default. *)
Definition type_from_fields (default : Type_) (fields : gmap Z str) : Type_ :=
  match fields !! TAG_MSG_TYPE with
  | None => default
  | Some mt =>
      if is_lit mt "D" then NewOrderSingle
      else if is_lit mt "F" then OrderCancelRequest
      else if is_lit mt "8" then ExecutionReportMsg
      else if is_lit mt "0" then Heartbeat
      else if is_lit mt "A" then Logon
      else if is_lit mt "5" then Logout
      else default
  end.

Definition field_str (f : Z * str) : str := to_string f.1 ++ "="%char :: f.2.

Definition serialize `{!UnorderedMap} (msg : t) : str :=
  join "|"%char (field_str <$> map_entries (fields msg)).

(** One token of the text: a token without [=] is skipped, a tag that is no
    number throws. *)
Definition parse_token (fields : gmap Z str) (token : str) : throws (gmap Z str) :=
  match find_char "="%char token with
  | None => inr fields
  | Some eq =>
      try tag <- stoi (take eq token);
      inr (<[tag := drop (eq + 1) token]> fields)
  end.

Definition parse_tokens (tokens : list str) (fields : gmap Z str) : throws (gmap Z str) :=
  fold_left (fun acc token => try fields <- acc; parse_token fields token) tokens (inr fields).

Definition deserialize (raw : str) : throws t :=
  try fields <- parse_tokens (getline_all "|"%char raw) ∅;
  inr (mk (type_from_fields Heartbeat fields) fields).

End FixMessage.

(** ** The adapter *)

Module FixAdapter.

Record Config := mkConfig {
  venue_id : VenueId;
  sender_comp_id : str;
  target_comp_id : str;
  simulated_latency : Z
}.

Record t := mk {
  config_ : Config;
  connected_ : bool;
  incoming_queue_ : list FixMessage.t;
  sent_log_ : list FixMessage.t;
  active_orders_ : gmap OrderId Order;
  msg_seq_num_ : Z
}.

Definition create (config : Config) : t := mk config false [] [] ∅ 0.

(** *** Translation *)

Definition comp_ids (config : Config) (fields : gmap Z str) : gmap Z str :=
  <[TAG_TARGET_COMP_ID := target_comp_id config]>
    (<[TAG_SENDER_COMP_ID := sender_comp_id config]> fields).

Definition order_to_fix (config : Config) (order : Order) : FixMessage.t :=
  let fields : gmap Z str := <[TAG_MSG_TYPE := lit "D"]> ∅ in
  let fields := <[TAG_CL_ORD_ID := id_to_str (o_client_order_id order)]> fields in
  let fields := <[TAG_SYMBOL := FixedString.view (o_symbol order)]> fields in
  let fields := <[TAG_SIDE := [side_to_fix (o_side order)]]> fields in
  let fields := <[TAG_ORDER_QTY := qty_to_str (o_quantity order)]> fields in
  let fields := <[TAG_ORD_TYPE := [ord_type_to_fix (o_type order)]]> fields in
  let fields := <[TAG_TIME_IN_FORCE := [tif_to_fix (o_tif order) (o_type order)]]> fields in
  let fields := comp_ids config fields in
  FixMessage.mk FixMessage.NewOrderSingle
    (if negb (bool_decide (o_type order = OT_Market)) && negb (o_price order =? INVALID_PRICE)
     then <[TAG_PRICE := price_to_str (o_price order)]> fields else fields).

Definition cancel_to_fix (config : Config) (request : CancelRequest) : FixMessage.t :=
  let fields : gmap Z str := <[TAG_MSG_TYPE := lit "F"]> ∅ in
  let fields := <[TAG_CL_ORD_ID := id_to_str (c_client_order_id request)]> fields in
  let fields := <[TAG_ORIG_CL_ORD_ID := id_to_str (c_order_id request)]> fields in
  let fields := <[TAG_SYMBOL := FixedString.view (c_symbol request)]> fields in
  let fields := <[TAG_SIDE := [side_to_fix (c_side request)]]> fields in
  FixMessage.mk FixMessage.OrderCancelRequest (comp_ids config fields).

Definition get (msg : FixMessage.t) (tag : Z) : str := default [] (FixMessage.fields msg !! tag).

Definition exec_from_fix (msg : FixMessage.t) (now : Timestamp) : throws ExecutionReport :=
  let order_id_str := get msg TAG_ORDER_ID in
  try order_id <- id_from_str (if bool_decide (order_id_str = []) then get msg TAG_CL_ORD_ID
                               else order_id_str);
  try exec_id <- id_from_str (get msg TAG_EXEC_ID);
  let state := ord_status_from_fix (get msg TAG_ORD_STATUS) in
  try last_price <- price_from_str (get msg TAG_LAST_PX);
  try last_quantity <- qty_from_str (get msg TAG_LAST_QTY);
  try avg_price <- price_from_str (get msg TAG_AVG_PX);
  try cum_quantity <- qty_from_str (get msg TAG_CUM_QTY);
  try leaves_quantity <- qty_from_str (get msg TAG_LEAVES_QTY);
  let text := get msg TAG_TEXT in
  inr (mkReport order_id exec_id state last_price last_quantity avg_price cum_quantity
         leaves_quantity 0 now
         (if bool_decide (text = []) then FixedString.empty_string 64
          else FixedString.assign 64 (FixedString.empty_string 64) text)).

(** *** Operations *)

(** [++msg_seq_num_] into tag 34, and the message into the log. *)
Definition send (a : t) (msg : FixMessage.t) : t :=
  let seq := u32 (msg_seq_num_ a + 1) in
  { a with msg_seq_num_ := seq;
           sent_log_ ::= fun l => l ++
             [FixMessage.mk (FixMessage.type msg)
                (<[TAG_MSG_SEQ_NUM := to_string seq]> (FixMessage.fields msg))] }.

Definition session_message (config : Config) (type : FixMessage.Type_) (mt : string) : FixMessage.t :=
  FixMessage.mk type (comp_ids config (<[TAG_MSG_TYPE := lit mt]> ∅)).

(** The operations step by step: [connected_] is an atomic that is read and
    written outside the mutex.  [connect] first takes the flag and then logs
    its Logon under the mutex; *)
Definition connect_take (a : t) : bool * t :=
  if connected_ a then (false, a) else (true, { a with connected_ := true }).

Definition connect_logon (a : t) : t := send a (session_message (config_ a) FixMessage.Logon "A").

(** [disconnect] first logs its Logout under the mutex, if the flag is up,
    and then lowers the flag; *)
Definition disconnect_logout (a : t) : t :=
  if connected_ a then send a (session_message (config_ a) FixMessage.Logout "5") else a.

Definition disconnect_lower (a : t) : t := { a with connected_ := false }.

Definition is_connected (a : t) : bool := connected_ a.

(** [send_order] and [cancel_order] first read the flag; this is the rest,
    under the mutex.  [emplace] keeps an order that is already there. *)
Definition send_order_locked (a : t) (order : Order) : bool * t :=
  let a := { a with active_orders_ ::= fun os =>
               match os !! o_id order with Some _ => os | None => <[o_id order := order]> os end } in
  (true, send a (order_to_fix (config_ a) order)).

Definition cancel_order_locked (a : t) (request : CancelRequest) : bool * t :=
  match active_orders_ a !! c_order_id request with
  | None => (false, a)
  | Some _ => (true, send a (cancel_to_fix (config_ a) request))
  end.

Definition is_final (s : OrderState) : bool :=
  bool_decide (s = Filled) || bool_decide (s = Canceled) || bool_decide (s = Rejected)
  || bool_decide (s = Expired).

(** The tracked order after a report. *)
Definition track (a : t) (report : ExecutionReport) : t :=
  match active_orders_ a !! r_order_id report with
  | None => a
  | Some tracked =>
      if is_final (r_state report)
      then { a with active_orders_ ::= delete (r_order_id report) }
      else { a with active_orders_ ::= fun os =>
               <[r_order_id report :=
                   { tracked with o_filled_quantity := r_cum_quantity report;
                                  o_remaining_quantity := r_leaves_quantity report;
                                  o_avg_fill_price := r_avg_price report }]> os }
  end.

(** The loop of [process_incoming]: the state, the reports notified, and the
    exception that ended it, if any; the message that threw is gone. *)
Fixpoint drain (a : t) (queue : list FixMessage.t) (clk : nat -> Timestamp) (i : nat)
    : t * list ExecutionReport * option exn :=
  match queue with
  | [] => ({ a with incoming_queue_ := [] }, [], None)
  | msg :: queue =>
      if negb (bool_decide (FixMessage.type msg = FixMessage.ExecutionReportMsg))
      then drain a queue clk i
      else match exec_from_fix msg (clk i) with
      | inl e => ({ a with incoming_queue_ := queue }, [], Some e)
      | inr report =>
          let report := { report with r_venue_id := venue_id (config_ a) } in
          let '(a, reports, e) := drain (track a report) queue clk (S i) in
          (a, report :: reports, e)
      end
  end.

Definition process_incoming (a : t) (clk : nat -> Timestamp)
    : t * list ExecutionReport * option exn :=
  drain a (incoming_queue_ a) clk 0.

Definition inject_message (a : t) (msg : FixMessage.t) : t :=
  { a with incoming_queue_ ::= fun q => q ++ [msg] }.

Inductive op :=
| Connect | Disconnect
| SendOrder (order : Order)
| CancelOrder (request : CancelRequest)
| ProcessIncoming (clk : nat -> Timestamp)
| Inject (msg : FixMessage.t).

(** A thread inside one of the calls of two steps, by what is left of it. *)
Inductive pc :=
| Idle
| Connecting
| Disconnecting
| Sending (order : Order)
| Cancelling (request : CancelRequest).

(** The first step of a call: the state, what is left of it, its answer if it
    ends here, and the reports notified. *)
Definition call_step (a : t) (o : op) : t * pc * option bool * list ExecutionReport :=
  match o with
  | Connect => let '(taken, a) := connect_take a in if taken then (a, Connecting, None, []) else (a, Idle, Some false, [])
  | Disconnect => (disconnect_logout a, Disconnecting, None, [])
  | SendOrder order => if negb (is_connected a) then (a, Idle, Some false, []) else (a, Sending order, None, [])
  | CancelOrder request => if negb (is_connected a) then (a, Idle, Some false, []) else (a, Cancelling request, None, [])
  | ProcessIncoming clk => let '(a, rs, _) := process_incoming a clk in (a, Idle, None, rs)
  | Inject msg => (inject_message a msg, Idle, None, [])
  end.

(** The second step, and what the call answers. *)
Definition rest_step (a : t) (p : pc) : t * list (op * bool) :=
  match p with
  | Idle => (a, [])
  | Connecting => (connect_logon a, [(Connect, true)])
  | Disconnecting => (disconnect_lower a, [])
  | Sending order => let '(ok, a) := send_order_locked a order in (a, [(SendOrder order, ok)])
  | Cancelling request => let '(ok, a) := cancel_order_locked a request in (a, [(CancelOrder request, ok)])
  end.

(** Any number of threads, each in at most one call. *)
Record system := mkSys {
  adapter : t;
  threads : nat -> pc;
  notified : list ExecutionReport;
  received : list FixMessage.t;      (** the messages injected so far *)
  answers : list (op * bool)         (** the calls that have answered, with their answers *)
}.

Inductive move := Call (i : nat) (o : op) | Step (i : nat).

Definition answered (o : op) (b : option bool) : list (op * bool) :=
  match b with Some b => [(o, b)] | None => [] end.

Definition step (s : system) (m : move) : system :=
  match m with
  | Call i o =>
      match threads s i with
      | Idle =>
          let '(a, p, b, rs) := call_step (adapter s) o in
          mkSys a (set_thread (threads s) i p) (notified s ++ rs)
            (received s ++ match o with Inject msg => [msg] | _ => [] end) (answers s ++ answered o b)
      | _ => s
      end
  | Step i =>
      let '(a, b) := rest_step (adapter s) (threads s i) in
      mkSys a (set_thread (threads s) i Idle) (notified s) (received s) (answers s ++ b)
  end.

Definition run (config : Config) (ms : list move) : system :=
  fold_left step ms (mkSys (create config) (fun _ => Idle) [] [] []).

End FixAdapter.

(** ** Messages survive their text form *)

Definition no_bar (s : str) : Prop := "|"%char ∉ s.

#[export] Instance no_bar_dec s : Decision (no_bar s).
Proof. unfold no_bar. apply _. Defined.

(** What a value must be to be written between delimiters. *)
Definition printable (fields : gmap Z str) : Prop :=
  map_Forall (fun tag v => in_i32 tag /\ no_bar v) fields.

#[global] Instance in_i32_dec z : Decision (in_i32 z).
Proof. unfold in_i32. apply _. Defined.

Lemma digit_no_delimiter c : c = "|"%char \/ c = "="%char -> ~ is_digit c /\ c <> "-"%char.
Proof. intros [-> | ->]; (split; [intros [v Hv]; discriminate Hv|done]). Qed.

Lemma to_string_no_bar z : no_bar (to_string z).
Proof. apply to_string_no_char; by apply digit_no_delimiter; left. Qed.

Lemma to_string_no_eq z : "="%char ∉ to_string z.
Proof. apply to_string_no_char; by apply digit_no_delimiter; right. Qed.

Lemma parse_field tag v fields :
  in_i32 tag -> FixMessage.parse_token fields (FixMessage.field_str (tag, v)) = inr (<[tag := v]> fields).
Proof.
  intros Ht. unfold FixMessage.parse_token, FixMessage.field_str. cbn [fst snd].
  rewrite find_char_app by apply to_string_no_eq. rewrite take_app_length, stoi_to_string by done.
  by rewrite drop_app_add.
Qed.

Lemma parse_fields_fold l m :
  Forall (fun kv => in_i32 kv.1) l ->
  FixMessage.parse_tokens (FixMessage.field_str <$> l) m
  = inr (fold_left (fun m kv => <[kv.1 := kv.2]> m) l m).
Proof.
  intros Hl. unfold FixMessage.parse_tokens. revert m; induction Hl as [|[tag v] l Ht _ IH]; intros m; [done|].
  cbn [fmap list_fmap fold_left fst snd]. rewrite parse_field by done. apply IH.
Qed.

Lemma fold_insert_list_to_map (l : list (Z * str)) (m : gmap Z str) :
  NoDup l.*1 -> fold_left (fun m kv => <[kv.1 := kv.2]> m) l m = list_to_map l ∪ m.
Proof.
  revert m; induction l as [|[k v] l IH]; intros m; cbn; [by rewrite map_empty_union|].
  intros [Hk Hl]%NoDup_cons. rewrite IH by done.
  rewrite <- insert_union_l, insert_union_r; [done|by apply not_elem_of_list_to_map_1].
Qed.

(** The fields written, in whatever order, and read back. *)
Lemma parse_serialized `{!UnorderedMap} fields :
  printable fields ->
  FixMessage.parse_tokens (getline_all "|"%char
    (join "|"%char (FixMessage.field_str <$> map_entries fields))) ∅ = inr fields.
Proof.
  intros Hp. pose proof (map_entries_perm _ fields) as Hperm.
  assert (Forall (fun kv => in_i32 kv.1 /\ no_bar kv.2) (map_entries fields)) as Hall.
  { rewrite Hperm. apply Forall_forall. intros [k v] Hin%elem_of_map_to_list. exact (Hp k v Hin). }
  rewrite getline_all_join.
  - rewrite parse_fields_fold by (eapply Forall_impl; [exact Hall|]; by intros ? []).
    rewrite fold_insert_list_to_map, map_union_empty by (rewrite Hperm; apply NoDup_fst_map_to_list).
    f_equal. erewrite (list_to_map_proper _ (map_to_list fields)); [apply list_to_map_to_list| |done].
    rewrite Hperm. apply NoDup_fst_map_to_list.
  - apply Forall_fmap. eapply Forall_impl; [exact Hall|]. intros [k v] [_ Hv]. cbn in *. split.
    + unfold FixMessage.field_str. cbn. rewrite elem_of_app, elem_of_cons.
      intros [Hb|[Hb|Hb]]; [by eapply to_string_no_bar|done|by apply Hv].
    + unfold FixMessage.field_str. by intros [_ [=]]%app_eq_nil.
Qed.

(** ** The text of a price *)

Lemma scan_digits_value l acc :
  Forall is_digit l ->
  (scan_digits 10 l acc).1.1 = acc * 10 ^ Z.of_nat (length l) + (scan_digits 10 l 0).1.1.
Proof.
  intros Hl. revert acc; induction Hl as [|c l [v Hv] Hl IH]; intros acc; [cbn; lia|].
  cbn [scan_digits length]. rewrite Hv.
  pose proof (IH (acc * 10 + v)) as H1. pose proof (IH (0 * 10 + v)) as H2.
  destruct (scan_digits 10 l (acc * 10 + v)) as [[? ?] ?], (scan_digits 10 l (0 * 10 + v)) as [[? ?] ?].
  cbn [fst] in *. rewrite H1, H2. rewrite Nat2Z.inj_succ, Z.pow_succ_r by lia. lia.
Qed.

Lemma scan_digits_zeros k : (scan_digits 10 (replicate k "0"%char) 0).1.1 = 0.
Proof.
  induction k as [|k IH]; [done|]. cbn [replicate scan_digits].
  change (digit_value 10 "0"%char) with (Some 0). cbn beta iota. change (0 * 10 + 0) with 0.
  by destruct (scan_digits 10 (replicate k _) 0) as [[? ?] ?].
Qed.

Lemma zeros_digits k : Forall is_digit (replicate k "0"%char).
Proof. apply Forall_replicate. by exists 0. Qed.

Lemma scan_digits_split l k acc :
  Forall is_digit l -> Forall is_digit k ->
  (scan_digits 10 (l ++ k) acc).1.1
  = (scan_digits 10 l acc).1.1 * 10 ^ Z.of_nat (length k) + (scan_digits 10 k 0).1.1.
Proof.
  intros Hl Hk. revert acc; induction Hl as [|c l [v Hv] _ IH]; intros acc.
  - cbn [app]. by rewrite scan_digits_value.
  - cbn [app scan_digits]. rewrite Hv. specialize (IH (acc * 10 + v)).
    destruct (scan_digits 10 (l ++ k) _) as [[? ?] ?], (scan_digits 10 l _) as [[? ?] ?]. done.
Qed.

(** The zeros cut at the end stop before the point. *)
Lemma trim_price_rev_digits R X :
  R <> [] -> "."%char ∉ R ->
  exists k R', R = replicate k "0"%char ++ R' /\ R' <> [] /\
    trim_price_rev (R ++ "."%char :: X) = R' ++ "."%char :: X.
Proof.
  induction R as [|c R IH]; [done|]. intros _ Hdot. apply not_elem_of_cons in Hdot as [Hc HR].
  destruct R as [|c' R].
  - exists O, [c]. split_and!; [done|done|]. cbn. rewrite andb_false_r. done.
  - destruct (decide (c = "0"%char)) as [->|Hne].
    + destruct IH as (k & R' & HR' & Hne & IH); [done|done|].
      exists (S k), R'. split_and!; [by rewrite HR'|done|]. rewrite <- IH.
      apply not_elem_of_cons in HR as [Hc' _]. cbn [app trim_price_rev].
      by rewrite bool_decide_eq_true_2, bool_decide_eq_false_2 by congruence.
    + exists O, (c :: c' :: R). split_and!; [done|done|].
      cbn [app trim_price_rev]. by rewrite bool_decide_eq_false_2.
Qed.

Lemma digit_facts c :
  is_digit c -> c <> "."%char /\ lower c = c /\ c <> "x"%char /\ c <> "i"%char /\ c <> "n"%char.
Proof.
  intros [v Hv]. split_and!; try (intros ->; discriminate Hv).
  unfold lower. destruct (Z.leb_spec 65 (code c)); [|done].
  unfold digit_value in Hv. repeat case_match; simplify_eq; case_tests; try lia; done.
Qed.

Lemma print_nat_nonneg z : 0 <= z -> to_string z = print_nat z.
Proof. intros. unfold to_string. by rewrite (proj2 (Z.ltb_ge z 0)). Qed.

(** The shape of a price: the whole part, and the fraction without its
    trailing zeros. *)
Lemma price_to_str_shape p :
  in_i64 p -> p <> INT64_MIN ->
  exists F, price_to_str p = (if p <? 0 then lit "-" else [])
                             ++ print_nat (Z.abs p / PRICE_SCALE) ++ "."%char :: F
    /\ F <> [] /\ Forall is_digit F /\ (length F <= 8)%nat
    /\ (scan_digits 10 F 0).1.1 * 10 ^ (8 - Z.of_nat (length F)) = Z.abs p mod PRICE_SCALE.
Proof.
  intros Hp Hmin. unfold price_to_str.
  assert ((if p <? 0 then i64_opp p else p) = Z.abs p) as ->.
  { unfold i64_opp. destruct (Z.ltb_spec p 0); [rewrite i64_id|]; mlia. }
  pose proof (Z.mod_pos_bound (Z.abs p) PRICE_SCALE ltac:(done)) as Hm.
  assert (i64 (Z.rem (Z.abs p) PRICE_SCALE) = Z.abs p mod PRICE_SCALE) as ->.
  { rewrite Z.rem_mod_nonneg by (unfold PRICE_SCALE; lia). apply i64_id. unfold PRICE_SCALE in *. mlia. }
  assert (i64 (Z.quot (Z.abs p) PRICE_SCALE) = Z.abs p / PRICE_SCALE) as Hq.
  { rewrite Z.quot_div_nonneg by (unfold PRICE_SCALE; lia). apply i64_id.
    pose proof (Z.div_le_upper_bound (Z.abs p) PRICE_SCALE (Z.abs p) ltac:(done)).
    pose proof (Z.div_pos (Z.abs p) PRICE_SCALE). unfold PRICE_SCALE in *. mlia. }
  rewrite ?Hq. clear Hq.
  set (frac := Z.abs p mod PRICE_SCALE) in *.
  destruct (print_padded_digits 8 frac) as (k & HD & Hlen); [lia|].
  specialize (Hlen (digits_length _ frac 7 ltac:(unfold PRICE_SCALE in Hm; cbn; lia))).
  set (D := print_padded 8 frac) in *.
  assert (Forall is_digit D) as HdD.
  { rewrite HD. apply Forall_app. split; [apply zeros_digits|apply print_nat_digits; lia]. }
  assert ((scan_digits 10 D 0).1.1 = frac) as Hval.
  { rewrite HD, scan_digits_split, scan_digits_zeros by (apply zeros_digits || apply print_nat_digits; lia).
    rewrite <- (app_nil_r (print_nat frac)) at 1 2. rewrite scan_print_nat by (done || lia). cbn. lia. }
  destruct (trim_price_rev_digits (rev D)
    (rev ((if p <? 0 then lit "-" else []) ++ to_string (Z.abs p / PRICE_SCALE)))) as (j & R' & HR & Hne & Htrim).
  { intros E. apply (f_equal length) in E. rewrite length_rev, Hlen in E. done. }
  { rewrite list_elem_of_In, <- in_rev, <- list_elem_of_In. intros Hin. rewrite Forall_forall in HdD. by apply HdD, digit_facts in Hin as []. }
  assert (D = rev R' ++ replicate j "0"%char) as HD'.
  { rewrite <- (rev_involutive D), HR, rev_app_distr, (rev_alt (replicate _ _)). f_equal. apply reverse_replicate. }
  exists (rev R'). rewrite HD' in HdD, Hlen, Hval. apply Forall_app in HdD as [HdR Hd0].
  rewrite length_app, length_replicate in Hlen.
  rewrite scan_digits_split, scan_digits_zeros, length_replicate in Hval by done.
  split_and!; [|by intros E; apply Hne; rewrite <- (rev_involutive R'), E|done|lia|].
  - change (lit "." ++ ?d) with ("."%char :: d). rewrite app_assoc, rev_app_distr. cbn [rev].
    rewrite <- app_assoc. cbn [app]. rewrite Htrim, rev_app_distr. cbn [rev].
    rewrite rev_involutive, <- !app_assoc. cbn [app].
    rewrite print_nat_nonneg by (apply Z.div_pos; [lia|done]). done.
  - replace (8 - Z.of_nat (length (rev R'))) with (Z.of_nat j) by lia. lia.
Qed.

Lemma no_prefix p (s : str) c :
  c ∈ p -> Forall (fun x => lower x <> c) s -> has_prefix p s = false.
Proof.
  intros Hc Hs. unfold has_prefix. apply bool_decide_eq_false_2. intros E.
  assert (c ∈ lower <$> s) as (x & -> & Hx)%list_elem_of_fmap.
  { rewrite <- E in Hc. eapply elem_of_sublist; [exact Hc|apply sublist_take]. }
  rewrite Forall_forall in Hs. by apply (Hs x).
Qed.

(** [stod] on a sign, digits, a point and digits: the decimal, rounded once. *)
Lemma stod_decimal_text (neg : bool) whole F :
  0 <= whole -> Forall is_digit F -> F <> [] ->
  stod ((if neg then lit "-" else []) ++ print_nat whole ++ "."%char :: F)
  = checked neg (whole * 10 ^ Z.of_nat (length F) + (scan_digits 10 F 0).1.1)
      (scaled_double 10 (whole * 10 ^ Z.of_nat (length F) + (scan_digits 10 F 0).1.1)
         (- Z.of_nat (length F))).
Proof.
  intros Hw HF Hne. pose proof (print_nat_digits whole Hw) as Hd.
  set (s := print_nat whole ++ "."%char :: F).
  assert (scan_sign (skip_spaces ((if neg then lit "-" else []) ++ s)) = (neg, s)) as Hsign.
  { destruct neg; [done|]. unfold s. destruct (print_nat whole) as [|c l] eqn:E;
      [by apply digits_nonempty in E|]. apply Forall_cons in Hd as [(Hsp & Hm & Hp)%digit_not_space _].
    cbn [app skip_spaces]. rewrite Hsp. unfold scan_sign. repeat case_match; congruence. }
  assert (forall c, lower "."%char <> c -> (forall x, is_digit x -> x <> c) ->
    Forall (fun x => lower x <> c) s) as Hall.
  { intros c Hdot Hc. assert (forall l, Forall is_digit l -> Forall (fun x => lower x <> c) l) as H.
    { intros l Hl. eapply Forall_impl; [exact Hl|]. cbn. intros x Hx.
      rewrite (proj1 (proj2 (digit_facts x Hx))). by apply Hc. }
    apply Forall_app. split; [by apply H|apply Forall_cons; split; [done|by apply H]]. }
  unfold stod, scan_number. rewrite Hsign.
  rewrite (no_prefix (lit "inf") s "i"%char), (no_prefix (lit "nan") s "n"%char),
    (no_prefix (lit "0x") s "x"%char).
  2-7: try (apply Hall; [done|intros x Hx; by apply digit_facts in Hx as (? & ? & ? & ? & ?)]);
       apply list_elem_of_In; cbn; tauto.
  unfold scan_decimal, scan_mantissa, s. rewrite scan_print_nat by done. cbn iota beta.
  pose proof (scan_digits_app F [] whole HF I) as HsF. rewrite app_nil_r in HsF. rewrite HsF.
  rewrite scan_digits_value by done.
  destruct F as [|f F]; [done|]. cbn [length]. rewrite Nat.add_succ_r. cbn [Nat.eqb scan_exponent].
  rewrite Nat.add_succ_r. cbn [Nat.eqb]. done.
Qed.

Lemma price_text p :
  in_i64 p -> p <> INT64_MIN ->
  exists mant frac, 0 <= frac <= 8 /\ mant * 10 ^ (8 - frac) = Z.abs p /\
    price_to_str p <> [] /\ no_bar (price_to_str p) /\
    stod (price_to_str p) = checked (p <? 0) mant (scaled_double 10 mant (- frac)).
Proof.
  intros Hp Hmin. destruct (price_to_str_shape p Hp Hmin) as (F & -> & Hne & HF & Hl & Hv).
  pose proof (Z.div_pos (Z.abs p) PRICE_SCALE ltac:(lia) ltac:(done)) as Hw.
  pose proof (print_nat_digits _ Hw) as Hd.
  eexists _, (Z.of_nat (length F)). split_and!; [lia|lia| | | |by apply stod_decimal_text].
  - rewrite Z.mul_add_distr_r, Hv, <- Z.mul_assoc, <- Z.pow_add_r by lia.
    replace (Z.of_nat (length F) + (8 - Z.of_nat (length F))) with 8 by lia.
    change (10 ^ 8) with PRICE_SCALE. rewrite (Z.div_mod (Z.abs p) PRICE_SCALE) at 3 by done. lia.
  - destruct (print_nat _) eqn:E; [by apply digits_nonempty in E|]. by destruct (p <? 0).
  - unfold no_bar. rewrite !elem_of_app, elem_of_cons.
    assert (forall l, Forall is_digit l -> "|"%char ∉ l) as Hb.
    { intros l Hl' Hin. rewrite Forall_forall in Hl'. apply Hl' in Hin.
      by destruct (digit_no_delimiter "|"%char (or_introl eq_refl)) as [Hn _]; apply Hn. }
    intros [H|[H|[H|H]]]; [|by apply (Hb _ Hd)|done|by apply (Hb _ HF)].
    destruct (p <? 0); cbn in H; [by apply list_elem_of_singleton in H|by apply elem_of_nil in H].
Qed.

(** ** Properties *)

(** C32. A message whose values hold no delimiter survives its text form: in
    whatever order the hash map writes the fields, [deserialize] gives back
    exactly the fields, and the type their tag 35 names. *)
Theorem fix_roundtrip `{!UnorderedMap} msg :
  printable (FixMessage.fields msg) ->
  FixMessage.deserialize (FixMessage.serialize msg)
  = inr (FixMessage.mk (FixMessage.type_from_fields FixMessage.Heartbeat (FixMessage.fields msg))
           (FixMessage.fields msg)).
Proof.
  intros Hp. unfold FixMessage.deserialize, FixMessage.serialize. by rewrite parse_serialized.
Qed.

(** What the receiver of an order's text reads from it. *)
Definition reads_order (config : FixAdapter.Config) (order : Order) (msg : FixMessage.t) : Prop :=
  let get := FixAdapter.get msg in
  FixMessage.type msg = FixMessage.NewOrderSingle /\
  id_from_str (get TAG_CL_ORD_ID) = inr (o_client_order_id order) /\
  get TAG_SYMBOL = FixedString.view (o_symbol order) /\
  side_from_fix (get TAG_SIDE) = o_side order /\
  qty_from_str (get TAG_ORDER_QTY) = inr (o_quantity order) /\
  ord_type_from_fix (get TAG_ORD_TYPE) (get TAG_TIME_IN_FORCE) = match o_type order, o_tif order with
    | OT_Limit, TIF_IOC => OT_IOC | OT_Limit, TIF_FOK => OT_FOK | t, _ => t end /\
  tif_from_fix (get TAG_TIME_IN_FORCE) = match o_type order with
    | OT_IOC => TIF_IOC | OT_FOK => TIF_FOK | _ => o_tif order end /\
  (get TAG_SENDER_COMP_ID, get TAG_TARGET_COMP_ID)
    = (FixAdapter.sender_comp_id config, FixAdapter.target_comp_id config) /\
  if decide (o_type order = OT_Market \/ o_price order = INVALID_PRICE)
  then FixMessage.fields msg !! TAG_PRICE = None
  else exists mant frac, 0 <= frac <= 8 /\ mant * 10 ^ (8 - frac) = Z.abs (o_price order) /\
    price_from_str (get TAG_PRICE)
    = try d <- checked (o_price order <? 0) mant (scaled_double 10 mant (- frac)); inr (to_price d).

Lemma id_text id : in_u64 id -> id_from_str (id_to_str id) = inr id.
Proof.
  intros H. unfold id_from_str, id_to_str. rewrite stoull_to_string by done.
  by destruct (to_string id) eqn:E; [apply to_string_nonempty in E|].
Qed.

Lemma qty_text q : in_i64 q -> qty_from_str (qty_to_str q) = inr q.
Proof.
  intros H. unfold qty_from_str, qty_to_str. rewrite stoll_to_string by done.
  by destruct (to_string q) eqn:E; [apply to_string_nonempty in E|].
Qed.

Lemma order_to_fix_reads config order :
  in_u64 (o_client_order_id order) -> in_i64 (o_quantity order) ->
  in_i64 (o_price order) -> o_price order <> INT64_MIN ->
  reads_order config order (FixAdapter.order_to_fix config order).
Proof.
  intros Hid Hq Hp Hmin. unfold reads_order, FixAdapter.order_to_fix, FixAdapter.comp_ids, FixAdapter.get.
  cbn [FixMessage.type FixMessage.fields].
  set (base := <[TAG_TARGET_COMP_ID := _]> _).
  assert (forall tag, tag <> TAG_PRICE ->
    (if negb (bool_decide (o_type order = OT_Market)) && negb (o_price order =? INVALID_PRICE)
     then <[TAG_PRICE := price_to_str (o_price order)]> base else base) !! tag = base !! tag) as Hbase.
  { intros tag Ht. destruct (_ && _); [|done]. by apply lookup_insert_ne. }
  rewrite !Hbase by done. unfold base.
  repeat (rewrite lookup_insert_eq || rewrite lookup_insert_ne by done). cbn [default].
  split; [done|]. split; [by apply id_text|]. split; [done|]. split; [by destruct (o_side order)|].
  split; [by apply qty_text|]. split; [by destruct (o_type order), (o_tif order)|].
  split; [by destruct (o_type order), (o_tif order)|]. split; [done|].
  destruct (bool_decide_reflect (o_type order = OT_Market)); cbn [negb andb].
  - rewrite decide_True by tauto. unfold base. by repeat rewrite lookup_insert_ne by done.
  - destruct (Z.eqb_spec (o_price order) INVALID_PRICE); cbn [negb].
    + rewrite decide_True by tauto. unfold base. by repeat rewrite lookup_insert_ne by done.
    + rewrite decide_False by tauto. rewrite lookup_insert_eq. cbn [default].
      destruct (price_text _ Hp Hmin) as (mant & frac & ? & ? & ? & _ & Hs). exists mant, frac.
      split; [done|]. split; [done|]. unfold price_from_str, id. rewrite Hs. by destruct (price_to_str _) eqn:E.
Qed.

Lemma comp_ids_printable config fields :
  no_bar (FixAdapter.sender_comp_id config) -> no_bar (FixAdapter.target_comp_id config) ->
  printable fields -> printable (FixAdapter.comp_ids config fields).
Proof. intros. by repeat apply map_Forall_insert_2. Qed.

Lemma singleton_no_bar c : c <> "|"%char -> no_bar [c].
Proof. intros Hc Hin%list_elem_of_singleton. done. Qed.

Lemma order_to_fix_printable config order :
  no_bar (FixAdapter.sender_comp_id config) -> no_bar (FixAdapter.target_comp_id config) ->
  no_bar (FixedString.view (o_symbol order)) ->
  in_i64 (o_price order) -> o_price order <> INT64_MIN ->
  printable (FixMessage.fields (FixAdapter.order_to_fix config order)).
Proof.
  intros Hs Ht Hsym Hp Hmin. unfold FixAdapter.order_to_fix. cbn [FixMessage.fields].
  destruct (price_text _ Hp Hmin) as (? & ? & _ & _ & _ & Hb & _).
  assert (forall c, c <> "|"%char -> no_bar [c]) as Hc by exact singleton_no_bar.
  set (base := FixAdapter.comp_ids config _). assert (printable base) as Hbase.
  { apply comp_ids_printable; [done|done|].
    repeat (apply map_Forall_insert_2; [split; [done|]|]).
    1: by apply Hc; destruct (o_tif order), (o_type order).
    1: by apply Hc; destruct (o_type order).
    1: apply to_string_no_bar.
    1: by apply Hc; destruct (o_side order).
    1: done.
    1: apply to_string_no_bar.
    1: by apply (bool_decide_unpack _).
    apply map_Forall_empty. }
  destruct (_ && _); [|done]. by apply map_Forall_insert_2.
Qed.

(** What a venue reads from an order sent through its text form: the same
    client id, symbol, side, quantity, order type and time in force (a limit
    order with an IOC or FOK time in force reads as that type, an IOC or FOK
    order reads with that time in force), the session's ids, and for a priced
    order a price text that denotes the fixed-point price exactly and is
    rounded once. *)
Theorem order_survives_fix `{!UnorderedMap} config order :
  no_bar (FixAdapter.sender_comp_id config) -> no_bar (FixAdapter.target_comp_id config) ->
  no_bar (FixedString.view (o_symbol order)) ->
  in_u64 (o_client_order_id order) -> in_i64 (o_quantity order) ->
  in_i64 (o_price order) -> o_price order <> INT64_MIN ->
  exists msg, FixMessage.deserialize (FixMessage.serialize (FixAdapter.order_to_fix config order)) = inr msg
    /\ reads_order config order msg.
Proof.
  intros Hs Ht Hsym Hid Hq Hp Hmin. eexists. split.
  - unfold FixMessage.deserialize, FixMessage.serialize.
    rewrite parse_serialized by (by apply order_to_fix_printable). done.
  - pose proof (order_to_fix_reads config order Hid Hq Hp Hmin) as Hr.
    destruct Hr as [_ Hr]. split; [|exact Hr]. unfold FixMessage.type_from_fields.
    assert (FixMessage.fields (FixAdapter.order_to_fix config order) !! TAG_MSG_TYPE = Some (lit "D")) as ->;
      [|done].
    unfold FixAdapter.order_to_fix. cbn [FixMessage.fields]. unfold FixAdapter.comp_ids.
    destruct (_ && _); repeat (rewrite lookup_insert_eq || rewrite lookup_insert_ne by done); done.
Qed.

Lemma order_survives_fix_witness :
  exists msg, FixMessage.deserialize (FixMessage.serialize (FixAdapter.order_to_fix
      (FixAdapter.mkConfig 2 (lit "SOR_CLIENT") (lit "EXCHANGE") 100)
      { default_Order with o_client_order_id := 42; o_symbol := Symbol_of "AAPL";
                           o_price := 15012500000; o_quantity := 300 })) = inr msg
    /\ reads_order (FixAdapter.mkConfig 2 (lit "SOR_CLIENT") (lit "EXCHANGE") 100)
      { default_Order with o_client_order_id := 42; o_symbol := Symbol_of "AAPL";
                           o_price := 15012500000; o_quantity := 300 } msg.
Proof.
  apply order_survives_fix;
    try (by apply (bool_decide_unpack _)); try (vm_compute; split; congruence); vm_compute; congruence.
Defined.

Lemma fix_roundtrip_witness :
  FixMessage.deserialize (FixMessage.serialize
    (FixMessage.mk FixMessage.Logon {[35 := lit "A"; 49 := lit "ME"]}))
  = inr (FixMessage.mk FixMessage.Logon {[35 := lit "A"; 49 := lit "ME"]}).
Proof.
  etransitivity;
    [apply (fix_roundtrip (FixMessage.mk FixMessage.Logon {[35 := lit "A"; 49 := lit "ME"]}));
       by apply (bool_decide_unpack _)|reflexivity].
Defined.

(** ** Sessions of the adapter *)

Module Session.
Import FixAdapter.

(** The connected flag a log leaves behind, when every message of it was sent
    within a session. *)
Definition session_step (c : option bool) (msg : FixMessage.t) : option bool :=
  match c, FixMessage.type msg with
  | Some false, FixMessage.Logon => Some true
  | Some true, FixMessage.Logout => Some false
  | Some true, (FixMessage.NewOrderSingle | FixMessage.OrderCancelRequest) => Some true
  | _, _ => None
  end.

Definition session (log : list FixMessage.t) : option bool := fold_left session_step log (Some false).

(** The same for the Logons and Logouts alone. *)
Definition control_step (c : option bool) (msg : FixMessage.t) : option bool :=
  match FixMessage.type msg with
  | FixMessage.Logon | FixMessage.Logout => session_step c msg
  | _ => c
  end.

Definition control (log : list FixMessage.t) : option bool := fold_left control_step log (Some false).

(** Message number [i] of the log carries the number [i + 1] and the ids. *)
Definition numbered (config : Config) (log : list FixMessage.t) : Prop :=
  forall i msg, log !! i = Some msg ->
    FixMessage.fields msg !! TAG_MSG_SEQ_NUM = Some (to_string (u32 (Z.of_nat i + 1)))
    /\ get msg TAG_SENDER_COMP_ID = sender_comp_id config
    /\ get msg TAG_TARGET_COMP_ID = target_comp_id config.

(** Whether a report can be read: this does not depend on the clock. *)
Definition translates (msg : FixMessage.t) : bool :=
  bool_decide (FixMessage.type msg = FixMessage.ExecutionReportMsg)
  && match exec_from_fix msg 0 with inr _ => true | inl _ => false end.

Definition translation (config : Config) (msg : FixMessage.t) (report : ExecutionReport) : Prop :=
  exists now r, exec_from_fix msg now = inr r /\ report = { r with r_venue_id := venue_id config }.

(** What a message of the log was sent for: a session, or an order or a
    cancel someone asked to send. *)
Definition asked_for (config : Config) (ms : list move) (msg : FixMessage.t) : Prop :=
  exists seq m, msg = FixMessage.mk (FixMessage.type m) (<[TAG_MSG_SEQ_NUM := to_string seq]> (FixMessage.fields m)) /\
    (m = session_message config FixMessage.Logon "A" \/ m = session_message config FixMessage.Logout "5" \/
     (exists i order, Call i (SendOrder order) ∈ ms /\ m = order_to_fix config order) \/
     (exists i request, Call i (CancelOrder request) ∈ ms /\ m = cancel_to_fix config request)).

Record inv (config : Config) (s : system) (ms : list move) : Prop := {
  inv_config : config_ (adapter s) = config;
  inv_numbered : numbered config (sent_log_ (adapter s));
  inv_seq : msg_seq_num_ (adapter s) = u32 (Z.of_nat (length (sent_log_ (adapter s))));
  inv_asked : Forall (asked_for config ms) (sent_log_ (adapter s));
  inv_active : forall k o, active_orders_ (adapter s) !! k = Some o -> o_id o = k;
  inv_reports : exists taken, received s = taken ++ incoming_queue_ (adapter s)
    /\ Forall2 (translation config) (List.filter translates taken) (notified s);
  inv_sending : forall i order, threads s i = Sending order -> exists j, Call j (SendOrder order) ∈ ms;
  inv_cancelling : forall i request, threads s i = Cancelling request -> exists j, Call j (CancelOrder request) ∈ ms
}.

Lemma exec_clock msg now now' e : exec_from_fix msg now = inl e -> exec_from_fix msg now' = inl e.
Proof. unfold exec_from_fix. repeat case_match; congruence. Qed.

Lemma exec_translates msg now r :
  FixMessage.type msg = FixMessage.ExecutionReportMsg -> exec_from_fix msg now = inr r ->
  translates msg = true.
Proof.
  intros Ht Hr. unfold translates. rewrite bool_decide_eq_true_2 by done. cbn.
  destruct (exec_from_fix msg 0) as [e|] eqn:E; [|done].
  by rewrite (exec_clock _ _ now _ E) in Hr.
Qed.

(** [track] touches the active orders alone, and keeps them under their id. *)
Lemma track_frame a r :
  config_ (track a r) = config_ a /\ connected_ (track a r) = connected_ a /\
  sent_log_ (track a r) = sent_log_ a /\ msg_seq_num_ (track a r) = msg_seq_num_ a /\
  ((forall k o, active_orders_ a !! k = Some o -> o_id o = k) ->
   forall k o, active_orders_ (track a r) !! k = Some o -> o_id o = k).
Proof.
  unfold track. destruct (active_orders_ a !! r_order_id r) as [tr|] eqn:E; [|tauto].
  destruct (is_final _); fields; split_and!; try done; intros Ha k o Hk.
  - apply lookup_delete_Some in Hk as [_ Hk]. by apply Ha.
  - apply lookup_insert_Some in Hk as [[<- <-]|[_ Hk]]; [cbn; by apply Ha|by apply Ha].
Qed.

Lemma drain_spec q a clk i a' reports e :
  drain a q clk i = (a', reports, e) ->
  exists taken, q = taken ++ incoming_queue_ a' /\
    Forall2 (translation (config_ a)) (List.filter translates taken) reports /\
    config_ a' = config_ a /\ connected_ a' = connected_ a /\ sent_log_ a' = sent_log_ a /\
    msg_seq_num_ a' = msg_seq_num_ a /\
    ((forall k o, active_orders_ a !! k = Some o -> o_id o = k) ->
     forall k o, active_orders_ a' !! k = Some o -> o_id o = k).
Proof.
  revert a i a' reports e; induction q as [|msg q IH]; intros a i a' reports e H; cbn [drain] in H.
  { simplify_eq. exists []. fields. split_and!; done || constructor. }
  case_bool_decide as Ht; cbn [negb] in H.
  - destruct (exec_from_fix msg (clk i)) as [e'|r] eqn:Er.
    + simplify_eq. exists [msg]. fields. split_and!; try done.
      unfold translates. rewrite bool_decide_eq_true_2 by done.
      by rewrite (exec_clock _ _ 0 _ Er).
    + match type of H with context [track a ?r'] => set (rep := r') in * end.
      destruct (drain (track a rep) q clk (S i)) as [[a1 rs] e1] eqn:Ed. simplify_eq.
      apply IH in Ed as (taken & -> & Hf & Hc & Hcn & Hl & Hs & Ha).
      destruct (track_frame a rep) as (Tc & Tcn & Tl & Ts & Ta).
      exists (msg :: taken). split_and!; [done| |congruence..|by intros ?; apply Ha, Ta].
      cbn [List.filter]. rewrite (exec_translates _ _ _ Ht Er). constructor; [by exists (clk i), r|].
      by rewrite <- Tc.
  - apply IH in H as (taken & -> & Hf & Hrest). exists (msg :: taken). split_and!; try apply Hrest; [done|].
    cbn [List.filter]. unfold translates at 1. by rewrite bool_decide_eq_false_2.
Qed.

Lemma comp_ids_get type config fields :
  get (FixMessage.mk type (comp_ids config fields)) TAG_SENDER_COMP_ID = sender_comp_id config /\
  get (FixMessage.mk type (comp_ids config fields)) TAG_TARGET_COMP_ID = target_comp_id config.
Proof. unfold get, comp_ids. cbn. by rewrite lookup_insert_ne, !lookup_insert_eq. Qed.

Lemma order_ids config order :
  get (order_to_fix config order) TAG_SENDER_COMP_ID = sender_comp_id config /\
  get (order_to_fix config order) TAG_TARGET_COMP_ID = target_comp_id config.
Proof.
  unfold order_to_fix. destruct (_ && _); [|apply comp_ids_get].
  unfold get. cbn [FixMessage.fields]. rewrite !lookup_insert_ne by done.
  apply (comp_ids_get FixMessage.NewOrderSingle).
Qed.

Lemma cancel_ids config request :
  get (cancel_to_fix config request) TAG_SENDER_COMP_ID = sender_comp_id config /\
  get (cancel_to_fix config request) TAG_TARGET_COMP_ID = target_comp_id config.
Proof. apply comp_ids_get. Qed.

Lemma numbered_snoc config log msg :
  numbered config log -> get msg TAG_SENDER_COMP_ID = sender_comp_id config /\ get msg TAG_TARGET_COMP_ID = target_comp_id config ->
  numbered config (log ++ [FixMessage.mk (FixMessage.type msg)
    (<[TAG_MSG_SEQ_NUM := to_string (u32 (u32 (Z.of_nat (length log)) + 1))]> (FixMessage.fields msg))]).
Proof.
  intros Hn [Hsend Htarget] i m Hm. apply lookup_app_Some in Hm as [Hm|[Hge Hm]]; [by apply Hn|].
  apply list_lookup_singleton_Some in Hm as [Hi <-]. replace i with (length log) by lia.
  unfold get in *. cbn [FixMessage.fields]. rewrite lookup_insert_eq, !lookup_insert_ne by done.
  split_and!; [|done|done]. unfold u32, wrapu. by rewrite Z.add_mod_idemp_l.
Qed.

(** What the messages of a step are sent for. *)
Lemma asked_weaken config ms m msg : asked_for config ms msg -> asked_for config (ms ++ [m]) msg.
Proof.
  intros (seq & m0 & E & [H|[H|[(i & o & Hi & H)|(i & o & Hi & H)]]]); exists seq, m0; (split; [done|]); auto.
  - right. right. left. exists i, o. split; [apply elem_of_app; by left|done].
  - right. right. right. exists i, o. split; [apply elem_of_app; by left|done].
Qed.

(** The parts of the invariant about the adapter alone, when it sends. *)
Definition sound (config : Config) (ms : list move) (a : t) : Prop :=
  config_ a = config /\ numbered config (sent_log_ a) /\
  msg_seq_num_ a = u32 (Z.of_nat (length (sent_log_ a))) /\ Forall (asked_for config ms) (sent_log_ a) /\
  forall k o, active_orders_ a !! k = Some o -> o_id o = k.

Lemma send_sound config ms a msg : sound config ms a ->
  get msg TAG_SENDER_COMP_ID = sender_comp_id config /\ get msg TAG_TARGET_COMP_ID = target_comp_id config ->
  (msg = session_message config FixMessage.Logon "A" \/ msg = session_message config FixMessage.Logout "5" \/
   (exists i order, Call i (SendOrder order) ∈ ms /\ msg = order_to_fix config order) \/
   (exists i request, Call i (CancelOrder request) ∈ ms /\ msg = cancel_to_fix config request)) ->
  sound config ms (send a msg).
Proof.
  destruct a as [cfg conn q slog act seq]. intros (Hc & Hn & Hq & Hf & Ha) Hids Hm. unfold sound, send; fields.
  subst seq. split_and!; [done|by apply numbered_snoc| |apply Forall_app; split; [done|apply Forall_singleton; by eexists _, msg]|done].
  rewrite length_app. cbn [length]. unfold u32, wrapu. rewrite Z.add_mod_idemp_l by done. f_equal. lia.
Qed.

Lemma sound_weaken config ms m a : sound config ms a -> sound config (ms ++ [m]) a.
Proof.
  intros (? & ? & ? & Hf & ?). split_and!; try done. eapply Forall_impl; [exact Hf|]. apply asked_weaken.
Qed.

Lemma inv_sound config s ms : inv config s ms -> sound config ms (adapter s).
Proof. by intros []. Qed.

Lemma order_sound config ms a order : sound config ms a -> (exists j, Call j (SendOrder order) ∈ ms) ->
  sound config ms (send_order_locked a order).2.
Proof.
  intros (Hc & Hn & Hq & Hf & Ha) [j Hj]. unfold send_order_locked. cbn [snd].
  replace (config_ _) with config by (by destruct a). apply send_sound; [|apply order_ids|right; right; left; by exists j, order].
  destruct a as [cfg conn q slog act seq]. unfold sound; fields. split_and!; try done. intros k o.
  destruct (act !! o_id order) eqn:El; [apply Ha|]. intros [[<- <-]|[_ Hk]]%lookup_insert_Some; [done|by apply Ha].
Qed.

Lemma cancel_sound config ms a request : sound config ms a -> (exists j, Call j (CancelOrder request) ∈ ms) ->
  sound config ms (cancel_order_locked a request).2.
Proof.
  intros Hs [j Hj]. pose proof Hs as (Hc & _). unfold cancel_order_locked. destruct (active_orders_ a !! _); [|done].
  cbn [snd]. rewrite Hc. apply send_sound; [done|apply cancel_ids|right; right; right; by exists j, request].
Qed.

(** The reports waiting are untouched by all but [process_incoming] and
    [inject_message]. *)
Lemma queue_same :
  (forall a msg, incoming_queue_ (send a msg) = incoming_queue_ a) /\
  (forall a order, incoming_queue_ (send_order_locked a order).2 = incoming_queue_ a) /\
  (forall a request, incoming_queue_ (cancel_order_locked a request).2 = incoming_queue_ a).
Proof.
  split_and!; [by intros []|by intros []|]. intros a request. unfold cancel_order_locked.
  destruct (active_orders_ a !! _); by destruct a.
Qed.

Lemma inv_of config s ms : sound config ms (adapter s) ->
  (exists taken, received s = taken ++ incoming_queue_ (adapter s)
    /\ Forall2 (translation config) (List.filter translates taken) (notified s)) ->
  (forall i order, threads s i = Sending order -> exists j, Call j (SendOrder order) ∈ ms) ->
  (forall i request, threads s i = Cancelling request -> exists j, Call j (CancelOrder request) ∈ ms) ->
  inv config s ms.
Proof. by intros (? & ? & ? & ? & ?) ? ? ?. Qed.

Lemma call_step_inv config s ms i o : inv config s ms -> inv config (step s (Call i o)) (ms ++ [Call i o]).
Proof.
  intros Hi. pose proof (sound_weaken _ _ (Call i o) _ (inv_sound _ _ _ Hi)) as Hs.
  destruct Hi as [Hc _ _ _ _ (taken & Hrec & Hf) Hsend Hcanc]. destruct s as [a ths rs rec ans]. cbn in *.
  assert (forall j order, ths j = Sending order -> exists j, Call j (SendOrder order) ∈ ms ++ [Call i o]) as Hsend'.
  { intros j order E. destruct (Hsend j order E) as [k ?]. exists k. apply elem_of_app. by left. }
  assert (forall j request, ths j = Cancelling request -> exists j, Call j (CancelOrder request) ∈ ms ++ [Call i o]) as Hcanc'.
  { intros j request E. destruct (Hcanc j request E) as [k ?]. exists k. apply elem_of_app. by left. }
  assert (exists taken, rec = taken ++ incoming_queue_ a /\ Forall2 (translation config) (List.filter translates taken) rs) as Hq by eauto.
  assert (inv config (mkSys a ths rs rec ans) (ms ++ [Call i o])) as Hsame by by apply inv_of.
  assert (forall p, (forall order, p = Sending order -> o = SendOrder order) ->
    (forall request, p = Cancelling request -> o = CancelOrder request) -> forall a' b rs' rec',
    sound config (ms ++ [Call i o]) a' -> (exists taken, rec' = taken ++ incoming_queue_ a' /\
      Forall2 (translation config) (List.filter translates taken) rs') ->
    inv config (mkSys a' (set_thread ths i p) rs' rec' (ans ++ b)) (ms ++ [Call i o])) as Hnext.
  { intros p Hp1 Hp2 a' b rs' rec' Hs' Hq'. apply inv_of; cbn; [done|done|..]; intros j x; revert j.
    - apply (set_thread_all (fun p => p = Sending x -> _)); [|intros j _; by apply Hsend'].
      intros E. exists i. rewrite (Hp1 _ E). apply elem_of_app. right. by apply list_elem_of_singleton.
    - apply (set_thread_all (fun p => p = Cancelling x -> _)); [|intros j _; by apply Hcanc'].
      intros E. exists i. rewrite (Hp2 _ E). apply elem_of_app. right. by apply list_elem_of_singleton. }
  destruct (ths i); try done. destruct o as [| |order|request|clk|msg]; cbn [call_step app].
  - unfold connect_take. destruct (connected_ a); rewrite (app_nil_r rs), (app_nil_r rec); apply Hnext; try done; by destruct a.
  - rewrite (app_nil_r rs), (app_nil_r rec). unfold disconnect_logout. destruct (connected_ a); apply Hnext; try done.
    apply send_sound; [done|rewrite Hc; apply comp_ids_get|right; left; by rewrite Hc].
  - destruct (negb _); rewrite (app_nil_r rs), (app_nil_r rec); apply Hnext; try done. by intros ? [= ->].
  - destruct (negb _); rewrite (app_nil_r rs), (app_nil_r rec); apply Hnext; try done. by intros ? [= ->].
  - destruct (process_incoming a clk) as [[a' new] e] eqn:E. rewrite (app_nil_r rec).
    apply drain_spec in E as (more & Hq' & Hf' & Hc' & _ & Hl & Hq2 & Hact). destruct Hs as (_ & Hn & Hq0 & Hask & Ha).
    apply Hnext; try done.
    + unfold sound. rewrite Hl, Hq2, Hc'. split_and!; try done. by apply Hact.
    + exists (taken ++ more). rewrite Hrec, Hq', <- app_assoc. split; [done|].
      rewrite List.filter_app. rewrite Hc in Hf'. by apply Forall2_app.
  - rewrite (app_nil_r rs). apply Hnext; try done. exists taken. split; [|done]. rewrite Hrec, <-app_assoc. by destruct a.
Qed.

Lemma rest_step_inv config s ms i : inv config s ms -> inv config (step s (Step i)) (ms ++ [Step i]).
Proof.
  intros Hi. pose proof (inv_sound _ _ _ Hi) as Hs. destruct Hi as [Hc _ _ _ _ Hq Hsend Hcanc].
  assert (sound config (ms ++ [Step i]) (rest_step (adapter s) (threads s i)).1 /\
    incoming_queue_ (rest_step (adapter s) (threads s i)).1 = incoming_queue_ (adapter s)) as [Hs' Hq'].
  { destruct queue_same as (Q1 & Q2 & Q3). destruct (threads s i) as [| | |order|request] eqn:E; cbn [rest_step].
    - split; [by apply sound_weaken|done].
    - split; [|by destruct (adapter s)]. apply sound_weaken, send_sound; [done|rewrite Hc; apply comp_ids_get|left; by rewrite Hc].
    - split; [|by destruct (adapter s)]. apply sound_weaken. by destruct (adapter s).
    - pose proof (order_sound config ms (adapter s) order Hs (Hsend _ _ E)) as Ho. specialize (Q2 (adapter s) order).
      destruct (send_order_locked (adapter s) order). split; [by apply sound_weaken|done].
    - pose proof (cancel_sound config ms (adapter s) request Hs (Hcanc _ _ E)) as Ho. specialize (Q3 (adapter s) request).
      destruct (cancel_order_locked (adapter s) request). split; [by apply sound_weaken|done]. }
  cbn [step]. destruct (rest_step (adapter s) (threads s i)) as [a b]. cbn [fst] in *. apply inv_of; cbn; [done|by rewrite Hq'|..]; intros j x; revert j.
  - apply (set_thread_all (fun p => p = Sending x -> _)); [done|]. intros j _ E.
    destruct (Hsend j x E) as [k ?]. exists k. apply elem_of_app. by left.
  - apply (set_thread_all (fun p => p = Cancelling x -> _)); [done|]. intros j _ E.
    destruct (Hcanc j x E) as [k ?]. exists k. apply elem_of_app. by left.
Qed.

Lemma adapter_run_inv config ms : inv config (run config ms) ms.
Proof.
  apply (fold_left_inv step (inv config)).
  - constructor; cbn; try done. exists []. split; [done|constructor].
  - intros s seen [i o|i] _ Hi; [by apply call_step_inv|by apply rest_step_inv].
Qed.

(** *** Sessions *)

Lemma control_snoc log msg : control (log ++ [msg]) = control_step (control log) msg.
Proof. unfold control. by rewrite fold_left_app. Qed.

Lemma send_control a msg :
  control (sent_log_ (send a msg)) = control_step (control (sent_log_ a)) msg /\ connected_ (send a msg) = connected_ a.
Proof. destruct a. split; [|done]. etrans; [apply control_snoc|done]. Qed.

(** Steps of threads other than the one that connects and disconnects do not
    touch the session. *)
Definition controls (o : op) : bool := match o with Connect | Disconnect => true | _ => false end.

Lemma others_control a o : controls o = false ->
  let '(a', p, _, _) := call_step a o in
  control (sent_log_ a') = control (sent_log_ a) /\ connected_ a' = connected_ a /\ p <> Connecting /\ p <> Disconnecting.
Proof.
  destruct o as [| |order|request|clk|msg]; try done; intros _; cbn [call_step].
  - by destruct (negb _).
  - by destruct (negb _).
  - destruct (process_incoming a clk) as [[a' rs] e] eqn:E. apply drain_spec in E as (_ & _ & _ & _ & -> & -> & _). done.
Qed.

Lemma rest_control a p : p <> Connecting -> p <> Disconnecting ->
  control (sent_log_ (rest_step a p).1) = control (sent_log_ a) /\ connected_ (rest_step a p).1 = connected_ a.
Proof.
  intros H1 H2. destruct p as [| | |order|request]; try done; cbn [rest_step].
  - unfold send_order_locked; cbn [fst]. match goal with |- context [send ?a ?m] => destruct (send_control a m) as [-> ->] end.
    by destruct a.
  - unfold cancel_order_locked. destruct (active_orders_ a !! _); [|done]. cbn [fst].
    match goal with |- context [send ?a ?m] => destruct (send_control a m) as [-> ->] end. done.
Qed.

(** With one thread [c] that connects and disconnects: where it is tells the
    session. *)
Definition session_at (s : system) (c : nat) : Prop :=
  match threads s c with
  | Connecting => connected_ (adapter s) = true /\ control (sent_log_ (adapter s)) = Some false
  | Disconnecting => control (sent_log_ (adapter s)) = Some false
  | _ => control (sent_log_ (adapter s)) = Some (connected_ (adapter s))
  end /\ forall i, i <> c -> threads s i <> Connecting /\ threads s i <> Disconnecting.

Definition one_controller (c : nat) (ms : list move) : Prop :=
  forall i o, Call i o ∈ ms -> controls o = true -> i = c.

Lemma call_session s c i o : session_at s c -> (controls o = true -> i = c) -> session_at (step s (Call i o)) c.
Proof.
  intros [H1 H2] Hc. cbn [step]. destruct (threads s i) eqn:Ei; try done.
  destruct (controls o) eqn:Eo.
  - specialize (Hc eq_refl) as ->. rewrite Ei in H1. unfold session_at. destruct s as [a ths rs rec ans]; cbn [adapter threads] in *.
    destruct o; try discriminate Eo; cbn [call_step].
    + unfold connect_take. destruct (connected_ a) eqn:Ec; cbn [adapter threads]; rewrite set_thread_eq; split; rewrite ?Ec; try done;
        try (by destruct a); intros j Hj; rewrite set_thread_ne by done; auto.
    + unfold disconnect_logout. cbn [adapter threads]. rewrite set_thread_eq. split; [|intros j Hj; rewrite set_thread_ne by done; auto].
      destruct (connected_ a) eqn:Ec; [|by rewrite H1]. by rewrite (proj1 (send_control _ _)), H1.
  - pose proof (others_control (adapter s) o Eo) as Ho. destruct (call_step (adapter s) o) as [[[a' p] b] new].
    destruct Ho as (E1 & E2 & Hp1 & Hp2). unfold session_at; cbn [threads adapter]. split.
    + destruct (decide (i = c)) as [->|Hne].
      * rewrite set_thread_eq. rewrite Ei in H1. destruct p; try done; by rewrite E1, E2.
      * rewrite set_thread_ne by done. by rewrite E1, E2.
    + intros j Hj. destruct (decide (j = i)) as [->|]; [by rewrite set_thread_eq|rewrite set_thread_ne by done; auto].
Qed.

Lemma rest_session s c i : session_at s c -> session_at (step s (Step i)) c.
Proof.
  intros [H1 H2]. cbn [step]. assert (forall a b, (threads s c = threads s c -> True) ->
    (if decide (i = c) then control (sent_log_ a) = Some (connected_ a)
     else control (sent_log_ a) = control (sent_log_ (adapter s)) /\ connected_ a = connected_ (adapter s)) ->
    session_at (mkSys a (set_thread (threads s) i Idle) (notified s) (received s) (answers s ++ b)) c) as Hend.
  { intros a b _ Ha. unfold session_at; cbn [threads adapter]. split.
    - destruct (decide (i = c)) as [->|]; [by rewrite set_thread_eq|]. rewrite set_thread_ne by done. destruct Ha as [-> ->]. done.
    - intros j Hj. destruct (decide (j = i)) as [->|]; [by rewrite set_thread_eq|rewrite set_thread_ne by done; auto]. }
  pose proof (rest_control (adapter s) (threads s i)) as Hr.
  destruct (rest_step (adapter s) (threads s i)) as [a b] eqn:E. cbn [fst] in Hr. apply Hend; [done|].
  destruct (decide (i = c)) as [->|Hne]; [|by apply Hr; apply H2].
  destruct (threads s c); cbn [rest_step] in E.
  - injection E as <- <-. done.
  - injection E as <- <-. destruct H1 as [Hc Hl]. unfold connect_logon. destruct (send_control (adapter s) (session_message (config_ (adapter s)) FixMessage.Logon "A")) as [-> ->].
    by rewrite Hl, Hc.
  - injection E as <- <-. unfold disconnect_lower. by destruct (adapter s).
  - destruct Hr as [-> ->]; done.
  - destruct Hr as [-> ->]; done.
Qed.

Lemma run_session config c ms : one_controller c ms -> session_at (run config ms) c.
Proof.
  apply (fold_left_inv step (fun s seen => one_controller c seen -> session_at s c)).
  - intros _. split; [done|]. by intros i _.
  - intros s seen m _ IH Hc. assert (session_at s c) as H.
    { apply IH. intros i o Hin. apply (Hc i o). apply elem_of_app. by left. }
    destruct m as [i o|i]; [|by apply rest_session]. apply call_session; [done|]. intros Ho.
    apply (Hc i o); [|done]. apply elem_of_app. right. by apply list_elem_of_singleton.
Qed.

(** Calls that do not overlap. *)
Definition one_at_a_time (calls : list (nat * op)) : list move :=
  calls ≫= fun '(i, o) => [Call i o; Step i].

Lemma send_session a msg :
  session (sent_log_ (send a msg)) = session_step (session (sent_log_ a)) msg /\ connected_ (send a msg) = connected_ a.
Proof. destruct a. split; [|done]. unfold session. etrans; [apply fold_left_app|done]. Qed.

Lemma lower_keeps a : sent_log_ (disconnect_lower a) = sent_log_ a /\ connected_ (disconnect_lower a) = false.
Proof. by destruct a. Qed.

Lemma call_alone a o : session (sent_log_ a) = Some (connected_ a) ->
  let '(a', p, _, _) := call_step a o in
  session (sent_log_ (rest_step a' p).1) = Some (connected_ (rest_step a' p).1).
Proof.
  intros H. destruct o as [| |order|request|clk|msg]; cbn [call_step].
  - unfold connect_take. destruct (connected_ a) eqn:Ec; cbn [rest_step fst]; [by rewrite Ec|].
    unfold connect_logon. match goal with |- context [send ?a ?m] => destruct (send_session a m) as [-> ->] end.
    assert (sent_log_ { a with connected_ := true } = sent_log_ a) as -> by by destruct a. by rewrite H.
  - cbn [rest_step fst]. unfold disconnect_logout. destruct (connected_ a) eqn:Ec.
    + pose proof (send_session a (session_message (config_ a) FixMessage.Logout "5")) as [E _]. rewrite H in E.
      destruct (lower_keeps (send a (session_message (config_ a) FixMessage.Logout "5"))) as [-> ->]. by rewrite E.
    + destruct (lower_keeps a) as [-> ->]. by rewrite H.
  - unfold is_connected. destruct (connected_ a) eqn:Ec; cbn [negb]; [|by cbn [rest_step fst]; rewrite Ec].
    cbn [rest_step]. unfold send_order_locked; cbn [fst].
    match goal with |- context [send ?a ?m] => destruct (send_session a m) as [-> ->] end.
    match goal with |- context [session (sent_log_ ?b)] => assert (sent_log_ b = sent_log_ a /\ connected_ b = connected_ a) as [-> ->] by by destruct a end.
    by rewrite H, Ec.
  - unfold is_connected. destruct (connected_ a) eqn:Ec; cbn [negb]; [|by cbn [rest_step fst]; rewrite Ec].
    cbn [rest_step]. unfold cancel_order_locked. destruct (active_orders_ a !! _); cbn [fst]; [|by rewrite Ec].
    match goal with |- context [send ?a ?m] => destruct (send_session a m) as [-> ->] end. by rewrite H, Ec.
  - destruct (process_incoming a clk) as [[a' rs] e] eqn:E. apply drain_spec in E as (_ & _ & _ & _ & Hc & Hl & _).
    cbn [rest_step fst]. by rewrite Hc, Hl.
  - cbn [rest_step fst]. by destruct a.
Qed.

Lemma serial_session config calls :
  let s := run config (one_at_a_time calls) in
  session (sent_log_ (adapter s)) = Some (connected_ (adapter s)).
Proof.
  enough (forall s0, (forall i, threads s0 i = Idle) -> session (sent_log_ (adapter s0)) = Some (connected_ (adapter s0)) ->
    let s := fold_left step (one_at_a_time calls) s0 in session (sent_log_ (adapter s)) = Some (connected_ (adapter s))) as G
    by by apply G.
  induction calls as [|[i o] calls IH]; intros s0 Hi Hs; [done|]. cbn [one_at_a_time mbind list_bind app fold_left].
  apply IH; cbn [step]; rewrite Hi; pose proof (call_alone (adapter s0) o Hs) as Ha;
    destruct (call_step (adapter s0) o) as [[[a p] b] rs]; cbn [threads adapter]; rewrite set_thread_eq;
    destruct (rest_step a p) as [a' b']; [|done].
  intros j. apply (set_thread_all (fun p => p = Idle)); [done|]. intros j' Hj. by rewrite set_thread_ne.
Qed.

(** *** The log and the answers *)

(** What a call that answers true has logged, but for the number. *)
Definition sent_by (config : Config) (msg : FixMessage.t) (call : op) : Prop :=
  exists seq m, msg = FixMessage.mk (FixMessage.type m) (<[TAG_MSG_SEQ_NUM := to_string seq]> (FixMessage.fields m)) /\
    match call with
    | Connect => m = session_message config FixMessage.Logon "A"
    | SendOrder order => m = order_to_fix config order
    | CancelOrder request => m = cancel_to_fix config request
    | _ => False
    end.

Definition not_logout (msg : FixMessage.t) : bool := negb (bool_decide (FixMessage.type msg = FixMessage.Logout)).

(** But for the Logouts, the log is that of the calls that answered true. *)
Definition logged (config : Config) (a : t) (calls : list (op * bool)) : Prop :=
  config_ a = config /\ Forall2 (sent_by config) (List.filter not_logout (sent_log_ a)) (List.filter snd calls).*1.

Lemma logged_more config a calls more : List.filter snd more = [] -> logged config a calls -> logged config a (calls ++ more).
Proof. intros Hm [Hc H]. split; [done|]. by rewrite List.filter_app, Hm, app_nil_r. Qed.

Lemma logged_send config a calls msg o : logged config a calls -> FixMessage.type msg <> FixMessage.Logout ->
  match o with
  | Connect => msg = session_message config FixMessage.Logon "A"
  | SendOrder order => msg = order_to_fix config order
  | CancelOrder request => msg = cancel_to_fix config request
  | _ => False
  end -> logged config (send a msg) (calls ++ [(o, true)]).
Proof.
  intros [Hc H] Ht Ho. destruct a as [cfg conn q slog act seq]. unfold logged, send; fields. split; [done|].
  rewrite !List.filter_app, fmap_app. apply Forall2_app; [done|]. cbn. unfold not_logout; cbn [FixMessage.type].
  rewrite bool_decide_eq_false_2 by done. constructor; [by eexists _, msg|constructor].
Qed.

Lemma logged_same config a b calls : config_ b = config_ a -> sent_log_ b = sent_log_ a -> logged config a calls -> logged config b calls.
Proof. unfold logged. by intros -> ->. Qed.

Lemma logged_logout config a calls : logged config a calls ->
  logged config (send a (session_message (config_ a) FixMessage.Logout "5")) calls.
Proof.
  intros [Hc H]. destruct a as [cfg conn q slog act seq]. unfold logged, send; fields. split; [done|].
  by rewrite List.filter_app, app_nil_r.
Qed.

Lemma logged_call config a o calls : logged config a calls ->
  let '(a', _, b, _) := call_step a o in logged config a' (calls ++ answered o b).
Proof.
  intros H. destruct o as [| |order|request|clk|msg]; cbn [call_step].
  - unfold connect_take. destruct (connected_ a); by apply logged_more.
  - apply logged_more; [done|]. unfold disconnect_logout. destruct (connected_ a); [by apply logged_logout|done].
  - destruct (negb _); by apply logged_more.
  - destruct (negb _); by apply logged_more.
  - destruct (process_incoming a clk) as [[a' rs] e] eqn:E. apply drain_spec in E as (_ & _ & _ & Hc & _ & Hl & _).
    apply logged_more; [done|]. by apply (logged_same _ a).
  - apply logged_more; [done|]. by apply (logged_same _ a); [destruct a..|].
Qed.

Lemma order_to_fix_type config order : FixMessage.type (order_to_fix config order) = FixMessage.NewOrderSingle.
Proof. unfold order_to_fix. by destruct (_ && _). Qed.

Lemma logged_rest config a p calls : logged config a calls ->
  let '(a', more) := rest_step a p in logged config a' (calls ++ more).
Proof.
  intros H. pose proof H as [Hc _]. destruct p as [| | |order|request]; cbn [rest_step].
  - by apply logged_more.
  - apply logged_send; [done..|]. by rewrite Hc.
  - apply logged_more; [done|]. by apply (logged_same _ a); [destruct a..|].
  - unfold send_order_locked. apply logged_send; [|by rewrite order_to_fix_type|destruct a; cbn in Hc; by subst].
    by apply (logged_same _ a); [destruct a..|].
  - unfold cancel_order_locked. destruct (active_orders_ a !! _); [|by apply logged_more].
    apply logged_send; [done..|by rewrite Hc].
Qed.

Lemma run_logged config ms : logged config (adapter (run config ms)) (answers (run config ms)).
Proof.
  apply (fold_left_inv step (fun s _ => logged config (adapter s) (answers s))); [by split|].
  intros s _ [i o|i] _ H; cbn [step].
  - destruct (threads s i); try done. pose proof (logged_call config (adapter s) o _ H) as Hl.
    by destruct (call_step (adapter s) o) as [[[a p] b] rs].
  - pose proof (logged_rest config (adapter s) (threads s i) _ H) as Hl.
    by destruct (rest_step (adapter s) (threads s i)).
Qed.

(** C33. In every interleaving of the calls of any threads, by the steps
    between which another thread can come: message [i] of the log carries the
    sequence number [i + 1] and the configured ids, and was sent for a
    session or for an order or cancel that was asked for; but for the Logouts
    the log is, message by message, that of the calls that have answered true;
    the tracked orders
    are filed under their own id; and the reports notified are the injected
    execution reports that can be read, translated in order, each exactly
    once, up to those still queued.  When one thread does all the connecting
    and disconnecting, its Logons and Logouts alternate, and the flag it
    leaves is the one they say.  Only calls that do not overlap keep the
    orders and cancels between a Logon and its Logout. *)
Theorem adapter_history config ms :
  let s := run config ms in
  let a := adapter s in
  numbered config (sent_log_ a) /\ Forall (asked_for config ms) (sent_log_ a) /\
  Forall2 (sent_by config) (List.filter not_logout (sent_log_ a)) (List.filter snd (answers s)).*1 /\
  (forall k o, active_orders_ a !! k = Some o -> o_id o = k) /\
  (exists taken, received s = taken ++ incoming_queue_ a
    /\ Forall2 (translation config) (List.filter translates taken) (notified s)) /\
  (forall c, one_controller c ms -> threads s c = Idle -> control (sent_log_ a) = Some (connected_ a)) /\
  (forall calls, ms = one_at_a_time calls -> session (sent_log_ a) = Some (connected_ a)).
Proof.
  cbv zeta. destruct (adapter_run_inv config ms) as [_ Hn _ Hf Ha Hr _ _]. pose proof (proj2 (run_logged config ms)) as Hl. split_and!; try done.
  - intros c Hc Hi. destruct (run_session config c ms Hc) as [H _]. by rewrite Hi in H.
  - intros calls ->. apply serial_session.
Qed.

(** An order that is checked and logged between the two steps of [connect],
    before the Logon, and one that was checked before [disconnect] and is
    logged after the Logout; and two threads that both log a Logout. *)
Definition overlapping : list move :=
  [Call 0 Connect; Call 1 (SendOrder default_Order); Step 1; Step 0;
   Call 1 (SendOrder default_Order); Call 0 Disconnect; Call 2 Disconnect; Step 1; Step 0; Step 2].

Definition sample_config : Config := mkConfig 2 (lit "SOR_CLIENT") (lit "EXCHANGE") 100.

Example orders_outside_the_session :
  FixMessage.type <$> sent_log_ (adapter (run sample_config overlapping)) =
    [FixMessage.NewOrderSingle; FixMessage.Logon; FixMessage.Logout; FixMessage.Logout; FixMessage.NewOrderSingle].
Proof. vm_compute. reflexivity. Qed.

Lemma adapter_history_witness :
  let s := run sample_config (one_at_a_time [(0%nat, Connect); (1%nat, SendOrder default_Order); (0%nat, Disconnect)]) in
  session (sent_log_ (adapter s)) = Some false /\ control (sent_log_ (adapter s)) = Some false.
Proof.
  destruct (adapter_history sample_config (one_at_a_time [(0%nat, Connect); (1%nat, SendOrder default_Order); (0%nat, Disconnect)]))
    as (_ & _ & _ & _ & _ & Hc & Hs).
  split; [rewrite (Hs _ eq_refl); reflexivity|]. rewrite (Hc 0%nat); [reflexivity| |reflexivity].
  intros i o Hin. cbn in Hin. rewrite !elem_of_cons, elem_of_nil in Hin.
  destruct Hin as [[= -> ->]|[?|[[= -> ->]|[?|[[= -> ->]|[?|[]]]]]]]; done.
Defined.
End Session.
