(* ===== verification/FixGateway.v ===== *)
(** * The FIX gateway (sor/gateway/fix_gateway.h, fix_gateway.cpp)

    Inbound messages become orders and cancels of the gateway, fills become
    outbound execution reports.  The conversions of the fields throw before
    anything is submitted, so a message that throws leaves the gateway as it
    was.  The constructor takes over the fill callback of the execution
    handler, which the gateway's own initialisation installs too: the last of
    the two is the one called. *)

From S2P Require Import Prelude Double CppString Types FillManager Risk ExecutionHandler Gateway Fix.

Module FixGateway.

Definition SOH : ascii := "001"%char.

(** [send_callback_], and whether the fill callback of the handler is the one
    the constructor registered. *)
Record t := mk {
  gateway_ : Gateway.t;
  send_callback_ : bool;
  fills_here : bool
}.

(** ** Tags *)

(** The value after the tag for one delimiter; the first field needs none. *)
Definition get_tag_delim (delim : ascii) (msg search : str) : option str :=
  let pos := if bool_decide (take (length search) msg = search) then Some (length search)
             else (fun found => (found + length (delim :: search))%nat) <$> find_str (delim :: search) msg in
  (fun pos => let rest := drop pos msg in
              match find_char delim rest with Some e => take e rest | None => rest end) <$> pos.

Definition get_tag (msg tag : str) : str :=
  let search := tag ++ lit "=" in
  match get_tag_delim SOH msg search with
  | Some v => v
  | None => default [] (get_tag_delim "|"%char msg search)
  end.

(** ** Inbound messages *)

(** A field assigned only when its text is not empty. *)
Definition when_given {A} (text : str) (old : A) (read : str -> throws A) : throws A :=
  match text with [] => inr old | _ => read text end.

Definition parse_order (raw : str) : throws Order :=
  let get tag := get_tag raw (lit tag) in
  let order := default_Order in
  try client_order_id <- when_given (get "11") (o_client_order_id order) stoull;
  let side := if bool_decide (get "54" = lit "2") then Sell else Buy in
  try quantity <- when_given (get "38") (o_quantity order) stoll;
  try price <- when_given (get "44") (o_price order) (fun s => try d <- stod s; inr (to_price d));
  let type := if bool_decide (get "40" = lit "1") then OT_Market else OT_Limit in
  let tif_str := get "59" in
  let tif := if bool_decide (tif_str = lit "0") then TIF_DAY
             else if bool_decide (tif_str = lit "1") then TIF_GTC
             else if bool_decide (tif_str = lit "3") then TIF_IOC
             else if bool_decide (tif_str = lit "4") then TIF_FOK
             else o_tif order in
  try client_id <- when_given (get "109") (o_client_id order) (fun s => inr (FixedString.of_view 32 s));
  inr { order with o_client_order_id := client_order_id;
                   o_symbol := FixedString.of_view 16 (get "55");
                   o_side := side;
                   o_quantity := quantity;
                   o_remaining_quantity := quantity;
                   o_price := price;
                   o_type := type;
                   o_tif := tif;
                   o_client_id := client_id }.

Definition default_CancelRequest : CancelRequest :=
  mkCancel INVALID_ORDER_ID INVALID_ORDER_ID (FixedString.empty_string 16) Buy 0.

Definition parse_cancel (raw : str) : throws CancelRequest :=
  let get tag := get_tag raw (lit tag) in
  let cancel := default_CancelRequest in
  try order_id <- when_given (get "41") (c_order_id cancel) stoull;
  try client_order_id <- when_given (get "11") (c_client_order_id cancel) stoull;
  inr (mkCancel order_id client_order_id (FixedString.of_view 16 (get "55"))
         (if bool_decide (get "54" = lit "2") then Sell else Buy) (c_timestamp cancel)).

Definition on_fix_message (f : t) (raw_fix : str) (now : Timestamp) : throws t :=
  let msg_type := get_tag raw_fix (lit "35") in
  if bool_decide (msg_type = lit "D") then
    try order <- parse_order raw_fix;
    inr { f with gateway_ := (Gateway.submit_order (gateway_ f) order now).2 }
  else if bool_decide (msg_type = lit "F") then
    try cancel <- parse_cancel raw_fix;
    inr { f with gateway_ := (Gateway.cancel_order (gateway_ f) cancel now).2 }
  else inr f.

(** ** Outbound messages *)

Definition ord_status_field (state : OrderState) : string :=
  match state with
  | New => "39=A" | Accepted => "39=0" | PartiallyFilled => "39=1" | Filled => "39=2"
  | Canceled => "39=4" | Rejected => "39=8" | Expired => "39=C" | PendingCancel => "39=6"
  | PendingNew => "39=A" | PendingReplace => "39=E"
  end.

Definition c_str (s : FixedString.t) : str := FixedString.c_view (FixedString.data_ s).

Definition build_execution_report (order : Order) (report : ExecutionReport) : str :=
  lit "35=8" ++ [SOH] ++
  lit "11=" ++ to_string (o_client_order_id order) ++ [SOH] ++
  lit "37=" ++ to_string (o_id order) ++ [SOH] ++
  lit "17=" ++ to_string (r_exec_id report) ++ [SOH] ++
  lit "55=" ++ c_str (o_symbol order) ++ [SOH] ++
  lit "54=" ++ (if is_buy (o_side order) then lit "1" else lit "2") ++ [SOH] ++
  lit (ord_status_field (r_state report)) ++ [SOH] ++
  lit "31=" ++ print_double (to_double (r_last_price report)) ++ [SOH] ++
  lit "32=" ++ to_string (r_last_quantity report) ++ [SOH] ++
  lit "14=" ++ to_string (r_cum_quantity report) ++ [SOH] ++
  lit "6=" ++ print_double (to_double (r_avg_price report)) ++ [SOH] ++
  lit "151=" ++ to_string (r_leaves_quantity report) ++ [SOH] ++
  (if FixedString.empty (r_text report) then []
   else lit "58=" ++ c_str (r_text report) ++ [SOH]).

(** ** Composition with the gateway *)

(** The constructor, on a gateway that may or may not be initialised. *)
Definition create (g : Gateway.t) : t :=
  mk { g with Gateway.exec_handler_ ::= ExecutionHandler.set_fill_callback } false true.

Definition set_send_callback (f : t) : t := { f with send_callback_ := true }.

(** [Gateway::initialize] after the construction replaces the callback. *)
Definition initialize `{!UnorderedMap} (f : t) (connects : VenueId -> bool) : bool * t * list Gateway.effect :=
  let '(ok, g, evs) := Gateway.initialize (gateway_ f) connects in
  (ok, { f with gateway_ := g; fills_here := false }, evs).

(** A report of the queue, with the fill callback of the FIX gateway: what is
    sent, and the effects of the gateway. *)
Definition on_effect `{!StdSort, !UnorderedMap} (clk : nat -> Timestamp)
    (st : t * list Gateway.effect * list str) (e : ExecutionHandler.Effect)
    : t * list Gateway.effect * list str :=
  let '(f, evs, sent) := st in
  match e with
  | ExecutionHandler.FillCb order report =>
      if fills_here f
      then (f, evs, sent ++ (if send_callback_ f then [build_execution_report order report] else []))
      else let '(g, evs) := Gateway.on_effect clk (gateway_ f, evs) e in
           ({ f with gateway_ := g }, evs, sent)
  | _ => let '(g, evs) := Gateway.on_effect clk (gateway_ f, evs) e in
         ({ f with gateway_ := g }, evs, sent)
  end.

Definition process_report `{!StdSort, !UnorderedMap} (f : t) (report : ExecutionReport)
    (clk : nat -> Timestamp) : t * list Gateway.effect * list str :=
  let '(handler, effects) :=
    ExecutionHandler.on_execution_report (Gateway.exec_handler_ (gateway_ f)) report clk in
  fold_left (on_effect (fun i => clk (4 + i)%nat)) effects
    ({ f with gateway_ ::= fun g => { g with Gateway.exec_handler_ := handler } }, [], []).

(** ** Messages as fields *)

(** The text of a list of fields. *)
Definition message (kvs : list (str * str)) : str :=
  kvs ≫= fun kv => kv.1 ++ "="%char :: kv.2 ++ [SOH].

Fixpoint field (tag : str) (kvs : list (str * str)) : option str :=
  match kvs with
  | [] => None
  | (t, v) :: kvs => if bool_decide (t = tag) then Some v else field tag kvs
  end.

Definition plain (s : str) : Prop := (SOH ∉ s) /\ ("|"%char ∉ s).
Definition plain_tag (s : str) : Prop := plain s /\ ("="%char ∉ s).
Definition plain_fields (kvs : list (str * str)) : Prop :=
  Forall (fun kv => plain_tag kv.1 /\ plain kv.2) kvs.

#[export] Instance plain_dec s : Decision (plain s).
Proof. unfold plain. apply _. Defined.
#[export] Instance plain_tag_dec s : Decision (plain_tag s).
Proof. unfold plain_tag. apply _. Defined.
#[export] Instance plain_fields_dec kvs : Decision (plain_fields kvs).
Proof. unfold plain_fields. apply _. Defined.

(** ** Finding a field *)

Lemma starts_with (tag : str) :
  "="%char ∉ tag -> forall t v, "="%char ∉ t ->
  bool_decide (take (length (tag ++ lit "=")) (t ++ "="%char :: v) = tag ++ lit "=")
  = bool_decide (t = tag).
Proof.
  intros Htag t v Ht. apply bool_decide_ext. change (lit "=") with ["="%char]. split; [|intros ->].
  - revert t Ht; induction tag as [|c tag IH]; intros [|c' t] Ht; cbn; [done| | |].
    + intros [= Hc]. exfalso. apply Ht. rewrite Hc. by left.
    + intros [= Hc _]. exfalso. apply Htag. rewrite Hc. by left.
    + apply not_elem_of_cons in Htag as [_ Htag]. apply not_elem_of_cons in Ht as [_ Ht].
      intros [= -> H]. f_equal. by apply IH.
  - rewrite length_app. cbn [length]. rewrite take_app_add. done.
Qed.

Lemma find_str_skip c p body rest :
  c ∉ body ->
  find_str (c :: p) (body ++ c :: rest)
  = if bool_decide (take (length p) rest = p) then Some (length body)
    else (fun n => (S (length body) + n)%nat) <$> find_str (c :: p) rest.
Proof.
  induction body as [|b body IH]; intros Hc.
  - cbn [app find_str length take]. destruct (bool_decide_reflect (take (length p) rest = p)) as [->|Hne].
    + by rewrite bool_decide_eq_true_2.
    + rewrite bool_decide_eq_false_2 by congruence. by destruct (find_str _ rest).
  - apply not_elem_of_cons in Hc as [Hb Hc]. cbn [app find_str length take].
    rewrite bool_decide_eq_false_2 by congruence. rewrite IH by done.
    case_bool_decide; [done|]. by destruct (find_str _ rest).
Qed.

Lemma find_str_absent c p s : c ∉ s -> find_str (c :: p) s = None.
Proof.
  induction s as [|b s IH]; intros Hc; cbn [find_str length take]; [by rewrite bool_decide_eq_false_2|].
  apply not_elem_of_cons in Hc as [Hb Hc].
  rewrite bool_decide_eq_false_2 by congruence. by rewrite IH.
Qed.

Lemma message_cons t v kvs : message ((t, v) :: kvs) = (t ++ "="%char :: v) ++ SOH :: message kvs.
Proof. unfold message. cbn. rewrite <- !app_assoc. cbn. by rewrite <- app_assoc. Qed.

Lemma no_search (tag : str) : [] <> tag ++ lit "=".
Proof. intros [_ H]%eq_sym%app_eq_nil. discriminate H. Qed.

Lemma find_field tag kvs body :
  plain_tag tag -> plain_fields kvs -> SOH ∉ body ->
  match field tag kvs with
  | Some v => exists n rest,
      find_str (SOH :: tag ++ lit "=") (body ++ SOH :: message kvs) = Some n
      /\ drop (n + length (SOH :: tag ++ lit "=")) (body ++ SOH :: message kvs) = v ++ SOH :: rest
  | None => find_str (SOH :: tag ++ lit "=") (body ++ SOH :: message kvs) = None
  end.
Proof.
  intros [_ Htag] Hkvs. revert body.
  induction Hkvs as [|[t v] kvs [[[HtS _] Ht] [HvS _]] _ IH]; intros body Hb; cbn [field].
  - rewrite find_str_skip by done. change (message []) with ([] : str).
    rewrite take_nil, bool_decide_eq_false_2 by apply no_search. done.
  - rewrite message_cons, find_str_skip by done. cbn [fst snd] in *.
    rewrite <- (app_assoc t), <- app_comm_cons, starts_with by done. case_bool_decide as E.
    + subst t. exists (length body), (message kvs). split; [done|].
      rewrite drop_app_add. cbn [length drop]. change (lit "=") with ["="%char].
      rewrite length_app, drop_app_add. done.
    + specialize (IH (t ++ "="%char :: v)). rewrite <- app_assoc, <- app_comm_cons in IH.
      assert (SOH ∉ t ++ "="%char :: v) as Hbody.
      { rewrite elem_of_app, elem_of_cons. by intros [?|[?|?]]. }
      specialize (IH Hbody). destruct (field tag kvs) as [w|]; [|by rewrite IH].
      destruct IH as (n & rest & -> & Hd). exists (S (length body) + n)%nat, rest. split; [done|].
      rewrite <- Hd. rewrite <- Nat.add_assoc, Nat.add_succ_comm, drop_app_add. done.
Qed.

Lemma take_value v rest : SOH ∉ v ->
  match find_char SOH (v ++ SOH :: rest) with Some e => take e (v ++ SOH :: rest) | None => v ++ SOH :: rest end = v.
Proof. intros Hv. by rewrite find_char_app, take_app_length. Qed.

Lemma field_plain tag kvs v : plain_fields kvs -> field tag kvs = Some v -> plain v.
Proof.
  induction 1 as [|[t w] kvs [_ Hw] _ IH]; cbn [field]; [done|].
  case_bool_decide; [by intros [= <-]|done].
Qed.

Lemma message_no_bar kvs : plain_fields kvs -> "|"%char ∉ message kvs.
Proof.
  induction 1 as [|[t v] kvs [[[_ Ht] _] [_ Hv]] _ IH]; [by apply not_elem_of_nil|].
  rewrite message_cons, !elem_of_app, !elem_of_cons. cbn [fst snd] in *.
  intros [[?|[?|?]]|[?|?]]; done.
Qed.

(** [get_tag] gives the value of the first field with the tag, wherever it is. *)
Lemma get_tag_message tag kvs :
  plain_tag tag -> plain_fields kvs -> get_tag (message kvs) tag = default [] (field tag kvs).
Proof.
  intros Htag Hkvs. unfold get_tag, get_tag_delim.
  destruct kvs as [|[t v] kvs].
  { change (message []) with ([] : str). by rewrite take_nil, bool_decide_eq_false_2 by apply no_search. }
  pose proof (message_no_bar _ Hkvs) as Hbar.
  pose proof Hkvs as [[[[HtS ?] Ht] [HvS ?]] Hk]%Forall_cons. cbn [fst snd] in *.
  rewrite (find_str_absent "|"%char) by done.
  assert (bool_decide (take (length (tag ++ lit "=")) (message ((t, v) :: kvs)) = tag ++ lit "=")
          = bool_decide (t = tag)) as Hst.
  { rewrite message_cons, <- app_assoc, <- app_comm_cons. apply starts_with; [apply Htag|done]. }
  cbv zeta. rewrite !Hst. cbn [field].
  destruct (bool_decide_reflect (t = tag)) as [E|E]; cbn [fmap option_fmap option_map].
  - subst t. rewrite message_cons, <- app_assoc, <- app_comm_cons. change (lit "=") with ["="%char].
    rewrite length_app, drop_app_add. cbn [length]. by rewrite skipn_cons, drop_0, take_value.
  - assert (SOH ∉ t ++ "="%char :: v) as Hbody.
    { rewrite elem_of_app, elem_of_cons. by intros [?|[?|?]]. }
    pose proof (find_field tag kvs _ Htag Hk Hbody) as Hf. rewrite <- message_cons in Hf.
    destruct (field tag kvs) as [w|] eqn:Ew.
    + destruct Hf as (n & rest & -> & Hd). cbn [fmap option_fmap option_map]. rewrite Hd.
      destruct (field_plain tag kvs w Hk Ew) as [Hw _]. by rewrite take_value.
    + rewrite Hf. done.
Qed.

(** ** Plain texts *)

Lemma plain_Forall s : plain s <-> Forall (fun c => c <> SOH /\ c <> "|"%char) s.
Proof.
  unfold plain. rewrite Forall_forall. split.
  - intros [H1 H2] c Hc. split; by intros ->.
  - intros H. split; intros Hc; by apply H in Hc as [].
Qed.

Lemma plain_app s k : plain (s ++ k) <-> plain s /\ plain k.
Proof. by rewrite !plain_Forall, Forall_app. Qed.

Lemma plain_sublist s k : s `sublist_of` k -> plain k -> plain s.
Proof.
  rewrite !plain_Forall, !Forall_forall. intros Hs Hk c Hc. apply Hk. by eapply elem_of_sublist.
Qed.

Lemma plain_rev s : plain s -> plain (rev s).
Proof. rewrite !plain_Forall. apply List.Forall_rev. Qed.

Lemma plain_digits s : Forall is_digit s -> plain s.
Proof.
  rewrite plain_Forall. intros Hs. eapply Forall_impl; [exact Hs|].
  intros c [v Hv]. split; intros ->; discriminate Hv.
Qed.

Lemma plain_print_nat z : 0 <= z -> plain (print_nat z).
Proof. intros. by apply plain_digits, print_nat_digits. Qed.

Lemma plain_to_string z : plain (to_string z).
Proof.
  unfold to_string. destruct (Z.ltb_spec z 0); [|by apply plain_print_nat].
  apply (plain_app ["-"%char]). split; [by apply (bool_decide_unpack _)|apply plain_print_nat; lia].
Qed.

Lemma plain_trim s : plain s -> plain (trim_zeros_rev s).
Proof.
  induction s as [|c s IH]; [done|]. intros H. pose proof (proj1 (plain_app [c] s) H) as [_ Hs].
  cbn [trim_zeros_rev]. repeat case_match; subst; auto.
Qed.

Lemma plain_fraction s : plain s -> plain (fraction s).
Proof.
  intros Hs. unfold fraction. apply plain_rev, plain_trim, plain_rev in Hs.
  destruct (rev _); [done|]. apply (plain_app ["."%char]). split; [by apply (bool_decide_unpack _)|done].
Qed.

Lemma round_half_even_nonneg n q : 0 <= n -> 0 <= q -> 0 <= round_half_even n q.
Proof.
  intros Hn Hq. unfold round_half_even.
  assert (0 <= n / q) by (destruct (Z.eq_dec q 0) as [->|]; [by rewrite Z.div_0_r|apply Z.div_pos; lia]).
  repeat case_match; lia.
Qed.

Lemma six_digits_plain n q : 0 <= n -> 0 <= q -> plain (six_digits n q).1.
Proof.
  intros Hn Hq. unfold six_digits. cbv zeta.
  match goal with |- context [if 5 <? ?x then _ else _] => set (e := x) end.
  assert (0 <= (if 5 <? e then round_half_even n (q * 10 ^ (e - 5))
                else round_half_even (n * 10 ^ (5 - e)) q)) as Hr.
  { case_match; apply round_half_even_nonneg; try done; apply Z.mul_nonneg_nonneg; try done;
      apply Z.pow_nonneg; lia. }
  destruct (_ =? 1000000); cbn [fst]; by apply plain_print_nat.
Qed.

Lemma plain_lit s : bool_decide (plain (lit s)) = true -> plain (lit s).
Proof. apply bool_decide_eq_true_1. Qed.

Lemma plain_replicate k : plain (replicate k "0"%char).
Proof. apply plain_digits, Forall_replicate. by exists 0. Qed.

Lemma plain_take k s : plain s -> plain (take k s).
Proof. apply plain_sublist, sublist_take. Qed.

Lemma plain_drop k s : plain s -> plain (drop k s).
Proof. apply plain_sublist, sublist_drop. Qed.

Lemma plain_print_positive n q : 0 <= n -> 0 <= q -> plain (print_positive n q).
Proof.
  intros Hn Hq. unfold print_positive. pose proof (six_digits_plain n q Hn Hq) as Hd.
  destruct (six_digits n q) as [ds x]. cbn [fst] in Hd.
  repeat case_match; rewrite ?plain_app; split_and?;
    try (by apply plain_lit); try (by apply plain_take); try (by apply plain_fraction, plain_drop).
  3: by apply plain_fraction, plain_app; split; [apply plain_replicate|].
  all: unfold print_padded; rewrite (proj2 (Z.ltb_ge (Z.abs x) 0)) by lia;
    apply plain_app; split; [apply plain_replicate|apply plain_print_nat; lia].
Qed.

Lemma plain_print_double d : plain (print_double d).
Proof.
  assert (forall (neg : bool) s, plain s -> plain (if neg then "-"%char :: s else s)) as Hneg.
  { intros [] s Hs; [|done]. apply (plain_app ["-"%char]). split; [by apply (bool_decide_unpack _)|done]. }
  unfold print_double. destruct d as [neg|neg| |neg m e]; try apply Hneg; try by apply plain_lit.
  case_match; apply plain_print_positive; try done; [apply Z.pow_nonneg; lia|].
  apply Z.mul_nonneg_nonneg; [done|]. apply Z.pow_nonneg. lia.
Qed.

(** ** Reading and writing whole messages *)

(** The order a set of fields describes. *)
Definition order_of (kvs : list (str * str)) (id : OrderId) (qty : Quantity) (price : Price) : Order :=
  let get tag := default [] (field (lit tag) kvs) in
  { default_Order with
      o_client_order_id := id;
      o_symbol := FixedString.of_view 16 (get "55");
      o_side := if bool_decide (get "54" = lit "2") then Sell else Buy;
      o_quantity := qty;
      o_remaining_quantity := qty;
      o_price := price;
      o_type := if bool_decide (get "40" = lit "1") then OT_Market else OT_Limit;
      o_tif := if bool_decide (get "59" = lit "0") then TIF_DAY
               else if bool_decide (get "59" = lit "3") then TIF_IOC
               else if bool_decide (get "59" = lit "4") then TIF_FOK else TIF_GTC;
      o_client_id := FixedString.of_view 32 (get "109") }.

(** What a price field says. *)
Definition says_price (text : option str) (price : Price) : Prop :=
  match text with
  | None | Some [] => price = INVALID_PRICE
  | Some s => exists d, stod s = inr d /\ price = to_price d
  end.

Lemma when_given_to_string {A} z (old : A) read :
  when_given (to_string z) old read = read (to_string z).
Proof. unfold when_given. by destruct (to_string z) eqn:E; [apply to_string_nonempty in E|]. Qed.

Lemma parse_order_fields kvs id qty price :
  plain_fields kvs ->
  field (lit "11") kvs = Some (to_string id) -> in_u64 id ->
  field (lit "38") kvs = Some (to_string qty) -> in_i64 qty ->
  says_price (field (lit "44") kvs) price ->
  parse_order (message kvs) = inr (order_of kvs id qty price).
Proof.
  intros Hk Hid Hidr Hq Hqr Hp. unfold parse_order, order_of. cbv zeta.
  rewrite !get_tag_message by (done || by apply (bool_decide_unpack _)).
  rewrite Hid, Hq. change (default [] (Some ?s)) with s.
  rewrite !when_given_to_string, stoull_to_string, stoll_to_string by done.
  assert (when_given (default [] (field (lit "44") kvs)) (o_price default_Order)
            (fun s => try d <- stod s; inr (to_price d)) = inr price) as ->.
  { destruct (field (lit "44") kvs) as [[|c s]|]; cbn [says_price] in Hp; [by subst| |by subst].
    destruct Hp as (d & Hd & ->). cbn. by rewrite Hd. }
  assert (forall s, when_given s (o_client_id default_Order) (fun s => inr (FixedString.of_view 32 s))
                    = inr (FixedString.of_view 32 s)) as ->.
  { by intros [|c s]. }
  assert (forall v, (if bool_decide (v = lit "0") then TIF_DAY
    else if bool_decide (v = lit "1") then TIF_GTC
    else if bool_decide (v = lit "3") then TIF_IOC
    else if bool_decide (v = lit "4") then TIF_FOK else o_tif default_Order)
    = (if bool_decide (v = lit "0") then TIF_DAY
       else if bool_decide (v = lit "3") then TIF_IOC
       else if bool_decide (v = lit "4") then TIF_FOK else TIF_GTC)) as ->.
  { intros v. repeat case_bool_decide; subst; done. }
  done.
Qed.

(** What an outbound report says of an order and its execution. *)
Definition reads_report (order : Order) (report : ExecutionReport) (raw : str) : Prop :=
  let get tag := get_tag raw (lit tag) in
  get "35" = lit "8" /\
  stoull (get "11") = inr (o_client_order_id order) /\
  stoull (get "37") = inr (o_id order) /\
  stoull (get "17") = inr (r_exec_id report) /\
  get "55" = c_str (o_symbol order) /\
  side_from_fix (get "54") = o_side order /\
  ord_status_from_fix (get "39") = (if decide (r_state report = New) then PendingNew else r_state report) /\
  get "31" = print_double (to_double (r_last_price report)) /\
  stoll (get "32") = inr (r_last_quantity report) /\
  stoll (get "14") = inr (r_cum_quantity report) /\
  get "6" = print_double (to_double (r_avg_price report)) /\
  stoll (get "151") = inr (r_leaves_quantity report) /\
  get "58" = (if FixedString.empty (r_text report) then [] else c_str (r_text report)).

(** The fields of an outbound report. *)
Definition report_fields (order : Order) (report : ExecutionReport) : list (str * str) :=
  [(lit "35", lit "8");
   (lit "11", to_string (o_client_order_id order));
   (lit "37", to_string (o_id order));
   (lit "17", to_string (r_exec_id report));
   (lit "55", c_str (o_symbol order));
   (lit "54", if is_buy (o_side order) then lit "1" else lit "2");
   (lit "39", drop 3 (lit (ord_status_field (r_state report))));
   (lit "31", print_double (to_double (r_last_price report)));
   (lit "32", to_string (r_last_quantity report));
   (lit "14", to_string (r_cum_quantity report));
   (lit "6", print_double (to_double (r_avg_price report)));
   (lit "151", to_string (r_leaves_quantity report))]
  ++ (if FixedString.empty (r_text report) then [] else [(lit "58", c_str (r_text report))]).

Lemma build_execution_report_message order report :
  build_execution_report order report = message (report_fields order report).
Proof.
  unfold build_execution_report, report_fields, message. rewrite bind_app.
  destruct (r_state report), (FixedString.empty (r_text report)); cbn;
    repeat (rewrite <- app_assoc; cbn); rewrite ?app_nil_r; done.
Qed.

Lemma report_fields_plain order report :
  plain (c_str (o_symbol order)) -> plain (c_str (r_text report)) ->
  plain_fields (report_fields order report).
Proof.
  intros Hs Ht. unfold plain_fields, report_fields. apply Forall_app. split.
  - repeat (apply Forall_cons; split; [split; [by apply (bool_decide_unpack _)|]|]); cbn [snd];
      try apply plain_to_string; try apply plain_print_double; try done; try by apply Forall_nil.
    all: first [by apply (bool_decide_unpack _)|destruct (is_buy _); by apply (bool_decide_unpack _)
               |destruct (r_state report); by apply (bool_decide_unpack _)|idtac].
  - destruct (FixedString.empty _); [by apply Forall_nil|].
    apply Forall_singleton. split; [by apply (bool_decide_unpack _)|done].
Qed.

(** With its own callback in place, the FIX gateway keeps the fills to itself. *)
Lemma on_effect_fills `{!StdSort, !UnorderedMap} clk f evs sent e :
  fills_here f = true ->
  fills_here (on_effect clk (f, evs, sent) e).1.1 = true /\
  Gateway.fill_manager_ (gateway_ (on_effect clk (f, evs, sent) e).1.1)
  = Gateway.fill_manager_ (gateway_ f).
Proof.
  intros Hf. unfold on_effect. destruct e as [o r|pid|o].
  - by rewrite Hf.
  - cbn [Gateway.on_effect].
    match goal with |- context [Gateway.process_single_order ?g ?o ?c] =>
      pose proof (Gateway.process_fills g o c) as Hp;
      destruct (Gateway.process_single_order g o c) as [[o' g'] evs'] end.
    by cbn in Hp |- *.
  - split; [exact Hf|]. cbn. by destruct (gateway_ f).
Qed.

Lemma fills_kept `{!StdSort, !UnorderedMap} f report clk :
  fills_here f = true ->
  Gateway.fill_manager_ (gateway_ (process_report f report clk).1.1)
  = Gateway.fill_manager_ (gateway_ f).
Proof.
  intros Hf. unfold process_report.
  destruct (ExecutionHandler.on_execution_report _ _ _) as [h effects].
  match goal with |- context [fold_left _ _ (?f0, [], [])] =>
    assert (fills_here f0 = true) as Hf0 by done;
    change (Gateway.fill_manager_ (gateway_ f)) with (Gateway.fill_manager_ (gateway_ f0));
    generalize (@nil Gateway.effect) (@nil str); revert Hf0; generalize f0 end.
  clear Hf. induction effects as [|e effects IH]; intros f0 Hf0 evs sent; [done|].
  cbn [fold_left]. destruct (on_effect_fills (fun i => clk (4 + i)%nat) f0 evs sent e Hf0) as [Hf1 Hf2].
  destruct (on_effect _ _ _) as [[f1 evs1] sent1]. cbn [fst] in Hf1, Hf2. by rewrite IH.
Qed.

End FixGateway.

(** ** Properties *)

Import FixGateway.

(** A message of tag=value fields, in any order and with any other fields
    among them, does what it says: a NewOrderSingle submits exactly the order
    its fields describe, an OrderCancelRequest the cancel for the identifier
    in tag 41, any other type nothing. *)
Theorem fix_messages_submit f kvs now :
  plain_fields kvs ->
  (forall id qty price,
     field (lit "35") kvs = Some (lit "D") ->
     field (lit "11") kvs = Some (to_string id) -> in_u64 id ->
     field (lit "38") kvs = Some (to_string qty) -> in_i64 qty ->
     says_price (field (lit "44") kvs) price ->
     on_fix_message f (message kvs) now
     = inr { f with gateway_ := (Gateway.submit_order (gateway_ f) (order_of kvs id qty price) now).2 }) /\
  (forall id order_id,
     field (lit "35") kvs = Some (lit "F") ->
     field (lit "11") kvs = Some (to_string id) -> in_u64 id ->
     field (lit "41") kvs = Some (to_string order_id) -> in_u64 order_id ->
     on_fix_message f (message kvs) now
     = inr { f with gateway_ := (Gateway.cancel_order (gateway_ f)
         (mkCancel order_id id (FixedString.of_view 16 (default [] (field (lit "55") kvs)))
            (if bool_decide (default [] (field (lit "54") kvs) = lit "2") then Sell else Buy) 0) now).2 }) /\
  (field (lit "35") kvs <> Some (lit "D") -> field (lit "35") kvs <> Some (lit "F") ->
     on_fix_message f (message kvs) now = inr f).
Proof.
  intros Hk. unfold on_fix_message. cbv zeta.
  rewrite get_tag_message by (done || by apply (bool_decide_unpack _)). split_and!.
  - intros id qty price -> Hid Hidr Hq Hqr Hp. cbn [default from_option]. rewrite bool_decide_eq_true_2 by done.
    by rewrite (parse_order_fields kvs id qty price).
  - intros id order_id -> Hid Hidr Ho Hor. cbn [default from_option].
    rewrite bool_decide_eq_false_2 by done. rewrite bool_decide_eq_true_2 by done.
    unfold parse_cancel. cbv zeta.
    rewrite !get_tag_message by (done || by apply (bool_decide_unpack _)).
    rewrite Hid, Ho. change (default [] (Some ?s)) with s.
    by rewrite !when_given_to_string, !stoull_to_string.
  - intros HD HF. destruct (field (lit "35") kvs) as [s|]; [|done]. cbn [default from_option].
    rewrite !bool_decide_eq_false_2; [done|intros E; apply HF; by f_equal|intros E; apply HD; by f_equal].
Qed.

(** Every field of an outbound execution report reads back: the
    identifiers and quantities as the same numbers, the side, the symbol and
    the text, the prices in the stream's six significant digits, and the
    state through the adapter's table, where New reads as PendingNew. *)
Theorem execution_report_reads_back order report :
  plain (c_str (o_symbol order)) -> plain (c_str (r_text report)) ->
  in_u64 (o_client_order_id order) -> in_u64 (o_id order) -> in_u64 (r_exec_id report) ->
  in_i64 (r_last_quantity report) -> in_i64 (r_cum_quantity report) -> in_i64 (r_leaves_quantity report) ->
  reads_report order report (build_execution_report order report).
Proof.
  intros Hs Ht Hc Ho He Hl Hcum Hleaves. unfold reads_report. cbv zeta.
  rewrite build_execution_report_message.
  pose proof (report_fields_plain order report Hs Ht) as Hk.
  rewrite !get_tag_message by (done || by apply (bool_decide_unpack _)).
  set (fs := report_fields order report).
  assert (field (lit "58") fs = if FixedString.empty (r_text report) then None
          else Some (c_str (r_text report))) as -> by (unfold fs, report_fields; by destruct (FixedString.empty _)).
  split; [done|]. split; [by apply stoull_to_string|]. split; [by apply stoull_to_string|].
  split; [by apply stoull_to_string|]. split; [done|]. split; [by unfold fs, report_fields; cbn; destruct (o_side order)|].
  split; [by unfold fs, report_fields; destruct (r_state report)|]. split; [done|].
  split; [by apply stoll_to_string|]. split; [by apply stoll_to_string|]. split; [done|].
  split; [by apply stoll_to_string|]. by destruct (FixedString.empty _).
Qed.

Definition sample_fields : list (str * str) :=
  [(lit "8", lit "FIX.4.2"); (lit "35", lit "D"); (lit "38", lit "100"); (lit "11", lit "7");
   (lit "55", lit "AAPL"); (lit "54", lit "2"); (lit "44", lit "150.25"); (lit "40", lit "2")].

Definition sample_gateway : FixGateway.t := FixGateway.create (Gateway.start (Gateway.create 0)).

Lemma fix_messages_submit_witness :
  on_fix_message sample_gateway (message sample_fields) 5
  = inr { sample_gateway with gateway_ := (Gateway.submit_order (gateway_ sample_gateway)
      (order_of sample_fields 7 100 15025000000) 5).2 }.
Proof.
  apply (proj1 (fix_messages_submit sample_gateway sample_fields 5 ltac:(by apply (bool_decide_unpack _))));
    [done|done|by vm_compute|done|by vm_compute|eexists; split; [reflexivity|by vm_compute]].
Defined.

Lemma execution_report_reads_back_witness :
  reads_report { default_Order with o_id := 3; o_client_order_id := 7; o_symbol := Symbol_of "AAPL" }
    { default_ExecutionReport with r_state := Filled; r_last_quantity := 100; r_cum_quantity := 100 }
    (build_execution_report { default_Order with o_id := 3; o_client_order_id := 7; o_symbol := Symbol_of "AAPL" }
      { default_ExecutionReport with r_state := Filled; r_last_quantity := 100; r_cum_quantity := 100 }).
Proof.
  apply execution_report_reads_back;
    [by apply (bool_decide_unpack _)|by apply (bool_decide_unpack _)|vm_compute; split; congruence..].
Defined.

(** The fills of an initialised gateway under a FIX gateway reach neither its
    fill manager nor its risk manager: the constructor took the callback. *)
Theorem fix_gateway_takes_fills `{!StdSort, !UnorderedMap} g report clk :
  Gateway.fill_manager_ (gateway_ (process_report (create g) report clk).1.1) = Gateway.fill_manager_ g.
Proof. by rewrite fills_kept. Qed.

(** An outbound price keeps six significant digits. *)
Theorem fix_report_price_rounded :
  print_double (to_double 1234567800000) = lit "12345.7".
Proof. vm_compute. reflexivity. Qed.

(** A message delimited by bars, as the comment allows, is not understood. *)
Theorem bar_delimited_ignored f now :
  on_fix_message f (lit "35=D|11=7|55=AAPL|54=1|38=100|40=1") now = inr f.
Proof. reflexivity. Qed.
