(* ===== verification/Feed.v ===== *)
(** * The simulated feed (sor/market_data/feed_handler.h, .cpp,
    feed_quality_monitor.h, .cpp)

    A pseudo-random walk of the mid price and the book rebuilt around it at
    every tick, published to the subscriber; and the counters that watch a
    feed's health. *)

From S2P Require Import Prelude Double Types Book.

(** ** xorshift64 *)

Definition xorshift (x : Z) : Z :=
  let x := Z.lxor x (u64 (Z.shiftl x 13)) in
  let x := Z.lxor x (Z.shiftr x 7) in
  Z.lxor x (u64 (Z.shiftl x 17)).

(** The state of the generator: a non-zero 64-bit number. *)
Definition seeded (x : Z) : Prop := 0 < x < 2 ^ 64.

Lemma lxor_seeded a b : 0 <= a < 2 ^ 64 -> 0 <= b < 2 ^ 64 -> a <> b -> seeded (Z.lxor a b).
Proof.
  intros Ha Hb Hne. assert (0 <= Z.lxor a b) as Hn by (apply Z.lxor_nonneg; lia). split.
  - assert (Z.lxor a b <> 0) by (by rewrite Z.lxor_eq_0_iff). lia.
  - destruct (decide (Z.lxor a b = 0)) as [->|]; [lia|]. apply Z.log2_lt_pow2; [lia|].
    eapply Z.le_lt_trans; [apply Z.log2_lxor; lia|].
    apply Z.max_lub_lt; (destruct (decide (a = 0)), (decide (b = 0)); subst; try (cbn; lia);
      apply Z.log2_lt_pow2; lia).
Qed.

(** A shift to the left moves every non-zero number: the difference is a
    multiple by an odd number. *)
Lemma shiftl_moves x k : k = 13 \/ k = 17 -> seeded x -> x <> u64 (Z.shiftl x k).
Proof.
  intros Hk [Hx0 Hx] E. rewrite Z.shiftl_mul_pow2 in E by lia. unfold u64, wrapu in E.
  assert ((2 ^ 64 | (2 ^ k - 1) * x)) as Hdiv.
  { exists (x * 2 ^ k / 2 ^ 64). pose proof (Z.div_mod (x * 2 ^ k) (2 ^ 64) ltac:(done)). lia. }
  apply Z.gauss in Hdiv; [|by destruct Hk as [-> | ->]].
  apply Z.divide_pos_le in Hdiv; lia.
Qed.

Lemma xorshift_seeded x : seeded x -> seeded (xorshift x).
Proof.
  intros Hx. unfold xorshift.
  assert (seeded (Z.lxor x (u64 (Z.shiftl x 13)))) as H1.
  { apply lxor_seeded; [unfold seeded in Hx; lia|by apply Z.mod_pos_bound|apply shiftl_moves; auto]. }
  set (y := Z.lxor x _) in *. clearbody y.
  assert (seeded (Z.lxor y (Z.shiftr y 7))) as H2.
  { unfold seeded in H1. rewrite Z.shiftr_div_pow2 by lia. change (2 ^ 7) with 128.
    apply lxor_seeded; [lia|Z.to_euclidean_division_equations; lia..]. }
  set (z := Z.lxor y _) in *. clearbody z.
  apply lxor_seeded; [unfold seeded in H2; lia|by apply Z.mod_pos_bound|apply shiftl_moves; auto].
Qed.

Module SimulatedFeedHandler.

Record Config := mkConfig {
  symbol : FixedString.t;
  venue_id : VenueId;
  initial_mid_price : Price;
  tick_size : Price;
  max_depth : Z;
  base_quantity : Quantity;
  update_interval : Z;
  volatility : double;
  rng_seed : Z
}.

Record t := mk {
  config_ : Config;
  book_ : OrderBook.t;
  running_ : bool;
  current_mid_ : Price;
  sequence_ : Z;
  rng_state_ : Z;
  callback_ : bool
}.

Definition create (config : Config) : t :=
  mk config { OrderBook.default_book with OrderBook.symbol := symbol config;
                                          OrderBook.venue_id := venue_id config }
     false (initial_mid_price config) 0 (rng_seed config) false.

Definition start (f : t) : t := { f with running_ := true }.
Definition stop (f : t) : t := { f with running_ := false }.
Definition set_book_callback (f : t) : t := { f with callback_ := true }.

(** [next_random]: the new state is the number drawn. *)
Definition next_random (rng : Z) : Z := xorshift rng.

Definition max_step_ticks (config : Config) (mid : Price) : Z :=
  Z.max 1 (i64_of_d (ddiv (dmul (volatility config) (to_double mid)) (to_double (tick_size config)))).

(** [random_walk], given the number drawn. *)
Definition random_walk (config : Config) (mid : Price) (r : Z) : Price :=
  let max_step := max_step_ticks config mid in
  let step := i64 (r mod u64 (2 *! max_step +! 1)) -! max_step in
  mid +! step *! tick_size config.

(** A level at a price: two draws, the quantity and the order count. *)
Definition random_level (config : Config) (price : Price) (rng : Z) : PriceLevel * Z :=
  let r := next_random rng in
  let base := base_quantity config in
  let qty := base /! 2 +! i64 (r mod u64 (base *! 3 /! 2 +! 1)) in
  let qty := if qty <=? 0 then 1 else qty in
  let r' := next_random r in
  (mkLevel price qty (i32 (1 + r' mod 10)), r').

(** The two loops over the levels; the bids stop at the first price that is
    not positive. *)
Fixpoint bid_levels (config : Config) (best : Price) (idx : list nat) (side : BookSide.t) (rng : Z)
    : BookSide.t * Z :=
  match idx with
  | [] => (side, rng)
  | i :: idx =>
      let price := best -! Z.of_nat i *! tick_size config in
      if price <=? 0 then (side, rng)
      else let '(level, rng) := random_level config price rng in
           bid_levels config best idx (BookSide.insert_sorted side level true) rng
  end.

Fixpoint ask_levels (config : Config) (best : Price) (idx : list nat) (side : BookSide.t) (rng : Z)
    : BookSide.t * Z :=
  match idx with
  | [] => (side, rng)
  | i :: idx =>
      let price := best +! Z.of_nat i *! tick_size config in
      let '(level, rng) := random_level config price rng in
      ask_levels config best idx (BookSide.insert_sorted side level false) rng
  end.

Definition depth (config : Config) : nat :=
  Z.to_nat (Z.min (max_depth config) (Z.of_nat MAX_DEPTH)).

Definition half_spread (config : Config) (r : Z) : Price :=
  let spread_ticks := 2 + r mod 3 in
  let half_spread := i64 (spread_ticks / 2) *! tick_size config in
  if half_spread <? tick_size config then tick_size config else half_spread.

Definition rebuild_book (f : t) : t :=
  let config := config_ f in
  let r := next_random (rng_state_ f) in
  let half := half_spread config r in
  let best_bid := current_mid_ f -! half in
  let best_ask := current_mid_ f +! half in
  let best_ask := if best_ask <=? best_bid then best_bid +! tick_size config else best_ask in
  let idx := seq 0 (depth config) in
  let '(bids, rng) := bid_levels config best_bid idx (BookSide.clear (OrderBook.bids (book_ f))) r in
  let '(asks, rng) := ask_levels config best_ask idx (BookSide.clear (OrderBook.asks (book_ f))) rng in
  { f with book_ ::= fun b => { b with OrderBook.bids := bids; OrderBook.asks := asks };
           rng_state_ := rng }.

(** One tick, and the book given to the subscriber, if any. *)
Definition generate_tick (f : t) (now : Timestamp) : t * list OrderBook.t :=
  if negb (running_ f) then (f, [])
  else
    let r := next_random (rng_state_ f) in
    let mid := random_walk (config_ f) (current_mid_ f) r in
    let mid := if mid <? tick_size (config_ f) then tick_size (config_ f) else mid in
    let f := rebuild_book { f with rng_state_ := r; current_mid_ := mid } in
    let sequence := u64 (sequence_ f + 1) in
    let f := { f with sequence_ := sequence;
                      book_ ::= fun b => { b with OrderBook.last_update := now;
                                                  OrderBook.sequence := sequence } } in
    (f, if callback_ f then [book_ f] else []).

Inductive op := Start | Stop | SetCallback | Tick (now : Timestamp).

Definition do_op (f : t) (o : op) : t * list OrderBook.t :=
  match o with
  | Start => (start f, [])
  | Stop => (stop f, [])
  | SetCallback => (set_book_callback f, [])
  | Tick now => generate_tick f now
  end.

Definition run (config : Config) (ops : list op) : t * list OrderBook.t :=
  fold_left (fun '(f, log) o => let '(f, books) := do_op f o in (f, log ++ books)) ops
    (create config, []).

(** ** What a rebuilt book looks like *)

(** A level with sensible random fields: a positive quantity, from half the
    base quantity to its double when that is a quantity, and 1 to 10 orders. *)
Definition level_ok (config : Config) (v : PriceLevel) : Prop :=
  let base := base_quantity config in
  0 < quantity v /\ 1 <= order_count v <= 10 /\
  (0 < base -> base * 3 < INT64_MAX -> base / 2 <= quantity v <= 2 * base).

Definition ladder (first step : Z) (n : nat) : list Price :=
  (fun i => first + Z.of_nat i * step) <$> seq 0 n.

(** The bids go down from [mid - half] in ticks while positive, the asks up
    from [mid + half], at most [max_depth] and [MAX_DEPTH] of each. *)
Record built (config : Config) (mid : Price) (b : OrderBook.t) : Prop := {
  built_half : exists half n,
    (half = tick_size config \/ half = 2 * tick_size config) /\
    price <$> BookSide.live (OrderBook.bids b) = ladder (mid - half) (- tick_size config) n /\
    (n <= depth config)%nat /\
    (forall i, (i < depth config)%nat -> (i < n)%nat <-> 0 < mid - half - Z.of_nat i * tick_size config) /\
    price <$> BookSide.live (OrderBook.asks b) = ladder (mid + half) (tick_size config) (depth config);
  built_bids : BookSide.wf (OrderBook.bids b) /\ BookSide.sorted true (BookSide.live (OrderBook.bids b))
    /\ Forall (level_ok config) (BookSide.live (OrderBook.bids b));
  built_asks : BookSide.wf (OrderBook.asks b) /\ BookSide.sorted false (BookSide.live (OrderBook.asks b))
    /\ Forall (level_ok config) (BookSide.live (OrderBook.asks b));
  built_uncrossed : OrderBook.is_crossed b = false
}.

(** *** The levels *)

Lemma random_level_ok config p rng :
  price (random_level config p rng).1 = p /\ level_ok config (random_level config p rng).1.
Proof.
  split; [done|]. unfold level_ok, random_level. cbn [fst quantity order_count]. split_and!.
  - match goal with |- context [if ?q <=? 0 then _ else _] => destruct (Z.leb_spec q 0) end; lia.
  - pose proof (Z.mod_pos_bound (next_random (next_random rng)) 10 ltac:(lia)).
    unfold i32. rewrite wraps_id by (cbn; lia). lia.
  - pose proof (Z.mod_pos_bound (next_random (next_random rng)) 10 ltac:(lia)).
    unfold i32. rewrite wraps_id by (cbn; lia). lia.
  - set (base := base_quantity config). intros Hb Hm. clearbody base.
    change (base /! 2) with (i64 (Z.quot base 2)). rewrite (Z.quot_div_nonneg base 2) by lia.
    assert (0 <= base / 2 <= base /\ 0 <= base * 3 / 2 /\ base / 2 + base * 3 / 2 <= 2 * base) as (H2 & H3 & H4)
      by (Z.to_euclidean_division_equations; lia).
    rewrite (i64_id (base / 2)), (i64_id (base * 3)) by mlia.
    change (base * 3 /! 2) with (i64 (Z.quot (base * 3) 2)). rewrite (Z.quot_div_nonneg (base * 3) 2) by lia.
    rewrite (i64_id (base * 3 / 2)), (i64_id (base * 3 / 2 + 1)), u64_id by mlia.
    pose proof (Z.mod_pos_bound (next_random rng) (base * 3 / 2 + 1) ltac:(lia)) as Hr.
    rewrite (i64_id (_ mod _)), i64_id by mlia.
    match goal with |- context [if ?q <=? 0 then _ else _] => destruct (Z.leb_spec q 0) end; lia.
Qed.

(** Inserting behind all the levels of a side with room appends. *)
Lemma place_append b v l :
  Forall (fun w => BookSide.before b (price w) (price v) = true) l ->
  BookSide.place b v l = l ++ [v].
Proof. induction 1 as [|w l Hw _ IH]; cbn; [done|]. by rewrite Hw, IH. Qed.

Lemma insert_append b s v :
  BookSide.wf s -> (BookSide.depth s < MAX_DEPTH)%nat ->
  Forall (fun w => BookSide.before b (price w) (price v) = true) (BookSide.live s) ->
  BookSide.wf (BookSide.insert_sorted s v b) /\
  BookSide.live (BookSide.insert_sorted s v b) = BookSide.live s ++ [v].
Proof.
  intros Hw Hd Hf. destruct (BookSide.insert_sorted_live s v b Hw) as [Hw' ->]. split; [done|].
  by rewrite BookSide.refuses_not_full, BookSide.base_not_full, place_append.
Qed.

(** A side that is the first [k] rungs of a ladder. *)
Section rungs.
Context (config : Config).

Record rungs (b : bool) (first step : Z) (k : nat) (s : BookSide.t) : Prop := {
  rungs_wf : BookSide.wf s;
  rungs_prices : price <$> BookSide.live s = ladder first step k;
  rungs_ok : Forall (level_ok config) (BookSide.live s)
}.

Definition downwards (b : bool) (step : Z) : Prop := if b then step < 0 else 0 < step.

Lemma before_rungs b first step i j :
  downwards b step -> (i < j)%nat ->
  BookSide.before b (first + Z.of_nat i * step) (first + Z.of_nat j * step) = true.
Proof.
  unfold downwards, BookSide.before. intros Hs Hij. destruct b; rewrite ?Z.gtb_ltb; apply Z.ltb_lt; nia.
Qed.

Lemma ladder_snoc first step k : ladder first step (S k) = ladder first step k ++ [first + Z.of_nat k * step].
Proof. unfold ladder. by rewrite seq_S, fmap_app. Qed.

Lemma rungs_depth b first step k s : rungs b first step k s -> BookSide.depth s = k.
Proof.
  intros [Hw Hp _]. rewrite <- BookSide.live_length by done.
  apply (f_equal length) in Hp. unfold ladder in Hp. by rewrite !length_fmap, length_seq in Hp.
Qed.

Lemma rungs_insert b first step k s v :
  rungs b first step k s -> (k < MAX_DEPTH)%nat -> downwards b step ->
  price v = first + Z.of_nat k * step -> level_ok config v ->
  rungs b first step (S k) (BookSide.insert_sorted s v b).
Proof.
  intros Hr Hk Hs Hv Hok. pose proof (rungs_depth _ _ _ _ _ Hr) as Hd. destruct Hr as [Hw Hp Ho].
  destruct (insert_append b s v Hw) as [Hw' Hl]; [lia| |].
  - apply Forall_forall. intros w Hin.
    assert (price w ∈ ladder first step k) as Hin' by (rewrite <- Hp; by apply list_elem_of_fmap_2).
    apply list_elem_of_fmap in Hin' as (i & -> & Hi%elem_of_seq). rewrite Hv. apply before_rungs; [done|lia].
  - split; [done| |].
    + by rewrite Hl, fmap_app, Hp, ladder_snoc, <- Hv.
    + rewrite Hl. apply Forall_app. split; [done|by apply Forall_singleton].
Qed.

Lemma rungs_sorted b first step k s :
  downwards b step -> rungs b first step k s -> BookSide.sorted b (BookSide.live s).
Proof.
  intros Hs [_ Hp _]. unfold ladder in Hp. revert Hp. generalize (BookSide.live s) 0%nat.
  induction k as [|k IH]; intros l a Hp; destruct l as [|v l]; try done; [constructor|].
  injection Hp as Hv Hp. constructor; [by eapply IH|]. apply Forall_forall. intros w Hin.
  assert (price w ∈ (fun i => first + Z.of_nat i * step) <$> seq (S a) k) as Hin'
    by (change (price w ∈ list_fmap nat Z (fun i => first + Z.of_nat i * step) (seq (S a) k));
        rewrite <- Hp; by apply (list_elem_of_fmap_2 price)).
  apply list_elem_of_fmap in Hin' as (i & Ew & Hi%elem_of_seq).
  unfold BookSide.lvl_before. rewrite Hv, Ew. apply before_rungs; [done|lia].
Qed.

Lemma rungs_clear b first step s : BookSide.wf s -> rungs b first step 0 (BookSide.clear s).
Proof.
  intros [Hl Hd]. split; [split; cbn; [|unfold MAX_DEPTH; lia]|done|constructor].
  rewrite <- Hl. generalize (seq 0 (BookSide.depth s)). intros is0. generalize (BookSide.levels s).
  induction is0 as [|i is0 IH]; intros ls; [done|]. cbn [fold_left]. by rewrite IH, length_insert.
Qed.

Lemma rung_offset k tick :
  (k < 20)%nat -> 0 < tick -> 20 * tick <= INT64_MAX ->
  Z.of_nat k *! tick = Z.of_nat k * tick /\ 0 <= Z.of_nat k * tick <= 19 * tick.
Proof.
  intros Hk Ht Hm. assert (0 <= Z.of_nat k * tick <= 19 * tick) as H by nia.
  split; [|done]. apply i64_id. mlia.
Qed.

End rungs.

Lemma bid_levels_rungs config best m k side rng :
  let tick := tick_size config in
  0 < tick -> (k + m <= MAX_DEPTH)%nat -> INT64_MIN + 20 * tick <= best <= INT64_MAX -> 20 * tick <= INT64_MAX ->
  rungs config true best (- tick) k side ->
  exists n, (k <= n <= k + m)%nat /\
    rungs config true best (- tick) n (bid_levels config best (seq k m) side rng).1 /\
    forall i, (k <= i < k + m)%nat -> (i < n)%nat <-> 0 < best - Z.of_nat i * tick.
Proof.
  intros tick Ht. revert k side rng; induction m as [|m IH]; intros k side rng Hm Hb Hmax Hr; cbn [seq bid_levels].
  { exists k. split; [lia|]. split; [done|]. intros; lia. }
  assert (best -! Z.of_nat k *! tick_size config = best - Z.of_nat k * tick) as ->.
  { fold tick. destruct (rung_offset k tick) as [-> Ho]; [unfold MAX_DEPTH in *; lia..|].
    apply i64_id. mlia. }
  destruct (Z.leb_spec (best - Z.of_nat k * tick) 0) as [Hle|Hgt].
  { exists k. split; [lia|]. split; [done|]. intros i Hi. split; [lia|]. nia. }
  pose proof (random_level_ok config (best - Z.of_nat k * tick) rng) as [Hp Hok].
  destruct (random_level _ _ _) as [v rng']. cbn [fst] in Hp, Hok.
  destruct (IH (S k) (BookSide.insert_sorted side v true) rng') as (n & Hn & Hrn & Hi); [lia|done|done| |].
  - apply rungs_insert; try done; [unfold MAX_DEPTH in *; lia|unfold downwards; lia|rewrite Hp; lia].
  - exists n. split; [lia|]. split; [done|]. intros i Hik. destruct (decide (i = k)) as [->|]; [lia|].
    apply Hi. lia.
Qed.

Lemma ask_levels_rungs config best m k side rng :
  let tick := tick_size config in
  0 < tick -> (k + m <= MAX_DEPTH)%nat -> 0 <= best -> best + 20 * tick <= INT64_MAX ->
  rungs config false best tick k side ->
  rungs config false best tick (k + m) (ask_levels config best (seq k m) side rng).1.
Proof.
  intros tick Ht. revert k side rng; induction m as [|m IH]; intros k side rng Hm Hb Hmax Hr; cbn [seq ask_levels].
  { by rewrite Nat.add_0_r. }
  assert (best +! Z.of_nat k *! tick_size config = best + Z.of_nat k * tick) as ->.
  { fold tick. destruct (rung_offset k tick) as [-> Ho]; [unfold MAX_DEPTH in *; lia..|].
    apply i64_id. mlia. }
  pose proof (random_level_ok config (best + Z.of_nat k * tick) rng) as [Hp Hok].
  destruct (random_level _ _ _) as [v rng']. cbn [fst] in Hp, Hok.
  replace (k + S m)%nat with (S k + m)%nat by lia. apply IH; try done; [lia|].
  apply rungs_insert; try done. unfold MAX_DEPTH in *; lia.
Qed.

Lemma rungs_best config b first step k s :
  rungs config b first step k s -> (0 < k)%nat -> price (BookSide.best s) = first.
Proof.
  intros Hr Hk. pose proof (rungs_depth _ _ _ _ _ _ Hr) as Hd. destruct Hr as [Hw Hp _].
  destruct (live_head s Hw) as [l El]; [lia|]. rewrite El in Hp.
  destruct k; [lia|]. cbn in Hp. injection Hp as -> _. lia.
Qed.

Lemma half_spread_cases config r :
  0 < tick_size config -> 2 * tick_size config <= INT64_MAX ->
  half_spread config r = tick_size config \/ half_spread config r = 2 * tick_size config.
Proof.
  intros Ht Hm. unfold half_spread. pose proof (Z.mod_pos_bound r 3 ltac:(lia)) as Hr.
  assert ((2 + r mod 3) / 2 = 1 \/ (2 + r mod 3) / 2 = 2) as H.
  { assert (r mod 3 = 0 \/ r mod 3 = 1 \/ r mod 3 = 2) as [-> | [-> | ->]] by lia; [by left..|by right]. }
  rewrite (i64_id ((2 + r mod 3) / 2)) by mlia.
  destruct H as [-> | ->]; rewrite i64_id by mlia.
  - rewrite Z.mul_1_l, Z.ltb_irrefl. by left.
  - rewrite (proj2 (Z.ltb_ge _ _)) by lia. by right.
Qed.

Lemma depth_le config : (depth config <= MAX_DEPTH)%nat.
Proof. unfold depth. lia. Qed.

(** The book rebuilt around a mid price far enough from the top of the range. *)
Lemma rebuild_built f :
  0 < tick_size (config_ f) <= current_mid_ f ->
  current_mid_ f + 22 * tick_size (config_ f) <= INT64_MAX ->
  BookSide.wf (OrderBook.bids (book_ f)) -> BookSide.wf (OrderBook.asks (book_ f)) ->
  built (config_ f) (current_mid_ f) (book_ (rebuild_book f)).
Proof.
  intros Ht Hm Hwb Hwa. set (tick := tick_size (config_ f)) in *. set (mid := current_mid_ f) in *.
  unfold rebuild_book. fold mid tick. set (r := next_random (rng_state_ f)).
  pose proof (half_spread_cases (config_ f) r) as Hh. fold tick in Hh.
  set (half := half_spread (config_ f) r) in *. specialize (Hh ltac:(lia) ltac:(mlia)).
  rewrite (i64_id (mid - half)), (i64_id (mid + half)) by mlia.
  rewrite (proj2 (Z.leb_gt (mid + half) (mid - half))) by lia.
  pose proof (depth_le (config_ f)) as Hd.
  destruct (bid_levels_rungs (config_ f) (mid - half) (depth (config_ f)) 0
    (BookSide.clear (OrderBook.bids (book_ f))) r) as (n & Hn & Hb & Hi); [fold tick; lia|lia| | |by apply rungs_clear|].
  1-2: fold tick; mlia.
  fold tick in Hb, Hi. destruct (bid_levels _ _ _ _ r) as [bids rng]. cbn [fst] in Hb.
  pose proof (ask_levels_rungs (config_ f) (mid + half) (depth (config_ f)) 0
    (BookSide.clear (OrderBook.asks (book_ f))) rng ltac:(fold tick; lia) ltac:(lia) ltac:(lia)
    ltac:(fold tick; mlia) (rungs_clear _ _ _ _ _ Hwa)) as Ha.
  fold tick in Ha. destruct (ask_levels _ _ _ _ rng) as [asks rng']. cbn [fst Nat.add] in Ha.
  assert (downwards true (- tick) /\ downwards false tick) as [Hdt Hdf] by (unfold downwards; lia).
  split; fields.
  - exists half, n. split_and!; [done|apply Hb|lia| |apply Ha].
    intros i Hik. apply Hi. lia.
  - split; [apply Hb|]. split; [by eapply rungs_sorted|apply Hb].
  - split; [apply Ha|]. split; [by eapply rungs_sorted|apply Ha].
  - unfold OrderBook.is_crossed, OrderBook.best_bid, OrderBook.best_ask, BookSide.empty. cbn.
    rewrite (rungs_depth _ _ _ _ _ _ Hb), (rungs_depth _ _ _ _ _ _ Ha).
    destruct n as [|n]; cbn [Nat.eqb]; [done|]. destruct (depth (config_ f)) as [|d]; [lia|]. cbn [Nat.eqb].
    rewrite (rungs_best _ _ _ _ _ _ Hb), (rungs_best _ _ _ _ _ _ Ha) by lia.
    destruct (_ || _); [done|]. rewrite Z.geb_leb. apply Z.leb_gt. lia.
Qed.

(** *** Histories *)

Lemma bid_levels_seeded config best idx side rng :
  seeded rng -> seeded (bid_levels config best idx side rng).2.
Proof.
  revert side rng; induction idx as [|i idx IH]; intros side rng Hr; cbn [bid_levels]; [done|].
  destruct (_ <=? 0); [done|]. unfold random_level. by apply IH, xorshift_seeded, xorshift_seeded.
Qed.

Lemma ask_levels_seeded config best idx side rng :
  seeded rng -> seeded (ask_levels config best idx side rng).2.
Proof.
  revert side rng; induction idx as [|i idx IH]; intros side rng Hr; cbn [ask_levels]; [done|].
  unfold random_level. by apply IH, xorshift_seeded, xorshift_seeded.
Qed.

Lemma bid_levels_wf config best idx side rng :
  BookSide.wf side -> BookSide.wf (bid_levels config best idx side rng).1.
Proof.
  revert side rng; induction idx as [|i idx IH]; intros side rng Hw; cbn [bid_levels]; [done|].
  destruct (_ <=? 0); [done|]. destruct (random_level _ _ _). by apply IH, BookSide.insert_sorted_live.
Qed.

Lemma ask_levels_wf config best idx side rng :
  BookSide.wf side -> BookSide.wf (ask_levels config best idx side rng).1.
Proof.
  revert side rng; induction idx as [|i idx IH]; intros side rng Hw; cbn [ask_levels]; [done|].
  destruct (random_level _ _ _). by apply IH, BookSide.insert_sorted_live.
Qed.

(** What a rebuild leaves alone and keeps. *)
Lemma rebuild_frame f :
  BookSide.wf (OrderBook.bids (book_ f)) -> BookSide.wf (OrderBook.asks (book_ f)) ->
  let f' := rebuild_book f in
  config_ f' = config_ f /\ current_mid_ f' = current_mid_ f /\ sequence_ f' = sequence_ f /\
  callback_ f' = callback_ f /\
  OrderBook.symbol (book_ f') = OrderBook.symbol (book_ f) /\
  OrderBook.venue_id (book_ f') = OrderBook.venue_id (book_ f) /\
  BookSide.wf (OrderBook.bids (book_ f')) /\ BookSide.wf (OrderBook.asks (book_ f')) /\
  (seeded (rng_state_ f) -> seeded (rng_state_ f')).
Proof.
  intros Hb Ha. unfold rebuild_book. set (r := next_random (rng_state_ f)).
  match goal with |- context [bid_levels ?c ?b ?i ?s r] =>
    pose proof (bid_levels_seeded c b i s r) as Hs; pose proof (bid_levels_wf c b i s r) as Hw;
    destruct (bid_levels c b i s r) as [bids rng] end.
  match goal with |- context [ask_levels ?c ?b ?i ?s rng] =>
    pose proof (ask_levels_seeded c b i s rng) as Hs'; pose proof (ask_levels_wf c b i s rng) as Hw';
    destruct (ask_levels c b i s rng) as [asks rng'] end.
  fields. split_and!; try done.
  - apply Hw. by apply (rungs_wf (config_ f) true 0 0 0), rungs_clear.
  - apply Hw'. by apply (rungs_wf (config_ f) true 0 0 0), rungs_clear.
  - intros Hr. by apply Hs', Hs, xorshift_seeded.
Qed.

(** The walk of the mid: a whole number of ticks, at most [max_step_ticks],
    with a floor of one tick. *)
Definition walks (config : Config) (mid mid' : Price) : Prop :=
  let tick := tick_size config in
  let steps := max_step_ticks config mid in
  tick <= mid' /\
  (2 * steps < INT64_MAX -> Z.abs mid + steps * tick <= INT64_MAX ->
   mid' = tick \/ exists k, - steps <= k <= steps /\ mid' = mid + k * tick).

Lemma random_walk_walks config mid x :
  let tick := tick_size config in
  let r := random_walk config mid x in
  0 < tick -> walks config mid (if r <? tick then tick else r).
Proof.
  intros tick r Ht. unfold walks. fold tick. split; [by destruct (Z.ltb_spec r tick); lia|].
  set (steps := max_step_ticks config mid). intros Hs Hm. assert (1 <= steps) as H1 by (unfold steps, max_step_ticks; lia).
  destruct (Z.ltb_spec r tick); [by left|right]. exists (x mod (2 * steps + 1) - steps).
  pose proof (Z.mod_pos_bound x (2 * steps + 1) ltac:(lia)) as Hx. split; [lia|].
  unfold r, random_walk. fold steps tick. rewrite (i64_id (2 * steps)), (i64_id (2 * steps + 1)), u64_id by mlia.
  rewrite (i64_id (x mod _)), (i64_id (_ - steps)) by mlia.
  assert (Z.abs ((x mod (2 * steps + 1) - steps) * tick) <= steps * tick) by nia.
  rewrite (i64_id (_ * tick)), i64_id by mlia. done.
Qed.

Record inv (config : Config) (f : t) (log : list OrderBook.t) : Prop := {
  inv_config : config_ f = config;
  inv_symbol : OrderBook.symbol (book_ f) = symbol config;
  inv_venue : OrderBook.venue_id (book_ f) = venue_id config;
  inv_bids : BookSide.wf (OrderBook.bids (book_ f));
  inv_asks : BookSide.wf (OrderBook.asks (book_ f));
  inv_rng : seeded (rng_seed config) -> seeded (rng_state_ f);
  inv_quiet : callback_ f = false -> log = [];
  inv_sequence : exists k : Z,
    OrderBook.sequence <$> log = (fun i => u64 (k + 1 + Z.of_nat i)) <$> seq 0 (length log)
    /\ sequence_ f = u64 (k + Z.of_nat (length log))
}.

(** What one tick does. *)
Record ticked (config : Config) (f : t) (now : Timestamp) (f' : t) (books : list OrderBook.t) : Prop := {
  tk_walk : walks config (current_mid_ f) (current_mid_ f');
  tk_sequence : sequence_ f' = u64 (sequence_ f + 1);
  tk_book : OrderBook.symbol (book_ f') = symbol config /\ OrderBook.venue_id (book_ f') = venue_id config /\
    OrderBook.last_update (book_ f') = now /\ OrderBook.sequence (book_ f') = sequence_ f';
  tk_built : current_mid_ f' + 22 * tick_size config <= INT64_MAX -> built config (current_mid_ f') (book_ f');
  tk_books : books = if callback_ f then [book_ f'] else []
}.

Lemma tick_inv config f log now :
  0 < tick_size config -> inv config f log -> running_ f = true ->
  inv config (generate_tick f now).1 (log ++ (generate_tick f now).2) /\
  ticked config f now (generate_tick f now).1 (generate_tick f now).2.
Proof.
  intros Ht Hi Hrun. pose proof Hi as [Hc Hs Hv Hb Ha Hr Hq (k & Hk & Hseq)]. unfold generate_tick.
  rewrite Hrun. cbn [negb].
  set (r := next_random (rng_state_ f)). rewrite Hc.
  pose proof (random_walk_walks config (current_mid_ f) r Ht) as Hwalk. cbv zeta in Hwalk.
  set (mid := if _ <? _ then _ else _) in *. pose proof (proj1 Hwalk) as Hmid. clearbody mid.
  match goal with |- context [rebuild_book ?g] => set (g0 := g) end.
  assert (config_ g0 = config /\ current_mid_ g0 = mid /\ sequence_ g0 = sequence_ f /\
    callback_ g0 = callback_ f /\ book_ g0 = book_ f /\ rng_state_ g0 = r)
    as (Gc & Gm & Gs & Gcb & Gb & Gr) by done.
  assert (seeded (rng_state_ f) -> seeded r) as Hseed by apply xorshift_seeded.
  clearbody g0 r. pose proof (rebuild_frame g0) as (Fc & Fm & Fs & Fcb & Fsy & Fv & Fb & Fa & Fr);
    [by rewrite Gb..|].
  pose proof (rebuild_built g0) as Hbuilt. rewrite Gc, Gm, Gb in Hbuilt.
  rewrite Gb in *. destruct (rebuild_book g0) as [config' [sy v bids asks lu sq] run' mid' seq' rng' cb'].
  fields. subst config' mid' seq' cb'. rewrite Gc, Gm, Gs, Gcb, Gr in *.
  set (b := OrderBook.mk _ _ _ _ _ _).
  assert (forall n, u64 (u64 (k + n) + 1) = u64 (k + 1 + n)) as Hu.
  { intros n. rewrite u64_add_l. f_equal. lia. }
  split.
  - constructor; cbn; try done; try congruence; auto.
    + intros E. rewrite E, app_nil_r. auto.
    + destruct (callback_ f) eqn:E.
      * exists k. rewrite length_app, fmap_app, Hk, seq_app, fmap_app. cbn. rewrite Hseq, Hu.
        split; [done|]. f_equal. lia.
      * rewrite (Hq eq_refl). exists (k + 1). split; [done|]. rewrite Hseq, Hu, (Hq eq_refl). done.
  - constructor; cbn; try done.
    + split_and!; [congruence|congruence|done|done].
    + intros Hroom. destruct Hbuilt as [Hh Hbi Has Hx]; [lia|done..|]. by split.
Qed.

Lemma feed_run_inv config ops :
  0 < tick_size config -> inv config (run config ops).1 (run config ops).2.
Proof.
  intros Ht. apply (fold_left_inv _ (fun fl _ => inv config fl.1 fl.2)).
  - assert (BookSide.wf BookSide.create) as Hw by (split; cbn; unfold MAX_DEPTH; lia).
    constructor; try done. exists 0. by split.
  - intros [f log] seen o _ Hi. cbn [fst snd] in Hi. destruct o as [| | |now]; cbn [do_op].
    1-3: cbn; rewrite app_nil_r; destruct Hi; by constructor.
    destruct (running_ f) eqn:Hrun.
    + destruct (tick_inv config f log now Ht Hi Hrun) as [H _]. by destruct (generate_tick f now).
    + unfold generate_tick. rewrite Hrun. cbn. by rewrite app_nil_r.
Qed.

End SimulatedFeedHandler.

(** ** Feed quality *)

Module FeedQualityMonitor.

Record t := mk {
  staleness_threshold_ : Z;
  messages_received_ : Z;
  quotes_processed_ : Z;
  trades_processed_ : Z;
  parse_errors_ : Z;
  sequence_gaps_ : Z;
  reconnections_ : Z;
  last_message_ns_ : Z
}.

(** The threshold, in milliseconds. *)
Definition create (staleness_threshold : Z) : t := mk staleness_threshold 0 0 0 0 0 0 0.

Definition on_message_received (m : t) (now : Timestamp) : t :=
  { m with messages_received_ ::= fun n => u64 (n + 1); last_message_ns_ := now }.
Definition on_quote_processed (m : t) : t := { m with quotes_processed_ ::= fun n => u64 (n + 1) }.
Definition on_trade_processed (m : t) : t := { m with trades_processed_ ::= fun n => u64 (n + 1) }.
Definition on_parse_error (m : t) : t := { m with parse_errors_ ::= fun n => u64 (n + 1) }.
Definition on_reconnection (m : t) : t := { m with reconnections_ ::= fun n => u64 (n + 1) }.
Definition on_sequence_gap (m : t) : t := { m with sequence_gaps_ ::= fun n => u64 (n + 1) }.

(** A last time of 0 means no message yet; the comparison is in nanoseconds. *)
Definition is_stale (m : t) (now : Timestamp) : bool :=
  if last_message_ns_ m =? 0 then true
  else now -! last_message_ns_ m >? staleness_threshold_ m *! 1000000.

Record FeedQualityStats := mkStats {
  messages_received : Z;
  quotes_processed : Z;
  trades_processed : Z;
  parse_errors : Z;
  sequence_gaps : Z;
  reconnections : Z;
  last_message_time : Timestamp
}.

Definition get_stats (m : t) : FeedQualityStats :=
  mkStats (messages_received_ m) (quotes_processed_ m) (trades_processed_ m) (parse_errors_ m)
    (sequence_gaps_ m) (reconnections_ m)
    (if last_message_ns_ m =? 0 then 0 else last_message_ns_ m).

Definition reset (m : t) : t := create (staleness_threshold_ m).

End FeedQualityMonitor.

(** ** Properties *)

Import SimulatedFeedHandler.


Definition sample_config : Config :=
  mkConfig (Symbol_of "AAPL") 3 10000000000 1000000 3 100 1000 (d_lit 1 3) 1311768468603649775.

