(* ===== verification/Replay.v ===== *)
(** * The replay engine (sor/market_data/replay_engine.h, replay_engine.cpp)

    Ticks loaded from CSV text, added or generated, and replayed to a
    callback.  The loop of [start] runs in its caller's thread while [stop],
    [pause] and [resume] come from others: it is a program counter that steps
    between its test and its delivery.  The binary files are raw memory and
    are left out. *)

From S2P Require Import Prelude Double CppString Types Book Feed.

Record Level := mkPair { l_price : Price; l_qty : Quantity }.

Record MarketDataTick := mkTick {
  symbol : FixedString.t;
  venue_id : VenueId;
  timestamp : Timestamp;
  bid_price : Price;
  bid_qty : Quantity;
  ask_price : Price;
  ask_qty : Quantity;
  bid_levels : list Level;
  ask_levels : list Level;
  bid_depth : nat;
  ask_depth : nat
}.

Definition no_levels : list Level := replicate MAX_DEPTH (mkPair INVALID_PRICE 0).

Definition default_tick : MarketDataTick :=
  mkTick (FixedString.empty_string 16) 0 0 INVALID_PRICE 0 INVALID_PRICE 0 no_levels no_levels 0 0.

Module ReplayEngine.

(** Where the thread that called [start] stands: outside, before the test of
    the loop, or between the test and the delivery. *)
Inductive pc := Idle | Checking | Delivering.

#[global] Instance pc_eq_dec : EqDecision pc.
Proof. solve_decision. Defined.

Record t := mk {
  ticks_ : list MarketDataTick;
  current_pos_ : nat;
  callback_ : bool;
  running_ : bool;
  paused_ : bool;
  speed_multiplier_ : double;
  thread : pc
}.

Definition create : t := mk [] 0 false false false (d_of_Z 1) Idle.

(** ** CSV *)

Definition blank (c : ascii) : bool := bool_decide (c = " "%char) || bool_decide (c = "009"%char).

Fixpoint skip_blank (s : str) : str :=
  match s with
  | c :: s' => if blank c then skip_blank s' else s
  | [] => []
  end.

(** The token between its first and last character that is not blank. *)
Definition trim (token : str) : str := rev (skip_blank (rev (skip_blank token))).

Definition csv_fields (line : str) : list str := trim <$> getline_all ","%char line.

Definition field (fields : list str) (i : nat) : str := nth i fields [].

(** [.c_str()] given to the C conversions. *)
Definition c_str (s : str) : str := FixedString.c_view s.

Definition read_price (s : str) : Price := to_price (strtod (c_str s)).
Definition read_int (s : str) : Z := strtoll (c_str s).

(** The levels beyond the seven columns, four columns each. *)
Definition read_levels (fields : list str) (l2_levels : nat) (column : nat) : list Level :=
  fold_left (fun levels i =>
    let base := (7 + i * 4 + column)%nat in
    <[i := mkPair (read_price (field fields base)) (read_int (field fields (base + 1)))]> levels)
    (seq 0 l2_levels) no_levels.

Definition parse_line (line : str) : option MarketDataTick :=
  match line with
  | [] | "#"%char :: _ => None
  | _ =>
      let fields := csv_fields line in
      if (length fields <? 7)%nat then None
      else
        let l2_levels := Nat.min ((length fields - 7) / 4) MAX_DEPTH in
        Some (mkTick (FixedString.of_view 16 (field fields 1))
                (u16 (strtoul (c_str (field fields 2))))
                (read_int (field fields 0) *! 1000)
                (read_price (field fields 3)) (read_int (field fields 4))
                (read_price (field fields 5)) (read_int (field fields 6))
                (read_levels fields l2_levels 0) (read_levels fields l2_levels 2)
                l2_levels l2_levels)
  end.

Definition isdigit (c : ascii) : bool := (48 <=? code c) && (code c <=? 57).

Definition is_header (line : str) : bool :=
  match line with
  | [] => false
  | c :: _ => negb (isdigit c) && negb (bool_decide (c = "-"%char))
  end.

(** The file's contents, or nothing when it cannot be opened. *)
Definition load_from_csv (r : t) (file : option str) : bool * t :=
  match file with
  | None => (false, r)
  | Some contents =>
      match getline_all "010"%char contents with
      | [] => (false, r)
      | line :: rest =>
          let lines := if is_header line then rest else line :: rest in
          let r := { r with ticks_ ::= fun l => l ++ omap parse_line lines } in
          (negb (bool_decide (ticks_ r = [])), r)
      end
  end.

Definition add_tick (r : t) (tick : MarketDataTick) : t := { r with ticks_ ::= fun l => l ++ [tick] }.

(** ** Synthetic ticks *)

Definition synthetic_tick_size : Price := to_price (d_lit 1 2).

Fixpoint synthetic (sym : FixedString.t) (venue : VenueId) (interval : Z)
    (n : nat) (rng : Z) (mid : Price) (ts : Timestamp) : list MarketDataTick :=
  match n with
  | O => []
  | S n =>
      let tick_size := synthetic_tick_size in
      let r1 := xorshift rng in
      let step := i64 (r1 mod 3) -! 1 in
      let mid := mid +! step *! tick_size in
      let mid := if mid <? tick_size then tick_size else mid in
      let r2 := xorshift r1 in
      let half_spread := i64 (1 + r2 mod 2) *! tick_size in
      let r3 := xorshift r2 in
      let r4 := xorshift r3 in
      let bid := mid -! half_spread in
      { default_tick with
          symbol := sym; venue_id := venue; timestamp := ts;
          bid_price := if bid <=? 0 then tick_size else bid;
          ask_price := mid +! half_spread;
          bid_qty := i64 (50 + r3 mod 200);
          ask_qty := i64 (50 + r4 mod 200) }
      :: synthetic sym venue interval n r4 mid (ts +! interval *! 1000)
  end.

Definition generate_synthetic (r : t) (symbol : FixedString.t) (venue_id : VenueId)
    (start_mid : Price) (num_ticks : nat) (interval : Z) : t :=
  { r with ticks_ ::= fun l => l ++
      synthetic symbol venue_id interval num_ticks
        (Z.lxor (u64 start_mid) 13758438579216078456) start_mid 1000000000 }.

(** ** Replay *)

Inductive event := Delivered (tick : MarketDataTick) | Slept (us : Z).

(** The delay before the tick at a position, scaled by the speed. *)
Definition delay (r : t) : list event :=
  match current_pos_ r with
  | S prev =>
      if dgtb (speed_multiplier_ r) (d_of_Z 0) then
        match ticks_ r !! prev, ticks_ r !! S prev with
        | Some prev, Some curr =>
            let delta := timestamp curr -! timestamp prev in
            if delta >? 0 then
              let scaled := i64_of_d (ddiv (d_of_Z (i64 (Z.quot delta 1000))) (speed_multiplier_ r)) in
              if scaled >? 0 then [Slept scaled] else []
            else []
        | _, _ => []
        end
      else []
  | O => []
  end.

(** [if (callback_) callback_(ticks_[current_pos_]); ++current_pos_] *)
Definition deliver (r : t) : t * list event :=
  ({ r with current_pos_ ::= S },
   if callback_ r then match ticks_ r !! current_pos_ r with Some tick => [Delivered tick] | None => [] end
   else []).

Definition start (r : t) (cb : bool) : t :=
  { r with callback_ := cb; running_ := true; paused_ := false; thread := Checking }.

(** One move of the thread in [start]; a paused loop spins. *)
Definition loop_step (r : t) : t * list event :=
  match thread r with
  | Idle => (r, [])
  | Checking =>
      if running_ r && (current_pos_ r <? length (ticks_ r))%nat then
        if paused_ r then (r, []) else ({ r with thread := Delivering }, [])
      else ({ r with running_ := false; thread := Idle }, [])
  | Delivering =>
      let slept := delay r in
      let '(r, evs) := deliver r in
      ({ r with thread := Checking }, slept ++ evs)
  end.

Definition stop (r : t) : t := { r with running_ := false; paused_ := false }.
Definition pause (r : t) : t := { r with paused_ := true }.
Definition resume (r : t) : t := { r with paused_ := false }.
Definition reset (r : t) : t := { stop r with current_pos_ := 0%nat }.

Definition step (r : t) : bool * t * list event :=
  if (length (ticks_ r) <=? current_pos_ r)%nat then (false, r, [])
  else let '(r, evs) := deliver r in ((current_pos_ r <? length (ticks_ r))%nat, r, evs).

Definition set_speed_multiplier (r : t) (multiplier : double) : t :=
  { r with speed_multiplier_ := multiplier }.

Inductive op :=
| LoadCsv (file : option str) | AddTick (tick : MarketDataTick)
| GenerateSynthetic (symbol : FixedString.t) (venue_id : VenueId) (start_mid : Price)
    (num_ticks : nat) (interval : Z)
| Start (cb : bool) | Loop | Stop | Pause | Resume | Reset | Step
| SetSpeed (multiplier : double).

Definition do_op (r : t) (o : op) : t * list event :=
  match o with
  | LoadCsv file => ((load_from_csv r file).2, [])
  | AddTick tick => (add_tick r tick, [])
  | GenerateSynthetic symbol venue_id start_mid num_ticks interval =>
      (generate_synthetic r symbol venue_id start_mid num_ticks interval, [])
  | Start cb => (start r cb, [])
  | Loop => loop_step r
  | Stop => (stop r, [])
  | Pause => (pause r, [])
  | Resume => (resume r, [])
  | Reset => (reset r, [])
  | Step => let '(_, r, evs) := step r in (r, evs)
  | SetSpeed multiplier => (set_speed_multiplier r multiplier, [])
  end.

(** [start] and [step] move the same unprotected position: they are not
    called while a [start] runs; and there is a callback to count with. *)
Definition legal (r : t) (o : op) : Prop :=
  match o with
  | Start cb => thread r = Idle /\ cb = true
  | Step => thread r = Idle /\ callback_ r = true
  | _ => True
  end.

(** Reachable states, with what the callback got since the last reset. *)
Inductive reach : t -> list MarketDataTick -> Prop :=
| reach_create : reach create []
| reach_step r got o r' evs :
    reach r got -> legal r o -> do_op r o = (r', evs) ->
    reach r' (match o with
              | Reset => []
              | _ => got ++ omap (fun e => match e with Delivered t => Some t | Slept _ => None end) evs
              end).

End ReplayEngine.

Import ReplayEngine.

(** ** Replay in order *)

Record replaying (r : t) (got : list MarketDataTick) : Prop := {
  rep_got : got = take (current_pos_ r) (ticks_ r);
  rep_pos : (current_pos_ r <= length (ticks_ r))%nat;
  rep_callback : thread r <> Idle -> callback_ r = true;
  rep_delivering : thread r = Delivering -> (current_pos_ r < length (ticks_ r))%nat
}.

Lemma replaying_append r got more :
  replaying r got -> replaying { r with ticks_ ::= fun l => l ++ more } got.
Proof.
  destruct r. intros [Hg Hp Hc Hd]. fields. constructor; fields; try done.
  - by rewrite take_app_le.
  - rewrite length_app. lia.
  - intros H. rewrite length_app. specialize (Hd H). lia.
Qed.

Lemma load_append r file : exists more, (load_from_csv r file).2 = { r with ticks_ ::= fun l => l ++ more }.
Proof.
  assert (r = { r with ticks_ ::= fun l => l ++ [] }) as Hr by (destruct r; fields; by rewrite app_nil_r).
  destruct file as [contents|]; [|by exists []]. unfold load_from_csv.
  destruct (getline_all _ _) as [|line rest]; [by exists []|]. by eexists.
Qed.

Lemma delay_silent r : omap (fun e => match e with Delivered t => Some t | Slept _ => None end) (delay r) = [].
Proof. unfold delay. repeat case_match; done. Qed.

Lemma deliver_replaying r got :
  got = take (current_pos_ r) (ticks_ r) -> (current_pos_ r < length (ticks_ r))%nat -> callback_ r = true ->
  let '(r', evs) := deliver r in
  r' = { r with current_pos_ ::= S } /\
  got ++ omap (fun e => match e with Delivered t => Some t | Slept _ => None end) evs
  = take (S (current_pos_ r)) (ticks_ r).
Proof.
  intros -> Hp Hc. unfold deliver. rewrite Hc. split; [done|].
  destruct (lookup_lt_is_Some_2 (ticks_ r) (current_pos_ r) Hp) as [tick Ht].
  rewrite Ht. cbn. by rewrite (take_S_r _ _ _ Ht).
Qed.

Lemma step_replaying r got o r' evs :
  replaying r got -> legal r o -> do_op r o = (r', evs) ->
  replaying r' (match o with
    | Reset => []
    | _ => got ++ omap (fun e => match e with Delivered t => Some t | Slept _ => None end) evs
    end).
Proof.
  intros Hi Hlegal H.
  assert (forall r1, (r1, []) = (r', evs) -> replaying r1 got ->
    replaying r' (got ++ omap (fun e => match e with Delivered t => Some t | Slept _ => None end) evs)) as Hquiet.
  { intros r1 [= <- <-] Hr. cbn. by rewrite app_nil_r. }
  destruct o; cbn [do_op] in H; try (eapply Hquiet; [exact H|]).
  - destruct (load_append r file) as [more ->]. by apply replaying_append.
  - by apply replaying_append.
  - by apply replaying_append.
  - destruct Hlegal as [Hidle ->], Hi. by constructor.
  - unfold loop_step in H. pose proof Hi as [Hg Hp Hc Hd]. destruct (thread r) eqn:Et.
    + by eapply Hquiet.
    + destruct (running_ r && _) eqn:Er; [destruct (paused_ r)|]; (eapply Hquiet; [exact H|]); [done| |].
      * apply andb_true_iff in Er as [_ Er%Nat.ltb_lt]. constructor; auto.
      * by constructor.
    + pose proof (deliver_replaying r got Hg (Hd eq_refl) (Hc ltac:(done))) as Hdel.
      destruct (deliver r) as [r1 evs1]. destruct Hdel as [-> Hdel]. simplify_eq.
      rewrite omap_app, delay_silent, app_nil_l. specialize (Hd eq_refl).
      destruct r; constructor; fields; [done|lia|intros _; by apply Hc|done].
  - destruct Hi; by constructor.
  - destruct Hi; by constructor.
  - destruct Hi; by constructor.
  - injection H as <- <-. destruct Hi as [Hg Hp Hc Hd]. destruct r; constructor; fields; [done|lia|done|].
    intros Ht. specialize (Hd Ht). lia.
  - destruct Hlegal as [Hidle Hcb]. unfold step in H. destruct (Nat.leb_spec (length (ticks_ r)) (current_pos_ r)).
    + by eapply Hquiet.
    + pose proof (deliver_replaying r got (rep_got _ _ Hi) ltac:(lia) Hcb) as Hdel.
      destruct (deliver r) as [r1 evs1]. destruct Hdel as [-> Hdel]. simplify_eq.
      destruct r; constructor; fields; [done|lia|congruence|congruence].
  - destruct Hi; by constructor.
Qed.

Lemma reach_replaying r got : reach r got -> replaying r got.
Proof.
  induction 1 as [|r got o r' evs _ IH Hl Hop]; [by constructor; cbn; [|lia|..]|by eapply step_replaying].
Qed.

(** ** Completion *)

(** The thread left alone: the state and the events after some moves. *)
Fixpoint loop_steps (n : nat) (r : t) : t * list event :=
  match n with
  | O => (r, [])
  | S n => let '(r, evs) := loop_step r in let '(r, evs') := loop_steps n r in (r, evs ++ evs')
  end.

Lemma deliver_step r tick :
  thread r = Delivering -> callback_ r = true -> ticks_ r !! current_pos_ r = Some tick ->
  loop_step r = ({ r with current_pos_ ::= S; thread := Checking }, delay r ++ [Delivered tick]).
Proof. destruct r. cbn. intros -> -> Ht. unfold loop_step, deliver. cbn. by rewrite Ht. Qed.

Lemma loop_completes k r :
  thread r = Checking -> running_ r = true -> paused_ r = false -> callback_ r = true ->
  (length (ticks_ r) - current_pos_ r)%nat = k -> (current_pos_ r <= length (ticks_ r))%nat ->
  exists n, let '(r', evs) := loop_steps n r in
    thread r' = Idle /\ running_ r' = false /\ current_pos_ r' = length (ticks_ r) /\
    omap (fun e => match e with Delivered t => Some t | Slept _ => None end) evs
    = drop (current_pos_ r) (ticks_ r).
Proof.
  revert r; induction k as [|k IH]; intros r Ht Hr Hp Hc Hk Hle.
  - exists 1%nat. cbn [loop_steps]. unfold loop_step. rewrite Ht, Hr.
    rewrite (proj2 (Nat.ltb_ge _ _)) by lia. destruct r; cbn in *. split_and!; [done|done|lia|].
    symmetry. apply drop_ge. lia.
  - set (r1 := { r with thread := Delivering }).
    set (r2 := { r with current_pos_ ::= S; thread := Checking }).
    assert (ticks_ r2 = ticks_ r) as Et by done.
    assert (current_pos_ r2 = S (current_pos_ r)) as Ep by done.
    destruct (IH r2) as [n Hn]; try done; [rewrite Et, Ep; lia..|]. rewrite Et, Ep in Hn.
    exists (S (S n)). cbn [loop_steps].
    assert (loop_step r = (r1, [])) as ->.
    { unfold loop_step. rewrite Ht, Hr, Hp, (proj2 (Nat.ltb_lt _ _)) by lia. done. }
    destruct (lookup_lt_is_Some_2 (ticks_ r) (current_pos_ r)) as [tick Htick]; [lia|].
    assert (loop_step r1 = (r2, delay r1 ++ [Delivered tick])) as ->.
    { by apply (deliver_step r1 tick). }
    destruct (loop_steps n r2) as [r' evs]. destruct Hn as (Hn1 & Hn2 & Hn3 & Hn4). split_and!; try done.
    rewrite app_nil_l, !omap_app, delay_silent, Hn4. cbn. by rewrite (drop_S _ _ _ Htick).
Qed.

(** ** Synthetic ticks *)

Lemma tick_size_value : synthetic_tick_size = 1000000.
Proof. vm_compute. reflexivity. Qed.

Definition tick_ok (k : MarketDataTick) : Prop :=
  0 < bid_price k < ask_price k /\ ask_price k - bid_price k <= 4 * synthetic_tick_size /\
  50 <= bid_qty k < 250 /\ 50 <= ask_qty k < 250.

(** One step of the walk stays within a tick of the mid, above the floor. *)
Lemma synthetic_mid r mid :
  INT64_MIN + 1000000 <= mid -> mid + 1000000 <= INT64_MAX ->
  let m := mid +! (i64 (r mod 3) -! 1) *! 1000000 in
  1000000 <= (if m <? 1000000 then 1000000 else m) <= Z.max mid 0 + 1000000.
Proof.
  intros Hl Hh. pose proof (Z.mod_pos_bound r 3 ltac:(lia)).
  rewrite (i64_id (r mod 3)), (i64_id (r mod 3 - 1)), (i64_id ((r mod 3 - 1) * 1000000)) by mlia.
  cbv zeta. rewrite i64_id by mlia.
  destruct (Z.ltb_spec (mid + (r mod 3 - 1) * 1000000) 1000000); lia.
Qed.

Lemma synthetic_tick_ok mid r2 r3 r4 sym venue ts :
  1000000 <= mid -> mid + 2000000 <= INT64_MAX ->
  let half := i64 (1 + r2 mod 2) *! 1000000 in
  let bid := mid -! half in
  tick_ok { default_tick with
    symbol := sym; venue_id := venue; timestamp := ts;
    bid_price := if bid <=? 0 then 1000000 else bid;
    ask_price := mid +! half;
    bid_qty := i64 (50 + r3 mod 200); ask_qty := i64 (50 + r4 mod 200) }.
Proof.
  intros Hl Hh half bid. unfold tick_ok. rewrite tick_size_value. fields.
  pose proof (Z.mod_pos_bound r2 2 ltac:(lia)). pose proof (Z.mod_pos_bound r3 200 ltac:(lia)).
  pose proof (Z.mod_pos_bound r4 200 ltac:(lia)).
  assert (half = (1 + r2 mod 2) * 1000000) as Hhalf.
  { subst half. rewrite (i64_id (1 + r2 mod 2)) by mlia. apply i64_id. mlia. }
  clearbody half. subst bid.
  rewrite !(i64_id (50 + _)), !(i64_id (mid - half)), (i64_id (mid + half)) by mlia.
  destruct (Z.leb_spec (mid - half) 0); split_and!; lia.
Qed.

Lemma synthetic_spec sym venue interval n rng mid ts :
  INT64_MIN + 1000000 <= mid -> Z.max mid 0 + (Z.of_nat n + 2) * 1000000 <= INT64_MAX ->
  0 <= ts -> 0 <= interval -> ts + Z.of_nat n * (interval * 1000) <= INT64_MAX ->
  let l := synthetic sym venue interval n rng mid ts in
  Forall tick_ok l /\ timestamp <$> l = (fun i => ts + Z.of_nat i * (interval * 1000)) <$> seq 0 n.
Proof.
  revert rng mid ts; induction n as [|n IH]; intros rng mid ts Hl Hh Hts Hint Hend; cbn [synthetic]; [done|].
  cbv zeta. rewrite tick_size_value.
  pose proof (synthetic_mid (xorshift rng) mid Hl ltac:(lia)) as Hm. cbv zeta in Hm.
  set (mid' := if _ <? 1000000 then _ else _) in *. clearbody mid'.
  assert (0 <= interval * 1000 <= INT64_MAX) as Hi by nia.
  rewrite (i64_id (interval * 1000)), (i64_id (ts + interval * 1000)) by (unfold in_i64; mnia).
  match goal with |- context [synthetic sym venue interval n ?rng' mid' ?ts'] =>
    destruct (IH rng' mid' ts') as [Hok Htime]; [mlia..|] end.
  split.
  - constructor; [|done]. apply synthetic_tick_ok; lia.
  - cbn [fmap list_fmap seq]. f_equal; [cbn; lia|].
    change (list_fmap _ _ timestamp ?l) with (timestamp <$> l). rewrite Htime, <- fmap_S_seq.
    rewrite <- list_fmap_compose. apply list_fmap_ext. intros i x _. cbn. lia.
Qed.

(** ** Lines of CSV *)

(** A record of a file, with the texts of its symbol and prices. *)
Record csv_record := mkCsv {
  c_time : Z; c_symbol : str; c_venue : Z;
  c_bid : str; c_bid_qty : Z; c_ask : str; c_ask_qty : Z
}.

Definition csv_line (c : csv_record) : str :=
  join ","%char [to_string (c_time c); c_symbol c; to_string (c_venue c);
                 c_bid c; to_string (c_bid_qty c); c_ask c; to_string (c_ask_qty c)].

Definition csv_tick (c : csv_record) : MarketDataTick :=
  { default_tick with
      symbol := FixedString.of_view 16 (c_symbol c); venue_id := c_venue c;
      timestamp := c_time c *! 1000;
      bid_price := to_price (strtod (c_bid c)); bid_qty := c_bid_qty c;
      ask_price := to_price (strtod (c_ask c)); ask_qty := c_ask_qty c }.

(** A text that fits a column: no separator, no blank around it. *)
Definition column (s : str) : Prop :=
  s <> [] /\ (","%char ∉ s) /\ ("010"%char ∉ s) /\ (FixedString.NUL ∉ s) /\ trim s = s.

#[export] Instance column_dec s : Decision (column s).
Proof. unfold column. apply _. Defined.

Record csv_ok (c : csv_record) : Prop := {
  ok_time : in_i64 (c_time c);
  ok_symbol : column (c_symbol c);
  ok_venue : 0 <= c_venue c < 65536;
  ok_bid : column (c_bid c);
  ok_bid_qty : in_i64 (c_bid_qty c);
  ok_ask : column (c_ask c);
  ok_ask_qty : in_i64 (c_ask_qty c)
}.

Lemma c_str_plain s : FixedString.NUL ∉ s -> c_str s = s.
Proof.
  unfold c_str. induction s as [|c s IH]; [done|]. intros [Hc Hs]%not_elem_of_cons. cbn.
  rewrite decide_False by congruence. by rewrite IH.
Qed.

Lemma skip_blank_id s : Forall (fun c => blank c = false) s -> skip_blank s = s.
Proof. destruct s as [|c s]; [done|]. intros [Hc _]%Forall_cons. cbn. by rewrite Hc. Qed.

Lemma trim_id s : Forall (fun c => blank c = false) s -> trim s = s.
Proof.
  intros Hs. unfold trim. rewrite (skip_blank_id s Hs), skip_blank_id by (by apply List.Forall_rev).
  apply rev_involutive.
Qed.

Lemma to_string_chars z (P : ascii -> Prop) :
  (forall c, is_digit c -> P c) -> P "-"%char -> Forall P (to_string z).
Proof.
  intros Hd Hm. unfold to_string. destruct (Z.ltb_spec z 0).
  - constructor; [done|]. eapply Forall_impl; [apply print_nat_digits; lia|auto].
  - eapply Forall_impl; [by apply print_nat_digits|auto].
Qed.

Lemma to_string_column z : column (to_string z).
Proof.
  assert (forall c, is_digit c \/ c = "-"%char -> blank c = false /\ c <> ","%char /\ c <> "010"%char
          /\ c <> FixedString.NUL) as H.
  { intros c [[v Hv]| ->]; [|done]. split_and!; try (intros ->; discriminate Hv).
    unfold blank. rewrite !bool_decide_eq_false_2; [done|intros ->; discriminate Hv..]. }
  split; [apply to_string_nonempty|].
  assert (forall x, (forall c, is_digit c \/ c = "-"%char -> c <> x) -> x ∉ to_string z) as Hx.
  { intros x Hne Hin. pose proof (to_string_chars z (fun c => c <> x)) as Hf.
    rewrite Forall_forall in Hf. by eapply Hf; auto. }
  split_and!; try (apply Hx; intros c Hc; by apply H in Hc as (? & ? & ? & ?)).
  apply trim_id, to_string_chars; [intros c Hc; by apply H; left|by apply H; right].
Qed.

Lemma column_parsed c :
  csv_ok c -> csv_fields (csv_line c) =
    [to_string (c_time c); c_symbol c; to_string (c_venue c);
     c_bid c; to_string (c_bid_qty c); c_ask c; to_string (c_ask_qty c)].
Proof.
  intros [Ht Hs Hv Hb Hbq Ha Haq]. unfold csv_fields, csv_line.
  assert (Forall column [to_string (c_time c); c_symbol c; to_string (c_venue c);
     c_bid c; to_string (c_bid_qty c); c_ask c; to_string (c_ask_qty c)]) as Hall.
  { repeat (apply Forall_cons; split); try apply to_string_column; done. }
  rewrite getline_all_join.
  - rewrite <- (list_fmap_id [to_string _; _; _; _; _; _; _]) at 2.
    apply Forall_fmap_ext. eapply Forall_impl; [exact Hall|]. intros s Hs'. apply Hs'.
  - eapply Forall_impl; [exact Hall|]. intros s (? & ? & _). done.
Qed.

Lemma strtoll_to_string z : in_i64 z -> read_int (to_string z) = z.
Proof.
  intros Hz. unfold read_int. rewrite c_str_plain by apply to_string_column.
  unfold strtoll. rewrite <- (app_nil_r (to_string z)), scan_int_to_string by done.
  replace (if z <? 0 then - Z.abs z else Z.abs z) with z by (destruct (Z.ltb_spec z 0); lia). mlia.
Qed.

Lemma strtoul_to_string z : 0 <= z < 65536 -> u16 (strtoul (c_str (to_string z))) = z.
Proof.
  intros Hz. rewrite c_str_plain by apply to_string_column.
  unfold strtoul. rewrite <- (app_nil_r (to_string z)), scan_int_to_string by done.
  rewrite (proj2 (Z.ltb_ge z 0)), Z.gtb_ltb, (proj2 (Z.ltb_ge _ _)) by lia.
  rewrite Z.abs_eq by lia. apply Z.mod_small. lia.
Qed.

Lemma csv_line_start c : csv_ok c -> exists x l, csv_line c = x :: l /\ x <> "#"%char.
Proof.
  intros _. unfold csv_line. pose proof (to_string_chars (c_time c) (fun x => x <> "#"%char)) as H.
  destruct (to_string (c_time c)) as [|x l] eqn:E; [by apply to_string_nonempty in E|].
  exists x. eexists. split; [done|].
  assert (Forall (fun x => x <> "#"%char) (x :: l)) as Hf by (apply H; [intros y [v Hv] ->; discriminate Hv|done]).
  by apply Forall_cons in Hf as [? _].
Qed.

Lemma parse_csv_line c : csv_ok c -> parse_line (csv_line c) = Some (csv_tick c).
Proof.
  intros Hok. unfold parse_line. destruct (csv_line_start c Hok) as (x & l & E & Hx).
  rewrite (column_parsed c Hok). pose proof Hok as [Ht Hs Hv Hb Hbq Ha Haq]. cbn [length Nat.ltb Nat.leb].
  assert (forall (A : Type) (a b : A), (match csv_line c with [] | "#"%char :: _ => a | _ => b end) = b) as ->.
  { intros A a b. rewrite E. repeat case_match; congruence. }
  change (Nat.min ((7 - 7) / 4) MAX_DEPTH) with 0%nat. cbn [field nth read_levels seq fold_left].
  unfold csv_tick. rewrite !strtoll_to_string, strtoul_to_string by done.
  unfold read_price. rewrite !c_str_plain by (apply Hb || apply Ha). done.
Qed.

Lemma join_not_in x d ts : x <> d -> Forall (fun t => x ∉ t) ts -> x ∉ join d ts.
Proof.
  intros Hx Hts. induction Hts as [|t ts Ht Hts IH]; [by apply not_elem_of_nil|].
  destruct ts as [|t' ts]; [done|].
  change (join d (t :: t' :: ts)) with (t ++ d :: join d (t' :: ts)).
  rewrite elem_of_app, elem_of_cons. by intros [?|[?|?]].
Qed.

Lemma csv_line_token c : csv_ok c -> ("010"%char ∉ csv_line c) /\ csv_line c <> [].
Proof.
  intros Hok. split.
  - pose proof Hok as [Ht Hs Hv Hb Hbq Ha Haq]. apply join_not_in; [done|].
    repeat (apply Forall_cons; split); first [apply to_string_column|apply Hs|apply Hb|apply Ha|done].
  - destruct (csv_line_start c Hok) as (x & l & -> & _). done.
Qed.

(** ** Properties *)

(** In every history of the replay engine in which [start] and [step] are
    not called during a [start], whatever the interleaving of the other
    operations with the loop, the callback has received since the last reset
    exactly the first [current_pos_] ticks, in order, each once. *)
Theorem replay_in_order r got :
  reach r got -> got = take (current_pos_ r) (ticks_ r) /\ (current_pos_ r <= length (ticks_ r))%nat.
Proof. intros H. by destruct (reach_replaying r got H). Qed.

(** C35. A [start] left alone terminates: after finitely many moves of the
    loop the engine has stopped at the end of the ticks, and the callback has
    received all the remaining ones, in order. *)
Theorem replay_completes r :
  thread r = Checking -> running_ r = true -> paused_ r = false -> callback_ r = true ->
  (current_pos_ r <= length (ticks_ r))%nat ->
  exists n, let '(r', evs) := loop_steps n r in
    thread r' = Idle /\ running_ r' = false /\ current_pos_ r' = length (ticks_ r) /\
    omap (fun e => match e with Delivered t => Some t | Slept _ => None end) evs
    = drop (current_pos_ r) (ticks_ r).
Proof. intros. by eapply loop_completes. Qed.

(** Generated ticks make sense: for a start price away from the ends of
    the range, every tick has [0 < bid < ask] with a spread of at most four
    tick sizes and quantities from 50 to 249, and the times start at one
    second and are the interval apart. *)
Theorem synthetic_ticks_ok r sym venue start_mid n interval :
  INT64_MIN + 1000000 <= start_mid -> Z.max start_mid 0 + (Z.of_nat n + 2) * 1000000 <= INT64_MAX ->
  0 <= interval -> 1000000000 + Z.of_nat n * (interval * 1000) <= INT64_MAX ->
  exists l, ticks_ (generate_synthetic r sym venue start_mid n interval) = ticks_ r ++ l /\
    Forall tick_ok l /\
    timestamp <$> l = (fun i => 1000000000 + Z.of_nat i * (interval * 1000)) <$> seq 0 n.
Proof. intros. eexists. split; [done|]. apply synthetic_spec; done || lia. Qed.

(** A CSV file with a header and well-formed lines loads: one tick per
    line, in order, each with the numbers and texts of its columns. *)
Theorem replay_csv_loads r header cs :
  is_header header = true -> ("010"%char ∉ header) -> Forall csv_ok cs ->
  load_from_csv r (Some (join "010"%char (header :: (csv_line <$> cs))))
  = (negb (bool_decide (ticks_ r ++ (csv_tick <$> cs) = [])),
     { r with ticks_ ::= fun l => l ++ (csv_tick <$> cs) }).
Proof.
  intros Hh Hn Hcs. unfold load_from_csv. rewrite getline_all_join.
  - cbn iota. rewrite Hh.
    assert (omap parse_line (csv_line <$> cs) = csv_tick <$> cs) as ->; [|done].
    induction Hcs as [|c cs Hc _ IH]; [done|]. rewrite !fmap_cons. cbn [omap list_omap].
    rewrite (parse_csv_line c Hc). f_equal. exact IH.
  - apply Forall_cons. split; [by destruct header|]. apply Forall_fmap.
    eapply Forall_impl; [exact Hcs|]. apply csv_line_token.
Qed.

Definition sample_tick (ts : Timestamp) : MarketDataTick :=
  { default_tick with timestamp := ts; bid_price := 99; ask_price := 101 }.

Definition loaded : ReplayEngine.t := add_tick (add_tick create (sample_tick 5)) (sample_tick 9).

Lemma replay_in_order_witness :
  [sample_tick 5] = take 1 [sample_tick 5; sample_tick 9] /\ (1 <= 2)%nat.
Proof.
  assert (reach (loop_step (loop_step (start loaded true)).1).1 [sample_tick 5]) as H.
  { assert (forall r got o r' evs, reach r got -> legal r o -> do_op r o = (r', evs) -> o <> Reset ->
      reach r' (got ++ omap (fun e => match e with Delivered t => Some t | Slept _ => None end) evs)) as Hs.
    { intros r got o r' evs Hr Hl Ho Hne. pose proof (reach_step r got o r' evs Hr Hl Ho). by destruct o. }
    apply (Hs (loop_step (start loaded true)).1 [] Loop _ [Delivered (sample_tick 5)]); [|done|reflexivity|done].
    apply (Hs (start loaded true) [] Loop _ []); [|done|reflexivity|done].
    apply (Hs loaded [] (Start true) _ []); [|done|reflexivity|done].
    apply (Hs (add_tick create (sample_tick 5)) [] (AddTick (sample_tick 9)) _ []); [|done|reflexivity|done].
    apply (Hs create [] (AddTick (sample_tick 5)) _ []); [|done|reflexivity|done]. constructor. }
  exact (replay_in_order _ _ H).
Defined.

Lemma replay_completes_witness :
  exists n, let '(r', evs) := loop_steps n (start loaded true) in
    thread r' = Idle /\ running_ r' = false /\ current_pos_ r' = 2%nat /\
    omap (fun e => match e with Delivered t => Some t | Slept _ => None end) evs
    = [sample_tick 5; sample_tick 9].
Proof. apply (replay_completes (start loaded true)); try reflexivity. cbn; lia. Defined.

Lemma synthetic_ticks_ok_witness :
  exists l, ticks_ (generate_synthetic create (Symbol_of "AAPL") 1 10000000000 3 1000) = [] ++ l /\
    Forall tick_ok l /\
    timestamp <$> l = (fun i => 1000000000 + Z.of_nat i * (1000 * 1000)) <$> seq 0 3.
Proof. apply (synthetic_ticks_ok create (Symbol_of "AAPL") 1 10000000000 3 1000); vm_compute; congruence. Defined.

Definition sample_record : csv_record := mkCsv 1000 (lit "AAPL") 2 (lit "150.25") 300 (lit "150.27") 200.

Lemma replay_csv_loads_witness :
  load_from_csv create (Some (join "010"%char (lit "time,symbol" :: (csv_line <$> [sample_record]))))
  = (true, { create with ticks_ := [csv_tick sample_record] }).
Proof.
  apply (replay_csv_loads create (lit "time,symbol") [sample_record]);
    [reflexivity|by apply (bool_decide_unpack _)|].
  apply Forall_singleton. constructor; try (by apply (bool_decide_unpack _)); vm_compute; split; congruence.
Defined.
