(* ===== verification/MpmcQueue.v ===== *)
(** * MPMCQueue<T> (cunk/include/concurrency/queue/MPMCQueue.h)

    A bounded ring that any number of threads push to and pop from.  A thread
    executes one atomic operation at a time under an arbitrary schedule; the
    weak compare-exchange may fail for no reason.  Both sides reserve a place
    with their compare-exchange and complete it later, so the specification
    is a history of places, each reserved, published, claimed and released in
    this order. *)

From S2P Require Import Prelude QueueSpec.

(** ** The specification: a history of places *)

Inductive status := Reserved | Published | Claimed | Released.

#[global] Instance status_eq_dec : EqDecision status.
Proof. solve_decision. Defined.

(** Every element ever pushed, in the order of the places, with the status of
    its place, and the number of places claimed. *)
Definition history (T : Type) : Type := (list (T * status) * nat)%type.

Inductive mpmc_event (T : Type) :=
| Reserve (x : T) | Publish (place : nat) | Claim (x : T) | Return (place : nat) (x : T)
| Full (x : T) | Empty.
#[global] Arguments Reserve {T} x.
#[global] Arguments Publish {T} place.
#[global] Arguments Claim {T} x.
#[global] Arguments Return {T} place x.
#[global] Arguments Full {T} x.
#[global] Arguments Empty {T}.

(** The next place is free: the one a lap before it was released. *)
Definition room {T} (cap : Z) (h : list (T * status)) : Prop :=
  forall i, Z.of_nat i + cap = Z.of_nat (length h) -> exists x, h !! i = Some (x, Released).

Inductive history_step {T} (cap : Z) : history T -> mpmc_event T -> history T -> Prop :=
| hs_reserve h r x : room cap h -> history_step cap (h, r) (Reserve x) (h ++ [(x, Reserved)], r)
| hs_publish h r i x : h !! i = Some (x, Reserved) ->
    history_step cap (h, r) (Publish i) (<[i := (x, Published)]> h, r)
| hs_claim h r x : h !! r = Some (x, Published) ->
    history_step cap (h, r) (Claim x) (<[r := (x, Claimed)]> h, S r)
| hs_return h r i x : h !! i = Some (x, Claimed) ->
    history_step cap (h, r) (Return i x) (<[i := (x, Released)]> h, r)
| hs_full h r i x y s : Z.of_nat i + cap = Z.of_nat (length h) ->
    h !! i = Some (y, s) -> s <> Released -> history_step cap (h, r) (Full x) (h, r)
| hs_empty h r : (forall x, h !! r <> Some (x, Published)) ->
    history_step cap (h, r) Empty (h, r).

Inductive history_run {T} (cap : Z) : list (mpmc_event T) -> history T -> Prop :=
| hr_nil : history_run cap [] ([], 0%nat)
| hr_snoc tr H e H' : history_run cap tr H -> history_step cap H e H' ->
    history_run cap (tr ++ [e]) H'.

(** What was pushed, what was claimed, and what the pops returned. *)
Definition reserved {T} (tr : list (mpmc_event T)) : list T :=
  omap (fun e => match e with Reserve x => Some x | _ => None end) tr.

Definition claimed {T} (tr : list (mpmc_event T)) : list T :=
  omap (fun e => match e with Claim x => Some x | _ => None end) tr.

Definition returned {T} (tr : list (mpmc_event T)) : list (nat * T) :=
  omap (fun e => match e with Return i x => Some (i, x) | _ => None end) tr.

(** In every execution the claims follow the order of the reservations, the
    pops return each claimed place once, with what was pushed there, and no
    more than [cap] places are unclaimed. *)
Record history_ok {T} (cap : Z) (tr : list (mpmc_event T)) (h : list (T * status)) (r : nat)
    : Prop := {
  ho_reserved : reserved tr = h.*1;
  ho_claimed : claimed tr = take r (reserved tr);
  ho_status : forall i x s, h !! i = Some (x, s) -> (i < r)%nat <-> s = Claimed \/ s = Released;
  ho_returned : forall i x, (i, x) ∈ returned tr <-> h !! i = Some (x, Released);
  ho_once : NoDup (returned tr).*1;
  ho_bound : Z.of_nat (length h) <= Z.of_nat r + cap;
  ho_le : (r <= length h)%nat
}.

Lemma insert_fst {A B} (l : list (A * B)) i (x : A) (b b' : B) :
  l !! i = Some (x, b) -> (<[i := (x, b')]> l).*1 = l.*1.
Proof.
  intros H. rewrite list_fmap_insert. apply list_insert_id. by rewrite list_lookup_fmap, H.
Qed.

(** A change of the status at one place. *)
Lemma history_ok_update {T} cap (tr : list (mpmc_event T)) h r i x s s' e :
  history_ok cap tr h r -> h !! i = Some (x, s) -> s <> Released -> s' <> Reserved ->
  (s = Reserved -> s' = Published) -> (s = Published -> s' = Published \/ s' = Claimed /\ i = r) ->
  (s = Claimed -> s' = Released) ->
  e = match s' with Published => Publish i | Claimed => Claim x | _ => Return i x end ->
  s <> s' ->
  history_ok cap (tr ++ [e]) (<[i := (x, s')]> h) (if decide (s' = Claimed) then S r else r).
Proof.
  intros [Hr Hc Hs Hret Ho Hb Hle] Hi Hnr Hns H1 H2 H3 -> Hne.
  assert (s' = Claimed -> i = r) as Hir.
  { intros ->. destruct s; try done; [by specialize (H1 eq_refl)|].
    by destruct (H2 eq_refl) as [|[_ ?]]. }
  pose proof (lookup_lt_Some _ _ _ Hi) as Hlt. pose proof (Hs _ _ _ Hi) as Hsi.
  unfold reserved, claimed, returned in *. split; unfold reserved, claimed, returned; rewrite ?omap_app.
  - rewrite (insert_fst h i x s), Hr by done. destruct s'; cbn; by rewrite app_nil_r.
  - destruct s'; cbn; try done; rewrite ?app_nil_r, ?Hc; try done.
    rewrite Hr, <- (take_S_r _ r x); [done|]. by rewrite list_lookup_fmap, <- (Hir eq_refl), Hi.
  - intros j y t [[-> [= -> ->]]|[Hji Hj]]%insert_lookup_cases.
    + destruct s, s'; try done; cbn; rewrite ?Hir in * by done; naive_solver lia.
    + specialize (Hs _ _ _ Hj). destruct (decide _) as [E|]; [|done].
      specialize (Hir E). subst i. rewrite <- Hs. lia.
  - intros j y. rewrite elem_of_app, Hret. destruct (Nat.eq_dec j i) as [->|Hji].
    + rewrite list_lookup_insert_eq by done. rewrite Hi.
      destruct s'; cbn; rewrite ?elem_of_nil, ?list_elem_of_singleton; naive_solver.
    + rewrite list_lookup_insert_ne by done.
      destruct s'; cbn; rewrite ?elem_of_nil, ?list_elem_of_singleton; naive_solver.
  - rewrite fmap_app. destruct s'; cbn; rewrite ?app_nil_r; try done.
    apply NoDup_app. split_and!; [done| |apply NoDup_singleton].
    intros j ([j' y] & -> & Hj)%list_elem_of_fmap. cbn. rewrite list_elem_of_singleton. intros ->.
    apply Hret in Hj. congruence.
  - rewrite length_insert. destruct (decide _); lia.
  - rewrite length_insert. destruct (decide _) as [E|]; [|done]. specialize (Hir E). lia.
Qed.

Lemma history_run_ok {T} cap (tr : list (mpmc_event T)) h r :
  0 <= cap -> history_run cap tr (h, r) -> history_ok cap tr h r.
Proof.
  intros Hcap Hrun. remember (h, r) as H eqn:EH. revert h r EH.
  induction Hrun as [|tr H e H' _ IH Hs]; intros h r EH; subst.
  - injection EH as <- <-. split; try done; [|apply NoDup_nil_2].
    intros i x. unfold returned. cbn. rewrite elem_of_nil. by split.
  - destruct H as [h0 r0]. specialize (IH h0 r0 eq_refl).
    inversion Hs as [? ? x Hroom|? ? i x Hi|? ? x Hi|? ? i x Hi| |]; subst; clear Hs.
    + destruct IH as [Hr Hc Hs Hret Ho Hb Hle]. unfold reserved, claimed, returned in *.
      split; unfold reserved, claimed, returned; rewrite ?omap_app; cbn; rewrite ?app_nil_r, ?fmap_app; try done.
      * by rewrite Hr.
      * rewrite Hc, Hr, take_app_le; [done|]. by rewrite length_fmap.
      * intros i y s [Hi|[Hge Hi]]%lookup_app_Some; [by eapply Hs|].
        apply list_lookup_singleton_Some in Hi as [Hi [= <- <-]]. split; [lia|naive_solver].
      * intros i y. rewrite Hret, lookup_app. destruct (h0 !! i) eqn:E; [done|].
        split; [done|]. intros [_ [=]]%list_lookup_singleton_Some.
      * rewrite length_app; cbn. destruct (Z.eq_dec (Z.of_nat (length h0)) (Z.of_nat r + cap)); [|lia].
        destruct (Hroom r) as [y Hy]; [lia|]. specialize (Hs _ _ _ Hy). naive_solver lia.
      * rewrite length_app. lia.
    + apply (history_ok_update cap tr h0 r i x Reserved Published _ IH); naive_solver.
    + apply (history_ok_update cap tr h0 r0 r0 x Published Claimed _ IH); naive_solver.
    + apply (history_ok_update cap tr h0 r i x Claimed Released _ IH); naive_solver.
    + destruct IH. split; unfold reserved, claimed, returned in *; rewrite ?omap_app, ?app_nil_r; done.
    + destruct IH. split; unfold reserved, claimed, returned in *; rewrite ?omap_app, ?app_nil_r; done.
Qed.

(** ** What a client of the queue sees

    The places in order with a mark for the published ones, and the number of
    those claimed: the completion of a pop shows only in when a push may be
    refused. *)

Definition places (T : Type) : Type := (list (T * bool) * nat)%type.

Definition no_places {T} : places T := ([], 0%nat).

Definition reserve {T} (q : places T) (x : T) : places T := (q.1 ++ [(x, false)], q.2).

Definition publish {T} (q : places T) (i : nat) : places T :=
  (alter (fun e => (e.1, true)) i q.1, q.2).

Definition claim {T} (q : places T) : option (T * places T) :=
  match q.1 !! q.2 with Some (x, true) => Some (x, (q.1, S q.2)) | _ => None end.

Definition size_of {T} (q : places T) : Z := Z.of_nat (length q.1) - Z.of_nat q.2.

Lemma publish_items {T} (q : places T) i : (publish q i).1.*1 = q.1.*1.
Proof.
  unfold publish. cbn. apply list_eq. intros j. rewrite !list_lookup_fmap.
  destruct (Nat.eq_dec j i) as [->|Hne]; [|by rewrite list_lookup_alter_ne].
  rewrite list_lookup_alter_eq. by destruct (q.1 !! i).
Qed.

Lemma claim_Some {T} (q : places T) x q' :
  claim q = Some (x, q') -> q.1 !! q.2 = Some (x, true) /\ q' = (q.1, S q.2).
Proof. unfold claim. destruct (q.1 !! q.2) as [[y []]|]; by intros [= -> ->]. Qed.

Definition view {T} (H : history T) : places T :=
  ((fun e => (e.1, bool_decide (e.2 <> Reserved))) <$> H.1, H.2).

(** Each event of the queue is an operation of the client's view. *)
Lemma history_step_view {T} cap (H H' : history T) e :
  (forall x s, H.1 !! H.2 = Some (x, s) -> s = Reserved \/ s = Published) ->
  history_step cap H e H' ->
  match e with
  | Reserve x => view H' = reserve (view H) x
  | Publish i => view H' = publish (view H) i
  | Claim x => claim (view H) = Some (x, view H')
  | Return _ _ | Full _ => view H' = view H
  | Empty => claim (view H) = None /\ H' = H
  end.
Proof.
  intros Hnext. destruct 1 as [h r x|h r i x Hi|h r x Hi|h r i x Hi|h r i x y s|h r Hno];
    unfold view, reserve, publish, claim; cbn in *.
  - by rewrite fmap_app.
  - f_equal. rewrite list_fmap_insert. apply list_eq. intros j.
    destruct (Nat.eq_dec j i) as [->|Hne].
    + rewrite list_lookup_insert_eq, list_lookup_alter_eq, list_lookup_fmap, Hi; [done|].
      rewrite length_fmap. by eapply lookup_lt_Some.
    + by rewrite list_lookup_insert_ne, list_lookup_alter_ne by done.
  - rewrite list_lookup_fmap, Hi. cbn. do 3 f_equal. symmetry.
    rewrite list_fmap_insert. apply list_insert_id. by rewrite list_lookup_fmap, Hi.
  - f_equal. rewrite list_fmap_insert. apply list_insert_id. by rewrite list_lookup_fmap, Hi.
  - done.
  - split; [|done]. rewrite list_lookup_fmap. destruct (h !! r) as [[x s]|] eqn:E; [|done]. cbn.
    destruct (Hnext x s eq_refl) as [-> | ->]; [done|]. by destruct (Hno x).
Qed.

(** ** Common.h *)

Definition CACHE_LINE_SIZE : Z := 64.

(** [v |= v >> n] on a [size_t]. *)
Definition smear (v n : Z) : Z := Z.lor v (Z.shiftr v n).

Definition next_power_of_two (v : Z) : Z :=
  let v := u64 (v - 1) in
  let v := smear v 1 in
  let v := smear v 2 in
  let v := smear v 4 in
  let v := smear v 8 in
  let v := smear v 16 in
  let v := smear v 32 in
  u64 (v + 1).

Definition is_power_of_two (v : Z) : bool :=
  negb (v =? 0) && (Z.land v (u64 (v - 1)) =? 0).

(** The bits from the highest one down are set, [n] places deep. *)
Definition filled (m n v : Z) : Prop :=
  (forall i, 0 <= i <= m -> m < i + n -> Z.testbit v i = true) /\
  (forall i, m < i -> Z.testbit v i = false).

Lemma smear_filled m n v : 0 < n -> filled m n v -> filled m (n + n) (smear v n).
Proof.
  intros Hn [Ht Hf]. unfold smear. split; intros i Hi.
  - intros Hm. rewrite Z.lor_spec, Z.shiftr_spec by lia. apply orb_true_iff.
    destruct (Z.lt_ge_cases m (i + n)); [left; apply Ht; lia|right; apply Ht; lia].
  - destruct (Z.lt_ge_cases i 0) as [Hneg|]; [by apply Z.testbit_neg_r|].
    by rewrite Z.lor_spec, Z.shiftr_spec, !Hf by lia.
Qed.

Lemma filled_log2 v : 0 < v -> filled (Z.log2 v) 1 v.
Proof.
  intros Hv. split; intros i Hi.
  - intros Hm. replace i with (Z.log2 v) by lia. by apply Z.bit_log2.
  - apply Z.bits_above_log2; lia.
Qed.

Lemma filled_ones m n v : 0 <= m < n -> filled m n v -> v = Z.ones (m + 1).
Proof.
  intros Hm [Ht Hf]. apply Z.bits_inj'. intros i Hi.
  rewrite Z.testbit_ones_nonneg by lia. destruct (Z.ltb_spec i (m + 1)); [apply Ht; lia|apply Hf; lia].
Qed.

(** The rounding is exact up to the largest power of two of the type. *)
Lemma next_power_of_two_exact v : 2 <= v <= 2 ^ 63 -> next_power_of_two v = 2 ^ Z.log2_up v.
Proof.
  intros Hv. unfold next_power_of_two. rewrite (u64_id (v - 1)) by mlia.
  pose proof (filled_log2 (v - 1) ltac:(lia)) as H1.
  pose proof (smear_filled _ 1 _ ltac:(lia) H1 : filled _ 2 _) as H2.
  pose proof (smear_filled _ 2 _ ltac:(lia) H2 : filled _ 4 _) as H3.
  pose proof (smear_filled _ 4 _ ltac:(lia) H3 : filled _ 8 _) as H4.
  pose proof (smear_filled _ 8 _ ltac:(lia) H4 : filled _ 16 _) as H5.
  pose proof (smear_filled _ 16 _ ltac:(lia) H5 : filled _ 32 _) as H6.
  pose proof (smear_filled _ 32 _ ltac:(lia) H6 : filled _ 64 _) as H7.
  assert (0 <= Z.log2 (v - 1) < 63) as Hl.
  { split; [apply Z.log2_nonneg|]. apply Z.log2_lt_pow2; lia. }
  apply filled_ones in H7; [|lia]. rewrite H7, Z.ones_equiv, Z.log2_up_eqn by lia.
  replace (Z.pred v) with (v - 1) by lia. rewrite Z.add_1_r.
  assert (0 < 2 ^ Z.succ (Z.log2 (v - 1)) <= 2 ^ 63).
  { split; [lia|]. apply Z.pow_le_mono_r; lia. }
  rewrite u64_id; [lia|mlia].
Qed.

(** ** The queue *)

Module MPMCQueue.
Section queue.
Context {T : Type}.
(** A default element, what a move leaves behind, the logarithm of the
    capacity. *)
Context (d : T) (moved : T -> T).

Record Slot := mkSlot { sequence : Z; data : T }.

Record t := mk {
  capacity_ : Z;
  mask_ : Z;
  slots_ : list Slot;
  head_ : Z;
  tail_ : Z
}.

Definition create (min_capacity : Z) : t :=
  let capacity := next_power_of_two (if min_capacity <? 2 then 2 else min_capacity) in
  mk capacity (u64 (capacity - 1))
     ((fun i => mkSlot (Z.of_nat i) d) <$> seq 0 (Z.to_nat capacity)) 0 0.

Definition index (q : t) (pos : Z) : nat := Z.to_nat (Z.land pos (mask_ q)).

Definition slot (q : t) (pos : Z) : Slot := nth (index q pos) (slots_ q) (mkSlot 0 d).

Definition set_slot (q : t) (pos : Z) (f : Slot -> Slot) : t :=
  { q with slots_ ::= alter f (index q pos) }.

(** [static_cast<std::ptrdiff_t>(seq) - static_cast<std::ptrdiff_t>(pos)] *)
Definition diff (seq pos : Z) : Z := i64 (i64 seq - i64 pos).

(** A thread, by the operation of [try_push] or [try_pop] it executes next. *)
Inductive thread :=
| Idle
| PushLoadPos (item : T)               (** [head_.load] *)
| PushLoadSeq (item : T) (pos : Z)     (** [slot.sequence.load] *)
| PushCas (item : T) (pos : Z)         (** [head_.compare_exchange_weak] *)
| PushWrite (item : T) (pos : Z)       (** [slot.data = item] *)
| PushPublish (item : T) (pos : Z)     (** [slot.sequence.store] *)
| PopLoadPos                           (** [tail_.load] *)
| PopLoadSeq (pos : Z)                 (** [slot.sequence.load] *)
| PopCas (pos : Z)                     (** [tail_.compare_exchange_weak] *)
| PopRead (pos : Z)                    (** [result = std::move(slot.data)] *)
| PopRelease (result : T) (pos : Z).   (** [slot.sequence.store] *)

Definition push_step (q : t) (p : thread) (weak_fails : bool) : t * thread * list (mpmc_event T) :=
  match p with
  | PushLoadPos item => (q, PushLoadSeq item (head_ q), [])
  | PushLoadSeq item pos =>
      let dif := diff (sequence (slot q pos)) pos in
      if dif =? 0 then (q, PushCas item pos, [])
      else if dif <? 0 then (q, Idle, [Full item])
      else (q, PushLoadPos item, [])
  | PushCas item pos =>
      if negb weak_fails && (head_ q =? pos)
      then ({ q with head_ := u64 (pos + 1) }, PushWrite item pos, [Reserve item])
      else (q, PushLoadSeq item (head_ q), [])
  | PushWrite item pos =>
      (set_slot q pos (fun c => { c with data := item }), PushPublish item pos, [])
  | PushPublish item pos =>
      (set_slot q pos (fun c => { c with sequence := u64 (pos + 1) }), Idle,
       [Publish (Z.to_nat pos)])
  | _ => (q, p, [])
  end.

Definition pop_step (q : t) (p : thread) (weak_fails : bool) : t * thread * list (mpmc_event T) :=
  match p with
  | PopLoadPos => (q, PopLoadSeq (tail_ q), [])
  | PopLoadSeq pos =>
      let dif := diff (sequence (slot q pos)) (u64 (pos + 1)) in
      if dif =? 0 then (q, PopCas pos, [])
      else if dif <? 0 then (q, Idle, [Empty])
      else (q, PopLoadPos, [])
  | PopCas pos =>
      if negb weak_fails && (tail_ q =? pos)
      then ({ q with tail_ := u64 (pos + 1) }, PopRead pos, [Claim (data (slot q pos))])
      else (q, PopLoadSeq (tail_ q), [])
  | PopRead pos =>
      (set_slot q pos (fun c => { c with data ::= moved }), PopRelease (data (slot q pos)) pos, [])
  | PopRelease result pos =>
      (set_slot q pos (fun c => { c with sequence := u64 (u64 (pos + mask_ q) + 1) }), Idle,
       [Return (Z.to_nat pos) result])
  | _ => (q, p, [])
  end.

Definition size_approx (q : t) : Z :=
  if head_ q >=? tail_ q then u64 (head_ q - tail_ q) else 0.

Definition empty (q : t) : bool := size_approx q =? 0.

Definition capacity (q : t) : Z := capacity_ q.

(** ** Interleaving *)

Record system := mkSys {
  sys_queue : t;
  sys_threads : nat -> thread;
  sys_trace : list (mpmc_event T)
}.

Definition start (min_capacity : Z) : system := mkSys (create min_capacity) (fun _ => Idle) [].

(** Which thread moves, the call it makes when it is idle, and whether its
    exchange fails spuriously. *)
Inductive call := Push (item : T) | Pop.
Record move := mkMove { who : nat; next_call : call; weak_fails : bool }.

Definition thread_step (q : t) (p : thread) (m : move) : t * thread * list (mpmc_event T) :=
  match p with
  | Idle => (q, match next_call m with Push item => PushLoadPos item | Pop => PopLoadPos end, [])
  | PushLoadPos _ | PushLoadSeq _ _ | PushCas _ _ | PushWrite _ _ | PushPublish _ _ =>
      push_step q p (weak_fails m)
  | _ => pop_step q p (weak_fails m)
  end.

Definition step (s : system) (m : move) : system :=
  let '(q, p, ev) := thread_step (sys_queue s) (sys_threads s (who m)) m in
  mkSys q (set_thread (sys_threads s) (who m) p) (sys_trace s ++ ev).

Definition run (min_capacity : Z) (ms : list move) : system :=
  fold_left step ms (start min_capacity).

(** ** The invariant *)

#[local] Arguments slot : simpl never.
#[local] Arguments set_slot : simpl never.
#[local] Arguments index : simpl never.

Context {k : Z} {Hk : SmallRing k} (Hk1 : 1 <= k).

#[local] Abbreviation Capacity := (Capacity k).

Definition place (h : list (T * status)) (p : Z) : option (T * status) :=
  if p <? 0 then None else h !! Z.to_nat p.

(** The slot of the place [p], the last of its lap, against the history. *)
Definition slot_ok (h : list (T * status)) (c : Slot) (p : Z) : Prop :=
  match place h p with
  | Some (_, Reserved) => sequence c = p
  | Some (x, Published) => sequence c = p + 1 /\ data c = x
  | Some (_, Claimed) => sequence c = p + 1
  | _ => sequence c = p + Capacity
  end.

(** The place a thread has reserved or claimed and not completed. *)
Definition owns (p : thread) : option Z :=
  match p with
  | PushWrite _ pos | PushPublish _ pos | PopRead pos | PopRelease _ pos => Some pos
  | _ => None
  end.

Definition thread_ok (q : t) (h : list (T * status)) (r : nat) (p : thread) : Prop :=
  match p with
  | Idle | PushLoadPos _ | PopLoadPos => True
  | PushLoadSeq _ pos => 0 <= pos <= Z.of_nat (length h)
  | PushCas _ pos =>
      0 <= pos <= Z.of_nat (length h) /\ (pos = Z.of_nat (length h) -> room Capacity h)
  | PushWrite x pos => place h pos = Some (x, Reserved)
  | PushPublish x pos => place h pos = Some (x, Reserved) /\ data (slot q pos) = x
  | PopLoadSeq pos => 0 <= pos <= Z.of_nat r
  | PopCas pos =>
      0 <= pos <= Z.of_nat r /\ (pos = Z.of_nat r -> exists x, place h pos = Some (x, Published))
  | PopRead pos => exists x, place h pos = Some (x, Claimed) /\ data (slot q pos) = x
  | PopRelease x pos => place h pos = Some (x, Claimed)
  end.

Record inv (q : t) (ps : nat -> thread) (h : list (T * status)) (r : nat) : Prop := {
  iv_capacity : capacity_ q = Capacity;
  iv_mask : mask_ q = MASK k;
  iv_slots : length (slots_ q) = Z.to_nat Capacity;
  iv_head : head_ q = Z.of_nat (length h);
  iv_tail : tail_ q = Z.of_nat r;
  iv_le : (r <= length h)%nat;
  iv_window : forall p, Z.of_nat (length h) - Capacity <= p < Z.of_nat (length h) ->
    slot_ok h (slot q p) p;
  iv_old : forall p, 0 <= p < Z.of_nat (length h) - Capacity ->
    exists x, place h p = Some (x, Released);
  iv_claimed : forall p x s, place h p = Some (x, s) ->
    p < Z.of_nat r <-> s = Claimed \/ s = Released;
  iv_threads : forall i, thread_ok q h r (ps i);
  iv_owners : exclusive owns ps
}.

Lemma mpmc_Capacity_two : 2 <= Capacity.
Proof. unfold QueueSpec.Capacity. change 2 with (2 ^ 1) at 1. apply Z.pow_le_mono_r; lia. Qed.

Lemma place_range h p y : place h p = Some y -> 0 <= p < Z.of_nat (length h).
Proof.
  unfold place. destruct (Z.ltb_spec p 0); [done|]. intros ?%lookup_lt_Some. lia.
Qed.

Lemma place_nat h (i : nat) : place h (Z.of_nat i) = h !! i.
Proof. unfold place. rewrite (proj2 (Z.ltb_ge _ _)) by lia. by rewrite Nat2Z.id. Qed.

Lemma place_lookup h p y : place h p = Some y -> h !! Z.to_nat p = Some y.
Proof. unfold place. by destruct (p <? 0). Qed.

Lemma place_is_some h p : 0 <= p < Z.of_nat (length h) -> exists x s, place h p = Some (x, s).
Proof.
  intros Hp. unfold place. rewrite (proj2 (Z.ltb_ge _ _)) by lia.
  destruct (lookup_lt_is_Some_2 h (Z.to_nat p)) as [[x s] ->]; [lia|eauto].
Qed.

(** ** Slots *)

Lemma mpmc_index_mod q pos : mask_ q = MASK k -> index q pos = Z.to_nat (pos mod Capacity).
Proof. unfold index. intros ->. by rewrite land_mask. Qed.

Lemma slot_mod q p p' : mask_ q = MASK k -> p mod Capacity = p' mod Capacity -> slot q p = slot q p'.
Proof. intros Hm E. unfold slot. by rewrite !mpmc_index_mod, E. Qed.

Lemma set_slot_fields q pos f :
  mask_ q = MASK k -> length (slots_ q) = Z.to_nat Capacity ->
  let q' := set_slot q pos f in
  capacity_ q' = capacity_ q /\ mask_ q' = mask_ q /\ head_ q' = head_ q /\ tail_ q' = tail_ q /\
  length (slots_ q') = length (slots_ q) /\ slot q' pos = f (slot q pos) /\
  forall p, p mod Capacity <> pos mod Capacity -> slot q' p = slot q p.
Proof.
  intros Hm Hl. pose proof mpmc_Capacity_two. pose proof (Z.mod_pos_bound pos Capacity).
  assert (index q pos < length (slots_ q))%nat as Hi by (rewrite mpmc_index_mod by done; lia).
  pose proof (fun p => mpmc_index_mod q p Hm) as Hix. unfold set_slot, slot, index in *.
  destruct q as [c m sl hd tl]. fields. subst m. rewrite length_alter. split_and!; [done..| |].
  - rewrite nth_lookup, list_lookup_alter_eq, nth_lookup.
    destruct (lookup_lt_is_Some_2 sl _ Hi) as [s ->]. done.
  - intros p Hne. rewrite !nth_lookup, list_lookup_alter_ne; [done|].
    rewrite !Hix. pose proof (Z.mod_pos_bound p Capacity). lia.
Qed.

(** An uncompleted place is in the window. *)
Lemma place_window q ps h r p x s :
  inv q ps h r -> place h p = Some (x, s) -> s <> Released ->
  Z.of_nat (length h) - Capacity <= p < Z.of_nat (length h).
Proof.
  intros H Hp Hs. pose proof (place_range _ _ _ Hp).
  destruct (Z.lt_ge_cases p (Z.of_nat (length h) - Capacity)) as [Hlt|]; [|lia].
  destruct (iv_old _ _ _ _ H p ltac:(lia)) as [y Hy]. congruence.
Qed.

Lemma owner_place q ps h r i o :
  inv q ps h r -> owns (ps i) = Some o ->
  exists x s, place h o = Some (x, s) /\ (s = Reserved \/ s = Claimed).
Proof.
  intros H Ho. pose proof (iv_threads _ _ _ _ H i) as Hi.
  destruct (ps i); cbn in Ho, Hi; try done; injection Ho as <-; naive_solver.
Qed.

(** What the sequence of a slot may be. *)
Lemma slot_sequence q ps h r pos :
  inv q ps h r ->
  exists p z, Z.of_nat (length h) - Capacity <= p < Z.of_nat (length h) /\
    p = pos + z * Capacity /\ slot q p = slot q pos /\
    (sequence (slot q pos) = p \/ sequence (slot q pos) = p + 1 \/
     sequence (slot q pos) = p + Capacity) /\
    0 <= sequence (slot q pos).
Proof.
  intros H. pose proof mpmc_Capacity_two.
  destruct (window_position (k := k) (Z.of_nat (length h) - Capacity) pos) as (p & Hp & Hm & z & Hz).
  exists p, z. assert (slot q p = slot q pos) as E by (apply slot_mod; [apply H|done]).
  pose proof (iv_window _ _ _ _ H p ltac:(lia)) as Hs. rewrite E in Hs. unfold slot_ok in Hs.
  split; [lia|]. split; [done|]. split; [done|].
  destruct (place h p) as [[x []]|] eqn:Ep; try (apply place_range in Ep);
    (split; [|lia]); tauto.
Qed.

(** A place behind the head: its own sequence, or a later lap's. *)
Lemma sequence_past q ps h r pos :
  inv q ps h r -> 0 <= pos < Z.of_nat (length h) -> pos <= sequence (slot q pos) /\
  ((exists x s, place h pos = Some (x, s) /\ s <> Reserved) -> pos + 1 <= sequence (slot q pos)).
Proof.
  intros H Hpos. pose proof mpmc_Capacity_two.
  destruct (slot_sequence q ps h r pos H) as (p & z & Hp & Hz & E & Hs & _).
  assert (0 <= z) by nia. assert (pos <= p) by nia. split; [lia|]. intros (x & s & Hx & Hne).
  destruct (Z.eq_dec p pos) as [->|]; [|lia].
  pose proof (iv_window _ _ _ _ H pos Hp) as Hw. unfold slot_ok in Hw. rewrite Hx in Hw.
  destruct s; [done|destruct Hw; lia|lia..].
Qed.

(** The sequence of the slot at the head. *)
Lemma sequence_head q ps h r :
  inv q ps h r ->
  let seq := sequence (slot q (Z.of_nat (length h))) in
  (seq = Z.of_nat (length h) /\ room Capacity h) \/
  (seq < Z.of_nat (length h) /\ exists i y s, Z.of_nat i + Capacity = Z.of_nat (length h) /\
    h !! i = Some (y, s) /\ s <> Released).
Proof.
  intros H. pose proof mpmc_Capacity_two. set (n := Z.of_nat (length h)).
  assert (slot q (n - Capacity) = slot q n) as E.
  { apply slot_mod; [apply H|]. rewrite <- (Z.mod_add (n - Capacity) 1) by lia. f_equal. lia. }
  pose proof (iv_window _ _ _ _ H (n - Capacity) ltac:(lia)) as Hs. rewrite E in Hs.
  unfold slot_ok in Hs. cbn zeta.
  assert (forall y s, place h (n - Capacity) = Some (y, s) -> s <> Released ->
    exists i y s, Z.of_nat i + Capacity = n /\ h !! i = Some (y, s) /\ s <> Released) as Hnr.
  { intros y s Hp Hne. pose proof (place_range _ _ _ Hp). exists (Z.to_nat (n - Capacity)), y, s.
    split_and!; [lia|by apply place_lookup|done]. }
  destruct (place h (n - Capacity)) as [[y s]|] eqn:Ep.
  - destruct (decide (s = Released)) as [->|Hne].
    + left. split; [lia|]. intros i Hi. exists y. rewrite <- place_nat.
      replace (Z.of_nat i) with (n - Capacity) by lia. done.
    + right. split; [|by eapply Hnr]. destruct s; try done; (lia || destruct Hs; lia).
  - left. split; [lia|]. intros i Hi. exfalso. unfold place in Ep.
    destruct (Z.ltb_spec (n - Capacity) 0); [lia|]. apply lookup_ge_None in Ep. lia.
Qed.

(** The claimed part reaches the window. *)
Lemma claimed_window q ps h r : inv q ps h r -> Z.of_nat (length h) - Capacity <= Z.of_nat r.
Proof.
  intros H. pose proof mpmc_Capacity_two. destruct (Z.le_gt_cases (Z.of_nat (length h) - Capacity) (Z.of_nat r)) as [|Hgt]; [done|].
  destruct (iv_old _ _ _ _ H (Z.of_nat r) ltac:(lia)) as [x Hx].
  apply (iv_claimed _ _ _ _ H) in Hx. assert (Z.of_nat r < Z.of_nat r) by tauto. lia.
Qed.

(** The sequence of the slot at the tail. *)
Lemma sequence_tail q ps h r :
  inv q ps h r ->
  let seq := sequence (slot q (Z.of_nat r)) in
  (seq = Z.of_nat r + 1 /\ exists x, place h (Z.of_nat r) = Some (x, Published)) \/
  (seq < Z.of_nat r + 1 /\ forall x, h !! r <> Some (x, Published)).
Proof.
  intros H. pose proof mpmc_Capacity_two. pose proof (claimed_window _ _ _ _ H).
  pose proof (iv_le _ _ _ _ H). cbn zeta.
  destruct (Nat.eq_dec r (length h)) as [E|Hne].
  - right. split; [|intros x Hx; apply lookup_lt_Some in Hx; lia].
    rewrite E. destruct (sequence_head _ _ _ _ H) as [[? _]|[? _]]; lia.
  - destruct (place_is_some h (Z.of_nat r)) as (x & s & Hx); [lia|].
    pose proof (iv_window _ _ _ _ H (Z.of_nat r) ltac:(lia)) as Hs.
    pose proof (iv_claimed _ _ _ _ H _ _ _ Hx) as Hc. unfold slot_ok in Hs. rewrite Hx in Hs.
    rewrite <- place_nat, Hx. destruct s.
    + right. split; [lia|done].
    + left. split; [tauto|by exists x].
    + exfalso. assert (Z.of_nat r < Z.of_nat r) by (apply Hc; by left). lia.
    + exfalso. assert (Z.of_nat r < Z.of_nat r) by (apply Hc; by right). lia.
Qed.

(** ** Preservation *)

(** What the steps of the other threads leave to a thread. *)
Lemma thread_ok_mono q h r q' h' r' p :
  (length h <= length h')%nat -> (r <= r')%nat ->
  (forall o y, owns p = Some o -> place h o = Some y -> place h' o = Some y) ->
  (forall o, owns p = Some o -> data (slot q' o) = data (slot q o)) ->
  (length h' = length h -> room Capacity h -> room Capacity h') ->
  (r' = r -> forall x, place h (Z.of_nat r) = Some (x, Published) ->
    place h' (Z.of_nat r) = Some (x, Published)) ->
  thread_ok q h r p -> thread_ok q' h' r' p.
Proof.
  intros Hl Hr Hp Hd Hroom Hpub. destruct p as [| | |y pos|y pos|y pos| | |pos|pos|y pos]; cbn.
  all: try done; try lia.
  - intros [? Hn]. split; [lia|]. intros ->. assert (length h' = length h) as E by lia.
    rewrite E in Hn. apply Hroom; auto.
  - apply Hp. done.
  - intros [? Hdata]. split; [by apply Hp|]. by rewrite Hd.
  - intros [? Hn]. split; [lia|]. intros ->. assert (r' = r) as E by lia.
    rewrite E in *. destruct (Hn eq_refl) as [x Hx]. exists x. by apply Hpub.
  - intros (x & Hx & Hdata). exists x. split; [by apply Hp|]. by rewrite Hd.
  - apply Hp. done.
Qed.

(** A step that changes nothing shared. *)
Lemma local_step q ps h r i p :
  inv q ps h r -> thread_ok q h r p -> owns p = None -> inv q (set_thread ps i p) h r.
Proof.
  intros H Hp Ho. destruct H as [? ? ? ? ? ? ? ? ? Hps Hown]. split; try done.
  - by apply (set_thread_all (thread_ok q h r)).
  - apply exclusive_upd; [done|]. intros o j. by rewrite Ho.
Qed.

Lemma place_insert h o y p :
  0 <= o < Z.of_nat (length h) ->
  place (<[Z.to_nat o := y]> h) p = if p =? o then Some y else place h p.
Proof.
  intros Ho. unfold place. destruct (Z.eqb_spec p o) as [->|Hne].
  - rewrite (proj2 (Z.ltb_ge _ _)) by lia. rewrite list_lookup_insert_eq by lia. done.
  - destruct (Z.ltb_spec p 0); [done|]. rewrite list_lookup_insert_ne by lia. done.
Qed.

(** A step of the owner of a place on its slot. *)
Lemma slot_step q ps h r i o x s s' f p' :
  inv q ps h r -> owns (ps i) = Some o -> place h o = Some (x, s) ->
  s = Reserved /\ (s' = Reserved \/ s' = Published) \/
  s = Claimed /\ (s' = Claimed \/ s' = Released) ->
  let q' := set_slot q o f in
  let h' := <[Z.to_nat o := (x, s')]> h in
  slot_ok h' (f (slot q o)) o -> thread_ok q' h' r p' -> owns p' = Some o \/ owns p' = None ->
  inv q' (set_thread ps i p') h' r.
Proof.
  intros H Hi Hx Hss q' h' Hok Hp' Ho'.
  pose proof (place_range _ _ _ Hx) as Hrange.
  assert (s <> Released) as Hnr by (destruct s; naive_solver).
  pose proof (place_window _ _ _ _ _ _ _ H Hx Hnr) as Hwin.
  pose proof (fun j o => owner_place q ps h r j o H) as Hplace.
  pose proof (fun p => place_insert h o (x, s') p Hrange) as Hins. fold h' in Hins.
  pose proof H as [Hc Hm Hsl Hhd Htl Hle Hw Hold Hcl Hps Hown].
  destruct (set_slot_fields q o f Hm Hsl) as (E1 & E2 & E3 & E4 & E5 & E6 & E7).
  fold q' in E1, E2, E3, E4, E5, E6, E7.
  assert (length h' = length h) as El by apply length_insert.
  assert (forall p, Z.of_nat (length h) - Capacity <= p < Z.of_nat (length h) -> p <> o ->
    slot q' p = slot q p) as Hsame.
  { intros p Hp Hne. apply E7. intros E. apply Hne.
    by apply (window_distinct (k := k) (Z.of_nat (length h) - Capacity)); [lia..|]. }
  split; rewrite ?E1, ?E2, ?E3, ?E4, ?E5, ?El; try done.
  - intros p Hp. destruct (Z.eq_dec p o) as [->|Hne]; [by rewrite E6|].
    rewrite Hsame by done. specialize (Hw p Hp). unfold slot_ok in *. rewrite Hins.
    by rewrite (proj2 (Z.eqb_neq _ _) Hne).
  - intros p Hp. rewrite Hins. destruct (Z.eqb_spec p o); [lia|]. by apply Hold.
  - intros p y t. rewrite Hins. destruct (Z.eqb_spec p o) as [->|]; [|apply Hcl].
    intros [= <- <-]. rewrite (Hcl _ _ _ Hx). destruct s, s'; naive_solver.
  - apply (set_thread_all (thread_ok q' h' r)); [done|]. intros j Hj.
    assert (forall o', owns (ps j) = Some o' -> o' <> o) as Hne.
    { intros o' Hjo ->. by apply Hj, (Hown j i o). }
    apply (thread_ok_mono q h r); try done; try lia.
    + intros o' y Hjo Hy. rewrite Hins. rewrite (proj2 (Z.eqb_neq _ _)); auto.
    + intros o' Hjo. destruct (Hplace j o' Hjo) as (y & t & Hy & Ht).
      rewrite Hsame; [done| |by apply Hne].
      eapply place_window; [done|done|]. naive_solver.
    + intros _ Hroom n Hn. rewrite El in Hn. destruct (Hroom n Hn) as [y Hy]. exists y.
      rewrite <- place_nat, Hins. destruct (Z.eqb_spec (Z.of_nat n) o) as [<-|]; [|by rewrite place_nat].
      rewrite place_nat in Hx. congruence.
    + intros _ y Hy. rewrite Hins. destruct (Z.eqb_spec (Z.of_nat r) o) as [E|]; [|done].
      rewrite E in Hy. naive_solver.
  - apply exclusive_upd; [done|]. intros o' j Ho Hj Hjo.
    destruct Ho' as [Ho'|Ho']; rewrite Ho in Ho'; [|done]. injection Ho' as ->.
    by apply Hj, (Hown j i o).
Qed.

(** The exchange of the head reserves the next place. *)
Lemma reserve_step q ps h r i x :
  inv q ps h r -> room Capacity h -> Z.of_nat (length h) + 1 <= INT64_MAX ->
  inv { q with head_ := u64 (Z.of_nat (length h) + 1) }
      (set_thread ps i (PushWrite x (Z.of_nat (length h)))) (h ++ [(x, Reserved)]) r.
Proof.
  intros H Hroom Hmax. pose proof mpmc_Capacity_two.
  pose proof (sequence_head _ _ _ _ H) as Hseq. cbn zeta in Hseq.
  pose proof (fun j o => owner_place q ps h r j o H) as Hplace.
  destruct H as [Hc Hm Hsl Hhd Htl Hle Hw Hold Hcl Hps Hown].
  rewrite u64_id by mlia. destruct q as [c m sl hd tl]. cbn in Hc, Hm, Hsl, Hhd, Htl. fields.
  assert (forall p y, place h p = Some y -> place (h ++ [(x, Reserved)]) p = Some y) as Hmono.
  { intros p y. unfold place. destruct (p <? 0); [done|]. apply lookup_app_l_Some. }
  assert (place (h ++ [(x, Reserved)]) (Z.of_nat (length h)) = Some (x, Reserved)) as Hnew.
  { rewrite place_nat, lookup_app_r, Nat.sub_diag; done. }
  split; cbn; rewrite ?length_app; cbn [length]; try done; try lia.
  - intros p Hp. unfold slot_ok. destruct (Z.eq_dec p (Z.of_nat (length h))) as [->|Hne].
    + rewrite Hnew. destruct Hseq as [[? _]|[_ (n & y & s & Hn & Hy & Hs)]]; [done|].
      destruct (Hroom n Hn) as [y' Hy']. congruence.
    + specialize (Hw p ltac:(lia)). unfold slot_ok in Hw.
      destruct (Z.lt_ge_cases p 0) as [Hneg|].
      * unfold place in *. by rewrite (proj2 (Z.ltb_lt _ _) Hneg) in *.
      * destruct (place_is_some h p) as (y & s & Hy); [lia|]. rewrite Hy in Hw.
        by rewrite (Hmono _ _ Hy).
  - intros p Hp. destruct (Z.eq_dec p (Z.of_nat (length h) - Capacity)) as [->|].
    + destruct (Hroom (Z.to_nat (Z.of_nat (length h) - Capacity))) as [y Hy]; [lia|]. exists y.
      apply Hmono. rewrite <- place_nat, Z2Nat.id in Hy by lia. done.
    + destruct (Hold p ltac:(lia)) as [y Hy]. exists y. by apply Hmono.
  - intros p y s Hy. destruct (Z.eq_dec p (Z.of_nat (length h))) as [->|Hne].
    + rewrite Hnew in Hy. injection Hy as <- <-. split; [lia|naive_solver].
    + pose proof (place_range _ _ _ Hy) as Hp. rewrite length_app in Hp; cbn in Hp.
      destruct (place_is_some h p) as (y' & s' & Hy'); [lia|].
      rewrite (Hmono _ _ Hy') in Hy. injection Hy as <- <-. by apply (Hcl p y').
  - apply (set_thread_all (thread_ok _ _ _)); [done|]. intros j Hj.
    eapply (thread_ok_mono _ h r); [..|by apply Hps]; rewrite ?length_app; cbn; try lia; try done.
    + intros o y _. apply Hmono.
    + intros _ y. apply Hmono.
  - apply exclusive_upd; [done|]. intros o j [= <-] _ Ho.
    destruct (Hplace j _ Ho) as (y & s & Hy & _). apply place_range in Hy. lia.
Qed.

(** The exchange of the tail claims the next place. *)
Lemma claim_step q ps h r i x :
  inv q ps h r -> place h (Z.of_nat r) = Some (x, Published) -> Z.of_nat (length h) <= INT64_MAX ->
  inv { q with tail_ := u64 (Z.of_nat r + 1) }
      (set_thread ps i (PopRead (Z.of_nat r))) (<[r := (x, Claimed)]> h) (S r).
Proof.
  intros H Hx Hmax. pose proof (place_range _ _ _ Hx) as Hrange.
  pose proof (fun j o => owner_place q ps h r j o H) as Hplace.
  pose proof (place_window _ _ _ _ _ _ _ H Hx ltac:(done)) as Hwin.
  pose proof (fun p => place_insert h (Z.of_nat r) (x, Claimed) p Hrange) as Hins.
  rewrite Nat2Z.id in Hins. set (h' := <[r := (x, Claimed)]> h) in *.
  destruct H as [Hc Hm Hsl Hhd Htl Hle Hw Hold Hcl Hps Hown].
  rewrite u64_id by mlia. destruct q as [c m sl hd tl]. cbn in Hc, Hm, Hsl, Hhd, Htl. fields.
  assert (length h' = length h) as El by apply length_insert.
  pose proof (Hw _ Hwin) as Hslot. unfold slot_ok in Hslot. rewrite Hx in Hslot.
  destruct Hslot as [Hseq Hdata].
  split; cbn; rewrite ?El; try done; try lia.
  - intros p Hp. specialize (Hw p Hp). unfold slot_ok in *. rewrite Hins.
    destruct (Z.eqb_spec p (Z.of_nat r)) as [->|]; done.
  - intros p Hp. rewrite Hins. destruct (Z.eqb_spec p (Z.of_nat r)); [lia|]. by apply Hold.
  - intros p y s. rewrite Hins. destruct (Z.eqb_spec p (Z.of_nat r)) as [->|].
    + intros [= <- <-]. split; [by left|lia].
    + intros Hy. rewrite <- (Hcl p y s Hy). lia.
  - apply (set_thread_all (thread_ok _ _ _)).
    + cbn. exists x. split; [|done]. rewrite Hins, Z.eqb_refl. done.
    + intros j Hj. eapply (thread_ok_mono _ h r); [..|by apply Hps]; rewrite ?El; try lia; try done.
      * intros o y Ho Hy. rewrite Hins. destruct (Z.eqb_spec o (Z.of_nat r)) as [->|]; [|done].
        destruct (Hplace j _ Ho) as (z & s & Hz & Hs). naive_solver.
      * intros _ Hroom n Hn. rewrite El in Hn. destruct (Hroom n Hn) as [y Hy]. exists y.
        rewrite <- place_nat, Hins, place_nat. destruct (Z.eqb_spec (Z.of_nat n) (Z.of_nat r)) as [E|]; [|done].
        rewrite <- E, place_nat in Hx. congruence.
  - apply exclusive_upd; [done|]. intros o j [= <-] _ Ho.
    destruct (Hplace j _ Ho) as (y & s & Hy & Hs). naive_solver.
Qed.

(** ** Steps and runs *)

Definition sys_inv (n : nat) (s : system) : Prop :=
  exists h r, history_run Capacity (sys_trace s) (h, r) /\ (length h <= n)%nat /\
    inv (sys_queue s) (sys_threads s) h r.

Lemma create_capacity min_capacity :
  (if min_capacity <? 2 then 2 else min_capacity) <= 2 ^ 62 ->
  k = Z.log2_up (if min_capacity <? 2 then 2 else min_capacity) ->
  capacity_ (create min_capacity) = Capacity.
Proof.
  unfold create, QueueSpec.Capacity. cbn [capacity_]. intros Hm ->.
  apply next_power_of_two_exact. destruct (Z.ltb_spec min_capacity 2); lia.
Qed.

Lemma create_fields min_capacity :
  let q := create min_capacity in
  mask_ q = u64 (capacity_ q - 1) /\ head_ q = 0 /\ tail_ q = 0 /\
  slots_ q = (fun i => mkSlot (Z.of_nat i) d) <$> seq 0 (Z.to_nat (capacity_ q)).
Proof.
  unfold create. generalize (next_power_of_two (if min_capacity <? 2 then 2 else min_capacity)).
  intros c. cbv zeta. cbn [mask_ capacity_ head_ tail_ slots_]. split_and!; reflexivity.
Qed.

Lemma mpmc_start_inv min_capacity :
  capacity_ (create min_capacity) = Capacity -> sys_inv 0 (start min_capacity).
Proof.
  intros Hc. pose proof mpmc_Capacity_two. pose proof (Capacity_small (k := k)).
  destruct (create_fields min_capacity) as (Hm & Hh & Ht & Hs). unfold start, sys_inv.
  cbn [sys_queue sys_threads sys_trace]. generalize dependent (create min_capacity).
  intros q Hc Hm Hh Ht Hs. rewrite Hc in *. rewrite u64_id in Hm by mlia. fold (MASK k) in Hm.
  exists [], 0%nat. split; [constructor|]. split; [done|].
  split; cbn [length Z.of_nat]; try done; try lia.
  - by rewrite Hs, length_fmap, length_seq.
  - intros p Hp. unfold slot_ok. replace (place [] p) with (@None (T * status)).
    2:{ unfold place. by destruct (p <? 0). }
    unfold slot. rewrite mpmc_index_mod, Hs, nth_lookup, list_lookup_fmap by done.
    replace (p mod Capacity) with (p + Capacity).
    2:{ rewrite <- (Z.mod_add p 1), Z.mul_1_l, Z.mod_small; lia. }
    rewrite lookup_seq_lt by lia. cbn. lia.
  - intros p x s. unfold place. by destruct (p <? 0).
Qed.

Lemma mpmc_diff_exact q ps h r pos pos' :
  inv q ps h r -> 0 <= pos' <= Z.of_nat (length h) + 1 ->
  Z.of_nat (length h) + Capacity < INT64_MAX ->
  diff (sequence (slot q pos)) pos' = sequence (slot q pos) - pos'.
Proof.
  intros H Hpos Hmax. pose proof mpmc_Capacity_two.
  destruct (slot_sequence q ps h r pos H) as (p & z & Hp & _ & _ & Hs & Hnn).
  unfold diff. rewrite (i64_id (sequence _)), (i64_id pos'), i64_id by mlia. done.
Qed.

Lemma history_snoc (tr : list (mpmc_event T)) H ev H' :
  history_run Capacity tr H ->
  match ev with [] => H' = H | [e] => history_step Capacity H e H' | _ => False end ->
  history_run Capacity (tr ++ ev) H'.
Proof.
  intros Hr. destruct ev as [|e [|]]; [|eapply hr_snoc; eassumption|done].
  intros ->. by rewrite app_nil_r.
Qed.

(** What a step of a thread does to the history. *)
Definition step_ok (n : nat) (q : t) (ps : nat -> thread) (H : history T) (i : nat)
    (res : t * thread * list (mpmc_event T)) : Prop :=
  let '(q', p', ev) := res in
  exists h' r',
    match ev with [] => (h', r') = H | [e] => history_step Capacity H e (h', r') | _ => False end /\
    (length h' <= S n)%nat /\ inv q' (set_thread ps i p') h' r'.

Definition is_push (p : thread) : bool :=
  match p with
  | PushLoadPos _ | PushLoadSeq _ _ | PushCas _ _ | PushWrite _ _ | PushPublish _ _ => true
  | _ => false
  end.

Definition is_pop (p : thread) : bool :=
  match p with PopLoadPos | PopLoadSeq _ | PopCas _ | PopRead _ | PopRelease _ _ => true | _ => false end.

Lemma push_step_ok n q ps h r i weak :
  Z.of_nat n + 1 + Capacity < INT64_MAX -> (length h <= n)%nat -> inv q ps h r ->
  is_push (ps i) = true -> step_ok n q ps (h, r) i (push_step q (ps i) weak).
Proof.
  intros Hmax Hn H Hpush. pose proof (iv_threads _ _ _ _ H i) as Hp.
  pose proof (iv_head _ _ _ _ H) as Hhd. pose proof (Capacity_pos (k := k)).
  assert (forall p, thread_ok q h r p -> owns p = None -> step_ok n q ps (h, r) i (q, p, [])) as Hlocal.
  { intros p Hok Ho. exists h, r. split_and!; [done|lia|by apply local_step]. }
  destruct (ps i) as [|y|y pos|y pos|y pos|y pos| |pos|pos|pos|y pos] eqn:Ei; cbn [push_step thread_ok] in *.
  all: try done.
  - apply Hlocal; cbn; [lia|done].
  - rewrite (mpmc_diff_exact q ps h r) by (done || lia).
    destruct (Z.eqb_spec (sequence (slot q pos) - pos) 0) as [E|E];
      [|destruct (Z.ltb_spec (sequence (slot q pos) - pos) 0) as [E'|E']].
    + apply Hlocal; [|done]. split; [done|]. intros ->.
      destruct (sequence_head _ _ _ _ H) as [[_ ?]|[? _]]; [done|lia].
    + exists h, r. split_and!; [|lia|by apply local_step].
      assert (pos = Z.of_nat (length h)) as ->.
      { destruct (Z.eq_dec pos (Z.of_nat (length h))) as [|Hne]; [done|].
        destruct (sequence_past q ps h r pos H) as [? _]; lia. }
      destruct (sequence_head _ _ _ _ H) as [[? _]|[_ (m & z & s & ? & ? & ?)]]; [lia|].
      by apply (hs_full _ h r m y z s).
    + by apply Hlocal.
  - destruct (negb weak && _) eqn:E.
    + apply andb_true_iff in E as [_ E%Z.eqb_eq]. rewrite Hhd in E. subst pos.
      destruct Hp as [_ Hroom]. specialize (Hroom eq_refl).
      exists (h ++ [(y, Reserved)]), r. split_and!.
      * by constructor.
      * rewrite length_app; cbn; lia.
      * apply reserve_step; [done|done|mlia].
    + apply Hlocal; cbn; [lia|done].
  - exists (<[Z.to_nat pos := (y, Reserved)]> h), r. split_and!.
    + by rewrite list_insert_id by by apply place_lookup.
    + rewrite length_insert. lia.
    + pose proof (place_range _ _ _ Hp) as Hrange.
      pose proof (place_window _ _ _ _ _ _ _ H Hp ltac:(done)) as Hwin.
      pose proof (iv_window _ _ _ _ H _ Hwin) as Hs. unfold slot_ok in Hs. rewrite Hp in Hs.
      destruct (set_slot_fields q pos (fun c => { c with data := y }) (iv_mask _ _ _ _ H) (iv_slots _ _ _ _ H))
        as (_ & _ & _ & _ & _ & E6 & _).
      apply (slot_step q ps h r i pos y Reserved); [done|by rewrite Ei|done|tauto| | |by left].
      * unfold slot_ok. rewrite place_insert, Z.eqb_refl by done. by destruct (slot q pos).
      * cbn [thread_ok]. rewrite place_insert, Z.eqb_refl, E6 by done. split; [done|]. by destruct (slot q pos).
  - destruct Hp as [Hp Hd]. pose proof (place_range _ _ _ Hp) as Hrange.
    exists (<[Z.to_nat pos := (y, Published)]> h), r. split_and!.
    + constructor. by apply place_lookup.
    + rewrite length_insert. lia.
    + apply (slot_step q ps h r i pos y Reserved); [done|by rewrite Ei|done|tauto| |done|by right].
      unfold slot_ok. rewrite place_insert, Z.eqb_refl by done. rewrite u64_id by mlia.
      by destruct (slot q pos).
Qed.

Lemma pop_step_ok n q ps h r i weak :
  Z.of_nat n + 1 + Capacity < INT64_MAX -> (length h <= n)%nat -> inv q ps h r ->
  is_pop (ps i) = true -> step_ok n q ps (h, r) i (pop_step q (ps i) weak).
Proof.
  intros Hmax Hn H Hpop. pose proof (iv_threads _ _ _ _ H i) as Hp.
  pose proof (iv_tail _ _ _ _ H) as Htl. pose proof (iv_le _ _ _ _ H) as Hle.
  pose proof (Capacity_pos (k := k)).
  assert (forall p, thread_ok q h r p -> owns p = None -> step_ok n q ps (h, r) i (q, p, [])) as Hlocal.
  { intros p Hok Ho. exists h, r. split_and!; [done|lia|by apply local_step]. }
  destruct (ps i) as [|y|y pos|y pos|y pos|y pos| |pos|pos|pos|y pos] eqn:Ei; cbn [pop_step thread_ok] in *.
  all: try done.
  - apply Hlocal; cbn; [lia|done].
  - rewrite (u64_id (pos + 1)) by mlia.
    rewrite (mpmc_diff_exact q ps h r) by (done || lia).
    destruct (Z.eqb_spec (sequence (slot q pos) - (pos + 1)) 0) as [E|E];
      [|destruct (Z.ltb_spec (sequence (slot q pos) - (pos + 1)) 0) as [E'|E']].
    + apply Hlocal; [|done]. split; [done|]. intros ->.
      destruct (sequence_tail _ _ _ _ H) as [[_ ?]|[? _]]; [done|lia].
    + exists h, r. split_and!; [|lia|by apply local_step].
      assert (pos = Z.of_nat r) as ->.
      { destruct (Z.eq_dec pos (Z.of_nat r)) as [|Hne]; [done|].
        destruct (place_is_some h pos) as (x & s & Hx); [lia|].
        destruct (sequence_past q ps h r pos H) as [_ Hs]; [lia|].
        assert (pos + 1 <= sequence (slot q pos)); [|lia].
        apply Hs. exists x, s. split; [done|]. pose proof (iv_claimed _ _ _ _ H _ _ _ Hx) as Hc.
        intros ->. assert (Reserved = Claimed \/ Reserved = Released) by (apply Hc; lia). naive_solver. }
      destruct (sequence_tail _ _ _ _ H) as [[? _]|[_ Hno]]; [lia|]. by constructor.
    + by apply Hlocal.
  - destruct (negb weak && _) eqn:E.
    + apply andb_true_iff in E as [_ E%Z.eqb_eq]. rewrite Htl in E. subst pos.
      destruct Hp as [_ Hx]. destruct (Hx eq_refl) as [x Hx']. clear Hx.
      pose proof (place_window _ _ _ _ _ _ _ H Hx' ltac:(done)) as Hwin.
      pose proof (iv_window _ _ _ _ H _ Hwin) as Hs. unfold slot_ok in Hs. rewrite Hx' in Hs.
      destruct Hs as [_ ->]. exists (<[r := (x, Claimed)]> h), (S r). split_and!.
      * constructor. by rewrite <- place_nat.
      * rewrite length_insert; lia.
      * apply claim_step; [done|done|mlia].
    + apply Hlocal; cbn; [lia|done].
  - destruct Hp as (x & Hx & Hd). pose proof (place_range _ _ _ Hx) as Hrange.
    exists (<[Z.to_nat pos := (x, Claimed)]> h), r. split_and!.
    + by rewrite list_insert_id by by apply place_lookup.
    + rewrite length_insert. lia.
    + pose proof (place_window _ _ _ _ _ _ _ H Hx ltac:(done)) as Hwin.
      pose proof (iv_window _ _ _ _ H _ Hwin) as Hs. unfold slot_ok in Hs. rewrite Hx in Hs.
      apply (slot_step q ps h r i pos x Claimed); [done|by rewrite Ei|done|tauto| | |by left].
      * unfold slot_ok. rewrite place_insert, Z.eqb_refl by done. by destruct (slot q pos).
      * cbn [thread_ok]. rewrite place_insert, Z.eqb_refl, Hd by done. done.
  - pose proof (place_range _ _ _ Hp) as Hrange. pose proof (iv_mask _ _ _ _ H) as Hm.
    exists (<[Z.to_nat pos := (y, Released)]> h), r. split_and!.
    + constructor. by apply place_lookup.
    + rewrite length_insert. lia.
    + apply (slot_step q ps h r i pos y Claimed); [done|by rewrite Ei|done|tauto| |done|by right].
      unfold slot_ok. rewrite place_insert, Z.eqb_refl, Hm by done. unfold MASK.
      rewrite (u64_id (pos + _)), u64_id by mlia. destruct (slot q pos). cbn. lia.
Qed.

Lemma mpmc_step_inv n s m :
  Z.of_nat n + 1 + Capacity < INT64_MAX -> sys_inv n s -> sys_inv (S n) (step s m).
Proof.
  intros Hmax (h & r & Hr & Hn & H). destruct s as [q ps tr]. cbn in Hr, H. unfold step, sys_inv.
  cbn [sys_queue sys_threads sys_trace].
  assert (step_ok n q ps (h, r) (who m) (thread_step q (ps (who m)) m)) as Hok.
  { pose proof (push_step_ok n q ps h r (who m) (weak_fails m) Hmax Hn H) as Hpush.
    pose proof (pop_step_ok n q ps h r (who m) (weak_fails m) Hmax Hn H) as Hpop.
    destruct (ps (who m)) eqn:Ei; cbn [thread_step]; try (by apply Hpush); try (by apply Hpop).
    exists h, r. split_and!; [done|lia|]. apply local_step; [done|by destruct (next_call m)..]. }
  destruct (thread_step q (ps (who m)) m) as [[q' p'] ev].
  destruct Hok as (h' & r' & He & Hn' & H'). exists h', r'. split_and!; [|done|done].
  by eapply history_snoc.
Qed.

Lemma mpmc_run_inv min_capacity ms :
  capacity_ (create min_capacity) = Capacity ->
  Z.of_nat (length ms) + Capacity < INT64_MAX -> sys_inv (length ms) (run min_capacity ms).
Proof.
  intros Hc. unfold run. apply (fold_left_inv step (fun s seen =>
    Z.of_nat (length seen) + Capacity < INT64_MAX -> sys_inv (length seen) s)).
  - intros _. by apply mpmc_start_inv.
  - intros s seen m _ IH. rewrite length_app. cbn [length]. intros Hmax.
    rewrite Nat.add_comm; cbn [Nat.add]. apply mpmc_step_inv; (apply IH || idtac); lia.
Qed.

End queue.
End MPMCQueue.

Import MPMCQueue.

Lemma is_power_of_two_pow n : 0 <= n < 64 -> is_power_of_two (2 ^ n) = true.
Proof.
  intros Hn. unfold is_power_of_two.
  assert (0 < 2 ^ n < 2 ^ 64) by (split; [lia|apply Z.pow_lt_mono_r; lia]).
  rewrite u64_id by mlia. apply andb_true_iff. split; [apply negb_true_iff, Z.eqb_neq; lia|].
  apply Z.eqb_eq. replace (2 ^ n - 1) with (Z.ones n) by (rewrite Z.ones_equiv; lia).
  rewrite Z.land_ones, Z_mod_same_full by lia. done.
Qed.

Lemma is_power_of_two_inv v :
  0 <= v < 2 ^ 64 -> is_power_of_two v = true -> 0 < v /\ v = 2 ^ Z.log2 v.
Proof.
  unfold is_power_of_two. intros Hv [Hv0%negb_true_iff%Z.eqb_neq Hl%Z.eqb_eq]%andb_true_iff.
  rewrite u64_id in Hl by mlia. split; [lia|].
  pose proof (Z.log2_spec v ltac:(lia)) as [Hlo Hhi]. rewrite Z.pow_succ_r in Hhi by apply Z.log2_nonneg.
  destruct (Z.eq_dec v (2 ^ Z.log2 v)) as [|Hne]; [done|]. exfalso.
  assert (Z.log2 (v - 1) = Z.log2 v) as E.
  { apply Z.log2_unique; [apply Z.log2_nonneg|]. rewrite Z.pow_succ_r by apply Z.log2_nonneg. lia. }
  assert (Z.testbit (Z.land v (v - 1)) (Z.log2 v) = true) as Hb.
  { rewrite Z.land_spec, Z.bit_log2, <- E, Z.bit_log2 by lia. done. }
  rewrite Hl, Z.bits_0 in Hb. done.
Qed.

(** The rounding of the ring sizes is right for every size up to [2^63]:
    the result is the least power of two that is not smaller, and
    [is_power_of_two] recognises exactly the powers of two. *)
Theorem next_power_of_two_least v :
  1 <= v <= 2 ^ 63 ->
  v <= next_power_of_two v < 2 ^ 64 /\ is_power_of_two (next_power_of_two v) = true /\
  forall p, v <= p < 2 ^ 64 -> is_power_of_two p = true -> next_power_of_two v <= p.
Proof.
  intros Hv. assert (next_power_of_two v = 2 ^ Z.log2_up v) as ->.
  { destruct (Z.eq_dec v 1) as [->|]; [done|]. apply next_power_of_two_exact. lia. }
  pose proof (Z.log2_up_nonneg v). pose proof (Z.log2_up_le_mono v (2 ^ 63) ltac:(lia)) as Hle.
  rewrite Z.log2_up_pow2 in Hle by lia.
  assert (v <= 2 ^ Z.log2_up v) as Hge.
  { destruct (Z.eq_dec v 1) as [->|]; [done|]. apply Z.log2_up_spec. lia. }
  split; [split; [done|apply Z.pow_lt_mono_r; lia]|]. split; [apply is_power_of_two_pow; lia|].
  intros p Hp Hpow. apply is_power_of_two_inv in Hpow as [Hp0 E]; [|lia].
  rewrite E. apply Z.pow_le_mono_r; [lia|]. rewrite <- (Z.log2_up_pow2 (Z.log2 p)) by apply Z.log2_nonneg.
  rewrite <- E. apply Z.log2_up_le_mono. lia.
Qed.

Lemma next_power_of_two_least_witness :
  next_power_of_two 1000 = 1024 /\
  (forall p, 1000 <= p < 2 ^ 64 -> is_power_of_two p = true -> 1024 <= p).
Proof. split; [reflexivity|]. apply (next_power_of_two_least 1000). lia. Defined.

(** C8. The MPMC queue is correct under every interleaving of any number of
    threads that push and pop, spurious failures of the weak exchanges
    included: its events are an execution of a history of places, so the
    elements are claimed in the order in which they were reserved; every pop
    returns what was pushed to the place it claimed, and no place is returned
    twice; at most as many elements as the capacity are unclaimed.  A push is
    refused only when the place a lap before the next one is not released,
    and a pop only when the next place is not published.  The bound on the
    schedule keeps the 64-bit positions from wrapping. *)
Theorem mpmc_linearizable {T} (d : T) (moved : T -> T) min_capacity ms :
  let size := if min_capacity <? 2 then 2 else min_capacity in
  let cap := 2 ^ Z.log2_up size in
  size <= 2 ^ 62 -> Z.of_nat (length ms) + cap < INT64_MAX ->
  let s := run d moved min_capacity ms in
  capacity (sys_queue s) = cap /\
  exists h r, history_run cap (sys_trace s) (h, r) /\ history_ok cap (sys_trace s) h r.
Proof.
  intros size cap Hsize Hmax s. pose proof (Z.log2_up_nonneg size) as Hnn.
  assert (2 <= size) as H2 by (unfold size; destruct (Z.ltb_spec min_capacity 2); lia).
  pose proof (Z.log2_up_le_mono size (2 ^ 62) Hsize) as Hle. rewrite Z.log2_up_pow2 in Hle by lia.
  pose proof (Z.log2_up_pos size ltac:(lia)).
  assert (SmallRing (Z.log2_up size)) as Hk by (unfold SmallRing; lia).
  pose proof (create_capacity d (k := Z.log2_up size) ltac:(lia) min_capacity Hsize eq_refl) as Hc.
  destruct (mpmc_run_inv d moved (k := Z.log2_up size) ltac:(lia) min_capacity ms Hc Hmax)
    as (h & r & Hr & _ & Hinv).
  fold s in Hr, Hinv. split; [apply Hinv|]. exists h, r. split; [done|].
  apply history_run_ok; [|done]. unfold Capacity. lia.
Qed.

(** Two pushing and two popping threads on a ring of two slots. *)
Definition racing_moves : list (@move Z) :=
  concat (repeat [mkMove 0 (Push 10) false; mkMove 1 (Push 20) true; mkMove 2 Pop false;
                  mkMove 1 (Push 20) false; mkMove 3 Pop false] 40).

Lemma mpmc_linearizable_witness :
  let s := run 0 (fun _ => 0) 2 racing_moves in
  length (returned (sys_trace s)) = 9%nat /\ capacity (sys_queue s) = 2 /\
  exists h r, history_run 2 (sys_trace s) (h, r) /\ history_ok 2 (sys_trace s) h r.
Proof.
  split; [vm_compute; reflexivity|].
  apply (mpmc_linearizable 0 (fun _ => 0) 2 racing_moves); [vm_compute; discriminate|vm_compute; reflexivity].
Defined.

(** A consumer that has claimed a place and is preempted makes the ring look
    full: a push is refused although every element has been claimed. *)
Theorem stalled_consumer_fills :
  let pop i n := replicate n (mkMove i Pop false) in
  let push i x := replicate 6 (mkMove i (Push x) false) in
  let s := run 0 (fun _ => 0) 2
    (push 0%nat 10 ++ pop 1%nat 4%nat ++ push 0%nat 20 ++ pop 2%nat 6%nat ++
     replicate 3 (mkMove 0 (Push 30) false)) in
  claimed (sys_trace s) = [10; 20] /\ size_approx (sys_queue s) = 0 /\
  last (sys_trace s) = Some (Full 30).
Proof. vm_compute. done. Qed.
