(* ===== verification/Executor.v ===== *)
(** * ThreadPoolExecutor (cunk/src/executor/ThreadPoolExecutor.cpp)

    A pool of workers, each with a queue of its own, that steal from each
    other and fall back to a global queue.  The queues are what the client of
    an [MPMCQueue] sees ([MpmcQueue.history_step_view]): a push reserves and
    publishes, or is refused; a pop claims the next place when it is
    published.  Submitting threads, workers and the thread that shuts the pool
    down move in any order. *)

From S2P Require Import Prelude QueueSpec MpmcQueue.

Module ThreadPoolExecutor.
Section pool.
(** The tasks. *)
Context {A : Type} `{EqDecision A}.

(** A [std::function<void()>]: [None] is the empty function a move leaves. *)
Abbreviation task := (option A).

Record Worker := mkWorker { queue : places task; task_count : Z }.

Record t := mk {
  workers_ : list Worker;
  global_queue_ : places task;
  stop_ : bool;
  next_worker_ : Z
}.

(** The constructor, with what [hardware_concurrency] returns. *)
Definition create (num_threads hardware_concurrency : Z) : t :=
  let n := if num_threads =? 0
           then (if hardware_concurrency =? 0 then 4 else hardware_concurrency)
           else num_threads in
  mk (replicate (Z.to_nat n) (mkWorker no_places 0)) no_places false 0.

Definition worker_count (e : t) : nat := length (workers_ e).

Definition with_worker (e : t) (i : nat) (f : Worker -> Worker) : t :=
  { e with workers_ ::= alter f i }.

(** [size_approx] of every queue; the counters of a queue never cross. *)
Definition pending_tasks (e : t) : Z :=
  fold_left (fun total w => total + size_of (queue w)) (workers_ e) (size_of (global_queue_ e)).

(** What the pool does with tasks. *)
Inductive event :=
| Accepted (a : A)     (** pushed to a worker's queue *)
| Overflowed (a : A)   (** refused by a worker's queue *)
| Spilled              (** something pushed to the global queue *)
| Dropped              (** refused by the global queue *)
| Rejected (a : A)     (** submitted after the shutdown *)
| Ran (a : A)
| Threw.               (** [std::bad_function_call], caught *)

(** ** submit *)

(** A submitting thread, by the operation it executes next. *)
Inductive client :=
| CIdle
| CLoadStop (a : A)                       (** [stop_.load] *)
| CFetch (a : A)                          (** [next_worker_.fetch_add] *)
| CPush (a : A) (idx : nat)               (** [queue.try_push(std::move(task))] *)
| CPublish (idx place : nat)
| CCount (idx : nat)                      (** [task_count.fetch_add]; [notify_one] *)
| CGlobal (moved : task)                  (** [global_queue_.try_push(std::move(task))] *)
| CGlobalPublish (place : nat).

(** [try_push] takes its argument by value, so the first call moves the task
    away whether it succeeds or not: the second is passed what is left. *)
Definition submit_step (e : t) (c : client) (full : bool) : t * client * list event :=
  match c with
  | CIdle => (e, CIdle, [])
  | CLoadStop a => if stop_ e then (e, CIdle, [Rejected a]) else (e, CFetch a, [])
  | CFetch a =>
      ({ e with next_worker_ := u64 (next_worker_ e + 1) },
       CPush a (Z.to_nat (next_worker_ e mod Z.of_nat (length (workers_ e)))), [])
  | CPush a idx =>
      match workers_ e !! idx with
      | None => (e, CIdle, [])
      | Some w =>
          if full then (e, CGlobal None, [Overflowed a])
          else (with_worker e idx (fun w => { w with queue ::= fun q => reserve q (Some a) }),
                CPublish idx (length (queue w).1), [Accepted a])
      end
  | CPublish idx place =>
      (with_worker e idx (fun w => { w with queue ::= fun q => publish q place }), CCount idx, [])
  | CCount idx =>
      (with_worker e idx (fun w => { w with task_count ::= fun n => u64 (n + 1) }), CIdle, [])
  | CGlobal moved =>
      if full then (e, CIdle, [Dropped])
      else ({ e with global_queue_ ::= fun q => reserve q moved },
            CGlobalPublish (length (global_queue_ e).1), [Spilled])
  | CGlobalPublish place =>
      ({ e with global_queue_ ::= fun q => publish q place }, CIdle, [])
  end.

(** ** worker_loop *)

(** Where a worker continues after a task. *)
Inductive phase := Loop | DrainOwn | DrainGlobal.

(** A worker, by the operation it executes next. *)
Inductive worker :=
| WCheck                                       (** [while (!stop_.load())] *)
| WOwn                                         (** pop the own queue *)
| WSteal (i : nat)                             (** the [i]-th attempt to steal *)
| WGlobal                                      (** pop the global queue *)
| WSleep                                       (** the timed wait *)
| WCount (victim : nat) (f : task) (back : phase)  (** [task_count.fetch_sub] *)
| WRun (f : task) (back : phase)               (** [( *task)()] *)
| WDrainOwn
| WDrainGlobal
| WExited.

Definition resume (back : phase) : worker :=
  match back with Loop => WCheck | DrainOwn => WDrainOwn | DrainGlobal => WDrainGlobal end.

(** The pop of [try_execute_from] on a worker's queue: where to go with a
    task, and where without. *)
Definition try_execute_from (e : t) (victim : nat) (back : phase) (otherwise : worker) : t * worker :=
  match workers_ e !! victim with
  | None => (e, otherwise)
  | Some w =>
      match claim (queue w) with
      | None => (e, otherwise)
      | Some (f, q) => (with_worker e victim (fun w => { w with queue := q }), WCount victim f back)
      end
  end.

Definition try_global (e : t) (back : phase) (otherwise : worker) : t * worker :=
  match claim (global_queue_ e) with
  | None => (e, otherwise)
  | Some (f, q) => ({ e with global_queue_ := q }, WRun f back)
  end.

Definition worker_step (e : t) (worker_id : nat) (p : worker) : t * worker * list event :=
  let n := length (workers_ e) in
  match p with
  | WCheck => (e, if stop_ e then WDrainOwn else WOwn, [])
  | WOwn => (try_execute_from e worker_id Loop (WSteal 1), [])
  | WSteal i =>
      if (i <? n)%nat
      then (try_execute_from e ((worker_id + i) mod n)%nat Loop (WSteal (S i)), [])
      else (e, WGlobal, [])
  | WGlobal => (try_global e Loop WSleep, [])
  | WSleep => (e, WCheck, [])
  | WCount victim f back =>
      (with_worker e victim (fun w => { w with task_count ::= fun n => u64 (n - 1) }),
       WRun f back, [])
  | WRun f back => (e, resume back, [match f with Some a => Ran a | None => Threw end])
  | WDrainOwn => (try_execute_from e worker_id DrainOwn WDrainGlobal, [])
  | WDrainGlobal => (try_global e DrainGlobal WExited, [])
  | WExited => (e, WExited, [])
  end.

(** ** Interleaving *)

Record system := mkSys {
  sys_pool : t;
  sys_clients : nat -> client;
  sys_workers : list worker;
  sys_log : list event
}.

Definition start (num_threads hardware_concurrency : Z) : system :=
  let e := create num_threads hardware_concurrency in
  mkSys e (fun _ => CIdle) (replicate (length (workers_ e)) WCheck) [].

(** A submitting thread moves (an idle one calls [submit a]; a push may be
    refused), a worker moves, or some thread calls [shutdown], which then
    waits for the workers. *)
Inductive move := Client (i : nat) (a : A) (full : bool) | Work (i : nat) | Stop.

Definition step (s : system) (m : move) : system :=
  match m with
  | Client i a full =>
      match sys_clients s i with
      | CIdle => { s with sys_clients ::= fun cs => set_thread cs i (CLoadStop a) }
      | c => let '(e, c, ev) := submit_step (sys_pool s) c full in
             mkSys e (set_thread (sys_clients s) i c) (sys_workers s) (sys_log s ++ ev)
      end
  | Work i =>
      match sys_workers s !! i with
      | None => s
      | Some p => let '(e, p, ev) := worker_step (sys_pool s) i p in
                  mkSys e (sys_clients s) (<[i := p]> (sys_workers s)) (sys_log s ++ ev)
      end
  | Stop => { s with sys_pool ::= fun e => { e with stop_ := true } }
  end.

Definition run (s : system) (ms : list move) : system := fold_left step ms s.

(** [shutdown] returns when every worker has exited. *)
Definition joined (s : system) : Prop := Forall (fun p => p = WExited) (sys_workers s).

(** ** Counting a task *)

Definition occ (a : A) (f : task) : Z := if decide (f = Some a) then 1 else 0.

Definition queued (a : A) (q : places task) : Z := sum_by (occ a) (drop q.2 q.1.*1).

Definition held (a : A) (p : worker) : Z :=
  match p with WCount _ f _ | WRun f _ => occ a f | _ => 0 end.

Definition pool_queued (a : A) (e : t) : Z :=
  sum_by (fun w => queued a (queue w)) (workers_ e) + queued a (global_queue_ e).

(** Accepted and not run yet. *)
Definition waiting (a : A) (s : system) : Z :=
  sum_by (held a) (sys_workers s) + pool_queued a (sys_pool s).

Definition accepted (a : A) (l : list event) : Z :=
  sum_by (fun ev => match ev with Accepted b => occ a (Some b) | _ => 0 end) l.

Definition ran (a : A) (l : list event) : Z :=
  sum_by (fun ev => match ev with Ran b => occ a (Some b) | _ => 0 end) l.

Definition wf (q : places task) : Prop := (q.2 <= length q.1)%nat.

Lemma occ_nonneg a f : 0 <= occ a f.
Proof. unfold occ. case_decide; lia. Qed.

Lemma reserve_wf q x : wf q -> wf (reserve q x).
Proof. unfold wf, reserve. cbn. rewrite length_app. lia. Qed.

Lemma queued_reserve a q x : wf q -> queued a (reserve q x) = queued a q + occ a x.
Proof.
  unfold queued, reserve, wf. cbn. intros H. rewrite fmap_app.
  rewrite drop_app_le by (by rewrite length_fmap). cbn. rewrite sum_by_app, sum_by_cons, sum_by_nil. lia.
Qed.

Lemma publish_wf q i : wf q -> wf (publish q i).
Proof. unfold wf, publish. cbn. by rewrite length_alter. Qed.

Lemma queued_publish a q i : queued a (publish q i) = queued a q.
Proof. unfold queued. by rewrite publish_items. Qed.

Lemma claim_wf q x q' : claim q = Some (x, q') -> wf q'.
Proof. intros [Hl ->]%claim_Some. by eapply lookup_lt_Some. Qed.

Lemma queued_claim a q x q' : claim q = Some (x, q') -> queued a q = occ a x + queued a q'.
Proof.
  intros [Hl ->]%claim_Some. unfold queued. cbn.
  rewrite (drop_S _ x q.2); [by rewrite sum_by_cons|]. by rewrite list_lookup_fmap, Hl.
Qed.

(** ** The invariant *)

Definition client_ok (n : nat) (c : client) : Prop :=
  match c with CPush _ idx => (idx < n)%nat | CGlobal moved => moved = None | _ => True end.

Record pool_ok (e : t) : Prop := {
  po_some : (0 < length (workers_ e))%nat;
  po_wf : forall i w, workers_ e !! i = Some w -> wf (queue w);
  po_global_wf : wf (global_queue_ e);
  po_global : Forall (fun x => x = None) (global_queue_ e).1.*1
}.

Record sys_ok (s : system) : Prop := {
  so_pool : pool_ok (sys_pool s);
  so_length : length (sys_workers s) = length (workers_ (sys_pool s));
  so_clients : forall i, client_ok (length (workers_ (sys_pool s))) (sys_clients s i);
  so_count : forall a, accepted a (sys_log s) = ran a (sys_log s) + waiting a s
}.

(** A change of the pool that adds [delta a] to the queued occurrences of
    every task [a]. *)
Definition change (e e' : t) (delta : A -> Z) : Prop :=
  pool_ok e' /\ length (workers_ e') = length (workers_ e) /\
  forall a, pool_queued a e' = pool_queued a e + delta a.

Lemma change_refl e : pool_ok e -> change e e (fun _ => 0).
Proof. intros H. split_and!; [done..|lia]. Qed.

Lemma change_worker e i f w delta :
  pool_ok e -> workers_ e !! i = Some w -> wf (queue (f w)) ->
  (forall a, queued a (queue (f w)) = queued a (queue w) + delta a) ->
  change e (with_worker e i f) delta.
Proof.
  intros [Hs Hw Hgw Hg] Hi Hf Hd. destruct e as [ws g st nx]. unfold with_worker, change, pool_queued.
  fields. rewrite length_alter. split_and!; [|done|].
  - split; cbn; try done; [by rewrite length_alter|]. intros j w' Hj.
    apply alter_lookup_cases in Hj as [(-> & w0 & Hw0 & ->)|[_ Hj]]; [|by eapply Hw].
    congruence.
  - intros a. rewrite (sum_by_alter _ f ws i w), Hd by done. lia.
Qed.

Lemma with_worker_none e i f : workers_ e !! i = None -> with_worker e i f = e.
Proof.
  intros Hi. destruct e as [ws g st nx]. unfold with_worker. fields. f_equal.
  apply list_eq. intros j. destruct (Nat.eq_dec j i) as [->|Hne];
    [by rewrite list_lookup_alter_eq, Hi|by rewrite list_lookup_alter_ne].
Qed.

(** A change of a worker that leaves the elements of its queue. *)
Lemma change_worker_same e i f :
  pool_ok e -> (forall w, wf (queue w) -> wf (queue (f w))) ->
  (forall a w, queued a (queue (f w)) = queued a (queue w)) ->
  change e (with_worker e i f) (fun _ => 0).
Proof.
  intros H Hf Hq. destruct (workers_ e !! i) as [w|] eqn:Hi.
  - eapply change_worker; [done|done| |].
    + apply Hf. by apply (po_wf _ H i).
    + intros a. rewrite Hq. lia.
  - rewrite with_worker_none by done. by apply change_refl.
Qed.

Lemma change_global e q :
  pool_ok e -> wf q -> Forall (fun x => x = None) q.1.*1 ->
  change e { e with global_queue_ := q } (fun _ => 0).
Proof.
  intros [Hs Hw Hgw Hg] Hq Hn. destruct e as [ws g st nx]. fields. split_and!; [by split|done|].
  intros a. unfold pool_queued. cbn.
  assert (forall g : places task, Forall (fun x => x = None) g.1.*1 -> queued a g = 0) as Hz.
  { intros [l k] Hl. unfold queued. apply (Forall_drop _ k) in Hl. cbn in *.
    induction Hl as [|x l' -> _ IH]; [done|]. by rewrite sum_by_cons, IH. }
  rewrite !Hz by done. lia.
Qed.

(** ** Preservation *)

Lemma accepted_app a l l' : accepted a (l ++ l') = accepted a l + accepted a l'.
Proof. apply sum_by_app. Qed.

Lemma ran_app a l l' : ran a (l ++ l') = ran a l + ran a l'.
Proof. apply sum_by_app. Qed.

Lemma submit_push_ok e a idx w :
  pool_ok e -> workers_ e !! idx = Some w ->
  change e (with_worker e idx (fun w => { w with queue ::= fun q => reserve q (Some a) }))
         (fun b => occ b (Some a)).
Proof.
  intros H Hw. pose proof (po_wf _ H _ _ Hw) as Hwf.
  eapply change_worker; [done|done|destruct w; fields; by apply reserve_wf|].
  intros b. destruct w. fields. by apply queued_reserve.
Qed.

Lemma submit_publish_ok e idx place :
  pool_ok e ->
  change e (with_worker e idx (fun w => { w with queue ::= fun q => publish q place })) (fun _ => 0).
Proof.
  intros H. apply change_worker_same; [done|..].
  - intros []. fields. apply publish_wf.
  - intros a []. fields. apply queued_publish.
Qed.

Lemma count_ok e idx f :
  pool_ok e -> change e (with_worker e idx (fun w => { w with task_count ::= f })) (fun _ => 0).
Proof. intros H. apply change_worker_same; [done|by intros []|by intros a []]. Qed.

(** A step of a submitting thread: what it accepts is queued. *)
Lemma submit_step_ok e c full :
  pool_ok e -> client_ok (length (workers_ e)) c ->
  let '(e', c', ev) := submit_step e c full in
  change e e' (fun a => accepted a ev) /\ client_ok (length (workers_ e)) c' /\ forall a, ran a ev = 0.
Proof.
  intros H Hc. pose proof (change_refl e H) as Hrefl.
  destruct c as [|b|b|b idx|idx place|idx|moved|place]; cbn [submit_step].
  - done.
  - by destruct (stop_ e).
  - pose proof (po_some _ H) as Hpos. destruct H, e. fields. split_and!; [|cbn|done].
    + split_and!; [by split|done|]. intros a. change (accepted a []) with 0. unfold pool_queued. cbn. lia.
    + match goal with |- (Z.to_nat (?x mod ?n) < _)%nat => pose proof (Z.mod_pos_bound x n) end. lia.
  - cbn in Hc. destruct (lookup_lt_is_Some_2 _ _ Hc) as [w Hw]. rewrite Hw. destruct full; [done|].
    split_and!; [|done..]. destruct (submit_push_ok e b idx w H Hw) as (? & ? & Hq).
    split_and!; [done..|]. intros a. rewrite Hq. unfold accepted. rewrite sum_by_cons, sum_by_nil. lia.
  - split_and!; [by apply submit_publish_ok|done..].
  - split_and!; [by apply count_ok|done..].
  - cbn in Hc. subst moved. destruct full; [done|]. pose proof (po_global_wf _ H) as Hwf.
    pose proof (po_global _ H) as Hg.
    destruct (change_global e (reserve (global_queue_ e) None)) as (? & ? & ?); [done|by apply reserve_wf|..].
    { unfold reserve. cbn. rewrite fmap_app, Forall_app. split; [done|by repeat constructor]. }
    destruct e. fields. done.
  - pose proof (po_global_wf _ H) as Hwf. pose proof (po_global _ H) as Hg.
    destruct (change_global e (publish (global_queue_ e) place)) as (? & ? & ?);
      [done|by apply publish_wf|by rewrite publish_items|].
    destruct e. fields. done.
Qed.

(** A pop moves a task from a queue to the hand of the worker. *)
Lemma try_execute_ok e victim back otherwise :
  pool_ok e -> (forall a, held a otherwise = 0) ->
  let '(e', p') := try_execute_from e victim back otherwise in
  change e e' (fun a => - held a p').
Proof.
  intros H Ho. unfold try_execute_from.
  assert (change e e (fun a => - held a otherwise)) as Hsame.
  { split_and!; [done..|]. intros a. rewrite Ho. lia. }
  destruct (workers_ e !! victim) as [w|] eqn:Hw; [|done].
  destruct (claim (queue w)) as [[f q]|] eqn:Hq; [|done].
  eapply change_worker; [done|done|destruct w; fields; by eapply claim_wf|].
  intros a. destruct w. fields. rewrite (queued_claim a _ _ _ Hq). lia.
Qed.

Lemma try_global_ok e back otherwise :
  pool_ok e -> (forall a, held a otherwise = 0) ->
  let '(e', p') := try_global e back otherwise in change e e' (fun a => - held a p').
Proof.
  intros H Ho. unfold try_global.
  assert (change e e (fun a => - held a otherwise)) as Hsame.
  { split_and!; [done..|]. intros a. rewrite Ho. lia. }
  destruct (claim (global_queue_ e)) as [[f q]|] eqn:Hq; [|done].
  pose proof (po_global _ H) as Hg. pose proof (claim_wf _ _ _ Hq) as Hwf.
  apply claim_Some in Hq as [Hl ->].
  assert (f = None) as ->.
  { rewrite Forall_lookup in Hg. apply (Hg (global_queue_ e).2). by rewrite list_lookup_fmap, Hl. }
  destruct (change_global e ((global_queue_ e).1, S (global_queue_ e).2)) as (? & ? & Hq); [done..|].
  split_and!; [done..|]. intros a. rewrite Hq. cbn. unfold occ. rewrite decide_False by done. lia.
Qed.

(** A step of a worker: what leaves its hand and the queues ran. *)
Lemma worker_step_ok e i p :
  pool_ok e ->
  let '(e', p', ev) := worker_step e i p in
  change e e' (fun a => held a p - held a p' - ran a ev) /\ forall a, accepted a ev = 0.
Proof.
  intros H. assert (forall a back, held a (resume back) = 0) as Hres by by intros a [].
  assert (forall a, held a (if stop_ e then WDrainOwn else WOwn) = 0) as Hc by by intros a; destruct (stop_ e).
  assert (forall p' ev, (forall a, held a p - held a p' - ran a ev = 0) ->
    change e e (fun a => held a p - held a p' - ran a ev)) as Hsame.
  { intros p' ev Hz. split_and!; [done..|]. intros a. rewrite Hz. lia. }
  assert (forall e' p', (forall a, held a p = 0) -> change e e' (fun a => - held a p') ->
    change e e' (fun a => held a p - held a p' - ran a [])) as Hpop.
  { intros e' p' Hp (? & ? & Hq). split_and!; [done..|]. intros a. rewrite Hq, Hp. change (ran a []) with 0. lia. }
  pose proof (fun v b o => try_execute_ok e v b o H) as Hx.
  pose proof (fun b o => try_global_ok e b o H) as Hg.
  destruct p as [| |j| | |v f back|f back| | |]; cbn [worker_step].
  - split; [|done]. apply Hsame. intros a. rewrite Hc. done.
  - specialize (Hx i Loop (WSteal 1) ltac:(done)). destruct (try_execute_from _ _ _ _).
    split; [by apply Hpop|done].
  - destruct (_ <? _)%nat; [|split; [by apply Hsame|done]].
    specialize (Hx ((i + j) mod length (workers_ e))%nat Loop (WSteal (S j)) ltac:(done)).
    destruct (try_execute_from _ _ _ _). split; [by apply Hpop|done].
  - specialize (Hg Loop WSleep ltac:(done)). destruct (try_global _ _ _). split; [by apply Hpop|done].
  - split; [by apply Hsame|done].
  - split; [|done]. destruct (count_ok e v (fun n => u64 (n - 1)) H) as (? & ? & Hq).
    split_and!; [done..|]. intros a. rewrite Hq. change (ran a []) with 0. cbn. lia.
  - split; [|by destruct f]. apply Hsame. intros a. rewrite Hres. unfold ran.
    rewrite sum_by_cons, sum_by_nil. destruct f; cbn; [lia|]. unfold occ. rewrite decide_False by done. lia.
  - specialize (Hx i DrainOwn WDrainGlobal ltac:(done)). destruct (try_execute_from _ _ _ _).
    split; [by apply Hpop|done].
  - specialize (Hg DrainGlobal WExited ltac:(done)). destruct (try_global _ _ _). split; [by apply Hpop|done].
  - split; [by apply Hsame|done].
Qed.

Lemma sys_step_ok s m : sys_ok s -> sys_ok (step s m).
Proof.
  intros H. destruct m as [i a full|i|].
  - pose proof (submit_step_ok (sys_pool s) (sys_clients s i) full (so_pool _ H) (so_clients _ H i)) as Hs.
    destruct H as [Hp Hl Hc Hn], s as [e cs ws l]. cbn [step sys_pool sys_clients sys_workers sys_log] in *.
    assert (forall e' c' ev, change e e' (fun a => accepted a ev) /\
        client_ok (length (workers_ e)) c' /\ (forall a, ran a ev = 0) ->
        sys_ok (mkSys e' (set_thread cs i c') ws (l ++ ev))) as Hgo.
    { intros e' c' ev ((Hp' & Hl' & Hq) & Hc' & Hr). split; cbn; rewrite ?Hl'; try done.
      - by apply (set_thread_all (client_ok (length (workers_ e)))).
      - intros b. rewrite accepted_app, ran_app, Hr, Hn. unfold waiting. cbn. rewrite Hq. lia. }
    destruct (cs i) eqn:Ei; [|destruct (submit_step _ _ _) as [[e' c'] ev]; by apply Hgo..].
    split; cbn; try done. by apply (set_thread_all (client_ok (length (workers_ e)))).
  - cbn [step]. destruct (sys_workers s !! i) as [p|] eqn:Hi; [|done].
    pose proof (worker_step_ok (sys_pool s) i p (so_pool _ H)) as Hs.
    destruct (worker_step _ _ _) as [[e' p'] ev], Hs as ((Hp' & Hl' & Hq) & Ha).
    destruct H as [Hp Hl Hc Hn]. split; cbn; rewrite ?Hl', ?length_insert; try done.
    intros a. rewrite accepted_app, ran_app, Ha, Hn. unfold waiting. cbn.
    rewrite (sum_by_insert _ _ i p), Hq by done. lia.
  - destruct H as [Hp Hl Hc Hn], s as [e cs ws l]. cbn [step sys_pool sys_clients sys_workers sys_log] in *.
    destruct Hp, e. fields. by split.
Qed.

Lemma sys_run_ok s ms : sys_ok s -> sys_ok (run s ms).
Proof. revert s; induction ms as [|m ms IH]; intros s H; [done|]. by apply IH, sys_step_ok. Qed.

Lemma start_ok num_threads hw : 0 <= num_threads -> 0 <= hw -> sys_ok (start num_threads hw).
Proof.
  intros Hn Hh. unfold start, create.
  set (n := Z.to_nat _). assert (0 < n)%nat as Hpos.
  { subst n. destruct (Z.eqb_spec num_threads 0), (Z.eqb_spec hw 0); lia. }
  assert (forall {B} (f : B -> Z) x k, f x = 0 -> sum_by f (replicate k x) = 0) as Hz.
  { intros B f x k Hx. induction k as [|k IH]; [done|]. cbn. by rewrite sum_by_cons, Hx, IH. }
  split; cbn; rewrite ?length_replicate; try done.
  - split; cbn; rewrite ?length_replicate; try done; [|by constructor].
    intros i w [-> _]%lookup_replicate. unfold wf; cbn; lia.
  - intros a. unfold waiting, pool_queued. cbn. rewrite !Hz by done. done.
Qed.

Lemma queued_nonneg a q : 0 <= queued a q.
Proof. apply sum_by_nonneg, Forall_forall. intros f _. apply occ_nonneg. Qed.

Lemma waiting_nonneg a s : 0 <= waiting a s.
Proof.
  unfold waiting, pool_queued. pose proof (queued_nonneg a (global_queue_ (sys_pool s))).
  assert (0 <= sum_by (held a) (sys_workers s)).
  { apply sum_by_nonneg, Forall_forall. intros [] _; cbn; try done; apply occ_nonneg. }
  assert (0 <= sum_by (fun w => queued a (queue w)) (workers_ (sys_pool s))); [|lia].
  apply sum_by_nonneg, Forall_forall. intros w _. apply queued_nonneg.
Qed.

(** ** Publication *)

(** The queue of a worker, or the global one. *)
Definition at_loc (e : t) (loc : option nat) : places task :=
  match loc with
  | Some i => match workers_ e !! i with Some w => queue w | None => no_places end
  | None => global_queue_ e
  end.

Definition publishing (c : client) : option (option nat * nat) :=
  match c with
  | CPublish idx place => Some (Some idx, place)
  | CGlobalPublish place => Some (None, place)
  | _ => None
  end.

Definition looping (p : worker) : Prop :=
  match p with
  | WCheck | WOwn | WSteal _ | WGlobal | WSleep => True
  | WCount _ _ back | WRun _ back => back = Loop
  | WDrainOwn | WDrainGlobal | WExited => False
  end.

(** Every unpublished place has a thread about to publish it, and no worker
    drains before the shutdown. *)
Record pub_ok (s : system) : Prop := {
  pu_places : forall loc place x, (at_loc (sys_pool s) loc).1 !! place = Some (x, false) ->
    exists j, publishing (sys_clients s j) = Some (loc, place);
  pu_loop : stop_ (sys_pool s) = false -> Forall looping (sys_workers s)
}.

Lemma at_loc_with_worker e i f loc :
  (forall w, workers_ e !! i = Some w -> loc = Some i -> at_loc (with_worker e i f) loc = queue (f w)) /\
  (loc <> Some i -> at_loc (with_worker e i f) loc = at_loc e loc).
Proof.
  destruct e as [ws g st nx]. unfold with_worker, at_loc. fields. split.
  - intros w Hw ->. by rewrite list_lookup_alter_eq, Hw.
  - intros Hne. destruct loc as [j|]; [|done]. rewrite list_lookup_alter_ne by congruence. done.
Qed.

Lemma at_loc_same e i f loc :
  (forall w, queue (f w) = queue w) -> at_loc (with_worker e i f) loc = at_loc e loc.
Proof.
  intros Hf. destruct (at_loc_with_worker e i f loc) as [H1 H2].
  destruct (decide (loc = Some i)) as [->|]; [|by apply H2].
  destruct (workers_ e !! i) as [w|] eqn:Hw.
  - rewrite (H1 w), Hf by done. cbn. by rewrite Hw.
  - by rewrite with_worker_none.
Qed.

Lemma reserve_unpublished {T} (q : places T) x place y :
  (reserve q x).1 !! place = Some (y, false) ->
  place = length q.1 \/ q.1 !! place = Some (y, false).
Proof.
  unfold reserve. cbn. intros [Hi|[Hge Hi]]%lookup_app_Some; [by right|left].
  apply list_lookup_singleton_Some in Hi as [Hi _]. lia.
Qed.

Lemma publish_unpublished {T} (q : places T) i place y :
  (publish q i).1 !! place = Some (y, false) -> place <> i /\ q.1 !! place = Some (y, false).
Proof.
  unfold publish. cbn. intros [(_ & x & _ & [=])|[Hne H]]%alter_lookup_cases. done.
Qed.

Lemma submit_step_places e c full :
  let '(e', c', _) := submit_step e c full in
  stop_ e' = stop_ e /\
  forall loc place x, (at_loc e' loc).1 !! place = Some (x, false) ->
    publishing c' = Some (loc, place) \/
    (publishing c <> Some (loc, place) /\ (at_loc e loc).1 !! place = Some (x, false)).
Proof.
  destruct c as [|b|b|b idx|idx place0|idx|moved|place0]; cbn [submit_step].
  - split; [done|]. by right.
  - destruct (stop_ e) eqn:E; (split; [done|]); by right.
  - destruct e. split; [done|]. by right.
  - destruct (workers_ e !! idx) as [w|] eqn:Hw; [|by split; [done|right]].
    destruct full; [by split; [done|right]|]. split; [by destruct e|]. intros loc place x.
    match goal with |- context [with_worker e idx ?f] => destruct (at_loc_with_worker e idx f loc) as [H1 H2] end.
    destruct (decide (loc = Some idx)) as [->|Hne]; [|rewrite H2 by done; by right].
    rewrite (H1 w) by done. destruct w as [q n]. fields.
    intros [->|Hp]%reserve_unpublished; [by left|right]. rewrite Hw. by split.
  - split; [by destruct e|]. intros loc place x.
    match goal with |- context [with_worker e idx ?f] => destruct (at_loc_with_worker e idx f loc) as [H1 H2] end.
    destruct (decide (loc = Some idx)) as [->|Hne]; [|rewrite H2 by done; right; split; [cbn; congruence|done]].
    destruct (workers_ e !! idx) as [w|] eqn:Hw; [|rewrite with_worker_none by done; cbn; by rewrite Hw].
    rewrite (H1 w) by done. destruct w as [q n]. fields. rewrite Hw.
    intros [Hne Hp]%publish_unpublished. right. split; [cbn; congruence|done].
  - split; [by destruct e|]. intros loc place x. rewrite at_loc_same by by intros []. by right.
  - destruct full; [by split; [done|right]|]. split; [by destruct e|]. destruct e as [ws g st nx]. fields.
    intros [i|] place x; [by right|]. cbn. intros [->|Hp]%reserve_unpublished; [by left|by right].
  - split; [by destruct e|]. destruct e as [ws g st nx]. fields.
    intros [i|] place x; [by right|]. cbn. intros [Hne Hp]%publish_unpublished. right. split; [cbn; congruence|done].
Qed.

(** A worker touches the queues only to claim. *)
Definition claims_only (e e' : t) : Prop :=
  stop_ e' = stop_ e /\ length (workers_ e') = length (workers_ e) /\
  forall loc, at_loc e' loc = at_loc e loc \/ exists f, claim (at_loc e loc) = Some (f, at_loc e' loc).

Lemma claims_only_refl e : claims_only e e.
Proof. split_and!; [done..|]. by left. Qed.

Lemma try_execute_claims e victim back otherwise :
  claims_only e (try_execute_from e victim back otherwise).1.
Proof.
  unfold try_execute_from. destruct (workers_ e !! victim) as [w|] eqn:Hw; [|apply claims_only_refl].
  destruct (claim (queue w)) as [[f q]|] eqn:Hq; [|apply claims_only_refl].
  split_and!; [by destruct e|destruct e; unfold with_worker; cbn; apply length_alter|]. intros loc. cbn [fst].
  match goal with |- context [with_worker e victim ?g] => destruct (at_loc_with_worker e victim g loc) as [H1 H2] end.
  destruct (decide (loc = Some victim)) as [->|Hne]; [|left; by apply H2].
  right. exists f. rewrite (H1 w) by done. cbn [at_loc]. rewrite Hw, Hq. by destruct w.
Qed.

Lemma try_global_claims e back otherwise : claims_only e (try_global e back otherwise).1.
Proof.
  unfold try_global. destruct (claim (global_queue_ e)) as [[f q]|] eqn:Hq; [|apply claims_only_refl].
  destruct e as [ws g st nx]. fields. split_and!; [done..|]. intros [i|]; [by left|right]. by exists f.
Qed.

Lemma worker_step_claims e i p : claims_only e (worker_step e i p).1.1.
Proof.
  pose proof (try_execute_claims e) as H. pose proof (try_global_claims e) as Hg.
  destruct p as [| |j| | |v f back|f back| | |]; cbn [worker_step fst];
    try apply claims_only_refl; try apply H; try apply Hg.
  - destruct (_ <? _)%nat; [apply H|apply claims_only_refl].
  - split_and!; [by destruct e|destruct e; unfold with_worker; cbn; apply length_alter|].
    intros loc. left. apply at_loc_same. by intros [].
Qed.

Lemma worker_step_looping e i p :
  stop_ e = false -> looping p -> looping (worker_step e i p).1.2.
Proof.
  intros Hs Hp. assert (forall v o, looping o -> looping (try_execute_from e v Loop o).2) as Hx.
  { intros v o Ho. unfold try_execute_from. destruct (workers_ e !! v) as [w|]; [|done].
    by destruct (claim (queue w)) as [[f q]|]. }
  destruct p as [| |j| | |v f back|f back| | |]; cbn [worker_step looping fst snd] in *;
    try done; try (by apply Hx).
  - by rewrite Hs.
  - destruct (_ <? _)%nat; [by apply Hx|done].
  - unfold try_global. by destruct (claim _) as [[f q]|].
  - by subst back.
Qed.

Lemma pub_step_ok s m : pub_ok s -> pub_ok (step s m).
Proof.
  intros [Hp Hl]. destruct s as [e cs ws l], m as [i a full|i|].
  - cbn [step sys_pool sys_clients sys_workers sys_log] in *.
    pose proof (submit_step_places e (cs i) full) as Hs.
    assert (forall e' c' l', stop_ e' = stop_ e /\ (forall loc place x,
        (at_loc e' loc).1 !! place = Some (x, false) -> publishing c' = Some (loc, place) \/
        (publishing (cs i) <> Some (loc, place) /\ (at_loc e loc).1 !! place = Some (x, false))) ->
      pub_ok (mkSys e' (set_thread cs i c') ws l')) as Hgo.
    { intros e' c' l' [Hst Hpl]. split; cbn; [|by rewrite Hst]. intros loc place x Hx.
      destruct (Hpl _ _ _ Hx) as [Hc|[Hne Ho]]; [exists i; by rewrite set_thread_eq|].
      destruct (Hp _ _ _ Ho) as [j Hj]. exists j. rewrite set_thread_ne; [done|congruence]. }
    destruct (cs i) eqn:Ei; [|destruct (submit_step _ _ _) as [[e' c'] ev]; by apply Hgo..].
    apply Hgo. split; [done|]. by right.
  - unfold step. cbn [sys_pool sys_clients sys_workers sys_log] in *.
    destruct (ws !! i) as [p|] eqn:Hi; [|done].
    pose proof (worker_step_claims e i p) as (Hst & _ & Hq). pose proof (worker_step_looping e i p) as Hlp.
    destruct (worker_step e i p) as [[e' p'] ev]. cbn in *. split; cbn.
    + intros loc place x Hx. apply (Hp loc place x).
      destruct (Hq loc) as [<-|(f & Hc)]; [done|]. apply claim_Some in Hc as [_ E]. by rewrite E in Hx.
    + rewrite Hst. intros Hf. specialize (Hl Hf). apply Forall_insert; [done|].
      apply Hlp; [done|]. rewrite Forall_lookup in Hl. by apply (Hl i).
  - split; cbn in *; [|by destruct e]. intros loc place x. destruct e. apply Hp.
Qed.

Lemma pub_run_ok s ms : pub_ok s -> pub_ok (run s ms).
Proof. revert s; induction ms as [|m ms IH]; intros s H; [done|]. by apply IH, pub_step_ok. Qed.

Lemma start_pub_ok num_threads hw : pub_ok (start num_threads hw).
Proof.
  unfold start, create. generalize (Z.to_nat (if num_threads =? 0 then if hw =? 0 then 4 else hw else num_threads)).
  intros n. split; cbn.
  - intros [i|] place x; cbn; [|done].
    destruct (replicate n _ !! i) as [w|] eqn:Hi; [|done].
    by apply lookup_replicate in Hi as [-> _].
  - intros _. by apply Forall_replicate.
Qed.

(** ** After the shutdown *)

Definition exhausted {T} (q : places T) : Prop := q.2 = length q.1.

Definition all_published {T} (q : places T) : Prop := Forall (fun e => e.2 = true) q.1.

(** The worker is done with its own queue. *)
Definition past_own (p : worker) : Prop :=
  match p with
  | WDrainGlobal | WExited | WRun _ DrainGlobal | WCount _ _ DrainGlobal => True
  | _ => False
  end.

#[local] Arguments at_loc : simpl never.

(** The thread is not past the stop check of [submit]. *)
Definition quiet (c : client) : Prop := match c with CIdle | CLoadStop _ => True | _ => False end.

Record drained (s : system) : Prop := {
  dr_stop : stop_ (sys_pool s) = true;
  dr_quiet : forall i, quiet (sys_clients s i);
  dr_published : forall loc, all_published (at_loc (sys_pool s) loc);
  dr_own : forall i p, sys_workers s !! i = Some p -> past_own p ->
    exhausted (at_loc (sys_pool s) (Some i));
  dr_global : forall i, sys_workers s !! i = Some WExited -> exhausted (at_loc (sys_pool s) None)
}.

Lemma claim_None_exhausted {T} (q : places T) :
  (q.2 <= length q.1)%nat -> all_published q -> claim q = None -> exhausted q.
Proof.
  unfold claim, exhausted, all_published. intros Hw Hp Hc.
  destruct (q.1 !! q.2) as [[x b]|] eqn:E; [|apply lookup_ge_None in E; lia].
  rewrite Forall_lookup in Hp. specialize (Hp _ _ E). cbn in Hp. subst b. done.
Qed.

Lemma exhausted_claim {T} (q : places T) : exhausted q -> claim q = None.
Proof. unfold claim, exhausted. intros ->. by rewrite (lookup_ge_None_2 q.1) by done. Qed.

Lemma claims_exhausted e e' loc :
  claims_only e e' -> exhausted (at_loc e loc) -> exhausted (at_loc e' loc).
Proof.
  intros (_ & _ & Hq) He. destruct (Hq loc) as [->|(f & Hc)]; [done|].
  rewrite exhausted_claim in Hc by done. done.
Qed.

Lemma claims_published e e' loc :
  claims_only e e' -> all_published (at_loc e loc) -> all_published (at_loc e' loc).
Proof.
  intros (_ & _ & Hq) He. destruct (Hq loc) as [->|(f & Hc)]; [done|].
  apply claim_Some in Hc as [_ ->]. done.
Qed.

Lemma at_loc_wf e loc : pool_ok e -> wf (at_loc e loc).
Proof.
  intros H. destruct loc as [i|]; [|apply H]. unfold at_loc. destruct (workers_ e !! i) eqn:Hi; [|by apply Nat.le_refl].
  by apply (po_wf _ H i).
Qed.

(** Where the steps of the drain lead. *)
Lemma worker_step_past e i p :
  pool_ok e -> stop_ e = true -> (forall loc, all_published (at_loc e loc)) ->
  (past_own p -> exhausted (at_loc e (Some i))) ->
  (p = WExited -> exhausted (at_loc e None)) ->
  let p' := (worker_step e i p).1.2 in
  (past_own p' -> exhausted (at_loc e (Some i))) /\ (p' = WExited -> exhausted (at_loc e None)).
Proof.
  intros H Hs Hp Hown Hex.
  assert (forall v b o, b <> DrainGlobal -> ~ past_own o -> o <> WExited ->
    let p' := (try_execute_from e v b o).2 in
    (past_own p' -> exhausted (at_loc e (Some i))) /\ (p' = WExited -> exhausted (at_loc e None))) as Hx.
  { intros v b o Hb Ho Ho'. unfold try_execute_from. destruct (workers_ e !! v) as [w|]; [|cbn; tauto].
    destruct (claim (queue w)) as [[f q]|]; [|cbn; tauto]. cbn. destruct b; done. }
  pose proof (at_loc_wf e (Some i) H) as Hwf. pose proof (at_loc_wf e None H) as Hgwf.
  destruct p as [| |j| | |v f back|f back| | |]; cbn [worker_step fst snd] in *; cbv zeta;
    try (apply Hx; [done|by intros []|done]).
  - rewrite Hs. split; [by intros []|done].
  - destruct (_ <? _)%nat; [apply Hx; [done|by intros []|done]|split; [by intros []|done]].
  - unfold try_global. destruct (claim _) as [[f q]|]; (split; [by intros []|done]).
  - split; [by intros []|done].
  - split; [|done]. destruct back; try (by intros []). exact Hown.
  - destruct back; (split; [|done]); try (by intros []). exact Hown.
  - unfold try_execute_from. pose proof (Hp (Some i)) as Hpi. unfold at_loc in *.
    destruct (workers_ e !! i) as [w|]; [|done].
    destruct (claim (queue w)) as [[f q]|] eqn:Hc; [split; [by intros []|done]|].
    cbn [snd]. split; [|done]. intros _. by apply claim_None_exhausted.
  - unfold try_global. destruct (claim _) as [[f q]|] eqn:Hc; cbn [snd];
      (split; [intros _; by apply Hown|]); [done|].
    intros _. by apply (claim_None_exhausted (global_queue_ e) Hgwf (Hp None)).
  - split; [intros _; by apply Hown|exact Hex].
Qed.

Lemma drained_step s m : sys_ok s -> drained s -> drained (step s m).
Proof.
  intros Hok [Hs Hq Hp Ho Hg]. pose proof (so_pool _ Hok) as Hpool.
  destruct s as [e cs ws l], m as [i a full|i|]; cbn [sys_pool sys_clients sys_workers sys_log] in *.
  - cbn [step sys_pool sys_clients sys_workers sys_log]. pose proof (Hq i) as Hi.
    destruct (cs i) eqn:Ei; try done.
    + split; cbn; try done.
      by apply (set_thread_all quiet).
    + cbn [submit_step]. rewrite Hs. split; cbn; try done.
      by apply (set_thread_all quiet).
  - unfold step. cbn [sys_pool sys_clients sys_workers sys_log].
    destruct (ws !! i) as [p|] eqn:Hi; [|done].
    pose proof (worker_step_claims e i p) as Hc.
    destruct (worker_step_past e i p Hpool Hs Hp (Ho i p Hi)) as [H1 H2].
    { intros ->. by eapply Hg. }
    destruct (worker_step e i p) as [[e' p'] ev]. cbn in *. split; cbn; try done.
    + by rewrite (proj1 Hc).
    + intros loc. by eapply claims_published.
    + intros j p0 [[-> ->]|[Hne Hj]]%insert_lookup_cases Hpast; (eapply claims_exhausted; [done|]);
        [by apply H1|by apply (Ho j p0)].
    + intros j [[-> <-]|[Hne Hj]]%insert_lookup_cases; (eapply claims_exhausted; [done|]);
        [by apply H2|by apply (Hg j)].
  - destruct e. by split.
Qed.

Lemma drained_run s ms : sys_ok s -> drained s -> sys_ok (run s ms) /\ drained (run s ms).
Proof.
  revert s; induction ms as [|m ms IH]; intros s Hok H; [done|].
  apply IH; [by apply sys_step_ok|by apply drained_step].
Qed.

(** The shutdown of a pool whose submitting threads are idle. *)
Lemma stop_drained s :
  stop_ (sys_pool s) = false -> (forall i, sys_clients s i = CIdle) -> pub_ok s ->
  drained (step s Stop).
Proof.
  intros Hs Hc [Hp Hl]. specialize (Hl Hs). destruct s as [e cs ws l]. cbn in *.
  assert (forall loc, at_loc { e with stop_ := true } loc = at_loc e loc) as Hat by by destruct e.
  split; cbn [sys_pool sys_clients sys_workers step]; fields.
  - by destruct e.
  - intros i. by rewrite Hc.
  - intros loc. apply Forall_lookup. intros place [x b] Hx. cbn. destruct b; [done|].
    assert ((at_loc e loc).1 !! place = Some (x, false)) as Hx' by by destruct e.
    destruct (Hp _ _ _ Hx') as [j Hj]. by rewrite Hc in Hj.
  - intros i p Hi Hpast. rewrite Forall_lookup in Hl. specialize (Hl _ _ Hi).
    destruct p as [| |j| | |v f back|f back| | |]; cbn in *; try done; by subst back.
  - intros i Hi. rewrite Forall_lookup in Hl. by specialize (Hl _ _ Hi).
Qed.

(** ** Termination of the drain *)

Definition rank (n : Z) (p : worker) : Z :=
  let after back := match back with Loop => 3 | DrainOwn => 2 | DrainGlobal => 1 end in
  match p with
  | WOwn => 6 + n
  | WSteal j => 6 + Z.max 0 (n - Z.of_nat j)
  | WGlobal => 5
  | WSleep => 4
  | WCheck => 3
  | WCount _ _ back => after back + 2
  | WRun _ back => after back + 1
  | WDrainOwn => 2
  | WDrainGlobal => 1
  | WExited => 0
  end.

(** The elements left in the queues. *)
Definition left_in (e : t) : Z :=
  sum_by (fun w => size_of (queue w)) (workers_ e) + size_of (global_queue_ e).

(** The steps the workers may still make. *)
Definition steps_left (s : system) : Z :=
  3 * left_in (sys_pool s) + sum_by (rank (Z.of_nat (length (workers_ (sys_pool s))))) (sys_workers s).

Lemma rank_nonneg n p : 0 <= n -> 0 <= rank n p /\ (p <> WExited -> 0 < rank n p).
Proof. intros Hn. destruct p as [| |j| | |v f []|f []| | |]; cbn; try (split; [lia|intros; lia]). split; [lia|done]. Qed.

Lemma claim_size {T} (q : places T) x q' : claim q = Some (x, q') -> size_of q' = size_of q - 1.
Proof. intros [_ ->]%claim_Some. unfold size_of. cbn [fst snd]. lia. Qed.

Lemma left_with_worker e i f w :
  workers_ e !! i = Some w ->
  left_in (with_worker e i f) = left_in e - size_of (queue w) + size_of (queue (f w)).
Proof.
  intros Hw. destruct e as [ws g st nx]. unfold left_in, with_worker. fields.
  rewrite (sum_by_alter _ f ws i w) by done. lia.
Qed.

Lemma left_same_queue e i f :
  (forall w, queue (f w) = queue w) -> left_in (with_worker e i f) = left_in e.
Proof.
  intros Hf. destruct (workers_ e !! i) as [w|] eqn:Hw.
  - rewrite (left_with_worker e i f w), Hf by done. lia.
  - by rewrite with_worker_none.
Qed.

Lemma try_execute_left e v b o n :
  let '(e', p') := try_execute_from e v b o in
  (e', p') = (e, o) \/ (rank n p' = rank n (WCount v None b) /\ left_in e' = left_in e - 1).
Proof.
  unfold try_execute_from. destruct (workers_ e !! v) as [w|] eqn:Hw; [|by left].
  destruct (claim (queue w)) as [[f q]|] eqn:Hc; [right|by left]. split; [done|].
  rewrite (left_with_worker e v _ w) by done. destruct w. fields. rewrite (claim_size _ _ _ Hc). lia.
Qed.

Lemma try_global_left e b o n :
  let '(e', p') := try_global e b o in
  (e', p') = (e, o) \/ (rank n p' = rank n (WRun None b) /\ left_in e' = left_in e - 1).
Proof.
  unfold try_global. destruct (claim (global_queue_ e)) as [[f q]|] eqn:Hc; [right|by left].
  split; [done|]. destruct e. unfold left_in. fields. rewrite (claim_size _ _ _ Hc). lia.
Qed.

(** Every step of a worker that has not exited uses up a step. *)
Lemma worker_step_left e i p :
  stop_ e = true -> (0 < length (workers_ e))%nat ->
  let n := Z.of_nat (length (workers_ e)) in
  let '(e', p', _) := worker_step e i p in
  3 * left_in e' + rank n p' <=
    3 * left_in e + rank n p - match p with WExited => 0 | _ => 1 end.
Proof.
  intros Hs Hn n. pose proof (fun v b o => try_execute_left e v b o n) as Hx.
  pose proof (fun b o => try_global_left e b o n) as Hg.
  assert (n = Z.of_nat (length (workers_ e))) as En by done. clearbody n.
  destruct p as [| |j| | |v f back|f back| | |]; cbn [worker_step].
  - rewrite Hs. cbn. lia.
  - specialize (Hx i Loop (WSteal 1)). destruct (try_execute_from _ _ _ _).
    destruct Hx as [[= -> ->]|[-> ->]]; cbn; lia.
  - destruct (Nat.ltb_spec j (length (workers_ e))); [|cbn; lia].
    specialize (Hx ((i + j) mod length (workers_ e))%nat Loop (WSteal (S j))).
    destruct (try_execute_from _ _ _ _). destruct Hx as [[= -> ->]|[-> ->]]; cbn; lia.
  - specialize (Hg Loop WSleep). destruct (try_global _ _ _).
    destruct Hg as [[= -> ->]|[-> ->]]; cbn; lia.
  - cbn. lia.
  - rewrite left_same_queue by by intros []. destruct back; cbn; lia.
  - destruct back; cbn; lia.
  - specialize (Hx i DrainOwn WDrainGlobal). destruct (try_execute_from _ _ _ _).
    destruct Hx as [[= -> ->]|[-> ->]]; cbn; lia.
  - specialize (Hg DrainGlobal WExited). destruct (try_global _ _ _).
    destruct Hg as [[= -> ->]|[-> ->]]; cbn; lia.
  - lia.
Qed.

Lemma step_steps_left s m :
  sys_ok s -> drained s ->
  steps_left (step s m) <= steps_left s /\
  (forall i p, m = Work i -> sys_workers s !! i = Some p -> p <> WExited ->
    steps_left (step s m) < steps_left s).
Proof.
  intros Hok [Hs Hq _ _ _]. pose proof (po_some _ (so_pool _ Hok)) as Hn.
  destruct s as [e cs ws l], m as [i a full|i|]; cbn [sys_pool sys_clients sys_workers sys_log] in *.
  - split; [|done]. cbn [step sys_clients]. specialize (Hq i). destruct (cs i) eqn:Ei; try done.
    cbn [submit_step sys_pool]. rewrite Hs. done.
  - unfold step. cbn [sys_pool sys_clients sys_workers sys_log].
    destruct (ws !! i) as [p|] eqn:Hi; [|split; [done|intros ? ? [= <-]; congruence]].
    pose proof (worker_step_left e i p Hs Hn) as Hl. pose proof (worker_step_claims e i p) as (_ & Hlen & _).
    cbv zeta in Hl. destruct (worker_step e i p) as [[e' p'] ev]. cbn in Hlen.
    unfold steps_left. cbn [sys_pool sys_workers]. rewrite Hlen, (sum_by_insert _ _ i p) by done.
    split; [destruct p; lia|]. intros i' p0 [= <-] Hi' Hne. rewrite Hi in Hi'. injection Hi' as <-.
    destruct p; try done; lia.
  - split; [|done]. destruct e. done.
Qed.

Lemma step_other_worker s m i : m <> Work i -> sys_workers (step s m) !! i = sys_workers s !! i.
Proof.
  intros Hne. destruct s as [e cs ws l], m as [j a full|j|]; cbn [step sys_workers sys_clients sys_pool].
  - destruct (cs j); [done|destruct (submit_step _ _ _) as [[? ?] ?]; done..].
  - destruct (ws !! j) as [p|]; [|done]. destruct (worker_step e j p) as [[? ?] ?]. cbn.
    rewrite list_lookup_insert_ne; [done|congruence].
  - done.
Qed.

Lemma work_or_not m i : m = Work i \/ m <> Work i.
Proof. destruct m as [j a full|j|]; try (by right). destruct (Nat.eq_dec j i) as [->|]; [by left|right; congruence]. Qed.

Lemma run_steps_left s ms :
  sys_ok s -> drained s ->
  steps_left (run s ms) <= steps_left s /\
  (forall i p, Work i ∈ ms -> sys_workers s !! i = Some p -> p <> WExited ->
    steps_left (run s ms) < steps_left s).
Proof.
  revert s; induction ms as [|m ms IH]; intros s Hok Hd.
  - split; [done|]. by intros i p ?%elem_of_nil.
  - destruct (step_steps_left s m Hok Hd) as [Hle Hlt].
    destruct (IH (step s m)) as [Hle' Hlt']; [by apply sys_step_ok|by apply drained_step|].
    change (run s (m :: ms)) with (run (step s m) ms). split; [lia|].
    intros i p Hin Hi Hne. destruct (work_or_not m i) as [->|Hm].
    + specialize (Hlt i p eq_refl Hi Hne). lia.
    + apply elem_of_cons in Hin as [Hin|Hin]; [congruence|].
      assert (steps_left (run (step s m) ms) < steps_left (step s m)); [|lia].
      apply (Hlt' i p); [done|by rewrite step_other_worker|done].
Qed.

Lemma steps_left_nonneg s : sys_ok s -> 0 <= steps_left s.
Proof.
  intros H. pose proof (so_pool _ H) as Hp. unfold steps_left, left_in.
  assert (forall q : places task, wf q -> 0 <= size_of q) as Hsz by (unfold wf, size_of; lia).
  pose proof (Hsz _ (po_global_wf _ Hp)).
  assert (0 <= sum_by (fun w => size_of (queue w)) (workers_ (sys_pool s))).
  { apply sum_by_nonneg, Forall_lookup. intros i w Hw. apply Hsz. by apply (po_wf _ Hp i). }
  assert (0 <= sum_by (rank (Z.of_nat (length (workers_ (sys_pool s))))) (sys_workers s)); [|lia].
  apply sum_by_nonneg, Forall_lookup. intros i p _. apply rank_nonneg. lia.
Qed.

Lemma joined_run s ms : joined s -> joined (run s ms).
Proof.
  revert s; induction ms as [|m ms IH]; intros s H; [done|]. apply IH. unfold joined in *.
  apply Forall_lookup. intros i p Hi. rewrite Forall_lookup in H.
  destruct (work_or_not m i) as [->|Hm]; [|rewrite step_other_worker in Hi by done; by eapply H].
  unfold step in Hi. destruct (sys_workers s !! i) as [p0|] eqn:E; [|by rewrite E in Hi].
  rewrite (H _ _ E) in Hi. cbn in Hi.
  rewrite list_lookup_insert_eq in Hi by by eapply lookup_lt_Some. by injection Hi as <-.
Qed.

Lemma joined_or_not s : joined s \/ exists i p, sys_workers s !! i = Some p /\ p <> WExited.
Proof.
  unfold joined. destruct (Forall_Exists_dec (fun p => p = WExited) (fun p => p <> WExited)
    ltac:(intros []; by (left + right)) (sys_workers s)) as [H|H]; [by left|right].
  apply Exists_exists in H as (p & Hin & Hp). apply list_elem_of_lookup in Hin as [i Hi]. eauto.
Qed.

Lemma run_workers_length s ms : length (sys_workers (run s ms)) = length (sys_workers s).
Proof.
  revert s; induction ms as [|m ms IH]; intros s; [done|].
  change (run s (m :: ms)) with (run (step s m) ms). rewrite IH.
  destruct s as [e cs ws l], m as [j a full|j|]; cbn [step sys_workers sys_clients sys_pool]; [..|done].
  - destruct (cs j); [done|destruct (submit_step _ _ _) as [[? ?] ?]; done..].
  - destruct (ws !! j); [|done]. destruct (worker_step _ _ _) as [[? ?] ?]. apply length_insert.
Qed.

(** Rounds in which every worker moves end the drain. *)
Lemma rounds_join s rounds :
  sys_ok s -> drained s ->
  Forall (fun ms => forall i, (i < length (sys_workers s))%nat -> Work i ∈ ms) rounds ->
  steps_left s <= Z.of_nat (length rounds) -> joined (run s (concat rounds)).
Proof.
  revert s; induction rounds as [|ms rounds IH]; intros s Hok Hd Hr Hl.
  - pose proof (steps_left_nonneg s Hok). cbn [length] in Hl.
    destruct (joined_or_not s) as [|(i & p & Hi & Hne)]; [done|].
    destruct (step_steps_left s (Work i) Hok Hd) as [_ Hlt]. specialize (Hlt i p eq_refl Hi Hne).
    pose proof (steps_left_nonneg _ (sys_step_ok s (Work i) Hok)). lia.
  - apply Forall_cons in Hr as [Hms Hr]. unfold run. cbn [concat]. rewrite fold_left_app.
    fold (run s ms). fold (run (run s ms) (concat rounds)).
    destruct (drained_run s ms Hok Hd) as [Hok' Hd'].
    destruct (joined_or_not s) as [|(i & p & Hi & Hne)]; [by apply joined_run, joined_run|].
    destruct (run_steps_left s ms Hok Hd) as [_ Hlt].
    specialize (Hlt i p (Hms i (lookup_lt_Some _ _ _ Hi)) Hi Hne).
    pose proof (run_workers_length s ms) as Hlen.
    apply IH; [done..|by rewrite Hlen|]. cbn [length] in Hl. lia.
Qed.

(** After the shutdown nothing more is accepted. *)
Lemma drained_accepts s ms a :
  sys_ok s -> drained s -> accepted a (sys_log (run s ms)) = accepted a (sys_log s).
Proof.
  revert s; induction ms as [|m ms IH]; intros s Hok Hd; [done|].
  change (run s (m :: ms)) with (run (step s m) ms).
  rewrite IH by (by apply sys_step_ok || by apply drained_step).
  pose proof (dr_quiet _ Hd) as Hq. pose proof (dr_stop _ Hd) as Hs. pose proof (so_pool _ Hok) as Hp.
  destruct s as [e cs ws l], m as [j b full|j|]; cbn [step sys_log sys_workers sys_clients sys_pool] in *.
  - specialize (Hq j). destruct (cs j); try done. cbn [submit_step]. rewrite Hs.
    cbn [sys_log]. rewrite accepted_app.
    rewrite ((fun c => eq_refl) : forall c, accepted a [Rejected c] = 0). lia.
  - destruct (ws !! j) as [p|]; [|done]. pose proof (worker_step_ok e j p Hp) as Hw.
    destruct (worker_step _ _ _) as [[? ?] ev]. cbn. rewrite accepted_app, (proj2 Hw a). lia.
  - done.
Qed.

(** With every worker gone nothing is left. *)
Lemma joined_empty s a : sys_ok s -> drained s -> joined s -> waiting a s = 0.
Proof.
  intros Hok [_ _ _ Ho Hg] Hj. unfold joined in Hj. rewrite Forall_lookup in Hj.
  pose proof (so_length _ Hok) as Hlen. pose proof (po_some _ (so_pool _ Hok)) as Hpos.
  assert (forall q : places task, exhausted q -> queued a q = 0) as Hz.
  { intros q Hq. unfold queued, exhausted in *. rewrite Hq, <- (length_fmap fst q.1), drop_all. done. }
  assert (forall {B} (f : B -> Z) l, (forall i x, l !! i = Some x -> f x = 0) -> sum_by f l = 0) as Hs.
  { intros B f l. induction l as [|x l IH]; intros H; [done|].
    rewrite sum_by_cons, (H 0%nat x), IH; [done| |done]. intros i y Hi. by apply (H (S i)). }
  unfold waiting, pool_queued. rewrite (Hs _ _ (sys_workers s)), (Hs _ _ (workers_ _)), Hz; try done.
  - destruct (lookup_lt_is_Some_2 (sys_workers s) 0%nat) as [p Hp]; [lia|].
    apply (Hg 0%nat). by rewrite <- (Hj _ _ Hp).
  - intros i w Hw. destruct (lookup_lt_is_Some_2 (sys_workers s) i) as [p Hp].
    { rewrite Hlen. by eapply lookup_lt_Some. }
    apply Hz. specialize (Ho i p Hp). rewrite (Hj _ _ Hp) in Ho. specialize (Ho I).
    unfold at_loc in Ho. by rewrite Hw in Ho.
  - intros i p Hp. by rewrite (Hj _ _ Hp).
Qed.

End pool.
End ThreadPoolExecutor.

Import ThreadPoolExecutor.

(** C11. In every interleaving of submitting threads, workers and shutdowns,
    each task runs exactly as often as it was accepted, up to the ones still
    waiting in a queue or in the hand of a worker: no task runs twice and none
    is made up.  The global queue never holds a task: what overflows from a
    worker's queue was moved away by the refused push, so only empty functions
    reach the global queue and the overflowing tasks are lost. *)
Theorem executor_conserves {A} `{EqDecision A} num_threads hw (ms : list (@move A)) :
  0 <= num_threads -> 0 <= hw ->
  let s := run (start num_threads hw) ms in
  (forall a, accepted a (sys_log s) = ran a (sys_log s) + waiting a s /\ 0 <= waiting a s) /\
  Forall (fun f => f = None) (global_queue_ (sys_pool s)).1.*1.
Proof.
  intros Hn Hh s. pose proof (sys_run_ok _ ms (start_ok num_threads hw Hn Hh)) as Hok. fold s in Hok.
  split; [|apply Hok]. intros a. split; [apply Hok|apply waiting_nonneg].
Qed.

(** One thread submits three tasks to a pool of one worker; the second push
    is refused. *)
Definition overflowing : list (@move Z) :=
  replicate 6 (Client 0 1 false) ++ replicate 3 (Client 0 2 false) ++ [Client 0 2 true] ++
  replicate 2 (Client 0 2 false) ++ replicate 6 (Client 0 3 false) ++ replicate 14 (Work 0).

Lemma executor_conserves_witness :
  let s := run (start 1 8) overflowing in
  sys_log s = [Accepted 1; Overflowed 2; Spilled; Accepted 3; Ran 1; Ran 3; Threw] /\
  accepted 2 (sys_log s) = ran 2 (sys_log s) + waiting 2 s.
Proof.
  split; [vm_compute; reflexivity|].
  apply (executor_conserves 1 8 overflowing); lia.
Defined.

(** C9. A shutdown of an idle pool is graceful: when no submission is under
    way, rounds in which every worker moves at least once end the drain after
    at most [steps_left] of them, whatever else moves in between, and then
    every task that was accepted has run, exactly as often. *)
Theorem shutdown_completes {A} `{EqDecision A} num_threads hw (ms : list (@move A)) rounds :
  0 <= num_threads -> 0 <= hw ->
  let s := run (start num_threads hw) ms in
  stop_ (sys_pool s) = false -> (forall i, sys_clients s i = CIdle) ->
  let s' := step s Stop in
  Forall (fun ms => forall i, (i < length (sys_workers s'))%nat -> Work i ∈ ms) rounds ->
  steps_left s' <= Z.of_nat (length rounds) ->
  let s'' := run s' (concat rounds) in
  joined s'' /\ forall a, ran a (sys_log s'') = accepted a (sys_log s).
Proof.
  intros Hn Hh s Hs Hc s' Hr Hl s''. pose proof (sys_run_ok _ ms (start_ok num_threads hw Hn Hh)) as Hok.
  pose proof (pub_run_ok _ ms (start_pub_ok num_threads hw)) as Hpub. fold s in Hok, Hpub.
  pose proof (stop_drained s Hs Hc Hpub) as Hd. pose proof (sys_step_ok s Stop Hok) as Hok'. fold s' in Hd, Hok'.
  pose proof (rounds_join s' rounds Hok' Hd Hr Hl) as Hj. fold s'' in Hj. split; [done|]. intros a.
  destruct (drained_run s' (concat rounds) Hok' Hd) as [Hok'' Hd'']. fold s'' in Hok'', Hd''.
  pose proof (so_count _ Hok'' a) as Hcount. rewrite (joined_empty s'' a Hok'' Hd'' Hj) in Hcount.
  pose proof (drained_accepts s' (concat rounds) a Hok' Hd) as Ha. fold s'' in Ha.
  change (sys_log s') with (sys_log s) in Ha. lia.
Qed.

(** Two workers, four tasks, and a late one that is rejected during the
    drain. *)
Definition four_tasks : list (@move Z) :=
  concat ((fun a => replicate 6 (Client 0 a false)) <$> [1; 2; 3; 4]) ++ replicate 5 (Work 1).

Definition drain_rounds : list (list (@move Z)) :=
  replicate 50 [Work 1; Client 0 9 false; Work 0].

Lemma shutdown_completes_witness :
  let s := run (start 0 2) four_tasks in
  let s'' := run (step s Stop) (concat drain_rounds) in
  ran 2 (sys_log s) = 1 /\ ran 3 (sys_log s) = 0 /\
  joined s'' /\ forall a, ran a (sys_log s'') = accepted a (sys_log s).
Proof.
  split; [vm_compute; reflexivity|]. split; [vm_compute; reflexivity|].
  apply (shutdown_completes 0 2 four_tasks drain_rounds).
  - lia.
  - lia.
  - vm_compute; reflexivity.
  - intros [|i]; vm_compute; reflexivity.
  - apply Forall_replicate. intros [|[|i]] Hi.
    + apply elem_of_cons. right. apply elem_of_cons. right. apply elem_of_cons. by left.
    + apply elem_of_cons. by left.
    + exfalso. vm_compute in Hi. lia.
  - vm_compute. discriminate.
Defined.

(** A submission that passed the check of the stop flag before the shutdown
    is accepted by a queue nobody reads any more. *)
Theorem late_submission_lost :
  let s := run (start 1 8)
    (replicate 3 (Client 0 5 false) ++ [Stop] ++ replicate 3 (Work 0) ++ replicate 3 (Client 0 5 false)) in
  joined s /\ sys_clients s 0%nat = CIdle /\ accepted 5 (sys_log s) = 1 /\ ran 5 (sys_log s) = 0 /\
  pending_tasks (sys_pool s) = 1.
Proof. vm_compute. split_and!; try done. by repeat constructor. Qed.
