(* ===== verification/Scheduler.v ===== *)
(** * Scheduler (cunk/src/scheduler/Scheduler.cpp)

    Delayed and periodic tasks in a priority queue keyed by deadline, fired by
    one thread.  Scheduling calls from any thread and the steps of the loop
    come in any order; every reading of the clock is an argument. *)

From S2P Require Import Prelude.

(** ** std::priority_queue *)

(** What [top] and [pop] promise of a min-heap: the element that leaves is a
    least one; which of several is the library's choice. *)
Class StdPriorityQueue := {
  top_pop : forall {A}, (A -> Z) -> list A -> option (A * list A);
  top_pop_nil : forall {A} (key : A -> Z) l, top_pop key l = None <-> l = [];
  top_pop_cons : forall {A} (key : A -> Z) l x rest, top_pop key l = Some (x, rest) ->
    l ≡ₚ x :: rest /\ Forall (fun y => key x <= key y) rest
}.

Module Scheduler.
Section scheduler.
Context {H : StdPriorityQueue} {A : Type}.

Record ScheduledTask := mkTask {
  id : Z;
  deadline : Z;
  interval : Z;  (** 0 = one-shot *)
  task : A;
  cancelled : bool
}.

(** The loop, by where it is. *)
Inductive thread :=
| TNone                        (** not started, or finished *)
| TCheck                       (** [while (running_.load())] *)
| TLock                        (** the mutex held, the queue inspected *)
| TWait                        (** [cv_.wait] for a task *)
| TSleep                       (** [cv_.wait_until] the next deadline *)
| TRun (x : ScheduledTask).    (** [task.task()], the mutex released *)

Record t := mk {
  queue_ : list ScheduledTask;
  running_ : bool;
  next_id_ : Z;
  thread_ : thread
}.

Definition create : t := mk [] false 1 TNone.

Inductive event :=
| Scheduled (i d p : Z) (a : A)    (** identifier, deadline, interval, task *)
| Fired (i d now : Z) (a : A)      (** taken from the queue to be run, at [now] *)
| Cancelled (i : Z) (answer : bool).

Definition push (s : t) (x : ScheduledTask) : t := { s with queue_ ::= cons x }.

Definition schedule (s : t) (delay p now : Z) (a : A) : t * Z * list event :=
  let i := next_id_ s in
  let s := { s with next_id_ := u64 (i + 1) } in
  let d := i64 (now + delay) in
  (push s (mkTask i d p a false), i, [Scheduled i d p a]).

Definition schedule_once (s : t) (delay now : Z) (a : A) : t * Z * list event :=
  schedule s delay 0 now a.

Definition schedule_periodic (s : t) (initial_delay p now : Z) (a : A) : t * Z * list event :=
  schedule s initial_delay p now a.

Definition cancel (s : t) (i : Z) : t * bool := (s, false).

(** The thread of an earlier start has been joined. *)
Definition start (s : t) : t :=
  if running_ s then s else { { s with running_ := true } with thread_ := TCheck }.

(** [shutdown] before it joins the thread. *)
Definition shutdown (s : t) : t := { s with running_ := false }.

Definition pending_count (s : t) : Z := Z.of_nat (length (queue_ s)).

(** A due task is taken, put back for its next deadline when it is periodic,
    and handed to be run. *)
Definition take_due (s : t) (x : ScheduledTask) (rest : list ScheduledTask) (now : Z)
    : t * list event :=
  let s := { s with queue_ := rest } in
  if cancelled x then ({ s with thread_ := TCheck }, [])
  else
    let s := if 0 <? interval x
             then push s (mkTask (id x) (i64 (deadline x + interval x)) (interval x) (task x) false)
             else s in
    ({ s with thread_ := TRun x }, [Fired (id x) (deadline x) now (task x)]).

(** A step of [scheduler_loop]; [now] is what the clock shows. *)
Definition loop_step (s : t) (now : Z) : t * list event :=
  match thread_ s with
  | TNone => (s, [])
  | TCheck => ({ s with thread_ := if running_ s then TLock else TNone }, [])
  | TLock =>
      match top_pop deadline (queue_ s) with
      | None => ({ s with thread_ := TWait }, [])
      | Some (x, rest) =>
          if deadline x <=? now then take_due s x rest now
          else ({ s with thread_ := TSleep }, [])
      end
  | TWait =>
      (if negb (running_ s) || negb (pending_count s =? 0)
       then { s with thread_ := TCheck } else s, [])
  | TSleep => ({ s with thread_ := TCheck }, [])
  | TRun _ => ({ s with thread_ := TCheck }, [])
  end.

(** ** Interleaving *)

Inductive move :=
| Once (delay now : Z) (a : A)
| Periodic (initial_delay p now : Z) (a : A)
| Cancel (i : Z)
| Start
| Shutdown
| Loop (now : Z).

Definition step (st : t * list event) (m : move) : t * list event :=
  let '(s, l) := st in
  match m with
  | Once delay now a => let '(s, _, ev) := schedule_once s delay now a in (s, l ++ ev)
  | Periodic delay p now a => let '(s, _, ev) := schedule_periodic s delay p now a in (s, l ++ ev)
  | Cancel i => let '(s, answer) := cancel s i in (s, l ++ [Cancelled i answer])
  | Start => (match thread_ s with TNone => start s | _ => s end, l)
  | Shutdown => (shutdown s, l)
  | Loop now => let '(s, ev) := loop_step s now in (s, l ++ ev)
  end.

Definition run (ms : list move) : t * list event := fold_left step ms (create, []).

(** Readings and durations that leave room for a deadline in 64 bits: about
    146 years each. *)
Definition move_ok (m : move) : Prop :=
  match m with
  | Once delay now _ => 0 <= delay < 2 ^ 62 /\ 0 <= now < 2 ^ 62
  | Periodic delay p now _ => 0 <= delay < 2 ^ 62 /\ 0 < p < 2 ^ 62 /\ 0 <= now < 2 ^ 62
  | Loop now => 0 <= now < 2 ^ 62
  | _ => True
  end.

(** The deadlines for which a task was fired. *)
Definition firings (i : Z) (l : list event) : list Z :=
  omap (fun ev => match ev with Fired j d _ _ => if j =? i then Some d else None | _ => None end) l.

Definition entries (i : Z) (q : list ScheduledTask) : list ScheduledTask :=
  filter (fun x => id x = i) q.

(** ** The invariant *)

(** A scheduled task: fired for its deadlines one after the other without
    drift, and queued for the next one. *)
Definition task_ok (q : list ScheduledTask) (l : list event) (i d p : Z) (a : A) : Prop :=
  let n := length (firings i l) in
  firings i l = (fun k => d + Z.of_nat k * p) <$> seq 0 n /\ (p = 0 -> (n <= 1)%nat) /\
  entries i q = if bool_decide (p = 0 /\ n <> 0%nat) then []
                else [mkTask i (d + Z.of_nat n * p) p a false].

(** The identifiers handed out. *)
Definition ids (l : list event) : list Z :=
  omap (fun ev => match ev with Scheduled i _ _ _ => Some i | _ => None end) l.

Record inv (s : t) (l : list event) (n : nat) : Prop := {
  iv_next : next_id_ s = Z.of_nat n + 1;
  iv_ids : ids l = (fun k => Z.of_nat k + 1) <$> seq 0 n;
  iv_task : forall i d p a, Scheduled i d p a ∈ l ->
    task_ok (queue_ s) l i d p a /\ 0 <= d < 2 ^ 63 /\ 0 <= p < 2 ^ 62 /\ 0 < i <= Z.of_nat n;
  iv_known : forall x, x ∈ queue_ s -> exists d, Scheduled (id x) d (interval x) (task x) ∈ l;
  iv_fired : forall i d now a, Fired i d now a ∈ l ->
    d <= now /\ exists d0 p, Scheduled i d0 p a ∈ l;
  iv_answers : forall i b, Cancelled i b ∈ l -> b = false
}.

(** What the loop and the calls but [cancel] log. *)
Definition no_answer (ev : list event) : Prop := forall i b, Cancelled i b ∉ ev.

Lemma answers_app l ev : no_answer ev -> (forall i b, Cancelled i b ∈ l -> b = false) ->
  forall i b, Cancelled i b ∈ l ++ ev -> b = false.
Proof. intros Hn Hl i b [Hin|Hin]%elem_of_app; [by eapply Hl|by destruct (Hn i b)]. Qed.

Lemma firings_app i l l' : firings i (l ++ l') = firings i l ++ firings i l'.
Proof. apply omap_app. Qed.

Lemma entries_cons i x q : entries i (x :: q) = if bool_decide (id x = i) then x :: entries i q else entries i q.
Proof. unfold entries. rewrite filter_cons. by case_decide; case_bool_decide. Qed.

(** Taking an element out of the queue. *)
Lemma entries_take i q x rest k :
  q ≡ₚ x :: rest -> entries i q = k -> (length k <= 1)%nat ->
  if bool_decide (id x = i) then k = [x] /\ entries i rest = [] else entries i rest = k.
Proof.
  intros Hp Hk Hl. assert (k ≡ₚ entries i (x :: rest)) as Hp' by (rewrite <- Hk; unfold entries; by rewrite Hp).
  rewrite entries_cons in Hp'. case_bool_decide.
  - pose proof (Permutation_length Hp') as E. cbn in E.
    destruct (entries i rest) as [|y r]; [|cbn in E; lia]. split; [|done].
    by apply Permutation_singleton_r in Hp'.
  - destruct k as [|y [|]]; [by apply Permutation_nil_l in Hp'| |cbn in Hl; lia].
    by apply Permutation_singleton_l in Hp'.
Qed.

Lemma task_entries_short q l i d p a :
  task_ok q l i d p a -> (length (entries i q) <= 1)%nat.
Proof. intros (_ & _ & ->). case_bool_decide; cbn; lia. Qed.

Lemma seq_snoc {B} (f : nat -> B) n : f <$> seq 0 (S n) = (f <$> seq 0 n) ++ [f n].
Proof. by rewrite seq_S, fmap_app. Qed.

(** ** Preservation *)

Lemma create_inv : inv create [] 0.
Proof. split; cbn; try done; try (intros *; rewrite elem_of_nil; done). Qed.

Lemma schedule_inv s l n delay p now a :
  inv s l n -> Z.of_nat n < 2 ^ 62 -> 0 <= delay < 2 ^ 62 -> 0 <= p < 2 ^ 62 -> 0 <= now < 2 ^ 62 ->
  let '(s', _, ev) := schedule s delay p now a in inv s' (l ++ ev) (S n).
Proof.
  intros [Hn Hids Ht Hk Hf Ha] Hmax Hd Hp Hnow. destruct s as [q r nx th]. cbn in Hn, Ht, Hk.
  unfold schedule, push. fields. subst nx. rewrite i64_id, u64_id by mlia.
  set (i := Z.of_nat n + 1) in *. set (d := now + delay) in *.
  assert (forall j, firings j [Scheduled i d p a] = []) as Hnf by done.
  assert (forall x, x ∈ q -> id x <> i) as Hfresh.
  { intros x Hx E. destruct (Hk x Hx) as [d0 Hs]. apply Ht in Hs. lia. }
  assert (firings i l = []) as Hnone.
  { apply elem_of_nil_inv. intros y Hy. unfold firings in Hy.
    apply list_elem_of_omap in Hy as ([|j d0 now0 a0|] & Hin & Hj); [done| |done].
    destruct (Z.eqb_spec j i) as [->|]; [|done].
    destruct (Hf _ _ _ _ Hin) as (_ & d1 & p1 & Hs). apply Ht in Hs. lia. }
  split; cbn -[seq].
  - lia.
  - unfold ids in *. rewrite omap_app, Hids. by rewrite seq_snoc.
  - intros j d0 p0 a0 [Hin|Hin]%elem_of_app.
    + destruct (Ht _ _ _ _ Hin) as ((H1 & H1' & H2) & ? & ? & ?). split_and!; try lia.
      unfold task_ok. rewrite firings_app, Hnf, app_nil_r, entries_cons. split_and!; [done..|].
      rewrite bool_decide_eq_false_2; [done|]. cbn. lia.
    + apply list_elem_of_singleton in Hin. injection Hin as -> -> -> ->. split_and!; try lia.
      unfold task_ok. rewrite firings_app, Hnf, Hnone, entries_cons. cbn [app length].
      split_and!; [done|lia|]. rewrite bool_decide_eq_true_2 by done. rewrite bool_decide_eq_false_2 by tauto.
      assert (entries i q = []) as ->; [|by rewrite Z.mul_0_l, Z.add_0_r].
      apply elem_of_nil_inv. intros y Hy. apply list_elem_of_filter in Hy as [Hy Hyq]. by apply (Hfresh y).
  - intros x [->|Hx]%elem_of_cons; [exists d; apply elem_of_app; right; by apply elem_of_cons; left|].
    destruct (Hk x Hx) as [d0 Hs]. exists d0. apply elem_of_app. by left.
  - intros j d0 now0 a0 [Hin|Hin]%elem_of_app; [|by apply list_elem_of_singleton in Hin].
    destruct (Hf _ _ _ _ Hin) as (? & d1 & p1 & Hs). split; [done|]. exists d1, p1. apply elem_of_app. by left.
  - apply answers_app; [|done]. by intros j b Hin%list_elem_of_singleton.
Qed.

(** What is taken from the queue is the task that was scheduled, at its next
    deadline. *)
Lemma taken_task s l n x rest d p a :
  inv s l n -> top_pop deadline (queue_ s) = Some (x, rest) -> Scheduled (id x) d p a ∈ l ->
  let k := length (firings (id x) l) in
  x = mkTask (id x) (d + Z.of_nat k * p) p a false /\ entries (id x) rest = [] /\
  ~ (p = 0 /\ k <> 0%nat) /\ 0 <= deadline x.
Proof.
  intros Hinv Htop Hs k. destruct (top_pop_cons _ _ _ _ Htop) as [Hperm _].
  destruct (iv_task _ _ _ Hinv _ _ _ _ Hs) as ((_ & _ & He) & Hd & Hp & _). fold k in He.
  pose proof (entries_take (id x) _ x rest _ Hperm He ltac:(case_bool_decide; cbn; lia)) as Ht.
  rewrite bool_decide_eq_true_2 in Ht by done.
  case_bool_decide as Hc; [by destruct Ht|]. destruct Ht as [E ?].
  injection E as <-. split_and!; try done. cbn. nia.
Qed.

Lemma firings_fired j l i d now a :
  firings j (l ++ [Fired i d now a]) = firings j l ++ (if i =? j then [d] else []).
Proof. rewrite firings_app. unfold firings. cbn. by destruct (i =? j). Qed.

Lemma fire_other q q' l i d0 now a0 j d p a :
  i <> j -> entries j q' = entries j q -> task_ok q l j d p a ->
  task_ok q' (l ++ [Fired i d0 now a0]) j d p a.
Proof.
  intros Hne He H2. unfold task_ok. rewrite firings_fired, He.
  rewrite (proj2 (Z.eqb_neq _ _)), app_nil_r by done. done.
Qed.

Lemma fire_same q q' l i now a0 d p a :
  let k := length (firings i l) in
  let next := d + Z.of_nat k * p in
  entries i q' = (if 0 <? p then [mkTask i (next + p) p a false] else []) ->
  0 <= p -> ~ (p = 0 /\ k <> 0%nat) ->
  task_ok q l i d p a -> task_ok q' (l ++ [Fired i next now a0]) i d p a.
Proof.
  intros k next He Hp Honce (H1 & _ & _). unfold task_ok. rewrite firings_fired, Z.eqb_refl, length_app. cbn [length].
  fold k. rewrite Nat.add_1_r, seq_snoc, He, H1. fold k. split_and!; [done|lia|].
  destruct (Z.ltb_spec 0 p) as [Hlt|Hge].
  - rewrite bool_decide_eq_false_2 by lia. unfold next. do 2 f_equal. lia.
  - by rewrite bool_decide_eq_true_2 by lia.
Qed.

Lemma take_due_inv s l n x rest now :
  inv s l n -> top_pop deadline (queue_ s) = Some (x, rest) -> deadline x <= now -> 0 <= now < 2 ^ 62 ->
  let '(s', ev) := take_due s x rest now in inv s' (l ++ ev) n.
Proof.
  intros Hinv Htop Hdue Hnow. pose proof (fun d p a => taken_task s l n x rest d p a Hinv Htop) as Hx.
  destruct (top_pop_cons _ _ _ _ Htop) as [Hperm _].
  assert (x ∈ queue_ s) as Hin by (rewrite Hperm; by left).
  destruct Hinv as [Hn Hids Ht Hk Hf Ha]. destruct (Hk x Hin) as [d0 Hs0].
  destruct (Hx _ _ _ Hs0) as (Ex & Hrest & _ & Hd0). destruct (Ht _ _ _ _ Hs0) as (_ & _ & Hp & _).
  assert (cancelled x = false) as Hc by by rewrite Ex.
  set (y := mkTask (id x) (deadline x + interval x) (interval x) (task x) false).
  set (q' := if 0 <? interval x then y :: rest else rest).
  assert (take_due s x rest now = (mk q' (running_ s) (next_id_ s) (TRun x),
    [Fired (id x) (deadline x) now (task x)])) as ->.
  { unfold take_due, push, q', y. rewrite Hc. destruct s. fields. rewrite i64_id by mlia.
    by destruct (0 <? interval x). }
  assert (forall j, id x <> j -> entries j q' = entries j rest) as Hother.
  { intros j Hne. unfold q'. destruct (0 <? _); [|done].
    rewrite entries_cons. by rewrite bool_decide_eq_false_2. }
  split; cbn; [done|unfold ids in *; by rewrite omap_app, Hids, app_nil_r|..].
  - intros j d p a [Hj|Hj]%elem_of_app; [|by apply list_elem_of_singleton in Hj].
    destruct (Ht _ _ _ _ Hj) as (Hok & ? & ? & ?). split_and!; try lia.
    destruct (Z.eq_dec (id x) j) as [<-|Hne].
    + destruct (Hx _ _ _ Hj) as (E & _ & Honce & _).
      assert (interval x = p /\ task x = a /\ deadline x = d + Z.of_nat (length (firings (id x) l)) * p)
        as (Ei & Ea & Ed) by (rewrite E at 1 2 3; done).
      rewrite Ed. apply (fire_same (queue_ s)); [|lia|done..]. rewrite <- Ed, <- Ei, <- Ea.
      unfold q'. destruct (0 <? interval x); [|done].
      by rewrite entries_cons, bool_decide_eq_true_2, Hrest.
    + apply (fire_other (queue_ s)); [done| |done]. rewrite Hother by done. symmetry.
      pose proof (entries_take j _ x rest _ Hperm eq_refl (task_entries_short _ _ _ _ _ _ Hok)) as He.
      rewrite bool_decide_eq_false_2 in He by done. done.
  - intros z Hz. assert (exists d, Scheduled (id z) d (interval z) (task z) ∈ l) as [d Hd].
    { unfold q' in Hz. destruct (0 <? interval x); [apply elem_of_cons in Hz as [->|Hz]; [by exists d0|]|];
        (apply Hk; rewrite Hperm; by right). }
    exists d. apply elem_of_app. by left.
  - intros j d now0 a [Hj|Hj]%elem_of_app.
    + destruct (Hf _ _ _ _ Hj) as (? & d1 & p1 & ?). split; [done|]. exists d1, p1. apply elem_of_app. by left.
    + apply list_elem_of_singleton in Hj. injection Hj as -> -> -> ->. split; [done|].
      exists d0, (interval x). apply elem_of_app. by left.
  - apply answers_app; [|done]. by intros j b Hj%list_elem_of_singleton.
Qed.

(** An answer of [cancel] changes nothing. *)
Lemma cancel_inv s l n i : inv s l n -> inv s (l ++ [Cancelled i false]) n.
Proof.
  intros [Hn Hids Ht Hk Hf Ha].
  assert (forall e, (forall b j, e <> Cancelled j b) -> e ∈ l ++ [Cancelled i false] -> e ∈ l) as Hold.
  { intros e He [?|E]%elem_of_app; [done|]. apply list_elem_of_singleton in E. by destruct (He false i). }
  split; [done|unfold ids in *; by rewrite omap_app, app_nil_r|..].
  - intros j d p a Hs%Hold; [|done]. destruct (Ht _ _ _ _ Hs) as [Hok ?]. split; [|done].
    unfold task_ok in *. assert (firings j (l ++ [Cancelled i false]) = firings j l) as -> by (by rewrite firings_app, app_nil_r). done.
  - intros x Hx. destruct (Hk x Hx) as [d Hd]. exists d. apply elem_of_app. by left.
  - intros j d now a Hs%Hold; [|done]. destruct (Hf _ _ _ _ Hs) as (? & d0 & p & ?). split; [done|]. exists d0, p. apply elem_of_app. by left.
  - intros j b [Hin|Hin]%elem_of_app; [by eapply Ha|]. apply list_elem_of_singleton in Hin. by injection Hin.
Qed.

Lemma same_queue_inv s s' l n :
  inv s l n -> queue_ s' = queue_ s -> next_id_ s' = next_id_ s -> inv s' (l ++ []) n.
Proof. intros [] Hq Hn. rewrite app_nil_r. by split; rewrite ?Hq, ?Hn. Qed.

Lemma scheduler_loop_inv s l n now :
  inv s l n -> 0 <= now < 2 ^ 62 -> let '(s', ev) := loop_step s now in inv s' (l ++ ev) n.
Proof.
  intros Hinv Hnow. unfold loop_step.
  destruct (thread_ s) eqn:Eth; try (eapply same_queue_inv; [done|by destruct s..]).
  - destruct (top_pop deadline (queue_ s)) as [[x rest]|] eqn:Htop;
      [|eapply same_queue_inv; [done|by destruct s..]].
    destruct (Z.leb_spec (deadline x) now); [|eapply same_queue_inv; [done|by destruct s..]].
    by apply take_due_inv.
  - destruct (_ || _); eapply same_queue_inv; (done || by destruct s).
Qed.

Lemma scheduler_step_inv s l n m :
  inv s l n -> move_ok m -> Z.of_nat n < 2 ^ 62 ->
  exists n', (n' <= S n)%nat /\ inv (step (s, l) m).1 (step (s, l) m).2 n'.
Proof.
  intros Hinv Hm Hn. destruct m as [delay now a|delay p now a|i| | |now]; cbn [step move_ok] in *.
  - exists (S n). split; [lia|]. pose proof (schedule_inv s l n delay 0 now a Hinv Hn) as Hs.
    unfold schedule_once. destruct (schedule _ _ _ _ _) as [[s' i] ev]. apply Hs; lia.
  - exists (S n). split; [lia|]. pose proof (schedule_inv s l n delay p now a Hinv Hn) as Hs.
    unfold schedule_periodic. destruct (schedule _ _ _ _ _) as [[s' i] ev]. apply Hs; lia.
  - exists n. split; [lia|]. by apply cancel_inv.
  - exists n. split; [lia|]. rewrite <- (app_nil_r l). apply (same_queue_inv s); [done|..];
      unfold start; destruct (thread_ s); try done; destruct (running_ s); by destruct s.
  - exists n. split; [lia|]. rewrite <- (app_nil_r l). apply (same_queue_inv s); [done|by destruct s..].
  - exists n. split; [lia|]. pose proof (scheduler_loop_inv s l n now Hinv Hm) as Hs.
    by destruct (loop_step s now) as [s' ev].
Qed.

Lemma scheduler_run_inv ms :
  Forall move_ok ms -> Z.of_nat (length ms) < 2 ^ 62 ->
  exists n, (n <= length ms)%nat /\ inv (run ms).1 (run ms).2 n.
Proof.
  intros Hms Hlen. unfold run. revert Hms Hlen.
  apply (fold_left_inv step (fun st seen => Forall move_ok seen -> Z.of_nat (length seen) < 2 ^ 62 ->
    exists n, (n <= length seen)%nat /\ inv st.1 st.2 n)).
  - intros _ _. exists 0%nat. split; [done|]. apply create_inv.
  - intros [s l] seen m _ IH [Hseen Hm]%Forall_app Hlen. rewrite Forall_singleton in Hm.
    rewrite length_app in Hlen |- *. cbn [length] in Hlen |- *.
    destruct IH as (n & Hn & Hinv); [done|lia|].
    destruct (scheduler_step_inv s l n m Hinv Hm) as (n' & Hn' & Hinv'); [lia|]. exists n'. split; [lia|done].
Qed.

(** The loop takes a task with the least deadline. *)
Lemma fired_earliest s now s' i d now' a :
  loop_step s now = (s', [Fired i d now' a]) -> Forall (fun x => d <= deadline x) (queue_ s).
Proof.
  unfold loop_step. destruct (thread_ s); try done.
  destruct (top_pop deadline (queue_ s)) as [[x rest]|] eqn:Htop; [|done].
  destruct (Z.leb_spec (deadline x) now); [|done]. unfold take_due.
  destruct (cancelled x); [done|]. intros [= _ _ <- _ _].
  destruct (top_pop_cons _ _ _ _ Htop) as [Hp Hmin]. rewrite Hp. constructor; [lia|done].
Qed.

End scheduler.
End Scheduler.

Import Scheduler.

(** ** A queue for the examples: the first least element *)

Fixpoint first_least {A} (key : A -> Z) (l : list A) : option (A * list A) :=
  match l with
  | [] => None
  | x :: l' =>
      match first_least key l' with
      | Some (y, rest) => if key y <? key x then Some (y, x :: rest) else Some (x, l')
      | None => Some (x, l')
      end
  end.

Lemma first_least_cons {A} (key : A -> Z) l x rest :
  first_least key l = Some (x, rest) -> l ≡ₚ x :: rest /\ Forall (fun y => key x <= key y) rest.
Proof.
  revert x rest; induction l as [|z l IH]; intros x rest; [done|]. cbn.
  destruct (first_least key l) as [[y r]|] eqn:E.
  - destruct (IH y r eq_refl) as [Hp Hm]. destruct (Z.ltb_spec (key y) (key z)); intros [= <- <-].
    + split; [rewrite Hp; constructor|]. constructor; [lia|done].
    + split; [done|]. rewrite Hp. constructor; [done|].
      eapply Forall_impl; [exact Hm|]. cbn. lia.
  - intros [= <- <-]. destruct l as [|y l]; [by split|]. cbn in E.
    destruct (first_least key l) as [[? ?]|]; [|done]. by destruct (_ <? _).
Qed.

Lemma first_least_nil {A} (key : A -> Z) l : first_least key l = None <-> l = [].
Proof.
  destruct l as [|x l]; [done|]. split; [|done]. cbn.
  destruct (first_least key l) as [[? ?]|]; [|done]. by destruct (_ <? _).
Qed.

Definition first_least_queue : StdPriorityQueue :=
  {| top_pop := @first_least; top_pop_nil := @first_least_nil; top_pop_cons := @first_least_cons |}.

(** C29. In every history of scheduling calls, calls of [cancel] and steps of
    the loop, whichever of several least tasks the heap gives: the identifiers
    are 1, 2, ...; a task that no call named is fired for the deadlines [d],
    [d + p], [d + 2p], ... one after the other, without drift and never early,
    a one-shot task at most once, and stays queued for the next of them; only
    scheduled tasks are fired, and always one with the least deadline.
    [cancel], whose documentation is to cancel the task and answer whether it
    did, always answers that it did not: no queued task is marked, and the
    tasks named to it are fired like the others. *)
Theorem scheduler_fires_on_schedule {H : StdPriorityQueue} {A} (ms : list (@move A)) :
  Forall move_ok ms -> Z.of_nat (length ms) < 2 ^ 62 ->
  let '(s, l) := run ms in
  let fires_on_schedule i d p a :=
    let n := length (firings i l) in
    firings i l = (fun k => d + Z.of_nat k * p) <$> seq 0 n /\ (p = 0 -> (n <= 1)%nat) /\
    (n = 0%nat \/ p <> 0 -> mkTask i (d + Z.of_nat n * p) p a false ∈ queue_ s) in
  ids l = (fun k => Z.of_nat k + 1) <$> seq 0 (length (ids l)) /\
  (forall i d p a, Scheduled i d p a ∈ l -> (forall answer, Cancelled i answer ∉ l) -> fires_on_schedule i d p a) /\
  (forall i d now a, Fired i d now a ∈ l -> d <= now /\ exists d0 p, Scheduled i d0 p a ∈ l) /\
  (forall now s' i d now' a, loop_step s now = (s', [Fired i d now' a]) ->
    Forall (fun x => d <= deadline x) (queue_ s)) /\
  (forall i answer, Cancelled i answer ∈ l -> answer = false /\
    forall d p a, Scheduled i d p a ∈ l -> fires_on_schedule i d p a).
Proof.
  intros Hms Hlen. destruct (scheduler_run_inv ms Hms Hlen) as (n & Hn & [_ Hids Ht Hk Hf Ha]).
  destruct (run ms) as [s l]. intros fires. cbn [fst snd] in Hids, Ht, Hk, Hf, Ha.
  assert (forall i d p a, Scheduled i d p a ∈ l -> fires i d p a) as Hfires.
  { intros i d p a Hs. destruct (Ht _ _ _ _ Hs) as ((H1 & Honce & H2) & _). unfold fires.
    set (k := length (firings i l)) in *. split_and!; [done..|]. intros Hor.
    rewrite bool_decide_eq_false_2 in H2 by tauto.
    assert (mkTask i (d + Z.of_nat k * p) p a false ∈ entries i (queue_ s)) as Hin by (rewrite H2; by left).
    by apply list_elem_of_filter in Hin as [_ ?]. }
  split_and!.
  - by rewrite Hids, length_fmap, length_seq.
  - intros i d p a Hs _. by apply Hfires.
  - done.
  - intros now s' i d now' a. apply fired_earliest.
  - intros i answer Hc. split; [by eapply Ha|]. intros d p a. apply Hfires.
Qed.

(** A periodic task, a later and an earlier one-shot task, a cancellation
    without effect, and late readings of the clock. *)
Definition busy_moves : list (@move Z) :=
  [Periodic 10 5 0 7; Once 12 0 8; Once 3 1 9; Cancel 2; Start] ++
  concat ((fun now => [Loop now; Loop now; Loop now]) <$> [2; 4; 9; 11; 13; 30; 31; 32; 33; 34]).

(** Task 2 is fired although it was named to [cancel] before it was due. *)
Lemma scheduler_fires_on_schedule_witness :
  let '(s, l) := run (H := first_least_queue) busy_moves in
  firings 1 l = [10; 15; 20; 25; 30] /\ firings 2 l = [12] /\ firings 3 l = [4] /\
  (forall i d p a, Scheduled i d p a ∈ l -> (forall answer, Cancelled i answer ∉ l) ->
    firings i l = (fun k => d + Z.of_nat k * p) <$> seq 0 (length (firings i l))) /\
  (forall answer, Cancelled 2 answer ∈ l -> answer = false).
Proof.
  pose proof (scheduler_fires_on_schedule (H := first_least_queue) busy_moves) as P.
  assert (Forall move_ok busy_moves) as Hok by (repeat constructor; cbn; lia).
  assert (Z.of_nat (length busy_moves) < 2 ^ 62) as Hlen by (vm_compute; reflexivity).
  specialize (P Hok Hlen). destruct (run busy_moves) as [s l] eqn:E.
  assert (l = (run (H := first_least_queue) busy_moves).2) as El by (by rewrite E).
  destruct P as (_ & P2 & _ & _ & P5).
  split; [rewrite El; vm_compute; reflexivity|]. split; [rewrite El; vm_compute; reflexivity|].
  split; [rewrite El; vm_compute; reflexivity|]. split.
  - intros i d p a Hs Hc. apply (P2 i d p a Hs Hc).
  - intros answer Hc. apply (P5 2 answer Hc).
Defined.
