(* ===== verification/EventLoop.v ===== *)
(** * EventLoop (cunk/src/event/EventLoop.cpp)

    Events wait in an [MPMCQueue] and are handed, one at a time, to the
    handlers registered for their type when they are taken up.  Dispatching
    threads, registrations, removals, [stop] and the thread in the loop move
    in any order, handlers that call the loop included. *)

From S2P Require Import Prelude QueueSpec MpmcQueue.

Module EventLoop.
Section loop.
(** Events with the identifier of their type, and handlers. *)
Context {Ev Hd : Type} (type_id : Ev -> Z).

Record HandlerEntry := mkEntry { id : Z; entry_type : Z; handler : Hd }.

Record t := mk {
  queue_ : places Ev;
  handlers_ : list HandlerEntry;
  next_handler_id_ : Z;
  running_ : bool;
  stop_flag_ : bool
}.

Definition create : t := mk no_places [] 1 false false.

Inductive event :=
| Registered (e : HandlerEntry)
| Removed (i : Z)
| Dispatched (ev : Ev)                       (** queued *)
| Dropped (ev : Ev)                          (** refused by the queue *)
| Began (ev : Ev) (hs : list Hd)             (** taken up with these handlers *)
| Invoked (h : Hd) (ev : Ev).

(** ** Registration *)

Definition on_impl (s : t) (ty : Z) (h : Hd) : t * Z * list event :=
  let i := next_handler_id_ s in
  let s := { s with next_handler_id_ := u64 (i + 1) } in
  ({ s with handlers_ ::= fun hs => hs ++ [mkEntry i ty h] }, i, [Registered (mkEntry i ty h)]).

Definition off (s : t) (i : Z) : t * list event :=
  ({ s with handlers_ ::= filter (fun e => id e <> i) }, [Removed i]).

(** ** dispatch *)

(** A dispatching thread, by the operation it executes next. *)
Inductive client :=
| DIdle
| DPush (ev : Ev)
| DPublish (place : nat).

Definition dispatch (ev : option Ev) : client :=
  match ev with Some ev => DPush ev | None => DIdle end.

Definition dispatch_step (s : t) (c : client) (full : bool) : t * client * list event :=
  match c with
  | DIdle => (s, DIdle, [])
  | DPush ev =>
      if full then (s, DIdle, [Dropped ev])
      else ({ s with queue_ ::= fun q => reserve q ev }, DPublish (length (queue_ s).1),
            [Dispatched ev])
  | DPublish place => ({ s with queue_ ::= fun q => publish q place }, DIdle, [])
  end.

(** ** The loop *)

(** [run()], [run_for()] until a deadline, [run_one()]. *)
Inductive mode := Forever | Until (deadline : Z) | Once.

(** The thread in the loop, by the operation it executes next. *)
Inductive thread :=
| LIdle
| LRunning (m : mode)                     (** [running_.store(true)] *)
| LClearStop (m : mode)                   (** [stop_flag_.store(false)] *)
| LCheck (m : mode)
| LPop (m : mode)                         (** [process_one]: [try_pop] *)
| LSnapshot (m : mode) (ev : Ev)          (** the matching handlers are copied *)
| LInvoke (m : mode) (ev : Ev) (hs : list Hd)
| LWait (m : mode)
| LLeave.                                 (** [running_.store(false)] *)

Definition enter (m : mode) : thread := match m with Once => LPop Once | _ => LRunning m end.

Definition matching (ty : Z) (hs : list HandlerEntry) : list Hd :=
  handler <$> filter (fun e => entry_type e = ty) hs.

Definition loop_step (s : t) (p : thread) (now : Z) : t * thread * list event :=
  match p with
  | LIdle => (s, LIdle, [])
  | LRunning m => ({ s with running_ := true }, LClearStop m, [])
  | LClearStop m => ({ s with stop_flag_ := false }, LCheck m, [])
  | LCheck m =>
      let goes_on := negb (stop_flag_ s) &&
                     match m with Until deadline => now <? deadline | _ => true end in
      (s, if goes_on then LPop m else LLeave, [])
  | LPop m =>
      match claim (queue_ s) with
      | Some (ev, q) => ({ s with queue_ := q }, LSnapshot m ev, [])
      | None =>
          (s, match m with
              | Once => LIdle
              | Forever => LWait m
              | Until deadline => if deadline - now <=? 0 then LLeave else LWait m
              end, [])
      end
  | LSnapshot m ev =>
      let hs := matching (type_id ev) (handlers_ s) in (s, LInvoke m ev hs, [Began ev hs])
  | LInvoke m ev [] => (s, match m with Once => LIdle | _ => LCheck m end, [])
  | LInvoke m ev (h :: hs) => (s, LInvoke m ev hs, [Invoked h ev])
  | LWait m => (s, LCheck m, [])
  | LLeave => ({ s with running_ := false }, LIdle, [])
  end.

Definition stop (s : t) : t := { s with stop_flag_ := true }.

Definition pending_events (s : t) : Z := size_of (queue_ s).

(** ** Interleaving *)

Record system := mkSys {
  sys_loop : t;
  sys_clients : nat -> client;
  sys_thread : thread;
  sys_log : list event
}.

Definition start : system := mkSys create (fun _ => DIdle) LIdle [].

Inductive move :=
| On (ty : Z) (h : Hd)
| Off (i : Z)
| Dispatch (i : nat) (ev : option Ev) (full : bool)
| Enter (m : mode)
| Stop
| Loop (now : Z).

Definition step (s : system) (m : move) : system :=
  match m with
  | On ty h => let '(l, _, ev) := on_impl (sys_loop s) ty h in
               mkSys l (sys_clients s) (sys_thread s) (sys_log s ++ ev)
  | Off i => let '(l, ev) := off (sys_loop s) i in
             mkSys l (sys_clients s) (sys_thread s) (sys_log s ++ ev)
  | Dispatch i ev full =>
      match sys_clients s i with
      | DIdle => { s with sys_clients ::= fun cs => set_thread cs i (dispatch ev) }
      | c => let '(l, c, ev) := dispatch_step (sys_loop s) c full in
             mkSys l (set_thread (sys_clients s) i c) (sys_thread s) (sys_log s ++ ev)
      end
  | Enter m => match sys_thread s with LIdle => { s with sys_thread := enter m } | _ => s end
  | Stop => { s with sys_loop ::= stop }
  | Loop now => let '(l, p, ev) := loop_step (sys_loop s) (sys_thread s) now in
                mkSys l (sys_clients s) p (sys_log s ++ ev)
  end.

Definition run (ms : list move) : system := fold_left step ms start.

(** ** What the log says *)

Definition dispatched (l : list event) : list Ev :=
  omap (fun e => match e with Dispatched ev => Some ev | _ => None end) l.

Definition began (l : list event) : list (Ev * list Hd) :=
  omap (fun e => match e with Began ev hs => Some (ev, hs) | _ => None end) l.

Definition invoked (l : list event) : list (Hd * Ev) :=
  omap (fun e => match e with Invoked h ev => Some (h, ev) | _ => None end) l.

(** The handlers registered after a history. *)
Definition registered (l : list event) : list HandlerEntry :=
  fold_left (fun hs e => match e with
                         | Registered e => hs ++ [e]
                         | Removed i => filter (fun e => id e <> i) hs
                         | _ => hs
                         end) l [].

(** Every handler of the events taken up, in order. *)
Definition calls_of (b : Ev * list Hd) : list (Hd * Ev) := (fun h => (h, b.1)) <$> b.2.

Definition calls (l : list event) : list (Hd * Ev) := concat (calls_of <$> began l).

(** What the loop still has to do with the event it holds. *)
Definition in_hand (p : thread) : list Ev := match p with LSnapshot _ ev => [ev] | _ => [] end.

Definition to_call (p : thread) : list (Hd * Ev) :=
  match p with LInvoke _ ev hs => calls_of (ev, hs) | _ => [] end.

Record inv (s : system) : Prop := {
  iv_handlers : handlers_ (sys_loop s) = registered (sys_log s);
  iv_items : (queue_ (sys_loop s)).1.*1 = dispatched (sys_log s);
  iv_order : (began (sys_log s)).*1 ++ in_hand (sys_thread s) =
             take (queue_ (sys_loop s)).2 (dispatched (sys_log s));
  iv_wf : ((queue_ (sys_loop s)).2 <= length (queue_ (sys_loop s)).1)%nat;
  iv_calls : invoked (sys_log s) ++ to_call (sys_thread s) = calls (sys_log s);
  iv_snapshot : forall k ev hs, sys_log s !! k = Some (Began ev hs) ->
    hs = matching (type_id ev) (registered (take k (sys_log s)))
}.

#[local] Arguments dispatched : simpl never.
#[local] Arguments began : simpl never.
#[local] Arguments invoked : simpl never.
#[local] Arguments registered : simpl never.
#[local] Arguments calls : simpl never.

(** ** Preservation *)

Lemma dispatched_app l l' : dispatched (l ++ l') = dispatched l ++ dispatched l'.
Proof. apply omap_app. Qed.

Lemma began_app l l' : began (l ++ l') = began l ++ began l'.
Proof. apply omap_app. Qed.

Lemma invoked_app l l' : invoked (l ++ l') = invoked l ++ invoked l'.
Proof. apply omap_app. Qed.

Lemma calls_app l l' : calls (l ++ l') = calls l ++ calls l'.
Proof. unfold calls. by rewrite began_app, fmap_app, concat_app. Qed.

Lemma registered_snoc l e :
  registered (l ++ [e]) = match e with
                          | Registered e => registered l ++ [e]
                          | Removed i => filter (fun e => id e <> i) (registered l)
                          | _ => registered l
                          end.
Proof. unfold registered. by rewrite fold_left_app. Qed.

(** An event that is not the start of one. *)
Lemma snapshot_app l e :
  (forall k ev hs, l !! k = Some (Began ev hs) -> hs = matching (type_id ev) (registered (take k l))) ->
  (forall ev hs, e = Began ev hs -> hs = matching (type_id ev) (registered l)) ->
  forall k ev hs, (l ++ [e]) !! k = Some (Began ev hs) ->
    hs = matching (type_id ev) (registered (take k (l ++ [e]))).
Proof.
  intros Hl He k ev hs [Hk|[Hge Hk]]%lookup_app_Some.
  - rewrite take_app_le by (apply lookup_lt_Some in Hk; lia). by apply Hl.
  - apply list_lookup_singleton_Some in Hk as [Hk0 Hk]. replace k with (length l) by lia.
    rewrite take_app_length. by apply He.
Qed.

Lemma dispatch_inv s i c full :
  inv s -> sys_clients s i = c ->
  let '(l, c', ev) := dispatch_step (sys_loop s) c full in
  inv (mkSys l (set_thread (sys_clients s) i c') (sys_thread s) (sys_log s ++ ev)).
Proof.
  intros [H1 H2 H3 H4 H5 H6] Hc. destruct s as [[q hs nx r st] cs p l]. cbn in *.
  destruct c as [|ev|place]; cbn [dispatch_step].
  - rewrite app_nil_r. by split.
  - destruct full; split; cbn; rewrite ?registered_snoc, ?dispatched_app, ?began_app, ?invoked_app,
      ?calls_app, ?app_nil_r; try done; try (by apply snapshot_app).
    + rewrite fmap_app, H2. done.
    + rewrite H3, <- H2, take_app_le; [done|]. rewrite length_fmap. lia.
    + rewrite length_app. lia.
  - rewrite app_nil_r. pose proof (publish_items q place) as Hp. split; cbn; try done.
    + unfold publish in Hp. cbn in Hp. by rewrite Hp.
    + by rewrite length_alter.
Qed.

Lemma event_loop_step_inv s now :
  inv s ->
  let '(l, p, ev) := loop_step (sys_loop s) (sys_thread s) now in
  inv (mkSys l (sys_clients s) p (sys_log s ++ ev)).
Proof.
  intros [H1 H2 H3 H4 H5 H6]. destruct s as [[q hs nx r st] cs p l]. cbn in *.
  destruct p as [|m|m|m|m|m ev|m ev [|h hs']|m|]; cbn [loop_step in_hand to_call] in *;
    try (rewrite app_nil_r; by split).
  - rewrite app_nil_r. split; try done; cbn; destruct (_ && _); done.
  - cbn [queue_]. destruct (claim q) as [[ev q']|] eqn:Hq; rewrite app_nil_r.
    + apply claim_Some in Hq as [Hl ->]. split; try done; cbn in *.
      * rewrite app_nil_r in H3. rewrite H3. symmetry. apply take_S_r.
        rewrite <- H2, list_lookup_fmap, Hl. done.
      * by eapply lookup_lt_Some.
    + assert (forall p', in_hand p' = [] -> to_call p' = [] ->
        inv (mkSys (mk q hs nx r st) cs p' l)) as Hgo.
      { intros p' E1 E2. split; cbn; rewrite ?E1, ?E2; done. }
      apply Hgo; destruct m; try done; by destruct (_ <=? 0).
  - split; cbn; rewrite ?registered_snoc, ?dispatched_app, ?began_app, ?invoked_app, ?calls_app, ?app_nil_r;
      try done.
    + rewrite fmap_app. exact H3.
    + rewrite app_nil_r in H5. rewrite H5. f_equal. symmetry. apply app_nil_r.
    + apply snapshot_app; [done|]. intros ev' hs' [= <- <-]. by rewrite <- H1.
  - rewrite app_nil_r. split; try done; cbn; destruct m; done.
  - split; cbn; rewrite ?registered_snoc, ?dispatched_app, ?began_app, ?invoked_app, ?calls_app, ?app_nil_r;
      try done.
    + by rewrite app_nil_r in H3.
    + rewrite <- H5, <- app_assoc. done.
    + by apply snapshot_app.
Qed.

Lemma event_step_inv s m : inv s -> inv (step s m).
Proof.
  intros H. destruct m as [ty h|i|i ev full|m| |now].
  - destruct H as [H1 H2 H3 H4 H5 H6], s as [[q hs nx r st] cs p l]. cbn in *.
    split; cbn; rewrite ?registered_snoc, ?dispatched_app, ?began_app, ?invoked_app, ?calls_app, ?app_nil_r;
      try done; [by rewrite <- H1|by apply snapshot_app].
  - destruct H as [H1 H2 H3 H4 H5 H6], s as [[q hs nx r st] cs p l]. cbn in *.
    split; cbn; rewrite ?registered_snoc, ?dispatched_app, ?began_app, ?invoked_app, ?calls_app, ?app_nil_r;
      try done; [by rewrite <- H1|by apply snapshot_app].
  - unfold step. pose proof (dispatch_inv s i (sys_clients s i) full H eq_refl) as Hstep.
    destruct (sys_clients s i); [|destruct (dispatch_step _ _ _) as [[? ?] ?]; exact Hstep..].
    destruct H, s. by split.
  - unfold step. destruct (sys_thread s) eqn:E; try done. destruct H as [H1 H2 H3 H4 H5 H6], s.
    cbn in *. subst. split; try done; cbn; by destruct m.
  - destruct H as [H1 H2 H3 H4 H5 H6], s as [[q hs nx r st] cs p l]. by split.
  - unfold step. pose proof (event_loop_step_inv s now H) as Hl. by destruct (loop_step _ _ _) as [[? ?] ?].
Qed.

Lemma event_run_inv ms : inv (run ms).
Proof.
  unfold run. apply (fold_left_inv step (fun s _ => inv s)).
  - by split.
  - intros s _ m _. apply event_step_inv.
Qed.

End loop.
End EventLoop.

Import EventLoop.

(** C30. In every interleaving of dispatching threads, registrations,
    removals, [stop] and the loop: the events taken up are the first ones
    queued, in the order of their places, each once; each is handed to
    exactly the handlers that were registered for its type when it was taken
    up, in the order of their registration, one event after the other; what
    is missing is what the loop still has in hand. *)
Theorem event_loop_exact {Ev Hd} (type_id : Ev -> Z) (ms : list (@move Ev Hd)) :
  let s := run type_id ms in
  (began (sys_log s)).*1 ++ in_hand (sys_thread s) =
    take (queue_ (sys_loop s)).2 (dispatched (sys_log s)) /\
  pending_events (sys_loop s) =
    Z.of_nat (length (dispatched (sys_log s))) - Z.of_nat (queue_ (sys_loop s)).2 /\
  invoked (sys_log s) ++ to_call (sys_thread s) = calls (sys_log s) /\
  forall k ev hs, sys_log s !! k = Some (Began ev hs) ->
    hs = matching (type_id ev) (registered (take k (sys_log s))).
Proof.
  intros s. destruct (event_run_inv type_id ms) as [H1 H2 H3 H4 H5 H6]. fold s in H1, H2, H3, H4, H5, H6.
  split_and!; [done| |done..]. unfold pending_events, size_of. by rewrite <- H2, length_fmap.
Qed.

(** Two handlers of one type, one of them removed between two events, and an
    event of a type nobody handles. *)
Example event_loop_run :
  let put i ev := replicate 3 (Dispatch i (Some ev) false) in
  let turn n := replicate n (Loop 0) in
  let s := run (fun ev => ev mod 10)
    ([On 1 "a"; On 2 "b"; On 1 "c"] ++ put 0%nat 11 ++ put 1%nat 3 ++ put 0%nat 21 ++
     [Enter Forever] ++ turn 8%nat ++ [Off 1] ++ turn 10%nat ++ [Stop] ++ turn 5%nat) in
  invoked (sys_log s) = [("a", 11); ("c", 11); ("c", 21)] /\
  sys_thread s = LIdle /\ running_ (sys_loop s) = false.
Proof. vm_compute. done. Qed.

(** A [stop] between the call of [run] and its first stores is overwritten. *)
Theorem early_stop_lost :
  let s := run (fun ev : Z => ev) ([Enter Forever; Loop 0; Stop] ++ replicate 40 (Loop 0 : @move Z Z)) in
  running_ (sys_loop s) = true /\ stop_flag_ (sys_loop s) = false /\ sys_thread s <> LIdle.
Proof. vm_compute. done. Qed.
