(* ===== verification/AsyncTask.v ===== *)
(** * AsyncTask<T> and Promise<T> (cunk/include/concurrency/async/AsyncTask.h)

    Futures with continuations: a promise and its tasks share a state on the
    heap, a continuation holds the promise of the next task.  The states are
    a store, a pointer to a state is its index; each method runs its critical
    section under the mutex of the state and its continuation afterwards, on
    the thread that set the value.  Value types are one type [T]; a callable
    takes its argument by value and returns a value or throws. *)

From S2P Require Import Prelude.

Module AsyncTask.
Section async.
(** The values, what a move leaves of one, and the exceptions. *)
Context {T E : Type} (moved : T -> T).

Definition callable : Type := T -> T + E.

(** [detail::SharedState<T>]: a continuation is the callable and the state of
    the promise it fulfils. *)
Record SharedState := mk {
  value : option T;
  exception : option E;
  ready : bool;
  continuation : option (callable * nat)
}.

#[local] Abbreviation store := (list SharedState).

Definition fresh : SharedState := mk None None false None.

(** [Promise()]: a new state; [get_task] returns a handle on it. *)
Definition new_promise (h : store) : store * nat := (h ++ [fresh], length h).

Definition set_exception (h : store) (p : nat) (ex : E) : store :=
  alter (fun s => { { s with exception := Some ex } with ready := true }) p h.

(** The critical section of [set_value]. *)
Definition store_value (v : T) (s : SharedState) : SharedState :=
  mk (Some v) (exception s) true None.

(** [std::move] of the stored value into a parameter. *)
Definition take_value (s : SharedState) : SharedState :=
  { s with value ::= fmap moved }.

(** [set_value] with the continuations it sets off; each continuation fulfils
    a promise made after the one that runs it. *)
Fixpoint set_value (fuel : nat) (h : store) (p : nat) (v : T) : store :=
  match fuel, h !! p with
  | S fuel, Some s =>
      let h := alter (store_value v) p h in
      match continuation s with
      | None => h
      | Some (f, next) =>
          let h := alter take_value p h in
          match f v with
          | inl u => set_value fuel h next u
          | inr ex => set_exception h next ex
          end
      end
  | _, _ => h
  end.

Definition fulfil (h : store) (p : nat) (v : T) : store := set_value (length h) h p v.

(** [then]: the store and the new task; [None] where the code dereferences an
    empty optional. *)
Definition then_ (h : store) (p : nat) (f : callable) : option (store * nat) :=
  let '(h, next) := new_promise h in
  match h !! p with
  | None => None
  | Some s =>
      if ready s then
        match value s with
        | None => None
        | Some v =>
            let h := alter take_value p h in
            Some (match f v with
                  | inl u => fulfil h next u
                  | inr ex => set_exception h next ex
                  end, next)
        end
      else Some (alter (fun s => { s with continuation := Some (f, next) }) p h, next)
  end.

(** What [get] does. *)
Inductive got := Blocks | Throws (ex : E) | Returns (v : T) | Undefined.

Definition get (h : store) (p : nat) : got :=
  match h !! p with
  | None => Undefined
  | Some s =>
      if ready s then
        match exception s, value s with
        | Some ex, _ => Throws ex
        | None, Some v => Returns v
        | None, None => Undefined
        end
      else Blocks
  end.

(** The state after [get] moved the value out. *)
Definition after_get (h : store) (p : nat) : store :=
  match get h p with Returns _ => alter take_value p h | _ => h end.

Definition is_ready (h : store) (p : nat) : bool :=
  match h !! p with Some s => ready s | None => false end.

(** [p.then(f1).then(f2)...]: the store and the last task. *)
Fixpoint then_all (h : store) (p : nat) (fs : list callable) : option (store * nat) :=
  match fs with
  | [] => Some (h, p)
  | f :: fs => match then_ h p f with Some (h, q) => then_all h q fs | None => None end
  end.

(** What a chain means: the callables applied one after the other, and how
    many of them return. *)
Fixpoint outcome (v : T) (fs : list callable) : T + E :=
  match fs with
  | [] => inl v
  | f :: fs => match f v with inl u => outcome u fs | inr ex => inr ex end
  end.

Fixpoint returned (v : T) (fs : list callable) : nat :=
  match fs with
  | [] => 0%nat
  | f :: fs => match f v with inl u => S (returned u fs) | inr _ => 0%nat end
  end.

(** ** The stores of a chain *)

(** A chain that waits for its value, from the state [i] on. *)
Fixpoint pending (i : nat) (fs : list callable) : store :=
  match fs with
  | [] => [fresh]
  | f :: fs => mk None None false (Some (f, S i)) :: pending (S i) fs
  end.

Definition failed (ex : E) (h : store) : store :=
  match h with
  | s :: h => mk (value s) (Some ex) true (continuation s) :: h
  | [] => []
  end.

(** The same chain after its value was set. *)
Fixpoint resolved (i : nat) (v : T) (fs : list callable) : store :=
  match fs with
  | [] => [mk (Some v) None true None]
  | f :: fs =>
      mk (Some (moved v)) None true None ::
      match f v with
      | inl u => resolved (S i) u fs
      | inr ex => failed ex (pending (S i) fs)
      end
  end.

Lemma pending_length i fs : length (pending i fs) = S (length fs).
Proof. revert i; induction fs as [|f fs IH]; intros i; cbn; [done|]. by rewrite IH. Qed.

Lemma resolved_length i v fs : length (resolved i v fs) = S (length fs).
Proof.
  revert i v; induction fs as [|f fs IH]; intros i v; cbn; [done|]. f_equal.
  destruct (f v); [apply IH|]. destruct fs; cbn; [done|]. by rewrite pending_length.
Qed.

Lemma alter_at {A} (g : A -> A) (pre : list A) x post :
  alter g (length pre) (pre ++ x :: post) = pre ++ g x :: post.
Proof. induction pre as [|y pre IH]; cbn; [done|]. f_equal. exact IH. Qed.

(** Setting the value of a waiting chain. *)
Lemma set_value_pending fuel pre v fs :
  (length fs < fuel)%nat ->
  set_value fuel (pre ++ pending (length pre) fs) (length pre) v =
  pre ++ resolved (length pre) v fs.
Proof.
  revert fuel pre v; induction fs as [|f fs IH]; intros fuel pre v Hf;
    (destruct fuel as [|fuel]; [cbn in Hf; lia|]); cbn [set_value pending resolved].
  - rewrite list_lookup_middle, alter_at by done. done.
  - rewrite list_lookup_middle, !alter_at by done. cbn [continuation].
    assert (forall x r, pre ++ x :: r = (pre ++ [x]) ++ r) as Hcons by (intros; by rewrite <- app_assoc).
    assert (forall x : SharedState, length (pre ++ [x]) = S (length pre)) as Hlen
      by (intros; rewrite length_app; cbn; lia).
    rewrite Hcons, (Hcons _ (match f v with inl _ => _ | inr _ => _ end)).
    set (pre' := pre ++ [_]). rewrite <- (Hlen (take_value (store_value v (mk None None false (Some (f, S (length pre))))))).
    change (pre ++ [_]) with pre'.
    destruct (f v) as [u|ex]; [apply IH; cbn in Hf; lia|].
    unfold set_exception. destruct fs; cbn [pending]; rewrite alter_at; done.
Qed.

(** Building a chain on a state that is not ready. *)
Lemma then_all_pending pre fs gs :
  then_all (pre ++ pending (length pre) fs) (length pre + length fs) gs =
  Some (pre ++ pending (length pre) (fs ++ gs), (length pre + length fs + length gs)%nat).
Proof.
  revert fs; induction gs as [|g gs IH]; intros fs; cbn [then_all].
  - by rewrite app_nil_r, Nat.add_0_r.
  - assert (then_ (pre ++ pending (length pre) fs) (length pre + length fs) g =
      Some (pre ++ pending (length pre) (fs ++ [g]), S (length pre + length fs))) as ->.
    2:{ specialize (IH (fs ++ [g])). rewrite length_app in IH. cbn [length] in IH.
        replace (S (length pre + length fs)) with (length pre + (length fs + 1))%nat by lia.
        rewrite IH, <- app_assoc. cbn [app]. do 2 f_equal. cbn. lia. }
    clear IH. revert pre. induction fs as [|f fs IH]; intros pre; cbn [pending app length].
    + rewrite Nat.add_0_r. unfold then_, new_promise.
      rewrite length_app, <- app_assoc. cbn [app length].
      rewrite list_lookup_middle by done. cbn [ready fresh]. rewrite alter_at. cbn. by rewrite Nat.add_1_r.
    + specialize (IH (pre ++ [mk None None false (Some (f, S (length pre)))])).
      rewrite length_app in IH. cbn [length] in IH. rewrite Nat.add_1_r, <- !app_assoc in IH. cbn [app] in IH.
      by rewrite Nat.add_succ_r.
Qed.

(** A continuation added to a task that has its value. *)
Lemma then_ready pre v f :
  then_ (pre ++ [mk (Some v) None true None]) (length pre) f =
  Some (pre ++ resolved (length pre) v [f], S (length pre)).
Proof.
  unfold then_, new_promise. rewrite length_app, <- app_assoc, Nat.add_1_r. cbn [app length].
  rewrite list_lookup_middle by done. cbn [ready value]. rewrite alter_at. cbn [resolved pending failed].
  set (s := take_value _).
  assert (forall r, pre ++ s :: r = (pre ++ [s]) ++ r) as Hcons by (intros; by rewrite <- app_assoc).
  assert (length (pre ++ [s]) = S (length pre)) as Hlen by (rewrite length_app; cbn; lia).
  rewrite (Hcons [fresh]), <- Hlen. do 2 f_equal. destruct (f v) as [u|ex].
  - unfold fulfil. change [fresh] with (pending (length (pre ++ [s])) []) at 1 2.
    rewrite set_value_pending by (rewrite length_app; cbn; lia). by rewrite <- Hcons.
  - unfold set_exception. rewrite alter_at. by rewrite <- Hcons.
Qed.

(** A continuation added to a task that failed. *)
Lemma then_failed h p f ex :
  h !! p = Some (mk None (Some ex) true None) -> then_ h p f = None.
Proof. intros Hp. unfold then_, new_promise. by rewrite (lookup_app_l_Some _ _ _ _ Hp). Qed.

Lemma then_all_ready pre v fs :
  then_all (pre ++ [mk (Some v) None true None]) (length pre) fs =
  if (S (returned v fs) <? length fs)%nat then None
  else Some (pre ++ resolved (length pre) v fs, (length pre + length fs)%nat).
Proof.
  revert pre v; induction fs as [|f fs IH]; intros pre v; cbn [then_all returned length].
  - by rewrite Nat.add_0_r.
  - rewrite then_ready. cbn [resolved].
    set (s := mk (Some (moved v)) None true None).
    assert (forall r, pre ++ s :: r = (pre ++ [s]) ++ r) as Hcons by (intros; by rewrite <- app_assoc).
    assert (length (pre ++ [s]) = S (length pre)) as Hlen by (rewrite length_app; cbn; lia).
    destruct (f v) as [u|ex].
    + rewrite (Hcons [mk (Some u) None true None]), (Hcons (resolved (S (length pre)) u fs)), <- Hlen, IH.
      rewrite Hlen, Nat.add_succ_r. done.
    + cbn [pending failed]. destruct fs as [|g fs]; cbn [then_all length].
      * cbn. by rewrite Nat.add_1_r.
      * rewrite (then_failed _ _ _ ex); [done|]. rewrite Hcons, <- Hlen. by apply list_lookup_middle.
Qed.

(** The last task of a chain whose value was set. *)
Lemma get_resolved pre v fs :
  get (pre ++ resolved (length pre) v fs) (length pre + length fs) =
  match outcome v fs with
  | inl u => Returns u
  | inr ex => if (S (returned v fs) =? length fs)%nat then Throws ex else Blocks
  end.
Proof.
  revert pre v; induction fs as [|f fs IH]; intros pre v; cbn [resolved outcome returned length].
  - rewrite Nat.add_0_r. unfold get. by rewrite list_lookup_middle.
  - set (s := mk (Some (moved v)) None true None).
    assert (forall r, pre ++ s :: r = (pre ++ [s]) ++ r) as Hcons by (intros; by rewrite <- app_assoc).
    assert (length (pre ++ [s]) = S (length pre)) as Hlen by (rewrite length_app; cbn; lia).
    rewrite Hcons, Nat.add_succ_r, <- Nat.add_succ_l, <- Hlen. destruct (f v) as [u|ex]; [apply IH|].
    unfold get. rewrite lookup_app_r, Nat.add_comm, Nat.add_sub by lia.
    destruct fs as [|g fs]; [done|]. cbn. generalize (S (length (pre ++ [s]))). clear.
    induction fs as [|f fs IH]; intros i; cbn; [done|apply IH].
Qed.

End async.
End AsyncTask.

Import AsyncTask.

(** A chain [p.then(f1).then(f2)...] means the same whether the value is
    set after or before the continuations are attached: when every callable
    returns, both orders reach the same states and the last task returns
    [fn (... (f1 v))]; when the last one throws, the last task throws.  When an
    earlier one throws the orders differ: attached before, the later tasks
    never become ready and [get] blocks; attached after, [then] on the failed
    task dereferences the empty optional. *)
Theorem async_chain {T E} (moved : T -> T) (v : T) (fs : list (callable (E := E))) :
  let '(h0, p) := new_promise [] in
  exists h q, then_all moved h0 p fs = Some (h, q) /\
    let h1 := fulfil moved h p v in
    get h1 q = match outcome v fs with
               | inl u => Returns u
               | inr ex => if (S (returned v fs) =? length fs)%nat then Throws ex else Blocks
               end /\
    then_all moved (fulfil moved h0 p v) p fs =
      if (S (returned v fs) <? length fs)%nat then None else Some (h1, q).
Proof.
  cbn [new_promise app length]. exists (pending 0 fs), (length fs). split.
  - apply (then_all_pending moved [] [] fs).
  - cbn zeta. assert (fulfil moved (pending 0 fs) 0 v = resolved moved 0 v fs) as ->.
    { apply (set_value_pending moved _ [] v fs). rewrite pending_length. lia. }
    split; [apply (get_resolved moved [] v fs)|apply (then_all_ready moved [] v fs)].
Qed.

(** Three continuations, the second of which throws. *)
Example async_chain_throws :
  let inc (n : Z) := if n =? 2 then inr "two" else inl (n + 1) in
  let '(h0, p) := new_promise [] in
  match then_all (fun n => n) h0 p [inc; inc; inc] with
  | Some (h, q) => get (fulfil (fun n => n) h p 1) q = Blocks /\
                   get (fulfil (fun n => n) h p 2) 1 = Throws "two" /\
                   get (fulfil (fun n => n) h p 5) q = Returns 8
  | None => False
  end.
Proof. vm_compute. done. Qed.
