(* ===== verification/Backpressure.v ===== *)
(** * BackpressuredQueue<T> (cunk/include/concurrency/backpressure/BackpressurePolicy.h)

    A push that drops, rejects or retries when the queue is full.  What the
    queue answers to each attempt and what the clock shows at each reading
    are arguments; the attempts and the readings are numbered. *)

From S2P Require Import Prelude.

Inductive BackpressureStrategy := Drop | Block | Reject.

Record BackpressureConfig := mkConfig {
  strategy : BackpressureStrategy;
  block_timeout : Z;   (** microseconds; 0 = for ever *)
  spin_count : nat
}.

Definition default_BackpressureConfig : BackpressureConfig := mkConfig Reject 1000 64.

Module BackpressuredQueue.
Section push.
(** What a move leaves of an item; the answers of [queue_.try_push]; the
    readings of the clock, in microseconds. *)
Context {T : Type} (moved : T -> T) (accepts : nat -> bool) (clock : nat -> Z).

(** A push under way: the number of attempts and readings made, and the local
    [item], which each attempt moves from; or what was enqueued. *)
Inductive state :=
| Trying (attempts readings : nat) (item : T)
| Enqueued (v : T)
| GaveUp.

Definition attempt (st : state) : state :=
  match st with
  | Trying k j item => if accepts k then Enqueued item else Trying (S k) j (moved item)
  | _ => st
  end.

Fixpoint spin (n : nat) (st : state) : state :=
  match n with 0%nat => st | S n => spin n (attempt st) end.

(** [while (now() < deadline)], a reading and an attempt each. *)
Fixpoint yield_until (fuel : nat) (deadline : Z) (st : state) : option state :=
  match st with
  | Trying k j item =>
      match fuel with
      | 0%nat => None
      | S fuel =>
          if clock j <? deadline then yield_until fuel deadline (attempt (Trying k (S j) item))
          else Some GaveUp
      end
  | _ => Some st
  end.

(** [for (;;)] *)
Fixpoint yield_forever (fuel : nat) (st : state) : option state :=
  match st with
  | Trying k j item =>
      match fuel with 0%nat => None | S fuel => yield_forever fuel (attempt st) end
  | _ => Some st
  end.

Definition try_push_or_drop (item : T) : state :=
  match attempt (Trying 0 0 item) with Enqueued v => Enqueued v | _ => GaveUp end.

Definition try_push_blocking (fuel : nat) (config : BackpressureConfig) (item : T) : option state :=
  match spin (spin_count config) (attempt (Trying 0 0 item)) with
  | Trying k j item =>
      if 0 <? block_timeout config
      then yield_until fuel (clock j + block_timeout config) (Trying k (S j) item)
      else yield_forever fuel (Trying k j item)
  | st => Some st
  end.

(** [push]: [None] while the loop goes on. *)
Definition push (fuel : nat) (config : BackpressureConfig) (item : T) : option state :=
  match strategy config with
  | Drop => Some (try_push_or_drop item)
  | Block => try_push_blocking fuel config item
  | Reject => Some (try_push_or_drop item)
  end.

(** ** What is enqueued *)

(** After [k] refused attempts the item was moved from [k] times. *)
Definition state_ok (item : T) (st : state) : Prop :=
  match st with
  | Trying k _ x => x = Nat.iter k moved item /\ forall i, (i < k)%nat -> accepts i = false
  | Enqueued v => exists k, v = Nat.iter k moved item /\ accepts k = true /\
      forall i, (i < k)%nat -> accepts i = false
  | GaveUp => True
  end.

Lemma attempt_ok item st : state_ok item st -> state_ok item (attempt st).
Proof.
  destruct st as [k j x|v|]; [|done..]. intros [-> H]. cbn. destruct (accepts k) eqn:E.
  - by exists k.
  - split; [done|]. intros i Hi. destruct (Nat.eq_dec i k) as [->|]; [done|]. apply H. lia.
Qed.

Lemma spin_ok n item st : state_ok item st -> state_ok item (spin n st).
Proof. revert st; induction n as [|n IH]; intros st H; [done|]. by apply IH, attempt_ok. Qed.

Lemma yield_until_ok fuel deadline item st st' :
  state_ok item st -> yield_until fuel deadline st = Some st' -> state_ok item st'.
Proof.
  revert st; induction fuel as [|fuel IH]; intros [k j x|v|] H; cbn [yield_until]; try done; try (by intros [= <-]).
  destruct (clock j <? deadline); [|by intros [= <-]]. by apply IH, attempt_ok.
Qed.

Lemma yield_forever_ok fuel item st st' :
  state_ok item st -> yield_forever fuel st = Some st' -> state_ok item st'.
Proof.
  revert st; induction fuel as [|fuel IH]; intros [k j x|v|] H; cbn [yield_forever]; try done; try (by intros [= <-]).
  by apply IH, attempt_ok.
Qed.

(** ** The loops end *)

(** A timed loop ends once the clock shows the deadline. *)
Lemma yield_until_ends fuel deadline k j item :
  (exists n, (n < fuel)%nat /\ deadline <= clock (j + n)) ->
  exists st, yield_until fuel deadline (Trying k j item) = Some st.
Proof.
  revert k j item; induction fuel as [|fuel IH]; intros k j item (n & Hn & Hc); [lia|]. cbn [yield_until].
  destruct (Z.ltb_spec (clock j) deadline) as [Hlt|]; [|eauto].
  destruct n as [|n]; [rewrite Nat.add_0_r in Hc; lia|]. cbn [attempt].
  destruct (accepts k); [destruct fuel; cbn; eauto|]. apply IH. exists n.
  split; [lia|]. by rewrite Nat.add_succ_l, <- Nat.add_succ_r.
Qed.

Lemma yield_forever_ends fuel k j item :
  (exists n, (n < fuel)%nat /\ accepts (k + n) = true) ->
  exists st, yield_forever fuel (Trying k j item) = Some st.
Proof.
  revert k item; induction fuel as [|fuel IH]; intros k item (n & Hn & Hc); [lia|].
  cbn [yield_forever attempt].
  destruct (accepts k) eqn:E; [destruct fuel; cbn; eauto|]. apply IH.
  destruct n as [|n]; [rewrite Nat.add_0_r in Hc; congruence|]. exists n.
  split; [lia|]. by rewrite Nat.add_succ_l, <- Nat.add_succ_r.
Qed.

Lemma spin_enqueued n v : spin n (Enqueued v) = Enqueued v.
Proof. induction n as [|n IH]; [done|exact IH]. Qed.

Lemma spin_attempts n k j item :
  match spin n (Trying k j item) with Trying k' j' _ => k' = (k + n)%nat /\ j' = j | _ => True end.
Proof.
  revert k item; induction n as [|n IH]; intros k item; cbn [spin attempt]; [by rewrite Nat.add_0_r|].
  destruct (accepts k).
  - by rewrite spin_enqueued.
  - specialize (IH (S k) (moved item)). destruct (spin n _); [|done..]. by rewrite Nat.add_succ_r.
Qed.

End push.
End BackpressuredQueue.

Import BackpressuredQueue.

(** A push enqueues, if anything, what the refused attempts before the first
    accepted one have left of the item: only an item accepted at once arrives
    as it was passed. *)
Theorem push_enqueues_what_is_left {T} (moved : T -> T) accepts clock fuel config item v :
  push moved accepts clock fuel config item = Some (Enqueued v) ->
  exists k, v = Nat.iter k moved item /\ accepts k = true /\ forall i, (i < k)%nat -> accepts i = false.
Proof.
  assert (state_ok moved accepts item (attempt moved accepts (Trying 0 0 item))) as H0.
  { apply attempt_ok. split; [done|lia]. }
  assert (try_push_or_drop moved accepts item = Enqueued v ->
    state_ok moved accepts item (Enqueued v)) as Hdrop.
  { unfold try_push_or_drop. destruct (attempt _ _ _) as [| |]; [done| |done]. by intros [= <-]. }
  unfold push. destruct (strategy config); [intros [= H]; by apply Hdrop| |intros [= H]; by apply Hdrop].
  unfold try_push_blocking. pose proof (spin_ok moved accepts (spin_count config) item _ H0) as Hs.
  destruct (spin _ _ _ _) as [k j x|x|]; [|by intros [= <-]|done].
  destruct (0 <? block_timeout config).
  - apply (yield_until_ok _ _ _ _ _ item (Trying k (S j) x) (Enqueued v) Hs).
  - apply (yield_forever_ok _ _ _ item (Trying k j x) (Enqueued v) Hs).
Qed.

(** A blocking push returns: once the clock reaches the deadline, or, without
    a timeout, once the queue accepts. *)
Theorem blocking_push_returns {T} (moved : T -> T) accepts clock config item n :
  (if 0 <? block_timeout config then clock 0%nat + block_timeout config <= clock (S n)
   else accepts (S (spin_count config) + n)%nat = true) ->
  exists st, push moved accepts clock (S n) config item = Some st.
Proof.
  intros Hend. unfold push. destruct (strategy config); [eauto| |eauto]. unfold try_push_blocking.
  cbn [attempt]. destruct (accepts 0%nat).
  - rewrite spin_enqueued. eauto.
  - pose proof (spin_attempts moved accepts (spin_count config) 1 0 (moved item)) as Hs.
    destruct (spin _ _ _ _) as [k j x|x|]; [|eauto..]. destruct Hs as [-> ->].
    destruct (0 <? block_timeout config).
    + apply yield_until_ends. exists n. split; [lia|]. exact Hend.
    + apply yield_forever_ends. exists n. split; [lia|]. exact Hend.
Qed.

(** A full queue that has room at the second attempt takes an empty item. *)
Example retry_enqueues_empty :
  push (fun _ : option Z => None) (fun k => (1 <=? k)%nat) (fun _ => 0) 10 (mkConfig Block 1000 64) (Some 7) =
  Some (Enqueued None).
Proof. reflexivity. Qed.
