(* ===== verification/Metrics.v ===== *)
(** * Metrics (cunk/include/concurrency/metrics/Metrics.h)

    Counters, gauges and the latency tracker, whose [record] is a sequence of
    atomic operations: any number of threads record at the same time, a step
    per operation, and the weak compare-exchange may fail for no reason. *)

From S2P Require Import Prelude Double.

Module Counter.

Definition increment (value n : Z) : Z := u64 (value + n).
Definition reset (value : Z) : Z := 0.

End Counter.

Module Gauge.

Definition set (value v : Z) : Z := v.
Definition increment (value n : Z) : Z := i64 (value + n).
Definition decrement (value n : Z) : Z := i64 (value - n).

End Gauge.

Module LatencyTracker.

Record t := mk { count_ : Z; min_ns_ : Z; max_ns_ : Z; sum_ns_ : Z }.

Definition create : t := mk 0 INT64_MAX 0 0.

Definition reset (l : t) : t := mk 0 INT64_MAX 0 0.

(** A thread in [record], by the operation it executes next. *)
Inductive thread :=
| Idle
| Count (ns : Z)               (** [count_.fetch_add] *)
| Sum (ns : Z)                 (** [sum_ns_.fetch_add] *)
| MinLoad (ns : Z)             (** [min_ns_.load] *)
| MinCas (ns cur_min : Z)      (** the test and [compare_exchange_weak] *)
| MaxLoad (ns : Z)
| MaxCas (ns cur_max : Z).

Definition record_step (l : t) (p : thread) (weak_fails : bool) : t * thread :=
  match p with
  | Idle => (l, Idle)
  | Count ns => ({ l with count_ ::= fun c => u64 (c + 1) }, Sum ns)
  | Sum ns => ({ l with sum_ns_ ::= fun s => i64 (s + ns) }, MinLoad ns)
  | MinLoad ns => (l, MinCas ns (min_ns_ l))
  | MinCas ns cur =>
      if ns <? cur then
        if negb weak_fails && (min_ns_ l =? cur) then ({ l with min_ns_ := ns }, MaxLoad ns)
        else (l, MinCas ns (min_ns_ l))
      else (l, MaxLoad ns)
  | MaxLoad ns => (l, MaxCas ns (max_ns_ l))
  | MaxCas ns cur =>
      if ns >? cur then
        if negb weak_fails && (max_ns_ l =? cur) then ({ l with max_ns_ := ns }, Idle)
        else (l, MaxCas ns (max_ns_ l))
      else (l, Idle)
  end.

Record Snapshot := mkSnapshot { count : Z; min_ns : Z; max_ns : Z; sum_ns : Z }.

Definition snapshot (l : t) : Snapshot := mkSnapshot (count_ l) (min_ns_ l) (max_ns_ l) (sum_ns_ l).

Definition avg_ns (s : Snapshot) : double :=
  if count s >? 0 then ddiv (d_of_Z (sum_ns s)) (d_of_Z (count s)) else d_of_Z 0.

(** ** Interleaving *)

Record system := mkSys {
  sys_tracker : t;
  sys_threads : list thread;
  sys_samples : list Z   (** every sample whose [record] began *)
}.

Definition start (threads : nat) : system := mkSys create (replicate threads Idle) [].

(** A thread moves; an idle one calls [record] with the sample. *)
Record move := mkMove { who : nat; sample : Z; weak_fails : bool }.

Definition step (s : system) (m : move) : system :=
  match sys_threads s !! who m with
  | None => s
  | Some Idle => mkSys (sys_tracker s) (<[who m := Count (sample m)]> (sys_threads s))
                       (sys_samples s ++ [sample m])
  | Some p => let '(l, p) := record_step (sys_tracker s) p (weak_fails m) in
              mkSys l (<[who m := p]> (sys_threads s)) (sys_samples s)
  end.

Definition run (threads : nat) (ms : list move) : system := fold_left step ms (start threads).

(** ** The invariant *)

(** What a thread has still to add. *)
Definition to_count (p : thread) : Z := match p with Count _ => 1 | _ => 0 end.
Definition to_sum (p : thread) : Z := match p with Count ns | Sum ns => ns | _ => 0 end.

(** The sample a thread has not brought to the minimum, to the maximum. *)
Definition before_min (p : thread) (x : Z) : Prop :=
  match p with Count ns | Sum ns | MinLoad ns | MinCas ns _ => ns = x | _ => False end.
Definition before_max (p : thread) (x : Z) : Prop :=
  match p with
  | Idle => False
  | Count ns | Sum ns | MinLoad ns | MinCas ns _ | MaxLoad ns | MaxCas ns _ => ns = x
  end.

Definition thread_ok (l : t) (xs : list Z) (p : thread) : Prop :=
  (forall x, before_max p x -> x ∈ xs) /\
  match p with MinCas _ cur => min_ns_ l <= cur | MaxCas _ cur => cur <= max_ns_ l | _ => True end.

Record inv (s : system) : Prop := {
  iv_count : count_ (sys_tracker s) = u64 (Z.of_nat (length (sys_samples s)) - sum_by to_count (sys_threads s));
  iv_sum : sum_ns_ (sys_tracker s) = i64 (Zsum (sys_samples s) - sum_by to_sum (sys_threads s));
  iv_min : min_ns_ (sys_tracker s) = INT64_MAX \/ min_ns_ (sys_tracker s) ∈ sys_samples s;
  iv_max : max_ns_ (sys_tracker s) = 0 \/ max_ns_ (sys_tracker s) ∈ sys_samples s;
  iv_below : forall x, x ∈ sys_samples s -> min_ns_ (sys_tracker s) <= x \/
    exists i p, sys_threads s !! i = Some p /\ before_min p x;
  iv_above : forall x, x ∈ sys_samples s -> x <= max_ns_ (sys_tracker s) \/
    exists i p, sys_threads s !! i = Some p /\ before_max p x;
  iv_threads : forall i p, sys_threads s !! i = Some p -> thread_ok (sys_tracker s) (sys_samples s) p
}.

(** A thread that keeps its sample keeps it for the others too. *)
Lemma waiting_upd (P : thread -> Z -> Prop) (ps : list thread) i p p' x :
  ps !! i = Some p -> (P p x -> P p' x) ->
  (exists j q, ps !! j = Some q /\ P q x) -> exists j q, <[i := p']> ps !! j = Some q /\ P q x.
Proof.
  intros Hi HP (j & q & Hj & Hq). destruct (Nat.eq_dec j i) as [->|Hne].
  - exists i, p'. rewrite list_lookup_insert_eq by by eapply lookup_lt_Some. split; [done|].
    apply HP. congruence.
  - exists j, q. by rewrite list_lookup_insert_ne.
Qed.

(** A step of a thread: the tracker moves its extremes outwards, and the
    thread gives up its sample only when the extreme covers it. *)
Lemma advance_inv l l' ps xs i p p' :
  inv (mkSys l ps xs) -> ps !! i = Some p ->
  count_ l' = u64 (count_ l + to_count p - to_count p') ->
  sum_ns_ l' = i64 (sum_ns_ l + to_sum p - to_sum p') ->
  min_ns_ l' <= min_ns_ l -> max_ns_ l <= max_ns_ l' ->
  (min_ns_ l' = min_ns_ l \/ min_ns_ l' ∈ xs) -> (max_ns_ l' = max_ns_ l \/ max_ns_ l' ∈ xs) ->
  (forall x, before_min p x -> before_min p' x \/ min_ns_ l' <= x) ->
  (forall x, before_max p x -> before_max p' x \/ x <= max_ns_ l') ->
  thread_ok l' xs p' -> inv (mkSys l' (<[i := p']> ps) xs).
Proof.
  intros [Hc Hs Hm HM Hb Ha Ht] Hi Ec Es Hmin Hmax Hm' HM' Hbm HbM Hok. cbn in *.
  split; cbn.
  - rewrite (sum_by_insert _ _ i p), Ec, Hc by done.
    replace (u64 _ + to_count p - to_count p') with
      (u64 (Z.of_nat (length xs) - sum_by to_count ps) + (to_count p - to_count p')) by lia.
    rewrite u64_add_l. f_equal. lia.
  - rewrite (sum_by_insert _ _ i p), Es, Hs by done.
    replace (i64 _ + to_sum p - to_sum p') with
      (i64 (Zsum xs - sum_by to_sum ps) + (to_sum p - to_sum p')) by lia.
    rewrite i64_add_l. f_equal. lia.
  - destruct Hm' as [->|]; [done|by right].
  - destruct HM' as [->|]; [done|by right].
  - intros x Hx. destruct (Hb x Hx) as [?|Hex]; [left; lia|].
    destruct (Z.le_gt_cases (min_ns_ l') x) as [|Hgt]; [by left|right].
    eapply (waiting_upd before_min); [done| |done]. intros Hp. destruct (Hbm x Hp); [done|lia].
  - intros x Hx. destruct (Ha x Hx) as [?|Hex]; [left; lia|].
    destruct (Z.le_gt_cases x (max_ns_ l')) as [|Hgt]; [by left|right].
    eapply (waiting_upd before_max); [done| |done]. intros Hp. destruct (HbM x Hp); [done|lia].
  - intros j q [[-> ->]|[Hne Hj]]%insert_lookup_cases; [done|]. destruct (Ht j q Hj) as [H1 H2].
    split; [done|]. destruct q; try done; lia.
Qed.

(** [advance_inv] with what most steps leave unchanged. *)
Lemma keep_inv l l' ps xs i p p' :
  inv (mkSys l ps xs) -> ps !! i = Some p ->
  count_ l' = u64 (count_ l + to_count p - to_count p') ->
  sum_ns_ l' = i64 (sum_ns_ l + to_sum p - to_sum p') ->
  min_ns_ l' = min_ns_ l -> max_ns_ l' = max_ns_ l ->
  (forall x, before_min p x -> before_min p' x \/ min_ns_ l <= x) ->
  (forall x, before_max p x -> before_max p' x \/ x <= max_ns_ l) ->
  thread_ok l' xs p' -> inv (mkSys l' (<[i := p']> ps) xs).
Proof.
  intros H Hi Hc Hs Hm HM Hb Ha Hok. eapply advance_inv; try done; rewrite ?Hm, ?HM; try done; by left.
Qed.

Lemma record_step_inv l ps xs i p weak :
  inv (mkSys l ps xs) -> ps !! i = Some p -> p <> Idle ->
  let '(l', p') := record_step l p weak in inv (mkSys l' (<[i := p']> ps) xs).
Proof.
  intros H Hi Hne. destruct (iv_threads _ H i p Hi) as [Hin Hcur]. cbn in Hin, Hcur.
  pose proof (iv_count _ H) as Hc. pose proof (iv_sum _ H) as Hs. cbn in Hc, Hs.
  assert (forall n, n = 0 -> count_ l = u64 (count_ l + n - n)) as Huc.
  { intros n ->. rewrite Z.add_0_r, Z.sub_0_r, Hc. symmetry. apply u64_id, u64_range. }
  assert (forall n, sum_ns_ l = i64 (sum_ns_ l + n - n)) as Hic.
  { intros n. rewrite Z.add_simpl_r, Hs. symmetry. apply i64_i64. }
  assert (forall p', (forall x, before_max p' x -> before_max p x) ->
    match p' with MinCas _ cur => min_ns_ l <= cur | MaxCas _ cur => cur <= max_ns_ l | _ => True end ->
    thread_ok l xs p') as Hok.
  { intros p' Hp' Hcur'. split; [|done]. intros x Hx. by apply Hin, Hp'. }
  destruct p as [|ns|ns|ns|ns cur|ns|ns cur]; [done|..]; cbn [record_step].
  - eapply keep_inv; [done|done|by destruct l; cbn; f_equal; lia|by destruct l; apply Hic|by destruct l..| | |];
      [by left|by left|]. destruct l. by apply Hok.
  - eapply keep_inv; [done|done|by destruct l; apply (Huc 0)|by destruct l; cbn; f_equal; lia|by destruct l..| | |];
      [by left|by left|]. destruct l. by apply Hok.
  - eapply keep_inv; [done|done|by apply (Huc 0)|by apply (Hic 0)|done..| | |]; [by left|by left|]. by apply Hok.
  - destruct (Z.ltb_spec ns cur); [destruct (negb weak && _) eqn:E|].
    + apply andb_true_iff in E as [_ E%Z.eqb_eq]. subst cur.
      eapply advance_inv; [done|done|by destruct l; apply (Huc 0)|by destruct l; apply (Hic 0)|..];
        destruct l; cbn in *; try lia; try (by left).
      * right. by apply Hin.
      * split; [done|done].
    + eapply keep_inv; [done|done|by apply (Huc 0)|by apply (Hic 0)|done..| | |]; [by left|by left|]. by apply Hok.
    + eapply keep_inv; [done|done|by apply (Huc 0)|by apply (Hic 0)|done..| | |]; [|by left|by apply Hok].
      intros x <-. right. lia.
  - eapply keep_inv; [done|done|by apply (Huc 0)|by apply (Hic 0)|done..| | |]; [by left|by left|]. by apply Hok.
  - rewrite Z.gtb_ltb. destruct (Z.ltb_spec cur ns); [destruct (negb weak && _) eqn:E|].
    + apply andb_true_iff in E as [_ E%Z.eqb_eq]. subst cur.
      eapply advance_inv; [done|done|by destruct l; apply (Huc 0)|by destruct l; apply (Hic 0)|..];
        destruct l; cbn in *; try lia; try (by left); try done.
      * right. by apply Hin.
    + eapply keep_inv; [done|done|by apply (Huc 0)|by apply (Hic 0)|done..| | |]; [by left|by left|]. by apply Hok.
    + eapply keep_inv; [done|done|by apply (Huc 0)|by apply (Hic 0)|done..| | |]; [by left| |by apply Hok].
      intros x <-. right. lia.
Qed.

Lemma begin_inv l ps xs i ns :
  inv (mkSys l ps xs) -> ps !! i = Some Idle -> inv (mkSys l (<[i := Count ns]> ps) (xs ++ [ns])).
Proof.
  intros [Hc Hs Hm HM Hb Ha Ht] Hi. cbn in *. pose proof (lookup_lt_Some _ _ _ Hi).
  assert (forall (P : thread -> Z -> Prop) x,
    (exists j q, ps !! j = Some q /\ P q x) -> (P Idle x -> P (Count ns) x) ->
    exists j q, <[i := Count ns]> ps !! j = Some q /\ P q x) as Hw.
  { intros P x Hex HP. by eapply waiting_upd. }
  assert (<[i := Count ns]> ps !! i = Some (Count ns)) as Hnew by by rewrite list_lookup_insert_eq.
  split; cbn.
  - rewrite (sum_by_insert _ _ i Idle), length_app by done. rewrite Hc. f_equal. cbn. lia.
  - rewrite (sum_by_insert _ _ i Idle), Zsum_app by done. rewrite Hs. f_equal. cbn. lia.
  - destruct Hm as [|]; [by left|right]. apply elem_of_app. by left.
  - destruct HM as [|]; [by left|right]. apply elem_of_app. by left.
  - intros x [Hx|Hx%list_elem_of_singleton]%elem_of_app; [|right; subst; by exists i, (Count ns)].
    destruct (Hb x Hx) as [|Hex]; [by left|right]. by apply (Hw before_min).
  - intros x [Hx|Hx%list_elem_of_singleton]%elem_of_app; [|right; subst; by exists i, (Count ns)].
    destruct (Ha x Hx) as [|Hex]; [by left|right]. by apply (Hw before_max).
  - intros j q [[-> ->]|[Hne Hj]]%insert_lookup_cases.
    + split; [|done]. intros x <-. apply elem_of_app. right. by apply list_elem_of_singleton.
    + destruct (Ht j q Hj) as [H1 H2]. split; [|done]. intros x Hx. apply elem_of_app. left. by apply H1.
Qed.

Lemma latency_run_inv threads ms : inv (run threads ms).
Proof.
  unfold run. apply (fold_left_inv step (fun s _ => inv s)).
  - assert (forall f : thread -> Z, f Idle = 0 -> sum_by f (replicate threads Idle) = 0) as Hz.
    { intros f Hf. induction threads as [|k IH]; [done|]. cbn. by rewrite sum_by_cons, Hf, IH. }
    split; cbn; rewrite ?Hz by done; try done; try (by left).
    + intros x Hx. by apply not_elem_of_nil in Hx.
    + intros x Hx. by apply not_elem_of_nil in Hx.
    + intros i p [-> _]%lookup_replicate. done.
  - intros [l ps xs] _ m _ H. unfold step. cbn [sys_threads sys_tracker sys_samples].
    destruct (ps !! who m) as [p|] eqn:Hi; [|done].
    pose proof (record_step_inv l ps xs (who m) p (weak_fails m) H Hi) as Hr.
    destruct p; [by apply begin_inv|destruct (record_step _ _ _) as [l' p']; by apply Hr..].
Qed.

End LatencyTracker.

Import LatencyTracker.

(** Under every interleaving of recording threads: the tracker's extremes are
    samples (or the initial values), and once every [record] has returned it
    holds the exact count, sum, minimum and maximum of all the samples, up to
    the wrap of 64 bits. *)
Theorem latency_tracker_exact threads ms :
  let s := run threads ms in
  let xs := sys_samples s in
  let l := snapshot (sys_tracker s) in
  (min_ns l = INT64_MAX \/ min_ns l ∈ xs) /\ (max_ns l = 0 \/ max_ns l ∈ xs) /\
  (Forall (fun p => p = Idle) (sys_threads s) ->
    count l = u64 (Z.of_nat (length xs)) /\ sum_ns l = i64 (Zsum xs) /\
    Forall (fun x => min_ns l <= x <= max_ns l) xs).
Proof.
  intros s xs l. destruct (latency_run_inv threads ms) as [Hc Hs Hm HM Hb Ha Ht]. fold s in Hc, Hs, Hm, HM, Hb, Ha.
  split_and!; [done..|]. intros Hidle.
  assert (forall f : thread -> Z, f Idle = 0 -> sum_by f (sys_threads s) = 0) as Hz.
  { intros f Hf. clear -Hidle Hf. induction (sys_threads s) as [|p ps IH]; [done|].
    apply Forall_cons in Hidle as [-> Hidle]. rewrite sum_by_cons, Hf, IH by done. done. }
  rewrite !Hz, Z.sub_0_r in * by done. rewrite Forall_lookup in Hidle. split_and!; [done..|].
  apply Forall_forall. intros x Hx. split.
  - destruct (Hb x Hx) as [|(i & p & Hi & Hp)]; [done|]. rewrite (Hidle _ _ Hi) in Hp. destruct Hp.
  - destruct (Ha x Hx) as [|(i & p & Hi & Hp)]; [done|]. rewrite (Hidle _ _ Hi) in Hp. destruct Hp.
Qed.

(** Two threads that race for the minimum and the maximum. *)
Example latency_tracker_run :
  let s := run 2 (concat (replicate 9 [mkMove 0 50 false; mkMove 1 20 true; mkMove 1 20 false])) in
  let l := sys_tracker s in
  (count_ l, min_ns_ l, max_ns_ l) = (5, 20, 50).
Proof. vm_compute. done. Qed.
