(* ===== verification/Lexer.v ===== *)
(** * The lexer of the kaleidoscope compiler (kaleidoscope/src/Lexer.cpp)

    [gettok] with its static look-ahead character, the two globals it fills
    and the standard input as the characters still to come.  The loops read a
    character each; a comment restarts the function, which is the recursion
    the fuel bounds.

    The reference definition is a grammar, [spelled]: blanks and tokens in
    turn, each token as long as the characters allow. *)

From S2P Require Import Prelude Double CppString.

Module Lexer.

(** [enum Token] *)
Definition EOF : Z := -1.
Definition tok_eof : Z := -1.
Definition tok_def : Z := -2.
Definition tok_extern : Z := -3.
Definition tok_identifier : Z := -4.
Definition tok_number : Z := -5.

Record t := mk {
  input : str;            (** what [getchar] has not returned *)
  LastChar : Z;           (** [static int LastChar] *)
  IdentifierStr : str;
  NumVal : double
}.

Definition initial (s : str) : t := mk s 32 [] (S754_zero false).

(** ** Character classes, on [int], in the "C" locale *)

Definition is_space (c : Z) : bool := (c =? 32) || ((9 <=? c) && (c <=? 13)).
Definition is_alpha (c : Z) : bool :=
  ((65 <=? c) && (c <=? 90)) || ((97 <=? c) && (c <=? 122)).
Definition is_num (c : Z) : bool := (48 <=? c) && (c <=? 57).
Definition is_alnum (c : Z) : bool := is_alpha c || is_num c.

(** [isdigit(LastChar) || LastChar == '.'] *)
Definition in_number (c : Z) : bool := is_num c || (c =? 46).
Definition is_newline (c : Z) : bool := (c =? 10) || (c =? 13).

(** ** The loops *)

Definition getchar (s : str) : Z * str :=
  match s with [] => (EOF, []) | c :: s => (code c, s) end.

Fixpoint skip_whitespace (last : Z) (s : str) : Z * str :=
  if is_space last then
    match s with [] => (EOF, []) | c :: s => skip_whitespace (code c) s end
  else (last, s).

Fixpoint read_identifier (acc : str) (s : str) : str * Z * str :=
  match s with
  | [] => (acc, EOF, [])
  | c :: s => if is_alnum (code c) then read_identifier (acc ++ [c]) s else (acc, code c, s)
  end.

Fixpoint read_number (acc : str) (last : Z) (s : str) : str * Z * str :=
  match s with
  | [] => (acc ++ [chr last], EOF, [])
  | c :: s =>
      if in_number (code c) then read_number (acc ++ [chr last]) (code c) s
      else (acc ++ [chr last], code c, s)
  end.

Fixpoint skip_comment (s : str) : Z * str :=
  match s with
  | [] => (EOF, [])
  | c :: s => if is_newline (code c) then (code c, s) else skip_comment s
  end.

(** ** gettok *)

Definition identifier_token (name : str) : Z :=
  if bool_decide (name = lit "def") then tok_def
  else if bool_decide (name = lit "extern") then tok_extern
  else tok_identifier.

Fixpoint gettok (fuel : nat) (st : t) : option (Z * t) :=
  match fuel with
  | O => None
  | S fuel =>
      let '(last, s) := skip_whitespace (LastChar st) (input st) in
      if is_alpha last then
        let '(name, last, s) := read_identifier [chr last] s in
        Some (identifier_token name, mk s last name (NumVal st))
      else if in_number last then
        let '(text, last, s) := read_number [] last s in
        Some (tok_number, mk s last (IdentifierStr st) (strtod text))
      else if last =? 35 then
        let '(last, s) := skip_comment s in
        if negb (last =? EOF) then gettok fuel (mk s last (IdentifierStr st) (NumVal st))
        else Some (tok_eof, mk s last (IdentifierStr st) (NumVal st))
      else if last =? EOF then Some (tok_eof, mk s last (IdentifierStr st) (NumVal st))
      else
        let '(next, s) := getchar s in
        Some (last, mk s next (IdentifierStr st) (NumVal st))
  end.

(** ** The tokens of an input *)

(** What a caller reads of a token: its code, and the global that goes with
    it. *)
Inductive lexeme :=
| LDef | LExtern
| LIdentifier (name : str)
| LNumber (value : double)
| LChar (c : Z).

Definition lexeme_of (tok : Z) (st : t) : lexeme :=
  if tok =? tok_def then LDef
  else if tok =? tok_extern then LExtern
  else if tok =? tok_identifier then LIdentifier (IdentifierStr st)
  else if tok =? tok_number then LNumber (NumVal st)
  else LChar tok.

(** Calls of [gettok] until it returns [tok_eof]. *)
Fixpoint lex (fuel : nat) (st : t) : option (list lexeme) :=
  match fuel with
  | O => None
  | S fuel =>
      match gettok (S fuel) st with
      | None => None
      | Some (tok, st) =>
          if tok =? tok_eof then Some []
          else match lex fuel st with None => None | Some ls => Some (lexeme_of tok st :: ls) end
      end
  end.

(** ** The grammar *)

Inductive token :=
| TDef | TExtern
| TIdentifier (name : str)
| TNumber (text : str)
| TChar (c : ascii).

Definition spelling (k : token) : str :=
  match k with
  | TDef => lit "def"
  | TExtern => lit "extern"
  | TIdentifier name => name
  | TNumber text => text
  | TChar c => [c]
  end.

Definition meaning (k : token) : lexeme :=
  match k with
  | TDef => LDef
  | TExtern => LExtern
  | TIdentifier name => LIdentifier name
  | TNumber text => LNumber (strtod text)
  | TChar c => LChar (code c)
  end.

(** The characters that would make a token longer. *)
Definition extends (k : token) (c : ascii) : bool :=
  match k with
  | TDef | TExtern | TIdentifier _ => is_alnum (code c)
  | TNumber _ => in_number (code c)
  | TChar _ => false
  end.

Definition special (c : ascii) : bool :=
  is_space (code c) || is_alpha (code c) || in_number (code c) || (code c =? 35).

Definition valid (k : token) : Prop :=
  match k with
  | TDef | TExtern => True
  | TIdentifier name =>
      (exists c s, name = c :: s /\ is_alpha (code c) /\ Forall (fun c => is_alnum (code c)) s) /\
      name <> lit "def" /\ name <> lit "extern"
  | TNumber text => text <> [] /\ Forall (fun c => in_number (code c)) text
  | TChar c => special c = false
  end.

(** White space and comments. *)
Inductive blank : str -> Prop :=
| blank_nil : blank []
| blank_space c s : is_space (code c) -> blank s -> blank (c :: s)
| blank_comment body nl s :
    Forall (fun c => is_newline (code c) = false) body -> is_newline (code nl) -> blank s ->
    blank ("#"%char :: body ++ nl :: s).

(** What [s] does not begin with. *)
Definition starts_no (p : ascii -> bool) (s : str) : Prop :=
  match s with [] => True | c :: _ => p c = false end.

Inductive spelled : list token -> str -> Prop :=
| spelled_end b : blank b -> spelled [] b
| spelled_open_comment b body :
    blank b -> Forall (fun c => is_newline (code c) = false) body -> spelled [] (b ++ "#"%char :: body)
| spelled_token b k ks rest :
    blank b -> valid k -> starts_no (extends k) rest -> spelled ks rest ->
    spelled (k :: ks) (b ++ spelling k ++ rest).

(** ** The loops on what is left to read *)

Lemma code_range c : 0 <= code c < 256.
Proof.
  unfold code. pose proof (N_ascii_bounded c). lia.
Qed.

Lemma chr_code c : chr (code c) = c.
Proof. unfold chr, code. rewrite N2Z.id. apply ascii_N_embedding. Qed.

Lemma code_not_EOF c : (code c =? EOF) = false.
Proof. pose proof (code_range c). apply Z.eqb_neq. unfold EOF. lia. Qed.

(** The state in which [v] is left to read, its first character looked
    ahead. *)
Definition reading (v : str) (name : str) (num : double) : t :=
  mk (getchar v).2 (getchar v).1 name num.

Lemma initial_reading s : initial s = reading (" "%char :: s) [] (S754_zero false).
Proof. done. Qed.

Lemma skip_whitespace_step last s :
  is_space last -> skip_whitespace last s = skip_whitespace (getchar s).1 (getchar s).2.
Proof. intros H. destruct s; cbn [skip_whitespace getchar fst snd]; by rewrite (Is_true_true_1 _ H). Qed.

Lemma skip_whitespace_stop v :
  starts_no (fun c => is_space (code c)) v ->
  skip_whitespace (getchar v).1 (getchar v).2 = getchar v.
Proof. destruct v as [|c [|c' v]]; cbn; [done|..]; by intros ->. Qed.

Lemma read_identifier_span l r acc :
  Forall (fun c => is_alnum (code c)) l -> starts_no (fun c => is_alnum (code c)) r ->
  read_identifier acc (l ++ r) = (acc ++ l, (getchar r).1, (getchar r).2).
Proof.
  intros Hl Hr. revert acc; induction Hl as [|c l Hc _ IH]; intros acc; cbn.
  - destruct r; cbn in *; by rewrite ?Hr, app_nil_r.
  - rewrite (Is_true_true_1 _ Hc), IH, <- app_assoc. done.
Qed.

Lemma read_number_span c l r acc :
  Forall (fun c => in_number (code c)) l -> starts_no (fun c => in_number (code c)) r ->
  read_number acc (code c) (l ++ r) = (acc ++ c :: l, (getchar r).1, (getchar r).2).
Proof.
  intros Hl Hr. revert c acc; induction Hl as [|c' l Hc _ IH]; intros c acc; cbn.
  - destruct r; cbn in *; by rewrite ?Hr, chr_code.
  - rewrite (Is_true_true_1 _ Hc), IH, <- app_assoc, chr_code. done.
Qed.

Lemma skip_comment_span body nl s :
  Forall (fun c => is_newline (code c) = false) body -> is_newline (code nl) ->
  skip_comment (body ++ nl :: s) = (code nl, s).
Proof.
  intros Hb Hn. induction Hb as [|c l Hc _ IH]; cbn; [by rewrite (Is_true_true_1 _ Hn)|by rewrite Hc].
Qed.

Lemma skip_comment_open body :
  Forall (fun c => is_newline (code c) = false) body -> skip_comment body = (EOF, []).
Proof. induction 1 as [|c l Hc _ IH]; cbn; [done|by rewrite Hc]. Qed.

(** ** One call *)

Lemma newline_is_space c : is_newline c -> is_space c.
Proof.
  unfold is_newline. intros [H|H]%orb_prop_elim; apply Is_true_true_1, Z.eqb_eq in H as ->; done.
Qed.

Lemma gettok_space fuel c v name num :
  is_space (code c) -> gettok (S fuel) (reading (c :: v) name num) = gettok (S fuel) (reading v name num).
Proof. intros H. cbn [gettok reading LastChar input getchar fst snd]. by rewrite skip_whitespace_step. Qed.

(** The call whose next character is [c]. *)
Lemma gettok_head fuel c v name num :
  is_space (code c) = false ->
  gettok (S fuel) (reading (c :: v) name num) =
    (if is_alpha (code c) then
       let '(text, last, s) := read_identifier [c] v in
       Some (identifier_token text, mk s last text num)
     else if in_number (code c) then
       let '(text, last, s) := read_number [] (code c) v in
       Some (tok_number, mk s last name (strtod text))
     else if code c =? 35 then
       let '(last, s) := skip_comment v in
       if negb (last =? EOF) then gettok fuel (mk s last name num)
       else Some (tok_eof, mk s last name num)
     else Some (code c, reading v name num)).
Proof.
  intros Hc. set (st := reading _ _ _) at 1. cbn [gettok]. subst st.
  cbn [reading LastChar input IdentifierStr NumVal getchar fst snd].
  assert (skip_whitespace (code c) v = (code c, v)) as -> by (destruct v; cbn; by rewrite Hc).
  rewrite chr_code, code_not_EOF. by destruct v.
Qed.

Lemma gettok_comment fuel body nl v name num :
  Forall (fun c => is_newline (code c) = false) body -> is_newline (code nl) ->
  gettok (S fuel) (reading ("#"%char :: body ++ nl :: v) name num) =
  gettok fuel (reading (nl :: v) name num).
Proof.
  intros Hb Hn. rewrite gettok_head by done. cbn -[skip_comment gettok EOF].
  rewrite skip_comment_span, code_not_EOF by done. done.
Qed.

(** Blanks are passed over. *)
Lemma gettok_blank b v fuel name num :
  blank b -> (length b < fuel)%nat ->
  exists fuel', (fuel - length b <= fuel')%nat /\
    gettok fuel (reading (b ++ v) name num) = gettok fuel' (reading v name num).
Proof.
  intros Hb. revert fuel; induction Hb as [|c s Hc _ IH|body nl s Hbody Hn _ IH]; intros fuel Hf; cbn in Hf.
  - exists fuel. cbn. by split; [lia|].
  - destruct fuel as [|fuel]; [lia|]. cbn [app]. rewrite gettok_space by done.
    destruct (IH (S fuel)) as (fuel' & Hle & ->); [lia|]. exists fuel'. cbn. by split; [lia|].
  - rewrite length_app in Hf. cbn in Hf. destruct fuel as [|[|fuel]]; [lia..|].
    cbn [app]. rewrite <- app_assoc. cbn [app]. rewrite gettok_comment, gettok_space by (try done; by apply newline_is_space).
    destruct (IH (S fuel)) as (fuel' & Hle & ->); [lia|]. exists fuel'.
    cbn. rewrite length_app. cbn. by split; [lia|].
Qed.
(** ** One token *)

Lemma alpha_class c : is_alpha c -> is_space c = false.
Proof. intros H%Is_true_true_1. revert H. unfold is_alpha, is_space. lia. Qed.

Lemma number_class c : in_number c -> is_space c = false /\ is_alpha c = false.
Proof. intros H%Is_true_true_1. revert H. unfold in_number, is_num, is_alpha, is_space. lia. Qed.

Lemma special_false c :
  special c = false <->
  is_space (code c) = false /\ is_alpha (code c) = false /\ in_number (code c) = false /\
  (code c =? 35) = false.
Proof. unfold special. rewrite !orb_false_iff. tauto. Qed.

Lemma gettok_word fuel c s rest name num :
  is_alpha (code c) -> Forall (fun c => is_alnum (code c)) s ->
  starts_no (fun c => is_alnum (code c)) rest ->
  gettok (S fuel) (reading (c :: s ++ rest) name num) =
    Some (identifier_token (c :: s), reading rest (c :: s) num).
Proof.
  intros Hc Hs Hr. rewrite gettok_head by (by apply alpha_class).
  rewrite (Is_true_true_1 _ Hc), read_identifier_span by done. done.
Qed.

Lemma gettok_number fuel c s rest name num :
  Forall (fun c => in_number (code c)) (c :: s) -> starts_no (fun c => in_number (code c)) rest ->
  gettok (S fuel) (reading (c :: s ++ rest) name num) =
    Some (tok_number, reading rest name (strtod (c :: s))).
Proof.
  intros [Hc Hs]%Forall_cons Hr. destruct (number_class _ Hc) as [Hsp Ha].
  rewrite gettok_head, Ha, (Is_true_true_1 _ Hc), read_number_span by done. done.
Qed.

Lemma gettok_token fuel k rest name num :
  valid k -> starts_no (extends k) rest ->
  exists tok name' num',
    gettok (S fuel) (reading (spelling k ++ rest) name num) = Some (tok, reading rest name' num') /\
    tok <> tok_eof /\ lexeme_of tok (reading rest name' num') = meaning k.
Proof.
  intros Hk Hr. destruct k as [| |w|w|c]; cbn [spelling].
  - eexists _, _, _. split; [apply (gettok_word _ "d"%char (lit "ef")); by repeat constructor|done].
  - eexists _, _, _. split; [apply (gettok_word _ "e"%char (lit "xtern")); by repeat constructor|done].
  - destruct Hk as [(c & s & -> & Hc & Hs) [Hd He]].
    eexists _, _, _. split; [by apply gettok_word|].
    unfold identifier_token. by rewrite !bool_decide_eq_false_2 by done.
  - destruct Hk as [Hne Hall]. destruct w as [|c s]; [done|].
    eexists _, _, _. split; [by apply gettok_number|done].
  - cbn in Hk. apply special_false in Hk as (Hs & Ha & Hn & Hh). pose proof (code_range c).
    eexists _, name, num. split; [cbn [app]; by rewrite gettok_head, Ha, Hn, Hh by done|].
    unfold lexeme_of, tok_eof, tok_def, tok_extern, tok_identifier, tok_number.
    rewrite !(proj2 (Z.eqb_neq _ _)) by lia. split; [lia|done].
Qed.

(** The end of the input. *)
Lemma gettok_end fuel v name num :
  spelled [] v -> (length v < fuel)%nat ->
  exists st, gettok fuel (reading v name num) = Some (tok_eof, st).
Proof.
  intros Hv Hf. inversion Hv as [b Hb|b body Hb Hbody|]; subst.
  - destruct (gettok_blank v [] fuel name num Hb Hf) as ([|fuel'] & Hle & Heq); [lia|].
    rewrite app_nil_r in Heq. rewrite Heq. by eexists.
  - rewrite length_app in Hf. cbn in Hf.
    destruct (gettok_blank b ("#"%char :: body) fuel name num) as ([|fuel'] & Hle & ->); [done|lia..|].
    rewrite gettok_head by done. cbn -[skip_comment gettok EOF].
    rewrite skip_comment_open by done. by eexists.
Qed.

(** What is spelled is lexed. *)
Lemma lex_spelled ks v fuel name num :
  spelled ks v -> (length v < fuel)%nat -> lex fuel (reading v name num) = Some (meaning <$> ks).
Proof.
  intros Hv. revert fuel name num; induction Hv as [b Hb|b body Hb Hbody|b k ks rest Hb Hk Hr Hv IH];
    intros fuel name num Hf; (destruct fuel as [|fuel]; [lia|]).
  - destruct (gettok_end (S fuel) b name num) as [st Hst]; [by constructor|done|].
    cbn [lex]. by rewrite Hst.
  - destruct (gettok_end (S fuel) (b ++ "#"%char :: body) name num) as [st Hst]; [by constructor|done|].
    cbn [lex]. by rewrite Hst.
  - rewrite !length_app in Hf.
    assert (length (spelling k) <> 0)%nat.
    { destruct k as [| |w|w|c]; cbn; try done.
      - by destruct Hk as [(? & ? & -> & _) _].
      - destruct Hk as [Hne _]. by destruct w. }
    destruct (gettok_blank b (spelling k ++ rest) (S fuel) name num Hb) as ([|fuel'] & Hle & Hb'); [lia..|].
    destruct (gettok_token fuel' k rest name num Hk Hr) as (tok & name' & num' & Ht & Hne & Hm).
    cbn [lex]. rewrite Hb', Ht, (proj2 (Z.eqb_neq _ _)), IH, Hm by (done || lia). done.
Qed.

(** ** Every input has a spelling *)

Lemma span (p : ascii -> bool) v :
  exists l r, v = l ++ r /\ Forall (fun c => p c) l /\ starts_no p r.
Proof.
  induction v as [|c v (l & r & -> & Hl & Hr)]; [by exists [], []|].
  destruct (p c) eqn:Hc.
  - exists (c :: l), r. split_and!; [done| |done]. constructor; [by rewrite Hc|done].
  - by exists [], (c :: l ++ r).
Qed.

Lemma spelled_blank b ks v : blank b -> spelled ks v -> spelled ks (b ++ v).
Proof.
  intros Hb Hv. assert (Happ : forall s, blank s -> blank (b ++ s)).
  { induction Hb as [|c s Hc _ IH|body nl s Hbody Hn _ IH]; intros s' Hs'; cbn; [done|..].
    - constructor; [done|by apply IH].
    - rewrite <- app_assoc. cbn. constructor; [done|done|by apply IH]. }
  destruct Hv as [b' Hb'|b' body Hb' Hbody|b' k ks rest Hb' Hk Hr Hv].
  - by apply spelled_end, Happ.
  - rewrite app_assoc. by apply spelled_open_comment; [apply Happ|].
  - rewrite app_assoc. by apply spelled_token; [apply Happ|..].
Qed.

Lemma spelled_one k ks rest : valid k -> starts_no (extends k) rest -> spelled ks rest -> spelled (k :: ks) (spelling k ++ rest).
Proof. intros. by apply (spelled_token []); [constructor|..]. Qed.

Lemma word_token c s rest :
  is_alpha (code c) -> Forall (fun c => is_alnum (code c)) s ->
  starts_no (fun c => is_alnum (code c)) rest ->
  exists k, spelling k = c :: s /\ valid k /\ starts_no (extends k) rest.
Proof.
  intros Hc Hs Hr. destruct (decide (c :: s = lit "def")) as [->|]; [by exists TDef|].
  destruct (decide (c :: s = lit "extern")) as [->|]; [by exists TExtern|].
  exists (TIdentifier (c :: s)). split_and!; [done| |done]. cbn. split_and!; [|done..]. by exists c, s.
Qed.

(** The next token, for an input that begins with neither white space nor a
    comment. *)
Lemma token_exists c v :
  is_space (code c) = false -> (code c =? 35) = false ->
  exists k rest, c :: v = spelling k ++ rest /\ (length rest < length (c :: v))%nat /\
    valid k /\ starts_no (extends k) rest.
Proof.
  intros Hs Hh. destruct (is_alpha (code c)) eqn:Ha; [|destruct (in_number (code c)) eqn:Hn].
  - destruct (span (fun c => is_alnum (code c)) v) as (l & r & -> & Hl & Hr).
    destruct (word_token c l r) as (k & Hk & Hv & He); [by rewrite Ha|done..|].
    exists k, r. rewrite Hk. split_and!; [done|cbn; rewrite length_app; lia|done..].
  - destruct (span (fun c => in_number (code c)) v) as (l & r & -> & Hl & Hr).
    exists (TNumber (c :: l)), r. split_and!; [done|cbn; rewrite length_app; lia| |done].
    split; [done|]. constructor; [by rewrite Hn|done].
  - exists (TChar c), v. split_and!; [done|cbn; lia| |by destruct v]. by apply special_false.
Qed.

Lemma spelling_exists v : exists ks, spelled ks v.
Proof.
  remember (length v) as n eqn:Hn. revert v Hn.
  induction n as [n IH] using lt_wf_ind; intros v ->.
  destruct v as [|c v]; [exists []; do 2 constructor|].
  destruct (is_space (code c)) eqn:Hs.
  { destruct (IH (length v) ltac:(cbn; lia) v eq_refl) as [ks Hks]. exists ks.
    apply (spelled_blank [c]); [|done]. constructor; [by rewrite Hs|constructor]. }
  destruct (code c =? 35) eqn:Hh.
  - assert (c = "#"%char) as -> by (rewrite <- (chr_code c); apply Z.eqb_eq in Hh as ->; done).
    destruct (span (fun c => negb (is_newline (code c))) v) as (body & r & -> & Hb & Hr).
    assert (Forall (fun c => is_newline (code c) = false) body) as Hbody.
    { eapply Forall_impl; [exact Hb|]. cbn. intros x. by destruct (is_newline (code x)). }
    destruct r as [|nl r].
    { exists []. rewrite app_nil_r. by apply (spelled_open_comment []); [constructor|]. }
    destruct (IH (length r)) with (v := r) as [ks Hks]; [cbn; rewrite length_app; cbn; lia|done|].
    exists ks. replace ("#"%char :: body ++ nl :: r) with (("#"%char :: body ++ [nl]) ++ r)
      by (cbn; by rewrite <- app_assoc).
    apply spelled_blank; [|done]. constructor; [done| |constructor].
    cbn in Hr. by destruct (is_newline (code nl)).
  - destruct (token_exists c v Hs Hh) as (k & rest & Heq & Hlt & Hv & He).
    destruct (IH _ Hlt rest eq_refl) as [ks Hks]. exists (k :: ks). rewrite Heq. by apply spelled_one.
Qed.

(** C25. The lexer is the grammar: for every input, calling [gettok] until it
    answers [tok_eof] ends (in no more calls than there are characters, each
    restarting no more often), and the tokens read, with the identifier or
    the number that goes with each, are the meanings of the tokens that the
    input spells: words, numbers and single characters, each as long as it
    can be, between white space and comments. *)
Theorem lexer_reads_the_grammar (s : str) (fuel : nat) (ls : list lexeme)
    (Hfuel : (S (length s) < fuel)%nat) :
  lex fuel (initial s) = Some ls <-> exists ks, spelled ks s /\ ls = meaning <$> ks.
Proof.
  assert (Hlex : forall ks, spelled ks s -> lex fuel (initial s) = Some (meaning <$> ks)).
  { intros ks Hks. rewrite initial_reading. apply lex_spelled; [|cbn; lia].
    apply (spelled_blank [" "%char]); [by repeat constructor|done]. }
  split.
  - intros H. destruct (spelling_exists s) as [ks Hks]. exists ks. split; [done|].
    rewrite (Hlex ks Hks) in H. congruence.
  - intros (ks & Hks & ->). by apply Hlex.
Qed.

Lemma lexer_reads_the_grammar_witness :
  (S (length (lit "def f(x1) x1+.5 # twice")) < 40)%nat /\
  exists ks, spelled ks (lit "def f(x1) x1+.5 # twice") /\
    [LDef; LIdentifier (lit "f"); LChar 40; LIdentifier (lit "x1"); LChar 41; LIdentifier (lit "x1");
     LChar 43; LNumber (d_lit 5 1)] = meaning <$> ks.
Proof.
  split; [vm_compute; lia|].
  apply (lexer_reads_the_grammar (lit "def f(x1) x1+.5 # twice") 40); [vm_compute; lia|].
  vm_compute. reflexivity.
Defined.

(** A number is any run of digits and points: what follows a second point is
    swallowed and lost. *)
Lemma second_point_lost :
  lex 40 (initial (lit "1.2.3")) = Some [LNumber (d_lit 12 1)].
Proof. vm_compute. reflexivity. Qed.

End Lexer.
