(* ===== verification/Task.v ===== *)
(** * Task (cunk/include/concurrency/executor/Task.h)

    The one-shot callable with a small buffer.  The objects that live in the
    buffers and on the heap are a store of their own, each constructed once
    and destroyed once; a [Task] holds the place of its object and the table
    of operations for the kind of storage.  An access to an object that does
    not live is undefined, [None] here. *)

From S2P Require Import Prelude.

Module Task.

(** [&inline_ops<Fn>] or [&heap_ops<Fn>] *)
Inductive Ops := inline_ops | heap_ops.

Section task.
(** The callables, and which of them the buffer takes: small enough, not
    over-aligned, with a move constructor that does not throw. *)
Context {Fn : Type} (fits_inline : Fn -> bool).

(** An object of type [Fn]: the callable, which construction by a client it
    descends from by moves, and whether it lives. *)
Record object := mk_object { fn : Fn; origin : nat; alive : bool }.

(** [storage_]: the object in the buffer, or the one pointed to. *)
Record t := mk { storage_ : nat; ops_ : option Ops }.

Definition create : t := mk 0 None.

(** The tasks by address, the objects, the number of objects constructed, the
    calls that returned and those that threw. *)
Record world := mk_world {
  tasks : gmap nat t;
  objects : gmap nat object;
  next : nat;
  returned : list nat;
  threw : list nat
}.

Definition initial : world := mk_world ∅ ∅ 0 [] [].

(** ** Objects *)

Definition access (o : nat) (w : world) : option object :=
  match objects w !! o with
  | Some ob => if alive ob then Some ob else None
  | None => None
  end.

(** [new Fn(...)], in place or on the heap *)
Definition construct (f : Fn) (from : nat) (w : world) : world :=
  { { w with objects ::= <[next w := mk_object f from true]> } with next := S (next w) }.

(** [~Fn()], or [delete] *)
Definition end_life (o : nat) (w : world) : option world :=
  match access o w with
  | Some ob => Some { w with objects ::= <[o := { ob with alive := false }]> }
  | None => None
  end.

Definition set_task (i : nat) (T : t) (w : world) : world := { w with tasks ::= <[i := T]> }.

(** ** The operation tables *)

(** [ops_->move(&other.storage_, &storage_)]: the place of the object
    afterwards. *)
Definition ops_move (k : Ops) (src : nat) (w : world) : option (nat * world) :=
  match k with
  | inline_ops =>
      match access src w with
      | Some ob =>
          let dst := next w in
          match end_life src (construct (fn ob) (origin ob) w) with
          | Some w => Some (dst, w)
          | None => None
          end
      | None => None
      end
  | heap_ops => Some (src, w)
  end.

(** [ops_->destroy(&storage_)] *)
Definition ops_destroy (k : Ops) (o : nat) (w : world) : option world := end_life o w.

(** [ops_->invoke(&storage_)]: the call, which may throw, then the end of the
    object. *)
Definition ops_invoke (k : Ops) (o : nat) (throws : bool) (w : world) : option world :=
  match access o w with
  | Some ob =>
      if throws then Some { w with threw ::= cons (origin ob) }
      else end_life o { w with returned ::= cons (origin ob) }
  | None => None
  end.

(** ** The methods, on the tasks at the addresses [i] and [j] *)

(** [destroy()] *)
Definition destroy (i : nat) (w : world) : option world :=
  match tasks w !! i with
  | Some T =>
      match ops_ T with
      | Some k =>
          match ops_destroy k (storage_ T) w with
          | Some w => Some (set_task i { T with ops_ := None } w)
          | None => None
          end
      | None => Some w
      end
  | None => None
  end.

(** [Task(F &&f)] *)
Definition create_from (i : nat) (f : Fn) (w : world) : world :=
  let k := if fits_inline f then inline_ops else heap_ops in
  set_task i (mk (next w) (Some k)) (construct f (next w) w).

(** What the move constructor and the move assignment share: the object of
    [j] to the empty task [i]. *)
Definition take_over (i j : nat) (w : world) : option world :=
  match tasks w !! i, tasks w !! j with
  | Some Ti, Some Tj =>
      match ops_ Tj with
      | Some k =>
          match ops_move k (storage_ Tj) w with
          | Some (o, w) => Some (set_task j { Tj with ops_ := None } (set_task i (mk o (Some k)) w))
          | None => None
          end
      | None => Some w
      end
  | _, _ => None
  end.

(** [Task(Task &&other)] *)
Definition move_create (i j : nat) (w : world) : option world := take_over i j (set_task i create w).

(** [operator=(Task &&other)] *)
Definition move_assign (i j : nat) (w : world) : option world :=
  if (i =? j)%nat then Some w
  else match destroy i w with
       | Some w => take_over i j w
       | None => None
       end.

(** [operator()()]; after an exception [ops_] is left as it is. *)
Definition call (i : nat) (throws : bool) (w : world) : option world :=
  match tasks w !! i with
  | Some T =>
      match ops_ T with
      | Some k =>
          match ops_invoke k (storage_ T) throws w with
          | Some w => if throws then Some w else Some (set_task i { T with ops_ := None } w)
          | None => None
          end
      | None => Some w
      end
  | None => None
  end.

(** [explicit operator bool] *)
Definition holds_callable (T : t) : bool := match ops_ T with Some _ => true | None => false end.

(** [~Task()], and the end of the variable *)
Definition destruct_task (i : nat) (w : world) : option world :=
  match destroy i w with
  | Some w => Some { w with tasks ::= delete i }
  | None => None
  end.

(** ** Programs *)

Inductive op :=
| Default (i : nat)
| From (i : nat) (f : Fn)
| MoveCreate (i j : nat)
| MoveAssign (i j : nat)
| Call (i : nat) (throws : bool)
| Destruct (i : nat).

Definition step (a : op) (w : world) : option world :=
  match a with
  | Default i => Some (set_task i create w)
  | From i f => Some (create_from i f w)
  | MoveCreate i j => move_create i j w
  | MoveAssign i j => move_assign i j w
  | Call i throws => call i throws w
  | Destruct i => destruct_task i w
  end.

(** What the language asks of the client: constructors run at unused
    addresses, methods on variables that live. *)
Definition allowed (a : op) (w : world) : bool :=
  match a with
  | Default i | From i _ => bool_decide (tasks w !! i = None)
  | MoveCreate i j => bool_decide (tasks w !! i = None /\ is_Some (tasks w !! j))
  | MoveAssign i j => bool_decide (is_Some (tasks w !! i) /\ is_Some (tasks w !! j))
  | Call i _ | Destruct i => bool_decide (is_Some (tasks w !! i))
  end.

(** A program stops at what its language forbids; [None] is undefined
    behaviour inside [Task]. *)
Fixpoint run (p : list op) (w : world) : option world :=
  match p with
  | [] => Some w
  | a :: p =>
      if allowed a w then match step a w with Some w => run p w | None => None end
      else Some w
  end.

(** ** Ownership

    Who holds what, as functions: the object a task holds, the construction a
    living object descends from. *)

Definition view (T : t) : option nat :=
  match ops_ T with Some _ => Some (storage_ T) | None => None end.

Definition held (w : world) (i : nat) : option nat :=
  match tasks w !! i with Some T => view T | None => None end.

Definition living (w : world) (o : nat) : option nat :=
  match access o w with Some ob => Some (origin ob) | None => None end.

Definition fset (f : nat -> option nat) (i : nat) (v : option nat) : nat -> option nat :=
  fun x => if decide (x = i) then v else f x.

Record Own (h l : nat -> option nat) (n : nat) (r : list nat) : Prop := {
  own_living : forall i o, h i = Some o -> is_Some (l o);
  own_single : forall i j o, h i = Some o -> h j = Some o -> i = j;
  own_owned : forall o c, l o = Some c -> exists i, h i = Some o;
  own_fresh : forall o c, l o = Some c -> (o < n)%nat /\ (c < n)%nat;
  own_origin : forall o o' c, l o = Some c -> l o' = Some c -> o = o';
  own_done : forall o c, c ∈ r -> (c < n)%nat /\ l o <> Some c;
  own_once : NoDup r
}.

#[local] Instance Own_proper :
  Proper (pointwise_relation nat eq ==> pointwise_relation nat eq ==> eq ==> eq ==> iff) Own.
Proof.
  assert (H : forall h h' l l' n r, pointwise_relation nat eq h h' -> pointwise_relation nat eq l l' ->
    Own h l n r -> Own h' l' n r).
  { intros h h' l l' n r Hh Hl [H1 H2 H3 H4 H5 H6 H7].
    split; intros *; rewrite <- ?Hh, <- ?Hl; eauto.
    intros Hc. destruct (H3 _ _ Hc) as [i Hi]. exists i. by rewrite <- Hh. }
  intros h h' Hh l l' Hl n ? <- r ? <-. split; eapply H; by symmetry || done.
Qed.

Lemma fset_eq f i v : fset f i v i = v.
Proof. unfold fset. by rewrite decide_True. Qed.
Lemma fset_ne f i v x : x <> i -> fset f i v x = f x.
Proof. intros. unfold fset. by rewrite decide_False. Qed.

#[local] Instance fset_proper :
  Proper (pointwise_relation nat eq ==> eq ==> eq ==> pointwise_relation nat eq) fset.
Proof. intros f g Hf i ? <- v ? <- x. unfold fset. case_decide; [done|apply Hf]. Qed.

(** The two cases of every updated function in the context. *)
Ltac own_cases :=
  unfold fset in *; intros; simplify_eq;
  repeat (case_decide; simplify_eq; try done); eauto.

(** The four ways ownership changes: an object is constructed, destroyed,
    passed on as it is, or passed on to a successor. *)
Section transitions.
Context (h l : nat -> option nat) (n : nat) (r : list nat) (H : Own h l n r).

Lemma own_next : l n = None.
Proof. destruct (l n) eqn:E; [|done]. apply (own_fresh _ _ _ _ H) in E. lia. Qed.

Lemma held_not_next i : h i <> Some n.
Proof. intros Hi. destruct (own_living _ _ _ _ H i n Hi) as [c Hc]. by rewrite own_next in Hc. Qed.

Lemma own_acquire i : h i = None -> Own (fset h i (Some n)) (fset l n (Some n)) (S n) r.
Proof.
  intros Hi. pose proof held_not_next as Hn. destruct H as [H1 H2 H3 H4 H5 H6 H7].
  split; [| | | | | |done].
  - own_cases.
  - own_cases; exfalso; eapply Hn; eauto.
  - intros o c Hc. destruct (decide (o = n)) as [->|Ho]; [exists i; by rewrite fset_eq|].
    rewrite fset_ne in Hc by done. destruct (H3 _ _ Hc) as [k Hk].
    exists k. rewrite fset_ne; [done|congruence].
  - intros o c Hc. destruct (decide (o = n)) as [->|Ho].
    + rewrite fset_eq in Hc. simplify_eq. lia.
    + rewrite fset_ne in Hc by done. destruct (H4 _ _ Hc). lia.
  - own_cases; match goal with Hl : l _ = Some _ |- _ => apply H4 in Hl; lia end.
  - intros o c Hc. destruct (H6 o c Hc) as [Hlt Hl]. split; [lia|]. own_cases. intros [= ->]. lia.
Qed.

Lemma own_release i o : h i = Some o -> Own (fset h i None) (fset l o None) n r.
Proof.
  intros Hi. destruct H as [H1 H2 H3 H4 H5 H6 H7]. split; [| | | | | |done].
  - own_cases. exfalso; eauto.
  - own_cases.
  - intros x c Hc. destruct (decide (x = o)) as [->|Hx]; [by rewrite fset_eq in Hc|].
    rewrite fset_ne in Hc by done. destruct (H3 _ _ Hc) as [k Hk].
    exists k. rewrite fset_ne; [done|congruence].
  - own_cases.
  - own_cases.
  - intros x c Hc. split; [by eapply H6|]. own_cases. by apply H6.
Qed.

Lemma own_transfer i j o :
  h i = None -> h j = Some o -> Own (fset (fset h i (Some o)) j None) l n r.
Proof.
  intros Hi Hj. destruct H as [H1 H2 H3 H4 H5 H6 H7]. split; [| | |done..].
  - own_cases.
  - own_cases; exfalso; eauto.
  - intros x c Hc. destruct (H3 _ _ Hc) as [k Hk]. destruct (decide (k = j)) as [->|Hkj].
    + exists i. rewrite fset_ne by congruence. rewrite fset_eq. congruence.
    + exists k. rewrite fset_ne by done. rewrite fset_ne; congruence.
Qed.

Lemma own_successor o c :
  l o = Some c ->
  Own (fun x => if decide (h x = Some o) then Some n else h x) (fset (fset l n (Some c)) o None) (S n) r.
Proof.
  intros Ho. pose proof held_not_next as Hn. destruct H as [H1 H2 H3 H4 H5 H6 H7].
  assert (o <> n) by (destruct (H4 _ _ Ho); lia). split; [| | | | | |done].
  - own_cases.
  - own_cases; exfalso; eapply Hn; eauto.
  - intros x d Hd. destruct (decide (x = o)) as [->|Hx]; [by rewrite fset_eq in Hd|].
    rewrite fset_ne in Hd by done. destruct (decide (x = n)) as [->|Hxn].
    + destruct (H3 _ _ Ho) as [k Hk]. exists k. by rewrite decide_True.
    + rewrite fset_ne in Hd by done. destruct (H3 _ _ Hd) as [k Hk]. exists k.
      rewrite decide_False by congruence. done.
  - own_cases; repeat match goal with Hl : l _ = Some _ |- _ => apply H4 in Hl end; lia.
  - own_cases; exfalso; eauto.
  - intros x d Hd. destruct (H6 x d Hd) as [Hlt Hl]. split; [lia|]. own_cases.
    intros [= <-]. by apply (H6 o c).
Qed.

Lemma own_call i o c :
  h i = Some o -> l o = Some c -> Own (fset h i None) (fset l o None) n (c :: r).
Proof.
  intros Hi Ho. destruct (own_release i o Hi) as [H1 H2 H3 H4 H5 H6 H7]. split; [done..| |].
  - intros x d [->|Hd]%elem_of_cons; [|by apply H6].
    split; [by destruct (own_fresh _ _ _ _ H _ _ Ho)|]. own_cases. intros Hx.
    by pose proof (own_origin _ _ _ _ H _ _ _ Ho Hx).
  - constructor; [|done]. intros Hc. by apply (own_done _ _ _ _ H o) in Hc as [_ Hc].
Qed.
End transitions.

(** ** The methods *)

Definition Good (w : world) : Prop := Own (held w) (living w) (next w) (returned w).

Lemma held_set_task i T w : pointwise_relation nat eq (held (set_task i T w)) (fset (held w) i (view T)).
Proof.
  intros x. unfold held, set_task, fset. fields. destruct (decide (x = i)) as [->|Hx].
  - by rewrite lookup_insert_eq.
  - by rewrite lookup_insert_ne.
Qed.

Lemma good_set_task i T w :
  Good (set_task i T w) <-> Own (fset (held w) i (view T)) (living w) (next w) (returned w).
Proof. unfold Good. by rewrite held_set_task. Qed.

Lemma living_construct f c w :
  pointwise_relation nat eq (living (construct f c w)) (fset (living w) (next w) (Some c)).
Proof.
  intros x. unfold living, access, construct, fset. fields. destruct (decide (x = next w)) as [->|Hx].
  - by rewrite lookup_insert_eq.
  - by rewrite lookup_insert_ne.
Qed.

Lemma access_living o w c : living w o = Some c -> exists ob, access o w = Some ob /\ origin ob = c.
Proof. unfold living. destruct (access o w) as [ob|]; [|done]. intros [= <-]. by exists ob. Qed.

Lemma end_life_ok o w c :
  living w o = Some c ->
  exists w', end_life o w = Some w' /\ pointwise_relation nat eq (living w') (fset (living w) o None) /\
    tasks w' = tasks w /\ next w' = next w /\ returned w' = returned w.
Proof.
  intros (ob & Hob & _)%access_living. unfold end_life. rewrite Hob. eexists. split; [done|].
  split; [|done]. intros x. unfold living, access, fset. fields. destruct (decide (x = o)) as [->|Hx].
  - by rewrite lookup_insert_eq.
  - by rewrite lookup_insert_ne.
Qed.

Lemma held_tasks w w' : tasks w' = tasks w -> pointwise_relation nat eq (held w') (held w).
Proof. intros E x. unfold held. by rewrite E. Qed.

Lemma held_view i T w : tasks w !! i = Some T -> held w i = view T.
Proof. unfold held. by intros ->. Qed.

Lemma set_task_same i w T : tasks w !! i = Some T -> forall T' j, is_Some (tasks (set_task i T' w) !! j) <-> is_Some (tasks w !! j).
Proof.
  intros HT T' j. unfold set_task. fields. destruct (decide (j = i)) as [->|Hj].
  - rewrite lookup_insert_eq, HT. split; eauto.
  - by rewrite lookup_insert_ne.
Qed.

Lemma destroy_good i w :
  Good w -> is_Some (tasks w !! i) ->
  exists w', destroy i w = Some w' /\ Good w' /\ held w' i = None /\
    forall j, is_Some (tasks w' !! j) <-> is_Some (tasks w !! j).
Proof.
  intros Hw [T HT]. unfold destroy. rewrite HT. pose proof (held_view _ _ _ HT) as Hv. unfold view in Hv.
  destruct (ops_ T) as [k|]; [|by exists w].
  destruct (own_living _ _ _ _ Hw _ _ Hv) as [c Hc].
  destruct (end_life_ok _ _ _ Hc) as (w' & E & Hl & Ht & Hn & Hr). unfold ops_destroy. rewrite E.
  eexists. split; [done|]. split_and!.
  - apply good_set_task. rewrite (held_tasks _ _ Ht), Hl, Hn, Hr. by apply own_release.
  - rewrite held_set_task. apply fset_eq.
  - intros j. rewrite set_task_same by (by rewrite Ht). by rewrite Ht.
Qed.

Lemma take_over_good i j w :
  Good w -> i <> j -> is_Some (tasks w !! i) -> is_Some (tasks w !! j) -> held w i = None ->
  exists w', take_over i j w = Some w' /\ Good w'.
Proof.
  intros Hw Hij [Ti Hi] [Tj Hj] Hhi. unfold take_over. rewrite Hi, Hj.
  pose proof (held_view _ _ _ Hj) as Hv. unfold view in Hv.
  destruct (ops_ Tj) as [k|]; [|by exists w].
  destruct (own_living _ _ _ _ Hw _ _ Hv) as [c Hc].
  destruct k; cbn [ops_move].
  - destruct (access_living _ _ _ Hc) as (ob & -> & Ho). rewrite Ho.
    set (w1 := construct (fn ob) c w).
    assert (Hne : storage_ Tj <> next w) by (destruct (own_fresh _ _ _ _ Hw _ _ Hc); lia).
    destruct (end_life_ok (storage_ Tj) w1 c) as (w2 & -> & Hl & Ht & Hn & Hr).
    { unfold w1. rewrite living_construct. by rewrite fset_ne. }
    eexists. split; [done|]. apply good_set_task. rewrite held_set_task, (held_tasks _ _ Ht).
    assert (Hl' : pointwise_relation nat eq (living w2) (fset (fset (living w) (next w) (Some c)) (storage_ Tj) None)).
    { intros x. rewrite Hl. unfold fset. case_decide; [done|]. apply living_construct. }
    cbn [set_task]. change (living (set_task i _ w2)) with (living w2).
    change (next (set_task i _ w2)) with (next w2). change (returned (set_task i _ w2)) with (returned w2).
    rewrite Hl', Hn, Hr. change (next w1) with (S (next w)). change (returned w1) with (returned w).
    change (held w1) with (held w).
    pose proof (own_successor _ _ _ _ Hw _ _ Hc) as Hs.
    opose proof* (own_transfer _ _ _ _ Hs i j (next w)) as Hf;
      [by rewrite decide_False by congruence|by rewrite decide_True|].
    revert Hf. apply Own_proper; [|done..]. intros x. unfold fset, view. cbn.
    repeat case_decide; try done. by destruct (own_single _ _ _ _ Hw x j _ H1 Hv).
  - eexists. split; [done|]. apply good_set_task. rewrite held_set_task.
    change (living (set_task i _ w)) with (living w). by apply own_transfer.
Qed.

Lemma create_from_good i f w : Good w -> held w i = None -> Good (create_from i f w).
Proof.
  intros Hw Hi. unfold create_from. apply good_set_task.
  change (held (construct f (next w) w)) with (held w). rewrite living_construct.
  change (next (construct f (next w) w)) with (S (next w)).
  by apply own_acquire.
Qed.

Lemma call_good i throws w :
  Good w -> is_Some (tasks w !! i) -> exists w', call i throws w = Some w' /\ Good w'.
Proof.
  intros Hw [T HT]. unfold call. rewrite HT. pose proof (held_view _ _ _ HT) as Hv. unfold view in Hv.
  destruct (ops_ T) as [k|]; [|by exists w].
  destruct (own_living _ _ _ _ Hw _ _ Hv) as [c Hc]. unfold ops_invoke.
  destruct (access_living _ _ _ Hc) as (ob & -> & Ho). rewrite Ho. destruct throws; [by eexists|].
  set (w1 := { w with returned ::= cons c }).
  destruct (end_life_ok (storage_ T) w1 c Hc) as (w' & -> & Hl & Ht & Hn & Hr).
  eexists. split; [done|]. apply good_set_task. rewrite (held_tasks _ _ Ht), Hl, Hn, Hr.
  by apply own_call.
Qed.

Lemma held_unused i w : tasks w !! i = None -> held w i = None.
Proof. unfold held. by intros ->. Qed.

Lemma set_empty_good i w : Good w -> held w i = None -> Good (set_task i create w).
Proof.
  intros Hw Hi. apply good_set_task. revert Hw. apply Own_proper; [|done..].
  intros x. unfold fset. by case_decide; simplify_eq.
Qed.

Lemma move_good i j w :
  Good w -> is_Some (tasks w !! i) -> is_Some (tasks w !! j) ->
  exists w', move_assign i j w = Some w' /\ Good w'.
Proof.
  intros Hw Hi Hj. unfold move_assign. destruct (Nat.eqb_spec i j) as [->|Hij]; [by exists w|].
  destruct (destroy_good i w Hw Hi) as (w1 & -> & Hw1 & Hh & Hd).
  apply take_over_good; [done|done|by apply Hd..|done].
Qed.

Lemma step_good a w : Good w -> allowed a w = true -> exists w', step a w = Some w' /\ Good w'.
Proof.
  intros Hw Ha. destruct a as [i|i f|i j|i j|i throws|i]; cbn [step]; cbn [allowed] in Ha; apply bool_decide_eq_true in Ha.
  - eexists. split; [done|]. by apply set_empty_good, held_unused.
  - eexists. split; [done|]. by apply create_from_good, held_unused.
  - destruct Ha as [Hi [T Hj]]. apply take_over_good.
    + by apply set_empty_good, held_unused.
    + intros ->. congruence.
    + eexists. apply lookup_insert_eq.
    + exists T. unfold set_task. fields. rewrite lookup_insert_ne; [done|congruence].
    + unfold held, set_task. fields. by rewrite lookup_insert_eq.
  - destruct Ha. by apply move_good.
  - by apply call_good.
  - unfold destruct_task. destruct (destroy_good i w Hw Ha) as (w1 & -> & Hw1 & Hh & _).
    eexists. split; [done|]. revert Hw1. apply Own_proper; [|done..].
    intros x. unfold held in *. fields. destruct (decide (x = i)) as [->|Hx].
    + by rewrite lookup_delete_eq.
    + by rewrite lookup_delete_ne.
Qed.

Lemma good_initial : Good initial.
Proof. split; try done; [..|constructor]; intros *; by rewrite ?elem_of_nil. Qed.

Lemma run_good p w : Good w -> exists w', run p w = Some w' /\ Good w'.
Proof.
  revert w; induction p as [|a p IH]; intros w Hw; cbn [run]; [by exists w|].
  destruct (allowed a w) eqn:Ha; [|by exists w].
  destruct (step_good a w Hw Ha) as (w' & -> & Hw'). by apply IH.
Qed.

(** C24. The lifetimes are right in every program that constructs, moves,
    calls and destroys tasks as the language allows, whatever the callables'
    sizes and whichever calls throw: no operation ever touches an object that
    does not live (in particular none is destroyed twice); at any moment each
    living object is held by exactly one task, and a task that holds a
    callable holds a living one, so that nothing is left when the tasks are
    gone; and no callable, however often it was moved, returns from two
    calls. *)
Theorem task_lifetimes (p : list op) :
  exists w, run p initial = Some w /\
    (forall i T, tasks w !! i = Some T -> holds_callable T = true -> is_Some (access (storage_ T) w)) /\
    (forall o, is_Some (access o w) ->
       exists i T, tasks w !! i = Some T /\ holds_callable T = true /\ storage_ T = o /\
         forall j Tj, tasks w !! j = Some Tj -> holds_callable Tj = true -> storage_ Tj = o -> j = i) /\
    NoDup (returned w) /\
    (tasks w = ∅ -> forall o ob, objects w !! o = Some ob -> alive ob = false).
Proof.
  destruct (run_good p initial good_initial) as (w & Hrun & Hw). exists w.
  assert (Hheld : forall i T, tasks w !! i = Some T -> holds_callable T = true -> held w i = Some (storage_ T)).
  { intros i T Hi Hh. rewrite (held_view _ _ _ Hi). unfold view, holds_callable in *. by destruct (ops_ T). }
  assert (Hown : forall o, is_Some (access o w) -> exists i, held w i = Some o).
  { intros o [ob Hob]. apply (own_owned _ _ _ _ Hw o (origin ob)). unfold living. by rewrite Hob. }
  split_and!; [done| | |apply Hw|].
  - intros i T Hi Hh. destruct (own_living _ _ _ _ Hw _ _ (Hheld i T Hi Hh)) as [c Hc].
    apply access_living in Hc as (ob & Hob & _). by exists ob.
  - intros o Ho. destruct (Hown o Ho) as [i Hi]. pose proof Hi as Hi'.
    unfold held in Hi. destruct (tasks w !! i) as [T|] eqn:HT; [|done].
    unfold view in Hi. destruct (ops_ T) eqn:Hops; [|done]. injection Hi as <-.
    exists i, T. unfold holds_callable. rewrite Hops. split_and!; [done..|].
    intros j Tj Hj Hhj Hs. apply (own_single _ _ _ _ Hw j i (storage_ T)); [|done].
    rewrite <- Hs. by apply Hheld.
  - intros He o ob Ho. destruct (alive ob) eqn:Ha; [|done].
    destruct (Hown o) as [i Hi]; [unfold access; rewrite Ho, Ha; by eexists|].
    unfold held in Hi. by rewrite He, lookup_empty in Hi.
Qed.

(** A call that throws leaves the callable in place: the next call runs it
    again. *)
Lemma throwing_call_repeats (f : Fn) :
  exists w, run [From 0 f; Call 0 true; Call 0 true; Call 0 false; Call 0 false; Destruct 0] initial = Some w /\
    threw w = [0; 0]%nat /\ returned w = [0%nat].
Proof. eexists. split; [vm_compute; destruct (fits_inline f); reflexivity|]. done. Qed.
End task.
End Task.
