(* ===== verification/StringUtils.v ===== *)
(** * String utilities (sor/utils/string_utils.cpp)

    Splitting, trimming, case conversion, prefixes and the formatting of
    prices and quantities, over the index functions of [std::string_view]:
    [find], [find_first_not_of], [find_last_not_of], [substr]. *)

From S2P Require Import Prelude Double CppString Types.

(** ** Searches of the standard library *)

(** [find_first_not_of] of the characters [p]. *)
Fixpoint find_first_not_of (p : ascii -> bool) (s : str) : option nat :=
  match s with
  | [] => None
  | c :: s => if p c then S <$> find_first_not_of p s else Some O
  end.

Fixpoint find_last_not_of (p : ascii -> bool) (s : str) : option nat :=
  match s with
  | [] => None
  | c :: s =>
      match find_last_not_of p s with
      | Some i => Some (S i)
      | None => if p c then None else Some O
      end
  end.

(** [substr(pos, n)] *)
Definition substr (pos n : nat) (s : str) : str := take n (drop pos s).

(** The characters of a string literal, as a set. *)
Definition one_of (chars : str) (c : ascii) : bool := bool_decide (c ∈ chars).

(** [%.<decimals>f] of [printf]. *)
Definition print_fixed (decimals : nat) (d : double) : str :=
  let put (neg : bool) (n q : Z) :=
    let z := round_half_even (n * 10 ^ Z.of_nat decimals) q in
    let s := print_padded (S decimals) z in
    let k := (length s - decimals)%nat in
    (if neg then lit "-" else []) ++ take k s ++ (if (decimals =? 0)%nat then [] else "."%char :: drop k s) in
  match d with
  | S754_zero neg => put neg 0 1
  | S754_infinity neg => (if neg then lit "-" else []) ++ lit "inf"
  | S754_nan => lit "nan"
  | S754_finite neg m e => if e <? 0 then put neg (Zpos m) (2 ^ (- e)) else put neg (Zpos m * 2 ^ e) 1
  end.

Module StringUtils.

(** ** Splitting *)

(** [while (start <= str.size())], on what begins at [start]. *)
Fixpoint split_from (fuel : nat) (delimiter : ascii) (s : str) : option (list str) :=
  match fuel with
  | O => None
  | S fuel =>
      match find_char delimiter s with
      | None => Some [s]
      | Some pos =>
          match split_from fuel delimiter (drop (S pos) s) with
          | Some tokens => Some (take pos s :: tokens)
          | None => None
          end
      end
  end.

Definition split (s : str) (delimiter : ascii) : option (list str) :=
  match s with
  | [] => Some []
  | _ => split_from (S (length s)) delimiter s
  end.

(** ** Case, trimming, prefixes *)

Definition upper (c : ascii) : ascii :=
  if (97 <=? code c) && (code c <=? 122) then chr (code c - 32) else c.

Definition to_upper (s : str) : str := upper <$> s.
Definition to_lower (s : str) : str := lower <$> s.

(** The blanks of [" \t\n\r\f\v"]. *)
Definition blanks : str := [" "; "009"; "010"; "013"; "012"; "011"]%char.

Definition trim_of (blank : ascii -> bool) (s : str) : str :=
  match find_first_not_of blank s, find_last_not_of blank s with
  | Some first, Some last => substr first (last - first + 1) s
  | _, _ => []
  end.

Definition trim (s : str) : str := trim_of (one_of blanks) s.

Definition starts_with (s prefix : str) : bool :=
  if (length s <? length prefix)%nat then false
  else bool_decide (substr 0 (length prefix) s = prefix).

Definition ends_with (s suffix : str) : bool :=
  if (length s <? length suffix)%nat then false
  else bool_decide (drop (length s - length suffix) s = suffix).

(** ** Numbers *)

(** What [snprintf] into [n] bytes and [std::string(buf, length)] make of a
    text: its whole length is taken from the buffer, whatever the buffer
    holds; beyond the buffer the read is undefined. *)
Definition through_buffer (n : nat) (text : str) : option str :=
  if (length text <? n)%nat then Some text
  else if (length text =? n)%nat then Some (take (n - 1) text ++ [Ascii.zero])
  else None.

Definition format_price (price : Price) (decimals : nat) : option str :=
  through_buffer 64 (print_fixed decimals (to_double price)).

Definition format_quantity (qty : Quantity) : option str := through_buffer 32 (to_string qty).

(** ** Searches *)

Lemma find_first_app p a c b :
  Forall (fun c => p c = true) a -> p c = false -> find_first_not_of p (a ++ c :: b) = Some (length a).
Proof. intros Ha Hc. induction Ha as [|x a Hx _ IH]; cbn; [by rewrite Hc|by rewrite Hx, IH]. Qed.

Lemma find_last_blank p a : Forall (fun c => p c = true) a -> find_last_not_of p a = None.
Proof. induction 1 as [|x a Hx _ IH]; cbn; [done|by rewrite IH, Hx]. Qed.

Lemma find_first_blank p a : Forall (fun c => p c = true) a -> find_first_not_of p a = None.
Proof. induction 1 as [|x a Hx _ IH]; cbn; [done|by rewrite Hx, IH]. Qed.

Lemma find_last_app p a c b :
  p c = false -> Forall (fun c => p c = true) b -> find_last_not_of p (a ++ c :: b) = Some (length a).
Proof.
  intros Hc Hb. induction a as [|x a IH]; cbn; [by rewrite find_last_blank, Hc|by rewrite IH].
Qed.

(** ** Trimming *)

(** A text whose ends are no blanks. *)
Definition bare (p : ascii -> bool) (s : str) : Prop :=
  match s with [] => True | c :: _ => p c = false end /\
  match last s with None => True | Some c => p c = false end.

Lemma bare_cases p s : bare p s -> s = [] \/ (exists c, s = [c] /\ p c = false) \/
  exists c t d, s = c :: t ++ [d] /\ p c = false /\ p d = false.
Proof.
  intros [Hh Hl]. destruct s as [|c s]; [by left|]. right.
  destruct s as [|x s _] using rev_ind; [left; by exists c|]. right.
  exists c, s, x. split_and!; [done|done|]. rewrite app_comm_cons, last_snoc in Hl. done.
Qed.

(** What trimming keeps: the text between the blanks at the ends. *)
Lemma trim_of_app p a s b :
  Forall (fun c => p c = true) a -> Forall (fun c => p c = true) b -> bare p s ->
  trim_of p (a ++ s ++ b) = s.
Proof.
  intros Ha Hb Hs. unfold trim_of, substr.
  destruct (bare_cases p s Hs) as [->|[(c & -> & Hc)|(c & t & d & -> & Hc & Hd)]].
  - by rewrite find_first_blank by (by apply Forall_app).
  - cbn [app]. rewrite find_first_app, find_last_app by done.
    rewrite drop_app_length, Nat.sub_diag. done.
  - replace (a ++ (c :: t ++ [d]) ++ b) with (a ++ c :: (t ++ d :: b)) by (cbn; by rewrite <- app_assoc).
    rewrite find_first_app by done.
    replace (a ++ c :: t ++ d :: b) with ((a ++ c :: t) ++ d :: b) by (by rewrite <- app_assoc).
    rewrite find_last_app by done. rewrite <- app_assoc, drop_app_length.
    replace (length (a ++ c :: t) - length a + 1)%nat with (length ((c :: t) ++ [d]))
      by (rewrite !length_app; cbn; lia).
    replace ((c :: t) ++ d :: b) with (((c :: t) ++ [d]) ++ b) by (by rewrite <- app_assoc).
    by rewrite take_app_length.
Qed.

Lemma trim_split p s :
  exists a b, s = a ++ trim_of p s ++ b /\ Forall (fun c => p c = true) a /\
    Forall (fun c => p c = true) b /\ bare p (trim_of p s).
Proof.
  assert (Hsuf : forall s, exists t b, s = t ++ b /\ Forall (fun c => p c = true) b /\
    match last t with None => True | Some c => p c = false end).
  { clear s. intros s. induction s as [|x s (t & b & -> & Hb & Ht)] using rev_ind; [by exists [], []|].
    destruct (p x) eqn:Hx.
    - exists t, (b ++ [x]). rewrite app_assoc. split_and!; [done| |done]. apply Forall_app. by repeat constructor.
    - exists (t ++ b ++ [x]), []. rewrite app_nil_r, <- app_assoc. split_and!; [done|done|].
      rewrite app_assoc, last_snoc. done. }
  assert (Hpre : exists a t, s = a ++ t /\ Forall (fun c => p c = true) a /\
    match t with [] => True | c :: _ => p c = false end).
  { induction s as [|x s (a & t & -> & Ha & Ht)]; [by exists [], []|]. destruct (p x) eqn:Hx.
    - exists (x :: a), t. split_and!; [done| |done]. by constructor.
    - by exists [], (x :: a ++ t). }
  destruct Hpre as (a & u & -> & Ha & Hu). destruct (Hsuf u) as (t & b & -> & Hb & Ht).
  assert (Hbare : bare p t) by (split; [by destruct t|done]).
  exists a, b. by rewrite trim_of_app.
Qed.

Lemma trim_idempotent p s : trim_of p (trim_of p s) = trim_of p s.
Proof.
  destruct (trim_split p s) as (_ & _ & _ & _ & _ & Hb).
  pose proof (trim_of_app p [] (trim_of p s) []) as H. cbn in H. rewrite app_nil_r in H. by apply H.
Qed.

(** ** Splitting *)

Lemma pieces_not_nil d s : pieces d s <> [].
Proof. destruct s as [|c s]; cbn; [done|]. case_bool_decide; [done|]. by destruct (pieces d s). Qed.

Lemma split_from_pieces fuel d s : (length s < fuel)%nat -> split_from fuel d s = Some (pieces d s).
Proof.
  revert s; induction fuel as [|fuel IH]; intros s Hf; [lia|]. cbn [split_from].
  destruct (find_char d s) as [pos|] eqn:Hp.
  - assert (exists a b, s = a ++ d :: b /\ d ∉ a /\ pos = length a) as (a & b & -> & Ha & ->).
    { clear IH Hf. revert pos Hp; induction s as [|c s IHs]; intros pos; cbn; [done|].
      case_bool_decide as Hc.
      - intros [= <-]. exists [], s. subst. split_and!; [done|apply not_elem_of_nil|done].
      - destruct (find_char d s) as [k|]; [|done]. intros [= <-].
        destruct (IHs k eq_refl) as (a & b & -> & Ha & ->). exists (c :: a), b.
        split_and!; [done|apply not_elem_of_cons; split; [congruence|done]|done]. }
    rewrite length_app in Hf. cbn in Hf. rewrite pieces_app by done. rewrite take_app_length.
    replace (S (length a)) with (length (a ++ [d])) by (rewrite length_app; cbn; lia).
    replace (a ++ d :: b) with ((a ++ [d]) ++ b) by (by rewrite <- app_assoc).
    rewrite drop_app_length, IH by lia. done.
  - rewrite pieces_plain; [done|]. intros Hd. clear IH Hf.
    induction s as [|c s IHs]; [by apply elem_of_nil in Hd|]. cbn in Hp. case_bool_decide; [done|].
    destruct (find_char d s); [done|]. apply elem_of_cons in Hd as [->|Hd]; [done|by apply IHs].
Qed.

(** [split] is the splitting at the delimiter, with the empty text for no
    piece at all. *)
Lemma split_pieces s d : split s d = Some (match s with [] => [] | _ => pieces d s end).
Proof. unfold split. destruct s; [done|]. by rewrite split_from_pieces by lia. Qed.

(** Splitting undoes joining, but for the text of the single empty piece. *)
Lemma split_join d ts :
  ts <> [[]] -> Forall (fun t => d ∉ t) ts -> split (join d ts) d = Some ts.
Proof.
  intros Hne Hts. rewrite split_pieces. destruct ts as [|t ts]; [done|].
  destruct (join d (t :: ts)) eqn:E.
  - destruct ts; cbn in E; [by rewrite E in Hne|]. by apply app_nil in E as [_ ?].
  - rewrite <- E. by rewrite pieces_join.
Qed.

Lemma starts_with_spec s p : starts_with s p = true <-> exists r, s = p ++ r.
Proof.
  unfold starts_with, substr. rewrite drop_0. split.
  - destruct (Nat.ltb_spec (length s) (length p)); [done|].
    intros Hp%bool_decide_eq_true. exists (drop (length p) s). rewrite <- Hp at 1. by rewrite take_drop.
  - intros [r ->]. rewrite length_app, take_app_length.
    destruct (Nat.ltb_spec (length p + length r) (length p)); [lia|]. by rewrite bool_decide_eq_true_2.
Qed.

(** With many decimals the text is longer than the buffer. *)
Lemma format_price_overruns : format_price 0 63 = None /\ format_price 0 61 = Some (lit "0." ++ replicate 61 "0"%char).
Proof. split; vm_compute; reflexivity. Qed.
End StringUtils.
