(* ===== verification/LuftConfig.v ===== *)
(** * Configuration of the flight simulator (luft/src/core/config.cpp)

    The file of [key = value] lines: trimming, comments, quotes, the
    conversions with their exceptions, and the validation of the values. *)

From S2P Require Import Prelude Double CppString StringUtils.

Module LuftConfig.

Definition dzero : double := S754_zero false.

Record Config := mk {
  time_step : double;
  max_sim_time : double;
  telemetry_host : str;
  telemetry_port : Z;
  command_host : str;
  command_port : Z;
  networking_enabled : bool;
  telemetry_rate_hz : double;
  log_level : str;
  log_file : str;
  log_console : bool;
  ui_enabled : bool;
  window_width : Z;
  window_height : Z;
  aircraft_type : str;
  initial_altitude_m : double;
  initial_airspeed_ms : double;
  initial_heading_deg : double;
  initial_fuel_kg : double;
  wind_north_ms : double;
  wind_east_ms : double;
  wind_down_ms : double;
  gust_intensity : double;
  elevator_sensitivity : double;
  aileron_sensitivity : double;
  rudder_sensitivity : double
}.

Definition default_config : Config :=
  mk (d_lit 1 2) dzero (lit "0.0.0.0") 5000 (lit "0.0.0.0") 5001 true (d_of_Z 20) (lit "info") [] true true 1280 720 (lit "cessna172") (d_of_Z 1000) (d_of_Z 50) dzero (d_of_Z 100) dzero dzero dzero dzero (d_of_Z 1) (d_of_Z 1) (d_of_Z 1).

(** ** Reading a line *)

(** The blanks of [" \t\r\n"]. *)
Definition blanks : str := [" "; "009"; "013"; "010"]%char.
Definition trim (s : str) : str := StringUtils.trim_of (one_of blanks) s.

Definition key_is (key : str) (name : string) : bool := bool_decide (key = lit name).

Definition parse_bool (val : str) : bool :=
  let v := StringUtils.to_lower (trim val) in
  key_is v "true" || key_is v "1" || key_is v "yes".

(** The chain of comparisons with the known keys; the conversions throw, and
    an unknown key is left alone. *)
Definition assign (key val : str) (c : Config) : throws Config :=
  if key_is key "time_step" then try v <- stod val; inr { c with time_step := v }
  else if key_is key "max_sim_time" then try v <- stod val; inr { c with max_sim_time := v }
  else if key_is key "telemetry_host" then inr { c with telemetry_host := val }
  else if key_is key "telemetry_port" then try v <- stoi val; inr { c with telemetry_port := u16 v }
  else if key_is key "command_host" then inr { c with command_host := val }
  else if key_is key "command_port" then try v <- stoi val; inr { c with command_port := u16 v }
  else if key_is key "networking_enabled" then inr { c with networking_enabled := parse_bool val }
  else if key_is key "telemetry_rate_hz" then try v <- stod val; inr { c with telemetry_rate_hz := v }
  else if key_is key "log_level" then inr { c with log_level := StringUtils.to_lower val }
  else if key_is key "log_file" then inr { c with log_file := val }
  else if key_is key "log_console" then inr { c with log_console := parse_bool val }
  else if key_is key "ui_enabled" then inr { c with ui_enabled := parse_bool val }
  else if key_is key "window_width" then try v <- stoi val; inr { c with window_width := v }
  else if key_is key "window_height" then try v <- stoi val; inr { c with window_height := v }
  else if key_is key "aircraft_type" then inr { c with aircraft_type := val }
  else if key_is key "initial_altitude_m" then try v <- stod val; inr { c with initial_altitude_m := v }
  else if key_is key "initial_airspeed_ms" then try v <- stod val; inr { c with initial_airspeed_ms := v }
  else if key_is key "initial_heading_deg" then try v <- stod val; inr { c with initial_heading_deg := v }
  else if key_is key "initial_fuel_kg" then try v <- stod val; inr { c with initial_fuel_kg := v }
  else if key_is key "wind_north_ms" then try v <- stod val; inr { c with wind_north_ms := v }
  else if key_is key "wind_east_ms" then try v <- stod val; inr { c with wind_east_ms := v }
  else if key_is key "wind_down_ms" then try v <- stod val; inr { c with wind_down_ms := v }
  else if key_is key "gust_intensity" then try v <- stod val; inr { c with gust_intensity := v }
  else if key_is key "elevator_sensitivity" then try v <- stod val; inr { c with elevator_sensitivity := v }
  else if key_is key "aileron_sensitivity" then try v <- stod val; inr { c with aileron_sensitivity := v }
  else if key_is key "rudder_sensitivity" then try v <- stod val; inr { c with rudder_sensitivity := v }
  else inr c.

(** Surrounding quotes are stripped. *)
Definition unquote (val : str) : str :=
  match val, last val with
  | "034"%char :: _, Some "034"%char =>
      if (2 <=? length val)%nat then substr 1 (length val - 2) val else val
  | _, _ => val
  end.

(** The key and the value of a line. *)
Definition parse_line (line : str) : option (str * str) :=
  let line := trim line in
  match line with
  | [] => None
  | "#"%char :: _ => None
  | _ =>
      match find_char "=" line with
      | None => None
      | Some eq_pos =>
          Some (StringUtils.to_lower (trim (substr 0 eq_pos line)), unquote (trim (drop (S eq_pos) line)))
      end
  end.

Definition process_line (c : Config) (line : str) : Config :=
  match parse_line line with
  | None => c
  | Some (key, val) => match assign key val c with inl _ => c | inr c => c end
  end.

(** The content of the file, when it can be opened. *)
Definition load_config (file : option str) : Config :=
  match file with
  | None => default_config
  | Some content => fold_left process_line (getline_all "010" content) default_config
  end.

(** ** The settings of a file *)

Inductive value := VDouble (d : double) | VInt (z : Z) | VBool (b : bool) | VString (s : str).

(** How the value of a key is written. *)
Inductive kind := KDouble | KString | KLower | KPort | KInt | KBool.

Definition kind_of (key : str) : option kind :=
  if key_is key "time_step" then Some KDouble
  else if key_is key "max_sim_time" then Some KDouble
  else if key_is key "telemetry_host" then Some KString
  else if key_is key "telemetry_port" then Some KPort
  else if key_is key "command_host" then Some KString
  else if key_is key "command_port" then Some KPort
  else if key_is key "networking_enabled" then Some KBool
  else if key_is key "telemetry_rate_hz" then Some KDouble
  else if key_is key "log_level" then Some KLower
  else if key_is key "log_file" then Some KString
  else if key_is key "log_console" then Some KBool
  else if key_is key "ui_enabled" then Some KBool
  else if key_is key "window_width" then Some KInt
  else if key_is key "window_height" then Some KInt
  else if key_is key "aircraft_type" then Some KString
  else if key_is key "initial_altitude_m" then Some KDouble
  else if key_is key "initial_airspeed_ms" then Some KDouble
  else if key_is key "initial_heading_deg" then Some KDouble
  else if key_is key "initial_fuel_kg" then Some KDouble
  else if key_is key "wind_north_ms" then Some KDouble
  else if key_is key "wind_east_ms" then Some KDouble
  else if key_is key "wind_down_ms" then Some KDouble
  else if key_is key "gust_intensity" then Some KDouble
  else if key_is key "elevator_sensitivity" then Some KDouble
  else if key_is key "aileron_sensitivity" then Some KDouble
  else if key_is key "rudder_sensitivity" then Some KDouble
  else None.

(** The value of a key in a configuration. *)
Definition setting (key : str) (c : Config) : option value :=
  if key_is key "time_step" then Some (VDouble (time_step c))
  else if key_is key "max_sim_time" then Some (VDouble (max_sim_time c))
  else if key_is key "telemetry_host" then Some (VString (telemetry_host c))
  else if key_is key "telemetry_port" then Some (VInt (telemetry_port c))
  else if key_is key "command_host" then Some (VString (command_host c))
  else if key_is key "command_port" then Some (VInt (command_port c))
  else if key_is key "networking_enabled" then Some (VBool (networking_enabled c))
  else if key_is key "telemetry_rate_hz" then Some (VDouble (telemetry_rate_hz c))
  else if key_is key "log_level" then Some (VString (log_level c))
  else if key_is key "log_file" then Some (VString (log_file c))
  else if key_is key "log_console" then Some (VBool (log_console c))
  else if key_is key "ui_enabled" then Some (VBool (ui_enabled c))
  else if key_is key "window_width" then Some (VInt (window_width c))
  else if key_is key "window_height" then Some (VInt (window_height c))
  else if key_is key "aircraft_type" then Some (VString (aircraft_type c))
  else if key_is key "initial_altitude_m" then Some (VDouble (initial_altitude_m c))
  else if key_is key "initial_airspeed_ms" then Some (VDouble (initial_airspeed_ms c))
  else if key_is key "initial_heading_deg" then Some (VDouble (initial_heading_deg c))
  else if key_is key "initial_fuel_kg" then Some (VDouble (initial_fuel_kg c))
  else if key_is key "wind_north_ms" then Some (VDouble (wind_north_ms c))
  else if key_is key "wind_east_ms" then Some (VDouble (wind_east_ms c))
  else if key_is key "wind_down_ms" then Some (VDouble (wind_down_ms c))
  else if key_is key "gust_intensity" then Some (VDouble (gust_intensity c))
  else if key_is key "elevator_sensitivity" then Some (VDouble (elevator_sensitivity c))
  else if key_is key "aileron_sensitivity" then Some (VDouble (aileron_sensitivity c))
  else if key_is key "rudder_sensitivity" then Some (VDouble (rudder_sensitivity c))
  else None.

Definition read_value (k : kind) (val : str) : option value :=
  match k with
  | KDouble => match stod val with inr d => Some (VDouble d) | inl _ => None end
  | KInt => match stoi val with inr z => Some (VInt z) | inl _ => None end
  | KPort => match stoi val with inr z => Some (VInt (u16 z)) | inl _ => None end
  | KString => Some (VString val)
  | KLower => Some (VString (StringUtils.to_lower val))
  | KBool => Some (VBool (parse_bool val))
  end.

(** What a line says: a known key and a value of its kind. *)
Definition line_setting (line : str) : option (str * value) :=
  match parse_line line with
  | None => None
  | Some (key, val) =>
      match kind_of key with
      | None => None
      | Some k => match read_value k val with Some v => Some (key, v) | None => None end
      end
  end.

(** The last value given to a key. *)
Definition last_setting (key : str) (settings : list (str * value)) : option value :=
  snd <$> last (filter (fun s => s.1 = key) settings).

(** ** Validation *)

(** [validate_config]: the error, or [None]. *)
Definition validate_config (c : Config) : option string :=
  if dleb (time_step c) dzero || dgtb (time_step c) (d_lit 1 1)
  then Some "time_step must be in (0, 0.1]"%string
  else if dltb (max_sim_time c) dzero then Some "max_sim_time must be >= 0"%string
  else if telemetry_port c =? 0 then Some "telemetry_port must be > 0"%string
  else if command_port c =? 0 then Some "command_port must be > 0"%string
  else if telemetry_port c =? command_port c
  then Some "telemetry_port and command_port must be different"%string
  else if dleb (telemetry_rate_hz c) dzero then Some "telemetry_rate_hz must be > 0"%string
  else if (window_width c <? 320) || (window_height c <? 240)
  then Some "window dimensions too small (min 320x240)"%string
  else if dltb (initial_altitude_m c) dzero || dgtb (initial_altitude_m c) (d_of_Z 50000)
  then Some "initial_altitude_m must be in [0, 50000]"%string
  else if dltb (initial_airspeed_ms c) dzero || dgtb (initial_airspeed_ms c) (d_of_Z 500)
  then Some "initial_airspeed_ms must be in [0, 500]"%string
  else if dltb (initial_heading_deg c) dzero || dgeb (initial_heading_deg c) (d_of_Z 360)
  then Some "initial_heading_deg must be in [0, 360)"%string
  else if dltb (initial_fuel_kg c) dzero then Some "initial_fuel_kg must be >= 0"%string
  else if dltb (gust_intensity c) dzero || dgtb (gust_intensity c) (d_of_Z 1)
  then Some "gust_intensity must be in [0, 1]"%string
  else if dleb (elevator_sensitivity c) dzero || dgtb (elevator_sensitivity c) (d_of_Z 5)
  then Some "elevator_sensitivity must be in (0, 5]"%string
  else if dleb (aileron_sensitivity c) dzero || dgtb (aileron_sensitivity c) (d_of_Z 5)
  then Some "aileron_sensitivity must be in (0, 5]"%string
  else if dleb (rudder_sensitivity c) dzero || dgtb (rudder_sensitivity c) (d_of_Z 5)
  then Some "rudder_sensitivity must be in (0, 5]"%string
  else None.

(** ** Loading *)

Definition effect (key val : str) : option value :=
  match kind_of key with Some k => read_value k val | None => None end.

Lemma key_is_true key n : key_is key n = true -> key = lit n.
Proof. apply bool_decide_eq_true. Qed.

Lemma key_is_other k key n : k <> key -> key = lit n -> key_is k n = false.
Proof. intros Hk ->. by apply bool_decide_eq_false_2. Qed.

(** An assignment changes the value of its own key, if it can be read. *)
Lemma assign_setting key val c k :
  setting k (match assign key val c with inl _ => c | inr c => c end) =
    if decide (k = key) then match effect key val with Some v => Some v | None => setting k c end
    else setting k c.
Proof.
  unfold assign, effect, kind_of.
  repeat match goal with
  | |- context [if key_is key ?n then _ else _] =>
      let H := fresh "Hkey" in destruct (key_is key n) eqn:H; [apply key_is_true in H|clear H]
  end; cbn [read_value];
    try match goal with |- context [stod ?v] => destruct (stod v) | |- context [stoi ?v] => destruct (stoi v) end.
  all: destruct (decide (k = key)) as [Hk|Hk]; [subst; reflexivity|].
  all: try (unfold setting; rewrite (key_is_other k key _ Hk Hkey)); reflexivity.
Qed.
(** What a line does to the value of a key. *)
Lemma process_line_setting c line k :
  setting k (process_line c line) =
    match line_setting line with
    | Some (key, v) => if decide (k = key) then Some v else setting k c
    | None => setting k c
    end.
Proof.
  unfold process_line, line_setting. destruct (parse_line line) as [[key val]|]; [|done].
  rewrite assign_setting. unfold effect. destruct (kind_of key) as [kd|]; [|by case_decide].
  destruct (read_value kd val); [done|by case_decide].
Qed.

Lemma fold_setting lines c k :
  setting k (fold_left process_line lines c) =
    match last_setting k (omap line_setting lines) with Some v => Some v | None => setting k c end.
Proof.
  induction lines as [|line lines IH] using rev_ind; [done|].
  rewrite fold_left_app. cbn [fold_left]. rewrite process_line_setting, IH, omap_app.
  unfold last_setting. rewrite filter_app. cbn [omap list_omap].
  destruct (line_setting line) as [[key v]|]; [|by rewrite app_nil_r].
  rewrite filter_cons, filter_nil. cbn [fst].
  destruct (decide (k = key)) as [->|Hk].
  - rewrite decide_True, last_snoc by done. done.
  - rewrite decide_False, app_nil_r by congruence. done.
Qed.

(** A file is its settings: for every content and every key, known or
    not, the configuration loaded has the last value that a line gives the key
    and that can be read as the key's kind; comments, lines without [=],
    unknown keys and unreadable values change nothing; a key without a
    setting keeps its default, as does everything when there is no file. *)
Theorem load_config_is_its_settings (content key : str) :
  setting key (load_config None) = setting key default_config /\
  setting key (load_config (Some content)) =
    match last_setting key (omap line_setting (getline_all "010" content)) with
    | Some v => Some v
    | None => setting key default_config
    end.
Proof. split; [done|]. apply fold_setting. Qed.

(** The machine types of the fields. *)
Definition is_port (z : Z) : Prop := 0 <= z <= 65535.

Definition well_typed (c : Config) : Prop :=
  is_port (telemetry_port c) /\ is_port (command_port c) /\
  in_i32 (window_width c) /\ in_i32 (window_height c).

Lemma u16_range z : is_port (u16 z).
Proof. unfold is_port, u16, wrapu. pose proof (Z.mod_pos_bound z (2 ^ 16)). lia. Qed.

Lemma assign_typed key val c c' : well_typed c -> assign key val c = inr c' -> well_typed c'.
Proof.
  intros (H1 & H2 & H3 & H4). unfold assign.
  repeat match goal with |- context [if key_is key ?n then _ else _] => destruct (key_is key n) end;
    try match goal with
    | |- context [stod ?v] => destruct (stod v)
    | |- context [stoi ?v] => destruct (stoi v) eqn:Hv; [|apply sto_signed_range in Hv]
    end; intros [= <-]; (split; [|split; [|split]]); assumption || apply u16_range.
Qed.

Lemma load_config_typed file : well_typed (load_config file).
Proof.
  assert (H0 : well_typed default_config) by (split_and!; by vm_compute).
  destruct file as [content|]; [|done]. cbn [load_config].
  generalize (getline_all "010" content). intros lines.
  induction lines as [|line lines IH] using rev_ind; [done|].
  rewrite fold_left_app. cbn [fold_left]. unfold process_line at 1.
  destruct (parse_line line) as [[key val]|]; [|done].
  destruct (assign key val _) eqn:Ha; [done|]. by eapply assign_typed.
Qed.

Record accepted (c : Config) : Prop := {
  a_time_step : number_in (time_step c) (dltb dzero (time_step c) = true /\ dleb (time_step c) (d_lit 1 1) = true);
  a_max_sim_time : number_in (max_sim_time c) (dleb dzero (max_sim_time c) = true);
  a_telemetry_port : 1 <= telemetry_port c <= 65535;
  a_command_port : 1 <= command_port c <= 65535;
  a_ports_differ : telemetry_port c <> command_port c;
  a_telemetry_rate : number_in (telemetry_rate_hz c) (dltb dzero (telemetry_rate_hz c) = true);
  a_window : 320 <= window_width c /\ 240 <= window_height c;
  a_altitude : d_within dzero (d_of_Z 50000) (initial_altitude_m c);
  a_airspeed : d_within dzero (d_of_Z 500) (initial_airspeed_ms c);
  a_heading : number_in (initial_heading_deg c)
    (dleb dzero (initial_heading_deg c) = true /\ dltb (initial_heading_deg c) (d_of_Z 360) = true);
  a_fuel : number_in (initial_fuel_kg c) (dleb dzero (initial_fuel_kg c) = true);
  a_gust : d_within dzero (d_of_Z 1) (gust_intensity c);
  a_elevator : number_in (elevator_sensitivity c)
    (dltb dzero (elevator_sensitivity c) = true /\ dleb (elevator_sensitivity c) (d_of_Z 5) = true);
  a_aileron : number_in (aileron_sensitivity c)
    (dltb dzero (aileron_sensitivity c) = true /\ dleb (aileron_sensitivity c) (d_of_Z 5) = true);
  a_rudder : number_in (rudder_sensitivity c)
    (dltb dzero (rudder_sensitivity c) = true /\ dleb (rudder_sensitivity c) (d_of_Z 5) = true)
}.

(** Validation accepts a configuration that a file can give exactly when
    the ports are distinct and not zero, the window is large enough, and every
    floating-point setting is in the range that the message for it states, or
    is not a number: every comparison with a NaN is false, so no test rejects
    it. *)
Theorem validation_admits_ranges_and_nan (file : option str) :
  validate_config (load_config file) = None <-> accepted (load_config file).
Proof.
  pose proof (load_config_typed file) as (Ht & Hc & _). unfold is_port in *.
  revert Ht Hc. generalize (load_config file). intros c Ht Hc. unfold validate_config.
  rewrite !passes, !test_oc, !test_cc, !test_co, !not_below, !not_at_most by done.
  rewrite orb_false_iff, !Z.eqb_neq, !Z.ltb_ge. split.
  - intros H. decompose [and] H. split; done || lia.
  - intros []. split_and!; done || lia.
Qed.

(** A file can disable the physics: the time step it gives is accepted. *)
Example nan_time_step_accepted :
  exists c, load_config (Some (lit "time_step = nan")) = c /\ validate_config c = None /\ is_nan (time_step c) = true.
Proof. eexists. split; [reflexivity|]. by vm_compute. Qed.

(** A port out of range is reduced modulo 2^16 instead of being refused. *)
Example port_wraps :
  exists c, load_config (Some (lit "telemetry_port = 70000")) = c /\ validate_config c = None /\
    telemetry_port c = 4464.
Proof. eexists. split; [reflexivity|]. by vm_compute. Qed.

End LuftConfig.
