(* ===== verification/FlightMath.v ===== *)
(** * Mathematics of the flight simulator (luft/src/core/math_types.h)

    Vectors, quaternions and the constants, in binary64: every operation of an
    expression rounds once, in the order in which C++ evaluates it.  The
    functions of the mathematical library that IEEE 754 does not determine are
    a class; [sqrt] is exact to rounding. *)

From S2P Require Import Prelude Double.

Declare Scope double_scope.
Delimit Scope double_scope with D.
Bind Scope double_scope with spec_float.

Notation "a + b" := (dadd a b) : double_scope.
Notation "a - b" := (dsub a b) : double_scope.
Notation "a * b" := (dmul a b) : double_scope.
Notation "a / b" := (ddiv a b) : double_scope.
Notation "- a" := (SFopp a) : double_scope.
Notation "a <? b" := (dltb a b) : double_scope.
Notation "a >? b" := (dgtb a b) : double_scope.
Notation "a <=? b" := (dleb a b) : double_scope.
Notation "a >=? b" := (dgeb a b) : double_scope.

(** The literals [n] and [n / 10^k]. *)
Definition num (n : Z) : double := d_of_Z n.
Definition dec (n k : Z) : double := d_lit n k.
Definition dzero : double := S754_zero false.

Definition dsqrt : double -> double := SFsqrt dprec demax.
Definition dabs : double -> double := SFabs.

(** [std::sin] and the like. *)
Class Libm := {
  m_sin : double -> double;
  m_cos : double -> double;
  m_asin : double -> double;
  m_atan2 : double -> double -> double;
  m_exp : double -> double;
  m_pow : double -> double -> double
}.

(** ** Constants *)

(** The binary64 number nearest to 3.14159265358979323846. *)
Definition kPi : double := S754_finite false 7074237752028440 (-51).
Definition kDegToRad : double := (kPi / num 180)%D.
Definition kGravity : double := dec 980665 5.
Definition kSeaLevelPressure : double := num 101325.
Definition kSeaLevelTemperature : double := dec 28815 2.
Definition kSeaLevelDensity : double := dec 1225 3.
Definition kLapseRate : double := dec 65 4.
Definition kTropopauseAlt : double := num 11000.
Definition kGasConstantAir : double := dec 287058 3.
Definition kGammaAir : double := dec 14 1.

Definition clamp (val lo hi : double) : double := d_clamp val lo hi.

(** ** Vectors *)

Module Vec3.
#[local] Open Scope double_scope.

Record t := mk { x : double; y : double; z : double }.

Definition zero : t := mk dzero dzero dzero.
Definition add (a b : t) : t := mk (x a + x b) (y a + y b) (z a + z b).
Definition sub (a b : t) : t := mk (x a - x b) (y a - y b) (z a - z b).
Definition scale (a : t) (s : double) : t := mk (x a * s) (y a * s) (z a * s).
Definition divide (a : t) (s : double) : t := mk (x a / s) (y a / s) (z a / s).
Definition magnitude_sq (a : t) : double := x a * x a + y a * y a + z a * z a.
Definition magnitude (a : t) : double := dsqrt (x a * x a + y a * y a + z a * z a).
Definition cross (a b : t) : t :=
  mk (y a * z b - z a * y b) (z a * x b - x a * z b) (x a * y b - y a * x b).

(** [std::isnan] of a component. *)
Definition has_nan (a : t) : bool := is_nan (x a) || is_nan (y a) || is_nan (z a).
End Vec3.

(** ** Quaternions *)

Module Quaternion.
#[local] Open Scope double_scope.

Record t := mk { w : double; x : double; y : double; z : double }.

Definition identity : t := mk (num 1) dzero dzero dzero.

Definition mul (p q : t) : t :=
  mk (w p * w q - x p * x q - y p * y q - z p * z q)
     (w p * x q + x p * w q + y p * z q - z p * y q)
     (w p * y q - x p * z q + y p * w q + z p * x q)
     (w p * z q + x p * y q - y p * x q + z p * w q).

Definition norm (q : t) : double := dsqrt (w q * w q + x q * x q + y q * y q + z q * z q).

Definition normalized (q : t) : t :=
  let n := norm q in
  if n <? dec 1 12 then identity else mk (w q / n) (x q / n) (y q / n) (z q / n).

Definition conjugate (q : t) : t := mk (w q) (- x q) (- y q) (- z q).

Definition vector (q : t) : Vec3.t := Vec3.mk (x q) (y q) (z q).

Definition rotate (q : t) (v : Vec3.t) : Vec3.t :=
  vector (mul (mul q (mk dzero (Vec3.x v) (Vec3.y v) (Vec3.z v))) (conjugate q)).

Definition inverse_rotate (q : t) (v : Vec3.t) : Vec3.t :=
  vector (mul (mul (conjugate q) (mk dzero (Vec3.x v) (Vec3.y v) (Vec3.z v))) q).

Definition add (p q : t) : t := mk (w p + w q) (x p + x q) (y p + y q) (z p + z q).
Definition scale (q : t) (s : double) : t := mk (w q * s) (x q * s) (y q * s) (z q * s).

Definition derivative (q : t) (omega : Vec3.t) : t :=
  let dq := mul q (mk dzero (Vec3.x omega) (Vec3.y omega) (Vec3.z omega)) in
  mk (w dq * dec 5 1) (x dq * dec 5 1) (y dq * dec 5 1) (z dq * dec 5 1).

Definition has_nan (q : t) : bool := is_nan (w q) || is_nan (x q) || is_nan (y q) || is_nan (z q).

Section euler.
Context `{Libm}.

Definition from_euler (roll pitch yaw : double) : t :=
  let cr := m_cos (roll * dec 5 1) in let sr := m_sin (roll * dec 5 1) in
  let cp := m_cos (pitch * dec 5 1) in let sp := m_sin (pitch * dec 5 1) in
  let cy := m_cos (yaw * dec 5 1) in let sy := m_sin (yaw * dec 5 1) in
  mk (cr * cp * cy + sr * sp * sy) (sr * cp * cy - cr * sp * sy)
     (cr * sp * cy + sr * cp * sy) (cr * cp * sy - sr * sp * cy).
End euler.
End Quaternion.

(** ** NaN spreads through arithmetic *)

Lemma dadd_nan_l b : dadd S754_nan b = S754_nan.
Proof. done. Qed.
Lemma dadd_nan_r a : dadd a S754_nan = S754_nan.
Proof. by destruct a. Qed.
Lemma dsub_nan_l b : dsub S754_nan b = S754_nan.
Proof. done. Qed.
Lemma dsub_nan_r a : dsub a S754_nan = S754_nan.
Proof. by destruct a. Qed.
Lemma dmul_nan_l b : dmul S754_nan b = S754_nan.
Proof. done. Qed.
Lemma dmul_nan_r a : dmul a S754_nan = S754_nan.
Proof. by destruct a. Qed.
Lemma ddiv_nan_l b : ddiv S754_nan b = S754_nan.
Proof. done. Qed.

#[export] Hint Rewrite dadd_nan_l dadd_nan_r dsub_nan_l dsub_nan_r dmul_nan_l dmul_nan_r ddiv_nan_l : nan.
