(* ===== verification/Flight.v ===== *)
(** * Flight dynamics (luft/src/core/: aircraft_state.h, atmosphere.cpp,
    wind_model.cpp, engine_model.cpp, aerodynamics.cpp, flight_dynamics.cpp)

    The physics of a time step, expression by expression: the standard
    atmosphere, the wind with its gusts, the lagging engine, the aerodynamic
    forces and moments, the derivatives and their Runge-Kutta integration with
    the contact with the ground. *)

From S2P Require Import Prelude Double FlightMath.

#[local] Open Scope double_scope.

(** ** Controls *)

Module ControlInput.
Record t := mk {
  elevator : double; aileron : double; rudder : double;
  throttle : double; flaps : double; trim : double
}.

(** [ControlInput{}] *)
Definition neutral : t := mk dzero dzero dzero dzero dzero dzero.

Definition clamp_all (c : t) : t :=
  mk (clamp (elevator c) (- num 1) (num 1)) (clamp (aileron c) (- num 1) (num 1))
     (clamp (rudder c) (- num 1) (num 1)) (clamp (throttle c) dzero (num 1))
     (clamp (flaps c) dzero (num 1)) (clamp (trim c) (- num 1) (num 1)).

(** Each control in its range, or not a number. *)
Definition in_range (c : t) : Prop :=
  d_within (- num 1) (num 1) (elevator c) /\ d_within (- num 1) (num 1) (aileron c) /\
  d_within (- num 1) (num 1) (rudder c) /\ d_within dzero (num 1) (throttle c) /\
  d_within dzero (num 1) (flaps c) /\ d_within (- num 1) (num 1) (trim c).

Lemma clamp_all_in_range c : in_range (clamp_all c).
Proof. split_and!; by apply d_clamp_within. Qed.
End ControlInput.

(** ** The aircraft *)

Record AircraftParams := mkParams {
  wing_area : double;
  wing_span : double;
  mean_chord : double;
  tail_arm : double;
  empty_mass : double;
  max_fuel_mass : double;
  Ixx : double;
  Iyy : double;
  Izz : double;
  Ixz : double;
  CL0 : double;
  CLa : double;
  CLde : double;
  CLq : double;
  CLdf : double;
  CD0 : double;
  CDi_k : double;
  Cm0 : double;
  Cma : double;
  Cmde : double;
  Cmq : double;
  Cmdf : double;
  Cyb : double;
  Cydr : double;
  Clb : double;
  Clp : double;
  Clr : double;
  Clda : double;
  Cldr : double;
  Cnb : double;
  Cnp : double;
  Cnr : double;
  Cnda : double;
  Cndr : double;
  max_elevator : double;
  max_aileron : double;
  max_rudder : double;
  max_flap : double;
  max_thrust : double;
  idle_thrust_frac : double;
  engine_spool_tau : double;
  sfc : double
}.

Definition default_params : AircraftParams :=
  mkParams
    (dec 162 1) (num 11) (dec 149 2) (dec 44 1) (num 757) (num 163)
    (dec 12853 1) (dec 18249 1) (dec 26669 1) dzero (dec 307 3) (dec 473 2)
    (dec 43 2) (dec 39 1) (dec 8 1) (dec 27 3) (dec 54 3) (dec 4 2)
    (- dec 613 3) (- dec 1122 3) (- dec 124 1) (- dec 1 1) (- dec 31 2) (dec 187 3)
    (- dec 89 3) (- dec 47 2) (dec 96 3) (- dec 178 3) (dec 147 4) (dec 65 3)
    (- dec 3 2) (- dec 99 3) (dec 2 2) (- dec 74 3) (num 28 * kDegToRad) (num 20 * kDegToRad)
    (num 16 * kDegToRad) (num 40 * kDegToRad) (num 2400) (dec 3 2) (num 1) (dec 8 5).

Record AircraftState := mkState {
  position : Vec3.t;           (** north, east, down *)
  velocity_body : Vec3.t;
  orientation : Quaternion.t;
  angular_velocity : Vec3.t;
  thrust_current : double;
  fuel_mass : double;
  airspeed : double;
  alpha : double;
  beta : double;
  altitude_msl : double;
  dynamic_pressure : double
}.

Definition default_state : AircraftState :=
  mkState (Vec3.mk dzero dzero (- num 1000)) (Vec3.mk (num 50) dzero dzero) Quaternion.identity
    Vec3.zero dzero (num 100) (num 50) dzero dzero (num 1000) dzero.

Definition total_mass (s : AircraftState) (p : AircraftParams) : double := empty_mass p + fuel_mass s.

Record ForcesAndMoments := mkForces { force : Vec3.t; moment : Vec3.t }.

(** ** Atmosphere *)

Module Atmosphere.
Record state := mk {
  temperature : double; pressure : double; density : double; speed_of_sound : double
}.

Section compute.
Context `{Libm}.

Definition compute (altitude_msl : double) : state :=
  let alt := if altitude_msl <? dzero then dzero else altitude_msl in
  let '(T, P) :=
    if alt <=? kTropopauseAlt then
      let T := kSeaLevelTemperature - kLapseRate * alt in
      let exp := kGravity / (kLapseRate * kGasConstantAir) in
      (T, kSeaLevelPressure * m_pow (T / kSeaLevelTemperature) exp)
    else
      let T_trop := kSeaLevelTemperature - kLapseRate * kTropopauseAlt in
      let exp_trop := kGravity / (kLapseRate * kGasConstantAir) in
      let P_trop := kSeaLevelPressure * m_pow (T_trop / kSeaLevelTemperature) exp_trop in
      let T := T_trop in
      let h_above := (if alt >? num 20000 then num 20000 else alt) - kTropopauseAlt in
      (T, P_trop * m_exp (- kGravity * h_above / (kGasConstantAir * T))) in
  mk T P (P / (kGasConstantAir * T)) (dsqrt (kGammaAir * kGasConstantAir * T)).
End compute.
End Atmosphere.

(** ** Wind *)

Module WindModel.
Record t := mk { base_wind_ : Vec3.t; gust_intensity_ : double; gusts_enabled_ : bool }.

Definition create : t := mk Vec3.zero dzero false.
Definition set_constant (wind_ned : Vec3.t) : t := mk wind_ned dzero false.
Definition set_with_gusts (wind_ned : Vec3.t) (gust_intensity : double) : t :=
  mk wind_ned gust_intensity true.

Section compute.
Context `{Libm}.

Definition compute (m : t) (altitude_msl sim_time : double) : Vec3.t :=
  let wind := base_wind_ m in
  if gusts_enabled_ m && (gust_intensity_ m >? dzero) then
    let t := sim_time in
    let gi := gust_intensity_ m in
    let alt_factor :=
      if altitude_msl <? num 300 then num 1 + dec 5 1 * (num 1 - altitude_msl / num 300) else num 1 in
    let gust_n := gi * alt_factor * (dec 5 1 * m_sin (dec 3 1 * t + num 1)
        + dec 3 1 * m_sin (dec 77 2 * t + dec 37 1) + dec 2 1 * m_sin (dec 183 2 * t + dec 5 1)) in
    let gust_e := gi * alt_factor * (dec 5 1 * m_sin (dec 4 1 * t + dec 23 1)
        + dec 3 1 * m_sin (dec 93 2 * t + dec 51 1) + dec 2 1 * m_sin (dec 217 2 * t + dec 12 1)) in
    let gust_d := gi * alt_factor * dec 5 1 * (dec 6 1 * m_sin (dec 35 2 * t + num 4)
        + dec 4 1 * m_sin (dec 11 1 * t + dec 28 1)) in
    Vec3.mk (Vec3.x wind + gust_n) (Vec3.y wind + gust_e) (Vec3.z wind + gust_d)
  else wind.
End compute.
End WindModel.

(** ** Engine *)

Module EngineModel.
Record state := mk { thrust : double; fuel_flow_rate : double }.

Definition update (throttle_command current_thrust airspeed air_density : double) (params : AircraftParams)
    (dt : double) : state :=
  let throttle := clamp throttle_command dzero (num 1) in
  let density_ratio := air_density / kSeaLevelDensity in
  let target_thrust :=
    max_thrust params * (idle_thrust_frac params + (num 1 - idle_thrust_frac params) * throttle)
      * density_ratio in
  let tau := engine_spool_tau params in
  let tau := if tau <? dec 1 2 then dec 1 2 else tau in
  let thrust_dot := (target_thrust - current_thrust) / tau in
  let new_thrust := current_thrust + thrust_dot * dt in
  let new_thrust := if new_thrust <? dzero then dzero else new_thrust in
  mk new_thrust (new_thrust * sfc params).
End EngineModel.

(** ** Aerodynamics *)

Module Aerodynamics.
Section compute.
Context `{Libm}.

Definition compute (s : AircraftState) (params : AircraftParams) (input : ControlInput.t)
    (air_density : double) : ForcesAndMoments :=
  let V := airspeed s in
  if V <? num 1 then mkForces Vec3.zero Vec3.zero
  else
    let alpha := alpha s in
    let beta := beta s in
    let qbar := dynamic_pressure s in
    let S := wing_area params in
    let b := wing_span params in
    let c := mean_chord params in
    let delta_e := ControlInput.elevator input * max_elevator params in
    let delta_a := ControlInput.aileron input * max_aileron params in
    let delta_r := ControlInput.rudder input * max_rudder params in
    let delta_f := ControlInput.flaps input * max_flap params in
    let p := Vec3.x (angular_velocity s) in
    let q := Vec3.y (angular_velocity s) in
    let r := Vec3.z (angular_velocity s) in
    let inv2V := num 1 / (num 2 * V) in
    let p_hat := p * b * inv2V in
    let q_hat := q * c * inv2V in
    let r_hat := r * b * inv2V in
    let CL := CL0 params + CLa params * alpha + CLde params * delta_e + CLq params * q_hat
              + CLdf params * delta_f in
    let CD := CD0 params + CDi_k params * CL * CL in
    let CY := Cyb params * beta + Cydr params * delta_r in
    let Cl := Clb params * beta + Clp params * p_hat + Clr params * r_hat + Clda params * delta_a
              + Cldr params * delta_r in
    let Cm := Cm0 params + Cma params * alpha + Cmde params * delta_e + Cmq params * q_hat
              + Cmdf params * delta_f in
    let Cn := Cnb params * beta + Cnp params * p_hat + Cnr params * r_hat + Cnda params * delta_a
              + Cndr params * delta_r in
    let L := qbar * S * CL in
    let D := qbar * S * CD in
    let cos_a := m_cos alpha in
    let sin_a := m_sin alpha in
    mkForces (Vec3.mk (- D * cos_a + L * sin_a) (qbar * S * CY) (- D * sin_a - L * cos_a))
             (Vec3.mk (qbar * S * b * Cl) (qbar * S * c * Cm) (qbar * S * b * Cn)).
End compute.
End Aerodynamics.

(** ** Integration *)

Module FlightDynamics.
Record StateDerivatives := mkDerivatives {
  position_dot : Vec3.t;
  velocity_body_dot : Vec3.t;
  orientation_dot : Quaternion.t;
  omega_dot : Vec3.t
}.

Section dynamics.
Context `{Libm}.

(** The velocity with respect to the air, in the body's frame. *)
Definition air_velocity (s : AircraftState) (wind : Vec3.t) : Vec3.t :=
  Vec3.sub (velocity_body s) (Quaternion.inverse_rotate (orientation s) wind).

(** [alpha] and [beta] at the air velocity [v] of magnitude [V]. *)
Definition air_angles (v : Vec3.t) (V : double) : double * double :=
  if V >? num 1
  then (m_atan2 (Vec3.z v) (Vec3.x v), m_asin (clamp (Vec3.y v / V) (- num 1) (num 1)))
  else (dzero, dzero).

Definition compute_derivatives (s : AircraftState) (params : AircraftParams) (input : ControlInput.t)
    (atmo : Atmosphere.state) (wind : Vec3.t) : StateDerivatives :=
  let position_dot := Quaternion.rotate (orientation s) (velocity_body s) in
  let air_vel := air_velocity s wind in
  let V := Vec3.magnitude air_vel in
  let '(a, b) := air_angles air_vel V in
  let qbar := if V >? num 1 then dec 5 1 * Atmosphere.density atmo * V * V else dzero in
  let aero_state := { { { { s with airspeed := V } with alpha := a } with beta := b }
                      with dynamic_pressure := qbar } in
  let aero_fm := Aerodynamics.compute aero_state params input (Atmosphere.density atmo) in
  let thrust_force := Vec3.mk (thrust_current s) dzero dzero in
  let gravity_ned := Vec3.mk dzero dzero (total_mass s params * kGravity) in
  let gravity_body := Quaternion.inverse_rotate (orientation s) gravity_ned in
  let mass := total_mass s params in
  let total_force := Vec3.add (Vec3.add (force aero_fm) thrust_force) gravity_body in
  let omega := angular_velocity s in
  let velocity_body_dot :=
    Vec3.sub (Vec3.divide total_force mass) (Vec3.cross omega (velocity_body s)) in
  let orientation_dot := Quaternion.derivative (orientation s) omega in
  let M := moment aero_fm in
  let p := Vec3.x omega in
  let q := Vec3.y omega in
  let r := Vec3.z omega in
  let Hx := Ixx params * p - Ixz params * r in
  let Hy := Iyy params * q in
  let Hz := Izz params * r - Ixz params * p in
  let gyro_term := Vec3.cross omega (Vec3.mk Hx Hy Hz) in
  let rhs_x := Vec3.x M - Vec3.x gyro_term in
  let rhs_y := Vec3.y M - Vec3.y gyro_term in
  let rhs_z := Vec3.z M - Vec3.z gyro_term in
  let det := Ixx params * Izz params - Ixz params * Ixz params in
  let det := if dabs det <? dec 1 12 then dec 1 12 else det in
  let inv_det := num 1 / det in
  mkDerivatives position_dot velocity_body_dot orientation_dot
    (Vec3.mk (inv_det * (Izz params * rhs_x + Ixz params * rhs_z)) (rhs_y / Iyy params)
             (inv_det * (Ixz params * rhs_x + Ixx params * rhs_z))).

(** The thrust and the fuel after the time step. *)
Definition burn (s : AircraftState) (params : AircraftParams) (input : ControlInput.t)
    (atmo : Atmosphere.state) (dt : double) : AircraftState :=
  let eng := EngineModel.update (ControlInput.throttle input) (thrust_current s) (airspeed s)
               (Atmosphere.density atmo) params dt in
  let s := { { s with thrust_current := EngineModel.thrust eng }
             with fuel_mass := fuel_mass s - EngineModel.fuel_flow_rate eng * dt } in
  if fuel_mass s <=? dzero then { { s with fuel_mass := dzero } with thrust_current := dzero } else s.

(** [apply_step]: the state [s0] moved along the derivatives [d]. *)
Definition apply_step (s0 : AircraftState) (d : StateDerivatives) (h : double) (s : AircraftState) : AircraftState :=
  { { { { s with position := Vec3.add (position s0) (Vec3.scale (position_dot d) h) }
          with velocity_body := Vec3.add (velocity_body s0) (Vec3.scale (velocity_body_dot d) h) }
        with orientation := Quaternion.normalized
               (Quaternion.add (orientation s0) (Quaternion.scale (orientation_dot d) h)) }
      with angular_velocity := Vec3.add (angular_velocity s0) (Vec3.scale (omega_dot d) h) }.

(** [(k1 + k2 * 2 + k3 * 2 + k4) * dt6] *)
Definition combine (k1 k2 k3 k4 : Vec3.t) (dt6 : double) : Vec3.t :=
  Vec3.scale (Vec3.add (Vec3.add (Vec3.add k1 (Vec3.scale k2 (num 2))) (Vec3.scale k3 (num 2))) k4) dt6.

Definition combine_q (k1 k2 k3 k4 : Quaternion.t) (dt6 : double) : Quaternion.t :=
  Quaternion.scale (Quaternion.add (Quaternion.add (Quaternion.add k1 (Quaternion.scale k2 (num 2)))
                     (Quaternion.scale k3 (num 2))) k4) dt6.

(** The Runge-Kutta step of fourth order. *)
Definition integrate (s0 : AircraftState) (params : AircraftParams) (input : ControlInput.t)
    (atmo : Atmosphere.state) (wind : Vec3.t) (dt : double) : AircraftState :=
  let k1 := compute_derivatives s0 params input atmo wind in
  let s := apply_step s0 k1 (dt * dec 5 1) s0 in
  let k2 := compute_derivatives s params input atmo wind in
  let s := apply_step s0 k2 (dt * dec 5 1) s in
  let k3 := compute_derivatives s params input atmo wind in
  let s := apply_step s0 k3 dt s in
  let k4 := compute_derivatives s params input atmo wind in
  let dt6 := dt / num 6 in
  { { { { s with position := Vec3.add (position s0)
            (combine (position_dot k1) (position_dot k2) (position_dot k3) (position_dot k4) dt6) }
          with velocity_body := Vec3.add (velocity_body s0)
            (combine (velocity_body_dot k1) (velocity_body_dot k2) (velocity_body_dot k3) (velocity_body_dot k4) dt6) }
        with orientation := Quaternion.normalized (Quaternion.add (orientation s0)
            (combine_q (orientation_dot k1) (orientation_dot k2) (orientation_dot k3) (orientation_dot k4) dt6)) }
      with angular_velocity := Vec3.add (angular_velocity s0)
            (combine (omega_dot k1) (omega_dot k2) (omega_dot k3) (omega_dot k4) dt6) }.

Definition set_z (v : Vec3.t) (z : double) : Vec3.t := Vec3.mk (Vec3.x v) (Vec3.y v) z.

(** The altitude, and the contact with the ground. *)
Definition ground_contact (s : AircraftState) : AircraftState :=
  let s := { s with altitude_msl := - Vec3.z (position s) } in
  if altitude_msl s <? dzero then
    let s := { { s with position := set_z (position s) dzero } with altitude_msl := dzero } in
    let s := if Vec3.z (velocity_body s) >? dzero
             then { s with velocity_body := set_z (velocity_body s) dzero } else s in
    let vel_ned := Quaternion.rotate (orientation s) (velocity_body s) in
    if Vec3.z vel_ned >? dzero
    then { s with velocity_body := Quaternion.inverse_rotate (orientation s) (set_z vel_ned dzero) }
    else s
  else s.

(** Airspeed, angles and dynamic pressure. *)
Definition derive (s : AircraftState) (atmo : Atmosphere.state) (wind : Vec3.t) : AircraftState :=
  let air_vel := air_velocity s wind in
  let V := Vec3.magnitude air_vel in
  let '(a, b) := air_angles air_vel V in
  { { { { s with airspeed := V } with alpha := a } with beta := b }
    with dynamic_pressure := dec 5 1 * Atmosphere.density atmo * V * V }.

Definition update (s : AircraftState) (params : AircraftParams) (input : ControlInput.t)
    (atmo : Atmosphere.state) (wind : Vec3.t) (dt : double) : AircraftState :=
  let s := burn s params input atmo dt in
  derive (ground_contact (integrate s params input atmo wind dt)) atmo wind.
End dynamics.
End FlightDynamics.
