(* ===== verification/Simulation.v ===== *)
(** * The simulation (luft/src/core/simulation_engine.cpp, input_manager.cpp)

    The engine that owns the aircraft: its life cycle, the fixed time step
    with the checks that follow it, and the controls, from other threads under
    the mutex or from held keys. *)

From S2P Require Import Prelude Double FlightMath Flight LuftConfig.

#[local] Open Scope double_scope.

(** [SimState] *)
Inductive SimState := Uninitialized | Initialized | Running | Paused | Stopped | Error.

#[export] Instance SimState_eq_dec : EqDecision SimState.
Proof. solve_decision. Defined.

Module SimulationEngine.

Record t := mk {
  wind_model_ : WindModel.t;
  aircraft_state_ : AircraftState;
  aircraft_params_ : AircraftParams;
  current_input_ : ControlInput.t;
  state_ : SimState;
  sim_time_ : double;
  tick_count_ : Z;
  time_step_ : double
}.

Definition create : t :=
  mk WindModel.create default_state default_params ControlInput.neutral Uninitialized dzero 0 (dec 1 2).

(** ** State machine *)

Definition is_valid_transition (from to : SimState) : bool :=
  match to with
  | Initialized => bool_decide (from = Uninitialized \/ from = Stopped)
  | Running => bool_decide (from = Initialized \/ from = Paused)
  | Paused => bool_decide (from = Running)
  | Stopped => bool_decide (from = Initialized \/ from = Running \/ from = Paused \/ from = Error)
  | Error => bool_decide (from = Running)
  | Uninitialized => false
  end.

Definition transition_to (e : t) (target : SimState) : bool * t :=
  if is_valid_transition (state_ e) target then (true, { e with state_ := target }) else (false, e).

Definition start (e : t) : t := (transition_to e Running).2.
Definition pause (e : t) : t := (transition_to e Paused).2.
Definition resume (e : t) : t := (transition_to e Running).2.

Definition stop (e : t) : t :=
  if bool_decide (state_ e = Uninitialized) then e else { e with state_ := Stopped }.

(** ** Validity *)

Definition kMaxSpeed : double := num 1000.
Definition kMaxAltitude : double := num 30000.
Definition kMinAltitude : double := - num 100.

(** [check_state_validity] *)
Definition check_state_validity (s : AircraftState) : bool :=
  if Vec3.has_nan (position s) then false
  else if Vec3.has_nan (velocity_body s) then false
  else if is_nan (airspeed s) || is_nan (alpha s) || is_nan (beta s) then false
  else if Quaternion.has_nan (orientation s) then false
  else if Vec3.has_nan (angular_velocity s) then false
  else if Vec3.magnitude_sq (velocity_body s) >? kMaxSpeed * kMaxSpeed then false
  else true.

(** The altitude and the fuel after the checks. *)
Definition clamp_state (s : AircraftState) : AircraftState :=
  let s := { s with altitude_msl := clamp (altitude_msl s) kMinAltitude kMaxAltitude } in
  let s := { s with position := FlightDynamics.set_z (position s) (- altitude_msl s) } in
  if fuel_mass s <? dzero then { s with fuel_mass := dzero } else s.

Section engine.
Context `{Libm}.

(** The aircraft of a configuration. *)
Definition initial_aircraft (config : LuftConfig.Config) : AircraftState :=
  let heading_rad := LuftConfig.initial_heading_deg config * kDegToRad in
  { { { { { { { default_state
      with altitude_msl := LuftConfig.initial_altitude_m config }
      with position := Vec3.mk dzero dzero (- LuftConfig.initial_altitude_m config) }
      with orientation := Quaternion.from_euler dzero dzero heading_rad }
      with velocity_body := Vec3.mk (LuftConfig.initial_airspeed_ms config) dzero dzero }
      with airspeed := LuftConfig.initial_airspeed_ms config }
      with fuel_mass := LuftConfig.initial_fuel_kg config }
      with thrust_current := dzero }.

Definition initial_wind (config : LuftConfig.Config) : WindModel.t :=
  let wind_ned := Vec3.mk (LuftConfig.wind_north_ms config) (LuftConfig.wind_east_ms config)
                    (LuftConfig.wind_down_ms config) in
  if LuftConfig.gust_intensity config >? dzero
  then WindModel.set_with_gusts wind_ned (LuftConfig.gust_intensity config)
  else WindModel.set_constant wind_ned.

Definition initialize (config : LuftConfig.Config) (e : t) : t :=
  mk (initial_wind config) (initial_aircraft config) default_params ControlInput.neutral
    Initialized dzero 0 (LuftConfig.time_step config).

Definition reset (config : LuftConfig.Config) (e : t) : t := initialize config e.

(** One time step of the physics. *)
Definition advance (e : t) : AircraftState :=
  let s := aircraft_state_ e in
  let atmo := Atmosphere.compute (altitude_msl s) in
  let wind := WindModel.compute (wind_model_ e) (altitude_msl s) (sim_time_ e) in
  FlightDynamics.update s (aircraft_params_ e) (current_input_ e) atmo wind (time_step_ e).

Definition step (e : t) : t :=
  if bool_decide (state_ e <> Running) then e
  else
    let e := { e with aircraft_state_ := advance e } in
    if negb (check_state_validity (aircraft_state_ e)) then { e with state_ := Error }
    else
      { { { e with aircraft_state_ ::= clamp_state } with sim_time_ := sim_time_ e + time_step_ e }
        with tick_count_ := u64 (tick_count_ e + 1) }.

Definition set_control_input (input : ControlInput.t) (e : t) : t :=
  { e with current_input_ := ControlInput.clamp_all input }.
(** ** Histories *)

Inductive op :=
| Initialize (config : LuftConfig.Config)
| Start | Pause | Resume | Stop
| Reset (config : LuftConfig.Config)
| Step
| Control (input : ControlInput.t).

Definition apply (e : t) (a : op) : t :=
  match a with
  | Initialize config => initialize config e
  | Start => start e
  | Pause => pause e
  | Resume => resume e
  | Stop => stop e
  | Reset config => reset config e
  | Step => step e
  | Control input => set_control_input input e
  end.

Definition run (ops : list op) (e : t) : t := fold_left apply ops e.

(** ** The state after each operation *)

Lemma transition_state e to :
  state_ (transition_to e to).2 = if is_valid_transition (state_ e) to then to else state_ e.
Proof. unfold transition_to. by destruct (is_valid_transition _ _). Qed.

Lemma transition_rest e to :
  (transition_to e to).2 = e \/ (transition_to e to).2 = { e with state_ := to }.
Proof. unfold transition_to. destruct (is_valid_transition _ _); auto. Qed.

(** The life cycle: what each operation does to the state, in every state. *)
Lemma lifecycle e a :
  state_ (apply e a) =
    match a, state_ e with
    | (Initialize _ | Reset _), _ => Initialized
    | (Start | Resume), (Initialized | Paused) => Running
    | Pause, Running => Paused
    | Stop, (Initialized | Running | Paused | Stopped | Error) => Stopped
    | Step, Running => if check_state_validity (advance e) then Running else Error
    | _, s => s
    end.
Proof.
  destruct a; cbn [apply]; try done; unfold start, pause, resume; rewrite ?transition_state.
  - by destruct (state_ e).
  - by destruct (state_ e).
  - by destruct (state_ e).
  - unfold stop. case_bool_decide as E; [by rewrite E|]. by destruct (state_ e).
  - unfold step. case_bool_decide as E; [by destruct (state_ e)|].
    rewrite E. cbn [aircraft_state_ apply_update constant].
    destruct (check_state_validity (advance e)); cbn; by rewrite ?E.
Qed.

(** ** The envelope *)

(** What holds of the aircraft after a time step. *)
Record Envelope (s : AircraftState) : Prop := {
  env_position : Vec3.has_nan (position s) = false;
  env_velocity : Vec3.has_nan (velocity_body s) = false;
  env_orientation : Quaternion.has_nan (orientation s) = false;
  env_rates : Vec3.has_nan (angular_velocity s) = false;
  env_air : is_nan (airspeed s) = false /\ is_nan (alpha s) = false /\ is_nan (beta s) = false;
  env_speed : Vec3.magnitude_sq (velocity_body s) >? kMaxSpeed * kMaxSpeed = false;
  env_altitude : (dzero <=? altitude_msl s) = true /\ (altitude_msl s <=? kMaxAltitude) = true;
  env_down : Vec3.z (position s) = - altitude_msl s;
  env_fuel : (fuel_mass s <? dzero) = false;
  env_thrust : (thrust_current s <? dzero) = false
}.

#[local] Arguments clamp : simpl never.
#[local] Arguments kMaxAltitude : simpl never.
#[local] Arguments kMinAltitude : simpl never.
#[local] Arguments d_of_Z : simpl never.
#[local] Arguments dltb : simpl never.
#[local] Arguments dleb : simpl never.
#[local] Arguments dgtb : simpl never.
#[local] Arguments is_nan : simpl never.
#[local] Arguments Vec3.has_nan : simpl never.
#[local] Arguments Vec3.magnitude_sq : simpl never.
#[local] Arguments Quaternion.has_nan : simpl never.
#[local] Arguments FlightDynamics.set_z : simpl never.
#[local] Arguments Quaternion.rotate : simpl never.
#[local] Arguments Quaternion.inverse_rotate : simpl never.

Lemma opp_nan d : is_nan (- d) = is_nan d.
Proof. by destruct d. Qed.

Lemma clamp_altitude v :
  is_nan v = false -> (v <? dzero) = false ->
  (dzero <=? clamp v kMinAltitude kMaxAltitude) = true /\ (clamp v kMinAltitude kMaxAltitude <=? kMaxAltitude) = true /\
  is_nan (clamp v kMinAltitude kMaxAltitude) = false.
Proof.
  intros Hn Hz. assert (Hpos : (dzero <=? v) = true) by (rewrite dleb_negb, Hz by done; done).
  unfold clamp, d_clamp. assert ((v <? kMinAltitude) = false) as ->.
  { destruct v as [sv|sv| |sv m e]; try done; by destruct sv. }
  destruct (v >? kMaxAltitude) eqn:Hv; [done|]. split_and!; [done| |done].
  rewrite dleb_negb by done. unfold dgtb in Hv. unfold dltb. by rewrite Hv.
Qed.

Lemma clamp_state_envelope s :
  check_state_validity s = true -> (altitude_msl s <? dzero) = false ->
  is_nan (altitude_msl s) = is_nan (Vec3.z (position s)) -> (thrust_current s <? dzero) = false ->
  Envelope (clamp_state s).
Proof.
  unfold check_state_validity. intros Hc Ha Hz Ht.
  repeat match type of Hc with (if ?b then _ else _) = true => destruct b eqn:?; [done|] end.
  rewrite !orb_false_iff in *.
  assert (Hn : is_nan (altitude_msl s) = false).
  { rewrite Hz. unfold Vec3.has_nan in *. rewrite !orb_false_iff in *. tauto. }
  destruct (clamp_altitude _ Hn Ha) as (H1 & H2 & H3).
  assert (HP : Vec3.has_nan (FlightDynamics.set_z (position s) (- clamp (altitude_msl s) kMinAltitude kMaxAltitude)) = false).
  { unfold Vec3.has_nan, FlightDynamics.set_z in *. cbn. rewrite !orb_false_iff, opp_nan in *. tauto. }
  unfold clamp_state. destruct s. fields.
  match goal with |- context [if ?b then _ else _] => destruct b eqn:Hf end;
    split; fields; done || tauto.
Qed.
(** ** One time step *)

Lemma burn_thrust s params input atmo dt :
  (thrust_current (FlightDynamics.burn s params input atmo dt) <? dzero) = false.
Proof.
  assert (He : forall c t v r, (EngineModel.thrust (EngineModel.update c t v r params dt) <? dzero) = false).
  { intros. unfold EngineModel.update. cbn [EngineModel.thrust].
    match goal with |- ((if ?b then _ else _) <? _) = false => destruct b eqn:Hb; [done|exact Hb] end. }
  unfold FlightDynamics.burn.
  match goal with |- (thrust_current (if ?b then _ else _) <? _) = false => destruct b; [done|apply He] end.
Qed.

Lemma integrate_thrust s params input atmo wind dt :
  thrust_current (FlightDynamics.integrate s params input atmo wind dt) = thrust_current s.
Proof. done. Qed.

Lemma derive_rest s atmo wind :
  let s' := FlightDynamics.derive s atmo wind in
  position s' = position s /\ altitude_msl s' = altitude_msl s /\ thrust_current s' = thrust_current s.
Proof. unfold FlightDynamics.derive. destruct (FlightDynamics.air_angles _ _). done. Qed.

Lemma ground_contact_rest s :
  let s' := FlightDynamics.ground_contact s in
  (altitude_msl s' <? dzero) = false /\ is_nan (altitude_msl s') = is_nan (Vec3.z (position s')) /\
  Vec3.x (position s') = Vec3.x (position s) /\ thrust_current s' = thrust_current s.
Proof.
  unfold FlightDynamics.ground_contact. cbv [apply_update constant]. cbn [altitude_msl].
  destruct (- Vec3.z (position s) <? dzero) eqn:Ha.
  - cbn [position altitude_msl velocity_body].
    repeat match goal with |- context [if ?b then _ else _] => destruct b end; split_and!; done.
  - split_and!; try done. cbn. by rewrite opp_nan.
Qed.

(** The physics keeps the altitude and the thrust from being negative. *)
Lemma advance_bounds e :
  (altitude_msl (advance e) <? dzero) = false /\
  is_nan (altitude_msl (advance e)) = is_nan (Vec3.z (position (advance e))) /\
  (thrust_current (advance e) <? dzero) = false.
Proof.
  unfold advance, FlightDynamics.update.
  match goal with |- context [FlightDynamics.derive ?s ?a ?w] => destruct (derive_rest s a w) as (-> & -> & ->) end.
  match goal with |- context [FlightDynamics.ground_contact ?s] => destruct (ground_contact_rest s) as (H1 & H2 & _ & ->) end.
  split_and!; [done|done|]. rewrite integrate_thrust. apply burn_thrust.
Qed.

(** ** The invariant *)

Record Invariant (e : t) : Prop := {
  inv_input : ControlInput.in_range (current_input_ e);
  inv_envelope : state_ e = Running \/ state_ e = Paused -> tick_count_ e <> 0 -> Envelope (aircraft_state_ e);
  inv_ready : state_ e = Initialized -> tick_count_ e = 0;
  inv_time : exists n, tick_count_ e = u64 (Z.of_nat n) /\
    sim_time_ e = Nat.iter n (fun t => t + time_step_ e) dzero
}.

Lemma neutral_in_range : ControlInput.in_range ControlInput.neutral.
Proof. split_and!; by right. Qed.

Lemma invariant_initialize config e : Invariant (initialize config e).
Proof.
  split; cbn; [apply neutral_in_range|intros [|]; done|done|]. by exists 0%nat.
Qed.

Lemma invariant_transition e to :
  Invariant e -> to <> Initialized -> Invariant (transition_to e to).2.
Proof.
  intros [H1 H2 H3 H4] Hto. unfold transition_to.
  destruct (is_valid_transition (state_ e) to) eqn:Hv; [|by split].
  split; cbn; [done| |done|done].
  intros [-> | ->] Ht; cbn in Hv; apply bool_decide_eq_true in Hv; apply H2; auto.
  destruct Hv as [Hi|]; [by apply H3 in Hi|auto].
Qed.

Lemma invariant_step e : Invariant e -> Invariant (step e).
Proof.
  intros [H1 H2 H3 (n & Hn & Ht)]. unfold step. case_bool_decide as Hs; [by split; eauto|].
  cbn [aircraft_state_ apply_update constant].
  destruct (check_state_validity (advance e)) eqn:Hc; cbn [negb].
  - destruct (advance_bounds e) as (Ha & Hz & Hthr).
    split; cbn; [done| |by destruct e; cbn in Hs; subst|].
    + intros _ _. by apply clamp_state_envelope.
    + exists (S n). destruct e; cbn in Hn, Ht |- *. rewrite Hn, Ht. split; [|done].
      rewrite u64_add_l, Nat2Z.inj_succ. done.
  - split; cbn; [done|by intros []|done|by exists n].
Qed.
Lemma invariant_apply e a : Invariant e -> Invariant (apply e a).
Proof.
  intros He. destruct a; cbn [apply]; try apply invariant_initialize; try by apply invariant_transition.
  - unfold stop. case_bool_decide; [done|]. destruct He as [H1 H2 H3 H4].
    split; cbn; [done|by intros []|done|done].
  - by apply invariant_step.
  - destruct He as [H1 H2 H3 H4]. split; cbn; [apply ControlInput.clamp_all_in_range|done..].
Qed.

Lemma invariant_run ops : Invariant (run ops create).
Proof.
  unfold run. induction ops as [|a ops IH] using rev_ind.
  - split; cbn; [apply neutral_in_range|by intros []|done|by exists 0%nat].
  - rewrite fold_left_app. by apply invariant_apply.
Qed.

(** C23. In every history of life-cycle calls, control inputs and time steps,
    from any threads, for every configuration and every mathematical library:
    a running or paused simulation that has made a step since it was
    initialised is within its envelope (no position, velocity, attitude, rate
    or angle is NaN, the speed is within the limit, the altitude between the
    ground and the ceiling and the position at that altitude, fuel and thrust
    not negative); the controls are in their ranges or not numbers; and the
    simulated time is the time step added once per tick. *)
Theorem flight_envelope (ops : list op) :
  let e := run ops create in
  ((state_ e = Running \/ state_ e = Paused) -> tick_count_ e <> 0 -> Envelope (aircraft_state_ e)) /\
  ControlInput.in_range (current_input_ e) /\
  exists n, tick_count_ e = u64 (Z.of_nat n) /\ sim_time_ e = Nat.iter n (fun t => t + time_step_ e) dzero.
Proof. destruct (invariant_run ops). split_and!; done. Qed.

(** ** A control that is not a number *)

Lemma compute_nan_elevator s params input d :
  is_nan (ControlInput.elevator input) = true -> (airspeed s <? num 1) = false ->
  is_nan (Vec3.x (force (Aerodynamics.compute s params input d))) = true.
Proof.
  intros Hn HV. assert (ControlInput.elevator input = S754_nan) as He by (by destruct (ControlInput.elevator input)).
  unfold Aerodynamics.compute. rewrite HV, He. cbv zeta. cbn [force Vec3.x]. autorewrite with nan.
  done.
Qed.
Lemma nan_value d : is_nan d = true -> d = S754_nan.
Proof. by destruct d. Qed.

Lemma opp_nan_value : SFopp S754_nan = S754_nan.
Proof. done. Qed.

(** The velocity's derivative. *)
Lemma derivatives_nan s params input atmo wind :
  is_nan (ControlInput.elevator input) = true ->
  (Vec3.magnitude (FlightDynamics.air_velocity s wind) <? num 1) = false ->
  Vec3.x (FlightDynamics.velocity_body_dot (FlightDynamics.compute_derivatives s params input atmo wind)) = S754_nan.
Proof.
  intros Hn HV. unfold FlightDynamics.compute_derivatives. destruct (FlightDynamics.air_angles _ _) as [a b].
  cbv zeta. set (aero := { _ with dynamic_pressure := _ }).
  cbn [FlightDynamics.velocity_body_dot Vec3.sub Vec3.divide Vec3.add Vec3.x].
  rewrite (nan_value (Vec3.x (force (Aerodynamics.compute aero params input _)))).
  - by autorewrite with nan.
  - by apply compute_nan_elevator.
Qed.

(** A velocity that is not a number makes the position one. *)
Lemma rotate_nan q v : Vec3.x v = S754_nan -> Vec3.x (Quaternion.rotate q v) = S754_nan.
Proof.
  intros Hv. unfold Quaternion.rotate, Quaternion.mul. rewrite Hv. cbn -[dadd dsub dmul]. by autorewrite with nan.
Qed.

Lemma integrate_nan s params input atmo wind dt :
  is_nan (ControlInput.elevator input) = true ->
  (Vec3.magnitude (FlightDynamics.air_velocity s wind) <? num 1) = false ->
  Vec3.x (position (FlightDynamics.integrate s params input atmo wind dt)) = S754_nan.
Proof.
  intros Hn HV. unfold FlightDynamics.integrate. cbv zeta.
  set (k1 := FlightDynamics.compute_derivatives s params input atmo wind).
  set (s1 := FlightDynamics.apply_step s k1 _ s).
  assert (Hv : Vec3.x (velocity_body s1) = S754_nan).
  { unfold s1, FlightDynamics.apply_step. cbn -[dadd dmul FlightDynamics.velocity_body_dot].
    unfold k1. rewrite derivatives_nan by done. by autorewrite with nan. }
  assert (Hp : Vec3.x (FlightDynamics.position_dot (FlightDynamics.compute_derivatives s1 params input atmo wind)) = S754_nan).
  { unfold FlightDynamics.compute_derivatives. destruct (FlightDynamics.air_angles _ _). by apply rotate_nan. }
  generalize dependent (FlightDynamics.compute_derivatives s1 params input atmo wind). intros k2 Hp.
  cbn [position apply_update constant Vec3.add Vec3.x FlightDynamics.combine Vec3.scale]. rewrite Hp.
  by autorewrite with nan.
Qed.

(** The clamp of the controls lets a NaN through, and a NaN elevator, which
    a command from the network can carry, is fatal: at an air speed of at
    least one metre per second the next step of a running simulation ends in
    the error state, where every further step is refused. *)
Theorem nan_command_is_fatal (e : t) (input : ControlInput.t)
    (Hrun : state_ e = Running)
    (Hnan : is_nan (ControlInput.elevator input) = true)
    (Hair : let wind := WindModel.compute (wind_model_ e) (altitude_msl (aircraft_state_ e)) (sim_time_ e) in
            (Vec3.magnitude (FlightDynamics.air_velocity (aircraft_state_ e) wind) <? num 1) = false) :
  let e' := step (set_control_input input e) in
  state_ e' = Error /\ step e' = e' /\ state_ (start e') = Error /\ state_ (resume e') = Error.
Proof.
  set (e1 := set_control_input input e).
  assert (H1 : is_nan (ControlInput.elevator (current_input_ e1)) = true).
  { cbn. apply nan_value in Hnan. by rewrite Hnan. }
  assert (Hbad : check_state_validity (advance e1) = false).
  { unfold check_state_validity. replace (Vec3.has_nan (position (advance e1))) with true; [done|].
    symmetry. unfold Vec3.has_nan. apply orb_true_iff. left. apply orb_true_iff. left.
    unfold advance, FlightDynamics.update.
    match goal with |- context [FlightDynamics.derive ?s ?a ?w] => destruct (derive_rest s a w) as (-> & _) end.
    match goal with |- context [FlightDynamics.ground_contact ?s] => destruct (ground_contact_rest s) as (_ & _ & -> & _) end.
    rewrite integrate_nan; [done|done|]. unfold FlightDynamics.burn. cbv zeta.
    destruct e. match goal with |- context [if ?b then _ else _] => destruct b end; exact Hair. }
  assert (He : state_ (step e1) = Error).
  { change (step e1) with (apply e1 Step). rewrite lifecycle. change (state_ e1) with (state_ e). by rewrite Hrun, Hbad. }
  cbv zeta. split_and!; [done|unfold step at 1; by rewrite bool_decide_eq_true_2 by congruence|..];
    unfold start, resume; by rewrite transition_state, He.
Qed.
End engine.
(** A library for the witness: every function is constant. *)
#[local] Definition flat_libm : Libm :=
  {| m_sin _ := dzero; m_cos _ := num 1; m_asin _ := dzero; m_atan2 _ _ := dzero;
     m_exp _ := num 1; m_pow _ _ := num 1 |}.

#[local] Definition nan_elevator : ControlInput.t :=
  ControlInput.mk S754_nan dzero dzero (dec 5 1) dzero dzero.

#[local] Existing Instance flat_libm.

Lemma nan_command_is_fatal_witness :
  let e := start (initialize LuftConfig.default_config create) in
  state_ e = Running /\ state_ (step (set_control_input nan_elevator e)) = Error.
Proof.
  split; [vm_compute; reflexivity|].
  exact (proj1 (nan_command_is_fatal (start (initialize LuftConfig.default_config create)) nan_elevator
    ltac:(vm_compute; reflexivity) ltac:(vm_compute; reflexivity) ltac:(vm_compute; reflexivity))).
Defined.

(** The comments give [resume] the transition from [Paused] only, and
    [initialize] those from [Uninitialized] and [Stopped]. *)
Lemma resume_starts `{Libm} config e : state_ (resume (initialize config e)) = Running.
Proof. done. Qed.

Lemma initialize_interrupts `{Libm} config e : state_ e = Running -> state_ (initialize config e) = Initialized.
Proof. done. Qed.
End SimulationEngine.

(** ** Keys *)

Module InputManager.

Inductive ControlAxis := Elevator | Aileron | Rudder | Throttle | Flaps | Trim.

Record KeyMapping := mkMapping { axis : ControlAxis; increment : double }.

Record t := mk {
  current_ : ControlInput.t;
  elevator_sensitivity_ : double;
  aileron_sensitivity_ : double;
  rudder_sensitivity_ : double;
  key_map_ : gmap Z KeyMapping;
  key_state_ : gmap Z bool
}.

Definition create : t := mk ControlInput.neutral (num 1) (num 1) (num 1) ∅ ∅.

Definition update (raw : ControlInput.t) (m : t) : t :=
  { m with current_ := ControlInput.clamp_all (ControlInput.mk
      (ControlInput.elevator raw * elevator_sensitivity_ m)
      (ControlInput.aileron raw * aileron_sensitivity_ m)
      (ControlInput.rudder raw * rudder_sensitivity_ m)
      (ControlInput.throttle raw) (ControlInput.flaps raw) (ControlInput.trim raw)) }.

Definition set_sensitivity (elevator aileron rudder : double) (m : t) : t :=
  { { { m with elevator_sensitivity_ := elevator } with aileron_sensitivity_ := aileron }
    with rudder_sensitivity_ := rudder }.

Definition reset (m : t) : t := { { m with current_ := ControlInput.neutral } with key_state_ := ∅ }.

Definition register_key (key_code : Z) (ax : ControlAxis) (inc : double) (m : t) : t :=
  { m with key_map_ ::= <[key_code := mkMapping ax inc]> }.

Definition handle_key_event (key_code : Z) (pressed : bool) (m : t) : t :=
  { m with key_state_ ::= <[key_code := pressed]> }.

Definition apply_axis_increment (ax : ControlAxis) (inc : double) (c : ControlInput.t) : ControlInput.t :=
  match ax with
  | Elevator => { c with ControlInput.elevator := ControlInput.elevator c + inc }
  | Aileron => { c with ControlInput.aileron := ControlInput.aileron c + inc }
  | Rudder => { c with ControlInput.rudder := ControlInput.rudder c + inc }
  | Throttle => { c with ControlInput.throttle := ControlInput.throttle c + inc }
  | Flaps => { c with ControlInput.flaps := ControlInput.flaps c + inc }
  | Trim => { c with ControlInput.trim := ControlInput.trim c + inc }
  end.

(** The body of the loop over the keys, in the order of the map. *)
Definition apply_key (m : t) (c : ControlInput.t) (entry : Z * bool) : ControlInput.t :=
  let '(key, held) := entry in
  if held then
    match key_map_ m !! key with
    | Some km => apply_axis_increment (axis km) (increment km) c
    | None => c
    end
  else c.

Definition process_keys `{!UnorderedMap} (m : t) : t :=
  { m with current_ := ControlInput.clamp_all (fold_left (apply_key m) (map_entries (key_state_ m)) (current_ m)) }.

(** The default bindings: scan codes of SDL. *)
Definition setup_default_mappings (m : t) : t :=
  let kAxisRate := dec 2 2 in
  let kThrottleRate := dec 1 2 in
  let kTrimRate := dec 5 3 in
  let kFlapStep := dec 25 2 in
  let m := register_key 22 Elevator (- kAxisRate) (register_key 26 Elevator kAxisRate m) in
  let m := register_key 7 Aileron kAxisRate (register_key 4 Aileron (- kAxisRate) m) in
  let m := register_key 8 Rudder kAxisRate (register_key 20 Rudder (- kAxisRate) m) in
  let m := register_key 86 Throttle (- kThrottleRate) (register_key 87 Throttle kThrottleRate m) in
  let m := register_key 9 Flaps kFlapStep m in
  register_key 10 Trim (- kTrimRate) (register_key 23 Trim kTrimRate m).

Section keys.
Context `{!UnorderedMap}.

Inductive op :=
| Update (raw : ControlInput.t)
| Sensitivity (elevator aileron rudder : double)
| ResetAll
| Register (key_code : Z) (ax : ControlAxis) (inc : double)
| KeyEvent (key_code : Z) (pressed : bool)
| ProcessKeys
| Defaults.

Definition apply (m : t) (a : op) : t :=
  match a with
  | Update raw => update raw m
  | Sensitivity e a r => set_sensitivity e a r m
  | ResetAll => reset m
  | Register k ax inc => register_key k ax inc m
  | KeyEvent k pressed => handle_key_event k pressed m
  | ProcessKeys => process_keys m
  | Defaults => setup_default_mappings m
  end.

(** The controls stay in their ranges under every input, sensitivity and key
    binding. *)
Lemma controls_in_range ops : ControlInput.in_range (current_ (fold_left apply ops create)).
Proof.
  induction ops as [|a ops IH] using rev_ind; [apply SimulationEngine.neutral_in_range|].
  rewrite fold_left_app. cbn [fold_left]. destruct a; cbn -[setup_default_mappings];
    try exact IH; try apply ControlInput.clamp_all_in_range.
  apply SimulationEngine.neutral_in_range.
Qed.

Lemma held_keys_only m :
  (forall k, key_state_ m !! k <> Some true) ->
  current_ (process_keys m) = ControlInput.clamp_all (current_ m).
Proof.
  intros Hup. cbn. f_equal.
  assert (forall k b, (k, b) ∈ map_entries (key_state_ m) -> b = false) as Hall.
  { intros k b Hk. rewrite map_entries_perm, elem_of_map_to_list in Hk.
    destruct b; [by apply Hup in Hk|done]. }
  revert Hall. generalize (map_entries (key_state_ m)). intros l.
  induction l as [|[k b] l IH]; intros Hall; [done|]. cbn.
  rewrite (Hall k b) by left. apply IH. intros k' b' Hk. apply (Hall k'). by right.
Qed.
End keys.
End InputManager.
