(* ===== verification/Config.v ===== *)
(** * Configuration of the router (sor/infra/config.h, config.cpp)

    The configuration read from a YAML document, its validation and the
    manager that loads, reloads and polls it.  The YAML library is a class:
    what a node is, its children, and the conversions with a fallback;
    [None] is an exception of the library. *)

From S2P Require Import Prelude Double CppString Types StringUtils.

(** ** YAML nodes *)

(** What the code uses of [YAML::Node].  [subscript] is [node[key]]: an
    undefined node when the key is missing, [None] for the exception of a
    scalar.  The conversions are those of [as<T>(fallback)]: [None] is the
    fallback. *)
Class Yaml (N : Type) := {
  defined : N -> bool;
  is_scalar : N -> bool;
  is_map : N -> bool;
  is_sequence : N -> bool;
  scalar : N -> str;
  entries : N -> list (N * N);
  elements : N -> list N;
  subscript : N -> str -> option N;
  as_string : N -> option str;
  as_bool : N -> option bool;
  as_uint16 : N -> option Z;
  as_int32 : N -> option Z;
  as_int64 : N -> option Z;
  as_double : N -> option double
}.

Definition is_uint16 (z : Z) : Prop := 0 <= z <= 65535.

(** The documented behaviour: the conversions stay within their types, and
    only a scalar refuses a key. *)
Class YamlLaws (N : Type) `{!Yaml N} : Prop := {
  as_uint16_range n z : as_uint16 n = Some z -> is_uint16 z;
  as_int32_range n z : as_int32 n = Some z -> in_i32 z;
  as_int64_range n z : as_int64 n = Some z -> in_i64 z;
  subscript_map n k : is_map n = true -> is_Some (subscript n k)
}.

(** ** The configuration *)

Record VenueConfig := mkVenue {
  venue_id : Z; v_name : str; v_type : str; v_endpoint : str;
  fee_rate : double; v_enabled : bool; v_max_orders_per_second : Z
}.

Definition default_venue : VenueConfig := mkVenue 0 [] [] [] (d_lit 1 3) true 100.

Record StrategyConfig := mkStrategy {
  default_strategy : RoutingStrategyTag;
  vwap_num_slices : Z; vwap_duration_seconds : Z; vwap_urgency : double;
  sweep_min_slice : Z; ioc_slippage_ticks : Z
}.

Record RiskConfig := mkRisk {
  max_order_quantity : Z; max_order_notional : Z; max_position_notional : Z;
  max_position_quantity : Z; max_orders_per_second : Z; max_open_orders : Z; max_loss : Z
}.

Record FixConfig := mkFix {
  fix_enabled : bool; listen_port : Z; sender_comp_id : str; target_comp_id : str;
  heartbeat_interval_sec : Z
}.

Record ApiConfig := mkApi {
  api_enabled : bool; zmq_order_endpoint : str; zmq_market_data_endpoint : str;
  zmq_execution_endpoint : str; max_message_size : Z
}.

Record MetricsConfig := mkMetrics {
  m_enabled : bool; bind_address : str; port : Z; m_path : str
}.

Record MarketDataConfig := mkMarketData {
  provider : str; alpaca_api_key : str; alpaca_api_secret : str; alpaca_ws_url : str;
  alpaca_use_sip : bool; symbols : list str; staleness_threshold_ms : Z;
  reconnect_delay_sec : Z; max_reconnect_attempts : Z
}.

Record SystemConfig := mkSystem {
  log_level : str; log_file : str; enable_metrics : bool; metrics_port : Z;
  venues : list VenueConfig; strategy : StrategyConfig; risk : RiskConfig;
  gw_fix : FixConfig; gw_api : ApiConfig; metrics : MetricsConfig;
  market_data : MarketDataConfig; data_dir : str
}.

Definition default_strategy_config : StrategyConfig :=
  mkStrategy RS_BestPrice 10 300 (d_lit 5 1) 10 2.
Definition default_risk : RiskConfig := mkRisk 10000 0 0 0 100 1000 0.
Definition default_fix : FixConfig := mkFix false 9876 (lit "SOR") (lit "CLIENT") 30.
Definition default_api : ApiConfig :=
  mkApi true (lit "tcp://*:5555") (lit "tcp://*:5556") (lit "tcp://*:5557") 65536.
Definition default_metrics : MetricsConfig := mkMetrics true (lit "0.0.0.0") 9090 (lit "/metrics").
Definition default_market_data : MarketDataConfig :=
  mkMarketData (lit "simulated") [] [] (lit "wss://stream.data.alpaca.markets/v2/iex") false [] 5000 5 10.
Definition default_system : SystemConfig :=
  mkSystem (lit "info") [] true 9090 [] default_strategy_config default_risk default_fix default_api
    default_metrics default_market_data [].

(** ** Parsing *)

(** [static_cast<int32_t>] of a double. *)
Definition i32_of_d (d : double) : Z :=
  match d_trunc d with
  | Some z => if bool_decide (in_i32 z) then z else -2147483648
  | None => -2147483648
  end.

Definition parse_routing_strategy (s : str) : RoutingStrategyTag :=
  if bool_decide (s = lit "best_price" \/ s = lit "BestPrice") then RS_BestPrice
  else if bool_decide (s = lit "liquidity_sweep" \/ s = lit "LiquiditySweep") then RS_LiquiditySweep
  else if bool_decide (s = lit "smart_ioc" \/ s = lit "SmartIOC") then RS_SmartIOC
  else if bool_decide (s = lit "vwap" \/ s = lit "VWAP") then RS_VWAP
  else RS_BestPrice.

Module ConfigParser.
Section parse.
Context {N : Type} `{!Yaml N}.

(** [if (node[key]) use(node[key])] *)
Definition optional {A} (n : N) (key : string) (use : N -> A -> A) (a : A) : option A :=
  v ← subscript n (lit key); Some (if defined v then use v a else a).

(** [if (auto child = node[key]; child && child.IsMap()) { body }] *)
Definition in_section {A} (n : N) (key : string) (body : N -> A -> option A) (a : A) : option A :=
  v ← subscript n (lit key); if defined v && is_map v then body v a else Some a.

(** [node[key].as<T>(fallback)] *)
Definition get {A} (conv : N -> option A) (n : N) (key : string) (fallback : A) : option A :=
  v ← subscript n (lit key); Some (default fallback (conv v)).

(** *** Flattening *)

(** The path of a child. *)
Definition map_path (prefix key : str) : str :=
  match prefix with [] => key | _ => prefix ++ "."%char :: key end.
Definition seq_path (prefix : str) (i : nat) : str :=
  prefix ++ "["%char :: to_string (Z.of_nat i) ++ lit "]".

(** What was written, and whether the function returned or threw (at a key
    that is no string). *)
Abbreviation flat := (gmap str str * bool)%type (only parsing).

(** The paths of the scalars, [a.b] for maps and [a[0]] for sequences; the
    fuel bounds the depth, [None] beyond it. *)
Fixpoint flatten_yaml (fuel : nat) (prefix : str) (n : N) (out : gmap str str) : option flat :=
  match fuel with
  | O => None
  | S fuel =>
      if is_scalar n then Some (<[prefix := scalar n]> out, true)
      else if is_map n then
        foldl (fun acc '(k, child) =>
          '(out, ok) ← acc;
          if negb ok then Some (out, false)
          else match as_string k with
               | None => Some (out, false)
               | Some key => flatten_yaml fuel (map_path prefix key) child out
               end)
          (Some (out, true)) (entries n)
      else if is_sequence n then
        foldl (fun acc '(i, child) =>
          '(out, ok) ← acc;
          if negb ok then Some (out, false) else flatten_yaml fuel (seq_path prefix i) child out)
          (Some (out, true)) (zip (seq 0 (length (elements n))) (elements n))
      else Some (out, true)
  end.

(** The children of a node with their paths; [None]: a key that is no
    string. *)
Definition children (prefix : str) (n : N) : list (option str * N) :=
  if is_map n then (fun '(k, child) => (map_path prefix <$> as_string k, child)) <$> entries n
  else if is_sequence n then
    (fun '(i, child) => (Some (seq_path prefix i), child)) <$> zip (seq 0 (length (elements n))) (elements n)
  else [].

(** The nodes below a node, with their paths. *)
Inductive reaches : str -> N -> str -> N -> Prop :=
| reaches_here p n : reaches p n p n
| reaches_below p n p' c q m :
    is_scalar n = false -> (Some p', c) ∈ children p n -> reaches p' c q m -> reaches p n q m.

Definition visit (fuel : nat) (acc : option (gmap str str * bool)) (x : option str * N) : option (gmap str str * bool) :=
  '(out, ok) ← acc;
  if negb ok then Some (out, false)
  else match x.1 with None => Some (out, false) | Some p => flatten_yaml fuel p x.2 out end.

Lemma flatten_children fuel p n out :
  is_scalar n = false ->
  flatten_yaml (S fuel) p n out = foldl (visit fuel) (Some (out, true)) (children p n).
Proof.
  intros Hs. cbn [flatten_yaml]. rewrite Hs. unfold children.
  assert (Hext : forall {A} (f g : option (gmap str str * bool) -> A -> _) l b, (forall b x, f b x = g b x) -> foldl f b l = foldl g b l).
  { intros A f g l. induction l as [|x l IH]; intros b H; cbn; [done|]. rewrite H. by apply IH. }
  assert (Hmap : forall {A} (g : A -> option str * N) l b, foldl (visit fuel) b (g <$> l) = foldl (fun acc x => visit fuel acc (g x)) b l).
  { intros A g l. induction l as [|x l IH]; intros b; cbn; [done|]. apply IH. }
  destruct (is_map n); [|destruct (is_sequence n); [|done]]; rewrite Hmap; apply Hext.
  - intros [[o []]|] [k c]; cbn; [|done..]. by destruct (as_string k).
  - intros [[o []]|] [k c]; done.
Qed.

(** A fold that went through: each child was flattened in turn. *)
Lemma visit_stops fuel l out out' : foldl (visit fuel) (Some (out, false)) l = Some (out', true) -> False.
Proof. induction l; cbn; [done|assumption]. Qed.

Lemma visit_none fuel l out' : foldl (visit fuel) None l = Some out' -> False.
Proof. induction l; cbn; [done|assumption]. Qed.

(** What a flattening that returns has written: the scalars, at their paths. *)
Definition wrote (p : str) (n : N) (out out' : gmap str str) : Prop :=
  forall q,
    (forall v, out' !! q = Some v -> out !! q = Some v \/ exists m, reaches p n q m /\ is_scalar m = true /\ v = scalar m) /\
    ((is_Some (out !! q) \/ exists m, reaches p n q m /\ is_scalar m = true) -> is_Some (out' !! q)).

Lemma flatten_wrote fuel p n out out' : flatten_yaml fuel p n out = Some (out', true) -> wrote p n out out'.
Proof.
  revert p n out out'; induction fuel as [|fuel IH]; intros p n out out'; [done|].
  destruct (is_scalar n) eqn:Hs.
  - cbn [flatten_yaml]. rewrite Hs. intros [= <-] q. destruct (decide (q = p)) as [->|Hq].
    + rewrite lookup_insert_eq. split; [|by eexists]. intros v [= <-]. right. exists n.
      split; [constructor|done].
    + rewrite lookup_insert_ne by done. split; [auto|]. intros [?|(m & Hm & _)]; [done|].
      inversion Hm; subst; congruence.
  - rewrite flatten_children by done.
    assert (H : forall l, (forall x, x ∈ l -> x ∈ children p n) -> forall out,
      foldl (visit fuel) (Some (out, true)) l = Some (out', true) ->
      forall q, (forall v, out' !! q = Some v -> out !! q = Some v \/ exists m, reaches p n q m /\ is_scalar m = true /\ v = scalar m) /\
        ((is_Some (out !! q) \/ exists p' c m, (Some p', c) ∈ l /\ reaches p' c q m /\ is_scalar m = true) -> is_Some (out' !! q))).
    { induction l as [|[[p'|] c] l IHl]; intros Hl o; cbn; [| |by intros ?%visit_stops].
      - intros [= <-] q. split; [auto|]. intros [?|(? & ? & ? & Hin & _)]; [done|by apply elem_of_nil in Hin].
      - destruct (flatten_yaml fuel p' c o) as [[o1 []]|] eqn:Hf; [|by intros ?%visit_stops|by intros ?%visit_none].
        intros Hfold q. destruct (IH _ _ _ _ Hf q) as [H1 H2].
        destruct (IHl (fun x Hx => Hl x (list_elem_of_further _ _ _ Hx)) o1 Hfold q) as [H3 H4]. split.
        + intros v Hv. destruct (H3 v Hv) as [Ho|]; [|by right]. destruct (H1 v Ho) as [|(m & Hm & Hsm & ->)]; [by left|].
          right. exists m. split; [|done]. eapply reaches_below; [done| |done]. apply Hl. by left.
        + intros [Ho|(p2 & c2 & m & Hin & Hm & Hsm)]; apply H4; [left; apply H2; by left|].
          apply elem_of_cons in Hin as [[= -> ->]|Hin]; [left; apply H2; right; by exists m|right; by exists p2, c2, m]. }
    intros Hfold q. destruct (H _ (fun x Hx => Hx) _ Hfold q) as [H1 H2]. split; [done|].
    intros [Ho|(m & Hm & Hsm)]; apply H2; [by left|right].
    inversion Hm as [|? ? p' c ? ? _ Hin Hr]; subst; [congruence|]. by exists p', c, m.
Qed.

(** A document of bounded depth is flattened. *)
Lemma flatten_returns (height : N -> nat) fuel p n out :
  (forall p n p' c, is_scalar n = false -> (p', c) ∈ children p n -> (height c < height n)%nat) ->
  (height n < fuel)%nat -> is_Some (flatten_yaml fuel p n out).
Proof.
  intros Hh. revert p n out; induction fuel as [|fuel IH]; intros p n out Hf; [lia|].
  destruct (is_scalar n) eqn:Hs; [cbn; rewrite Hs; by eexists|]. rewrite flatten_children by done.
  assert (H : forall l, (forall x, x ∈ l -> x ∈ children p n) -> forall r, is_Some (foldl (visit fuel) (Some r) l)).
  { induction l as [|[p' c] l IHl]; intros Hl r; cbn [foldl]; [by eexists|].
    assert (Hv : is_Some (visit fuel (Some r) (p', c))).
    { unfold visit. destruct r as [o []]; cbn; [|by eexists]. destruct p' as [p'|]; [|by eexists].
      apply IH. pose proof (Hh p n (Some p') c Hs ltac:(apply Hl; by left)). lia. }
    destruct Hv as [r' ->]. apply IHl. intros x Hx. apply Hl. by right. }
  by apply H.
Qed.

(** *** The sections *)

Definition parse_system (root : N) (c : SystemConfig) : option SystemConfig :=
  c ← in_section root "system" (fun sys c =>
        c ← optional sys "log_level" (fun v c => { c with log_level := default (lit "info") (as_string v) }) c;
        optional sys "log_file" (fun v c => { c with log_file := default [] (as_string v) }) c) c;
  c ← optional root "log_level" (fun v c => { c with log_level := default (lit "info") (as_string v) }) c;
  c ← optional root "log_file" (fun v c => { c with log_file := default [] (as_string v) }) c;
  optional root "data_dir" (fun v c => { c with data_dir := default [] (as_string v) }) c.

Definition parse_venue (vnode : N) : option VenueConfig :=
  id2 ← get as_uint16 vnode "venue_id" 0;
  id ← get as_uint16 vnode "id" id2;
  nm ← get as_string vnode "name" [];
  ty2 ← get as_string vnode "type" (lit "simulated");
  ty ← get as_string vnode "adapter" ty2;
  ep ← get as_string vnode "endpoint" [];
  fee ← get as_double vnode "fee_rate" (d_lit 1 3);
  en ← get as_bool vnode "enabled" true;
  r2 ← get as_int32 vnode "max_orders_per_second" 100;
  r ← get as_int32 vnode "max_order_rate" r2;
  Some (mkVenue id nm ty ep fee en r).

Definition parse_venues (root : N) (c : SystemConfig) : option SystemConfig :=
  vs ← subscript root (lit "venues");
  if defined vs && is_sequence vs then
    foldl (fun acc vnode => c ← acc; v ← parse_venue vnode; Some { c with venues ::= fun l => l ++ [v] })
      (Some c) (elements vs)
  else Some c.

Definition parse_vwap (vwap_node : N) (s : StrategyConfig) : option StrategyConfig :=
  s ← optional vwap_node "num_slices" (fun v s => { s with vwap_num_slices := default 10 (as_int32 v) }) s;
  s ← optional vwap_node "interval_sec" (fun v s =>
        { s with vwap_duration_seconds :=
            i32_of_d (dmul (default (d_of_Z 15) (as_double v)) (d_of_Z (vwap_num_slices s))) }) s;
  optional vwap_node "participation_rate" (fun v s => { s with vwap_urgency := default (d_lit 5 2) (as_double v) }) s.

Definition parse_strategy_section (snode : N) (s : StrategyConfig) : option StrategyConfig :=
  s ← optional snode "default_strategy" (fun v s =>
        { s with default_strategy := parse_routing_strategy (default (lit "best_price") (as_string v)) }) s;
  strategies ← subscript snode (lit "strategies");
  s ← in_section strategies "vwap" parse_vwap s;
  s ← optional snode "vwap_num_slices" (fun v s => { s with vwap_num_slices := default 10 (as_int32 v) }) s;
  s ← optional snode "vwap_duration_seconds" (fun v s => { s with vwap_duration_seconds := default 300 (as_int32 v) }) s;
  s ← optional snode "vwap_urgency" (fun v s => { s with vwap_urgency := default (d_lit 5 1) (as_double v) }) s;
  s ← optional snode "sweep_min_slice" (fun v s => { s with sweep_min_slice := default 10 (as_int64 v) }) s;
  optional snode "ioc_slippage_ticks" (fun v s => { s with ioc_slippage_ticks := default 2 (as_int32 v) }) s.

(** [strategy], or [routing] when that is no map. *)
Definition parse_strategy (root : N) (c : SystemConfig) : option SystemConfig :=
  snode ← subscript root (lit "strategy");
  snode ← (if negb (defined snode) || negb (is_map snode) then subscript root (lit "routing") else Some snode);
  if defined snode && is_map snode then
    s ← parse_strategy_section snode (strategy c); Some { c with strategy := s }
  else Some c.

Definition price_of (n : N) : Price := to_price (default (S754_zero false) (as_double n)).

Definition parse_risk_section (rnode : N) (r : RiskConfig) : option RiskConfig :=
  r ← optional rnode "max_order_quantity" (fun v r => { r with max_order_quantity := default 10000 (as_int64 v) }) r;
  r ← optional rnode "max_order_notional" (fun v r => { r with max_order_notional := price_of v }) r;
  r ← optional rnode "max_position_per_symbol" (fun v r => { r with max_position_quantity := default 0 (as_int64 v) }) r;
  r ← optional rnode "max_position_notional" (fun v r => { r with max_position_notional := price_of v }) r;
  r ← optional rnode "max_position_quantity" (fun v r => { r with max_position_quantity := default 0 (as_int64 v) }) r;
  r ← in_section rnode "rate_limiter" (fun rl r =>
        optional rl "max_orders_per_second" (fun v r => { r with max_orders_per_second := default 100 (as_int32 v) }) r) r;
  r ← optional rnode "max_orders_per_second" (fun v r => { r with max_orders_per_second := default 100 (as_int32 v) }) r;
  r ← optional rnode "max_open_orders" (fun v r => { r with max_open_orders := default 1000 (as_int32 v) }) r;
  r ← in_section rnode "kill_switch" (fun ks r =>
        optional ks "max_loss_threshold" (fun v r => { r with max_loss := price_of v }) r) r;
  optional rnode "max_loss" (fun v r => { r with max_loss := price_of v }) r.

Definition parse_risk (root : N) (c : SystemConfig) : option SystemConfig :=
  in_section root "risk" (fun rnode c => r ← parse_risk_section rnode (risk c); Some { c with risk := r }) c.

Definition parse_fix (fix_ : N) : option FixConfig :=
  en ← get as_bool fix_ "enabled" false;
  p ← get as_int32 fix_ "listen_port" 9876;
  snd ← get as_string fix_ "sender_comp_id" (lit "SOR");
  tgt ← get as_string fix_ "target_comp_id" (lit "CLIENT");
  hb ← get as_int32 fix_ "heartbeat_interval_sec" 30;
  Some (mkFix en p snd tgt hb).

Definition parse_api (api : N) : option ApiConfig :=
  en ← get as_bool api "enabled" false;
  o ← get as_string api "zmq_endpoint" (lit "tcp://*:5555");
  m ← get as_string api "zmq_market_data_endpoint" (lit "tcp://*:5556");
  e ← get as_string api "zmq_execution_endpoint" (lit "tcp://*:5557");
  z ← get as_int32 api "max_message_size" 65536;
  Some (mkApi en o m e z).

Definition parse_gateway (root : N) (c : SystemConfig) : option SystemConfig :=
  in_section root "gateway" (fun gnode c =>
    c ← in_section gnode "fix" (fun f c => x ← parse_fix f; Some { c with gw_fix := x }) c;
    in_section gnode "api" (fun a c => x ← parse_api a; Some { c with gw_api := x }) c) c.

Definition parse_prometheus (prom : N) : option MetricsConfig :=
  en ← get as_bool prom "enabled" true;
  b ← get as_string prom "endpoint" (lit "0.0.0.0");
  p ← get as_int32 prom "port" 9090;
  pa ← get as_string prom "path" (lit "/metrics");
  Some (mkMetrics en b p pa).

Definition parse_metrics (root : N) (c : SystemConfig) : option SystemConfig :=
  c ← in_section root "metrics" (fun mnode c =>
        in_section mnode "prometheus" (fun prom c => x ← parse_prometheus prom; Some { c with metrics := x }) c) c;
  em ← subscript root (lit "enable_metrics");
  let c := { c with enable_metrics := if defined em then default true (as_bool em) else m_enabled (metrics c) } in
  mp ← subscript root (lit "metrics_port");
  Some { c with metrics_port := if defined mp then default 9090 (as_int32 mp) else port (metrics c) }.

(** [${VAR}] stands for the variable's value; [getenv] is the environment. *)
Definition expand_env (getenv : str -> option str) (val : str) : str :=
  match val, last val with
  | "$"%char :: "{"%char :: _, Some "}"%char =>
      if (3 <? length val)%nat then default [] (getenv (substr 2 (length val - 3) val)) else val
  | _, _ => val
  end.

Definition parse_symbols (mdnode : N) (m : MarketDataConfig) : option MarketDataConfig :=
  sy ← subscript mdnode (lit "symbols");
  if defined sy && is_sequence sy then
    foldl (fun acc s => m ← acc; v ← as_string s; Some { m with symbols ::= fun l => l ++ [v] })
      (Some m) (elements sy)
  else Some m.

Definition parse_alpaca (alpaca : N) (m : MarketDataConfig) : option MarketDataConfig :=
  k ← get as_string alpaca "api_key" [];
  s ← get as_string alpaca "api_secret" [];
  u ← get as_string alpaca "ws_url" (lit "wss://stream.data.alpaca.markets/v2/iex");
  sip ← get as_bool alpaca "use_sip" false;
  Some { { { { m with alpaca_api_key := k } with alpaca_api_secret := s } with alpaca_ws_url := u }
         with alpaca_use_sip := sip }.

Definition parse_market_data (getenv : str -> option str) (root : N) (c : SystemConfig) : option SystemConfig :=
  in_section root "market_data" (fun mdnode c =>
    p ← get as_string mdnode "provider" (lit "simulated");
    m ← in_section mdnode "alpaca" parse_alpaca { (market_data c) with provider := p };
    m ← parse_symbols mdnode m;
    st ← get as_int32 mdnode "staleness_threshold_ms" 5000;
    rd ← get as_int32 mdnode "reconnect_delay_sec" 5;
    ra ← get as_int32 mdnode "max_reconnect_attempts" 10;
    let m := { { { m with staleness_threshold_ms := st } with reconnect_delay_sec := rd }
               with max_reconnect_attempts := ra } in
    let m := { { m with alpaca_api_key ::= expand_env getenv } with alpaca_api_secret ::= expand_env getenv } in
    Some { c with market_data := m }) c.

(** The structured part of [parse_yaml]. *)
Definition parse_config (getenv : str -> option str) (root : N) : option SystemConfig :=
  c ← parse_system root default_system;
  c ← parse_venues root c;
  c ← parse_strategy root c;
  c ← parse_risk root c;
  c ← parse_gateway root c;
  c ← parse_metrics root c;
  parse_market_data getenv root c.
End parse.
End ConfigParser.

(** ** Types *)

(** The machine types of the fields. *)
Definition typed_venue (v : VenueConfig) : Prop :=
  is_uint16 (venue_id v) /\ in_i32 (v_max_orders_per_second v).
Definition typed_strategy (s : StrategyConfig) : Prop :=
  in_i32 (vwap_num_slices s) /\ in_i32 (vwap_duration_seconds s) /\
  in_i64 (sweep_min_slice s) /\ in_i32 (ioc_slippage_ticks s).
Definition typed_risk (r : RiskConfig) : Prop :=
  in_i64 (max_order_quantity r) /\ in_i64 (max_order_notional r) /\ in_i64 (max_position_notional r) /\
  in_i64 (max_position_quantity r) /\ in_i32 (max_orders_per_second r) /\
  in_i32 (max_open_orders r) /\ in_i64 (max_loss r).
Definition typed_fix (f : FixConfig) : Prop := in_i32 (listen_port f) /\ in_i32 (heartbeat_interval_sec f).
Definition typed_api (a : ApiConfig) : Prop := in_i32 (max_message_size a).
Definition typed_port (m : MetricsConfig) : Prop := in_i32 (port m).
Definition typed_market_data (m : MarketDataConfig) : Prop :=
  in_i32 (staleness_threshold_ms m) /\ in_i32 (reconnect_delay_sec m) /\ in_i32 (max_reconnect_attempts m).

Record typed (c : SystemConfig) : Prop := {
  t_metrics_port : in_i32 (metrics_port c);
  t_venues : Forall typed_venue (venues c);
  t_strategy : typed_strategy (strategy c);
  t_risk : typed_risk (risk c);
  t_fix : typed_fix (gw_fix c);
  t_api : typed_api (gw_api c);
  t_port : typed_port (metrics c);
  t_market_data : typed_market_data (market_data c)
}.

Module Typing.
Section typing.
Context {N : Type} `{!Yaml N} `{!YamlLaws N}.
Import ConfigParser.

Lemma optional_inv {A} (P : A -> Prop) n key use (a a' : A) :
  P a -> (forall v b, P b -> P (use v b)) -> optional n key use a = Some a' -> P a'.
Proof.
  unfold optional. intros Ha Hu. destruct (subscript n _) as [v|]; cbn; [|done].
  intros [= <-]. destruct (defined v); auto.
Qed.

Lemma in_section_inv {A} (P : A -> Prop) n key body (a a' : A) :
  P a -> (forall v b b', P b -> body v b = Some b' -> P b') -> in_section n key body a = Some a' -> P a'.
Proof.
  unfold in_section. intros Ha Hb. destruct (subscript n _) as [v|]; cbn; [|done].
  destruct (defined v && is_map v); [by apply Hb|by intros [= <-]].
Qed.

Lemma get_inv {A} (P : A -> Prop) conv (n : N) key fallback a :
  P fallback -> (forall v x, conv v = Some x -> P x) -> get conv n key fallback = Some a -> P a.
Proof.
  unfold get. intros Hf Hc. destruct (subscript n _) as [v|]; cbn; [|done].
  intros [= <-]. destruct (conv v) eqn:E; cbn; [by eapply Hc|done].
Qed.

Lemma default_range {A} (P : A -> Prop) (o : option A) a : P a -> (forall x, o = Some x -> P x) -> P (default a o).
Proof. destruct o; cbn; auto. Qed.

Lemma i32_of_d_range d : in_i32 (i32_of_d d).
Proof. unfold i32_of_d. destruct (d_trunc d); [case_bool_decide|]; done. Qed.

Lemma price_of_range (n : N) : in_i64 (price_of n).
Proof. apply i64_of_d_range. Qed.
End typing.

(** A sequence of steps that keep a property. *)
Lemma chain {A} (P : A -> Prop) (o : option A) (f : A -> option A) a :
  (forall x, o = Some x -> P x) -> (forall x y, P x -> f x = Some y -> P y) -> o ≫= f = Some a -> P a.
Proof. destruct o as [x|]; cbn; [|done]. intros Hx Hf. apply Hf. by apply Hx. Qed.

Lemma chain_to {A B} (P : A -> Prop) (Q : B -> Prop) (o : option A) (f : A -> option B) b :
  (forall x, o = Some x -> P x) -> (forall x y, P x -> f x = Some y -> Q y) -> o ≫= f = Some b -> Q b.
Proof. destruct o as [x|]; cbn; [|done]. intros Hx Hf. apply Hf. by apply Hx. Qed.

Ltac field_range :=
  first [ assumption | apply i32_of_d_range | apply price_of_range
        | apply default_range; [done|intros ?; (apply as_int32_range || apply as_int64_range)] ].

(** A step that sets one field. *)
Ltac set_field :=
  let v := fresh "v" in let b := fresh "b" in let H := fresh "H" in
  intros v b H; destruct b; unfold typed_risk, typed_strategy in *; cbn in *; decompose [and] H;
  split_and!; field_range.

Ltac typed_step := first [ apply optional_inv; [assumption|set_field] ].

Section sections.
Context {N : Type} `{!Yaml N} `{!YamlLaws N}.
Import ConfigParser.

Lemma parse_risk_section_typed (n : N) r r' :
  typed_risk r -> parse_risk_section n r = Some r' -> typed_risk r'.
Proof.
  intros Hr. unfold parse_risk_section.
  repeat (apply (chain typed_risk);
    [intros ?; first [typed_step|apply in_section_inv; [assumption|intros ???; intros ?; typed_step]]|clear r Hr; intros r ? Hr]).
  typed_step.
Qed.

Lemma parse_vwap_typed (n : N) s s' : typed_strategy s -> parse_vwap n s = Some s' -> typed_strategy s'.
Proof.
  intros Hs. unfold parse_vwap.
  repeat (apply (chain typed_strategy); [intros ?; typed_step|clear s Hs; intros s ? Hs]). typed_step.
Qed.

Lemma parse_strategy_section_typed (n : N) s s' :
  typed_strategy s -> parse_strategy_section n s = Some s' -> typed_strategy s'.
Proof.
  intros Hs. unfold parse_strategy_section.
  apply (chain typed_strategy); [intros ?; typed_step|clear s Hs; intros s ? Hs].
  apply (chain_to (fun _ => True)); [done|intros st ? _].
  apply (chain typed_strategy).
  { intros ?. apply in_section_inv; [done|]. intros v b b' Hb. by apply parse_vwap_typed. }
  clear s Hs; intros s ? Hs.
  repeat (apply (chain typed_strategy); [intros ?; typed_step|clear s Hs; intros s ? Hs]). typed_step.
Qed.

Lemma parse_venue_typed (n : N) v : parse_venue n = Some v -> typed_venue v.
Proof.
  unfold parse_venue.
  apply (chain_to is_uint16); [intros ?; apply (get_inv is_uint16); [done|apply as_uint16_range]|intros ? ? H1].
  apply (chain_to is_uint16); [intros ?; apply (get_inv is_uint16); [done|apply as_uint16_range]|intros ? ? H2].
  do 6 (apply (chain_to (fun _ => True)); [done|intros ? ? _]).
  apply (chain_to in_i32); [intros ?; apply (get_inv in_i32); [done|apply as_int32_range]|intros ? ? H3].
  apply (chain_to in_i32); [intros ?; apply (get_inv in_i32); [done|apply as_int32_range]|intros ? ? H4].
  intros [= <-]. by split.
Qed.

(** A change of one field of the system configuration. *)
Ltac set_system := match goal with
  | H : typed ?c |- typed _ => destruct H; destruct c; split; cbn in *; assumption
  end.

Lemma parse_system_typed (root : N) c c' : typed c -> parse_system root c = Some c' -> typed c'.
Proof.
  intros Hc. unfold parse_system.
  assert (Hs : forall n key (use : N -> SystemConfig -> SystemConfig) a a',
    typed a -> (forall v b, typed b -> typed (use v b)) -> optional n key use a = Some a' -> typed a')
    by (intros *; apply optional_inv).
  apply (chain typed).
  { intros ?. apply in_section_inv; [done|]. intros v b b' Hb. apply (chain typed).
    - intros ?. apply Hs; [done|]. intros ? ? ?. set_system.
    - intros ? ? ?. apply Hs; [done|]. intros ? ? ?. set_system. }
  clear c Hc. intros c ? Hc.
  do 2 (apply (chain typed); [intros ?; apply Hs; [done|intros ? ? ?; set_system]|clear c Hc; intros c ? Hc]).
  apply Hs; [done|]. intros ? ? ?. set_system.
Qed.

Lemma foldl_some {A B} (P : B -> Prop) (f : B -> A -> option B) l b b' :
  P b -> (forall b x b', P b -> f b x = Some b' -> P b') ->
  foldl (fun acc x => acc ≫= fun b => f b x) (Some b) l = Some b' -> P b'.
Proof.
  intros Hb Hf. revert b Hb. induction l as [|x l IH]; intros b Hb; cbn; [by intros [= <-]|].
  destruct (f b x) as [b1|] eqn:E; [apply IH; by eapply Hf|].
  clear IH. induction l as [|y l IHl]; [done|exact IHl].
Qed.

Lemma parse_venues_typed (root : N) c c' : typed c -> parse_venues root c = Some c' -> typed c'.
Proof.
  intros Hc. unfold parse_venues. apply (chain_to (fun _ => True)); [done|intros vs ? _].
  destruct (defined vs && is_sequence vs); [|by intros [= <-]].
  apply (foldl_some typed (fun c vnode => v ← parse_venue vnode; Some { c with venues ::= fun l => l ++ [v] })); [done|].
  clear -YamlLaws0. intros c vnode c' Hc. apply (chain_to typed_venue); [apply parse_venue_typed|].
  intros v ? Hv [= <-]. destruct Hc, c. split; cbn in *; try done.
  apply Forall_app_2; [done|by apply Forall_singleton].
Qed.

Lemma parse_strategy_typed (root : N) c c' : typed c -> parse_strategy root c = Some c' -> typed c'.
Proof.
  intros Hc. unfold parse_strategy. do 2 (apply (chain_to (fun _ => True)); [done|intros ? ? _]).
  destruct (_ && _); [|by intros [= <-]].
  apply (chain_to typed_strategy); [intros ?; apply parse_strategy_section_typed, Hc|].
  intros s ? Hs [= <-]. destruct Hc, c. by split.
Qed.

Lemma parse_risk_typed (root : N) c c' : typed c -> parse_risk root c = Some c' -> typed c'.
Proof.
  intros Hc. unfold parse_risk. apply in_section_inv; [done|]. clear -YamlLaws0. intros v c c' Hc.
  apply (chain_to typed_risk); [intros ?; apply parse_risk_section_typed, Hc|].
  intros s ? Hs [= <-]. destruct Hc, c. by split.
Qed.

Lemma parse_gateway_typed (root : N) c c' : typed c -> parse_gateway root c = Some c' -> typed c'.
Proof.
  intros Hc. unfold parse_gateway. apply in_section_inv; [done|]. clear -YamlLaws0. intros v c c' Hc.
  apply (chain typed).
  - intros ?. apply in_section_inv; [done|]. clear -YamlLaws0. intros v c c' Hc. unfold parse_fix.
    apply (chain_to typed_fix).
    + intros f. apply (chain_to (fun _ => True)); [done|intros ? ? _].
      apply (chain_to in_i32); [intros ?; apply (get_inv in_i32); [done|apply as_int32_range]|intros ? ? H1].
      do 2 (apply (chain_to (fun _ => True)); [done|intros ? ? _]).
      apply (chain_to in_i32); [intros ?; apply (get_inv in_i32); [done|apply as_int32_range]|intros ? ? H2].
      intros [= <-]. by split.
    + intros f ? Hf [= <-]. destruct Hc, c. by split.
  - clear -YamlLaws0. intros c ? Hc. apply in_section_inv; [done|]. clear -YamlLaws0. intros v c c' Hc. unfold parse_api.
    apply (chain_to typed_api).
    + intros f. do 4 (apply (chain_to (fun _ => True)); [done|intros ? ? _]).
      apply (chain_to in_i32); [intros ?; apply (get_inv in_i32); [done|apply as_int32_range]|intros ? ? H2].
      by intros [= <-].
    + intros f ? Hf [= <-]. destruct Hc, c. by split.
Qed.

Lemma parse_metrics_typed (root : N) c c' : typed c -> parse_metrics root c = Some c' -> typed c'.
Proof.
  intros Hc. unfold parse_metrics. apply (chain_to typed).
  - intros ?. apply in_section_inv; [done|]. clear -YamlLaws0. intros v c c' Hc.
    apply in_section_inv; [done|]. clear -YamlLaws0. intros v c c' Hc. unfold parse_prometheus.
    apply (chain_to typed_port).
    + intros f. do 2 (apply (chain_to (fun _ => True)); [done|intros ? ? _]).
      apply (chain_to in_i32); [intros ?; apply (get_inv in_i32); [done|apply as_int32_range]|intros ? ? H2].
      apply (chain_to (fun _ => True)); [done|intros ? ? _]. by intros [= <-].
    + intros f ? Hf [= <-]. destruct Hc, c. by split.
  - clear -YamlLaws0. intros c c' Hc. do 2 (apply (chain_to (fun _ => True)); [done|intros ? ? _]).
    intros [= <-]. destruct Hc, c. split; cbn in *; try done.
    match goal with |- in_i32 (if ?b then _ else _) => destruct b end; [|done].
    apply default_range; [done|intros ?; apply as_int32_range].
Qed.

Lemma parse_market_data_typed env (root : N) c c' : typed c -> parse_market_data env root c = Some c' -> typed c'.
Proof.
  intros Hc. unfold parse_market_data. apply in_section_inv; [done|]. clear -YamlLaws0. intros v c c' Hc.
  do 3 (apply (chain_to (fun _ => True)); [done|intros ? ? _]).
  do 3 (apply (chain_to in_i32); [intros ?; apply (get_inv in_i32); [done|apply as_int32_range]|intros ? ? ?]).
  intros [= <-]. destruct Hc, c. split; cbn in *; try done.
Qed.

Lemma default_typed : typed default_system.
Proof. split; cbn; unfold typed_strategy, typed_risk, typed_fix, typed_market_data; try done. Qed.

(** Whatever the document says, the configuration read from it has its
    fields' types. *)
Lemma parse_config_typed env (root : N) c : parse_config env root = Some c -> typed c.
Proof.
  unfold parse_config.
  pose proof default_typed as H0.
  apply (chain typed); [intros ?; by apply parse_system_typed|clear H0; intros ? ? H0].
  apply (chain typed); [intros ?; by apply parse_venues_typed|clear H0; intros ? ? H0].
  apply (chain typed); [intros ?; by apply parse_strategy_typed|clear H0; intros ? ? H0].
  apply (chain typed); [intros ?; by apply parse_risk_typed|clear H0; intros ? ? H0].
  apply (chain typed); [intros ?; by apply parse_gateway_typed|clear H0; intros ? ? H0].
  apply (chain typed); [intros ?; by apply parse_metrics_typed|clear H0; intros ? ? H0].
  by apply parse_market_data_typed.
Qed.
End sections.
End Typing.

(** ** Validation *)

Module Validation.

(** The first thing wrong with an enabled venue. *)
Definition venue_error (v : VenueConfig) : option str :=
  if venue_id v =? 0 then Some (lit "Venue '" ++ v_name v ++ lit "' has invalid id 0")
  else if bool_decide (v_name v = []) then Some (lit "Venue id=" ++ to_string (venue_id v) ++ lit " has empty name")
  else if bool_decide (v_type v <> lit "simulated") && bool_decide (v_type v <> lit "fix")
  then Some (lit "Venue '" ++ v_name v ++ lit "' has unknown adapter type '" ++ v_type v
             ++ lit "' (expected simulated or fix)")
  else if v_max_orders_per_second v <=? 0
  then Some (lit "Venue '" ++ v_name v ++ lit "' has invalid max_orders_per_second="
             ++ to_string (v_max_orders_per_second v))
  else if dltb (fee_rate v) (S754_zero false) || dgtb (fee_rate v) (d_of_Z 1)
  then Some (lit "Venue '" ++ v_name v ++ lit "' has fee_rate outside [0, 1]: " ++ print_fixed 6 (fee_rate v))
  else None.

(** The loop over the venues: an error, or whether one is enabled. *)
Fixpoint check_venues (has_enabled : bool) (vs : list VenueConfig) : str + bool :=
  match vs with
  | [] => inr has_enabled
  | v :: vs =>
      if v_enabled v then
        match venue_error v with Some e => inl e | None => check_venues true vs end
      else check_venues has_enabled vs
  end.

Fixpoint check_duplicates (seen : gmap Z str) (vs : list VenueConfig) : option str :=
  match vs with
  | [] => None
  | v :: vs =>
      if negb (v_enabled v) then check_duplicates seen vs
      else
        match seen !! venue_id v with
        | Some nm => Some (lit "Duplicate venue id " ++ to_string (venue_id v) ++ lit " ('" ++ nm
                           ++ lit "' and '" ++ v_name v ++ lit "')")
        | None => check_duplicates (<[venue_id v := v_name v]> seen) vs
        end
  end.

Definition valid_endpoint (ep : str) : bool :=
  StringUtils.starts_with ep (lit "tcp://") || StringUtils.starts_with ep (lit "ipc://")
  || StringUtils.starts_with ep (lit "inproc://").

Definition log_levels : list str :=
  [lit "trace"; lit "debug"; lit "info"; lit "warn"; lit "error"; lit "critical"].

Definition check_api (a : ApiConfig) : option str :=
  if api_enabled a then
    if negb (valid_endpoint (zmq_order_endpoint a))
    then Some (lit "Invalid ZMQ order endpoint: " ++ zmq_order_endpoint a)
    else if negb (valid_endpoint (zmq_market_data_endpoint a))
    then Some (lit "Invalid ZMQ market data endpoint: " ++ zmq_market_data_endpoint a)
    else if negb (valid_endpoint (zmq_execution_endpoint a))
    then Some (lit "Invalid ZMQ execution endpoint: " ++ zmq_execution_endpoint a)
    else None
  else None.

Definition check_market_data (md : MarketDataConfig) : option str :=
  if bool_decide (provider md <> lit "simulated") && bool_decide (provider md <> lit "alpaca")
     && bool_decide (provider md <> lit "replay")
  then Some (lit "Unknown market_data.provider '" ++ provider md ++ lit "' (expected simulated, alpaca, or replay)")
  else if bool_decide (provider md = lit "alpaca") && bool_decide (alpaca_api_key md = [])
  then Some (lit "market_data.alpaca.api_key is required when provider is 'alpaca'")
  else if bool_decide (provider md = lit "alpaca") && bool_decide (alpaca_api_secret md = [])
  then Some (lit "market_data.alpaca.api_secret is required when provider is 'alpaca'")
  else if bool_decide (provider md = lit "alpaca") && bool_decide (symbols md = [])
  then Some (lit "market_data.symbols must not be empty when provider is 'alpaca'")
  else if staleness_threshold_ms md <=? 0 then Some (lit "market_data.staleness_threshold_ms must be > 0")
  else if reconnect_delay_sec md <=? 0 then Some (lit "market_data.reconnect_delay_sec must be > 0")
  else None.

(** The empty string is success. *)
Definition validate_config (c : SystemConfig) : str :=
  match check_venues false (venues c) with
  | inl e => e
  | inr false => lit "No enabled venues configured"
  | inr true =>
      match check_duplicates ∅ (venues c) with
      | Some e => e
      | None =>
          if max_order_quantity (risk c) =? 0 then lit "risk.max_order_quantity must be > 0"
          else if max_orders_per_second (risk c) <=? 0 then lit "risk.max_orders_per_second must be > 0"
          else if negb (bool_decide (log_level c ∈ log_levels)) then lit "Invalid log_level '" ++ log_level c ++ lit "'"
          else if (m_enabled (metrics c) || enable_metrics c)
                  && ((port (metrics c) <=? 0) || (65535 <? port (metrics c)))
          then lit "Invalid metrics port " ++ to_string (port (metrics c))
          else match check_api (gw_api c) with
               | Some e => e
               | None =>
                   if vwap_num_slices (strategy c) <=? 0 then lit "strategy.vwap_num_slices must be > 0"
                   else default [] (check_market_data (market_data c))
               end
      end
  end.

(** *** What a valid configuration is *)

(** The rules, as the messages of the code state them; a fee that is not a
    number is not within [[0, 1]]. *)
Record valid_venue (v : VenueConfig) : Prop := {
  vv_id : venue_id v <> 0;
  vv_name : v_name v <> [];
  vv_type : v_type v = lit "simulated" \/ v_type v = lit "fix";
  vv_rate : 0 < v_max_orders_per_second v;
  vv_fee : dleb (S754_zero false) (fee_rate v) = true /\ dleb (fee_rate v) (d_of_Z 1) = true
}.

Definition enabled (c : SystemConfig) : list VenueConfig := filter (fun v => v_enabled v) (venues c).

Definition endpoint (ep : str) : Prop :=
  exists rest, ep = lit "tcp://" ++ rest \/ ep = lit "ipc://" ++ rest \/ ep = lit "inproc://" ++ rest.

Record valid (c : SystemConfig) : Prop := {
  v_some : enabled c <> [];
  v_venues : Forall valid_venue (enabled c);
  v_distinct : NoDup (venue_id <$> enabled c);
  v_order_quantity : 0 < max_order_quantity (risk c);
  v_order_rate : 0 < max_orders_per_second (risk c);
  v_log_level : log_level c ∈ log_levels;
  v_port : m_enabled (metrics c) = true \/ enable_metrics c = true -> 1 <= port (metrics c) <= 65535;
  v_api : api_enabled (gw_api c) = true ->
    endpoint (zmq_order_endpoint (gw_api c)) /\ endpoint (zmq_market_data_endpoint (gw_api c)) /\
    endpoint (zmq_execution_endpoint (gw_api c));
  v_slices : 0 < vwap_num_slices (strategy c);
  v_provider : provider (market_data c) ∈ [lit "simulated"; lit "alpaca"; lit "replay"];
  v_alpaca : provider (market_data c) = lit "alpaca" ->
    alpaca_api_key (market_data c) <> [] /\ alpaca_api_secret (market_data c) <> [] /\ symbols (market_data c) <> [];
  v_staleness : 0 < staleness_threshold_ms (market_data c);
  v_delay : 0 < reconnect_delay_sec (market_data c)
}.

(** The two rules the code does not enforce: a fee that is not a number, and
    a negative order quantity.  What a configuration would be with a fee of
    zero and a quantity of one in their place. *)
Definition repair_venue (v : VenueConfig) : VenueConfig :=
  mkVenue (venue_id v) (v_name v) (v_type v) (v_endpoint v)
    (if is_nan (fee_rate v) then S754_zero false else fee_rate v) (v_enabled v) (v_max_orders_per_second v).

Definition repair_risk (r : RiskConfig) : RiskConfig :=
  mkRisk (if max_order_quantity r <? 0 then 1 else max_order_quantity r) (max_order_notional r)
    (max_position_notional r) (max_position_quantity r) (max_orders_per_second r) (max_open_orders r) (max_loss r).

Definition repair (c : SystemConfig) : SystemConfig :=
  mkSystem (log_level c) (log_file c) (enable_metrics c) (metrics_port c) (repair_venue <$> venues c) (strategy c)
    (repair_risk (risk c)) (gw_fix c) (gw_api c) (metrics c) (market_data c) (data_dir c).

(** A configuration with neither. *)
Definition proper (c : SystemConfig) : Prop :=
  Forall (fun v => is_nan (fee_rate v) = false) (enabled c) /\ 0 <= max_order_quantity (risk c).

Lemma repair_enabled c : enabled (repair c) = repair_venue <$> enabled c.
Proof.
  unfold enabled. cbn [venues repair]. induction (venues c) as [|v vs IH]; [done|].
  rewrite fmap_cons, !filter_cons. change (v_enabled (repair_venue v)) with (v_enabled v).
  case_decide; [by rewrite fmap_cons, IH|exact IH].
Qed.

Lemma repair_proper c : proper c -> enabled (repair c) = enabled c /\ risk (repair c) = risk c.
Proof.
  intros [Hv Hq]. rewrite repair_enabled. split.
  - clear Hq. induction Hv as [|v vs Hn _ IH]; [done|]. cbn. rewrite IH. f_equal. destruct v. unfold repair_venue. cbn in *. by rewrite Hn.
  - cbn. destruct (risk c). unfold repair_risk. cbn in *. by destruct (Z.ltb_spec max_order_quantity0 0); [lia|].
Qed.

Lemma valid_proper c : valid c -> proper c.
Proof.
  intros [_ Hv _ Hq]. split; [|lia]. eapply Forall_impl; [exact Hv|]. intros v [_ _ _ _ [Hf _]].
  destruct (fee_rate v); done.
Qed.

Lemma proper_valid c : proper c -> valid (repair c) <-> valid c.
Proof.
  intros Hp. destruct (repair_proper c Hp) as [He Hr].
  split; intros [H1 H2 H3 H4 H5]; rewrite ?He, ?Hr in *; split; rewrite ?He, ?Hr; done.
Qed.

Lemma repair_venue_fee v : d_within (S754_zero false) (d_of_Z 1) (fee_rate v) <->
  dleb (S754_zero false) (fee_rate (repair_venue v)) = true /\ dleb (fee_rate (repair_venue v)) (d_of_Z 1) = true.
Proof.
  unfold d_within, repair_venue; cbn [fee_rate]. destruct (is_nan (fee_rate v)) eqn:E.
  - split; [by intros _; split; vm_compute|by left].
  - split; [by intros [?|?]|by right].
Qed.

(** *** Venues *)

Lemma venue_error_none v : venue_error v = None <-> valid_venue (repair_venue v).
Proof.
  unfold venue_error. rewrite !passes, test_cc by done.
  rewrite repair_venue_fee, Z.eqb_neq, andb_false_iff, !bool_decide_eq_false, Z.leb_gt. split.
  - intros (H1 & H2 & H3 & H4 & H5 & _). split; try done. destruct H3; [left|right]; by apply dec_stable.
  - intros [H1 H2 H3 H4 H5]. split; [done|]. split; [done|]. split; [|split; [done|split; [exact H5|done]]].
    destruct H3 as [E|E]; cbn in E; rewrite E; [left|right]; intros Hn; by apply Hn.
Qed.

Lemma check_venues_ok b vs :
  (exists b', check_venues b vs = inr b' /\ (b' = true <-> b = true \/ filter (fun v => v_enabled v) vs <> [])) /\
    Forall (fun v => valid_venue (repair_venue v)) (filter (fun v => v_enabled v) vs) \/
  (exists e v, check_venues b vs = inl e /\ venue_error v = Some e /\ v ∈ filter (fun v => v_enabled v) vs).
Proof.
  revert b; induction vs as [|v vs IH]; intros b; cbn [check_venues].
  - left. split; [|done]. exists b. split; [done|]. split; [by left|by intros [|[]]].
  - rewrite filter_cons. destruct (v_enabled v) eqn:Hv; cbn.
    + destruct (venue_error v) as [e|] eqn:He; [right; exists e, v; split_and!; [done..|left]|].
      apply venue_error_none in He. destruct (IH true) as [[(b' & -> & Hb) Hall]|(e & w & -> & Hw & Hin)].
      * left. split; [|by constructor]. exists b'. split; [done|]. rewrite Hb. split; [by right|by left].
      * right. exists e, w. split_and!; [done..|by right].
    + exact (IH b).
Qed.

Lemma check_duplicates_none seen vs :
  check_duplicates seen vs = None <->
  NoDup (venue_id <$> filter (fun v => v_enabled v) vs) /\
  Forall (fun v => seen !! venue_id v = None) (filter (fun v => v_enabled v) vs).
Proof.
  revert seen; induction vs as [|v vs IH]; intros seen; cbn [check_duplicates].
  - rewrite filter_nil. cbn. split; [|done]. intros _. split; constructor.
  - rewrite filter_cons. destruct (v_enabled v) eqn:Hv; cbn [negb]; [|exact (IH seen)].
    rewrite decide_True by done. rewrite fmap_cons, NoDup_cons, Forall_cons.
    destruct (seen !! venue_id v) eqn:Hs; [split; [done|intros (_ & ? & _); done]|].
    rewrite IH. rewrite list_elem_of_fmap, !Forall_forall. split.
    + intros [Hnd Hall]. split_and!; try done.
      * intros (w & Hw & Hin). apply Hall in Hin. rewrite Hw, lookup_insert_eq in Hin. done.
      * intros w Hin. apply Hall in Hin. apply lookup_insert_None in Hin. tauto.
    + intros ([Hni Hnd] & _ & Hall). split; [done|]. intros w Hin. rewrite lookup_insert_ne; [by apply Hall|].
      intros Hw. apply Hni. by exists w.
Qed.

Lemma valid_endpoint_spec ep : valid_endpoint ep = true <-> endpoint ep.
Proof.
  unfold valid_endpoint, endpoint. rewrite !orb_true_iff, !StringUtils.starts_with_spec. split.
  - intros [[[r H]|[r H]]|[r H]]; exists r; auto.
  - intros (r & [H|[H|H]]); [left; left|left; right|right]; by exists r.
Qed.

Lemma check_api_none a :
  check_api a = None <-> (api_enabled a = true ->
    endpoint (zmq_order_endpoint a) /\ endpoint (zmq_market_data_endpoint a) /\ endpoint (zmq_execution_endpoint a)).
Proof.
  unfold check_api. destruct (api_enabled a); [|done].
  rewrite !passes, !negb_false_iff, !valid_endpoint_spec. tauto.
Qed.

Lemma check_market_data_none md :
  check_market_data md = None <->
  provider md ∈ [lit "simulated"; lit "alpaca"; lit "replay"] /\
  (provider md = lit "alpaca" -> alpaca_api_key md <> [] /\ alpaca_api_secret md <> [] /\ symbols md <> []) /\
  0 < staleness_threshold_ms md /\ 0 < reconnect_delay_sec md.
Proof.
  unfold check_market_data.
  rewrite !passes, !andb_false_iff, !bool_decide_eq_false, !Z.leb_gt, !elem_of_cons, elem_of_nil.
  destruct (decide (provider md = lit "simulated")), (decide (provider md = lit "alpaca")),
    (decide (provider md = lit "replay")); intuition congruence.
Qed.

Lemma message_not_empty c :
  (forall e, check_venues false (venues c) = inl e -> e <> []) /\
  (forall e, check_duplicates ∅ (venues c) = Some e -> e <> []) /\
  (forall e, check_api (gw_api c) = Some e -> e <> []) /\
  (forall e, check_market_data (market_data c) = Some e -> e <> []).
Proof.
  assert (Hv : forall v e, venue_error v = Some e -> e <> []).
  { intros v e. unfold venue_error.
    repeat match goal with |- (if ?b then _ else _) = _ -> _ => destruct b; [by intros [= <-]|] end. done. }
  split_and!.
  - intros e He. destruct (check_venues_ok false (venues c)) as [[(b & Hb & _) _]|(e' & v & Hb & Hve & _)].
    + congruence.
    + rewrite He in Hb. injection Hb as ->. by eapply Hv.
  - generalize (∅ : gmap Z str). induction (venues c) as [|v vs IH]; intros seen e; cbn [check_duplicates]; [done|].
    destruct (negb (v_enabled v)); [apply IH|]. destruct (seen !! venue_id v); [by intros [= <-]|apply IH].
  - intros e. unfold check_api. destruct (api_enabled _); [|done].
    repeat match goal with |- (if ?b then _ else _) = _ -> _ => destruct b; [by intros [= <-]|] end. done.
  - intros e. unfold check_market_data.
    repeat match goal with |- (if ?b then _ else _) = _ -> _ => destruct b; [by intros [= <-]|] end. done.
Qed.

Lemma passes_str (b : bool) (e k : str) : e <> [] -> (if b then e else k) = [] <-> b = false /\ k = [].
Proof. destruct b; intuition congruence. Qed.

Lemma default_empty (o : option str) : (forall e, o = Some e -> e <> []) -> default [] o = [] <-> o = None.
Proof. destruct o as [e|]; cbn; intros H; [|done]. by split; [intros ->; destruct (H [])|]. Qed.

Lemma no_error (o : option str) k : (forall e, o = Some e -> e <> []) ->
  match o with Some e => e | None => k end = [] <-> o = None /\ k = [].
Proof. destruct o as [e|]; intros H; [|tauto]. split; [intros ->; by destruct (H [])|by intros []]. Qed.

Lemma repair_quantity c : max_order_quantity (risk c) <> 0 <-> 0 < max_order_quantity (risk (repair c)).
Proof. cbn. destruct (Z.ltb_spec (max_order_quantity (risk c)) 0); lia. Qed.

Lemma validate_repaired (c : SystemConfig) : validate_config c = [] <-> valid (repair c).
Proof.
  destruct (message_not_empty c) as (M1 & M2 & M3 & M4).
  pose proof (check_duplicates_none ∅ (venues c)) as HD. pose proof (repair_enabled c) as HE.
  assert (venue_id <$> enabled (repair c) = venue_id <$> enabled c) as HI by (rewrite HE, <-list_fmap_compose; by apply list_fmap_ext).
  unfold validate_config.
  destruct (check_venues_ok false (venues c)) as [[(b & Hb & Hs) Hall]|(e & v & He & Hve & Hin)].
  - rewrite Hb. destruct b.
    + rewrite (no_error _ _ M2), !passes_str, (no_error _ _ M3), passes_str, (default_empty _ M4) by done.
      rewrite HD, check_api_none, check_market_data_none.
      rewrite Z.eqb_neq, !Z.leb_gt, negb_false_iff, bool_decide_eq_true, repair_quantity.
      rewrite andb_false_iff, !orb_false_iff, Z.leb_gt, Z.ltb_ge.
      split.
      * intros ((Hnd & _) & Hq & Hr & Hl & Hp & Ha & Hv & Hpr & Hal & Hst & Hde). split; try done.
        -- rewrite HE. intros E. apply fmap_nil_inv in E. by destruct (proj1 Hs eq_refl).
        -- by rewrite HE, Forall_fmap.
        -- by rewrite HI.
        -- intros Hen. destruct Hp as [[H1 H2]|]; cbn in *; [|lia]. destruct Hen; congruence.
      * intros [? ? Hd ? ? ? Hp ? ? ? ? ? ?]. rewrite HI in Hd. split_and!; try done.
        -- by apply Forall_forall.
        -- cbn in Hp. destruct (m_enabled (metrics c)), (enable_metrics c); cbn; auto; right; lia.
    + split; [done|]. intros Hv. destruct Hs as [_ Hs]. discriminate Hs. right. intros E. apply (v_some _ Hv).
      rewrite HE. unfold enabled. by rewrite E.
  - rewrite He. split; [intros ->; by destruct (M1 [] He)|].
    intros Hv. apply v_venues in Hv. rewrite HE, Forall_fmap, Forall_forall in Hv.
    apply Hv, venue_error_none in Hin. congruence.
Qed.

(** C22. Validation answers the empty string for every valid configuration,
    one with an enabled venue, enabled venues that are complete, with fees in
    [[0, 1]] and distinct identifiers, a positive order quantity and rate, a
    known log level, a port for the metrics if they are on, reachable
    endpoints if the API is on, and a known market data provider with its
    credentials; and for no other one whose fees are numbers and whose order
    quantity is not negative.  These two it does not look for: it answers as
    if a fee that is not a number were zero and a negative quantity one. *)
Theorem validate_config_exact (c : SystemConfig) :
  (valid c -> validate_config c = []) /\
  (proper c -> validate_config c = [] -> valid c) /\
  (validate_config c = [] <-> valid (repair c)).
Proof.
  pose proof (validate_repaired c) as Hr. split; [|split; [|done]].
  - intros Hv. apply Hr. by apply proper_valid; [apply valid_proper|].
  - intros Hp Hv. apply (proper_valid c Hp). by apply Hr.
Qed.

Lemma validate_config_exact_witness :
  validate_config (mkSystem (lit "info") [] true 9090 [mkVenue 1 (lit "NYSE") (lit "simulated") [] (d_lit 1 3) true 100]
    default_strategy_config default_risk default_fix default_api default_metrics default_market_data []) = [].
Proof.
  match goal with |- validate_config ?c = [] => destruct (validate_config_exact c) as [H _]; set (cfg := c) in * end.
  apply H. assert (enabled cfg = [mkVenue 1 (lit "NYSE") (lit "simulated") [] (d_lit 1 3) true 100]) as E by reflexivity.
  split; rewrite ?E.
  - discriminate.
  - constructor; [|constructor]. split; [discriminate|discriminate|left; reflexivity|cbn; lia|split; vm_compute; reflexivity].
  - apply NoDup_singleton.
  - cbn. lia.
  - cbn. lia.
  - right. right. left.
  - intros _. cbn. lia.
  - intros _. repeat split; eexists; left; reflexivity.
  - cbn. lia.
  - left.
  - discriminate.
  - cbn. lia.
  - cbn. lia.
Defined.
End Validation.

(** ** The manager *)

Module ConfigManager.
Section manager.
Context {N : Type} `{!Yaml N}.

(** What the system calls of an operation return: the parsed file ([None]:
    [YAML::LoadFile] threw), the environment, the file's time on the file
    clock ([None]: the call threw), and readings of the two clocks. *)
Record env := mk_env {
  load_file : str -> option N;
  getenv : str -> option str;
  last_write_time : str -> option Z;
  file_now : Z;
  sys_now : Z
}.

Record t := mk {
  config_ : SystemConfig;
  config_path_ : str;
  last_modified_ : Z;
  change_callbacks_ : list nat;
  flat_values_ : gmap str str
}.

Definition create : t := mk default_system [] 0 [] ∅.

(** How a call ends. *)
Inductive result := Returned (b : bool) | Threw.

(** The calls of the registered listeners. *)
Abbreviation calls := (list (nat * SystemConfig)) (only parsing).

(** The depth that flattening can reach; documents are not deeper. *)
Context (depth : nat).

Definition to_sys_time (e : env) (ftime : Z) : Z := sys_now e + (ftime - file_now e).

(** [parse_yaml]: only the failure to load the file is handled. *)
Definition parse_yaml (e : env) (path : str) (m : t) : result * t :=
  match load_file e path with
  | None => (Returned false, m)
  | Some root =>
      match ConfigParser.flatten_yaml depth [] root ∅ with
      | None | Some (_, false) =>
          (Threw, { m with flat_values_ := match ConfigParser.flatten_yaml depth [] root ∅ with
                                           | Some (out, _) => out | None => ∅ end })
      | Some (out, true) =>
          let m := { m with flat_values_ := out } in
          match ConfigParser.parse_config (getenv e) root with
          | None => (Threw, m)
          | Some cfg => (Returned true, { m with config_ := cfg })
          end
      end
  end.

Definition load (e : env) (path : str) (m : t) : result * t :=
  let m := { m with config_path_ := path } in
  match parse_yaml e path m with
  | (Returned true, m) =>
      (Returned true, { m with last_modified_ :=
          match last_write_time e path with Some ftime => to_sys_time e ftime | None => sys_now e end })
  | r => r
  end.

Definition reload (e : env) (m : t) : result * t * calls :=
  match config_path_ m with
  | [] => (Returned false, m, [])
  | path =>
      let old_config := config_ m in
      match parse_yaml e path m with
      | (Returned true, m) => (Returned true, m, map (fun cb => (cb, config_ m)) (change_callbacks_ m))
      | (Returned false, m) => (Returned false, { m with config_ := old_config }, [])
      | (Threw, m) => (Threw, m, [])
      end
  end.

Definition get_config (m : t) : SystemConfig := config_ m.
Definition on_change (cb : nat) (m : t) : t := { m with change_callbacks_ ::= fun l => l ++ [cb] }.

(** [check_for_changes]: exceptions end the poll. *)
Definition check_for_changes (e : env) (m : t) : t * calls :=
  match config_path_ m with
  | [] => (m, [])
  | path =>
      match last_write_time e path with
      | None => (m, [])
      | Some ftime =>
          let sys_ftime := to_sys_time e ftime in
          if last_modified_ m <? sys_ftime then
            match reload e m with
            | (Returned _, m, cs) => ({ m with last_modified_ := sys_ftime }, cs)
            | (Threw, m, cs) => (m, cs)
            end
          else (m, [])
      end
  end.

(** *** Typed access to the flat values *)

Definition get_string (key default_val : str) (m : t) : str := default default_val (flat_values_ m !! key).

Definition get_int (key : str) (default_val : Z) (m : t) : Z :=
  match flat_values_ m !! key with
  | None => default_val
  | Some v => match stoi v with inr z => z | inl _ => default_val end
  end.

Definition get_double (key : str) (default_val : double) (m : t) : double :=
  match flat_values_ m !! key with
  | None => default_val
  | Some v => match stod v with inr d => d | inl _ => default_val end
  end.

Definition get_bool (key : str) (default_val : bool) (m : t) : bool :=
  match flat_values_ m !! key with
  | None => default_val
  | Some v => bool_decide (v = lit "true" \/ v = lit "1" \/ v = lit "yes" \/ v = lit "on")
  end.
(** *** Histories *)

Inductive op :=
| Load (e : env) (path : str)
| Reload (e : env)
| OnChange (cb : nat)
| Poll (e : env).

Definition env_of (a : op) : list env :=
  match a with Load e _ | Reload e | Poll e => [e] | OnChange _ => [] end.

Definition step (s : t * list (nat * SystemConfig)) (a : op) : t * list (nat * SystemConfig) :=
  let '(m, log) := s in
  match a with
  | Load e path => ((load e path m).2, log)
  | Reload e => let '(_, m, cs) := reload e m in (m, log ++ cs)
  | OnChange cb => (on_change cb m, log)
  | Poll e => let '(m, cs) := check_for_changes e m in (m, log ++ cs)
  end.

Definition run (ops : list op) : t * list (nat * SystemConfig) := fold_left step ops (create, []).

(** A configuration that some file had in full. *)
Definition read_from (es : list env) (c : SystemConfig) : Prop :=
  exists e path root, e ∈ es /\ load_file e path = Some root /\ ConfigParser.parse_config (getenv e) root = Some c.

Lemma read_from_mono es es' c : (forall e, e ∈ es -> e ∈ es') -> read_from es c -> read_from es' c.
Proof. intros H (e & p & r & He & H1 & H2). exists e, p, r. auto. Qed.

Definition same_but_flat (m m' : t) : Prop :=
  config_ m' = config_ m /\ config_path_ m' = config_path_ m /\ last_modified_ m' = last_modified_ m /\
  change_callbacks_ m' = change_callbacks_ m.

(** What [parse_yaml] can do. *)
Lemma parse_yaml_cases e path m :
  match parse_yaml e path m with
  | (Returned true, m') => read_from [e] (config_ m') /\ change_callbacks_ m' = change_callbacks_ m /\
      config_path_ m' = config_path_ m
  | (Returned false, m') => m' = m
  | (Threw, m') => same_but_flat m m'
  end.
Proof.
  unfold parse_yaml. destruct (load_file e path) as [root|] eqn:Hl; [|done].
  destruct (ConfigParser.flatten_yaml depth [] root ∅) as [[out []]|] eqn:Hf; [|done|done].
  destruct (ConfigParser.parse_config (getenv e) root) as [cfg|] eqn:Hp; [|done].
  cbn. split; [|done]. exists e, path, root. split; [by left|done].
Qed.

Lemma reload_cases e m :
  match reload e m with
  | (Returned true, m', cs) => read_from [e] (config_ m') /\ cs = map (fun cb => (cb, config_ m')) (change_callbacks_ m)
  | (Returned false, m', cs) => m' = m /\ cs = []
  | (Threw, m', cs) => same_but_flat m m' /\ cs = []
  end.
Proof.
  unfold reload. destruct (config_path_ m) as [|c p] eqn:Hp; [done|].
  pose proof (parse_yaml_cases e (c :: p) m) as H.
  destruct (parse_yaml e (c :: p) m) as [[[]|] m']; [| |done].
  - destruct H as (H1 & H2 & H3). by rewrite H2.
  - subst. by destruct m.
Qed.

(** The state and the log after some operations. *)
Record sound (es : list env) (s : t * list (nat * SystemConfig)) : Prop := {
  s_config : config_ s.1 = default_system \/ read_from es (config_ s.1);
  s_log : forall cb c, (cb, c) ∈ s.2 -> read_from es c
}.

Lemma sound_step es s a : sound es s -> sound (es ++ env_of a) (step s a).
Proof.
  destruct s as [m log]. intros [H1 H2]. cbn in *.
  assert (Hmono : forall c, read_from es c -> read_from (es ++ env_of a) c).
  { intros c. apply read_from_mono. intros e. rewrite elem_of_app. auto. }
  assert (Hnew : forall e c, env_of a = [e] -> read_from [e] c -> read_from (es ++ env_of a) c).
  { intros e c -> . apply read_from_mono. intros e'. rewrite elem_of_app. auto. }
  assert (Hold : config_ m = default_system \/ read_from (es ++ env_of a) (config_ m)) by (destruct H1; auto).
  assert (Hreload : forall e, env_of a = [e] -> let '(_, m', cs) := reload e m in
    (config_ m' = default_system \/ read_from (es ++ env_of a) (config_ m')) /\
    forall cb c, (cb, c) ∈ log ++ cs -> read_from (es ++ env_of a) c).
  { intros e He. pose proof (reload_cases e m) as H. destruct (reload e m) as [[[[]|] m'] cs].
    - destruct H as [Hr ->]. split; [right; by eapply Hnew|]. intros cb c [Hc|Hc]%elem_of_app; [by eapply Hmono, H2|].
      apply list_elem_of_fmap in Hc as (cb' & [= _ ->] & _). by eapply Hnew.
    - destruct H as [-> ->]. rewrite app_nil_r. split; [done|]. intros cb c Hc. by eapply Hmono, H2.
    - destruct H as [(-> & _) ->]. rewrite app_nil_r. split; [done|]. intros cb c Hc. by eapply Hmono, H2. }
  destruct a as [e path|e|cb|e]; cbn [step].
  - unfold load. pose proof (parse_yaml_cases e path { m with config_path_ := path }) as H.
    destruct (parse_yaml e path _) as [[[]|] m']; split; cbn; try (intros cb c Hc; by eapply Hmono, H2).
    + right. eapply Hnew; [done|apply H].
    + subst. done.
    + destruct H as (Hcfg & _). by rewrite Hcfg.
  - specialize (Hreload e eq_refl). destruct (reload e m) as [[r m'] cs]. by split; apply Hreload.
  - split; cbn; [done|]. intros cb' c Hc. by eapply Hmono, H2.
  - specialize (Hreload e eq_refl). unfold check_for_changes.
    assert (Hskip : sound (es ++ env_of (Poll e)) (m, log ++ [])).
    { rewrite app_nil_r. split; [done|]. intros cb c Hc. by eapply Hmono, H2. }
    destruct (config_path_ m) as [|x p]; [exact Hskip|].
    destruct (last_write_time e (x :: p)); [|exact Hskip]. destruct (_ <? _); [|exact Hskip].
    destruct (reload e m) as [[[b|] m'] cs]; by split; apply Hreload.
Qed.

Lemma sound_run ops : sound (ops ≫= env_of) (run ops).
Proof.
  unfold run. induction ops as [|a ops IH] using rev_ind.
  - split; cbn; [by left|]. intros cb c Hc. by apply elem_of_nil in Hc.
  - rewrite fold_left_app, bind_app. cbn. rewrite app_nil_r. by apply sound_step.
Qed.

(** C21. Configurations are whole and well typed: in every history of loads,
    reloads, polls and registrations, whatever the files contain at each
    moment, and whether or not they can be read or make the parser throw, the
    configuration returned is the default or the complete reading of some
    file that was loaded, every listener is called with such a reading, and
    each field has its machine type (identifiers in 16 bits, limits in 32 or
    64 bits, the conversion of a floating-point duration included). *)
Theorem configurations_typed `{!YamlLaws N} (ops : list op) :
  (get_config (run ops).1 = default_system \/ read_from (ops ≫= env_of) (get_config (run ops).1)) /\
  typed (get_config (run ops).1) /\
  forall cb c, (cb, c) ∈ (run ops).2 -> read_from (ops ≫= env_of) c /\ typed c.
Proof.
  assert (Ht : forall es c, read_from es c -> typed c).
  { intros es c (e & p & r & _ & _ & Hc). by eapply Typing.parse_config_typed. }
  destruct (sound_run ops) as [H1 H2]. split_and!; [done| |].
  - destruct H1 as [H1|H1]; [|by eapply Ht]. unfold get_config. rewrite H1. apply Typing.default_typed.
  - intros cb c Hc. apply H2 in Hc. split; [done|by eapply Ht].
Qed.

(** The flat view is the document: for a document whose nesting the
    flattening can follow, a load terminates with the flat values being
    replaced, and unless it throws, the keys are exactly the paths of the
    document's scalars ([a.b] in maps, [a[0]] in sequences) and the value of a
    key is a scalar with that path. *)
Theorem flat_values_are_the_scalars (e : env) (path : str) (m : t) (root : N) (height : N -> nat)
    (Hload : load_file e path = Some root)
    (Hheight : forall p n p' c, is_scalar n = false -> (p', c) ∈ ConfigParser.children p n -> (height c < height n)%nat)
    (Hdepth : (height root < depth)%nat) :
  exists out ok, ConfigParser.flatten_yaml depth [] root ∅ = Some (out, ok) /\
    flat_values_ (load e path m).2 = out /\
    (ok = true -> forall key default_val,
       let m' := (load e path m).2 in
       (is_Some (flat_values_ m' !! key) <-> exists n, ConfigParser.reaches [] root key n /\ is_scalar n = true) /\
       (get_string key default_val m' = default_val \/
        exists n, ConfigParser.reaches [] root key n /\ is_scalar n = true /\ get_string key default_val m' = scalar n)).
Proof.
  destruct (ConfigParser.flatten_returns height depth [] root ∅ Hheight Hdepth) as [[out ok] Hf].
  exists out, ok. assert (Hflat : flat_values_ (load e path m).2 = out).
  { unfold load, parse_yaml. cbn. rewrite Hload, Hf. destruct ok; [|done].
    by destruct (ConfigParser.parse_config _ _). }
  split_and!; [done|done|]. intros -> key d. cbv zeta. unfold get_string. rewrite Hflat.
  destruct (ConfigParser.flatten_wrote _ _ _ _ _ Hf key) as [H1 H2]. rewrite lookup_empty in *. split.
  - split; [|intros H; apply H2; by right]. intros [v Hv].
    destruct (H1 v Hv) as [|(n & Hn & Hs & _)]; [done|by exists n].
  - destruct (out !! key) as [v|]; [|by left]. right.
    destruct (H1 v eq_refl) as [|(n & Hn & Hs & ->)]; [done|by exists n].
Qed.

(** A poll that reloads records the time it saw, even if the reload failed:
    the same file is not tried again. *)
Lemma failed_poll_forgets e e' m c p ftime :
  config_path_ m = c :: p -> last_write_time e (c :: p) = Some ftime -> load_file e (c :: p) = None ->
  last_modified_ m < to_sys_time e ftime ->
  last_write_time e' (c :: p) = Some ftime -> to_sys_time e' ftime <= to_sys_time e ftime ->
  let m' := (check_for_changes e m).1 in
  config_ m' = config_ m /\ check_for_changes e' m' = (m', []).
Proof.
  intros Hp Ht Hl Hn Ht' Hle. unfold check_for_changes at 1. unfold reload. rewrite Hp, Ht.
  rewrite (proj2 (Z.ltb_lt _ _)) by done. unfold parse_yaml. rewrite Hl. cbn. destruct m. cbn in *. subst.
  split; [done|]. unfold check_for_changes. cbn. rewrite Ht'. by rewrite (proj2 (Z.ltb_ge _ _)).
Qed.

(** The time of an unchanged file, converted by two readings of the clocks,
    changes with the distance between the readings, so that a poll can reload
    a file that was not touched. *)
Lemma unchanged_file_reloads e m c p ftime root :
  config_path_ m = c :: p -> last_write_time e (c :: p) = Some ftime -> load_file e (c :: p) = Some root ->
  (exists e0, last_modified_ m = to_sys_time e0 ftime /\ sys_now e0 - file_now e0 < sys_now e - file_now e) ->
  exists r m' cs, reload e m = (r, m', cs) /\ (check_for_changes e m).2 = cs /\
    (r = Returned true -> cs = map (fun cb => (cb, config_ m')) (change_callbacks_ m)).
Proof.
  intros Hp Ht Hl (e0 & Hm & Hlt). pose proof (reload_cases e m) as H.
  destruct (reload e m) as [[r m'] cs] eqn:Hr. exists r, m', cs. split; [done|]. split.
  - unfold check_for_changes. rewrite Hp, Ht, (proj2 (Z.ltb_lt _ _)), Hr by (unfold to_sys_time in *; lia).
    by destruct r.
  - intros ->. apply H.
Qed.
End manager.
End ConfigManager.

(** ** A concrete YAML tree

    For examples: a document as a tree, with the conversions of the standard
    library. *)

Module TreeYaml.

Inductive yaml :=
| YUndefined
| YScalar (s : str)
| YMap (l : list (yaml * yaml))
| YSequence (l : list yaml).

Definition text (n : yaml) : option str := match n with YScalar s => Some s | _ => None end.

Definition within (lo hi : Z) (n : yaml) : option Z :=
  match n with
  | YScalar s => match sto_signed lo hi s with inr z => Some z | inl _ => None end
  | _ => None
  end.

Definition child (n : yaml) (k : str) : option yaml :=
  match n with
  | YScalar _ => None
  | YMap l => Some (from_option snd YUndefined (List.find (fun kv => bool_decide (text kv.1 = Some k)) l))
  | _ => Some YUndefined
  end.

#[local] Instance tree_yaml : Yaml yaml := {|
  defined n := match n with YUndefined => false | _ => true end;
  is_scalar n := match n with YScalar _ => true | _ => false end;
  is_map n := match n with YMap _ => true | _ => false end;
  is_sequence n := match n with YSequence _ => true | _ => false end;
  scalar n := default [] (text n);
  entries n := match n with YMap l => l | _ => [] end;
  elements n := match n with YSequence l => l | _ => [] end;
  subscript := child;
  as_string := text;
  as_bool n := match text n with
               | Some s => if bool_decide (s = lit "true") then Some true
                           else if bool_decide (s = lit "false") then Some false else None
               | None => None
               end;
  as_uint16 := within 0 65535;
  as_int32 := within (-2147483648) 2147483647;
  as_int64 := within INT64_MIN INT64_MAX;
  as_double n := match text n with
                 | Some s => match stod s with inr d => Some d | inl _ => None end
                 | None => None
                 end
|}.

Lemma within_range lo hi n z : within lo hi n = Some z -> lo <= z <= hi.
Proof.
  unfold within. destruct n as [|s| |]; try done.
  destruct (sto_signed lo hi s) eqn:E; [done|]. intros [= ->]. by apply sto_signed_range in E.
Qed.

#[local] Instance tree_yaml_laws : YamlLaws yaml.
Proof.
  split; [apply within_range|apply within_range|apply within_range|].
  intros [] k; cbn; try done; by eexists.
Qed.

Definition key (s : string) : yaml := YScalar (lit s).
Definition doc (l : list (string * yaml)) : yaml := YMap ((fun '(k, v) => (key k, v)) <$> l).

(** One enabled venue, and some limits. *)
Definition good : yaml :=
  doc [("log_level"%string, key "debug");
       ("venues"%string, YSequence [doc [("id"%string, key "1"); ("name"%string, key "NYSE"); ("fee_rate"%string, key "0.002")]]);
       ("risk"%string, doc [("max_order_quantity"%string, key "500"); ("max_loss"%string, key "1000.5");
                            ("rate_limiter"%string, doc [("max_orders_per_second"%string, key "7")])])].

(** A venue that is only a name: the parser throws. *)
Definition bad : yaml := doc [("log_level"%string, key "warn"); ("venues"%string, YSequence [key "NYSE"])].

Definition sees (d : option yaml) (time : Z) : ConfigManager.env :=
  ConfigManager.mk_env (fun _ => d) (fun _ => None) (fun _ => Some time) 0 0.

Definition demo : list ConfigManager.op :=
  [ConfigManager.OnChange 3; ConfigManager.Load (sees (Some good) 10) (lit "a.yaml");
   ConfigManager.Reload (sees (Some good) 10); ConfigManager.Poll (sees None 20);
   ConfigManager.Poll (sees (Some bad) 30)].

Lemma configurations_typed_witness :
  typed (ConfigManager.get_config (ConfigManager.run 10 demo).1) /\
  vwap_num_slices (strategy (ConfigManager.get_config (ConfigManager.run 10 demo).1)) = 10.
Proof.
  split; [|vm_compute; reflexivity].
  exact (proj1 (proj2 (ConfigManager.configurations_typed 10 demo))).
Defined.

(** The exception leaves the two views apart: the flat values are those of the
    new file, the configuration is the old one. *)
Example exception_splits_views :
  let m := (ConfigManager.run 10 demo).1 in
  log_level (ConfigManager.get_config m) = lit "debug" /\
  ConfigManager.get_string (lit "log_level") [] m = lit "warn".
Proof. by vm_compute. Qed.

Fixpoint height (n : yaml) : nat :=
  match n with
  | YMap l => S (foldr (fun '(_, c) h => Nat.max (height c) h) 0%nat l)
  | YSequence l => S (foldr (fun c h => Nat.max (height c) h) 0%nat l)
  | _ => 0
  end.

Lemma children_height p n p' c : is_scalar n = false -> (p', c) ∈ ConfigParser.children p n -> (height c < height n)%nat.
Proof.
  assert (Hz : forall l i, (i, c) ∈ zip (seq 0 (length l)) l -> c ∈ l).
  { intros l. generalize 0%nat. induction l as [|x l IH]; intros k i; cbn; [by intros ?%elem_of_nil|].
    intros [[= _ ->]|Hin]%elem_of_cons; [by left|]. right. by eapply IH. }
  destruct n as [|s|l|l]; cbn; [|done|..]; intros _.
  - by intros ?%elem_of_nil.
  - intros ([k x] & [= _ ->] & Hin)%list_elem_of_fmap. unfold lt. apply le_n_S.
    induction l as [|[k' y] l IH]; [by apply elem_of_nil in Hin|].
    apply elem_of_cons in Hin as [[= -> ->]|Hin]; cbn; [lia|]. specialize (IH Hin). lia.
  - intros ([i x] & [= _ ->] & Hin%Hz)%list_elem_of_fmap. unfold lt. apply le_n_S.
    induction l as [|y l IH]; [by apply elem_of_nil in Hin|].
    apply elem_of_cons in Hin as [->|Hin]; cbn; [lia|]. specialize (IH Hin). lia.
Qed.

Lemma flat_values_are_the_scalars_witness :
  let m := (ConfigManager.load 10 (sees (Some good) 5) (lit "a.yaml") ConfigManager.create).2 in
  ConfigManager.get_string (lit "venues[0].name") [] m = lit "NYSE" /\
  (is_Some (ConfigManager.flat_values_ m !! lit "risk.max_loss") <->
   exists n, ConfigParser.reaches [] good (lit "risk.max_loss") n /\ is_scalar n = true).
Proof.
  split; [vm_compute; reflexivity|].
  destruct (ConfigManager.flat_values_are_the_scalars 10 (sees (Some good) 5) (lit "a.yaml") ConfigManager.create good
    height eq_refl children_height ltac:(vm_compute; lia)) as (out & ok & Hf & _ & Hkeys).
  assert (Hok : snd <$> ConfigParser.flatten_yaml 10 [] good ∅ = Some true) by (vm_compute; reflexivity).
  rewrite Hf in Hok. injection Hok as ->.
  exact (proj1 (Hkeys eq_refl (lit "risk.max_loss") [])).
Defined.
End TreeYaml.
