(* ===== verification/Numeric.v ===== *)
(** * Arithmetic of the numerical code (nash/core/types.hpp)

    The solvers of [nash] compute with [double].  Their definitions are
    written over a class of arithmetics, [Num], which has two instances:
    [double] itself, on which the definitions are the code, and the exact
    rationals [Qc], on which the theorems say what the algorithms compute when
    nothing is rounded.  Results that do not depend on the arithmetic (shapes,
    permutations, the subsets visited) are stated for every instance.

    Loops over indices are [for_], whose body receives the index; a vector is
    a list and a matrix its row-major data, read and written as in the code. *)

From S2P Require Import Prelude Double.
From Stdlib Require Import QArith Qcanon Lqa.

Open Scope nat_scope.

(** ** Arithmetics *)

Class Num (T : Type) := {
  of_Z : Z -> T;
  nadd : T -> T -> T;
  nsub : T -> T -> T;
  nmul : T -> T -> T;
  ndiv : T -> T -> T;
  nopp : T -> T;
  nabs : T -> T;
  nltb : T -> T -> bool;
  nleb : T -> T -> bool;
}.

(** [std::sqrt], which only the norms use. *)
Class Sqrt (T : Type) := nsqrt : T -> T.

Declare Scope num_scope.
Delimit Scope num_scope with num.
Infix "+" := nadd : num_scope.
Infix "-" := nsub : num_scope.
Infix "*" := nmul : num_scope.
Infix "/" := ndiv : num_scope.
Notation "- x" := (nopp x) : num_scope.
Infix "<?" := nltb : num_scope.
Infix "<=?" := nleb : num_scope.
Notation "a >? b" := (nltb b a) (only parsing) : num_scope.
Notation "a >=? b" := (nleb b a) (only parsing) : num_scope.
Notation "0" := (of_Z 0) : num_scope.
Notation "1" := (of_Z 1) : num_scope.

#[export] Instance double_num : Num double := {|
  of_Z := d_of_Z;
  nadd := dadd; nsub := dsub; nmul := dmul; ndiv := ddiv;
  nopp := SFopp; nabs := SFabs;
  nltb := dltb; nleb := dleb;
|}.

#[export] Instance double_sqrt : Sqrt double := SFsqrt dprec demax.

#[export] Instance exact_num : Num Qc := {|
  of_Z z := Q2Qc (inject_Z z);
  nadd := Qcplus; nsub := Qcminus; nmul := Qcmult; ndiv := Qcdiv;
  nopp := Qcopp; nabs x := if Qclt_le_dec x 0 then (- x)%Qc else x;
  nltb x y := if Qclt_le_dec x y then true else false;
  nleb x y := if Qclt_le_dec y x then false else true;
|}.

Section constants.
Context {T} `{Num T}.
Local Open Scope num_scope.

(** The literal [n / 10^k]: both are exact in a [double] for the literals
    of the sources, so the division rounds them correctly. *)
Definition lit (n k : Z) : T := of_Z n / of_Z (10 ^ k)%Z.

(** [std::numeric_limits<double>::max()]. *)
Definition dbl_max : T := of_Z ((2 ^ 53 - 1) * 2 ^ 971)%Z.

(** [static_cast<double>] of a size. *)
Definition of_size (n : nat) : T := of_Z (Z.of_nat n).

Definition nmax (a b : T) : T := if a <? b then b else a.
Definition nmin (a b : T) : T := if b <? a then b else a.

(** [*std::min_element] and [*std::max_element] of a range that is not
    empty. *)
Definition min_element (l : list T) : T := foldl nmin (default 0 (head l)) (tail l).
Definition max_element (l : list T) : T := foldl nmax (default 0 (head l)) (tail l).

Record Tolerances := {
  eps : T;
  pivot_tol : T;
  conv_tol : T;
  max_iter : Z;
}.

Definition kDefaultTol : Tolerances :=
  {| eps := lit 1 10; pivot_tol := lit 1 12; conv_tol := lit 1 9; max_iter := 10000%Z |}.

Definition approx_zero (v tol : T) : bool := nabs v <? tol.
Definition approx_eq (a b tol : T) : bool := nabs (a - b) <? tol.
Definition approx_ge (a b tol : T) : bool := a >? b - tol.
End constants.

Arguments Tolerances : clear implicits.

(** ** Loops *)

(** [for (i = a; i < b; ++i) s = body(i, s);] *)
Definition for_ {S} (a b : nat) (body : nat -> S -> S) (s : S) : S :=
  foldl (fun s i => body i s) s (seq a (b - a)).

Lemma for_inv {S} (P : nat -> S -> Prop) a b body s :
  a <= b -> P a s -> (forall i s, a <= i < b -> P i s -> P (Datatypes.S i) (body i s)) ->
  P b (for_ a b body s).
Proof.
  intros Hab Ha Hstep. unfold for_.
  enough (forall k a s, a + k = b -> P a s -> (forall i s, a <= i < b -> P i s -> P (Datatypes.S i) (body i s)) ->
    P b (foldl (fun s i => body i s) s (seq a k))) as G by (apply G; [lia|done..]).
  clear. induction k as [|k IH]; intros a s Hk Ha Hstep; cbn.
  - by replace b with a by lia.
  - apply IH; [lia| |]; [apply Hstep; [lia|done]|]. intros i s' Hi. apply Hstep. lia.
Qed.

Lemma for_empty {S} a b (body : nat -> S -> S) s : b <= a -> for_ a b body s = s.
Proof. intros. unfold for_. by replace (b - a) with 0 by lia. Qed.

Lemma for_last {S} a b (body : nat -> S -> S) s :
  a <= b -> for_ a (Datatypes.S b) body s = body b (for_ a b body s).
Proof.
  intros. unfold for_. replace (Datatypes.S b - a) with (b - a + 1) by lia.
  rewrite seq_app, foldl_app. cbn. by replace (a + (b - a)) with b by lia.
Qed.

Lemma for_ext {S} a b (f g : nat -> S -> S) s :
  (forall i s, a <= i < b -> f i s = g i s) -> for_ a b f s = for_ a b g s.
Proof.
  intros Hfg. destruct (decide (a <= b)) as [Hab|]; [|by rewrite !for_empty by lia].
  enough (for_ a b f s = for_ a b g s /\ True) by tauto.
  revert Hfg. induction Hab as [|b Hab IH]; intros Hfg; [by rewrite !for_empty by lia|].
  rewrite !for_last by done. destruct IH as [-> _]; [intros; apply Hfg; lia|].
  split; [apply Hfg; lia|done].
Qed.

(** ** Vectors and matrices *)

Section vectors.
Context {T} `{Num T}.

(** [v[i]]; the code reads inside the bounds. *)
Definition vget (v : list T) (i : nat) : T := nth i v 0%num.

(** A vector of [n] elements whose [i]-th is set to [f i]. *)
Definition vec (n : nat) (f : nat -> T) : list T := f <$> seq 0 n.

Record Mat := { rows : nat; cols : nat; data : list T }.

Definition mat (r c : nat) (val : T) : Mat := {| rows := r; cols := c; data := replicate (r * c) val |}.

(** A matrix from its rows, all of the same length. *)
Definition of_rows (l : list (list T)) : Mat :=
  {| rows := length l; cols := length (default [] (head l)); data := concat l |}.

Definition mget (M : Mat) (i j : nat) : T := vget (data M) (i * cols M + j).

Definition mset (M : Mat) (i j : nat) (v : T) : Mat :=
  {| rows := rows M; cols := cols M; data := <[i * cols M + j := v]> (data M) |}.

(** [std::swap(M(i, j), M(i', j'))] *)
Definition mswap (M : Mat) (i j i' j' : nat) : Mat :=
  let a := mget M i j in mset (mset M i j (mget M i' j')) i' j' a.

(** *** Shapes *)

Definition shape (M : Mat) (r c : nat) : Prop := rows M = r /\ cols M = c /\ length (data M) = r * c.

Lemma shape_mat r c v : shape (mat r c v) r c.
Proof. unfold shape; cbn. by rewrite length_replicate. Qed.

Lemma shape_mset M r c i j v : shape M r c -> shape (mset M i j v) r c.
Proof. unfold shape; cbn. by rewrite length_insert. Qed.

Lemma shape_mswap M r c i j i' j' : shape M r c -> shape (mswap M i j i' j') r c.
Proof. intros. by apply shape_mset, shape_mset. Qed.

Lemma vget_insert v i x k : i < length v -> vget (<[i := x]> v) k = if decide (k = i) then x else vget v k.
Proof.
  intros Hi. unfold vget. rewrite !nth_lookup. case_decide as Hk; [subst|].
  - by rewrite list_lookup_insert_eq.
  - by rewrite list_lookup_insert_ne.
Qed.

Lemma vget_vec n f i : i < n -> vget (vec n f) i = f i.
Proof.
  intros. unfold vget, vec. rewrite nth_lookup, list_lookup_fmap, lookup_seq_lt by done. done.
Qed.

Lemma vec_length n f : length (vec n f) = n.
Proof. unfold vec. by rewrite length_fmap, length_seq. Qed.

Lemma vget_ext v w : length v = length w -> (forall i, i < length v -> vget v i = vget w i) -> v = w.
Proof.
  intros Hl Hvw. apply list_eq_same_length with (length v); [done..|].
  intros i x y Hi Hx Hy. specialize (Hvw i Hi). unfold vget in Hvw.
  by rewrite !nth_lookup, Hx, Hy in Hvw.
Qed.

#[local] Arguments vget : simpl never.

Lemma cell_inj c i j i' j' : j < c -> j' < c -> i * c + j = i' * c + j' -> i = i' /\ j = j'.
Proof.
  intros Hj Hj' E. assert (i = i') as ->; [|lia].
  apply (f_equal (fun n => Nat.div n c)) in E.
  rewrite !Nat.div_add_l in E by lia. rewrite !(Nat.div_small _ c) in E by done. lia.
Qed.

Lemma mget_mset M r c i j v i' j' : shape M r c -> i < r -> j < c -> j' < c ->
  mget (mset M i j v) i' j' = if decide (i' = i /\ j' = j) then v else mget M i' j'.
Proof.
  intros (Hr & Hc & Hl) Hi Hj Hj'. unfold mget, mset; cbn. rewrite vget_insert by (rewrite Hl, Hc; nia).
  destruct (decide (i' = i /\ j' = j)) as [[-> ->]|Hne]; [by rewrite decide_True|].
  rewrite decide_False; [done|]. intros E. rewrite Hc in E. by apply cell_inj in E.
Qed.

Lemma mget_mat r c v i j : i < r -> j < c -> mget (mat r c v) i j = v.
Proof.
  intros. unfold mget, mat; cbn. unfold vget. rewrite nth_lookup, lookup_replicate_2 by nia. done.
Qed.

(** A loop along row [i] that rewrites each of its cells once, from cells
    it has not touched. *)
Lemma row_loop r c i a b (f : nat -> Mat -> T) M M' : shape M r c -> i < r -> a <= b <= c ->
  (forall j M', a <= j < b -> shape M' r c ->
     (forall i' j', j' < c -> i' <> i \/ j' < a \/ j <= j' -> mget M' i' j' = mget M i' j') ->
     f j M' = f j M) ->
  M' = for_ a b (fun j M => mset M i j (f j M)) M ->
  shape M' r c /\
  forall i' j', j' < c -> mget M' i' j' = if decide (i' = i /\ a <= j' < b) then f j' M else mget M i' j'.
Proof.
  intros HM Hi Hab Hf ->.
  pose (P k M' := k <= b -> shape M' r c /\ forall i' j', j' < c ->
    mget M' i' j' = if decide (i' = i /\ a <= j' < k) then f j' M else mget M i' j').
  enough (P b (for_ a b (fun j M => mset M i j (f j M)) M)) as G by by apply G.
  apply for_inv; unfold P; [lia| |].
  - intros _. split; [done|]. intros. rewrite decide_False by lia. done.
  - intros j M' Hj IH Hjb. destruct IH as [HM' IH]; [lia|].
    split; [by apply shape_mset|]. intros i' j' Hj'.
    rewrite (mget_mset _ r c) by (done || lia). destruct (decide (i' = i /\ j' = j)) as [[-> ->]|].
    + rewrite decide_True by lia. apply Hf; [lia|done|].
      intros. rewrite IH by done. rewrite decide_False by lia. done.
    + rewrite IH by done. repeat case_decide; done || lia.
Qed.

(** Writing each cell [(p i j, q i j)], for [i < a] and [j < b], once. *)
Lemma fill_row r c b (p q : nat -> nat) (g : nat -> T) M : shape M r c ->
  (forall j, j < b -> p j < r /\ q j < c) ->
  (forall j j', j < b -> j' < b -> p j = p j' -> q j = q j' -> j = j') ->
  let M' := for_ 0 b (fun j M => mset M (p j) (q j) (g j)) M in
  shape M' r c /\ (forall j, j < b -> mget M' (p j) (q j) = g j) /\
  (forall i' j', j' < c -> (forall j, j < b -> ~ (i' = p j /\ j' = q j)) -> mget M' i' j' = mget M i' j').
Proof.
  intros HM Hin Hinj M'.
  pose (P e M' := e <= b -> shape M' r c /\ (forall j, j < e -> mget M' (p j) (q j) = g j) /\
    (forall i' j', j' < c -> (forall j, j < e -> ~ (i' = p j /\ j' = q j)) -> mget M' i' j' = mget M i' j')).
  enough (P b M') as G by by apply G. unfold M'. apply for_inv; unfold P; [lia| |].
  - intros _. split; [done|]. split; [lia|done].
  - intros e M1 He IH Hle. destruct IH as (Hs & H1 & H2); [lia|]. destruct (Hin e) as [Hpe Hqe]; [lia|].
    split; [by apply shape_mset|]. split.
    + intros j Hj. rewrite (mget_mset _ r c) by (done || (apply Hin; lia)). case_decide as Hd.
      * f_equal. symmetry. apply Hinj; lia.
      * apply H1. destruct (decide (j = e)) as [->|]; [by destruct Hd|lia].
    + intros i' j' Hj' Hne. rewrite (mget_mset _ r c) by done.
      rewrite decide_False by (apply Hne; lia). apply H2; [done|]. intros j Hj. apply Hne. lia.
Qed.

Lemma fill r c a b (p q : nat -> nat -> nat) (g : nat -> nat -> T) M : shape M r c ->
  (forall i j, i < a -> j < b -> p i j < r /\ q i j < c) ->
  (forall i i' j j', i < a -> i' < a -> j < b -> j' < b -> p i j = p i' j' -> q i j = q i' j' -> i = i' /\ j = j') ->
  let M' := for_ 0 a (fun i => for_ 0 b (fun j M => mset M (p i j) (q i j) (g i j))) M in
  shape M' r c /\ (forall i j, i < a -> j < b -> mget M' (p i j) (q i j) = g i j) /\
  (forall i' j', j' < c -> (forall i j, i < a -> j < b -> ~ (i' = p i j /\ j' = q i j)) -> mget M' i' j' = mget M i' j').
Proof.
  intros HM Hin Hinj M'.
  pose (P e M' := e <= a -> shape M' r c /\ (forall i j, i < e -> j < b -> mget M' (p i j) (q i j) = g i j) /\
    (forall i' j', j' < c -> (forall i j, i < e -> j < b -> ~ (i' = p i j /\ j' = q i j)) -> mget M' i' j' = mget M i' j')).
  enough (P a M') as G by by apply G. unfold M'. apply for_inv; unfold P; [lia| |].
  - intros _. split; [done|]. split; [lia|done].
  - intros e M1 He IH Hle. destruct IH as (Hs & H1 & H2); [lia|].
    destruct (fill_row r c b (p e) (q e) (g e) M1) as (Hs' & H3 & H4); [done|..].
    { intros. apply Hin; lia. }
    { intros j j' Hj Hj' E1 E2. eapply Hinj; [..|exact E1|exact E2]; lia. }
    split; [done|]. split.
    + intros i j Hi Hj. destruct (decide (i = e)) as [->|]; [by apply H3|].
      rewrite H4; [apply H1; lia|apply Hin; lia|]. intros j1 Hj1 [E1 E2].
      eapply Hinj in E1; [destruct E1; done|lia..|done].
    + intros i' j' Hj' Hne. rewrite H4; [|done|intros; apply Hne; lia]. apply H2; [done|]. intros. apply Hne; lia.
Qed.

(** Filling rows up to a column [c] and setting one more cell of each. *)
Lemma fill_bordered R C r c (f : nat -> nat -> T) (p : nat -> nat) (g : nat -> T) M : shape M R C ->
  r <= R -> c <= C -> (forall a, a < r -> c <= p a < C) ->
  let M' := for_ 0 r (fun a M => mset (for_ 0 c (fun b M => mset M a b (f a b)) M) a (p a) (g a)) M in
  shape M' R C /\ forall i j, j < C -> mget M' i j =
    if decide (i < r) then (if decide (j < c) then f i j else if decide (j = p i) then g i else mget M i j)
    else mget M i j.
Proof.
  intros HM Hr Hc Hp M'.
  pose (P e M' := e <= r -> shape M' R C /\ forall i j, j < C -> mget M' i j =
    if decide (i < e) then (if decide (j < c) then f i j else if decide (j = p i) then g i else mget M i j)
    else mget M i j).
  enough (P r M') as G by by apply G. unfold M'. apply for_inv; unfold P; [lia| |].
  - intros _. split; [done|]. intros. by rewrite decide_False by lia.
  - intros e M1 He IH Hle. destruct IH as [Hs IH]; [lia|]. pose proof (Hp e ltac:(lia)).
    destruct (fill_row R C c (fun _ => e) (fun j => j) (fun j => f e j) M1) as (Hs' & H1 & H2); [done|lia|done|].
    set (M2 := for_ 0 c _ M1) in *. split; [by apply shape_mset|]. intros i j Hj.
    rewrite (mget_mset _ R C) by (done || lia). destruct (decide (i = e /\ j = p e)) as [[-> ->]|Hne].
    + by rewrite decide_True, decide_False, decide_True by lia.
    + destruct (decide (i = e)) as [->|].
      * rewrite decide_True by lia. destruct (decide (j < c)); [by apply H1|].
        rewrite H2 by (done || (intros ? ? []; lia)). rewrite IH by done. by rewrite !decide_False by lia.
      * rewrite H2 by (done || (intros ? ? []; done)). rewrite IH by done. repeat case_decide; done || lia.
Qed.
End vectors.

Arguments Mat : clear implicits.

(** ** Exact arithmetic *)

(** Linear (and simple non-linear) arithmetic on [Qc], through the rational
    each number holds. *)
Lemma this_add (x y : Qc) : (this (x + y)%Qc == this x + this y)%Q.
Proof. apply Qred_correct. Qed.
Lemma this_mul (x y : Qc) : (this (x * y)%Qc == this x * this y)%Q.
Proof. apply Qred_correct. Qed.
Lemma this_opp (x : Qc) : (this (- x)%Qc == - this x)%Q.
Proof. apply Qred_correct. Qed.
Lemma this_sub (x y : Qc) : (this (x - y)%Qc == this x - this y)%Q.
Proof. unfold Qcminus. rewrite this_add, this_opp. reflexivity. Qed.

Ltac qc_push x :=
  lazymatch x with
  | (?a + ?b)%Qc => lazymatch goal with
    | _ : (this (a + b)%Qc == this a + this b)%Q |- _ => idtac
    | _ => pose proof (this_add a b); qc_push a; qc_push b end
  | (?a * ?b)%Qc => lazymatch goal with
    | _ : (this (a * b)%Qc == this a * this b)%Q |- _ => idtac
    | _ => pose proof (this_mul a b); qc_push a; qc_push b end
  | (?a - ?b)%Qc => lazymatch goal with
    | _ : (this (a - b)%Qc == this a - this b)%Q |- _ => idtac
    | _ => pose proof (this_sub a b); qc_push a; qc_push b end
  | (- ?a)%Qc => lazymatch goal with
    | _ : (this (- a)%Qc == - this a)%Q |- _ => idtac
    | _ => pose proof (this_opp a); qc_push a end
  | _ => idtac
  end.

Ltac qc_pre :=
  repeat match goal with
  | H : ~ (_ <= _)%Qc |- _ => apply Qcnot_le_lt in H
  | H : ~ (_ < _)%Qc |- _ => apply Qcnot_lt_le in H
  | |- ~ (_ <= _)%Qc => apply Qclt_not_le
  | |- ~ (_ < _)%Qc => apply Qcle_not_lt
  | |- ?x <> ?y :> Qc => let E := fresh in intros E
  | H : ?x = ?y :> Qc |- _ => let E := fresh in
      pose proof (f_equal this H) as E;
      assert (this x == this y)%Q by (rewrite E; reflexivity); qc_push x; qc_push y; clear E; revert H
  | H : (?x <= ?y)%Qc |- _ => qc_push x; qc_push y; change (this x <= this y)%Q in H
  | H : (?x < ?y)%Qc |- _ => qc_push x; qc_push y; change (this x < this y)%Q in H
  end; intros;
  lazymatch goal with
  | |- ?x = ?y :> Qc => qc_push x; qc_push y; apply Qc_is_canon
  | |- (?x <= ?y)%Qc => qc_push x; qc_push y; change (this x <= this y)%Q
  | |- (?x < ?y)%Qc => qc_push x; qc_push y; change (this x < this y)%Q
  | |- _ => idtac
  end;
  change (this 0%Qc) with 0%Q in *; change (this 1%Qc) with 1%Q in *.

Ltac qc_lra := qc_pre; lra.
Ltac qc_nra := qc_pre; nra.

Lemma exact_of_Z_le a b : (a <= b)%Z -> (of_Z a <= (of_Z b : Qc))%Qc.
Proof. intros. unfold Qcle; cbn. rewrite !Qred_correct. by rewrite <-Zle_Qle. Qed.

Lemma exact_of_Z_lt a b : (a < b)%Z -> (of_Z a < (of_Z b : Qc))%Qc.
Proof. intros. unfold Qclt; cbn. rewrite !Qred_correct. by rewrite <-Zlt_Qlt. Qed.

Lemma mul_mono (a x y : Qc) : (0 <= a -> x <= y -> a * x <= a * y)%Qc.
Proof. intros. qc_nra. Qed.

Lemma mul_nonneg (a b : Qc) : (0 <= a -> 0 <= b -> 0 <= a * b)%Qc.
Proof. intros. qc_nra. Qed.

Lemma nltb_spec (x y : Qc) : reflect (x < y)%Qc (nltb x y).
Proof. cbn. destruct (Qclt_le_dec x y); constructor; [done|qc_lra]. Qed.

Lemma nleb_spec (x y : Qc) : reflect (x <= y)%Qc (nleb x y).
Proof. cbn. destruct (Qclt_le_dec y x); constructor; [qc_lra|done]. Qed.

Lemma nabs_cases (x : Qc) : (nabs x = x /\ 0 <= x \/ nabs x = - x /\ x < 0)%Qc.
Proof. cbn. destruct (Qclt_le_dec x 0); [right|left]; done. Qed.

Lemma nmax_cases (x y : Qc) : (nmax x y = x /\ y <= x \/ nmax x y = y /\ x < y)%Qc.
Proof. unfold nmax. destruct (nltb_spec x y); [right; done|left; split; [done|qc_lra]]. Qed.

Lemma nmin_cases (x y : Qc) : (nmin x y = x /\ x <= y \/ nmin x y = y /\ y < x)%Qc.
Proof. unfold nmin. destruct (nltb_spec y x); [right; done|left; split; [done|qc_lra]]. Qed.

(** Rationals for concrete examples. *)
Definition q (a : Z) (b : positive) : Qc := Q2Qc (a # b).

(** *** Sums *)

Definition sum (n : nat) (f : nat -> Qc) : Qc := for_ 0 n (fun i s => (s + f i)%Qc) 0%Qc.

Lemma sum_0 f : sum 0 f = 0%Qc.
Proof. done. Qed.

Lemma sum_S n f : sum (S n) f = (sum n f + f n)%Qc.
Proof. unfold sum. by rewrite for_last by lia. Qed.

Lemma sum_ext n f g : (forall i, i < n -> f i = g i) -> sum n f = sum n g.
Proof. intros Hfg. apply for_ext. intros. by rewrite Hfg by lia. Qed.

Ltac sum_induction n := induction n as [|n IH]; [rewrite ?sum_0|rewrite ?sum_S].

Lemma sum_zero n f : (forall i, i < n -> f i = 0%Qc) -> sum n f = 0%Qc.
Proof. intros Hf. sum_induction n; [done|]. rewrite IH, Hf by auto. ring. Qed.

Lemma sum_add n f g : sum n (fun i => f i + g i)%Qc = (sum n f + sum n g)%Qc.
Proof. sum_induction n; [ring|]. rewrite IH. ring. Qed.

Lemma sum_sub n f g : sum n (fun i => f i - g i)%Qc = (sum n f - sum n g)%Qc.
Proof. sum_induction n; [ring|]. rewrite IH. ring. Qed.

Lemma sum_mul_l n c f : sum n (fun i => c * f i)%Qc = (c * sum n f)%Qc.
Proof. sum_induction n; [ring|]. rewrite IH. ring. Qed.

Lemma sum_mul_r n c f : sum n (fun i => f i * c)%Qc = (sum n f * c)%Qc.
Proof. sum_induction n; [ring|]. rewrite IH. ring. Qed.

Lemma sum_swap n m f : sum n (fun i => sum m (f i)) = sum m (fun j => sum n (fun i => f i j)).
Proof.
  sum_induction n; [by rewrite sum_zero|]. rewrite IH, <-sum_add.
  apply sum_ext. intros. by rewrite sum_S.
Qed.

(** A sum with one term that differs from zero. *)
Lemma sum_single n f k : k < n -> (forall i, i < n -> i <> k -> f i = 0%Qc) -> sum n f = f k.
Proof.
  intros Hk Hf. induction n as [|n IH]; [lia|]. rewrite sum_S. destruct (decide (k = n)) as [->|].
  - rewrite sum_zero; [ring|]. intros. apply Hf; lia.
  - rewrite IH, (Hf n) by (lia || (intros; apply Hf; lia)). ring.
Qed.

Lemma sum_nonneg n f : (forall i, i < n -> (0 <= f i)%Qc) -> (0 <= sum n f)%Qc.
Proof.
  intros Hf. sum_induction n; [done|]. specialize (IH ltac:(auto)). specialize (Hf n ltac:(lia)). qc_lra.
Qed.

Lemma sum_le n f g : (forall i, i < n -> (f i <= g i)%Qc) -> (sum n f <= sum n g)%Qc.
Proof.
  intros Hf. sum_induction n; [done|]. specialize (IH ltac:(auto)). specialize (Hf n ltac:(lia)). qc_lra.
Qed.

Lemma sum_term_le n f k : (forall i, i < n -> (0 <= f i)%Qc) -> k < n -> (f k <= sum n f)%Qc.
Proof.
  intros Hf Hk. induction n as [|n IH]; [lia|]. rewrite sum_S.
  assert (0 <= sum n f)%Qc by (apply sum_nonneg; auto). pose proof (Hf n ltac:(lia)).
  destruct (decide (k = n)) as [->|]; [qc_lra|]. specialize (IH ltac:(auto) ltac:(lia)). qc_lra.
Qed.

(** A sum of terms that are not negative is zero when each is. *)
Lemma sum_zero_inv n f : (forall i, i < n -> (0 <= f i)%Qc) -> sum n f = 0%Qc -> forall i, i < n -> f i = 0%Qc.
Proof. intros Hf Hs i Hi. pose proof (sum_term_le n f i Hf Hi). specialize (Hf i Hi). rewrite Hs in *. qc_lra. Qed.

Lemma exact_of_Z_add a b : of_Z (a + b) = (of_Z a + of_Z b : Qc)%Qc.
Proof.
  assert (forall z, (this (of_Z z : Qc) == inject_Z z)%Q) as E by (intros; apply Qred_correct).
  apply Qc_is_canon. rewrite this_add, !E. by rewrite inject_Z_plus.
Qed.

Lemma sum_const n c : sum n (fun _ => c) = (of_size n * c)%Qc.
Proof.
  unfold of_size. sum_induction n; [change (of_Z (Z.of_nat 0)) with 0%Qc; ring|].
  rewrite IH, Nat2Z.inj_succ, <-Z.add_1_r, exact_of_Z_add. change (of_Z 1) with 1%Qc. ring.
Qed.

Lemma of_size_nonneg n : (0 <= (of_size n : Qc))%Qc.
Proof. apply (exact_of_Z_le 0). lia. Qed.

(** Splitting a sum at an index. *)
Lemma sum_app n m f : sum (n + m) f = (sum n f + sum m (fun i => f (n + i)%nat))%Qc.
Proof.
  induction m as [|m IH]; [rewrite Nat.add_0_r, sum_0; ring|].
  rewrite Nat.add_succ_r, !sum_S, IH. ring.
Qed.

(** The operations of the exact instance as those of [Qc]. *)
Ltac exact_ops :=
  change (@of_Z Qc exact_num 0%Z) with 0%Qc in *; change (@of_Z Qc exact_num 1%Z) with 1%Qc in *;
  cbn [nadd nsub nmul ndiv nopp exact_num] in *.
