(* ===== verification/LinearAlgebra.v ===== *)
(** * Dense linear algebra (nash/numerics/linear_algebra.cpp)

    The vector and matrix operations, the LU decomposition with partial
    pivoting and the solver built on it, the null space by complete pivoting,
    the determinant.  In exact arithmetic the solver returns the only solution
    of its system, and it refuses a system only for a pivot below the
    tolerance; whatever the arithmetic, a decomposition permutes the rows of
    the matrix it is given. *)

From S2P Require Import Prelude Double Numeric.
From Stdlib Require Import QArith Qcanon.

Open Scope nat_scope.

Module Linalg.

Section linalg.
Context {T : Type} `{Num T}.

Local Abbreviation Vec := (list T).
Local Abbreviation Mat := (Mat T).

(** ** Vector operations *)

Definition dot (a b : Vec) : T :=
  for_ 0 (length a) (fun i s => s + vget a i * vget b i)%num 0%num.

Definition norm2 `{Sqrt T} (v : Vec) : T := nsqrt (dot v v).

Definition norm_inf (v : Vec) : T := foldl (fun mx x => nmax mx (nabs x)) 0%num v.

Definition add (a b : Vec) : Vec := vec (length a) (fun i => vget a i + vget b i)%num.
Definition sub (a b : Vec) : Vec := vec (length a) (fun i => vget a i - vget b i)%num.
Definition scale (alpha : T) (a : Vec) : Vec := vec (length a) (fun i => alpha * vget a i)%num.
Definition axpy (alpha : T) (b a : Vec) : Vec :=
  vec (length a) (fun i => vget a i + alpha * vget b i)%num.

(** ** Matrix operations *)

Definition matvec (A : Mat) (x : Vec) : Vec :=
  vec (rows A) (fun i => for_ 0 (cols A) (fun j s => s + mget A i j * vget x j)%num 0%num).

Definition matvec_transpose (A : Mat) (x : Vec) : Vec :=
  for_ 0 (rows A) (fun i =>
    for_ 0 (cols A) (fun j y => <[j := (vget y j + mget A i j * vget x i)%num]> y))
    (replicate (cols A) 0%num).

Definition matmul (A B : Mat) : Mat :=
  for_ 0 (rows A) (fun i => for_ 0 (cols A) (fun k => for_ 0 (cols B) (fun j C =>
    mset C i j (mget C i j + mget A i k * mget B k j)%num)))
    (mat (rows A) (cols B) 0%num).

Definition transpose (A : Mat) : Mat :=
  for_ 0 (rows A) (fun i => for_ 0 (cols A) (fun j M => mset M j i (mget A i j)))
    (mat (cols A) (rows A) 0%num).

Definition eye (n : nat) : Mat := for_ 0 n (fun i I => mset I i i 1%num) (mat n n 0%num).

(** ** LU decomposition with partial pivoting *)

Record LU := { LU_combined : Mat; perm : list nat; sign : Z; singular : bool }.

(** The row of the pivot of column [k] and its absolute value: the first of
    the largest. *)
Definition find_pivot (n k : nat) (M : Mat) : nat * T :=
  for_ (k + 1) n (fun i '(pivot_row, pivot_val) =>
    let v := nabs (mget M i k) in
    if (v >? pivot_val)%num then (i, v) else (pivot_row, pivot_val))
    (k, nabs (mget M k k)).

Definition swap_rows (n k r : nat) (M : Mat) : Mat := for_ 0 n (fun j M => mswap M k j r j) M.

(** [std::swap(v[i], v[j])] *)
Definition vswap (v : list nat) (i j : nat) : list nat :=
  let a := nth i v 0 in <[j := a]> (<[i := nth j v 0]> v).

Definition eliminate_row (n k i : nat) (M : Mat) : Mat :=
  let factor := (mget M i k / mget M k k)%num in
  for_ (k + 1) n (fun j M => mset M i j (mget M i j - factor * mget M k j)%num) (mset M i k factor).

Definition eliminate_below (n k : nat) (M : Mat) : Mat := for_ (k + 1) n (eliminate_row n k) M.

(** The body of the loop over the columns; [None] is its early return. *)
Definition lu_step (n : nat) (pivot_tol : T) (k : nat) (lu : LU) : option LU :=
  let (pivot_row, pivot_val) := find_pivot n k (LU_combined lu) in
  if (pivot_val <? pivot_tol)%num then None
  else
    let lu := if pivot_row =? k then lu else
      {| LU_combined := swap_rows n k pivot_row (LU_combined lu);
         perm := vswap (perm lu) k pivot_row; sign := (- sign lu)%Z; singular := singular lu |} in
    Some {| LU_combined := eliminate_below n k (LU_combined lu);
            perm := perm lu; sign := sign lu; singular := singular lu |}.

Fixpoint lu_loop (n : nat) (pivot_tol : T) (todo k : nat) (lu : LU) : LU :=
  match todo with
  | O => lu
  | S todo =>
      match lu_step n pivot_tol k lu with
      | None => {| LU_combined := LU_combined lu; perm := perm lu; sign := sign lu; singular := true |}
      | Some lu => lu_loop n pivot_tol todo (S k) lu
      end
  end.

Definition lu_decompose (A : Mat) (pivot_tol : T) : LU :=
  let n := rows A in
  lu_loop n pivot_tol n 0 {| LU_combined := A; perm := seq 0 n; sign := 1; singular := false |}.

Definition forward_row (M : Mat) (i : nat) (y : Vec) : Vec :=
  for_ 0 i (fun j y => <[i := (vget y i - mget M i j * vget y j)%num]> y) y.

Definition back_row (n : nat) (M : Mat) (y : Vec) (i : nat) (x : Vec) : Vec :=
  let s := for_ (i + 1) n (fun j s => s - mget M i j * vget x j)%num (vget y i) in
  <[i := (s / mget M i i)%num]> x.

Definition lu_solve (lu : LU) (b : Vec) : Vec :=
  let M := LU_combined lu in
  let n := rows M in
  let y := vec n (fun i => vget b (nth i (perm lu) 0)) in
  let y := for_ 1 n (forward_row M) y in
  for_ 0 n (fun t => back_row n M y (n - 1 - t)) (replicate n 0%num).

Definition solve (A : Mat) (b : Vec) (pivot_tol : T) : option Vec :=
  let lu := lu_decompose A pivot_tol in
  if singular lu then None else Some (lu_solve lu b).

Definition determinant (A : Mat) : T :=
  let lu := lu_decompose A (lit 1 12) in
  if singular lu then 0%num
  else for_ 0 (rows A) (fun i det => det * mget (LU_combined lu) i i)%num (of_Z (sign lu)).

(** ** Extraction *)

Definition submatrix (A : Mat) (row_idx col_idx : list nat) : Mat :=
  for_ 0 (length row_idx) (fun i => for_ 0 (length col_idx) (fun j S =>
    mset S i j (mget A (nth i row_idx 0) (nth j col_idx 0))))
    (mat (length row_idx) (length col_idx) 0%num).

Definition column (A : Mat) (j : nat) : Vec := vec (rows A) (fun i => mget A i j).
Definition row (A : Mat) (i : nat) : Vec := vec (cols A) (fun j => mget A i j).

(** ** Null space by complete pivoting *)

Record Reduction := { R_ : Mat; col_perm : list nat; rank : nat }.

(** The largest entry of the submatrix from [(k, k)], the first of them. *)
Definition find_largest (m n k : nat) (R : Mat) : T * nat * nat :=
  for_ k m (fun i => for_ k n (fun j '(best, best_r, best_c) =>
    let v := nabs (mget R i j) in
    if (v >? best)%num then (v, i, j) else (best, best_r, best_c)))
    (0%num, k, k).

Definition swap_cols (m k c : nat) (R : Mat) : Mat := for_ 0 m (fun i R => mswap R i k i c) R.

Definition reduce_row (n k i : nat) (R : Mat) : Mat :=
  let factor := (mget R i k / mget R k k)%num in
  for_ (k + 1) n (fun j R => mset R i j (mget R i j - factor * mget R k j)%num) (mset R i k 0%num).

Definition normalize_row (n k : nat) (R : Mat) : Mat :=
  let d := mget R k k in
  for_ k n (fun j R => mset R k j (mget R k j / d)%num) R.

(** The body of the loop over the pivots; [None] is its break. *)
Definition null_step (m n : nat) (tol : T) (k : nat) (r : Reduction) : option Reduction :=
  let '(best, best_r, best_c) := find_largest m n k (R_ r) in
  if (best <? tol)%num then None
  else
    let R := if best_r =? k then R_ r else swap_rows n k best_r (R_ r) in
    let (R, p) := if best_c =? k then (R, col_perm r)
                  else (swap_cols m k best_c R, vswap (col_perm r) k best_c) in
    let R := for_ (k + 1) m (reduce_row n k) R in
    let R := for_ 0 k (reduce_row n k) R in
    Some {| R_ := normalize_row n k R; col_perm := p; rank := S (rank r) |}.

Fixpoint null_loop (m n : nat) (tol : T) (todo k : nat) (r : Reduction) : Reduction :=
  match todo with
  | O => r
  | S todo =>
      match null_step m n tol k r with
      | None => r
      | Some r => null_loop m n tol todo (S k) r
      end
  end.

Definition null_vector `{Sqrt T} (n : nat) (tol : T) (r : Reduction) (f : nat) : Vec :=
  let free_col := rank r + f in
  let v := <[nth free_col (col_perm r) 0 := 1%num]> (replicate n 0%num) in
  let v := for_ 0 (rank r) (fun k v => <[nth k (col_perm r) 0 := (- mget (R_ r) k free_col)%num]> v) v in
  let nrm := norm2 v in
  if (nrm >? tol)%num then (fun x => x / nrm)%num <$> v else v.

Definition null_space `{Sqrt T} (A : Mat) (tol : T) : list Vec :=
  let r := null_loop (rows A) (cols A) tol (min (rows A) (cols A)) 0
             {| R_ := A; col_perm := seq 0 (cols A); rank := 0 |} in
  null_vector (cols A) tol r <$> seq 0 (cols A - rank r).

(** ** What the steps do to the entries *)

Lemma find_pivot_spec n k M : k < n ->
  k <= (find_pivot n k M).1 < n /\ (find_pivot n k M).2 = nabs (mget M (find_pivot n k M).1 k).
Proof.
  intros Hk. unfold find_pivot.
  apply (for_inv (fun _ p => k <= p.1 < n /\ p.2 = nabs (mget M p.1 k))); [lia|cbn; split; [lia|done]|].
  intros i [r v] Hi [Hr Hv]; cbn [fst snd] in *. destruct (nltb v _); cbn; split; done || lia.
Qed.

Lemma swap_rows_spec r c k p M : shape M r c -> k < r -> p < r ->
  shape (swap_rows c k p M) r c /\
  forall i j, j < c -> mget (swap_rows c k p M) i j =
    if decide (i = k) then mget M p j else if decide (i = p) then mget M k j else mget M i j.
Proof.
  intros HM Hk Hp. unfold swap_rows.
  pose (P b M' := b <= c -> shape M' r c /\ forall i j, j < c -> mget M' i j =
    if decide (j < b) then
      if decide (i = k) then mget M p j else if decide (i = p) then mget M k j else mget M i j
    else mget M i j).
  enough (P c (for_ 0 c (fun j M => mswap M k j p j) M)) as [Hs G].
  { lia. }
  { split; [done|]. intros i j Hj. rewrite G by done. by rewrite decide_True. }
  apply for_inv; unfold P; [lia| |].
  - intros _. split; [done|]. intros. by rewrite decide_False by lia.
  - intros b M' Hb IH Hle. destruct IH as [HM' IH]; [lia|].
    split; [by apply shape_mswap|]. intros i j Hj. unfold mswap.
    rewrite (mget_mset _ r c) by (by apply shape_mset || done || lia).
    rewrite (mget_mset _ r c) by (done || lia). rewrite !IH by lia.
    rewrite !(decide_False (P := b < b)) by lia.
    destruct (decide (j = b)) as [->|Hjb].
    + rewrite !(decide_True (P := b < S b)) by lia. rewrite !(decide_False (P := b < b)) by lia.
      repeat case_decide; naive_solver lia.
    + rewrite !(decide_False (P := _ /\ j = b)) by lia. repeat case_decide; done || lia.
Qed.

Lemma vswap_length v i j : length (vswap v i j) = length v.
Proof. unfold vswap. by rewrite !length_insert. Qed.

Lemma vswap_nth v i j l : i < length v -> j < length v ->
  nth l (vswap v i j) 0 = if decide (l = i) then nth j v 0 else if decide (l = j) then nth i v 0 else nth l v 0.
Proof.
  intros Hi Hj. unfold vswap. rewrite !nth_lookup.
  destruct (decide (l = j)) as [->|Hlj].
  - rewrite list_lookup_insert_eq by (rewrite length_insert; done). cbn. case_decide; [by subst|done].
  - rewrite list_lookup_insert_ne by done. destruct (decide (l = i)) as [->|Hli].
    + by rewrite list_lookup_insert_eq.
    + by rewrite list_lookup_insert_ne.
Qed.

Lemma vswap_perm v i j : i < length v -> j < length v -> vswap v i j ≡ₚ v.
Proof.
  intros Hi Hj. apply lookup_lt_is_Some in Hi as [a Ha]. apply lookup_lt_is_Some in Hj as [b Hb].
  unfold vswap. rewrite !nth_lookup, Ha, Hb; cbn. by apply Permutation_insert_swap.
Qed.

(** A row from which a multiple of row [k] is taken, right of column [k],
    with [z] in that column. *)
Definition reduced (M : Mat) (n k i : nat) (z : T) (j : nat) : T :=
  if decide (j = k) then z
  else if decide (k < j < n) then (mget M i j - (mget M i k / mget M k k) * mget M k j)%num
  else mget M i j.

Lemma clear_row_spec r c k i z M : shape M r c -> i < r -> k < r -> k < c -> i <> k ->
  let factor := (mget M i k / mget M k k)%num in
  let M' := for_ (k + 1) c (fun j M => mset M i j (mget M i j - factor * mget M k j)%num) (mset M i k z) in
  shape M' r c /\
  forall i' j, j < c -> mget M' i' j = if decide (i' = i) then reduced M c k i z j else mget M i' j.
Proof.
  intros HM Hi Hk Hkc Hik factor M'.
  assert (shape (mset M i k z) r c) as HM0 by by apply shape_mset.
  pose proof (fun i' j => mget_mset M r c i k z i' j HM Hi Hkc) as E0.
  destruct (row_loop r c i (k + 1) c (fun j M => mget M i j - factor * mget M k j)%num (mset M i k z) M')
    as [Hs E]; [done..|lia| |done|].
  - intros j M1 Hj HM1 H1. rewrite !H1 by lia. done.
  - split; [done|]. intros i' j Hj. rewrite E by done. unfold reduced. fold factor.
    rewrite !E0 by lia. destruct (decide (i' = i)) as [->|Hii]; cbn.
    + destruct (decide (j = k)) as [->|].
      * rewrite (decide_False (P := _ /\ k + 1 <= k < c)) by lia. by rewrite decide_True.
      * destruct (decide (k < j < c)).
        -- rewrite decide_True by lia. rewrite !decide_False by lia. done.
        -- rewrite decide_False by lia. by rewrite decide_False by lia.
    + rewrite decide_False by lia. by rewrite decide_False by lia.
Qed.

(** Clearing the rows [a <= i < b], none of which is [k]. *)
Lemma clear_rows_spec r c k a b (z : nat -> Mat -> T) M : shape M r c -> b <= r -> k < r -> k < c ->
  (forall i, a <= i < b -> i <> k) ->
  (forall i M', a <= i < b -> shape M' r c -> mget M' i k = mget M i k -> mget M' k k = mget M k k ->
     z i M' = z i M) ->
  let M' := for_ a b (fun i M => for_ (k + 1) c (fun j M' =>
      mset M' i j (mget M' i j - (mget M i k / mget M k k) * mget M' k j)%num) (mset M i k (z i M))) M in
  shape M' r c /\
  forall i j, j < c -> mget M' i j = if decide (a <= i < b) then reduced M c k i (z i M) j else mget M i j.
Proof.
  intros HM Hb Hk Hkc Hne Hz M'.
  destruct (decide (a <= b)); cycle 1.
  { unfold M'. rewrite for_empty by lia. split; [done|]. intros. by rewrite decide_False by lia. }
  pose (P e M' := e <= b -> shape M' r c /\ forall i j, j < c ->
     mget M' i j = if decide (a <= i < e) then reduced M c k i (z i M) j else mget M i j).
  enough (P b M') as G by by apply G.
  unfold M'. apply for_inv; unfold P; [lia| |].
  - intros _. split; [done|]. intros. by rewrite decide_False by lia.
  - intros i M1 Hi IH Hle. destruct IH as [HM1 IH]; [lia|].
    assert (i <> k) by (apply Hne; lia).
    destruct (clear_row_spec r c k i (z i M1) M1) as [Hs E]; [done..|lia|done|done|done|].
    split; [done|]. intros i' j Hj. rewrite E by done.
    assert (forall j, j < c -> mget M1 i j = mget M i j) as Ei.
    { intros. rewrite IH by done. by rewrite decide_False by lia. }
    assert (forall j, j < c -> mget M1 k j = mget M k j) as Ek.
    { intros. rewrite IH by done. destruct (decide (a <= k < i)); [|done]. exfalso. by apply (Hne k); [lia|]. }
    destruct (decide (i' = i)) as [->|].
    + rewrite decide_True by lia. unfold reduced. rewrite !Ei, !Ek by done.
      destruct (decide (j = k)); [|done]. apply Hz; auto with lia.
    + rewrite IH by done. repeat case_decide; done || lia.
Qed.

Lemma eliminate_below_spec n k M : shape M n n -> k < n ->
  shape (eliminate_below n k M) n n /\
  forall i j, j < n -> mget (eliminate_below n k M) i j =
    if decide (k < i < n) then reduced M n k i (mget M i k / mget M k k)%num j else mget M i j.
Proof.
  intros HM Hk.
  destruct (clear_rows_spec n n k (k + 1) n (fun i M => mget M i k / mget M k k)%num M) as [Hs E];
    [done|lia..| |].
  - intros i M' _ _ -> ->. done.
  - split; [done|]. intros i j Hj. unfold eliminate_below, eliminate_row. rewrite E by done.
    repeat case_decide; done || lia.
Qed.

Lemma transpose_spec r c A : shape A r c ->
  shape (transpose A) c r /\ forall i j, i < r -> j < c -> mget (transpose A) j i = mget A i j.
Proof.
  intros (Hr & Hc & _). unfold transpose. rewrite Hr, Hc.
  destruct (fill c r r c (fun _ j => j) (fun i _ => i) (fun i j => mget A i j) (mat c r 0%num)) as (Hs & H1 & _);
    [apply shape_mat|done|done|]. by split.
Qed.

(** ** Decompositions of any arithmetic *)

(** The combined matrix keeps its shape and the row indices stay a
    permutation. *)
Definition permuted (n : nat) (lu : LU) : Prop :=
  shape (LU_combined lu) n n /\ perm lu ≡ₚ seq 0 n /\ (sign lu = 1 \/ sign lu = -1)%Z.

Lemma permuted_length n lu : permuted n lu -> length (perm lu) = n.
Proof. intros (_ & Hp & _). by rewrite Hp, length_seq. Qed.

Lemma lu_step_permuted n tol k lu lu' :
  k < n -> permuted n lu -> lu_step n tol k lu = Some lu' -> permuted n lu'.
Proof.
  intros Hk Hlu. pose proof (permuted_length n lu Hlu) as Hl. destruct Hlu as (Hs & Hp & Hg).
  pose proof (find_pivot_spec n k (LU_combined lu) Hk) as [Hr _]. unfold lu_step.
  destruct (find_pivot n k (LU_combined lu)) as [r v]; cbn in Hr. destruct (nltb _ _); [done|].
  intros [= <-]. destruct (r =? k); repeat split; cbn; try by apply eliminate_below_spec.
  1-2: done.
  - by apply eliminate_below_spec; [apply swap_rows_spec; (done || lia)|].
  - by apply eliminate_below_spec; [apply swap_rows_spec; (done || lia)|].
  - by apply eliminate_below_spec; [apply swap_rows_spec; (done || lia)|].
  - rewrite vswap_perm by lia. done.
  - lia.
Qed.

Lemma lu_loop_inv n tol (P : nat -> LU -> Prop) todo k lu :
  k + todo = n -> P k lu ->
  (forall k lu lu', k < n -> P k lu -> lu_step n tol k lu = Some lu' -> P (S k) lu') ->
  let lu' := lu_loop n tol todo k lu in
  (singular lu' = true \/ P n lu') /\
  exists k lu0, k <= n /\ P k lu0 /\
    LU_combined lu' = LU_combined lu0 /\ perm lu' = perm lu0 /\ sign lu' = sign lu0.
Proof.
  intros Hk HP Hstep. revert k lu Hk HP. induction todo as [|todo IH]; intros k lu Hk HP; cbn.
  - replace n with k by lia. split; [by right|]. by exists k, lu.
  - destruct (lu_step n tol k lu) as [lu1|] eqn:E; cbn.
    + apply IH; [lia|]. eapply Hstep; [lia|done..].
    + split; [by left|]. exists k, lu. split; [lia|done].
Qed.

Lemma lu_decompose_permuted A n tol : shape A n n -> permuted n (lu_decompose A tol).
Proof.
  intros HA. unfold lu_decompose. rewrite (proj1 HA).
  destruct (lu_loop_inv n tol (fun _ => permuted n) n 0
    {| LU_combined := A; perm := seq 0 n; sign := 1; singular := false |})
    as (_ & k & lu0 & _ & (H0 & H1 & H2) & E0 & E1 & E2); [done| | |].
  - split; [done|split; [done|by left]].
  - intros ? lu lu' ???. by eapply lu_step_permuted.
  - unfold permuted. rewrite E0, E1, E2. done.
Qed.

End linalg.

Arguments LU : clear implicits.
Arguments Reduction : clear implicits.
(** ** Exact arithmetic *)

Section exact.
Local Open Scope Qc_scope.
Local Abbreviation Vec := (list Qc).
Local Abbreviation Mat := (Mat Qc).

Lemma matvec_exact A x i : (i < rows A)%nat ->
  vget (matvec A x) i = sum (cols A) (fun j => mget A i j * vget x j).
Proof. intros. unfold matvec. by rewrite vget_vec. Qed.

Lemma dot_exact a b : dot a b = sum (length a) (fun i => vget a i * vget b i).
Proof. done. Qed.

(** After [k] columns: row [perm i] of [A] is the product of the first
    [min i k] columns of the lower factor and the rows of the upper one, plus
    what is left in row [i]. *)
Definition factors (A M : Mat) (p : list nat) (n k : nat) : Prop :=
  forall i j, (i < n)%nat -> (j < n)%nat ->
  mget A (nth i p O) j =
    sum n (fun l => if decide (l < min i k /\ l <= j)%nat then mget M i l * mget M l j else 0) +
    (if decide (min i k <= j)%nat then mget M i j else 0).

Lemma factors_start A n : factors A A (seq 0 n) n 0.
Proof.
  intros i j Hi Hj. rewrite seq_nth, sum_zero, decide_True by (done || lia || (intros; by rewrite decide_False by lia)).
  rewrite Nat.add_0_l. ring.
Qed.

Lemma factors_swap A M p n k r : shape M n n -> length p = n -> (k <= r < n)%nat ->
  factors A M p n k -> factors A (swap_rows n k r M) (vswap p k r) n k.
Proof.
  intros HM Hp Hr HF i j Hi Hj.
  destruct (swap_rows_spec n n k r M) as [_ E]; [done|lia..|].
  rewrite vswap_nth by lia. rewrite (E i j) by done.
  transitivity (sum n (fun l => if decide (l < min i k /\ l <= j)%nat then
      (if decide (i = k) then mget M r l else if decide (i = r) then mget M k l else mget M i l) * mget M l j
      else 0) + (if decide (min i k <= j)%nat then
      (if decide (i = k) then mget M r j else if decide (i = r) then mget M k j else mget M i j) else 0)).
  - destruct (decide (i = k)) as [->|].
    + rewrite HF by lia. replace (min r k) with (min k k) by lia. done.
    + destruct (decide (i = r)) as [->|]; [|by apply HF].
      rewrite HF by lia. replace (min r k) with (min k k) by lia. done.
  - f_equal. apply sum_ext. intros l Hl. case_decide; [|done].
    rewrite !E by done. rewrite (decide_False (P := l = k)), (decide_False (P := l = r)) by lia. done.
Qed.

Lemma factors_eliminate A M p n k : shape M n n -> (k < n)%nat -> mget M k k <> 0 ->
  factors A M p n k -> factors A (eliminate_below n k M) p n (S k).
Proof.
  intros HM Hk Hp HF i j Hi Hj. rewrite HF by done.
  destruct (eliminate_below_spec n k M HM Hk) as [_ E]. rewrite (E i j) by done.
  destruct (decide (i <= k)%nat) as [Hik|Hik].
  - replace (min i (S k)) with (min i k) by lia. rewrite (decide_False (P := (k < i < n)%nat)) by lia.
    f_equal. apply sum_ext. intros l Hl. case_decide; [|done]. rewrite !E by done.
    by rewrite !decide_False by lia.
  - replace (min i k) with k by lia. replace (min i (S k)) with (S k) by lia.
    rewrite (decide_True (P := (k < i < n)%nat)) by lia.
    transitivity (sum n (fun l => (if decide (l < k /\ l <= j)%nat then mget M i l * mget M l j else 0) +
        (if decide (l = k /\ k <= j)%nat then (mget M i k / mget M k k) * mget M k j else 0)) +
        (if decide (S k <= j)%nat then reduced M n k i (mget M i k / mget M k k) j else 0)).
    + rewrite sum_add. rewrite (sum_single n (fun l => if decide (l = k /\ _) then _ else 0) k);
        [|done|intros; by rewrite decide_False by tauto].
      unfold reduced. repeat case_decide; try lia; try (destruct_and?; lia); exact_ops; try ring.
      assert (j = k) as -> by lia. field. done.
    + f_equal. apply sum_ext. intros l Hl. rewrite !E by done. unfold reduced.
      repeat case_decide; try lia; subst; exact_ops; ring.
Qed.

(** *** The decomposition *)

Definition decomposed (A : Mat) (n k : nat) (lu : LU Qc) : Prop :=
  permuted n lu /\ factors A (LU_combined lu) (perm lu) n k /\
  (forall l, (l < k)%nat -> mget (LU_combined lu) l l <> 0) /\ singular lu = false.

Lemma lu_step_decomposed A n tol k lu lu' : 0 < tol -> (k < n)%nat ->
  decomposed A n k lu -> lu_step n tol k lu = Some lu' -> decomposed A n (S k) lu'.
Proof.
  intros Htol Hk (Hlu & HF & Hd & Hs) Hstep.
  pose proof (lu_step_permuted n tol k lu lu' Hk Hlu Hstep) as Hlu'.
  pose proof (permuted_length n lu Hlu) as Hl. destruct Hlu as (HM & _).
  split; [done|]. clear Hlu'. revert Hstep. unfold lu_step.
  pose proof (find_pivot_spec n k (LU_combined lu) Hk) as [Hr Hv].
  destruct (find_pivot n k (LU_combined lu)) as [r v]; cbn [fst snd] in *.
  destruct (nltb_spec v tol) as [|Hvt]; [done|].
  assert (mget (LU_combined lu) r k <> 0) as Hrk.
  { intros E. rewrite E in Hv. destruct (nabs_cases 0) as [[E0 _]|[E0 _]]; rewrite E0 in Hv; qc_lra. }
  (* the decomposition after the swap, whether or not there is one *)
  enough (forall M p, shape M n n -> factors A M p n k -> (forall l, (l < k)%nat -> mget M l l <> 0) ->
     mget M k k <> 0 -> forall sg, lu' = {| LU_combined := eliminate_below n k M; perm := p; sign := sg; singular := singular lu |} ->
     factors A (LU_combined lu') (perm lu') n (S k) /\
     (forall l, (l < S k)%nat -> mget (LU_combined lu') l l <> 0) /\ singular lu' = false) as G.
  { destruct (swap_rows_spec n n k r (LU_combined lu)) as [HM' E]; [done|lia..|].
    destruct (Nat.eqb_spec r k) as [->|Hrk']; intros [= <-]; refine (G _ _ _ _ _ _ _ eq_refl); try done.
    - apply factors_swap; done || lia.
    - intros l Hl'. rewrite E by lia. rewrite !decide_False by lia. by apply Hd.
    - rewrite E by lia. by rewrite decide_True. }
  intros M p HM' HF' Hd' Hkk sg ->; cbn. split; [by apply factors_eliminate|]. split; [|done].
  intros l Hl'. destruct (eliminate_below_spec n k M HM' Hk) as [_ E].
  rewrite E by lia. rewrite decide_False by lia. destruct (decide (l = k)) as [->|]; [done|apply Hd'; lia].
Qed.

Lemma lu_decompose_exact A n tol : shape A n n -> 0 < tol ->
  singular (lu_decompose A tol) = false -> decomposed A n n (lu_decompose A tol).
Proof.
  intros HA Htol. unfold lu_decompose. rewrite (proj1 HA).
  destruct (lu_loop_inv n tol (decomposed A n) n 0
    {| LU_combined := A; perm := seq 0 n; sign := 1; singular := false |}) as ([Hs|Hs] & _); [done| | |congruence|done].
  - split; [split; [done|split; [done|by left]]|]. split; [apply factors_start|]. split; [lia|done].
  - intros. by eapply lu_step_decomposed.
Qed.

(** *** The substitutions *)

Lemma sum_below n i f : (i <= n)%nat -> sum n (fun j => if decide (j < i)%nat then f j else 0) = sum i f.
Proof.
  intros Hi. replace n with (i + (n - i))%nat by lia. rewrite sum_app.
  rewrite (sum_zero (n - i)) by (intros; by rewrite decide_False by lia).
  rewrite Qcplus_0_r. apply sum_ext. intros. by rewrite decide_True.
Qed.

(** Row [l] of the upper factor applied to [w]. *)
Definition upper (M : Mat) (n : nat) (w : nat -> Qc) (l : nat) : Qc :=
  sum n (fun j => if decide (l <= j)%nat then mget M l j * w j else 0).

Lemma factored_product A M p n w i : factors A M p n n -> (i < n)%nat ->
  sum n (fun j => mget A (nth i p O) j * w j) = sum i (fun l => mget M i l * upper M n w l) + upper M n w i.
Proof.
  intros HF Hi. rewrite <-(sum_below n i (fun l => mget M i l * upper M n w l)) by lia. unfold upper at 2.
  transitivity (sum n (fun j => sum n (fun l =>
      if decide (l < i)%nat then mget M i l * (if decide (l <= j)%nat then mget M l j * w j else 0) else 0) +
      (if decide (i <= j)%nat then mget M i j * w j else 0))).
  - apply sum_ext. intros j Hj. rewrite HF by done. replace (min i n) with i by lia.
    rewrite Qcmult_plus_distr_l, <-sum_mul_r. f_equal; [|by case_decide; ring].
    apply sum_ext. intros l Hl. repeat case_decide; try lia; ring.
  - rewrite sum_add, sum_swap. f_equal. apply sum_ext. intros l Hl. case_decide; [|by apply sum_zero].
    unfold upper. by rewrite sum_mul_l.
Qed.

Lemma forward_row_spec M i y : (i < length y)%nat ->
  length (forward_row M i y) = length y /\
  forall l, vget (forward_row M i y) l =
    if decide (l = i) then vget y i - sum i (fun j => mget M i j * vget y j) else vget y l.
Proof.
  intros Hi. unfold forward_row.
  apply (for_inv (fun b y' => length y' = length y /\
    forall l, vget y' l = if decide (l = i) then vget y i - sum b (fun j => mget M i j * vget y j) else vget y l)).
  - lia.
  - split; [done|]. intros l. case_decide; [subst; rewrite sum_0; ring|done].
  - intros j y' Hj [Hl IH]. split; [by rewrite length_insert|]. intros l.
    rewrite vget_insert by lia. rewrite !IH, sum_S. rewrite (decide_False (P := j = i)) by lia.
    case_decide; [subst|done]. rewrite decide_True by done. exact_ops. ring.
Qed.

Lemma forward_spec M n y0 : length y0 = n ->
  let y := for_ 1 n (forward_row M) y0 in
  length y = n /\ forall i, (i < n)%nat -> vget y i = vget y0 i - sum i (fun j => mget M i j * vget y j).
Proof.
  intros Hn y. destruct n as [|n]; [split; [done|lia]|].
  pose (P b y := length y = S n /\ (forall i, (i < b)%nat -> vget y i = vget y0 i - sum i (fun j => mget M i j * vget y j)) /\
    forall i, (b <= i)%nat -> vget y i = vget y0 i).
  enough (P (S n) y) as (G1 & G2 & _) by done. unfold y. clear y.
  apply for_inv; unfold P; [lia| |].
  - split; [done|]. split; [|done]. intros i Hi. assert (i = O) as -> by lia. rewrite sum_0. ring.
  - intros i y Hi (Hl & H1 & H2). destruct (forward_row_spec M i y) as [Hl' E]; [lia|].
    split; [congruence|]. split.
    + intros l Hlt. rewrite E.
      rewrite (sum_ext l _ (fun j => mget M l j * vget y j)) by (intros; rewrite E; by rewrite decide_False by lia).
      destruct (decide (l = i)) as [->|]; [by rewrite H2 by lia|apply H1; lia].
    + intros l Hlt. rewrite E, decide_False by lia. apply H2. lia.
Qed.

Lemma back_sum M n i x s : (i < n)%nat ->
  for_ (i + 1) n (fun j s => s - mget M i j * vget x j) s =
  s - sum n (fun j => if decide (i < j)%nat then mget M i j * vget x j else 0).
Proof.
  intros Hi. replace (i + 1)%nat with (S i) by lia.
  assert (forall b, (S i <= b)%nat -> for_ (S i) b (fun j s => s - mget M i j * vget x j) s =
    s - sum b (fun j => if decide (i < j)%nat then mget M i j * vget x j else 0)) as G; [|by apply G].
  induction 1 as [|b Hb IH].
  - rewrite for_empty by lia. rewrite sum_zero by (intros; by rewrite decide_False by lia). ring.
  - rewrite for_last, IH, sum_S by done. rewrite decide_True by lia. ring.
Qed.

Lemma back_spec M n y : (forall i, (i < n)%nat -> mget M i i <> 0) ->
  let x := for_ 0 n (fun t => back_row n M y (n - 1 - t)) (replicate n 0) in
  length x = n /\ forall i, (i < n)%nat -> upper M n (vget x) i = vget y i.
Proof.
  intros Hd x.
  pose (P b x := length x = n /\ forall i, (n - b <= i < n)%nat ->
    mget M i i * vget x i = vget y i - sum n (fun j => if decide (i < j)%nat then mget M i j * vget x j else 0)).
  assert (P n x) as [Hl G].
  - unfold x. clear x. apply for_inv; unfold P; [lia| |].
    + split; [by rewrite length_replicate|lia].
    + intros t x Ht [Hl IH]. unfold back_row. set (i := (n - 1 - t)%nat). exact_ops.
      split; [by rewrite length_insert|]. intros l Hlt.
      rewrite back_sum by lia.
      rewrite (sum_ext n (fun j => if decide (l < j)%nat then mget M l j * vget (<[i := _]> x) j else 0)
        (fun j => if decide (l < j)%nat then mget M l j * vget x j else 0)).
      2:{ intros j Hj. case_decide; [|done]. rewrite vget_insert by lia. by rewrite decide_False by lia. }
      rewrite vget_insert by lia. case_decide; [subst l|apply IH; lia].
      field. apply Hd. lia.
  - split; [done|]. intros i Hi. specialize (G i ltac:(lia)).
    transitivity (sum n (fun j => (if decide (j = i) then mget M i i * vget x i else 0) +
      (if decide (i < j)%nat then mget M i j * vget x j else 0))).
    + apply sum_ext. intros j Hj. destruct (decide (j = i)) as [->|]; repeat case_decide; try lia; ring.
    + rewrite sum_add, (sum_single n (fun j => if decide (j = i) then _ else 0) i), decide_True
        by (done || (intros; by rewrite decide_False)). rewrite G. ring.
Qed.

(** *** The solver *)

Lemma upper_inj M n w w' : (forall i, (i < n)%nat -> mget M i i <> 0) ->
  (forall i, (i < n)%nat -> upper M n w i = upper M n w' i) -> forall i, (i < n)%nat -> w i = w' i.
Proof.
  intros Hd Hu.
  enough (forall d i, (n - i <= d)%nat -> (i < n)%nat -> w i = w' i) as G by (intros i; by apply (G n); lia).
  induction d as [|d IH]; intros i Hin Hi; [lia|].
  assert (sum n (fun j => if decide (j = i) then mget M i i * w i - mget M i i * w' i else 0) = 0) as E.
  { transitivity (upper M n w i - upper M n w' i); [unfold upper; rewrite <-sum_sub|rewrite Hu by done; ring].
    apply sum_ext. intros j Hj. repeat case_decide; try lia; subst; try ring.
    rewrite (IH j) by lia. ring. }
  rewrite (sum_single _ _ i), decide_True in E by (done || (intros; by rewrite decide_False)).
  assert (mget M i i * (w i - w' i) = 0) as E' by (rewrite <-E; ring).
  apply Qcmult_integral in E' as [E'|E']; [by destruct (Hd i Hi)|]. qc_lra.
Qed.

Lemma perm_index n p i : p ≡ₚ seq 0 n -> (i < n)%nat -> exists k, (k < n)%nat /\ nth k p O = i.
Proof.
  intros Hp Hi. assert (i ∈ p) as Hin by (rewrite Hp; apply elem_of_seq; lia).
  apply list_elem_of_lookup in Hin as [k Hk]. exists k.
  rewrite nth_lookup, Hk. split; [|done]. apply lookup_lt_Some in Hk. by rewrite Hp, length_seq in Hk.
Qed.

Lemma perm_nth_lt n p i : p ≡ₚ seq 0 n -> (i < n)%nat -> (nth i p O < n)%nat.
Proof.
  intros Hp Hi. assert (nth i p O ∈ seq 0 n) as Hin; [|apply elem_of_seq in Hin; lia].
  rewrite <-Hp. rewrite nth_lookup. destruct (lookup_lt_is_Some_2 p i) as [x Hx].
  { by rewrite Hp, length_seq. }
  rewrite Hx. by eapply list_elem_of_lookup_2.
Qed.

(** A system in terms of its decomposition. *)
Lemma system_factored A n lu w (c : nat -> Qc) : decomposed A n n lu ->
  (forall i, (i < n)%nat -> sum n (fun j => mget A i j * w j) = c i) <->
  (forall i, (i < n)%nat -> sum i (fun l => mget (LU_combined lu) i l * upper (LU_combined lu) n w l) +
     upper (LU_combined lu) n w i = c (nth i (perm lu) O)).
Proof.
  intros ((_ & Hp & _) & HF & _). split; intros G i Hi.
  - rewrite <-(factored_product A _ (perm lu)) by done. apply G. by apply perm_nth_lt.
  - destruct (perm_index n (perm lu) i) as (k & Hk & <-); [done..|].
    rewrite (factored_product A _ _ _ _ k HF Hk). by apply G.
Qed.

Lemma lu_solve_spec A n lu b : decomposed A n n lu -> length b = n ->
  length (lu_solve lu b) = n /\
  forall w, (forall i, (i < n)%nat -> sum n (fun j => mget A i j * w j) = vget b i) <->
            (forall i, (i < n)%nat -> w i = vget (lu_solve lu b) i).
Proof.
  intros Hlu Hb. pose proof Hlu as ((HM & Hp & _) & _ & Hd & _).
  unfold lu_solve. rewrite (proj1 HM).
  set (y0 := vec n _).
  destruct (forward_spec (LU_combined lu) n y0) as [Hy Ey]; [apply vec_length|].
  set (y := for_ 1 n _ y0) in *.
  destruct (back_spec (LU_combined lu) n y Hd) as [Hx Ex]. split; [done|]. intros w.
  rewrite (system_factored A n lu w (vget b) Hlu).
  assert (forall i, (i < n)%nat -> vget y0 i = vget b (nth i (perm lu) O)) as E0.
  { intros. unfold y0. by rewrite vget_vec. }
  transitivity (forall i, (i < n)%nat -> upper (LU_combined lu) n w i = vget y i).
  - split; intros G.
    + intros i. induction (lt_wf i) as [i _ IH]. intros Hi. rewrite Ey, E0, <-G by done.
      rewrite (sum_ext i (fun j => _ * vget y j) (fun l => mget (LU_combined lu) i l * upper (LU_combined lu) n w l)); [ring|].
      intros j Hj. by rewrite IH by lia.
    + intros i Hi. rewrite <-E0, G, Ey by done.
      rewrite (sum_ext i (fun l => _ * upper _ _ _ _) (fun l => mget (LU_combined lu) i l * vget y l)); [ring|].
      intros j Hj. by rewrite G by lia.
  - split; intros G.
    + apply upper_inj with (LU_combined lu); [done|]. intros. by rewrite G, Ex.
    + intros i Hi. rewrite <-Ex by done. unfold upper. apply sum_ext. intros j Hj. by rewrite G.
Qed.

Lemma matvec_eq A x b n : shape A n n -> length b = n ->
  matvec A x = b <-> forall i, (i < n)%nat -> sum n (fun j => mget A i j * vget x j) = vget b i.
Proof.
  intros (Hr & Hc & _) Hb. split.
  - intros <- i Hi. rewrite matvec_exact by lia. by rewrite Hc.
  - intros G. apply vget_ext; unfold matvec; rewrite vec_length; [by rewrite Hr|]. intros i Hi.
    rewrite vget_vec by done. rewrite Hr in Hi. rewrite Hc. by apply G.
Qed.

Lemma find_pivot_max n k M i : (k <= i < n)%nat -> nabs (mget M i k) <= (find_pivot n k M).2.
Proof.
  pose (P b (p : nat * Qc) := forall i, (k <= i < b)%nat -> nabs (mget M i k) <= p.2).
  intros Hi. enough (P n (find_pivot n k M)) as G by by apply G. assert (k < n)%nat as Hk by lia. clear i Hi.
  unfold find_pivot. apply for_inv; unfold P; [lia| |].
  - intros i Hi. assert (i = k) as -> by lia. apply Qcle_refl.
  - intros b [r v] Hb IH i Hi; cbn [snd] in IH |- *.
    destruct (nltb_spec v (nabs (mget M b k))) as [Hv|Hv]; cbn [snd] in *.
    + destruct (decide (i = b)) as [->|]; [apply Qcle_refl|]. specialize (IH i ltac:(lia)). qc_lra.
    + destruct (decide (i = b)) as [->|]; [qc_lra|]. apply IH. lia.
Qed.

(** A column without a pivot gives the matrix a vector it maps to zero. *)
Lemma no_pivot_kernel A n k lu : shape A n n -> (k < n)%nat -> decomposed A n k lu ->
  (forall i, (k <= i < n)%nat -> mget (LU_combined lu) i k = 0) ->
  exists w, length w = n /\ vget w k = 1 /\ matvec A w = replicate n 0.
Proof.
  intros HA Hk ((_ & Hp & _) & HF & Hd & _) Hz. set (M := LU_combined lu) in *.
  destruct (back_spec M k (vec k (fun l => - mget M l k))) as [Hx Ex]; [done|].
  set (x := for_ 0 k _ _) in *.
  pose (w := fun j => if decide (j < k)%nat then vget x j else if decide (j = k) then 1 else 0).
  assert (forall l, (l < k)%nat -> upper M n w l = 0) as Hu.
  { intros l Hl. unfold upper. replace n with (k + (n - k))%nat by lia. rewrite sum_app.
    rewrite (sum_ext k _ (fun j => if decide (l <= j)%nat then mget M l j * vget x j else 0)).
    2:{ intros j Hj. unfold w. by rewrite (decide_True (P := (j < k)%nat)) by lia. }
    rewrite (sum_single (n - k) _ O); [|lia|].
    - rewrite Nat.add_0_r, decide_True by lia. unfold w. rewrite decide_False, decide_True by lia.
      change (upper M k (vget x) l + mget M l k * 1 = 0). rewrite Ex, vget_vec by done. ring.
    - intros j Hj Hj0. unfold w. rewrite (decide_False (P := (k + j < k)%nat)), (decide_False (P := (k + j)%nat = k)) by lia.
      case_decide; ring. }
  exists (vec n w). split; [apply vec_length|]. split.
  { rewrite vget_vec by done. unfold w. by rewrite decide_False, decide_True by lia. }
  apply (matvec_eq A _ _ n HA (length_replicate n 0)). intros i Hi.
  destruct (perm_index n (perm lu) i Hp Hi) as (i' & Hi' & <-).
  transitivity (sum n (fun j => sum n (fun l =>
      if decide (l < min i' k)%nat then mget M i' l * (if decide (l <= j)%nat then mget M l j * w j else 0) else 0) +
      (if decide (min i' k <= j)%nat then mget M i' j * w j else 0))).
  { apply sum_ext. intros j Hj. rewrite HF, vget_vec by done. fold M. rewrite Qcmult_plus_distr_l, <-sum_mul_r.
    f_equal; [|by case_decide; ring]. apply sum_ext. intros l Hl. repeat case_decide; try lia; ring. }
  rewrite sum_add, sum_swap.
  assert (vget (replicate n (Q2Qc 0)) (nth i' (perm lu) O) = 0) as ->.
  { unfold vget. rewrite nth_lookup, lookup_replicate_2; [done|]. by apply perm_nth_lt. }
  rewrite (sum_zero n (fun l => sum n _)).
  2:{ intros l Hl. destruct (decide (l < min i' k)%nat); [|by apply sum_zero].
      rewrite sum_mul_l. change (mget M i' l * upper M n w l = 0). rewrite Hu by lia. ring. }
  destruct (decide (i' < k)%nat) as [Hik|].
  - replace (min i' k) with i' by lia. change (0 + upper M n w i' = 0). rewrite Hu by done. ring.
  - replace (min i' k) with k by lia. rewrite sum_zero; [ring|].
    intros j Hj. case_decide; [|done]. unfold w. rewrite decide_False by lia.
    destruct (decide (j = k)) as [->|]; [rewrite Hz by lia|]; ring.
Qed.

(** The vectors [A] maps to zero are zero. *)
Definition nonsingular (A : Mat) (n : nat) : Prop :=
  forall w, length w = n -> matvec A w = replicate n 0 -> w = replicate n 0.

Lemma lu_loop_complete A n todo k lu : shape A n n -> nonsingular A n ->
  (k + todo = n)%nat -> decomposed A n k lu ->
  exists t, 0 < t /\ forall tol, 0 < tol -> tol <= t -> singular (lu_loop n tol todo k lu) = false.
Proof.
  intros HA Hns. revert k lu. induction todo as [|todo IH]; intros k lu Hk Hlu; cbn [lu_loop].
  { exists 1. split; [done|]. intros. apply Hlu. }
  set (v := (find_pivot n k (LU_combined lu)).2).
  assert (0 < v) as Hv.
  { destruct (Qclt_le_dec 0 v) as [|Hv]; [done|exfalso].
    destruct (no_pivot_kernel A n k lu) as (w & Hw & Hwk & E); [done|lia|done| |].
    - intros i Hi. pose proof (find_pivot_max n k (LU_combined lu) i Hi) as Hm. fold v in Hm.
      destruct (nabs_cases (mget (LU_combined lu) i k)) as [[E ?]|[E ?]]; rewrite E in Hm; qc_lra.
    - rewrite (Hns w Hw E) in Hwk. unfold vget in Hwk. rewrite nth_lookup, lookup_replicate_2 in Hwk by lia. done. }
  assert (forall tol, tol <= v -> exists lu', lu_step n tol k lu = Some lu' /\
      forall tol', tol' <= v -> lu_step n tol' k lu = Some lu') as Hstep.
  { intros tol Hle. unfold lu_step, v in *.
    destruct (find_pivot n k (LU_combined lu)) as [r p]; cbn [snd] in *.
    eexists. split.
    - destruct (nltb_spec p tol); [qc_lra|done].
    - intros tol' Hle'. destruct (nltb_spec p tol'); [qc_lra|done]. }
  destruct (Hstep v (Qcle_refl v)) as (lu' & Hlu' & Hsame).
  destruct (IH (S k) lu') as (t & Ht & G); [lia| |].
  { eapply lu_step_decomposed; [exact Hv|lia|done..]. }
  exists (nmin v t). destruct (nmin_cases v t) as [[-> Hvt]|[-> Hvt]]; (split; [done|]); intros tol Htol Hle.
  - rewrite Hsame by done. apply G; [done|]. qc_lra.
  - rewrite Hsame by qc_lra. by apply G.
Qed.

Lemma solve_spec A n b tol x : shape A n n -> length b = n -> 0 < tol -> solve A b tol = Some x ->
  length x = n /\ (forall x', length x' = n -> matvec A x' = b <-> x' = x) /\ nonsingular A n.
Proof.
  intros HA Hb Htol. unfold solve. destruct (singular _) eqn:Hs; [done|intros [= <-]].
  pose proof (lu_decompose_exact A n tol HA Htol Hs) as Hlu.
  destruct (lu_solve_spec A n _ b Hlu Hb) as [Hl Hsol]. split; [done|]. split.
  - intros x' Hx'. rewrite (matvec_eq A x' b n HA Hb), (Hsol (vget x')). split; [|by intros ->].
    intros E. apply vget_ext; [congruence|]. rewrite Hx'. done.
  - intros w Hw E. pose proof (proj1 (matvec_eq A w _ n HA (length_replicate n 0)) E) as E'.
    destruct (lu_solve_spec A n _ (replicate n 0) Hlu (length_replicate n 0)) as [Hl0 Hsol0].
    assert (forall i, (i < n)%nat -> sum n (fun j => mget A i j * 0) = vget (replicate n 0) i) as E0.
    { intros i Hi. unfold vget. rewrite nth_lookup, lookup_replicate_2 by done. apply sum_zero. intros. ring. }
    pose proof (proj1 (Hsol0 (vget w)) E') as E1. pose proof (proj1 (Hsol0 (fun _ => 0)) E0) as E2.
    apply vget_ext; [by rewrite length_replicate|]. rewrite Hw. intros i Hi. rewrite E1, <-E2 by done.
    unfold vget. by rewrite nth_lookup, lookup_replicate_2.
Qed.

(** C17. In exact arithmetic the solver is right: what it returns is the one
    solution of the system (so the matrix is invertible), and it solves every
    system with an invertible matrix once the tolerance on the pivots is small
    enough. *)
Theorem solve_exact A n : shape A n n ->
  (forall b tol x, length b = n -> 0 < tol -> solve A b tol = Some x ->
     length x = n /\ (forall x', length x' = n -> matvec A x' = b <-> x' = x) /\ nonsingular A n) /\
  (nonsingular A n -> exists t, 0 < t /\ forall b tol, 0 < tol -> tol <= t -> is_Some (solve A b tol)).
Proof.
  intros HA. split; [intros b tol x; by apply solve_spec|].
  intros Hns. destruct (lu_loop_complete A n n 0
    {| LU_combined := A; perm := seq 0 n; sign := 1; singular := false |}) as (t & Ht & G); [done..| |].
  - split; [split; [done|split; [done|by left]]|]. split; [apply factors_start|]. split; [lia|done].
  - exists t. split; [done|]. intros b tol Htol Hle. unfold solve, lu_decompose.
    rewrite (proj1 HA), G by done. by eexists.
Qed.

(** A system of two equations whose pivot is in the second row. *)
Definition example : Mat := of_rows [[0; q 2 1]; [q 4 1; q 1 2]].

Lemma solve_exact_witness : shape example 2 2 /\ nonsingular example 2.
Proof.
  split; [by repeat split|].
  eapply (proj1 (solve_exact example 2 ltac:(by repeat split)) [1; 0] (q 1 1000)); [reflexivity|by compute|].
  vm_compute. reflexivity.
Defined.

End exact.
End Linalg.
