(* ===== verification/Game.v ===== *)
(** * Bimatrix games (nash/core/game.cpp, core/strategy.cpp)

    Two-player games, strategy profiles, the results of the solvers, and the
    residual by which a profile is judged.  In exact arithmetic the residual
    is the largest gain of a deviation, mixed or pure. *)

From S2P Require Import Prelude Double Numeric LinearAlgebra.
From Stdlib Require Import QArith Qcanon.

Open Scope nat_scope.

Module Game.

Inductive invalid_argument := DimensionsDiffer | NoActions | NotSquare.

Inductive SolverStatus := Converged | MaxIterations | NumericalFailure | Infeasible | NotRun.

#[export] Instance SolverStatus_eq_dec : EqDecision SolverStatus.
Proof. solve_decision. Defined.

Definition to_string (s : SolverStatus) : string :=
  match s with
  | Converged => "Converged"
  | MaxIterations => "MaxIterations"
  | NumericalFailure => "NumericalFailure"
  | Infeasible => "Infeasible"
  | NotRun => "NotRun"
  end.

Section game.
Context {T : Type} `{Num T}.

Local Abbreviation Vec := (list T).
Local Abbreviation Mat := (Mat T).

Record BimatrixGame := { payoff_1_ : Mat; payoff_2_ : Mat }.

Definition num_actions_1 (g : BimatrixGame) : nat := rows (payoff_1_ g).
Definition num_actions_2 (g : BimatrixGame) : nat := cols (payoff_1_ g).

(** The constructor. *)
Definition create (A B : Mat) : invalid_argument + BimatrixGame :=
  if negb (rows A =? rows B) || negb (cols A =? cols B) then inl DimensionsDiffer
  else if (rows A =? 0) || (cols A =? 0) then inl NoActions
  else inr {| payoff_1_ := A; payoff_2_ := B |}.

Definition zero_sum (A : Mat) : invalid_argument + BimatrixGame :=
  let B := for_ 0 (rows A * cols A) (fun i B =>
    {| rows := rows B; cols := cols B; data := <[i := nopp (vget (data A) i)]> (data B) |})
    (mat (rows A) (cols A) 0%num) in
  create A B.

Definition symmetric (A : Mat) : invalid_argument + BimatrixGame :=
  if negb (rows A =? cols A) then inl NotSquare
  else create A (Linalg.transpose A).

(** [x^T M y], the sum both expected payoffs run. *)
Definition bilinear (M : Mat) (x y : Vec) : T :=
  for_ 0 (rows M) (fun i => for_ 0 (cols M) (fun j val =>
    val + vget x i * mget M i j * vget y j)%num) 0%num.

Definition expected_payoff_1 (g : BimatrixGame) (x y : Vec) : T := bilinear (payoff_1_ g) x y.
Definition expected_payoff_2 (g : BimatrixGame) (x y : Vec) : T := bilinear (payoff_2_ g) x y.

Definition shift_by (shift : T) (M : Mat) : Mat :=
  {| rows := rows M; cols := cols M; data := (fun v => v + shift)%num <$> data M |}.

(** The shifted game and the shift. *)
Definition make_positive (g : BimatrixGame) : BimatrixGame * T :=
  let min_val := min_element (data (payoff_1_ g)) in
  let min_val := nmin min_val (min_element (data (payoff_2_ g))) in
  if (min_val <=? 0)%num then
    let shift := (- min_val + 1)%num in
    ({| payoff_1_ := shift_by shift (payoff_1_ g); payoff_2_ := shift_by shift (payoff_2_ g) |}, shift)
  else (g, 0%num).

(** ** Profiles *)

Record StrategyProfile := { strategy_1 : Vec; strategy_2 : Vec }.

(** The check of one strategy: the loop stops at the first entry that is
    clearly negative. *)
Fixpoint sum_unless_negative (tol : T) (s : Vec) (acc : T) : option T :=
  match s with
  | [] => Some acc
  | v :: s => if (v <? - tol)%num then None else sum_unless_negative tol s (acc + v)%num
  end.

Definition is_distribution (tol : T) (s : Vec) : bool :=
  match s with
  | [] => false
  | _ => match sum_unless_negative tol s 0%num with
         | None => false
         | Some total => (nabs (total - 1) <? tol)%num
         end
  end.

Definition is_valid (p : StrategyProfile) (tol : T) : bool :=
  is_distribution tol (strategy_1 p) && is_distribution tol (strategy_2 p).

Definition support (s : Vec) (tol : T) : list nat :=
  filter (fun i => (vget s i >? tol)%num = true) (seq 0 (length s)).

Definition support_1 (p : StrategyProfile) (tol : T) : list nat := support (strategy_1 p) tol.
Definition support_2 (p : StrategyProfile) (tol : T) : list nat := support (strategy_2 p) tol.

(** ** Results *)

Record EquilibriumResult := {
  profile : StrategyProfile;
  residual : T;
  iterations : Z;
  status : SolverStatus;
  payoff_1 : T;
  payoff_2 : T;
}.

Record MultiEquilibriumResult := {
  equilibria : list EquilibriumResult;
  multi_status : SolverStatus;
  total_iterations : Z;
}.

(** The values a result is created with. *)
Definition not_run : EquilibriumResult := {|
  profile := {| strategy_1 := []; strategy_2 := [] |};
  residual := 0%num; iterations := 0; status := NotRun; payoff_1 := 0%num; payoff_2 := 0%num |}.

(** ** Residual *)

Definition max_regret (n : nat) (payoffs : Vec) (v : T) (start : T) : T :=
  for_ 0 n (fun i r => nmax r (vget payoffs i - v)%num) start.

Definition nash_residual (g : BimatrixGame) (x y : Vec) : T :=
  let Ay := Linalg.matvec (payoff_1_ g) y in
  let v1 := Linalg.dot x Ay in
  let r := max_regret (num_actions_1 g) Ay v1 0%num in
  let Btx := Linalg.matvec (Linalg.transpose (payoff_2_ g)) x in
  let v2 := Linalg.dot y Btx in
  max_regret (num_actions_2 g) Btx v2 r.

Definition verify_equilibrium (g : BimatrixGame) (p : StrategyProfile) (epsilon : T) : bool :=
  is_valid p epsilon && (nash_residual g (strategy_1 p) (strategy_2 p) <? epsilon)%num.

(** ** Games as the constructor makes them *)

Definition game_shape (g : BimatrixGame) (m n : nat) : Prop :=
  shape (payoff_1_ g) m n /\ shape (payoff_2_ g) m n /\ 0 < m /\ 0 < n.

Lemma create_shape A B m n : shape A m n -> shape B m n -> 0 < m -> 0 < n ->
  exists g, create A B = inr g /\ game_shape g m n /\ payoff_1_ g = A /\ payoff_2_ g = B.
Proof.
  intros HA HB Hm Hn. unfold create.
  rewrite (proj1 HA), (proj1 HB), (proj1 (proj2 HA)), (proj1 (proj2 HB)), !Nat.eqb_refl. destruct (Nat.eqb_spec m 0), (Nat.eqb_spec n 0); try lia.
  eexists. by split; [reflexivity|].
Qed.

End game.

Arguments BimatrixGame : clear implicits.
Arguments StrategyProfile : clear implicits.
Arguments EquilibriumResult : clear implicits.
Arguments MultiEquilibriumResult : clear implicits.

(** ** Exact arithmetic *)

Section exact.
Local Open Scope Qc_scope.
Local Abbreviation Vec := (list Qc).
Local Abbreviation BimatrixGame := (BimatrixGame Qc).

(** What a pure action is worth against a strategy of the other player. *)
Definition worth_1 (g : BimatrixGame) (y : Vec) (i : nat) : Qc :=
  sum (num_actions_2 g) (fun j => mget (payoff_1_ g) i j * vget y j).
Definition worth_2 (g : BimatrixGame) (x : Vec) (j : nat) : Qc :=
  sum (num_actions_1 g) (fun i => mget (payoff_2_ g) i j * vget x i).

Definition distribution (n : nat) (x : Vec) : Prop :=
  length x = n /\ (forall i, (i < n)%nat -> 0 <= vget x i) /\ sum n (vget x) = 1.

(** No mixed strategy gains more than [e] by deviating. *)
Definition gains_at_most (g : BimatrixGame) (e : Qc) (x y : Vec) : Prop :=
  (forall x', distribution (num_actions_1 g) x' -> expected_payoff_1 g x' y <= expected_payoff_1 g x y + e) /\
  (forall y', distribution (num_actions_2 g) y' -> expected_payoff_2 g x y' <= expected_payoff_2 g x y + e).

Definition nash (g : BimatrixGame) (x y : Vec) : Prop :=
  distribution (num_actions_1 g) x /\ distribution (num_actions_2 g) y /\ gains_at_most g 0 x y.

Lemma sum_loops m n f s : for_ 0 m (fun i => for_ 0 n (fun j s => s + f i j)) s = s + sum m (fun i => sum n (f i)).
Proof.
  assert (forall n f s, for_ 0 n (fun j s => s + f j) s = s + sum n f) as G.
  { clear. intros n f s. induction n as [|n IH]; [rewrite for_empty, sum_0 by done; ring|].
    rewrite for_last, IH, sum_S by lia. ring. }
  induction m as [|m IH]; [rewrite for_empty, sum_0 by done; ring|].
  rewrite for_last, IH, G, sum_S by lia. ring.
Qed.

Lemma bilinear_exact (M : Mat Qc) x y :
  bilinear M x y = sum (rows M) (fun i => vget x i * sum (cols M) (fun j => mget M i j * vget y j)).
Proof.
  unfold bilinear. exact_ops. rewrite sum_loops, Qcplus_0_l. apply sum_ext. intros i Hi.
  rewrite <-sum_mul_l. apply sum_ext. intros. ring.
Qed.

Section shaped.
Context (g : BimatrixGame) (m n : nat) (Hg : game_shape g m n).

Lemma actions_shaped : num_actions_1 g = m /\ num_actions_2 g = n.
Proof. destruct Hg as ((Hr & Hc & _) & _). done. Qed.

Lemma payoff_1_worth x y : expected_payoff_1 g x y = sum m (fun i => vget x i * worth_1 g y i).
Proof.
  destruct actions_shaped as [<- <-]. unfold expected_payoff_1. rewrite bilinear_exact. done.
Qed.

Lemma payoff_2_worth x y : expected_payoff_2 g x y = sum n (fun j => vget y j * worth_2 g x j).
Proof.
  destruct actions_shaped as [Em En]. destruct Hg as (_ & (Hr & Hc & _) & _).
  unfold expected_payoff_2, worth_2. rewrite bilinear_exact, Em, Hr, Hc.
  rewrite (sum_ext m _ (fun i => sum n (fun j => vget x i * mget (payoff_2_ g) i j * vget y j))).
  2:{ intros. rewrite <-sum_mul_l. apply sum_ext. intros. ring. }
  rewrite sum_swap. apply sum_ext. intros. rewrite <-sum_mul_l. apply sum_ext. intros. ring.
Qed.

Lemma matvec_worth_1 y i : (i < m)%nat -> vget (Linalg.matvec (payoff_1_ g) y) i = worth_1 g y i.
Proof. intros. destruct actions_shaped as [<- _]. by rewrite Linalg.matvec_exact. Qed.

Lemma matvec_worth_2 x j : (j < n)%nat ->
  vget (Linalg.matvec (Linalg.transpose (payoff_2_ g)) x) j = worth_2 g x j.
Proof.
  intros Hj. destruct Hg as (_ & HB & _). destruct (Linalg.transpose_spec m n (payoff_2_ g) HB) as [(Hr & Hc & _) E].
  rewrite Linalg.matvec_exact, Hc by lia. unfold worth_2. rewrite (proj1 actions_shaped).
  apply sum_ext. intros. by rewrite E.
Qed.

(** The expected payoff of a mixed strategy is at most that of the best
    pure one. *)
Lemma mixed_bound k (f : nat -> Qc) x v : distribution k x ->
  (forall i, (i < k)%nat -> f i <= v) -> sum k (fun i => vget x i * f i) <= v.
Proof.
  intros (_ & Hx & Hs) Hf.
  apply Qcle_trans with (sum k (fun i => vget x i * v)); [|rewrite sum_mul_r, Hs; qc_lra].
  apply sum_le. intros i Hi. specialize (Hx i Hi). specialize (Hf i Hi). qc_nra.
Qed.

(** The pure strategy [i]. *)
Definition pure (k i : nat) : Vec := vec k (fun j => if decide (j = i) then 1 else 0).

Lemma pure_distribution k i : (i < k)%nat -> distribution k (pure k i).
Proof.
  intros Hi. split; [apply vec_length|]. split.
  - intros j Hj. unfold pure. rewrite vget_vec by done. by case_decide.
  - rewrite (sum_single _ _ i); unfold pure; [by rewrite vget_vec, decide_True|done|].
    intros. by rewrite vget_vec, decide_False.
Qed.

Lemma pure_payoff k i f : (i < k)%nat -> sum k (fun j => vget (pure k i) j * f j) = f i.
Proof.
  intros Hi. unfold pure. rewrite (sum_single _ _ i); [rewrite vget_vec, decide_True by done; ring|done|].
  intros j Hj Hne. rewrite vget_vec, decide_False by done. ring.
Qed.

(** Deviations can be judged by the pure ones. *)
Lemma gains_pure e x y : gains_at_most g e x y <->
  (forall i, (i < m)%nat -> worth_1 g y i <= expected_payoff_1 g x y + e) /\
  (forall j, (j < n)%nat -> worth_2 g x j <= expected_payoff_2 g x y + e).
Proof.
  unfold gains_at_most. destruct actions_shaped as [-> ->]. split; intros [H1 H2]; split.
  - intros i Hi. specialize (H1 _ (pure_distribution m i Hi)). rewrite payoff_1_worth, pure_payoff in H1 by done. done.
  - intros j Hj. specialize (H2 _ (pure_distribution n j Hj)). rewrite payoff_2_worth, pure_payoff in H2 by done. done.
  - intros x' Hx'. rewrite payoff_1_worth. by apply mixed_bound.
  - intros y' Hy'. rewrite payoff_2_worth. by apply mixed_bound.
Qed.

Lemma max_regret_le k p v s e :
  max_regret k p v s <= e <-> s <= e /\ forall i, (i < k)%nat -> vget p i - v <= e.
Proof.
  unfold max_regret. induction k as [|k IH]; [rewrite for_empty by done; naive_solver lia|].
  rewrite for_last by lia. set (r := for_ 0 k _ s) in *. exact_ops.
  assert (nmax r (vget p k - v) <= e <-> r <= e /\ vget p k - v <= e) as ->.
  { destruct (nmax_cases r (vget p k - v)) as [[-> H]|[-> H]]; split; [intros; split|intros []|intros; split|intros []]; qc_lra. }
  rewrite IH. split.
  - intros [[Hs Hk] Hl]. split; [done|]. intros i Hi. destruct (decide (i = k)) as [->|]; [done|apply Hk; lia].
  - intros [Hs Hk]. split; [split; [done|]|]; intros; apply Hk; lia.
Qed.

Lemma dot_payoff_1 x y : length x = m -> Linalg.dot x (Linalg.matvec (payoff_1_ g) y) = expected_payoff_1 g x y.
Proof.
  intros Hx. rewrite Linalg.dot_exact, payoff_1_worth, Hx. apply sum_ext. intros. by rewrite matvec_worth_1.
Qed.

Lemma dot_payoff_2 x y : length y = n ->
  Linalg.dot y (Linalg.matvec (Linalg.transpose (payoff_2_ g)) x) = expected_payoff_2 g x y.
Proof.
  intros Hy. rewrite Linalg.dot_exact, payoff_2_worth, Hy. apply sum_ext. intros. by rewrite matvec_worth_2.
Qed.

Lemma nash_residual_le x y e : length x = m -> length y = n -> 0 <= e ->
  nash_residual g x y <= e <-> gains_at_most g e x y.
Proof.
  intros Hx Hy He. unfold nash_residual.
  rewrite dot_payoff_1, dot_payoff_2, !max_regret_le, gains_pure by done.
  destruct actions_shaped as [-> ->]. split.
  - intros [[_ H1] H2]. split; [intros i Hi; specialize (H1 i Hi)|intros i Hi; specialize (H2 i Hi)].
    + rewrite matvec_worth_1 in H1 by done. qc_lra.
    + rewrite matvec_worth_2 in H2 by done. qc_lra.
  - intros [H1 H2]. split; [split; [done|]|]; intros i Hi.
    + rewrite matvec_worth_1 by done. specialize (H1 i Hi). qc_lra.
    + rewrite matvec_worth_2 by done. specialize (H2 i Hi). qc_lra.
Qed.

Lemma nash_residual_nonneg x y : 0 <= nash_residual g x y.
Proof.
  pose proof (Qcle_refl (nash_residual g x y)) as E. unfold nash_residual in E at 1.
  apply max_regret_le in E as [E _]. by apply max_regret_le in E as [E _].
Qed.

Lemma nash_residual_zero x y : distribution m x -> distribution n y -> nash_residual g x y = 0 <-> nash g x y.
Proof.
  intros Hx Hy. pose proof (nash_residual_le x y 0 (proj1 Hx) (proj1 Hy) (Qcle_refl 0)) as Hle.
  unfold nash. destruct actions_shaped as [-> ->]. rewrite <-Hle.
  split; [intros ->; split; [done|split; [done|apply Qcle_refl]]|].
  intros (_ & _ & H). apply Qcle_antisym; [done|apply nash_residual_nonneg].
Qed.

Lemma sum_unless_negative_distribution tol x acc : 0 < tol -> (forall i, (i < length x)%nat -> 0 <= vget x i) ->
  sum_unless_negative tol x acc = Some (acc + sum (length x) (vget x)).
Proof.
  intros Ht. revert acc. induction x as [|v x IH]; intros acc Hx; cbn [sum_unless_negative length].
  - f_equal. rewrite sum_0. ring.
  - pose proof (Hx O ltac:(cbn; lia)) as H0. change (0 <= v) in H0. exact_ops.
    destruct (nltb_spec v (- tol)); [qc_lra|]. rewrite IH by (intros i Hi; apply (Hx (S i)); cbn; lia).
    f_equal. change (S (length x)) with (1 + length x)%nat. rewrite sum_app, sum_S, sum_0.
    change (acc + v + sum (length x) (vget x) = acc + (0 + v + sum (length x) (vget x))). ring.
Qed.

Lemma distribution_accepted k tol x : 0 < tol -> (0 < k)%nat -> distribution k x -> is_distribution tol x = true.
Proof.
  intros Ht Hk (Hl & Hx & Hs). destruct x as [|v x]; [cbn in Hl; lia|].
  unfold is_distribution. rewrite sum_unless_negative_distribution by (done || by rewrite Hl).
  exact_ops. rewrite Hl, Hs. destruct (nltb_spec (nabs (0 + 1 - 1)) tol) as [|Hn]; [done|].
  destruct Hn. replace (0 + 1 - 1) with 0 by ring. done.
Qed.

End shaped.

(** Every action that is played is worth as much as any other, up to [d]. *)
Definition well_supported (g : BimatrixGame) (d : Qc) (x y : Vec) : Prop :=
  (forall i i', (i < num_actions_1 g)%nat -> (i' < num_actions_1 g)%nat -> 0 < vget x i ->
     worth_1 g y i' <= worth_1 g y i + d) /\
  (forall j j', (j < num_actions_2 g)%nat -> (j' < num_actions_2 g)%nat -> 0 < vget y j ->
     worth_2 g x j' <= worth_2 g x j + d).

(** The average of the values of the played actions bounds what bounds each. *)
Lemma average_ge k (f : nat -> Qc) x v d : distribution k x ->
  (forall i, (i < k)%nat -> 0 < vget x i -> v <= f i + d) -> v <= sum k (fun i => vget x i * f i) + d.
Proof.
  intros (_ & Hx & Hs) Hf.
  assert (0 <= sum k (fun i => vget x i * (f i + d - v))) as Hn.
  { apply sum_nonneg. intros i Hi. specialize (Hx i Hi). destruct (decide (vget x i = 0)) as [->|Hne].
    - replace (0 * (f i + d - v)) with 0 by ring. done.
    - assert (0 < vget x i) as Hp by (apply Qcle_lt_or_eq in Hx as [|E]; [done|by destruct Hne]).
      specialize (Hf i Hi Hp). clear - Hf Hx. qc_nra. }
  rewrite (sum_ext k _ (fun i => vget x i * f i + vget x i * (d - v))) in Hn by (intros; ring).
  rewrite sum_add, sum_mul_r, Hs in Hn. clear - Hn. qc_lra.
Qed.

(** Playing an action that is worth less than the average loses. *)
Lemma average_support k (f : nat -> Qc) x v : distribution k x -> (forall i, (i < k)%nat -> f i <= v) ->
  sum k (fun i => vget x i * f i) = v -> forall i, (i < k)%nat -> 0 < vget x i -> f i = v.
Proof.
  intros (_ & Hx & Hs) Hf Hv i Hi Hp.
  assert (sum k (fun i => vget x i * (v - f i)) = 0) as Hz.
  { rewrite (sum_ext k _ (fun i => vget x i * v - vget x i * f i)) by (intros; ring).
    rewrite sum_sub, sum_mul_r, Hs, Hv. ring. }
  assert (forall i, (i < k)%nat -> 0 <= vget x i * (v - f i)) as Hnn.
  { intros j Hj. specialize (Hx j Hj). specialize (Hf j Hj). clear - Hx Hf. qc_nra. }
  pose proof (sum_zero_inv k _ Hnn Hz i Hi) as E. apply Qcmult_integral in E as [E|E]; clear - E Hp; qc_lra.
Qed.

Section equilibria.
Context (g : BimatrixGame) (m n : nat) (Hg : game_shape g m n).

Lemma well_supported_gains d x y : distribution m x -> distribution n y -> well_supported g d x y -> gains_at_most g d x y.
Proof.
  intros Hx Hy [H1 H2]. apply (gains_pure g m n Hg). destruct (actions_shaped g m n Hg) as [Em En]. rewrite Em, En in *.
  split; intros i Hi.
  - rewrite (payoff_1_worth g m n Hg). apply average_ge; [done|]. intros. by apply H1.
  - rewrite (payoff_2_worth g m n Hg). apply average_ge; [done|]. intros. by apply H2.
Qed.

(** In an equilibrium the played actions are worth the expected payoff, and
    none is worth more. *)
Lemma nash_worth x y : nash g x y ->
  (forall i, (i < m)%nat -> worth_1 g y i <= expected_payoff_1 g x y) /\
  (forall i, (i < m)%nat -> 0 < vget x i -> worth_1 g y i = expected_payoff_1 g x y) /\
  (forall j, (j < n)%nat -> worth_2 g x j <= expected_payoff_2 g x y) /\
  (forall j, (j < n)%nat -> 0 < vget y j -> worth_2 g x j = expected_payoff_2 g x y).
Proof.
  intros (Hx & Hy & HN). destruct (actions_shaped g m n Hg) as [Em En]. rewrite Em, En in *.
  apply (gains_pure g m n Hg) in HN as [H1 H2].
  assert (forall i, (i < m)%nat -> worth_1 g y i <= expected_payoff_1 g x y) as H1'
    by (intros i Hi; specialize (H1 i Hi); qc_lra).
  assert (forall j, (j < n)%nat -> worth_2 g x j <= expected_payoff_2 g x y) as H2'
    by (intros i Hi; specialize (H2 i Hi); qc_lra).
  split; [done|]. split; [|split; [done|]].
  - apply (average_support m (worth_1 g y) x); [done..|]. by rewrite <-(payoff_1_worth g m n Hg).
  - apply (average_support n (worth_2 g x) y); [done..|]. by rewrite <-(payoff_2_worth g m n Hg).
Qed.

End equilibria.

(** The residual is the largest gain of any deviation: it is at most [e]
    exactly when no mixed strategy of either player gains more than [e]; it
    is zero exactly at the Nash equilibria; and a pair of distributions is
    accepted exactly when it keeps every gain below the bound. *)
Theorem residual_is_regret g m n x y : game_shape g m n -> distribution m x -> distribution n y ->
  (forall e, 0 <= e -> nash_residual g x y <= e <-> gains_at_most g e x y) /\
  (nash_residual g x y = 0 <-> nash g x y) /\
  (forall e, 0 < e -> verify_equilibrium g {| strategy_1 := x; strategy_2 := y |} e = true <->
     exists e', (0 <= e' /\ e' < e) /\ gains_at_most g e' x y).
Proof.
  intros Hg Hx Hy. pose proof (actions_shaped g m n Hg) as [Em En].
  pose proof (fun e He => nash_residual_le g m n Hg x y e (proj1 Hx) (proj1 Hy) He) as Hle.
  pose proof (nash_residual_nonneg g x y) as Hnn. split; [done|]. split.
  - by apply (nash_residual_zero g m n).
  - intros e He. unfold verify_equilibrium, is_valid; cbn [strategy_1 strategy_2].
    destruct Hg as (_ & _ & Hm & Hn).
    rewrite (distribution_accepted m), (distribution_accepted n) by done; cbn [andb].
    destruct (nltb_spec (nash_residual g x y) e) as [Hlt|Hge]; (split; [|done || intros (e' & [He' Hlt] & G)]).
    + intros _. exists (nash_residual g x y). split; [done|]. by apply Hle.
    + done.
    + apply Hle in G; [|done]. destruct Hge. eapply Qcle_lt_trans; done.
Qed.

(** The battle of the sexes, with its mixed equilibrium. *)
Definition battle : BimatrixGame := {|
  payoff_1_ := of_rows [[q 2 1; 0]; [0; 1]];
  payoff_2_ := of_rows [[1; 0]; [0; q 2 1]] |}.

Lemma battle_shape : game_shape battle 2 2.
Proof. split; [by repeat split|split; [by repeat split|lia]]. Qed.

Lemma two_actions (a b : Qc) : 0 <= a -> 0 <= b -> a + b = 1 -> distribution 2 [a; b].
Proof.
  intros Ha Hb Hs. split; [done|]. split; [intros [|[|i]] Hi; [done..|lia]|].
  rewrite !sum_S, sum_0, <-Hs. change (0 + a + b = a + b). ring.
Qed.

Lemma battle_mixed : nash battle [q 2 3; q 1 3] [q 1 3; q 2 3].
Proof.
  apply (nash_residual_zero battle 2 2 battle_shape); [by apply two_actions; [| |apply Qc_is_canon]..|].
  by apply Qc_is_canon.
Qed.

Lemma residual_is_regret_witness : nash battle [q 2 3; q 1 3] [q 1 3; q 2 3].
Proof.
  eapply (residual_is_regret battle 2 2 [q 2 3; q 1 3] [q 1 3; q 2 3] battle_shape).
  1-2: by apply two_actions; [| |apply Qc_is_canon].
  by apply Qc_is_canon.
Defined.

End exact.
End Game.
