(* ===== verification/SupportEnumeration.v ===== *)
(** * Support enumeration (nash/algorithms/support_enumeration.cpp)

    The enumeration of the subsets of a size, the linear systems of a pair of
    supports, the best-response check, and the search over all pairs.  The
    subsets are enumerated in lexicographic order, each once, whatever the
    arithmetic; in exact arithmetic what the search reports are equilibria up
    to the tolerance, and it reports every equilibrium whose supports have the
    same size and whose indifference systems have one solution. *)

From S2P Require Import Prelude Double Numeric LinearAlgebra Game.
From Stdlib Require Import QArith Qcanon.

Open Scope nat_scope.

(** ** Subsets *)

Module Subsets.

(** The increment of element [i], the elements right of it following. *)
Definition bump (s : list nat) (i : nat) : list nat :=
  for_ (i + 1) (length s) (fun j s => <[j := nth (j - 1) s 0 + 1]> s) (<[i := nth i s 0 + 1]> s).

(** The loop [while (i-- > 0)]; [None] is [return false]. *)
Fixpoint next_from (s : list nat) (n i : nat) : option (list nat) :=
  match i with
  | O => None
  | S i =>
      if (Z.of_nat (nth i s O) <? u64 (Z.of_nat n - Z.of_nat (length s) + Z.of_nat i))%Z
      then Some (bump s i) else next_from s n i
  end.

Definition next_subset (s : list nat) (n : nat) : option (list nat) :=
  if length s =? 0 then None else next_from s n (length s).

Definition first_subset (k : nat) : list nat := seq 0 k.

(** [do body(a) while (next(a));] with at most [fuel] rounds. *)
Fixpoint do_while {A S} (fuel : nat) (next : A -> option A) (body : A -> S -> option S) (a : A) (s : S) : option S :=
  match fuel with
  | O => None
  | Datatypes.S fuel =>
      match body a s with
      | None => None
      | Some s =>
          match next a with
          | None => Some s
          | Some a => do_while fuel next body a s
          end
      end
  end.

(** *** The reference: subsets of a list, in lexicographic order *)

Fixpoint subsets (k : nat) (l : list nat) : list (list nat) :=
  match k, l with
  | O, _ => [[]]
  | S _, [] => []
  | S k', x :: l => (cons x <$> subsets k' l) ++ subsets k l
  end.

Lemma subsets_none k l : length l < k -> subsets k l = [].
Proof.
  revert k. induction l as [|x l IH]; intros [|k] Hk; cbn in *; try lia; [done|].
  rewrite !IH by lia. done.
Qed.

(** They are the sublists of that length, and each is listed once. *)
Lemma subsets_elem k l s : s ∈ subsets k l <-> s `sublist_of` l /\ length s = k.
Proof.
  revert k s. induction l as [|x l IH]; intros [|k] s; cbn.
  - rewrite list_elem_of_singleton. split; [intros ->; split; [constructor|done]|]. intros [_ H]. by destruct s.
  - rewrite elem_of_nil. split; [done|]. intros [H E]. apply sublist_nil_r in H as ->. done.
  - rewrite list_elem_of_singleton. split; [intros ->; split; [apply sublist_nil_l|done]|]. intros [_ H]. by destruct s.
  - rewrite elem_of_app, list_elem_of_fmap. split.
    + intros [(t & -> & Ht)|Hs].
      * apply IH in Ht as [Ht <-]. by split; [constructor|].
      * apply IH in Hs as [Hs Hl]. by split; [constructor|].
    + intros [Hs Hl]. inversion Hs as [|y s1 l1 H1|y s1 l1 H1]; subst.
      * left. eexists. split; [done|]. apply IH. split; [done|]. cbn in Hl. lia.
      * right. apply IH. done.
Qed.

Lemma subsets_NoDup k l : NoDup l -> NoDup (subsets k l).
Proof.
  revert k. induction l as [|x l IH]; intros [|k] Hl; cbn; [apply NoDup_singleton|constructor|apply NoDup_singleton|].
  apply NoDup_cons in Hl as [Hx Hl]. apply NoDup_app. split; [|split].
  - apply NoDup_fmap_2; [|by apply IH]. by intros ? ? [=].
  - intros s (t & -> & _)%list_elem_of_fmap Hs. apply subsets_elem in Hs as [Hs _].
    destruct Hx. eapply elem_of_submseteq; [|by apply sublist_submseteq]. by left.
  - by apply IH.
Qed.

Lemma subsets_length k l : length (subsets k l) <= 2 ^ length l.
Proof.
  revert k. induction l as [|x l IH]; intros [|k]; cbn; try lia.
  - pose proof (Nat.pow_nonzero 2 (length l)). lia.
  - rewrite length_app, length_fmap. pose proof (IH k). pose proof (IH (S k)). lia.
Qed.

(** *** What the increment does *)

Lemma bump_cons x t i : i < length t -> bump (x :: t) (S i) = x :: bump t i.
Proof.
  intros Hi. unfold bump; cbn [length].
  assert (forall b s, i + 1 <= b ->
    for_ (S i + 1) (S b) (fun j s => <[j := nth (j - 1) s 0 + 1]> s) (x :: s) =
    x :: for_ (i + 1) b (fun j s => <[j := nth (j - 1) s 0 + 1]> s) s) as G.
  { intros b s. induction 1 as [|b Hb IH]; [by rewrite !for_empty by lia|].
    rewrite for_last, IH, for_last by lia. set (r := for_ _ _ _ s). cbn.
    replace (b - 0) with b by lia. destruct b as [|b]; [lia|]. cbn. by rewrite Nat.sub_0_r. }
  change (<[S i := nth (S i) (x :: t) 0 + 1]> (x :: t)) with (x :: <[i := nth i t 0 + 1]> t).
  apply G. lia.
Qed.

Lemma bump_first x t : bump (x :: t) 0 = seq (S x) (S (length t)).
Proof.
  unfold bump. cbn [length]. set (s0 := <[0 := _]> (x :: t)).
  pose (P b s := length s = S (length t) /\ forall l, l < b -> nth l s 0 = S x + l).
  enough (P (S (length t)) (for_ (0 + 1) (S (length t)) (fun j s => <[j := nth (j - 1) s 0 + 1]> s) s0)) as [Hl G].
  { apply list_eq_same_length with (S (length t)); [by rewrite length_seq|done|].
    intros l a b Hlt Ha Hb. specialize (G l Hlt). rewrite nth_lookup, Ha in G.
    rewrite lookup_seq_lt in Hb by done. injection Hb as <-. exact G. }
  apply for_inv; unfold P; [lia| |].
  - split; [done|]. intros l Hl. assert (l = 0) as -> by lia. cbn. lia.
  - intros j s Hj [Hl IH]. split; [by rewrite length_insert|]. intros l Hlt.
    destruct (decide (l = j)) as [->|].
    + rewrite nth_lookup, list_lookup_insert_eq by lia. cbn. rewrite IH by lia. lia.
    + rewrite nth_lookup, list_lookup_insert_ne, <-nth_lookup by done. apply IH. lia.
Qed.

Lemma next_from_cons x t n i : i <= length t ->
  next_from (x :: t) n (S i) =
    match next_from t n i with Some t' => Some (x :: t') | None => next_from (x :: t) n 1 end.
Proof.
  induction i as [|i IH]; intros Hi; [done|].
  change (next_from (x :: t) n (S (S i))) with
    (if (Z.of_nat (nth i t O) <? u64 (Z.of_nat n - Z.of_nat (S (length t)) + Z.of_nat (S i)))%Z
     then Some (bump (x :: t) (S i)) else next_from (x :: t) n (S i)).
  replace (Z.of_nat n - Z.of_nat (S (length t)) + Z.of_nat (S i))%Z
    with (Z.of_nat n - Z.of_nat (length t) + Z.of_nat i)%Z by lia.
  change (next_from t n (S i)) with
    (if (Z.of_nat (nth i t O) <? u64 (Z.of_nat n - Z.of_nat (length t) + Z.of_nat i))%Z
     then Some (bump t i) else next_from t n i).
  destruct (_ <? _)%Z; [by rewrite bump_cons by lia|]. apply IH. lia.
Qed.

Lemma next_subset_cons x t n : S (length t) <= n -> (Z.of_nat n < 2 ^ 64)%Z ->
  next_subset (x :: t) n =
    match next_subset t n with
    | Some t' => Some (x :: t')
    | None => if x <? n - S (length t) then Some (seq (S x) (S (length t))) else None
    end.
Proof.
  intros Hn Hw. unfold next_subset. cbn [length Nat.eqb]. rewrite next_from_cons by lia.
  assert (next_from (x :: t) n 1 = if x <? n - S (length t) then Some (seq (S x) (S (length t))) else None) as ->.
  { cbn [next_from]. rewrite bump_first. cbn [nth length].
    rewrite u64_id by (unfold in_u64; lia).
    destruct (Nat.ltb_spec x (n - S (length t))), (Z.ltb_spec (Z.of_nat x) (Z.of_nat n - Z.of_nat (S (length t)) + Z.of_nat 0));
      done || lia. }
  destruct t; done.
Qed.

(** *** The enumeration *)

Inductive walk {A} (next : A -> option A) : A -> list A -> Prop :=
| walk_last a : next a = None -> walk next a [a]
| walk_step a a' l : next a = Some a' -> walk next a' l -> walk next a (a :: l).

Lemma walk_cons x t n ts rest : walk (fun s => next_subset s n) t ts ->
  (Z.of_nat n < 2 ^ 64)%Z -> (forall u, u ∈ ts -> length u = length t) -> S (length t) <= n ->
  (x < n - S (length t) -> walk (fun s => next_subset s n) (seq (S x) (S (length t))) rest) ->
  (n - S (length t) <= x -> rest = []) ->
  walk (fun s => next_subset s n) (x :: t) ((cons x <$> ts) ++ rest).
Proof.
  intros Hts Hw Hl Hn Hmore Hend. revert Hl Hn Hmore Hend.
  induction Hts as [t Ht|t t' ts Ht Hts IH]; intros Hl Hn Hmore Hend; cbn.
  - destruct (decide (x < n - S (length t))) as [Hx|Hx].
    + eapply walk_step; [|by apply Hmore]. rewrite next_subset_cons, Ht by done.
      by destruct (Nat.ltb_spec x (n - S (length t))); [|lia].
    + rewrite Hend by lia. apply walk_last. rewrite next_subset_cons, Ht by done.
      by destruct (Nat.ltb_spec x (n - S (length t))); [lia|].
  - assert (length t' = length t) as E by (apply Hl; destruct Hts; right; left).
    eapply walk_step; [by rewrite next_subset_cons, Ht by done|].
    apply IH; rewrite ?E; try done. intros u Hu. apply Hl. by right.
Qed.

Lemma subsets_walk n k a : a + k <= n -> (Z.of_nat n < 2 ^ 64)%Z ->
  walk (fun s => next_subset s n) (seq a k) (subsets k (seq a (n - a))).
Proof.
  intros Hk Hw. remember (n - a) as d eqn:Hd. revert k a Hk Hd.
  induction d as [|d IH]; intros k a Hk Hd.
  - assert (k = 0) as -> by lia. by apply walk_last.
  - destruct k as [|k]; [by apply walk_last|].
    change (seq a (S k)) with (a :: seq (S a) k). cbn [seq subsets].
    apply walk_cons; rewrite ?length_seq; try done; try lia.
    + apply IH; lia.
    + intros u [_ Hu]%subsets_elem. done.
    + intros Ha. apply (IH (S k)); lia.
    + intros Ha. apply subsets_none. rewrite length_seq. lia.
Qed.

(** A loop runs its body on the elements of the walk, in order. *)
Definition run {A S} (body : A -> S -> option S) (l : list A) (s : S) : option S :=
  foldl (fun s a => s ≫= body a) (Some s) l.

Lemma run_none {A S} (body : A -> S -> option S) l : foldl (fun s a => s ≫= body a) None l = None.
Proof. by induction l. Qed.

Lemma do_while_walk {A S} (next : A -> option A) (body : A -> S -> option S) a l fuel s :
  walk next a l -> length l <= fuel -> do_while fuel next body a s = run body l s.
Proof.
  intros Hl. revert fuel s. induction Hl as [a Ha|a a' l Ha Hl IH]; intros [|fuel] s Hf; cbn in *; try lia.
  - unfold run; cbn. rewrite Ha. by destruct (body a s).
  - unfold run; cbn. rewrite Ha. destruct (body a s) as [s'|]; cbn; [|by rewrite run_none].
    apply IH. lia.
Qed.

End Subsets.

(** ** The solver *)

Module SupportEnumeration.
Import Subsets Game.

Section solver.
Context {T : Type} `{Num T} (tol_ : Tolerances T).

Local Abbreviation Vec := (list T).
Local Abbreviation Mat := (Mat T).
Local Abbreviation BimatrixGame := (BimatrixGame T).
Local Abbreviation StrategyProfile := (StrategyProfile T).

(** The system of one player's indifference: row [i] of the first [k] says
    that action [i] is worth the last unknown, the last row that the weights
    add up to one.  The code builds it twice, with the rows and columns of the
    payoffs exchanged. *)
Definition indifference_matrix (k : nat) (entry : nat -> nat -> T) : Mat :=
  let M := mat (k + 1) (k + 1) 0%num in
  let M := for_ 0 k (fun i M =>
    mset (for_ 0 k (fun j M => mset M i j (entry i j)) M) i k (of_Z (-1))) M in
  for_ 0 k (fun j M => mset M k j 1%num) M.

Definition indifference_rhs (k : nat) : Vec := <[k := 1%num]> (replicate (k + 1) 0%num).

(** The solution of the system, if no weight is clearly negative. *)
Definition indifferent (k : nat) (entry : nat -> nat -> T) : option Vec :=
  match Linalg.solve (indifference_matrix k entry) (indifference_rhs k) (pivot_tol tol_) with
  | None => None
  | Some sol =>
      if forallb (fun j => negb (vget sol j <? - eps tol_)%num) (seq 0 k) then Some sol else None
  end.

(** A solution as the weights of a support. *)
Definition spread (m : nat) (supp : list nat) (sol : Vec) : Vec :=
  for_ 0 (length supp) (fun i s => <[nth i supp 0 := nmax 0%num (vget sol i)]> s) (replicate m 0%num).

Definition try_support (game : BimatrixGame) (supp1 supp2 : list nat) : option StrategyProfile :=
  let k1 := length supp1 in
  let k2 := length supp2 in
  if negb (k1 + 1 =? k2 + 1) then None
  else
    match indifferent k1 (fun i j => mget (payoff_1_ game) (nth i supp1 0) (nth j supp2 0)) with
    | None => None
    | Some sol_y =>
        match indifferent k1 (fun j i => mget (payoff_2_ game) (nth i supp1 0) (nth j supp2 0)) with
        | None => None
        | Some sol_x =>
            Some {| strategy_1 := spread (num_actions_1 game) supp1 sol_x;
                    strategy_2 := spread (num_actions_2 game) supp2 sol_y |}
        end
    end.

(** No action is worth more than the best of the support. *)
Definition best_on (payoffs : Vec) (supp : list nat) : T :=
  foldl (fun v i => nmax v (vget payoffs i)) (of_Z (- 10 ^ 300)) supp.

Definition no_better (n : nat) (payoffs : Vec) (supp : list nat) : bool :=
  forallb (fun i => negb (vget payoffs i >? best_on payoffs supp + eps tol_)%num) (seq 0 n).

Definition check_best_response (game : BimatrixGame) (profile : StrategyProfile) (supp1 supp2 : list nat) : bool :=
  no_better (num_actions_1 game) (Linalg.matvec (payoff_1_ game) (strategy_2 profile)) supp1 &&
  no_better (num_actions_2 game)
    (Linalg.matvec (Linalg.transpose (payoff_2_ game)) (strategy_1 profile)) supp2.

Definition same_profile (m n : nat) (p q : StrategyProfile) : bool :=
  forallb (fun i => approx_eq (vget (strategy_1 p) i) (vget (strategy_1 q) i) (eps tol_)) (seq 0 m) &&
  forallb (fun j => approx_eq (vget (strategy_2 p) j) (vget (strategy_2 q) j) (eps tol_)) (seq 0 n).

Definition equilibrium_of (game : BimatrixGame) (p : StrategyProfile) : EquilibriumResult T := {|
  profile := p;
  residual := nash_residual game (strategy_1 p) (strategy_2 p);
  iterations := 0;
  status := Converged;
  payoff_1 := expected_payoff_1 game (strategy_1 p) (strategy_2 p);
  payoff_2 := expected_payoff_2 game (strategy_1 p) (strategy_2 p);
|}.

(** The body of the loops: one pair of supports. *)
Definition visit (game : BimatrixGame) (s1 s2 : list nat) (result : MultiEquilibriumResult T) : MultiEquilibriumResult T :=
  let result := {| equilibria := equilibria result; multi_status := multi_status result;
                   total_iterations := i32 (total_iterations result + 1) |} in
  match try_support game s1 s2 with
  | None => result
  | Some p =>
      if check_best_response game p s1 s2 then
        if existsb (fun eq => same_profile (num_actions_1 game) (num_actions_2 game) (profile eq) p) (equilibria result)
        then result
        else {| equilibria := equilibria result ++ [equilibrium_of game p];
                multi_status := multi_status result; total_iterations := total_iterations result |}
      else result
  end.

(** The loops over the supports of one size; the fuel covers the subsets. *)
Definition visit_size (game : BimatrixGame) (m n k : nat) (result : MultiEquilibriumResult T)
    : option (MultiEquilibriumResult T) :=
  do_while (2 ^ m) (fun s1 => next_subset s1 m) (fun s1 result =>
    do_while (2 ^ n) (fun s2 => next_subset s2 n) (fun s2 result => Some (visit game s1 s2 result))
      (first_subset k) result)
    (first_subset k) result.

Definition solve_all (game : BimatrixGame) : option (MultiEquilibriumResult T) :=
  let m := num_actions_1 game in
  let n := num_actions_2 game in
  let result := {| equilibria := []; multi_status := NotRun; total_iterations := 0 |} in
  match for_ 1 (min m n + 1) (fun k result => result ≫= visit_size game m n k) (Some result) with
  | None => None
  | Some result =>
      Some {| equilibria := equilibria result;
              multi_status := match equilibria result with [] => Infeasible | _ => Converged end;
              total_iterations := total_iterations result |}
  end.

Definition solve_one (game : BimatrixGame) : option (EquilibriumResult T) :=
  match solve_all game with
  | None => None
  | Some multi =>
      Some match equilibria multi with
           | [] => {| profile := profile not_run; residual := residual not_run; iterations := 0;
                      status := Infeasible; payoff_1 := 0%num; payoff_2 := 0%num |}
           | eq :: _ => eq
           end
  end.

(** ** The pairs of supports the search visits *)

Definition supports (m n k : nat) : list (list nat * list nat) :=
  s1 ← subsets k (seq 0 m); s2 ← subsets k (seq 0 n); [(s1, s2)].

Definition all_supports (m n : nat) : list (list nat * list nat) :=
  seq 1 (min m n) ≫= supports m n.

Lemma run_visits game s1 l r :
  run (fun s2 result => Some (visit game s1 s2 result)) l r = Some (foldl (fun r s2 => visit game s1 s2 r) r l).
Proof. unfold run. revert r. induction l as [|s2 l IH]; intros r; cbn; [done|]. apply IH. Qed.

Lemma visit_size_walk game m n k r : k <= m -> k <= n -> (Z.of_nat m < 2 ^ 64)%Z -> (Z.of_nat n < 2 ^ 64)%Z ->
  visit_size game m n k r = Some (foldl (fun r '(s1, s2) => visit game s1 s2 r) r (supports m n k)).
Proof.
  intros Hm Hn Wm Wn. unfold visit_size, first_subset.
  pose proof (subsets_walk m k 0 Hm Wm) as W1. pose proof (subsets_walk n k 0 Hn Wn) as W2.
  rewrite Nat.sub_0_r in W1, W2.
  rewrite (do_while_walk _ _ _ _ _ _ W1).
  2:{ etrans; [apply subsets_length|]. by rewrite length_seq. }
  unfold supports. generalize (subsets k (seq 0 m)). intros l. unfold run. revert r.
  induction l as [|s1 l IH]; intros r; cbn; [done|].
  rewrite (do_while_walk _ _ _ _ _ _ W2).
  2:{ etrans; [apply subsets_length|]. by rewrite length_seq. }
  rewrite run_visits, foldl_app, IH. do 2 f_equal.
  generalize (subsets k (seq 0 n)). intros l2. revert r. induction l2 as [|s2 l2 IH2]; intros r; cbn; [done|]. apply IH2.
Qed.

Lemma total_visits game l r :
  total_iterations (foldl (fun r '(s1, s2) => visit game s1 s2 r) r l) =
  match l with [] => total_iterations r | _ => i32 (total_iterations r + Z.of_nat (length l)) end.
Proof.
  assert (forall s1 s2 r, total_iterations (visit game s1 s2 r) = i32 (total_iterations r + 1)) as G.
  { intros s1 s2 r'. unfold visit. destruct (try_support _ _ _); [|done].
    destruct (check_best_response _ _ _ _); [|done]. by destruct (existsb _ _). }
  assert (forall l t r, total_iterations r = i32 t ->
    total_iterations (foldl (fun r '(s1, s2) => visit game s1 s2 r) r l) = i32 (t + Z.of_nat (length l))) as G2.
  { clear l r. induction l as [|[s1 s2] l IH]; intros t r E; cbn [foldl length].
    - by rewrite Z.add_0_r.
    - rewrite (IH (t + 1)%Z); [f_equal; lia|]. rewrite G, E. unfold i32.
      apply wraps_eq_mod; [lia|]. rewrite <-Zplus_mod_idemp_l, wraps_mod by lia. by rewrite Zplus_mod_idemp_l. }
  destruct l as [|[s1 s2] l]; [done|]. cbn [foldl]. rewrite (G2 l (total_iterations r + 1)%Z) by done.
  f_equal. cbn [length]. lia.
Qed.

(** The search as one pass over all pairs. *)
Definition search (game : BimatrixGame) : MultiEquilibriumResult T :=
  foldl (fun r '(s1, s2) => visit game s1 s2 r)
    {| equilibria := []; multi_status := NotRun; total_iterations := 0 |}
    (all_supports (num_actions_1 game) (num_actions_2 game)).

Lemma all_supports_elem m n s1 s2 : (s1, s2) ∈ all_supports m n <->
  s1 `sublist_of` seq 0 m /\ s2 `sublist_of` seq 0 n /\ length s1 = length s2 /\ 0 < length s1.
Proof.
  unfold all_supports. rewrite list_elem_of_bind. split.
  - intros (k & Hs & Hk). apply elem_of_seq in Hk. unfold supports in Hs.
    apply list_elem_of_bind in Hs as (t1 & Hs & H1). apply list_elem_of_bind in Hs as (t2 & Hs & H2).
    apply list_elem_of_singleton in Hs as [= -> ->].
    apply subsets_elem in H1 as [H1 E1]. apply subsets_elem in H2 as [H2 E2].
    split; [done|split; [done|lia]].
  - intros (H1 & H2 & E & Hl). exists (length s1). split.
    + unfold supports. apply list_elem_of_bind. exists s1. split; [|by apply subsets_elem].
      apply list_elem_of_bind. exists s2. split; [by left|]. by apply subsets_elem.
    + apply elem_of_seq. apply sublist_length in H1, H2. rewrite length_seq in H1, H2. lia.
Qed.

Lemma all_supports_NoDup m n : NoDup (all_supports m n).
Proof.
  unfold all_supports. apply NoDup_bind; [| |apply NoDup_seq].
  - intros k k' [s1 s2] _ _ H1 H2. unfold supports in *.
    apply list_elem_of_bind in H1 as (t1 & H1 & E1). apply list_elem_of_bind in H1 as (t2 & H1 & _).
    apply list_elem_of_bind in H2 as (u1 & H2 & E2). apply list_elem_of_bind in H2 as (u2 & H2 & _).
    apply list_elem_of_singleton in H1 as [= -> ->]. apply list_elem_of_singleton in H2 as [= <- <-].
    apply subsets_elem in E1 as [_ <-]. by apply subsets_elem in E2 as [_ <-].
  - intros k _. unfold supports. apply NoDup_bind; [| |apply subsets_NoDup, NoDup_seq].
    + intros s1 s1' p _ _ H1 H2.
      apply list_elem_of_bind in H1 as (t2 & H1 & _). apply list_elem_of_bind in H2 as (u2 & H2 & _).
      apply list_elem_of_singleton in H1 as ->. by apply list_elem_of_singleton in H2 as [= ->].
    + intros s1 _. apply NoDup_bind; [| |apply subsets_NoDup, NoDup_seq].
      * intros s2 s2' p _ _ H1 H2. apply list_elem_of_singleton in H1 as ->.
        by apply list_elem_of_singleton in H2 as [= ->].
      * intros. apply NoDup_singleton.
Qed.

(** The search ends, and it tries every pair of supports of the same
    size exactly once: it is one pass over a list that has each such pair
    once, and the iterations it reports are their number, wrapped to an
    [int]. *)
Theorem search_visits_every_pair game : let m := num_actions_1 game in let n := num_actions_2 game in
  (Z.of_nat m < 2 ^ 64)%Z -> (Z.of_nat n < 2 ^ 64)%Z ->
  (exists r, solve_all game = Some r /\ equilibria r = equilibria (search game) /\
     multi_status r = (match equilibria (search game) with [] => Infeasible | _ => Converged end) /\
     total_iterations r = i32 (Z.of_nat (length (all_supports m n)))) /\
  NoDup (all_supports m n) /\
  forall s1 s2, (s1, s2) ∈ all_supports m n <->
    s1 `sublist_of` seq 0 m /\ s2 `sublist_of` seq 0 n /\ length s1 = length s2 /\ 0 < length s1.
Proof.
  intros m n Wm Wn. split; [|split; [apply all_supports_NoDup|apply all_supports_elem]].
  unfold solve_all, search. fold m n. set (r0 := {| equilibria := []; multi_status := _; total_iterations := _ |}).
  assert (for_ 1 (min m n + 1) (fun k r => r ≫= visit_size game m n k) (Some r0) =
    Some (foldl (fun r '(s1, s2) => visit game s1 s2 r) r0 (all_supports m n))) as ->.
  { unfold all_supports. assert (forall e, e <= min m n ->
      for_ 1 (e + 1) (fun k r => r ≫= visit_size game m n k) (Some r0) =
      Some (foldl (fun r '(s1, s2) => visit game s1 s2 r) r0 (seq 1 e ≫= supports m n))) as G; [|by apply G].
    induction e as [|e IH]; intros He; [done|].
    rewrite Nat.add_succ_l, for_last, IH by lia. cbn [mbind option_bind].
    rewrite visit_size_walk by (done || lia). rewrite seq_S, bind_app, foldl_app. cbn. rewrite app_nil_r.
    by replace (e + 1) with (S e) by lia. }
  eexists. split; [reflexivity|]. cbn. split; [done|]. split; [done|].
  rewrite total_visits. destruct (all_supports m n); done.
Qed.

Lemma spread_length m supp sol : length (spread m supp sol) = m.
Proof.
  unfold spread. apply (for_inv (fun _ s => length s = m)); [lia|by rewrite length_replicate|].
  intros i s _ IH. by rewrite length_insert.
Qed.

Lemma spread_spec m supp sol : NoDup supp -> Forall (fun a => a < m) supp ->
  (forall i, i < length supp -> vget (spread m supp sol) (nth i supp 0) = nmax 0%num (vget sol i)) /\
  (forall a, a < m -> a ∉ supp -> vget (spread m supp sol) a = 0%num).
Proof.
  intros Hnd Hlt.
  assert (forall i, i < length supp -> nth i supp 0 < m) as Hin.
  { intros i Hi. rewrite Forall_lookup in Hlt. destruct (lookup_lt_is_Some_2 supp i Hi) as [a Ha].
    rewrite nth_lookup, Ha. by eapply Hlt. }
  pose (P e s := e <= length supp -> length s = m /\
    (forall i, i < e -> vget s (nth i supp 0) = nmax 0%num (vget sol i)) /\
    (forall a, a < m -> (forall i, i < e -> a <> nth i supp 0) -> vget s a = 0%num)).
  enough (P (length supp) (spread m supp sol)) as G.
  { destruct G as (_ & G1 & G2); [done|]. split; [done|]. intros a Ha Hns. apply G2; [done|].
    intros i Hi ->. apply Hns. rewrite nth_lookup. destruct (lookup_lt_is_Some_2 supp i Hi) as [a' Ha'].
    rewrite Ha'. by eapply list_elem_of_lookup_2. }
  unfold spread. apply for_inv; unfold P; [lia| |].
  - intros _. split; [by rewrite length_replicate|]. split; [lia|]. intros a Ha _.
    unfold vget. by rewrite nth_lookup, lookup_replicate_2.
  - intros i s Hi IH Hle. destruct IH as (Hl & H1 & H2); [lia|]. split; [by rewrite length_insert|].
    pose proof (Hin i ltac:(lia)). split.
    + intros i' Hi'. rewrite vget_insert by lia. destruct (decide (nth i' supp 0 = nth i supp 0)) as [E|].
      * rewrite NoDup_alt in Hnd. destruct (lookup_lt_is_Some_2 supp i' ltac:(lia)) as [a Ha].
        destruct (lookup_lt_is_Some_2 supp i ltac:(lia)) as [b Hb]. rewrite !nth_lookup, Ha, Hb in E. cbn in E. subst b.
        by rewrite (Hnd _ _ _ Ha Hb).
      * apply H1. destruct (decide (i' = i)) as [->|]; [done|lia].
    + intros a Ha Hne. rewrite vget_insert by lia. rewrite decide_False by (apply Hne; lia).
      apply H2; [done|]. intros. apply Hne. lia.
Qed.

(** *** What the search collects *)

Lemma visit_elem game s1 s2 r eq : eq ∈ equilibria (visit game s1 s2 r) ->
  eq ∈ equilibria r \/ exists p, try_support game s1 s2 = Some p /\
    check_best_response game p s1 s2 = true /\ eq = equilibrium_of game p.
Proof.
  unfold visit. destruct (try_support game s1 s2) as [p|]; [|by left].
  destruct (check_best_response game p s1 s2) eqn:Hc; [|by left]. destruct (existsb _ _); [by left|].
  cbn. intros [Hr|Hr]%elem_of_app; [by left|right]. apply list_elem_of_singleton in Hr as ->. by exists p.
Qed.

Lemma visit_keeps game s1 s2 r eq : eq ∈ equilibria r -> eq ∈ equilibria (visit game s1 s2 r).
Proof.
  intros He. unfold visit. destruct (try_support game s1 s2) as [p|]; [|done].
  destruct (check_best_response game p s1 s2); [|done]. destruct (existsb _ _); [done|].
  cbn. apply elem_of_app. by left.
Qed.

Lemma visit_hit game s1 s2 r p : try_support game s1 s2 = Some p -> check_best_response game p s1 s2 = true ->
  exists eq, eq ∈ equilibria (visit game s1 s2 r) /\
    (profile eq = p \/ same_profile (num_actions_1 game) (num_actions_2 game) (profile eq) p = true).
Proof.
  intros Hp Hc. unfold visit. rewrite Hp, Hc. destruct (existsb _ _) eqn:He.
  - apply existsb_exists in He as (eq & Hin & Hs). exists eq. split; [by apply list_elem_of_In|by right].
  - exists (equilibrium_of game p). cbn. split; [|by left]. apply elem_of_app. right. by left.
Qed.

Lemma search_elem game eq : eq ∈ equilibria (search game) -> exists s1 s2 p,
  (s1, s2) ∈ all_supports (num_actions_1 game) (num_actions_2 game) /\
  try_support game s1 s2 = Some p /\ check_best_response game p s1 s2 = true /\ eq = equilibrium_of game p.
Proof.
  unfold search. set (r0 := {| equilibria := []; multi_status := _; total_iterations := _ |}).
  assert (forall l r, eq ∈ equilibria (foldl (fun r '(s1, s2) => visit game s1 s2 r) r l) -> eq ∈ equilibria r \/
    exists s1 s2 p, (s1, s2) ∈ l /\ try_support game s1 s2 = Some p /\
      check_best_response game p s1 s2 = true /\ eq = equilibrium_of game p) as G.
  { induction l as [|[s1 s2] l IH]; intros r; cbn; [by left|].
    intros [Hr|(t1 & t2 & p & Hin & Ht)]%IH.
    - apply visit_elem in Hr as [?|(p & Hp)]; [by left|right]. exists s1, s2, p. split; [by left|done].
    - right. exists t1, t2, p. split; [by right|done]. }
  intros [Hr|Hr]%G; [by apply not_elem_of_nil in Hr|done].
Qed.

Lemma search_hit game s1 s2 p : (s1, s2) ∈ all_supports (num_actions_1 game) (num_actions_2 game) ->
  try_support game s1 s2 = Some p -> check_best_response game p s1 s2 = true ->
  exists eq, eq ∈ equilibria (search game) /\
    (profile eq = p \/ same_profile (num_actions_1 game) (num_actions_2 game) (profile eq) p = true).
Proof.
  intros Hin Hp Hc. unfold search. set (r0 := {| equilibria := []; multi_status := _; total_iterations := _ |}).
  assert (forall l r eq, eq ∈ equilibria r -> eq ∈ equilibria (foldl (fun r '(s1, s2) => visit game s1 s2 r) r l)) as Hkeep.
  { induction l as [|[t1 t2] l IH]; intros r eq He; cbn; [done|]. by apply IH, visit_keeps. }
  apply list_elem_of_split in Hin as (l1 & l2 & ->). rewrite foldl_app. cbn [foldl].
  destruct (visit_hit game s1 s2 (foldl (fun r '(s1, s2) => visit game s1 s2 r) r0 l1) p Hp Hc) as (eq & He & Heq).
  exists eq. split; [by apply Hkeep|done].
Qed.

End solver.

(** ** Exact arithmetic *)

Section exact.
Local Open Scope Qc_scope.
Local Abbreviation Vec := (list Qc).
Local Abbreviation BimatrixGame := (BimatrixGame Qc).

(** *** Sums over a support *)

Lemma sum_sublist m supp (f : nat -> Qc) : supp `sublist_of` seq 0 m ->
  (forall a, (a < m)%nat -> a ∉ supp -> f a = 0) ->
  sum m f = sum (length supp) (fun i => f (nth i supp O)).
Proof.
  set (lsum l := foldr (fun a s => f a + s) 0 l).
  assert (forall l, sum (length l) (fun i => f (nth i l O)) = lsum l) as Hl.
  { induction l as [|a l IH]; [done|]. cbn [length]. change (S (length l)) with (1 + length l)%nat.
    rewrite sum_app, sum_S, sum_0.
    change (0 + f a + sum (length l) (fun i => f (nth i l O)) = f a + lsum l). rewrite IH. ring. }
  rewrite Hl. intros Hs Hz. transitivity (lsum (seq 0 m)).
  { rewrite <-Hl, length_seq. apply sum_ext. intros. by rewrite seq_nth by done. }
  assert (forall a, a ∈ seq 0 m -> a ∉ supp -> f a = 0) as Hz'.
  { intros a Ha. apply Hz. apply elem_of_seq in Ha. lia. }
  clear Hz Hl. pose proof (NoDup_seq 0 m) as Hnd. revert Hz' Hnd. induction Hs as [|a s l Hs IH|a s l Hs IH]; intros Hz Hnd; [done|..].
  - apply NoDup_cons in Hnd as [Ha Hnd]. change (f a + lsum l = f a + lsum s). rewrite IH; [done| |done]. intros b Hb Hbs.
    apply Hz; [by right|]. intros [->|]%elem_of_cons; [done|by apply Hbs].
  - apply NoDup_cons in Hnd as [Ha Hnd]. change (f a + lsum l = lsum s). rewrite IH; [|intros b Hb; apply Hz; by right|done].
    rewrite Hz; [ring|by left|]. intros Hin. apply Ha. eapply elem_of_submseteq; [|by apply sublist_submseteq]. done.
Qed.

(** *** The systems *)

Lemma indifference_matrix_spec k (entry : nat -> nat -> Qc) : let M := indifference_matrix k entry in
  shape M (k + 1) (k + 1) /\
  (forall i j, (i < k)%nat -> (j < k)%nat -> mget M i j = entry i j) /\
  (forall i, (i < k)%nat -> mget M i k = -1) /\
  (forall j, (j < k)%nat -> mget M k j = 1) /\ mget M k k = 0.
Proof.
  intros M. unfold M, indifference_matrix. set (M0 := mat (k + 1) (k + 1) _).
  destruct (fill_bordered (k + 1) (k + 1) k k entry (fun _ => k) (fun _ => of_Z (-1)) M0) as [Hs1 E1];
    [apply shape_mat|lia..|].
  set (M1 := for_ 0 k (fun i M => mset _ i k _) M0) in *.
  destruct (fill_row (k + 1) (k + 1) k (fun _ => k) (fun j => j) (fun _ => 1) M1) as (Hs2 & H1 & H2); [done|lia|done|].
  exact_ops. set (M2 := for_ 0 k _ M1) in *. split; [done|].
  split; [|split; [|split]].
  - intros i j Hi Hj. rewrite H2 by (lia || (intros; lia)). rewrite E1, !decide_True by lia. done.
  - intros i Hi. rewrite H2 by (lia || (intros; lia)). rewrite E1, decide_True, decide_False, decide_True by lia. by apply Qc_is_canon.
  - done.
  - rewrite H2 by (lia || (intros; lia)). rewrite E1, decide_False by lia. unfold M0. by rewrite mget_mat by lia.
Qed.

Lemma rhs_spec k i : (i < k + 1)%nat -> vget (indifference_rhs (T := Qc) k) i = if decide (i = k) then 1 else 0.
Proof.
  intros Hi. unfold indifference_rhs. rewrite vget_insert by (rewrite length_replicate; lia).
  case_decide; [done|]. unfold vget. by rewrite nth_lookup, lookup_replicate_2.
Qed.

(** What a solution of the system says. *)
Lemma system_meaning k (entry : nat -> nat -> Qc) w :
  Linalg.matvec (indifference_matrix k entry) w = indifference_rhs k <->
  (forall i, (i < k)%nat -> sum k (fun j => entry i j * vget w j) = vget w k) /\ sum k (vget w) = 1.
Proof.
  destruct (indifference_matrix_spec k entry) as (Hs & E1 & E2 & E3 & E4).
  rewrite (Linalg.matvec_eq _ _ _ (k + 1) Hs) by (unfold indifference_rhs; by rewrite length_insert, length_replicate).
  replace (k + 1)%nat with (S k) in * by lia.
  assert (forall i, (i < k)%nat -> sum (S k) (fun j => mget (indifference_matrix k entry) i j * vget w j) =
    sum k (fun j => entry i j * vget w j) - vget w k) as G1.
  { intros i Hi. rewrite sum_S, E2 by done. rewrite (sum_ext k _ (fun j => entry i j * vget w j)) by (intros; by rewrite E1). ring. }
  assert (sum (S k) (fun j => mget (indifference_matrix k entry) k j * vget w j) = sum k (vget w)) as G2.
  { rewrite sum_S, E4. rewrite (sum_ext k _ (vget w)) by (intros; rewrite E3 by done; ring). ring. }
  split.
  - intros G. split.
    + intros i Hi. specialize (G i ltac:(lia)). rewrite G1, rhs_spec, decide_False in G by lia. qc_lra.
    + specialize (G k ltac:(lia)). by rewrite G2, rhs_spec, decide_True in G by lia.
  - intros [H1 H2] i Hi. rewrite rhs_spec by lia. case_decide; [subst; by rewrite G2|].
    rewrite G1, H1 by lia. ring.
Qed.

Section tolerances.
Context (tol_ : Tolerances Qc) (Hpivot : 0 < pivot_tol tol_) (Heps : 0 <= eps tol_).

Lemma indifferent_spec k entry sol : indifferent tol_ k entry = Some sol ->
  length sol = (k + 1)%nat /\ (forall j, (j < k)%nat -> - eps tol_ <= vget sol j) /\
  (forall i, (i < k)%nat -> sum k (fun j => entry i j * vget sol j) = vget sol k) /\ sum k (vget sol) = 1.
Proof.
  unfold indifferent. destruct (Linalg.solve _ _ _) as [x|] eqn:Hx; [|done].
  destruct (forallb _ _) eqn:Hall; [|done]. intros [= ->].
  destruct (indifference_matrix_spec k entry) as (Hs & _).
  eapply Linalg.solve_spec in Hx as (Hl & Hu & _); [|exact Hs|by unfold indifference_rhs; rewrite length_insert, length_replicate|done].
  split; [done|]. split.
  - intros j Hj. rewrite forallb_forall in Hall. specialize (Hall j). rewrite in_seq in Hall. specialize (Hall ltac:(lia)).
    apply negb_true_iff in Hall. exact_ops. destruct (nltb_spec (vget sol j) (- eps tol_)); [done|qc_lra].
  - apply system_meaning. by apply Hu.
Qed.

Lemma indifferent_complete k entry sol : length sol = (k + 1)%nat ->
  is_Some (Linalg.solve (indifference_matrix k entry) (indifference_rhs k) (pivot_tol tol_)) ->
  (forall j, (j < k)%nat -> 0 <= vget sol j) ->
  (forall i, (i < k)%nat -> sum k (fun j => entry i j * vget sol j) = vget sol k) -> sum k (vget sol) = 1 ->
  indifferent tol_ k entry = Some sol.
Proof.
  intros Hl [x Hx] Hnn H1 H2. unfold indifferent. rewrite Hx.
  destruct (indifference_matrix_spec k entry) as (Hs & _).
  eapply Linalg.solve_spec in Hx as (Hl' & Hu & _); [|exact Hs|by unfold indifference_rhs; rewrite length_insert, length_replicate|done].
  assert (sol = x) as <- by by apply Hu, system_meaning.
  assert (forallb (fun j => negb (vget sol j <? - eps tol_)%num) (seq 0 k) = true) as ->; [|done].
  apply forallb_forall. intros j [_ Hj]%in_seq. apply negb_true_iff. exact_ops. specialize (Hnn j ltac:(lia)).
  destruct (nltb_spec (vget sol j) (- eps tol_)); [qc_lra|done].
Qed.

(** *** Strategies made of weights *)

Lemma sublist_seq m supp : supp `sublist_of` seq 0 m -> NoDup supp /\ Forall (fun a => a < m)%nat supp.
Proof.
  intros Hs. split; [eapply sublist_NoDup; [apply NoDup_seq|done]|].
  apply Forall_forall. intros a Ha. assert (a ∈ seq 0 m) as Hin; [|apply elem_of_seq in Hin; lia].
  eapply elem_of_submseteq; [exact Ha|by apply sublist_submseteq].
Qed.

Lemma spread_sum m supp sol (f : nat -> Qc) : supp `sublist_of` seq 0 m ->
  sum m (fun a => f a * vget (spread m supp sol) a) =
  sum (length supp) (fun i => f (nth i supp O) * nmax 0 (vget sol i)).
Proof.
  intros Hs. destruct (sublist_seq m supp Hs) as [Hnd Hlt].
  destruct (spread_spec m supp sol Hnd Hlt) as [H1 H2].
  rewrite (sum_sublist m supp) by (done || (intros a Ha Hns; rewrite H2 by done; exact_ops; ring)).
  apply sum_ext. intros i Hi. by rewrite H1.
Qed.

Lemma spread_nonneg m supp sol a : supp `sublist_of` seq 0 m -> (a < m)%nat -> 0 <= vget (spread m supp sol) a.
Proof.
  intros Hs Ha. destruct (sublist_seq m supp Hs) as [Hnd Hlt].
  destruct (spread_spec m supp sol Hnd Hlt) as [H1 H2].
  destruct (decide (a ∈ supp)) as [Hin|]; [|rewrite H2 by done; apply Qcle_refl].
  apply list_elem_of_lookup in Hin as [i Hi]. replace a with (nth i supp O) by (by rewrite nth_lookup, Hi).
  rewrite H1 by by eapply lookup_lt_Some. exact_ops. destruct (nmax_cases 0 (vget sol i)) as [[-> ?]|[-> ?]]; [done|qc_lra].
Qed.

(** A weight that is kept belongs to the support. *)
Lemma spread_positive m supp sol a : supp `sublist_of` seq 0 m -> (a < m)%nat ->
  0 < vget (spread m supp sol) a -> exists i, (i < length supp)%nat /\ nth i supp O = a.
Proof.
  intros Hs Ha Hp. destruct (sublist_seq m supp Hs) as [Hnd Hlt].
  destruct (spread_spec m supp sol Hnd Hlt) as [H1 H2].
  destruct (decide (a ∈ supp)) as [Hin|Hni]; [|rewrite H2 in Hp by done; exact_ops; qc_lra].
  apply list_elem_of_lookup in Hin as [i Hi]. exists i. split; [by eapply lookup_lt_Some|]. by rewrite nth_lookup, Hi.
Qed.

Lemma clipped sol j k : (forall j, (j < k)%nat -> - eps tol_ <= vget sol j) -> (j < k)%nat ->
  0 <= nmax 0 (vget sol j) - vget sol j /\ nmax 0 (vget sol j) - vget sol j <= eps tol_.
Proof.
  intros Hsol Hj. specialize (Hsol j Hj). clear Hpivot.
  destruct (nmax_cases 0 (vget sol j)) as [[-> ?]|[-> ?]]; split; qc_lra.
Qed.

(** The weights sum to one up to the tolerance. *)
Lemma spread_total n supp sol : supp `sublist_of` seq 0 n ->
  (forall j, (j < length supp)%nat -> - eps tol_ <= vget sol j) -> sum (length supp) (vget sol) = 1 ->
  1 <= sum n (vget (spread n supp sol)) /\
  sum n (vget (spread n supp sol)) <= 1 + of_size (length supp) * eps tol_.
Proof.
  intros Hs Hsol H1.
  assert (sum n (vget (spread n supp sol)) = 1 + sum (length supp) (fun j => nmax 0 (vget sol j) - vget sol j)) as ->.
  { rewrite sum_sub, H1. rewrite (sum_ext n _ (fun a => 1 * vget (spread n supp sol) a)) by (intros; ring).
    rewrite spread_sum by done. rewrite (sum_ext _ (fun i => 1 * _) (fun j => nmax 0 (vget sol j))) by (intros; ring). ring. }
  assert (0 <= sum (length supp) (fun j => nmax 0 (vget sol j) - vget sol j)).
  { apply sum_nonneg. intros j Hj. by apply (clipped sol j (length supp)). }
  assert (sum (length supp) (fun j => nmax 0 (vget sol j) - vget sol j) <= sum (length supp) (fun _ => eps tol_)) as H2.
  { apply sum_le. intros j Hj. by apply (clipped sol j (length supp)). }
  rewrite sum_const in H2. clear Hpivot. split; qc_lra.
Qed.

Lemma best_on_le payoffs supp u : of_Z (- 10 ^ 300) <= u -> (forall i, i ∈ supp -> vget payoffs i <= u) ->
  best_on payoffs supp <= u.
Proof.
  unfold best_on. generalize (of_Z (T := Qc) (- 10 ^ 300)). induction supp as [|i supp IH]; intros v Hv Hs; cbn [foldl]; [done|].
  apply IH; [|intros; apply Hs; by right].
  pose proof (Hs i ltac:(by left)). clear Hpivot Heps. destruct (nmax_cases v (vget payoffs i)) as [[-> ?]|[-> ?]]; done.
Qed.

Lemma best_on_ge payoffs supp i : i ∈ supp -> vget payoffs i <= best_on payoffs supp.
Proof.
  unfold best_on. generalize (of_Z (T := Qc) (- 10 ^ 300)).
  assert (forall l v, v <= foldl (fun v i => nmax v (vget payoffs i)) v l) as G.
  { induction l as [|j l IH]; intros v; cbn [foldl]; [apply Qcle_refl|]. eapply Qcle_trans; [|apply IH].
    destruct (nmax_cases v (vget payoffs j)) as [[-> ?]|[-> ?]]; [apply Qcle_refl|by apply Qclt_le_weak]. }
  induction supp as [|j supp IH]; intros v Hi; cbn [foldl]; [by apply not_elem_of_nil in Hi|].
  apply elem_of_cons in Hi as [->|Hi]; [|by apply IH]. eapply Qcle_trans; [|apply G].
  destruct (nmax_cases v (vget payoffs j)) as [[-> ?]|[-> ?]]; [done|apply Qcle_refl].
Qed.

Lemma no_better_spec m payoffs supp :
  no_better tol_ m payoffs supp = true <-> forall i, (i < m)%nat -> vget payoffs i <= best_on payoffs supp + eps tol_.
Proof.
  unfold no_better. rewrite forallb_forall. clear Hpivot Heps. split.
  - intros G i Hi. specialize (G i ltac:(apply in_seq; lia)). apply negb_true_iff in G. exact_ops.
    destruct (nltb_spec (best_on payoffs supp + eps tol_) (vget payoffs i)); [done|qc_lra].
  - intros G i [_ Hi]%in_seq. specialize (G i ltac:(lia)). apply negb_true_iff. exact_ops.
    destruct (nltb_spec (best_on payoffs supp + eps tol_) (vget payoffs i)); [qc_lra|done].
Qed.

(** *** One player's side *)

Section side.
Context (m n k : nat) (P : nat -> nat -> Qc) (s1 s2 : list nat) (sol payoffs : Vec).
Context (Hs1 : s1 `sublist_of` seq 0 m) (Hs2 : s2 `sublist_of` seq 0 n).
Context (Hk1 : length s1 = k) (Hk2 : length s2 = k) (Hk : (0 < k)%nat).

Lemma nth_below i : (i < k)%nat -> (nth i s1 O < m)%nat /\ (nth i s2 O < n)%nat.
Proof.
  intros Hi. split; [destruct (sublist_seq m s1 Hs1) as [_ H]|destruct (sublist_seq n s2 Hs2) as [_ H]].
  - destruct (lookup_lt_is_Some_2 s1 i ltac:(lia)) as [a Ha]. rewrite nth_lookup, Ha. by eapply Forall_lookup_1 in H.
  - destruct (lookup_lt_is_Some_2 s2 i ltac:(lia)) as [a Ha]. rewrite nth_lookup, Ha. by eapply Forall_lookup_1 in H.
Qed.

Section sound.
Context (Hsol : indifferent tol_ k (fun i j => P (nth i s1 O) (nth j s2 O)) = Some sol).
Context (Hpay : forall i, (i < m)%nat -> vget payoffs i = sum n (fun b => P i b * vget (spread n s2 sol) b)).
Context (Mx : Qc) (HMx : forall i b, (i < m)%nat -> (b < n)%nat -> - Mx <= P i b /\ P i b <= Mx).

(** The actions of the support are worth the same, up to what was clipped. *)
Lemma support_worth i : (i < k)%nat ->
  vget sol k - of_size k * (Mx * eps tol_) <= vget payoffs (nth i s1 O) /\
  vget payoffs (nth i s1 O) <= vget sol k + of_size k * (Mx * eps tol_).
Proof.
  intros Hi. destruct (indifferent_spec _ _ _ Hsol) as (_ & Hge & Hv & _).
  destruct (nth_below i Hi) as [Hi1 _]. rewrite Hpay, spread_sum, Hk2 by done.
  pose (p j := P (nth i s1 O) (nth j s2 O)).
  assert (sum k (fun j => P (nth i s1 O) (nth j s2 O) * nmax 0 (vget sol j)) =
    vget sol k + sum k (fun j => p j * (nmax 0 (vget sol j) - vget sol j))) as ->.
  { rewrite <-(Hv i Hi). unfold p. rewrite <-sum_add. apply sum_ext. intros. ring. }
  assert (forall j, (j < k)%nat -> - (Mx * eps tol_) <= p j * (nmax 0 (vget sol j) - vget sol j) /\
    p j * (nmax 0 (vget sol j) - vget sol j) <= Mx * eps tol_) as Hterm.
  { intros j Hj. destruct (clipped sol j k Hge Hj) as [Hd0 Hd1].
    destruct (nth_below j Hj) as [_ Hj2]. destruct (HMx _ _ Hi1 Hj2) as [Hp0 Hp1]. fold (p j) in Hp0, Hp1.
    generalize dependent (nmax 0 (vget sol j) - vget sol j). intros d Hd0 Hd1. generalize dependent (p j). intros q Hq0 Hq1.
    clear - Hd0 Hd1 Hq0 Hq1.
    assert (0 <= (Mx - q) * d) by qc_nra. assert (0 <= (Mx + q) * d) by qc_nra.
    assert (0 <= Mx * (eps tol_ - d)) by qc_nra. split; qc_nra. }
  assert (sum k (fun _ => - (Mx * eps tol_)) <= sum k (fun j => p j * (nmax 0 (vget sol j) - vget sol j))) as H1
    by (apply sum_le; intros; by apply Hterm).
  assert (sum k (fun j => p j * (nmax 0 (vget sol j) - vget sol j)) <= sum k (fun _ => Mx * eps tol_)) as H2
    by (apply sum_le; intros; by apply Hterm).
  rewrite sum_const in H1, H2. replace (of_size k * - (Mx * eps tol_)) with (- (of_size k * (Mx * eps tol_))) in H1 by ring.
  clear - H1 H2. split; qc_lra.
Qed.

Lemma side_sound : Mx * (1 + of_size k * eps tol_) <= of_Z (10 ^ 300) ->
  no_better tol_ m payoffs s1 = true ->
  forall i i', (i < k)%nat -> (i' < m)%nat ->
  vget payoffs i' <= vget payoffs (nth i s1 O) + eps tol_ * (1 + (1 + 1) * of_size k * Mx).
Proof.
  intros Hbig Hno i i' Hi Hi'. apply no_better_spec with (i := i') in Hno; [|done].
  destruct (indifferent_spec _ _ _ Hsol) as (_ & Hge & _ & Hone).
  assert (best_on payoffs s1 <= vget sol k + of_size k * (Mx * eps tol_)) as Hbest.
  { apply best_on_le.
    - destruct (support_worth O ltac:(lia)) as [_ Hw]. eapply Qcle_trans; [|exact Hw].
      destruct (nth_below O ltac:(lia)) as [H0 _]. rewrite Hpay by done.
      apply Qcle_trans with (sum n (fun b => - Mx * vget (spread n s2 sol) b)).
      + rewrite sum_mul_l. destruct (spread_total n s2 sol Hs2) as [_ Ht]; [by rewrite Hk2|by rewrite Hk2|].
        rewrite Hk2 in Ht. assert (0 <= Mx) as HM.
        { destruct (nth_below O ltac:(lia)) as [Ha Hb]. destruct (HMx _ _ Ha Hb) as [Hp Hq]. clear - Hp Hq. qc_lra. }
        assert (of_Z (- 10 ^ 300) = - (of_Z (10 ^ 300) : Qc)) as -> by by apply Qc_is_canon.
        generalize dependent (of_Z (T := Qc) (10 ^ 300)). intros big Hbig.
        generalize dependent (sum n (vget (spread n s2 sol))). intros t Ht.
        assert (0 <= Mx * (1 + of_size k * eps tol_ - t)) by (clear - HM Ht; qc_nra).
        clear - H Hbig. qc_nra.
      + apply sum_le. intros b Hb. destruct (HMx _ _ H0 Hb) as [Hp _].
        pose proof (spread_nonneg n s2 sol b Hs2 Hb). clear - H Hp. qc_nra.
    - intros a Ha. apply list_elem_of_lookup in Ha as [l Hl]. pose proof (lookup_lt_Some _ _ _ Hl) as Hlt.
      rewrite Hk1 in Hlt. destruct (support_worth l Hlt) as [_ Hw]. by rewrite nth_lookup, Hl in Hw. }
  destruct (support_worth i Hi) as [Hw _].
  replace (eps tol_ * (1 + (1 + 1) * of_size k * Mx)) with
    (eps tol_ + of_size k * (Mx * eps tol_) + of_size k * (Mx * eps tol_)) by ring.
  clear - Hno Hbest Hw. qc_lra.
Qed.

End sound.
End side.

Lemma try_support_spec g s1 s2 p : try_support tol_ g s1 s2 = Some p -> length s1 = length s2 /\
  exists sol_x sol_y,
    indifferent tol_ (length s1) (fun i j => mget (payoff_1_ g) (nth i s1 O) (nth j s2 O)) = Some sol_y /\
    indifferent tol_ (length s1) (fun j i => mget (payoff_2_ g) (nth i s1 O) (nth j s2 O)) = Some sol_x /\
    p = {| strategy_1 := spread (num_actions_1 g) s1 sol_x; strategy_2 := spread (num_actions_2 g) s2 sol_y |}.
Proof.
  unfold try_support. destruct (Nat.eqb_spec (length s1 + 1) (length s2 + 1)) as [E|]; [|done]. cbn [negb].
  intros Hp. repeat case_match; simplify_eq. split; [lia|]. by do 2 eexists.
Qed.

(** A vector of [k] weights that add up to one, or at most [e] more. *)
Definition near_distribution (k : nat) (e : Qc) (x : Vec) : Prop :=
  length x = k /\ (forall i, (i < k)%nat -> 0 <= vget x i) /\ 1 <= sum k (vget x) /\ sum k (vget x) <= 1 + e.

Lemma spread_near n supp k entry sol K : supp `sublist_of` seq 0 n -> length supp = k -> (k <= K)%nat ->
  indifferent tol_ k entry = Some sol -> near_distribution n (of_size K * eps tol_) (spread n supp sol).
Proof.
  intros Hs Hk HK Hsol. destruct (indifferent_spec _ _ _ Hsol) as (_ & Hge & _ & Hone). subst k.
  destruct (spread_total n supp sol Hs Hge Hone) as [H1 H2].
  split; [apply spread_length|]. split; [intros; by apply spread_nonneg|]. split; [done|].
  assert (of_size (length supp) <= (of_size K : Qc)) by (apply exact_of_Z_le; lia).
  clear - H2 H Heps. generalize dependent (sum n (vget (spread n supp sol))). intros t Ht.
  generalize dependent (of_size (T := Qc) (length supp)). intros a Ht Ha.
  assert (0 <= (of_size K - a) * eps tol_) by qc_nra. qc_nra.
Qed.

Section game.
Context (g : BimatrixGame) (m n : nat) (Hg : game_shape g m n).
Local Abbreviation K := (of_size (T := Qc) (min m n)).

(** Payoffs of absolute value at most [Mx]. *)
Definition payoffs_within (Mx : Qc) : Prop := forall i j, (i < m)%nat -> (j < n)%nat ->
  (- Mx <= mget (payoff_1_ g) i j /\ mget (payoff_1_ g) i j <= Mx) /\
  (- Mx <= mget (payoff_2_ g) i j /\ mget (payoff_2_ g) i j <= Mx).

Lemma pair_sound Mx s1 s2 p : payoffs_within Mx -> Mx * (1 + K * eps tol_) <= of_Z (10 ^ 300) ->
  (s1, s2) ∈ all_supports m n -> try_support tol_ g s1 s2 = Some p -> check_best_response tol_ g p s1 s2 = true ->
  near_distribution m (K * eps tol_) (strategy_1 p) /\ near_distribution n (K * eps tol_) (strategy_2 p) /\
  well_supported g (eps tol_ * (1 + (1 + 1) * K * Mx)) (strategy_1 p) (strategy_2 p).
Proof.
  intros HMx Hbig (Hs1 & Hs2 & Hlen & Hpos)%all_supports_elem Htry Hcheck.
  destruct (actions_shaped g m n Hg) as [Em En].
  apply try_support_spec in Htry as (_ & sol_x & sol_y & Hy & Hx & ->). rewrite Em, En in *. cbn [strategy_1 strategy_2] in *.
  unfold check_best_response in Hcheck. rewrite Em, En in Hcheck. apply andb_true_iff in Hcheck as [Hc1 Hc2].
  cbn [strategy_1 strategy_2] in *. set (k := length s1) in *.
  assert (k <= min m n)%nat as HkK.
  { pose proof (sublist_length _ _ Hs1) as L1. pose proof (sublist_length _ _ Hs2) as L2. rewrite length_seq in L1, L2. lia. }
  assert (of_size k <= K) as HkK' by (apply exact_of_Z_le; lia).
  assert (0 <= Mx) as HM0.
  { destruct Hg as (_ & _ & Hm & Hn). destruct (HMx O O Hm Hn) as [[Ha Hb] _]. clear - Ha Hb. qc_lra. }
  assert (Mx * (1 + of_size k * eps tol_) <= of_Z (10 ^ 300)) as Hbig'.
  { eapply Qcle_trans; [|exact Hbig]. clear - HkK' HM0 Heps. generalize dependent (of_size (T := Qc) k). intros a Ha.
    assert (0 <= Mx * eps tol_) by qc_nra. assert (0 <= (K - a) * (Mx * eps tol_)) by qc_nra.
    replace (Mx * (1 + K * eps tol_)) with (Mx * (1 + a * eps tol_) + (K - a) * (Mx * eps tol_)) by ring. qc_lra. }
  assert (eps tol_ * (1 + (1 + 1) * of_size k * Mx) <= eps tol_ * (1 + (1 + 1) * K * Mx)) as Hd.
  { clear - HkK' HM0 Heps. generalize dependent (of_size (T := Qc) k). intros a Ha.
    assert (0 <= Mx * eps tol_) by qc_nra. assert (0 <= (K - a) * (Mx * eps tol_)) by qc_nra.
    replace (eps tol_ * (1 + (1 + 1) * K * Mx)) with
      (eps tol_ * (1 + (1 + 1) * a * Mx) + (K - a) * (Mx * eps tol_) + (K - a) * (Mx * eps tol_)) by ring. qc_lra. }
  split; [exact (spread_near m s1 k _ sol_x _ Hs1 eq_refl HkK Hx)|].
  split; [exact (spread_near n s2 k _ sol_y _ Hs2 (eq_sym Hlen) HkK Hy)|].
  pose proof (side_sound m n k (fun a b => mget (payoff_1_ g) a b) s1 s2 sol_y
    (Linalg.matvec (payoff_1_ g) (spread n s2 sol_y)) Hs1 Hs2 eq_refl (eq_sym Hlen) Hpos Hy) as Q1.
  pose proof (side_sound n m k (fun b a => mget (payoff_2_ g) a b) s2 s1 sol_x
    (Linalg.matvec (Linalg.transpose (payoff_2_ g)) (spread m s1 sol_x)) Hs2 Hs1 (eq_sym Hlen) eq_refl Hpos Hx) as Q2.
  split; rewrite ?Em, ?En; intros i i' Hi Hi' Hp.
  - apply spread_positive in Hp as (l & Hl & <-); [|done..].
    rewrite <-!(matvec_worth_1 g m n Hg) by done. eapply Qcle_trans.
    + apply Q1 with (Mx := Mx) (i := l); try done.
      * intros a Ha. rewrite (matvec_worth_1 g m n Hg) by done. unfold worth_1. by rewrite En.
      * intros a b Ha Hb. by apply HMx.
    + clear - Hd. qc_lra.
  - apply spread_positive in Hp as (l & Hl & <-); [|done..].
    rewrite <-!(matvec_worth_2 g m n Hg) by done. eapply Qcle_trans.
    + apply Q2 with (Mx := Mx) (i := l); try done.
      * intros a Ha. rewrite (matvec_worth_2 g m n Hg) by done. unfold worth_2. by rewrite Em.
      * intros a b Ha Hb. by apply HMx.
      * by rewrite Hlen.
    + clear - Hd. qc_lra.
Qed.

(** The actions a strategy plays. *)
Local Abbreviation played x := (support (T := Qc) x 0).

Lemma played_elem k x a : length x = k -> a ∈ played x <-> (a < k)%nat /\ 0 < vget x a.
Proof.
  intros <-. unfold support. rewrite list_elem_of_filter, elem_of_seq. exact_ops.
  destruct (nltb_spec 0 (vget x a)) as [H|H]; naive_solver lia.
Qed.

Lemma played_sublist k x : length x = k -> played x `sublist_of` seq 0 k.
Proof. intros <-. apply sublist_filter. Qed.

Lemma unplayed k x a : distribution k x -> (a < k)%nat -> a ∉ played x -> vget x a = 0.
Proof.
  intros (Hl & Hx & _) Ha Hn. specialize (Hx a Ha).
  destruct (Qclt_le_dec 0 (vget x a)) as [Hp|Hp]; [|by apply Qcle_antisym].
  destruct Hn. by apply (played_elem k).
Qed.

Lemma played_nth k x i : length x = k -> (i < length (played x))%nat ->
  (nth i (played x) O < k)%nat /\ 0 < vget x (nth i (played x) O).
Proof.
  intros Hl Hi. destruct (lookup_lt_is_Some_2 _ _ Hi) as [a Ha]. rewrite nth_lookup, Ha.
  apply (played_elem k); [done|]. by eapply list_elem_of_lookup_2.
Qed.

(** The weights of the played actions, followed by the value. *)
Definition weights (x : Vec) (v : Qc) : Vec :=
  let k := length (played x) in
  vec (k + 1) (fun j => if decide (j < k)%nat then vget x (nth j (played x) O) else v).

Lemma weights_get x v j : (j < length (played x))%nat -> vget (weights x v) j = vget x (nth j (played x) O).
Proof. intros Hj. unfold weights. rewrite vget_vec by lia. by rewrite decide_True. Qed.

Lemma weights_value x v : vget (weights x v) (length (played x)) = v.
Proof. unfold weights. rewrite vget_vec by lia. by rewrite decide_False by lia. Qed.

Lemma spread_weights k x v : distribution k x -> spread k (played x) (weights x v) = x.
Proof.
  intros Hx. pose proof Hx as (Hl & Hnn & _). destruct (sublist_seq k _ (played_sublist k x Hl)) as [Hnd Hlt].
  destruct (spread_spec k _ (weights x v) Hnd Hlt) as [H1 H2].
  apply vget_ext; rewrite spread_length; [done|]. intros a Ha.
  destruct (decide (a ∈ played x)) as [Hin|Hni]; [|rewrite H2 by done; symmetry; by apply (unplayed k)].
  apply list_elem_of_lookup in Hin as [i Hi]. pose proof (lookup_lt_Some _ _ _ Hi) as Hlti.
  replace a with (nth i (played x) O) by (by rewrite nth_lookup, Hi).
  rewrite H1, weights_get by done. exact_ops. destruct (played_nth k x i Hl Hlti) as [_ Hp].
  clear - Hp. destruct (nmax_cases 0 (vget x (nth i (played x) O))) as [[-> ?]|[-> ?]]; [qc_lra|done].
Qed.

(** Sums over the played actions. *)
Lemma played_sum k x (f : nat -> Qc) : distribution k x ->
  sum k (fun a => f a * vget x a) = sum (length (played x)) (fun i => f (nth i (played x) O) * vget x (nth i (played x) O)).
Proof.
  intros Hx. apply (sum_sublist k (played x) (fun a => f a * vget x a)).
  - apply played_sublist, Hx.
  - intros a Ha Hn. rewrite (unplayed k) by done. ring.
Qed.

(** One side of an equilibrium solves its system. *)
Lemma weights_indifferent m' n' x y (P : nat -> nat -> Qc) v : distribution m' x -> distribution n' y ->
  length (played x) = length (played y) ->
  (forall i, (i < m')%nat -> 0 < vget x i -> sum n' (fun b => P i b * vget y b) = v) ->
  let entry i j := P (nth i (played x) O) (nth j (played y) O) in
  is_Some (Linalg.solve (indifference_matrix (length (played x)) entry) (indifference_rhs (length (played x))) (pivot_tol tol_)) ->
  indifferent tol_ (length (played x)) entry = Some (weights y v).
Proof.
  intros Hx Hy Hlen Hv entry Hsolve. pose proof Hy as (Hly & Hnn & Hone).
  apply indifferent_complete; [| done | | |].
  - unfold weights. by rewrite vec_length, Hlen.
  - intros j Hj. rewrite weights_get by lia. apply Hnn. by apply played_nth; [|lia].
  - intros i Hi. destruct (played_nth m' x i (proj1 Hx) Hi) as [Ha Hp].
    rewrite Hlen, weights_value, <-(Hv _ Ha Hp), (played_sum n' y _ Hy).
    apply sum_ext. intros j Hj. by rewrite weights_get.
  - rewrite Hlen, (sum_ext _ _ (fun j => 1 * vget y (nth j (played y) O))) by (intros; rewrite weights_get by done; ring).
    rewrite <-(played_sum n' y (fun _ => 1) Hy). etransitivity; [|exact Hone]. apply sum_ext. intros. ring.
Qed.

(** The two systems of a pair of supports. *)
Definition system_1 (s1 s2 : list nat) : Mat Qc :=
  indifference_matrix (length s1) (fun i j => mget (payoff_1_ g) (nth i s1 O) (nth j s2 O)).
Definition system_2 (s1 s2 : list nat) : Mat Qc :=
  indifference_matrix (length s1) (fun j i => mget (payoff_2_ g) (nth i s1 O) (nth j s2 O)).

Lemma equilibrium_found x y : nash g x y -> length (played x) = length (played y) ->
  is_Some (Linalg.solve (system_1 (played x) (played y)) (indifference_rhs (length (played x))) (pivot_tol tol_)) ->
  is_Some (Linalg.solve (system_2 (played x) (played y)) (indifference_rhs (length (played x))) (pivot_tol tol_)) ->
  try_support tol_ g (played x) (played y) = Some {| strategy_1 := x; strategy_2 := y |} /\
  check_best_response tol_ g {| strategy_1 := x; strategy_2 := y |} (played x) (played y) = true /\
  (played x, played y) ∈ all_supports m n.
Proof.
  intros HN Hlen Hsys1 Hsys2. destruct (nash_worth g m n Hg x y HN) as (W1 & W1' & W2 & W2').
  destruct HN as (Hx & Hy & _). destruct (actions_shaped g m n Hg) as [Em En]. rewrite Em, En in *.
  assert (0 < length (played x))%nat as Hpos.
  { destruct (decide (length (played x) = O)) as [E|]; [exfalso|lia]. destruct Hx as (Hl & Hnn & Hone).
    pose proof (played_sum m x (fun _ => 1) (conj Hl (conj Hnn Hone))) as Hs. rewrite E, sum_0 in Hs.
    rewrite (sum_ext m _ (vget x)) in Hs by (intros; ring). rewrite Hone in Hs. done. }
  split; [|split].
  - unfold try_support. rewrite Hlen, Nat.eqb_refl; cbn [negb]. rewrite <-Hlen.
    rewrite (weights_indifferent m n x y (fun a b => mget (payoff_1_ g) a b) (expected_payoff_1 g x y) Hx Hy Hlen); [| |done].
    2:{ intros i Hi Hp. rewrite <-(W1' i Hi Hp). unfold worth_1. by rewrite En. }
    unfold system_2 in Hsys2. rewrite Hlen in Hsys2 |- *.
    rewrite (weights_indifferent n m y x (fun b a => mget (payoff_2_ g) a b) (expected_payoff_2 g x y) Hy Hx (eq_sym Hlen)); [| |done].
    2:{ intros j Hj Hp. rewrite <-(W2' j Hj Hp). unfold worth_2. by rewrite Em. }
    by rewrite Em, En, (spread_weights m x _ Hx), (spread_weights n y _ Hy).
  - unfold check_best_response. cbn [strategy_1 strategy_2]. rewrite Em, En. apply andb_true_iff.
    split; apply no_better_spec; intros i Hi.
    + rewrite (matvec_worth_1 g m n Hg) by done.
      destruct (played_nth m x O (proj1 Hx) Hpos) as [Ha Hp].
      assert (nth O (played x) O ∈ played x) as Hin by by apply (played_elem m); [apply Hx|].
      pose proof (best_on_ge (Linalg.matvec (payoff_1_ g) y) (played x) _ Hin) as Hb.
      rewrite (matvec_worth_1 g m n Hg), W1' in Hb by done. specialize (W1 i Hi). clear - W1 Hb Heps. qc_lra.
    + rewrite (matvec_worth_2 g m n Hg) by done. rewrite Hlen in Hpos.
      destruct (played_nth n y O (proj1 Hy) Hpos) as [Ha Hp].
      assert (nth O (played y) O ∈ played y) as Hin by by apply (played_elem n); [apply Hy|].
      pose proof (best_on_ge (Linalg.matvec (Linalg.transpose (payoff_2_ g)) x) (played y) _ Hin) as Hb.
      rewrite (matvec_worth_2 g m n Hg), W2' in Hb by done. specialize (W2 i Hi). clear - W2 Hb Heps. qc_lra.
  - apply all_supports_elem. split; [apply played_sublist, Hx|]. split; [apply played_sublist, Hy|done].
Qed.

End game.

Lemma same_profile_near m n p q : same_profile tol_ m n p q = true ->
  (forall i, (i < m)%nat -> nabs (vget (strategy_1 p) i - vget (strategy_1 q) i) <= eps tol_) /\
  (forall j, (j < n)%nat -> nabs (vget (strategy_2 p) j - vget (strategy_2 q) j) <= eps tol_).
Proof.
  unfold same_profile, approx_eq. clear Hpivot Heps. intros [H1 H2]%andb_true_iff. rewrite forallb_forall in H1, H2.
  split; intros i Hi; [specialize (H1 i ltac:(apply in_seq; lia))|specialize (H2 i ltac:(apply in_seq; lia))]; exact_ops.
  - destruct (nltb_spec (nabs (vget (strategy_1 p) i - vget (strategy_1 q) i)) (eps tol_)); [by apply Qclt_le_weak|done].
  - destruct (nltb_spec (nabs (vget (strategy_2 p) i - vget (strategy_2 q) i)) (eps tol_)); [by apply Qclt_le_weak|done].
Qed.

End tolerances.

(** C16. In exact arithmetic [solve_all] ends, after one iteration for each
    pair of supports of the same size, and is sound up to its tolerance: what
    it reports are two strategies of weights that are not negative and add up
    to one, up to the tolerance per action, no played action of which is worse
    than another by more than the tolerance allows; with a tolerance of zero
    they are Nash equilibria with residual zero.  And it is complete for the
    equilibria that play as many actions on either side and whose two systems
    the solver accepts: each is reported up to the tolerance.  It reports
    that it converged unless it found nothing. *)
Theorem search_finds_equilibria tol_ g m n Mx : 0 < pivot_tol tol_ -> 0 <= eps tol_ -> game_shape g m n ->
  (Z.of_nat m < 2 ^ 64)%Z -> (Z.of_nat n < 2 ^ 64)%Z ->
  let K := of_size (min m n) in
  payoffs_within g m n Mx -> Mx * (1 + K * eps tol_) <= of_Z (10 ^ 300) ->
  exists r, solve_all tol_ g = Some r /\
  multi_status r = (match equilibria r with [] => Infeasible | _ => Converged end) /\
  total_iterations r = i32 (Z.of_nat (length (all_supports m n))) /\
  (forall eq, eq ∈ equilibria r ->
     let x := strategy_1 (profile eq) in let y := strategy_2 (profile eq) in
     near_distribution m (K * eps tol_) x /\ near_distribution n (K * eps tol_) y /\
     well_supported g (eps tol_ * (1 + (1 + 1) * K * Mx)) x y /\
     (eps tol_ = 0 -> nash g x y /\ residual eq = 0)) /\
  (forall x y, nash g x y ->
     let s1 := support x 0 in let s2 := support y 0 in
     length s1 = length s2 ->
     is_Some (Linalg.solve (system_1 g s1 s2) (indifference_rhs (length s1)) (pivot_tol tol_)) ->
     is_Some (Linalg.solve (system_2 g s1 s2) (indifference_rhs (length s1)) (pivot_tol tol_)) ->
     exists eq, eq ∈ equilibria r /\
       (forall i, (i < m)%nat -> nabs (vget (strategy_1 (profile eq)) i - vget x i) <= eps tol_) /\
       (forall j, (j < n)%nat -> nabs (vget (strategy_2 (profile eq)) j - vget y j) <= eps tol_)).
Proof.
  intros Hpivot Heps Hg Wm Wn K HMx Hbig. destruct (actions_shaped g m n Hg) as [Em En].
  destruct (search_visits_every_pair tol_ g ltac:(by rewrite Em) ltac:(by rewrite En)) as [(r & Hr & Heqs & Hst & Hit) _].
  exists r. split; [done|]. rewrite Heqs. split; [done|]. split; [by rewrite Hit, Em, En|]. split.
  - intros eq Heq x y. apply search_elem in Heq as (s1 & s2 & p & Hin & Htry & Hcheck & ->).
    rewrite Em, En in Hin. cbn [profile equilibrium_of] in x, y.
    destruct (pair_sound tol_ Hpivot Heps g m n Hg Mx s1 s2 p HMx Hbig Hin Htry Hcheck) as (Hx & Hy & Hw).
    split; [done|]. split; [done|]. split; [done|]. intros E0.
    rewrite E0, Qcmult_0_r in Hx, Hy. rewrite E0, Qcmult_0_l in Hw. clear E0.
    assert (forall k z, near_distribution k 0 z -> distribution k z) as Hnear.
    { intros k z (Hl & Hnn & H1 & H2). split; [done|]. split; [done|]. clear - H1 H2. qc_lra. }
    assert (nash g x y) as HN.
    { split; [rewrite Em; by apply Hnear|]. split; [rewrite En; by apply Hnear|].
      apply (well_supported_gains g m n Hg); [by apply Hnear..|done]. }
    split; [done|]. cbn [residual equilibrium_of].
    by apply (nash_residual_zero g m n Hg x y (Hnear _ _ Hx) (Hnear _ _ Hy)).
  - intros x y HN s1 s2 Hlen Hsys1 Hsys2.
    destruct (equilibrium_found tol_ Hpivot Heps g m n Hg x y HN Hlen Hsys1 Hsys2) as (Htry & Hcheck & Hin).
    destruct (search_hit tol_ g s1 s2 _ ltac:(by rewrite Em, En) Htry Hcheck) as (eq & Heq & Hsame).
    exists eq. split; [done|]. destruct Hsame as [->|Hsame].
    + cbn [strategy_1 strategy_2]. split; intros i Hi.
      * replace (vget x i - vget x i) with 0 by ring. done.
      * replace (vget y i - vget y i) with 0 by ring. done.
    + rewrite Em, En in Hsame. by apply same_profile_near in Hsame.
Qed.

(** The battle of the sexes: all three equilibria, in exact arithmetic and in
    that of the machine. *)
Example battle_exact :
  (fun eq => (this <$> strategy_1 (profile eq), this <$> strategy_2 (profile eq))) <$> equilibria (search kDefaultTol battle) =
  [([1; 0], [1; 0]); ([0; 1], [0; 1]); ([2 # 3; 1 # 3], [1 # 3; 2 # 3])]%Q.
Proof. by vm_compute. Qed.

Definition machine_battle : Game.BimatrixGame double := {|
  payoff_1_ := of_rows [[of_Z 2; of_Z 0]; [of_Z 0; of_Z 1]];
  payoff_2_ := of_rows [[of_Z 1; of_Z 0]; [of_Z 0; of_Z 2]] |}.

Example battle_machine :
  match solve_all kDefaultTol machine_battle with
  | Some r => multi_status r = Converged /\ total_iterations r = 5%Z /\
      (fun eq => strategy_1 (profile eq)) <$> equilibria r = [[of_Z 1; of_Z 0]; [of_Z 0; of_Z 1]; [ddiv (of_Z 2) (of_Z 3); ddiv (of_Z 1) (of_Z 3)]]
  | None => False
  end.
Proof. by vm_compute. Qed.

Lemma search_visits_every_pair_witness : exists r, solve_all kDefaultTol battle = Some r /\ total_iterations r = 5%Z.
Proof.
  destruct (search_visits_every_pair kDefaultTol battle eq_refl eq_refl) as [(r & Hr & _ & _ & Ht) _].
  exists r. split; [exact Hr|]. rewrite Ht. reflexivity.
Defined.

Lemma search_finds_equilibria_witness : exists r eq, solve_all kDefaultTol battle = Some r /\
    total_iterations r = 5%Z /\ eq ∈ equilibria r /\
    (forall i, (i < 2)%nat -> nabs (vget (strategy_1 (profile eq)) i - vget [q 2 3; q 1 3] i) <= lit 1 10).
Proof.
  destruct (search_finds_equilibria kDefaultTol battle 2 2 (q 2 1)) as (r & Hr & _ & Hit & _ & Hc).
  - by compute.
  - by compute.
  - exact battle_shape.
  - reflexivity.
  - reflexivity.
  - intros [|[|i]] [|[|j]] Hi Hj; try lia; repeat split; vm_compute; discriminate.
  - vm_compute. discriminate.
  - destruct (Hc [q 2 3; q 1 3] [q 1 3; q 2 3]) as (eq & Hin & H1 & _).
    + exact battle_mixed.
    + reflexivity.
    + vm_compute. by eexists.
    + vm_compute. by eexists.
    + exists r, eq. split; [exact Hr|]. split; [exact Hit|]. split; [exact Hin|exact H1].
Defined.

(** The header calls the method complete; it is not when an equilibrium plays
    different numbers of actions, or when the players are indifferent. *)
Definition indifferent_game : BimatrixGame := {|
  payoff_1_ := of_rows [[1; 1]]; payoff_2_ := of_rows [[1; 1]] |}.

Theorem equilibrium_missed : nash indifferent_game [1] [q 1 2; q 1 2] /\
  forall eq, eq ∈ equilibria (search kDefaultTol indifferent_game) ->
    nabs (vget (strategy_2 (profile eq)) 0 - q 1 2) = q 1 2.
Proof.
  split.
  - apply (nash_residual_zero indifferent_game 1 2).
    + split; [by repeat split|split; [by repeat split|lia]].
    + split; [done|split; [|by apply Qc_is_canon]]. intros [|i] Hi; [by compute|lia].
    + by apply two_actions; [| |apply Qc_is_canon].
    + by apply Qc_is_canon.
  - assert (forall eq, eq ∈ equilibria (search kDefaultTol indifferent_game) ->
      this (vget (strategy_2 (profile eq)) 0) = 0%Q \/ this (vget (strategy_2 (profile eq)) 0) = 1%Q) as G.
    { assert ((fun eq => this (vget (strategy_2 (profile eq)) 0)) <$> equilibria (search kDefaultTol indifferent_game) = [1; 0]%Q) as E
        by by vm_compute.
      intros eq Heq. apply (list_elem_of_fmap_2 (fun eq => this (vget (strategy_2 (profile eq)) 0))) in Heq.
      rewrite E in Heq. apply elem_of_cons in Heq as [Heq|Heq]; [right; exact Heq|left].
      apply list_elem_of_singleton in Heq. exact Heq. }
    intros eq Heq. apply G in Heq. clear G. revert Heq. generalize (vget (strategy_2 (profile eq)) 0).
    intros [z Hz] [E|E]; cbn in E; subst z; by apply Qc_is_canon.
Qed.

End exact.
End SupportEnumeration.
