(* ===== verification/LemkeHowson.v ===== *)
(** * The Lemke-Howson algorithm (nash/algorithms/lemke_howson.cpp)

    The tableau of a best-response polytope with its pivot, complementary
    pivoting between the two tableaux, and the equilibrium read off the last
    one.  In exact arithmetic, with the tolerance at zero, a tableau stays
    equivalent to its polytope, in canonical form and feasible; the bases stay
    complementary; no pivot fails; and a run that converges returns an
    equilibrium. *)

From S2P Require Import Prelude Double Numeric LinearAlgebra Game.
From Stdlib Require Import QArith Qcanon.

Open Scope nat_scope.

Module LemkeHowson.
Import Game.

(** ** Tableaux *)

Section tableau.
Context {T : Type} `{Num T}.

Local Abbreviation Vec := (list T).
Local Abbreviation Mat := (Mat T).

Record Tableau := { tab : Mat; num_rows : nat; num_vars : nat; basis : list nat }.

Definition init (constraint : Mat) (rhs : Vec) (initial_basis : list nat) : Tableau :=
  let r := rows constraint in
  let n := cols constraint in
  {| num_rows := r; num_vars := n; basis := initial_basis;
     tab := for_ 0 r (fun i M =>
       mset (for_ 0 n (fun j M => mset M i j (mget constraint i j)) M) i n (vget rhs i))
       (mat r (n + 1) 0%num) |}.

(** The minimum ratio test: the row and its ratio. *)
Definition select_row (t : Tableau) (enter_var : nat) (tol : T) : option nat * T :=
  for_ 0 (num_rows t) (fun i '(pivot_row, min_ratio) =>
    let coeff := mget (tab t) i enter_var in
    if (coeff >? tol)%num then
      let ratio := (mget (tab t) i (num_vars t) / coeff)%num in
      if (ratio <? min_ratio - tol)%num then (Some i, ratio) else (pivot_row, min_ratio)
    else (pivot_row, min_ratio)) (None, dbl_max).

Definition normalize_pivot (N r e : nat) (M : Mat) : Mat :=
  let pivot_elem := mget M r e in
  for_ 0 (N + 1) (fun j M => mset M r j (mget M r j / pivot_elem)%num) M.

Definition eliminate_others (R N r e : nat) (tol : T) (M : Mat) : Mat :=
  for_ 0 R (fun i M =>
    if i =? r then M
    else
      let factor := mget M i e in
      if (nabs factor >? tol)%num
      then for_ 0 (N + 1) (fun j M => mset M i j (mget M i j - factor * mget M r j)%num) M
      else M) M.

(** The variable that leaves and the tableau; [None] is [SIZE_MAX]. *)
Definition pivot (t : Tableau) (enter_var : nat) (tol : T) : option (nat * Tableau) :=
  match (select_row t enter_var tol).1 with
  | None => None
  | Some r =>
      Some (nth r (basis t) 0,
        {| tab := eliminate_others (num_rows t) (num_vars t) r enter_var tol
                    (normalize_pivot (num_vars t) r enter_var (tab t));
           num_rows := num_rows t; num_vars := num_vars t;
           basis := <[r := enter_var]> (basis t) |})
  end.

Definition get_value (t : Tableau) (var : nat) : T :=
  match list_find (fun i => nth i (basis t) 0 = var) (seq 0 (num_rows t)) with
  | Some (_, i) => mget (tab t) i (num_vars t)
  | None => 0%num
  end.

Definition get_zero_labels (t : Tableau) (m n : nat) (is_player1 : bool) (tol : T) : list bool :=
  let zero v := (get_value t v <? tol)%num in
  let mark (a b : nat) (label var : nat -> nat) l :=
    for_ a b (fun i l => if zero (var i) then <[label i := true]> l else l) l in
  let l := replicate (m + n) false in
  if is_player1 then mark 0 n (fun j => m + j) (fun j => m + j) (mark 0 m (fun i => i) (fun i => i) l)
  else mark 0 m (fun i => i) (fun i => n + i) (mark 0 n (fun j => m + j) (fun j => j) l).

(** ** Complementary pivoting *)

(** The constraints of a polytope, [entry x + slack = 1]: the code builds
    them for either player, with the payoffs transposed for the first. *)
Definition constraints (r c : nat) (entry : nat -> nat -> T) : Mat :=
  for_ 0 r (fun a M => mset (for_ 0 c (fun b M => mset M a b (entry a b)) M) a (c + a) 1%num)
    (mat r (c + r) 0%num).

Definition polytope (r c : nat) (entry : nat -> nat -> T) : Tableau :=
  init (constraints r c entry) (replicate r 1%num) ((fun a => c + a) <$> seq 0 r).

Record State := { tab1 : Tableau; tab2 : Tableau; pivot_in_1 : bool; enter_var : nat }.

Definition start (game : BimatrixGame T) (dropped : nat) : State :=
  let m := num_actions_1 game in
  let n := num_actions_2 game in
  {| tab1 := polytope n m (fun j i => mget (payoff_2_ game) i j);
     tab2 := polytope m n (fun i j => mget (payoff_1_ game) i j);
     pivot_in_1 := dropped <? m;
     enter_var := if dropped <? m then dropped else dropped - m |}.

(** One pivot in the designated tableau: the label that is now missing. *)
Definition pivot_step (m n : nat) (tol : T) (s : State) : option (nat * State) :=
  if pivot_in_1 s then
    match pivot (tab1 s) (enter_var s) tol with
    | None => None
    | Some (leave_var, t) =>
        Some (leave_var, {| tab1 := t; tab2 := tab2 s; pivot_in_1 := true; enter_var := enter_var s |})
    end
  else
    match pivot (tab2 s) (enter_var s) tol with
    | None => None
    | Some (leave_var, t) =>
        Some (if leave_var <? n then m + leave_var else leave_var - n,
          {| tab1 := tab1 s; tab2 := t; pivot_in_1 := false; enter_var := enter_var s |})
    end.

(** The duplicate label enters the other tableau. *)
Definition turn (m n new_label : nat) (s : State) : State :=
  if pivot_in_1 s then
    {| tab1 := tab1 s; tab2 := tab2 s; pivot_in_1 := false;
       enter_var := if new_label <? m then n + new_label else new_label - m |}
  else
    {| tab1 := tab1 s; tab2 := tab2 s; pivot_in_1 := true; enter_var := new_label |}.

Inductive outcome := Failed (iterations : Z) | Found (iterations : Z) (s : State) | Exhausted (iterations : Z).

(** The loop over the iterations, [iter] of which are done. *)
Fixpoint pivoting (m n dropped : nat) (tol : T) (todo : nat) (iter : Z) (s : State) : outcome :=
  match todo with
  | O => Exhausted iter
  | S todo =>
      match pivot_step m n tol s with
      | None => Failed (iter + 1)
      | Some (new_label, s) =>
          if new_label =? dropped then Found (iter + 1) s
          else pivoting m n dropped tol todo (iter + 1) (turn m n new_label s)
      end
  end.

(** ** Reading off the equilibrium *)

Definition raw_values (t : Tableau) (k : nat) : Vec := vec k (fun i => nmax 0%num (get_value t i)).

Definition total (k : nat) (raw : Vec) : T := for_ 0 k (fun i s => s + vget raw i)%num 0%num.

Definition normalized (tol : T) (k : nat) (raw : Vec) : Vec :=
  let sum := total k raw in
  if (sum >? tol)%num then vec k (fun i => vget raw i / sum)%num
  else vec k (fun _ => 1 / of_size k)%num.

Section solver.
Context (tol_ : Tolerances T).

Definition converged (game : BimatrixGame T) (iters : Z) (s : State) : EquilibriumResult T :=
  let x := normalized (eps tol_) (num_actions_1 game) (raw_values (tab1 s) (num_actions_1 game)) in
  let y := normalized (eps tol_) (num_actions_2 game) (raw_values (tab2 s) (num_actions_2 game)) in
  {| profile := {| strategy_1 := x; strategy_2 := y |};
     residual := nash_residual game x y; iterations := iters; status := Converged;
     payoff_1 := expected_payoff_1 game x y; payoff_2 := expected_payoff_2 game x y |}.

Definition ended (st : SolverStatus) (iters : Z) : EquilibriumResult T :=
  {| profile := profile not_run; residual := 0%num; iterations := iters; status := st;
     payoff_1 := 0%num; payoff_2 := 0%num |}.

Definition run_pivoting (game_orig : BimatrixGame T) (label : nat) : EquilibriumResult T :=
  let game := (make_positive game_orig).1 in
  match pivoting (num_actions_1 game) (num_actions_2 game) label (eps tol_)
          (Z.to_nat (max_iter tol_)) 0 (start game label) with
  | Failed iters => ended NumericalFailure iters
  | Exhausted iters => ended MaxIterations iters
  | Found iters s => converged game_orig iters s
  end.

(** [static_cast<int>(m + n)] keeps the low bits. *)
Definition solve (drop_label : Z) (game : BimatrixGame T) : EquilibriumResult T :=
  let lbl := if (drop_label <? 0)%Z then 0%Z else drop_label in
  let total := i32 (Z.of_nat (num_actions_1 game + num_actions_2 game)) in
  let lbl := if (lbl >=? total)%Z then 0%Z else lbl in
  run_pivoting game (Z.to_nat lbl).

Definition same_result (a b : EquilibriumResult T) : bool :=
  let p := profile a in
  let q := profile b in
  forallb (fun i => approx_eq (vget (strategy_1 p) i) (vget (strategy_1 q) i) (eps tol_)) (seq 0 (length (strategy_1 p))) &&
  forallb (fun j => approx_eq (vget (strategy_2 p) j) (vget (strategy_2 q) j) (eps tol_)) (seq 0 (length (strategy_2 p))).

Definition try_label (game : BimatrixGame T) (lbl : nat) (result : MultiEquilibriumResult T) : MultiEquilibriumResult T :=
  let eq := run_pivoting game lbl in
  {| total_iterations := i32 (total_iterations result + iterations eq);
     multi_status := multi_status result;
     equilibria :=
       if bool_decide (status eq = Converged) && negb (existsb (same_result eq) (equilibria result))
       then equilibria result ++ [eq] else equilibria result |}.

Definition solve_multiple (game : BimatrixGame T) : MultiEquilibriumResult T :=
  let result := for_ 0 (num_actions_1 game + num_actions_2 game) (try_label game)
    {| equilibria := []; multi_status := NotRun; total_iterations := 0 |} in
  {| equilibria := equilibria result; total_iterations := total_iterations result;
     multi_status := match equilibria result with [] => NumericalFailure | _ => Converged end |}.

End solver.
End tableau.

Arguments Tableau : clear implicits.
Arguments State : clear implicits.
Arguments outcome : clear implicits.

(** ** Exact arithmetic *)

Section exact.
Local Open Scope Qc_scope.
Local Abbreviation Mat := (Mat Qc).
Local Abbreviation Tableau := (Tableau Qc).

(** *** The pivot *)

Definition coeff (t : Tableau) (i j : nat) : Qc := mget (tab t) i j.
Definition rhs (t : Tableau) (i : nat) : Qc := mget (tab t) i (num_vars t).

Lemma select_row_spec t e :
  let R := num_rows t in
  match select_row t e 0 with
  | (Some r, _) => (r < R)%nat /\ 0 < coeff t r e /\
      (forall i, (i < R)%nat -> 0 < coeff t i e -> rhs t r / coeff t r e <= rhs t i / coeff t i e)
  | (None, _) => forall i, (i < R)%nat -> 0 < coeff t i e -> dbl_max <= rhs t i / coeff t i e
  end.
Proof.
  intros R. unfold select_row. fold R.
  pose (P b (p : option nat * Qc) := (b <= R)%nat ->
    (forall i, (i < b)%nat -> 0 < coeff t i e -> p.2 <= rhs t i / coeff t i e) /\
    match p.1 with
    | Some r => (r < R)%nat /\ 0 < coeff t r e /\ p.2 = rhs t r / coeff t r e
    | None => p.2 = dbl_max
    end).
  set (l := for_ 0 R _ _). enough (P R l) as G.
  { destruct G as [G1 G2]; [done|]. destruct l as [[r|] v]; cbn [fst snd] in *.
    - destruct G2 as (Hr & Hc & ->). done.
    - by subst v. }
  unfold l. apply for_inv; unfold P; [lia| |].
  - intros _. split; [lia|done].
  - intros i [o v] Hi IH Hle; cbn [fst snd] in *. destruct IH as [H1 H2]; [lia|].
    fold (coeff t i e) (rhs t i). exact_ops. replace (v - 0) with v by ring.
    destruct (nltb_spec 0 (coeff t i e)) as [Hc|Hc].
    + destruct (nltb_spec (rhs t i / coeff t i e) v) as [Hv|Hv]; cbn [fst snd].
      * split; [|split; [lia|done]]. intros i' Hi' Hc'. destruct (decide (i' = i)) as [->|]; [apply Qcle_refl|].
        specialize (H1 i' ltac:(lia) Hc'). clear - Hv H1. qc_lra.
      * split; [|done]. intros i' Hi' Hc'. destruct (decide (i' = i)) as [->|]; [clear - Hv; qc_lra|].
        apply H1; [lia|done].
    + cbn [fst snd]. split; [|done]. intros i' Hi' Hc'. destruct (decide (i' = i)) as [->|]; [done|].
      apply H1; [lia|done].
Qed.

Lemma normalize_spec R N r e M : shape M R (N + 1) -> (r < R)%nat ->
  shape (normalize_pivot N r e M) R (N + 1) /\
  forall i j, (j < N + 1)%nat -> mget (normalize_pivot N r e M) i j =
    if decide (i = r) then mget M r j / mget M r e else mget M i j.
Proof.
  intros HM Hr. destruct (row_loop R (N + 1) r 0 (N + 1) (fun j M' => mget M' r j / mget M r e) M (normalize_pivot N r e M) HM Hr)
    as [Hs E]; [lia| |reflexivity|].
  - intros j M' Hj HM' E. by rewrite E by lia.
  - split; [exact Hs|]. intros i j Hj. rewrite E by done. repeat case_decide; done || lia.
Qed.

Lemma eliminate_spec R N r e M : shape M R (N + 1) -> (r < R)%nat -> (e < N + 1)%nat ->
  shape (eliminate_others R N r e 0 M) R (N + 1) /\
  forall i j, (i < R)%nat -> (j < N + 1)%nat -> mget (eliminate_others R N r e 0 M) i j =
    if decide (i = r) then mget M r j else mget M i j - mget M i e * mget M r j.
Proof.
  intros HM Hr He.
  pose (P b M' := (b <= R)%nat -> shape M' R (N + 1) /\ forall i j, (j < N + 1)%nat -> mget M' i j =
    if decide (i < b /\ i <> r)%nat then mget M i j - mget M i e * mget M r j else mget M i j).
  enough (P R (eliminate_others R N r e 0 M)) as G.
  { destruct G as [Hs G]; [done|]. split; [done|]. intros i j Hi Hj. rewrite G by done.
    destruct (decide (i = r)) as [->|]; [by rewrite decide_False by lia|by rewrite decide_True by lia]. }
  unfold eliminate_others. apply for_inv; unfold P; [lia| |].
  - intros _. split; [done|]. intros. by rewrite decide_False by lia.
  - intros i M' Hi IH Hle. destruct IH as [Hs IH]; [lia|].
    destruct (Nat.eqb_spec i r) as [->|Hir].
    { split; [done|]. intros i' j Hj. rewrite IH by done. repeat case_decide; done || lia. }
    assert (forall j, (j < N + 1)%nat -> mget M' i j = mget M i j) as Ei by (intros; rewrite IH by done; by rewrite decide_False by lia).
    assert (forall j, (j < N + 1)%nat -> mget M' r j = mget M r j) as Er by (intros; rewrite IH by done; by rewrite decide_False by lia).
    rewrite (Ei e) by done. exact_ops. destruct (nltb_spec 0 (nabs (mget M i e))) as [Hf|Hf].
    + destruct (row_loop R (N + 1) i 0 (N + 1) (fun j M1 => mget M1 i j - mget M i e * mget M1 r j) M'
        (for_ 0 (N + 1) (fun j M1 => mset M1 i j (mget M1 i j - mget M i e * mget M1 r j)) M') Hs)
        as [Hs' E]; [lia|lia| |reflexivity|].
      { intros j M1 Hj HM1 E. by rewrite !E by lia. }
      split; [exact Hs'|]. intros i' j Hj. rewrite E by done.
      destruct (decide (i' = i)) as [->|].
      * rewrite !decide_True by lia. by rewrite Ei, Er.
      * rewrite decide_False by lia. rewrite IH by done. repeat case_decide; done || lia.
    + split; [done|]. intros i' j Hj. rewrite IH by done.
      assert (mget M i e = 0) as E0.
      { clear - Hf. destruct (nabs_cases (mget M i e)) as [[E ?]|[E ?]]; rewrite E in Hf; apply Qcle_antisym; qc_lra. }
      repeat case_decide; try lia; try done. replace i' with i by lia. rewrite E0. ring.
Qed.

(** A tableau in canonical form at a feasible vertex: the columns of the basis
    are unit vectors and the right-hand side is not negative. *)
Record canonical (R N : nat) (t : Tableau) : Prop := {
  can_shape : shape (tab t) R (N + 1);
  can_rows : num_rows t = R;
  can_vars : num_vars t = N;
  can_length : length (basis t) = R;
  can_range : forall i, (i < R)%nat -> (nth i (basis t) O < N)%nat;
  can_unit : forall i i', (i < R)%nat -> (i' < R)%nat ->
    coeff t i' (nth i (basis t) O) = if decide (i' = i) then 1 else 0;
  can_feasible : forall i, (i < R)%nat -> 0 <= rhs t i;
}.

(** The assignments of the variables that satisfy the rows. *)
Definition solves (t : Tableau) (w : nat -> Qc) : Prop :=
  forall i, (i < num_rows t)%nat -> sum (num_vars t) (fun j => coeff t i j * w j) = rhs t i.

Lemma ratio_nonneg (a c : Qc) : 0 <= a -> 0 < c -> 0 <= a / c.
Proof.
  intros Ha Hc. assert (a = (a / c) * c) as E by (field; intros E0; rewrite E0 in Hc; done).
  generalize dependent (a / c). intros q E. destruct (Qclt_le_dec q 0) as [Hq|]; [exfalso|done].
  rewrite E in Ha. clear E. qc_nra.
Qed.

Lemma ratio_bound (a c q : Qc) : 0 < c -> q <= a / c -> 0 <= a - c * q.
Proof.
  intros Hc Hq. assert (a = (a / c) * c) as E by (field; intros E0; rewrite E0 in Hc; done).
  rewrite E. generalize dependent (a / c). intros b Hq _. assert (0 <= (b - q) * c) by (clear - Hc Hq; qc_nra).
  replace (b * c - c * q) with ((b - q) * c) by ring. done.
Qed.

Section pivots.
Context (R N : nat) (t : Tableau) (Ht : canonical R N t) (e : nat) (He : (e < N)%nat).

Lemma pivot_entries lv t' : pivot t e 0 = Some (lv, t') -> exists r, (r < R)%nat /\ 0 < coeff t r e /\
  (forall i, (i < R)%nat -> 0 < coeff t i e -> rhs t r / coeff t r e <= rhs t i / coeff t i e) /\
  lv = nth r (basis t) O /\ basis t' = <[r := e]> (basis t) /\ num_rows t' = R /\ num_vars t' = N /\
  shape (tab t') R (N + 1) /\
  forall i j, (i < R)%nat -> (j < N + 1)%nat -> coeff t' i j =
    if decide (i = r) then coeff t r j / coeff t r e else coeff t i j - coeff t i e * (coeff t r j / coeff t r e).
Proof.
  destruct Ht as [Hs Hr Hv Hl _ _ _]. unfold pivot. pose proof (select_row_spec t e) as Hsel. cbn zeta in Hsel.
  destruct (select_row t e 0) as [[r|] v]; cbn [fst]; [|done]. intros [= <- <-].
  destruct Hsel as (Hlt & Hc & Hmin). rewrite Hr in Hlt, Hmin. rewrite Hr, Hv.
  exists r. do 4 (split; [done|]). cbn [basis num_rows num_vars tab]. do 3 (split; [done|]).
  destruct (normalize_spec R N r e (tab t) Hs Hlt) as [Hs1 E1].
  destruct (eliminate_spec R N r e (normalize_pivot N r e (tab t)) Hs1 Hlt) as [Hs2 E2]; [lia|].
  split; [exact Hs2|]. intros i j Hi Hj. unfold coeff; cbn [tab]. rewrite E2, !E1 by lia.
  rewrite (decide_True (P := r = r)) by done. destruct (decide (i = r)) as [->|]; [done|]. done.
Qed.

Lemma pivot_canonical lv t' : pivot t e 0 = Some (lv, t') ->
  canonical R N t' /\ (forall w, solves t' w -> solves t w).
Proof.
  intros Hp. destruct (pivot_entries lv t' Hp) as (r & Hr & Hc & Hmin & _ & Hb & Hrows & Hvars & Hs & E).
  pose proof Ht as [_ Hr0 Hv0 Hl Hrange Hunit Hfeas].
  assert (coeff t r e <> 0) as Hne by (intros E0; rewrite E0 in Hc; done).
  assert (forall i, (i < R)%nat -> rhs t' i = if decide (i = r) then rhs t r / coeff t r e
    else rhs t i - coeff t i e * (rhs t r / coeff t r e)) as Erhs.
  { intros i Hi. unfold rhs. rewrite Hvars, Hv0. fold (coeff t' i N) (coeff t r N) (coeff t i N). apply E; lia. }
  split.
  - constructor; try done.
    + by rewrite Hb, length_insert.
    + intros i Hi. rewrite Hb, nth_lookup. destruct (decide (r = i)) as [<-|].
      * by rewrite list_lookup_insert_eq by lia.
      * rewrite list_lookup_insert_ne, <-nth_lookup by done. by apply Hrange.
    + intros i i' Hi Hi'. rewrite Hb, nth_lookup. destruct (decide (r = i)) as [<-|Hri].
      * rewrite list_lookup_insert_eq by lia. cbn. rewrite E by lia.
        destruct (decide (i' = r)) as [->|]; field; done.
      * rewrite list_lookup_insert_ne, <-nth_lookup by done. rewrite E by (done || (pose proof (Hrange i Hi); lia)).
        rewrite !Hunit by done. rewrite (decide_False (P := r = i)) by done.
        destruct (decide (i' = r)) as [->|]; [rewrite decide_False by congruence|]; field; done.
    + intros i Hi. rewrite Erhs by done.
      pose proof (ratio_nonneg _ _ (Hfeas r Hr) Hc) as Hq.
      destruct (decide (i = r)); [done|]. pose proof (Hfeas i Hi) as Hf.
      destruct (Qclt_le_dec 0 (coeff t i e)) as [Hp0|Hp0].
      * apply ratio_bound; [done|]. by apply Hmin.
      * assert (0 <= - coeff t i e * (rhs t r / coeff t r e)).
        { generalize dependent (rhs t r / coeff t r e). intros q _ _ Hq. clear - Hq Hp0. qc_nra. }
        replace (rhs t i - coeff t i e * (rhs t r / coeff t r e)) with
          (rhs t i + - coeff t i e * (rhs t r / coeff t r e)) by ring.
        clear - H Hf. qc_lra.
  - intros w Hw i Hi. rewrite Hr0 in Hi. rewrite Hv0.
    assert (forall i, (i < R)%nat -> sum N (fun j => coeff t' i j * w j) = rhs t' i) as Hw'.
    { intros i' Hi'. specialize (Hw i'). rewrite Hrows, Hvars in Hw. by apply Hw. }
    assert (sum N (fun j => coeff t r j * w j) = rhs t r) as Hrow.
    { rewrite (sum_ext N _ (fun j => coeff t r e * (coeff t' r j * w j))).
      - rewrite sum_mul_l, Hw', Erhs, decide_True by done. field. done.
      - intros j Hj. rewrite E, decide_True by lia. field. done. }
    destruct (decide (i = r)) as [->|Hir]; [done|].
    rewrite (sum_ext N _ (fun j => coeff t' i j * w j + coeff t i e / coeff t r e * (coeff t r j * w j))).
    + rewrite sum_add, sum_mul_l, Hw', Erhs, decide_False, Hrow by done. field. done.
    + intros j Hj. rewrite E, decide_False by lia. field. done.
Qed.

(** *** Solutions of a tableau in canonical form *)

Lemma basis_inj i i' : (i < R)%nat -> (i' < R)%nat -> nth i (basis t) O = nth i' (basis t) O -> i = i'.
Proof.
  intros Hi Hi' E. pose proof (can_unit _ _ _ Ht i i Hi Hi) as H1.
  rewrite E, (can_unit _ _ _ Ht i' i Hi' Hi), (decide_True (P := i = i)) in H1 by done.
  destruct (decide (i = i')); [done|discriminate].
Qed.

(** The assignment when the entering variable has the value [theta]. *)
Definition point (theta : Qc) (j : nat) : Qc :=
  sum R (fun i => if decide (nth i (basis t) O = j) then rhs t i - theta * coeff t i e else 0) +
  (if decide (j = e) then theta else 0).

Lemma point_solves theta : solves t (point theta).
Proof.
  intros i Hi. rewrite (can_rows _ _ _ Ht) in Hi. rewrite (can_vars _ _ _ Ht). unfold point.
  rewrite (sum_ext N _ (fun j => sum R (fun i' => if decide (nth i' (basis t) O = j)
      then coeff t i j * (rhs t i' - theta * coeff t i' e) else 0) + (if decide (j = e) then coeff t i e * theta else 0))).
  2:{ intros j Hj. rewrite Qcmult_plus_distr_r, <-sum_mul_l. f_equal.
      - apply sum_ext. intros. case_decide; ring.
      - destruct (decide (j = e)) as [->|]; ring. }
  rewrite sum_add, sum_swap, (sum_single N _ e), decide_True by (done || (intros; by rewrite decide_False)).
  rewrite (sum_ext R _ (fun i' => if decide (i = i') then rhs t i' - theta * coeff t i' e else 0)).
  - rewrite (sum_single R _ i), decide_True by (done || (intros; by rewrite decide_False)). ring.
  - intros i' Hi'. pose proof (can_range _ _ _ Ht i' Hi') as Hb.
    rewrite (sum_single N _ (nth i' (basis t) O)), decide_True by (done || (intros; by rewrite decide_False)).
    rewrite (can_unit _ _ _ Ht i' i Hi' Hi). case_decide; ring.
Qed.

Lemma point_nonneg theta : 0 <= theta -> (forall i, (i < R)%nat -> 0 <= rhs t i - theta * coeff t i e) ->
  (forall j, 0 <= point theta j) /\ theta <= point theta e.
Proof.
  intros Hth Hr.
  assert (forall j, 0 <= sum R (fun i => if decide (nth i (basis t) O = j) then rhs t i - theta * coeff t i e else 0)) as Hs.
  { intros j. apply sum_nonneg. intros i Hi. case_decide; [by apply Hr|done]. }
  split.
  - intros j. unfold point. specialize (Hs j). case_decide; qc_lra.
  - unfold point. rewrite decide_True by done. specialize (Hs e). qc_lra.
Qed.

Lemma get_value_point j : get_value t j = point 0 j.
Proof.
  unfold get_value, point. rewrite (can_rows _ _ _ Ht).
  assert ((if decide (j = e) then 0 else 0) = (0 : Qc)) as -> by by case_decide. rewrite Qcplus_0_r.
  destruct (list_find _ _) as [[l i]|] eqn:Hf.
  - apply list_find_Some in Hf as (Hl & Hi & _). apply lookup_seq in Hl as [-> Hl]. rewrite Nat.add_0_l in *.
    rewrite (sum_single R _ l), decide_True by (done || (intros i' Hi' Hne; rewrite decide_False by
      (intros E; apply Hne, basis_inj; congruence); done)). unfold rhs. ring.
  - apply list_find_None in Hf. rewrite sum_zero; [done|]. intros i Hi. rewrite decide_False; [done|].
    intros E. rewrite Forall_forall in Hf. apply (Hf i); [apply elem_of_seq; lia|done].
Qed.

(** The values read off a tableau. *)
Lemma values_spec : solves t (get_value t) /\ (forall j, 0 <= get_value t j) /\
  forall j, get_value t j <> 0 -> j ∈ basis t.
Proof.
  split; [|split].
  - intros i Hi. rewrite <-(point_solves 0 i Hi). apply sum_ext. intros. by rewrite get_value_point.
  - intros j. rewrite get_value_point. apply point_nonneg; [done|]. intros i Hi.
    pose proof (can_feasible _ _ _ Ht i Hi). replace (rhs t i - 0 * coeff t i e) with (rhs t i) by ring. done.
  - intros j. unfold get_value. rewrite (can_rows _ _ _ Ht). destruct (list_find _ _) as [[l i]|] eqn:Hf; [|done].
    apply list_find_Some in Hf as (Hl & Hi & _). apply lookup_seq in Hl as [-> Hl]. rewrite Nat.add_0_l in *. intros _.
    rewrite nth_lookup in Hi. destruct (lookup_lt_is_Some_2 (basis t) l) as [b Hb]; [by rewrite (can_length _ _ _ Ht)|].
    rewrite Hb in Hi. cbn in Hi. subst b. by eapply list_elem_of_lookup_2.
Qed.

(** When no row is selected the entering variable can be as large as the
    largest [double]. *)
Lemma pivot_fails : pivot t e 0 = None -> exists w, solves t w /\ (forall j, 0 <= w j) /\ dbl_max <= w e.
Proof.
  unfold pivot. pose proof (select_row_spec t e) as Hsel. cbn zeta in Hsel.
  destruct (select_row t e 0) as [[r|] v]; cbn [fst]; [done|]. intros _. rewrite (can_rows _ _ _ Ht) in Hsel.
  exists (point dbl_max). split; [apply point_solves|]. apply point_nonneg.
  - apply (exact_of_Z_le 0). by vm_compute.
  - intros i Hi. rewrite Qcmult_comm. pose proof (can_feasible _ _ _ Ht i Hi) as Hf.
    destruct (Qclt_le_dec 0 (coeff t i e)) as [Hc|Hc]; [by apply ratio_bound; [|apply Hsel]|].
    assert (0 <= dbl_max) as Hd by (apply (exact_of_Z_le 0); by vm_compute).
    generalize dependent (dbl_max (T := Qc)). intros d _ Hd. clear - Hc Hd Hf. qc_nra.
Qed.

End pivots.

(** *** The initial tableau *)

Section initial.
Context (r c : nat) (entry : nat -> nat -> Qc).

Lemma polytope_entries : let t := polytope r c entry in
  shape (tab t) r (c + r + 1) /\
  forall i j, (i < r)%nat -> (j < c + r + 1)%nat -> coeff t i j =
    if decide (j < c)%nat then entry i j else if decide (j = c + i)%nat then 1
    else if decide (j = c + r)%nat then 1 else 0.
Proof.
  intros t. unfold t, polytope, init, coeff, constraints; cbn [tab].
  destruct (fill_bordered r (c + r) r c entry (fun a => c + a)%nat (fun _ => of_Z 1) (mat r (c + r) 0)) as [Hs1 E1];
    [apply shape_mat|lia..|]. exact_ops.
  set (C := for_ 0 r _ (mat r (c + r) 0)) in *. rewrite (proj1 Hs1), (proj1 (proj2 Hs1)).
  destruct (fill_bordered r (c + r + 1) r (c + r) (mget C) (fun _ => c + r)%nat (fun i => vget (replicate r 1) i)
    (mat r (c + r + 1) 0)) as [Hs2 E2]; [apply shape_mat|lia..|].
  split; [exact Hs2|]. intros i j Hi Hj. rewrite E2, decide_True by done.
  destruct (decide (j < c + r)%nat) as [Hjn|Hjn].
  - rewrite E1, decide_True by lia. repeat case_decide; try lia; try done. by rewrite mget_mat by lia.
  - rewrite decide_True by lia. unfold vget. rewrite nth_lookup, lookup_replicate_2 by done.
    repeat case_decide; done || lia.
Qed.

Lemma polytope_basis i : (i < r)%nat -> nth i (basis (polytope r c entry)) O = (c + i)%nat.
Proof.
  intros Hi. unfold polytope, init; cbn [basis]. rewrite nth_lookup, list_lookup_fmap, lookup_seq_lt by done. done.
Qed.

Lemma polytope_counts : num_rows (polytope r c entry) = r /\ num_vars (polytope r c entry) = (c + r)%nat.
Proof.
  unfold polytope, init; cbn. unfold constraints.
  destruct (fill_bordered r (c + r) r c entry (fun a => c + a)%nat (fun _ => of_Z 1) (mat r (c + r) 0)) as [Hs1 _];
    [apply shape_mat|lia..|]. split; apply Hs1.
Qed.

Lemma polytope_canonical : canonical r (c + r) (polytope r c entry).
Proof.
  destruct polytope_entries as [Hs E]. destruct polytope_counts as [Hr Hn]. constructor; try done.
  - unfold polytope, init; cbn. by rewrite length_fmap, length_seq.
  - intros i Hi. rewrite polytope_basis by done. lia.
  - intros i i' Hi Hi'. rewrite polytope_basis, E by lia. repeat case_decide; done || lia.
  - intros i Hi. unfold rhs. rewrite Hn. fold (coeff (polytope r c entry) i (c + r)). rewrite E by lia.
    repeat case_decide; try lia; done.
Qed.

(** Its solutions are the points of the polytope with their slacks. *)
Lemma polytope_solves w : solves (polytope r c entry) w ->
  forall a, (a < r)%nat -> sum c (fun b => entry a b * w b) + w (c + a)%nat = 1.
Proof.
  destruct polytope_entries as [_ E]. destruct polytope_counts as [Hr Hn]. intros Hw a Ha.
  specialize (Hw a). rewrite Hr in Hw. specialize (Hw Ha). unfold rhs in Hw. rewrite Hn in Hw.
  fold (coeff (polytope r c entry) a (c + r)) in Hw. rewrite E in Hw by lia.
  rewrite !decide_False, decide_True in Hw by lia. rewrite <-Hw, sum_app. f_equal.
  - apply sum_ext. intros b Hb. by rewrite E, decide_True by lia.
  - rewrite (sum_single r _ a); [|done|].
    + rewrite E, decide_False, decide_True by lia. ring.
    + intros i Hi Hne. rewrite E by lia. repeat case_decide; try lia. ring.
Qed.

End initial.

(** *** Complementary bases *)

Lemma pivot_basis R N t e lv t' : canonical R N t -> (e < N)%nat -> e ∉ basis t -> pivot t e 0 = Some (lv, t') ->
  lv ∈ basis t /\ (lv < N)%nat /\ lv ∉ basis t' /\ forall v, v ∈ basis t' -> v = e \/ v ∈ basis t.
Proof.
  intros Ht He Hne Hp. destruct (pivot_entries R N t Ht e He lv t' Hp) as (r & Hr & _ & _ & -> & Hb & _).
  pose proof (can_length _ _ _ Ht) as Hl.
  destruct (lookup_lt_is_Some_2 (basis t) r ltac:(lia)) as [b Hbr].
  assert (nth r (basis t) O = b) as E by (by rewrite nth_lookup, Hbr).
  split; [rewrite E; by eapply list_elem_of_lookup_2|]. split; [by apply (can_range _ _ _ Ht)|]. rewrite Hb. split.
  - intros Hin. apply list_elem_of_lookup in Hin as [i Hi]. apply insert_lookup_cases in Hi as [[-> Hi]|[Hir Hi]].
    + apply Hne. rewrite <-Hi, E. by eapply list_elem_of_lookup_2.
    + apply Hir. pose proof (lookup_lt_Some _ _ _ Hi). apply (basis_inj R N t Ht); [lia..|]. by rewrite nth_lookup, Hi.
  - intros v Hin. apply list_elem_of_lookup in Hin as [i Hi]. apply insert_lookup_cases in Hi as [[-> Hi]|[Hir Hi]]; [by left|].
    right. by eapply list_elem_of_lookup_2.
Qed.

(** The variable of the second tableau with a label, and back. *)
Definition var2 (m n l : nat) : nat := if l <? m then n + l else l - m.
Definition lab2 (m n v : nat) : nat := if v <? n then m + v else v - n.

Lemma var2_lab2 m n v : (v < n + m)%nat -> var2 m n (lab2 m n v) = v /\ (lab2 m n v < m + n)%nat.
Proof.
  intros Hv. unfold var2, lab2. destruct (Nat.ltb_spec v n).
  - destruct (Nat.ltb_spec (m + v) m); lia.
  - destruct (Nat.ltb_spec (v - n) m); lia.
Qed.

Lemma lab2_var2 m n l : (l < m + n)%nat -> lab2 m n (var2 m n l) = l /\ (var2 m n l < n + m)%nat.
Proof.
  intros Hv. unfold var2, lab2. destruct (Nat.ltb_spec l m).
  - destruct (Nat.ltb_spec (n + l) n); lia.
  - destruct (Nat.ltb_spec (l - m) n); lia.
Qed.

Section walk.
Context (g : BimatrixGame Qc) (m n d : nat) (Hg : game_shape g m n).

Local Abbreviation P1 := (polytope n m (fun j i => mget (payoff_2_ g) i j)).
Local Abbreviation P2 := (polytope m n (fun i j => mget (payoff_1_ g) i j)).

(** Both tableaux are feasible vertices of their polytopes. *)
Record vertices (s : State Qc) : Prop := {
  v_can1 : canonical n (m + n) (tab1 s);
  v_can2 : canonical m (n + m) (tab2 s);
  v_sol1 : forall w, solves (tab1 s) w -> solves P1 w;
  v_sol2 : forall w, solves (tab2 s) w -> solves P2 w;
}.

(** Label [l] is basic in both tableaux. *)
Definition both (s : State Qc) (l : nat) : Prop := l ∈ basis (tab1 s) /\ var2 m n l ∈ basis (tab2 s).

(** No label but the dropped one is basic in both, and the entering
    variable's is basic in neither. *)
Record walking (s : State Qc) : Prop := {
  w_vertices : vertices s;
  w_enter : (enter_var s < m + n)%nat;
  w_complementary : forall l, (l < m + n)%nat -> l <> d -> ~ both s l;
  w_entering : if pivot_in_1 s
    then enter_var s ∉ basis (tab1 s) /\ (enter_var s = d \/ var2 m n (enter_var s) ∉ basis (tab2 s))
    else enter_var s ∉ basis (tab2 s) /\ (lab2 m n (enter_var s) = d \/ lab2 m n (enter_var s) ∉ basis (tab1 s));
}.

Lemma start_walking : (d < m + n)%nat -> walking (start g d).
Proof.
  intros Hd. destruct (actions_shaped g m n Hg) as [Em En].
  assert (forall v, v ∈ basis P1 -> (m <= v)%nat) as H1.
  { intros v. unfold polytope, init; cbn. intros (a & -> & Ha)%list_elem_of_fmap. lia. }
  assert (forall v, v ∈ basis P2 -> (n <= v)%nat) as H2.
  { intros v. unfold polytope, init; cbn. intros (a & -> & Ha)%list_elem_of_fmap. lia. }
  unfold start. rewrite Em, En. constructor; cbn [tab1 tab2 pivot_in_1 enter_var].
  - constructor; cbn [tab1 tab2]; [apply polytope_canonical..|done|done].
  - destruct (Nat.ltb_spec d m); lia.
  - intros l Hl _ [Hb1 Hb2]. cbn [tab1 tab2] in *. apply H1 in Hb1. apply H2 in Hb2. unfold var2 in Hb2.
    destruct (Nat.ltb_spec l m); lia.
  - destruct (Nat.ltb_spec d m).
    + split; [intros Hin%H1; lia|by left].
    + split; [intros Hin%H2; lia|left]. unfold lab2. destruct (Nat.ltb_spec (d - m) n); lia.
Qed.

(** After a pivot: the label that left is basic in at most the other tableau,
    and there only when it is the dropped one. *)
Lemma pivot_step_walking s nl s' : walking s -> pivot_step m n 0 s = Some (nl, s') ->
  vertices s' /\ (nl < m + n)%nat /\ pivot_in_1 s' = pivot_in_1 s /\
  (forall l, (l < m + n)%nat -> l <> d -> ~ both s' l) /\
  (if pivot_in_1 s then nl ∉ basis (tab1 s') /\ (nl <> d -> var2 m n nl ∉ basis (tab2 s'))
   else var2 m n nl ∉ basis (tab2 s') /\ (nl <> d -> nl ∉ basis (tab1 s'))).
Proof.
  intros [[C1 C2 S1 S2] He Hc Hent] Hstep. unfold pivot_step in Hstep. destruct s as [t1 t2 [] e]; cbn [tab1 tab2 pivot_in_1 enter_var] in *.
  - destruct (pivot t1 e 0) as [[lv t']|] eqn:Hp; [|done]. injection Hstep as <- <-.
    destruct Hent as [Hne Hlab]. destruct (pivot_canonical n (m + n) t1 C1 e He lv t' Hp) as [C1' Sol].
    destruct (pivot_basis n (m + n) t1 e lv t' C1 He Hne Hp) as (Hin & Hlt & Hout & Hb).
    split; [constructor; cbn [tab1 tab2]; auto|]. cbn [tab1 tab2 pivot_in_1]. split; [done|]. split; [done|]. split.
    + intros l Hl Hld [[->|Hl1]%Hb Hl2]; [destruct Hlab; done|]. by apply (Hc l Hl Hld).
    + split; [done|]. intros Hnd Hl2. by apply (Hc lv Hlt Hnd).
  - destruct (pivot t2 e 0) as [[lv t']|] eqn:Hp; [|done]. injection Hstep as <- <-.
    change (if lv <? n then (m + lv)%nat else (lv - n)%nat) with (lab2 m n lv).
    assert (e < n + m)%nat as He' by lia.
    destruct Hent as [Hne Hlab]. destruct (pivot_canonical m (n + m) t2 C2 e He' lv t' Hp) as [C2' Sol].
    destruct (pivot_basis m (n + m) t2 e lv t' C2 He' Hne Hp) as (Hin & Hlt & Hout & Hb).
    destruct (var2_lab2 m n lv Hlt) as [Ev Hlab2]. destruct (var2_lab2 m n e He') as [Ee _].
    split; [constructor; cbn [tab1 tab2]; auto|]. cbn [tab1 tab2 pivot_in_1]. split; [done|]. split; [done|]. split.
    + intros l Hl Hld [Hl1 [E|Hl2]%Hb].
      * cbn [tab1] in Hl1. rewrite <-E in Hlab. rewrite (proj1 (lab2_var2 m n l Hl)) in Hlab. destruct Hlab; done.
      * by apply (Hc l Hl Hld).
    + rewrite Ev. split; [done|]. intros Hnd Hl1. apply (Hc (lab2 m n lv) Hlab2 Hnd). split; cbn [tab1 tab2]; [done|by rewrite Ev].
Qed.

Lemma turn_walking s nl : vertices s -> (nl < m + n)%nat -> nl <> d ->
  (forall l, (l < m + n)%nat -> l <> d -> ~ both s l) ->
  nl ∉ basis (tab1 s) -> var2 m n nl ∉ basis (tab2 s) -> walking (turn m n nl s).
Proof.
  intros [C1 C2 S1 S2] Hnl Hd Hc H1 H2. destruct (lab2_var2 m n nl Hnl) as [El Ev].
  unfold turn. destruct s as [t1 t2 [] e]; cbn [tab1 tab2 pivot_in_1] in *.
  - change (if nl <? m then (n + nl)%nat else (nl - m)%nat) with (var2 m n nl).
    constructor; cbn [tab1 tab2 pivot_in_1 enter_var]; [by constructor|lia|done|].
    split; [done|]. right. by rewrite El.
  - constructor; cbn [tab1 tab2 pivot_in_1 enter_var]; [by constructor|lia|done|]. split; [done|by right].
Qed.

(** The payoffs are positive, by more than the inverse of the largest
    [double]. *)
Context (Hpos : forall i j, (i < m)%nat -> (j < n)%nat ->
  (0 < mget (payoff_1_ g) i j /\ 1 < mget (payoff_1_ g) i j * dbl_max) /\
  (0 < mget (payoff_2_ g) i j /\ 1 < mget (payoff_2_ g) i j * dbl_max)).

(** A feasible point of a polytope has no coordinate as large as that. *)
Lemma polytope_bounded r c (entry : nat -> nat -> Qc) w e : (0 < r)%nat -> (e < c + r)%nat ->
  (forall a b, (a < r)%nat -> (b < c)%nat -> 0 < entry a b /\ 1 < entry a b * dbl_max) ->
  solves (polytope r c entry) w -> (forall j, 0 <= w j) -> dbl_max <= w e -> False.
Proof.
  intros Hr He Hent Hw Hnn Hbig. pose proof (polytope_solves r c entry w Hw) as Hrow.
  assert (forall a b, (a < r)%nat -> (b < c)%nat -> 0 <= entry a b * w b) as Hterm.
  { intros a b Ha Hb. apply mul_nonneg; [apply Qclt_le_weak; by apply Hent|done]. }
  assert (forall a, (a < r)%nat -> w (c + a)%nat <= 1) as Hslack.
  { intros a Ha. specialize (Hrow a Ha). pose proof (sum_nonneg c (fun b => entry a b * w b)) as Hs.
    specialize (Hs ltac:(intros; by apply Hterm)). clear - Hrow Hs. qc_lra. }
  destruct (decide (e < c)%nat) as [Hec|Hec].
  - destruct (Hent O e Hr Hec) as [H0 Hd].
    pose proof (sum_term_le c (fun b => entry O b * w b) e ltac:(intros; by apply Hterm) Hec) as Hs; cbn in Hs.
    pose proof (mul_mono _ _ _ (Qclt_le_weak _ _ H0) Hbig) as Hm.
    specialize (Hrow O Hr). pose proof (Hnn (c + 0)%nat) as Hsl. clear - Hs Hm Hd Hrow Hsl. qc_lra.
  - pose proof (Hslack (e - c)%nat ltac:(lia)) as Hs. replace (c + (e - c))%nat with e in Hs by lia.
    assert (1 < (dbl_max : Qc)) as H1 by (apply (exact_of_Z_lt 1); by vm_compute).
    clear - Hs Hbig H1. qc_lra.
Qed.

Lemma pivot_step_some s : walking s -> pivot_step m n 0 s <> None.
Proof.
  destruct Hg as (_ & _ & Hm & Hn). intros [[C1 C2 S1 S2] He _ _] Hstep. unfold pivot_step in Hstep.
  destruct (pivot_in_1 s).
  - destruct (pivot (tab1 s) (enter_var s) 0) as [[lv t']|] eqn:Hp; [done|].
    destruct (pivot_fails n (m + n) _ C1 _ He Hp) as (w & Hw & Hnn & Hbig).
    eapply (polytope_bounded n m); [done|exact He| |by apply S1|done|done]. intros a b Ha Hb. by apply Hpos.
  - destruct (pivot (tab2 s) (enter_var s) 0) as [[lv t']|] eqn:Hp; [done|].
    rewrite Nat.add_comm in He. destruct (pivot_fails m (n + m) _ C2 _ He Hp) as (w & Hw & Hnn & Hbig).
    eapply (polytope_bounded m n); [done|exact He| |by apply S2|done|done]. intros a b Ha Hb. by apply Hpos.
Qed.

(** A run never fails, and what it finds are vertices without a common
    label. *)
Lemma pivoting_spec todo iter s : walking s ->
  match pivoting m n d 0 todo iter s with
  | Failed _ => False
  | Found iters s' => (iter < iters <= iter + Z.of_nat todo)%Z /\ vertices s' /\
      forall l, (l < m + n)%nat -> ~ both s' l
  | Exhausted iters => iters = (iter + Z.of_nat todo)%Z
  end.
Proof.
  revert iter s. induction todo as [|todo IH]; intros iter s Hs; cbn [pivoting]; [lia|].
  destruct (pivot_step m n 0 s) as [[nl s']|] eqn:Hstep; [|by apply (pivot_step_some s)].
  destruct (pivot_step_walking s nl s' Hs Hstep) as (Hv & Hnl & Hin & Hc & Hleft).
  destruct (Nat.eqb_spec nl d) as [->|Hnd].
  - split; [lia|]. split; [done|]. intros l Hl Hb. destruct (decide (l = d)) as [->|]; [|by apply (Hc l)].
    destruct Hb as [Hb1 Hb2]. destruct (pivot_in_1 s); tauto.
  - specialize (IH (iter + 1)%Z (turn m n nl s')).
    destruct (pivoting m n d 0 todo (iter + 1) (turn m n nl s')) eqn:E; [apply IH|destruct IH as (? & ? & ?)|rewrite IH];
      try (apply turn_walking; destruct (pivot_in_1 s); tauto).
    + split; [lia|done].
    + lia.
Qed.

(** *** The strategies at vertices without a common label *)

Section found.
Context (s : State Qc) (Hv : vertices s) (Hcomp : forall l, (l < m + n)%nat -> ~ both s l).
Local Abbreviation v1 := (get_value (tab1 s)).
Local Abbreviation v2 := (get_value (tab2 s)).

Lemma slack_1 j : (j < n)%nat -> sum m (fun i => mget (payoff_2_ g) i j * v1 i) + v1 (m + j)%nat = 1.
Proof.
  destruct Hg as (_ & _ & Hm & Hn). destruct Hv as [C1 _ S1 _]. intros Hj.
  apply (polytope_solves n m (fun j i => mget (payoff_2_ g) i j)); [|done].
  by apply S1, (values_spec n (m + n) _ C1 O); lia.
Qed.

Lemma slack_2 i : (i < m)%nat -> sum n (fun j => mget (payoff_1_ g) i j * v2 j) + v2 (n + i)%nat = 1.
Proof.
  destruct Hg as (_ & _ & Hm & Hn). destruct Hv as [_ C2 _ S2]. intros Hi.
  apply (polytope_solves m n (fun i j => mget (payoff_1_ g) i j)); [|done].
  by apply S2, (values_spec m (n + m) _ C2 O); lia.
Qed.

Lemma values_nonneg : (forall j, 0 <= v1 j) /\ (forall j, 0 <= v2 j).
Proof.
  destruct Hg as (_ & _ & Hm & Hn). destruct Hv as [C1 C2 _ _].
  split; intros j; [by apply (values_spec n (m + n) _ C1 O); lia|by apply (values_spec m (n + m) _ C2 O); lia].
Qed.

(** A played action is a best response: its slack is zero. *)
Lemma complementary_1 i : (i < m)%nat -> v1 i <> 0 -> v2 (n + i)%nat = 0.
Proof.
  destruct Hg as (_ & _ & Hm & Hn). destruct Hv as [C1 C2 _ _]. intros Hi Hne.
  destruct (decide (v2 (n + i)%nat = 0)) as [|Hne2]; [done|exfalso].
  apply (values_spec n (m + n) _ C1 O) in Hne; [|lia]. apply (values_spec m (n + m) _ C2 O) in Hne2; [|lia].
  apply (Hcomp i); [lia|]. split; [done|]. unfold var2. by destruct (Nat.ltb_spec i m); [|lia].
Qed.

Lemma complementary_2 j : (j < n)%nat -> v2 j <> 0 -> v1 (m + j)%nat = 0.
Proof.
  destruct Hg as (_ & _ & Hm & Hn). destruct Hv as [C1 C2 _ _]. intros Hj Hne.
  destruct (decide (v1 (m + j)%nat = 0)) as [|Hne1]; [done|exfalso].
  apply (values_spec m (n + m) _ C2 O) in Hne; [|lia]. apply (values_spec n (m + n) _ C1 O) in Hne1; [|lia].
  apply (Hcomp (m + j)%nat); [lia|]. split; [done|]. unfold var2.
  destruct (Nat.ltb_spec (m + j) m); [lia|]. by replace (m + j - m)%nat with j by lia.
Qed.

Lemma totals_zero : sum m v1 = 0 <-> sum n v2 = 0.
Proof.
  destruct values_nonneg as [N1 N2]. split; intros Hz.
  - apply sum_zero. intros j Hj. destruct (decide (v2 j = 0)) as [|Hne]; [done|exfalso].
    apply complementary_2 in Hne; [|done]. pose proof (slack_1 j Hj) as E. rewrite Hne, sum_zero in E; [done|].
    intros i Hi. rewrite (sum_zero_inv m v1) by (done || (intros; apply N1)). ring.
  - apply sum_zero. intros i Hi. destruct (decide (v1 i = 0)) as [|Hne]; [done|exfalso].
    apply complementary_1 in Hne; [|done]. pose proof (slack_2 i Hi) as E. rewrite Hne, sum_zero in E; [done|].
    intros j Hj. rewrite (sum_zero_inv n v2) by (done || (intros; apply N2)). ring.
Qed.

End found.
End walk.

(** Reading the values off, in exact arithmetic. *)
Lemma normalized_spec t k : (forall j, 0 <= get_value t j) ->
  (sum k (get_value t) = 0 /\ normalized 0 k (raw_values t k) = vec k (fun _ => 1 / of_size k)) \/
  (0 < sum k (get_value t) /\ length (normalized 0 k (raw_values t k)) = k /\
   forall i, (i < k)%nat -> vget (normalized 0 k (raw_values t k)) i = get_value t i / sum k (get_value t)).
Proof.
  intros Hnn. assert (forall i, (i < k)%nat -> vget (raw_values t k) i = get_value t i) as E.
  { intros i Hi. unfold raw_values. rewrite vget_vec by done. exact_ops. specialize (Hnn i).
    destruct (nmax_cases 0 (get_value t i)) as [[-> ?]|[-> ?]]; [by apply Qcle_antisym|done]. }
  assert (total k (raw_values t k) = sum k (get_value t)) as Et by by apply (sum_ext k).
  unfold normalized. rewrite Et. exact_ops. pose proof (sum_nonneg k (get_value t) ltac:(auto)) as Hs.
  destruct (nltb_spec 0 (sum k (get_value t))) as [Hp|Hp].
  - right. split; [done|]. split; [apply vec_length|]. intros i Hi. by rewrite vget_vec, E.
  - left. split; [|done]. apply Qcle_antisym; [by apply Qcnot_lt_le|done].
Qed.

Lemma quotient_distribution k (v : nat -> Qc) x : 0 < sum k v -> (forall j, 0 <= v j) -> length x = k ->
  (forall i, (i < k)%nat -> vget x i = v i / sum k v) -> distribution k x.
Proof.
  intros Hp Hnn Hl E. split; [done|]. split.
  - intros i Hi. rewrite E by done. by apply ratio_nonneg.
  - rewrite (sum_ext k _ (fun i => v i * / sum k v)) by (intros; by rewrite E). rewrite sum_mul_r. field.
    intros E0. rewrite E0 in Hp. done.
Qed.

(** One side of the equilibrium: against the other player's weights the
    actions without slack are worth most. *)
Lemma slack_worth k (entry : nat -> Qc) shift (v : nat -> Qc) x sl : 0 < sum k v ->
  (forall i, (i < k)%nat -> vget x i = v i / sum k v) ->
  sum k (fun j => (entry j + shift) * v j) + sl = 1 ->
  sum k (fun j => entry j * vget x j) = (1 - sl) / sum k v - shift.
Proof.
  intros Hp E Hsl. assert (sum k v <> 0) as Hne by (intros E0; rewrite E0 in Hp; done).
  rewrite (sum_ext k _ (fun j => (entry j * v j) * / sum k v)) by (intros; rewrite E by done; field; done).
  rewrite sum_mul_r. rewrite (sum_ext k _ (fun j => entry j * v j + shift * v j)) in Hsl by (intros; ring).
  rewrite sum_add, sum_mul_l in Hsl.
  assert (sum k (fun j => entry j * v j) = 1 - sl - shift * sum k v) as -> by (rewrite <-Hsl; ring).
  field. done.
Qed.

(** *** The shift that makes the payoffs positive *)

Lemma min_element_le (l : list Qc) v : v ∈ l -> min_element l <= v.
Proof.
  unfold min_element.
  assert (forall l a, foldl nmin a l <= a /\ forall v, v ∈ l -> foldl nmin a l <= v) as G.
  { clear. induction l as [|b l IH]; intros a; cbn [foldl]; [split; [apply Qcle_refl|intros v []%not_elem_of_nil]|].
    destruct (IH (nmin a b)) as [H1 H2]. assert (nmin a b <= a /\ nmin a b <= b) as [Ha Hb].
    { destruct (nmin_cases a b) as [[-> ?]|[-> ?]]; split; try apply Qcle_refl; [done|by apply Qclt_le_weak]. }
    split; [by eapply Qcle_trans|]. intros v [->|Hv]%elem_of_cons; [by eapply Qcle_trans|by apply H2]. }
  destruct l as [|a l]; [intros []%not_elem_of_nil|]. destruct (G l a) as [Ga Gl]. intros [->|Hv]%elem_of_cons; [exact Ga|by apply Gl].
Qed.

Lemma mget_elem (M : Mat) r c i j : shape M r c -> (i < r)%nat -> (j < c)%nat -> mget M i j ∈ data M.
Proof.
  intros (_ & Hc & Hl) Hi Hj. unfold mget, vget. rewrite Hc, nth_lookup.
  destruct (lookup_lt_is_Some_2 (data M) (i * c + j)%nat) as [x Hx]; [rewrite Hl; nia|].
  rewrite Hx. by eapply list_elem_of_lookup_2.
Qed.

Lemma shift_by_spec (M : Mat) r c sh : shape M r c ->
  shape (shift_by sh M) r c /\ forall i j, (i < r)%nat -> (j < c)%nat -> mget (shift_by sh M) i j = mget M i j + sh.
Proof.
  intros (Hr & Hc & Hl). split; [split; [done|split; [done|cbn; by rewrite length_fmap]]|].
  intros i j Hi Hj. unfold mget, vget, shift_by; cbn [cols data]. rewrite Hc, !nth_lookup, list_lookup_fmap.
  destruct (lookup_lt_is_Some_2 (data M) (i * c + j)%nat) as [x Hx]; [rewrite Hl; nia|]. by rewrite Hx.
Qed.

Definition not_tiny (v : Qc) : Prop := 0 < v -> 1 < v * dbl_max.

Lemma make_positive_spec (g : BimatrixGame Qc) m n : game_shape g m n ->
  (forall i j, (i < m)%nat -> (j < n)%nat -> not_tiny (mget (payoff_1_ g) i j) /\ not_tiny (mget (payoff_2_ g) i j)) ->
  let g' := (make_positive g).1 in let sh := (make_positive g).2 in
  game_shape g' m n /\ forall i j, (i < m)%nat -> (j < n)%nat ->
    (mget (payoff_1_ g') i j = mget (payoff_1_ g) i j + sh /\ mget (payoff_2_ g') i j = mget (payoff_2_ g) i j + sh) /\
    (0 < mget (payoff_1_ g') i j /\ 1 < mget (payoff_1_ g') i j * dbl_max) /\
    (0 < mget (payoff_2_ g') i j /\ 1 < mget (payoff_2_ g') i j * dbl_max).
Proof.
  intros (H1 & H2 & Hm & Hn) Hnt. unfold make_positive.
  set (mn := nmin (min_element (data (payoff_1_ g))) (min_element (data (payoff_2_ g)))).
  assert (forall i j, (i < m)%nat -> (j < n)%nat -> mn <= mget (payoff_1_ g) i j /\ mn <= mget (payoff_2_ g) i j) as Hmin.
  { intros i j Hi Hj. pose proof (min_element_le _ _ (mget_elem _ m n i j H1 Hi Hj)) as L1.
    pose proof (min_element_le _ _ (mget_elem _ m n i j H2 Hi Hj)) as L2. unfold mn.
    destruct (nmin_cases (min_element (data (payoff_1_ g))) (min_element (data (payoff_2_ g)))) as [[-> ?]|[-> ?]]; split; qc_lra. }
  assert (1 < (dbl_max : Qc)) as Hd by (apply (exact_of_Z_lt 1); by vm_compute).
  exact_ops. destruct (nleb_spec mn 0) as [Hle|Hgt]; cbn [fst snd].
  - destruct (shift_by_spec (payoff_1_ g) m n (- mn + 1) H1) as [S1 E1].
    destruct (shift_by_spec (payoff_2_ g) m n (- mn + 1) H2) as [S2 E2].
    split; [by split; [|split]|]. intros i j Hi Hj; cbn [payoff_1_ payoff_2_]. rewrite E1, E2 by done.
    destruct (Hmin i j Hi Hj) as [L1 L2].
    assert (forall v, mn <= v -> 0 < v + (- mn + 1) /\ 1 < (v + (- mn + 1)) * dbl_max) as Hbig.
    { intros v Hv. assert (1 <= v + (- mn + 1)) as H1v by qc_lra.
      generalize dependent (dbl_max (T := Qc)). intros D Hd. generalize dependent (v + (- mn + 1)). intros u Hu.
      clear - Hd Hu. split; [qc_lra|]. assert (0 <= (u - 1) * D) by (apply mul_nonneg; qc_lra).
      replace (u * D) with ((u - 1) * D + D) by ring. qc_lra. }
    split; [done|]. split; by apply Hbig.
  - split; [by split; [|split]|]. intros i j Hi Hj; cbn [payoff_1_ payoff_2_]. destruct (Hmin i j Hi Hj) as [L1 L2].
    destruct (Hnt i j Hi Hj) as [T1 T2]. unfold not_tiny in T1, T2. apply Qcnot_le_lt in Hgt.
    pose proof (Qclt_le_trans _ _ _ Hgt L1) as H. pose proof (Qclt_le_trans _ _ _ Hgt L2) as H0.
    split; [split; exact_ops; ring|]. split; (split; [done|]); [exact (T1 H)|exact (T2 H0)].
Qed.

(** Both tableaux back at the origin: every action's variable is zero. *)
Definition at_origin (m n : nat) (s : State Qc) : Prop :=
  (forall i, (i < m)%nat -> get_value (tab1 s) i = 0) /\ (forall j, (j < n)%nat -> get_value (tab2 s) j = 0).

(** C15. In exact arithmetic and with the tolerance at zero, no run fails: it
    ends after at most the allowed iterations, either without a result or
    with one that has converged at the tableaux the pivoting found.  When
    these are both back at the origin, the result is the uniform strategies;
    otherwise it is a Nash equilibrium of the game the run was given, with
    residual zero. *)
Theorem lemke_howson_exact tol_ g m n label : eps tol_ = 0 -> game_shape g m n -> (label < m + n)%nat ->
  (forall i j, (i < m)%nat -> (j < n)%nat -> not_tiny (mget (payoff_1_ g) i j) /\ not_tiny (mget (payoff_2_ g) i j)) ->
  let r := run_pivoting tol_ g label in
  let x := strategy_1 (profile r) in let y := strategy_2 (profile r) in
  match pivoting m n label 0 (Z.to_nat (max_iter tol_)) 0 (start (make_positive g).1 label) with
  | Failed _ => False
  | Exhausted _ => status r = MaxIterations /\ iterations r = Z.max 0 (max_iter tol_)
  | Found iters s =>
      status r = Converged /\ iterations r = iters /\ (0 < iters <= max_iter tol_)%Z /\
      (at_origin m n s -> x = vec m (fun _ => 1 / of_size m) /\ y = vec n (fun _ => 1 / of_size n)) /\
      (~ at_origin m n s -> nash g x y /\ residual r = 0)
  end.
Proof.
  intros Heps Hg Hlabel Hnt r. unfold r, run_pivoting. rewrite Heps.
  destruct (make_positive_spec g m n Hg Hnt) as [Hg' Hent].
  set (g' := (make_positive g).1) in *. set (sh := (make_positive g).2) in *.
  destruct (actions_shaped g' m n Hg') as [Em' En']. destruct (actions_shaped g m n Hg) as [Em En]. rewrite Em', En'.
  pose proof (pivoting_spec g' m n label Hg' (fun i j Hi Hj => proj2 (Hent i j Hi Hj))
    (Z.to_nat (max_iter tol_)) 0 _ (start_walking g' m n label Hg' Hlabel)) as Hrun.
  destruct (pivoting m n label 0 _ 0 (start g' label)) as [it|it s|it]; [done| |split; [done|cbn; lia]].
  destruct Hrun as (Hit & Hv & Hcomp). split; [done|]. split; [done|]. split; [lia|].
  cbn [profile converged strategy_1 strategy_2 residual]. rewrite Em, En, Heps.
  destruct (values_nonneg g' m n Hg' s Hv) as [N1 N2].
  pose proof (totals_zero g' m n Hg' s Hv Hcomp) as Hzero.
  destruct (normalized_spec (tab1 s) m N1) as [[Z1 E1]|(P1 & L1 & E1)];
    destruct (normalized_spec (tab2 s) n N2) as [[Z2 E2]|(P2 & L2 & E2)].
  - split; [done|]. intros Hn. exfalso. apply Hn. split; intros k Hk.
    + by apply (sum_zero_inv m (get_value (tab1 s))).
    + by apply (sum_zero_inv n (get_value (tab2 s))).
  - apply Hzero in Z1. rewrite Z1 in P2. done.
  - apply Hzero in Z2. rewrite Z2 in P1. done.
  - split; [intros [O1 _]; exfalso; rewrite (sum_zero m) in P1 by done; done|]. intros _. set (x := normalized 0 m (raw_values (tab1 s) m)) in *. set (y := normalized 0 n (raw_values (tab2 s) n)) in *.
    pose proof (quotient_distribution m _ x P1 N1 L1 E1) as Hx. pose proof (quotient_distribution n _ y P2 N2 L2 E2) as Hy.
    assert (forall i, (i < m)%nat -> worth_1 g y i = (1 - get_value (tab2 s) (n + i)%nat) / sum n (get_value (tab2 s)) - sh) as W1.
    { intros i Hi. unfold worth_1. rewrite En. apply slack_worth; [done..|].
      rewrite <-(slack_2 g' m n Hg' s Hv i Hi). f_equal. apply sum_ext. intros j Hj. by rewrite (proj1 (proj1 (Hent i j Hi Hj))). }
    assert (forall j, (j < n)%nat -> worth_2 g x j = (1 - get_value (tab1 s) (m + j)%nat) / sum m (get_value (tab1 s)) - sh) as W2.
    { intros j Hj. unfold worth_2. rewrite Em. apply slack_worth; [done..|].
      rewrite <-(slack_1 g' m n Hg' s Hv j Hj). f_equal. apply sum_ext. intros i Hi. by rewrite (proj2 (proj1 (Hent i j Hi Hj))). }
    assert (forall a S, 0 <= a -> 0 < S -> (1 - a) / S - sh <= (1 - 0) / S - sh) as Hmono.
    { intros a S Ha HS. pose proof (ratio_nonneg a S Ha HS) as Hr.
      assert (S <> 0) as Hne by (intros E0; rewrite E0 in HS; done).
      replace ((1 - a) / S - sh) with ((1 - 0) / S - sh - a / S) by (field; done). clear - Hr. qc_lra. }
    assert (nash g x y) as HN.
    { split; [by rewrite Em|]. split; [by rewrite En|]. apply (well_supported_gains g m n Hg); [done..|].
      split; rewrite ?Em, ?En; intros i i' Hi Hi' Hp; rewrite Qcplus_0_r.
      - rewrite E1 in Hp by done. rewrite !W1 by done. rewrite (complementary_1 g' m n Hg' s Hv Hcomp i Hi); [by apply Hmono|].
        intros E0. rewrite E0 in Hp. unfold Qcdiv in Hp. rewrite Qcmult_0_l in Hp. done.
      - rewrite E2 in Hp by done. rewrite !W2 by done. rewrite (complementary_2 g' m n Hg' s Hv Hcomp i Hi); [by apply Hmono|].
        intros E0. rewrite E0 in Hp. unfold Qcdiv in Hp. rewrite Qcmult_0_l in Hp. done. }
    split; [done|]. by apply (nash_residual_zero g m n Hg).
Qed.

Definition exact_tol : Tolerances Qc :=
  {| eps := 0; pivot_tol := lit 1 12; conv_tol := lit 1 9; max_iter := 10000 |}.

Lemma lemke_howson_exact_witness : let r := run_pivoting exact_tol battle 2 in
  nash battle (strategy_1 (profile r)) (strategy_2 (profile r)) /\ residual r = 0.
Proof.
  pose proof (lemke_howson_exact exact_tol battle 2 2 2 eq_refl battle_shape ltac:(lia)) as H.
  destruct (pivoting 2 2 2 0 (Z.to_nat (max_iter exact_tol)) 0 (start (make_positive battle).1 2)) as [it|it s|it] eqn:E.
  - destruct H. intros [|[|i]] [|[|j]] Hi Hj; try lia; split; intros H0; first [vm_compute in H0; discriminate H0|vm_compute; reflexivity].
  - apply H.
    + intros [|[|i]] [|[|j]] Hi Hj; try lia; split; intros H0; first [vm_compute in H0; discriminate H0|vm_compute; reflexivity].
    + intros [H0 _]. specialize (H0 O ltac:(lia)).
      assert (match pivoting 2 2 2 0 (Z.to_nat (max_iter exact_tol)) 0 (start (make_positive battle).1 2) with
        | Found _ s => this (get_value (tab1 s) O) | _ => 0%Q end <> 0%Q) as Hne by (vm_compute; discriminate).
      rewrite E, H0 in Hne. apply Hne. reflexivity.
  - exfalso. assert (match pivoting 2 2 2 0 (Z.to_nat (max_iter exact_tol)) 0 (start (make_positive battle).1 2) with
        | Found _ s => True | _ => False end) as Hf by (vm_compute; exact I).
    rewrite E in Hf. exact Hf.
Defined.

End exact.

(** ** A degenerate game *)

(** Ties of the ratio test go to the first row, which does not prevent
    cycling: from label 2 the pivots of this game return to the same two
    tableaux every six iterations, in the arithmetic of the machine and with
    the default tolerances. *)
Section cycle.

Definition cycling_game : Game.BimatrixGame double := {|
  Game.payoff_1_ := of_rows (map (map of_Z) [[1; 3; 2]; [3; 3; 1]; [2; 2; 1]]%Z);
  Game.payoff_2_ := of_rows (map (map of_Z) [[2; 3; 3]; [2; 1; 3]; [3; 3; 3]]%Z) |}.

Definition advance (m n d : nat) (tol : double) (s : State double) : option (State double) :=
  match pivot_step m n tol s with
  | Some (nl, s) => if nl =? d then None else Some (turn m n nl s)
  | None => None
  end.

Fixpoint advances (m n d : nat) (tol : double) (k : nat) (s : State double) : option (State double) :=
  match k with
  | O => Some s
  | S k => match advance m n d tol s with Some s => advances m n d tol k s | None => None end
  end.

Lemma pivoting_advances m n d tol k todo iter s s' : advances m n d tol k s = Some s' ->
  pivoting m n d tol (k + todo) iter s = pivoting m n d tol todo (iter + Z.of_nat k) s'.
Proof.
  revert iter s. induction k as [|k IH]; intros iter s; [cbn; intros [= ->]; f_equal; lia|].
  change (advances m n d tol (S k) s) with
    (match advance m n d tol s with Some s => advances m n d tol k s | None => None end).
  unfold advance. change (S k + todo) with (S (k + todo)). cbn [pivoting].
  destruct (pivot_step m n tol s) as [[nl s1]|]; [|done]. destruct (nl =? d); [done|].
  intros Hs. rewrite (IH (iter + 1)%Z _ Hs). f_equal. lia.
Qed.

Lemma advances_prefix m n d tol k l s s' : advances m n d tol (k + l) s = Some s' -> is_Some (advances m n d tol k s).
Proof.
  revert s. induction k as [|k IH]; intros s; [by eexists|]. cbn. destruct (advance m n d tol s); [apply IH|done].
Qed.

Definition cycle_start : State double := start (Game.make_positive cycling_game).1 2.

(** The algorithm does not always find an equilibrium: on a game with
    ties it pivots in a cycle, however many iterations it is allowed. *)
Theorem pivoting_cycles iters :
  let r := run_pivoting {| eps := lit 1 10; pivot_tol := lit 1 12; conv_tol := lit 1 9; max_iter := iters |} cycling_game 2 in
  Game.status r = Game.MaxIterations /\ Game.iterations r = Z.max 0 iters.
Proof.
  destruct (advances 3 3 2 (lit 1 10) 15 cycle_start) as [s|] eqn:E3; [|by vm_compute in E3].
  assert (advances 3 3 2 (lit 1 10) 6 s = Some s) as E6.
  { vm_compute in E3. injection E3 as <-. vm_compute. reflexivity. }
  assert (forall todo iter s0 k s1, todo <= k -> advances 3 3 2 (lit 1 10) k s0 = Some s1 ->
    pivoting 3 3 2 (lit 1 10) todo iter s0 = Exhausted (iter + Z.of_nat todo)) as Hshort.
  { intros todo iter s0 k s1 Hk Hs. replace k with (todo + (k - todo)) in Hs by lia.
    apply advances_prefix in Hs as [s2 Hs]. pose proof (pivoting_advances 3 3 2 (lit 1 10) todo 0 iter s0 s2 Hs) as Hp.
    rewrite Nat.add_0_r in Hp. rewrite Hp. done. }
  assert (forall todo iter, pivoting 3 3 2 (lit 1 10) todo iter s = Exhausted (iter + Z.of_nat todo)) as Hcycle.
  { intros todo. induction (lt_wf todo) as [todo _ IH]. intros iter.
    destruct (decide (todo <= 6)); [by eapply Hshort|].
    replace todo with (6 + (todo - 6)) by lia. rewrite (pivoting_advances _ _ _ _ _ _ _ _ _ E6), IH by lia. f_equal. lia. }
  assert (forall todo, pivoting 3 3 2 (lit 1 10) todo 0 cycle_start = Exhausted (Z.of_nat todo)) as Hrun.
  { intros todo. destruct (decide (todo <= 15)); [by eapply Hshort|].
    replace todo with (15 + (todo - 15)) by lia. rewrite (pivoting_advances _ _ _ _ _ _ _ _ _ E3), Hcycle. f_equal. lia. }
  intros r. unfold r, run_pivoting. cbn [eps max_iter].
  change (Game.num_actions_1 (Game.make_positive cycling_game).1) with 3.
  change (Game.num_actions_2 (Game.make_positive cycling_game).1) with 3.
  fold cycle_start. rewrite Hrun. cbn. split; [done|]. lia.
Qed.

End cycle.
End LemkeHowson.
