(* ===== verification/PathFollower.v ===== *)
(** * Newton's method and path following (nash/numerics/)

    newton_solver.cpp: the damped Newton iteration with its line search;
    path_follower.cpp: the predictor-corrector iteration along the curve of a
    homotopy.  In any arithmetic the Newton solver reports the residual of the
    point it returns, and the path follower moves only to points whose
    residual is below its tolerance; in exact arithmetic it ends. *)

From S2P Require Import Prelude Double Numeric LinearAlgebra.
From Stdlib Require Import QArith Qcanon.

Open Scope nat_scope.

(** [v.back()] *)
Definition vback {T} `{Num T} (v : list T) : T := vget v (length v - 1).

(** ** Newton's method *)

Module Newton.

Section newton.
Context {T : Type} `{Num T}.

Local Abbreviation Vec := (list T).
Local Abbreviation Mat := (Mat T).

(** [J] is the analytic Jacobian, if there is one. *)
Record NonlinearSystem := { F : Vec -> Vec; J : option (Vec -> Mat); dim : nat }.

Record NewtonResult := { x : Vec; residual : T; iterations : Z; converged : bool }.

(** Column [j] by central differences. *)
Definition difference_column (f : Vec -> Vec) (p : Vec) (m : nat) (h : T) (j : nat) (Jm : Mat) : Mat :=
  let hj := nmax h (h * nabs (vget p j))%num in
  let Fp := f (<[j := (vget p j + hj)%num]> p) in
  let Fm := f (<[j := (vget p j - hj)%num]> p) in
  for_ 0 m (fun i Jm => mset Jm i j ((vget Fp i - vget Fm i) / (of_Z 2 * hj))%num) Jm.

Definition numerical_jacobian (f : Vec -> Vec) (p : Vec) (h : T) : Mat :=
  let m := length (f p) in
  for_ 0 (length p) (difference_column f p m h) (mat m (length p) 0%num).

(** The direction: the Newton step, or the regularised least-squares step
    when the Jacobian is singular. *)
Definition newton_direction (sys : NonlinearSystem) (p Fx : Vec) : option Vec :=
  let Jm := match J sys with Some j => j p | None => numerical_jacobian (F sys) p (lit 1 7) end in
  let neg_Fx := vec (length Fx) (fun i => - vget Fx i)%num in
  match Linalg.solve Jm neg_Fx (lit 1 14) with
  | Some dx => Some dx
  | None =>
      let Jt := Linalg.transpose Jm in
      let JtJ := Linalg.matmul Jt Jm in
      let lambda := (lit 1 6 * (Linalg.norm_inf Fx + 1))%num in
      let JtJ := for_ 0 (rows JtJ) (fun i M => mset M i i (mget M i i + lambda)%num) JtJ in
      Linalg.solve JtJ (Linalg.matvec Jt neg_Fx) (lit 1 12)
  end.

(** The backtracking search from try [20 - todo]: the last try is taken
    whatever its residual. *)
Fixpoint line_search (sys : NonlinearSystem) (tol Fx_norm : T) (p dx : Vec) (todo : nat) (alpha : T) : Vec :=
  match todo with
  | O => p
  | S todo =>
      let x_new := Linalg.axpy alpha dx p in
      let new_norm := Linalg.norm_inf (F sys x_new) in
      if (new_norm <? Fx_norm * (1 - lit 1 4 * alpha))%num || (new_norm <? tol)%num then x_new
      else
        let alpha := (alpha * lit 5 1)%num in
        match todo with
        | O => Linalg.axpy alpha dx p
        | _ => line_search sys tol Fx_norm p dx todo alpha
        end
  end.

Fixpoint newton_loop (sys : NonlinearSystem) (tol : T) (todo : nat) (iter : Z) (p : Vec) : NewtonResult :=
  let Fx := F sys p in
  let res := Linalg.norm_inf Fx in
  match todo with
  | O => {| x := p; residual := res; iterations := iter; converged := (res <? tol)%num |}
  | S todo =>
      if (res <? tol)%num then {| x := p; residual := res; iterations := iter + 1; converged := true |}
      else
        match newton_direction sys p Fx with
        | None => {| x := p; residual := res; iterations := iter + 1; converged := false |}
        | Some dx => newton_loop sys tol todo (iter + 1) (line_search sys tol res p dx 20 1%num)
        end
  end.

Definition newton_solve (sys : NonlinearSystem) (x0 : Vec) (tol : T) (max_iter : Z) : NewtonResult :=
  newton_loop sys tol (Z.to_nat max_iter) 0 x0.

(** The solver reports the residual of the point it returns, converges
    exactly when that residual is below the tolerance, and uses no more
    iterations than it may. *)
Lemma newton_honest sys x0 tol max_iter : let r := newton_solve sys x0 tol max_iter in
  residual r = Linalg.norm_inf (F sys (x r)) /\ converged r = (residual r <? tol)%num /\
  (0 <= iterations r <= Z.max 0 max_iter)%Z.
Proof.
  unfold newton_solve.
  assert (forall todo iter p, (0 <= iter)%Z -> let r := newton_loop sys tol todo iter p in
    residual r = Linalg.norm_inf (F sys (x r)) /\ converged r = (residual r <? tol)%num /\
    (iter <= iterations r <= iter + Z.of_nat todo)%Z) as G.
  { induction todo as [|todo IH]; intros iter p Hi; cbn [newton_loop]; [cbn; split; [done|split; [done|lia]]|].
    destruct (Linalg.norm_inf (F sys p) <? tol)%num eqn:E; [cbn; rewrite E; split; [done|split; [done|lia]]|].
    destruct (newton_direction sys p (F sys p)) as [dx|]; [|cbn; rewrite E; split; [done|split; [done|lia]]].
    destruct (IH (iter + 1)%Z (line_search sys tol (Linalg.norm_inf (F sys p)) p dx 20 1%num)) as (H1 & H2 & H3); [lia|].
    split; [done|split; [done|lia]]. }
  destruct (G (Z.to_nat max_iter) 0%Z x0) as (H1 & H2 & H3); [lia|]. split; [done|split; [done|lia]].
Qed.

(** The Newton solver keeps the length of the vector. *)
Lemma newton_length sys x0 tol max_iter : length (x (newton_solve sys x0 tol max_iter)) = length x0.
Proof.
  assert (forall tol Fn p dx todo alpha, length (line_search sys tol Fn p dx todo alpha) = length p) as Hls.
  { intros t Fn p dx todo. induction todo as [|todo IH]; intros alpha; cbn [line_search]; [done|].
    destruct (_ || _); [apply vec_length|]. destruct todo; [apply vec_length|apply IH]. }
  unfold newton_solve. generalize 0%Z. revert x0. induction (Z.to_nat max_iter) as [|todo IH]; intros p iter; cbn [newton_loop]; [done|].
  destruct (_ <? _)%num; [done|]. destruct (newton_direction _ _ _) as [dx|]; [|done]. by rewrite IH, Hls.
Qed.

End newton.

Arguments NonlinearSystem : clear implicits.
Arguments NewtonResult : clear implicits.
End Newton.

(** ** Path following *)

Module Path.

Section path.
Context {T : Type} `{Num T} `{Sqrt T}.

Local Abbreviation Vec := (list T).
Local Abbreviation Mat := (Mat T).

Record PathFollowerConfig := {
  initial_step : T;
  min_step : T;
  max_step : T;
  step_increase : T;
  step_decrease : T;
  corrector_iter : Z;
  corrector_tol : T;
  max_steps : Z;
  target_t : T;
}.

Definition default_path_config : PathFollowerConfig := {|
  initial_step := lit 1 2; min_step := lit 1 8; max_step := lit 1 1;
  step_increase := lit 15 1; step_decrease := lit 5 1;
  corrector_iter := 10; corrector_tol := lit 1 10; max_steps := 50000; target_t := 1%num |}.

Record HomotopySystem := { H_ : Vec -> Vec; DH : Vec -> Mat; sys_n : nat }.

Inductive failure := NoTangent | ZeroTangent | StepTooSmall | TooManySteps.

Record PathResult := {
  w_final : Vec;
  t_final : T;
  reached_target : bool;
  total_steps : Z;
  total_corrections : Z;
  failure_reason : option failure;
}.

(** The vector of the null space that moves most in [t]; when none of them
    moves, a combination of all. *)
Definition choose_tangent (ns : list Vec) : Vec :=
  let first := nth 0 ns [] in
  if 1 <? length ns then
    let '(tangent, best_t) := for_ 1 (length ns) (fun k '(tangent, best_t) =>
      let t_comp := nabs (vback (nth k ns [])) in
      if (t_comp >? best_t)%num then (nth k ns [], t_comp) else (tangent, best_t))
      (first, nabs (vback first)) in
    if (best_t <? lit 1 14)%num then
      for_ 1 (length ns) (fun k => for_ 0 (length first) (fun i tangent =>
        <[i := (vget tangent i + vget (nth k ns []) i * (1 + lit 1 1 * of_size k))%num]> tangent)) first
    else tangent
  else first.

(** The first step records the sign of the tangent and leaves it as it is,
    the later ones keep that sign. *)
Definition orient (s : Z) (direction_sign : Z) (tangent : Vec) : Z * Vec :=
  if (s =? 0)%Z then (if (0 <=? vback tangent)%num then 1%Z else (-1)%Z, tangent)
  else (direction_sign,
        if (vback tangent * of_Z direction_sign <? 0)%num then (fun v => - v)%num <$> tangent else tangent).

Definition limit_step (cfg : PathFollowerConfig) (step : T) (w tangent : Vec) : T :=
  let t_pred := (vback w + step * vback tangent)%num in
  if (t_pred >? target_t cfg + lit 1 2)%num && (nabs (vback tangent) >? lit 1 15)%num
  then nmax ((target_t cfg - vback w) / vback tangent)%num (min_step cfg)
  else step.

(** The Newton system in the hyperplane of the predictor. *)
Definition augmented (sys : HomotopySystem) (w tangent : Vec) : Mat :=
  let Jc := DH sys w in
  let n := sys_n sys in
  let M := for_ 0 n (fun i => for_ 0 (n + 1) (fun j M => mset M i j (mget Jc i j))) (mat (n + 1) (n + 1) 0%num) in
  for_ 0 (n + 1) (fun j M => mset M n j (vget tangent j)) M.

(** What the corrector accepts. *)
Definition accepts (cfg : PathFollowerConfig) (sys : HomotopySystem) (plane : T) (w : Vec) : bool :=
  let res := Linalg.norm_inf (H_ sys w) in
  ((res <? corrector_tol cfg)%num && (nabs plane <? corrector_tol cfg)%num) ||
  (res <? corrector_tol cfg * lit 1 2)%num.

(** The corrector iterations: the point, whether it is accepted, and their
    number. *)
Fixpoint correct (cfg : PathFollowerConfig) (sys : HomotopySystem) (tangent w_pred : Vec) (todo : nat) (w : Vec)
    : Vec * bool * Z :=
  match todo with
  | O => (w, false, 0%Z)
  | S todo =>
      let Hw := H_ sys w in
      let plane := for_ 0 (length w_pred) (fun i p => p + vget tangent i * (vget w i - vget w_pred i))%num 0%num in
      if accepts cfg sys plane w then (w, true, 1%Z)
      else
        let rhs := vec (sys_n sys + 1) (fun i => if i =? sys_n sys then - plane else - vget Hw i)%num in
        match Linalg.solve (augmented sys w tangent) rhs (lit 1 14) with
        | None => (w, false, 1%Z)
        | Some dw =>
            let '(w', ok, c) := correct cfg sys tangent w_pred todo (vec (length w) (fun i => vget w i + vget dw i)%num) in
            (w', ok, (c + 1)%Z)
        end
  end.

(** The state of the loop; [s] is its counter. *)
Record State := { w_ : Vec; step : T; direction_sign : Z; s_ : Z; steps_ : Z; corrections_ : Z }.

Definition path_end (st : State) (reached : bool) (steps : Z) (why : option failure) : PathResult :=
  {| w_final := w_ st; t_final := vback (w_ st); reached_target := reached;
     total_steps := steps; total_corrections := corrections_ st; failure_reason := why |}.

(** One round of the loop. *)
Definition path_step (cfg : PathFollowerConfig) (sys : HomotopySystem) (st : State) : PathResult + State :=
  if (s_ st >=? max_steps cfg)%Z then inl (path_end st false (steps_ st) (Some TooManySteps))
  else if (vback (w_ st) >=? target_t cfg - lit 1 12)%num then inl (path_end st true (steps_ st) None)
  else
    let steps := (s_ st + 1)%Z in
    match Linalg.null_space (DH sys (w_ st)) (lit 1 12) with
    | [] => inl (path_end st false steps (Some NoTangent))
    | ns =>
        let '(sign, tangent) := orient (s_ st) (direction_sign st) (choose_tangent ns) in
        let tn := Linalg.norm2 tangent in
        if (tn <? lit 1 15)%num then inl (path_end st false steps (Some ZeroTangent))
        else
          let tangent := (fun v => v / tn)%num <$> tangent in
          let effective_step := limit_step cfg (step st) (w_ st) tangent in
          let w_pred := vec (length (w_ st)) (fun i => vget (w_ st) i + effective_step * vget tangent i)%num in
          let '(w_corr, ok, c) := correct cfg sys tangent w_pred (Z.to_nat (corrector_iter cfg)) w_pred in
          let corrections := (corrections_ st + c)%Z in
          if ok : bool then
            inr {| w_ := w_corr; step := nmin (step st * step_increase cfg)%num (max_step cfg);
                   direction_sign := sign; s_ := s_ st + 1; steps_ := steps; corrections_ := corrections |}
          else
            let smaller := (step st * step_decrease cfg)%num in
            let st := {| w_ := w_ st; step := smaller; direction_sign := sign; s_ := s_ st;
                         steps_ := steps; corrections_ := corrections |} in
            if (smaller <? min_step cfg)%num then inl (path_end st false steps (Some StepTooSmall))
            else inr st
    end.

Fixpoint path_loop (fuel : nat) (cfg : PathFollowerConfig) (sys : HomotopySystem) (st : State) : option PathResult :=
  match fuel with
  | O => None
  | S fuel =>
      match path_step cfg sys st with
      | inl r => Some r
      | inr st => path_loop fuel cfg sys st
      end
  end.

Definition path_start (cfg : PathFollowerConfig) (w0 : Vec) : State :=
  {| w_ := w0; step := initial_step cfg; direction_sign := 1; s_ := 0; steps_ := 0; corrections_ := 0 |}.

Definition follow_path (fuel : nat) (sys : HomotopySystem) (w0 : Vec) (cfg : PathFollowerConfig) : option PathResult :=
  path_loop fuel cfg sys (path_start cfg w0).

(** ** What the follower returns *)

(** A point the corrector accepts lies on the curve, up to the tolerance. *)
Definition on_curve (cfg : PathFollowerConfig) (sys : HomotopySystem) (w : Vec) : Prop :=
  (Linalg.norm_inf (H_ sys w) <? corrector_tol cfg)%num = true \/
  (Linalg.norm_inf (H_ sys w) <? corrector_tol cfg * lit 1 2)%num = true.

Lemma accepts_on_curve cfg sys plane w : accepts cfg sys plane w = true -> on_curve cfg sys w.
Proof. unfold accepts, on_curve. intros [[? _]%andb_prop|]%orb_prop; eauto. Qed.

Lemma correct_spec cfg sys tangent w_pred todo w w' ok c :
  correct cfg sys tangent w_pred todo w = (w', ok, c) -> (0 <= c)%Z /\ (ok = true -> on_curve cfg sys w').
Proof.
  revert w w' ok c. induction todo as [|todo IH]; intros w w' ok c; cbn [correct]; [by intros [= <- <- <-]|].
  destruct (accepts _ _ _ _) eqn:E; [intros [= <- <- <-]; split; [lia|]; eauto using accepts_on_curve|].
  destruct (Linalg.solve _ _ _) as [dw|]; [|intros [= <- <- <-]; split; [lia|done]].
  destruct (correct _ _ _ _ todo _) as [[w1 ok1] c1] eqn:E1. intros [= <- <- <-].
  destruct (IH _ _ _ _ E1). split; [lia|done].
Qed.

(** The ways a round ends. *)
Ltac round_ends := left; do 3 eexists; split; [reflexivity|]; split; [by split|]; split; [done|auto].

Lemma path_step_cases cfg sys st :
  (exists reached steps why, path_step cfg sys st = inl (path_end st reached steps why) /\
    (reached = true <-> why = None) /\
    (reached = true -> (vback (w_ st) >=? target_t cfg - lit 1 12)%num = true) /\
    (steps = steps_ st \/ (s_ st < max_steps cfg)%Z /\ steps = (s_ st + 1)%Z)) \/
  (s_ st < max_steps cfg)%Z /\ exists w' ok sign c,
    (0 <= c)%Z /\ (ok = true -> on_curve cfg sys w') /\
    path_step cfg sys st =
      (let corrections := (corrections_ st + c)%Z in
       if ok : bool then
         inr {| w_ := w'; step := nmin (step st * step_increase cfg)%num (max_step cfg);
                direction_sign := sign; s_ := s_ st + 1; steps_ := s_ st + 1; corrections_ := corrections |}
       else
         let st' := {| w_ := w_ st; step := (step st * step_decrease cfg)%num; direction_sign := sign; s_ := s_ st;
                       steps_ := s_ st + 1; corrections_ := corrections |} in
         if (step st * step_decrease cfg <? min_step cfg)%num
         then inl (path_end st' false (s_ st + 1) (Some StepTooSmall)) else inr st').
Proof.
  unfold path_step. rewrite Z.geb_leb. destruct (Z.leb_spec (max_steps cfg) (s_ st)); [round_ends|].
  destruct (target_t cfg - lit 1 12 <=? vback (w_ st))%num eqn:Et; [round_ends|].
  destruct (Linalg.null_space _ _) as [|v ns]; [round_ends|].
  destruct (orient _ _ _) as [sign tangent]. destruct (Linalg.norm2 tangent <? lit 1 15)%num; [round_ends|].
  destruct (correct _ _ _ _ _ _) as [[w' ok] c] eqn:E. apply correct_spec in E as [? ?].
  right. split; [done|]. exists w', ok, sign, c. auto.
Qed.

Definition path_inv (cfg : PathFollowerConfig) (sys : HomotopySystem) (w0 : Vec) (st : State) : Prop :=
  (w_ st = w0 \/ on_curve cfg sys (w_ st)) /\
  (0 <= s_ st <= Z.max 0 (max_steps cfg))%Z /\ (s_ st <= steps_ st <= Z.max 0 (max_steps cfg))%Z /\
  (0 <= corrections_ st)%Z.

(** What a result says of the path. *)
Definition path_honest (cfg : PathFollowerConfig) (sys : HomotopySystem) (w0 : Vec) (r : PathResult) : Prop :=
  (w_final r = w0 \/ on_curve cfg sys (w_final r)) /\
  t_final r = vback (w_final r) /\
  (reached_target r = true <-> failure_reason r = None) /\
  (reached_target r = true -> (t_final r >=? target_t cfg - lit 1 12)%num = true) /\
  (0 <= total_steps r <= Z.max 0 (max_steps cfg))%Z /\ (0 <= total_corrections r)%Z.

Lemma path_step_honest cfg sys w0 st : path_inv cfg sys w0 st ->
  match path_step cfg sys st with
  | inl r => path_honest cfg sys w0 r
  | inr st' => path_inv cfg sys w0 st'
  end.
Proof.
  intros (Hw & Hs & Ht & Hc).
  destruct (path_step_cases cfg sys st) as
    [(reached & steps & why & -> & Hr & Ht' & Hst)|(Hlt & w' & ok & sign & c & Hc' & Hok & ->)].
  - unfold path_honest; cbn. do 4 (split; [done|]). split; [|done]. destruct Hst as [->|[? ->]]; lia.
  - cbv zeta. destruct ok; [unfold path_inv; cbn; split; [by right; apply Hok|]; lia|].
    destruct (_ <? _)%num; unfold path_honest, path_inv; cbn; split; try done; repeat split; (done || lia).
Qed.

(** In any arithmetic: the follower returns its start or a point of the
    curve, says [reached_target] exactly when it reports no failure and [t]
    is at the target, and stays within its steps. *)
Lemma follow_path_honest fuel sys w0 cfg r :
  follow_path fuel sys w0 cfg = Some r -> path_honest cfg sys w0 r.
Proof.
  unfold follow_path.
  assert (path_inv cfg sys w0 (path_start cfg w0)) as Hi by (unfold path_inv; cbn; split; [by left|lia]).
  revert Hi. generalize (path_start cfg w0). induction fuel as [|fuel IH]; intros st Hi; cbn; [done|].
  pose proof (path_step_honest cfg sys w0 st Hi) as G.
  destruct (path_step cfg sys st) as [r'|st']; [by intros [= <-]|by apply IH].
Qed.

(** The points of a path are as long as its start. *)
Lemma correct_length cfg sys tangent w_pred todo w w' ok c :
  correct cfg sys tangent w_pred todo w = (w', ok, c) -> length w' = length w.
Proof.
  revert w w' ok c. induction todo as [|todo IH]; intros w w' ok c; cbn [correct]; [by intros [= <- _ _]|].
  destruct (accepts _ _ _ _); [by intros [= <- _ _]|]. destruct (Linalg.solve _ _ _) as [dw|]; [|by intros [= <- _ _]].
  destruct (correct _ _ _ _ todo _) as [[w1 ok1] c1] eqn:E. intros [= <- _ _]. apply IH in E. by rewrite E, vec_length.
Qed.

Lemma path_step_length cfg sys st :
  match path_step cfg sys st with
  | inl r => length (w_final r) = length (w_ st)
  | inr st' => length (w_ st') = length (w_ st)
  end.
Proof.
  unfold path_step. destruct (_ >=? _)%Z; [done|]. destruct (_ <=? _)%num; [done|].
  destruct (Linalg.null_space _ _) as [|v ns]; [done|]. destruct (orient _ _ _) as [sign tangent].
  destruct (_ <? _)%num; [done|]. destruct (correct _ _ _ _ _ _) as [[w' ok] c] eqn:E. apply correct_length in E.
  rewrite vec_length in E. destruct ok; [done|]. by destruct (_ <? _)%num.
Qed.

Lemma follow_path_length fuel sys w0 cfg r : follow_path fuel sys w0 cfg = Some r -> length (w_final r) = length w0.
Proof.
  unfold follow_path. change (length w0) with (length (w_ (path_start cfg w0))). generalize (path_start cfg w0).
  induction fuel as [|fuel IH]; intros st; cbn [path_loop]; [done|]. pose proof (path_step_length cfg sys st) as G.
  destruct (path_step cfg sys st) as [r'|st']; [by intros [= <-]|]. intros E. by rewrite (IH _ E), G.
Qed.

End path.

Arguments PathFollowerConfig : clear implicits.
Arguments HomotopySystem : clear implicits.
Arguments PathResult : clear implicits.
Arguments State : clear implicits.

(** ** Termination *)

Section exact.
Context `{Sqrt Qc}.
Local Open Scope Qc_scope.

(** [N] failures in a row take any step below the smallest. *)
Definition shrinks (cfg : PathFollowerConfig Qc) (N : nat) : Prop :=
  0 < min_step cfg /\ 0 < step_decrease cfg /\ step_decrease cfg <= 1 /\
  initial_step cfg * step_decrease cfg ^ N < min_step cfg /\
  max_step cfg * step_decrease cfg ^ N < min_step cfg.

Lemma power_pos (a : Qc) k : 0 < a -> 0 < a ^ k.
Proof. intros. induction k as [|k IH]; cbn; qc_nra. Qed.

Lemma path_loop_ends cfg sys N fuel k st : shrinks cfg N -> (k <= N)%nat ->
  step st * step_decrease cfg ^ k < min_step cfg ->
  (1 <= fuel)%nat -> (Z.to_nat (max_steps cfg - s_ st) * S N + 1 + k <= fuel + N)%nat ->
  exists r, path_loop fuel cfg sys st = Some r.
Proof.
  intros (Hm & Hd & Hd1 & _ & Hmax). revert k st.
  induction fuel as [|fuel IH]; intros k st Hk Hst Hf Hb; [lia|]. cbn [path_loop].
  destruct (path_step_cases cfg sys st) as [(? & ? & ? & -> & _)|(Hlt & w' & ok & sign & c & _ & _ & ->)]; [eauto|].
  destruct (Z.to_nat (max_steps cfg - s_ st)) as [|m] eqn:Em; [lia|]. cbv zeta. destruct ok.
  - apply (IH N); cbn [step s_]; try (lia || nia).
    pose proof (power_pos (step_decrease cfg) N Hd). revert Hmax.
    generalize dependent (step_decrease cfg ^ N). intros d ? ?.
    destruct (nmin_cases (step st * step_increase cfg)%num (max_step cfg)) as [[-> ?]|[-> ?]]; qc_nra.
  - destruct (nltb_spec (step st * step_decrease cfg)%num (min_step cfg)) as [|Hge]; [eauto|].
    destruct k as [|k]; [exfalso; apply Hge; cbn in Hst |- *; destruct (Qclt_le_dec (step st) 0); qc_nra|].
    apply (IH k); cbn [step s_]; try lia. exact_ops.
    replace (step st * step_decrease cfg * step_decrease cfg ^ k) with (step st * step_decrease cfg ^ S k) by (cbn; ring).
    done.
Qed.

(** Enough rounds. *)
Lemma path_ends cfg sys w0 N : shrinks cfg N ->
  exists r, follow_path (Z.to_nat (max_steps cfg) * S N + 1) sys w0 cfg = Some r.
Proof.
  intros Hs. unfold follow_path at 1.
  apply (path_loop_ends cfg sys N (Z.to_nat (max_steps cfg) * S N + 1) N (path_start cfg w0));
    [done|done|apply Hs|lia|cbn; rewrite Z.sub_0_r; lia].
Qed.

(** In exact arithmetic the path follower terminates whatever the
    homotopy does, after at most [N + 1] rounds for each of its steps, and
    its result is honest: the final point is the start or a point at which
    the homotopy vanishes up to the corrector's tolerance, and it reports the
    target as reached exactly when [t] is there. *)
Theorem follow_path_exact cfg sys w0 N : shrinks cfg N ->
  exists r, follow_path (Z.to_nat (max_steps cfg) * S N + 1) sys w0 cfg = Some r /\ path_honest cfg sys w0 r.
Proof.
  intros Hs. destruct (path_ends cfg sys w0 N Hs) as [r Hr]. exists r. split; [done|]. eapply follow_path_honest, Hr.
Qed.

(** With the default configuration 25 rounds a step are enough. *)
Lemma default_shrinks : shrinks default_path_config 24.
Proof. repeat split; by vm_compute. Qed.


End exact.

(** ** The code's arithmetic *)

(** The straight line [z + 2 t = 0]. *)
Definition line {T} `{Num T} : HomotopySystem T := {|
  H_ w := [(vget w 0 + of_Z 2 * vget w 1)%num];
  DH _ := of_rows [[1%num; of_Z 2]];
  sys_n := 1 |}.

(** The theorem asks nothing of the root the norms take. *)
#[local] Instance any_root : Sqrt Qc := fun x => x.

Lemma follow_path_exact_witness : shrinks default_path_config 24 /\
  exists r, follow_path (Z.to_nat (max_steps default_path_config) * 25 + 1) line [0%num; 0%num] default_path_config = Some r
    /\ path_honest default_path_config line [0%num; 0%num] r.
Proof.
  split; [apply default_shrinks|]. exact (follow_path_exact default_path_config line [0%num; 0%num] 24 default_shrinks).
Defined.

Definition twenty_steps : PathFollowerConfig double := {|
  initial_step := initial_step default_path_config; min_step := min_step default_path_config;
  max_step := max_step default_path_config; step_increase := step_increase default_path_config;
  step_decrease := step_decrease default_path_config; corrector_iter := corrector_iter default_path_config;
  corrector_tol := corrector_tol default_path_config; max_steps := 20; target_t := 1%num |}.

(** The first step only records the direction in which the tangent points:
    when the basis of the null space points to smaller [t], as it does here,
    the follower runs away from its target along a curve that leads to it. *)
Lemma path_runs_backwards :
  match follow_path 100 line [0%num; 0%num] twenty_steps with
  | Some r => failure_reason r = Some TooManySteps /\ (t_final r <? - lit 7 1)%num = true /\
              on_curve twenty_steps line [(- of_Z 2)%num; 1%num]
  | None => False
  end.
Proof. vm_compute. auto. Qed.

(** Along the line [z - 2 t = 0] it arrives. *)
Lemma path_runs_forwards :
  let there : HomotopySystem double := {| H_ w := [(vget w 0 - of_Z 2 * vget w 1)%num]; DH _ := of_rows [[1%num; (- of_Z 2)%num]]; sys_n := 1 |} in
  match follow_path 100 there [0%num; 0%num] default_path_config with
  | Some r => reached_target r = true /\ total_steps r = 27%Z
  | None => False
  end.
Proof. vm_compute. auto. Qed.

End Path.
