(* ===== verification/Homotopy.v ===== *)
(** * The homotopy solver (nash/algorithms/homotopy.cpp)

    The linear tracing procedure: a homotopy from the best responses to prior
    beliefs ([t = 0]) to the equilibrium conditions of the game ([t = 1]),
    followed by the path follower, with a Newton polish and retries from
    other priors.  In exact arithmetic the start solves the homotopy up to
    the tolerance, [DH] is the Jacobian of [H], and the solver ends. *)

From S2P Require Import Prelude Double Numeric LinearAlgebra Game SupportEnumeration PathFollower.
From Stdlib Require Import QArith Qcanon.

Open Scope nat_scope.

Module Homotopy.
Import Game.

(** The layout of the variables but [t], and of the equations: [k1] entries
    of player 1, [k2] of player 2, and one more of each. *)
Definition blocks {T} (k1 k2 : nat) (a b : nat -> T) (c d : T) (e : nat) : T :=
  if e <? k1 then a e
  else if e <? k1 + k2 then b (e - k1)
  else if e =? k1 + k2 then c
  else d.

(** The variables with [t]. *)
Definition cols_of {T} (k1 k2 : nat) (a b : nat -> T) (c d t : T) (j : nat) : T :=
  if j <? k1 + k2 + 2 then blocks k1 k2 a b c d j else t.

(** [lia] tells apart the places an index can fall in. *)
Ltac by_column :=
  unfold cols_of, blocks;
  repeat (case_decide || match goal with |- context [(?a <? ?b)%nat] => destruct (Nat.ltb_spec a b) end
          || match goal with |- context [(?a =? ?b)%nat] => destruct (Nat.eqb_spec a b) end); try done; try lia.

(** [support[i]] *)
Definition sget (support : list nat) (i : nat) : nat := nth i support 0.

Section solver.
Context {T : Type} `{Num T} `{Sqrt T}.

Local Abbreviation Vec := (list T).
Local Abbreviation Mat := (Mat T).
Local Abbreviation BimatrixGame := (BimatrixGame T).
Local Abbreviation StrategyProfile := (StrategyProfile T).
Local Abbreviation EquilibriumResult := (EquilibriumResult T).

Record HomotopySolver := {
  prior_1_ : Vec;
  prior_2_ : Vec;
  cfg_ : Path.PathFollowerConfig T;
  tol_ : Tolerances T;
}.

Definition set_prior (p1 p2 : Vec) (s : HomotopySolver) : HomotopySolver :=
  {| prior_1_ := p1; prior_2_ := p2; cfg_ := cfg_ s; tol_ := tol_ s |}.

(** The payoffs against the priors. *)
Definition prior_payoffs_1 (s : HomotopySolver) (g : BimatrixGame) : Vec :=
  Linalg.matvec (payoff_1_ g) (prior_2_ s).
Definition prior_payoffs_2 (s : HomotopySolver) (g : BimatrixGame) : Vec :=
  Linalg.matvec (Linalg.transpose (payoff_2_ g)) (prior_1_ s).

Definition best_responses (k : nat) (payoffs : Vec) (eps : T) : list nat :=
  filter (fun i => (vget payoffs i >? max_element payoffs - eps)%num = true) (seq 0 k).

(** The starting point and the two supports. *)
Definition compute_start (s : HomotopySolver) (g : BimatrixGame) : Vec * list nat * list nat :=
  let Ap2 := prior_payoffs_1 s g in
  let support_1 := best_responses (num_actions_1 g) Ap2 (eps (tol_ s)) in
  let Btp1 := prior_payoffs_2 s g in
  let support_2 := best_responses (num_actions_2 g) Btp1 (eps (tol_ s)) in
  let k1 := length support_1 in
  let k2 := length support_2 in
  let w0 := vec (k1 + k2 + 2) (blocks k1 k2 (fun _ => 1 / of_size k1)%num (fun _ => 1 / of_size k2)%num
                                 (max_element Ap2) (max_element Btp1)) ++ [0%num] in
  (w0, support_1, support_2).

Section system.
Context (s : HomotopySolver) (g : BimatrixGame) (s1 s2 : list nat).

Local Abbreviation k1 := (length s1).
Local Abbreviation k2 := (length s2).

(** The payoff of an action of the support against the other player's
    variables. *)
Definition A_y (w : Vec) (i : nat) : T :=
  for_ 0 k2 (fun j p => p + mget (payoff_1_ g) (sget s1 i) (sget s2 j) * vget w (k1 + j)%nat)%num 0%num.
Definition B_x (w : Vec) (j : nat) : T :=
  for_ 0 k1 (fun i p => p + mget (payoff_2_ g) (sget s1 i) (sget s2 j) * vget w i)%num 0%num.

Definition sum_x (w : Vec) : T := for_ 0 k1 (fun i p => p + vget w i)%num 0%num.
Definition sum_y (w : Vec) : T := for_ 0 k2 (fun j p => p + vget w (k1 + j)%nat)%num 0%num.

Definition homotopy_H (w : Vec) : Vec :=
  let ap2 := prior_payoffs_1 s g in
  let btp1 := prior_payoffs_2 s g in
  let t := vget w (k1 + k2 + 2) in
  let v1 := vget w (k1 + k2) in
  let v2 := vget w (k1 + k2 + 1) in
  vec (k1 + k2 + 2) (blocks k1 k2
    (fun i => t * A_y w i + (1 - t) * vget ap2 (sget s1 i) - v1)%num
    (fun j => t * B_x w j + (1 - t) * vget btp1 (sget s2 j) - v2)%num
    (sum_x w - 1)%num
    (sum_y w - 1)%num).

Definition DH_row_1 (w : Vec) (i : nat) (Jm : Mat) : Mat :=
  let t := vget w (k1 + k2 + 2) in
  let Jm := for_ 0 k2 (fun j Jm => mset Jm i (k1 + j) (t * mget (payoff_1_ g) (sget s1 i) (sget s2 j))%num) Jm in
  let Jm := mset Jm i (k1 + k2) (- (1))%num in
  mset Jm i (k1 + k2 + 2) (A_y w i - vget (prior_payoffs_1 s g) (sget s1 i))%num.

Definition DH_row_2 (w : Vec) (j : nat) (Jm : Mat) : Mat :=
  let t := vget w (k1 + k2 + 2) in
  let Jm := for_ 0 k1 (fun i Jm => mset Jm (k1 + j) i (t * mget (payoff_2_ g) (sget s1 i) (sget s2 j))%num) Jm in
  let Jm := mset Jm (k1 + j) (k1 + k2 + 1) (- (1))%num in
  mset Jm (k1 + j) (k1 + k2 + 2) (B_x w j - vget (prior_payoffs_2 s g) (sget s2 j))%num.

Definition homotopy_DH (w : Vec) : Mat :=
  let Jm := mat (k1 + k2 + 2) (k1 + k2 + 3) 0%num in
  let Jm := for_ 0 k1 (DH_row_1 w) Jm in
  let Jm := for_ 0 k2 (DH_row_2 w) Jm in
  let Jm := for_ 0 k1 (fun i Jm => mset Jm (k1 + k2) i 1%num) Jm in
  for_ 0 k2 (fun j Jm => mset Jm (k1 + k2 + 1) (k1 + j) 1%num) Jm.

Definition build_homotopy : Path.HomotopySystem T :=
  {| Path.H_ := homotopy_H; Path.DH := homotopy_DH; Path.sys_n := k1 + k2 + 2 |}.

End system.

(** Division by the sum, when there is one. *)
Definition normalize (v : Vec) : Vec :=
  let total := foldl nadd 0%num v in
  if (total >? lit 1 15)%num then (fun x => x / total)%num <$> v else v.

Definition extract_profile (w : Vec) (m n : nat) (support_1 support_2 : list nat) : StrategyProfile :=
  {| strategy_1 := normalize (SupportEnumeration.spread m support_1 w);
     strategy_2 := normalize (SupportEnumeration.spread n support_2 (drop (length support_1) w)) |}.

(** ** Solving *)

Definition divide_by_sum (v : Vec) : Vec :=
  let total := foldl nadd 0%num v in (fun x => x / total)%num <$> v.

Definition default_prior (k : nat) : Vec :=
  divide_by_sum (vec k (fun i => 1 / of_size k + lit 1 2 * of_size (i + 1)%nat / of_size k)%num).

Definition perturbed_prior (pert : T * T) (k : nat) : Vec :=
  divide_by_sum (vec k (fun i => pert.1 + pert.2 * of_size i / nmax 1 (of_size (k - 1)%nat))%num).

(** The priors are set at the first game and kept for the later ones. *)
Definition init_priors (s : HomotopySolver) (g : BimatrixGame) : HomotopySolver :=
  let p1 := match prior_1_ s with [] => default_prior (num_actions_1 g) | p => p end in
  let p2 := match prior_2_ s with [] => default_prior (num_actions_2 g) | p => p end in
  set_prior p1 p2 s.

Definition set_back (w : Vec) (x : T) : Vec := <[length w - 1 := x]> w.

(** The Newton correction at [t = 1]. *)
Definition pin_sys (sys : Path.HomotopySystem T) (k1 k2 : nat) : Newton.NonlinearSystem T :=
  {| Newton.F z := Path.H_ sys (z ++ [1%num]); Newton.J := None; Newton.dim := k1 + k2 + 2 |}.

Definition pin (s : HomotopySolver) (sys : Path.HomotopySystem T) (k1 k2 : nat) (w_final : Vec) : Vec :=
  if (nabs (vback w_final - 1) >? lit 1 8)%num then
    let w_final := set_back w_final 1%num in
    let dim := k1 + k2 + 2 in
    let nr := Newton.newton_solve (pin_sys sys k1 k2) (vec dim (vget w_final)) (conv_tol (tol_ s)) 50 in
    if Newton.converged nr then
      set_back (for_ 0 dim (fun i w => <[i := vget (Newton.x nr) i]> w) w_final) 1%num
    else w_final
  else w_final.

(** The complementarity conditions of the polish. *)
Definition eq_sys (g : BimatrixGame) (m n : nat) : Newton.NonlinearSystem T :=
  {| Newton.F z :=
       let x := take m z in
       let y := drop m z in
       let Ay := Linalg.matvec (payoff_1_ g) y in
       let Btx := Linalg.matvec (Linalg.transpose (payoff_2_ g)) x in
       let v1 := max_element Ay in
       let v2 := max_element Btx in
       vec (m + n) (fun i =>
         if i <? m then (vget x i * (v1 - vget Ay i))%num else (vget y (i - m) * (v2 - vget Btx (i - m)))%num);
     Newton.J := None; Newton.dim := m + n |}.

(** A result with the profile, its payoffs and its residual. *)
Definition with_profile (g : BimatrixGame) (p : StrategyProfile) (r : EquilibriumResult) : EquilibriumResult :=
  {| profile := p; residual := nash_residual g (strategy_1 p) (strategy_2 p);
     iterations := iterations r; status := status r;
     payoff_1 := expected_payoff_1 g (strategy_1 p) (strategy_2 p);
     payoff_2 := expected_payoff_2 g (strategy_1 p) (strategy_2 p) |}.

Definition set_status (st : SolverStatus) (r : EquilibriumResult) : EquilibriumResult :=
  {| profile := profile r; residual := residual r; iterations := iterations r; status := st;
     payoff_1 := payoff_1 r; payoff_2 := payoff_2 r |}.

Definition add_iterations (k : Z) (r : EquilibriumResult) : EquilibriumResult :=
  {| profile := profile r; residual := residual r; iterations := i32 (iterations r + k); status := status r;
     payoff_1 := payoff_1 r; payoff_2 := payoff_2 r |}.

Definition polish (s : HomotopySolver) (g : BimatrixGame) (r : EquilibriumResult) : EquilibriumResult :=
  let m := num_actions_1 g in
  let n := num_actions_2 g in
  if (residual r >? conv_tol (tol_ s))%num then
    let z0 := vec (m + n) (fun i =>
      if i <? m then vget (strategy_1 (profile r)) i else vget (strategy_2 (profile r)) (i - m)) in
    let nr := Newton.newton_solve (eq_sys g m n) z0 (conv_tol (tol_ s)) 50 in
    if Newton.converged nr then
      let p := {| strategy_1 := normalize (vec m (fun i => nmax 0%num (vget (Newton.x nr) i)));
                  strategy_2 := normalize (vec n (fun j => nmax 0%num (vget (Newton.x nr) (m + j)))) |} in
      with_profile g p r
    else r
  else r.

(** The path follower ended close enough to [t = 1]. *)
Definition arrived (p : Path.PathResult T) : bool :=
  Path.reached_target p || (Path.t_final p >? 1 - lit 1 4)%num.

(** The result of the first path. *)
Definition first_result (s : HomotopySolver) (g : BimatrixGame) (sys : Path.HomotopySystem T)
    (s1 s2 : list nat) (p : Path.PathResult T) : EquilibriumResult :=
  let m := num_actions_1 g in
  let n := num_actions_2 g in
  let r := add_iterations (Path.total_steps p) not_run in
  if arrived p then
    let w_final := pin s sys (length s1) (length s2) (Path.w_final p) in
    let r := with_profile g (extract_profile w_final m n s1 s2) (set_status Converged r) in
    polish s g r
  else
    let prof := extract_profile (Path.w_final p) m n s1 s2 in
    {| profile := prof; residual := nash_residual g (strategy_1 prof) (strategy_2 prof);
       iterations := iterations r; status := NumericalFailure; payoff_1 := payoff_1 r; payoff_2 := payoff_2 r |}.

(** A retry's profile is taken when its residual is smaller. *)
Definition better (g : BimatrixGame) (s1 s2 : list nat) (p : Path.PathResult T) (r : EquilibriumResult)
    : option EquilibriumResult :=
  let prof := extract_profile (Path.w_final p) (num_actions_1 g) (num_actions_2 g) s1 s2 in
  if arrived p && (nash_residual g (strategy_1 prof) (strategy_2 prof) <? residual r)%num
  then Some (add_iterations (Path.total_steps p) (with_profile g prof r))
  else None.

Definition perturbations : list (T * T) := [(lit 8 1, lit 2 1); (lit 2 1, lit 8 1); (lit 6 1, lit 4 1)].

Fixpoint retry_perturbed (fuel : nat) (s : HomotopySolver) (g : BimatrixGame) (perts : list (T * T))
    (r : EquilibriumResult) : option EquilibriumResult :=
  match perts with
  | [] => Some r
  | pert :: perts =>
      let s' := set_prior (perturbed_prior pert (num_actions_1 g)) (perturbed_prior pert (num_actions_2 g)) s in
      let '(w0, s1, s2) := compute_start s' g in
      match Path.follow_path fuel (build_homotopy s' g s1 s2) w0 (cfg_ s) with
      | None => None
      | Some p =>
          match better g s1 s2 p r with
          | None => retry_perturbed fuel s g perts r
          | Some r =>
              if (residual r <? conv_tol (tol_ s))%num then Some (set_status Converged r)
              else retry_perturbed fuel s g perts r
          end
      end
  end.

(** The Newton iterations at [t = t_start], in the variables but [t]. *)
Fixpoint correct_start (sys : Path.HomotopySystem T) (t_start : T) (todo : nat) (w : Vec) : Vec :=
  match todo with
  | O => w
  | S todo =>
      let h := Path.H_ sys w in
      if (Linalg.norm_inf h <? lit 1 12)%num then w
      else
        let Jm := Path.DH sys w in
        let neq := Path.sys_n sys in
        let Jsq := for_ 0 neq (fun i => for_ 0 neq (fun j M => mset M i j (mget Jm i j))) (mat neq neq 0%num) in
        match Linalg.solve Jsq (vec neq (fun i => - vget h i)%num) (lit 1 14) with
        | None => w
        | Some dw =>
            let w := for_ 0 neq (fun i w => <[i := (vget w i + vget dw i)%num]> w) w in
            correct_start sys t_start todo (set_back w t_start)
        end
  end.

Definition retry_uniform (fuel : nat) (s : HomotopySolver) (g : BimatrixGame) (r : EquilibriumResult)
    : option EquilibriumResult :=
  let m := num_actions_1 g in
  let n := num_actions_2 g in
  let s' := set_prior (replicate m (1 / of_size m)%num) (replicate n (1 / of_size n)%num) s in
  let '(w0, s1, s2) := compute_start s' g in
  let sys := build_homotopy s' g s1 s2 in
  let t_start := lit 1 2 in
  let w0 := correct_start sys t_start 30 (set_back w0 t_start) in
  match Path.follow_path fuel sys w0 (cfg_ s) with
  | None => None
  | Some p => Some (default r (better g s1 s2 p r))
  end.

Definition when_worse (s : HomotopySolver) (r : EquilibriumResult)
    (retry : EquilibriumResult -> option EquilibriumResult) : option EquilibriumResult :=
  if (residual r >? conv_tol (tol_ s))%num then retry r else Some r.

(** The solver with its priors, and the result. *)
Definition solve (fuel : nat) (s : HomotopySolver) (g : BimatrixGame) : option (HomotopySolver * EquilibriumResult) :=
  let s := init_priors s g in
  let '(w0, s1, s2) := compute_start s g in
  let sys := build_homotopy s g s1 s2 in
  p ← Path.follow_path fuel sys w0 (cfg_ s);
  let r := first_result s g sys s1 s2 p in
  r ← when_worse s r (retry_perturbed fuel s g perturbations);
  r ← when_worse s r (retry_uniform fuel s g);
  Some (s, if negb (bool_decide (status r = Converged)) && (residual r <? conv_tol (tol_ s))%num
           then set_status Converged r else r).

(** ** The entries of the Jacobian *)

Section entries.
Context (s : HomotopySolver) (g : BimatrixGame) (s1 s2 : list nat).

Local Abbreviation k1 := (length s1).
Local Abbreviation k2 := (length s2).

Definition jacobian (w : Vec) : nat -> nat -> T :=
  let t := vget w (k1 + k2 + 2) in
  let O := fun _ : nat => 0%num in
  let I := fun _ : nat => 1%num in
  blocks k1 k2
    (fun i => cols_of k1 k2 O (fun j => t * mget (payoff_1_ g) (sget s1 i) (sget s2 j))%num (- (1))%num 0%num
                (A_y g s1 s2 w i - vget (prior_payoffs_1 s g) (sget s1 i))%num)
    (fun j => cols_of k1 k2 (fun i => t * mget (payoff_2_ g) (sget s1 i) (sget s2 j))%num O 0%num (- (1))%num
                (B_x g s1 s2 w j - vget (prior_payoffs_2 s g) (sget s2 j))%num)
    (cols_of k1 k2 I O 0%num 0%num 0%num)
    (cols_of k1 k2 O I 0%num 0%num 0%num).

Lemma rows_loop R C k r0 (body : nat -> Mat -> Mat) (f : nat -> nat -> T) M : shape M R C ->
  (forall l M', l < k -> shape M' R C -> (forall j, j < C -> mget M' (r0 + l) j = mget M (r0 + l) j) ->
     shape (body l M') R C /\
     forall e j, j < C -> mget (body l M') e j = if decide (e = r0 + l) then f l j else mget M' e j) ->
  shape (for_ 0 k body M) R C /\
  forall e j, j < C -> mget (for_ 0 k body M) e j = if decide (r0 <= e < r0 + k) then f (e - r0) j else mget M e j.
Proof.
  intros HM Hb. pose (P l M' := l <= k -> shape M' R C /\
    forall e j, j < C -> mget M' e j = if decide (r0 <= e < r0 + l) then f (e - r0) j else mget M e j).
  enough (P k (for_ 0 k body M)) as G by by apply G. apply for_inv; unfold P; [lia| |].
  - intros _. split; [done|]. intros. by rewrite decide_False by lia.
  - intros l M' Hl IH Hlk. destruct IH as [Hs IH]; [lia|].
    destruct (Hb l M') as [Hs' Hb']; [lia|done|intros; by rewrite IH, decide_False by (done || lia)|].
    split; [done|]. intros e j Hj. rewrite Hb', IH by done.
    destruct (decide (e = r0 + l)) as [->|]; [rewrite decide_True by lia; f_equal; lia|].
    repeat case_decide; done || lia.
Qed.

Lemma DH_row_1_spec w i M R C : shape M R C -> i < R -> k1 + k2 + 2 < C ->
  (forall j, j < C -> mget M i j = 0%num) ->
  shape (DH_row_1 s g s1 s2 w i M) R C /\
  forall e j, j < k1 + k2 + 3 -> j < C -> mget (DH_row_1 s g s1 s2 w i M) e j =
    if decide (e = i) then cols_of k1 k2 (fun _ => 0%num)
      (fun j => vget w (k1 + k2 + 2)%nat * mget (payoff_1_ g) (sget s1 i) (sget s2 j))%num (- (1))%num 0%num
      (A_y g s1 s2 w i - vget (prior_payoffs_1 s g) (sget s1 i))%num j
    else mget M e j.
Proof.
  intros HM Hi HC Hz. unfold DH_row_1.
  destruct (fill_row R C k2 (fun _ => i) (fun j => k1 + j)
    (fun j => vget w (k1 + k2 + 2)%nat * mget (payoff_1_ g) (sget s1 i) (sget s2 j))%num M) as (Hs & H1 & H2);
    [done|lia|lia|].
  set (M1 := for_ 0 k2 _ M) in *. split; [by repeat apply shape_mset|]. intros e j Hj HjC.
  rewrite !(mget_mset _ R C) by (done || lia || by repeat apply shape_mset).
  destruct (decide (e = i)) as [->|].
  - assert (mget M1 i j = if decide (k1 <= j < k1 + k2)
      then (vget w (k1 + k2 + 2)%nat * mget (payoff_1_ g) (sget s1 i) (sget s2 (j - k1)%nat))%num else 0%num) as ->.
    { case_decide; [|rewrite H2 by lia; by apply Hz].
      replace (mget M1 i j) with (mget M1 i (k1 + (j - k1))) by (f_equal; lia). apply H1; lia. }
    by_column.
  - rewrite !decide_False by lia. apply H2; lia.
Qed.

Lemma DH_row_2_spec w i M R C : shape M R C -> k1 + i < R -> k1 + k2 + 2 < C ->
  (forall j, j < C -> mget M (k1 + i) j = 0%num) ->
  shape (DH_row_2 s g s1 s2 w i M) R C /\
  forall e j, j < k1 + k2 + 3 -> j < C -> mget (DH_row_2 s g s1 s2 w i M) e j =
    if decide (e = k1 + i) then cols_of k1 k2
      (fun l => vget w (k1 + k2 + 2)%nat * mget (payoff_2_ g) (sget s1 l) (sget s2 i))%num (fun _ => 0%num) 0%num (- (1))%num
      (B_x g s1 s2 w i - vget (prior_payoffs_2 s g) (sget s2 i))%num j
    else mget M e j.
Proof.
  intros HM Hi HC Hz. unfold DH_row_2.
  destruct (fill_row R C k1 (fun _ => k1 + i) (fun l => l)
    (fun l => vget w (k1 + k2 + 2)%nat * mget (payoff_2_ g) (sget s1 l) (sget s2 i))%num M) as (Hs & H1 & H2);
    [done|lia|lia|].
  set (M1 := for_ 0 k1 _ M) in *. split; [by repeat apply shape_mset|]. intros e j Hj HjC.
  rewrite !(mget_mset _ R C) by (done || lia || by repeat apply shape_mset).
  destruct (decide (e = k1 + i)) as [->|].
  - assert (mget M1 (k1 + i) j = if decide (j < k1)
      then (vget w (k1 + k2 + 2)%nat * mget (payoff_2_ g) (sget s1 j) (sget s2 i))%num else 0%num) as ->.
    { case_decide; [by apply H1|]. rewrite H2 by lia. by apply Hz. }
    by_column.
  - rewrite !decide_False by lia. apply H2; lia.
Qed.

(** [DH] has these entries. *)
Lemma DH_entries w : let J := homotopy_DH s g s1 s2 w in
  shape J (k1 + k2 + 2) (k1 + k2 + 3) /\
  forall e j, e < k1 + k2 + 2 -> j < k1 + k2 + 3 -> mget J e j = jacobian w e j.
Proof.
  unfold homotopy_DH. cbv zeta.
  destruct (rows_loop (k1 + k2 + 2) (k1 + k2 + 3) k1 0 (DH_row_1 s g s1 s2 w) (fun i => jacobian w i)
    (mat (k1 + k2 + 2) (k1 + k2 + 3) 0%num)) as [Hs1 H1]; [apply shape_mat| |].
  { intros l M' Hl HM' Hz. destruct (DH_row_1_spec w l M' (k1 + k2 + 2) (k1 + k2 + 3)) as [Hs E]; [done|lia|lia| |].
    { intros j Hj. specialize (Hz j Hj). cbn [Nat.add] in Hz. rewrite Hz. apply mget_mat; lia. }
    split; [done|]. intros e j Hj. rewrite E by lia. cbn [Nat.add]. case_decide; [|done].
    unfold jacobian, blocks at 1. by destruct (Nat.ltb_spec l k1); [|lia]. }
  set (M1 := for_ 0 k1 _ _) in *.
  destruct (rows_loop (k1 + k2 + 2) (k1 + k2 + 3) k2 k1 (DH_row_2 s g s1 s2 w) (fun i => jacobian w (k1 + i)) M1)
    as [Hs2 H2]; [done| |].
  { intros l M' Hl HM' Hz. destruct (DH_row_2_spec w l M' (k1 + k2 + 2) (k1 + k2 + 3)) as [Hs E]; [done|lia|lia| |].
    { intros j Hj. rewrite Hz, H1, decide_False by lia. apply mget_mat; lia. }
    split; [done|]. intros e j Hj. rewrite E by lia. case_decide; [|done].
    unfold jacobian, blocks at 1. destruct (Nat.ltb_spec (k1 + l) k1); [lia|].
    destruct (Nat.ltb_spec (k1 + l) (k1 + k2)); [|lia]. by replace (k1 + l - k1) with l by lia. }
  set (M2 := for_ 0 k2 _ M1) in *.
  destruct (fill_row (k1 + k2 + 2) (k1 + k2 + 3) k1 (fun _ => k1 + k2) (fun i => i) (fun _ => 1%num) M2) as (Hs3 & H3 & H3');
    [done|lia|lia|].
  set (M3 := for_ 0 k1 _ M2) in *.
  destruct (fill_row (k1 + k2 + 2) (k1 + k2 + 3) k2 (fun _ => k1 + k2 + 1) (fun j => k1 + j) (fun _ => 1%num) M3) as (Hs4 & H4 & H4');
    [done|lia|lia|].
  set (M4 := for_ 0 k2 _ M3) in *. split; [done|]. intros e j He Hj.
  destruct (decide (e = k1 + k2 + 1 /\ k1 <= j < k1 + k2)) as [[-> ?]|].
  { replace (mget M4 _ j) with (mget M4 (k1 + k2 + 1) (k1 + (j - k1))) by (f_equal; lia). rewrite H4 by lia.
    unfold jacobian. by_column. }
  rewrite H4' by lia. destruct (decide (e = k1 + k2 /\ j < k1)) as [[-> ?]|].
  { rewrite H3 by lia. unfold jacobian. by_column. }
  rewrite H3' by lia. rewrite H2 by done. case_decide; [f_equal; lia|].
  rewrite H1 by done. case_decide; [f_equal; lia|]. rewrite mget_mat by lia. unfold jacobian. by_column.
Qed.

End entries.

(** ** What the solver reports *)

Section honest.
Context (s : HomotopySolver) (g : BimatrixGame).

Local Abbreviation m := (num_actions_1 g).
Local Abbreviation n := (num_actions_2 g).

(** The two ways the solver makes a profile. *)
Inductive solver_profile : StrategyProfile -> Prop :=
| extracted w s1 s2 : solver_profile (extract_profile w m n s1 s2)
| polished (z : Vec) : solver_profile
    {| strategy_1 := normalize (vec m (fun i => nmax 0%num (vget z i)));
       strategy_2 := normalize (vec n (fun j => nmax 0%num (vget z (m + j)))) |}.

Definition residual_of (p : StrategyProfile) : T := nash_residual g (strategy_1 p) (strategy_2 p).

(** The residual is that of the profile; the payoffs are its payoffs, or
    were never computed. *)
Definition honest (r : EquilibriumResult) : Prop :=
  solver_profile (profile r) /\ residual r = residual_of (profile r) /\
  (payoff_1 r = expected_payoff_1 g (strategy_1 (profile r)) (strategy_2 (profile r)) /\
   payoff_2 r = expected_payoff_2 g (strategy_1 (profile r)) (strategy_2 (profile r)) \/
   payoff_1 r = 0%num /\ payoff_2 r = 0%num) /\
  (status r = Converged \/ status r = NumericalFailure).

Lemma with_profile_honest p r : solver_profile p -> status r = Converged \/ status r = NumericalFailure ->
  honest (with_profile g p r).
Proof. intros. unfold honest. cbn. split_and!; auto. Qed.

Lemma add_iterations_honest k r : honest r -> honest (add_iterations k r).
Proof. done. Qed.

Lemma set_converged_honest r : honest r -> honest (set_status Converged r).
Proof. intros (H1 & H2 & H3 & H4). unfold honest. cbn. split_and!; auto. Qed.

Lemma first_result_honest sys s1 s2 p : honest (first_result s g sys s1 s2 p).
Proof.
  unfold first_result. destruct (arrived p).
  - unfold polish. destruct (_ >? _)%num; [|apply with_profile_honest; [constructor|by left]].
    destruct (Newton.converged _); [|apply with_profile_honest; [constructor|by left]].
    apply with_profile_honest; [constructor|by left].
  - unfold honest. cbn. split_and!; auto using extracted.
Qed.

Lemma better_honest s1 s2 p r r' : honest r -> better g s1 s2 p r = Some r' -> honest r'.
Proof.
  unfold better. intros (_ & _ & _ & Hs). destruct (_ && _); [|done]. intros [= <-].
  apply add_iterations_honest, with_profile_honest; [constructor|done].
Qed.

Lemma retry_perturbed_honest fuel perts r r' : honest r -> retry_perturbed fuel s g perts r = Some r' -> honest r'.
Proof.
  revert r. induction perts as [|pert perts IH]; intros r Hr; cbn [retry_perturbed]; [by intros [= <-]|].
  destruct (compute_start _ g) as [[w0 s1] s2]. destruct (Path.follow_path _ _ _ _) as [p|]; [|done].
  destruct (better g s1 s2 p r) as [r1|] eqn:E; [|by apply IH]. apply better_honest in E; [|done].
  destruct (_ <? _)%num; [|by apply IH]. intros [= <-]. by apply set_converged_honest.
Qed.

Lemma retry_uniform_honest fuel r r' : honest r -> retry_uniform fuel s g r = Some r' -> honest r'.
Proof.
  intros Hr. unfold retry_uniform. destruct (compute_start _ g) as [[w0 s1] s2].
  destruct (Path.follow_path _ _ _ _) as [p|]; [|done]. intros [= <-].
  destruct (better g s1 s2 p r) as [r1|] eqn:E; [|done]. by eapply better_honest.
Qed.

Lemma when_worse_honest retry r r' : honest r -> (forall r', retry r = Some r' -> honest r') ->
  when_worse s r retry = Some r' -> honest r'.
Proof. unfold when_worse. destruct (_ >? _)%num; [auto|]. by intros ? _ [= <-]. Qed.

End honest.

(** In any arithmetic the result is honest, an unconverged one is not below
    the tolerance, and the solver keeps the priors it started from. *)
Lemma solve_honest fuel s g s' r : solve fuel s g = Some (s', r) ->
  s' = init_priors s g /\ honest g r /\
  (status r = NumericalFailure -> (residual r <? conv_tol (tol_ s))%num = false).
Proof.
  unfold solve. destruct (compute_start _ g) as [[w0 s1] s2].
  destruct (Path.follow_path _ _ _ _) as [p|]; cbn [mbind option_bind]; [|done].
  pose proof (first_result_honest (init_priors s g) g (build_homotopy (init_priors s g) g s1 s2) s1 s2 p) as H1.
  destruct (when_worse _ _ (retry_perturbed _ _ _ _)) as [r1|] eqn:E1; cbn [mbind option_bind]; [|done].
  apply (when_worse_honest _ g) in E1; [|done|by intros; eapply retry_perturbed_honest].
  destruct (when_worse _ _ (retry_uniform _ _ _)) as [r2|] eqn:E2; cbn [mbind option_bind]; [|done].
  apply (when_worse_honest _ g) in E2; [|done|by intros; eapply retry_uniform_honest].
  intros [= <- <-]. split; [done|]. destruct (bool_decide_reflect (status r2 = Converged)) as [Hc|Hc]; cbn [negb andb].
  - split; [done|]. by rewrite Hc.
  - change (conv_tol (tol_ (init_priors s g))) with (conv_tol (tol_ s)).
    destruct (residual r2 <? conv_tol (tol_ s))%num eqn:E; [|done]. split; [by apply set_converged_honest|done].
Qed.

(** The solver ends when every path it follows does. *)
Lemma solve_ends fuel s g : (forall sys w0, exists p, Path.follow_path fuel sys w0 (cfg_ s) = Some p) ->
  exists s' r, solve fuel s g = Some (s', r).
Proof.
  intros Hp. unfold solve. destruct (compute_start _ g) as [[w0 s1] s2].
  change (cfg_ (init_priors s g)) with (cfg_ s). edestruct Hp as [p Ep]. rewrite Ep.
  cbn [mbind option_bind]. set (s' := init_priors s g) in *.
  assert (forall r perts, exists r', retry_perturbed fuel s' g perts r = Some r') as Hr.
  { intros r perts. revert r. induction perts as [|pert perts IH]; intros r; cbn [retry_perturbed]; [eauto|].
    destruct (compute_start _ g) as [[w1 t1] t2]. change (cfg_ s') with (cfg_ s).
    edestruct Hp as [p' E]. rewrite E. destruct (better g t1 t2 p' r); [|eauto]. destruct (_ <? _)%num; eauto. }
  assert (forall r, exists r', retry_uniform fuel s' g r = Some r') as Hu.
  { intros r. unfold retry_uniform. destruct (compute_start _ g) as [[w1 t1] t2]. change (cfg_ s') with (cfg_ s).
    edestruct Hp as [p' E]. rewrite E. eauto. }
  assert (forall r retry, (exists r', retry r = Some r') -> exists r', when_worse s' r retry = Some r') as Hw.
  { intros r retry He. unfold when_worse. destruct (_ >? _)%num; eauto. }
  edestruct Hw as [r1 E1]; [apply Hr|]. rewrite E1. cbn [mbind option_bind].
  edestruct Hw as [r2 E2]; [apply Hu|]. rewrite E2. cbn [mbind option_bind]. eauto.
Qed.

End solver.

Arguments HomotopySolver : clear implicits.

Section exact.
Context {root : Sqrt Qc}.
Local Open Scope Qc_scope.
Local Abbreviation Vec := (list Qc).
Local Abbreviation BimatrixGame := (BimatrixGame Qc).

(** ** The homotopy in exact arithmetic *)

Section system.
Context (s : HomotopySolver Qc) (g : BimatrixGame) (s1 s2 : list nat).

Local Abbreviation k1 := (length s1).
Local Abbreviation k2 := (length s2).

Lemma blocks_cases (P : nat -> Prop) : (forall i, (i < k1)%nat -> P i) -> (forall j, (j < k2)%nat -> P (k1 + j)%nat) ->
  P (k1 + k2)%nat -> P (k1 + k2 + 1)%nat -> forall e, (e < k1 + k2 + 2)%nat -> P e.
Proof.
  intros H1 H2 H3 H4 e He. destruct (decide (e < k1)%nat); [by apply H1|].
  destruct (decide (e < k1 + k2)%nat); [replace e with (k1 + (e - k1))%nat by lia; apply H2; lia|].
  destruct (decide (e = k1 + k2)%nat) as [->|]; [done|]. by replace e with (k1 + k2 + 1)%nat by lia.
Qed.

Lemma blocks_at {A} (a b : nat -> A) c d :
  (forall i, (i < k1)%nat -> blocks k1 k2 a b c d i = a i) /\
  (forall j, (j < k2)%nat -> blocks k1 k2 a b c d (k1 + j) = b j) /\
  blocks k1 k2 a b c d (k1 + k2) = c /\ blocks k1 k2 a b c d (k1 + k2 + 1) = d.
Proof.
  unfold blocks. split; [|split; [|split]]; intros;
    repeat match goal with |- context [(?a <? ?b)%nat] => destruct (Nat.ltb_spec a b); try lia end;
    rewrite ?Nat.eqb_refl; try done; [f_equal; lia|]. by destruct (Nat.eqb_spec (k1 + k2 + 1) (k1 + k2)); [lia|].
Qed.

(** Reading one entry of the system. *)
Lemma H_entry_1 w i : (i < k1)%nat -> vget (homotopy_H s g s1 s2 w) i =
  vget w (k1 + k2 + 2) * A_y g s1 s2 w i + (1 - vget w (k1 + k2 + 2)) * vget (prior_payoffs_1 s g) (sget s1 i)
  - vget w (k1 + k2).
Proof. intros. unfold homotopy_H. rewrite vget_vec by lia. by rewrite (proj1 (blocks_at _ _ _ _)). Qed.

Lemma H_entry_2 w j : (j < k2)%nat -> vget (homotopy_H s g s1 s2 w) (k1 + j) =
  vget w (k1 + k2 + 2) * B_x g s1 s2 w j + (1 - vget w (k1 + k2 + 2)) * vget (prior_payoffs_2 s g) (sget s2 j)
  - vget w (k1 + k2 + 1).
Proof. intros. unfold homotopy_H. rewrite vget_vec by lia. by rewrite (proj1 (proj2 (blocks_at _ _ _ _))). Qed.

Lemma H_entry_3 w : vget (homotopy_H s g s1 s2 w) (k1 + k2) =
  sum k1 (fun i => vget w (0 + i)%nat) - 1.
Proof. unfold homotopy_H. rewrite vget_vec by lia. by rewrite (proj1 (proj2 (proj2 (blocks_at _ _ _ _)))). Qed.

Lemma H_entry_4 w : vget (homotopy_H s g s1 s2 w) (k1 + k2 + 1) = sum k2 (fun j => vget w (k1 + j)%nat) - 1.
Proof. unfold homotopy_H. rewrite vget_vec by lia. by rewrite (proj2 (proj2 (proj2 (blocks_at _ _ _ _)))). Qed.

Lemma A_y_sum w i : A_y g s1 s2 w i = sum k2 (fun j => mget (payoff_1_ g) (sget s1 i) (sget s2 j) * vget w (k1 + j)%nat).
Proof. done. Qed.

Lemma B_x_sum w j : B_x g s1 s2 w j = sum k1 (fun i => mget (payoff_2_ g) (sget s1 i) (sget s2 j) * vget w i).
Proof. done. Qed.

(** A weighted sum moves by the weight of the variable that moves. *)
Lemma sum_moved k o p h (c : nat -> Qc) w : (p < length w)%nat ->
  sum k (fun j => c j * vget (<[p := vget w p + h]> w) (o + j)%nat) =
  sum k (fun j => c j * vget w (o + j)%nat) + h * (if decide (o <= p < o + k)%nat then c (p - o)%nat else 0).
Proof.
  intros Hp. rewrite (sum_ext _ _ (fun j => c j * vget w (o + j)%nat + (if decide (o + j = p)%nat then c j * h else 0))).
  2:{ intros j Hj. rewrite vget_insert by done. repeat case_decide; subst; try done; ring. }
  rewrite sum_add. f_equal. case_decide.
  - rewrite (sum_single _ _ (p - o)%nat) by (try lia; intros; by rewrite decide_False by lia).
    rewrite decide_True by lia. ring.
  - rewrite sum_zero by (intros; by rewrite decide_False by lia). ring.
Qed.

Lemma A_y_moved w p h i : (p < length w)%nat -> A_y g s1 s2 (<[p := vget w p + h]> w) i =
  A_y g s1 s2 w i + h * (if decide (k1 <= p < k1 + k2)%nat then mget (payoff_1_ g) (sget s1 i) (sget s2 (p - k1)) else 0).
Proof. intros. rewrite !A_y_sum. by rewrite sum_moved. Qed.

Lemma B_x_moved w p h j : (p < length w)%nat -> B_x g s1 s2 (<[p := vget w p + h]> w) j =
  B_x g s1 s2 w j + h * (if decide (p < k1)%nat then mget (payoff_2_ g) (sget s1 p) (sget s2 j) else 0).
Proof.
  intros. rewrite !B_x_sum. pose proof (sum_moved k1 0 p h (fun i => mget (payoff_2_ g) (sget s1 i) (sget s2 j)) w) as E.
  cbn [Nat.add] in E. rewrite E by done. rewrite Nat.sub_0_r. repeat case_decide; done || lia.
Qed.

Lemma total_moved k o p h w : (p < length w)%nat ->
  sum k (fun j => vget (<[p := vget w p + h]> w) (o + j)%nat) =
  sum k (fun j => vget w (o + j)%nat) + h * (if decide (o <= p < o + k)%nat then 1 else 0).
Proof.
  intros Hp. pose proof (sum_moved k o p h (fun _ => 1) w Hp) as E. cbv beta in E.
  assert (forall w, sum k (fun j => 1 * vget w (o + j)%nat) = sum k (fun j => vget w (o + j)%nat)) as G
    by (intros; apply sum_ext; intros; ring).
  by rewrite !G in E.
Qed.

Lemma plus_minus_l a b : (a + b - a = b)%nat.
Proof. lia. Qed.

Ltac by_entry w p h :=
  rewrite ?(A_y_moved w p h), ?(B_x_moved w p h), ?vget_insert by lia;
  unfold jacobian; by_column; exact_ops; subst; rewrite ?plus_minus_l; try ring.

(** [DH] is the Jacobian of [H]: moving one variable by [h] moves every
    equation by [h] times its entry of [DH] ([H] is affine in each of its
    variables, so this is its derivative and no approximation). *)
Theorem homotopy_jacobian w e p h : length w = (k1 + k2 + 3)%nat -> (e < k1 + k2 + 2)%nat -> (p < k1 + k2 + 3)%nat ->
  vget (homotopy_H s g s1 s2 (<[p := vget w p + h]> w)) e =
  vget (homotopy_H s g s1 s2 w) e + h * mget (homotopy_DH s g s1 s2 w) e p.
Proof.
  intros Hw He Hp. rewrite (proj2 (DH_entries s g s1 s2 w)) by done. revert e He. apply blocks_cases.
  - intros i Hi. rewrite !H_entry_1 by done. by_entry w p h.
  - intros j Hj. rewrite !H_entry_2 by done. by_entry w p h.
  - rewrite !H_entry_3. rewrite (total_moved k1 0) by lia. by_entry w p h.
  - rewrite !H_entry_4, total_moved by lia. by_entry w p h.
Qed.

End system.

(** ** The start *)

Lemma max_element_spec (l : list Qc) : l <> [] -> max_element l ∈ l /\ forall v, v ∈ l -> v <= max_element l.
Proof.
  unfold max_element. destruct l as [|a l]; [done|intros _; cbn [head tail default]]. revert a.
  induction l as [|b l IH]; intros a; cbn [foldl]; [split; [by left|intros v [->|[]%not_elem_of_nil]%elem_of_cons; apply Qcle_refl]|].
  destruct (IH (nmax a b)) as [H1 H2]. assert (a <= nmax a b /\ b <= nmax a b /\ (nmax a b = a \/ nmax a b = b)) as (Ha & Hb & Hab).
  { destruct (nmax_cases a b) as [[-> ?]|[-> ?]]; split_and!; auto using Qcle_refl, Qclt_le_weak. }
  split.
  - apply elem_of_cons in H1 as [E|?]; [|by do 2 right]. rewrite E at 1. destruct Hab as [->| ->]; [by left|by right; left].
  - intros v [->|[->|Hv]%elem_of_cons]%elem_of_cons; [..|by apply H2; right].
    + eapply Qcle_trans; [exact Ha|]. apply H2. by left.
    + eapply Qcle_trans; [exact Hb|]. apply H2. by left.
Qed.

Lemma elem_vget (l : list Qc) i : (i < length l)%nat -> vget l i ∈ l.
Proof.
  intros Hi. destruct (lookup_lt_is_Some_2 l i Hi) as [a Ha]. unfold vget. rewrite nth_lookup, Ha.
  by eapply list_elem_of_lookup_2.
Qed.

Section start.
Context (k : nat) (payoffs : Vec) (eps : Qc) (Hl : length payoffs = k) (Hk : (0 < k)%nat) (He : 0 < eps).

Lemma best_responses_sublist : best_responses k payoffs eps `sublist_of` seq 0 k.
Proof. apply sublist_filter. Qed.

Lemma best_responses_elem i : i ∈ best_responses k payoffs eps <->
  (i < k)%nat /\ max_element payoffs - eps < vget payoffs i.
Proof.
  unfold best_responses. rewrite list_elem_of_filter, elem_of_seq. exact_ops.
  destruct (nltb_spec (max_element payoffs - eps) (vget payoffs i)); naive_solver lia.
Qed.

(** Its entries are best up to [eps], and there is one. *)
Lemma best_responses_spec :
  (0 < length (best_responses k payoffs eps))%nat /\
  forall i, (i < length (best_responses k payoffs eps))%nat ->
    let v := vget payoffs (sget (best_responses k payoffs eps) i) in
    max_element payoffs - eps < v /\ v <= max_element payoffs.
Proof.
  destruct (max_element_spec payoffs) as [Hm Hle]; [by destruct payoffs; [cbn in Hl; lia|]|]. split.
  - apply list_elem_of_lookup in Hm as [i Hi]. assert (i ∈ best_responses k payoffs eps) as Hin.
    { apply best_responses_elem. split; [rewrite <-Hl; by eapply lookup_lt_Some|].
      unfold vget. rewrite nth_lookup, Hi. change (max_element payoffs - eps < max_element payoffs). qc_lra. }
    destruct (best_responses k payoffs eps); [by apply not_elem_of_nil in Hin|cbn; lia].
  - intros i Hi. destruct (lookup_lt_is_Some_2 _ _ Hi) as [a Ha].
    assert (sget (best_responses k payoffs eps) i = a) as -> by (unfold sget; by rewrite nth_lookup, Ha).
    apply list_elem_of_lookup_2, best_responses_elem in Ha as [Hak Hlt]. split; [done|].
    apply Hle, elem_vget. lia.
Qed.
End start.

Lemma one_over (k : nat) : (0 < k)%nat -> of_size k * (1 / of_size k) = 1.
Proof.
  intros Hk. unfold Qcdiv. rewrite Qcmult_1_l, Qcmult_inv_r; [done|]. intros E.
  pose proof (exact_of_Z_lt 0 (Z.of_nat k) ltac:(lia)) as Hlt. unfold of_size in E. rewrite E in Hlt. by apply Qclt_not_eq in Hlt.
Qed.

(** At [t = 0] an action that is best up to [e] solves its equation up to [e]. *)
Lemma in_band (y x a e : Qc) : a - e < x -> x <= a -> nabs (0 * y + (1 - 0) * x - a) < e.
Proof.
  intros H1 H2. replace (0 * y + (1 - 0) * x - a) with (x - a) by ring.
  destruct (nabs_cases (x - a)) as [[-> ?]|[-> ?]]; qc_lra.
Qed.

Lemma at_one (a b v : Qc) : 1 * a + (1 - 1) * b - v = 0 -> a = v.
Proof. replace (1 * a + (1 - 1) * b - v) with (a - v) by ring. intros. qc_lra. Qed.

Lemma vget_app_l (l r : Vec) i : (i < length l)%nat -> vget (l ++ r) i = vget l i.
Proof. intros. unfold vget. by rewrite app_nth1. Qed.

Lemma vget_drop (l : Vec) k i : vget (drop k l) i = vget l (k + i)%nat.
Proof. unfold vget. by rewrite !nth_lookup, lookup_drop. Qed.

Section game.
Context (s : HomotopySolver Qc) (g : BimatrixGame) (m n : nat) (Hg : game_shape g m n).

Lemma prior_payoffs_length : length (prior_payoffs_1 s g) = m /\ length (prior_payoffs_2 s g) = n.
Proof.
  destruct Hg as ((Hr & _ & _) & HB & _ & _). destruct (Linalg.transpose_spec m n (payoff_2_ g) HB) as [(Hr' & _ & _) _].
  unfold prior_payoffs_1, prior_payoffs_2, Linalg.matvec. by rewrite !vec_length.
Qed.

(** What the start guarantees of a system. *)
Definition starts (e : Qc) (w0 : Vec) (s1 s2 : list nat) : Prop :=
  let k1 := length s1 in
  let k2 := length s2 in
  s1 `sublist_of` seq 0 m /\ s2 `sublist_of` seq 0 n /\ (0 < k1)%nat /\ (0 < k2)%nat /\
  length w0 = (k1 + k2 + 3)%nat /\ vget w0 (k1 + k2 + 2) = 0 /\
  forall i, (i < k1 + k2 + 2)%nat -> nabs (vget (homotopy_H s g s1 s2 w0) i) < e.

Lemma compute_start_spec : 0 < eps (tol_ s) ->
  let '(w0, s1, s2) := compute_start s g in starts (eps (tol_ s)) w0 s1 s2.
Proof.
  intros He. unfold compute_start. destruct (actions_shaped g m n Hg) as [-> ->].
  destruct prior_payoffs_length as [L1 L2]. destruct Hg as (_ & _ & Hm & Hn).
  destruct (best_responses_spec m (prior_payoffs_1 s g) (eps (tol_ s)) L1 Hm He) as [P1 B1].
  destruct (best_responses_spec n (prior_payoffs_2 s g) (eps (tol_ s)) L2 Hn He) as [P2 B2].
  pose proof (best_responses_sublist m (prior_payoffs_1 s g) (eps (tol_ s))) as S1.
  pose proof (best_responses_sublist n (prior_payoffs_2 s g) (eps (tol_ s))) as S2.
  set (s1 := best_responses m _ _) in *. set (s2 := best_responses n _ _) in *.
  set (f := blocks _ _ _ _ _ _). set (w0 := vec _ f ++ _).
  assert (forall i, (i < length s1 + length s2 + 2)%nat -> vget w0 i = f i) as Hw.
  { intros i Hi. unfold w0. rewrite vget_app_l by by rewrite vec_length. by apply vget_vec. }
  assert (vget w0 (length s1 + length s2 + 2) = 0) as Ht.
  { unfold w0, vget. rewrite app_nth2 by (rewrite vec_length; lia). by rewrite vec_length, Nat.sub_diag. }
  unfold starts. split_and!; try done.
  { unfold w0. rewrite length_app, vec_length. cbn. lia. }
  destruct (blocks_at s1 s2 (fun _ => 1 / of_size (length s1)) (fun _ => 1 / of_size (length s2))
    (max_element (prior_payoffs_1 s g)) (max_element (prior_payoffs_2 s g))) as (F1 & F2 & F3 & F4).
  apply blocks_cases.
  - intros i Hi. rewrite H_entry_1, Ht, Hw by (done || lia). unfold f. exact_ops. rewrite F3.
    cbv beta in *. exact (in_band _ _ _ _ (proj1 (B1 i Hi)) (proj2 (B1 i Hi))).
  - intros j Hj. rewrite H_entry_2, Ht, Hw by (done || lia). unfold f. exact_ops. rewrite F4.
    exact (in_band _ _ _ _ (proj1 (B2 j Hj)) (proj2 (B2 j Hj))).
  - rewrite H_entry_3. rewrite (sum_ext _ _ (fun _ => 1 / of_size (length s1))).
    2:{ intros i Hi. rewrite Hw by lia. by apply F1. }
    rewrite sum_const, one_over by done. by replace (1 - 1) with 0 by ring.
  - rewrite H_entry_4. rewrite (sum_ext _ _ (fun _ => 1 / of_size (length s2))).
    2:{ intros i Hi. rewrite Hw by lia. by apply F2. }
    rewrite sum_const, one_over by done. by replace (1 - 1) with 0 by ring.
Qed.

(** ** The end *)

Lemma foldl_sum (v : Vec) (a : Qc) : foldl nadd a v = a + sum (length v) (vget v).
Proof.
  revert a. induction v as [|x v IH]; intros a; cbn [foldl length]; [rewrite sum_0; ring|]. rewrite IH.
  change (S (length v)) with (1 + length v)%nat. rewrite sum_app, sum_S, sum_0.
  change (a + x + sum (length v) (vget v) = a + (0 + x + sum (length v) (vget v))). ring.
Qed.

(** Weights of a support that sum to one are the strategy. *)
Lemma placed k supp (sol : Vec) : supp `sublist_of` seq 0 k ->
  (forall i, (i < length supp)%nat -> 0 <= vget sol i) -> sum (length supp) (vget sol) = 1 ->
  let v := normalize (SupportEnumeration.spread k supp sol) in
  distribution k v /\ forall f, sum k (fun a => f a * vget v a) = sum (length supp) (fun i => f (sget supp i) * vget sol i).
Proof.
  intros Hs Hn H1. cbv zeta. pose proof (SupportEnumeration.spread_length k supp sol) as Hl.
  assert (forall f, sum k (fun a => f a * vget (SupportEnumeration.spread k supp sol) a) =
    sum (length supp) (fun i => f (sget supp i) * vget sol i)) as Hf.
  { intros f. rewrite SupportEnumeration.spread_sum by done. apply sum_ext. intros i Hi. f_equal. exact_ops.
    destruct (nmax_cases 0 (vget sol i)) as [[-> ?]|[-> ?]]; [|done]. apply Qcle_antisym; [by apply Hn|done]. }
  assert (sum k (vget (SupportEnumeration.spread k supp sol)) = 1) as H2.
  { rewrite (sum_ext k _ (fun a => 1 * vget (SupportEnumeration.spread k supp sol) a)) by (intros; ring).
    rewrite (Hf (fun _ => 1)). transitivity (sum (length supp) (vget sol)); [apply sum_ext; intros; ring|done]. }
  assert (normalize (SupportEnumeration.spread k supp sol) = SupportEnumeration.spread k supp sol) as ->.
  { unfold normalize. exact_ops. change (foldl Qcplus) with (foldl (nadd (T := Qc))). rewrite foldl_sum, Hl, H2, Qcplus_0_l.
    destruct (nltb _ _); [|done]. rewrite <-(list_fmap_id (SupportEnumeration.spread k supp sol)) at 2.
    apply list_fmap_ext. intros _ x _. unfold Qcdiv. change (/ 1) with 1. by rewrite Qcmult_1_r. }
  split; [split; [done|split; [|done]]|done]. intros. by apply SupportEnumeration.spread_nonneg.
Qed.

Lemma homotopy_end s1 s2 w : s1 `sublist_of` seq 0 m -> s2 `sublist_of` seq 0 n ->
  let k1 := length s1 in
  let k2 := length s2 in
  vget w (k1 + k2 + 2) = 1 -> (forall i, (i < k1 + k2)%nat -> 0 <= vget w i) ->
  (forall e, (e < k1 + k2 + 2)%nat -> vget (homotopy_H s g s1 s2 w) e = 0) ->
  let p := extract_profile w m n s1 s2 in
  let v1 := vget w (k1 + k2) in
  let v2 := vget w (k1 + k2 + 1) in
  distribution m (strategy_1 p) /\ distribution n (strategy_2 p) /\
  expected_payoff_1 g (strategy_1 p) (strategy_2 p) = v1 /\ expected_payoff_2 g (strategy_1 p) (strategy_2 p) = v2 /\
  (nash g (strategy_1 p) (strategy_2 p) <->
   (forall i, (i < m)%nat -> worth_1 g (strategy_2 p) i <= v1) /\
   (forall j, (j < n)%nat -> worth_2 g (strategy_1 p) j <= v2)).
Proof.
  intros S1 S2 k1 k2 Ht Hpos HH p v1 v2.
  assert (sum k1 (vget w) = 1) as T1.
  { pose proof (HH (k1 + k2)%nat ltac:(lia)) as E. rewrite H_entry_3 in E. change (sum k1 (vget w) - 1 = 0) in E. qc_lra. }
  assert (sum k2 (vget (drop k1 w)) = 1) as T2.
  { pose proof (HH (k1 + k2 + 1)%nat ltac:(lia)) as E. rewrite H_entry_4 in E.
    rewrite (sum_ext _ _ (fun j => vget w (k1 + j)%nat)) by (intros; apply vget_drop). fold k1 k2 in E. qc_lra. }
  destruct (placed m s1 w S1) as [D1 F1]; [intros; apply Hpos; lia|done|].
  destruct (placed n s2 (drop k1 w) S2) as [D2 F2]; [intros; rewrite vget_drop; apply Hpos; unfold k2; lia|done|].
  change (normalize _) with (strategy_1 p) in D1, F1. change (normalize _) with (strategy_2 p) in D2, F2.
  destruct (actions_shaped g m n Hg) as [Em En].
  assert (forall i, (i < k1)%nat -> worth_1 g (strategy_2 p) (sget s1 i) = v1) as W1.
  { intros i Hi. unfold worth_1. rewrite En, (F2 (fun j => mget (payoff_1_ g) (sget s1 i) j)).
    rewrite (sum_ext _ _ (fun j => mget (payoff_1_ g) (sget s1 i) (sget s2 j) * vget w (k1 + j)%nat)) by (intros; by rewrite vget_drop).
    rewrite <-A_y_sum. pose proof (HH i ltac:(lia)) as E. rewrite H_entry_1 in E by done. fold k1 k2 v1 in E. rewrite Ht in E. exact (at_one _ _ _ E). }
  assert (forall j, (j < k2)%nat -> worth_2 g (strategy_1 p) (sget s2 j) = v2) as W2.
  { intros j Hj. unfold worth_2. rewrite Em, (F1 (fun i => mget (payoff_2_ g) i (sget s2 j))).
    change (B_x g s1 s2 w j = v2). pose proof (HH (k1 + j)%nat ltac:(lia)) as E. rewrite H_entry_2 in E by done.
    fold k1 k2 v2 in E. rewrite Ht in E. exact (at_one _ _ _ E). }
  assert (expected_payoff_1 g (strategy_1 p) (strategy_2 p) = v1) as P1.
  { rewrite (payoff_1_worth g m n Hg). rewrite (sum_ext m _ (fun i => worth_1 g (strategy_2 p) i * vget (strategy_1 p) i)) by (intros; ring).
    rewrite F1, (sum_ext _ _ (fun i => v1 * vget w i)) by (intros; by rewrite W1). rewrite sum_mul_l.
    change (v1 * sum k1 (vget w) = v1). rewrite T1. ring. }
  assert (expected_payoff_2 g (strategy_1 p) (strategy_2 p) = v2) as P2.
  { rewrite (payoff_2_worth g m n Hg). rewrite (sum_ext n _ (fun j => worth_2 g (strategy_1 p) j * vget (strategy_2 p) j)) by (intros; ring).
    rewrite F2, (sum_ext _ _ (fun j => v2 * vget (drop k1 w) j)) by (intros; by rewrite W2). rewrite sum_mul_l.
    change (v2 * sum k2 (vget (drop k1 w)) = v2). rewrite T2. ring. }
  split_and!; try done. split.
  - intros HN. destruct (nash_worth g m n Hg _ _ HN) as (N1 & _ & N2 & _). rewrite P1 in N1. by rewrite P2 in N2.
  - intros [N1 N2]. unfold nash. rewrite Em, En. split; [done|]. split; [done|]. apply (gains_pure g m n Hg).
    rewrite P1, P2, !Qcplus_0_r. done.
Qed.


(** C18. The homotopy leads from the prior to an equilibrium.  The start
    solves its equations up to the tolerance, at [t = 0]; and a point at
    [t = 1] that solves them with weights that are not negative is extracted
    as a pair of mixed strategies which the two values [v1] and [v2] are the
    payoffs of, and which is a Nash equilibrium exactly when no action
    outside the supports is worth more than those. *)
Theorem homotopy_connects : 0 < eps (tol_ s) ->
  let '(w0, s1, s2) := compute_start s g in
  let k1 := length s1 in
  let k2 := length s2 in
  starts (eps (tol_ s)) w0 s1 s2 /\
  forall w, vget w (k1 + k2 + 2) = 1 -> (forall i, (i < k1 + k2)%nat -> 0 <= vget w i) ->
    (forall e, (e < k1 + k2 + 2)%nat -> vget (homotopy_H s g s1 s2 w) e = 0) ->
    let p := extract_profile w m n s1 s2 in
    let v1 := vget w (k1 + k2) in
    let v2 := vget w (k1 + k2 + 1) in
    distribution m (strategy_1 p) /\ distribution n (strategy_2 p) /\
    expected_payoff_1 g (strategy_1 p) (strategy_2 p) = v1 /\ expected_payoff_2 g (strategy_1 p) (strategy_2 p) = v2 /\
    (nash g (strategy_1 p) (strategy_2 p) <->
     (forall i, (i < m)%nat -> worth_1 g (strategy_2 p) i <= v1) /\
     (forall j, (j < n)%nat -> worth_2 g (strategy_1 p) j <= v2)).
Proof.
  intros He. pose proof (compute_start_spec He) as Hs. destruct (compute_start s g) as [[w0 s1] s2].
  split; [done|]. destruct Hs as (S1 & S2 & _). intros w. by apply homotopy_end.
Qed.

End game.

Section outcome.
Context (s : HomotopySolver Qc) (g : BimatrixGame) (m n : nat) (Hg : game_shape g m n).

(** ** What the solver returns *)

Lemma norm_inf_ge (v : Vec) i : (i < length v)%nat -> nabs (vget v i) <= Linalg.norm_inf v.
Proof.
  unfold Linalg.norm_inf. assert (forall (l : Vec) a, a <= foldl (fun mx x => nmax mx (nabs x)) a l) as Hacc.
  { induction l as [|b l IH]; intros a; cbn [foldl]; [apply Qcle_refl|]. eapply Qcle_trans; [|apply IH].
    destruct (nmax_cases a (nabs b)) as [[-> ?]|[-> ?]]; [apply Qcle_refl|by apply Qclt_le_weak]. }
  revert i. generalize (0%num : Qc). induction v as [|b v IH]; intros a i Hi; cbn [length] in Hi; [lia|]. cbn [foldl].
  destruct i as [|i]; [|apply IH; lia]. eapply Qcle_trans; [|apply Hacc]. change (vget (b :: v) 0) with b.
  destruct (nmax_cases a (nabs b)) as [[-> ?]|[-> ?]]; [done|apply Qcle_refl].
Qed.

(** The strategy whose weights, one for each action of the support, are the
    positive parts of [sol], scaled to a sum of one. *)
Definition read_off (k : nat) (supp : list nat) (sol x : Vec) : Prop :=
  distribution k x /\
  (exists c, 0 < c /\ forall i, (i < length supp)%nat -> c * vget x (sget supp i) = nmax 0 (vget sol i)) /\
  forall a, (a < k)%nat -> a ∉ supp -> vget x a = 0.

Lemma normalize_weights k (v : Vec) : length v = k -> (forall i, (i < k)%nat -> 0 <= vget v i) ->
  length (normalize v) = k /\ (forall i, (i < k)%nat -> 0 <= vget (normalize v) i) /\
  ((distribution k (normalize v) /\ 0 < sum k (vget v) /\
    forall i, (i < k)%nat -> sum k (vget v) * vget (normalize v) i = vget v i) \/
   normalize v = v /\ sum k (vget v) <= lit 1 15).
Proof.
  intros Hl Hn. unfold normalize. rewrite foldl_sum, Hl. exact_ops. rewrite Qcplus_0_l.
  destruct (nltb_spec (lit 1 15) (sum k (vget v))) as [Hlt|Hge]; [|split_and!; [done..|right; split; [done|qc_lra]]].
  assert (0 < sum k (vget v)) as Hp by (eapply Qcle_lt_trans; [|exact Hlt]; by vm_compute).
  assert (forall i, (i < k)%nat -> vget ((fun x => x / sum k (vget v)) <$> v) i = vget v i * / sum k (vget v)) as Hv.
  { intros i Hi. unfold vget at 1. rewrite nth_lookup, list_lookup_fmap.
    destruct (lookup_lt_is_Some_2 v i ltac:(lia)) as [x Hx]. rewrite Hx. unfold vget at 2. by rewrite nth_lookup, Hx. }
  assert (sum k (vget v) * / sum k (vget v) = 1) as E1 by (apply Qcmult_inv_r; intros E; by rewrite E in Hp).
  assert (0 <= / sum k (vget v)) as Hinv.
  { destruct (Qclt_le_dec (/ sum k (vget v)) 0) as [Hneg|]; [|done]. exfalso.
    clear - Hneg Hp E1. generalize dependent (/ sum k (vget v)). intros. qc_nra. }
  assert (forall i, (i < k)%nat -> 0 <= vget ((fun x => x / sum k (vget v)) <$> v) i) as Hn'.
  { intros i Hi. rewrite Hv by done. apply mul_nonneg; auto. }
  split_and!; [by rewrite length_fmap|done|left]. split; [split; [by rewrite length_fmap|split; [done|]]|split; [done|]].
  - rewrite (sum_ext k _ (fun i => vget v i * / sum k (vget v))) by done. by rewrite sum_mul_r.
  - intros i Hi. rewrite Hv by done. rewrite Qcmult_comm, <-Qcmult_assoc, (Qcmult_comm (/ _)), E1. ring.
Qed.

(** Half of the weight is enough. *)
Lemma spread_read_off k supp (sol : Vec) : supp `sublist_of` seq 0 k -> q 1 2 <= sum (length supp) (vget sol) ->
  read_off k supp sol (normalize (SupportEnumeration.spread k supp sol)).
Proof.
  intros Hs Hw. pose proof (SupportEnumeration.spread_length k supp sol) as Hl.
  destruct (SupportEnumeration.sublist_seq k supp Hs) as [Hnd Hlt].
  destruct (SupportEnumeration.spread_spec k supp sol Hnd Hlt) as [H1 H2].
  assert (sum (length supp) (vget sol) <= sum k (vget (SupportEnumeration.spread k supp sol))) as Hsum.
  { rewrite (sum_ext k _ (fun a => 1 * vget (SupportEnumeration.spread k supp sol) a)) by (intros; ring).
    rewrite (SupportEnumeration.spread_sum k supp sol (fun _ => 1) Hs). apply sum_le. intros i Hi. exact_ops.
    destruct (nmax_cases 0 (vget sol i)) as [[-> ?]|[-> ?]]; qc_lra. }
  destruct (normalize_weights k (SupportEnumeration.spread k supp sol) Hl) as (_ & _ & [(Hd & Hp & E)|[_ Hge]]).
  { intros i Hi. by apply SupportEnumeration.spread_nonneg. }
  - set (v := SupportEnumeration.spread k supp sol) in *. split; [done|]. rewrite Forall_forall in Hlt.
    split; [exists (sum k (vget v)); split; [done|]|].
    + intros i Hi. rewrite E; [by apply H1|]. apply Hlt. unfold sget. rewrite nth_lookup.
      destruct (lookup_lt_is_Some_2 supp i Hi) as [a Ha]. rewrite Ha. by eapply list_elem_of_lookup_2.
    + intros a Ha Hns. specialize (E a Ha). rewrite H2 in E by done. exact_ops.
      apply Qcmult_integral in E as [E|E]; [by rewrite E in Hp|done].
  - exfalso. assert (lit 1 15 < q 1 2) as Hlit by by vm_compute. clear - Hsum Hw Hge Hlit. qc_lra.
Qed.

(** A point whose two sums are within a half of one. *)
Definition summed (k1 k2 : nat) (w : Vec) : Prop :=
  q 1 2 <= sum k1 (vget w) /\ q 1 2 <= sum k2 (vget (drop k1 w)).

Lemma entries_summed s' s1 s2 w :
  (forall e, (e < length s1 + length s2 + 2)%nat -> nabs (vget (homotopy_H s' g s1 s2 w) e) < q 1 2) ->
  summed (length s1) (length s2) w.
Proof.
  set (k1 := length s1) in *. set (k2 := length s2) in *. intros H.
  pose proof (H (k1 + k2)%nat ltac:(lia)) as E1. pose proof (H (k1 + k2 + 1)%nat ltac:(lia)) as E2. clear H.
  unfold k1, k2 in E1, E2. rewrite H_entry_3 in E1. rewrite H_entry_4 in E2. fold k1 k2 in E1, E2.
  assert (q 1 2 + q 1 2 = 1) as Hq by by apply Qc_is_canon. unfold summed.
  rewrite (sum_ext k2 (vget (drop k1 w)) (fun j => vget w (k1 + j)%nat)) by (intros; apply vget_drop).
  cbn [Nat.add] in E1. change (fun i => vget w i) with (vget w) in E1.
  generalize dependent (sum k2 (fun j => vget w (k1 + j)%nat)). generalize dependent (sum k1 (vget w)).
  generalize dependent (q 1 2). intros h Hq a Ha b Hb.
  destruct (nabs_cases (a - 1)) as [[Ea ?]|[Ea ?]]; rewrite Ea in Ha; destruct (nabs_cases (b - 1)) as [[Eb ?]|[Eb ?]]; rewrite Eb in Hb;
    clear Ea Eb; split; qc_lra.
Qed.

Lemma solution_summed s' s1 s2 w : Linalg.norm_inf (homotopy_H s' g s1 s2 w) < q 1 2 -> summed (length s1) (length s2) w.
Proof.
  intros Hn. apply (entries_summed s'). intros e He. eapply Qcle_lt_trans; [apply norm_inf_ge|exact Hn].
  unfold homotopy_H. by rewrite vec_length.
Qed.

Lemma start_summed s' w0 s1 s2 : 0 < eps (tol_ s') -> eps (tol_ s') <= q 1 2 -> compute_start s' g = (w0, s1, s2) ->
  s1 `sublist_of` seq 0 m /\ s2 `sublist_of` seq 0 n /\ length w0 = (length s1 + length s2 + 3)%nat /\
  summed (length s1) (length s2) w0.
Proof.
  intros He He2 E. pose proof (compute_start_spec s' g m n Hg He) as Hs. rewrite E in Hs.
  destruct Hs as (S1 & S2 & _ & _ & Hl & _ & HH). split_and!; [done..|]. apply (entries_summed s').
  intros e Hlt. eapply Qclt_le_trans; [by apply HH|done].
Qed.

(** The tolerances at which the weights of every point of a path keep their
    sums. *)
Definition fine : Prop :=
  0 < eps (tol_ s) /\ eps (tol_ s) <= q 1 2 /\ conv_tol (tol_ s) <= q 1 2 /\
  Path.corrector_tol (cfg_ s) <= q 1 2 /\ q 1 2 <= Path.target_t (cfg_ s).

(** What [extract_profile] makes of a point. *)
Definition extracted_from (w : Vec) (s1 s2 : list nat) (p : StrategyProfile Qc) : Prop :=
  read_off m s1 w (strategy_1 p) /\ read_off n s2 (drop (length s1) w) (strategy_2 p).

Lemma extract_spec w s1 s2 : s1 `sublist_of` seq 0 m -> s2 `sublist_of` seq 0 n -> summed (length s1) (length s2) w ->
  extracted_from w s1 s2 (extract_profile w m n s1 s2).
Proof. intros S1 S2 [W1 W2]. split; by apply spread_read_off. Qed.

(** What [polish] makes of a root of the complementarity conditions: it can
    have no weight to speak of. *)
Definition scaled (k : nat) (f : nat -> Qc) (x : Vec) : Prop :=
  length x = k /\ (forall i, (i < k)%nat -> 0 <= vget x i) /\
  ((distribution k x /\ exists c, 0 < c /\ forall i, (i < k)%nat -> c * vget x i = nmax 0 (f i)) \/
   (forall i, (i < k)%nat -> vget x i = nmax 0 (f i)) /\ sum k (vget x) <= lit 1 15).

Definition polished_from (z : Vec) (p : StrategyProfile Qc) : Prop :=
  Linalg.norm_inf (Newton.F (eq_sys g m n) z) < conv_tol (tol_ s) /\
  scaled m (vget z) (strategy_1 p) /\ scaled n (fun j => vget z (m + j)) (strategy_2 p).

Lemma normalize_scaled k f : scaled k f (normalize (vec k (fun i => nmax 0 (f i)))).
Proof.
  assert (forall x : Qc, 0 <= nmax 0 x) as Hmax.
  { intros x. destruct (nmax_cases 0 x) as [[-> ?]|[-> ?]]; [done|by apply Qclt_le_weak]. }
  destruct (normalize_weights k (vec k (fun i => nmax 0 (f i)))) as (Hl & Hn & Hd); [apply vec_length|by intros; rewrite vget_vec|].
  split; [done|]. split; [done|]. destruct Hd as [(Hd & Hp & E)|[E ?]].
  - left. split; [done|]. eexists. split; [exact Hp|]. intros i Hi. rewrite E by done. by rewrite vget_vec.
  - right. rewrite E. split; [intros i Hi; by rewrite vget_vec|done].
Qed.

(** The equations at the points of a path. *)
Lemma path_summed_on_curve s' s1 s2 w : fine -> Path.on_curve (cfg_ s) (build_homotopy s' g s1 s2) w ->
  summed (length s1) (length s2) w.
Proof.
  intros (_ & _ & _ & Ht & _) Hon. apply (solution_summed s'). unfold Path.on_curve in Hon. cbn [Path.H_ build_homotopy] in Hon.
  assert (lit 1 2 <= (1 : Qc)) as Hl by by vm_compute. assert (0 < (lit 1 2 : Qc)) as Hl0 by by vm_compute.
  destruct Hon as [Hon|Hon];
    match type of Hon with (?a <? ?b)%num = true => destruct (nltb_spec a b) as [Hlt|]; [|done] end.
  - eapply Qclt_le_trans; [exact Hlt|done].
  - eapply Qclt_le_trans; [exact Hlt|]. exact_ops. assert (0 < q 1 2) as Hq by by vm_compute. clear - Ht Hl Hl0 Hq.
    generalize dependent (q 1 2). generalize dependent (lit (T := Qc) 1 2). intros. qc_nra.
Qed.

Lemma path_summed fuel s' s1 s2 w0 p : fine -> summed (length s1) (length s2) w0 ->
  Path.follow_path fuel (build_homotopy s' g s1 s2) w0 (cfg_ s) = Some p ->
  summed (length s1) (length s2) (Path.w_final p).
Proof. intros Hf H0 Hp. apply Path.follow_path_honest in Hp as ([->|Hon] & _); [done|]. by eapply path_summed_on_curve. Qed.

(** *** The attempts *)

(** The homotopies of the retries and where they start: perturbed priors,
    and the uniform one from a corrected point at [t = 0.01]. *)
Inductive perturbed (perts : list (Qc * Qc)) : Path.HomotopySystem Qc -> Vec -> list nat -> list nat -> Prop :=
| perturbed_by pert w0 s1 s2 : pert ∈ perts ->
    let s' := set_prior (perturbed_prior pert m) (perturbed_prior pert n) s in
    compute_start s' g = (w0, s1, s2) -> perturbed perts (build_homotopy s' g s1 s2) w0 s1 s2.

Inductive uniform : Path.HomotopySystem Qc -> Vec -> list nat -> list nat -> Prop :=
| uniform_at w0 s1 s2 :
    let s' := set_prior (replicate m (1 / of_size m)) (replicate n (1 / of_size n)) s in
    let sys := build_homotopy s' g s1 s2 in
    compute_start s' g = (w0, s1, s2) ->
    uniform sys (correct_start sys (lit 1 2) 30 (set_back w0 (lit 1 2))) s1 s2.

Definition retry_of (sys : Path.HomotopySystem Qc) (w0 : Vec) (s1 s2 : list nat) : Prop :=
  perturbed perturbations sys w0 s1 s2 \/ uniform sys w0 s1 s2.

(** A retry that arrives at the point [w]. *)
Definition retried (fuel : nat) (w : Vec) (s1 s2 : list nat) : Prop :=
  exists sys w0 p, retry_of sys w0 s1 s2 /\ Path.follow_path fuel sys w0 (cfg_ s) = Some p /\
    arrived p = true /\ w = Path.w_final p.

(** The step from [r] to [r'] by the retries among [these]. *)
Definition improved (fuel : nat) (these : Path.HomotopySystem Qc -> Vec -> list nat -> list nat -> Prop)
    (r r' : EquilibriumResult Qc) : Prop :=
  (profile r' = profile r \/ exists w s1 s2, retried fuel w s1 s2 /\ profile r' = extract_profile w m n s1 s2) /\
  residual r' <= residual r /\
  (conv_tol (tol_ s) < residual r' -> forall sys w0 s1 s2 p, these sys w0 s1 s2 ->
     Path.follow_path fuel sys w0 (cfg_ s) = Some p -> arrived p = true ->
     residual r' <= residual_of g (extract_profile (Path.w_final p) m n s1 s2)) /\
  (status r' = status r \/ status r' = Converged /\ residual r' < conv_tol (tol_ s)).

Lemma improved_trans fuel P Q r1 r2 r3 : improved fuel P r1 r2 -> improved fuel Q r2 r3 ->
  improved fuel (fun sys w0 s1 s2 => P sys w0 s1 s2 \/ Q sys w0 s1 s2) r1 r3.
Proof.
  intros (A1 & A2 & A3 & A4) (B1 & B2 & B3 & B4). split_and!.
  - destruct B1 as [->|?]; [done|by right].
  - by eapply Qcle_trans.
  - intros Hc sys w0 s1 s2 p [HP|HQ] Hf Ha; [|by eapply B3].
    eapply Qcle_trans; [exact B2|]. eapply A3; try done. by eapply Qclt_le_trans.
  - destruct B4 as [->|?]; [|by right]. destruct A4 as [?|[? ?]]; [by left|right]. split; [done|]. by eapply Qcle_lt_trans.
Qed.

Lemma improved_refl fuel P r : (conv_tol (tol_ s) < residual r -> forall sys w0 s1 s2, ~ P sys w0 s1 s2) -> improved fuel P r r.
Proof.
  intros HP. split_and!; [by left|apply Qcle_refl| |by left]. intros Hc sys w0 s1 s2 p Hsys. by destruct (HP Hc sys w0 s1 s2).
Qed.

Lemma better_improved fuel sys w0 s1 s2 p r : retry_of sys w0 s1 s2 -> Path.follow_path fuel sys w0 (cfg_ s) = Some p ->
  let r' := default r (better g s1 s2 p r) in
  improved fuel (fun sys' w0' s1' s2' => sys' = sys /\ w0' = w0 /\ s1' = s1 /\ s2' = s2) r r' /\
  status r' = status r.
Proof.
  intros Hr Hf. destruct (actions_shaped g m n Hg) as [Em En]. cbv zeta. unfold better. rewrite Em, En.
  set (prof := extract_profile _ _ _ _ _). destruct (arrived p) eqn:Ha; cbn [andb].
  - destruct (nltb_spec (nash_residual g (strategy_1 prof) (strategy_2 prof)) (residual r)) as [Hlt|Hge]; cbn [default].
    + split; [|done]. split_and!; cbn.
      * right. exists (Path.w_final p), s1, s2. split; [|done]. by exists sys, w0, p.
      * by apply Qclt_le_weak.
      * intros _ ? ? ? ? p' (-> & -> & -> & ->) Hf' _. rewrite Hf in Hf'. injection Hf' as <-. apply Qcle_refl.
      * by left.
    + split; [|done]. split_and!; [by left|apply Qcle_refl| |by left].
      intros _ ? ? ? ? p' (-> & -> & -> & ->) Hf' _. rewrite Hf in Hf'. injection Hf' as <-. by apply Qcnot_lt_le.
  - split; [|done]. split_and!; [by left|apply Qcle_refl| |by left].
    intros _ ? ? ? ? p' (-> & -> & -> & ->) Hf' Ha'. rewrite Hf in Hf'. injection Hf' as <-. congruence.
Qed.

Lemma improved_weaken fuel (P Q : Path.HomotopySystem Qc -> Vec -> list nat -> list nat -> Prop) r r' :
  (conv_tol (tol_ s) < residual r' -> forall sys w0 s1 s2, Q sys w0 s1 s2 -> P sys w0 s1 s2) ->
  improved fuel P r r' -> improved fuel Q r r'.
Proof. intros HPQ (H1 & H2 & H3 & H4). split_and!; [done|done| |done]. intros Hc ? ? ? ? ? HQ. apply H3; auto. Qed.

Lemma improved_converged fuel P r r' : improved fuel P r r' -> residual r' < conv_tol (tol_ s) ->
  improved fuel P r (set_status Converged r').
Proof. intros (H1 & H2 & H3 & _) Hlt. split_and!; [done|done|done|]. by right. Qed.

Lemma retry_perturbed_improved fuel perts r r' : (forall pert, pert ∈ perts -> pert ∈ perturbations (T := Qc)) ->
  retry_perturbed fuel s g perts r = Some r' -> improved fuel (perturbed perts) r r'.
Proof.
  revert r r'. induction perts as [|pert perts IH]; intros r r' Hin; cbn [retry_perturbed].
  { intros [= <-]. apply improved_refl. intros _ sys w0 s1 s2 [pert w1 t1 t2 Hp s1' Hc]. by apply not_elem_of_nil in Hp. }
  destruct (actions_shaped g m n Hg) as [Em En]. rewrite Em, En.
  destruct (compute_start _ g) as [[w0 s1] s2] eqn:Es. set (s' := set_prior _ _ s) in *.
  destruct (Path.follow_path _ _ _ _) as [p|] eqn:Ef; [|done].
  destruct (better_improved fuel (build_homotopy s' g s1 s2) w0 s1 s2 p r) as [Hb Hst]; [by left; econstructor; [apply Hin; left|]|done|].
  assert (forall r', retry_perturbed fuel s g perts (default r (better g s1 s2 p r)) = Some r' ->
    improved fuel (perturbed (pert :: perts)) r r') as Hrest.
  { intros r1 Hr1. apply IH in Hr1; [|intros; apply Hin; by right].
    eapply improved_weaken; [|exact (improved_trans _ _ _ _ _ _ Hb Hr1)].
    intros _ ? ? ? ? [pert' w0' t1 t2 Hp s'' Hc]. apply elem_of_cons in Hp as [->|Hp]; [left|right; by constructor].
    unfold s'' in *. fold s' in Hc |- *. rewrite Es in Hc. by injection Hc as <- <- <-. }
  destruct (better g s1 s2 p r) as [r1|]; cbn [default] in *; [|by apply Hrest].
  destruct (nltb_spec (residual r1) (conv_tol (tol_ s))) as [Hlt|Hge]; [|by apply Hrest].
  intros [= <-]. apply improved_converged; [|done]. eapply improved_weaken; [|exact Hb].
  intros Hc. exfalso. by apply (Qclt_not_le _ _ Hlt), Qclt_le_weak.
Qed.

Lemma retry_uniform_improved fuel r r' : retry_uniform fuel s g r = Some r' -> improved fuel uniform r r'.
Proof.
  unfold retry_uniform. destruct (actions_shaped g m n Hg) as [Em En]. rewrite Em, En.
  destruct (compute_start _ g) as [[w0 s1] s2] eqn:Es. set (s' := set_prior _ _ s) in *.
  destruct (Path.follow_path _ _ _ _) as [p|] eqn:Ef; [|done]. intros [= <-].
  match type of Ef with Path.follow_path _ ?sys ?w _ = _ =>
    destruct (better_improved fuel sys w s1 s2 p r) as [Hb Hst]; [by right; apply uniform_at|done|] end.
  eapply improved_weaken; [|exact Hb]. intros _ ? ? ? ? [w1 t1 t2 s'' sys Hc].
  unfold sys. change s'' with s' in Hc |- *. rewrite Es in Hc. by injection Hc as <- <- <-.
Qed.

Lemma when_worse_improved fuel P r r' retry : when_worse s r retry = Some r' ->
  (retry r = Some r' -> improved fuel P r r') -> improved fuel P r r'.
Proof.
  unfold when_worse. destruct (nltb_spec (conv_tol (tol_ s)) (residual r)) as [Hlt|Hge]; intros E Hr; [by apply Hr|].
  injection E as <-. apply improved_refl. intros Hc. done.
Qed.

(** *** The first result *)

(** The point at [t = 1] the end of the path is taken to, if it is not
    there: a root found by Newton's method, or the end with [t] replaced. *)
Definition pinned (sys : Path.HomotopySystem Qc) (w_final w : Vec) : Prop :=
  (nabs (vback w_final - 1) <= lit 1 8 /\ w = w_final) \/
  (lit 1 8 < nabs (vback w_final - 1) /\ vback w = 1 /\
   (w = set_back w_final 1 \/ Linalg.norm_inf (Path.H_ sys w) < conv_tol (tol_ s))).

(** Where the profile of the first result comes from. *)
Definition first_profile (sys : Path.HomotopySystem Qc) (s1 s2 : list nat) (p : Path.PathResult Qc)
    (P : StrategyProfile Qc) : Prop :=
  (arrived p = false /\ extracted_from (Path.w_final p) s1 s2 P) \/
  (arrived p = true /\ exists w P', pinned sys (Path.w_final p) w /\ extracted_from w s1 s2 P' /\
   (P = P' \/ conv_tol (tol_ s) < residual_of g P' /\ exists z, polished_from z P)).

Lemma set_back_spec (w : Vec) x k : length w = (k + 1)%nat ->
  length (set_back w x) = (k + 1)%nat /\ vback (set_back w x) = x /\
  forall i, (i < k)%nat -> vget (set_back w x) i = vget w i.
Proof.
  intros Hl. unfold set_back, vback. rewrite length_insert, Hl. split; [done|].
  split; [|intros i Hi]; rewrite vget_insert by lia; [by rewrite decide_True|by rewrite decide_False by lia].
Qed.

Lemma summed_ext k1 k2 w w' : (forall i, (i < k1 + k2)%nat -> vget w i = vget w' i) -> summed k1 k2 w' -> summed k1 k2 w.
Proof.
  intros E [H1 H2]. split.
  - rewrite (sum_ext k1 _ (vget w')); [done|]. intros i Hi. apply E. lia.
  - rewrite (sum_ext k2 _ (vget (drop k1 w'))); [done|]. intros i Hi. rewrite !vget_drop. apply E. lia.
Qed.

Lemma pin_spec s' s1 s2 w : tol_ s' = tol_ s -> fine -> length w = (length s1 + length s2 + 3)%nat ->
  summed (length s1) (length s2) w ->
  let sys := build_homotopy s' g s1 s2 in
  let w' := pin s' sys (length s1) (length s2) w in
  pinned sys w w' /\ summed (length s1) (length s2) w'.
Proof.
  intros Ht (_ & _ & Hconv & _) Hl Hw sys. unfold pin. rewrite Ht. exact_ops.
  destruct (nltb_spec (lit 1 8) (nabs (vback w - 1))) as [Hlt|Hge].
  2:{ split; [left; split; [by apply Qcnot_lt_le|done]|done]. }
  set (k1 := length s1) in *. set (k2 := length s2) in *. set (dim := (k1 + k2 + 2)%nat).
  assert (length w = (dim + 1)%nat) as Hl' by (unfold dim; lia).
  destruct (set_back_spec w 1 dim Hl') as (L1 & B1 & E1).
  set (nr := Newton.newton_solve _ _ _ _). destruct (Newton.converged nr) eqn:Hnc.
  - assert (length (Newton.x nr) = dim) as Hnl by (unfold nr; rewrite Newton.newton_length; apply vec_length).
    destruct (Newton.newton_honest (pin_sys sys k1 k2) (vec dim (vget (set_back w 1))) (conv_tol (tol_ s)) 50) as (Hres & Hcv & _).
    fold nr in Hres, Hcv. rewrite Hcv in Hnc. destruct (nltb_spec (Newton.residual nr) (conv_tol (tol_ s))) as [Hn|]; [clear Hnc|done].
    rewrite Hres in Hn. cbn [Newton.F pin_sys] in Hn.
    set (w1 := for_ 0 dim _ _).
    assert (length w1 = (dim + 1)%nat /\ forall i, (i < dim)%nat -> vget w1 i = vget (Newton.x nr) i) as [Lw1 Ew1].
    { pose (P b (v : Vec) := (b <= dim)%nat -> length v = (dim + 1)%nat /\ forall i, (i < b)%nat -> vget v i = vget (Newton.x nr) i).
      enough (P dim w1) as G by by apply G. unfold w1. apply for_inv; unfold P; [lia|intros _; split; [done|lia]|].
      intros i v Hi IH Hb. destruct IH as [IHl IH]; [lia|]. split; [by rewrite length_insert|]. intros k Hk.
      rewrite vget_insert by lia. case_decide; [by subst|]. apply IH. lia. }
    destruct (set_back_spec w1 1 dim Lw1) as (L2 & B2 & E2).
    assert (set_back w1 1 = Newton.x nr ++ [1]) as Ew.
    { apply vget_ext; [rewrite length_app, Hnl; cbn; lia|]. intros i Hi. rewrite L2 in Hi.
      destruct (decide (i < dim)%nat) as [Hid|].
      - rewrite E2, Ew1 by done. rewrite vget_app_l by lia. done.
      - assert (i = dim) as -> by lia. unfold vback in B2. rewrite L2 in B2. replace (dim + 1 - 1)%nat with dim in B2 by lia.
        rewrite B2. unfold vget. rewrite app_nth2 by lia. by rewrite Hnl, Nat.sub_diag. }
    exact_ops. change (of_Z 1) with 1 in Hn. rewrite <-Ew in Hn. split.
    + right. split; [done|]. split; [done|]. by right.
    + apply (solution_summed s'). eapply Qclt_le_trans; [exact Hn|done].
  - split; [right; split; [done|]; split; [done|by left]|].
    apply (summed_ext _ _ _ w); [|done]. intros i Hi. apply E1. unfold dim. lia.
Qed.

Lemma first_result_spec fuel s' w0 s1 s2 p : tol_ s' = tol_ s -> fine -> compute_start s' g = (w0, s1, s2) ->
  let sys := build_homotopy s' g s1 s2 in
  Path.follow_path fuel sys w0 (cfg_ s) = Some p ->
  let r := first_result s' g sys s1 s2 p in
  first_profile sys s1 s2 p (profile r) /\ (status r = if arrived p then Converged else NumericalFailure).
Proof.
  intros Ht Hf Hs sys Hp. pose proof Hf as (He & He2 & _).
  destruct (start_summed s' w0 s1 s2) as (S1 & S2 & Hl & Hw); [by rewrite Ht..|done|].
  pose proof (path_summed fuel s' s1 s2 w0 p Hf Hw Hp) as Hwf. pose proof (Path.follow_path_length _ _ _ _ _ Hp) as Hlf.
  rewrite Hl in Hlf. destruct (actions_shaped g m n Hg) as [Em En]. unfold first_profile, first_result. rewrite Em, En.
  destruct (pin_spec s' s1 s2 (Path.w_final p) Ht Hf Hlf Hwf) as [Hpin Hps]. fold sys in Hpin, Hps.
  destruct (arrived p).
  - set (w := pin _ _ _ _ _) in *. set (P' := extract_profile w m n s1 s2).
    assert (extracted_from w s1 s2 P') as HP' by by apply extract_spec.
    unfold polish. cbn [residual with_profile]. rewrite Ht, Em, En.
    destruct (nltb_spec (conv_tol (tol_ s)) (nash_residual g (strategy_1 P') (strategy_2 P'))) as [Hlt|Hge].
    + set (nr := Newton.newton_solve _ _ _ _). destruct (Newton.converged nr) eqn:Hnc.
      * split; [|done]. right. split; [done|]. exists w, P'. split; [done|]. split; [done|]. right. split; [done|].
        exists (Newton.x nr). cbn [profile with_profile]. unfold nr in *.
        match type of Hnc with Newton.converged (Newton.newton_solve ?F ?z ?t ?k) = _ =>
          destruct (Newton.newton_honest F z t k) as (Hres & Hcv & _) end.
        rewrite Hcv in Hnc. match type of Hnc with (?a <? ?b)%num = true => destruct (nltb_spec a b) as [Hn|]; [clear Hnc|done] end.
        rewrite Hres in Hn. split; [exact Hn|]. split; cbn [strategy_1 strategy_2]; apply normalize_scaled.
      * split; [|done]. right. split; [done|]. exists w, P'. split; [done|]. split; [done|]. by left.
    + split; [|done]. right. split; [done|]. exists w, P'. split; [done|]. split; [done|]. by left.
  - split; [|done]. left. split; [done|]. by apply extract_spec.
Qed.

Lemma honest_lengths r : honest g r -> length (strategy_1 (profile r)) = m /\ length (strategy_2 (profile r)) = n.
Proof.
  destruct (actions_shaped g m n Hg) as [Em En]. intros (Hp & _). revert Hp. generalize (profile r). intros P.
  assert (forall v : Vec, length (normalize v) = length v) as Hl by (intros v; unfold normalize; by destruct (_ <? _)%num; rewrite ?length_fmap).
  intros [w s1 s2|z]; cbn [extract_profile strategy_1 strategy_2]; rewrite !Hl, ?SupportEnumeration.spread_length, ?vec_length, ?Em, ?En; done.
Qed.

Lemma retried_extracted fuel w s1 s2 : fine -> retried fuel w s1 s2 ->
  extracted_from w s1 s2 (extract_profile w m n s1 s2).
Proof.
  intros Hf (sys0 & v0 & p & Hr & Hp & Ha & ->). revert Hp. pose proof Hf as (He & He2 & _ & _ & Htarget).
  destruct Hr as [[pert w0 t1 t2 _ s' Hc]|[w0 t1 t2 s' sys Hc]]; intros Hp; destruct (start_summed s' w0 t1 t2 He He2 Hc) as (S1 & S2 & Hl & Hw);
    apply extract_spec; try done.
  - by apply (path_summed fuel s' t1 t2 w0 p).
  - pose proof (Path.follow_path_honest _ _ _ _ _ Hp) as ([E|Hon] & Htf & _ & Hreach & _).
    + exfalso. assert (vback (Path.w_final p) = lit 1 2) as Hb.
      { rewrite E. assert (forall k w, length w = (length t1 + length t2 + 2 + 1)%nat -> vback w = lit 1 2 ->
          vback (correct_start sys (lit 1 2) k w) = lit 1 2) as G.
        { intros k. induction k as [|k IH]; intros v Hlv Hv; cbn [correct_start]; [done|].
          destruct (_ <? _)%num; [done|]. destruct (Linalg.solve _ _ _) as [dw|]; [|done].
          set (v' := for_ _ _ _ v). assert (length v' = length v) as Lv'.
          { unfold v'. apply (for_inv (fun _ u => length u = length v)); [cbn; lia|done|]. intros i u _ IHu. by rewrite length_insert. }
          rewrite Hlv in Lv'. destruct (set_back_spec v' (lit 1 2) _ Lv') as (L & B & _). by apply IH. }
        assert (length w0 = (length t1 + length t2 + 2 + 1)%nat) as Hl' by lia.
        destruct (set_back_spec w0 (lit 1 2) _ Hl') as (L & B & _). by apply G. }
      rewrite Hb in Htf. unfold arrived in Ha. rewrite Htf in Ha, Hreach.
      assert (lit 1 2 < q 1 2 - lit 1 12) as C1 by by vm_compute. assert ((lit 1 2 : Qc) < 1 - lit 1 4) as C2 by by vm_compute.
      apply orb_true_iff in Ha as [Ha|Ha].
      * specialize (Hreach Ha). exact_ops.
        match type of Hreach with (?a <=? ?b)%num = true => destruct (nleb_spec a b) as [Hle|]; [|done] end.
        clear - Hle C1 Htarget. exact_ops. qc_lra.
      * exact_ops. match type of Ha with (?a <? ?b)%num = true => destruct (nltb_spec a b) as [Hlt|]; [|done] end.
        clear - Hlt C2. exact_ops. qc_lra.
    + apply (path_summed_on_curve s'); [done..|exact Hon].
Qed.

End outcome.

Lemma solve_improved fuel s g m n r : game_shape g m n ->
  let s' := init_priors s g in
  let '(w0, s1, s2) := compute_start s' g in
  let sys := build_homotopy s' g s1 s2 in
  solve fuel s g = Some (s', r) ->
  exists p0, Path.follow_path fuel sys w0 (cfg_ s) = Some p0 /\
    let r0 := first_result s' g sys s1 s2 p0 in
    improved s' g m n fuel (retry_of s' g m n) r0 (set_status (status r0) r) /\
    (status r = Converged <-> status r0 = Converged \/ residual r < conv_tol (tol_ s)).
Proof.
  intros Hg s'. unfold solve. fold s'. destruct (compute_start s' g) as [[w0 s1] s2].
  change (cfg_ s') with (cfg_ s). set (sys := build_homotopy s' g s1 s2).
  destruct (Path.follow_path fuel sys w0 (cfg_ s)) as [p0|]; cbn [mbind option_bind]; [|done].
  set (r0 := first_result s' g sys s1 s2 p0).
  destruct (when_worse s' r0 _) as [r1|] eqn:E1; cbn [mbind option_bind]; [|done].
  destruct (when_worse s' r1 _) as [r2|] eqn:E2; cbn [mbind option_bind]; [|done].
  intros [= <-]. exists p0. split; [done|]. cbv zeta. fold r0.
  apply (when_worse_improved s' g m n fuel (perturbed s' g m n perturbations)) in E1.
  2:{ by apply retry_perturbed_improved. }
  apply (when_worse_improved s' g m n fuel (uniform s' g m n)) in E2.
  2:{ by apply retry_uniform_improved. }
  pose proof (improved_trans s' g m n fuel _ _ _ _ _ E1 E2) as (H1 & H2 & H3 & H4).
  change (tol_ s') with (tol_ s) in *.
  assert (forall r3, (if negb (bool_decide (status r2 = Converged)) && (residual r2 <? conv_tol (tol_ s))%num
    then set_status Converged r2 else r2) = r3 -> profile r3 = profile r2 /\ residual r3 = residual r2 /\
    (status r3 = Converged <-> status r2 = Converged \/ residual r2 < conv_tol (tol_ s))) as Hfin.
  { intros r3 <-. destruct (bool_decide_reflect (status r2 = Converged)) as [Hc|Hc]; cbn [negb andb]; [split_and!; tauto|].
    destruct (nltb_spec (residual r2) (conv_tol (tol_ s))); cbn; split_and!; tauto. }
  destruct (Hfin _ eq_refl) as (F1 & F2 & F3). set (r3 := if _ : bool then _ else _) in *. split.
  - split_and!; cbn [set_status profile residual status]; rewrite ?F1, ?F2; [done|done| |by left].
    by intros Hc; apply H3.
  - rewrite F3, F2. destruct H4 as [->|[-> ?]]; tauto.
Qed.

(** C19. In exact arithmetic the solver returns a result for every game and
    every path configuration whose steps shrink and whose tolerances are at
    most a half.  The result's profile is that of the first path or of a
    retry that arrived; the strategies are mixed strategies, read off the
    variables of a point of the path for the actions of the supports, unless
    they were polished to a root of the complementarity conditions, which can
    have no weight.  No deviation gains more than the residual and some
    deviation gains that much.  It is at most that of the first path and,
    while it is above the tolerance, at most that of every retry that
    arrives.  The status is Converged exactly when the first path arrived or
    the residual is below the tolerance, and a failure otherwise. *)
Theorem homotopy_solve_exact s g m n N : game_shape g m n -> Path.shrinks (cfg_ s) N -> fine s ->
  let fuel := (Z.to_nat (Path.max_steps (cfg_ s)) * S N + 1)%nat in
  let s' := init_priors s g in
  let '(w0, s1, s2) := compute_start s' g in
  let sys := build_homotopy s' g s1 s2 in
  exists r p0 P0, solve fuel s g = Some (s', r) /\
    Path.follow_path fuel sys w0 (cfg_ s) = Some p0 /\ first_profile s' g m n sys s1 s2 p0 P0 /\
    let x := strategy_1 (profile r) in
    let y := strategy_2 (profile r) in
    (profile r = P0 \/ exists w t1 t2, retried s' g m n fuel w t1 t2 /\ extracted_from m n w t1 t2 (profile r)) /\
    (forall e, 0 <= e -> residual r <= e <-> gains_at_most g e x y) /\
    residual r <= residual_of g P0 /\
    (conv_tol (tol_ s) < residual r -> forall w t1 t2, retried s' g m n fuel w t1 t2 ->
       extracted_from m n w t1 t2 (extract_profile w m n t1 t2) /\
       residual r <= residual_of g (extract_profile w m n t1 t2)) /\
    (status r = Converged <-> arrived p0 = true \/ residual r < conv_tol (tol_ s)) /\
    (status r = Converged \/ status r = NumericalFailure).
Proof.
  intros Hg HN Hf fuel s'. destruct (solve_ends fuel s g) as (s1' & r & E).
  { intros ? ?. by apply Path.path_ends. }
  destruct (solve_honest _ _ _ _ _ E) as (-> & (Hp & Hr & Hpay & Hst) & _).
  pose proof (solve_improved fuel s g m n r Hg) as Hi. fold s' in Hi, E. cbv zeta in Hi.
  destruct (compute_start s' g) as [[w0 s1] s2] eqn:Es. destruct (Hi E) as (p0 & Hp0 & (I1 & I2 & I3 & _) & Hstat).
  cbn [set_status profile residual] in I1, I2, I3. assert (fine s') as Hf' by exact Hf.
  destruct (first_result_spec s' g m n Hg fuel s' w0 s1 s2 p0 eq_refl Hf' Es Hp0) as [Hfp Hfs].
  set (r0 := first_result _ _ _ _ _ _) in *. exists r, p0, (profile r0).
  assert (residual r0 = residual_of g (profile r0)) as Hr0 by apply first_result_honest.
  destruct (honest_lengths g m n Hg r) as [L1 L2]; [done|].
  do 3 (split; [done|]). cbv zeta. split; [|split; [|split; [|split; [|split; [|done]]]]].
  - destruct I1 as [?|(w & t1 & t2 & Hret & ->)]; [by left|right]. exists w, t1, t2. split; [done|].
    by eapply (retried_extracted s' g m n Hg).
  - intros e He. rewrite Hr. by apply (nash_residual_le g m n Hg).
  - by rewrite <-Hr0.
  - intros Hc w t1 t2 Hret. split; [by eapply (retried_extracted s' g m n Hg)|].
    destruct Hret as (sys & v0 & p & Hret & Hfol & Ha & ->). by eapply I3.
  - rewrite Hstat, Hfs. destruct (arrived p0); split; intros [?|?]; auto; done.
Qed.

End exact.

(** *** The battle of the sexes *)

#[local] Existing Instance Path.any_root.

Definition battle_solver : HomotopySolver Qc :=
  {| prior_1_ := [q 1 2; q 1 2]; prior_2_ := [q 1 2; q 1 2]; cfg_ := Path.default_path_config; tol_ := kDefaultTol |}.

(** Moving the weight of player 1's second action. *)
Lemma homotopy_jacobian_witness :
  let H_ := homotopy_H battle_solver battle [0%nat; 1%nat] [0%nat; 1%nat] in
  let w := [q 1 2; q 1 2; q 1 2; q 1 2; q 1 1; q 1 1; q 1 2] in
  vget (H_ (<[1%nat := (vget w 1 + q 1 4)%Qc]> w)) 3 =
  (vget (H_ w) 3 + q 1 4 * mget (homotopy_DH battle_solver battle [0%nat; 1%nat] [0%nat; 1%nat] w) 3 1)%Qc.
Proof.
  exact (homotopy_jacobian battle_solver battle [0%nat; 1%nat] [0%nat; 1%nat]
    [q 1 2; q 1 2; q 1 2; q 1 2; q 1 1; q 1 1; q 1 2] 3 1 (q 1 4) eq_refl ltac:(cbn; lia) ltac:(cbn; lia)).
Defined.

Lemma homotopy_connects_witness : (0 < eps (tol_ battle_solver))%Qc /\
  let '(w0, s1, s2) := compute_start battle_solver battle in
  starts battle_solver battle 2 2 (eps (tol_ battle_solver)) w0 s1 s2.
Proof.
  assert (0 < eps (tol_ battle_solver))%Qc as He by by vm_compute. split; [exact He|].
  pose proof (homotopy_connects battle_solver battle 2 2 battle_shape He) as H.
  destruct (compute_start battle_solver battle) as [[w0 s1] s2]. exact (proj1 H).
Defined.

Lemma homotopy_solve_exact_witness : Path.shrinks (cfg_ battle_solver) 24 /\ fine battle_solver /\
  exists r, solve (Z.to_nat (Path.max_steps (cfg_ battle_solver)) * 25 + 1) battle_solver battle = Some (init_priors battle_solver battle, r) /\
    (status r = Converged \/ status r = NumericalFailure).
Proof.
  assert (fine battle_solver) as Hf by (unfold fine; repeat split; by vm_compute).
  split; [exact Path.default_shrinks|]. split; [exact Hf|].
  pose proof (homotopy_solve_exact battle_solver battle 2 2 24 battle_shape Path.default_shrinks Hf) as H. cbv zeta in H.
  destruct (compute_start (init_priors battle_solver battle) battle) as [[w0 s1] s2].
  destruct H as (r & p0 & P0 & E & _ & _ & _ & _ & _ & _ & _ & Hs). exists r. split; [exact E|exact Hs].
Defined.

(** ** The code's arithmetic *)

Definition default_solver : HomotopySolver double :=
  {| prior_1_ := []; prior_2_ := []; cfg_ := Path.default_path_config; tol_ := kDefaultTol |}.

(** A coordination game with payoffs of ten and twenty million. *)
Definition large_game : BimatrixGame double := {|
  payoff_1_ := of_rows [[of_Z 20000000; of_Z 0]; [of_Z 0; of_Z 10000000]];
  payoff_2_ := of_rows [[of_Z 10000000; of_Z 0]; [of_Z 0; of_Z 20000000]] |}.

(** Its best payoffs do not change when the tolerance is taken off them, so
    no action is above them: both supports are empty, and the solver reports
    convergence, with residual zero, at a profile in which nobody plays
    anything. *)
Lemma converged_without_strategies :
  (compute_start (init_priors default_solver large_game) large_game).1.2 = [] /\
  match solve 100 default_solver large_game with
  | Some (_, r) => status r = Converged /\ residual r = 0%num /\
                   profile r = {| strategy_1 := [0%num; 0%num]; strategy_2 := [0%num; 0%num] |}
  | None => False
  end.
Proof. vm_compute. auto. Qed.

(** The prisoners' dilemma is solved. *)
Definition dilemma : BimatrixGame double := {|
  payoff_1_ := of_rows [[of_Z 2; of_Z 0]; [of_Z 3; of_Z 1]];
  payoff_2_ := of_rows [[of_Z 2; of_Z 3]; [of_Z 0; of_Z 1]] |}.

Example dilemma_solved :
  match solve 100 default_solver dilemma with
  | Some (_, r) => status r = Converged /\ residual r = 0%num /\ payoff_1 r = 1%num /\
                   profile r = {| strategy_1 := [0%num; 1%num]; strategy_2 := [0%num; 1%num] |}
  | None => False
  end.
Proof. vm_compute. auto. Qed.

End Homotopy.
