(* ===== verification/Json.v ===== *)
(** * The JSON library (nlohmann::json), as the code uses it

    The library is not part of the repository: [Json] lists the operations the
    router calls, over an unknown type of values and of exceptions, and
    [JsonLaws] the documented behaviour the theorems rely on.  [Doc] is an
    instance for the examples: its texts are looked up in a table. *)

From S2P Require Import Prelude Double CppString.

(** [parse], [dump] and the conversions [get<...>()] throw; [member v k] is
    [v[k]] for a key that [v.contains(k)], [None] for one it does not
    contain; [assign] is the value that the assignments [v[k] = x] make of a
    null value. *)
Class Json (J E : Type) := {
  parse : str -> E + J;
  dump : J -> E + str;
  what : E -> str;
  is_array : J -> bool;
  elements : J -> list J;
  member : J -> str -> option J;
  is_string : J -> bool;
  is_number_float : J -> bool;
  get_string : J -> E + str;
  get_int64 : J -> E + Z;
  get_uint64 : J -> E + Z;
  get_double : J -> E + double;
  assign : list (str * J) -> J;
  of_string : str -> J;
  of_bool : bool -> J;
  of_int64 : Z -> J;
  of_uint64 : Z -> J;
  of_double : double -> J;
  of_list : list J -> J
}.

#[global] Arguments elements {J E _} v : rename.
#[global] Arguments member {J E _} v k : rename.
#[global] Arguments is_array {J E _} v : rename.
#[global] Arguments is_string {J E _} v : rename.
#[global] Arguments is_number_float {J E _} v : rename.
#[global] Arguments assign {J E _} kvs : rename.
#[global] Arguments of_string {J E _} s : rename.
#[global] Arguments of_bool {J E _} b : rename.
#[global] Arguments of_int64 {J E _} z : rename.
#[global] Arguments of_uint64 {J E _} z : rename.
#[global] Arguments of_double {J E _} d : rename.
#[global] Arguments of_list {J E _} l : rename.

(** [contains(k)] *)
Definition contains {J E} `{!Json J E} (v : J) (k : string) : bool := bool_decide (is_Some (member v (lit k))).

(** A field of an object being built. *)
Definition set {J} (k : string) (v : J) : str * J := (lit k, v).

Class JsonLaws (J E : Type) `{!Json J E} : Prop := {
  get_int64_range v z : get_int64 v = inr z -> in_i64 z;
  get_uint64_range v z : get_uint64 v = inr z -> in_u64 z;
  get_string_type v : is_string v = true <-> is_Some (match get_string v with inr s => Some s | inl _ => None end);
  get_string_of s : get_string (of_string s) = inr s;
  get_uint64_of z : in_u64 z -> get_uint64 (of_uint64 z) = inr z;
  get_int64_of z : in_i64 z -> get_int64 (of_int64 z) = inr z;
  get_double_of d : get_double (of_double d) = inr d;
  is_number_float_of_double d : is_number_float (of_double d) = true;
  is_number_float_of_int64 z : is_number_float (of_int64 z) = false;
  member_assign kvs k : member (assign kvs) k = snd <$> List.find (fun kv => bool_decide (kv.1 = k)) (rev kvs)
}.

(** ** An instance *)

Module Doc.

Inductive value :=
| Null
| Bool (b : bool)
| Int (z : Z)
| Float (d : double)
| String (s : str)
| Array (l : list value)
| Object (kvs : list (str * value)).

Inductive error := parse_error | type_error.

Definition lookup (kvs : list (str * value)) (k : str) : option value :=
  snd <$> List.find (fun kv => bool_decide (kv.1 = k)) (rev kvs).

(** Values with the texts of the table. *)
Definition json (texts : list (str * value)) : Json value error := {|
  parse s := match snd <$> List.find (fun kv => bool_decide (kv.1 = s)) texts with Some v => inr v | None => inl parse_error end;
  dump v := inr [];
  what _ := lit "error";
  is_array v := match v with Array _ => true | _ => false end;
  elements v := match v with Array l => l | _ => [] end;
  member v k := match v with Object kvs => lookup kvs k | _ => None end;
  is_string v := match v with String _ => true | _ => false end;
  is_number_float v := match v with Float _ => true | _ => false end;
  get_string v := match v with String s => inr s | _ => inl type_error end;
  get_int64 v := match v with Int z => inr (i64 z) | Float d => inr (i64_of_d d) | _ => inl type_error end;
  get_uint64 v := match v with Int z => inr (u64 z) | Float d => inr (u64 (i64_of_d d)) | _ => inl type_error end;
  get_double v := match v with Int z => inr (d_of_Z z) | Float d => inr d | _ => inl type_error end;
  assign := Object;
  of_string := String;
  of_bool := Bool;
  of_int64 := Int;
  of_uint64 := Int;
  of_double := Float;
  of_list := Array
|}.

Lemma json_laws texts : @JsonLaws value error (json texts).
Proof.
  split; cbn.
  - intros [] y; try done; intros [= <-]; [apply i64_range|apply i64_of_d_range].
  - intros [] y; try done; intros [= <-]; apply u64_range.
  - intros []; cbn; split; try done; intros []; done.
  - done.
  - intros y Hy. by rewrite u64_id.
  - intros y Hy. by rewrite i64_id.
  - done.
  - done.
  - done.
  - done.
Qed.

End Doc.
