(* ===== verification/ApiGateway.v ===== *)
(** * The JSON gateway (sor/gateway/api_gateway.h, api_gateway.cpp)

    The handlers of the API, over the interface [Json], composed with the
    gateway they submit to.  A handler parses and converts inside a [try]
    whose handler answers with an error; only the last [dump] is outside it,
    so a handler returns its response or the exception of that [dump]. *)

From S2P Require Import Prelude Double CppString Types StateMachine RateLimiter Risk.
From S2P Require Import FillManager ExecutionHandler Engine Gateway Json.

Open Scope cpp_scope.

Module ApiGateway.

Definition state_to_string (s : OrderState) : string :=
  match s with
  | New => "new"
  | PendingNew => "pending_new"
  | Accepted => "accepted"
  | PartiallyFilled => "partially_filled"
  | Filled => "filled"
  | PendingCancel => "pending_cancel"
  | Canceled => "canceled"
  | Rejected => "rejected"
  | Expired => "expired"
  | PendingReplace => "pending_replace"
  end.

Definition side_to_string (s : Side) : string := if is_buy s then "buy" else "sell".

Section handlers.
Context {J E : Type} `{!Json J E}.

(** How the body of a [try] ends before its end: with a response, or with an
    exception of the library. *)
Inductive abrupt := Return_ (response : list (str * J)) | Throw (e : E).

Definition throwing {A} (x : E + A) : abrupt + A := match x with inl e => inl (Throw e) | inr a => inr a end.

Definition text (s : string) : J := of_string (lit s).

Definition error_response (message : str) : list (str * J) :=
  [set "status" (text "error"); set "message" (of_string message)].

(** A field that must be there. *)
Definition required {A} (req : J) (key : string) (get : J -> E + A) : abrupt + A :=
  match member req (lit key) with
  | Some v => throwing (get v)
  | None => inl (Return_ (error_response (lit ("missing required field: " ++ key))))
  end.

(** A field that may be there: the value it leaves. *)
Definition optional {A} (req : J) (key : string) (default : A) (get : J -> E + A) : abrupt + A :=
  match member req (lit key) with
  | Some v => throwing (get v)
  | None => inr default
  end.

(** A field whose names stand for the values of an enumeration; other names
    leave the default. *)
Definition named {A} (names : list (string * A)) (default : A) (v : J) : E + A :=
  try s <- get_string v;
  inr (match List.find (fun na => bool_decide (lit na.1 = s)) names with Some na => na.2 | None => default end).

Definition get_side (v : J) : E + Side :=
  try s <- get_string v; inr (if bool_decide (s = lit "sell") then Sell else Buy).

Definition get_symbol (v : J) : E + FixedString.t :=
  try s <- get_string v; inr (FixedString.of_view 16 s).

Definition get_client_id (v : J) : E + FixedString.t :=
  try s <- get_string v; inr (FixedString.of_view 32 s).

(** A price is a number with a fraction, or an integer in fixed point. *)
Definition get_price (v : J) : E + Price :=
  if is_number_float v then try d <- get_double v; inr (to_price d) else get_int64 v.

Definition order_types : list (string * OrderType) :=
  [("market", OT_Market); ("limit", OT_Limit); ("ioc", OT_IOC); ("fok", OT_FOK)].
Definition times_in_force : list (string * TimeInForce) :=
  [("gtc", TIF_GTC); ("ioc", TIF_IOC); ("fok", TIF_FOK); ("day", TIF_DAY); ("gtd", TIF_GTD)].
Definition strategies : list (string * RoutingStrategyTag) :=
  [("best_price", RS_BestPrice); ("sweep", RS_LiquiditySweep); ("smart_ioc", RS_SmartIOC); ("vwap", RS_VWAP)].

(** The order of a request. *)
Definition read_order (req : J) : abrupt + Order :=
  let order := default_Order in
  try symbol <- required req "symbol" get_symbol;
  try side <- required req "side" get_side;
  try quantity <- required req "quantity" get_int64;
  try price <- optional req "price" (o_price order) get_price;
  try type <- optional req "order_type" (o_type order) (named order_types (o_type order));
  try tif <- optional req "time_in_force" (o_tif order) (named times_in_force (o_tif order));
  try strategy <- optional req "strategy" (o_strategy order) (named strategies (o_strategy order));
  try client_id <- optional req "client_id" (o_client_id order) get_client_id;
  try client_order_id <- optional req "client_order_id" (o_client_order_id order) get_uint64;
  inr { order with o_symbol := symbol; o_side := side; o_quantity := quantity; o_remaining_quantity := quantity;
                   o_price := price; o_type := type; o_tif := tif; o_strategy := strategy;
                   o_client_id := client_id; o_client_order_id := client_order_id }.

(** What a [try] block answers, with the state it leaves. *)
Definition answer {G} (g : G) (r : abrupt + G * list (str * J)) : G * list (str * J) :=
  match r with
  | inr gr => gr
  | inl (Return_ response) => (g, response)
  | inl (Throw e) => (g, error_response (lit "JSON parse error: " ++ what e))
  end.

(** [return response.dump()]: inside the [try], where an exception gives the
    error response, for an early return; outside it otherwise. *)
Definition dumped {G} (g : G) (r : abrupt + G * list (str * J)) : G * (E + str) :=
  match r with
  | inl (Return_ response) =>
      match dump (assign response) with
      | inr s => (g, inr s)
      | inl e => (g, dump (assign (error_response (lit "JSON parse error: " ++ what e))))
      end
  | _ => let '(g, response) := answer g r in (g, dump (assign response))
  end.

Definition new_order (g : Gateway.t) (body : str) (now : Timestamp) : abrupt + Gateway.t * list (str * J) :=
  try req <- throwing (parse body);
  try order <- read_order req;
  let '(ok, g) := Gateway.submit_order g order now in
  inr (g, if ok : bool then [set "status" (text "ok"); set "accepted" (of_bool true)]
          else error_response (lit "order submission failed (queue full or gateway not running)")).

Definition handle_new_order (g : Gateway.t) (body : str) (now : Timestamp) : Gateway.t * (E + str) :=
  dumped g (new_order g body now).

Definition read_cancel (req : J) : abrupt + CancelRequest :=
  try order_id <- required req "order_id" get_uint64;
  try client_order_id <- optional req "client_order_id" INVALID_ORDER_ID get_uint64;
  try symbol <- optional req "symbol" (FixedString.empty_string 16) get_symbol;
  try side <- optional req "side" Buy get_side;
  inr (mkCancel order_id client_order_id symbol side 0).

Definition cancel_order (g : Gateway.t) (body : str) (now : Timestamp) : abrupt + Gateway.t * list (str * J) :=
  try req <- throwing (parse body);
  try cancel <- read_cancel req;
  let '(ok, g) := Gateway.cancel_order g cancel now in
  inr (g, if ok : bool then [set "status" (text "ok"); set "message" (text "cancel request submitted")]
          else error_response (lit "cancel request failed (queue full or gateway not running)")).

Definition handle_cancel_order (g : Gateway.t) (body : str) (now : Timestamp) : Gateway.t * (E + str) :=
  dumped g (cancel_order g body now).

Definition order_json (order : Order) (children : list OrderId) : list (str * J) :=
  [set "order_id" (of_uint64 (o_id order));
   set "client_order_id" (of_uint64 (o_client_order_id order));
   set "parent_order_id" (of_uint64 (o_parent_order_id order));
   set "symbol" (of_string (FixedString.view (o_symbol order)));
   set "side" (text (side_to_string (o_side order)));
   set "state" (text (state_to_string (o_state order)));
   set "price" (of_double (to_double (o_price order)));
   set "quantity" (of_int64 (o_quantity order));
   set "filled_quantity" (of_int64 (o_filled_quantity order));
   set "remaining_quantity" (of_int64 (o_remaining_quantity order));
   set "avg_fill_price" (of_double (to_double (o_avg_fill_price order)));
   set "venue" (of_uint64 (o_target_venue order));
   set "version" (of_uint64 (o_version order))] ++
  match children with [] => [] | _ => [set "children" (of_list (of_uint64 <$> children))] end.

Definition query_order (g : Gateway.t) (body : str) : abrupt + Gateway.t * list (str * J) :=
  try req <- throwing (parse body);
  try id <- required req "order_id" get_uint64;
  match Gateway.get_order g id with
  | None => inl (Return_ (error_response (lit "order not found")))
  | Some order =>
      inr (g, [set "status" (text "ok");
               set "order" (assign (order_json order (ExecutionHandler.get_children (Gateway.exec_handler_ g) id)))])
  end.

Definition handle_query_order (g : Gateway.t) (body : str) : Gateway.t * (E + str) :=
  dumped g (query_order g body).

Definition status_json (g : Gateway.t) : list (str * J) :=
  let st := Gateway.stats_ g in
  let ex := ExecutionHandler.get_stats (Gateway.exec_handler_ g) in
  [set "status" (text "ok");
   set "running" (of_bool (Gateway.running_ g));
   set "gateway_stats" (assign
     [set "orders_submitted" (of_uint64 (Gateway.orders_submitted st));
      set "orders_routed" (of_uint64 (Gateway.orders_routed st));
      set "orders_completed" (of_uint64 (Gateway.orders_completed st));
      set "orders_rejected" (of_uint64 (Gateway.orders_rejected st))]);
   set "execution_stats" (assign
     [set "total_fills" (of_uint64 (ExecutionHandler.total_fills ex));
      set "total_partial_fills" (of_uint64 (ExecutionHandler.total_partial_fills ex));
      set "total_rejects" (of_uint64 (ExecutionHandler.total_rejects ex));
      set "total_cancels" (of_uint64 (ExecutionHandler.total_cancels ex));
      set "reroutes" (of_uint64 (ExecutionHandler.reroutes ex))]);
   set "risk_kill_switch_active" (of_bool (RiskManager.is_kill_switch_active (Gateway.risk_manager_ g)))].

Definition handle_status (g : Gateway.t) (body : str) : E + str := dump (assign (status_json g)).

(** ** What a client sends

    A request as a client writes it, and the order it means by it, independent
    of how the handlers read it. *)

Definition reads {A} (req : J) (key : string) (get : J -> E + A) (x : A) : Prop :=
  exists v, member req (lit key) = Some v /\ get v = inr x.

Lemma required_reads {A} req key (get : J -> E + A) x : required req key get = inr x <-> reads req key get x.
Proof.
  unfold required, reads, throwing. destruct (member req (lit key)) as [v|]; [|split; [done|by intros (? & ? & _)]].
  split; [intros; exists v; split; [done|destruct (get v); congruence]|]. intros (v' & [= <-] & ->). done.
Qed.

(** A price is a number with a fraction, or an integer in fixed point. *)
Inductive price := Decimal (d : double) | Fixed (p : Price).

Record order_request := mkOrderRequest {
  rq_symbol : str; rq_side : Side; rq_quantity : Quantity; rq_price : option price;
  rq_type : option OrderType; rq_tif : option TimeInForce; rq_strategy : option RoutingStrategyTag;
  rq_client_id : option str; rq_client_order_id : option OrderId
}.

Record cancel_request := mkCancelRequest {
  cr_order_id : OrderId; cr_client_order_id : option OrderId; cr_symbol : option str; cr_side : option Side
}.

Definition type_name (x : OrderType) : string :=
  match x with OT_Limit => "limit" | OT_Market => "market" | OT_IOC => "ioc" | OT_FOK => "fok" end.
Definition tif_name (x : TimeInForce) : string :=
  match x with TIF_GTC => "gtc" | TIF_IOC => "ioc" | TIF_FOK => "fok" | TIF_GTD => "gtd" | TIF_DAY => "day" end.
Definition strategy_name (x : RoutingStrategyTag) : string :=
  match x with
  | RS_BestPrice => "best_price" | RS_LiquiditySweep => "sweep" | RS_SmartIOC => "smart_ioc" | RS_VWAP => "vwap"
  end.

Definition price_json (p : price) : J := match p with Decimal d => of_double d | Fixed z => of_int64 z end.

(** An object with the fields that are given. *)
Definition given (fields : list (string * option J)) : J :=
  assign (omap (fun f => set f.1 <$> f.2) fields).

Definition order_fields (r : order_request) : list (string * option J) :=
  [("symbol", Some (of_string (rq_symbol r))); ("side", Some (text (side_to_string (rq_side r))));
   ("quantity", Some (of_int64 (rq_quantity r))); ("price", price_json <$> rq_price r);
   ("order_type", text ∘ type_name <$> rq_type r); ("time_in_force", text ∘ tif_name <$> rq_tif r);
   ("strategy", text ∘ strategy_name <$> rq_strategy r); ("client_id", of_string <$> rq_client_id r);
   ("client_order_id", of_uint64 <$> rq_client_order_id r)].

Definition cancel_fields (r : cancel_request) : list (string * option J) :=
  [("order_id", Some (of_uint64 (cr_order_id r))); ("client_order_id", of_uint64 <$> cr_client_order_id r);
   ("symbol", of_string <$> cr_symbol r); ("side", text ∘ side_to_string <$> cr_side r)].

(** The quantities and identifiers are values of their types. *)
Definition order_request_ok (r : order_request) : Prop :=
  in_i64 (rq_quantity r) /\ (forall z, rq_price r = Some (Fixed z) -> in_i64 z) /\
  (forall id, rq_client_order_id r = Some id -> in_u64 id).
Definition cancel_request_ok (r : cancel_request) : Prop :=
  in_u64 (cr_order_id r) /\ (forall id, cr_client_order_id r = Some id -> in_u64 id).

(** The order, and the cancel request, that are meant: what is not given is a
    limit order without price, good till cancelled, for the best price. *)
Definition order_meant (r : order_request) : Order :=
  mkOrder INVALID_ORDER_ID (default INVALID_ORDER_ID (rq_client_order_id r)) INVALID_ORDER_ID
    (FixedString.of_view 16 (rq_symbol r)) (rq_side r) (default OT_Limit (rq_type r)) (default TIF_GTC (rq_tif r))
    (match rq_price r with Some (Decimal d) => to_price d | Some (Fixed z) => z | None => INVALID_PRICE end)
    (rq_quantity r) 0 (rq_quantity r) 0 0 (default RS_BestPrice (rq_strategy r)) New
    (match rq_client_id r with Some s => FixedString.of_view 32 s | None => FixedString.empty_string 32 end) 0 0 0.

Definition cancel_meant (r : cancel_request) : CancelRequest :=
  mkCancel (cr_order_id r) (default INVALID_ORDER_ID (cr_client_order_id r))
    (match cr_symbol r with Some s => FixedString.of_view 16 s | None => FixedString.empty_string 16 end)
    (default Buy (cr_side r)) 0.

(** A text that is no request: no JSON, or a field that must be there is not,
    or is of another type. *)
Definition lacks {A} (body : str) (key : string) (get : J -> E + A) : Prop :=
  match parse body with
  | inl _ => True
  | inr req => match member req (lit key) with
               | None => True
               | Some v => match get v with inl _ => True | inr _ => False end
               end
  end.

(** Its answer says that it failed, or does not. *)
Definition says_error (out : E + str) : Prop :=
  exists v, out = dump v /\ reads v "status" get_string (lit "error").
Definition says_no_error (out : E + str) : Prop :=
  exists v, out = dump v /\ is_Some (member v (lit "status")) /\ ~ reads v "status" get_string (lit "error").

Section client.
Context `{!JsonLaws J E}.

Lemma member_given fields k v :
  NoDup fields.*1 -> (k, v) ∈ fields -> member (given fields) (lit k) = v.
Proof.
  intros Hn Hin. unfold given. rewrite member_assign.
  assert (forall l, NoDup (l.*1 : list str) -> forall x w, (x, w) ∈ l ->
    snd <$> List.find (fun kv : str * J => bool_decide (kv.1 = x)) l = Some w) as Hfind.
  { induction l as [|[y u] l IH]; intros Hl x w Hx; [by apply elem_of_nil in Hx|]. cbn in Hl |- *.
    apply NoDup_cons in Hl as [Hy Hl]. apply elem_of_cons in Hx as [[= <- <-]|Hx]; [by rewrite bool_decide_eq_true_2|].
    rewrite bool_decide_eq_false_2; [by apply IH|]. intros ->. apply Hy. by apply (list_elem_of_fmap_2 fst _ (x, w)). }
  assert (forall a b, lit a = lit b -> a = b) as Hlit.
  { intros a b Hab. apply (f_equal String.string_of_list_ascii) in Hab. unfold lit in Hab.
    by rewrite !String.string_of_list_ascii_of_string in Hab. }
  set (kvs := omap _ fields).
  assert (forall x w, (x, w) ∈ kvs -> exists a, x = lit a /\ (a, Some w) ∈ fields) as Hk.
  { intros x w ([a [u|]] & Ha & Hu)%list_elem_of_omap; [|done]. injection Hu as <- <-. by exists a. }
  assert (NoDup kvs.*1) as Hnk.
  { clear -Hn Hlit. subst kvs. induction fields as [|[a [u|]] fields IH]; cbn; [constructor| |];
      cbn in Hn; apply NoDup_cons in Hn as [Ha Hn]; [|by apply IH].
    apply NoDup_cons. split; [|by apply IH]. intros ([x w] & Hx & ([b [z|]] & Hb & Hz)%list_elem_of_omap)%list_elem_of_fmap; [|done].
    injection Hz as <- <-. cbn in Hx. apply Hlit in Hx as ->. apply Ha. by apply (list_elem_of_fmap_2 fst _ (b, Some z)). }
  destruct v as [w|].
  - apply Hfind; [by rewrite <- (Permutation_rev kvs)|].
    apply list_elem_of_In, in_rev. rewrite rev_involutive. apply list_elem_of_In, list_elem_of_omap. by exists (k, Some w).
  - destruct (List.find _ _) as [[x w]|] eqn:Ef; [|done]. exfalso.
    apply find_some in Ef as [Hf Hb%bool_decide_eq_true]. cbn in Hb. subst x.
    apply in_rev, list_elem_of_In, Hk in Hf as (a & Ha%Hlit & Hf). subst a.
    clear -Hn Hin Hf. induction fields as [|[b u] fields IH]; [by apply elem_of_nil in Hin|].
    cbn in Hn. apply NoDup_cons in Hn as [Hb Hn]. apply elem_of_cons in Hin as [E1|Hin]; apply elem_of_cons in Hf as [E2|Hf].
    + congruence.
    + injection E1 as <- <-. apply Hb. by apply (list_elem_of_fmap_2 fst _ (k, Some w)).
    + injection E2 as <- <-. apply Hb. by apply (list_elem_of_fmap_2 fst _ (k, None)).
    + by apply IH.
Qed.

Lemma required_given {A} fields key v (get : J -> E + A) x :
  NoDup fields.*1 -> (key, Some v) ∈ fields -> get v = inr x -> required (given fields) key get = inr x.
Proof. intros Hn Hin Hg. unfold required. rewrite (member_given fields key (Some v) Hn Hin). unfold throwing. by rewrite Hg. Qed.

Lemma optional_given {A} fields key (v : option J) (d : A) get x :
  NoDup fields.*1 -> (key, v) ∈ fields -> (match v with Some v => get v = inr x | None => x = d end) ->
  optional (given fields) key d get = inr x.
Proof.
  intros Hn Hin Hg. unfold optional. rewrite (member_given fields key v Hn Hin). destruct v; [unfold throwing; by rewrite Hg|by subst].
Qed.

(** A field of the list. *)
Ltac listed := repeat first [apply list_elem_of_here | apply list_elem_of_further].

Lemma get_side_text s : get_side (text (side_to_string s)) = inr s.
Proof. unfold get_side, text. rewrite get_string_of. by destruct s. Qed.

Lemma order_fields_keys r : NoDup (order_fields r).*1.
Proof. apply (bool_decide_unpack _). vm_compute. exact I. Qed.
Lemma cancel_fields_keys r : NoDup (cancel_fields r).*1.
Proof. apply (bool_decide_unpack _). vm_compute. exact I. Qed.

Lemma read_order_given r : order_request_ok r -> read_order (given (order_fields r)) = inr (order_meant r).
Proof.
  intros (Hq & Hp & Hid). pose proof (order_fields_keys r) as Hn. unfold read_order.
  rewrite (required_given _ "symbol" _ get_symbol (FixedString.of_view 16 (rq_symbol r)) Hn ltac:(listed))
    by (unfold get_symbol; by rewrite get_string_of).
  rewrite (required_given _ "side" _ get_side (rq_side r) Hn ltac:(listed)) by apply get_side_text.
  rewrite (required_given _ "quantity" _ get_int64 (rq_quantity r) Hn ltac:(listed)) by by apply get_int64_of.
  rewrite (optional_given _ "price" _ _ get_price
    (match rq_price r with Some (Decimal d) => to_price d | Some (Fixed z) => z | None => INVALID_PRICE end) Hn ltac:(listed)).
  2: { destruct (rq_price r) as [[d|z]|] eqn:Ep; cbn; unfold get_price; [|by rewrite is_number_float_of_int64; apply get_int64_of, Hp|done].
       by rewrite is_number_float_of_double, get_double_of. }
  rewrite (optional_given _ "order_type" _ _ _ (default OT_Limit (rq_type r)) Hn ltac:(listed))
    by (destruct (rq_type r) as [x|]; cbn; [unfold named, text; rewrite get_string_of; by destruct x|done]).
  rewrite (optional_given _ "time_in_force" _ _ _ (default TIF_GTC (rq_tif r)) Hn ltac:(listed))
    by (destruct (rq_tif r) as [x|]; cbn; [unfold named, text; rewrite get_string_of; by destruct x|done]).
  rewrite (optional_given _ "strategy" _ _ _ (default RS_BestPrice (rq_strategy r)) Hn ltac:(listed))
    by (destruct (rq_strategy r) as [x|]; cbn; [unfold named, text; rewrite get_string_of; by destruct x|done]).
  rewrite (optional_given _ "client_id" _ _ _
    (match rq_client_id r with Some s => FixedString.of_view 32 s | None => FixedString.empty_string 32 end) Hn ltac:(listed))
    by (destruct (rq_client_id r); cbn; [unfold get_client_id; by rewrite get_string_of|done]).
  rewrite (optional_given _ "client_order_id" _ _ _ (default INVALID_ORDER_ID (rq_client_order_id r)) Hn ltac:(listed))
    by (destruct (rq_client_order_id r) eqn:Ei; cbn; [by apply get_uint64_of, Hid|done]).
  done.
Qed.

Lemma read_cancel_given r : cancel_request_ok r -> read_cancel (given (cancel_fields r)) = inr (cancel_meant r).
Proof.
  intros (Hid & Hc). pose proof (cancel_fields_keys r) as Hn. unfold read_cancel.
  rewrite (required_given _ "order_id" _ get_uint64 (cr_order_id r) Hn ltac:(listed)) by by apply get_uint64_of.
  rewrite (optional_given _ "client_order_id" _ _ _ (default INVALID_ORDER_ID (cr_client_order_id r)) Hn ltac:(listed))
    by (destruct (cr_client_order_id r) eqn:Ei; cbn; [by apply get_uint64_of, Hc|done]).
  rewrite (optional_given _ "symbol" _ _ _
    (match cr_symbol r with Some s => FixedString.of_view 16 s | None => FixedString.empty_string 16 end) Hn ltac:(listed))
    by (destruct (cr_symbol r); cbn; [unfold get_symbol; by rewrite get_string_of|done]).
  rewrite (optional_given _ "side" _ _ _ (default Buy (cr_side r)) Hn ltac:(listed))
    by (destruct (cr_side r); cbn; [apply get_side_text|done]).
  done.
Qed.

Lemma required_lacks {A B} req key (get : J -> E + A) (get' : J -> E + B) x :
  (forall v, match get v with inl _ => True | inr _ => False end -> exists e, get' v = inl e) ->
  match member req (lit key) with
  | None => True
  | Some v => match get v with inl _ => True | inr _ => False end
  end -> required req key get' <> inr x.
Proof.
  intros Hg Hl. unfold required, throwing. destruct (member req (lit key)) as [v|]; [|done].
  destruct (Hg v Hl) as [e ->]. done.
Qed.

Lemma bind_inr {X A B} (m : X + A) (k : A -> X + B) b :
  (match m with inl e => inl e | inr a => k a end) = inr b -> exists a, m = inr a /\ k a = inr b.
Proof. destruct m; naive_solver. Qed.

Lemma get_string_lacks {A} (f : str -> E + A) v :
  match get_string v with inl _ => True | inr _ => False end ->
  exists e, (match get_string v with inl e => inl e | inr s => f s end) = inl e.
Proof. destruct (get_string v); [eauto|done]. Qed.

Lemma read_order_lacks body req o :
  parse body = inr req -> lacks body "symbol" get_string \/ lacks body "side" get_string \/ lacks body "quantity" get_int64 ->
  read_order req <> inr o.
Proof.
  unfold lacks. intros -> Hl H. unfold read_order in H.
  apply bind_inr in H as (symbol & H1 & H). apply bind_inr in H as (side & H2 & H). apply bind_inr in H as (q & H3 & _).
  destruct Hl as [Hl|[Hl|Hl]]; (eapply required_lacks; [|exact Hl|eassumption]).
  - intros v. apply get_string_lacks.
  - intros v. apply get_string_lacks.
  - intros v. destruct (get_int64 v); [eauto|done].
Qed.

Lemma read_cancel_lacks body req c :
  parse body = inr req -> lacks body "order_id" get_uint64 -> read_cancel req <> inr c.
Proof.
  unfold lacks. intros -> Hl H. unfold read_cancel in H. apply bind_inr in H as (id & H1 & _).
  eapply required_lacks; [|exact Hl|exact H1]. intros v. destruct (get_uint64 v); [eauto|done].
Qed.

Lemma error_says message : says_error (dump (assign (error_response message))).
Proof.
  eexists. split; [done|]. exists (text "error"). split; [|apply get_string_of].
  rewrite member_assign. cbn [error_response rev app set fst List.find snd].
  rewrite bool_decide_eq_false_2 by done. by rewrite bool_decide_eq_true_2.
Qed.

Lemma ok_says field v :
  field <> lit "status" -> says_no_error (dump (assign [set "status" (text "ok"); (field, v)])).
Proof.
  intros Hf. assert (member (assign [set "status" (text "ok"); (field, v)]) (lit "status") = Some (text "ok")) as Hm.
  { rewrite member_assign. cbn [rev app set fst List.find snd]. rewrite bool_decide_eq_false_2 by done. by rewrite bool_decide_eq_true_2. }
  eexists. split; [done|]. rewrite Hm. split; [by eexists|].
  intros (w & Hw & Hs). rewrite Hm in Hw. injection Hw as <-. unfold text in Hs. by rewrite get_string_of in Hs.
Qed.

End client.

(** ** What the handlers do *)

(** The answer when nothing was submitted. *)
Definition refusal (out : E + str) : Prop := exists message, out = dump (assign (error_response message)).

(** An end that answers with an error. *)
Definition failing (e : abrupt) : Prop :=
  (exists message, e = Return_ (error_response message)) \/ exists x, e = Throw x.

Lemma bind_failing {A B} (m : abrupt + A) (k : A -> abrupt + B) :
  (forall e, m = inl e -> failing e) -> (forall a e, k a = inl e -> failing e) ->
  forall e, (match m with inl e => inl e | inr a => k a end) = inl e -> failing e.
Proof. intros Hm Hk e. destruct m; [intros [= <-]; by apply Hm|apply Hk]. Qed.

Lemma required_failing {A} req key (get : J -> E + A) e : required req key get = inl e -> failing e.
Proof.
  unfold required, throwing, failing. destruct (member _ _) as [v|]; [destruct (get v)|]; intros [= <-]; eauto.
Qed.

Lemma optional_failing {A} req key d (get : J -> E + A) e : optional req key d get = inl e -> failing e.
Proof.
  unfold optional, throwing, failing. destruct (member _ _) as [v|]; [destruct (get v)|]; intros [= <-]; eauto.
Qed.

Lemma read_order_failing req e : read_order req = inl e -> failing e.
Proof.
  revert e. unfold read_order.
  repeat first [done|apply bind_failing; [intros; eauto using required_failing, optional_failing|intros ?]].
Qed.

Lemma read_cancel_failing req e : read_cancel req = inl e -> failing e.
Proof.
  revert e. unfold read_cancel.
  repeat first [done|apply bind_failing; [intros; eauto using required_failing, optional_failing|intros ?]].
Qed.

Lemma dumped_failing {G} (g : G) e : failing e -> (dumped g (inl e)).1 = g /\ refusal (dumped g (inl e)).2.
Proof.
  unfold refusal. intros [[message ->]|[x ->]]; cbn.
  - destruct (dump (assign (error_response message))) eqn:Ed; cbn; [eauto|]. split; [done|]. exists message. by rewrite Ed.
  - eauto.
Qed.

End handlers.

Arguments abrupt : clear implicits.

(** ** Properties *)

Section properties.
Context {J E : Type} `{!Json J E}.


(** The API performs operations of the gateway: any history of requests is a
    history of the gateway, so what holds of every history of the gateway
    (positions, child identifiers, the kill switch) holds under the API. *)
Inductive request :=
| NewOrder (body : str) (now : Timestamp)
| CancelOrder (body : str) (now : Timestamp)
| QueryOrder (body : str)
| Other (o : Gateway.op).

Definition handle `{!StdSort, !UnorderedMap} (g : Gateway.t) (r : request) : Gateway.t * list Gateway.effect :=
  match r with
  | NewOrder body now => ((handle_new_order g body now).1, [])
  | CancelOrder body now => ((handle_cancel_order g body now).1, [])
  | QueryOrder body => ((handle_query_order g body).1, [])
  | Other o => Gateway.do_op g o
  end.

Definition handle_all `{!StdSort, !UnorderedMap} (g : Gateway.t) (rs : list request) : Gateway.t * list Gateway.effect :=
  fold_left (fun '(g, evs) r => let '(g, new) := handle g r in (g, evs ++ new)) rs (g, []).

Lemma query_unchanged g body : (handle_query_order g body).1 = g.
Proof.
  unfold handle_query_order, query_order. destruct (parse body) as [e|req]; cbn; [done|].
  destruct (required req "order_id" get_uint64) as [[r|e]|id]; cbn; [by destruct (dump _)|done|].
  destruct (Gateway.get_order g id); cbn; [done|]. by destruct (dump _).
Qed.

Lemma handle_op `{!StdSort, !UnorderedMap} g r : handle g r = (g, []) \/ exists o, handle g r = Gateway.do_op g o.
Proof.
  destruct r as [body now|body now|body|o]; cbn [handle]; [..|by right; exists o].
  - unfold handle_new_order, new_order. destruct (parse body) as [e|req]; cbn [throwing]; [by left|].
    destruct (read_order req) as [e|order] eqn:Er.
    + left. by destruct (dumped_failing g e (read_order_failing _ _ Er)) as [-> _].
    + right. exists (Gateway.Submit_ order now). cbn. by destruct (Gateway.submit_order g order now).
  - unfold handle_cancel_order, cancel_order. destruct (parse body) as [e|req]; cbn [throwing]; [by left|].
    destruct (read_cancel req) as [e|c] eqn:Er.
    + left. by destruct (dumped_failing g e (read_cancel_failing _ _ Er)) as [-> _].
    + right. exists (Gateway.Cancel_ c now). cbn. by destruct (Gateway.cancel_order g c now).
  - left. by rewrite query_unchanged.
Qed.

Lemma api_history `{!StdSort, !UnorderedMap} g rs : exists ops, handle_all g rs = Gateway.run_from g ops.
Proof.
  unfold handle_all, Gateway.run_from. generalize (@nil Gateway.effect).
  revert g. induction rs as [|r rs IH]; intros g evs; [by exists []|]. cbn [fold_left].
  destruct (handle_op g r) as [E0|[o E0]].
  - rewrite E0, app_nil_r. apply IH.
  - rewrite E0. destruct (Gateway.do_op g o) as [g' new] eqn:Eo. destruct (IH g' (evs ++ new)) as [ops ->].
    exists (o :: ops). cbn [fold_left]. by rewrite Eo.
Qed.



(** What a query answers reads back as the order it found. *)
Definition shows (v : J) (o : Order) (children : list OrderId) : Prop :=
  reads v "order_id" get_uint64 (o_id o) /\
  reads v "client_order_id" get_uint64 (o_client_order_id o) /\
  reads v "parent_order_id" get_uint64 (o_parent_order_id o) /\
  reads v "symbol" get_string (FixedString.view (o_symbol o)) /\
  reads v "side" get_side (o_side o) /\
  reads v "state" get_string (lit (state_to_string (o_state o))) /\
  reads v "quantity" get_int64 (o_quantity o) /\
  reads v "filled_quantity" get_int64 (o_filled_quantity o) /\
  reads v "remaining_quantity" get_int64 (o_remaining_quantity o) /\
  member v (lit "price") = Some (of_double (to_double (o_price o))) /\
  member v (lit "children") = (if bool_decide (children = []) then None else Some (of_list (of_uint64 <$> children))).

(** The identifiers and quantities are values of their types. *)
Definition in_types (o : Order) : Prop :=
  in_u64 (o_id o) /\ in_u64 (o_client_order_id o) /\ in_u64 (o_parent_order_id o) /\
  in_i64 (o_quantity o) /\ in_i64 (o_filled_quantity o) /\ in_i64 (o_remaining_quantity o).

Lemma query_shows `{!JsonLaws J E} g body req id :
  parse body = inr req -> reads req "order_id" get_uint64 id ->
  match Gateway.get_order g id with
  | None => handle_query_order g body = dumped g (inl (Return_ (error_response (lit "order not found"))))
  | Some o => in_types o -> exists v,
      handle_query_order g body = (g, dump (assign [set "status" (text "ok"); set "order" v])) /\
      shows v o (ExecutionHandler.get_children (Gateway.exec_handler_ g) id)
  end.
Proof.
  intros Hp Hr. unfold handle_query_order, query_order. rewrite Hp. cbn [throwing].
  apply required_reads in Hr. rewrite Hr. destruct (Gateway.get_order g id) as [o|]; [|done].
  intros (H1 & H2 & H3 & H4 & H5 & H6). eexists. split; [reflexivity|].
  set (children := ExecutionHandler.get_children _ _). unfold shows, reads, order_json.
  assert (get_side (text (side_to_string (o_side o))) = inr (o_side o)) as Hside
    by (unfold get_side, text; rewrite get_string_of; by destruct (o_side o)).
  destruct children as [|c cs]; split_and!; try (rewrite member_assign; cbn; reflexivity);
    (eexists; split; [rewrite member_assign; cbn; reflexivity|]);
    first [exact Hside|by apply get_uint64_of|by apply get_int64_of|by apply get_string_of].
Qed.

(** The name of a state is its own. *)
Lemma state_to_string_inj a b : state_to_string a = state_to_string b -> a = b.
Proof. by destruct a, b. Qed.

End properties.

(** ** Examples *)

Definition sample_request : order_request :=
  mkOrderRequest (lit "MSFT") Sell 100 (Some (Decimal (d_lit 15025 2))) (Some OT_IOC) None None None (Some 7).

Definition limit_order : Doc.value :=
  Doc.Object
    [set "symbol" (Doc.String (lit "MSFT")); set "side" (Doc.String (lit "sell")); set "quantity" (Doc.Int 100);
     set "price" (Doc.Float (d_lit 15025 2)); set "order_type" (Doc.String (lit "ioc")); set "client_order_id" (Doc.Int 7)].

#[local] Instance sample_json : Json Doc.value Doc.error := Doc.json [(lit "order", limit_order)].
#[local] Instance sample_laws : JsonLaws Doc.value Doc.error := Doc.json_laws [(lit "order", limit_order)].

Definition msft : Order :=
  { default_Order with o_symbol := Symbol_of "MSFT"; o_side := Sell; o_quantity := 100; o_remaining_quantity := 100;
                       o_price := 15025000000; o_type := OT_IOC; o_client_order_id := 7 }.


(** An accepted order is answered without its identifier. *)
Example accepted_without_id :
  new_order (Gateway.start (Gateway.create 0)) (lit "order") 5 =
  inr ((Gateway.submit_order (Gateway.start (Gateway.create 0)) msft 5).2,
       [set "status" (Doc.String (lit "ok")); set "accepted" (Doc.Bool true)]).
Proof. vm_compute. reflexivity. Qed.

End ApiGateway.
