(* ===== verification/Alpaca.v ===== *)
(** * The Alpaca provider (sor/market_data/alpaca/, provider.h, provider_factory.cpp)

    The normalizer of the quotes of the web socket and the provider with its
    session: authentication, subscriptions, reconnections; first each call as
    a whole, then, in [AlpacaThreads], cut into the steps between which another
    thread can come.  The socket is a library: its calls back are the
    operations, what is sent to it are the effects.  Only [parse_error] is
    caught around the parsing; an exception of a conversion leaves
    [on_message] with the quotes before it published. *)

From S2P Require Import Prelude Double CppString Types Book Feed Json QueueSpec.

Open Scope cpp_scope.

Module AlpacaNormalizer.

Record t := mk {
  venue_id_ : VenueId;
  books_ : gmap str OrderBook.t;
  sequence_ : Z
}.

Definition create (venue : VenueId) : t := mk venue ∅ 0.

Record Quote := mkQuote {
  q_symbol : FixedString.t; bid_price : double; bid_size : Z; ask_price : double; ask_size : Z
}.

(** [clear], then the single level of a side. *)
Definition top_of_book (s : BookSide.t) (p : Price) (qty : Quantity) : BookSide.t :=
  BookSide.mk (<[0%nat := mkLevel p qty 1]> (BookSide.levels (BookSide.clear s))) 1.

(** The book of a quote. *)
Definition publish (n : t) (q : Quote) (now : Timestamp) : t * OrderBook.t :=
  let key := FixedString.view (q_symbol q) in
  let book := default OrderBook.default_book (books_ n !! key) in
  let sequence := u64 (sequence_ n + 1) in
  let book := OrderBook.mk (q_symbol q) (venue_id_ n)
    (top_of_book (OrderBook.bids book) (to_price (bid_price q)) (bid_size q))
    (top_of_book (OrderBook.asks book) (to_price (ask_price q)) (ask_size q)) now sequence in
  ({ n with books_ ::= <[key := book]>; sequence_ := sequence }, book).

Definition get_book (n : t) (symbol : FixedString.t) : option OrderBook.t := books_ n !! FixedString.view symbol.
Definition symbol_count (n : t) : nat := size (books_ n).

Section messages.
Context {J E : Type} `{!Json J E}.

(** The quote of a message, if it is one. *)
Definition read_quote (msg : J) : E + option Quote :=
  match member msg (lit "T") with
  | None => inr None
  | Some type =>
      if negb (is_string type) then inr None
      else
        try type <- get_string type;
        if negb (bool_decide (type = lit "q")) then inr None
        else
          match member msg (lit "S"), member msg (lit "bp"), member msg (lit "bs"), member msg (lit "ap"), member msg (lit "as") with
          | Some symbol, Some bp, Some bs, Some ap, Some as_ =>
              try sym_str <- get_string symbol;
              if bool_decide (sym_str = []) || (15 <? length sym_str)%nat then inr None
              else
                try bid_price <- get_double bp;
                try bid_size <- get_int64 bs;
                try ask_price <- get_double ap;
                try ask_size <- get_int64 as_;
                if dleb bid_price (d_of_Z 0) || dleb ask_price (d_of_Z 0) || (bid_size <=? 0) || (ask_size <=? 0)
                then inr None
                else inr (Some (mkQuote (FixedString.of_view 16 sym_str) bid_price bid_size ask_price ask_size))
          | _, _, _, _, _ => inr None
          end
  end.

(** The messages of an array, up to the first that throws: the books handed
    to the callback and the exception. *)
Fixpoint process (n : t) (msgs : list J) (clk : nat -> Timestamp) : t * list OrderBook.t * option E :=
  match msgs with
  | [] => (n, [], None)
  | msg :: msgs =>
      match read_quote msg with
      | inl e => (n, [], Some e)
      | inr None => process n msgs clk
      | inr (Some q) =>
          let '(n, book) := publish n q (clk 0%nat) in
          let '(n, books, e) := process n msgs (fun i => clk (S i)) in
          (n, book :: books, e)
      end
  end.

Definition on_message (n : t) (json_text : str) (clk : nat -> Timestamp) : t * list OrderBook.t * option E :=
  match parse json_text with
  | inl _ => (n, [], None)
  | inr msgs => if negb (is_array msgs) then (n, [], None) else process n (elements msgs) clk
  end.

(** ** What is published *)

(** A book of one quote: one level a side, of positive size. *)
Definition single_quote (venue : VenueId) (book : OrderBook.t) : Prop :=
  OrderBook.venue_id book = venue /\ FixedString.view (OrderBook.symbol book) <> [] /\
  (length (FixedString.view (OrderBook.symbol book)) <= 15)%nat /\
  BookSide.wf (OrderBook.bids book) /\ BookSide.wf (OrderBook.asks book) /\
  exists p q p' q', 0 < q /\ 0 < q' /\ in_i64 q /\ in_i64 q' /\ in_i64 p /\ in_i64 p' /\
    BookSide.live (OrderBook.bids book) = [mkLevel p q 1] /\ BookSide.live (OrderBook.asks book) = [mkLevel p' q' 1].

(** The books of the normalizer are the last ones published, and their
    sequence numbers count them. *)
Record inv (venue : VenueId) (n : t) (log : list OrderBook.t) : Prop := {
  inv_venue : venue_id_ n = venue;
  inv_published : Forall (single_quote venue) log;
  inv_sequence : sequence_ n = u64 (Z.of_nat (length log));
  inv_numbers : forall i b, log !! i = Some b -> OrderBook.sequence b = u64 (Z.of_nat i + 1);
  inv_books : forall key, books_ n !! key =
    last (filter (fun b => FixedString.view (OrderBook.symbol b) = key) log)
}.

Lemma clear_levels_length s : length (BookSide.levels (BookSide.clear s)) = length (BookSide.levels s).
Proof.
  unfold BookSide.clear. cbn. generalize (seq 0 (BookSide.depth s)). intros l. generalize (BookSide.levels s).
  induction l as [|i l IH]; intros ls; [done|]. cbn. by rewrite IH, length_insert.
Qed.

Lemma top_of_book_spec s p q : BookSide.wf s ->
  BookSide.wf (top_of_book s p q) /\ BookSide.live (top_of_book s p q) = [mkLevel p q 1].
Proof.
  intros [Hl _]. pose proof (clear_levels_length s) as Hc. unfold top_of_book, BookSide.live. split.
  - split; cbn [BookSide.levels BookSide.depth]; [by rewrite length_insert, Hc|unfold MAX_DEPTH; lia].
  - cbn [BookSide.depth BookSide.levels]. destruct (BookSide.levels (BookSide.clear s)); [cbn in Hc; unfold MAX_DEPTH in Hl; lia|done].
Qed.

(** A quote the normalizer accepts. *)
Definition accepted (q : Quote) : Prop :=
  FixedString.view (q_symbol q) <> [] /\ (length (FixedString.view (q_symbol q)) <= 15)%nat /\
  0 < bid_size q /\ 0 < ask_size q /\ in_i64 (bid_size q) /\ in_i64 (ask_size q) /\
  dleb (bid_price q) (d_of_Z 0) = false /\ dleb (ask_price q) (d_of_Z 0) = false.

Lemma symbol_view s : (length s <= 15)%nat -> FixedString.view (FixedString.of_view 16 s) = s.
Proof.
  intros Hs. unfold FixedString.of_view.
  rewrite (proj2 (FixedString.assign_wf_view 16 _ s ltac:(lia) (FixedString.empty_string_wf 16))).
  apply take_ge. lia.
Qed.

Lemma read_quote_accepted `{!JsonLaws J E} msg q : read_quote msg = inr (Some q) -> accepted q.
Proof.
  unfold read_quote. destruct (member msg (lit "T")) as [ty|]; [|done]. destruct (negb (is_string ty)); [done|].
  destruct (get_string ty) as [|type]; [done|]. destruct (negb _); [done|].
  do 5 (destruct (member msg _) as [?|]; [|done]). destruct (get_string _) as [|sym]; [done|].
  destruct (bool_decide_reflect (sym = [])) as [|Hne]; [done|]. destruct (Nat.ltb_spec 15 (length sym)) as [|Hlen]; [done|].
  cbn [orb]. destruct (get_double _) as [|bp]; [done|]. destruct (get_int64 _) as [|bs] eqn:Ebs; [done|].
  destruct (get_double _) as [|ap]; [done|]. destruct (get_int64 _) as [|az] eqn:Eas in |- *; [done|].
  destruct (dleb bp _) eqn:E1; [done|]. destruct (dleb ap _) eqn:E2; [done|].
  destruct (Z.leb_spec bs 0); [done|]. destruct (Z.leb_spec az 0); [done|]. intros [= <-].
  unfold accepted. cbn. rewrite symbol_view by done. split_and!; eauto using get_int64_range.
Qed.

Lemma in_i64_to_price d : in_i64 (to_price d).
Proof. apply i64_of_d_range. Qed.

Lemma published_wf venue n log key book : inv venue n log -> default OrderBook.default_book (books_ n !! key) = book ->
  BookSide.wf (OrderBook.bids book) /\ BookSide.wf (OrderBook.asks book).
Proof.
  intros Hi. rewrite (inv_books _ _ _ Hi). destruct (last _) as [b|] eqn:El; cbn; intros <-.
  - apply last_Some_elem_of, list_elem_of_filter in El as [_ El].
    pose proof (inv_published _ _ _ Hi) as Hp. rewrite Forall_forall in Hp. by destruct (Hp b El) as (_ & _ & _ & ? & ? & _).
  - split; split; cbn; done || (unfold MAX_DEPTH; lia).
Qed.

Lemma publish_quote_inv venue n log q now : inv venue n log -> accepted q ->
  inv venue (publish n q now).1 (log ++ [(publish n q now).2]).
Proof.
  intros Hi (Hne & Hlen & Hb & Ha & Hbr & Har & _). unfold publish. cbn [fst snd].
  destruct (published_wf venue n log (FixedString.view (q_symbol q)) _ Hi eq_refl) as [Wb Wa]. set (book := default _ _) in *.
  destruct (top_of_book_spec _ (to_price (bid_price q)) (bid_size q) Wb) as [Wb' Lb].
  destruct (top_of_book_spec _ (to_price (ask_price q)) (ask_size q) Wa) as [Wa' La].
  destruct Hi as [I1 I2 I3 I4 I5].
  assert (u64 (sequence_ n + 1) = u64 (Z.of_nat (length log) + 1)) as Es
    by (rewrite I3; unfold u64, wrapu; by rewrite Zplus_mod_idemp_l).
  split; cbn; [done| | | |].
  - apply Forall_app. split; [done|]. apply Forall_singleton. unfold single_quote. cbn. split_and!; [done..|].
    eexists _, _, _, _. split_and!; [exact Hb|exact Ha|done|done|apply in_i64_to_price|apply in_i64_to_price|exact Lb|exact La].
  - rewrite length_app. cbn. rewrite Es. f_equal. lia.
  - intros i b. rewrite lookup_app. destruct (log !! i) eqn:Ei; [intros [= <-]; by apply I4|].
    intros Hl. apply list_lookup_singleton_Some in Hl as [Hl <-]. cbn. rewrite Es. f_equal.
    apply lookup_ge_None in Ei. lia.
  - intros key. rewrite filter_app. destruct (decide (key = FixedString.view (q_symbol q))) as [->|Hk].
    + rewrite lookup_insert_eq. rewrite filter_cons_True by done. by rewrite filter_nil, last_snoc.
    + rewrite lookup_insert_ne by done. rewrite filter_cons_False, filter_nil, app_nil_r by (cbn; congruence). apply I5.
Qed.

Lemma process_inv `{!JsonLaws J E} venue msgs n log clk : inv venue n log ->
  let '(n', books, _) := process n msgs clk in inv venue n' (log ++ books).
Proof.
  revert n log clk. induction msgs as [|msg msgs IH]; intros n log clk Hi; cbn [process]; [by rewrite app_nil_r|].
  destruct (read_quote msg) as [e|[q|]] eqn:Eq; [by rewrite app_nil_r| |by apply IH].
  pose proof (publish_quote_inv venue n log q (clk 0%nat) Hi (read_quote_accepted _ _ Eq)) as Hp.
  destruct (publish n q (clk 0%nat)) as [n1 book]. cbn [fst snd] in Hp. specialize (IH n1 (log ++ [book]) (fun i => clk (S i)) Hp).
  destruct (process n1 msgs _) as [[n2 books] e]. by rewrite <-app_assoc in IH.
Qed.

Lemma on_message_inv `{!JsonLaws J E} venue n log text clk : inv venue n log ->
  let '(n', books, _) := on_message n text clk in inv venue n' (log ++ books).
Proof.
  intros Hi. unfold on_message. destruct (parse text) as [e|msgs]; [by rewrite app_nil_r|].
  destruct (negb (is_array msgs)); [by rewrite app_nil_r|by apply process_inv].
Qed.

(** ** The quotes of a message

    Stated from the fields of the message. *)

Definition field {A} (get : J -> E + A) (msg : J) (key : string) (v : A) : Prop :=
  exists j, member msg (lit key) = Some j /\ get j = inr v.

Definition is_quote (msg : J) (q : Quote) : Prop := exists symbol : str,
  field get_string msg "T" (lit "q") /\ field get_string msg "S" symbol /\ (1 <= length symbol <= 15)%nat /\
  q_symbol q = FixedString.of_view 16 symbol /\
  field get_double msg "bp" (bid_price q) /\ field get_int64 msg "bs" (bid_size q) /\
  field get_double msg "ap" (ask_price q) /\ field get_int64 msg "as" (ask_size q) /\
  dleb (bid_price q) (d_of_Z 0) = false /\ dleb (ask_price q) (d_of_Z 0) = false /\ 0 < bid_size q /\ 0 < ask_size q.

(** A quote message with a field of the wrong type. *)
Definition ill_typed (msg : J) : Prop := field get_string msg "T" (lit "q") /\ exists j (e : E),
  (member msg (lit "S") = Some j /\ get_string j = inl e) \/
  ((member msg (lit "bp") = Some j \/ member msg (lit "ap") = Some j) /\ get_double j = inl e) \/
  ((member msg (lit "bs") = Some j \/ member msg (lit "as") = Some j) /\ get_int64 j = inl e).

(** The quotes of an array, in order: all of them, unless it holds one of the
    wrong type, where the reading may stop. *)
Inductive quotes_of : list J -> list Quote -> Prop :=
| quotes_none : quotes_of [] []
| quotes_one msg msgs q qs : is_quote msg q -> quotes_of msgs qs -> quotes_of (msg :: msgs) (q :: qs)
| quotes_other msg msgs qs : (forall q, ~ is_quote msg q) -> quotes_of msgs qs -> quotes_of (msg :: msgs) qs
| quotes_stop msg msgs : (forall q, ~ is_quote msg q) -> ill_typed msg -> quotes_of (msg :: msgs) [].

Definition text_quotes (text : str) (qs : list Quote) : Prop :=
  match parse text with
  | inr json => if is_array json then quotes_of (elements json) qs else qs = []
  | inl _ => qs = []
  end.

(** The book of a quote: its prices and sizes, one level a side. *)
Definition book_of (venue : VenueId) (q : Quote) (book : OrderBook.t) : Prop :=
  OrderBook.venue_id book = venue /\ OrderBook.symbol book = q_symbol q /\
  BookSide.live (OrderBook.bids book) = [mkLevel (to_price (bid_price q)) (bid_size q) 1] /\
  BookSide.live (OrderBook.asks book) = [mkLevel (to_price (ask_price q)) (ask_size q) 1].

Lemma field_some {A} (get : J -> E + A) msg key j v :
  member msg (lit key) = Some j -> field get msg key v -> get j = inr v.
Proof. by intros H (j' & [= <-]%(eq_trans (eq_sym H)) & ?). Qed.

(** A message with a field that is missing or unreadable, or out of range, is
    no quote. *)
Ltac no_quote := intros ? (? & ? & ? & ? & _ & ? & ? & ? & ? & ? & ? & ? & ?);
  repeat match goal with
  | Hm : member ?msg (lit ?key) = Some _, Hf : field _ ?msg ?key _ |- _ => apply (field_some _ _ _ _ _ Hm) in Hf
  | Hm : member ?msg (lit ?key) = None, Hf : field _ ?msg ?key _ |- _ => destruct Hf as (? & ? & _); congruence
  | Ha : ?x = inr _, Hb : ?x = _ |- _ => rewrite Ha in Hb; simplify_eq
  end; cbn [length] in *; (congruence || lia).

Ltac ill_type := split; [no_quote|split; [eexists; split; [eassumption|congruence]|eexists _, _; naive_solver]].

Lemma read_quote_spec `{!JsonLaws J E} msg :
  match read_quote msg with
  | inr (Some q) => is_quote msg q
  | inr None => forall q, ~ is_quote msg q
  | inl _ => (forall q, ~ is_quote msg q) /\ ill_typed msg
  end.
Proof.
  unfold read_quote. destruct (member msg (lit "T")) as [ty|] eqn:ET; [|no_quote].
  pose proof (get_string_type ty) as Hty.
  destruct (get_string ty) as [e|type] eqn:Egt.
  { destruct (is_string ty); cbn [negb]; [|no_quote]. destruct (proj1 Hty eq_refl) as [? [=]]. }
  rewrite (proj2 Hty) by by eexists. cbn [negb]. destruct (bool_decide_reflect (type = lit "q")) as [->|Hq]; cbn [negb]; [|no_quote].
  destruct (member msg (lit "S")) as [symbol|] eqn:ES; [|no_quote].
  destruct (member msg (lit "bp")) as [bp|] eqn:Ebp; [|no_quote]. destruct (member msg (lit "bs")) as [bs|] eqn:Ebs; [|no_quote].
  destruct (member msg (lit "ap")) as [ap|] eqn:Eap; [|no_quote]. destruct (member msg (lit "as")) as [az|] eqn:Eas; [|no_quote].
  destruct (get_string symbol) as [|sym] eqn:Es; [ill_type|].
  destruct (bool_decide_reflect (sym = [])) as [->|Hne]; [no_quote|]. destruct (Nat.ltb_spec 15 (length sym)) as [|Hlen]; [no_quote|].
  cbn [orb]. destruct (get_double bp) as [|p] eqn:E1; [ill_type|]. destruct (get_int64 bs) as [|b] eqn:E2; [ill_type|].
  destruct (get_double ap) as [|p'] eqn:E3; [ill_type|]. destruct (get_int64 az) as [|b'] eqn:E4; [ill_type|].
  destruct (dleb p _) eqn:E5; [no_quote|]. destruct (dleb p' _) eqn:E6; [no_quote|].
  destruct (Z.leb_spec b 0); [no_quote|]. destruct (Z.leb_spec b' 0); [no_quote|].
  exists sym. cbn [orb bid_price bid_size ask_price ask_size q_symbol]. destruct sym; [done|]. cbn [length] in *.
  split_and!; try done; try lia; eexists; split; eassumption.
Qed.



Lemma publish_book_of venue n log q now : inv venue n log -> book_of venue q (publish n q now).2.
Proof.
  intros Hi. destruct (published_wf venue n log (FixedString.view (q_symbol q)) _ Hi eq_refl) as [Wb Wa].
  unfold book_of, publish. cbn [snd OrderBook.venue_id OrderBook.symbol OrderBook.bids OrderBook.asks].
  split_and!; [apply Hi|done|by apply top_of_book_spec..].
Qed.

Lemma process_quotes `{!JsonLaws J E} venue msgs n log clk : inv venue n log ->
  exists qs, quotes_of msgs qs /\ Forall2 (book_of venue) qs (process n msgs clk).1.2.
Proof.
  revert n log clk. induction msgs as [|msg msgs IH]; intros n log clk Hi; cbn [process]; [by exists []; repeat constructor|].
  pose proof (read_quote_spec msg) as Hr. destruct (read_quote msg) as [e|[q|]] eqn:Eq.
  - exists []. split; [|constructor]. destruct Hr. by apply quotes_stop.
  - pose proof (publish_quote_inv venue n log q (clk 0%nat) Hi (read_quote_accepted _ _ Eq)) as Hp.
    pose proof (publish_book_of venue n log q (clk 0%nat) Hi) as Hb.
    destruct (publish n q (clk 0%nat)) as [n1 book]. cbn [fst snd] in *.
    destruct (IH n1 _ (fun i => clk (S i)) Hp) as (qs & H1 & H2). destruct (process n1 msgs _) as [[n2 books] e].
    exists (q :: qs). split; [by constructor|by constructor].
  - destruct (IH n log clk Hi) as (qs & H1 & H2). exists qs. split; [by apply quotes_other|done].
Qed.

Lemma on_message_quotes `{!JsonLaws J E} venue n log text clk : inv venue n log ->
  exists qs, text_quotes text qs /\ Forall2 (book_of venue) qs (on_message n text clk).1.2.
Proof.
  intros Hi. unfold on_message, text_quotes. destruct (parse text) as [e|json]; [by exists []; split; [|constructor]|].
  destruct (is_array json); cbn [negb]; [by eapply process_quotes|by exists []; split; [|constructor]].
Qed.

End messages.

End AlpacaNormalizer.

Module AlpacaProvider.

Record Config := mkConfig {
  api_key : str; api_secret : str; ws_url : str; venue_id : VenueId;
  reconnect_delay : Z; max_reconnect_attempts : Z
}.

(** [aggregator_]: whether one is set. *)
Record t := mk {
  config_ : Config;
  aggregator_ : bool;
  normalizer_ : AlpacaNormalizer.t;
  quality_ : FeedQualityMonitor.t;
  connected_ : bool;
  authenticated_ : bool;
  should_run_ : bool;
  pending_symbols_ : gset str;
  subscribed_symbols_ : gset str
}.

(** The quality monitor takes its threshold in milliseconds. *)
Definition create (config : Config) : t :=
  mk config false (AlpacaNormalizer.create (venue_id config)) (FeedQualityMonitor.create 5000) false false false ∅ ∅.

(** What the provider does to the socket and to the aggregator. *)
Inductive effect :=
| WsStart (url : str)
| WsStop
| WsSend (text : str)
| BookUpdate (book : OrderBook.t).

Inductive ws_message := Open_ | Close_ | Error_ | Message_ (text : str) | Other_.

Definition is_connected (p : t) : bool := connected_ p && authenticated_ p.

(** [connect], up to the wait and after it; [None] when already connected. *)
Definition connect_start (p : t) : option (t * list effect) :=
  if connected_ p then None else Some ({ p with should_run_ := true }, [WsStart (ws_url (config_ p))]).

Definition connect_finish (p : t) : bool * list effect :=
  if authenticated_ p then (true, []) else (false, [WsStop]).

Definition disconnect (p : t) : t * list effect :=
  ({ p with should_run_ := false; connected_ := false; authenticated_ := false }, [WsStop]).

Section session.
Context {J E : Type} `{!Json J E}.

(** The order in which the set of symbols is walked. *)
Context (walk : gset str -> list str) (walk_perm : forall s, walk s ≡ₚ base.elements s).

Definition auth_message (p : t) : list (str * J) :=
  [set "action" (of_string (lit "auth")); set "key" (of_string (api_key (config_ p)));
   set "secret" (of_string (api_secret (config_ p)))].

Definition subscription (action : string) (symbols : list str) : list (str * J) :=
  [set "action" (of_string (lit action)); set "quotes" (of_list (of_string <$> symbols))].

(** [ws_.send(message.dump())] *)
Definition send (message : list (str * J)) : E + list effect :=
  try text <- dump (assign message); inr [WsSend text].

Definition to_subscribe (p : t) : list str :=
  filter (fun s => s ∉ subscribed_symbols_ p) (walk (pending_symbols_ p)).

(** The three parts of [send_subscriptions]: the symbols are collected in one
    critical section, sent outside of any, and recorded in another.  Here they
    follow one another; [AlpacaThreads] lets other threads come between. *)
Definition record (p : t) (symbols : list str) : t :=
  { p with subscribed_symbols_ ::= fun ss => ss ∪ list_to_set symbols }.

Definition send_subscriptions (p : t) : t * list effect * option E :=
  match to_subscribe p with
  | [] => (p, [], None)
  | symbols =>
      match send (subscription "subscribe" symbols) with
      | inl e => (p, [], Some e)
      | inr evs => (record p symbols, evs, None)
      end
  end.

(** The critical sections of [subscribe] and [unsubscribe]. *)
Definition request (p : t) (symbol : FixedString.t) : t :=
  { p with pending_symbols_ ::= fun ss => {[FixedString.view symbol]} ∪ ss }.

Definition withdraw (p : t) (symbol : FixedString.t) : t :=
  let sym := FixedString.view symbol in
  { p with pending_symbols_ ::= fun ss => ss ∖ {[sym]}; subscribed_symbols_ ::= fun ss => ss ∖ {[sym]} }.

Definition subscribe (p : t) (symbol : FixedString.t) : t * list effect * option E :=
  let p := request p symbol in
  if authenticated_ p then send_subscriptions p else (p, [], None).

Definition unsubscribe (p : t) (symbol : FixedString.t) : t * list effect * option E :=
  let p := withdraw p symbol in
  if authenticated_ p then
    match send (subscription "unsubscribe" [FixedString.view symbol]) with
    | inl e => (p, [], Some e)
    | inr evs => (p, evs, None)
    end
  else (p, [], None).

(** What [on_ws_message] takes a message for: data, a control message, or the
    one that ends the authentication, whose subscriptions are then sent. *)
Inductive verdict := IsData | IsControl | IsAuthenticated.

Definition classify (p : t) (text : str) : t * verdict :=
  match parse text with
  | inl _ => (p, IsData)
  | inr json =>
      match (if is_array json then elements json else []) with
      | [] => (p, IsData)
      | first :: _ =>
          match member first (lit "T") with
          | None => (p, IsData)
          | Some type =>
              match get_string type with
              | inl _ => (p, IsData)
              | inr type =>
                  if bool_decide (type = lit "success") && contains first "msg" then
                    match get_string (default first (member first (lit "msg"))) with
                    | inl _ => (p, IsData)
                    | inr m =>
                        if bool_decide (m = lit "authenticated")
                        then ({ p with authenticated_ := true }, IsAuthenticated)
                        else (p, IsControl)
                    end
                  else if bool_decide (type = lit "error") then
                    let code := from_option get_int64 (inr 0) (member first (lit "code")) in
                    let msg := from_option get_string (inr (lit "unknown")) (member first (lit "msg")) in
                    match code, msg with
                    | inr _, inr _ => ({ p with quality_ ::= FeedQualityMonitor.on_parse_error }, IsControl)
                    | _, _ => (p, IsData)
                    end
                  else (p, if bool_decide (type = lit "subscription") then IsControl else IsData)
              end
          end
      end
  end.

(** The control messages: the state, the effects, and whether the message was
    one of them.  Every exception is caught, and the message is then taken for
    data. *)
Definition control (p : t) (text : str) : t * list effect * bool :=
  match classify p text with
  | (p, IsData) => (p, [], false)
  | (p, IsControl) => (p, [], true)
  | (p, IsAuthenticated) => let '(p, evs, e) := send_subscriptions p in (p, evs, bool_decide (e = None))
  end.

Definition on_data (p : t) (text : str) (clk : nat -> Timestamp) : t * list effect * option E :=
  if aggregator_ p then
    let '(n, books, e) := AlpacaNormalizer.on_message (normalizer_ p) text clk in
    ({ p with normalizer_ := n;
              quality_ ::= fun q => fold_left (fun q _ => FeedQualityMonitor.on_quote_processed q) books q },
     BookUpdate <$> books, e)
  else (p, [], None).

Definition on_ws_message (p : t) (msg : ws_message) (clk : nat -> Timestamp) : t * list effect * option E :=
  match msg with
  | Open_ =>
      let p := { p with connected_ := true } in
      match send (auth_message p) with
      | inl e => (p, [], Some e)
      | inr evs => (p, evs, None)
      end
  | Close_ =>
      ({ p with connected_ := false; authenticated_ := false; quality_ ::= FeedQualityMonitor.on_reconnection }, [], None)
  | Error_ => ({ p with quality_ ::= FeedQualityMonitor.on_parse_error }, [], None)
  | Message_ text =>
      let p := { p with quality_ ::= fun q => FeedQualityMonitor.on_message_received q (clk 0%nat) } in
      let '(p, evs, handled) := control p text in
      if handled : bool then (p, evs, None)
      else
        let '(p, evs', e) := on_data p text (fun i => clk (S i)) in
        (p, evs ++ evs', e)
  | Other_ => (p, [], None)
  end.

(** ** Sessions *)

Inductive op :=
| Connect | ConnectFinish | Disconnect
| Subscribe (symbol : FixedString.t) | Unsubscribe (symbol : FixedString.t)
| SetAggregator
| Ws (msg : ws_message) (clk : nat -> Timestamp).

Definition do_op (p : t) (o : op) : t * list effect * option E :=
  match o with
  | Connect => match connect_start p with None => (p, [], None) | Some (p, evs) => (p, evs, None) end
  | ConnectFinish => (p, (connect_finish p).2, None)
  | Disconnect => let '(p, evs) := disconnect p in (p, evs, None)
  | Subscribe symbol => subscribe p symbol
  | Unsubscribe symbol => unsubscribe p symbol
  | SetAggregator => ({ p with aggregator_ := true }, [], None)
  | Ws msg clk => on_ws_message p msg clk
  end.

(** An exception ends the call; the provider stays as it is left. *)
Definition run_from (p : t) (ops : list op) : t * list effect :=
  fold_left (fun '(p, evs) o => let '(p, new, _) := do_op p o in (p, evs ++ new)) ops (p, []).

Definition books_of (evs : list effect) : list OrderBook.t :=
  omap (fun e => match e with BookUpdate b => Some b | _ => None end) evs.

Lemma to_subscribe_pending p : list_to_set (to_subscribe p) =@{gset str} pending_symbols_ p ∖ subscribed_symbols_ p.
Proof.
  apply set_eq. intros s. rewrite elem_of_list_to_set. unfold to_subscribe.
  rewrite list_elem_of_filter, walk_perm, elem_of_elements. set_solver.
Qed.

Lemma books_of_app a b : books_of (a ++ b) = books_of a ++ books_of b.
Proof. apply omap_app. Qed.

Lemma books_of_updates bs : books_of (BookUpdate <$> bs) = bs.
Proof. unfold books_of. induction bs as [|b bs IH]; cbn; [done|]. f_equal. exact IH. Qed.

End session.

End AlpacaProvider.


(** ** The provider between threads

    Thread 0 is the socket's own, which handles one message at a time; any
    other thread may be in one call of the provider.  A step is a critical
    section, a read or write of a flag, or a send. *)

Module AlpacaThreads.
Import AlpacaProvider.

Inductive call := Connecting | Disconnecting | Subscribing (symbol : FixedString.t) | Unsubscribing (symbol : FixedString.t) | SettingAggregator.

(** Where a thread is.  [m] is the message whose handler sends the
    subscriptions, if it is not a call that does. *)
Inductive pc :=
| Done
| Called (c : call)
| Handling (msg : ws_message) (clk : nat -> Timestamp)
| Starting | Waiting | GivingUp
| Stopping | LowerConnected | LowerAuthenticated
| SendAuth | Closing
| Check
| Collect (m : option (str * (nat -> Timestamp)))
| SendSubs (symbols : list str) (m : option (str * (nat -> Timestamp)))
| RecordSubs (symbols : list str)
| Withdrawn (sym : str) | SendUnsub (sym : str)
| Data (text : str) (clk : nat -> Timestamp).

Section threads.
Context {J E : Type} `{!Json J E}.
Context (walk : gset str -> list str) (walk_perm : forall s, walk s ≡ₚ base.elements s).

(** What is sent, and where the thread is then; [failed] when the message
    cannot be written. *)
Definition sending (p : t) (message : list (str * J)) (sent failed : pc) : t * list effect * pc :=
  match send message with
  | inr evs => (p, evs, sent)
  | inl _ => (p, [], failed)
  end.

(** The handler of a control message catches every exception and goes on with
    the message as data; out of a call it reaches the caller. *)
Definition thrown (m : option (str * (nat -> Timestamp))) : pc :=
  match m with Some (text, clk) => Data text clk | None => Done end.

Definition advance (p : t) (q : pc) : t * list effect * pc :=
  match q with
  | Done => (p, [], Done)
  | Called Connecting => (p, [], if connected_ p then Done else Starting)
  | Starting => ({ p with should_run_ := true }, [WsStart (ws_url (config_ p))], Waiting)
  | Waiting => (p, [], if authenticated_ p then Done else GivingUp)
  | GivingUp => (p, [WsStop], Done)
  | Called Disconnecting => ({ p with should_run_ := false }, [], Stopping)
  | Stopping => (p, [WsStop], LowerConnected)
  | LowerConnected => ({ p with connected_ := false }, [], LowerAuthenticated)
  | LowerAuthenticated => ({ p with authenticated_ := false }, [], Done)
  | Called (Subscribing symbol) => (request p symbol, [], Check)
  | Check => (p, [], if authenticated_ p then Collect None else Done)
  | Collect m => (p, [], match to_subscribe walk p with [] => Done | symbols => SendSubs symbols m end)
  | SendSubs symbols m => sending p (subscription "subscribe" symbols) (RecordSubs symbols) (thrown m)
  | RecordSubs symbols => (record p symbols, [], Done)
  | Called (Unsubscribing symbol) => (withdraw p symbol, [], Withdrawn (FixedString.view symbol))
  | Withdrawn sym => (p, [], if authenticated_ p then SendUnsub sym else Done)
  | SendUnsub sym => sending p (subscription "unsubscribe" [sym]) Done Done
  | Called SettingAggregator => ({ p with aggregator_ := true }, [], Done)
  | Handling Open_ _ => ({ p with connected_ := true }, [], SendAuth)
  | SendAuth => sending p (auth_message p) Done Done
  | Handling Close_ _ => ({ p with connected_ := false }, [], Closing)
  | Closing => ({ p with authenticated_ := false; quality_ ::= FeedQualityMonitor.on_reconnection }, [], Done)
  | Handling Error_ _ => ({ p with quality_ ::= FeedQualityMonitor.on_parse_error }, [], Done)
  | Handling (Message_ text) clk =>
      let p := { p with quality_ ::= fun q => FeedQualityMonitor.on_message_received q (clk 0%nat) } in
      let rest := fun i => clk (S i) in
      let '(p, v) := classify p text in
      (p, [], match v with IsData => Data text rest | IsControl => Done | IsAuthenticated => Collect (Some (text, rest)) end)
  | Handling Other_ _ => (p, [], Done)
  | Data text clk => let '(p, evs, _) := on_data p text clk in (p, evs, Done)
  end.

Record sys := mkSys {
  provider : t;
  threads : nat -> pc;
  log : list effect;          (** what went to the socket and to the aggregator *)
  data : list str             (** the messages handed to the normalizer *)
}.

Inductive move :=
| Call (i : nat) (c : call)
| Deliver (msg : ws_message) (clk : nat -> Timestamp)
| Step (i : nat).

Definition idle (q : pc) : bool := match q with Done => true | _ => false end.

Definition handed (p : t) (q : pc) : list str :=
  match q with Data text _ => if aggregator_ p then [text] else [] | _ => [] end.

Definition step (s : sys) (m : move) : sys :=
  match m with
  | Call i c => if idle (threads s (S i)) then mkSys (provider s) (set_thread (threads s) (S i) (Called c)) (log s) (data s) else s
  | Deliver msg clk => if idle (threads s 0) then mkSys (provider s) (set_thread (threads s) 0 (Handling msg clk)) (log s) (data s) else s
  | Step i =>
      let '(p, evs, q) := advance (provider s) (threads s i) in
      mkSys p (set_thread (threads s) i q) (log s ++ evs) (data s ++ handed (provider s) (threads s i))
  end.

Definition run (config : Config) (ms : list move) : sys :=
  fold_left step ms (mkSys (create config) (fun _ => Done) [] []).

(** *** The books *)

Record books_ok (config : Config) (s : sys) : Prop := {
  ok_config : config_ (provider s) = config;
  ok_normalizer : AlpacaNormalizer.inv (venue_id config) (normalizer_ (provider s)) (books_of (log s));
  ok_books : exists reads, Forall2 AlpacaNormalizer.text_quotes (data s) reads /\
    Forall2 (AlpacaNormalizer.book_of (venue_id config)) (concat reads) (books_of (log s))
}.

Lemma classify_frame p text : let p' := (classify p text).1 in
  config_ p' = config_ p /\ normalizer_ p' = normalizer_ p /\ pending_symbols_ p' = pending_symbols_ p /\
  subscribed_symbols_ p' = subscribed_symbols_ p /\
  ((classify p text).2 = IsAuthenticated \/ authenticated_ p' = authenticated_ p).
Proof. unfold classify. repeat case_match; cbn; split_and!; auto. Qed.

Lemma sending_frame p message q1 q2 :
  let '(p', evs, _) := sending p message q1 q2 in p' = p /\ books_of evs = [].
Proof. unfold sending, send. by destruct (dump _). Qed.

Lemma advance_books p q : match q with Data _ _ => False | _ => True end ->
  let '(p', evs, _) := advance p q in
  config_ p' = config_ p /\ normalizer_ p' = normalizer_ p /\ books_of evs = [].
Proof.
  intros Hq. destruct q as [|[]|[]| | | | | | | | | | | | | | |]; try done; cbn [advance].
  - match goal with |- context [classify ?p ?t] => destruct (classify_frame p t) as (H1 & H2 & _) end. destruct (classify _ _). done.
  - pose proof (sending_frame p (auth_message p) Done Done) as H. destruct (sending _ _ _ _) as [[]]. by destruct H as [-> ?].
  - match goal with |- context [sending ?p ?m ?a ?b] => pose proof (sending_frame p m a b) as H end.
    destruct (sending _ _ _ _) as [[]]. by destruct H as [-> ?].
  - match goal with |- context [sending ?p ?m ?a ?b] => pose proof (sending_frame p m a b) as H end.
    destruct (sending _ _ _ _) as [[]]. by destruct H as [-> ?].
Qed.

Lemma on_data_books `{!JsonLaws J E} p text clk : let '(p', evs, _) := on_data p text clk in
  forall config log, config_ p = config -> AlpacaNormalizer.inv (venue_id config) (normalizer_ p) log ->
  config_ p' = config /\ AlpacaNormalizer.inv (venue_id config) (normalizer_ p') (log ++ books_of evs) /\
  exists reads, Forall2 AlpacaNormalizer.text_quotes (if aggregator_ p then [text] else []) reads /\
    Forall2 (AlpacaNormalizer.book_of (venue_id config)) (concat reads) (books_of evs).
Proof.
  unfold on_data. destruct (aggregator_ p); [|intros config lg Hc Hn; rewrite app_nil_r; split_and!; [done|done|by exists []; repeat constructor]].
  destruct (AlpacaNormalizer.on_message _ _ _) as [[n books] e] eqn:Em. intros config lg Hc Hn. rewrite books_of_updates.
  pose proof (AlpacaNormalizer.on_message_inv _ _ _ text clk Hn) as H1. rewrite Em in H1.
  destruct (AlpacaNormalizer.on_message_quotes _ _ _ text clk Hn) as (qs & H2 & H3). rewrite Em in H3.
  split_and!; [done|done|]. exists [qs]. cbn [concat]. rewrite app_nil_r. split; [by repeat constructor|done].
Qed.

Lemma advance_reads `{!JsonLaws J E} config p q lg :
  config_ p = config -> AlpacaNormalizer.inv (venue_id config) (normalizer_ p) lg ->
  let '(p', evs, _) := advance p q in
  config_ p' = config /\ AlpacaNormalizer.inv (venue_id config) (normalizer_ p') (lg ++ books_of evs) /\
  exists reads, Forall2 AlpacaNormalizer.text_quotes (handed p q) reads /\
    Forall2 (AlpacaNormalizer.book_of (venue_id config)) (concat reads) (books_of evs).
Proof.
  intros Hc Hn. assert ((exists text clk, q = Data text clk) \/ match q with Data _ _ => False | _ => True end) as [(text & clk & ->)|Hq]
    by (destruct q; eauto).
  - pose proof (on_data_books p text clk) as Hd. cbn [advance handed]. destruct (on_data p text clk) as [[p' evs] e]. by apply Hd.
  - pose proof (advance_books p q Hq) as Ha. destruct (advance p q) as [[p' evs] q']. destruct Ha as (H1 & H2 & H3).
    rewrite H1, H2, H3, app_nil_r. split_and!; [done..|]. exists []. destruct q; done || by repeat constructor.
Qed.

Lemma run_books `{!JsonLaws J E} config ms : books_ok config (run config ms).
Proof.
  apply (fold_left_inv step (fun s _ => books_ok config s)).
  { split; [done|by split|by exists []; repeat constructor]. }
  intros s _ m _ Hs. pose proof Hs as [H1 H2 (reads & H3 & H4)]. destruct m as [i c|msg clk|i]; cbn [step].
  - destruct (idle _); [by split; [..|exists reads]|done].
  - destruct (idle _); [by split; [..|exists reads]|done].
  - pose proof (advance_reads config (provider s) (threads s i) _ H1 H2) as Ha.
    destruct (advance _ _) as [[p' evs] q']. destruct Ha as (A1 & A2 & more & A3 & A4).
    split; cbn [provider log data]; [done|by rewrite books_of_app|].
    exists (reads ++ more). rewrite concat_app, books_of_app. split; by apply Forall2_app.
Qed.

(** *** What is sent *)

Definition requested (ms : list move) (sym : str) : Prop := exists i symbol, Call i (Subscribing symbol) ∈ ms /\ FixedString.view symbol = sym.
Definition unwanted (ms : list move) (sym : str) : Prop := exists i symbol, Call i (Unsubscribing symbol) ∈ ms /\ FixedString.view symbol = sym.

(** The text of a message that subscribes to these symbols. *)
Definition subscribes (text : str) (symbols : list str) : Prop := dump (assign (subscription "subscribe" symbols)) = inr text.

Definition sent (lg : list effect) (sym : str) : Prop :=
  exists symbols text, sym ∈ symbols /\ subscribes text symbols /\ WsSend text ∈ lg.

Definition asked (config : Config) (ms : list move) (e : effect) : Prop :=
  match e with
  | WsSend text =>
      dump (assign (auth_message (create config))) = inr text \/
      (exists symbols, symbols <> [] /\ Forall (requested ms) symbols /\ subscribes text symbols) \/
      (exists sym, unwanted ms sym /\ dump (assign (subscription "unsubscribe" [sym])) = inr text)
  | _ => True
  end.

Definition wants (ms : list move) (lg : list effect) (q : pc) : Prop :=
  match q with
  | Called (Subscribing symbol) => requested ms (FixedString.view symbol)
  | Called (Unsubscribing symbol) => unwanted ms (FixedString.view symbol)
  | Withdrawn sym | SendUnsub sym => unwanted ms sym
  | SendSubs symbols _ => symbols <> [] /\ Forall (requested ms) symbols
  | RecordSubs symbols => Forall (sent lg) symbols
  | _ => True
  end.

Lemma sent_more lg lg' sym : lg ⊆ lg' -> sent lg sym -> sent lg' sym.
Proof. intros H (symbols & text & ? & ? & Ht). exists symbols, text. eauto. Qed.

Lemma requested_more ms ms' sym : ms ⊆ ms' -> requested ms sym -> requested ms' sym.
Proof. intros H (i & symbol & Hi & ?). exists i, symbol. eauto. Qed.

Lemma unwanted_more ms ms' sym : ms ⊆ ms' -> unwanted ms sym -> unwanted ms' sym.
Proof. intros H (i & symbol & Hi & ?). exists i, symbol. eauto. Qed.

Lemma asked_more config ms ms' e : ms ⊆ ms' -> asked config ms e -> asked config ms' e.
Proof.
  intros H. destruct e as [| |text|]; try done. intros [?|[(symbols & ? & Hf & ?)|(sym & ? & ?)]]; [by left|right; left|right; right].
  - exists symbols. split_and!; [done| |done]. eapply Forall_impl; [exact Hf|]. intros x. by apply requested_more.
  - exists sym. split; [by eapply unwanted_more|done].
Qed.

Lemma wants_more ms ms' lg lg' q : ms ⊆ ms' -> lg ⊆ lg' -> wants ms lg q -> wants ms' lg' q.
Proof.
  intros H1 H2. destruct q as [|[]| | | | | | | | | | | | | | | |]; cbn; try done; eauto using requested_more, unwanted_more.
  - intros [? Hf]. split; [done|]. eapply Forall_impl; [exact Hf|]. intros x. by apply requested_more.
  - intros Hf. eapply Forall_impl; [exact Hf|]. intros x. by apply sent_more.
Qed.

(** What the provider holds was asked for, and what it takes for subscribed
    was sent. *)
Definition asks_ok (config : Config) (ms : list move) (lg : list effect) (p : t) : Prop :=
  config_ p = config /\ (forall sym, sym ∈ pending_symbols_ p -> requested ms sym) /\
  (forall sym, sym ∈ subscribed_symbols_ p -> sent lg sym).

Lemma asks_same config ms lg lg' p p' : asks_ok config ms lg p -> lg ⊆ lg' -> config_ p' = config_ p ->
  pending_symbols_ p' = pending_symbols_ p -> subscribed_symbols_ p' = subscribed_symbols_ p -> asks_ok config ms lg' p'.
Proof.
  unfold asks_ok. intros (H1 & H2 & H3) Hl -> -> ->. split_and!; [done..|]. intros sym Hs. eapply sent_more; [done|]. by apply H3.
Qed.

Lemma prefix_subset (lg evs : list effect) : lg ⊆ lg ++ evs.
Proof. set_solver. Qed.

Lemma sending_asks config ms lg p message q1 q2 : asks_ok config ms lg p ->
  (forall text, dump (assign message) = inr text -> asked config ms (WsSend text) /\ wants ms (lg ++ [WsSend text]) q1) -> wants ms lg q2 ->
  let '(p', evs, q') := sending p message q1 q2 in
  asks_ok config ms (lg ++ evs) p' /\ Forall (asked config ms) evs /\ wants ms (lg ++ evs) q'.
Proof.
  intros Hp H1 H2. unfold sending, send. destruct (dump _) as [e|text].
  - split_and!; [by eapply asks_same; [|apply prefix_subset|..]|constructor|by eapply wants_more; [|apply prefix_subset|]].
  - destruct (H1 text eq_refl). split_and!; [by eapply asks_same; [|apply prefix_subset|..]|by constructor|done].
Qed.

Lemma to_subscribe_asks config ms lg p : asks_ok config ms lg p -> Forall (requested ms) (to_subscribe walk p).
Proof.
  intros (_ & H & _). apply Forall_forall. intros sym Hs. apply H.
  assert (sym ∈@{gset str} list_to_set (to_subscribe walk p)) as Hs' by by apply elem_of_list_to_set.
  rewrite (to_subscribe_pending walk walk_perm) in Hs'. set_solver.
Qed.

Lemma advance_asks config ms lg p q : asks_ok config ms lg p -> wants ms lg q ->
  let '(p', evs, q') := advance p q in
  asks_ok config ms (lg ++ evs) p' /\ Forall (asked config ms) evs /\ wants ms (lg ++ evs) q'.
Proof.
  intros Hp Hq. assert (forall p' q' evs, Forall (asked config ms) evs -> config_ p' = config_ p -> pending_symbols_ p' = pending_symbols_ p ->
    subscribed_symbols_ p' = subscribed_symbols_ p -> wants ms (lg ++ evs) q' ->
    asks_ok config ms (lg ++ evs) p' /\ Forall (asked config ms) evs /\ wants ms (lg ++ evs) q') as Hsame.
  { intros. split_and!; [by eapply asks_same; [|apply prefix_subset|..]|done|done]. }
  pose proof Hp as (Hc & Hpend & Hsub).
  destruct q as [|[| |symbol|symbol|]|[| | |text|] clk| | | | | | | | | |m|symbols m|symbols|sym|sym|text clk]; cbn [advance];
    try (apply Hsame; try done; try (by try case_match); by repeat constructor).
  - (* subscribe *) split_and!; [split_and!; [done| |]|constructor|done].
    + cbn. intros sym [->%elem_of_singleton|Hs]%elem_of_union; [done|by apply Hpend].
    + rewrite app_nil_r. exact Hsub.
  - (* unsubscribe *) split_and!; [split_and!; [done| |]|constructor|done]; cbn; intros sym [Hs _]%elem_of_difference.
    + by apply Hpend.
    + rewrite app_nil_r. by apply Hsub.
  - match goal with |- context [classify ?p ?t] => destruct (classify_frame p t) as (H1 & H2 & H3 & H4 & _) end.
    destruct (classify _ _) as [p' v]. apply Hsame; [constructor|done..|by destruct v].
  - apply sending_asks; [done| |done]. intros text Ht. split; [left|done]. unfold auth_message in *. by rewrite Hc in Ht.
  - apply Hsame; [constructor|done..|]. pose proof (to_subscribe_asks config ms lg p Hp). destruct (to_subscribe walk p); [done|by split].
  - destruct Hq as [Hne Hf]. apply sending_asks; [done| |by destruct m as [[]|]]. intros text Ht. split; [right; left; by exists symbols|].
    apply Forall_forall. intros sym Hs. exists symbols, text. split_and!; [done..|]. set_solver.
  - split_and!; [split_and!; [done|done|]|constructor|done]. cbn in *. rewrite app_nil_r.
    intros sym [Hs|Hs%elem_of_list_to_set]%elem_of_union; [by apply Hsub|]. rewrite Forall_forall in Hq. by apply Hq.
  - apply sending_asks; [done| |done]. intros text Ht. split; [right; right; by exists sym|done].
  - unfold on_data. destruct (aggregator_ p); [|by apply Hsame; [constructor|..]].
    destruct (AlpacaNormalizer.on_message _ _ _) as [[n books] e]. apply Hsame; [|done..].
    apply Forall_fmap, Forall_true. done.
Qed.

Lemma run_asks config ms : let s := run config ms in
  asks_ok config ms (log s) (provider s) /\ Forall (asked config ms) (log s) /\ forall i, wants ms (log s) (threads s i).
Proof.
  apply (fold_left_inv step (fun s seen => asks_ok config seen (log s) (provider s) /\ Forall (asked config seen) (log s) /\
    forall i, wants seen (log s) (threads s i))).
  { split_and!; [split_and!; [done|..]; cbn; set_solver|constructor|done]. }
  intros s seen m _ (Hp & Hl & Hw). assert (seen ⊆ seen ++ [m]) as Hms by set_solver.
  assert (asks_ok config (seen ++ [m]) (log s) (provider s)) as Hp'.
  { destruct Hp as (H1 & H2 & H3). split_and!; [done| |done]. intros sym Hs. by eapply requested_more, H2. }
  assert (Forall (asked config (seen ++ [m])) (log s)) as Hl' by (eapply Forall_impl; [exact Hl|]; intros e; by apply asked_more).
  assert (forall i, wants (seen ++ [m]) (log s) (threads s i)) as Hw' by (intros i; by eapply wants_more).
  destruct m as [i c|msg clk|i]; cbn [step].
  - destruct (idle _); [|done]. split_and!; [done..|]. apply set_thread_all; [|auto].
    destruct c; cbn; try done; eexists i, _; (split; [|done]); set_solver.
  - destruct (idle _); [|done]. split_and!; [done..|]. by apply set_thread_all.
  - pose proof (advance_asks config (seen ++ [Step i]) (log s) (provider s) (threads s i) Hp' (Hw' i)) as Ha.
    destruct (advance _ _) as [[p' evs] q']. destruct Ha as (A1 & A2 & A3).
    split_and!; [done|by apply Forall_app|]. apply set_thread_all; [done|]. intros j _. cbn [log].
    by eapply wants_more; [|apply prefix_subset|apply Hw'].
Qed.

(** *** What is asked for is subscribed *)

Definition covers (q : pc) (sym : str) : Prop :=
  match q with
  | Check | Collect _ => True
  | SendSubs symbols _ | RecordSubs symbols => sym ∈ symbols
  | _ => False
  end.

Definition missing (p : t) (sym : str) : Prop :=
  authenticated_ p = true /\ sym ∈ pending_symbols_ p /\ sym ∉ subscribed_symbols_ p.

Lemma sending_total p message q1 q2 : (exists text, dump (assign message) = inr text) ->
  exists evs, sending p message q1 q2 = (p, evs, q1).
Proof. intros [text Ht]. unfold sending, send. rewrite Ht. by eexists. Qed.

Lemma advance_missing p q sym : (forall message, exists text, dump (assign message) = inr text) ->
  let '(p', _, q') := advance p q in missing p' sym -> covers q' sym \/ (missing p sym /\ ~ covers q sym).
Proof.
  intros Hd. unfold missing. destruct q as [|[| |symbol|symbol|]|[| | |text|] clk| | | | | | | | | |m|symbols m|symbols|sym'|sym'|text clk]; cbn [advance];
    try (by auto); try (by cbn; intros (? & ? & ?)).
  - intros _. by left.
  - cbn. intros (H1 & H2 & H3). right. split; [|tauto]. set_solver.
  - match goal with |- context [classify ?p ?t] => destruct (classify_frame p t) as (_ & _ & H3 & H4 & H5) end.
    destruct (classify _ _) as [p' v]. cbn [fst snd] in *. rewrite H3, H4. intros (H1 & H6 & H7).
    destruct v; cbn [covers]; [..|by left]; (destruct H5 as [|H5]; [done|]; right; split; [|tauto]; by rewrite H5 in H1).
  - destruct (sending_total p (auth_message p) Done Done (Hd _)) as [evs ->]. by right; auto.
  - intros (H1 & H2 & H3). rewrite H1. by left.
  - intros (H1 & H2 & H3). left. assert (sym ∈@{gset str} list_to_set (to_subscribe walk p)) as Hs.
    { rewrite (to_subscribe_pending walk walk_perm). set_solver. }
    apply elem_of_list_to_set in Hs. destruct (to_subscribe walk p); [by apply not_elem_of_nil in Hs|done].
  - destruct (sending_total p (subscription "subscribe" symbols) (RecordSubs symbols) (thrown m) (Hd _)) as [evs ->].
    intros Hm. destruct (decide (sym ∈ symbols)); [by left|right; by split].
  - cbn. intros (H1 & H2 & H3). right. set_solver.
  - destruct (sending_total p (subscription "unsubscribe" [sym']) Done Done (Hd _)) as [evs ->]. by right; auto.
  - unfold on_data. destruct (aggregator_ p); [|by right; auto]. destruct (AlpacaNormalizer.on_message _ _ _) as [[n books] e].
    cbn. by right; auto.
Qed.

Lemma run_covered config ms sym : (forall message, exists text, dump (assign message) = inr text) ->
  missing (provider (run config ms)) sym -> exists i, covers (threads (run config ms) i) sym.
Proof.
  intros Hd. apply (fold_left_inv step (fun s _ => missing (provider s) sym -> exists i, covers (threads s i) sym)).
  { intros (? & ? & ?). done. }
  intros s _ m _ IH. destruct m as [i c|msg clk|i]; cbn [step].
  - destruct (threads s (S i)) eqn:Et; cbn [idle provider threads]; try done. intros [j Hj]%IH. exists j.
    rewrite set_thread_ne; [done|]. intros ->. by rewrite Et in Hj.
  - destruct (threads s 0) eqn:Et; cbn [idle provider threads]; try done. intros [j Hj]%IH. exists j.
    rewrite set_thread_ne; [done|]. intros ->. by rewrite Et in Hj.
  - pose proof (advance_missing (provider s) (threads s i) sym Hd) as Ha. destruct (advance _ _) as [[p' evs] q'].
    cbn [provider threads]. intros [Hq|[Hm Hq]]%Ha; [exists i; by rewrite set_thread_eq|].
    destruct (IH Hm) as [j Hj]. exists j. rewrite set_thread_ne; [done|]. by intros ->.
Qed.

(** *** What is no longer asked for *)

Definition gathered (q : pc) (sym : str) : Prop :=
  match q with SendSubs symbols _ | RecordSubs symbols => sym ∈ symbols | _ => False end.

(** No symbol is withdrawn while a thread is subscribing to it. *)
Definition undisturbed (config : Config) (ms : list move) : Prop :=
  forall pre i post symbol, ms = pre ++ Step i :: post -> threads (run config pre) i = Called (Unsubscribing symbol) ->
  forall j, ~ gathered (threads (run config pre) j) (FixedString.view symbol).

Definition wanted_ok (p : t) (ths : nat -> pc) : Prop :=
  subscribed_symbols_ p ⊆ pending_symbols_ p /\ forall j sym, gathered (ths j) sym -> sym ∈ pending_symbols_ p.

Lemma advance_gathered p q :
  (forall symbol, q <> Called (Unsubscribing symbol)) -> let '(p', _, q') := advance p q in
  pending_symbols_ p ⊆ pending_symbols_ p' /\
  (forall sym, sym ∈ subscribed_symbols_ p' -> sym ∈ subscribed_symbols_ p \/ gathered q sym) /\
  (forall sym, gathered q' sym -> sym ∈ pending_symbols_ p' \/ gathered q sym).
Proof.
  intros Hq. destruct q as [|[| |symbol|symbol|]|[| | |text|] clk| | | | | | | | | |m|symbols m|symbols|sym'|sym'|text clk]; cbn [advance];
    try (split_and!; [done|by auto|by try case_match]).
  - split_and!; cbn; [set_solver|by auto|done].
  - by destruct (Hq symbol).
  - match goal with |- context [classify ?p ?t] => destruct (classify_frame p t) as (_ & _ & H3 & H4 & _) end.
    destruct (classify _ _) as [p' v]. cbn [fst] in *. rewrite H3, H4. split_and!; [done|by auto|by destruct v].
  - unfold sending. destruct (send _); split_and!; auto; done.
  - split_and!; [done|by auto|]. pose proof (to_subscribe_pending walk walk_perm p) as Ht. destruct (to_subscribe walk p) as [|s l]; [done|].
    intros sym Hs. left. cbn [gathered] in Hs. apply (elem_of_list_to_set (C:=gset str)) in Hs. rewrite Ht in Hs. set_solver.
  - unfold sending. destruct (send _); split_and!; auto. by destruct m as [[]|].
  - split_and!; cbn; [done|set_solver|done].
  - unfold sending. destruct (send _); split_and!; auto; done.
  - unfold on_data. destruct (aggregator_ p); [|by split_and!; auto]. destruct (AlpacaNormalizer.on_message _ _ _) as [[n books] e].
    split_and!; cbn; auto; done.
Qed.

Lemma step_wanted s i : (forall symbol, threads s i = Called (Unsubscribing symbol) -> forall j, ~ gathered (threads s j) (FixedString.view symbol)) ->
  wanted_ok (provider s) (threads s) -> wanted_ok (provider (step s (Step i))) (threads (step s (Step i))).
Proof.
  intros Hu [H1 H2]. cbn [step]. destruct (threads s i) as [|[| |symbol|symbol|]|msg clk| | | | | | | | | |m|symbols m|symbols|sym'|sym'|text clk] eqn:Et.
  5: { cbn [advance provider threads]. split; cbn; [set_solver|]. intros j sym. apply (set_thread_all (fun q => gathered q sym -> _)); [done|].
       intros k _ Hg. apply elem_of_difference. split; [by eapply H2|]. intros ->%elem_of_singleton. by apply (Hu symbol eq_refl k). }
  all: pose proof (advance_gathered (provider s) (threads s i)) as Ha; pose proof (H2 i) as Hg; rewrite Et in Ha, Hg;
    specialize (Ha ltac:(done)); destruct (advance _ _) as [[p' evs] q']; destruct Ha as (A1 & A2 & A3); cbn [provider threads];
    (split; [intros sym [?|?]%A2; [set_solver|by apply A1, Hg]|]); intros j sym;
    apply (set_thread_all (fun q => gathered q sym -> _)); [intros [?|?]%A3; [done|by apply A1, Hg]|intros k _ ?; by eapply A1, H2].
Qed.

Lemma run_wanted config ms : undisturbed config ms -> wanted_ok (provider (run config ms)) (threads (run config ms)).
Proof.
  induction ms as [|m ms IH] using rev_ind; intros Hu; [by split|].
  assert (wanted_ok (provider (run config ms)) (threads (run config ms))) as Hw.
  { apply IH. intros pre i post symbol ->. apply (Hu pre i (post ++ [m])). by rewrite <-app_assoc. }
  unfold run. rewrite fold_left_app. cbn [fold_left]. fold (run config ms). destruct m as [i c|msg clk|i].
  - cbn [step]. destruct (idle _); [|done]. destruct Hw as [H1 H2]. split; [done|]. intros j sym.
    by apply (set_thread_all (fun q => gathered q sym -> _)); [|intros k _; apply H2].
  - cbn [step]. destruct (idle _); [|done]. destruct Hw as [H1 H2]. split; [done|]. intros j sym.
    by apply (set_thread_all (fun q => gathered q sym -> _)); [|intros k _; apply H2].
  - apply step_wanted; [|done]. intros symbol. by apply (Hu ms i []).
Qed.

(** *** The messages read *)

Definition message_of (q : pc) : list str :=
  match q with
  | Handling (Message_ text) _ | Collect (Some (text, _)) | SendSubs _ (Some (text, _)) | Data text _ => [text]
  | _ => []
  end.

Definition texts (ms : list move) : list str :=
  omap (fun m => match m with Deliver (Message_ text) _ => Some text | _ => None end) ms.

Lemma advance_message p q : let '(_, _, q') := advance p q in handed p q ++ message_of q' `sublist_of` message_of q.
Proof.
  destruct q as [|[| |symbol|symbol|]|[| | |text|] clk| | | | | | | | | |[[]|]|symbols [[]|]|symbols|sym'|sym'|text clk]; cbn [advance handed app];
    try (unfold sending; destruct (send _)); try done; try (by case_match).
  - destruct (classify _ _) as [p' []]; cbn; [done|by apply sublist_nil_l..|done].
  - destruct (to_subscribe walk p); cbn; [by apply sublist_nil_l|done].
  - by apply sublist_nil_l.
  - destruct (on_data p text clk) as [[p' evs] e]. destruct (aggregator_ p); cbn; [done|by apply sublist_nil_l].
Qed.

Lemma run_data config ms : let s := run config ms in
  (forall i, message_of (threads s (S i)) = []) /\ data s ++ message_of (threads s 0) `sublist_of` texts ms.
Proof.
  apply (fold_left_inv step (fun s seen => (forall i, message_of (threads s (S i)) = []) /\ data s ++ message_of (threads s 0) `sublist_of` texts seen)).
  { done. }
  intros s seen m _ [H1 H2]. assert (texts (seen ++ [m]) = texts seen ++ texts [m]) as -> by apply omap_app.
  assert (data s ++ message_of (threads s 0) `sublist_of` texts seen ++ texts [m]) as H3 by by apply sublist_inserts_r.
  destruct m as [i c|msg clk|i]; cbn [step].
  - destruct (idle _); [|done]. cbn [threads data]. split; [|by rewrite set_thread_ne]. intros j.
    destruct (decide (j = i)) as [->|]; [by rewrite set_thread_eq|rewrite set_thread_ne; [done|congruence]].
  - destruct (idle (threads s 0)) eqn:Ei; [|done]. cbn [threads data]. split; [intros j; by rewrite set_thread_ne|].
    rewrite set_thread_eq. assert (message_of (threads s 0) = []) as Em by (by destruct (threads s 0)).
    rewrite Em, app_nil_r in H2. apply sublist_app; [done|]. destruct msg; cbn; done || by apply sublist_nil_l.
  - pose proof (advance_message (provider s) (threads s i)) as Ha. destruct (advance _ _) as [[p' evs] q']. cbn [threads data].
    destruct i as [|i].
    + split; [intros j; by rewrite set_thread_ne|]. rewrite set_thread_eq, <-app_assoc. etrans; [|exact H3]. by apply sublist_app.
    + rewrite (H1 i) in Ha. apply sublist_nil_r, app_nil in Ha as [-> Hq]. rewrite app_nil_r, set_thread_ne by done. split; [|done].
      intros j. destruct (decide (j = i)) as [->|]; [by rewrite set_thread_eq|rewrite set_thread_ne; [done|congruence]].
Qed.

(** An array that starts with a quote is handed to the normalizer. *)
Definition starts_with_quote (text : str) : Prop := exists json first rest type,
  parse text = inr json /\ is_array json = true /\ elements json = first :: rest /\
  member first (lit "T") = Some type /\ get_string type = inr (lit "q").

Lemma quote_handed s text clk : threads s 0 = Done -> aggregator_ (provider s) = true -> starts_with_quote text ->
  data (fold_left step [Deliver (Message_ text) clk; Step 0; Step 0] s) = data s ++ [text].
Proof.
  intros Hi Ha (json & first & rest & type & H1 & H2 & H3 & H4 & H5).
  assert (forall p, classify p text = (p, IsData)) as Hc by (intros p; unfold classify; by rewrite H1, H2, H3, H4, H5).
  cbn [fold_left step]. rewrite Hi. cbn [idle step provider threads log data]. rewrite set_thread_eq. cbn [advance]. rewrite Hc.
  cbn [step provider threads log data handed]. rewrite set_thread_eq, app_nil_r. cbn [advance handed].
  destruct (on_data _ _ _) as [[p' evs] e]. cbn [data]. destruct (provider s). cbn in Ha. subst. by rewrite (app_nil_r (data s)).
Qed.

End threads.
End AlpacaThreads.

(** ** Properties *)

Section properties.
Context {J E : Type} `{!Json J E} `{!JsonLaws J E}.
Context (walk : gset str -> list str) (walk_perm : forall s, walk s ≡ₚ base.elements s).


(** The text of the message that ends the authentication. *)
Definition says_authenticated (text : str) : Prop := exists json first rest type msg,
  parse text = inr json /\ is_array json = true /\ elements json = first :: rest /\
  member first (lit "T") = Some type /\ get_string type = inr (lit "success") /\
  member first (lit "msg") = Some msg /\ get_string msg = inr (lit "authenticated").

(** After a reconnection nothing is subscribed again: the set of subscribed
    symbols outlives the connection, so the provider authenticates and then
    waits for quotes it never asks for. *)
Theorem reconnection_sends_no_subscription p text auth c1 c2 c3 :
  AlpacaProvider.subscribed_symbols_ p = AlpacaProvider.pending_symbols_ p ->
  says_authenticated text -> dump (assign (AlpacaProvider.auth_message p)) = inr auth ->
  let '(p', evs) := AlpacaProvider.run_from walk p
    [AlpacaProvider.Ws AlpacaProvider.Close_ c1; AlpacaProvider.Ws AlpacaProvider.Open_ c2;
     AlpacaProvider.Ws (AlpacaProvider.Message_ text) c3] in
  evs = [AlpacaProvider.WsSend auth] /\ AlpacaProvider.is_connected p' = true.
Proof.
  intros Hs (json & first & rest & type & msg & H1 & H2 & H3 & H4 & H5 & H6 & H7) Hd.
  assert (forall q, AlpacaProvider.config_ q = AlpacaProvider.config_ p ->
    AlpacaProvider.send (AlpacaProvider.auth_message q) = inr [AlpacaProvider.WsSend auth]) as Hauth.
  { intros q Hq. unfold AlpacaProvider.send, AlpacaProvider.auth_message. rewrite Hq.
    unfold AlpacaProvider.auth_message in Hd. by rewrite Hd. }
  assert (forall q, AlpacaProvider.subscribed_symbols_ q = AlpacaProvider.pending_symbols_ q ->
    AlpacaProvider.control walk q text = ({ q with AlpacaProvider.authenticated_ := true }, [], true)) as Hcontrol.
  { intros q Hq. unfold AlpacaProvider.control.
    assert (AlpacaProvider.classify q text = ({ q with AlpacaProvider.authenticated_ := true }, AlpacaProvider.IsAuthenticated)) as ->.
    { unfold AlpacaProvider.classify. rewrite H1, H2, H3, H4, H5. unfold contains. rewrite H6. cbn [default from_option id]. by rewrite H7. }
    unfold AlpacaProvider.send_subscriptions.
    pose proof (AlpacaProvider.to_subscribe_pending walk walk_perm { q with AlpacaProvider.authenticated_ := true }) as Ht.
    destruct (AlpacaProvider.to_subscribe walk _) as [|s l]; [done|].
    change (list_to_set (s :: l) = AlpacaProvider.pending_symbols_ q ∖ AlpacaProvider.subscribed_symbols_ q) in Ht.
    rewrite Hq in Ht. set_solver. }
  unfold AlpacaProvider.run_from. cbn [fold_left AlpacaProvider.do_op AlpacaProvider.on_ws_message].
  rewrite Hauth by done. cbn [AlpacaProvider.do_op AlpacaProvider.on_ws_message]. by rewrite Hcontrol.
Qed.

End properties.

(** ** Examples *)

Definition auth_texts : list (str * Doc.value) :=
  [(lit "auth", Doc.Array [Doc.Object [set "T" (Doc.String (lit "success")); set "msg" (Doc.String (lit "authenticated"))]]);
   (lit "quote", Doc.Array [Doc.Object
     [set "T" (Doc.String (lit "q")); set "S" (Doc.String (lit "AAPL")); set "bp" (Doc.Float (d_lit 15025 2));
      set "bs" (Doc.Int 2); set "ap" (Doc.Float (d_lit 1503 1)); set "as" (Doc.Int 3)]]);
   (lit "crossed", Doc.Array [Doc.Object
     [set "T" (Doc.String (lit "q")); set "S" (Doc.String (lit "AAPL")); set "bp" (Doc.Float (d_lit 1503 1));
      set "bs" (Doc.Int 2); set "ap" (Doc.Float (d_lit 15025 2)); set "as" (Doc.Int 3)]])].

#[local] Instance auth_json : Json Doc.value Doc.error := Doc.json auth_texts.
#[local] Instance auth_json_laws : JsonLaws Doc.value Doc.error := Doc.json_laws auth_texts.

Definition sample_provider : AlpacaProvider.Config := AlpacaProvider.mkConfig [] [] (lit "wss") 100 5 10.

Definition no_clock : nat -> Timestamp := fun _ => 0.

Definition seven (i : nat) : list AlpacaThreads.move := replicate 7 (AlpacaThreads.Step i).

Definition sample_session : list AlpacaThreads.move :=
  [AlpacaThreads.Call 0 AlpacaThreads.SettingAggregator] ++ seven 1 ++
  [AlpacaThreads.Call 0 AlpacaThreads.Connecting; AlpacaThreads.Step 1; AlpacaThreads.Step 1] ++
  [AlpacaThreads.Deliver AlpacaProvider.Open_ no_clock] ++ seven 0 ++
  [AlpacaThreads.Call 1 (AlpacaThreads.Subscribing (Symbol_of "AAPL")); AlpacaThreads.Step 2;
   AlpacaThreads.Deliver (AlpacaProvider.Message_ (lit "auth")) no_clock; AlpacaThreads.Step 0] ++ seven 2 ++ seven 0 ++ seven 1 ++
  [AlpacaThreads.Deliver (AlpacaProvider.Message_ (lit "quote")) no_clock] ++ seven 0.


(** A symbol given up between the sending of its subscription and the record
    of it stays among the subscribed, and is not subscribed to when it is
    wanted again. *)
Definition disturbed_session : list AlpacaThreads.move :=
  [AlpacaThreads.Deliver AlpacaProvider.Open_ no_clock] ++ seven 0 ++
  [AlpacaThreads.Deliver (AlpacaProvider.Message_ (lit "auth")) no_clock] ++ seven 0 ++
  [AlpacaThreads.Call 0 (AlpacaThreads.Subscribing (Symbol_of "AAPL"))] ++ replicate 4 (AlpacaThreads.Step 1) ++
  [AlpacaThreads.Call 1 (AlpacaThreads.Unsubscribing (Symbol_of "AAPL"))] ++ seven 2 ++ seven 1.

Example stale_subscription :
  let p := AlpacaThreads.provider (AlpacaThreads.run base.elements sample_provider disturbed_session) in
  AlpacaProvider.pending_symbols_ p = ∅ /\ AlpacaProvider.subscribed_symbols_ p = {[lit "AAPL"]} /\
  AlpacaThreads.log (AlpacaThreads.run base.elements sample_provider
    (disturbed_session ++ [AlpacaThreads.Call 0 (AlpacaThreads.Subscribing (Symbol_of "AAPL"))] ++ seven 1))
  = AlpacaThreads.log (AlpacaThreads.run base.elements sample_provider disturbed_session).
Proof. vm_compute. repeat split; reflexivity. Qed.

(** Nothing looks at the two prices together: a crossed quote is published. *)
Example crossed_quote_published :
  let '(_, books, _) := AlpacaNormalizer.on_message (AlpacaNormalizer.create 100) (lit "crossed") no_clock in
  (fun b => (OrderBook.best_bid b, OrderBook.best_ask b)) <$> books = [(15030000000, 15025000000)].
Proof. vm_compute. reflexivity. Qed.
