(* ===== verification/SorController.v ===== *)
(** * The controller (sor/ui/sor_controller.h, sor_controller.cpp, order_params.h)

    The object behind the user interface: it builds the gateway with its
    simulated exchanges and feeds (or the live provider), runs the threads
    that drive them, and collects the events the interface displays.  It is a
    closed system: an order of the user goes through the gateway to an
    exchange, the exchange's reports come back to the gateway, and the fills
    to the display.

    An operation is a call of the interface or a turn of one of the threads:
    the two of the gateway, the feed thread, the matching thread and the
    thread of the web socket.  Turns are taken in any order.  The calls a turn
    makes on its neighbours are made at its end, in their order; what they
    deliver goes to queues that the turn does not read.  [calls] is a record
    of the calls between the components; nothing reads it. *)

From S2P Require Import Prelude Double CppString Types StateMachine RateLimiter Risk Book Aggregator.
From S2P Require Import FillManager ExecutionHandler Strategy Sweep SmartIOC Vwap Engine Gateway GatewayFills.
From S2P Require Import SimulatedExchange Feed Config Json Alpaca.

Open Scope cpp_scope.

Record OrderParams := mkParams {
  p_symbol : str; p_side : Side; p_quantity : Quantity; p_type : OrderType; p_price : double;
  p_tif : TimeInForce; p_strategy : RoutingStrategyTag
}.

Definition default_OrderParams : OrderParams :=
  mkParams (lit "AAPL") Buy 100 OT_Limit (d_of_Z 0) TIF_GTC RS_BestPrice.

Record FillEvent := mkFillEvent {
  fe_order_id : OrderId; fe_symbol : FixedString.t; fe_side : Side; fe_price : Price;
  fe_quantity : Quantity; fe_cum_quantity : Quantity; fe_leaves_quantity : Quantity; fe_venue_id : VenueId
}.

Record CompletionEvent := mkCompletionEvent {
  ce_order_id : OrderId; ce_symbol : FixedString.t; ce_filled_quantity : Quantity; ce_avg_fill_price : Price
}.

Record LogMessage := mkLogMessage { lm_text : str; lm_level : Z }.

Module SorController.

(** The calls between the components, with what they answer. *)
Inductive call :=
| GatewayCall (o : Gateway.op) (evs : list Gateway.effect)
| ExchangeCall (i : nat) (o : SimulatedExchange.op) (rs : list ExecutionReport)
| FeedCall (i : nat) (o : SimulatedFeedHandler.op) (books : list OrderBook.t)
| ProviderCall (o : AlpacaProvider.op) (evs : list AlpacaProvider.effect)
| FillsDrained (evs : list FillEvent).

Record t := mk {
  gateway_ : option Gateway.t;
  exchange_ptrs_ : list SimulatedExchange.t;
  feeds_ : list SimulatedFeedHandler.t;
  live_provider_ : option AlpacaProvider.t;
  threads_running_ : bool;
  fill_events_ : list FillEvent;
  completion_events_ : list CompletionEvent;
  log_messages_ : list LogMessage;
  tracked_orders_ : list OrderId;
  watched_symbols_ : list FixedString.t;
  calls : list call
}.

Definition create : t := mk None [] [] None false [] [] [] [] [] [].

Definition record_call (k : call) (c : t) : t := { c with calls ::= fun ks => ks ++ [k] }.

(** ** The neighbours of the gateway *)

(** The observers. *)
Definition fill_event (f : Order * ExecutionReport) : FillEvent :=
  let '(order, report) := f in
  mkFillEvent (o_id order) (o_symbol order) (o_side order) (r_last_price report) (r_last_quantity report)
    (r_cum_quantity report) (r_leaves_quantity report) (r_venue_id report).

Definition completion_event (order : Order) : CompletionEvent :=
  mkCompletionEvent (o_id order) (o_symbol order) (o_filled_quantity order) (o_avg_fill_price order).

Definition exchange_id (x : SimulatedExchange.t) : VenueId :=
  SimulatedExchange.venue_id (SimulatedExchange.config_ x).

(** The adapter of a venue. *)
Definition exchange_of (v : VenueId) (xs : list SimulatedExchange.t) : option (nat * SimulatedExchange.t) :=
  list_find (fun x => exchange_id x = v) xs.

Section controller.
Context {SS : StdSort} {UM : UnorderedMap} {J E : Type} `{!Json J E}.
Context (walk : gset str -> list str).

(** A call of the gateway, and what it emits. *)
Definition gateway_step (o : Gateway.op) (g : Gateway.t) (c : t) : t * list Gateway.effect :=
  let '(g, evs) := Gateway.do_op g o in
  (record_call (GatewayCall o evs) { c with gateway_ := Some g }, evs).

(** The execution callback of an adapter. *)
Definition report_in (c : t) (r : ExecutionReport) : t :=
  match gateway_ c with
  | Some g => (gateway_step (Gateway.ReportIn r) g c).1
  | None => c
  end.

(** A call of an exchange: its reports go to the gateway. *)
Definition exchange_step (i : nat) (x : SimulatedExchange.t) (o : SimulatedExchange.op) (c : t) : t :=
  let '(x, rs) := SimulatedExchange.do_op x o in
  fold_left report_in rs (record_call (ExchangeCall i o rs) { c with exchange_ptrs_ ::= <[i := x]> }).

Definition on_venue (v : VenueId) (o : SimulatedExchange.op) (c : t) : t :=
  match exchange_of v (exchange_ptrs_ c) with
  | Some (i, x) => exchange_step i x o c
  | None => c
  end.

(** What the gateway emits, delivered; [clk] is the exchange's clock. *)
Definition deliver (clk : nat -> Timestamp) (c : t) (e : Gateway.effect) : t :=
  match e with
  | Gateway.ChildTracked _ _ => c
  | Gateway.SendOrder v child => on_venue v (SimulatedExchange.Send child clk) c
  | Gateway.SendCancel v request => on_venue v (SimulatedExchange.Cancel request) c
  | Gateway.FillObserved order report => { c with fill_events_ ::= fun q => q ++ [fill_event (order, report)] }
  | Gateway.CompletionObserved order => { c with completion_events_ ::= fun q => q ++ [completion_event order] }
  | Gateway.Connect v => on_venue v SimulatedExchange.Connect c
  | Gateway.Disconnect v => on_venue v SimulatedExchange.Disconnect c
  end.

(** A step for each element, with the readings of its position. *)
Fixpoint each {K A} (step : K -> t -> A -> t) (clk : nat -> K) (l : list A) (c : t) : t :=
  match l with
  | [] => c
  | a :: l => each step (fun i => clk (S i)) l (step (clk 0%nat) c a)
  end.

Definition gateway_do (o : Gateway.op) (clks : nat -> nat -> Timestamp) (c : t) : t :=
  match gateway_ c with
  | Some g => let '(c, evs) := gateway_step o g c in each deliver clks evs c
  | None => c
  end.

(** A call of the gateway that emits nothing. *)
Definition gateway_set (o : Gateway.op) (c : t) : t :=
  match gateway_ c with Some g => (gateway_step o g c).1 | None => c end.

(** [md_aggregator.on_book_update(...)] *)
Definition book_update (now : Timestamp) (c : t) (b : OrderBook.t) : t :=
  gateway_set (Gateway.OnMarketData (fun m =>
    (MarketDataAggregator.on_book_update m (OrderBook.venue_id b) (OrderBook.symbol b) b now).1)) c.

(** A call of a feed: its books, which carry its venue and symbol, go to the
    aggregator. *)
Definition feed_step (o : SimulatedFeedHandler.op) (clk : nat -> Timestamp) (i : nat) (c : t) : t :=
  match feeds_ c !! i with
  | Some f =>
      let '(f, books) := SimulatedFeedHandler.do_op f o in
      each book_update clk books (record_call (FeedCall i o books) { c with feeds_ ::= <[i := f]> })
  | None => c
  end.

(** What the provider emits: its books go to the aggregator, the rest to the
    web socket. *)
Definition provider_effect (now : Timestamp) (c : t) (e : AlpacaProvider.effect) : t :=
  match e with AlpacaProvider.BookUpdate b => book_update now c b | _ => c end.

Definition provider_step (o : AlpacaProvider.op) (clk : nat -> Timestamp) (c : t) : t * option E :=
  match live_provider_ c with
  | Some p =>
      let '(p, evs, e) := AlpacaProvider.do_op walk p o in
      (each provider_effect clk evs (record_call (ProviderCall o evs) { c with live_provider_ := Some p }), e)
  | None => (c, None)
  end.

(** ** Construction *)

Definition simulated_venue (id : Z) (name : string) (fee : double) (rate : Z) : VenueConfig :=
  { default_venue with Config.venue_id := id; v_name := lit name; v_type := lit "simulated";
                       Config.fee_rate := fee; v_enabled := true; v_max_orders_per_second := rate }.

(** The configuration used when none is loaded. *)
Definition default_config : SystemConfig :=
  { default_system with
      log_level := lit "info"; enable_metrics := false;
      venues := [simulated_venue 1 "NYSE" (d_lit 1 3) 500; simulated_venue 2 "NASDAQ" (d_lit 8 4) 800;
                 simulated_venue 3 "BATS" (d_lit 12 4) 600];
      risk ::= fun r => { r with Config.max_order_quantity := 100000; Config.max_orders_per_second := 1000 } }.

Definition exchange_config (vc : VenueConfig) : SimulatedExchange.Config :=
  SimulatedExchange.mkConfig (Config.venue_id vc) 50 (d_lit 95 2) (d_lit 3 1) (d_lit 1 2).

Definition add_exchange (c : t) (vc : VenueConfig) : t :=
  if negb (v_enabled vc) then c
  else gateway_set (Gateway.AddVenue (Config.venue_id vc))
         { c with exchange_ptrs_ ::= fun xs => xs ++ [SimulatedExchange.create (exchange_config vc)] }.

Definition risk_limits (cfg : SystemConfig) : RiskLimits :=
  { default_RiskLimits with
      Risk.max_order_quantity := Config.max_order_quantity (Config.risk cfg);
      Risk.max_order_notional := Config.max_order_notional (Config.risk cfg);
      Risk.max_orders_per_second := Config.max_orders_per_second (Config.risk cfg);
      enabled := true }.

Definition strategies : list RoutingEngine.SomeStrategy :=
  [RoutingEngine.mkSome unit best_price_strategy tt;
   RoutingEngine.mkSome _ liquidity_sweep_strategy LiquiditySweepStrategy.create;
   RoutingEngine.mkSome _ smart_ioc_strategy SmartIOCStrategy.create;
   RoutingEngine.mkSome _ vwap_strategy (VWAPStrategy.create VWAPStrategy.default_Config)].

Definition venue_score (x : SimulatedExchange.t) : VenueScore :=
  mkScore (exchange_id x) (d_of_Z (SimulatedExchange.avg_latency x)) (d_lit 95 2) (d_lit 1 3) 0 true.

Definition set_up_routing (c : t) : t :=
  let c := fold_left (fun c s =>
    gateway_set (Gateway.OnRouting (fun e => RoutingEngine.register_strategy e (Some s))) c) strategies c in
  fold_left (fun c x =>
    gateway_set (Gateway.OnRouting (fun e => RoutingEngine.update_venue_score e (exchange_id x) (venue_score x))) c)
    (exchange_ptrs_ c) c.

Definition AAPL : FixedString.t := Symbol_of "AAPL".

Definition feed_config (x : SimulatedExchange.t) : SimulatedFeedHandler.Config :=
  SimulatedFeedHandler.mkConfig AAPL (exchange_id x) (to_price (d_of_Z 150)) (to_price (d_lit 1 2)) 10 100
    1000 (d_lit 1 4) 16045690981402826360.

Definition add_feed (c : t) (x : SimulatedExchange.t) : t :=
  let i := length (feeds_ c) in
  let c := { c with feeds_ ::= fun fs => fs ++ [SimulatedFeedHandler.create (feed_config x)] } in
  feed_step SimulatedFeedHandler.Start (fun _ => 0) i
    (feed_step SimulatedFeedHandler.SetCallback (fun _ => 0) i c).

(** A tick: the clock reading of the feed, then those of the aggregator. *)
Definition tick (clk : nat -> Timestamp) (c : t) (i : nat) : t :=
  feed_step (SimulatedFeedHandler.Tick (clk 0%nat)) (fun k => clk (S k)) i c.

(** Ten ticks of each feed. *)
Definition warm_up (clks : nat -> nat -> Timestamp) (c : t) : t :=
  each tick clks (seq 0 (length (feeds_ c)) ≫= fun i => replicate 10 i) c.

Definition set_up_feeds (clks : nat -> nat -> Timestamp) (c : t) : t :=
  warm_up clks (fold_left add_feed (exchange_ptrs_ c) c).

(** [create_provider]; [has_live_feed] is the build option. *)
Definition create_provider (has_live_feed : bool) (m : MarketDataConfig) : option AlpacaProvider.t :=
  if bool_decide (provider m = lit "simulated") then None
  else if has_live_feed && bool_decide (provider m = lit "alpaca")
  then Some (AlpacaProvider.create (AlpacaProvider.mkConfig (alpaca_api_key m) (alpaca_api_secret m)
               (alpaca_ws_url m) 100 (reconnect_delay_sec m) (max_reconnect_attempts m)))
  else None.

(** A message of the web socket; its exceptions stay in its thread. *)
Definition ws_turn (clk : nat -> Timestamp) (c : t) (msg : AlpacaProvider.ws_message) : t :=
  (provider_step (AlpacaProvider.Ws msg (fun i => clk (2 * i)%nat)) (fun i => clk (2 * i + 1)%nat) c).1.

(** Subscriptions, up to the first that throws. *)
Fixpoint subscribe_all (symbols : list str) (c : t) : t * option E :=
  match symbols with
  | [] => (c, None)
  | s :: symbols =>
      match provider_step (AlpacaProvider.Subscribe (FixedString.of_view 16 s)) (fun _ => 0) c with
      | (c, Some e) => (c, Some e)
      | (c, None) => subscribe_all symbols c
      end
  end.

Definition authenticated (c : t) : bool :=
  match live_provider_ c with Some p => AlpacaProvider.authenticated_ p | None => false end.

(** [msgs] arrive while [connect] waits. *)
Definition set_up_live (has_live_feed : bool) (m : MarketDataConfig)
    (msgs : list AlpacaProvider.ws_message) (clks : nat -> nat -> Timestamp) (c : t) : t * option E :=
  match create_provider has_live_feed m with
  | None => (c, None)
  | Some p =>
      let c := { c with live_provider_ := Some p } in
      let c := (provider_step AlpacaProvider.SetAggregator (fun _ => 0) c).1 in
      let c := gateway_set (Gateway.OnMarketData (fun a => MarketDataAggregator.register_venue a 100)) c in
      let c := (provider_step AlpacaProvider.Connect (fun _ => 0) c).1 in
      let c := each ws_turn clks msgs c in
      let connected := authenticated c in
      let c := (provider_step AlpacaProvider.ConnectFinish (fun _ => 0) c).1 in
      if connected then subscribe_all (symbols m) c else (c, None)
  end.

(** What the environment gives to [initialize]: the configuration of the
    manager after a path was given and loaded, the build option, the first
    readings of the gateway's clock, the messages of the socket, and the
    clocks of the market data and of the exchanges. *)
Record env := mk_env {
  loaded : option SystemConfig;
  has_live_feed : bool;
  created_at : Timestamp;
  limits_at : Timestamp;
  msgs : list AlpacaProvider.ws_message;
  data_clock : nat -> nat -> Timestamp;
  venue_clock : nat -> nat -> Timestamp
}.

Definition setup_backend (e : env) (c : t) : t * option E :=
  let cfg := default default_config (loaded e) in
  let invalid := match loaded e with Some cfg => negb (bool_decide (Validation.validate_config cfg = [])) | None => false end in
  if invalid then (c, None)
  else
    let c := { c with gateway_ := Some (Gateway.create (created_at e)) } in
    let c := fold_left add_exchange (venues cfg) c in
    if bool_decide (exchange_ptrs_ c = []) then ({ c with gateway_ := None }, None)
    else
      let c := gateway_set (Gateway.SetGlobalLimits (risk_limits cfg) (limits_at e)) c in
      let c := set_up_routing c in
      let '(c, ex) :=
        if negb (bool_decide (provider (market_data cfg) = lit "simulated"))
        then set_up_live (has_live_feed e) (market_data cfg) (msgs e) (data_clock e) c
        else (set_up_feeds (data_clock e) c, None) in
      match ex with
      | Some ex => (c, Some ex)
      | None => ({ c with watched_symbols_ ::= fun ss => ss ++ [AAPL] }, None)
      end.

Definition wire_observers (c : t) : t :=
  gateway_set Gateway.SetCompletionObserver (gateway_set Gateway.SetFillObserver c).

(** Whether the adapter of a venue connects. *)
Definition connects (c : t) (v : VenueId) : bool :=
  match exchange_of v (exchange_ptrs_ c) with
  | Some (_, x) => (SimulatedExchange.connect x).1
  | None => false
  end.

(** The result, or an exception of the subscriptions. *)
Definition initialize (e : env) (c : t) : t * (E + bool) :=
  match setup_backend e c with
  | (c, Some ex) => (c, inl ex)
  | (c, None) =>
      match gateway_ c with
      | None => (c, inr false)
      | Some _ =>
          let c := wire_observers c in
          let ok := match gateway_ c with Some g => (Gateway.initialize g (connects c)).1.1 | None => false end in
          (gateway_do (Gateway.Initialize (connects c)) (venue_clock e) c, inr ok)
      end
  end.

(** ** Lifecycle *)

Definition running (c : t) : bool :=
  match gateway_ c with Some g => Gateway.running_ g | None => false end.

Definition is_running (c : t) : bool := running c.

(** [None]: the threads run already, and assigning to a joinable thread
    terminates the process. *)
Definition start (c : t) : option t :=
  match gateway_ c with
  | None => Some c
  | Some _ =>
      if threads_running_ c then None
      else Some (gateway_set Gateway.Start { c with threads_running_ := true })
  end.

(** The threads are joined: no turn of theirs comes later. *)
Definition stop (clks : nat -> nat -> Timestamp) (c : t) : t :=
  match gateway_ c with
  | None => c
  | Some _ =>
      let c := { c with threads_running_ := false } in
      let c := (provider_step AlpacaProvider.Disconnect (fun _ => 0) c).1 in
      let c := fold_left (fun c i => feed_step SimulatedFeedHandler.Stop (fun _ => 0) i c)
                 (seq 0 (length (feeds_ c))) c in
      gateway_do Gateway.Stop clks c
  end.

(** ** Orders *)

Definition order_of (params : OrderParams) (id : OrderId) : Order :=
  { default_Order with
      o_id := id; o_symbol := FixedString.of_view 16 (p_symbol params); o_side := p_side params;
      o_quantity := p_quantity params; o_remaining_quantity := p_quantity params;
      o_type := p_type params; o_price := to_price (p_price params); o_tif := p_tif params;
      o_strategy := p_strategy params; o_state := New }.

Definition submit_order (params : OrderParams) (now : Timestamp) (c : t) : OrderId * t :=
  match gateway_ c with
  | None => (INVALID_ORDER_ID, c)
  | Some g =>
      if negb (Gateway.running_ g) then (INVALID_ORDER_ID, c)
      else
        let '(id, g) := Gateway.generate_order_id g in
        let order := order_of params id in
        let c := gateway_set Gateway.AllocateId c in
        let c := { c with tracked_orders_ ::= fun ids => ids ++ [id] } in
        let ok := (Gateway.submit_order g order now).1 in
        (if ok then id else INVALID_ORDER_ID, gateway_set (Gateway.Submit_ order now) c)
  end.

Definition cancel_order (id : OrderId) (now : Timestamp) (c : t) : bool * t :=
  match gateway_ c with
  | None => (false, c)
  | Some g =>
      let request := mkCancel id INVALID_ORDER_ID (FixedString.empty_string 16) Buy 0 in
      ((Gateway.cancel_order g request now).1, gateway_set (Gateway.Cancel_ request now) c)
  end.

(** ** Queries *)

(** A query of the gateway, or the value there is without one. *)
Definition query {A} (f : Gateway.t -> A) (none : A) (c : t) : A :=
  match gateway_ c with Some g => f g | None => none end.

Definition get_order_snapshot (c : t) (id : OrderId) : option Order :=
  query (fun g => Gateway.get_order g id) None c.
Definition get_children (c : t) (parent_id : OrderId) : list OrderId :=
  query (fun g => ExecutionHandler.get_children (Gateway.exec_handler_ g) parent_id) [] c.
Definition get_nbbo (c : t) (symbol : FixedString.t) : NBBO.t :=
  query (fun g => MarketDataAggregator.get_nbbo (Gateway.md_aggregator_ g) symbol) NBBO.default_NBBO c.
Definition get_aggregated_book (c : t) (symbol : FixedString.t) : AggregatedBook :=
  query (fun g => MarketDataAggregator.get_aggregated_book (Gateway.md_aggregator_ g) symbol)
    (mkAggBook (FixedString.empty_string 16) NBBO.default_NBBO [] [] 0 0) c.
Definition is_market_data_stale (c : t) (symbol : FixedString.t) (now : Timestamp) : bool :=
  query (fun g => MarketDataAggregator.is_stale (Gateway.md_aggregator_ g) symbol 5000000 now) true c.
Definition get_gateway_stats (c : t) : Gateway.Stats :=
  query Gateway.stats_ (Gateway.mkStats 0 0 0 0) c.
Definition get_execution_stats (c : t) : ExecutionHandler.Stats :=
  query (fun g => ExecutionHandler.get_stats (Gateway.exec_handler_ g)) (ExecutionHandler.mkStats 0 0 0 0 0) c.
Definition get_position (c : t) (symbol : FixedString.t) : PositionInfo :=
  query (fun g => RiskManager.get_position (Gateway.risk_manager_ g) symbol) default_PositionInfo c.
Definition is_kill_switch_active (c : t) : bool :=
  query (fun g => RiskManager.is_kill_switch_active (Gateway.risk_manager_ g)) false c.

Definition toggle_kill_switch (c : t) : t :=
  if is_kill_switch_active c then gateway_set Gateway.KillSwitchOff c
  else gateway_set Gateway.KillSwitchOn c.

(** ** Events and symbols *)

Definition drain_fill_events (c : t) : list FillEvent * t :=
  (fill_events_ c, record_call (FillsDrained (fill_events_ c)) { c with fill_events_ := [] }).
Definition drain_completion_events (c : t) : list CompletionEvent * t :=
  (completion_events_ c, { c with completion_events_ := [] }).
Definition drain_log_messages (c : t) : list LogMessage * t :=
  (log_messages_ c, { c with log_messages_ := [] }).

(** [sink_it_], of a formatted message. *)
Definition sink (m : LogMessage) (buffer : list LogMessage) : list LogMessage :=
  let buffer := buffer ++ [m] in
  if (2000 <? length buffer)%nat then drop 1 buffer else buffer.

Definition add_watched_symbol (symbol : FixedString.t) (c : t) : t :=
  if existsb (fun s => FixedString.eqb s symbol) (watched_symbols_ c) then c
  else { c with watched_symbols_ ::= fun ss => ss ++ [symbol] }.

Definition get_tracked_order_ids (c : t) : list OrderId := tracked_orders_ c.

(** ** The matching thread *)

(** The quotes of the exchanges, from the best prices. *)
Definition set_market_prices (c : t) : t :=
  let nbbo := get_nbbo c AAPL in
  if NBBO.valid nbbo
  then fold_left (fun c i =>
    match exchange_ptrs_ c !! i with
    | Some x => exchange_step i x (SimulatedExchange.SetMarket (NBBO.best_bid nbbo) (NBBO.best_ask nbbo)) c
    | None => c
    end) (seq 0 (length (exchange_ptrs_ c))) c
  else c.

Definition process_matching (i : nat) (rnd : nat -> nat -> double) (clk : nat -> nat -> Timestamp) (c : t) : t :=
  match exchange_ptrs_ c !! i with
  | Some x => exchange_step i x (SimulatedExchange.Match rnd clk) c
  | None => c
  end.

(** ** Operations *)

Inductive op :=
| Start | Stop (clks : nat -> nat -> Timestamp)
| SubmitOrder (params : OrderParams) (now : Timestamp)
| CancelOrder (id : OrderId) (now : Timestamp)
| ToggleKillSwitch
| DrainFills | DrainCompletions | DrainLogs
| AddWatched (symbol : FixedString.t)
| Log (m : LogMessage)
| OrderTurn (clk : nat -> Timestamp) (clks : nat -> nat -> Timestamp)
| CancelTurn (clks : nat -> nat -> Timestamp)
| ReportTurn (clk : nat -> Timestamp) (clks : nat -> nat -> Timestamp)
| FeedTurn (i : nat) (clk : nat -> Timestamp)
| QuoteTurn
| MatchTurn (i : nat) (rnd : nat -> nat -> double) (clk : nat -> nat -> Timestamp)
| SocketTurn (msg : AlpacaProvider.ws_message) (clk : nat -> Timestamp).

(** A turn of a thread, while it runs. *)
Definition turn (alive : bool) (f : t -> t) (c : t) : t := if alive then f c else c.

(** [None]: the process is terminated. *)
Definition do_op (o : op) (c : t) : option t :=
  match o with
  | Start => start c
  | Stop clks => Some (stop clks c)
  | SubmitOrder params now => Some (submit_order params now c).2
  | CancelOrder id now => Some (cancel_order id now c).2
  | ToggleKillSwitch => Some (toggle_kill_switch c)
  | DrainFills => Some (drain_fill_events c).2
  | DrainCompletions => Some (drain_completion_events c).2
  | DrainLogs => Some (drain_log_messages c).2
  | AddWatched symbol => Some (add_watched_symbol symbol c)
  | Log m => Some { c with log_messages_ ::= sink m }
  | OrderTurn clk clks => Some (turn (running c) (gateway_do (Gateway.PumpOrder clk) clks) c)
  | CancelTurn clks => Some (turn (running c) (gateway_do Gateway.PumpCancel clks) c)
  | ReportTurn clk clks => Some (turn (running c) (gateway_do (Gateway.PumpReport clk) clks) c)
  | FeedTurn i clk => Some (turn (threads_running_ c) (fun c => tick clk c i) c)
  | QuoteTurn => Some (turn (threads_running_ c) set_market_prices c)
  | MatchTurn i rnd clk => Some (turn (threads_running_ c) (process_matching i rnd clk) c)
  | SocketTurn msg clk => Some (ws_turn clk c msg)
  end.

Fixpoint run (ops : list op) (c : t) : option t :=
  match ops with
  | [] => Some c
  | o :: ops => match do_op o c with Some c => run ops c | None => None end
  end.

(** One pass of the loops of the two threads. *)
Definition feed_pass (clks : nat -> nat -> Timestamp) (c : t) : list op :=
  (fun i => FeedTurn i (clks i)) <$> seq 0 (length (feeds_ c)).
Definition matching_pass (rnds : nat -> nat -> nat -> double) (clks : nat -> nat -> nat -> Timestamp) (c : t) : list op :=
  QuoteTurn :: ((fun i => MatchTurn i (rnds i) (clks i)) <$> seq 0 (length (exchange_ptrs_ c))).

(** ** The record of the calls *)

Definition gateway_ops (ks : list call) : list Gateway.op :=
  omap (fun k => match k with GatewayCall o _ => Some o | _ => None end) ks.
Definition gateway_effects (ks : list call) : list Gateway.effect :=
  k ← ks; match k with GatewayCall _ evs => evs | _ => [] end.
Definition exchange_ops (i : nat) (ks : list call) : list SimulatedExchange.op :=
  omap (fun k => match k with ExchangeCall j o _ => if decide (j = i) then Some o else None | _ => None end) ks.
Definition exchange_reports (i : nat) (ks : list call) : list ExecutionReport :=
  k ← ks; match k with ExchangeCall j _ rs => if decide (j = i) then rs else [] | _ => [] end.
Definition all_reports (ks : list call) : list ExecutionReport :=
  k ← ks; match k with ExchangeCall _ _ rs => rs | _ => [] end.
Definition drained (ks : list call) : list FillEvent :=
  k ← ks; match k with FillsDrained evs => evs | _ => [] end.

(** The fills the interface was given or will be at the next frame. *)
Definition shown (c : t) : list FillEvent := drained (calls c) ++ fill_events_ c.

Definition ids (c : t) : list VenueId := exchange_id <$> exchange_ptrs_ c.

(** The position of a venue's exchange. *)
Definition place (v : VenueId) (vs : list VenueId) : option nat := fst <$> list_find (fun w => w = v) vs.

(** The orders sent to the exchange at a position. *)
Definition sends_to (vs : list VenueId) (i : nat) (evs : list Gateway.effect) : list Order :=
  snd <$> filter (fun vo => place vo.1 vs = Some i) (sends evs).

Lemma gateway_ops_app a b : gateway_ops (a ++ b) = gateway_ops a ++ gateway_ops b.
Proof. apply omap_app. Qed.
Lemma exchange_ops_app i a b : exchange_ops i (a ++ b) = exchange_ops i a ++ exchange_ops i b.
Proof. apply omap_app. Qed.
Lemma gateway_effects_app a b : gateway_effects (a ++ b) = gateway_effects a ++ gateway_effects b.
Proof. apply bind_app. Qed.
Lemma exchange_reports_app i a b : exchange_reports i (a ++ b) = exchange_reports i a ++ exchange_reports i b.
Proof. apply bind_app. Qed.
Lemma all_reports_app a b : all_reports (a ++ b) = all_reports a ++ all_reports b.
Proof. apply bind_app. Qed.
Lemma drained_app a b : drained (a ++ b) = drained a ++ drained b.
Proof. apply bind_app. Qed.
Lemma sends_to_app vs i a b : sends_to vs i (a ++ b) = sends_to vs i a ++ sends_to vs i b.
Proof. unfold sends_to. by rewrite sends_app, filter_app, fmap_app. Qed.

Lemma exchange_of_place v xs :
  place v (exchange_id <$> xs) = fst <$> exchange_of v xs.
Proof.
  unfold place, exchange_of. induction xs as [|x xs IH]; cbn; [done|].
  destruct (decide (exchange_id x = v)); [done|]. rewrite <- !option_fmap_compose in *.
  destruct (list_find (fun w => w = v) _) as [[i w]|], (list_find _ xs) as [[j y]|]; cbn in *; congruence.
Qed.

(** ** The gateway and the exchanges are histories of their operations

    [rest] are the effects of the gateway still to be delivered, [pend] the
    reports of an exchange still to be handed in. *)

Record gateway_inv (c : t) (g : Gateway.t) : Prop := {
  gi_history : exists now, Gateway.history now (gateway_ops (calls c)) = (g, gateway_effects (calls c));
  gi_faithful : faithful (gateway_ops (calls c)) g (gateway_effects (calls c));
  gi_engine : RoutingEngine.engine_ok (Gateway.routing_engine_ g);
  gi_sends : sound_sends (Gateway.venues_ g) (gateway_effects (calls c));
  gi_venues : forall v, v ∈ Gateway.venues_ g -> v ∈ ids c
}.

(** The calls the controller makes on the gateway: it registers strategies
    that meet their law and adapters it has, and it installs the observers
    first. *)
Definition allowed (o : Gateway.op) (c : t) (g : Gateway.t) : Prop :=
  keeps_engine o /\ (forall cn, o = Gateway.Initialize cn -> Gateway.fill_observer_ g = true) /\
  (forall v, o = Gateway.AddVenue v -> v ∈ ids c).

Record inv (rest : list Gateway.effect) (pend : list ExecutionReport) (c : t) : Prop := {
  inv_gateway : match gateway_ c with
                | Some g => gateway_inv c g
                | None => exchange_ptrs_ c = [] /\ gateway_ops (calls c) = [] /\ gateway_effects (calls c) = []
                end;
  inv_exchange i x : exchange_ptrs_ c !! i = Some x ->
    SimulatedExchange.history (SimulatedExchange.config_ x) (exchange_ops i (calls c)) =
      (x, exchange_reports i (calls c)) /\
    SimulatedExchange.sent (exchange_ops i (calls c)) ++ sends_to (ids c) i rest =
      sends_to (ids c) i (gateway_effects (calls c));
  inv_none i : (length (exchange_ptrs_ c) <= i)%nat ->
    exchange_ops i (calls c) = [] /\ exchange_reports i (calls c) = [];
  inv_reports : reported (gateway_ops (calls c)) ++ pend = all_reports (calls c);
  inv_fills : shown c ++ (fill_event <$> observed rest) = fill_event <$> observed (gateway_effects (calls c))
}.

Lemma gateway_history_snoc now ops g evs o :
  Gateway.history now ops = (g, evs) ->
  Gateway.history now (ops ++ [o]) = ((Gateway.do_op g o).1, evs ++ (Gateway.do_op g o).2).
Proof.
  unfold Gateway.history, Gateway.run_from. rewrite fold_left_app. intros ->. cbn.
  by destruct (Gateway.do_op g o).
Qed.

Lemma gateway_inv_step c g o c' :
  gateway_inv c g -> allowed o c g ->
  calls c' = calls c ++ [GatewayCall o (Gateway.do_op g o).2] -> ids c' = ids c ->
  gateway_inv c' (Gateway.do_op g o).1.
Proof.
  intros [[now H1] H2 H3 H4 H5] (Hk & Hi & Hv) Ec Eids.
  assert (gateway_ops (calls c') = gateway_ops (calls c) ++ [o] /\
    gateway_effects (calls c') = gateway_effects (calls c) ++ (Gateway.do_op g o).2) as [E1 E2].
  { rewrite Ec, gateway_ops_app, gateway_effects_app. cbn. by rewrite app_nil_r. }
  destruct (do_op_sends g o H3 Hk) as (S1 & S2 & S3). split; rewrite ?E1, ?E2.
  - exists now. by apply gateway_history_snoc.
  - by apply faithful_op.
  - done.
  - apply (sound_sends_mono (Gateway.venues_ g)); [rewrite S2; set_solver|]. by apply sound_sends_app.
  - intros v Hin. rewrite Eids. rewrite S2, elem_of_union in Hin. destruct Hin as [Hin|Hin]; [|by apply H5].
    destruct o; try by apply elem_of_empty in Hin. apply elem_of_singleton in Hin as ->. by apply Hv.
Qed.

(** A call of the gateway. *)
Lemma gateway_step_inv rest pend c g o :
  inv rest (reported [o] ++ pend) c -> gateway_ c = Some g -> allowed o c g ->
  let '(c', evs) := gateway_step o g c in
  inv (rest ++ evs) pend c' /\ gateway_ c' = Some (Gateway.do_op g o).1 /\ evs = (Gateway.do_op g o).2.
Proof.
  intros [I1 I2 I3 I4 I5] Eg Ha. unfold gateway_step.
  rewrite Eg in I1. pose proof (fun c' => gateway_inv_step c g o c' I1 Ha) as Hg.
  destruct (Gateway.do_op g o) as [g' evs]. cbn [fst snd] in Hg.
  set (c' := record_call _ _). assert (calls c' = calls c ++ [GatewayCall o evs] /\ gateway_ c' = Some g' /\
    exchange_ptrs_ c' = exchange_ptrs_ c /\ fill_events_ c' = fill_events_ c) as (E1 & E2 & E3 & E4) by (by destruct c).
  clearbody c'. split; [|done]. unfold shown, ids in *. split; unfold shown, ids; rewrite ?E2, ?E3, ?E4.
  - apply Hg; [done|by rewrite E3].
  - intros i x Hx. destruct (I2 i x Hx) as [H1 H2].
    rewrite E1, exchange_ops_app, exchange_reports_app, gateway_effects_app. cbn. rewrite !app_nil_r.
    split; [done|]. by rewrite !sends_to_app, app_assoc, H2.
  - intros i Hi'. rewrite E1, exchange_ops_app, exchange_reports_app. destruct (I3 i Hi') as [-> ->]. done.
  - rewrite E1, gateway_ops_app, reported_app, all_reports_app, <- I4. cbn [all_reports mbind list_bind].
    by rewrite app_nil_r, <- app_assoc.
  - rewrite E1, drained_app, gateway_effects_app, !observed_app, !fmap_app. cbn. rewrite !app_nil_r, app_assoc.
    by rewrite I5.
Qed.

(** A report handed in. *)
Lemma report_in_inv rest pend c r g :
  inv rest (r :: pend) c -> gateway_ c = Some g ->
  inv rest pend (report_in c r) /\ is_Some (gateway_ (report_in c r)).
Proof.
  intros Hi Eg. unfold report_in. rewrite Eg.
  pose proof (gateway_step_inv rest pend c g (Gateway.ReportIn r) Hi Eg) as H.
  destruct (gateway_step _ g c) as [c' evs]. destruct H as (H1 & H2 & ->); [by split|].
  cbn in H1. rewrite app_nil_r in H1. split; [done|by eexists].
Qed.

Lemma reports_in_inv rest rs c g :
  inv rest rs c -> gateway_ c = Some g ->
  inv rest [] (fold_left report_in rs c) /\ is_Some (gateway_ (fold_left report_in rs c)).
Proof.
  revert c g. induction rs as [|r rs IH]; intros c g Hi Eg; cbn [fold_left]; [by eauto|].
  destruct (report_in_inv rest rs c r g Hi Eg) as [H1 [g' H2]]. by eapply IH.
Qed.

(** The exchange keeps its configuration. *)
Lemma match_front_config x rnd clk :
  SimulatedExchange.config_ (SimulatedExchange.match_front x rnd clk).1 = SimulatedExchange.config_ x.
Proof.
  unfold SimulatedExchange.match_front, SimulatedExchange.try_match, SimulatedExchange.unmatched,
    SimulatedExchange.generate_fill, SimulatedExchange.generate_reject, SimulatedExchange.generate_cancel_ack.
  destruct x. cbn. repeat first [done | case_match; simplify_eq; cbn].
Qed.

Lemma exchange_config_kept x o :
  SimulatedExchange.config_ (SimulatedExchange.do_op x o).1 = SimulatedExchange.config_ x.
Proof.
  destruct o; cbn [SimulatedExchange.do_op fst]; try (by destruct x).
  - unfold SimulatedExchange.connect. destruct x. by destruct (SimulatedExchange.connected_ _).
  - unfold SimulatedExchange.send_order. destruct (negb _); [done|]. by destruct (_ !! _), x.
  - unfold SimulatedExchange.cancel_order. destruct (negb _); [done|]. by destruct (_ !! _), x.
  - unfold SimulatedExchange.process_matching.
    apply (fold_left_inv _ (fun st _ => SimulatedExchange.config_ st.1 = SimulatedExchange.config_ x)); [done|].
    intros [y log] _ i _ <-. pose proof (match_front_config y (rnd i) (clk i)).
    by destruct (SimulatedExchange.match_front y (rnd i) (clk i)).
Qed.

Lemma exchange_history_snoc config ops x log o :
  SimulatedExchange.history config ops = (x, log) ->
  SimulatedExchange.history config (ops ++ [o]) =
    ((SimulatedExchange.do_op x o).1, log ++ (SimulatedExchange.do_op x o).2).
Proof.
  unfold SimulatedExchange.history. rewrite fold_left_app. intros ->. cbn.
  by destruct (SimulatedExchange.do_op x o).
Qed.

Lemma report_in_ptrs rs c : exchange_ptrs_ (fold_left report_in rs c) = exchange_ptrs_ c.
Proof.
  revert c. induction rs as [|r rs IH]; intros c; cbn [fold_left]; [done|]. rewrite IH.
  unfold report_in, gateway_step. destruct (gateway_ c) as [g|]; [|done].
  destruct (Gateway.do_op g _). by destruct c.
Qed.

(** A call of an exchange, which may deliver a send. *)
Lemma exchange_step_inv rest rest' c i x o :
  inv rest [] c -> exchange_ptrs_ c !! i = Some x -> observed rest = observed rest' ->
  (forall j, sends_to (ids c) j rest =
     (if decide (i = j) then SimulatedExchange.sent [o] else []) ++ sends_to (ids c) j rest') ->
  inv rest' [] (exchange_step i x o c) /\ is_Some (gateway_ (exchange_step i x o c)) /\
  ids (exchange_step i x o c) = ids c.
Proof.
  intros [I1 I2 I3 I4 I5] Hx Ho Hs. unfold exchange_step.
  pose proof (exchange_config_kept x o) as Hc. pose proof (exchange_history_snoc (SimulatedExchange.config_ x)
    (exchange_ops i (calls c)) x (exchange_reports i (calls c)) o (proj1 (I2 i x Hx))) as Hh.
  destruct (SimulatedExchange.do_op x o) as [x' rs]. cbn [fst snd] in Hc, Hh.
  set (c1 := record_call _ _). assert (calls c1 = calls c ++ [ExchangeCall i o rs] /\ gateway_ c1 = gateway_ c /\
    exchange_ptrs_ c1 = <[i := x']> (exchange_ptrs_ c) /\ fill_events_ c1 = fill_events_ c) as (E1 & E2 & E3 & E4)
    by (by destruct c).
  assert (ids c1 = ids c) as Ei.
  { unfold ids. rewrite E3, list_fmap_insert, list_insert_id; [done|]. rewrite list_lookup_fmap, Hx. cbn.
    unfold exchange_id. by rewrite Hc. }
  clearbody c1. assert (exists g, gateway_ c = Some g) as [g Eg].
  { destruct (gateway_ c); [by eexists|]. destruct I1 as [I1 _]. by rewrite I1 in Hx. }
  assert (inv rest' rs c1) as H1.
  { split; unfold shown; rewrite ?Ei, ?E2, ?E4.
    - rewrite Eg in *. destruct I1 as [[now G1] G2 G3 G4 G5].
      split; rewrite ?Ei; rewrite ?E1, ?gateway_ops_app, ?gateway_effects_app; cbn; rewrite ?app_nil_r; eauto.
    - intros j y Hy. rewrite E1, exchange_ops_app, exchange_reports_app, gateway_effects_app. cbn.
      rewrite E3 in Hy. specialize (Hs j). destruct (decide (i = j)) as [<-|Hne].
      + rewrite list_lookup_insert_eq in Hy by (by eapply lookup_lt_Some). injection Hy as <-.
        rewrite Hc, app_nil_r, app_nil_r. split; [done|]. unfold SimulatedExchange.sent in *. rewrite omap_app, <- app_assoc.
        destruct (I2 i x Hx) as [_ <-]. by rewrite Hs.
      + rewrite list_lookup_insert_ne in Hy by done. destruct (I2 j y Hy) as [H1 H2]. rewrite !app_nil_r.
        split; [done|]. by rewrite <- H2, Hs.
    - intros j Hj. rewrite E3, length_insert in Hj. rewrite E1, exchange_ops_app, exchange_reports_app. cbn.
      apply lookup_lt_Some in Hx. destruct (decide (i = j)) as [<-|]; [lia|]. by destruct (I3 j Hj) as [-> ->].
    - rewrite E1, gateway_ops_app, all_reports_app, <- I4. cbn. by rewrite !app_nil_r.
    - rewrite E1, drained_app, gateway_effects_app. cbn. rewrite !app_nil_r, <- Ho. exact I5. }
  rewrite Eg in E2. destruct (reports_in_inv rest' rs c1 g H1 E2) as [H2 H3]. split; [done|]. split; [done|].
  unfold ids in *. by rewrite report_in_ptrs.
Qed.

Lemma on_venue_inv rest rest' c v o :
  inv rest [] c -> is_Some (gateway_ c) -> observed rest = observed rest' ->
  (forall j, sends_to (ids c) j rest =
     (if decide (place v (ids c) = Some j) then SimulatedExchange.sent [o] else []) ++ sends_to (ids c) j rest') ->
  inv rest' [] (on_venue v o c) /\ is_Some (gateway_ (on_venue v o c)) /\ ids (on_venue v o c) = ids c.
Proof.
  intros Hi Hg Ho Hs. unfold on_venue.
  assert (place v (ids c) = fst <$> exchange_of v (exchange_ptrs_ c)) as Hp by apply exchange_of_place.
  destruct (exchange_of v (exchange_ptrs_ c)) as [[i x]|] eqn:Ef; cbn in Hp.
  - eapply exchange_step_inv; [exact Hi| |done|].
    + unfold exchange_of in Ef. by apply list_find_Some in Ef as (? & _).
    + intros j. rewrite Hs, Hp. destruct (decide (i = j)), (decide (Some i = Some j)); congruence.
  - split; [|done]. destruct Hi as [I1 I2 I3 I4 I5]. split; try done.
    + intros i x Hx. destruct (I2 i x Hx) as [? H2]. split; [done|].
      specialize (Hs i). rewrite decide_False in Hs by congruence. cbn in Hs. by rewrite <- H2, Hs.
    + by rewrite <- Ho.
Qed.

(** What is neither the gateway, an exchange, a call nor a fill. *)
Lemma inv_frame rest rest' pend c c' :
  inv rest pend c -> calls c' = calls c -> gateway_ c' = gateway_ c -> exchange_ptrs_ c' = exchange_ptrs_ c ->
  fill_events_ c' ++ (fill_event <$> observed rest') = fill_events_ c ++ (fill_event <$> observed rest) ->
  sends rest' = sends rest -> inv rest' pend c'.
Proof.
  intros [I1 I2 I3 I4 I5] E1 E2 E3 E4 E5. unfold shown, ids, sends_to in *.
  split; unfold shown, ids, sends_to; rewrite ?E1, ?E2, ?E3, ?E5; try done.
  - destruct (gateway_ c); [|done]. destruct I1 as [G1 G2 G3 G4 G5]. split; unfold ids; by rewrite ?E1, ?E3.
  - by rewrite <- app_assoc, E4, app_assoc.
Qed.

(** An effect delivered. *)
Lemma deliver_inv rest c e clk :
  inv (e :: rest) [] c -> is_Some (gateway_ c) ->
  inv rest [] (deliver clk c e) /\ is_Some (gateway_ (deliver clk c e)) /\ ids (deliver clk c e) = ids c.
Proof.
  intros Hi Hg. destruct e as [pid ch|v ch|v req|o r|o|v|v]; cbn [deliver];
    try (eapply on_venue_inv; [exact Hi|done|done|]; intros j; cbn; by destruct (decide _)).
  - split; [|done]. by eapply inv_frame.
  - split; [|by destruct c]. eapply inv_frame; [exact Hi|by destruct c..| |done].
    destruct c. cbn. by rewrite <- app_assoc.
  - split; [|by destruct c]. eapply inv_frame; [exact Hi|by destruct c..|done].
Qed.

Lemma deliver_all_inv evs clks c :
  inv evs [] c -> is_Some (gateway_ c) ->
  inv [] [] (each deliver clks evs c) /\ is_Some (gateway_ (each deliver clks evs c)) /\
  ids (each deliver clks evs c) = ids c.
Proof.
  revert clks c. induction evs as [|e evs IH]; intros clks c Hi Hg; cbn [each]; [done|].
  destruct (deliver_inv evs c e (clks 0%nat) Hi Hg) as (H1 & H2 & <-). by apply IH.
Qed.

(** ** The operations keep the invariant *)

(** Nothing is pending; with a gateway unless there are no exchanges. *)
Definition ok (c : t) : Prop := inv [] [] c.

Lemma gateway_do_ok o clks c :
  ok c -> reported [o] = [] -> (forall g, gateway_ c = Some g -> allowed o c g) ->
  ok (gateway_do o clks c) /\ ids (gateway_do o clks c) = ids c.
Proof.
  intros Hi Hr Ha. unfold gateway_do. destruct (gateway_ c) as [g|] eqn:Eg; [|done].
  pose proof (gateway_step_inv [] [] c g o) as H. rewrite Hr in H. specialize (H Hi Eg (Ha g eq_refl)).
  assert (ids (gateway_step o g c).1 = ids c) as Ei.
  { unfold gateway_step. destruct (Gateway.do_op g o). by destruct c. }
  destruct (gateway_step o g c) as [c' evs]. destruct H as (H1 & H2 & _). cbn [fst] in Ei. rewrite <- Ei.
  destruct (deliver_all_inv evs clks c' H1 ltac:(by eexists)) as (H3 & _ & H4). done.
Qed.

(** A call without effects: also what it leaves alone. *)
Definition silent (o : Gateway.op) : Prop := forall g, (Gateway.do_op g o).2 = [].

Lemma gateway_set_ok o c :
  ok c -> reported [o] = [] -> silent o -> (forall g, gateway_ c = Some g -> allowed o c g) ->
  ok (gateway_set o c) /\ ids (gateway_set o c) = ids c /\
  gateway_effects (calls (gateway_set o c)) = gateway_effects (calls c).
Proof.
  intros Hi Hr Hs Ha. unfold gateway_set. destruct (gateway_ c) as [g|] eqn:Eg; [|done].
  pose proof (gateway_step_inv [] [] c g o) as H. rewrite Hr in H. specialize (H Hi Eg (Ha g eq_refl)).
  unfold gateway_step in *. specialize (Hs g). destruct (Gateway.do_op g o) as [g' evs]. cbn [snd] in Hs. subst evs.
  destruct H as (H1 & _). split; [done|]. split; [by destruct c|]. destruct c. cbn. by rewrite gateway_effects_app, app_nil_r.
Qed.

(** A call the invariant does not look at. *)
Definition neutral (k : call) : Prop :=
  match k with FeedCall _ _ _ | ProviderCall _ _ => True | _ => False end.

Lemma neutral_ok k c c' :
  ok c -> neutral k -> calls c' = calls c ++ [k] -> gateway_ c' = gateway_ c ->
  exchange_ptrs_ c' = exchange_ptrs_ c -> fill_events_ c' = fill_events_ c ->
  ok c' /\ ids c' = ids c /\ gateway_effects (calls c') = gateway_effects (calls c).
Proof.
  intros [I1 I2 I3 I4 I5] Hk E1 E2 E3 E4.
  assert (gateway_ops (calls c') = gateway_ops (calls c) /\ gateway_effects (calls c') = gateway_effects (calls c) /\
    (forall i, exchange_ops i (calls c') = exchange_ops i (calls c)) /\
    (forall i, exchange_reports i (calls c') = exchange_reports i (calls c)) /\
    all_reports (calls c') = all_reports (calls c) /\ drained (calls c') = drained (calls c))
    as (F1 & F2 & F3 & F4 & F5 & F6).
  { rewrite E1, gateway_ops_app, gateway_effects_app, all_reports_app, drained_app.
    destruct k; try done; cbn; rewrite !app_nil_r; split_and!; try done; intros j;
      rewrite ?exchange_ops_app, ?exchange_reports_app; cbn; by rewrite ?app_nil_r. }
  assert (ids c' = ids c) as Ei by (unfold ids; by rewrite E3). split; [|done].
  unfold ok, shown in *. split; unfold shown; rewrite ?E2, ?Ei, ?F1, ?F2, ?F5, ?F6, ?E4, ?E3; try done.
  - destruct (gateway_ c); [|done]. destruct I1 as [G1 G2 G3 G4 G5]. split; by rewrite ?F1, ?F2, ?Ei.
  - intros i x Hx. rewrite F3, F4. by apply I2.
  - intros i Hi. rewrite F3, F4. by apply I3.
Qed.

(** Steps without effects. *)
Definition silently (c c' : t) : Prop :=
  ok c' /\ ids c' = ids c /\ gateway_effects (calls c') = gateway_effects (calls c).

Lemma silently_refl c : ok c -> silently c c.
Proof. done. Qed.

Lemma silently_trans c1 c2 c3 : silently c1 c2 -> (ok c2 -> silently c2 c3) -> silently c1 c3.
Proof. intros (H1 & H2 & H3) H. destruct (H H1) as (H4 & H5 & H6). split_and!; [done|congruence..]. Qed.

Lemma silently_each {K A} (step : K -> t -> A -> t) clk l c :
  (forall k c a, ok c -> silently c (step k c a)) -> ok c -> silently c (each step clk l c).
Proof.
  intros Hs. revert clk c. induction l as [|a l IH]; intros clk c Hc; cbn [each]; [by apply silently_refl|].
  eapply silently_trans; [by apply Hs|apply IH].
Qed.

Lemma silently_fold {A} (step : t -> A -> t) l c :
  (forall c a, ok c -> silently c (step c a)) -> ok c -> silently c (fold_left step l c).
Proof.
  intros Hs. revert c. induction l as [|a l IH]; intros c Hc; cbn [fold_left]; [by apply silently_refl|].
  eapply silently_trans; [by apply Hs|apply IH].
Qed.

(** What the invariant does not look at. *)
Lemma silently_frame c c' :
  ok c -> calls c' = calls c -> gateway_ c' = gateway_ c -> exchange_ptrs_ c' = exchange_ptrs_ c ->
  fill_events_ c' = fill_events_ c -> silently c c'.
Proof.
  intros Hc E1 E2 E3 E4. unfold silently, ids. rewrite E1, E3. split; [|done].
  eapply inv_frame; try done. by rewrite E4.
Qed.

Lemma silently_set o c :
  ok c -> reported [o] = [] -> silent o -> (forall g, gateway_ c = Some g -> allowed o c g) ->
  silently c (gateway_set o c).
Proof. apply gateway_set_ok. Qed.

Ltac silent_set := apply silently_set; [done|done|by intros ?|by split].

Lemma book_update_ok now c b : ok c -> silently c (book_update now c b).
Proof. intros Hc. unfold book_update. silent_set. Qed.

Lemma feed_step_ok o clk i c : ok c -> silently c (feed_step o clk i c).
Proof.
  intros Hc. unfold feed_step. destruct (feeds_ c !! i) as [f|]; [|done].
  destruct (SimulatedFeedHandler.do_op f o) as [f' books].
  set (c1 := record_call _ _). apply (silently_trans c c1); [apply (neutral_ok (FeedCall i o books)); [done|exact I|by destruct c..]|].
  intros Hc'. apply silently_each; [|done]. intros. by apply book_update_ok.
Qed.

Lemma provider_step_ok o clk c : ok c -> silently c (provider_step o clk c).1.
Proof.
  intros Hc. unfold provider_step. destruct (live_provider_ c) as [p|]; [|done].
  destruct (AlpacaProvider.do_op walk p o) as [[p' evs] e]. cbn [fst].
  set (c1 := record_call _ _). apply (silently_trans c c1); [apply (neutral_ok (ProviderCall o evs)); [done|exact I|by destruct c..]|].
  intros Hc'. apply silently_each; [|done]. intros now c' [| | |b]; cbn; try done. by apply book_update_ok.
Qed.

Lemma subscribe_all_ok symbols c : ok c -> silently c (subscribe_all symbols c).1.
Proof.
  revert c. induction symbols as [|s symbols IH]; intros c Hc; cbn [subscribe_all]; [done|].
  pose proof (provider_step_ok (AlpacaProvider.Subscribe (FixedString.of_view 16 s)) (fun _ => 0) c Hc) as Hp.
  destruct (provider_step _ _ c) as [c' [e|]]; [done|]. eapply silently_trans; [exact Hp|apply IH].
Qed.

Lemma set_up_live_ok live m ms clks c : ok c -> silently c (set_up_live live m ms clks c).1.
Proof.
  intros Hc. unfold set_up_live. destruct (create_provider live m) as [p|]; [|done].
  set (c1 := { c with live_provider_ := Some p }).
  set (c2 := (provider_step AlpacaProvider.SetAggregator _ c1).1).
  set (c3 := gateway_set _ c2). set (c4 := (provider_step AlpacaProvider.Connect _ c3).1).
  set (c5 := each ws_turn clks ms c4). set (c6 := (provider_step AlpacaProvider.ConnectFinish _ c5).1).
  assert (silently c c6) as H6.
  { apply (silently_trans c c1); [apply silently_frame; [done|by destruct c..]|]. intros H1.
    apply (silently_trans c1 c2); [by apply provider_step_ok|]. intros H2.
    apply (silently_trans c2 c3); [subst c3; silent_set|]. intros H3.
    apply (silently_trans c3 c4); [by apply provider_step_ok|]. intros H4.
    apply (silently_trans c4 c5); [apply silently_each; [intros; by apply provider_step_ok|done]|]. intros H5.
    by apply provider_step_ok. }
  destruct (authenticated c5); [|done]. eapply silently_trans; [exact H6|apply subscribe_all_ok].
Qed.

Lemma add_feed_ok c x : ok c -> silently c (add_feed c x).
Proof.
  intros Hc. unfold add_feed. set (c1 := { c with feeds_ ::= _ }).
  apply (silently_trans c c1); [apply silently_frame; [done|by destruct c..]|]. intros H1.
  eapply silently_trans; [by apply (feed_step_ok SimulatedFeedHandler.SetCallback (fun _ => 0) (length (feeds_ c)))|].
  intros H2. by apply feed_step_ok.
Qed.

Lemma set_up_feeds_ok clks c : ok c -> silently c (set_up_feeds clks c).
Proof.
  intros Hc. unfold set_up_feeds, warm_up. set (c1 := fold_left _ _ _).
  apply (silently_trans c c1); [apply silently_fold; [intros; by apply add_feed_ok|done]|]. intros H1.
  apply silently_each; [|done]. intros k c' i Hc'. by apply feed_step_ok.
Qed.

(** The four strategies meet their law. *)
Lemma strategies_ok : Forall RoutingEngine.ss_ok strategies.
Proof. repeat constructor. Qed.

Lemma set_up_routing_ok c : ok c -> silently c (set_up_routing c).
Proof.
  intros Hc. unfold set_up_routing. set (c1 := fold_left _ strategies c). apply (silently_trans c c1).
  - subst c1. pose proof strategies_ok as Hs. revert c Hc. induction Hs as [|s ss Hs _ IH]; intros c Hc; cbn [fold_left]; [done|].
    eapply silently_trans; [|apply IH]. apply silently_set; [done|done|by intros g|].
    intros g _. split; [|done]. intros f e [= <-] He. by apply RoutingEngine.put_strategy_ok.
  - intros H1. apply silently_fold; [|done]. intros c' x Hc'. apply silently_set; [done|done|by intros g|].
    intros g _. split; [|done]. intros f e [= <-] He. by apply RoutingEngine.update_venue_score_ok.
Qed.

(** Adapters are added while nothing has been sent. *)
Lemma add_exchange_ok c vc :
  ok c -> gateway_effects (calls c) = [] -> is_Some (gateway_ c) ->
  ok (add_exchange c vc) /\ gateway_effects (calls (add_exchange c vc)) = [] /\
  is_Some (gateway_ (add_exchange c vc)).
Proof.
  intros Hc He Hg. unfold add_exchange. destruct (v_enabled vc); cbn [negb]; [|done].
  set (x := SimulatedExchange.create (exchange_config vc)). set (c1 := { c with exchange_ptrs_ ::= _ }).
  assert (calls c1 = calls c /\ gateway_ c1 = gateway_ c /\ exchange_ptrs_ c1 = exchange_ptrs_ c ++ [x] /\
    fill_events_ c1 = fill_events_ c) as (E1 & E2 & E3 & E4) by (by destruct c).
  assert (ids c1 = ids c ++ [Config.venue_id vc]) as Ei by (unfold ids; by rewrite E3, fmap_app).
  clearbody c1. assert (ok c1) as H1.
  { destruct Hc as [I1 I2 I3 I4 I5]. unfold ok, shown, sends_to in *. destruct Hg as [g Eg]. rewrite Eg in I1.
    split; unfold shown, sends_to; rewrite ?E1, ?E4, ?E2, ?Eg; try done.
    - destruct I1 as [G1 G2 G3 G4 G5]. split; rewrite ?E1; try done.
      intros v Hv. rewrite Ei, elem_of_app. left. by apply G5.
    - intros i y Hy. rewrite He. rewrite E3, lookup_app in Hy.
      destruct (exchange_ptrs_ c !! i) as [z|] eqn:Ez.
      + injection Hy as <-. destruct (I2 i z Ez) as [H1 H2]. split; [done|]. by rewrite He in H2.
      + apply list_lookup_singleton_Some in Hy as [Hi <-]. apply lookup_ge_None in Ez.
        destruct (I3 i) as [-> ->]; [lia|]. done.
    - intros i Hi. apply I3. rewrite E3, length_app in Hi. lia. }
  destruct (silently_set (Gateway.AddVenue (Config.venue_id vc)) c1 H1) as (H2 & _ & H3);
    [done|by intros g|intros g _; split_and!; try done|].
  - intros v [= <-]. rewrite Ei, elem_of_app. right. by apply list_elem_of_singleton.
  - split; [done|]. rewrite H3, E1. split; [done|]. unfold gateway_set. rewrite E2. destruct Hg as [g ->].
    unfold gateway_step. destruct (Gateway.do_op g _). by eexists.
Qed.

Lemma add_exchanges_ok vs c :
  ok c -> gateway_effects (calls c) = [] -> is_Some (gateway_ c) ->
  ok (fold_left add_exchange vs c) /\ gateway_effects (calls (fold_left add_exchange vs c)) = [].
Proof.
  revert c. induction vs as [|vc vs IH]; intros c H1 H2 H3; cbn [fold_left]; [done|].
  destruct (add_exchange_ok c vc H1 H2 H3) as (? & ? & ?). by apply IH.
Qed.

Lemma add_exchange_ptrs c vc :
  exchange_ptrs_ (add_exchange c vc) =
  exchange_ptrs_ c ++ (if v_enabled vc then [SimulatedExchange.create (exchange_config vc)] else []).
Proof.
  unfold add_exchange. destruct (v_enabled vc); cbn [negb]; [|by rewrite app_nil_r].
  unfold gateway_set, gateway_step. destruct c as [[g|]]; cbn; [|done]. done.
Qed.

(** The exchanges are those of the enabled venues. *)
Lemma add_exchanges_ptrs vs c :
  exchange_ptrs_ (fold_left add_exchange vs c) =
  exchange_ptrs_ c ++ (SimulatedExchange.create ∘ exchange_config <$> filter (fun vc => v_enabled vc = true) vs).
Proof.
  revert c. induction vs as [|vc vs IH]; intros c; cbn [fold_left]; [by rewrite app_nil_r|].
  rewrite IH, add_exchange_ptrs, <- app_assoc, filter_cons. f_equal. by destruct (v_enabled vc).
Qed.

(** A controller before [initialize]. *)
Lemma create_gateway_ok now : ok { create with gateway_ := Some (Gateway.create now) }.
Proof.
  split; cbn; try done. split; cbn; try done.
  all: first [by exists now|apply faithful_create|apply RoutingEngine.create_ok|by apply sound_sends_none].
Qed.

Lemma setup_backend_ok e : ok (setup_backend e create).1.
Proof.
  assert (ok create) as H0 by (split; cbn; done). unfold setup_backend.
  set (cfg := default default_config (loaded e)).
  destruct (match loaded e with Some _ => _ | None => false end); [done|].
  set (c0 := { create with gateway_ := _ }). set (c1 := fold_left add_exchange _ c0).
  destruct (add_exchanges_ok (venues cfg) c0) as [H1 He]; [apply create_gateway_ok|done|by eexists|].
  pose proof (add_exchanges_ptrs (venues cfg) c0) as Hp. fold c1 in H1, He, Hp.
  destruct (bool_decide_reflect (exchange_ptrs_ c1 = [])) as [Hx|Hx].
  { assert (c1 = c0) as ->; [|split; done]. rewrite Hx in Hp. cbn in Hp.
    symmetry in Hp. apply fmap_nil_inv in Hp. subst c1. revert Hp. generalize (venues cfg), c0. clear.
    induction l as [|vc vs IH]; intros c; cbn [fold_left]; [done|]. rewrite filter_cons. unfold add_exchange at 2.
    destruct (v_enabled vc); [done|]. apply IH. }
  clearbody c1. set (c2 := gateway_set _ c1). assert (silently c1 c2) as (H2 & _) by (subst c2; silent_set).
  destruct (set_up_routing_ok c2 H2) as (H3 & _). set (c3 := set_up_routing c2) in *. clearbody c3.
  set (r := if negb _ then _ else _). assert (ok r.1) as Hr.
  { subst r. destruct (negb _); [apply set_up_live_ok|apply set_up_feeds_ok]; done. }
  clearbody r. destruct r as [c4 [ex|]]; cbn [fst] in *; [done|].
  by apply (silently_frame c4); destruct c4.
Qed.

(** The observers are set before the callbacks are installed. *)
Lemma wire_observers_ok c :
  ok c -> silently c (wire_observers c) /\
  (forall g, gateway_ (wire_observers c) = Some g -> Gateway.fill_observer_ g = true).
Proof.
  intros Hc. unfold wire_observers. split.
  - set (c1 := gateway_set Gateway.SetFillObserver c).
    apply (silently_trans c c1); [subst c1; silent_set|]. intros H1. silent_set.
  - unfold gateway_set, gateway_step. destruct c as [[g|]]; cbn; [|done]. intros g' [= <-]. by destruct g.
Qed.

Lemma initialize_ok e : ok (initialize e create).1.
Proof.
  unfold initialize. pose proof (setup_backend_ok e) as Hc. destruct (setup_backend e create) as [c [ex|]]; [done|].
  cbn [fst] in Hc. destruct (gateway_ c); [|done]. destruct (wire_observers_ok c Hc) as [(H1 & _) H2]. cbn [fst].
  apply gateway_do_ok; [done|done|]. intros g Hg. split_and!; [done|intros; by apply H2|done].
Qed.

Lemma submit_order_ok params now c : ok c -> ok (submit_order params now c).2.
Proof.
  intros Hc. unfold submit_order. destruct (gateway_ c) as [g|] eqn:Eg; [|done].
  destruct (negb (Gateway.running_ g)); [done|]. cbn [Gateway.generate_order_id snd].
  set (c1 := gateway_set Gateway.AllocateId c). assert (silently c c1) as (H1 & _) by (subst c1; silent_set).
  set (c2 := { c1 with tracked_orders_ ::= _ }).
  destruct (silently_frame c1 c2 H1) as (H2 & _); [by destruct c1..|].
  destruct (silently_set (Gateway.Submit_ (order_of params (Gateway.next_order_id_ g)) now) c2 H2) as (H3 & _); try done.
Qed.

Lemma cancel_order_ok id now c : ok c -> ok (cancel_order id now c).2.
Proof.
  intros Hc. unfold cancel_order. destruct (gateway_ c) as [g|] eqn:Eg; [|done]. cbn [snd].
  match goal with |- ok (gateway_set ?o c) => destruct (silently_set o c Hc) as (H3 & _); done end.
Qed.

Lemma turn_ok b f c : (ok c -> ok (f c)) -> ok c -> ok (turn b f c).
Proof. unfold turn. destruct b; auto. Qed.

Lemma pump_ok o clks c : ok c -> reported [o] = [] -> (forall g, gateway_ c = Some g -> allowed o c g) ->
  ok (gateway_do o clks c).
Proof. intros. by apply gateway_do_ok. Qed.

(** A call of an exchange that sends nothing. *)
Lemma exchange_call_ok i x o c :
  ok c -> exchange_ptrs_ c !! i = Some x -> SimulatedExchange.sent [o] = [] ->
  ok (exchange_step i x o c) /\ length (exchange_ptrs_ (exchange_step i x o c)) = length (exchange_ptrs_ c).
Proof.
  intros Hc Hx Hs. destruct (exchange_step_inv [] [] c i x o Hc Hx) as (H1 & _ & H2); [done| |].
  - intros j. rewrite Hs. by destruct (decide _).
  - split; [done|]. apply (f_equal length) in H2. unfold ids in H2. by rewrite !length_fmap in H2.
Qed.

Lemma set_market_prices_ok c : ok c -> ok (set_market_prices c).
Proof.
  intros Hc. unfold set_market_prices. destruct (NBBO.valid _); [|done].
  generalize (seq 0 (length (exchange_ptrs_ c))). intros l. generalize (get_nbbo c AAPL). intros nbbo.
  revert c Hc. induction l as [|i l IH]; intros c Hc; cbn [fold_left]; [done|].
  apply IH. destruct (exchange_ptrs_ c !! i) as [x|] eqn:Hx; [|done]. by apply exchange_call_ok.
Qed.

Lemma stop_ok clks c : ok c -> ok (stop clks c).
Proof.
  intros Hc. unfold stop. destruct (gateway_ c); [|done]. set (c1 := { c with threads_running_ := false }).
  destruct (silently_frame c c1 Hc) as (H1 & _); [by destruct c..|].
  destruct (provider_step_ok AlpacaProvider.Disconnect (fun _ => 0) c1 H1) as (H2 & _).
  set (c2 := (provider_step _ _ c1).1) in *.
  destruct (silently_fold (fun c i => feed_step SimulatedFeedHandler.Stop (fun _ => 0) i c)
    (seq 0 (length (feeds_ c2))) c2) as (H3 & _); [intros; by apply feed_step_ok|done|].
  apply pump_ok; [done|done|by split].
Qed.

Lemma drain_fills_ok c : ok c -> ok (drain_fill_events c).2.
Proof.
  intros [I1 I2 I3 I4 I5]. unfold drain_fill_events. cbn [snd]. set (c' := record_call _ _).
  assert (calls c' = calls c ++ [FillsDrained (fill_events_ c)] /\ gateway_ c' = gateway_ c /\
    exchange_ptrs_ c' = exchange_ptrs_ c /\ fill_events_ c' = []) as (E1 & E2 & E3 & E4) by (by destruct c).
  clearbody c'. assert (ids c' = ids c) as Ei by (unfold ids; by rewrite E3).
  assert (gateway_ops (calls c') = gateway_ops (calls c) /\ gateway_effects (calls c') = gateway_effects (calls c) /\
    (forall i, exchange_ops i (calls c') = exchange_ops i (calls c)) /\
    (forall i, exchange_reports i (calls c') = exchange_reports i (calls c)) /\
    all_reports (calls c') = all_reports (calls c) /\ drained (calls c') = drained (calls c) ++ fill_events_ c)
    as (F1 & F2 & F3 & F4 & F5 & F6).
  { rewrite E1, gateway_ops_app, gateway_effects_app, all_reports_app, drained_app. cbn. rewrite !app_nil_r.
    split_and!; try done; intros i; rewrite ?exchange_ops_app, ?exchange_reports_app; cbn; by rewrite ?app_nil_r. }
  unfold shown in *. split; unfold shown; rewrite ?E2, ?Ei, ?F1, ?F2, ?F5, ?F6, ?E4, ?E3; try done.
  - destruct (gateway_ c); [|done]. destruct I1 as [G1 G2 G3 G4 G5]. split; by rewrite ?F1, ?F2, ?Ei.
  - intros i x Hx. rewrite F3, F4. by apply I2.
  - intros i Hi. rewrite F3, F4. by apply I3.
  - by rewrite app_nil_r.
Qed.

Lemma do_op_ok o c c' : ok c -> do_op o c = Some c' -> ok c'.
Proof.
  intros Hc. destruct o as [|clks|params now|id now| | | | |symbol|m|clk clks|clks|clk clks|i clk| |i rnd clk|msg clk];
    cbn [do_op]; try (intros [= <-]).
  - unfold start. destruct (gateway_ c) eqn:Eg; [|by intros [= <-]]. destruct (threads_running_ c); [done|].
    intros [= <-]. set (c1 := { c with threads_running_ := true }).
    destruct (silently_frame c c1 Hc) as (H1 & _); [by destruct c..|].
    by destruct (silently_set Gateway.Start c1 H1) as (H2 & _).
  - by apply stop_ok.
  - by apply submit_order_ok.
  - by apply cancel_order_ok.
  - unfold toggle_kill_switch. destruct (is_kill_switch_active c).
    + by destruct (silently_set Gateway.KillSwitchOff c Hc) as (H2 & _).
    + by destruct (silently_set Gateway.KillSwitchOn c Hc) as (H2 & _).
  - by apply drain_fills_ok.
  - apply (silently_frame c); by destruct c.
  - apply (silently_frame c); by destruct c.
  - unfold add_watched_symbol. destruct (existsb _ _); [done|]. apply (silently_frame c); by destruct c.
  - apply (silently_frame c); by destruct c.
  - apply turn_ok; [|done]. intros _. by apply pump_ok.
  - apply turn_ok; [|done]. intros _. by apply pump_ok.
  - apply turn_ok; [|done]. intros _. by apply pump_ok.
  - apply turn_ok; [|done]. intros _. by apply feed_step_ok.
  - apply turn_ok; [|done]. apply set_market_prices_ok.
  - apply turn_ok; [|done]. unfold process_matching. destruct (exchange_ptrs_ c !! i) as [x|] eqn:Hx; [|done].
    intros _. by apply exchange_call_ok.
  - by apply provider_step_ok.
Qed.

Lemma run_ok ops c c' : ok c -> run ops c = Some c' -> ok c'.
Proof.
  revert c. induction ops as [|o ops IH]; intros c Hc; cbn [run]; [by intros [= <-]|].
  destruct (do_op o c) as [c1|] eqn:E1; [|done]. apply IH. by eapply do_op_ok.
Qed.

(** The histories of the controller. *)
Definition history (e : env) (ops : list op) : option t := run ops (initialize e create).1.

Lemma reachable_ok e ops c : history e ops = Some c -> ok c.
Proof. apply run_ok, initialize_ok. Qed.

(** ** What the display shows *)

(** The signed quantity of the fills shown for a symbol. *)
Definition net_shown (c : t) (symbol : FixedString.t) : Z :=
  sum_by (fun f => if decide (skey (fe_symbol f) = skey symbol) then side_sign (fe_side f) * fe_quantity f else 0)
    (shown c).

(** The quantity of the fills shown for an order. *)
Definition shown_on (c : t) (id : OrderId) : Z :=
  sum_by (fun f => if fe_order_id f =? id then fe_quantity f else 0) (shown c).

Lemma shown_observed c : ok c -> shown c = fill_event <$> observed (gateway_effects (calls c)).
Proof. intros [_ _ _ _ H]. cbn in H. by rewrite app_nil_r in H. Qed.

Lemma position_get m sym : RiskManager.get_position m sym = RiskManager.position m sym.
Proof. unfold RiskManager.get_position, RiskManager.position. by destruct (_ !! _). Qed.

(** The quantity a report fills of an order. *)
Definition fills_of (id : OrderId) (r : ExecutionReport) : Z :=
  if r_order_id r =? id then r_last_quantity r else 0.

Lemma fills_of_reports id rs :
  sum_by (fills_of id) rs = sum_by r_last_quantity (SimulatedExchange.reports_on id rs).
Proof.
  induction rs as [|r rs IH]; [done|]. rewrite sum_by_cons, IH. unfold SimulatedExchange.reports_on, fills_of.
  cbn. destruct (r_order_id r =? id); rewrite ?sum_by_cons; lia.
Qed.

(** Reports on an order come from one exchange. *)
Lemma reports_of_one i id ks :
  (forall j r, j <> i -> r ∈ exchange_reports j ks -> r_order_id r <> id) ->
  sum_by (fills_of id) (all_reports ks) = sum_by (fills_of id) (exchange_reports i ks).
Proof.
  intros H. induction ks as [|k ks IH]; [done|].
  change (all_reports (k :: ks)) with (all_reports ([k] ++ ks)).
  change (exchange_reports i (k :: ks)) with (exchange_reports i ([k] ++ ks)).
  rewrite all_reports_app, exchange_reports_app, !sum_by_app, IH.
  2: { intros j r Hj Hr. apply (H j r Hj). change (exchange_reports j (k :: ks)) with (exchange_reports j ([k] ++ ks)).
       rewrite exchange_reports_app. by apply elem_of_app; right. }
  f_equal. destruct k as [|j o rs| | |]; try done. cbn. destruct (decide (j = i)) as [->|Hj]; [done|].
  rewrite app_nil_r. change (sum_by (fills_of id) rs = 0). assert (forall r, r ∈ rs -> r_order_id r <> id) as Hrs.
  { intros r Hr. apply (H j r Hj). cbn. rewrite decide_True by done. by apply elem_of_app; left. }
  clear - Hrs. induction rs as [|r rs IH]; [done|]. rewrite sum_by_cons, IH; [|intros; apply Hrs; by right].
  unfold fills_of. rewrite (proj2 (Z.eqb_neq _ _)); [lia|]. apply Hrs. by left.
Qed.

Lemma reports_all_elem ks r : r ∈ all_reports ks -> exists i, r ∈ exchange_reports i ks.
Proof.
  induction ks as [|k ks IH]; [by intros ?%elem_of_nil|].
  change (all_reports (k :: ks)) with (all_reports ([k] ++ ks)). rewrite all_reports_app.
  intros [Hr|Hr]%elem_of_app.
  - destruct k as [|j o rs| | |]; cbn in Hr; try by apply elem_of_nil in Hr. rewrite app_nil_r in Hr.
    exists j. cbn. rewrite decide_True by done. by apply elem_of_app; left.
  - destruct (IH Hr) as [i Hi]. exists i. change (exchange_reports i (k :: ks)) with (exchange_reports i ([k] ++ ks)).
    rewrite exchange_reports_app. by apply elem_of_app; right.
Qed.

(** Fewer calls than the counter of identifiers can number, and quantities of
    their type. *)
Record in_widths (c : t) : Prop := {
  counter_fits : 1 + Z.of_nat (length (gateway_ops (calls c))) + Z.of_nat (length (gateway_effects (calls c)))
                 <= 18446744073709551615;
  quantities_fit : Forall (fun vo => in_i64 (o_quantity vo.2)) (sends (gateway_effects (calls c)))
}.

Lemma sorted_nodup (l : list Z) : StronglySorted Z.lt l -> NoDup l.
Proof.
  induction 1 as [|a l Hs IH Ha]; constructor; [|done].
  intros Hin. rewrite Forall_forall in Ha. specialize (Ha a Hin). lia.
Qed.

(** The orders sent have identifiers of their own. *)
Lemma sends_distinct c g : gateway_inv c g -> in_widths c -> NoDup (o_id <$> (sends (gateway_effects (calls c))).*2).
Proof.
  intros [[now H1] _ _ [H4 _] _] [Hb _]. apply (sublist_NoDup _ (Gateway.child_ids (gateway_effects (calls c)))); [|exact H4].
  pose proof (Gateway.history_numbered now (gateway_ops (calls c))) as Hn. cbv zeta in Hn. rewrite H1 in Hn.
  apply sorted_nodup. by destruct (Hn Hb).
Qed.

(** An element is found by its key when keys differ. *)
Lemma key_unique {A} (f : A -> OrderId) l x y : NoDup (f <$> l) -> x ∈ l -> y ∈ l -> f x = f y -> x = y.
Proof.
  intros Hn [i Hi]%list_elem_of_lookup [j Hj]%list_elem_of_lookup Exy.
  assert (i = j) as ->; [|congruence]. eapply NoDup_lookup; [exact Hn|rewrite list_lookup_fmap, Hi; done|].
  by rewrite list_lookup_fmap, Hj, Exy.
Qed.

(** An order sent to the exchange at a position. *)
Lemma sends_to_elem vs i evs o :
  o ∈ sends_to vs i evs <-> exists v, (v, o) ∈ sends evs /\ place v vs = Some i.
Proof.
  unfold sends_to. rewrite list_elem_of_fmap. split.
  - intros ([v o'] & -> & [Hp Hin]%list_elem_of_filter). by exists v.
  - intros (v & Hin & Hp). exists (v, o). split; [done|]. by apply list_elem_of_filter.
Qed.

Lemma sends_to_nodup vs i evs :
  NoDup (o_id <$> (sends evs).*2) -> NoDup (o_id <$> sends_to vs i evs).
Proof.
  intros Hn. eapply sublist_NoDup; [exact Hn|]. unfold sends_to. apply fmap_sublist, fmap_sublist, sublist_filter.
Qed.

(** What an exchange did with the orders it was sent. *)
Lemma exchange_facts c g i x :
  ok c -> gateway_ c = Some g -> in_widths c -> exchange_ptrs_ c !! i = Some x ->
  SimulatedExchange.Inv (sends_to (ids c) i (gateway_effects (calls c))) x (exchange_reports i (calls c)) /\
  Forall SimulatedExchange.fresh (sends_to (ids c) i (gateway_effects (calls c))).
Proof.
  intros [I1 I2 _ _ _] Eg Hw Hx. rewrite Eg in I1. destruct (I2 i x Hx) as [Hh Hs].
  change (sends_to (ids c) i []) with (@nil Order) in Hs. rewrite app_nil_r in Hs.
  assert (Forall SimulatedExchange.fresh (sends_to (ids c) i (gateway_effects (calls c)))) as Hf.
  { apply Forall_forall. intros o (v & Hin & _)%sends_to_elem.
    destruct (gi_sends _ _ I1) as [_ Hso]. rewrite Forall_forall in Hso. destruct (Hso _ Hin) as (_ & _ & H1 & H2).
    pose proof (quantities_fit _ Hw) as Hq. rewrite Forall_forall in Hq. specialize (Hq _ Hin). cbn in *.
    split; [done|]. unfold in_i64 in Hq. mlia. }
  split; [|done]. pose proof (SimulatedExchange.history_inv (SimulatedExchange.config_ x) (exchange_ops i (calls c))) as H.
  rewrite Hs, Hh in H. apply H; [|done]. apply sends_to_nodup. by eapply sends_distinct.
Qed.

(** The place of a venue that has an exchange. *)
Lemma place_exchange c v i :
  place v (ids c) = Some i -> exists x, exchange_ptrs_ c !! i = Some x /\ exchange_id x = v.
Proof.
  unfold place, ids. intros ([j w] & (Hl & -> & _)%list_find_Some & [= ->])%fmap_Some.
  rewrite list_lookup_fmap in Hl. by apply fmap_Some in Hl as (x & Hx & ->); exists x.
Qed.

Lemma place_some v vs : v ∈ vs -> exists i, place v vs = Some i.
Proof.
  intros Hin. unfold place. destruct (list_find_elem_of (fun w => w = v) vs v Hin eq_refl) as [[i w] ->]. by exists i.
Qed.

(** The fills shown are a selection of the reports of the exchanges. *)
Lemma observed_reports c g :
  ok c -> gateway_ c = Some g -> (observed (gateway_effects (calls c))).*2 `sublist_of` all_reports (calls c).
Proof.
  intros [I1 _ _ I4 _] Eg. rewrite Eg in I1. rewrite app_nil_r in I4. rewrite <- I4.
  etransitivity; [|exact (faithful_reports _ _ _ (gi_faithful _ _ I1))]. apply sublist_inserts_r. reflexivity.
Qed.

(** Reports come from the exchanges there are. *)
Lemma report_exchange c i r : ok c -> r ∈ exchange_reports i (calls c) -> is_Some (exchange_ptrs_ c !! i).
Proof.
  intros [_ _ I3 _ _] Hr. destruct (exchange_ptrs_ c !! i) eqn:Ex; [by eexists|]. apply lookup_ge_None in Ex.
  destruct (I3 i Ex) as [_ E3]. rewrite E3 in Hr. by apply elem_of_nil in Hr.
Qed.

(** The reports on an order sent come from its exchange. *)
Lemma reports_of_order c g i o j r :
  ok c -> gateway_ c = Some g -> in_widths c ->
  o ∈ sends_to (ids c) i (gateway_effects (calls c)) -> j <> i ->
  r ∈ exchange_reports j (calls c) -> r_order_id r <> o_id o.
Proof.
  intros Hc Eg Hw Ho Hj Hr Er. destruct (report_exchange c j r Hc Hr) as [y Hy].
  destruct (exchange_facts c g j y Hc Eg Hw Hy) as [[_ _ Hl _ _] _]. destruct (Hl r Hr) as (o' & Ho' & Eo').
  apply sends_to_elem in Ho as (v & Hv & Hp), Ho' as (v' & Hv' & Hp').
  pose proof Hc as [I1 _ _ _ _]. rewrite Eg in I1. pose proof (sends_distinct c g I1 Hw) as Hn.
  rewrite <- list_fmap_compose in Hn.
  assert ((v, o) = (v', o')) as [= -> ->] by (apply (key_unique _ _ _ _ Hn Hv Hv'); cbn; congruence). congruence.
Qed.

(** A fill shown is of an order sent, as its exchange reported it. *)
Lemma shown_fill c g f :
  ok c -> gateway_ c = Some g -> in_widths c -> f ∈ shown c ->
  exists i x o, exchange_ptrs_ c !! i = Some x /\ o ∈ sends_to (ids c) i (gateway_effects (calls c)) /\
    o_id o = fe_order_id f /\ SimulatedExchange.within_limit o (fe_price f) /\ 0 < fe_quantity f.
Proof.
  intros Hc Eg Hw Hf. rewrite (shown_observed c Hc) in Hf. apply list_elem_of_fmap in Hf as ([o' r] & -> & Hin).
  pose proof Hc as [I1 _ _ _ _]. rewrite Eg in I1. destruct (gi_faithful _ _ I1) as [_ _ F3 _ _ F6].
  rewrite Forall_forall in F3, F6. specialize (F3 _ Hin). specialize (F6 _ Hin). cbn in F3, F6.
  assert (r ∈ all_reports (calls c)) as Hr.
  { eapply sublist_subseteq; [by eapply observed_reports|]. by apply (list_elem_of_fmap_2 snd _ (o', r)). }
  apply reports_all_elem in Hr as [i Hr]. destruct (report_exchange c i r Hc Hr) as [x Hx].
  destruct (exchange_facts c g i x Hc Eg Hw Hx) as [[Ht _ Hl _ _] Hfr]. destruct (Hl r Hr) as (o & Ho & Eo).
  rewrite Forall_forall in Ht, Hfr.
  destruct (SimulatedExchange.tracked_fills x _ o (Hfr o Ho) (Ht o Ho)) as [Hall _].
  rewrite Forall_forall in Hall. destruct (Hall r) as [_ Hlim].
  { unfold SimulatedExchange.reports_on. apply list_elem_of_In, filter_In. split; [by apply list_elem_of_In|].
    by apply Z.eqb_eq. }
  exists i, x, o. cbn. split_and!; [done|done|congruence|by apply Hlim|done].
Qed.

(** No more is shown for an order sent than its quantity. *)
Lemma shown_within c g i x o :
  ok c -> gateway_ c = Some g -> in_widths c -> exchange_ptrs_ c !! i = Some x ->
  o ∈ sends_to (ids c) i (gateway_effects (calls c)) -> shown_on c (o_id o) <= o_quantity o.
Proof.
  intros Hc Eg Hw Hx Ho. pose proof Hc as [I1 _ _ _ _]. rewrite Eg in I1.
  destruct (gi_faithful _ _ I1) as [_ _ _ _ _ F6].
  assert (shown_on c (o_id o) = sum_by (fills_of (o_id o)) (observed (gateway_effects (calls c))).*2) as ->.
  { unfold shown_on. rewrite (shown_observed c Hc). revert F6. generalize (observed (gateway_effects (calls c))).
    induction 1 as [|[o' r] l Hor _ IH]; [done|]. rewrite !fmap_cons, !sum_by_cons, IH. f_equal.
    cbn in *. unfold fills_of. by rewrite Hor. }
  destruct (exchange_facts c g i x Hc Eg Hw Hx) as [[Ht _ _ _ _] Hfr]. rewrite Forall_forall in Ht, Hfr.
  destruct (SimulatedExchange.tracked_fills x _ o (Hfr o Ho) (Ht o Ho)) as [Hall Hsum].
  pose proof (reports_of_one i (o_id o) (calls c) (fun j r Hj Hr => reports_of_order c g i o j r Hc Eg Hw Ho Hj Hr)) as Hone.
  etransitivity; [apply sum_by_sublist_le; [by eapply observed_reports|]|rewrite Hone, fills_of_reports; exact Hsum].
  apply Forall_forall. intros r Hr. unfold fills_of. destruct (Z.eqb_spec (r_order_id r) (o_id o)) as [Er|]; [|done].
  apply reports_all_elem in Hr as [j Hr]. destruct (decide (j = i)) as [->|Hj].
  - rewrite Forall_forall in Hall. apply (Hall r). unfold SimulatedExchange.reports_on.
    apply list_elem_of_In, filter_In. split; [by apply list_elem_of_In|by apply Z.eqb_eq].
  - by destruct (reports_of_order c g i o j r Hc Eg Hw Ho Hj Hr).
Qed.

End controller.

End SorController.

(** ** Properties *)

Section properties.
Import SorController.
Context {SS : StdSort} {UM : UnorderedMap} {J E : Type} `{!Json J E}.
Context (walk : gset str -> list str).

(** C3. What is displayed agrees: in any history of the controller, whatever
    the configuration, the clocks, the draws of the exchanges and the turns of
    the threads, the position displayed for a symbol is the signed sum of the
    fills displayed for it, drained in earlier frames or waiting for the next. *)
Theorem displayed_positions (e : env) (ops : list op) (c : t) (symbol : FixedString.t) :
  history walk e ops = Some c -> net_quantity (get_position c symbol) = i64 (net_shown c symbol).
Proof.
  intros Hc%reachable_ok. unfold net_shown. rewrite (shown_observed c Hc). destruct Hc as [I1 _ _ _ _].
  unfold get_position, query. destruct (gateway_ c) as [g|].
  - destruct I1 as [[now H1] [F1 _ _ _ _ _] _ _ _]. rewrite position_get.
    pose proof (Gateway.history_positions now (gateway_ops (calls c)) symbol) as Hp. rewrite H1 in Hp. cbn [fst] in Hp.
    rewrite Hp. unfold Gateway.net_of_fills. rewrite F1. f_equal. unfold sum_by. rewrite <- !list_fmap_compose.
    f_equal. apply list_fmap_ext. by intros _ [o r] _.
  - destruct I1 as (_ & _ & ->). done.
Qed.

(** C2. What is displayed happened: in any history of the controller the
    orders an exchange was called to take are, one for one and in order, those
    the gateway sent to it, and its state is the one these calls and its other
    calls lead to; every order sent went to the exchange of its venue; and
    every fill displayed is of an order an exchange took, within its limit
    price and of a positive quantity, and no more is displayed for an order
    than its quantity. *)
Theorem displayed_fills (e : env) (ops : list op) (c : t) :
  history walk e ops = Some c -> in_widths c ->
  (forall i x, exchange_ptrs_ c !! i = Some x ->
     (SimulatedExchange.history (SimulatedExchange.config_ x) (exchange_ops i (calls c))).1 = x /\
     SimulatedExchange.sent (exchange_ops i (calls c)) = sends_to (ids c) i (gateway_effects (calls c))) /\
  (forall v o, (v, o) ∈ sends (gateway_effects (calls c)) -> exists i x,
     exchange_ptrs_ c !! i = Some x /\ exchange_id x = v /\ o ∈ SimulatedExchange.sent (exchange_ops i (calls c))) /\
  (forall f, f ∈ shown c -> exists i x o,
     exchange_ptrs_ c !! i = Some x /\ o ∈ SimulatedExchange.sent (exchange_ops i (calls c)) /\
     o_id o = fe_order_id f /\ SimulatedExchange.within_limit o (fe_price f) /\ 0 < fe_quantity f /\
     shown_on c (fe_order_id f) <= o_quantity o).
Proof.
  intros Hc%reachable_ok Hw. pose proof Hc as [I1 I2 _ _ _].
  assert (forall i x, exchange_ptrs_ c !! i = Some x ->
    SimulatedExchange.sent (exchange_ops i (calls c)) = sends_to (ids c) i (gateway_effects (calls c))) as Hsent.
  { intros i x Hx. destruct (I2 i x Hx) as [_ <-]. cbn. by rewrite app_nil_r. }
  split; [|split].
  - intros i x Hx. split; [by rewrite (proj1 (I2 i x Hx))|by eapply Hsent].
  - destruct (gateway_ c) as [g|]; [|destruct I1 as (_ & _ & ->); intros v o H; by apply elem_of_nil in H].
    intros v o Hin. destruct (gi_sends _ _ I1) as [_ Hs]. rewrite Forall_forall in Hs.
    destruct (Hs _ Hin) as (Hv & _). destruct (place_some v (ids c)) as [i Hi]; [by apply (gi_venues _ _ I1)|].
    destruct (place_exchange c v i Hi) as (x & Hx & Hid). exists i, x. split; [done|]. split; [done|].
    rewrite (Hsent i x Hx). apply sends_to_elem. by exists v.
  - destruct (gateway_ c) as [g|] eqn:Eg.
    + intros f Hf. destruct (shown_fill c g f Hc Eg Hw Hf) as (i & x & o & H1 & H2 & H3 & H4 & H5).
      exists i, x, o. rewrite (Hsent i x H1). split_and!; try done. rewrite <- H3. by eapply shown_within.
    + destruct I1 as (_ & _ & E0). intros f. rewrite (shown_observed c Hc), E0. by intros ?%elem_of_nil.
Qed.

End properties.

(** ** Examples *)

#[local] Instance no_json : Json Doc.value Doc.error := Doc.json [].

Definition half : double := d_lit 5 1.

(** The default configuration, with the clocks standing still. *)
Definition sample_env : SorController.env :=
  SorController.mk_env None false 0 0 [] (fun _ _ => 1000) (fun _ _ => 1000).

Definition still : nat -> Timestamp := fun _ => 2000.

Definition sample_params : OrderParams :=
  mkParams (lit "AAPL") Buy 100 OT_Limit (d_of_Z 155) TIF_GTC RS_BestPrice.

(** An order from its submission to its fill on the display. *)
Definition sample_session : list SorController.op :=
  [SorController.Start; SorController.SubmitOrder sample_params 2000;
   SorController.OrderTurn still (fun _ => still); SorController.QuoteTurn] ++
  (flip fmap (seq 0 3) (fun i => SorController.MatchTurn i (fun _ _ => half) (fun _ => still))) ++
  replicate 6 (SorController.ReportTurn still (fun _ => still)) ++ [SorController.DrainFills].

Abbreviation sample_run := (SorController.history base.elements sample_env sample_session) (only parsing).

Definition widths_ok (c : SorController.t) : bool :=
  (1 + Z.of_nat (length (SorController.gateway_ops (SorController.calls c)))
     + Z.of_nat (length (SorController.gateway_effects (SorController.calls c))) <=? 18446744073709551615) &&
  forallb (fun vo => bool_decide (in_i64 (o_quantity vo.2))) (sends (SorController.gateway_effects (SorController.calls c))).

Lemma widths_ok_spec c : widths_ok c = true -> SorController.in_widths c.
Proof.
  intros [H1 H2]%andb_true_iff. split; [by apply Z.leb_le|]. apply Forall_forall. intros vo Hin.
  rewrite forallb_forall in H2. by apply (bool_decide_eq_true_1 _ (H2 vo (proj1 (list_elem_of_In _ _) Hin))).
Qed.

(** The buy of 100 is filled and displayed. *)
Lemma sample_shown :
  match sample_run with
  | Some c => (SorController.net_shown c SorController.AAPL, length (SorController.shown c), widths_ok c) = (100, 1%nat, true)
  | None => False
  end.
Proof. vm_compute. reflexivity. Qed.

Lemma displayed_positions_witness : exists c,
  sample_run = Some c /\ net_quantity (SorController.get_position c SorController.AAPL) = 100.
Proof.
  pose proof sample_shown as H. destruct sample_run as [c|] eqn:Er; [|destruct H]. injection H as H1 H2 H3.
  exists c. split; [reflexivity|]. rewrite (displayed_positions base.elements sample_env sample_session c _ Er), H1. reflexivity.
Defined.

Lemma displayed_fills_witness : exists c f,
  sample_run = Some c /\ f ∈ SorController.shown c /\ 0 < fe_quantity f /\ SorController.shown_on c (fe_order_id f) <= 100.
Proof.
  pose proof sample_shown as H. destruct sample_run as [c|] eqn:Er; [|destruct H]. injection H as H1 H2 H3.
  pose proof (displayed_fills base.elements sample_env sample_session c Er (widths_ok_spec c H3)) as (Hx & _ & Hf).
  assert (match sample_run with
          | Some c => forallb (fun vo => o_quantity vo.2 =? 100) (sends (SorController.gateway_effects (SorController.calls c)))
          | None => false end = true) as Hq by (vm_compute; reflexivity).
  rewrite Er in Hq. destruct (SorController.shown c) as [|f fs] eqn:Es; [discriminate H2|].
  exists c, f. split; [reflexivity|]. split; [rewrite Es; left|].
  destruct (Hf f (list_elem_of_here f fs)) as (i & x & o & Hi & Ho & _ & _ & Hpos & Hle). split; [exact Hpos|].
  rewrite (proj2 (Hx i x Hi)) in Ho.
  apply SorController.sends_to_elem in Ho as (v & Hv & _). rewrite forallb_forall in Hq.
  specialize (Hq (v, o) (proj1 (list_elem_of_In _ _) Hv)). cbn in Hq. apply Z.eqb_eq in Hq. rewrite <- Hq. exact Hle.
Defined.

(** A second [start] ends the process. *)
Example start_twice : SorController.history base.elements sample_env [SorController.Start; SorController.Start] = None.
Proof. vm_compute. reflexivity. Qed.

(** After a restart orders are sent to exchanges that are not connected any
    more: the child is tracked for ever and nothing is reported. *)
Example restart_loses_orders :
  match SorController.history base.elements sample_env
          ([SorController.Start; SorController.Stop (fun _ => still)] ++ sample_session) with
  | Some c => (length (sends (SorController.gateway_effects (SorController.calls c))),
               SorController.all_reports (SorController.calls c), SorController.get_children c 1)
              = (1%nat, [], [2])
  | None => False
  end.
Proof. vm_compute. reflexivity. Qed.

(** The feeds share their seed: after the first ticks all the venues show the
    same book. *)
Example feeds_are_identical :
  match SorController.history base.elements sample_env [] with
  | Some c => (fun f => (price <$> BookSide.live (OrderBook.bids (SimulatedFeedHandler.book_ f)),
                         quantity <$> BookSide.live (OrderBook.bids (SimulatedFeedHandler.book_ f))))
                <$> SorController.feeds_ c
              = replicate 3 (match SorController.feeds_ c with
                             | f :: _ => (price <$> BookSide.live (OrderBook.bids (SimulatedFeedHandler.book_ f)),
                                          quantity <$> BookSide.live (OrderBook.bids (SimulatedFeedHandler.book_ f)))
                             | [] => ([], []) end)
  | None => False
  end.
Proof. vm_compute. reflexivity. Qed.
