(* ===== verification/SorMetrics.v ===== *)
(** * Metrics of the router (sor/infra/metrics.h, metrics.cpp)

    Named values behind a mutex-protected map whose entries are never removed,
    updated without the lock: an addition to an atomic [double] is a loop
    around a weak compare-exchange, which may also fail for no reason.  Every
    access to the map or to a value is a step, in any interleaving of any
    number of threads.  The Prometheus objects are library objects: what is
    done to them is returned. *)

From S2P Require Import Prelude Double CppString QueueSpec.

Module MetricsManager.

(** ** Lifecycle *)

Record t := mk { initialized_ : bool; impl_ : bool }.

Definition create : t := mk false false.

(** [built]: whether the library objects are built without an exception. *)
Definition init (built : bool) (m : t) : bool * t :=
  if initialized_ m then (true, m)
  else if built then (true, mk true true) else (false, mk false false).

Definition shutdown (m : t) : t := if initialized_ m then mk false false else m.

(** ** The generic metrics *)

(** [increment] and [observe] add; [set_gauge] stores. *)
Inductive request := Add (name : str) (value : double) | SetTo (name : str) (value : double).

#[local] Instance double_eq_dec : EqDecision double.
Proof. solve_decision. Defined.

Abbreviation memory := (gmap str double).

(** The value of a metric: a new one is zero. *)
Definition value (m : memory) (name : str) : double := default (d_of_Z 0) (m !! name).

Definition get_or_create (name : str) (m : memory) : memory :=
  match m !! name with Some _ => m | None => <[name := d_of_Z 0]> m end.

(** Where a thread is in its current request. *)
Inductive pc :=
| Idle
| Lookup (r : request)
| Load (name : str) (v : double)
| Cas (name : str) (v old : double)
| Store (name : str) (v : double).

(** A thread: where it is, and the requests it has yet to make. *)
Record thread := mkThread { pc_ : pc; todo : list request }.

(** [committed] is the order in which the requests took effect; no step reads
    it. *)
Record sys := mkSys { mem : memory; threads : nat -> thread; committed : list (nat * request) }.

Definition move (s : sys) (i : nat) (p : pc) (m : memory) : sys :=
  mkSys m (set_thread (threads s) i (mkThread p (todo (threads s i)))) (committed s).

Definition commit (s : sys) (i : nat) (r : request) (m : memory) : sys :=
  mkSys m (set_thread (threads s) i (mkThread Idle (todo (threads s i)))) (committed s ++ [(i, r)]).

(** The next access of a thread; [spurious]: its compare-exchange fails
    whatever the value is. *)
Definition step (s : sys) (i : nat) (spurious : bool) : sys :=
  match pc_ (threads s i) with
  | Idle =>
      match todo (threads s i) with
      | [] => s
      | r :: rs => mkSys (mem s) (set_thread (threads s) i (mkThread (Lookup r) rs)) (committed s)
      end
  | Lookup (Add name v) => move s i (Load name v) (get_or_create name (mem s))
  | Lookup (SetTo name v) => move s i (Store name v) (get_or_create name (mem s))
  | Load name v => move s i (Cas name v (value (mem s) name)) (mem s)
  | Cas name v old =>
      let current := value (mem s) name in
      if negb spurious && bool_decide (current = old)
      then commit s i (Add name v) (<[name := dadd old v]> (mem s))
      else move s i (Cas name v current) (mem s)
  | Store name v => commit s i (SetTo name v) (<[name := v]> (mem s))
  end.

Definition run (s : sys) (sched : list (nat * bool)) : sys :=
  fold_left (fun s '(i, spurious) => step s i spurious) sched s.

Definition start (progs : nat -> list request) : sys := mkSys ∅ (fun i => mkThread Idle (progs i)) [].

(** ** Timers and the metrics of the router *)

(** [~ScopedTimer]: the elapsed microseconds. *)
Definition scoped_timer (name : str) (start now : Z) : request := Add name (d_of_Z ((now - start) /! 1000)).

(** The uses of the Prometheus objects. *)
Inductive prometheus :=
| Observe (family : string) (venue : option str) (v : double)
| Increment (family : string)
| SetGauge (family : string) (symbol : option str) (v : double).

Definition with_impl (m : t) (p : prometheus) : list prometheus := if impl_ m then [p] else [].

Definition record_order_latency (m : t) (us : double) : list prometheus * request :=
  (with_impl m (Observe "sor_order_latency_us" None us), Add (lit "sor_order_latency_us") us).
Definition record_routing_latency (m : t) (us : double) : list prometheus * request :=
  (with_impl m (Observe "sor_routing_latency_us" None us), Add (lit "sor_routing_latency_us") us).
Definition record_venue_latency (m : t) (venue : str) (us : double) : list prometheus * request :=
  (with_impl m (Observe "sor_venue_latency_us" (Some venue) us), Add (lit "sor_venue_latency_us." ++ venue) us).
Definition increment_orders_routed (m : t) : list prometheus * request :=
  (with_impl m (Increment "sor_orders_routed_total"), Add (lit "sor_orders_routed_total") (d_of_Z 1)).
Definition increment_orders_rejected (m : t) : list prometheus * request :=
  (with_impl m (Increment "sor_orders_rejected_total"), Add (lit "sor_orders_rejected_total") (d_of_Z 1)).
Definition increment_fills (m : t) : list prometheus * request :=
  (with_impl m (Increment "sor_fills_total"), Add (lit "sor_fills_total") (d_of_Z 1)).
Definition set_active_orders (m : t) (count : Z) : list prometheus * request :=
  (with_impl m (SetGauge "sor_active_orders" None (d_of_Z count)), SetTo (lit "sor_active_orders") (d_of_Z count)).
Definition set_position (m : t) (symbol : str) (quantity : double) : list prometheus * request :=
  (with_impl m (SetGauge "sor_position" (Some symbol) quantity), SetTo (lit "sor_position." ++ symbol) quantity).

(** ** The sequential specification *)

(** A request on the value of a metric. *)
Definition apply (name : str) (v : double) (r : request) : double :=
  match r with
  | Add n x => if decide (n = name) then dadd v x else v
  | SetTo n x => if decide (n = name) then x else v
  end.

Definition replay (name : str) (rs : list request) : double := fold_left (apply name) rs (d_of_Z 0).

(** The requests of a thread, in an order of all. *)
Definition requests_of (i : nat) (log : list (nat * request)) : list request :=
  omap (fun ir => if decide (ir.1 = i) then Some ir.2 else None) log.

Definition in_flight (p : pc) : list request :=
  match p with
  | Idle => []
  | Lookup r => [r]
  | Load n v | Cas n v _ => [Add n v]
  | Store n v => [SetTo n v]
  end.

(** *** The invariant *)

Record inv (progs : nat -> list request) (s : sys) : Prop := {
  inv_values name : value (mem s) name = replay name (committed s).*2;
  inv_threads i : requests_of i (committed s) ++ in_flight (pc_ (threads s i)) ++ todo (threads s i) = progs i
}.

Lemma value_create name n m : value (get_or_create name m) n = value m n.
Proof.
  unfold get_or_create. case_match eqn:En; [done|]. unfold value.
  destruct (decide (name = n)) as [<-|]; [by rewrite (lookup_insert_eq m), En|by rewrite lookup_insert_ne].
Qed.

Lemma value_insert name v m n : value (<[name := v]> m) n = if decide (name = n) then v else value m n.
Proof.
  unfold value. destruct (decide (name = n)) as [<-|]; [by rewrite lookup_insert_eq|by rewrite lookup_insert_ne].
Qed.

Lemma requests_snoc i j r log :
  requests_of i (log ++ [(j, r)]) = requests_of i log ++ (if decide (j = i) then [r] else []).
Proof. unfold requests_of. rewrite omap_app. cbn. by destruct (decide (j = i)). Qed.

(** A step inside a request. *)
Lemma move_inv progs s i p m :
  inv progs s -> (forall n, value m n = value (mem s) n) -> in_flight p = in_flight (pc_ (threads s i)) ->
  inv progs (move s i p m).
Proof.
  intros [I1 I2] Hm Hp. split; cbn.
  - intros n. by rewrite Hm.
  - intros j. destruct (decide (j = i)) as [->|Hj]; [rewrite set_thread_eq|rewrite set_thread_ne by done]; cbn; [|apply I2].
    rewrite Hp. apply I2.
Qed.

(** The step where it takes effect. *)
Lemma commit_inv progs s i r m :
  inv progs s -> in_flight (pc_ (threads s i)) = [r] ->
  (forall n, value m n = apply n (value (mem s) n) r) -> inv progs (commit s i r m).
Proof.
  intros [I1 I2] Hp Hm. split; cbn [commit committed mem threads].
  - intros n. unfold replay. rewrite fmap_app, fold_left_app. cbn. by rewrite Hm, I1.
  - intros j. rewrite requests_snoc, <- (I2 j).
    destruct (decide (j = i)) as [->|Hj].
    + rewrite set_thread_eq, decide_True, Hp, <- app_assoc by done. done.
    + rewrite set_thread_ne, decide_False, app_nil_r by done. done.
Qed.

Lemma metric_step_inv progs s i spurious : inv progs s -> inv progs (step s i spurious).
Proof.
  intros Hi. unfold step. destruct (pc_ (threads s i)) as [|[n v|n v]|n v|n v old|n v] eqn:Ep.
  - destruct (todo (threads s i)) as [|r rs] eqn:Et; [done|]. destruct Hi as [I1 I2]. split; [done|].
    intros j. cbn [committed threads]. rewrite <- (I2 j). destruct (decide (j = i)) as [->|Hj]; [|by rewrite set_thread_ne].
    by rewrite set_thread_eq, Ep, Et.
  - apply move_inv; [done|intros; by rewrite value_create|by rewrite Ep].
  - apply move_inv; [done|intros; by rewrite value_create|by rewrite Ep].
  - apply move_inv; [done|done|by rewrite Ep].
  - destruct (negb spurious && bool_decide (value (mem s) n = old)) eqn:Eb.
    + apply andb_true_iff in Eb as [_ Eb%bool_decide_eq_true]. apply commit_inv; [done|by rewrite Ep|].
      intros n'. rewrite value_insert. cbn. destruct (decide (n = n')) as [<-|]; [by rewrite Eb|done].
    + apply move_inv; [done|done|by rewrite Ep].
  - apply commit_inv; [done|by rewrite Ep|]. intros n'. rewrite value_insert. cbn. by destruct (decide (n = n')).
Qed.

Lemma metric_run_inv progs sched : inv progs (run (start progs) sched).
Proof.
  unfold run. apply (fold_left_inv _ (fun s _ => inv progs s)); [by split|].
  intros s _ [i spurious] _. apply metric_step_inv.
Qed.

(** A request in flight, alone, takes effect within three accesses. *)
Lemma solo_commits s i r :
  in_flight (pc_ (threads s i)) = [r] ->
  exists k, (k <= 3)%nat /\ committed (run s (replicate k (i, false))) = committed s ++ [(i, r)].
Proof.
  assert (forall s n v, pc_ (threads s i) = Cas n v (value (mem s) n) ->
    committed (step s i false) = committed s ++ [(i, Add n v)]) as Hcas.
  { intros s' n v Ep. unfold step. rewrite Ep. cbn [negb andb]. by rewrite bool_decide_eq_true_2. }
  assert (forall s n v, pc_ (threads s i) = Load n v ->
    committed (step (step s i false) i false) = committed s ++ [(i, Add n v)]) as Hload.
  { intros s' n v Ep. rewrite (Hcas _ n v).
    - unfold step. by rewrite Ep.
    - unfold step. rewrite Ep. cbn. by rewrite set_thread_eq. }
  destruct (pc_ (threads s i)) as [|[n v|n v]|n v|n v old|n v] eqn:Ep; intros [= <-].
  - exists 3%nat. split; [lia|]. cbn. rewrite (Hload _ n v).
    + unfold step. by rewrite Ep.
    + unfold step. rewrite Ep. cbn. by rewrite set_thread_eq.
  - exists 2%nat. split; [lia|]. cbn. unfold step at 2. rewrite Ep. unfold step. cbn. by rewrite set_thread_eq.
  - exists 2%nat. split; [lia|]. by apply Hload.
  - destruct (decide (value (mem s) n = old)) as [<-|Hne].
    + exists 1%nat. split; [lia|]. by apply Hcas.
    + exists 2%nat. split; [lia|]. cbn. rewrite (Hcas _ n v).
      * unfold step. rewrite Ep. cbn [negb andb]. by rewrite bool_decide_eq_false_2.
      * unfold step. rewrite Ep. cbn [negb andb]. rewrite bool_decide_eq_false_2 by done. cbn. by rewrite set_thread_eq.
  - exists 1%nat. split; [lia|]. cbn. unfold step. by rewrite Ep.
Qed.

End MetricsManager.

(** ** Properties *)

Import MetricsManager.

(** The metrics are linearizable: under any interleaving of any number of
    threads, spurious failures included, every value is what the requests give
    one after the other in the order of their effects; each thread's requests
    take effect once and in its order, none is lost; and a request in flight
    takes effect within three accesses when its thread runs alone. *)
Theorem metrics_linearizable (progs : nat -> list request) (sched : list (nat * bool)) :
  let s := run (start progs) sched in
  (forall name, value (mem s) name = replay name (committed s).*2) /\
  (forall i, requests_of i (committed s) ++ in_flight (pc_ (threads s i)) ++ todo (threads s i) = progs i) /\
  (forall i r, in_flight (pc_ (threads s i)) = [r] -> exists k, (k <= 3)%nat /\
     committed (run s (replicate k (i, false))) = committed s ++ [(i, r)]).
Proof.
  cbv zeta. destruct (metric_run_inv progs sched) as [H1 H2]. split; [done|]. split; [done|]. intros i r. apply solo_commits.
Qed.

(** Two increments that load the same value: one of the exchanges fails and
    is tried again. *)
Example increments_meet :
  let progs := fun i : nat => [(increment_fills create).2] in
  let s := run (start progs) ((fun i => (i, false)) <$> [0; 0; 0; 1; 1; 1; 0; 1; 1])%nat in
  value (mem s) (lit "sor_fills_total") = d_of_Z 2 /\ (committed s).*1 = [0; 1]%nat.
Proof. vm_compute. split; reflexivity. Qed.
