(* ===== verification/Tracing.v ===== *)
(** * Order traces (sor/infra/tracing.h, tracing.cpp)

    The tracer: the events of each order with their latencies, and the
    collection of old completed traces.  Each method holds the mutex and is
    one step; clock readings are arguments. *)

From S2P Require Import Prelude CppString Types Strategy.

Module Tracer.

Record TraceEvent := mkEvent {
  e_order_id : OrderId;
  stage : str;
  detail : str;
  timestamp : Timestamp;
  latency_from_start : Z                (* microseconds *)
}.

Record OrderTrace := mkTrace { start : Timestamp; events : list TraceEvent; active : bool }.

(** The traces by order. *)
Abbreviation t := (gmap OrderId OrderTrace).

Definition create : t := ∅.

Definition latency (ot : OrderTrace) (now : Timestamp) : Z := (now -! start ot) /! 1000.

Definition push (ot : OrderTrace) (ev : TraceEvent) : OrderTrace := { ot with events ::= fun es => es ++ [ev] }.

Definition begin_trace (id : OrderId) (now : Timestamp) (tr : t) : t :=
  <[id := mkTrace now [mkEvent id (lit "begin") [] now 0] true]> tr.

(** [started]: the reading that starts a trace that was never begun. *)
Definition trace (id : OrderId) (stg dtl : str) (started now : Timestamp) (tr : t)
    : t :=
  let ot := default (mkTrace started [] true) (tr !! id) in
  <[id := push ot (mkEvent id stg dtl now (latency ot now))]> tr.

Definition end_trace (id : OrderId) (now : Timestamp) (tr : t) : t :=
  match tr !! id with
  | None => tr
  | Some ot =>
      <[id := { push ot (mkEvent id (lit "end") [] now (latency ot now)) with active := false }]> tr
  end.

Definition get_trace (id : OrderId) (tr : t) : list TraceEvent :=
  match tr !! id with None => [] | Some ot => events ot end.

Definition is_tracing (id : OrderId) (tr : t) : bool :=
  match tr !! id with None => false | Some ot => active ot end.

(** [std::setw(8)] of an integer. *)
Definition setw8 (z : Z) : str :=
  let s := to_string z in replicate (8 - length s) " "%char ++ s.

Definition newline : str := ["010"%char].

Definition dump_event (ev : TraceEvent) : str :=
  lit "  [+" ++ setw8 (latency_from_start ev) ++ lit " us] " ++ stage ev ++
  match detail ev with [] => [] | d => lit " -- " ++ d end ++ newline.

Definition dump_trace (id : OrderId) (tr : t) : str :=
  match tr !! id with
  | None => lit "(no trace for order " ++ to_string id ++ lit ")"
  | Some ot =>
      lit "Trace for order " ++ to_string id ++ lit " (" ++ to_string (Z.of_nat (length (events ot))) ++
      lit " events, " ++ (if active ot then lit "active" else lit "completed") ++ lit "):" ++ newline ++
      (events ot ≫= dump_event)
  end.

(** ** Collection *)

Section gc.
Context {SS : StdSort} {UM : UnorderedMap}.

Definition is_completed (e : OrderId * OrderTrace) : bool := negb (active e.2).

(** The completed traces, oldest first. *)
Definition completed (tr : t) : list (OrderId * Timestamp) :=
  std_sort (fun a b => a.2 <? b.2) ((fun e => (e.1, start e.2)) <$> List.filter is_completed (map_entries tr)).

(** The loop: [k] are still to be removed. *)
Fixpoint remove_oldest (k : nat) (entries : list (OrderId * Timestamp)) (tr : t)
    : t :=
  match k, entries with
  | S k, e :: entries => remove_oldest k entries (delete e.1 tr)
  | _, _ => tr
  end.

Definition gc (max_traces : nat) (tr : t) : t :=
  if (size tr <=? max_traces)%nat then tr
  else remove_oldest (size tr - max_traces) (completed tr) tr.

(** ** What a collection leaves *)

Lemma remove_oldest_lookup k entries tr id :
  remove_oldest k entries tr !! id = if decide (id ∈ (take k entries).*1) then None else tr !! id.
Proof.
  revert entries tr. induction k as [|k IH]; intros entries tr; cbn [remove_oldest].
  { rewrite decide_False; [done|]. apply not_elem_of_nil. }
  destruct entries as [|e entries]; [rewrite decide_False; [done|]; apply not_elem_of_nil|].
  rewrite IH. cbn. destruct (decide (id ∈ (take k entries).*1)) as [H|H].
  - rewrite decide_True; [done|]. by right.
  - destruct (decide (id = e.1)) as [->|Hne].
    + rewrite lookup_delete_eq, decide_True; [done|]. by left.
    + rewrite lookup_delete_ne, decide_False; [done| |done]. by intros [?|?]%elem_of_cons.
Qed.

Lemma remove_oldest_size k entries tr :
  NoDup entries.*1 -> (forall id, id ∈ entries.*1 -> is_Some (tr !! id)) ->
  size (remove_oldest k entries tr) = (size tr - Nat.min k (length entries))%nat.
Proof.
  revert entries tr. induction k as [|k IH]; intros entries tr Hn Hin; cbn [remove_oldest]; [cbn; lia|].
  destruct entries as [|e entries]; [cbn; lia|]. cbn in Hn. apply NoDup_cons in Hn as [He Hn].
  rewrite IH; [|done|].
  - rewrite map_size_delete. destruct (Hin e.1) as [ot ->]; [by left|]. cbn. lia.
  - intros id Hid. rewrite lookup_delete_ne; [apply Hin; by right|]. by intros <-.
Qed.

Lemma completed_elem tr id s :
  (id, s) ∈ completed tr <-> exists ot, tr !! id = Some ot /\ active ot = false /\ start ot = s.
Proof.
  unfold completed. rewrite std_sort_perm, list_elem_of_fmap. split.
  - intros ([id' ot] & [= -> ->] & Hin). apply list_elem_of_In, filter_In in Hin as [Hin Ha%negb_true_iff].
    apply list_elem_of_In, map_entries_elem in Hin. by exists ot.
  - intros (ot & Hl & Ha & <-). exists (id, ot). split; [done|]. apply list_elem_of_In, filter_In.
    split; [by apply list_elem_of_In, map_entries_elem|]. unfold is_completed. cbn. by rewrite Ha.
Qed.

Lemma completed_ids tr : (completed tr).*1 ≡ₚ (List.filter is_completed (map_entries tr)).*1.
Proof.
  unfold completed. rewrite std_sort_perm, <- list_fmap_compose. done.
Qed.

Lemma completed_NoDup tr : NoDup (completed tr).*1.
Proof.
  rewrite completed_ids. apply (sublist_NoDup _ (map_entries tr).*1);
    [rewrite map_entries_perm; apply NoDup_fst_map_to_list|]. apply fmap_sublist.
  induction (map_entries tr) as [|e l IH]; cbn; [constructor|]. destruct (is_completed e); by constructor.
Qed.

(** The traces still going on. *)
Definition active_count (tr : t) : nat := length (List.filter (fun e => active e.2) (map_entries tr)).

Lemma completed_length tr : (length (completed tr) + active_count tr = size tr)%nat.
Proof.
  assert (length (completed tr) = length (List.filter is_completed (map_entries tr))) as ->.
  { pose proof (Permutation_length (completed_ids tr)) as H. by rewrite !length_fmap in H. }
  unfold active_count, is_completed.
  assert (size tr = length (map_entries tr)) as ->
    by (by rewrite (Permutation_length (map_entries_perm _ tr)), length_map_to_list).
  induction (map_entries tr) as [|e l IH]; [done|]. cbn. destruct (active e.2); cbn; lia.
Qed.

Lemma removed_before k tr id s id' s' :
  (id, s) ∈ take k (completed tr) -> (id', s') ∈ drop k (completed tr) -> s <= s'.
Proof.
  assert (StronglySorted (fun a b : OrderId * Timestamp => (b.2 <? a.2) = false) (completed tr)) as Hs
    by (apply (std_sort_sorted _ (fun a b : OrderId * Timestamp => a.2 <? b.2)), _).
  revert Hs. generalize (completed tr). intros l Hs. revert k.
  induction Hs as [|a l Hs IH Ha]; intros k H1 H2; [by rewrite take_nil in H1; apply elem_of_nil in H1|].
  destruct k as [|k]; [by apply elem_of_nil in H1|]. cbn in H1, H2. apply elem_of_cons in H1 as [<-|H1].
  - rewrite Forall_forall in Ha. apply Z.ltb_ge. apply (Ha (id', s')). by eapply sublist_subseteq, H2; apply sublist_drop.
  - by eapply IH.
Qed.

End gc.

End Tracer.

(** ** Properties *)

Import Tracer.

(** A collection keeps every trace that is going on and changes none; when
    there are more traces than allowed it removes completed ones, the oldest
    first, until as many are left as allowed, or only the ones going on. *)
Theorem gc_exact `{!StdSort, !UnorderedMap} (max_traces : nat) (tr : t) :
  let tr' := gc max_traces tr in
  tr' ⊆ tr /\
  (forall id ot, tr !! id = Some ot -> active ot = true -> tr' !! id = Some ot) /\
  (forall id ot id' ot', tr !! id = Some ot -> tr' !! id = None -> tr' !! id' = Some ot' -> active ot' = false ->
     start ot <= start ot') /\
  size tr' = (if (size tr <=? max_traces)%nat then size tr else Nat.max max_traces (active_count tr)).
Proof.
  cbv zeta. unfold gc. destruct (Nat.leb_spec (size tr) max_traces) as [Hle|Hlt].
  { split_and!; [done|done|congruence|done]. }
  set (k := (size tr - max_traces)%nat).
  assert (forall id ot, tr !! id = Some ot -> id ∈ (take k (completed tr)).*1 ->
    active ot = false /\ (id, start ot) ∈ take k (completed tr)) as Hrem.
  { intros id ot Hl ([id' s] & -> & Hin)%list_elem_of_fmap. cbn in Hl. pose proof Hin as Hin'.
    eapply sublist_subseteq in Hin'; [|apply sublist_take]. apply completed_elem in Hin' as (ot' & Hl' & Ha & <-).
    assert (ot' = ot) as -> by congruence. done. }
  split_and!.
  - apply map_subseteq_spec. intros id ot. rewrite remove_oldest_lookup. by destruct (decide _).
  - intros id ot Hl Ha. rewrite remove_oldest_lookup. destruct (decide _) as [Hin|]; [|done].
    destruct (Hrem id ot Hl Hin). congruence.
  - intros id ot id' ot' Hl. rewrite !remove_oldest_lookup. destruct (decide (id ∈ _)) as [Hin|]; [|congruence].
    intros _. destruct (decide (id' ∈ _)) as [|Hin']; [done|]. intros Hl' Ha'.
    destruct (Hrem id ot Hl Hin) as [_ H1]. eapply removed_before; [exact H1|].
    assert ((id', start ot') ∈ completed tr) as Hc by (apply completed_elem; by exists ot').
    rewrite <- (take_drop k (completed tr)), elem_of_app in Hc. destruct Hc as [Hc|Hc]; [|exact Hc].
    destruct Hin'. by apply (list_elem_of_fmap_2 fst _ (id', start ot')).
  - rewrite remove_oldest_size; [|apply completed_NoDup|].
    + pose proof (completed_length tr). lia.
    + intros id ([id' s] & -> & Hin)%list_elem_of_fmap. apply completed_elem in Hin as (ot & Hl & _). by exists ot.
Qed.

(** An order begun, traced and ended is completed, and its events are in order. *)
Example traced_order :
  let tr := end_trace 7 3000000 (trace 7 (lit "route") [] 0 2000000 (begin_trace 7 1000000 create)) in
  (is_tracing 7 tr, (fun e => latency_from_start e) <$> get_trace 7 tr) = (false, [0; 1000; 2000]).
Proof. vm_compute. reflexivity. Qed.

(** A trace that is never ended is never collected. *)
Example active_traces_stay : size (gc 0 (trace 2 (lit "fill") [] 5 6 (begin_trace 1 0 create))) = 2%nat.
Proof. vm_compute. reflexivity. Qed.
