(* ===== verification/ZmqTransport.v ===== *)
(** * The ZMQ transport (sor/gateway/zmq_transport.h, zmq_transport.cpp)

    The server in front of the JSON gateway: the thread that answers requests,
    a step per call it makes, interleaved with its owner, with publishers and
    with whatever else changes the state behind the handler.  The results of
    the library's calls are arguments.  [Service] is the handler that the main
    program (sor/app/main.cpp) installs, with the events it publishes. *)

From S2P Require Import Prelude Double CppString Types Risk Aggregator Gateway Json ApiGateway.

Open Scope cpp_scope.

Module ZmqTransport.

Record Config := mkConfig {
  order_endpoint : str;
  market_data_endpoint : str;
  execution_endpoint : str;
  recv_timeout_ms : Z
}.

Definition default_Config : Config :=
  mkConfig (lit "tcp://*:5555") (lit "tcp://*:5556") (lit "tcp://*:5557") 100.

Record Stats := mkStats {
  requests_received : Z;
  requests_handled : Z;
  md_published : Z;
  exec_published : Z;
  errors : Z
}.

(** The handler is a parameter of the steps; here is whether there is one,
    and which of the library objects exist. *)
Record t := mk {
  config_ : Config;
  running_ : bool;
  request_handler_ : bool;
  context_ : bool;
  rep_socket_ : bool;
  md_pub_ : bool;
  exec_pub_ : bool;
  stats_ : Stats
}.

Definition create (config : Config) : t := mk config false false false false false false (mkStats 0 0 0 0 0).

Definition set_request_handler (z : t) : t := { z with request_handler_ := true }.

Definition bump (n : Z) : Z := u64 (n + 1).

(** [start]: of the context, the REP socket, its binding, the first PUB socket,
    its binding, the second PUB socket and its binding, the first [ok] are
    made and the next throws.  A new context replaces the one that is there,
    whose destructor waits for the sockets to be closed: [None] when it waits
    for ever. *)
Definition start (ok : nat) (z : t) : option bool * t :=
  if running_ z then (Some false, z)
  else if (ok <? 1)%nat then (Some false, z)
  else if context_ z && (rep_socket_ z || md_pub_ z || exec_pub_ z) then (None, z)
  else
    let z := { z with context_ := true;
                      rep_socket_ := rep_socket_ z || (2 <=? ok)%nat;
                      md_pub_ := md_pub_ z || (4 <=? ok)%nat;
                      exec_pub_ := exec_pub_ z || (6 <=? ok)%nat } in
    if (7 <=? ok)%nat then (Some true, { z with running_ := true }) else (Some false, z).

(** [stop] up to the join: whether it goes on. *)
Definition stop_begin (z : t) : bool * t :=
  if running_ z then (true, { z with running_ := false }) else (false, z).

(** The sockets are closed, under the publishers' mutex, then the context. *)
Definition stop_end (z : t) : t :=
  { z with exec_pub_ := false; md_pub_ := false; rep_socket_ := false; context_ := false }.

(** ** Publishing *)

(** A frame, with whether more of its message follow. *)
Abbreviation frame := (str * bool)%type.

(** Which of the two sends return; the next one throws. *)
Inductive sent := Both | TopicOnly | Neither.

Definition frames (topic payload : str) (r : sent) : list frame :=
  match r with
  | Both => [(topic, true); (payload, false)]
  | TopicOnly => [(topic, true)]
  | Neither => []
  end.

Definition publish_market_data (topic payload : str) (r : sent) (z : t) : t * list frame :=
  if negb (md_pub_ z) || negb (running_ z) then (z, [])
  else ({ z with stats_ ::= fun st => match r with
                                      | Both => { st with md_published ::= bump }
                                      | _ => { st with errors ::= bump }
                                      end }, frames topic payload r).

Definition publish_execution_event (topic payload : str) (r : sent) (z : t) : t * list frame :=
  if negb (exec_pub_ z) || negb (running_ z) then (z, [])
  else ({ z with stats_ ::= fun st => match r with
                                      | Both => { st with exec_published ::= bump }
                                      | _ => { st with errors ::= bump }
                                      end }, frames topic payload r).

(** The messages a subscriber gets: they end with a frame that no other
    follows. *)
Fixpoint messages (parts : list str) (fs : list frame) : list (list str) :=
  match fs with
  | [] => []
  | (f, true) :: fs => messages (parts ++ [f]) fs
  | (f, false) :: fs => (parts ++ [f]) :: messages [] fs
  end.

(** ** The request loop *)

(** The responses written in the code. *)
Definition quote (s : string) : str := "034"%char :: lit s ++ ["034"%char].
Definition error_text (message : string) : str :=
  lit "{" ++ quote "status" ++ lit ":" ++ quote "error" ++ lit "," ++ quote "message" ++ lit ":" ++ quote message ++ lit "}".

Definition internal_error : str := error_text "internal error".
Definition no_handler : str := error_text "no handler configured".

(** Where the request thread is: before the test of [running_], before
    [recv], with a request to count, to handle, after an exception of the
    handler, with a response to send, to count. *)
Inductive pc :=
| NoThread
| Top
| Receiving
| Received (body : str)
| Handling (body : str)
| Failed
| Sending (response : str)
| Counting
| Ended.

(** What [recv] does. *)
Inductive received := Timeout | Message (body : str) | RecvThrows.

(** The owner: free, in [stop] before the join has returned, or waiting for
    ever in [start]. *)
Inductive owner := Free | Joining | Stuck.

(** The traffic of the REP socket. *)
Inductive traffic := In (body : str) | Out (response : str).

Section loop.
(** The state behind the handler, what else happens to it, the handler. *)
Context {G Op E : Type}.
Context (outside : Op -> G -> G).
Context (handler : Timestamp -> str -> G -> G * (E + str)).

Inductive action := Handled (now : Timestamp) (body : str) | Unhandled (body : str) | Other (o : Op).

(** [rep], [md] and [exec] are the traffic of the sockets and [hist] what
    happened to the state behind the handler; no step reads them.  [crashed]:
    an exception left the request thread, which ends the process. *)
Record sys := mkSys {
  zmq : t;
  main_ : owner;
  loop : pc;
  state : G;
  crashed : bool;
  rep : list traffic;
  md : list frame;
  exec : list frame;
  hist : list action
}.

Definition begin (config : Config) (g : G) : sys := mkSys (create config) Free NoThread g false [] [] [] [].

Inductive move :=
| Start (ok : nat)
| StopBegin
| StopEnd
| SetHandler
| Loop (r : received) (now : Timestamp) (throws : bool)
| PublishMarketData (topic payload : str) (r : sent)
| PublishExecutionEvent (topic payload : str) (r : sent)
| Outside (o : Op).

(** A step of the request thread: [r] is what its [recv] does, [throws]
    whether its [send] throws. *)
Definition loop_step (r : received) (now : Timestamp) (throws : bool) (s : sys) : sys :=
  match loop s with
  | NoThread | Ended => s
  | Top => { s with loop := if running_ (zmq s) then Receiving else Ended }
  | Receiving =>
      match r with
      | Timeout => { s with loop := Top }
      | Message body => { s with loop := Received body; rep ::= fun tr => tr ++ [In body] }
      | RecvThrows => { s with crashed := true }
      end
  | Received body =>
      { s with loop := Handling body; zmq ::= fun z => { z with stats_ ::= fun st => { st with requests_received ::= bump } } }
  | Handling body =>
      if request_handler_ (zmq s) then
        let '(g, out) := handler now body (state s) in
        { s with state := g; loop := (match out with inr response => Sending response | inl _ => Failed end);
                 hist ::= fun h => h ++ [Handled now body] }
      else { s with loop := Sending no_handler; hist ::= fun h => h ++ [Unhandled body] }
  | Failed =>
      { s with loop := Sending internal_error; zmq ::= fun z => { z with stats_ ::= fun st => { st with errors ::= bump } } }
  | Sending response =>
      if throws then { s with crashed := true } else { s with loop := Counting; rep ::= fun tr => tr ++ [Out response] }
  | Counting =>
      { s with loop := Top; zmq ::= fun z => { z with stats_ ::= fun st => { st with requests_handled ::= bump } } }
  end.

Definition step (s : sys) (m : move) : sys :=
  if crashed s then s
  else match m with
  | Start ok =>
      match main_ s with
      | Free =>
          let '(r, z) := start ok (zmq s) in
          { s with zmq := z; main_ := (match r with None => Stuck | Some _ => Free end);
                   loop := (match r with Some true => Top | _ => loop s end) }
      | _ => s
      end
  | StopBegin =>
      match main_ s with
      | Free => let '(goes_on, z) := stop_begin (zmq s) in
                { s with zmq := z; main_ := if goes_on : bool then Joining else Free }
      | _ => s
      end
  | StopEnd =>
      match main_ s, loop s with
      | Joining, Ended => { s with zmq ::= stop_end; main_ := Free; loop := NoThread }
      | _, _ => s
      end
  | SetHandler => { s with zmq ::= set_request_handler }
  | Loop r now throws => loop_step r now throws s
  | PublishMarketData topic payload r =>
      let '(z, fs) := publish_market_data topic payload r (zmq s) in { s with zmq := z; md ::= fun l => l ++ fs }
  | PublishExecutionEvent topic payload r =>
      let '(z, fs) := publish_execution_event topic payload r (zmq s) in { s with zmq := z; exec ::= fun l => l ++ fs }
  | Outside o => { s with state ::= outside o; hist ::= fun h => h ++ [Other o] }
  end.

Definition run (config : Config) (g : G) (ms : list move) : sys := fold_left step ms (begin config g).

(** ** The sequential server *)

(** One action: the state it leaves, and the request it answers with the
    response. *)
Definition serve1 (a : action) (g : G) : G * list (str * str) :=
  match a with
  | Handled now body =>
      let '(g, out) := handler now body g in
      (g, [(body, match out with inr response => response | inl _ => internal_error end)])
  | Unhandled body => (g, [(body, no_handler)])
  | Other o => (outside o g, [])
  end.

Definition serve (g : G) (h : list action) : G * list (str * str) :=
  fold_left (fun '(g, l) a => let '(g, new) := serve1 a g in (g, l ++ new)) h (g, []).

Definition exchange (qr : str * str) : list traffic := [In qr.1; Out qr.2].

(** What the thread has received and not handled, handled and not sent. *)
Definition unhandled (p : pc) : list traffic :=
  match p with Received body | Handling body => [In body] | _ => [] end.
Definition unsent (p : pc) : list traffic :=
  match p with Failed => [Out internal_error] | Sending response => [Out response] | _ => [] end.

Definition ins (tr : list traffic) : nat := length (List.filter (fun e => match e with In _ => true | _ => false end) tr).
Definition outs (tr : list traffic) : nat := length (List.filter (fun e => match e with Out _ => true | _ => false end) tr).
Definition ends (fs : list frame) : nat := length (List.filter (fun f => negb f.2) fs).

#[local] Arguments serve : simpl never.
#[local] Arguments ins : simpl never.
#[local] Arguments outs : simpl never.
#[local] Arguments ends : simpl never.

(** Requests and responses the thread has yet to count. *)
Definition uncounted_in (p : pc) : Z := match p with Received _ => 1 | _ => 0 end.
Definition uncounted_out (p : pc) : Z := match p with Counting => 1 | _ => 0 end.

(** The thread is between its start and its end. *)
Definition alive (p : pc) : bool := match p with NoThread | Ended => false | _ => true end.

(** *** The invariant *)

(** A thread runs while the transport does, and until it is joined. *)
Definition owner_ok (o : owner) (running : bool) (p : pc) : Prop :=
  match o with
  | Free => if running then alive p = true else p = NoThread
  | Joining => running = false /\ p <> NoThread
  | Stuck => running = false /\ p = NoThread
  end.

Lemma owner_alive o running p q : alive p = true -> alive q = true -> owner_ok o running p -> owner_ok o running q.
Proof. destruct o, running, p, q; cbn; naive_solver. Qed.

Lemma owner_ends o p : alive p = true -> owner_ok o false p -> owner_ok o false Ended.
Proof. destruct o, p; cbn; naive_solver. Qed.

Record inv (g : G) (s : sys) : Prop := {
  inv_served : state s = (serve g (hist s)).1 /\
               rep s ++ unsent (loop s) = ((serve g (hist s)).2 ≫= exchange) ++ unhandled (loop s);
  inv_counts : requests_received (stats_ (zmq s)) = u64 (Z.of_nat (ins (rep s)) - uncounted_in (loop s)) /\
               requests_handled (stats_ (zmq s)) = u64 (Z.of_nat (outs (rep s)) - uncounted_out (loop s));
  inv_published : md_published (stats_ (zmq s)) = u64 (Z.of_nat (ends (md s))) /\
                  exec_published (stats_ (zmq s)) = u64 (Z.of_nat (ends (exec s)));
  inv_owner : owner_ok (main_ s) (running_ (zmq s)) (loop s);
  inv_sockets : (rep_socket_ (zmq s) || md_pub_ (zmq s) || exec_pub_ (zmq s) = true -> context_ (zmq s) = true) /\
                (running_ (zmq s) = true \/ main_ s = Joining ->
                 rep_socket_ (zmq s) = true /\ md_pub_ (zmq s) = true /\ exec_pub_ (zmq s) = true)
}.

Lemma serve_snoc g h a :
  serve g (h ++ [a]) = ((serve1 a (serve g h).1).1, (serve g h).2 ++ (serve1 a (serve g h).1).2).
Proof.
  unfold serve. rewrite fold_left_app. cbn. destruct (fold_left _ h (g, [])) as [g' l]. cbn. by destruct (serve1 a g').
Qed.

Lemma ins_snoc tr e : ins (tr ++ [e]) = (ins tr + match e with In _ => 1 | _ => 0 end)%nat.
Proof. unfold ins. rewrite List.filter_app, length_app. by destruct e. Qed.
Lemma outs_snoc tr e : outs (tr ++ [e]) = (outs tr + match e with Out _ => 1 | _ => 0 end)%nat.
Proof. unfold outs. rewrite List.filter_app, length_app. by destruct e. Qed.

Lemma bump_u64 a : bump (u64 a) = u64 (a + 1).
Proof. apply u64_add_l. Qed.

Lemma ends_frames fs topic payload r : ends (fs ++ frames topic payload r) = (ends fs + match r with Both => 1 | _ => 0 end)%nat.
Proof. unfold ends. rewrite List.filter_app, length_app. by destruct r. Qed.

(** The parts of the invariant a step does not touch. *)
Ltac untouched := split; cbn; rewrite ?app_nil_r, ?Z.sub_0_r; try done.

Lemma ins_outs_snoc tr e :
  ins (tr ++ [e]) = (ins tr + match e with In _ => 1 | _ => 0 end)%nat /\
  outs (tr ++ [e]) = (outs tr + match e with Out _ => 1 | _ => 0 end)%nat.
Proof. split; [apply ins_snoc|apply outs_snoc]. Qed.

(** The request thread leaves the owner and the sockets as they are. *)
Lemma loop_step_inv g s r now throws : inv g s -> inv g (loop_step r now throws s).
Proof.
  destruct s as [[cf rn hd cx rs mp ep [nr nh nm ne er]] mn p st cr tr fm fe h].
  intros Hi. pose proof Hi as [[Hst Hrep] [Hin Hout] Hpub Hown Hso]. unfold loop_step. cbn in *.
  destruct p as [| | |body|body| |response| |]; cbn in Hrep, Hin, Hout;
    rewrite ?app_nil_r, ?Z.sub_0_r in *; try exact Hi.
  - destruct rn; untouched;
      [exact (owner_alive _ _ Top Receiving eq_refl eq_refl Hown)|exact (owner_ends _ Top eq_refl Hown)].
  - destruct r as [|body|]; [| |by destruct Hi; split]; untouched.
    + exact (owner_alive _ _ Receiving Top eq_refl eq_refl Hown).
    + by rewrite Hrep.
    + destruct (ins_outs_snoc tr (In body)) as [-> ->]. rewrite Hin, Hout. split; f_equal; lia.
    + exact (owner_alive _ _ Receiving (Received body) eq_refl eq_refl Hown).
  - untouched; [|exact (owner_alive _ _ (Received body) (Handling body) eq_refl eq_refl Hown)].
    rewrite Hin, bump_u64. split; [f_equal; lia|done].
  - destruct hd; [destruct (handler now body st) as [g' out] eqn:Eh|].
    + untouched.
      * rewrite serve_snoc, <- Hst. cbn. rewrite Eh. cbn. split; [done|]. rewrite bind_app, Hrep. cbn.
        rewrite <- app_assoc. by destruct out; cbn [unsent unhandled]; rewrite app_nil_r.
      * destruct out; cbn; by rewrite ?Z.sub_0_r.
      * apply (owner_alive _ _ (Handling body)); [done|by destruct out|exact Hown].
    + untouched; [|exact (owner_alive _ _ (Handling body) (Sending no_handler) eq_refl eq_refl Hown)].
      rewrite serve_snoc. cbn. split; [done|]. by rewrite bind_app, Hrep, <- app_assoc.
  - untouched. exact (owner_alive _ _ Failed (Sending internal_error) eq_refl eq_refl Hown).
  - destruct throws; [by destruct Hi; split|].
    untouched; [|exact (owner_alive _ _ (Sending response) Counting eq_refl eq_refl Hown)].
    destruct (ins_outs_snoc tr (Out response)) as [-> ->]. rewrite Hin, Hout. split; f_equal; lia.
  - untouched; [|exact (owner_alive _ _ Counting Top eq_refl eq_refl Hown)]. rewrite Hout, bump_u64. split; [done|f_equal; lia].
Qed.

(** The owner and the publishers leave the requests as they are. *)
Lemma start_inv g s ok : inv g s -> inv g (step s (Start ok)).
Proof.
  destruct s as [[cf rn hd cx rs mp ep [nr nh nm ne er]] mn p st cr tr fm fe h].
  intros Hi. pose proof Hi as [Hs Hc Hp Hown Hso]. unfold step. cbn -[start] in Hs, Hc, Hp, Hown, Hso |- *.
  destruct cr; [done|]. destruct mn; [|done..]. unfold start. cbn -[Nat.ltb Nat.leb]. destruct rn; [done|]. cbn in Hown. subst p.
  destruct (ok <? 1)%nat; [exact Hi|]. destruct (cx && (rs || mp || ep)) eqn:Eb.
  { split; cbn -[Nat.ltb Nat.leb]; try done. split; [exact (proj1 Hso)|]. by intros [|]. }
  destruct (7 <=? ok)%nat eqn:Eok; split; cbn -[Nat.ltb Nat.leb]; try done; (split; [done|]).
  - intros _. apply Nat.leb_le in Eok. rewrite !(proj2 (Nat.leb_le _ _)) by lia. by rewrite !orb_true_r.
  - by intros [|].
Qed.

Lemma owner_inv g s m :
  (m = StopBegin \/ m = StopEnd \/ m = SetHandler) -> inv g s -> inv g (step s m).
Proof.
  destruct s as [[cf rn hd cx rs mp ep [nr nh nm ne er]] mn p st cr tr fm fe h].
  intros Hm Hi. pose proof Hi as [Hs Hc Hp Hown Hso]. unfold step. cbn in Hs, Hc, Hp, Hown, Hso |- *.
  destruct cr; [done|]. destruct Hm as [->|[->| ->]].
  - destruct mn; [|done..]. unfold stop_begin. cbn. destruct rn; [|exact Hi]. split; cbn; try done.
    + split; [done|]. by intros ->.
    + split; [exact (proj1 Hso)|]. intros _. by apply (proj2 Hso); left.
  - destruct mn; [done| |done]. destruct p; try done. destruct Hown as [-> _]. split; cbn; try done.
    split; [done|]. by intros [|].
  - by split.
Qed.

Lemma publishing_inv g s m :
  (exists topic payload r, m = PublishMarketData topic payload r \/ m = PublishExecutionEvent topic payload r) ->
  inv g s -> inv g (step s m).
Proof.
  destruct s as [[cf rn hd cx rs mp ep [nr nh nm ne er]] mn p st cr tr fm fe h].
  intros (topic & payload & r & Hm) Hi. pose proof Hi as [Hs Hc [Hp1 Hp2] Hown Hso].
  unfold step. cbn in Hs, Hc, Hp1, Hp2, Hown, Hso |- *. destruct cr; [done|].
  destruct Hm as [-> | ->]; unfold publish_market_data, publish_execution_event; cbn;
    [destruct mp|destruct ep]; destruct rn; cbn; try (by split; cbn; rewrite ?app_nil_r);
    destruct r; split; cbn -[frames]; try done; rewrite ends_frames, ?Hp1, ?Hp2, ?bump_u64;
    split; f_equal; lia.
Qed.

Lemma outside_inv g s o : inv g s -> inv g (step s (Outside o)).
Proof.
  destruct s as [z mn p st cr tr fm fe h]. intros [Hs Hc Hp Hown Hso]. unfold step. cbn in *.
  destruct cr; [done|]. split; cbn; try done. rewrite serve_snoc. cbn. rewrite app_nil_r.
  destruct Hs as [-> Hs]. done.
Qed.

Lemma zmq_step_inv g s m : inv g s -> inv g (step s m).
Proof.
  intros Hi. destruct m.
  - by apply start_inv.
  - apply owner_inv; [by left|done].
  - apply owner_inv; [by right; left|done].
  - apply owner_inv; [by right; right|done].
  - unfold step. destruct (crashed s); [done|]. by apply loop_step_inv.
  - apply publishing_inv; [by eauto|done].
  - apply publishing_inv; [by eauto|done].
  - by apply outside_inv.
Qed.

Lemma zmq_run_inv config g ms : inv g (run config g ms).
Proof.
  unfold run. apply (fold_left_inv _ (fun s _ => inv g s)); [|by intros s _ m _; apply zmq_step_inv].
  split; cbn; try done. by split; [|intros [|]].
Qed.

(** *** Stopping *)

(** The steps the request thread may take before it ends, once [running_] is
    off. *)
Definition rank (p : pc) : nat :=
  match p with
  | NoThread | Ended => 0
  | Top => 1
  | Counting => 2
  | Sending _ => 3
  | Failed => 4
  | Handling _ => 5
  | Received _ => 6
  | Receiving => 7
  end.

(** No call of the request thread throws, and the owner is still waiting. *)
Definition calm (m : move) : bool :=
  match m with
  | Loop RecvThrows _ _ | Loop _ _ true | StopEnd => false
  | _ => true
  end.

Definition is_loop (m : move) : bool := match m with Loop _ _ _ => true | _ => false end.

Definition stopping (s : sys) : Prop :=
  crashed s = false /\ main_ s = Joining /\ running_ (zmq s) = false /\ loop s <> NoThread.

Lemma stopping_step s m :
  stopping s -> calm m = true ->
  stopping (step s m) /\ (rank (loop (step s m)) <= rank (loop s) - if is_loop m then 1 else 0)%nat.
Proof.
  destruct s as [[cf rn hd cx rs mp ep sts] mn p st cr tr fm fe h]. unfold stopping, step. cbn.
  intros (-> & -> & -> & Hp) Hm. destruct m as [ok| | | |r now throws|tp pl r|tp pl r|o]; cbn; try done.
  - split; [done|lia].
  - split; [done|lia].
  - split; [done|lia].
  - unfold loop_step. cbn. destruct p; try done; cbn.
    + destruct r, throws; try done; cbn; (split; [done|lia]).
    + destruct hd; [destruct (handler now body st) as [g' out]|]; cbn; [destruct out; cbn|]; (split; [done|lia]).
    + destruct r, throws; try done; cbn; (split; [done|lia]).
  - destruct mp; cbn; (split; [done|lia]).
  - destruct ep; cbn; (split; [done|lia]).
  - split; [done|lia].
Qed.

Lemma stopping_run s ms :
  stopping s -> forallb calm ms = true ->
  stopping (fold_left step ms s) /\
  (rank (loop (fold_left step ms s)) <= rank (loop s) - length (List.filter is_loop ms))%nat.
Proof.
  revert s. induction ms as [|m ms IH]; intros s Hs Hc; cbn; [split; [done|lia]|].
  cbn in Hc. apply andb_true_iff in Hc as [Hm Hc]. destruct (stopping_step s m Hs Hm) as [Hs' Hr].
  destruct (IH _ Hs' Hc) as [H1 H2]. split; [done|]. destruct (is_loop m); cbn; lia.
Qed.

Lemma rank_zero s : stopping s -> rank (loop s) = 0%nat -> loop s = Ended.
Proof. intros (_ & _ & _ & H). by destruct (loop s). Qed.

Lemma rank_bound p : (rank p <= 7)%nat.
Proof. destruct p; cbn; lia. Qed.

End loop.

(** *** What subscribers get *)

(** Messages of which no payload was refused after its topic arrive whole. *)
Lemma messages_whole (pubs : list (str * str * sent)) :
  Forall (fun p => p.2 <> TopicOnly) pubs ->
  messages [] (pubs ≫= fun p => frames p.1.1 p.1.2 p.2)
  = omap (fun p => match p.2 with Both => Some [p.1.1; p.1.2] | _ => None end) pubs.
Proof.
  induction 1 as [|[[topic payload] r] pubs Hr _ IH]; [done|]. cbn in *. destruct r; cbn; [by rewrite IH|done|done].
Qed.

(** A payload that is refused after its topic makes the next message start
    with that topic. *)
Example topics_glued :
  messages [] (frames (lit "AAPL") (lit "1") TopicOnly ++ frames (lit "MSFT") (lit "2") Both)
  = [[lit "AAPL"; lit "MSFT"; lit "2"]].
Proof. reflexivity. Qed.

(** A failed start leaves its sockets open, so that the next one, whose new
    context replaces the old, waits for ever. *)
Lemma retry_blocks (ok ok' : nat) z :
  running_ z = false -> (2 <= ok < 7)%nat -> (1 <= ok')%nat -> (start ok z).1 = Some false -> (start ok' (start ok z).2).1 = None.
Proof.
  intros Hr [Hok Hok7] Hok'. unfold start at 1 3. rewrite Hr.
  rewrite (proj2 (Nat.ltb_ge ok 1)) by lia. destruct (context_ z && _); [done|].
  rewrite (proj2 (Nat.leb_gt 7 ok)), (proj2 (Nat.leb_le 2 ok)) by lia. intros _.
  unfold start. cbn -[Nat.ltb Nat.leb]. rewrite (proj2 (Nat.ltb_ge ok' 1)) by lia. destruct z. cbn in *. subst. by rewrite orb_true_r.
Qed.

End ZmqTransport.

(** ** The service (sor/app/main.cpp) *)

(** [v.value(k, d)]: the string at a key, or the default; it throws for a
    value of another type, and when [v] is no object. *)
Class JsonValue (J E : Type) := value_or : J -> str -> str -> E + str.
#[global] Arguments value_or {J E _} v k d : rename.

Module Service.

Section service.
Context {J E : Type} `{!Json J E, !JsonValue J E}.

Definition error_response (message : str) : J :=
  assign [set "status" (of_string (lit "error")); set "message" (of_string message)].

(** The [catch] around a handler that throws. *)
Definition caught (r : Gateway.t * (E + str)) : Gateway.t * (E + str) :=
  match r with
  | (g, inl e) => (g, dump (error_response (what e)))
  | _ => r
  end.

(** The handler of the requests: by the action they name. *)
Definition dispatch (now : Timestamp) (body : str) (g : Gateway.t) : Gateway.t * (E + str) :=
  match (try req <- parse body; value_or req (lit "action") (lit "status")) with
  | inl e => caught (g, inl e)
  | inr action =>
      if decide (action = lit "new_order") then caught (ApiGateway.handle_new_order g body now)
      else if decide (action = lit "cancel_order") then caught (ApiGateway.handle_cancel_order g body now)
      else if decide (action = lit "query_order") then caught (ApiGateway.handle_query_order g body)
      else if decide (action = lit "status") then caught (g, ApiGateway.handle_status g body)
      else (g, dump (error_response (lit "unknown action: " ++ action)))
  end.

(** What the observers publish: the topic, and the text or the exception of
    [dump]. *)
Definition nbbo_callback (zmq_enabled : bool) (sym : FixedString.t) (n : NBBO.t) : list (str * (E + str)) :=
  if negb zmq_enabled then []
  else [(FixedString.view sym, dump (assign
    [set "symbol" (of_string (FixedString.view sym));
     set "best_bid" (of_double (to_double (NBBO.best_bid n)));
     set "best_ask" (of_double (to_double (NBBO.best_ask n)));
     set "best_bid_qty" (of_int64 (NBBO.best_bid_qty n));
     set "best_ask_qty" (of_int64 (NBBO.best_ask_qty n));
     set "bid_venue" (of_uint64 (NBBO.best_bid_venue n));
     set "ask_venue" (of_uint64 (NBBO.best_ask_venue n));
     set "spread" (of_double (to_double (NBBO.spread n)))]))].

Definition fill_observer (zmq_enabled : bool) (order : Order) (report : ExecutionReport) : list (str * (E + str)) :=
  if negb zmq_enabled then []
  else [(lit "FILL", dump (assign
    [set "event" (of_string (lit "fill"));
     set "order_id" (of_uint64 (o_id order));
     set "symbol" (of_string (FixedString.view (o_symbol order)));
     set "last_price" (of_double (to_double (r_last_price report)));
     set "last_quantity" (of_int64 (r_last_quantity report));
     set "cum_quantity" (of_int64 (r_cum_quantity report));
     set "leaves_quantity" (of_int64 (r_leaves_quantity report));
     set "venue_id" (of_uint64 (r_venue_id report))]))].

Definition completion_observer (zmq_enabled : bool) (order : Order) : list (str * (E + str)) :=
  if negb zmq_enabled then []
  else [(lit "COMPLETE", dump (assign
    [set "event" (of_string (lit "complete"));
     set "order_id" (of_uint64 (o_id order));
     set "symbol" (of_string (FixedString.view (o_symbol order)));
     set "filled_quantity" (of_int64 (o_filled_quantity order));
     set "avg_fill_price" (of_double (to_double (o_avg_fill_price order)))]))].

(** ** The gateway behind the transport *)

Context `{!StdSort, !UnorderedMap}.

(** The gateway with the calls it has made on its venues and observers; its
    other operations go on beside the requests. *)
Abbreviation state := (Gateway.t * list Gateway.effect)%type.

Definition outside (o : Gateway.op) (s : state) : state :=
  let '(g, new) := Gateway.do_op s.1 o in (g, s.2 ++ new).

Definition handler (now : Timestamp) (body : str) (s : state) : state * (E + str) :=
  let '(g, out) := dispatch now body s.1 in ((g, s.2), out).

Lemma caught_state r : (caught r).1 = r.1.
Proof. by destruct r as [g [e|s]]. Qed.

(** A request does to the gateway what one of its operations does, or
    nothing. *)
Lemma dispatch_op now body g :
  (dispatch now body g).1 = g \/ exists o, ((dispatch now body g).1, []) = Gateway.do_op g o.
Proof.
  assert (forall r, ApiGateway.handle g r = ((ApiGateway.handle g r).1, []) ->
    (ApiGateway.handle g r).1 = g \/ exists o, ((ApiGateway.handle g r).1, []) = Gateway.do_op g o) as Hop.
  { intros r Hr. destruct (ApiGateway.handle_op g r) as [->|[o Ho]]; [by left|]. right. exists o. congruence. }
  unfold dispatch. destruct (try _ <- _; _) as [e|action]; [by left|].
  destruct (decide _); [rewrite caught_state; by apply (Hop (ApiGateway.NewOrder body now))|].
  destruct (decide _); [rewrite caught_state; by apply (Hop (ApiGateway.CancelOrder body now))|].
  destruct (decide _); [rewrite caught_state; by apply (Hop (ApiGateway.QueryOrder body))|].
  destruct (decide _); [rewrite caught_state|]; by left.
Qed.

Lemma run_from_snoc g ops o : Gateway.run_from g (ops ++ [o]) = outside o (Gateway.run_from g ops).
Proof.
  unfold Gateway.run_from. rewrite fold_left_app. cbn. unfold outside. by destruct (fold_left _ ops _).
Qed.

Lemma serve_history g h :
  exists ops, (ZmqTransport.serve outside handler (g, []) h).1 = Gateway.run_from g ops.
Proof.
  induction h as [|a h (ops & IH)] using rev_ind; [by exists []|].
  rewrite ZmqTransport.serve_snoc, IH. cbn [fst].
  destruct a as [now body|body|o]; cbn [ZmqTransport.serve1]; [|by exists ops|by exists (ops ++ [o]); rewrite run_from_snoc].
  unfold handler. destruct (dispatch_op now body (Gateway.run_from g ops).1) as [Hd|[o Hd]];
    destruct (dispatch now body (Gateway.run_from g ops).1) as [g' out]; cbn in Hd; cbn [fst snd].
  - subst g'. exists ops. by destruct (Gateway.run_from g ops).
  - exists (ops ++ [o]). rewrite run_from_snoc. unfold outside. by rewrite <- Hd, app_nil_r.
Qed.

End service.

End Service.

(** ** Properties *)

Section properties.
Import ZmqTransport Service.
Context {J E : Type} `{!Json J E, !JsonValue J E, !StdSort, !UnorderedMap}.

(** C13. In any history of the service - starts and stops, requests, published
    messages and other operations of the gateway in any interleaving, failing
    calls included - the gateway is in a state of one of its own histories,
    which the requests and the other operations, one after the other, lead
    to; every request is answered once, in order, with the response the
    handler gave in that sequence, before the next one is received; sockets
    are used only while they are open; the counters count what went through
    the sockets.  A stop under way, when no call throws, is over after seven
    steps of the request thread, whatever else happens, and closes
    everything. *)
Theorem service_answers (config : Config) (g : Gateway.t) (ms : list move) :
  let s := run outside handler config (g, []) ms in
  (exists ops, state s = Gateway.run_from g ops) /\
  state s = (serve outside handler (g, []) (hist s)).1 /\
  rep s ++ unsent (loop s) = ((serve outside handler (g, []) (hist s)).2 ≫= exchange) ++ unhandled (loop s) /\
  (alive (loop s) = true -> rep_socket_ (zmq s) = true) /\
  (running_ (zmq s) = true -> md_pub_ (zmq s) = true /\ exec_pub_ (zmq s) = true) /\
  requests_received (stats_ (zmq s)) = u64 (Z.of_nat (ins (rep s)) - uncounted_in (loop s)) /\
  requests_handled (stats_ (zmq s)) = u64 (Z.of_nat (outs (rep s)) - uncounted_out (loop s)) /\
  md_published (stats_ (zmq s)) = u64 (Z.of_nat (ends (md s))) /\
  exec_published (stats_ (zmq s)) = u64 (Z.of_nat (ends (exec s))) /\
  (crashed s = false -> main_ s = Joining ->
   forall ms', forallb calm ms' = true -> (7 <= length (List.filter is_loop ms'))%nat ->
   let s' := run outside handler config (g, []) (ms ++ ms' ++ [StopEnd]) in
   main_ s' = Free /\ loop s' = NoThread /\ running_ (zmq s') = false /\ context_ (zmq s') = false /\
   rep_socket_ (zmq s') = false /\ md_pub_ (zmq s') = false /\ exec_pub_ (zmq s') = false).
Proof.
  cbv zeta. set (s := run outside handler config (g, []) ms).
  destruct (zmq_run_inv outside handler config (g, []) ms) as [[Hs Hrep] [Hc1 Hc2] [Hp1 Hp2] Hown [Hso1 Hso2]].
  fold s in Hs, Hrep, Hc1, Hc2, Hp1, Hp2, Hown, Hso1, Hso2. split_and!; try done.
  - rewrite Hs. apply serve_history.
  - intros Ha. destruct (main_ s); cbn in Hown.
    + destruct (running_ (zmq s)); [by apply Hso2; left|]. by rewrite Hown in Ha.
    + by apply Hso2; right.
    + destruct Hown as [_ Hown]. by rewrite Hown in Ha.
  - intros Hr. by destruct (Hso2 (or_introl Hr)) as (_ & ? & ?).
  - intros Hcr Hm ms' Hcalm Hlen. rewrite Hm in Hown. destruct Hown as [Hr Hl].
    destruct (stopping_run outside handler s ms' (conj Hcr (conj Hm (conj Hr Hl))) Hcalm) as [Hs' Hrank].
    pose proof (rank_bound (loop s)) as Hb. assert (Hend := rank_zero _ Hs' ltac:(lia)).
    unfold run. rewrite !fold_left_app. fold (run outside handler config (g, []) ms). fold s.
    destruct Hs' as (Hcr' & Hm' & Hr' & _). revert Hcr' Hm' Hr' Hend.
    generalize (fold_left (step outside handler) ms' s). intros [z mn p st cr tr fm fe h]. cbn. intros -> -> Hrn ->. done.
Qed.

End properties.

(** A request is answered while another operation goes on, and the service
    stops. *)
#[local] Instance sample_json : Json Doc.value Doc.error :=
  Doc.json [(lit "order", Doc.Object (set "action" (Doc.String (lit "new_order")) :: match ApiGateway.limit_order with Doc.Object kvs => kvs | _ => [] end))].
#[local] Instance doc_value : JsonValue Doc.value Doc.error := fun v k d =>
  match v with
  | Doc.Object kvs => match Doc.lookup kvs k with Some x => get_string x | None => inr d end
  | _ => inl Doc.type_error
  end.

Example order_through_the_service :
  let s := ZmqTransport.run Service.outside Service.handler ZmqTransport.default_Config (Gateway.create 0, [])
    (ZmqTransport.SetHandler :: ZmqTransport.Start 7 :: ZmqTransport.Outside Gateway.Start ::
     replicate 7 (ZmqTransport.Loop (ZmqTransport.Message (lit "order")) 5 false)) in
  o_symbol <$> Gateway.order_queue_ (ZmqTransport.state s).1 = [Symbol_of "MSFT"] /\
  length (ZmqTransport.rep s) = 2%nat /\ ZmqTransport.requests_handled (ZmqTransport.stats_ (ZmqTransport.zmq s)) = 1.
Proof. vm_compute. split_and!; reflexivity. Qed.
