(* ===== verification/MetricsRegistry.v ===== *)
(** * The registry of the metrics (cunk/include/concurrency/metrics/Metrics.h)

    The metrics by name.  The registry hands out references, which stay valid:
    a use of one is a change of the entry of that name.  Each method holds the
    mutex and is one step. *)

From S2P Require Import Prelude Double CppString Metrics.

(** The order of iteration over names: some enumeration of the entries. *)
Class UnorderedNames := {
  name_entries : forall {V}, gmap str V -> list (str * V);
  name_entries_perm : forall V (m : gmap str V), name_entries m ≡ₚ map_to_list m
}.

#[export] Instance sorted_unordered_names : UnorderedNames :=
  {| name_entries V m := map_to_list m; name_entries_perm V m := reflexivity _ |}.

Lemma name_entries_elem `{!UnorderedNames} {V} (m : gmap str V) e : e ∈ name_entries m <-> m !! e.1 = Some e.2.
Proof. destruct e. by rewrite name_entries_perm, elem_of_map_to_list. Qed.

Module MetricsRegistry.

Record t := mk {
  counters_ : gmap str Z;
  gauges_ : gmap str Z;
  latencies_ : gmap str LatencyTracker.t
}.

Definition create : t := mk ∅ ∅ ∅.

(** [try_emplace]. *)
Definition try_emplace {A} (name : str) (a : A) (m : gmap str A) : gmap str A :=
  match m !! name with Some _ => m | None => <[name := a]> m end.

Definition counter (name : str) (r : t) : t := { r with counters_ ::= try_emplace name 0 }.
Definition gauge (name : str) (r : t) : t := { r with gauges_ ::= try_emplace name 0 }.
Definition latency (name : str) (r : t) : t := { r with latencies_ ::= try_emplace name LatencyTracker.create }.

(** The calls of a sink. *)
Inductive report_call :=
| on_counter (name : str) (value : Z)
| on_gauge (name : str) (value : Z)
| on_latency (name : str) (snap : LatencyTracker.Snapshot).

(** A use of a metric through its reference. *)
Inductive op :=
| GetCounter (name : str) | GetGauge (name : str) | GetLatency (name : str)
| UseCounter (name : str) (f : Z -> Z)
| UseGauge (name : str) (f : Z -> Z)
| UseLatency (name : str) (f : LatencyTracker.t -> LatencyTracker.t).

Definition do_op (r : t) (o : op) : t :=
  match o with
  | GetCounter name => counter name r
  | GetGauge name => gauge name r
  | GetLatency name => latency name r
  | UseCounter name f => { r with counters_ ::= alter f name }
  | UseGauge name f => { r with gauges_ ::= alter f name }
  | UseLatency name f => { r with latencies_ ::= alter f name }
  end.

Definition run_ops (ops : list op) : t := fold_left do_op ops create.

Section reports.
Context {UN : UnorderedNames}.

Definition report (r : t) : list report_call :=
  ((fun e => on_counter e.1 e.2) <$> name_entries (counters_ r)) ++
  ((fun e => on_gauge e.1 e.2) <$> name_entries (gauges_ r)) ++
  ((fun e => on_latency e.1 (LatencyTracker.snapshot e.2)) <$> name_entries (latencies_ r)).

Definition dump_latency (e : str * LatencyTracker.t) : list (str * str) :=
  let s := LatencyTracker.snapshot e.2 in
  [(e.1 ++ lit ".count", to_string (LatencyTracker.count s));
   (e.1 ++ lit ".avg_ns", to_string (i64_of_d (LatencyTracker.avg_ns s)));
   (e.1 ++ lit ".min_ns", to_string (LatencyTracker.min_ns s));
   (e.1 ++ lit ".max_ns", to_string (LatencyTracker.max_ns s))].

Definition dump (r : t) : list (str * str) :=
  ((fun e => (e.1, to_string e.2)) <$> name_entries (counters_ r)) ++
  ((fun e => (e.1, to_string e.2)) <$> name_entries (gauges_ r)) ++
  (name_entries (latencies_ r) ≫= dump_latency).

(** A report names every metric once, with its value. *)
Lemma report_exact r :
  (forall name v, on_counter name v ∈ report r <-> counters_ r !! name = Some v) /\
  (forall name v, on_gauge name v ∈ report r <-> gauges_ r !! name = Some v) /\
  (forall name s, on_latency name s ∈ report r <->
     exists l, latencies_ r !! name = Some l /\ LatencyTracker.snapshot l = s) /\
  length (report r) = (size (counters_ r) + size (gauges_ r) + size (latencies_ r))%nat.
Proof.
  unfold report. split_and!.
  - intros name v. rewrite !elem_of_app, !list_elem_of_fmap. setoid_rewrite name_entries_elem. split; [|by intros H; left; exists (name, v)].
    intros [([n w] & [= -> ->] & H)|[(e & [=] & _)|(e & [=] & _)]]. done.
  - intros name v. rewrite !elem_of_app, !list_elem_of_fmap. setoid_rewrite name_entries_elem. split; [|by intros H; right; left; exists (name, v)].
    intros [(e & [=] & _)|[([n w] & [= -> ->] & H)|(e & [=] & _)]]. done.
  - intros name s. rewrite !elem_of_app, !list_elem_of_fmap. setoid_rewrite name_entries_elem. split.
    + intros [(e & [=] & _)|[(e & [=] & _)|([n l] & [= -> ->] & H)]]. by exists l.
    + intros (l & H & <-). right. right. by exists (name, l).
  - rewrite !length_app, !length_fmap, !(Permutation_length (name_entries_perm _ _)), !length_map_to_list. lia.
Qed.

End reports.

(** ** References stay valid *)

Lemma try_emplace_lookup {A} name (a : A) m n :
  try_emplace name a m !! n = if decide (name = n) then Some (default a (m !! name)) else m !! n.
Proof.
  unfold try_emplace. destruct (decide (name = n)) as [<-|Hn].
  - destruct (m !! name) eqn:E; [done|]. by rewrite lookup_insert_eq.
  - destruct (m !! name); [done|]. by rewrite lookup_insert_ne.
Qed.

(** What the uses of a counter since it was made amount to. *)
Definition counter_uses (name : str) (ops : list op) : option Z :=
  fold_left (fun v o => match o with
                        | GetCounter n => if decide (n = name) then Some (default 0 v) else v
                        | UseCounter n f => if decide (n = name) then f <$> v else v
                        | _ => v
                        end) ops None.

Lemma counter_value name ops : counters_ (run_ops ops) !! name = counter_uses name ops.
Proof.
  induction ops as [|o ops IH] using rev_ind; [done|].
  unfold run_ops, counter_uses in *. rewrite !fold_left_app. cbn [fold_left]. rewrite <- IH.
  generalize (fold_left do_op ops create). intros [cs gs ls]. destruct o as [n|n|n|n f|n f|n f]; cbn; try done.
  - rewrite try_emplace_lookup. destruct (decide (n = name)) as [<-|]; done.
  - destruct (decide (n = name)) as [<-|]; [by rewrite lookup_alter_eq|by rewrite lookup_alter_ne].
Qed.

End MetricsRegistry.

(** Counters are shared by name, and a dump prints them. *)
Example shared_counter :
  let r := MetricsRegistry.run_ops
    [MetricsRegistry.GetCounter (lit "tasks"); MetricsRegistry.UseCounter (lit "tasks") (fun v => Counter.increment v 2);
     MetricsRegistry.GetCounter (lit "tasks"); MetricsRegistry.UseCounter (lit "tasks") (fun v => Counter.increment v 1);
     MetricsRegistry.GetLatency (lit "run")] in
  MetricsRegistry.dump r =
    [(lit "tasks", lit "3"); (lit "run.count", lit "0"); (lit "run.avg_ns", lit "0");
     (lit "run.min_ns", lit "9223372036854775807"); (lit "run.max_ns", lit "0")].
Proof. vm_compute. reflexivity. Qed.
