(* ===== verification/TimeUtils.v ===== *)
(** * Clock readings (sor/utils/time_utils.h, time_utils.cpp)

    Readings are nanoseconds in 64 bits; [now] and [wall_now] are the clocks,
    whose readings are arguments.  [gmtime_r] of the C library is the
    Gregorian calendar, by counting years and months from 1570, before every
    reading that 64 bits can hold. *)

From S2P Require Import Prelude Double CppString Types StringUtils.

Open Scope cpp_scope.

Module TimeUtils.

Definition elapsed_us (start now : Timestamp) : Z := (now -! start) /! 1000.
Definition elapsed_ns (start now : Timestamp) : Z := now -! start.

Definition to_epoch_us (ts : Z) : Z := ts /! 1000.
Definition from_epoch_us (us : Z) : Z := us *! 1000.

(** ** The calendar *)

Record tm := mkTm { tm_year : Z; tm_mon : Z; tm_mday : Z; tm_hour : Z; tm_min : Z; tm_sec : Z }.

Definition leap (y : Z) : bool := (y mod 4 =? 0) && (negb (y mod 100 =? 0) || (y mod 400 =? 0)).

Definition year_days (y : Z) : Z := if leap y then 366 else 365.

Definition month_days (y m : Z) : Z :=
  match m with
  | 1 => if leap y then 29 else 28
  | 3 | 5 | 8 | 10 => 30
  | _ => 31
  end.

(** The period a day falls in, of periods of the given lengths, and the day
    in it. *)
Fixpoint find_period (length_of : Z -> Z) (fuel : nat) (p day : Z) : Z * Z :=
  match fuel with
  | O => (p, day)
  | S fuel => if day <? length_of p then (p, day) else find_period length_of fuel (p + 1) (day - length_of p)
  end.

(** 400 years are 146097 days; 700 years reach past the last reading. *)
Definition gmtime_r (t : Z) : tm :=
  let '(y, day) := find_period year_days 700 1570 (t / 86400 + 146097) in
  let '(m, d) := find_period (month_days y) 11 0 day in
  let s := t mod 86400 in
  mkTm (y - 1900) m (d + 1) (s / 3600) (s / 60 mod 60) (s mod 60).

(** ** Formatting *)

(** The text of [snprintf]. *)
Definition stamp_text (b : tm) (us_part : Z) : str :=
  print_padded 4 (tm_year b + 1900) ++ lit "-" ++ print_padded 2 (tm_mon b + 1) ++ lit "-" ++
  print_padded 2 (tm_mday b) ++ lit " " ++ print_padded 2 (tm_hour b) ++ lit ":" ++
  print_padded 2 (tm_min b) ++ lit ":" ++ print_padded 2 (tm_sec b) ++ lit "." ++ print_padded 6 us_part.

Definition format_timestamp (ts : Z) : option str :=
  let secs := ts /! 1000000000 in
  let us_part := (ts /! 1000) -! (secs *! 1000000) in
  StringUtils.through_buffer 64 (stamp_text (gmtime_r secs) us_part).

Definition format_duration_us (count : Z) : option str :=
  StringUtils.through_buffer 64
    (if count <? 1000 then to_string count ++ lit " us"
     else if count <? 1000000 then StringUtils.print_fixed 3 (ddiv (d_of_Z count) (d_of_Z 1000)) ++ lit " ms"
     else StringUtils.print_fixed 3 (ddiv (d_of_Z count) (d_of_Z 1000000)) ++ lit " s").

(** ** What a date says *)

(** The days of the periods before one. *)
Fixpoint days_before (length_of : Z -> Z) (p : Z) (n : nat) : Z :=
  match n with O => 0 | S n => length_of p + days_before length_of (p + 1) n end.

Definition valid (b : tm) : Prop :=
  1570 <= tm_year b + 1900 <= 2270 /\ 0 <= tm_mon b < 12 /\ 1 <= tm_mday b <= month_days (tm_year b + 1900) (tm_mon b) /\
  0 <= tm_hour b < 24 /\ 0 <= tm_min b < 60 /\ 0 <= tm_sec b < 60.

(** The seconds from the epoch. *)
Definition seconds (b : tm) : Z :=
  let y := tm_year b + 1900 in
  (days_before year_days 1570 (Z.to_nat (y - 1570)) - 146097
   + days_before (month_days y) 0 (Z.to_nat (tm_mon b)) + tm_mday b - 1) * 86400
  + tm_hour b * 3600 + tm_min b * 60 + tm_sec b.

Lemma find_period_spec length_of fuel p day :
  0 <= day < days_before length_of p (S fuel) ->
  let '(p', day') := find_period length_of fuel p day in
  p <= p' <= p + Z.of_nat fuel /\ 0 <= day' < length_of p' /\
  days_before length_of p (Z.to_nat (p' - p)) + day' = day.
Proof.
  revert p day. induction fuel as [|fuel IH]; intros p day Hd.
  - cbn in Hd. cbn [find_period]. rewrite Z.sub_diag. change (Z.to_nat 0) with 0%nat. cbn [days_before]. lia.
  - cbn [find_period]. destruct (Z.ltb_spec day (length_of p)) as [Hlt|Hge].
    + rewrite Z.sub_diag. change (Z.to_nat 0) with 0%nat. cbn [days_before]. lia.
    + cbn [days_before] in Hd. specialize (IH (p + 1) (day - length_of p)). cbn [days_before] in IH.
      destruct (find_period _ fuel _ _) as [p' day']. destruct IH as (Hp & Hd' & He); [lia|].
      split; [lia|]. split; [done|]. replace (Z.to_nat (p' - p)) with (S (Z.to_nat (p' - (p + 1)))) by lia.
      cbn [days_before]. lia.
Qed.

Lemma months_of_year y : days_before (month_days y) 0 12 = year_days y.
Proof. unfold year_days. cbn [days_before]. unfold month_days. cbn. by destruct (leap y). Qed.

(** Beyond the seconds that 64 bits of nanoseconds can hold. *)
Definition in_range (t : Z) : Prop := -9223372037 <= t <= 9223372037.

Lemma gmtime_exact t : in_range t -> valid (gmtime_r t) /\ seconds (gmtime_r t) = t.
Proof.
  unfold in_range. intros Ht. unfold gmtime_r.
  pose proof (find_period_spec year_days 700 1570 (t / 86400 + 146097)) as Hy.
  change (days_before year_days 1570 701) with 256035 in Hy.
  destruct (find_period year_days 700 _ _) as [y day]. destruct Hy as (Hy & Hday & He); [Z.div_mod_to_equations; lia|].
  pose proof (find_period_spec (month_days y) 11 0 day) as Hm. rewrite months_of_year in Hm.
  destruct (find_period (month_days y) _ _ _) as [m d]. destruct Hm as (Hm & Hd & Hmd); [lia|].
  rewrite Z.sub_0_r in Hmd.
  unfold valid, seconds. cbn [tm_year tm_mon tm_mday tm_hour tm_min tm_sec].
  replace (y - 1900 + 1900) with y by lia. split.
  - split; [lia|]. split; [lia|]. split; [lia|]. Z.div_mod_to_equations. lia.
  - rewrite <- Z.add_assoc. Z.div_mod_to_equations. lia.
Qed.

Lemma stamp_length b us :
  valid b -> 0 <= us < 1000000 -> length (stamp_text b us) = 26%nat.
Proof.
  intros (Hy & Hm & Hd & Hh & Hmi & Hs) Hus. unfold stamp_text.
  assert (month_days (tm_year b + 1900) (tm_mon b) <= 31) by (unfold month_days; repeat case_match; lia).
  rewrite !length_app, (print_padded_length 3), !(print_padded_length 1), (print_padded_length 5) by lia. done.
Qed.

End TimeUtils.

(** ** Properties *)

Import TimeUtils.

(** A wall-clock reading since the epoch is printed as its date and time of
    day, in 26 characters, to the microsecond. *)
Theorem format_timestamp_exact ts :
  0 <= ts -> in_i64 ts ->
  exists b us, format_timestamp ts = Some (stamp_text b us) /\ length (stamp_text b us) = 26%nat /\
    valid b /\ 0 <= us < 1000000 /\ seconds b * 1000000 + us = ts / 1000.
Proof.
  intros H0 Hts. unfold in_i64, INT64_MIN, INT64_MAX in Hts.
  assert (ts /! 1000000000 = ts / 1000000000) as Es
    by (rewrite Z.quot_div_nonneg by lia; apply i64_id; unfold in_i64, INT64_MIN, INT64_MAX; Z.div_mod_to_equations; lia).
  assert (ts /! 1000 = ts / 1000) as Eu
    by (rewrite Z.quot_div_nonneg by lia; apply i64_id; unfold in_i64, INT64_MIN, INT64_MAX; Z.div_mod_to_equations; lia).
  set (us := ts / 1000 - ts / 1000000000 * 1000000).
  assert (0 <= us < 1000000) as Hus by (unfold us; Z.div_mod_to_equations; lia).
  assert ((ts /! 1000) -! ((ts /! 1000000000) *! 1000000) = us) as Ep.
  { rewrite Es, Eu, (i64_id (_ * _)), i64_id; [done| |]; unfold in_i64, INT64_MIN, INT64_MAX; Z.div_mod_to_equations; lia. }
  destruct (gmtime_exact (ts / 1000000000)) as [Hv Hs]; [unfold in_range; Z.div_mod_to_equations; lia|].
  exists (gmtime_r (ts / 1000000000)), us. pose proof (stamp_length _ us Hv Hus) as Hl.
  split; [|split; [done|split; [done|split; [done|rewrite Hs; unfold us; lia]]]].
  unfold format_timestamp. cbv zeta. rewrite Ep, Es. unfold StringUtils.through_buffer. by rewrite Hl.
Qed.

Lemma format_timestamp_exact_witness : exists b us,
  format_timestamp 1700000000123456789 = Some (stamp_text b us) /\ length (stamp_text b us) = 26%nat /\
  valid b /\ 0 <= us < 1000000 /\ seconds b * 1000000 + us = 1700000000123456789 / 1000.
Proof. apply (format_timestamp_exact 1700000000123456789); [lia|vm_compute; split; congruence]. Defined.

(** Microseconds since the epoch read back, while they fit in nanoseconds. *)
Lemma epoch_us_roundtrip us : in_i64 (us * 1000) -> to_epoch_us (from_epoch_us us) = us.
Proof.
  intros Hus. unfold to_epoch_us, from_epoch_us. rewrite (i64_id (us * 1000)), Z.quot_mul by (done || lia).
  apply i64_id. unfold in_i64, INT64_MIN, INT64_MAX in *. lia.
Qed.

(** Before the epoch the microseconds are negative, with their sign in the
    text. *)
Example before_the_epoch :
  format_timestamp 1700000000123456789 = Some (lit "2023-11-14 22:13:20.123456") /\
  format_timestamp (-1000) = Some (lit "1970-01-01 00:00:00.-00001").
Proof. vm_compute. split; reflexivity. Qed.

(** Durations in the unit of their size. *)
Example rounded_durations :
  format_duration_us 999 = Some (lit "999 us") /\ format_duration_us 1500 = Some (lit "1.500 ms") /\
  format_duration_us 2000000 = Some (lit "2.000 s").
Proof. vm_compute. split_and!; reflexivity. Qed.
